(* ===== verification/_CoqProject ===== *)
-Q . S2P
Prelude.v
Text.v
Lexer.v
Context.v
Location.v
Encoding.v
Control.v
Spans.v
InlineIgnore.v
Marshal.v
PrivateKey.v
Rule.v
Overlap.v
Windows.v
Catalog.v
Specificity.v
Timed.v
GitIndex.v
GitGraph.v
GitWalk.v
GitCompact.v
GitRepo.v
ObjectCache.v
Ordered.v
Origin.v
FindingsStore.v
Baseline.v
Retry.v
Egress.v
Smtp.v
Leftmost.v
CandidateIndex.v
Certificates.v
Confirmation.v
Expr.v
FilterValue.v
LiquidFilters.v
SpecF64.v
FilterEngine.v
Filter.v
FilterExact.v
FilterSupport.v
ExprParser.v
ExprPrinter.v
ExprRoundtrip.v
ExprParsed.v
Requirements.v
MatchFilter.v
MatchExact.v
Components.v
CandidateSearch.v
HttpFallbacks.v
CandidateContext.v
CandidateSupport.v
Association.v
AssociationExact.v
Markup.v
RawScan.v
RawScanExact.v
Matcher.v
MatcherExact.v
