(* ===== verification/Prelude.v ===== *)
(** * A verified model of Kingfisher's scanning core

    Kingfisher scans files, repositories and archives for credentials. The
    development models its core, file by file, as executable definitions and
    proves what each part promises.

    How the parts interact, in the order of a scan:

    - For a git repository every scannable blob is listed with the commits that
      introduced it ([git_metadata_graph.rs], [git_candidate_summaries.rs],
      [git_repo_enumerator.rs]); for a bucket the listing and the objects are
      cached so that a killed scan resumes ([object_cache.rs]).
    - A blob is decoded ([encoding.rs]) and cut in overlapping segments; the
      multi-pattern scanner reports where candidates end, and each rule confirms
      them in growing windows ([matcher/mod.rs], [scanner.rs], [confirmation.rs],
      [primitives.rs]); Base64 texts are decoded and scanned again.
    - A confirmed capture goes through the checks of its rule ([rule.rs],
      [entropy.rs], [safe_list.rs]), the rule's Betterleaks filter
      ([betterleaks_filter.rs], read by [build_support/betterleaks.rs]), the
      inline directives ([context/inline_ignore.rs]) and the deduplication
      ([matcher/filter.rs], [captures.rs], [location.rs]).
    - On pages and style sheets the texts that the context parsers collect must
      confirm a finding ([context/parser/]); compiled Python yields its string
      constants ([extraction/pyc.rs]); armored private keys are checked
      structurally ([private_key.rs]).
    - The findings of a blob are reduced by the passes of [postprocess.rs], and
      findings that need others to be complete get or lose them ([components.rs],
      [candidate_context.rs], [matcher/mod.rs]); several candidates are tried in
      the order of their ranks ([validation/candidates.rs]), in the HTTP
      environments of the rule ([rule.rs]).
    - Findings are deduplicated, spilled to disk and restored
      ([findings_store.rs]) and compared with a baseline ([baseline.rs]).

    All of it runs under a scan control and resource limits ([scan_control.rs],
    [archive/limits.rs]).

    ** Files

    - [Prelude.v]: bytes, machine integers, slices, searches; tactics and the
      [kf] hint databases.
    - [Text.v]: the methods of UTF-8 [str] that are not byte-wise: trimming by
      Unicode white space, lines, lossy decoding, decimal numbers.
    - [Lexer.v] and [Context.v]: [kingfisher-scanner/src/context/parser/lexer.rs].
      Literal spans, literal lists and the comment stripper; then statements over
      several lines, keys and values, and the extraction of each language. The
      callback is a function on its own state; [feed] is what it sees.
    - [Markup.v]: [css.rs], [html.rs] and [mod.rs] beside it, over what the crates
      [cssparser] and [tl] give.
    - [Location.v]: [kingfisher-core/src/location.rs] and
      [kingfisher-scanner/src/line_index.rs]. [LocationMapping]'s interior
      mutability is explicit: every query returns the mapping after it.
    - [Encoding.v]: [kingfisher-core/src/encoding.rs].
    - [Control.v]: [scan_control.rs] and [archive/limits.rs]. Controlled code runs
      in the monad [Ctl] over a clock of observations; [refines c m p] is the
      interface the other files use: whatever the clock does, the answer is [p]
      or an abort, and an abort needs a control that sets a limit.
    - [Spans.v]: [kingfisher-scanner/src/primitives.rs], Base64 windows, span
      trackers, confirmation windows, secret captures and fingerprints.
    - [InlineIgnore.v]: [context/inline_ignore.rs].
    - [Marshal.v]: [extraction/pyc.rs], a stack machine over a reader that
      survives errors; [wp] states what an operation does whatever the clock is.
    - [PrivateKey.v]: [kingfisher-rules/src/private_key.rs], the BER walk and the
      OpenSSH and OpenPGP readers.
    - [Rule.v]: the fields of [kingfisher-rules/src/rule.rs] that precedence reads.
    - [Overlap.v], [Windows.v], [Catalog.v], [Specificity.v]:
      [kingfisher-scanner/src/postprocess.rs], the match indexes and the URI
      precedence, the component windows, the catalog elimination and the
      specificity precedence.
    - [Timed.v]: runs under a deadline, with errors as values; a run counts its
      checks, and an error remembers the count.
    - [GitIndex.v]: the object index of [src/git_metadata_graph.rs] and
      [src/git_candidate_summaries.rs]. [Prunes] is the interface between the
      index and the traversal: what an index may rule out.
    - [GitGraph.v], [GitWalk.v], [GitCompact.v]: the rest of
      [src/git_metadata_graph.rs]: the commit graph, the visit of a tree, the
      topological traversal, proved against [Prunes]; then its specification
      [introduces] with the refinement, and the compaction of the index.
    - [GitRepo.v]: [src/git_repo_enumerator.rs], all of these put together.
    - [ObjectCache.v]: [src/object_cache.rs] over an explicit disk. An operation is
      the list of writes it makes; [cut] is what a crash leaves of them. [lstep] is
      the system with crashes, labelled by what was called and answered; [outcomes]
      lists the pages and scans that may be durable after such a run.
    - [Ordered.v]: comparison functions with their laws, stable sorting, the
      iteration order of ordered maps.
    - [Origin.v]: [kingfisher-core/src/origin.rs], paths and origin sets.
    - [FindingsStore.v]: [src/findings_store.rs] and [src/findings_store/spill.rs].
    - [Baseline.v]: [src/baseline.rs].
    - [Retry.v]: [src/github/retry.rs], against a service given by its answers.
    - [Egress.v]: [kingfisher-scanner/src/validation/http_validation.rs], the gate on
      hosts with the address parser of the standard library, cache keys, headers,
      retries and the verdict on a response. [outside_blocks] is the table of address
      blocks that the gate is proved to implement.
    - [Smtp.v]: [kingfisher-scanner/src/validation/raw/smtp.rs], what an SMTP
      validation dials, with the registries of special-purpose addresses.
    - [LiquidFilters.v]: [kingfisher-rules/src/liquid_filters.rs].
    - [Leftmost.v]: the laws of leftmost searches; what the source calls of a
      regex, its laws and the certificates about it ([Certified]), with the search
      for a literal as an instance.
    - [CandidateIndex.v]: [CandidateMatchIndex] of [primitives.rs] and
      [confirmation.rs]. The caches behind the index's mutexes are a state that
      outlives an abort; [ok] is the triple its operations satisfy.
    - [Certificates.v]: [confirmation_maximum_lengths] of
      [kingfisher-rules/src/rules_database.rs], over parsed expressions.
    - [Confirmation.v]: the candidate loop of [scanner.rs] for one rule, which puts
      [Spans.v] and [CandidateIndex.v] together.
    - [Expr.v]: [BetterleaksExpr] of [rule.rs] with what is collected from it and
      the validators of [kingfisher-rules/build_support/betterleaks.rs].
    - [FilterValue.v], [FilterEngine.v], [Filter.v]:
      [kingfisher-rules/src/betterleaks_filter.rs]: values and their functions over
      the interface [F64], the compiled regexes behind [RegexEngine], the
      evaluator in a state monad. [SpecF64.v] implements [F64] with the exact
      binary64 of the Standard Library. [FilterExact.v] and [FilterSupport.v] hold
      what the evaluator promises.
    - [ExprParser.v]: the lexer and parser of [build_support/betterleaks.rs];
      [ExprPrinter.v] is the printer it is measured by, [ExprRoundtrip.v] and
      [ExprParsed.v] the proofs.
    - [Requirements.v]: the tests of a captured text: [PatternRequirements],
      keywords and paths of [rule.rs], the checks of [primitives.rs],
      [kingfisher-core/src/entropy.rs] and [src/safe_list.rs].
    - [MatchFilter.v]: [filter_match] of [src/matcher/filter.rs] and
      [captures.rs]; [MatchExact.v] proves it against a reference without caches.
    - [Components.v]: [dependency_keep] of [kingfisher-scanner/src/components.rs]
      over an interface of the index.
    - [CandidateSearch.v] and [CandidateSupport.v]:
      [kingfisher-scanner/src/validation/candidates.rs].
    - [HttpFallbacks.v]: the HTTP environments of [rule.rs].
    - [CandidateContext.v]: [kingfisher-scanner/src/candidate_context.rs].
    - [Association.v]: [associate_betterleaks_components] of [src/matcher/mod.rs];
      [AssociationExact.v] discharges the interface of [Components.v] with the
      index of [Overlap.v] and proves what a finding learns.
    - [RawScan.v]: segments, raw matches and the decoding loop of
      [src/matcher/mod.rs]; [RawScanExact.v] proves them complete and ending.
    - [Matcher.v]: the markup gate, the passes, path-only rules and [scan_blob] of
      [src/matcher/mod.rs], composing all of the above; [MatcherExact.v] proves
      what a scan of a blob guarantees.

    ** What the theorems show

    - The pipeline: the passes after the gate, composed, keep exactly the findings
      of a specification without indexes and queues, in whatever order the hash maps
      of the passes are gone through ([MatcherExact.reduce_exact]); the gate of pages drops exactly what no text of
      the page confirms ([MatcherExact.markup_gate_exact]); the scan of a blob whose
      pages end, ends ([MatcherExact.scan_blob_ends]); segments leave nothing out
      ([RawScanExact.scan_ranges_cover]); findings and their rules stay aligned
      ([RawScanExact.rule_indices_aligned]).
    - From captures to findings: the caches of a scan decide nothing
      ([MatchExact.filter_matches_exact]); findings are the captures that pass, none
      within an earlier one, all covered but those whose 64-bit key another match
      has ([MatchExact.findings_exact]).
    - Precedence: the queue- and graph-based passes compute declarative
      eliminations ([Specificity.specificity_keep_exact], the least labelling;
      [Catalog.catalog_keep_all_pairs] and [Overlap.credential_uri_keep_exact],
      all-pairs passes), the indexes answer as filters
      ([Overlap.overlapping_filter], [Overlap.rmi_candidates_exact]), and the
      component range loses no candidate ([Windows.candidate_range_complete]).
    - Components: the findings kept are the greatest set that supplies itself
      ([Components.dependency_keep_greatest]), for the index the scan builds and
      the windows of the rules ([AssociationExact.association_exact]), with what
      each finding learns ([AssociationExact.association_learns]); combinations are
      tried in the order of their ranks ([CandidateSearch.search_ranked]); the
      environments of a checked rule resolve ([HttpFallbacks.http_validations_safe]).
    - Candidate confirmation: a rule accepts exactly the captures of the loop that
      searches every window to the start of the input
      ([Confirmation.confirmation_accelerators_invisible]); windows answered from
      the shared index give the captures of the plain search
      ([CandidateIndex.indexed_confirmation_exact]), given certificates about the
      regex, of which the ones on newlines and lengths are proved from the
      expression ([Certificates.certificates_sound]).
    - Filters: compiled engines and the line cache change no decision: who decides
      on a pattern, the native scanner or the regex, is read off the expressions
      ([FilterExact.filters_accelerated_exact]); evaluation restores its scope
      ([FilterExact.eval_restores_scope]); a validated filter is supported, but for
      three uses ([FilterSupport.validated_filter_supported]). The parser answers
      every source ([ExprParsed.parse_expression_terminates]), reads back what is
      printed ([ExprRoundtrip.parse_printed]) and gives exactly the well-formed
      trees ([ExprParsed.parsed_expressions]).
    - Inline directives: the budgeted search, its cache and the per-input index
      all compute one predicate.
    - Context parsers: what the callback is given is a function of the page, and
      does not depend on the callback ([Markup.markup_candidates]); statements are stitched from the lines they
      span; literals written in the languages' forms are read back; the comment
      stripper keeps lines and everything outside comments. The collector of CSS
      values ends on some values only ([Markup.css_value_ends]).
    - Bytecode: reading terminates on every input, and the strings of every
      well-formed object are recovered in order.
    - Private keys: well-formed OpenSSH containers are accepted exactly when the
      check integers agree; OpenPGP packets are reassembled exactly and the
      checksum is decided exactly; BER framing finds the end of every value, and
      takes those for BER that have a length DER does not allow or a constructed octet
      string
      ([PrivateKey.ber_framing_exact]).
    - Encodings: what is decoded is what was written, scalar by scalar, with a
      replacement for every broken unit ([Encoding.decode_exact]).
    - Git history: the traversal refines a specification by recursion on the
      parents, fails only on a deadline or a cycle, and never panics
      ([GitWalk.metadata_refines]); summaries and compaction hide no candidate
      ([GitIndex.candidate_pruning_exact]); every appearance reported is real, and
      without exclusions every candidate of every commit is introduced at the
      commit or an ancestor ([GitRepo.history_complete]).
    - Object cache: with crashes anywhere, also inside an operation, the cache
      refines a store that only finished pages and scans change, and what is durable
      after a run is one of the states its operations and crashes allow
      ([ObjectCache.cache_refines]); what it counts as completed can be read, but
      for files a killed run overwrote.
    - Findings: spilling to disk cannot be observed, whatever fills up
      ([FindingsStore.spilling_is_transparent]); failures lose nothing; a managed
      baseline hides the scan it was made from ([Baseline.managing_hides_scan]) and
      managing again writes the same file.
    - Retries: a request is always answered, within three retries and the budget of
      waits; a transient failure is ridden out ([Retry.send_rides_out]); delays
      respect what the service asked for.
    - Requests: the gate lets no address of a reserved block through, however the
      host is written and whatever DNS answers ([Egress.resolve_gate]), and an SMTP
      server is dialled at the addresses it checked only
      ([Smtp.smtp_dials_checked]); over HTTP the connection resolves again, which the
      code says and the model does not hide; cache keys
      identify requests ([Egress.cache_key_identifies]); a verdict is the conjunction
      of what the matchers ask ([Egress.validate_response_all]).
    - Template filters: the Luhn filter catches changed and exchanged digits
      ([LiquidFilters.luhn_detects]); an IBAN is accepted exactly with the check
      digits of the standard ([LiquidFilters.iban_valid_exact]); numbers written in
      base 36 and 62 are read back ([LiquidFilters.encode_filter_roundtrip]).
    - Locations, encodings, spans, control: query-order independence, exact
      round trips, maximality of the tracked spans, exact Base64 windows, and
      permanence of aborts.

    ** Bounds and fuel

    Loops over an index are structural recursions over the rest of the input
    where the index moves by one, and otherwise fuelled by a length that every
    round decreases; each such loop has a lemma that the fuel is enough
    ([Lexer.strip_loop_strips], [Lexer.literal_values_fuel],
    [Marshal.read_loop_fuel] with six rounds per byte, [GitGraph.visit_trees_raises]
    with one round per indexed tree, [GitWalk.walk_raises] with one per commit,
    [CandidateIndex.chain_walk_ok] with one per byte of the window,
    [Confirmation.confirm_loop_ok] with one per byte before it, and so on). The
    lexer of expressions has a round per byte and their parser eight calls per
    token, which [ExprParsed.parse_expression_terminates] shows to be enough; the
    propagation of components has a round per finding and the search for
    combinations one more than there are combinations. Where the code may not end,
    fuel is an argument and running out of it an outcome: the values of a style
    sheet ([Markup.css_value_ends] says which ones end), the widening of windows
    and the decoding of nested texts ([MatcherExact.scan_blob_ends] says with how
    many turns they do, for a blob whose own page ends). Integers are [Z] with the Rust operations written out
    (wrapping, saturating, checked); offsets into a slice are [nat]; [usize] has 64
    bits.

    ** What is a parameter

    Code that is not under [src/], with what the source relies on as hypotheses;
    every theorem that has one has a witness at a concrete instance: regular
    expressions and their parser, Vectorscan, Base64 codecs, digests and signatures,
    JSON (of values it can write, paths in UTF-8 for instance), URL and URI parsing,
    DNS, Liquid rendering and its scalars, the token counter, [cssparser] and [tl],
    git configuration, Unicode case, [f32] and the two functions of [f64] without a specified precision. The
    iteration order of hash maps and the addresses of borrowed strings are
    parameters too, and theorems hold for all of them. The regex certificates that
    depend on where a window ends ([cert_prefix], [cert_tail], [cert_earlier],
    [cert_kept], [left_context]) are such hypotheses: for assertions they hold when
    a window does not cut a character that an assertion reads. The classification
    of private keys is a parameter of the filters; its parts that do not call
    schemas of other crates are in [PrivateKey.v]. Of Vectorscan only its documented
    reading of the patterns of a database one by one is assumed ([ScanLaws]), not
    that it finds what a regex finds; of the 64-bit keys of matches nothing. That
    the hashes that name objects and pages are injective is a hypothesis of the
    object cache.

    ** What is not modelled, and why

    Network, process and file I/O: the validators and revocations of the providers,
    the access maps, hosting services and issue trackers, the enumeration of
    inputs, the drivers with their threads. Formats decoded by third-party crates:
    archives, SQLite, PDF, the DER schemas of keys. The Liquid filters that are one
    call of such a crate ([url_encode], [uuid], [unix_timestamp]). The compilation
    of the rules database and the conversion of foreign rule catalogs, which run when rules are loaded or the crate is built. Presentation: reports,
    the command line, the wizard, language bindings. Profiling, logging and the
    counters of statistics inside the code that is modelled.

    This file holds the part every component shares: bytes and byte literals,
    machine-width arithmetic of the Rust types, slices, the partition-point
    search of [slice::partition_point], and the tactics and hint databases. *)

From Stdlib Require Import ZArith Lia Bool ZifyNat.
From stdpp Require Export base list strings numbers option sorting.

(** ** Bytes *)

(** A Rust [u8] is an integer; the values of interest are in [0, 256). *)
Abbreviation byte := Z.
Abbreviation bytes := (list Z).

Definition byte_ok (b : byte) : Prop := (0 <= b < 256)%Z.

(** Byte-string literals: [bs "abc"] is [b"abc"]. *)
Definition bs (s : string) : bytes :=
  map (fun c => Z.of_N (Ascii.N_of_ascii c)) (String.list_ascii_of_string s).

(** Byte-character literals: [bc "a"] is [b'a']. *)
Definition bc (s : string) : byte := default 0%Z (head (bs s)).

Declare Scope kf_scope.
Delimit Scope kf_scope with kf.
Notation "b ==? c" := (Z.eqb b c) (at level 70, no associativity) : kf_scope.
Notation "lo ≤? b ≤? hi" := (Z.leb lo b && Z.leb b hi)
  (at level 70, b at next level, no associativity) : kf_scope.
Open Scope kf_scope.

(** [l[from..to]] for offsets the caller keeps in range. *)
Definition slice {A} (l : list A) (from to : nat) : list A :=
  take (to - from) (drop from l).

(** [bytes.get(i)]: the byte at an offset, if there is one. *)
Definition get {A} (l : list A) (i : nat) : option A := l !! i.

(** [matches!(bytes.get(i), Some(b'x'))] *)
Definition byte_at (l : bytes) (i : nat) (b : byte) : bool :=
  match l !! i with Some c => Z.eqb c b | None => false end.

(** The ASCII classes of [u8]. *)
Definition is_ascii_digit (b : byte) : bool := (48 ≤? b ≤? 57).
Definition is_ascii_upper (b : byte) : bool := (65 ≤? b ≤? 90).
Definition is_ascii_lower (b : byte) : bool := (97 ≤? b ≤? 122).
Definition is_ascii_alphabetic (b : byte) : bool := is_ascii_upper b || is_ascii_lower b.
Definition is_ascii_alphanumeric (b : byte) : bool := is_ascii_alphabetic b || is_ascii_digit b.
Definition is_ascii_hexdigit (b : byte) : bool :=
  is_ascii_digit b || (65 ≤? b ≤? 70) || (97 ≤? b ≤? 102).
(** [u8::is_ascii_whitespace]: space, tab, line feed, form feed, carriage return. *)
Definition is_ascii_whitespace (b : byte) : bool :=
  (b ==? 32) || (b ==? 9) || (b ==? 10) || (b ==? 12) || (b ==? 13).
Definition is_ascii_graphic (b : byte) : bool := (33 ≤? b ≤? 126).
Definition to_ascii_lowercase (b : byte) : byte := if is_ascii_upper b then (b + 32)%Z else b.

(** ** Machine integers *)

Definition U32_MOD : Z := 2 ^ 32.
Definition U64_MOD : Z := 2 ^ 64.
(** [usize::MAX] of the 64-bit targets the program ships for. *)
Definition USIZE_MAX : Z := U64_MOD - 1.

Definition saturating_add (a b : Z) : Z := Z.min USIZE_MAX (a + b).
Definition saturating_mul (a b : Z) : Z := Z.min USIZE_MAX (a * b).
Definition saturating_sub (a b : Z) : Z := Z.max 0 (a - b).
Definition checked_add (a b : Z) : option Z :=
  if (a + b <=? USIZE_MAX)%Z then Some (a + b)%Z else None.

(** Little- and big-endian words of a byte slice. *)
Fixpoint le_word (l : bytes) : Z :=
  match l with [] => 0 | b :: r => b + 256 * le_word r end%Z.
Definition be_word (l : bytes) : Z := le_word (rev l).

(** Two's-complement reading of a [u32]. *)
Definition i32_of_u32 (v : Z) : Z := if (v <? 2 ^ 31)%Z then v else (v - 2 ^ 32)%Z.

(** ** Searching *)

(** [slice::partition_point]: the code binary-searches, which on a slice
    partitioned by [p] finds the length of the longest [p]-prefix. *)
Fixpoint partition_point {A} (p : A -> bool) (l : list A) : nat :=
  match l with
  | [] => 0
  | x :: r => if p x then S (partition_point p r) else 0
  end.

(** [memchr_iter]: the offsets of a byte, ascending, counted from [base]. *)
Fixpoint positions_from (p : byte -> bool) (base : nat) (l : bytes) : list nat :=
  match l with
  | [] => []
  | b :: r => if p b then base :: positions_from p (S base) r else positions_from p (S base) r
  end.

(** [starts_with] and [memmem::find(..).is_some()] *)
Fixpoint starts_with (prefix l : bytes) : bool :=
  match prefix, l with
  | [], _ => true
  | p :: ps, b :: r => (p ==? b) && starts_with ps r
  | _ :: _, [] => false
  end.
Fixpoint contains_sub (needle l : bytes) : bool :=
  starts_with needle l || match l with [] => false | _ :: r => contains_sub needle r end.

Definition bytes_eqb (a b : bytes) : bool := bool_decide (a = b).
Definition non_empty (l : bytes) : bool := negb (bytes_eqb l []).

(** [iter().enumerate()] *)
Fixpoint enumerate_from {A} (i : nat) (l : list A) : list (nat * A) :=
  match l with [] => [] | x :: r => (i, x) :: enumerate_from (S i) r end.
Definition enumerate {A} (l : list A) : list (nat * A) := enumerate_from 0 l.

(** ** Tactics *)

(** Turn the boolean tests of the code into propositions. *)
Ltac tobool :=
  repeat match goal with
  | H : (_ && _) = true |- _ => apply andb_true_iff in H; destruct H
  | H : (_ || _) = false |- _ => apply orb_false_iff in H; destruct H
  | H : negb _ = true |- _ => apply negb_true_iff in H
  | H : negb _ = false |- _ => apply negb_false_iff in H
  | H : Nat.eqb _ _ = true |- _ => apply Nat.eqb_eq in H
  | H : Nat.eqb _ _ = false |- _ => apply Nat.eqb_neq in H
  | H : Nat.ltb _ _ = true |- _ => apply Nat.ltb_lt in H
  | H : Nat.ltb _ _ = false |- _ => apply Nat.ltb_ge in H
  | H : Nat.leb _ _ = true |- _ => apply Nat.leb_le in H
  | H : Nat.leb _ _ = false |- _ => apply Nat.leb_gt in H
  | H : Z.eqb _ _ = true |- _ => apply Z.eqb_eq in H
  | H : Z.eqb _ _ = false |- _ => apply Z.eqb_neq in H
  | H : Z.ltb _ _ = true |- _ => apply Z.ltb_lt in H
  | H : Z.ltb _ _ = false |- _ => apply Z.ltb_ge in H
  | H : Z.leb _ _ = true |- _ => apply Z.leb_le in H
  | H : Z.leb _ _ = false |- _ => apply Z.leb_gt in H
  end.

(** Split the conditional or match the goal or a hypothesis is stuck on. *)
Ltac split_if :=
  match goal with
  | |- context [if ?c then _ else _] => destruct c eqn:?
  | H : context [if ?c then _ else _] |- _ => destruct c eqn:?
  end.
Ltac split_ifs := repeat (split_if; simplify_eq/=).

(** [lia] with division and remainder by constants. *)
Ltac dlia := zify; Z.to_euclidean_division_equations; lia.

(** Reads and lengths of slices, for the [kf] database. *)
Create HintDb kf.
Create Rewrite HintDb kf.

(** ** Lists *)

Section lists.
Context {A : Type}.
Implicit Types l : list A.

Lemma partition_point_le (p : A -> bool) l : partition_point p l <= length l.
Proof. induction l as [|x l IH]; simpl; [lia|]. destruct (p x); simpl; lia. Qed.

Lemma partition_point_lt (p : A -> bool) l i x :
  i < partition_point p l -> l !! i = Some x -> p x = true.
Proof.
  revert i; induction l as [|y l IH]; intros i Hi Hx; simpl in *; [lia|].
  destruct (p y) eqn:E; [|lia].
  destruct i as [|i]; simplify_eq/=; [done|]. apply (IH i); [lia|done].
Qed.

Lemma partition_point_stop (p : A -> bool) l x :
  l !! partition_point p l = Some x -> p x = false.
Proof.
  induction l as [|y l IH]; simpl; [done|].
  destruct (p y) eqn:E; simpl; [apply IH|]. intros; simplify_eq/=; done.
Qed.

Lemma partition_point_unique (p : A -> bool) l n :
  n <= length l -> (forall i x, i < n -> l !! i = Some x -> p x = true) ->
  (forall x, l !! n = Some x -> p x = false) -> partition_point p l = n.
Proof.
  revert n; induction l as [|y l IH]; intros n Hn Hlt Hst; simpl in *; [lia|].
  destruct n as [|n].
  - by rewrite (Hst y).
  - rewrite (Hlt 0 y) by (lia || done). f_equal. apply IH; [lia| |exact Hst].
    intros i x Hi Hx. apply (Hlt (S i) x); [lia|done].
Qed.

Lemma partition_point_app (p : A -> bool) l1 l2 :
  partition_point p (l1 ++ l2) =
  if forallb p l1 then length l1 + partition_point p l2 else partition_point p l1.
Proof.
  induction l1 as [|x l1 IH]; simpl; [done|].
  destruct (p x); simpl; [|done]. rewrite IH. by destruct (forallb p l1).
Qed.

Lemma partition_point_all (p : A -> bool) l :
  forallb p l = true -> partition_point p l = length l.
Proof.
  induction l as [|x l IH]; simpl; [done|]. destruct (p x); simpl; [|done].
  intros H. by rewrite IH.
Qed.

(** On a list that [p] partitions, the point counts the elements that satisfy it. *)
Lemma partition_point_filter (p : A -> bool) l :
  StronglySorted (fun a b => p b = true -> p a = true) l ->
  partition_point p l = length (List.filter p l).
Proof.
  induction 1 as [|x l Hs IH Hx]; simpl; [done|].
  destruct (p x) eqn:E; simpl; [by rewrite IH|].
  assert (List.filter p l = []) as ->; [|done].
  clear IH Hs. induction l as [|y l IH]; simpl; [done|].
  apply Forall_cons in Hx as [Hy Hx].
  destruct (p y) eqn:Ey; [|auto]. specialize (Hy eq_refl). congruence.
Qed.

Lemma nth_insert (d : A) l i j x :
  j < length l -> nth i (<[j := x]> l) d = if Nat.eqb i j then x else nth i l d.
Proof.
  intros Hj. rewrite !nth_lookup. destruct (Nat.eqb i j) eqn:E; tobool.
  - subst. by rewrite list_lookup_insert_eq.
  - by rewrite list_lookup_insert_ne by done.
Qed.

Lemma insert_nth (d : A) l i : <[i := nth i l d]> l = l.
Proof.
  destruct (decide (i < length l)) as [H|H].
  - destruct (lookup_lt_is_Some_2 l i H) as [x Hx].
    apply list_insert_id. by rewrite nth_lookup, Hx.
  - apply list_insert_ge. lia.
Qed.

Lemma insert_twice l i x y : <[i := x]> (<[i := y]> l) = <[i := x]> l.
Proof. apply list_insert_insert_eq. Qed.

Lemma slice_lookup l from to i :
  i < to - from -> slice l from to !! i = l !! (from + i).
Proof. intros H. unfold slice. rewrite lookup_take, decide_True by lia. by rewrite lookup_drop. Qed.

Lemma length_slice l from to :
  to <= length l -> length (slice l from to) = to - from.
Proof. intros H. unfold slice. rewrite length_take, length_drop. lia. Qed.

Lemma slice_app l a b c :
  a <= b -> b <= c -> slice l a b ++ slice l b c = slice l a c.
Proof.
  intros Hab Hbc. unfold slice.
  replace (c - a) with ((b - a) + (c - b)) by lia.
  rewrite <- (take_take_drop (drop a l) (b - a) (c - b)), drop_drop.
  by replace (a + (b - a)) with b by lia.
Qed.

Lemma slice_full l : slice l 0 (length l) = l.
Proof. unfold slice. by rewrite drop_0, Nat.sub_0_r, firstn_all. Qed.

Lemma slice_take l n : slice l 0 n = take n l.
Proof. unfold slice. by rewrite drop_0, Nat.sub_0_r. Qed.

Lemma drop_take_slice l n m : drop n (take m l) = slice l n m.
Proof. unfold slice. by rewrite skipn_firstn_comm. Qed.

Lemma filter_all_false (p : A -> bool) l :
  (forall x, In x l -> p x = false) -> List.filter p l = [].
Proof.
  induction l as [|x l IH]; simpl; intros H; [done|].
  rewrite (H x) by auto. apply IH. auto.
Qed.

Lemma filter_all_true (p : A -> bool) l :
  (forall x, In x l -> p x = true) -> List.filter p l = l.
Proof.
  induction l as [|x l IH]; simpl; intros H; [done|].
  rewrite (H x) by auto. rewrite IH by auto. done.
Qed.

Lemma in_enumerate_from l : forall k i x,
  In (i, x) (enumerate_from k l) <-> k <= i /\ l !! (i - k) = Some x.
Proof.
  induction l as [|y l IH]; intros k i x; simpl; [split; [done|by intros [_ ?]]|].
  rewrite IH. split.
  - intros [E|[Hk Hx]]; [simplify_eq; split; [lia|by rewrite Nat.sub_diag]|].
    split; [lia|]. by replace (i - k) with (S (i - S k)) by lia.
  - intros [Hk Hx]. destruct (decide (i = k)) as [->|].
    + rewrite Nat.sub_diag in Hx. simplify_eq/=. by left.
    + right. split; [lia|]. by replace (i - k) with (S (i - S k)) in Hx by lia.
Qed.

Lemma in_enumerate l i x : In (i, x) (enumerate l) <-> l !! i = Some x.
Proof. unfold enumerate. rewrite in_enumerate_from, Nat.sub_0_r. split; [tauto|split; [lia|done]]. Qed.
End lists.

(** ** Offsets of a byte *)

Section positions.
Variable p : byte -> bool.

Lemma positions_from_app base l1 l2 :
  positions_from p base (l1 ++ l2) =
  positions_from p base l1 ++ positions_from p (base + length l1) l2.
Proof.
  revert base; induction l1 as [|b l1 IH]; intros base; simpl.
  - by rewrite Nat.add_0_r.
  - rewrite IH, Nat.add_succ_r. simpl. by destruct (p b).
Qed.

Lemma elem_positions base l i :
  In i (positions_from p base l) <->
  base <= i /\ exists b, l !! (i - base) = Some b /\ p b = true.
Proof.
  revert base; induction l as [|b l IH]; intros base; simpl.
  - split; [done|]. intros (_ & b & H & _). by rewrite lookup_nil in H.
  - assert (base <= i -> i <> base -> (b :: l) !! (i - base) = l !! (i - S base)) as Hstep.
    { intros. by replace (i - base) with (S (i - S base)) by lia. }
    destruct (decide (i = base)) as [->|Hne].
    + rewrite Nat.sub_diag; simpl. destruct (p b) eqn:E; simpl.
      * split; [|auto]. intros _. split; [lia|eauto].
      * rewrite IH. split; [intros [? _]; lia|]. intros (_ & b' & Hb & Hp). simplify_eq/=; congruence.
    + assert (In i (if p b then base :: positions_from p (S base) l
                    else positions_from p (S base) l) <->
              In i (positions_from p (S base) l)) as ->.
      { destruct (p b); simpl; [|done]. split; [intros [?|?]; [lia|done]|auto]. }
      rewrite IH. split; intros (Hle & b' & Hb & Hp).
      * split; [lia|]. rewrite Hstep by lia. eauto.
      * split; [lia|]. rewrite Hstep in Hb by lia. eauto.
Qed.

Lemma positions_sorted base l : StronglySorted lt (positions_from p base l).
Proof.
  revert base; induction l as [|b l IH]; intros base; simpl; [constructor|].
  destruct (p b); [|apply IH].
  constructor; [apply IH|]. apply List.Forall_forall. intros i Hi.
  apply elem_positions in Hi. lia.
Qed.

Lemma positions_ge base l i : In i (positions_from p base l) -> base <= i < base + length l.
Proof.
  intros H. apply elem_positions in H as (? & b & Hb & _).
  apply lookup_lt_Some in Hb. lia.
Qed.

(** Counting offsets below a bound is counting the byte in the prefix. *)
Lemma positions_below base l n :
  length (List.filter (fun i => i <? n) (positions_from p base l)) =
  length (List.filter p (take (n - base) l)).
Proof.
  revert base; induction l as [|b l IH]; intros base; simpl.
  - by rewrite take_nil.
  - destruct (n - base) as [|k] eqn:E.
    + simpl. destruct (p b); simpl.
      * destruct (base <? n) eqn:Hlt; tobool; [lia|]. rewrite IH.
        by replace (n - S base) with 0 by lia.
      * rewrite IH. by replace (n - S base) with 0 by lia.
    + simpl. replace k with (n - S base) by lia.
      destruct (p b); simpl; [|apply IH].
      destruct (base <? n) eqn:Hlt; tobool; [|lia]. simpl. by rewrite IH.
Qed.
End positions.

#[export] Hint Rewrite @length_slice @length_app @length_take @length_drop : kf.

Lemma starts_with_app (p l : bytes) : starts_with p (p ++ l) = true.
Proof. induction p as [|b p IH]; [done|]. simpl. by rewrite Z.eqb_refl. Qed.

Lemma starts_with_refl (p : bytes) : starts_with p p = true.
Proof. rewrite <- (app_nil_r p) at 2. apply starts_with_app. Qed.

(** Bytes of a concrete text are checked by evaluation. *)
Lemma bytes_ok (l : bytes) : forallb (fun b => (0 <=? b)%Z && (b <? 256)%Z) l = true -> Forall byte_ok l.
Proof.
  rewrite forallb_forall. intros H. apply Forall_forall. intros b Hb%list_elem_of_In.
  specialize (H b Hb). unfold byte_ok. tobool. lia.
Qed.

(** ** Folds *)

Lemma fold_left_flat_map {A B S} (f : S -> B -> S) (g : A -> list B) l : forall s,
  fold_left f (flat_map g l) s = fold_left (fun s x => fold_left f (g x) s) l s.
Proof. induction l as [|x l IH]; intros s; simpl; [done|]. by rewrite fold_left_app, IH. Qed.

Lemma fold_left_map_arg {A B C} (g : A -> B -> A) (h : C -> B) l : forall a,
  fold_left (fun a x => g a (h x)) l a = fold_left g (map h l) a.
Proof. induction l as [|x l IH]; intros a; [done|]. apply IH. Qed.

Lemma fold_left_ext_eq {A B} (g h : A -> B -> A) l : (forall a x, g a x = h a x) -> forall a, fold_left g l a = fold_left h l a.
Proof. intros H. induction l as [|x l IH]; intros a; [done|]. cbn. by rewrite H, IH. Qed.

(** ** Numbers in a base *)

(** The number that digits, the most significant first, stand for. *)
Definition number (base : Z) (l : list Z) : Z := foldl (fun n x => n * base + x)%Z 0%Z l.

Lemma number_snoc base l x : number base (l ++ [x]) = (number base l * base + x)%Z.
Proof. unfold number. by rewrite foldl_app. Qed.

Lemma number_cut base (l k : list Z) : (0 < base)%Z -> Forall (fun x => (0 <= x < base)%Z) k ->
  (number base (l ++ k) / base ^ Z.of_nat (length k) = number base l)%Z.
Proof.
  intros Hb. revert l. induction k as [|x k IH] using rev_ind; intros l Hk.
  - rewrite app_nil_r. cbn [length]. by rewrite Z.pow_0_r, Z.div_1_r.
  - apply Forall_app in Hk as [Hk Hx]. rewrite Forall_singleton in Hx. rewrite app_assoc, number_snoc, length_app. cbn [length].
    rewrite Nat.add_comm. cbn [Nat.add]. rewrite Nat2Z.inj_succ, Z.pow_succ_r by lia. rewrite <-Z.div_div by (try (apply Z.pow_pos_nonneg); lia).
    rewrite Z.add_comm, Z_div_plus, (Z.div_small x) by lia. cbn [Z.add]. by apply IH.
Qed.

Lemma number_inj base (l k : list Z) : (0 < base)%Z -> length l = length k ->
  Forall (fun x => (0 <= x < base)%Z) l -> Forall (fun x => (0 <= x < base)%Z) k -> number base l = number base k -> l = k.
Proof.
  intros Hb. revert k. induction l as [|x l IH] using rev_ind; intros k Hlen Hl Hk E; [by destruct k|].
  destruct k as [|y k _] using rev_ind; [rewrite length_app in Hlen; cbn in Hlen; lia|].
  rewrite !length_app in Hlen. cbn [length] in Hlen. apply Forall_app in Hl as [Hl Hx], Hk as [Hk Hy]. rewrite Forall_singleton in Hx, Hy.
  rewrite !number_snoc in E. assert (x = y) as ->.
  { apply (f_equal (fun v => (v mod base)%Z)) in E. by rewrite !(Z.add_comm (_ * base)), !Z_mod_plus_full, !Z.mod_small in E by lia. }
  f_equal. apply IH; [lia|done|done|]. apply (Z.mul_cancel_r _ _ base); lia.
Qed.

Lemma eqb_number base (l k : list Z) : (0 < base)%Z -> length l = length k ->
  Forall (fun x => (0 <= x < base)%Z) l -> Forall (fun x => (0 <= x < base)%Z) k -> (number base l ==? number base k) = bool_decide (l = k).
Proof.
  intros. apply eq_true_iff_eq. rewrite Z.eqb_eq, bool_decide_eq_true. split; [by apply number_inj|by intros ->].
Qed.
