(* ===== verification/Text.v ===== *)
(** * UTF-8 text as the [str] methods of the program see it

    A Rust [&str] is modelled by its UTF-8 bytes. This file holds the methods of
    [str] that are not byte-wise: trimming by the Unicode [White_Space] property
    and the ASCII-case conversions. The encodings of the white-space characters
    all start with a lead byte, so a suffix test on the bytes of valid UTF-8 is a
    test on the last character. *)

From Stdlib Require Import ZArith Lia Bool ZifyNat.
From stdpp Require Import base list numbers option.
From S2P Require Import Prelude.

(** Bytes of the white-space character the text starts with; 0 when it starts
    with another character. *)
Definition ws_char_len (l : bytes) : nat :=
  match l with
  | b :: r =>
    if (9 ≤? b ≤? 13) || (b ==? 32) then 1
    else match r with
    | c :: r' =>
      if (b ==? 194) && ((c ==? 133) || (c ==? 160)) then 2
      else match r' with
      | d :: _ =>
        if ((b ==? 225) && (c ==? 154) && (d ==? 128)) ||
           ((b ==? 226) && (c ==? 128) &&
             ((128 ≤? d ≤? 138) || (d ==? 168) || (d ==? 169) || (d ==? 175))) ||
           ((b ==? 226) && (c ==? 129) && (d ==? 159)) ||
           ((b ==? 227) && (c ==? 128) && (d ==? 128)) then 3 else 0
      | [] => 0
      end
    | [] => 0
    end
  | [] => 0
  end.

(** Bytes of the white-space character the text ends with, read on the reversed
    bytes. *)
Definition ws_char_len_rev (l : bytes) : nat :=
  if Nat.eqb (ws_char_len (rev (take 1 l))) 1 then 1
  else if Nat.eqb (ws_char_len (rev (take 2 l))) 2 then 2
  else if Nat.eqb (ws_char_len (rev (take 3 l))) 3 then 3 else 0.

(** Drop white-space characters while there are any; each drops at least a byte,
    so the length of the text is fuel enough. *)
Fixpoint drop_ws (len_of : bytes -> nat) (fuel : nat) (l : bytes) : bytes :=
  match fuel with
  | 0 => l
  | S fuel => match len_of l with 0 => l | S n => drop_ws len_of fuel (drop (S n) l) end
  end.

Definition trim_start (l : bytes) : bytes := drop_ws ws_char_len (length l) l.
Definition trim_end (l : bytes) : bytes := rev (drop_ws ws_char_len_rev (length l) (rev l)).
Definition trim (l : bytes) : bytes := trim_end (trim_start l).

Definition str_to_ascii_lowercase (l : bytes) : bytes := map to_ascii_lowercase l.

(** ** Lemmas *)

Lemma drop_ws_suffix len_of fuel l :
  exists p, l = p ++ drop_ws len_of fuel l.
Proof.
  revert l; induction fuel as [|fuel IH]; intros l; simpl; [by exists []|].
  destruct (len_of l) as [|n]; [by exists []|].
  destruct (IH (drop (S n) l)) as [p Hp]. exists (take (S n) l ++ p).
  by rewrite <- app_assoc, <- Hp, take_drop.
Qed.

(** With the length as fuel the result starts with no white space. *)
Lemma drop_ws_stops len_of fuel l :
  length l <= fuel -> len_of [] = 0 -> len_of (drop_ws len_of fuel l) = 0.
Proof.
  intros Hl H0. revert l Hl; induction fuel as [|fuel IH]; intros l Hl; simpl.
  - by destruct l; [|simpl in *; lia].
  - destruct (len_of l) as [|n] eqn:E; [done|]. apply IH. rewrite length_drop.
    destruct l; [congruence|simpl in *; lia].
Qed.

Lemma trim_start_suffix l : exists p, l = p ++ trim_start l.
Proof. apply drop_ws_suffix. Qed.

Lemma trim_end_prefix l : exists s, l = trim_end l ++ s.
Proof.
  unfold trim_end. destruct (drop_ws_suffix ws_char_len_rev (length l) (rev l)) as [p Hp].
  exists (rev p). rewrite <- rev_app_distr, <- Hp. by rewrite rev_involutive.
Qed.

Lemma trim_infix l : exists p s, l = p ++ trim l ++ s.
Proof.
  destruct (trim_start_suffix l) as [p Hp]. destruct (trim_end_prefix (trim_start l)) as [s Hs].
  exists p, s. unfold trim. by rewrite <- Hs.
Qed.

Lemma trim_start_stops l : ws_char_len (trim_start l) = 0.
Proof. by apply drop_ws_stops. Qed.

Lemma trim_end_stops l : ws_char_len_rev (rev (trim_end l)) = 0.
Proof. unfold trim_end. rewrite rev_involutive. apply drop_ws_stops; [by rewrite length_rev|done]. Qed.

Lemma length_trim_start l : length (trim_start l) <= length l.
Proof. destruct (trim_start_suffix l) as [p Hp]. rewrite Hp at 2. rewrite length_app. lia. Qed.

Lemma length_trim_end l : length (trim_end l) <= length l.
Proof. destruct (trim_end_prefix l) as [s Hs]. rewrite Hs at 2. rewrite length_app. lia. Qed.

Lemma length_trim l : length (trim l) <= length l.
Proof. unfold trim. etrans; [apply length_trim_end|apply length_trim_start]. Qed.

#[export] Hint Resolve length_trim length_trim_end length_trim_start : kf.

(** Text that starts and ends with ASCII characters that are not white space is
    already trimmed. *)
Lemma ws_char_len_ascii b r :
  (0 <= b < 128)%Z -> (9 ≤? b ≤? 13) = false -> (b ==? 32) = false -> ws_char_len (b :: r) = 0.
Proof.
  intros Hb H1 H2. simpl. rewrite H1, H2. simpl.
  destruct r as [|c r]; [done|].
  rewrite (proj2 (Z.eqb_neq b 194)), (proj2 (Z.eqb_neq b 225)), (proj2 (Z.eqb_neq b 226)),
    (proj2 (Z.eqb_neq b 227)) by lia. simpl. by destruct r.
Qed.

Lemma ws_char_len_rev_ascii b r :
  (0 <= b < 128)%Z -> (9 ≤? b ≤? 13) = false -> (b ==? 32) = false -> ws_char_len_rev (b :: r) = 0.
Proof.
  intros Hb H1 H2. unfold ws_char_len_rev.
  assert (ws_char_len (rev (take 1 (b :: r))) = 0) as -> by by apply (ws_char_len_ascii b []).
  (* a longer white-space character ends with a byte that is not ASCII *)
  assert (H133 : (b ==? 133) = false) by (apply Z.eqb_neq; lia).
  assert (H160 : (b ==? 160) = false) by (apply Z.eqb_neq; lia).
  assert (H128 : (b ==? 128) = false) by (apply Z.eqb_neq; lia).
  assert (H159 : (b ==? 159) = false) by (apply Z.eqb_neq; lia).
  assert (H168 : (b ==? 168) = false) by (apply Z.eqb_neq; lia).
  assert (H169 : (b ==? 169) = false) by (apply Z.eqb_neq; lia).
  assert (H175 : (b ==? 175) = false) by (apply Z.eqb_neq; lia).
  assert (Hr : (128 ≤? b ≤? 138) = false) by (apply andb_false_iff; rewrite !Z.leb_gt; lia).
  assert (forall n, n = 2 \/ n = 3 -> Nat.eqb (ws_char_len (rev (take n (b :: r)))) n = false) as Hn.
  { intros n Hn. destruct r as [|c [|d r]]; destruct Hn as [->| ->];
      rewrite ?firstn_cons, ?take_0, ?take_nil; cbn [rev app ws_char_len];
      rewrite ?H1, ?H2, ?H133, ?H160, ?H128, ?H159, ?H168, ?H169, ?H175, ?Hr;
      repeat rewrite ?andb_false_r, ?orb_false_r, ?orb_false_l; split_ifs; done. }
  simpl Nat.eqb at 1. rewrite !Hn by auto. done.
Qed.

Definition trim_edge (b : byte) : Prop :=
  (0 <= b < 128)%Z /\ (9 ≤? b ≤? 13) = false /\ (b ==? 32) = false.

Lemma trim_start_id b r : trim_edge b -> trim_start (b :: r) = b :: r.
Proof. intros (H & H1 & H2). unfold trim_start. cbn [length drop_ws]. by rewrite ws_char_len_ascii. Qed.

Lemma trim_end_id r b : trim_edge b -> trim_end (r ++ [b]) = r ++ [b].
Proof.
  intros (H & H1 & H2). unfold trim_end. rewrite rev_unit, length_app, Nat.add_1_r. cbn [drop_ws].
  rewrite ws_char_len_rev_ascii by done. cbn [rev]. by rewrite rev_involutive.
Qed.

Lemma trim_id a r b : trim_edge a -> trim_edge b -> trim (a :: r ++ [b]) = a :: r ++ [b].
Proof. intros Ha Hb. unfold trim. rewrite trim_start_id by done. by apply (trim_end_id (a :: r)). Qed.

(** ** Decimal numbers *)

(** [str::parse::<usize>]: an optional plus sign and at least a digit; [None]
    on any other character and on overflow. *)
Fixpoint parse_digits (acc : Z) (l : bytes) : option Z :=
  match l with
  | [] => Some acc
  | b :: r =>
    if is_ascii_digit b then
      let acc := (acc * 10 + (b - 48))%Z in
      if (acc <=? USIZE_MAX)%Z then parse_digits acc r else None
    else None
  end.
Definition parse_usize (l : bytes) : option Z :=
  match l with
  | [] => None
  | b :: r =>
    if b ==? bc "+" then match r with [] => None | _ => parse_digits 0 r end else parse_digits 0 l
  end.

(** [to_string] of a [usize]; twenty digits are enough. *)
Fixpoint show_digits (fuel : nat) (n : Z) (acc : bytes) : bytes :=
  match fuel with
  | 0 => acc
  | S fuel =>
    let acc := (48 + n mod 10)%Z :: acc in
    if (n <? 10)%Z then acc else show_digits fuel (n / 10) acc
  end.
Definition show_usize (n : Z) : bytes := show_digits 20 n [].

Lemma parse_digits_app a l1 l2 :
  parse_digits a (l1 ++ l2) = match parse_digits a l1 with Some v => parse_digits v l2 | None => None end.
Proof.
  revert a; induction l1 as [|b l1 IH]; intros a; simpl; [done|].
  destruct (is_ascii_digit b); [|done]. destruct (_ <=? _)%Z; [|done]. apply IH.
Qed.

Lemma digit_char d : (0 <= d < 10)%Z -> is_ascii_digit (48 + d) = true.
Proof. intros H. unfold is_ascii_digit. apply andb_true_intro. rewrite !Z.leb_le. lia. Qed.

Lemma show_digits_app fuel : forall n acc, show_digits fuel n acc = show_digits fuel n [] ++ acc.
Proof.
  induction fuel as [|fuel IH]; intros n acc; [done|]. cbn [show_digits].
  destruct (n <? 10)%Z; [done|]. rewrite (IH _ (_ :: acc)), (IH _ [_]). by rewrite <- app_assoc.
Qed.

Lemma parse_show_digits fuel : forall n,
  (0 <= n <= USIZE_MAX)%Z -> (n < 10 ^ Z.of_nat fuel)%Z ->
  parse_digits 0 (show_digits fuel n []) = Some n.
Proof.
  induction fuel as [|fuel IH]; intros n Hn Hf; [simpl in *; f_equal; lia|]. cbn [show_digits].
  assert (Hd : is_ascii_digit (48 + n mod 10) = true) by (apply digit_char, Z.mod_pos_bound; lia).
  destruct (n <? 10)%Z eqn:E; tobool.
  - rewrite Z.mod_small in * by lia. cbn [parse_digits]. rewrite Hd, Z.mul_0_l, Z.add_0_l.
    replace (48 + n - 48)%Z with n by lia. by rewrite (proj2 (Z.leb_le _ _)) by lia.
  - rewrite show_digits_app, parse_digits_app, IH; cycle 1.
    + split; [apply Z.div_pos; lia|]. etrans; [|apply Hn]. apply Z.div_le_upper_bound; lia.
    + rewrite Nat2Z.inj_succ, Z.pow_succ_r in Hf by lia. apply Z.div_lt_upper_bound; lia.
    + cbn [parse_digits]. rewrite Hd.
      replace (n / 10 * 10 + (48 + n mod 10 - 48))%Z with n by (pose proof (Z.div_mod n 10); lia).
      by rewrite (proj2 (Z.leb_le _ _)) by lia.
Qed.

Lemma show_digits_digits fuel : forall n, Forall (fun b => is_ascii_digit b = true) (show_digits fuel n []).
Proof.
  induction fuel as [|fuel IH]; intros n; [constructor|]. cbn [show_digits].
  assert (Hd : is_ascii_digit (48 + n mod 10) = true) by (apply digit_char, Z.mod_pos_bound; lia).
  destruct (n <? 10)%Z; [by repeat constructor|]. rewrite show_digits_app.
  apply Forall_app. split; [apply IH|by repeat constructor].
Qed.

Lemma show_usize_cons n : exists b r, show_usize n = b :: r /\ is_ascii_digit b = true.
Proof.
  assert (forall k, show_digits (S k) n [] <> []) as Hne.
  { intros k. cbn [show_digits]. destruct (n <? 10)%Z; [done|]. rewrite show_digits_app.
    intros E. by apply app_nil in E as [_ E]. }
  pose proof (show_digits_digits 20 n) as H. specialize (Hne 19). unfold show_usize in *.
  destruct (show_digits 20 n []) as [|b r] eqn:E; [done|].
  apply Forall_cons in H as [H _]. eauto.
Qed.

(** Printing a [usize] and parsing it gives it back. *)
Lemma parse_show_usize n : (0 <= n <= USIZE_MAX)%Z -> parse_usize (show_usize n) = Some n.
Proof.
  intros Hn. destruct (show_usize_cons n) as (b & r & E & Hb). rewrite E. unfold parse_usize.
  replace (b ==? bc "+") with false.
  2:{ symmetry. apply Z.eqb_neq. intros ->. vm_compute in Hb. done. }
  rewrite <- E. apply parse_show_digits; [done|]. unfold USIZE_MAX, U64_MOD in Hn. lia.
Qed.

Lemma parse_digits_range l : forall acc v, (0 <= acc <= USIZE_MAX)%Z -> parse_digits acc l = Some v -> (0 <= v <= USIZE_MAX)%Z.
Proof.
  induction l as [|b l IH]; intros acc v Ha; cbn; [by intros [= <-]|]. destruct (is_ascii_digit b) eqn:E; [|done].
  destruct (_ <=? USIZE_MAX)%Z eqn:E2; [|done]. unfold is_ascii_digit in E. tobool. apply IH. lia.
Qed.

Lemma parse_usize_range l v : parse_usize l = Some v -> (0 <= v < U64_MOD)%Z.
Proof.
  intros H. assert (0 <= v <= USIZE_MAX)%Z; [|unfold USIZE_MAX in *; lia]. revert H. unfold parse_usize. repeat case_match; try done; apply parse_digits_range; vm_compute; split; congruence.
Qed.

Lemma show_usize_inj v w : (0 <= v < U64_MOD)%Z -> (0 <= w < U64_MOD)%Z -> show_usize v = show_usize w -> v = w.
Proof.
  intros Hv Hw E. pose proof (parse_show_usize v) as H1. pose proof (parse_show_usize w) as H2. rewrite E in H1. unfold USIZE_MAX in *.
  rewrite H2 in H1 by lia. by injection H1 as ->; [|lia].
Qed.


(** ** Prefixes, suffixes and lines *)

(** [trim_start_matches], [trim_end_matches] and [trim_matches] of ASCII
    characters. *)
Fixpoint trim_start_while (p : byte -> bool) (l : bytes) : bytes :=
  match l with [] => [] | b :: r => if p b then trim_start_while p r else l end.
Definition trim_end_while (p : byte -> bool) (l : bytes) : bytes := rev (trim_start_while p (rev l)).
Definition trim_while (p : byte -> bool) (l : bytes) : bytes := trim_end_while p (trim_start_while p l).

Definition strip_prefix (prefix l : bytes) : option bytes :=
  if starts_with prefix l then Some (drop (length prefix) l) else None.
Definition ends_with (suffix l : bytes) : bool := starts_with (rev suffix) (rev l).
Definition strip_suffix (suffix l : bytes) : option bytes :=
  if ends_with suffix l then Some (take (length l - length suffix) l) else None.

(** [contains(char::is_whitespace)] *)
Fixpoint contains_ws (l : bytes) : bool :=
  match l with [] => false | _ :: r => negb (Nat.eqb (ws_char_len l) 0) || contains_ws r end.

(** [str::lines]: a line ends with a newline, with or without a carriage return
    before it; the last one may end with the text. *)
Definition strip_cr (l : bytes) : bytes := default l (strip_suffix [13]%Z l).
Fixpoint lines_from (acc : bytes) (l : bytes) : list bytes :=
  match l with
  | [] => match acc with [] => [] | _ => [acc] end
  | b :: r => if b ==? 10 then strip_cr acc :: lines_from [] r else lines_from (acc ++ [b]) r
  end.
Definition lines (l : bytes) : list bytes := lines_from [] l.

(** One character of [from_utf8_lossy]: the bytes read and whether they are a
    character; the bytes of an invalid one are the longest prefix of one. *)
Definition continuation (lo hi : Z) (l : bytes) (i : nat) : bool :=
  match l !! i with Some b => lo ≤? b ≤? hi | None => false end.
Definition utf8_step (b : byte) (r : bytes) : nat * bool :=
  let cont := continuation 128 191 r in
  if (b <? 128)%Z then (1, true)
  else if 194 ≤? b ≤? 223 then if cont 0 then (2, true) else (1, false)
  else if 224 ≤? b ≤? 239 then
    let lo := if b ==? 224 then 160%Z else 128%Z in
    let hi := if b ==? 237 then 159%Z else 191%Z in
    if negb (continuation lo hi r 0) then (1, false)
    else if cont 1 then (3, true) else (2, false)
  else if 240 ≤? b ≤? 244 then
    let lo := if b ==? 240 then 144%Z else 128%Z in
    let hi := if b ==? 244 then 143%Z else 191%Z in
    if negb (continuation lo hi r 0) then (1, false)
    else if negb (cont 1) then (2, false)
    else if cont 2 then (4, true) else (3, false)
  else (1, false).
Fixpoint lossy_loop (fuel : nat) (l : bytes) : bytes :=
  match fuel, l with
  | S fuel, b :: r =>
    let '(n, valid) := utf8_step b r in
    (if valid then take n l else [239; 191; 189]%Z) ++ lossy_loop fuel (drop n l)
  | _, _ => []
  end.
Definition from_utf8_lossy (l : bytes) : bytes := lossy_loop (length l) l.

Example lossy_example :
  from_utf8_lossy [97; 226; 130; 98; 195; 169; 255]%Z = [97; 239; 191; 189; 98; 195; 169; 239; 191; 189]%Z.
Proof. reflexivity. Qed.

Lemma trim_start_while_suffix p l : exists q, l = q ++ trim_start_while p l /\ Forall (fun b => p b = true) q.
Proof.
  induction l as [|b l (q & Hq & Hp)]; simpl; [by exists []|]. destruct (p b) eqn:E; [|by exists []].
  exists (b :: q). rewrite <- app_comm_cons, <- Hq. by repeat constructor.
Qed.

Lemma trim_end_while_prefix p l : exists q, l = trim_end_while p l ++ q /\ Forall (fun b => p b = true) q.
Proof.
  destruct (trim_start_while_suffix p (rev l)) as (q & Hq & Hp). exists (rev q). unfold trim_end_while.
  rewrite <- rev_app_distr, <- Hq, rev_involutive. split; [done|]. by apply Forall_rev.
Qed.

Lemma trim_end_while_id p l b : p b = false -> trim_end_while p (l ++ [b]) = l ++ [b].
Proof. intros Hb. unfold trim_end_while. rewrite rev_unit. simpl. rewrite Hb. simpl. by rewrite rev_involutive. Qed.

(** What trimming removes has no ASCII graphic character. *)
Definition not_graphic (b : byte) : Prop := is_ascii_graphic b = false.

Lemma ws_char_len_not_graphic l : Forall not_graphic (take (ws_char_len l) l).
Proof.
  unfold not_graphic, is_ascii_graphic. destruct l as [|b [|c [|d r]]]; cbn [ws_char_len]; [constructor|..];
    repeat case_match; cbn [take]; repeat constructor;
    repeat match goal with
    | H : (_ || _) = true |- _ => apply orb_true_iff in H as [H|H]
    | _ => progress tobool
    end; apply andb_false_iff; rewrite !Z.leb_gt; lia.
Qed.

Lemma ws_char_len_rev_not_graphic l : Forall not_graphic (take (ws_char_len_rev l) l).
Proof.
  assert (H : forall k, ws_char_len (rev (take k l)) = k -> Forall not_graphic (take k l)).
  { intros k Hk. pose proof (ws_char_len_not_graphic (rev (take k l))) as H. rewrite Hk in H.
    rewrite take_ge in H by (rewrite length_rev, length_take; lia).
    rewrite <- (rev_involutive (take k l)). by apply Forall_rev. }
  unfold ws_char_len_rev. repeat case_match; tobool; auto.
Qed.

Lemma drop_ws_not_graphic len_of fuel l :
  (forall l, Forall not_graphic (take (len_of l) l)) ->
  exists p, l = p ++ drop_ws len_of fuel l /\ Forall not_graphic p.
Proof.
  intros Hl. revert l; induction fuel as [|fuel IH]; intros l; simpl; [by exists []|].
  destruct (len_of l) as [|n] eqn:E; [by exists []|]. destruct (IH (drop (S n) l)) as (p & Hp & Hg).
  exists (take (S n) l ++ p). split; [by rewrite <- app_assoc, <- Hp, take_drop|].
  apply Forall_app. split; [|done]. rewrite <- E. apply Hl.
Qed.

Lemma trim_not_graphic l :
  exists p s, l = p ++ trim l ++ s /\ Forall not_graphic p /\ Forall not_graphic s.
Proof.
  destruct (drop_ws_not_graphic _ (length l) l ws_char_len_not_graphic) as (p & Hp & Hg).
  fold (trim_start l) in Hp.
  destruct (drop_ws_not_graphic _ (length (trim_start l)) (rev (trim_start l)) ws_char_len_rev_not_graphic)
    as (s & Hs & Hgs).
  exists p, (rev s). split; [|by auto using Forall_rev].
  unfold trim, trim_end. by rewrite <- rev_app_distr, <- Hs, rev_involutive.
Qed.

(** ** Files of lines *)

(** The length of the line that starts a file, its newline included; none when the
    file ends before a newline. *)
Fixpoint line_len (l : bytes) : option nat :=
  match l with [] => None | b :: l => if b ==? 10 then Some 1 else option_map S (line_len l) end.

Lemma line_len_line l r : 10%Z ∉ l -> line_len (l ++ 10%Z :: r) = Some (S (length l)).
Proof.
  induction l as [|b l IH]; intros Hl; [done|]. apply not_elem_of_cons in Hl as [Hb Hl]. cbn.
  rewrite (proj2 (Z.eqb_neq b 10)) by congruence. by rewrite IH.
Qed.

Lemma line_len_tail l : 10%Z ∉ l -> line_len l = None.
Proof.
  induction l as [|b l IH]; intros Hl; [done|]. apply not_elem_of_cons in Hl as [Hb Hl]. cbn.
  rewrite (proj2 (Z.eqb_neq b 10)) by congruence. by rewrite IH.
Qed.
