(* ===== verification/Lexer.v ===== *)
(** * Context lexer: [kingfisher-scanner/src/context/parser/lexer.rs], literals
      and statements

    The byte-level scanners of the context parser: literal spans of the source
    languages, the values listed in a bracketed expression, the comment
    stripper, and the statement structure that decides which lines are stitched
    together. Strings are UTF-8 bytes; [idx] loops are recursions over the rest
    of the input with the offset carried along. *)

From Stdlib Require Import ZArith Lia Bool ZifyNat.
From stdpp Require Import base list numbers option.
From S2P Require Import Prelude Text.

Definition QUOTE : byte := 34.
Definition APOS : byte := 39.
Definition BACKSLASH : byte := 92.
Definition HASH : byte := 35.
Definition BACKTICK : byte := 96.
Definition NEWLINE : byte := 10.

(** [matches!(bytes.get(i), Some(..))] *)
Definition at_is (p : byte -> bool) (input : bytes) (i : nat) : bool :=
  match input !! i with Some b => p b | None => false end.
Definition eqb_byte (c : byte) (b : byte) : bool := b ==? c.

(** ** Literal spans *)

Record LiteralSpan := mkSpan { lit_end : nat; closed : bool }.

Definition is_b (b : byte) : bool := (b ==? bc "b") || (b ==? bc "B").
Definition is_r (b : byte) : bool := (b ==? bc "r") || (b ==? bc "R").
Definition is_string_prefix_byte (b : byte) : bool :=
  is_b b || (b ==? bc "f") || (b ==? bc "F") || is_r b || (b ==? bc "u") || (b ==? bc "U").
Definition is_quote (b : byte) : bool := (b ==? APOS) || (b ==? QUOTE).

(** The end of a raw literal: a quote followed by [hash_count] hashes. *)
Fixpoint raw_end (hash_count : nat) (rest : bytes) (idx : nat) : LiteralSpan :=
  match rest with
  | [] => mkSpan idx false
  | b :: r =>
    if (b ==? QUOTE) && (hash_count <=? length r) && forallb (eqb_byte HASH) (take hash_count r)
    then mkSpan (idx + 1 + hash_count) true
    else raw_end hash_count r (S idx)
  end.

Definition count_while (p : byte -> bool) (l : bytes) : nat := partition_point p l.

Definition parse_rust_raw_literal_span (input : bytes) (start : nat) : option LiteralSpan :=
  let idx := if at_is is_b input start && at_is is_r input (start + 1) then start + 1 else start in
  if negb (at_is is_r input idx) then None
  else
    let hash_start := idx + 1 in
    let hash_count := count_while (eqb_byte HASH) (drop hash_start input) in
    let idx := hash_start + hash_count in
    if negb (at_is (eqb_byte QUOTE) input idx) then None
    else Some (raw_end hash_count (drop (idx + 1) input) (idx + 1)).

(** The end of a verbatim literal: a quote that is not doubled. *)
Fixpoint verbatim_end (rest : bytes) (idx : nat) : LiteralSpan :=
  match rest with
  | [] => mkSpan idx false
  | b :: r =>
    if b ==? QUOTE then
      match r with
      | c :: r' => if c ==? QUOTE then verbatim_end r' (idx + 2) else mkSpan (idx + 1) true
      | [] => mkSpan (idx + 1) true
      end
    else verbatim_end r (S idx)
  end.

Definition parse_csharp_verbatim_literal_span (input : bytes) (start : nat) : option LiteralSpan :=
  let c i b := at_is (eqb_byte b) input (start + i) in
  let quote_idx :=
    if c 0 (bc "@") && c 1 QUOTE then Some (start + 1)
    else if (c 0 (bc "$") && c 1 (bc "@") && c 2 QUOTE) || (c 0 (bc "@") && c 1 (bc "$") && c 2 QUOTE)
    then Some (start + 2)
    else None in
  match quote_idx with
  | None => None
  | Some q => Some (verbatim_end (drop (q + 1) input) (q + 1))
  end.

(** The end of a quoted literal: the quote, or the quote three times, with
    escapes only in the single form. *)
Fixpoint quoted_end (triple : bool) (quote : byte) (rest : bytes) (idx : nat) : LiteralSpan :=
  match rest with
  | [] => mkSpan idx false
  | b :: r =>
    if negb triple && (b ==? BACKSLASH) then
      match r with
      | _ :: r' => quoted_end triple quote r' (idx + 2)
      | [] => mkSpan (idx + 1) false
      end
    else if triple then
      if (b ==? quote) && at_is (eqb_byte quote) r 0 && at_is (eqb_byte quote) r 1
      then mkSpan (idx + 3) true
      else quoted_end triple quote r (S idx)
    else if b ==? quote then mkSpan (idx + 1) true
    else quoted_end triple quote r (S idx)
  end.

(** The offset of the quote a quoted literal opens with. *)
Definition quote_index (input : bytes) (start : nat) : option nat :=
  if at_is (eqb_byte (bc "$")) input start then Some (start + 1)
  else if at_is is_quote input start then Some start
  else
    let n := count_while is_string_prefix_byte (take 3 (drop start input)) in
    if Nat.eqb n 0 then None else Some (start + n).

Definition is_triple (input : bytes) (quote_idx : nat) (quote : byte) : bool :=
  (quote_idx + 2 <? length input) && at_is (eqb_byte quote) input (quote_idx + 1)
  && at_is (eqb_byte quote) input (quote_idx + 2).

Definition parse_quoted_literal_span (input : bytes) (start : nat) : option LiteralSpan :=
  match quote_index input start with
  | None => None
  | Some quote_idx =>
    match input !! quote_idx with
    | None => None
    | Some quote =>
      if negb (is_quote quote) then None
      else
        let triple := is_triple input quote_idx quote in
        let idx := quote_idx + if triple then 3 else 1 in
        Some (quoted_end triple quote (drop idx input) idx)
    end
  end.

Fixpoint backtick_end (rest : bytes) (idx : nat) : LiteralSpan :=
  match rest with
  | [] => mkSpan idx false
  | b :: r => if b ==? BACKTICK then mkSpan (idx + 1) true else backtick_end r (S idx)
  end.

Definition parse_backtick_literal_span (input : bytes) (start : nat) : option LiteralSpan :=
  if negb (at_is (eqb_byte BACKTICK) input start) then None
  else Some (backtick_end (drop (start + 1) input) (start + 1)).

(** [a.or_else(|| b)] *)
Definition or_else {A} (a b : option A) : option A := match a with Some _ => a | None => b end.

Definition parse_any_literal_span (input : bytes) (start : nat) : option LiteralSpan :=
  or_else (parse_rust_raw_literal_span input start)
    (or_else (parse_csharp_verbatim_literal_span input start)
      (or_else (parse_quoted_literal_span input start) (parse_backtick_literal_span input start))).

(** ** Values listed in an expression *)

Definition is_separator (b : byte) : bool :=
  (b ==? 32) || (b ==? 9) || (b ==? 13) || (b ==? 10) || (b ==? bc ",").
Definition is_number_byte (b : byte) : bool :=
  is_ascii_digit b || (b ==? bc ".") || (b ==? bc "_") || (b ==? bc "x").
Definition is_bare_end (b : byte) : bool :=
  is_separator b || (b ==? bc ")") || (b ==? bc "]") || (b ==? bc "}").
Definition closer (b : byte) : option byte :=
  if b ==? bc "[" then Some (bc "]")
  else if b ==? bc "(" then Some (bc ")")
  else if b ==? bc "{" then Some (bc "}")
  else None.

(** [while idx < bytes.len() && depth > 0]: the offset after the bracket that
    closes, and the offset of that bracket when there is one. *)
Fixpoint bracket_loop (fuel : nat) (input : bytes) (opn cls : byte) (idx depth : nat) :
    nat * option nat :=
  match fuel with
  | 0 => (idx, None)
  | S fuel =>
    match input !! idx with
    | None => (idx, None)
    | Some ch =>
      match parse_any_literal_span input idx with
      | Some span => bracket_loop fuel input opn cls (lit_end span) depth
      | None =>
        if ch ==? opn then bracket_loop fuel input opn cls (S idx) (S depth)
        else if ch ==? cls then
          if Nat.eqb depth 1 then (S idx, Some idx)
          else bracket_loop fuel input opn cls (S idx) (depth - 1)
        else bracket_loop fuel input opn cls (S idx) depth
      end
    end
  end.

(** The outer loop; [inner] is the recursive call on the text of a bracket. *)
Fixpoint values_loop (inner : bytes -> list bytes) (allow_bare : bool) (fuel : nat) (input : bytes)
    (idx : nat) (values : list bytes) : list bytes :=
  match fuel with
  | 0 => values
  | S fuel =>
    match input !! idx with
    | None => values
    | Some ch =>
      match parse_any_literal_span input idx with
      | Some span =>
        values_loop inner allow_bare fuel input (lit_end span)
          (values ++ [slice input idx (lit_end span)])
      | None =>
        if is_separator ch then values_loop inner allow_bare fuel input (S idx) values
        else
          match closer ch with
          | Some close =>
            let '(next, close_at) := bracket_loop (length input) input ch close (S idx) 1 in
            values_loop inner allow_bare fuel input next
              (match close_at with
               | Some c => values ++ inner (slice input (S idx) c)
               | None => values
               end)
          | None =>
            if is_ascii_digit ch || (ch ==? bc "+") || (ch ==? bc "-") then
              let stop := S idx + count_while is_number_byte (drop (S idx) input) in
              values_loop inner allow_bare fuel input stop (values ++ [slice input idx stop])
            else if allow_bare && (is_ascii_alphanumeric ch || (ch ==? bc "_") || (ch ==? bc "$") || (ch ==? bc "@"))
            then
              let stop := S idx + count_while (fun b => negb (is_bare_end b)) (drop (S idx) input) in
              values_loop inner allow_bare fuel input stop (values ++ [slice input idx stop])
            else values_loop inner allow_bare fuel input (S idx) values
          end
      end
    end
  end.

(** A bracket's text is shorter than the input, so the length bounds the depth
    of the recursion. *)
Fixpoint literal_values (fuel : nat) (allow_bare : bool) (input : bytes) : list bytes :=
  match fuel with
  | 0 => []
  | S fuel => values_loop (literal_values fuel allow_bare) allow_bare (length input) input 0 []
  end.

Definition extract_literal_values (input : bytes) (allow_bare : bool) : list bytes :=
  literal_values (S (length input)) allow_bare input.

(** ** Comments *)

Record CommentStyle := {
  line_comment_hash : bool; line_comment_slash : bool; block_comments : bool;
  backticks : bool; verbatim_strings : bool; triple_quotes : bool
}.

Definition c_style : CommentStyle :=
  {| line_comment_hash := false; line_comment_slash := true; block_comments := true;
     backticks := false; verbatim_strings := false; triple_quotes := false |}.
Definition shell : CommentStyle :=
  {| line_comment_hash := true; line_comment_slash := false; block_comments := false;
     backticks := false; verbatim_strings := false; triple_quotes := false |}.
Definition hash_only : CommentStyle :=
  {| line_comment_hash := true; line_comment_slash := false; block_comments := false;
     backticks := false; verbatim_strings := false; triple_quotes := false |}.
Definition php : CommentStyle :=
  {| line_comment_hash := true; line_comment_slash := true; block_comments := true;
     backticks := false; verbatim_strings := false; triple_quotes := false |}.
Definition python : CommentStyle :=
  {| line_comment_hash := true; line_comment_slash := false; block_comments := false;
     backticks := false; verbatim_strings := false; triple_quotes := true |}.
Definition with_backticks (s : CommentStyle) : CommentStyle :=
  {| line_comment_hash := line_comment_hash s; line_comment_slash := line_comment_slash s;
     block_comments := block_comments s; backticks := true;
     verbatim_strings := verbatim_strings s; triple_quotes := triple_quotes s |}.
Definition with_verbatim_strings (s : CommentStyle) : CommentStyle :=
  {| line_comment_hash := line_comment_hash s; line_comment_slash := line_comment_slash s;
     block_comments := block_comments s; backticks := backticks s;
     verbatim_strings := true; triple_quotes := triple_quotes s |}.

Inductive StringState := Single | Double | Backtick | Verbatim | TripleSingle | TripleDouble.

(** Where the stripper is: in code, in a string, in a block comment, or in a
    line comment (the inner [while] loop of the code). *)
Inductive StripState := InCode | InString (s : StringState) | InBlock | InLine.

(** [n] more bytes of the input are consumed by the step that is under way. *)
Definition is3 (b c d q : byte) : bool := (b ==? q) && (c ==? q) && (d ==? q).

(** One step in a string: the characters pushed, the bytes consumed and the
    state after. *)
Definition string_step (s : StringState) (b : byte) (r : bytes) : list Z * nat * StripState :=
  let stay := ([b], 1, InString s) in
  let escaped q :=
    match r with
    | c :: _ => if b ==? BACKSLASH then ([b; c], 2, InString s)
                else if b ==? q then ([b], 1, InCode) else stay
    | [] => if b ==? q then ([b], 1, InCode) else stay
    end in
  let tripled q :=
    match r with
    | c :: d :: _ => if is3 b c d q then ([b; q; q], 3, InCode) else stay
    | _ => stay
    end in
  match s with
  | Single => escaped APOS
  | Double => escaped QUOTE
  | Backtick => if b ==? BACKTICK then ([b], 1, InCode) else stay
  | Verbatim =>
    if b ==? QUOTE then
      match r with
      | c :: _ => if c ==? QUOTE then ([b; QUOTE], 2, InString s) else ([b], 1, InCode)
      | [] => ([b], 1, InCode)
      end
    else stay
  | TripleSingle => tripled APOS
  | TripleDouble => tripled QUOTE
  end.

(** One step in code, in the order of the tests. *)
Definition code_step (style : CommentStyle) (b : byte) (r : bytes) : list Z * nat * StripState :=
  let next := head r in
  let next_is c := match next with Some x => x ==? c | None => false end in
  let next2_is c := match r with _ :: x :: _ => x ==? c | _ => false end in
  if block_comments style && (b ==? bc "/") && next_is (bc "*") then ([], 2, InBlock)
  else if line_comment_slash style && (b ==? bc "/") && next_is (bc "/") then ([], 0, InLine)
  else if line_comment_hash style && (b ==? HASH) then ([], 0, InLine)
  else if verbatim_strings style && (b ==? bc "@") && next_is QUOTE
  then ([bc "@"; QUOTE], 2, InString Verbatim)
  else if verbatim_strings style && (b ==? bc "@") && next_is (bc "$") && next2_is QUOTE
  then ([bc "@"; bc "$"; QUOTE], 3, InString Verbatim)
  else if triple_quotes style && (b ==? APOS) && next_is APOS && next2_is APOS
  then ([APOS; APOS; APOS], 3, InString TripleSingle)
  else if triple_quotes style && (b ==? QUOTE) && next_is QUOTE && next2_is QUOTE
  then ([QUOTE; QUOTE; QUOTE], 3, InString TripleDouble)
  else if b ==? APOS then ([APOS], 1, InString Single)
  else if b ==? QUOTE then ([QUOTE], 1, InString Double)
  else if (b ==? BACKTICK) && backticks style then ([BACKTICK], 1, InString Backtick)
  else ([b], 1, InCode).

Definition strip_step (style : CommentStyle) (st : StripState) (b : byte) (r : bytes) :
    list Z * nat * StripState :=
  match st with
  | InBlock =>
    match r with
    | c :: _ => if (b ==? bc "*") && (c ==? bc "/") then ([], 2, InCode)
                else (if b ==? NEWLINE then [NEWLINE] else [], 1, InBlock)
    | [] => (if b ==? NEWLINE then [NEWLINE] else [], 1, InBlock)
    end
  | InLine => if b ==? NEWLINE then ([], 0, InCode) else ([], 1, InLine)
  | InString s => string_step s b r
  | InCode => code_step style b r
  end.

(** The characters of the output; a byte becomes the character of its value
    ([bytes[idx] as char]). A step that consumes nothing switches between code
    and a line comment, so twice the length is fuel enough. *)
Fixpoint strip_loop (style : CommentStyle) (fuel : nat) (st : StripState) (rest : bytes) : list Z :=
  match fuel with
  | 0 => []
  | S fuel =>
    match rest with
    | [] => []
    | b :: r =>
      let '(out, n, st') := strip_step style st b r in
      out ++ strip_loop style fuel st' (drop n rest)
    end
  end.

Definition strip_chars (source : bytes) (style : CommentStyle) : list Z :=
  strip_loop style (2 * length source + 1) InCode source.

(** A character below 256 in UTF-8. *)
Definition latin1_utf8 (c : Z) : bytes :=
  if (c <? 128)%Z then [c] else [Z.lor 192 (Z.shiftr c 6); Z.lor 128 (Z.land c 63)].

Definition strip_comments (source : bytes) (style : CommentStyle) : bytes :=
  flat_map latin1_utf8 (strip_chars source style).

Example strip_comments_c :
  strip_comments (bs "a = 'x//y'; // z" ++ [10%Z] ++ bs "/* q */b") c_style =
  bs "a = 'x//y'; " ++ [10%Z] ++ bs "b".
Proof. vm_compute. reflexivity. Qed.

(** ** Bounds of the literal spans *)

Definition is_ascii (b : byte) : bool := (b <? 128)%Z.

(** A scan of [rest], which starts at offset [idx], ends where [s] says: at the
    end of the input when the literal is not closed, and otherwise after an
    ASCII byte of it. *)
Definition span_ok (rest : bytes) (idx : nat) (s : LiteralSpan) : Prop :=
  (closed s = false /\ lit_end s = idx + length rest) \/
  (closed s = true /\ idx < lit_end s <= idx + length rest /\
   at_is is_ascii rest (lit_end s - idx - 1) = true).

Lemma at_is_app p l1 l2 i : at_is p (l1 ++ l2) (length l1 + i) = at_is p l2 i.
Proof. unfold at_is. rewrite lookup_app_r by lia. by replace (length l1 + i - length l1) with i by lia. Qed.

Lemma at_is_drop p l n i : at_is p (drop n l) i = at_is p l (n + i).
Proof. unfold at_is. by rewrite lookup_drop. Qed.

Lemma at_is_some p l i : at_is p l i = true <-> exists b, l !! i = Some b /\ p b = true.
Proof.
  unfold at_is. split; [|by intros (b & -> & ?)]. destruct (l !! i) as [b|]; [by exists b|done].
Qed.

Lemma at_is_lt p l i : at_is p l i = true -> i < length l.
Proof. intros (b & Hb & _)%at_is_some. by apply lookup_lt_Some in Hb. Qed.

Lemma at_is_impl (p q : byte -> bool) l i :
  (forall b, p b = true -> q b = true) -> at_is p l i = true -> at_is q l i = true.
Proof. intros Hpq (b & Hb & Hp)%at_is_some. apply at_is_some. eauto. Qed.

Lemma span_ok_app l r idx s : span_ok r (idx + length l) s -> span_ok (l ++ r) idx s.
Proof.
  unfold span_ok. rewrite length_app. intros [[Hc He]|(Hc & He & Ha)]; [left; split; [done|lia]|right].
  repeat split; [done|lia|lia|].
  replace (lit_end s - idx - 1) with (length l + (lit_end s - (idx + length l) - 1)) by lia.
  by rewrite at_is_app.
Qed.

Lemma span_ok_cons b r idx s : span_ok r (S idx) s -> span_ok (b :: r) idx s.
Proof. intros H. apply (span_ok_app [b]). by replace (idx + length [b]) with (S idx) by (simpl; lia). Qed.

Lemma span_ok_close l b r idx :
  is_ascii b = true -> span_ok (l ++ b :: r) idx (mkSpan (idx + S (length l)) true).
Proof.
  intros Hb. right. simpl. rewrite length_app. simpl. repeat split; try lia.
  replace (idx + S (length l) - idx - 1) with (length l + 0) by lia. by rewrite at_is_app.
Qed.

Lemma span_ok_nil idx : span_ok [] idx (mkSpan idx false).
Proof. left. simpl. split; [done|lia]. Qed.

#[local] Hint Resolve span_ok_nil span_ok_cons : core.

Lemma raw_end_ok h rest idx : span_ok rest idx (raw_end h rest idx).
Proof.
  revert idx; induction rest as [|b r IH]; intros idx; simpl; [done|]. split_if; [|auto]. tobool.
  rewrite forallb_forall in *. right. cbn [closed lit_end length]. repeat split; try lia.
  apply at_is_some. destruct h as [|h].
  - exists b. replace (idx + 1 + 0 - idx - 1) with 0 by lia. by subst b.
  - replace (idx + 1 + S h - idx - 1) with (S h) by lia. simpl.
    destruct (r !! h) as [c|] eqn:E; [|apply lookup_ge_None in E; lia]. exists c. split; [done|].
    assert (In c (take (S h) r)) as Hc.
    { apply list_elem_of_In, list_elem_of_lookup. exists h. by rewrite lookup_take_lt by lia. }
    match goal with H : forall x, In x _ -> _ |- _ => apply H in Hc end.
    unfold eqb_byte in Hc. tobool. by subst c.
Qed.

Lemma verbatim_end_ok rest idx : span_ok rest idx (verbatim_end rest idx).
Proof.
  revert idx. induction rest as [rest IH] using (induction_ltof1 _ (@length byte)). intros idx.
  unfold ltof in IH. destruct rest as [|b r]; [done|]. cbn [verbatim_end].
  destruct (b ==? QUOTE) eqn:Eb.
  - assert (Hclose : forall l, span_ok (b :: l) idx (mkSpan (idx + 1) true)).
    { intros l. apply (span_ok_close [] b l idx). tobool. by subst b. }
    destruct r as [|c r']; [done|]. destruct (c ==? QUOTE); [|done].
    apply (span_ok_app [b; c]). apply IH. simpl. lia.
  - apply span_ok_cons, IH. simpl. lia.
Qed.

Lemma quoted_end_ok triple quote rest idx :
  is_ascii quote = true -> span_ok rest idx (quoted_end triple quote rest idx).
Proof.
  intros Hq. revert idx. induction rest as [rest IH] using (induction_ltof1 _ (@length byte)). intros idx.
  unfold ltof in IH. destruct rest as [|b r]; [done|]. cbn [quoted_end].
  destruct (negb triple && (b ==? BACKSLASH)).
  { destruct r as [|c r']; [|apply (span_ok_app [b; c]), IH; simpl; lia].
    left. simpl. split; [done|lia]. }
  assert (Hr : span_ok (b :: r) idx (quoted_end triple quote r (S idx))) by (apply span_ok_cons, IH; simpl; lia).
  destruct triple; [|destruct (b ==? quote) eqn:Eb; [|done]].
  - destruct (_ && _) eqn:E; [|done]. tobool.
    destruct r as [|c [|d r]]; [done|done|]. cbn in *. unfold eqb_byte in *. tobool. subst b c d.
    replace (idx + 3) with (idx + S (length [quote; quote])) by (simpl; lia).
    by apply (span_ok_close [quote; quote] quote r idx).
  - tobool. subst b. replace (idx + 1) with (idx + S (length (@nil byte))) by (simpl; lia).
    by apply (span_ok_close [] quote r idx).
Qed.

Lemma backtick_end_ok rest idx : span_ok rest idx (backtick_end rest idx).
Proof.
  revert idx; induction rest as [|b r IH]; intros idx; simpl; [done|].
  destruct (b ==? BACKTICK) eqn:Eb; [|auto]. tobool. subst b.
  by apply (span_ok_close [] BACKTICK r idx).
Qed.

(** A literal that starts at [start] and whose scan starts at [idx], after its
    opening, ends inside the input. *)
Definition literal_bounds (input : bytes) (start : nat) (s : LiteralSpan) : Prop :=
  start < lit_end s <= length input /\ at_is is_ascii input start = true /\
  (closed s = false -> lit_end s = length input) /\
  (closed s = true -> at_is is_ascii input (lit_end s - 1) = true).

Lemma span_ok_bounds input start idx s :
  start < idx -> idx <= length input -> at_is is_ascii input start = true ->
  span_ok (drop idx input) idx s -> literal_bounds input start s.
Proof.
  intros Hs Hi Ha [[Hc He]|(Hc & He & Hl)]; rewrite length_drop in He;
    (split; [|split; [done|split; intros E; try congruence]]); try lia.
  rewrite at_is_drop in Hl. replace (idx + (lit_end s - idx - 1)) with (lit_end s - 1) in Hl by lia. done.
Qed.

Lemma eqb_byte_ascii c b : is_ascii c = true -> eqb_byte c b = true -> is_ascii b = true.
Proof. unfold eqb_byte. intros Hc H. tobool. by subst. Qed.

Lemma is_b_ascii b : is_b b = true -> is_ascii b = true.
Proof. unfold is_b. intros [H|H]%orb_true_iff; tobool; by subst. Qed.
Lemma is_r_ascii b : is_r b = true -> is_ascii b = true.
Proof. unfold is_r. intros [H|H]%orb_true_iff; tobool; by subst. Qed.
Lemma is_quote_ascii b : is_quote b = true -> is_ascii b = true.
Proof. unfold is_quote. intros [H|H]%orb_true_iff; tobool; by subst. Qed.
Lemma is_string_prefix_byte_ascii b : is_string_prefix_byte b = true -> is_ascii b = true.
Proof.
  unfold is_string_prefix_byte.
  repeat (intros [H|H]%orb_true_iff; [revert H|];
          try solve [by apply is_b_ascii | by apply is_r_ascii | tobool; by subst]).
Qed.

Lemma count_while_le p l : count_while p l <= length l.
Proof. apply partition_point_le. Qed.

Lemma rust_raw_bounds input start s :
  parse_rust_raw_literal_span input start = Some s -> literal_bounds input start s.
Proof.
  unfold parse_rust_raw_literal_span.
  set (idx := if _ && _ then _ else _). destruct (negb _) eqn:Er; [done|].
  set (n := count_while _ _). destruct (negb (at_is (eqb_byte QUOTE) _ _)) eqn:Eq; [done|]. tobool.
  intros [= <-]. pose proof (at_is_lt _ _ _ Eq) as Hlt.
  assert (start <= idx /\ at_is is_ascii input start = true) as [Hi Ha].
  { subst idx. destruct (_ && _) eqn:E; [|split; [lia|by eapply at_is_impl, Er; apply is_r_ascii]].
    tobool. split; [lia|]. eapply at_is_impl; [apply is_b_ascii|done]. }
  apply (span_ok_bounds _ _ (idx + 1 + n + 1)); [lia|lia|done|]. apply raw_end_ok.
Qed.

Lemma csharp_bounds input start s :
  parse_csharp_verbatim_literal_span input start = Some s -> literal_bounds input start s.
Proof.
  unfold parse_csharp_verbatim_literal_span. set (quote_idx := if _ && _ then _ else _).
  destruct quote_idx as [q|] eqn:Eq; [|done]. intros [= <-].
  assert (start < q /\ at_is (eqb_byte QUOTE) input q = true /\ at_is is_ascii input start = true) as (Hq & Hl & Ha).
  { subst quote_idx. rewrite !Nat.add_0_r in Eq.
    destruct (at_is _ input start && at_is _ input (start + 1)) eqn:E1; simplify_eq.
    - tobool. split_and!; [lia|done|]. eapply at_is_impl; [|eassumption]. intros b. by apply eqb_byte_ascii.
    - destruct (_ || _) eqn:E2; simplify_eq.
      apply orb_true_iff in E2 as [E2|E2]; tobool; (split_and!; [lia|done|]);
        (eapply at_is_impl; [|eassumption]; intros b; by apply eqb_byte_ascii). }
  apply at_is_lt in Hl.
  apply (span_ok_bounds _ _ (q + 1)); [lia|lia|done|]. apply verbatim_end_ok.
Qed.

Lemma quote_index_spec input start q :
  quote_index input start = Some q -> start <= q /\ (q < length input -> at_is is_ascii input start = true).
Proof.
  unfold quote_index. destruct (at_is _ input start) eqn:E1.
  { intros [= <-]. split; [lia|]. intros _. eapply at_is_impl, E1. intros b. by apply eqb_byte_ascii. }
  destruct (at_is is_quote input start) eqn:E2.
  { intros [= <-]. split; [lia|]. intros _. eapply at_is_impl, E2. apply is_quote_ascii. }
  set (n := count_while _ _). destruct (Nat.eqb n 0) eqn:En; [done|]. intros [= <-]. split; [lia|]. intros _.
  tobool. subst n. destruct (drop start input) as [|b r] eqn:Ed; [done|]. unfold count_while in En; simpl in En.
  destruct (is_string_prefix_byte b) eqn:Eb; [|done]. apply at_is_some. exists b.
  split; [|by apply is_string_prefix_byte_ascii].
  replace start with (start + 0) by lia. rewrite <- lookup_drop, Ed. done.
Qed.

Lemma quoted_bounds input start s :
  parse_quoted_literal_span input start = Some s -> literal_bounds input start s.
Proof.
  unfold parse_quoted_literal_span. destruct (quote_index input start) as [q|] eqn:Eq; [|done].
  destruct (input !! q) as [quote|] eqn:El; [|done]. destruct (negb (is_quote quote)) eqn:Ei; [done|].
  intros [= <-]. tobool. apply quote_index_spec in Eq as [Hq Ha].
  assert (Hlt := lookup_lt_Some _ _ _ El).
  apply (span_ok_bounds _ _ (q + if is_triple input q quote then 3 else 1)); [| |auto|].
  - destruct (is_triple _ _ _); lia.
  - destruct (is_triple _ _ _) eqn:Et; [|lia]. unfold is_triple in Et. tobool. lia.
  - apply quoted_end_ok. by apply is_quote_ascii.
Qed.

Lemma backtick_bounds input start s :
  parse_backtick_literal_span input start = Some s -> literal_bounds input start s.
Proof.
  unfold parse_backtick_literal_span. destruct (negb _) eqn:E; [done|]. intros [= <-]. tobool.
  assert (Hlt := at_is_lt _ _ _ E).
  apply (span_ok_bounds _ _ (start + 1)); [lia|lia| |apply backtick_end_ok].
  eapply at_is_impl, E. intros b. by apply eqb_byte_ascii.
Qed.

Lemma any_literal_cases input start s :
  parse_any_literal_span input start = Some s ->
  parse_rust_raw_literal_span input start = Some s \/
  parse_csharp_verbatim_literal_span input start = Some s \/
  parse_quoted_literal_span input start = Some s \/ parse_backtick_literal_span input start = Some s.
Proof. unfold parse_any_literal_span, or_else. intros H. repeat case_match; simplify_eq; auto. Qed.

(** A literal span that starts at an offset of the input ends after that
    offset and inside the input; it starts with an ASCII byte; a closed one ends
    with an ASCII byte and one that is not closed ends with the input. So the
    scanning loops make progress and the slices [input[start..end]] of the code
    are on character boundaries. *)
Theorem parse_any_literal_span_bounds input start s :
  parse_any_literal_span input start = Some s -> literal_bounds input start s.
Proof.
  intros [H|[H|[H|H]]]%any_literal_cases;
    [by apply rust_raw_bounds|by apply csharp_bounds|by apply quoted_bounds|by apply backtick_bounds].
Qed.

Lemma parse_any_literal_span_bounds_witness :
  literal_bounds (bs "x = 'a") 4 (mkSpan 6 false).
Proof. apply parse_any_literal_span_bounds. vm_compute. reflexivity. Defined.

Lemma any_literal_progress input start s :
  parse_any_literal_span input start = Some s -> start < lit_end s <= length input.
Proof.
  intros [H|[H|[H|H]]]%any_literal_cases;
    [apply rust_raw_bounds in H|apply csharp_bounds in H|apply quoted_bounds in H|apply backtick_bounds in H];
    apply H.
Qed.

(** ** The comment stripper *)

(** The run of the loop as a relation: it ends when the input is consumed. *)
Inductive Strips (style : CommentStyle) : StripState -> bytes -> list Z -> Prop :=
| Strips_end st : Strips style st [] []
| Strips_step st b r out n st' rest :
    strip_step style st b r = (out, n, st') ->
    Strips style st' (drop n (b :: r)) rest ->
    Strips style st (b :: r) (out ++ rest).

Definition newlines (l : list Z) : list Z := List.filter (eqb_byte NEWLINE) l.

(** What one step does with the bytes it consumes. *)
Definition step_keeps (b : byte) (r : bytes) (res : list Z * nat * StripState) : Prop :=
  let '(out, n, _) := res in
  sublist out (take n (b :: r)) /\ newlines out = newlines (take n (b :: r)) /\ n <= S (length r).

Lemma keeps_all b r n st : n <= S (length r) -> step_keeps b r (take n (b :: r), n, st).
Proof. done. Qed.

Lemma keeps_here b r st : step_keeps b r ([b], 1, st).
Proof. apply (keeps_all b r 1). lia. Qed.

Lemma string_step_keeps s b r : step_keeps b r (string_step s b r).
Proof.
  destruct s; unfold string_step, is3; repeat case_match; tobool; subst;
    try apply keeps_here;
    try (apply (keeps_all b (_ :: _) 2); simpl; lia);
    try (apply (keeps_all _ (_ :: _) 2); simpl; lia);
    apply (keeps_all _ (_ :: _ :: _) 3); simpl; lia.
Qed.

Lemma code_step_keeps style b r : step_keeps b r (code_step style b r).
Proof.
  unfold code_step. destruct r as [|c [|d r]]; cbn [head]; repeat case_match; tobool; subst; try done; try apply keeps_here;
    try (apply (keeps_all _ (_ :: _) 2); simpl; lia);
    try (apply (keeps_all _ (_ :: _ :: _) 3); simpl; lia);
    (split_and!; [apply sublist_nil_l|done|simpl; lia]).
Qed.

Lemma strip_step_keeps style st b r : step_keeps b r (strip_step style st b r).
Proof.
  destruct st as [|s| |]; unfold strip_step;
    [apply code_step_keeps|apply string_step_keeps| |].
  - assert (Hstay : step_keeps b r (if b ==? NEWLINE then [NEWLINE] else [], 1, InBlock)).
    { destruct (b ==? NEWLINE) eqn:E; [tobool; subst b; apply keeps_here|].
      simpl. unfold newlines. simpl. unfold eqb_byte. rewrite E. simpl. split_and!; [apply sublist_nil_l|done|lia]. }
    destruct r as [|c r]; [done|]. destruct (_ && _) eqn:E; [|done]. tobool. subst.
    simpl. split_and!; [apply sublist_nil_l|done|lia].
  - destruct (b ==? NEWLINE) eqn:E; simpl; [split_and!; [done|done|lia]|].
    unfold newlines. simpl. unfold eqb_byte. rewrite E. split_and!; [apply sublist_nil_l|done|lia].
Qed.

(** A step that consumes nothing is followed by one that does. *)
Lemma code_step_zero style b r out st' :
  code_step style b r = (out, 0, st') -> st' = InLine /\ out = [] /\ (b ==? NEWLINE) = false.
Proof. unfold code_step. repeat case_match; intros; simplify_eq; tobool; subst; done. Qed.

Lemma code_step_newline style r : snd (fst (code_step style NEWLINE r)) = 1.
Proof. unfold code_step. repeat (rewrite ?andb_false_r; cbn). done. Qed.

Lemma strip_step_zero style st b r out st' :
  strip_step style st b r = (out, 0, st') ->
  exists out2 n st2, out = [] /\ strip_step style st' b r = (out2, S n, st2).
Proof.
  destruct st as [|s| |]; unfold strip_step at 1.
  - intros (-> & -> & E)%code_step_zero. cbn [strip_step]. rewrite E. eauto.
  - destruct s; unfold string_step; repeat case_match; intros; simplify_eq.
  - repeat case_match; intros; simplify_eq.
  - destruct (b ==? NEWLINE) eqn:E; intros; simplify_eq. tobool. subst b.
    pose proof (code_step_newline style r) as H. cbn [strip_step].
    destruct (code_step style NEWLINE r) as [[o n] s]. simpl in H. subst n. eauto.
Qed.

(** Twice the length is fuel enough: the loop consumes the whole input. *)
Lemma strip_loop_strips style fuel st rest :
  2 * length rest <= fuel -> Strips style st rest (strip_loop style fuel st rest).
Proof.
  revert st rest. induction fuel as [fuel IH] using lt_wf_ind. intros st rest Hf.
  destruct rest as [|b r]; [destruct fuel; constructor|].
  destruct fuel as [|[|fuel]]; [simpl in Hf; lia|simpl in Hf; lia|]. cbn [length] in Hf.
  cbn [strip_loop]. destruct (strip_step style st b r) as [[out n] st'] eqn:E.
  econstructor; [done|]. destruct n as [|n].
  - apply strip_step_zero in E as (out2 & n & st2 & -> & E2). rewrite drop_0.
    cbn [strip_loop]. rewrite E2. econstructor; [done|]. apply IH; [lia|]. cbn [drop]. rewrite length_drop. lia.
  - apply (IH (S fuel)); [lia|]. cbn [drop]. rewrite length_drop. lia.
Qed.

Lemma strips_keeps style st rest out :
  Strips style st rest out -> sublist out rest /\ newlines out = newlines rest.
Proof.
  induction 1 as [|st b r out n st' rest Hs _ [IH1 IH2]]; [done|].
  pose proof (strip_step_keeps style st b r) as H. rewrite Hs in H. destruct H as (H1 & H2 & _).
  rewrite <- (take_drop n (b :: r)) at 1. split; [by apply sublist_app|].
  rewrite <- (take_drop n (b :: r)). unfold newlines in *. rewrite !List.filter_app. by rewrite H2, IH2.
Qed.

Lemma strip_chars_strips style source : Strips style InCode source (strip_chars source style).
Proof. apply strip_loop_strips. lia. Qed.

Lemma latin1_newlines l : Forall byte_ok l -> newlines (flat_map latin1_utf8 l) = newlines l.
Proof.
  induction 1 as [|c l Hc Hl IH]; [done|]. cbn [flat_map]. unfold newlines in *.
  rewrite List.filter_app, IH. unfold latin1_utf8, byte_ok in *. destruct (c <? 128)%Z eqn:E.
  { simpl. by destruct (eqb_byte NEWLINE c). }
  assert (H : forall a b, Z.testbit a 7 = true -> eqb_byte NEWLINE (Z.lor a b) = false).
  { intros a b Ha. apply Z.eqb_neq. intros H%(f_equal (fun z => Z.testbit z 7)).
    cbv beta in H. rewrite Z.lor_spec, Ha in H. done. }
  cbn [List.filter]. rewrite !H by done. simpl. unfold eqb_byte. tobool.
  by rewrite (proj2 (Z.eqb_neq c NEWLINE)) by (unfold NEWLINE; lia).
Qed.

(** Stripping the comments of a text keeps its line structure: what is kept
    is a subsequence of the bytes of the text, in order and each pushed as the
    character of its value, and the output has exactly the newlines of the input
    (those inside block comments included), whatever the comment style. *)
Theorem strip_comments_lines source style :
  Forall byte_ok source ->
  sublist (strip_chars source style) source /\
  strip_comments source style = flat_map latin1_utf8 (strip_chars source style) /\
  newlines (strip_comments source style) = newlines source.
Proof.
  intros Hok. destruct (strips_keeps _ _ _ _ (strip_chars_strips style source)) as [Hs Hn].
  split_and!; [done|done|]. unfold strip_comments. rewrite latin1_newlines; [done|].
  rewrite Forall_forall in *. intros x Hx. apply Hok. by eapply elem_of_sublist.
Qed.

Lemma strip_comments_lines_witness :
  newlines (strip_comments [47; 42; 10; 42; 47; 10; 35]%Z c_style) = [10; 10]%Z.
Proof. apply strip_comments_lines. repeat constructor; unfold byte_ok; lia. Defined.

(** The bytes that can open a comment of the style. *)
Definition opens_comment (style : CommentStyle) (b : byte) : bool :=
  ((line_comment_slash style || block_comments style) && (b ==? bc "/"))
  || (line_comment_hash style && (b ==? HASH)).

Lemma code_step_plain style b r out n st' :
  opens_comment style b = false -> code_step style b r = (out, n, st') ->
  out = take n (b :: r) /\ (st' = InCode \/ exists s, st' = InString s).
Proof.
  unfold opens_comment. intros Ho. tobool. unfold code_step.
  destruct r as [|c [|d r]]; cbn [head]; repeat case_match; tobool; subst; intros; simplify_eq/=; try done; eauto;
    rewrite ?andb_true_r in *; tobool; congruence.
Qed.

Lemma string_step_plain s b r out n st' :
  string_step s b r = (out, n, st') -> out = take n (b :: r) /\ (st' = InCode \/ exists s, st' = InString s).
Proof.
  destruct s; unfold string_step, is3; repeat case_match; intros; simplify_eq; tobool; subst; eauto.
Qed.

Lemma strips_plain style st rest out :
  forallb (fun b => negb (opens_comment style b)) rest = true -> st = InCode \/ (exists s, st = InString s) ->
  Strips style st rest out -> out = rest.
Proof.
  intros Hf Hst Hrun. revert Hf Hst. induction Hrun as [|st b r out n st' rest Hs Hrun IH]; [done|].
  intros Hf Hst. assert (Hb := Hf). simpl in Hb. tobool.
  assert (out = take n (b :: r) /\ (st' = InCode \/ exists s, st' = InString s)) as [-> Hst'].
  { destruct Hst as [->|[s ->]]; [by eapply code_step_plain|by eapply string_step_plain]. }
  rewrite IH; [apply take_drop| |done].
  rewrite <- (take_drop n (b :: r)), forallb_app in Hf. by tobool.
Qed.

(** Code without a byte that opens a comment of the language is passed
    through: nothing of it is dropped, whatever its strings, quotes and escapes
    are; the characters are the bytes, so ASCII code is unchanged. *)
Theorem strip_comments_identity source style :
  forallb (fun b => negb (opens_comment style b)) source = true ->
  strip_chars source style = source /\
  (forallb is_ascii source = true -> strip_comments source style = source).
Proof.
  intros Hf. assert (Hs : strip_chars source style = source).
  { eapply strips_plain; [done|by left|apply strip_chars_strips]. }
  split; [done|]. unfold strip_comments. rewrite Hs. clear Hf Hs.
  induction source as [|c l IH]; intros H; [done|]. simpl in H. tobool. cbn [flat_map].
  rewrite IH by done. unfold latin1_utf8. unfold is_ascii in *. by destruct (c <? 128)%Z.
Qed.

Lemma strip_comments_identity_witness :
  strip_comments (bs "k = 'a\'") c_style = bs "k = 'a\'".
Proof. apply strip_comments_identity; vm_compute; reflexivity. Defined.

(** ** Values listed in an expression *)

(** The bracket scan ends after its start; the bracket that closes, when there
    is one, is the byte before. *)
Lemma bracket_loop_bounds fuel input o c idx depth next close :
  idx <= length input -> bracket_loop fuel input o c idx depth = (next, close) ->
  idx <= next <= length input /\
  match close with Some k => idx <= k /\ next = S k | None => True end.
Proof.
  revert idx depth. induction fuel as [|fuel IH]; intros idx depth Hi; simpl; [intros; simplify_eq; lia|].
  destruct (input !! idx) as [ch|] eqn:E; [|intros; simplify_eq; lia]. apply lookup_lt_Some in E.
  assert (Hrec : forall idx' d, idx < idx' <= length input ->
            bracket_loop fuel input o c idx' d = (next, close) ->
            idx <= next <= length input /\ match close with Some k => idx <= k /\ next = S k | None => True end).
  { intros idx' d Hi' Hb. apply IH in Hb as [Hn Hc]; [|lia]. split; [lia|]. destruct close; [lia|done]. }
  destruct (parse_any_literal_span input idx) as [s|] eqn:Es.
  { apply any_literal_progress in Es. apply Hrec. lia. }
  repeat case_match; intros; simplify_eq; try (eapply Hrec; [|eassumption]; lia). lia.
Qed.

Lemma bracket_loop_fuel fuel fuel' input o c idx depth :
  length input - idx <= fuel -> length input - idx <= fuel' ->
  bracket_loop fuel input o c idx depth = bracket_loop fuel' input o c idx depth.
Proof.
  revert fuel' idx depth. induction fuel as [|fuel IH]; intros fuel' idx depth Hf Hf'.
  { destruct fuel'; simpl; [done|]. by rewrite lookup_ge_None_2 by lia. }
  destruct fuel' as [|fuel']; [simpl; by rewrite lookup_ge_None_2 by lia|]. simpl.
  destruct (input !! idx) as [ch|] eqn:E; [|done]. apply lookup_lt_Some in E.
  destruct (parse_any_literal_span input idx) as [s|] eqn:Es.
  { apply any_literal_progress in Es. apply IH; lia. }
  repeat case_match; try done; apply IH; lia.
Qed.

(** The loop reads the text of a bracket through [inner] only, on a text shorter
    than the input, and advances on every round. *)
Lemma values_loop_ext inner inner' ab input fuel fuel' idx vs :
  (forall x, length x < length input -> inner x = inner' x) ->
  length input - idx <= fuel -> length input - idx <= fuel' ->
  values_loop inner ab fuel input idx vs = values_loop inner' ab fuel' input idx vs.
Proof.
  intros Hin. revert fuel' idx vs. induction fuel as [|fuel IH]; intros fuel' idx vs Hf Hf'.
  { destruct fuel'; simpl; [done|]. by rewrite lookup_ge_None_2 by lia. }
  destruct fuel' as [|fuel']; [simpl; by rewrite lookup_ge_None_2 by lia|]. simpl.
  destruct (input !! idx) as [ch|] eqn:E; [|done]. apply lookup_lt_Some in E.
  destruct (parse_any_literal_span input idx) as [s|] eqn:Es.
  { apply any_literal_progress in Es. apply IH; lia. }
  destruct (is_separator ch); [apply IH; lia|]. destruct (closer ch) as [cl|].
  - destruct (bracket_loop (length input) input ch cl (S idx) 1) as [next k] eqn:Eb.
    apply bracket_loop_bounds in Eb as [Hn Hk]; [|lia]. destruct k as [k|]; [|apply IH; lia].
    rewrite Hin by (rewrite length_slice; lia). apply IH; lia.
  - repeat case_match; apply IH; lia.
Qed.

Lemma literal_values_fuel n m ab input :
  length input < n -> length input < m -> literal_values n ab input = literal_values m ab input.
Proof.
  revert m input. induction n as [|n IH]; intros [|m] input Hn Hm; [lia|lia|lia|].
  cbn [literal_values]. apply values_loop_ext; [|lia|lia]. intros x Hx. apply IH; lia.
Qed.

Lemma extract_literal_values_eq input ab :
  extract_literal_values input ab =
  values_loop (fun x => extract_literal_values x ab) ab (length input) input 0 [].
Proof.
  unfold extract_literal_values at 1. cbn [literal_values]. apply values_loop_ext; [|lia|lia].
  intros x Hx. apply literal_values_fuel; lia.
Qed.

(** [v] is a part of [l] that is not empty. *)
Definition part_of (v l : bytes) : Prop := v <> [] /\ exists p s, l = p ++ v ++ s.

Lemma slice_part_of l i j : i < j <= length l -> part_of (slice l i j) l.
Proof.
  intros H. split.
  { intros E%(f_equal length). rewrite length_slice in E by lia. simpl in E. lia. }
  exists (slice l 0 i), (slice l j (length l)). by rewrite app_assoc, !slice_app, slice_full by lia.
Qed.

Lemma part_of_slice v l i j : i <= j <= length l -> part_of v (slice l i j) -> part_of v l.
Proof.
  intros H [Hv (p & s & E)]. split; [done|]. exists (slice l 0 i ++ p), (s ++ slice l j (length l)).
  transitivity (slice l 0 i ++ slice l i j ++ slice l j (length l)).
  - by rewrite app_assoc, !slice_app, slice_full by lia.
  - rewrite E. by rewrite <- !app_assoc.
Qed.

Lemma count_while_at p (l : bytes) i : i <= length l -> i + count_while p (drop i l) <= length l.
Proof. intros H. pose proof (count_while_le p (drop i l)) as Hc. rewrite length_drop in Hc. lia. Qed.

Lemma values_loop_parts inner ab fuel input idx vs :
  (forall x v, length x < length input -> In v (inner x) -> part_of v x) ->
  Forall (fun v => part_of v input) vs ->
  Forall (fun v => part_of v input) (values_loop inner ab fuel input idx vs).
Proof.
  intros Hin. revert idx vs. induction fuel as [|fuel IH]; intros idx vs Hvs; [done|]. cbn [values_loop].
  destruct (input !! idx) as [ch|] eqn:E; [|done]. apply lookup_lt_Some in E.
  assert (Hpush : forall next, idx < next <= length input ->
            Forall (fun v => part_of v input) (vs ++ [slice input idx next])).
  { intros next Hn. apply Forall_app. split; [done|]. constructor; [by apply slice_part_of|done]. }
  destruct (parse_any_literal_span input idx) as [s|] eqn:Es.
  { apply any_literal_progress in Es. auto. }
  destruct (is_separator ch); [auto|]. destruct (closer ch) as [cl|].
  - destruct (bracket_loop (length input) input ch cl (S idx) 1) as [next [k|]] eqn:Eb; [|auto].
    apply bracket_loop_bounds in Eb as [Hn Hk]; [|lia]. apply IH, Forall_app. split; [done|].
    apply Forall_forall. intros v Hv%list_elem_of_In. apply (part_of_slice _ _ (S idx) k); [lia|].
    apply Hin; [rewrite length_slice; lia|done].
  - pose proof (count_while_at is_number_byte input (S idx)) as H1.
    pose proof (count_while_at (fun b => negb (is_bare_end b)) input (S idx)) as H2.
    repeat case_match; apply IH; try done; apply Hpush; lia.
Qed.

(** Listing the literals of an expression always finishes: the model's fuel
    is enough, more fuel gives the same list, and the bracketed parts are read by
    the same routine on the text between the brackets. Every value listed is a
    part of the text that is not empty. *)
Theorem extract_literal_values_total input ab :
  (forall fuel, length input < fuel -> literal_values fuel ab input = extract_literal_values input ab) /\
  extract_literal_values input ab =
    values_loop (fun x => extract_literal_values x ab) ab (length input) input 0 [] /\
  Forall (fun v => part_of v input) (extract_literal_values input ab).
Proof.
  split_and!.
  - intros fuel Hf. apply literal_values_fuel; lia.
  - apply extract_literal_values_eq.
  - induction input as [input IH] using (induction_ltof1 _ (@length byte)). unfold ltof in IH.
    rewrite extract_literal_values_eq. apply values_loop_parts; [|done].
    intros x v Hx Hv. specialize (IH x Hx). rewrite Forall_forall in IH. by apply IH, list_elem_of_In.
Qed.

(** ** Lists of quoted literals *)

Definition quoted (x : bytes) : bytes := QUOTE :: x ++ [QUOTE].
Definition plain (x : bytes) : Prop := x <> [] /\ forall b, In b x -> b <> QUOTE /\ b <> BACKSLASH.

(** The text of a list of quoted literals with separators between, before and
    after them. *)
Inductive item := Lit (x : bytes) | Sep (b : byte).
Definition item_ok (t : item) : Prop :=
  match t with Lit x => plain x | Sep b => is_separator b = true end.
Definition item_text (t : item) : bytes := match t with Lit x => quoted x | Sep b => [b] end.
Definition layout (ts : list item) : bytes := flat_map item_text ts.
Definition literals (ts : list item) : list bytes :=
  flat_map (fun t => match t with Lit x => [x] | Sep _ => [] end) ts.

Lemma quoted_end_plain x rest idx :
  (forall b, In b x -> b <> QUOTE /\ b <> BACKSLASH) ->
  quoted_end false QUOTE (x ++ QUOTE :: rest) idx = mkSpan (idx + length x + 1) true.
Proof.
  revert idx; induction x as [|b x IH]; intros idx Hx.
  { cbn. by rewrite Nat.add_0_r. }
  destruct (Hx b) as [H1 H2]; [by left|]. cbn [app quoted_end negb andb].
  rewrite (proj2 (Z.eqb_neq b BACKSLASH)), (proj2 (Z.eqb_neq b QUOTE)) by done.
  rewrite IH by (intros c Hc; apply Hx; by right). f_equal. simpl. lia.
Qed.

Lemma at_is_0 p b (l : bytes) pre : at_is p (pre ++ b :: l) (length pre) = p b.
Proof. rewrite <- (Nat.add_0_r (length pre)), at_is_app. done. Qed.

(** A literal with no quote and no escape is read where it stands. *)
Lemma parse_quoted_here pre x rest :
  plain x ->
  parse_any_literal_span (pre ++ quoted x ++ rest) (length pre) = Some (mkSpan (length pre + length (quoted x)) true).
Proof.
  intros [Hne Hx]. unfold quoted. rewrite <- app_comm_cons, <- app_assoc. cbn [app].
  destruct x as [|b x]; [done|]. destruct (Hx b) as [Hb _]; [by left|].
  unfold parse_any_literal_span, parse_rust_raw_literal_span, parse_csharp_verbatim_literal_span.
  rewrite Nat.add_0_r, !at_is_0. cbn [andb orb is_b is_r is_string_prefix_byte eqb_byte negb or_else].
  change (is_b QUOTE) with false. cbn [andb]. change (is_r QUOTE) with false.
  change (eqb_byte (bc "@") QUOTE) with false. change (eqb_byte (bc "$") QUOTE) with false.
  cbn [andb orb negb or_else]. unfold parse_quoted_literal_span, quote_index. rewrite !at_is_0.
  change (eqb_byte (bc "$") QUOTE) with false. change (is_quote QUOTE) with true. cbn iota.
  rewrite lookup_app_r, Nat.sub_diag by lia. cbn [lookup list_lookup]. change (is_quote QUOTE) with true. cbn [negb].
  assert (is_triple (pre ++ QUOTE :: (b :: x) ++ QUOTE :: rest) (length pre) QUOTE = false) as ->.
  { unfold is_triple. rewrite at_is_app. cbn. unfold eqb_byte.
    rewrite (proj2 (Z.eqb_neq b QUOTE)) by done. by rewrite andb_false_r. }
  cbn [or_else]. f_equal. rewrite drop_app_ge by lia.
  replace (length pre + 1 - length pre) with 1 by lia. cbn [drop].
  rewrite drop_0. rewrite (quoted_end_plain (b :: x)) by done. f_equal. simpl. rewrite length_app. simpl. lia.
Qed.

Lemma parse_separator_here pre b rest :
  is_separator b = true \/ closer b <> None \/ b = bc "]" \/ b = bc ")" \/ b = bc "}" ->
  parse_any_literal_span (pre ++ b :: rest) (length pre) = None.
Proof.
  intros Hb. unfold parse_any_literal_span, parse_rust_raw_literal_span, parse_csharp_verbatim_literal_span,
    parse_quoted_literal_span, quote_index, parse_backtick_literal_span.
  rewrite Nat.add_0_r, !at_is_0, drop_app_length.
  assert (H : In b (map Z.of_nat [32; 9; 13; 10; 44; 91; 40; 123; 93; 41; 125])).
  { unfold is_separator, closer in Hb. repeat case_match; tobool; subst; simpl; try tauto.
    destruct Hb as [Hb|[Hb|[->|[->| ->]]]]; [|done|vm_compute; tauto..].
    repeat apply orb_true_iff in Hb as [Hb|Hb]; tobool; subst; vm_compute; tauto. }
  assert (Eb : is_b b = false) by (simpl in H; repeat destruct H as [<-|H]; done).
  rewrite Eb. cbn [andb]. rewrite !at_is_0. simpl in H. repeat destruct H as [<-|H]; done.
Qed.

Lemma lookup_here (pre : bytes) b rest : (pre ++ b :: rest) !! length pre = Some b.
Proof. by rewrite lookup_app_r, Nat.sub_diag by lia. Qed.

(** What the loops read at the first item of a layout. *)
Lemma item_here pre t rest :
  item_ok t ->
  match t with
  | Lit x => (exists ch, (pre ++ item_text t ++ rest) !! length pre = Some ch) /\
             parse_any_literal_span (pre ++ item_text t ++ rest) (length pre)
             = Some (mkSpan (length (pre ++ item_text t)) true)
  | Sep b => (pre ++ item_text t ++ rest) !! length pre = Some b /\
             parse_any_literal_span (pre ++ item_text t ++ rest) (length pre) = None
  end.
Proof.
  intros Ht. destruct t as [x|b]; cbn [item_text item_ok app] in *.
  - split; [exists QUOTE; apply lookup_here|]. by rewrite parse_quoted_here, length_app.
  - split; [apply lookup_here|]. apply parse_separator_here. by left.
Qed.

Lemma separator_not_bracket b ch cl :
  is_separator b = true -> closer ch = Some cl -> (b ==? ch) = false /\ (b ==? cl) = false /\ (cl ==? ch) = false.
Proof.
  unfold is_separator, closer. intros Hb Hc. repeat case_match; simplify_eq; tobool; subst;
    repeat apply orb_true_iff in Hb as [Hb|Hb]; tobool; by subst.
Qed.

Lemma bracket_loop_layout ch cl ts : closer ch = Some cl -> Forall item_ok ts -> forall pre rest fuel,
  length ts < fuel ->
  bracket_loop fuel (pre ++ layout ts ++ cl :: rest) ch cl (length pre) 1 =
  (S (length (pre ++ layout ts)), Some (length (pre ++ layout ts))).
Proof.
  intros Hc. induction 1 as [|t ts Ht Hts IH]; intros pre rest fuel Hf.
  { destruct fuel as [|fuel]; [simpl in Hf; lia|]. simpl. rewrite lookup_here, parse_separator_here, app_nil_r.
    - destruct (separator_not_bracket 32 ch cl) as (_ & _ & ->); [done|done|]. by rewrite Z.eqb_refl.
    - right; right. unfold closer in Hc. repeat case_match; simplify_eq; auto. }
  destruct fuel as [|fuel]; [simpl in Hf; lia|]. cbn [length] in Hf.
  cbn [layout flat_map]. fold (layout ts). rewrite <- app_assoc. cbn [bracket_loop].
  pose proof (item_here pre t (layout ts ++ cl :: rest) Ht) as Hh.
  replace (pre ++ item_text t ++ layout ts) with ((pre ++ item_text t) ++ layout ts) by by rewrite <- app_assoc.
  rewrite <- (IH (pre ++ item_text t) rest fuel) by lia. rewrite <- app_assoc.
  destruct t as [x|b].
  - destruct Hh as [[c ->] ->]. done.
  - destruct Hh as [-> ->]. destruct (separator_not_bracket b ch cl Ht Hc) as (-> & -> & _).
    rewrite length_app. simpl. by rewrite Nat.add_1_r.
Qed.

Lemma values_loop_layout inner ab ts : Forall item_ok ts -> forall pre fuel vs,
  length ts <= fuel ->
  values_loop inner ab fuel (pre ++ layout ts) (length pre) vs = vs ++ map quoted (literals ts).
Proof.
  induction 1 as [|t ts Ht Hts IH]; intros pre fuel vs Hf.
  { rewrite !app_nil_r. destruct fuel as [|fuel]; [done|]. simpl. by rewrite lookup_ge_None_2 by lia. }
  destruct fuel as [|fuel]; [simpl in Hf; lia|]. cbn [length] in Hf.
  cbn [layout flat_map literals]. fold (layout ts) (literals ts). cbn [values_loop].
  pose proof (item_here pre t (layout ts) Ht) as Hh.
  assert (Hnext : forall vs', values_loop inner ab fuel (pre ++ item_text t ++ layout ts) (length (pre ++ item_text t)) vs'
                  = vs' ++ map quoted (literals ts)) by (intros vs'; rewrite app_assoc; apply IH; lia).
  destruct t as [x|b].
  - destruct Hh as [[c ->] ->]. cbn [lit_end]. rewrite Hnext, map_app, <- app_assoc. cbn [map item_text app].
    do 2 f_equal. unfold slice. rewrite drop_app_length, length_app.
    replace (length pre + length (quoted x) - length pre) with (length (quoted x)) by lia. apply take_app_length.
  - destruct Hh as [-> ->]. rewrite Ht. rewrite length_app in Hnext. cbn [item_text length] in Hnext.
    by rewrite Nat.add_1_r in Hnext.
Qed.

(** The literals of a bracketed list are found again: writing quoted texts
    (without quotes and escapes) between any bracket and the one that closes it,
    with white space and commas between them in any way, and listing the
    literals of the result gives exactly those texts, quoted, in order. *)
Theorem extract_literal_values_roundtrip ch cl ts ab :
  closer ch = Some cl -> Forall item_ok ts ->
  extract_literal_values (ch :: layout ts ++ [cl]) ab = map quoted (literals ts).
Proof.
  intros Hc Hts. rewrite extract_literal_values_eq. set (input := ch :: layout ts ++ [cl]).
  assert (Hl : length input = S (S (length (layout ts)))) by (subst input; simpl; rewrite length_app; simpl; lia).
  assert (Hts' : length ts <= length (layout ts)).
  { clear -Hts. induction Hts as [|t ts Ht _ IH]; [done|]. cbn [layout flat_map length]. fold (layout ts).
    rewrite length_app. destruct t; simpl; [rewrite length_app; simpl|]; lia. }
  rewrite Hl at 1. cbn [values_loop]. change (input !! 0) with (Some ch). cbn iota.
  assert (parse_any_literal_span input 0 = None) as ->.
  { apply (parse_separator_here []). right; left. congruence. }
  assert (is_separator ch = false) as ->.
  { destruct (is_separator ch) eqn:E; [|done]. by destruct (separator_not_bracket ch ch cl E Hc) as (H & _); rewrite Z.eqb_refl in H. }
  rewrite Hc. change input with ([ch] ++ layout ts ++ cl :: []) at 2.
  rewrite (bracket_loop_layout ch cl ts Hc Hts [ch]) by lia. cbn [app length].
  assert (slice input 1 (S (length (layout ts))) = layout ts) as ->.
  { unfold slice, input. cbn [drop]. rewrite Nat.sub_succ, Nat.sub_0_r. apply take_app_length. }
  cbn [values_loop]. rewrite lookup_ge_None_2 by lia. cbn [app].
  rewrite extract_literal_values_eq. apply (values_loop_layout _ ab ts Hts []). lia.
Qed.

Lemma extract_literal_values_roundtrip_witness :
  extract_literal_values (bc "[" :: quoted (bs "a") ++ bs " , " ++ quoted (bs "b") ++ bs "]") true
  = [quoted (bs "a"); quoted (bs "b")].
Proof.
  apply (extract_literal_values_roundtrip (bc "[") (bc "]") [Lit (bs "a"); Sep 32; Sep 44; Sep 32; Lit (bs "b")]);
    [reflexivity|].
  repeat (apply Forall_nil_2 || (apply Forall_cons_2; [try reflexivity|])).
  all: split; [discriminate|intros b [<-|[]]; split; discriminate].
Defined.
