(* ===== verification/Context.v ===== *)
(** * Context candidates: [kingfisher-scanner/src/context/parser/lexer.rs],
      keys, values, statements and the extraction of each language

    The parser turns a source text into candidates [key = value] and passes them
    to a callback that may stop it. The callback is a function on a state of its
    own; a computation that may panic on a slice returns an option. The regular
    expressions of the file are run by the [regex] crate: the named captures of
    each one are a parameter ([Captures]). *)

From Stdlib Require Import ZArith Lia Bool ZifyNat.
From stdpp Require Import base list numbers option.
From S2P Require Import Prelude Text Lexer.

(** ** Wrapped literals *)

(** [span.closed && span.end == value.len()] *)
Definition whole (value : bytes) (s : LiteralSpan) : bool :=
  closed s && Nat.eqb (lit_end s) (length value).

Definition strip_rust_raw_literal (value : bytes) : option bytes :=
  match parse_rust_raw_literal_span value 0 with
  | None => None
  | Some span =>
    if negb (whole value span) then None
    else
      let idx := (if at_is is_b value 0 then 1 else 0) + 1 in
      let hash_count := count_while (eqb_byte HASH) (drop idx value) in
      Some (slice value (idx + hash_count + 1) (length value - 1 - hash_count))
  end.

(** [replace] of the doubled quote by one *)
Fixpoint undouble (l : bytes) : bytes :=
  match l with
  | b :: r =>
    match r with
    | c :: r' => if (b ==? QUOTE) && (c ==? QUOTE) then QUOTE :: undouble r' else b :: undouble r
    | [] => [b]
    end
  | [] => []
  end.

Definition strip_csharp_verbatim_literal (value : bytes) : option bytes :=
  match parse_csharp_verbatim_literal_span value 0 with
  | None => None
  | Some span =>
    if negb (whole value span) then None
    else
      let quote_idx :=
        if starts_with [bc "@"; QUOTE] value then Some 1
        else if starts_with [bc "$"; bc "@"; QUOTE] value || starts_with [bc "@"; bc "$"; QUOTE] value
        then Some 2 else None in
      match quote_idx with
      | None => None
      | Some q => Some (undouble (slice value (q + 1) (length value - 1)))
      end
  end.

Definition strip_quoted_literal (value : bytes) : option bytes :=
  match parse_quoted_literal_span value 0 with
  | None => None
  | Some span =>
    if negb (whole value span) then None
    else
      let quote_idx :=
        if at_is (eqb_byte (bc "$")) value 0 then 1 else count_while is_string_prefix_byte value in
      match value !! quote_idx with
      | None => None
      | Some quote =>
        if negb (is_quote quote) then None
        else
          let w := if is_triple value quote_idx quote then 3 else 1 in
          Some (slice value (quote_idx + w) (length value - w))
      end
  end.

Definition strip_backtick_literal (value : bytes) : option bytes :=
  match strip_prefix [BACKTICK] value with
  | None => None
  | Some r => strip_suffix [BACKTICK] r
  end.

Definition trim_wrapped_literal (value : bytes) : option bytes :=
  or_else (strip_rust_raw_literal value)
    (or_else (strip_csharp_verbatim_literal value)
      (or_else (strip_quoted_literal value) (strip_backtick_literal value))).

(** ** Keys and values *)

Definition is_segment_end (b : byte) : bool := (b ==? bc ".") || (b ==? bc ":") || (b ==? bc ">").

(** [split] on a set of ASCII characters *)
Fixpoint split_on (p : byte -> bool) (acc : bytes) (l : bytes) : list bytes :=
  match l with
  | [] => [acc]
  | b :: r => if p b then acc :: split_on p [] r else split_on p (acc ++ [b]) r
  end.

(** [rsplit(..).find(non-empty).unwrap_or(l).trim_matches('-')] *)
Definition last_segment (l : bytes) : bytes :=
  trim_while (eqb_byte (bc "-"))
    (default l (head (List.filter non_empty (rev (split_on is_segment_end [] l))))).

Definition key_name (key : bytes) : bytes :=
  trim_start_while (eqb_byte (bc "@")) (trim_start_while (eqb_byte (bc "$")) (trim key)).
Definition wrapped_in (quote : byte) (l : bytes) : bool := starts_with [quote] l && ends_with [quote] l.

(** [None]: the slice [key[1..key.len() - 1]] of a lone quote panics. *)
Definition normalize_key (key : bytes) (keep_full_key : bool) : option bytes :=
  let key := key_name key in
  let unquoted :=
    if wrapped_in QUOTE key || wrapped_in APOS key then
      if length key - 1 <? 1 then None else Some (slice key 1 (length key - 1))
    else Some key in
  match unquoted with
  | None => None
  | Some key => Some (if keep_full_key then key else last_segment key)
  end.

(** [trim_start_matches("new ")] *)
Fixpoint strip_new (fuel : nat) (l : bytes) : bytes :=
  match fuel with
  | 0 => l
  | S fuel => match strip_prefix (bs "new ") l with Some r => strip_new fuel r | None => l end
  end.
(** The name of a call without [new] and surrounding blanks. *)
Definition call_path (call : bytes) : bytes :=
  let call := trim call in trim (strip_new (length call) call).
Definition normalize_call_name (call : bytes) : bytes := last_segment (call_path call).

Fixpoint number_digits (l : bytes) (seen_digit seen_dot : bool) : bool :=
  match l with
  | [] => seen_digit
  | b :: r =>
    if is_ascii_digit b then number_digits r true seen_dot
    else if (b ==? bc ".") && negb seen_dot then number_digits r seen_digit true
    else false
  end.

Definition looks_like_number (value : bytes) : bool :=
  let value := List.filter (fun b => negb (b ==? bc "_")) (trim value) in
  let value := default value (or_else (strip_prefix (bs "-") value) (strip_prefix (bs "+") value)) in
  match value with
  | [] => false
  | _ =>
    match or_else (strip_prefix (bs "0x") value) (strip_prefix (bs "0X") value) with
    | Some hex => non_empty hex && forallb is_ascii_hexdigit hex
    | None => number_digits value false false
    end
  end.

Definition is_value_end (b : byte) : bool := (b ==? bc ",") || (b ==? bc ";").
Definition is_closing (b : byte) : bool := (b ==? bc ")") || (b ==? bc "]") || (b ==? bc "}").

Definition normalize_value (value : bytes) (allow_bare : bool) : bytes :=
  let trimmed := trim_end_while is_value_end (trim value) in
  match trimmed with
  | [] => []
  | _ =>
    match trim_wrapped_literal trimmed with
    | Some stripped => stripped
    | None =>
      if allow_bare || looks_like_number trimmed then trim_while is_closing trimmed else []
    end
  end.

Definition looks_like_embedded_key (value : bytes) : bool :=
  let lower := str_to_ascii_lowercase (trim_end_while (eqb_byte (bc "=")) (trim value)) in
  non_empty lower
  && forallb (fun b => is_ascii_alphanumeric b || (b ==? bc "_") || (b ==? bc "-") || (b ==? bc ".")) lower
  && existsb (fun needle => contains_sub needle lower)
       (map bs ["api"; "auth"; "credential"; "key"; "pass"; "password"; "secret"; "token"]%string).

Definition looks_like_cpp_ctor_initializer_line (line : bytes) : bool :=
  let trimmed := trim_start line in
  contains_sub (bs ") :") trimmed || starts_with (bs ":") trimmed || starts_with (bs ",") trimmed.

(** The first [needle] outside the quotes splits the line. *)
Fixpoint split_unquoted (needle : byte) (in_single in_double : bool) (acc l : bytes) : option (bytes * bytes) :=
  match l with
  | [] => None
  | b :: r =>
    if (b ==? APOS) && negb in_double then split_unquoted needle (negb in_single) in_double (acc ++ [b]) r
    else if (b ==? QUOTE) && negb in_single then split_unquoted needle in_single (negb in_double) (acc ++ [b]) r
    else if (b ==? needle) && negb in_single && negb in_double then Some (acc, r)
    else split_unquoted needle in_single in_double (acc ++ [b]) r
  end.
Definition split_mapping_pair (line : bytes) : option (bytes * bytes) :=
  split_unquoted (bc ":") false false [] line.
Definition split_assignment (line : bytes) (needle : byte) : option (bytes * bytes) :=
  split_unquoted needle false false [] line.

(** ** Statements over several lines *)

Record Structure := mkStructure { depth : Z; unclosed_literal : bool }.

(** The depth is a count of bytes, an [i32] in the code. *)
Definition depth_step (b : byte) : Z :=
  if (b ==? bc "(") || (b ==? bc "[") || (b ==? bc "{") then 1%Z
  else if (b ==? bc ")") || (b ==? bc "]") || (b ==? bc "}") then (-1)%Z else 0%Z.

Fixpoint structure_loop (fuel : nat) (input : bytes) (idx : nat) (st : Structure) : Structure :=
  match fuel with
  | 0 => st
  | S fuel =>
    match input !! idx with
    | None => st
    | Some b =>
      match parse_any_literal_span input idx with
      | Some span =>
        structure_loop fuel input (lit_end span)
          (mkStructure (depth st) (unclosed_literal st || negb (closed span)))
      | None => structure_loop fuel input (S idx) (mkStructure (depth st + depth_step b) (unclosed_literal st))
      end
    end
  end.
Definition scan_structure (input : bytes) : Structure :=
  structure_loop (length input) input 0 (mkStructure 0 false).

Definition block_keywords : list bytes :=
  map bs ["catch"; "class"; "def"; "else"; "fn"; "for"; "function"; "if"; "impl"; "match"; "switch";
          "try"; "while"]%string.
Definition starts_with_block_keyword (line : bytes) : bool :=
  existsb (fun keyword =>
    match strip_prefix keyword line with
    | Some (ch :: _) => is_ascii_whitespace ch || (ch ==? bc "(") || (ch ==? bc "{") || (ch ==? bc "<")
    | _ => false
    end) block_keywords.

Fixpoint assignment_loop (fuel : nat) (line : bytes) (idx : nat) : bool :=
  match fuel with
  | 0 => false
  | S fuel =>
    match line !! idx with
    | None => false
    | Some b =>
      match parse_any_literal_span line idx with
      | Some span => assignment_loop fuel line (lit_end span)
      | None =>
        if b ==? bc "=" then
          let prev := match idx with 0 => None | S i => line !! i end in
          let bad := match prev with
                     | Some p => (p ==? bc "!") || (p ==? bc "<") || (p ==? bc ">")
                     | None => false
                     end in
          if at_is (eqb_byte (bc "=")) line (S idx) || bad then assignment_loop fuel line (S idx) else true
        else assignment_loop fuel line (S idx)
      end
    end
  end.
Definition contains_assignment_operator (line : bytes) : bool := assignment_loop (length line) line 0.

Definition is_call_byte (b : byte) : bool :=
  is_ascii_alphanumeric b || existsb (Z.eqb b) (bs "_$@.:>-").
Definition looks_like_multiline_call_start (line : bytes) : bool :=
  let paren_idx := partition_point (fun b => negb (b ==? bc "(")) line in
  if length line <=? paren_idx then false
  else
    let call := call_path (take paren_idx line) in
    negb (bytes_eqb call [] || contains_ws call) && forallb is_call_byte call.

Definition statement_needs_more (statement : bytes) : bool :=
  let trimmed := trim_end statement in
  existsb (fun s => ends_with s trimmed) ([BACKSLASH] :: map bs [","; "("; "["; "{"; "="; ":="; "=>"; "+="]%string).

Definition starts_multiline_context (line : bytes) : bool :=
  if starts_with_block_keyword line then false
  else if negb (contains_assignment_operator line) && negb (looks_like_multiline_call_start line) then false
  else
    let structure := scan_structure line in
    unclosed_literal structure || (0 <? depth structure)%Z || statement_needs_more line.

Definition has_literals (statement : bytes) : bool :=
  match extract_literal_values statement false with [] => false | _ => true end.
Definition multiline_context_complete (statement : bytes) (structure : Structure) : bool :=
  negb (unclosed_literal structure) && (depth structure <=? 0)%Z
  && negb (statement_needs_more statement) && has_literals statement.

(** What the iterator yields: a source line, or a stitched statement. *)
Inductive ContextLine := Borrowed (line : bytes) | Owned (statement : bytes).
Definition as_ref (c : ContextLine) : bytes := match c with Borrowed l => l | Owned s => s end.

(** The statement under construction; [None] when none is active ([current] is
    then empty). *)
Definition line_step (current : option bytes) (line : bytes) : option bytes * option bytes :=
  let trimmed := trim line in
  match trimmed with
  | [] => (current, None)
  | _ =>
    match current with
    | Some cur =>
      let cur := cur ++ [32%Z] ++ trimmed in
      if multiline_context_complete cur (scan_structure cur) then (None, Some cur) else (Some cur, None)
    | None =>
      if starts_multiline_context trimmed then
        if multiline_context_complete trimmed (scan_structure trimmed) then (None, None)
        else (Some trimmed, None)
      else (None, None)
    end
  end.

(** The sequence the lazy iterator yields when it is run to its end; a caller
    that stops early has read a prefix of it. *)
Fixpoint context_loop (current : option bytes) (ls : list bytes) : list ContextLine :=
  match ls with
  | [] =>
    match current with
    | Some cur => if negb (bytes_eqb cur []) && has_literals cur then [Owned cur] else []
    | None => []
    end
  | line :: ls =>
    let '(current, pending) := line_step current line in
    Borrowed line :: (match pending with Some s => [Owned s] | None => [] end) ++ context_loop current ls
  end.
Definition context_lines (text : bytes) : list ContextLine := context_loop None (lines text).

(** ** Emission *)

Inductive Flow := Continue | Break.

(** The named captures of each expression on a line, in the order of
    [captures_iter]; a group that took no part is [None]. *)
Record Captures := {
  assignment_literal_re : bytes -> list (option bytes * option bytes); (* key, value *)
  assignment_any_re : bytes -> option (option bytes * option bytes); (* key, rhs *)
  typed_assignment_literal_re : bytes -> list (option bytes * option bytes);
  pair_literal_re : bytes -> list (option bytes * option bytes);
  type_literal_re : bytes -> list (option bytes * option bytes);
  call_re : bytes -> list (option bytes * option bytes * option bytes); (* assign, call, args *)
  brace_list_assign_re : bytes -> list (option bytes * option bytes) (* key, body *)
}.

Section Emission.
Context {S : Type} (re : Captures) (sink : bytes -> S -> bool * S).

(** A step of the extraction: the callback's state is threaded, [None] is a
    panic, and [Break] stops the extraction. *)
Definition Step : Type := S -> option (Flow * S).
Definition proceed : Step := fun s => Some (Continue, s).
Definition andthen (m k : Step) : Step := fun s =>
  match m s with
  | Some (Continue, s) => k s
  | r => r
  end.
Fixpoint try_each {A} (f : A -> Step) (l : list A) : Step :=
  match l with
  | [] => proceed
  | x :: l => andthen (f x) (try_each f l)
  end.

Definition SEPARATOR : bytes := bs " = ".

Definition emit_value (key value : bytes) (keep_full_key allow_bare : bool) : Step := fun s =>
  match normalize_key key keep_full_key with
  | None => None
  | Some key =>
    let value := normalize_value value allow_bare in
    if bytes_eqb key [] || bytes_eqb value [] then Some (Continue, s)
    else
      let '(more, s) := sink (key ++ SEPARATOR ++ value) s in
      Some (if more then Continue else Break, s)
  end.

Definition emit_captures (keep_full_key : bool) (caps : list (option bytes * option bytes)) : Step :=
  try_each (fun '(key, value) =>
    match key, value with
    | Some key, Some value => emit_value key value keep_full_key false
    | _, _ => proceed
    end) caps.

Definition emit_assignment_literals (line : bytes) (keep_full_key : bool) : Step :=
  emit_captures keep_full_key (assignment_literal_re re line).
Definition emit_typed_assignment_literals (line : bytes) : Step :=
  emit_captures false (typed_assignment_literal_re re line).
Definition emit_pairs (line : bytes) (keep_full_key : bool) : Step :=
  emit_captures keep_full_key (pair_literal_re re line).
Definition emit_type_literals (line : bytes) : Step :=
  emit_captures false (type_literal_re re line).

Definition contains_byte (b : byte) (l : bytes) : bool := existsb (eqb_byte b) l.

Definition emit_assignment_lists (line : bytes) (keep_full_key : bool) : Step :=
  match assignment_any_re re line with
  | Some (Some key, Some rhs) =>
    if contains_byte (bc ",") rhs || contains_byte (bc "[") rhs || contains_byte (bc "{") rhs then
      try_each (fun value => emit_value key value keep_full_key false) (extract_literal_values rhs false)
    else proceed
  | _ => proceed
  end.

Definition emit_brace_list_assignments (line : bytes) : Step :=
  try_each (fun '(key, body) =>
    match key, body with
    | Some key, Some body =>
      try_each (fun value => emit_value key value false false) (extract_literal_values body false)
    | _, _ => proceed
    end) (brace_list_assign_re re line).

(** The first two values of a call, when the first looks like a key. *)
Definition emit_embedded (values : list bytes) : Step :=
  match values with
  | v0 :: second :: _ =>
    let first := trim_while (eqb_byte APOS) (trim_while (eqb_byte QUOTE) v0) in
    if looks_like_embedded_key first then emit_value first second true false else proceed
  | _ => proceed
  end.

Definition emit_call (keep_full_assign_key : bool) (caps : option bytes * option bytes * option bytes) : Step :=
  match caps with
  | (assign_key, Some call, Some args) =>
    match extract_literal_values args false with
    | [] => proceed
    | values =>
      andthen
        (match assign_key with
         | Some key => try_each (fun value => emit_value key value keep_full_assign_key false) values
         | None => proceed
         end)
        (andthen
          (try_each (fun value => emit_value (normalize_call_name call) value true false) values)
          (emit_embedded values))
    end
  | _ => proceed
  end.
Definition emit_calls (line : bytes) (keep_full_assign_key : bool) : Step :=
  try_each (emit_call keep_full_assign_key) (call_re re line).

(** ** The languages *)

Inductive Language :=
  Bash | C | CSharp | Cpp | Css | Go | Html | Java | JavaScript | Php | Python | Ruby | Rust | Toml
| TypeScript | Yaml.

Definition each_context_line (text : bytes) (f : bytes -> Step) : Step :=
  try_each (fun c => f (as_ref c)) (context_lines text).

Definition extract_bash (text : bytes) : Step :=
  try_each (fun line => emit_assignment_literals line false) (lines (strip_comments text shell)).

Definition extract_python (text : bytes) : Step :=
  each_context_line (strip_comments text python) (fun line =>
    andthen (emit_assignment_literals line false)
      (andthen (emit_pairs line true) (emit_calls line false))).

(** Ruby and PHP differ by the comment style only. *)
Definition emit_script_line (line : bytes) : Step :=
  andthen (emit_assignment_literals line false)
    (andthen (emit_assignment_lists line false) (emit_calls line false)).
Definition extract_ruby (text : bytes) : Step :=
  each_context_line (strip_comments text hash_only) emit_script_line.
Definition extract_php (text : bytes) : Step :=
  each_context_line (strip_comments text php) emit_script_line.

Definition yaml_key (key : bytes) : bytes := trim (trim_start_while (eqb_byte (bc "-")) key).
Definition emit_yaml_line (line : bytes) : Step :=
  let trimmed := trim line in
  if bytes_eqb trimmed [] || (starts_with (bs "-") trimmed && negb (contains_byte (bc ":") trimmed)) then proceed
  else
    match split_mapping_pair trimmed with
    | Some (key, value) => emit_value (yaml_key key) value true true
    | None => proceed
    end.
Definition extract_yaml (text : bytes) : Step :=
  try_each emit_yaml_line (lines (strip_comments text hash_only)).

Definition emit_toml_line (line : bytes) : Step :=
  let trimmed := trim line in
  if bytes_eqb trimmed [] || starts_with (bs "[") trimmed then proceed
  else
    match split_assignment trimmed (bc "=") with
    | Some (key, value) => emit_value key value true false
    | None => proceed
    end.
Definition extract_toml (text : bytes) : Step :=
  try_each emit_toml_line (lines (strip_comments text hash_only)).

Definition when (b : bool) (m : Step) : Step := if b then m else proceed.

Definition extract_javascript_like (text : bytes) (include_type_literals : bool) : Step :=
  each_context_line (strip_comments text (with_backticks c_style)) (fun line =>
    andthen (when include_type_literals (emit_typed_assignment_literals line))
      (andthen (emit_assignment_literals line false)
        (andthen (emit_pairs line false)
          (andthen (when include_type_literals (emit_type_literals line))
            (andthen (emit_assignment_lists line false) (emit_calls line false)))))).

Definition extract_rust (text : bytes) : Step :=
  each_context_line (strip_comments text c_style) (fun line =>
    andthen (emit_typed_assignment_literals line)
      (andthen (emit_assignment_literals line false) (emit_calls line false))).

Definition c_comment_style (language : Language) : CommentStyle :=
  match language with
  | CSharp => with_verbatim_strings c_style
  | Go => with_backticks c_style
  | _ => c_style
  end.
Definition is_cpp (language : Language) : bool := match language with Cpp => true | _ => false end.
Definition extract_c_style (text : bytes) (language : Language) : Step :=
  each_context_line (strip_comments text (c_comment_style language)) (fun line =>
    andthen (emit_assignment_literals line false)
      (andthen (emit_brace_list_assignments line)
        (when (negb (is_cpp language && looks_like_cpp_ctor_initializer_line line)) (emit_calls line false)))).

Definition stream_context_candidates (source : bytes) (language : Language) : Step :=
  let text := from_utf8_lossy source in
  match text with
  | [] => proceed
  | _ =>
    match language with
    | Bash => extract_bash text
    | Python => extract_python text
    | Ruby => extract_ruby text
    | Php => extract_php text
    | Yaml => extract_yaml text
    | Toml => extract_toml text
    | JavaScript => extract_javascript_like text false
    | TypeScript => extract_javascript_like text true
    | Rust => extract_rust text
    | C | CSharp | Cpp | Go | Java => extract_c_style text language
    | Css | Html => proceed
    end
  end.

End Emission.

(** ** The sequence of candidates *)

(** Feed a list to the callback until it refuses one. *)
Fixpoint feed {S} (sink : bytes -> S -> bool * S) (cs : list bytes) (s : S) : Flow * S :=
  match cs with
  | [] => (Continue, s)
  | c :: cs => let '(more, s) := sink c s in if more then feed sink cs s else (Break, s)
  end.

Definition is_candidate (c : bytes) : Prop :=
  exists key value, key <> [] /\ value <> [] /\ c = key ++ SEPARATOR ++ value.

(** An extraction, whatever the callback: it does not panic, and what it does is
    to feed a list of candidates that does not depend on the callback. *)
Definition Extraction : Type := forall S, (bytes -> S -> bool * S) -> @Step S.
Definition emits (m : Extraction) : Prop :=
  exists cs, Forall is_candidate cs /\ forall S sink s, m S sink s = Some (feed sink cs s).

Lemma feed_app {S} (sink : bytes -> S -> bool * S) cs1 cs2 s :
  feed sink (cs1 ++ cs2) s =
  match feed sink cs1 s with (Continue, s) => feed sink cs2 s | r => r end.
Proof.
  revert s; induction cs1 as [|c cs1 IH]; intros s; [done|]. simpl.
  destruct (sink c s) as [[] s']; [apply IH|done].
Qed.

Lemma emits_proceed : emits (fun S _ => proceed).
Proof. by exists []. Qed.

Lemma emits_andthen (m1 m2 : Extraction) :
  emits m1 -> emits m2 -> emits (fun S sink => andthen (m1 S sink) (m2 S sink)).
Proof.
  intros (cs1 & H1 & E1) (cs2 & H2 & E2). exists (cs1 ++ cs2). split; [by apply Forall_app|].
  intros S sink s. unfold andthen. rewrite E1, feed_app. by destruct (feed sink cs1 s) as [[] s'].
Qed.

Lemma emits_when b (m : Extraction) : emits m -> emits (fun S sink => when b (m S sink)).
Proof. destruct b; [done|]. intros _. apply emits_proceed. Qed.

Lemma emits_try_each {A} (f : forall S, (bytes -> S -> bool * S) -> A -> @Step S) l :
  (forall x, In x l -> emits (fun S sink => f S sink x)) -> emits (fun S sink => try_each (f S sink) l).
Proof.
  induction l as [|x l IH]; intros H; [apply emits_proceed|]. simpl.
  apply emits_andthen; [apply H; by left|]. apply IH. intros y Hy. apply H. by right.
Qed.

Lemma emits_value key value keep ab :
  normalize_key key keep <> None -> emits (fun S sink => emit_value sink key value keep ab).
Proof.
  intros Hk. destruct (normalize_key key keep) as [k|] eqn:E; [|done].
  destruct (bytes_eqb k [] || bytes_eqb (normalize_value value ab) []) eqn:Eb.
  { exists []. split; [done|]. intros S sink s. unfold emit_value. by rewrite E, Eb. }
  exists [k ++ SEPARATOR ++ normalize_value value ab]. split.
  { repeat constructor. exists k, (normalize_value value ab). unfold bytes_eqb in Eb. tobool.
    by rewrite !bool_decide_eq_false in *. }
  intros S sink s. unfold emit_value. rewrite E, Eb. simpl. by destruct (sink _ s) as [[] s'].
Qed.

(** ** Keys that do not panic *)

Definition no_quotes (l : bytes) : Prop := Forall (fun b => is_quote b = false) l.

(** A key without quotes, or a text between two equal quotes. *)
Definition safe_key (key : bytes) : Prop :=
  no_quotes key \/ exists q x, is_quote q = true /\ key = q :: x ++ [q].

Lemma no_quotes_app a b : no_quotes (a ++ b) <-> no_quotes a /\ no_quotes b.
Proof. apply Forall_app. Qed.

Lemma trim_start_while_no_quotes p l : no_quotes l -> no_quotes (trim_start_while p l).
Proof. destruct (trim_start_while_suffix p l) as (q & Hq & _). rewrite Hq at 1. by intros [_ H]%no_quotes_app. Qed.

Lemma trim_end_while_no_quotes p l : no_quotes l -> no_quotes (trim_end_while p l).
Proof. destruct (trim_end_while_prefix p l) as (q & Hq & _). rewrite Hq at 1. by intros [H _]%no_quotes_app. Qed.

Lemma trim_no_quotes l : no_quotes l -> no_quotes (trim l).
Proof.
  destruct (trim_infix l) as (p & s & H). rewrite H at 1. by intros [_ [H' _]%no_quotes_app]%no_quotes_app.
Qed.

Lemma key_name_no_quotes key : no_quotes key -> no_quotes (key_name key).
Proof. intros H. by apply trim_start_while_no_quotes, trim_start_while_no_quotes, trim_no_quotes. Qed.

Lemma normalize_no_quotes key keep : no_quotes (key_name key) -> normalize_key key keep <> None.
Proof.
  unfold normalize_key. intros H. destruct (key_name key) as [|b r]; [done|]. inversion H as [|? ? Hb _]; subst.
  unfold is_quote in Hb. tobool. unfold wrapped_in. cbn [starts_with].
  assert (forall q, b <> q -> (q ==? b) = false) as Hq by (intros q Hq; by apply Z.eqb_neq).
  by rewrite !Hq by done.
Qed.

Lemma normalize_safe_key key keep : safe_key key -> normalize_key key keep <> None.
Proof.
  intros [H|(q & x & Hq & ->)]; [by apply normalize_no_quotes, key_name_no_quotes|].
  unfold normalize_key, key_name.
  assert (He : trim_edge q) by (unfold is_quote in Hq; apply orb_true_iff in Hq as [Hq|Hq]; tobool; subst q; by split).
  rewrite trim_id by done. cbn [trim_start_while]. unfold eqb_byte.
  assert ((q ==? bc "$") = false /\ (q ==? bc "@") = false) as [-> H2]
    by (unfold is_quote in Hq; apply orb_true_iff in Hq as [Hq|Hq]; tobool; by subst q).
  cbn [trim_start_while]. rewrite H2. cbn [length]. rewrite length_app. cbn [length].
  rewrite (proj2 (Nat.ltb_ge _ _)) by lia. by destruct (_ || _).
Qed.

(** ** Balanced quotes: the keys of YAML and TOML lines *)

Definition quotes (l : bytes) : nat := length (List.filter is_quote l).

Lemma quotes_app a b : quotes (a ++ b) = quotes a + quotes b.
Proof. unfold quotes. by rewrite List.filter_app, length_app. Qed.

Lemma quotes_none l : Forall (fun b => is_quote b = false) l -> quotes l = 0.
Proof. unfold quotes. induction 1 as [|b l Hb _ IH]; [done|]. simpl. by rewrite Hb. Qed.

Lemma not_graphic_quotes l : Forall not_graphic l -> quotes l = 0.
Proof.
  intros H. apply quotes_none. eapply Forall_impl; [done|]. intros b Hb. unfold is_quote.
  unfold not_graphic, is_ascii_graphic in Hb.
  destruct (b ==? APOS) eqn:E1; [tobool; by subst b|]. destruct (b ==? QUOTE) eqn:E2; [tobool; by subst b|done].
Qed.

Lemma quotes_trim l : quotes (trim l) = quotes l.
Proof.
  destruct (trim_not_graphic l) as (p & s & E & Hp & Hs). rewrite E at 2.
  rewrite !quotes_app, (not_graphic_quotes p), (not_graphic_quotes s) by done. lia.
Qed.

Lemma quotes_trim_start c l : is_quote c = false -> quotes (trim_start_while (eqb_byte c) l) = quotes l.
Proof.
  intros Hc. destruct (trim_start_while_suffix (eqb_byte c) l) as (q & E & Hq). rewrite E at 2.
  rewrite quotes_app, (quotes_none q); [done|]. eapply Forall_impl; [done|]. intros b Hb.
  unfold eqb_byte in Hb. tobool. by subst b.
Qed.

Lemma lone_quote key keep : normalize_key key keep = None -> quotes key = 1.
Proof.
  unfold normalize_key. destruct (wrapped_in QUOTE (key_name key) || wrapped_in APOS (key_name key)) eqn:Ew; [|done].
  destruct (_ <? 1) eqn:El; [|done]. intros _. tobool.
  assert (quotes (key_name key) = quotes key) as <-
    by (unfold key_name; by rewrite !quotes_trim_start, quotes_trim).
  destruct (key_name key) as [|b [|c r]]; [done| |simpl in El; lia].
  apply orb_true_iff in Ew as [Ew|Ew]; unfold wrapped_in in Ew; cbn [starts_with] in Ew; tobool; by subst b.
Qed.

(** The quotes that are open after the text, as the splitters track them. *)
Definition quote_step (st : bool * bool) (b : byte) : bool * bool :=
  let '(s, d) := st in
  if (b ==? APOS) && negb d then (negb s, d) else if (b ==? QUOTE) && negb s then (s, negb d) else (s, d).

Lemma split_unquoted_balanced needle s d acc l k v :
  split_unquoted needle s d acc l = Some (k, v) ->
  exists mid, k = acc ++ mid /\ fold_left quote_step mid (s, d) = (false, false) /\ l = mid ++ needle :: v.
Proof.
  revert s d acc; induction l as [|b l IH]; intros s d acc H; [done|]. cbn [split_unquoted] in H.
  assert (Hgo : forall s' d', quote_step (s, d) b = (s', d') ->
            split_unquoted needle s' d' (acc ++ [b]) l = Some (k, v) ->
            exists mid, k = acc ++ mid /\ fold_left quote_step mid (s, d) = (false, false) /\ b :: l = mid ++ needle :: v).
  { intros s' d' Hst Hk. apply IH in Hk as (mid & -> & Hm & ->). exists (b :: mid). rewrite <- app_assoc.
    cbn [fold_left]. by rewrite Hst. }
  unfold quote_step in Hgo.
  destruct ((b ==? APOS) && negb d); [by eapply Hgo|]. destruct ((b ==? QUOTE) && negb s); [by eapply Hgo|].
  destruct ((b ==? needle) && negb s && negb d) eqn:E; [|by eapply Hgo].
  simplify_eq. tobool. subst. exists []. by rewrite app_nil_r.
Qed.

Lemma quote_step_none st l : quotes l = 0 -> fold_left quote_step l st = st.
Proof.
  revert st; induction l as [|b l IH]; intros [s d] H; [done|]. unfold quotes in *. cbn [List.filter fold_left] in *.
  destruct (is_quote b) eqn:E; [done|]. unfold is_quote in E. apply orb_false_iff in E as [E1 E2].
  unfold quote_step at 2. rewrite E1, E2. simpl. by apply IH.
Qed.

Lemma balanced_not_one l : fold_left quote_step l (false, false) = (false, false) -> quotes l <> 1.
Proof.
  induction l as [|b l IH]; intros H; [done|]. unfold quotes in *. cbn [List.filter fold_left] in *.
  destruct (is_quote b) eqn:E.
  - intros [= Hl]. rewrite (quote_step_none _ l) in H by done.
    unfold is_quote in E. apply orb_true_iff in E as [E|E]; tobool; by subst b.
  - unfold is_quote in E. apply orb_false_iff in E as [E1 E2]. unfold quote_step at 2 in H. rewrite E1, E2 in H. auto.
Qed.

Lemma split_key_ok needle l k v keep :
  split_unquoted needle false false [] l = Some (k, v) ->
  normalize_key k keep <> None /\ normalize_key (yaml_key k) keep <> None.
Proof.
  intros (mid & -> & Hm & _)%split_unquoted_balanced. apply balanced_not_one in Hm. cbn [app].
  split; intros H%lone_quote; [done|]. unfold yaml_key in H. by rewrite quotes_trim, quotes_trim_start in H.
Qed.

(** ** Every extraction feeds a list of candidates *)

(** What the expressions capture as a key: an identifier, or for a pair a quoted
    text; a call is a path of identifiers. *)
Record captures_ok (re : Captures) : Prop := {
  assignment_ok : forall line key v, In (Some key, v) (assignment_literal_re re line) -> safe_key key;
  any_ok : forall line key v, assignment_any_re re line = Some (Some key, v) -> safe_key key;
  typed_ok : forall line key v, In (Some key, v) (typed_assignment_literal_re re line) -> safe_key key;
  pair_ok : forall line key v, In (Some key, v) (pair_literal_re re line) -> safe_key key;
  type_ok : forall line key v, In (Some key, v) (type_literal_re re line) -> safe_key key;
  call_ok : forall line key call args, In (key, call, args) (call_re re line) ->
    (forall k, key = Some k -> safe_key k) /\ (forall c, call = Some c -> no_quotes c);
  brace_ok : forall line key v, In (Some key, v) (brace_list_assign_re re line) -> safe_key key
}.

Lemma emits_captures keep caps :
  (forall key v, In (Some key, v) caps -> safe_key key) -> emits (fun S sink => emit_captures sink keep caps).
Proof.
  intros H. apply emits_try_each. intros [[key|] [v|]] Hin; try apply emits_proceed.
  by eapply emits_value, normalize_safe_key, H.
Qed.

Lemma emits_values key keep vs :
  normalize_key key keep <> None -> emits (fun S sink => try_each (fun v => emit_value sink key v keep false) vs).
Proof. intros H. apply emits_try_each. intros v _. by apply emits_value. Qed.

Lemma emits_assignment_lists re line keep :
  captures_ok re -> emits (fun S sink => emit_assignment_lists re sink line keep).
Proof.
  intros H. unfold emit_assignment_lists.
  destruct (assignment_any_re re line) as [[[key|] [rhs|]]|] eqn:E; try apply emits_proceed.
  destruct (_ || _); [|apply emits_proceed]. apply emits_values, normalize_safe_key. by eapply any_ok.
Qed.

Lemma emits_brace re line : captures_ok re -> emits (fun S sink => emit_brace_list_assignments re sink line).
Proof.
  intros H. apply emits_try_each. intros [[key|] [body|]] Hin; try apply emits_proceed.
  apply emits_values, normalize_safe_key. by eapply brace_ok.
Qed.

Lemma split_on_bytes p acc l : Forall (fun s => forall b, In b s -> In b (acc ++ l)) (split_on p acc l).
Proof.
  revert acc; induction l as [|b l IH]; intros acc; simpl.
  { constructor; [|done]. intros b. by rewrite app_nil_r. }
  destruct (p b).
  - constructor; [intros c Hc; apply in_app_iff; by left|].
    eapply Forall_impl; [apply IH|]. intros s Hs c Hc. apply Hs in Hc. apply in_app_iff. right. by right.
  - eapply Forall_impl; [apply IH|]. intros s Hs c Hc. apply Hs in Hc. by rewrite <- app_assoc in Hc.
Qed.

Lemma last_segment_no_quotes l : no_quotes l -> no_quotes (last_segment l).
Proof.
  intros H. unfold last_segment, trim_while.
  apply trim_end_while_no_quotes, trim_start_while_no_quotes.
  destruct (head (List.filter _ _)) as [s|] eqn:E; [|done]. simpl.
  assert (Hs : In s (split_on is_segment_end [] l)).
  { apply in_rev. destruct (List.filter _ _) as [|s' r] eqn:Ef; simplify_eq/=.
    assert (In s (s :: r)) as Hin by (by left). rewrite <- Ef in Hin. by apply List.filter_In in Hin as [? _]. }
  pose proof (split_on_bytes is_segment_end [] l) as Hb. rewrite Forall_forall in Hb.
  unfold no_quotes in *. rewrite Forall_forall in *. intros b Hbs. apply H, list_elem_of_In.
  eapply (Hb s); by apply list_elem_of_In.
Qed.

Lemma strip_new_suffix fuel l : exists p, l = p ++ strip_new fuel l.
Proof.
  revert l; induction fuel as [|fuel IH]; intros l; simpl; [by exists []|].
  destruct (strip_prefix (bs "new ") l) as [r|] eqn:E; [|by exists []].
  unfold strip_prefix in E. destruct (starts_with _ _); simplify_eq. destruct (IH (drop 4 l)) as [p Hp].
  exists (take 4 l ++ p). rewrite <- app_assoc. change (length (bs "new ")) with 4. by rewrite <- Hp, take_drop.
Qed.

Lemma call_name_no_quotes call : no_quotes call -> no_quotes (normalize_call_name call).
Proof.
  intros H. apply last_segment_no_quotes, trim_no_quotes.
  destruct (strip_new_suffix (length (trim call)) (trim call)) as [p Hp].
  apply trim_no_quotes in H. rewrite Hp in H. by apply no_quotes_app in H as [_ H].
Qed.

(** A text that looks like a key has no quote in it but perhaps trailing [=]s. *)
Lemma embedded_key_ok v keep : looks_like_embedded_key v = true -> normalize_key v keep <> None.
Proof.
  unfold looks_like_embedded_key. intros H Hn. tobool. apply lone_quote in Hn. rewrite <- quotes_trim in Hn.
  destruct (trim_end_while_prefix (eqb_byte (bc "=")) (trim v)) as (q & Hq & He).
  rewrite Hq, quotes_app in Hn. rewrite (quotes_none q) in Hn.
  2:{ eapply Forall_impl; [done|]. intros b Hb. unfold eqb_byte in Hb. tobool. by subst b. }
  rewrite Nat.add_0_r, quotes_none in Hn; [done|]. rewrite forallb_forall in *.
  apply Forall_forall. intros b Hb%list_elem_of_In.
  destruct (is_quote b) eqn:Eb; [|done].
  match goal with H : forall x, In x (str_to_ascii_lowercase _) -> _ |- _ =>
    specialize (H (to_ascii_lowercase b) (in_map _ _ _ Hb)) end.
  unfold is_quote in Eb. apply orb_true_iff in Eb as [Eb|Eb]; tobool; by subst b.
Qed.

Lemma emits_embedded values : emits (fun S sink => emit_embedded sink values).
Proof.
  unfold emit_embedded. destruct values as [|v0 [|second r]]; try apply emits_proceed.
  destruct (looks_like_embedded_key _) eqn:E; [|apply emits_proceed]. by apply emits_value, embedded_key_ok.
Qed.

Lemma emits_calls re line keep : captures_ok re -> emits (fun S sink => emit_calls re sink line keep).
Proof.
  intros H. apply emits_try_each. intros [[key call] args] Hin. destruct (call_ok re H _ _ _ _ Hin) as [Hk Hc].
  unfold emit_call. destruct call as [call|], args as [args|]; try apply emits_proceed.
  destruct (extract_literal_values args false) as [|v vs]; [apply emits_proceed|].
  apply emits_andthen; [|apply emits_andthen; [|apply emits_embedded]].
  - destruct key as [key|]; [|apply emits_proceed]. by apply emits_values, normalize_safe_key, Hk.
  - apply emits_values, normalize_no_quotes, key_name_no_quotes, call_name_no_quotes. by apply Hc.
Qed.

Lemma emits_yaml_line line : emits (fun S sink => emit_yaml_line sink line).
Proof.
  unfold emit_yaml_line. destruct (_ || _); [apply emits_proceed|].
  destruct (split_mapping_pair (trim line)) as [[k v]|] eqn:E; [|apply emits_proceed].
  by eapply emits_value, split_key_ok.
Qed.

Lemma emits_toml_line line : emits (fun S sink => emit_toml_line sink line).
Proof.
  unfold emit_toml_line. destruct (_ || _); [apply emits_proceed|].
  destruct (split_assignment (trim line) (bc "=")) as [[k v]|] eqn:E; [|apply emits_proceed].
  by eapply emits_value, split_key_ok.
Qed.

Create HintDb emits.
#[export] Hint Resolve emits_proceed emits_andthen emits_when emits_captures emits_assignment_lists emits_brace
  emits_calls assignment_ok typed_ok pair_ok type_ok : emits.

(** The rounds of a line's extraction, one after the other. *)
Ltac emit_rounds :=
  repeat first [apply emits_andthen | apply emits_when];
  first [ by apply emits_captures; eauto with emits | by apply emits_assignment_lists
        | by apply emits_brace | by apply emits_calls ].

Lemma stream_emits re source language : language = Yaml \/ language = Toml \/ captures_ok re ->
  emits (fun S sink => stream_context_candidates re sink source language).
Proof.
  intros H. unfold stream_context_candidates. destruct (from_utf8_lossy source) as [|b l]; [apply emits_proceed|].
  generalize (b :: l). clear b l source. intros text.
  destruct H as [->|[->|H]];
    [apply emits_try_each; intros; apply emits_yaml_line|apply emits_try_each; intros; apply emits_toml_line|].
  destruct language; try apply emits_proceed;
    (apply emits_try_each; intros line _;
     first [apply emits_yaml_line | apply emits_toml_line | emit_rounds]).
Qed.

(** Extracting the context candidates of a source text in any language does
    not panic and passes to the callback, in order and until it refuses one, a
    list of candidates [key = value], with neither part empty, that depends on
    the text only: a callback that stops early sees a prefix of what one that
    never stops sees. For YAML and TOML no fact about the regular expressions is
    used; for the others it is used that a captured key is free of quotes or is
    a quoted text. *)
Theorem stream_candidates_sequence re source language :
  language = Yaml \/ language = Toml \/ captures_ok re ->
  exists candidates, Forall is_candidate candidates /\
    forall S (sink : bytes -> S -> bool * S) s,
      stream_context_candidates re sink source language s = Some (feed sink candidates s).
Proof. apply stream_emits. Qed.

(** Captures that satisfy the hypothesis: an assignment is split at its first
    unquoted [=]; nothing else is captured. *)
Definition split_captures : Captures :=
  {| assignment_literal_re := fun line =>
       match split_assignment line (bc "=") with
       | Some (k, v) => if forallb (fun b => negb (is_quote b)) k then [(Some k, Some v)] else []
       | None => []
       end;
     assignment_any_re := fun _ => None; typed_assignment_literal_re := fun _ => [];
     pair_literal_re := fun _ => []; type_literal_re := fun _ => []; call_re := fun _ => [];
     brace_list_assign_re := fun _ => [] |}.

Lemma split_captures_ok : captures_ok split_captures.
Proof.
  split; cbn; try (intros; done).
  intros line key v H. destruct (split_assignment line _) as [[k w]|]; [|done].
  destruct (forallb _ k) eqn:E; [|done]. destruct H as [[= <- <-]|[]]. left. apply Forall_forall.
  rewrite forallb_forall in E. intros b Hb%list_elem_of_In. specialize (E b Hb). by tobool.
Qed.

Example stream_bash :
  stream_context_candidates split_captures (fun c (s : list bytes) => (true, s ++ [c]))
    (bs "export k='v w' # note") Bash [] = Some (Continue, [bs "export k = v w"]).
Proof. reflexivity. Qed.

Lemma stream_candidates_sequence_witness :
  exists candidates, Forall is_candidate candidates /\
    forall S (sink : bytes -> S -> bool * S) s,
      stream_context_candidates split_captures sink (bs "k='v'") Python s = Some (feed sink candidates s).
Proof. apply stream_candidates_sequence. right; right. exact split_captures_ok. Defined.

(** ** The lines a statement is stitched from *)

(** The text of an active statement: the trimmed lines, blank ones left out,
    joined by a space. *)
Fixpoint stitch (ls : list bytes) : bytes :=
  match ls with
  | [] => []
  | [l] => l
  | l :: ls => l ++ [32%Z] ++ stitch ls
  end.
Definition non_blank (ls : list bytes) : list bytes := List.filter non_empty (map trim ls).

(** A stitched statement that follows the source lines [before]: it joins the
    lines of their tail, the first of which starts a statement. *)
Definition stitched_after (before : list bytes) (statement : bytes) : Prop :=
  exists earlier first rest,
    before = earlier ++ first :: rest /\ starts_multiline_context (trim first) = true /\
    statement = stitch (non_blank (first :: rest)).

(** The items after the source lines [before] of a text. *)
Inductive yields (before : list bytes) : list ContextLine -> list bytes -> Prop :=
| yields_end : yields before [] []
| yields_last s : stitched_after before s -> has_literals s = true -> yields before [Owned s] []
| yields_line line rest ls : yields (before ++ [line]) rest ls -> yields before (Borrowed line :: rest) (line :: ls)
| yields_both line s rest ls :
    stitched_after (before ++ [line]) s -> has_literals s = true ->
    yields (before ++ [line]) rest ls ->
    yields before (Borrowed line :: Owned s :: rest) (line :: ls).

Lemma stitch_snoc ls l : ls <> [] -> stitch (ls ++ [l]) = stitch ls ++ [32%Z] ++ l.
Proof.
  induction ls as [|a ls IH]; intros H; [done|]. destruct ls as [|b ls]; [done|].
  cbn [app stitch] in *. rewrite IH by done. by rewrite <- !app_assoc.
Qed.

Lemma non_blank_app a b : non_blank (a ++ b) = non_blank a ++ non_blank b.
Proof. unfold non_blank. by rewrite map_app, List.filter_app. Qed.

Lemma non_blank_one l : non_blank [l] = if non_empty (trim l) then [trim l] else [].
Proof. unfold non_blank. simpl. by destruct (non_empty (trim l)). Qed.

(** The statement under construction, while it is active. *)
Definition active_after (before : list bytes) (current : option bytes) : Prop :=
  match current with
  | None => True
  | Some cur => stitched_after before cur
  end.

Lemma starts_not_blank line : starts_multiline_context line = true -> line <> [].
Proof. by intros H ->. Qed.

Lemma extend_statement before line cur :
  stitched_after before cur ->
  stitched_after (before ++ [line])
    (if non_empty (trim line) then cur ++ [32%Z] ++ trim line else cur).
Proof.
  intros (e & f & r & -> & Hf & ->). exists e, f, (r ++ [line]).
  split_and!; [by rewrite <- app_assoc|done|].
  change (f :: r ++ [line]) with ((f :: r) ++ [line]). rewrite non_blank_app, (non_blank_one line).
  destruct (non_empty (trim line)); [|by rewrite app_nil_r]. rewrite stitch_snoc; [done|].
  unfold non_blank. cbn [map List.filter]. apply starts_not_blank in Hf.
  assert (non_empty (trim f) = true) as ->; [|done].
  unfold non_empty, bytes_eqb. by rewrite bool_decide_eq_false_2.
Qed.

Lemma line_step_after before line current current' pending :
  active_after before current -> line_step current line = (current', pending) ->
  active_after (before ++ [line]) current' /\
  match pending with Some s => stitched_after (before ++ [line]) s /\ has_literals s = true | None => True end.
Proof.
  unfold line_step. destruct current as [cur|]; cbn [active_after].
  - intros Ha%(extend_statement _ line). unfold non_empty, bytes_eqb in Ha.
    destruct (trim line) as [|b t]; [by intros [= <- <-]|]. rewrite bool_decide_eq_false_2 in Ha by done. cbn [negb] in Ha.
    destruct (multiline_context_complete _ _) eqn:Em; intros [= <- <-]; [|done].
    unfold multiline_context_complete in Em. by tobool.
  - intros _. destruct (trim line) as [|b t] eqn:Et; [by intros [= <- <-]|].
    destruct (starts_multiline_context (b :: t)) eqn:Es; [|by intros [= <- <-]].
    destruct (multiline_context_complete _ _); intros [= <- <-]; [done|]. split; [|done].
    exists before, line, []. rewrite Et, non_blank_one, Et. done.
Qed.

Lemma context_loop_yields ls : forall before current,
  active_after before current -> yields before (context_loop current ls) ls.
Proof.
  induction ls as [|line ls IH]; intros before current Ha; cbn [context_loop].
  - destruct current as [cur|]; [|constructor]. destruct (_ && _) eqn:E; [|constructor]. tobool. by constructor.
  - destruct (line_step current line) as [current' pending] eqn:E.
    destruct (line_step_after _ _ _ _ _ Ha E) as [Ha' Hp]. destruct pending as [s|]; cbn [app].
    + destruct Hp. apply yields_both; auto.
    + constructor. auto.
Qed.

(** The lines a language's extraction reads are the lines of the text, each
    once and in order; after a line there is at most one stitched statement,
    which joins, with single spaces, the trimmed non-blank lines from a line that
    starts a statement up to that line, and which lists at least one literal. *)
Theorem context_lines_stitch text : yields [] (context_lines text) (lines text).
Proof. by apply context_loop_yields. Qed.

(** ** Reading back a written literal *)

Definition double_quotes (x : bytes) : bytes := flat_map (fun b => if b ==? QUOTE then [QUOTE; QUOTE] else [b]) x.

(** [x] does not end a raw literal of [h] hashes early. *)
Definition raw_safe (h : nat) (x : bytes) : Prop :=
  forall p s, x = p ++ QUOTE :: s -> starts_with (repeat HASH h) (s ++ QUOTE :: repeat HASH h) = false.

(** A text and the ways the languages write it as a literal. *)
Inductive written : bytes -> bytes -> Prop :=
| w_quoted x : plain x -> written x (quoted x)
| w_verbatim x : written x (bc "@" :: QUOTE :: double_quotes x ++ [QUOTE])
| w_raw h x : raw_safe h x -> written x (bc "r" :: repeat HASH h ++ QUOTE :: x ++ QUOTE :: repeat HASH h)
| w_backtick x : Forall (fun b => b <> BACKTICK) x -> written x (BACKTICK :: x ++ [BACKTICK]).

Lemma starts_with_repeat h (r : bytes) :
  starts_with (repeat HASH h) r = (h <=? length r) && forallb (eqb_byte HASH) (take h r).
Proof.
  revert r; induction h as [|h IH]; intros [|b r]; try done. cbn [repeat starts_with length take forallb].
  rewrite IH. unfold eqb_byte at 2. rewrite (Z.eqb_sym HASH b). change (S h <=? S (length r)) with (h <=? length r).
  by destruct (b ==? HASH), (h <=? length r).
Qed.

Lemma raw_end_written h x idx :
  raw_safe h x -> raw_end h (x ++ QUOTE :: repeat HASH h) idx = mkSpan (idx + length x + 1 + h) true.
Proof.
  revert idx; induction x as [|b x IH]; intros idx Hx.
  { cbn [app raw_end length]. rewrite <- andb_assoc, <- starts_with_repeat.
    rewrite (starts_with_refl (repeat HASH h)). f_equal. simpl. lia. }
  cbn [app raw_end]. rewrite <- andb_assoc, <- starts_with_repeat.
  assert ((b ==? QUOTE) && starts_with (repeat HASH h) (x ++ QUOTE :: repeat HASH h) = false) as ->.
  { destruct (b ==? QUOTE) eqn:Eb; [|done]. tobool. subst b. by apply (Hx [] x). }
  rewrite IH; [f_equal; simpl; lia|]. intros p s ->. by apply (Hx (b :: p) s).
Qed.

Lemma verbatim_end_written x idx :
  verbatim_end (double_quotes x ++ [QUOTE]) idx = mkSpan (idx + length (double_quotes x) + 1) true.
Proof.
  revert idx; induction x as [|b x IH]; intros idx; [simpl; f_equal; lia|].
  unfold double_quotes in *. cbn [flat_map]. destruct (b ==? QUOTE) eqn:Eb; cbn [app verbatim_end length].
  - rewrite !Z.eqb_refl, IH. f_equal. lia.
  - rewrite Eb, IH. f_equal. lia.
Qed.

Lemma undouble_double x : undouble (double_quotes x) = x.
Proof.
  induction x as [|b x IH]; [done|]. unfold double_quotes in *. cbn [flat_map].
  destruct (b ==? QUOTE) eqn:Eb; cbn [app]; [tobool; subst b; cbn [undouble]; by rewrite !Z.eqb_refl, IH|].
  destruct (flat_map _ x) as [|c r]; [by rewrite <- IH|].
  change (undouble (b :: c :: r)) with (if (b ==? QUOTE) && (c ==? QUOTE) then QUOTE :: undouble r else b :: undouble (c :: r)).
  rewrite Eb, IH. done.
Qed.

Lemma slice_middle (a b c : bytes) : slice (a ++ b ++ c) (length a) (length a + length b) = b.
Proof. unfold slice. rewrite drop_app_length. replace (length a + length b - length a) with (length b) by lia. apply take_app_length. Qed.

(** What the reading routines do with each of the written forms. *)
Lemma trim_wrapped_quoted x : plain x -> trim_wrapped_literal (quoted x) = Some x.
Proof.
  intros Hx. unfold trim_wrapped_literal.
  assert (E1 : parse_any_literal_span (quoted x) 0 = Some (mkSpan (length (quoted x)) true)).
  { pose proof (parse_quoted_here [] x [] Hx) as H. cbn [app length] in H. by rewrite app_nil_r in H. }
  assert (E2 : parse_rust_raw_literal_span (quoted x) 0 = None) by done.
  assert (E3 : parse_csharp_verbatim_literal_span (quoted x) 0 = None) by done.
  unfold parse_any_literal_span in E1. rewrite E2, E3 in E1. cbn [or_else] in E1.
  unfold strip_rust_raw_literal, strip_csharp_verbatim_literal. rewrite E2, E3. cbn [or_else].
  destruct (parse_quoted_literal_span (quoted x) 0) as [s|] eqn:E4; [|done]. injection E1 as ->.
  unfold strip_quoted_literal. rewrite E4. unfold whole. cbn [closed lit_end].
  rewrite Nat.eqb_refl. cbn [andb negb].
  change (at_is (eqb_byte (bc "$")) (quoted x) 0) with false. cbn iota.
  change (count_while is_string_prefix_byte (quoted x)) with 0. change (quoted x !! 0) with (Some QUOTE).
  cbv beta iota. change (negb (is_quote QUOTE)) with false. cbv beta iota.
  assert (is_triple (quoted x) 0 QUOTE = false) as ->.
  { destruct Hx as [Hne Hx]. destruct x as [|b x]; [done|]. unfold is_triple.
    change (at_is (eqb_byte QUOTE) (quoted (b :: x)) (0 + 1)) with (b ==? QUOTE).
    destruct (Hx b) as [Hb _]; [by left|]. rewrite (proj2 (Z.eqb_neq _ _) Hb). by rewrite andb_false_r. }
  cbv zeta beta iota. cbn [or_else Nat.add]. f_equal. unfold quoted. cbn [length]. rewrite length_app. cbn [length].
  replace (S (length x + 1) - 1) with (1 + length x) by lia. apply (slice_middle [QUOTE] x [QUOTE]).
Qed.

Lemma trim_wrapped_verbatim x : trim_wrapped_literal (bc "@" :: QUOTE :: double_quotes x ++ [QUOTE]) = Some x.
Proof.
  unfold trim_wrapped_literal. set (v := bc "@" :: _).
  assert (Hl : length v = 2 + length (double_quotes x) + 1) by (subst v; cbn [length]; rewrite length_app; simpl; lia).
  assert (E2 : parse_rust_raw_literal_span v 0 = None) by done.
  unfold strip_rust_raw_literal. rewrite E2. cbn [or_else].
  unfold strip_csharp_verbatim_literal.
  assert (parse_csharp_verbatim_literal_span v 0 = Some (mkSpan (length v) true)) as ->.
  { transitivity (Some (verbatim_end (double_quotes x ++ [QUOTE]) 2)); [done|]. by rewrite verbatim_end_written, Hl. }
  unfold whole. cbn [closed lit_end]. rewrite Nat.eqb_refl. cbn [andb negb].
  change (starts_with [bc "@"; QUOTE] v) with true. cbn iota. cbn [or_else]. f_equal.
  rewrite Hl. replace (2 + length (double_quotes x) + 1 - 1) with (2 + length (double_quotes x)) by lia.
  rewrite <- (undouble_double x) at 2. f_equal. apply (slice_middle [bc "@"; QUOTE] (double_quotes x) [QUOTE]).
Qed.

Lemma count_hashes h (l : bytes) : count_while (eqb_byte HASH) (repeat HASH h ++ QUOTE :: l) = h.
Proof. unfold count_while. induction h as [|h IH]; [done|]. simpl. by rewrite IH. Qed.

Lemma trim_wrapped_raw h x :
  raw_safe h x -> trim_wrapped_literal (bc "r" :: repeat HASH h ++ QUOTE :: x ++ QUOTE :: repeat HASH h) = Some x.
Proof.
  intros Hx. unfold trim_wrapped_literal, strip_rust_raw_literal. set (tail := x ++ QUOTE :: repeat HASH h).
  set (v := bc "r" :: repeat HASH h ++ QUOTE :: tail).
  assert (Ht : length tail = length x + 1 + h)
    by (subst tail; rewrite length_app; cbn [length]; rewrite repeat_length; lia).
  assert (Hl : length v = h + 2 + length tail)
    by (subst v; cbn [length]; rewrite length_app, repeat_length; cbn [length]; lia).
  assert (parse_rust_raw_literal_span v 0 = Some (mkSpan (length v) true)) as ->.
  { unfold parse_rust_raw_literal_span. change (at_is is_b v 0) with false. cbn [andb].
    change (at_is is_r v 0) with true. cbn [negb Nat.add]. change (drop 1 v) with (repeat HASH h ++ QUOTE :: tail).
    rewrite count_hashes.
    assert (at_is (eqb_byte QUOTE) v (S h) = true) as ->.
    { unfold at_is, v. simpl. rewrite lookup_app_r by (rewrite repeat_length; lia). by rewrite repeat_length, Nat.sub_diag. }
    cbn [negb]. replace (S h + 1) with (S (h + 1)) by lia. unfold v at 1. cbn [drop].
    rewrite drop_app_ge by (rewrite repeat_length; lia). rewrite repeat_length. replace (h + 1 - h) with 1 by lia.
    cbn [drop]. unfold tail. rewrite drop_0, raw_end_written by done. do 2 f_equal. lia. }
  unfold whole. cbn [closed lit_end]. rewrite Nat.eqb_refl. cbn [andb negb].
  change (at_is is_b v 0) with false. cbn [Nat.add]. change (drop 1 v) with (repeat HASH h ++ QUOTE :: tail).
  rewrite count_hashes. cbn [or_else]. f_equal.
  assert (Hh : length (bc "r" :: repeat HASH h ++ [QUOTE]) = 1 + h + 1)
    by (cbn [length]; rewrite length_app, repeat_length; simpl; lia).
  set (pre := bc "r" :: repeat HASH h ++ [QUOTE]) in *.
  transitivity (slice v (length pre) (length pre + length x)); [f_equal; lia|].
  replace v with (pre ++ x ++ QUOTE :: repeat HASH h); [apply slice_middle|].
  unfold pre, v, tail. by rewrite <- app_comm_cons, <- app_assoc.
Qed.

Lemma strip_suffix_app (a s : bytes) : strip_suffix s (a ++ s) = Some a.
Proof.
  unfold strip_suffix, ends_with. rewrite rev_app_distr, starts_with_app, length_app.
  replace (length a + length s - length s) with (length a) by lia. by rewrite take_app_length.
Qed.

Lemma trim_wrapped_backtick x : trim_wrapped_literal (BACKTICK :: x ++ [BACKTICK]) = Some x.
Proof. apply (strip_suffix_app x [BACKTICK]). Qed.

Lemma written_reads x lit : written x lit -> trim_wrapped_literal lit = Some x.
Proof.
  intros [y Hy|y|h y Hy|y Hy];
    [by apply trim_wrapped_quoted|apply trim_wrapped_verbatim|by apply trim_wrapped_raw|apply trim_wrapped_backtick].
Qed.

(** A written literal starts and ends with a character that trimming keeps. *)
Lemma written_edges x lit :
  written x lit -> exists a m b, lit = a :: m ++ [b] /\ trim_edge a /\ trim_edge b /\ is_value_end b = false.
Proof.
  intros [y Hy|y|h y Hy|y Hy].
  - by exists QUOTE, y, QUOTE.
  - by exists (bc "@"), (QUOTE :: double_quotes y), QUOTE.
  - destruct h as [|h].
    + exists (bc "r"), (QUOTE :: y), QUOTE. by rewrite app_nil_l.
    + exists (bc "r"), (repeat HASH (S h) ++ QUOTE :: y ++ QUOTE :: repeat HASH h), HASH.
      split; [|done]. f_equal. rewrite (repeat_cons h HASH) at 2. rewrite <- !app_assoc. cbn [app].
      by rewrite <- app_assoc.
  - by exists BACKTICK, y, BACKTICK.
Qed.

Lemma value_end_edge b : is_value_end b = true -> trim_edge b.
Proof. unfold is_value_end. intros [H|H]%orb_true_iff; tobool; by subst b. Qed.

Lemma trim_end_while_all p (l t : bytes) b :
  p b = false -> Forall (fun c => p c = true) t -> trim_end_while p (l ++ [b] ++ t) = l ++ [b].
Proof.
  intros Hb Ht. unfold trim_end_while. rewrite !rev_app_distr. apply Forall_rev in Ht.
  induction Ht as [|c r Hc _ IH]; [|simpl; by rewrite Hc].
  simpl. rewrite Hb. cbn [rev]. by rewrite rev_involutive.
Qed.

(** A text written as a literal in any of the forms of the languages (double
    quotes, verbatim with doubled quotes, raw with any number of hashes,
    backticks), with commas and semicolons after it, is read back exactly by
    [normalize_value]. *)
Theorem normalize_value_roundtrip x lit ends ab :
  written x lit -> Forall (fun b => is_value_end b = true) ends ->
  normalize_value (lit ++ ends) ab = x.
Proof.
  intros Hw He. destruct (written_edges x lit Hw) as (a & m & b & -> & Ha & Hb & Hv).
  unfold normalize_value. assert (trim ((a :: m ++ [b]) ++ ends) = (a :: m) ++ [b] ++ ends) as ->.
  { rewrite <- app_comm_cons, <- app_assoc. destruct ends as [|c ends _] using rev_ind; [by apply trim_id|].
    apply Forall_app in He as [_ Hc]. apply Forall_cons in Hc as [Hc _].
    rewrite !app_assoc. rewrite trim_id; [|done|by apply value_end_edge]. by rewrite <- !app_assoc. }
  rewrite trim_end_while_all by done. cbn [app]. by rewrite (written_reads x _ Hw).
Qed.

Lemma normalize_value_roundtrip_witness :
  normalize_value (bc "r" :: HASH :: QUOTE :: bs "a" ++ [QUOTE] ++ bs "b" ++ [QUOTE; HASH] ++ bs ";") false
  = bs "a" ++ [QUOTE] ++ bs "b".
Proof.
  apply (normalize_value_roundtrip _ (bc "r" :: repeat HASH 1 ++ QUOTE :: (bs "a" ++ [QUOTE] ++ bs "b") ++ QUOTE :: repeat HASH 1) (bs ";")).
  - constructor. intros [|b0 [|b1 [|b2 p]]] s E; try discriminate; injection E as <-; subst; first [reflexivity | by destruct p].
  - repeat constructor.
Defined.
