(* ===== verification/Location.v ===== *)
(** * Source locations: [kingfisher-core/src/location.rs] and
      [kingfisher-scanner/src/line_index.rs]

    Byte-offset spans, the lazy offset-to-line/column mapping with its cached
    newline offsets and scan cursor, the compact 32-bit spans and their serde
    form, and the newline index of the content filters.

    [LocationMapping] keeps its cache behind [RefCell]/[Cell]; here every query
    returns the mapping it leaves behind. [lm_reach] collects the mappings any
    sequence of queries can produce, and the theorems compare them with [walk],
    which advances one byte at a time from line 1, column 0. *)

From Stdlib Require Import ZArith Lia Bool.
From stdpp Require Import base list.
From S2P Require Import Prelude.

(** ** Spans *)

Record OffsetSpan := mkSpan { span_start : nat; span_end : nat }.

#[export] Instance OffsetSpan_eq_dec : EqDecision OffsetSpan.
Proof. solve_decision. Defined.

Definition from_range (range_start range_end : nat) : OffsetSpan := mkSpan range_start range_end.
(** [saturating_sub]: subtraction on [nat] truncates at zero. *)
Definition span_len (s : OffsetSpan) : nat := span_end s - span_start s.
Definition span_is_empty (s : OffsetSpan) : bool := span_end s <=? span_start s.
Definition fully_contains (self other : OffsetSpan) : bool :=
  (span_start self <=? span_start other) && (span_end other <=? span_end self).

Record SourcePoint := mkPoint { line : nat; column : nat }.
Record SourceSpan := mkSourceSpan { src_start : SourcePoint; src_end : SourcePoint }.

(** ** The lazy line mapping *)

Definition is_nl (b : byte) : bool := (b ==? 10).

Record LocationMapping := {
  lm_bytes : bytes;
  newline_offsets : list nat;
  scanned_until : nat;
}.

Definition lm_new (input : bytes) : LocationMapping :=
  {| lm_bytes := input; newline_offsets := []; scanned_until := 0 |}.

Definition ensure_offsets_up_to (m : LocationMapping) (offset : nat) : LocationMapping :=
  let start := scanned_until m in
  let stop := offset `min` length (lm_bytes m) in
  if stop <=? start then m
  else
    {| lm_bytes := lm_bytes m;
       newline_offsets :=
         newline_offsets m ++
         map (fun nl => start + nl) (positions_from is_nl 0 (slice (lm_bytes m) start stop));
       scanned_until := stop |}.

Definition source_point_from_offsets (offsets : list nat) (offset : nat) : SourcePoint :=
  let ln := partition_point (fun newline => newline <? offset) offsets + 1 in
  let col :=
    match (if 2 <=? ln then offsets !! (ln - 2) else None) with
    | Some last => offset - (last + 1)
    | None => offset
    end in
  mkPoint ln col.

Definition get_source_point (m : LocationMapping) (offset : nat) : LocationMapping * SourcePoint :=
  let m := ensure_offsets_up_to m offset in
  (m, source_point_from_offsets (newline_offsets m) offset).

Definition get_source_span (m : LocationMapping) (span : OffsetSpan) : LocationMapping * SourceSpan :=
  let m := ensure_offsets_up_to m (span_end span - 1) in
  (m, mkSourceSpan (source_point_from_offsets (newline_offsets m) (span_start span))
                   (source_point_from_offsets (newline_offsets m) (span_end span - 1))).

(** The mappings a sequence of queries on [input] can leave behind. *)
Inductive lm_reach (input : bytes) : LocationMapping -> Prop :=
| reach_new : lm_reach input (lm_new input)
| reach_point m offset : lm_reach input m -> lm_reach input (fst (get_source_point m offset))
| reach_span m span : lm_reach input m -> lm_reach input (fst (get_source_span m span)).

(** The abstract location of an offset: read the bytes before it one at a time. *)
Fixpoint walk (l : bytes) (n : nat) (ln col : nat) : SourcePoint :=
  match n, l with
  | 0, _ => mkPoint ln col
  | S n, [] => walk [] n ln (S col)
  | S n, b :: r => if is_nl b then walk r n (S ln) 0 else walk r n ln (S col)
  end.

Definition location_of (input : bytes) (offset : nat) : SourcePoint := walk input offset 1 0.

(** ** Compact spans and serialization *)

Record CompactSourceSpan := {
  start_line : Z; start_column : Z; end_line : Z; end_column : Z;
}.

Definition compact_zero : CompactSourceSpan :=
  {| start_line := 0; start_column := 0; end_line := 0; end_column := 0 |}.

(** [usize::try_into::<u32>().unwrap_or(0)] *)
Definition try_u32 (n : nat) : Z := if (Z.of_nat n <? U32_MOD)%Z then Z.of_nat n else 0.

Definition from_source_span (span : SourceSpan) : CompactSourceSpan :=
  {| start_line := try_u32 (line (src_start span));
     start_column := try_u32 (column (src_start span));
     end_line := try_u32 (line (src_end span));
     end_column := try_u32 (column (src_end span)) |}.

Definition to_source_span (c : CompactSourceSpan) : SourceSpan :=
  mkSourceSpan (mkPoint (Z.to_nat (start_line c)) (Z.to_nat (start_column c)))
               (mkPoint (Z.to_nat (end_line c)) (Z.to_nat (end_column c))).

Record Location := { loc_offset_span : OffsetSpan; loc_source_span : option CompactSourceSpan }.

Definition with_source_span (offset_span : OffsetSpan) (source_span : option SourceSpan) : Location :=
  {| loc_offset_span := offset_span; loc_source_span := from_source_span <$> source_span |}.

Definition resolved_source_span (loc : Location) : SourceSpan :=
  to_source_span (default compact_zero (loc_source_span loc)).

(** The two serialized fields of [Location]. *)
Definition serialize_location (loc : Location) : OffsetSpan * SourceSpan :=
  (loc_offset_span loc, to_source_span (default compact_zero (loc_source_span loc))).

Definition deserialize_compact_source_span (span : SourceSpan) : option CompactSourceSpan :=
  Some (from_source_span span).

(** A missing [source_span] field takes its serde default, [None]. *)
Definition deserialize_location (offset_span : OffsetSpan) (span : option SourceSpan) : Location :=
  {| loc_offset_span := offset_span;
     loc_source_span := match span with
                        | Some s => deserialize_compact_source_span s
                        | None => None
                        end |}.

(** ** The newline index of the content filters *)

Record LineIndex := { newlines : list nat; li_byte_len : nat }.

Definition line_index_new (input : bytes) : LineIndex :=
  {| newlines := positions_from is_nl 0 input; li_byte_len := length input |}.

Definition bounds (ix : LineIndex) (start stop : nat) : nat * nat :=
  let before := partition_point (fun offset => offset <? start) (newlines ix) in
  let after := partition_point (fun offset => offset <? stop) (newlines ix) in
  (match before with
   | 0 => 0
   | S i => match newlines ix !! i with Some n => n + 1 | None => 0 end
   end,
   default (li_byte_len ix) (newlines ix !! after)).

Definition is_single_line (ix : LineIndex) (start stop : nat) : bool :=
  partition_point (fun offset => offset <? start) (newlines ix) =?
  partition_point (fun offset => offset <? stop) (newlines ix).

(** The start of the line holding an offset, and the first newline at or after
    an offset, read directly off the bytes. *)
Fixpoint until_nl (l : bytes) : nat :=
  match l with [] => 0 | b :: r => if is_nl b then 0 else S (until_nl r) end.
Definition line_start_of (input : bytes) (n : nat) : nat := n - until_nl (rev (take n input)).
Definition line_end_of (input : bytes) (n : nat) : nat := n + until_nl (drop n input).

(** ** Lemmas on newline offsets *)

Lemma positions_shift p k base l :
  map (fun nl => k + nl) (positions_from p base l) = positions_from p (k + base) l.
Proof.
  revert base; induction l as [|b l IH]; intros base; simpl; [done|].
  destruct (p b); simpl; rewrite IH, Nat.add_succ_r; done.
Qed.

Lemma partition_none base l n :
  n <= base -> partition_point (fun i => i <? n) (positions_from is_nl base l) = 0.
Proof.
  intros Hn. destruct (positions_from is_nl base l) as [|x ps] eqn:E; simpl; [done|].
  assert (In x (positions_from is_nl base l)) as Hx by (rewrite E; left; done).
  apply positions_ge in Hx. destruct (x <? n) eqn:Hlt; tobool; [lia|done].
Qed.

(** The line and column that the cached offsets give are those of [walk]. *)
Lemma walk_positions l n ln col base :
  let ps := positions_from is_nl base l in
  let k := partition_point (fun i => i <? base + n) ps in
  walk l n ln col =
  mkPoint (ln + k)
    (match k with
     | 0 => col + n
     | S j => match ps !! j with Some last => base + n - S last | None => col + n end
     end).
Proof.
  revert n ln col base; induction l as [|b l IH]; intros n ln col base; cbv zeta.
  - simpl. rewrite Nat.add_0_r. revert col; induction n as [|n IHn]; intros col; simpl.
    + by rewrite Nat.add_0_r.
    + rewrite IHn. f_equal. lia.
  - destruct n as [|n].
    + rewrite Nat.add_0_r, partition_none by lia. simpl. by rewrite !Nat.add_0_r.
    + simpl positions_from. simpl walk. destruct (is_nl b) eqn:E; simpl partition_point.
      * destruct (base <? base + S n) eqn:Hlt; tobool; [|lia].
        rewrite (IH n (S ln) 0 (S base)); cbv zeta.
        replace (S base + n) with (base + S n) by lia.
        destruct (partition_point _ _) as [|j] eqn:Ek; simpl; apply (f_equal2 mkPoint); try lia.
        destruct (positions_from is_nl (S base) l !! j) as [last|] eqn:El; [done|].
        exfalso. apply lookup_ge_None in El.
        pose proof (partition_point_le (fun i => i <? base + S n) (positions_from is_nl (S base) l)).
        lia.
      * rewrite (IH n ln (S col) (S base)); cbv zeta.
        replace (S base + n) with (base + S n) by lia.
        destruct (partition_point _ _) as [|j] eqn:Ek; apply (f_equal2 mkPoint); try lia.
        destruct (positions_from is_nl (S base) l !! j); lia.
Qed.

Lemma source_point_from_all input offset :
  source_point_from_offsets (positions_from is_nl 0 input) offset = location_of input offset.
Proof.
  unfold location_of. rewrite (walk_positions input offset 1 0 0); cbv zeta.
  unfold source_point_from_offsets. simpl (0 + offset).
  set (k := partition_point _ _). destruct k as [|j]; simpl; [done|].
  replace (j + 1) with (S j) by lia. simpl. rewrite Nat.sub_0_r.
  apply (f_equal2 mkPoint); [lia|]. destruct (_ !! j); [lia|done].
Qed.

(** Offsets past the query do not change it. *)
Lemma source_point_prefix input s offset :
  offset <= s \/ length input <= s ->
  source_point_from_offsets (positions_from is_nl 0 (take s input)) offset
  = location_of input offset.
Proof.
  intros H. rewrite <- source_point_from_all. destruct H as [H|H].
  2: { by rewrite take_ge. }
  rewrite <- (take_drop s input) at 2.
  rewrite positions_from_app. unfold source_point_from_offsets.
  set (ps := positions_from is_nl 0 (take s input)).
  set (qs := positions_from is_nl (0 + length (take s input)) (drop s input)).
  assert (partition_point (fun newline => newline <? offset) (ps ++ qs) =
          partition_point (fun newline => newline <? offset) ps) as Hpp.
  { rewrite partition_point_app. destruct (forallb _ ps) eqn:Hall; [|done].
    assert (partition_point (fun newline => newline <? offset) qs = 0) as ->.
    { destruct (decide (s <= length input)).
      - apply partition_none. rewrite length_take. lia.
      - unfold qs. rewrite drop_ge by lia. done. }
    rewrite (partition_point_all _ ps) by done. lia. }
  rewrite Hpp. f_equal. pose proof (partition_point_le (fun newline => newline <? offset) ps).
  destruct (2 <=? _) eqn:E; [|done]. tobool. rewrite lookup_app_l by lia. done.
Qed.

(** ** The mapping's invariant *)

Definition lm_wf (input : bytes) (m : LocationMapping) : Prop :=
  lm_bytes m = input /\ scanned_until m <= length input /\
  newline_offsets m = positions_from is_nl 0 (take (scanned_until m) input).

Lemma ensure_wf input m offset :
  lm_wf input m -> lm_wf input (ensure_offsets_up_to m offset) /\
  scanned_until (ensure_offsets_up_to m offset) =
    scanned_until m `max` (offset `min` length input).
Proof.
  intros (Hb & Hs & Hn). unfold ensure_offsets_up_to. rewrite Hb.
  destruct (_ <=? _) eqn:E; tobool.
  - split; [done|]. lia.
  - split; [|simpl; lia]. split; [done|]. split; simpl; [lia|].
    rewrite Hn, positions_shift, Nat.add_0_r, <- slice_take.
    set (stop := offset `min` length input) in *.
    rewrite <- (slice_take _ stop), <- (slice_app input 0 (scanned_until m) stop) by lia.
    rewrite positions_from_app, length_slice by lia. by rewrite Nat.sub_0_r.
Qed.

Lemma reach_wf input m : lm_reach input m -> lm_wf input m.
Proof.
  induction 1 as [|m offset _ IH|m span _ IH].
  - split; [done|]. split; simpl; [lia|done].
  - by apply ensure_wf.
  - by apply ensure_wf.
Qed.

Lemma ensured_point input m offset q :
  lm_wf input m -> q <= offset ->
  source_point_from_offsets (newline_offsets (ensure_offsets_up_to m offset)) q
  = location_of input q.
Proof.
  intros Hwf Hq. destruct (ensure_wf input m offset Hwf) as [(_ & Hs & ->) Hu].
  apply source_point_prefix. lia.
Qed.

(** ** Lemmas on line boundaries *)

Lemma until_nl_app l1 l2 :
  until_nl (l1 ++ l2) =
  if existsb is_nl l1 then until_nl l1 else length l1 + until_nl l2.
Proof.
  induction l1 as [|b l1 IH]; simpl; [done|].
  destruct (is_nl b); simpl; [done|]. rewrite IH. by destruct (existsb is_nl l1).
Qed.

Lemma until_nl_le l : until_nl l <= length l.
Proof. induction l as [|b l IH]; simpl; [lia|]. destruct (is_nl b); lia. Qed.

Lemma until_nl_none l : existsb is_nl l = false -> until_nl l = length l.
Proof.
  induction l as [|b l IH]; simpl; [done|]. destruct (is_nl b); simpl; [done|].
  intros H. by rewrite IH.
Qed.

Lemma until_nl_some l : existsb is_nl l = true -> until_nl l < length l.
Proof.
  induction l as [|b l IH]; simpl; [done|]. destruct (is_nl b); simpl; [lia|].
  intros H. apply IH in H. lia.
Qed.

Lemma positions_lookup_ge base l i x :
  positions_from is_nl base l !! i = Some x -> base <= x < base + length l.
Proof.
  intros H. apply (positions_ge is_nl). apply list_elem_of_In.
  by eapply list_elem_of_lookup_2.
Qed.

Lemma until_nl_rev_take n l :
  n <= length l ->
  until_nl (rev (take n l)) <= n /\
  (existsb is_nl (rev (take n l)) = false -> until_nl (rev (take n l)) = n) /\
  (existsb is_nl (rev (take n l)) = true -> until_nl (rev (take n l)) < n).
Proof.
  intros Hn. pose proof (until_nl_le (rev (take n l))) as Hle.
  pose proof (until_nl_none (rev (take n l))) as Hno.
  pose proof (until_nl_some (rev (take n l))) as Hso.
  rewrite length_rev, length_take in *. rewrite Nat.min_l in * by lia. tauto.
Qed.

Lemma bounds_start_positions l n base :
  n <= length l ->
  let ps := positions_from is_nl base l in
  match partition_point (fun i => i <? base + n) ps with
  | 0 => n = until_nl (rev (take n l))
  | S i => exists x, ps !! i = Some x /\ base + n - until_nl (rev (take n l)) = S x
  end.
Proof.
  revert n base; induction l as [|b l IH]; intros n base Hn; cbv zeta; simpl in Hn.
  { assert (n = 0) as -> by lia. done. }
  destruct n as [|n].
  { rewrite Nat.add_0_r, partition_none by lia. done. }
  specialize (IH n (S base) ltac:(lia)); cbv zeta in IH.
  replace (S base + n) with (base + S n) in IH by lia.
  destruct (until_nl_rev_take n l ltac:(lia)) as (Hle & Hno & Hso).
  simpl positions_from. simpl rev. rewrite until_nl_app, length_rev, length_take.
  rewrite Nat.min_l by lia. simpl until_nl.
  destruct (is_nl b) eqn:E; simpl partition_point.
  - destruct (base <? base + S n) eqn:Hlt; tobool; [|lia].
    destruct (partition_point _ (positions_from is_nl (S base) l)) as [|i].
    + exists base. split; [done|]. destruct (existsb _ _); [specialize (Hso eq_refl)|]; lia.
    + destruct IH as (x & Hx & Hu). exists x. split; [done|].
      apply positions_lookup_ge in Hx. destruct (existsb _ _); [|specialize (Hno eq_refl)]; lia.
  - destruct (partition_point _ (positions_from is_nl (S base) l)) as [|i].
    + destruct (existsb _ _); [specialize (Hso eq_refl)|]; lia.
    + destruct IH as (x & Hx & Hu). exists x. split; [done|].
      apply positions_lookup_ge in Hx. destruct (existsb _ _); [|specialize (Hno eq_refl)]; lia.
Qed.

Lemma bounds_end_positions l n base :
  n <= length l ->
  let ps := positions_from is_nl base l in
  default (base + length l) (ps !! partition_point (fun i => i <? base + n) ps)
  = base + (n + until_nl (drop n l)).
Proof.
  revert n base; induction l as [|b l IH]; intros n base Hn; cbv zeta; simpl in Hn.
  { assert (n = 0) as -> by lia. simpl. lia. }
  destruct n as [|n].
  - rewrite Nat.add_0_r, partition_none by lia. simpl. clear.
    revert base b; induction l as [|c l IH]; intros base b; simpl; destruct (is_nl b); simpl; try lia.
    rewrite <- (Nat.add_succ_comm base (S (length l))). rewrite IH. simpl. lia.
  - specialize (IH n (S base) ltac:(lia)); cbv zeta in IH.
    replace (S base + n) with (base + S n) in IH by lia.
    simpl positions_from. simpl drop. destruct (is_nl b) eqn:E; simpl partition_point.
    + destruct (base <? base + S n) eqn:Hlt; tobool; [|lia]. simpl.
      rewrite Nat.add_succ_r, <- Nat.add_succ_l. rewrite IH. lia.
    + simpl length. rewrite Nat.add_succ_r, <- Nat.add_succ_l. rewrite IH. lia.
Qed.

Lemma bounds_exact input start stop :
  start <= length input -> stop <= length input ->
  bounds (line_index_new input) start stop = (line_start_of input start, line_end_of input stop).
Proof.
  intros Hs He. unfold bounds, line_index_new, line_start_of, line_end_of; simpl. f_equal.
  - pose proof (bounds_start_positions input start 0 Hs) as H; cbv zeta in H. simpl in H.
    destruct (partition_point _ _) as [|i].
    + lia.
    + destruct H as (x & -> & Hx). lia.
  - pose proof (bounds_end_positions input stop 0 He) as H; cbv zeta in H. simpl in H. done.
Qed.

(** ** Properties *)

(** Locations do not depend on the queries made before: whatever points and
    spans were asked for, and in whatever order, a query answers the line and
    column found by reading the bytes before the offset one at a time, for any
    point and for both ends of any nonempty span. *)
Theorem location_query_independent input m :
  lm_reach input m ->
  (forall offset, snd (get_source_point m offset) = location_of input offset) /\
  (forall span, span_start span < span_end span ->
     snd (get_source_span m span) =
     mkSourceSpan (location_of input (span_start span)) (location_of input (span_end span - 1))).
Proof.
  intros Hm. apply reach_wf in Hm. split.
  - intros offset. apply ensured_point; [done|lia].
  - intros span Hs. unfold get_source_span; cbn [snd].
    rewrite !(ensured_point input) by (done || lia). done.
Qed.

Lemma location_query_independent_witness :
  let input := bs "ab" ++ [10]%Z ++ bs "cd" in
  lm_reach input (fst (get_source_point (lm_new input) 5)) /\
  snd (get_source_point (fst (get_source_point (lm_new input) 5)) 2) = mkPoint 1 2.
Proof.
  cbv zeta. split; [apply reach_point, reach_new|].
  destruct (location_query_independent (bs "ab" ++ [10]%Z ++ bs "cd")
    (fst (get_source_point (lm_new (bs "ab" ++ [10]%Z ++ bs "cd")) 5))) as [H _].
  - apply reach_point, reach_new.
  - rewrite H. reflexivity.
Defined.

(** The hypothesis on spans is needed: a newline just before an empty span is
    only counted once another query has scanned past it. *)
Example empty_span_needs_scan :
  let input := bs "a" ++ [10]%Z ++ bs "b" in
  src_start (snd (get_source_span (lm_new input) (mkSpan 2 2))) = mkPoint 1 2 /\
  src_start (snd (get_source_span (fst (get_source_point (lm_new input) 3)) (mkSpan 2 2)))
    = mkPoint 2 0.
Proof. split; reflexivity. Qed.

(** The scan cursor never moves back and never passes the input; the cached
    newline offsets are exactly those of the scanned prefix, so a query searches
    only the bytes between the old and the new cursor and each byte of the input
    is searched at most once. *)
Theorem location_scan_cursor input m offset :
  lm_reach input m ->
  let m' := fst (get_source_point m offset) in
  scanned_until m' = scanned_until m `max` (offset `min` length input) /\
  scanned_until m' <= length input /\
  newline_offsets m' =
    newline_offsets m ++
    positions_from is_nl (scanned_until m) (slice input (scanned_until m) (scanned_until m')) /\
  newline_offsets m' = positions_from is_nl 0 (take (scanned_until m') input).
Proof.
  intros Hm. apply reach_wf in Hm. cbv zeta. unfold get_source_point; simpl.
  destruct (ensure_wf input m offset Hm) as [(Hb & Hs & Hn) Hu].
  destruct Hm as (Hbm & Hsm & Hnm). rewrite Hu in *.
  split; [done|]. split; [done|]. split; [|done].
  rewrite Hn, Hnm. set (s' := scanned_until m `max` _) in *.
  rewrite <- !slice_take, <- (slice_app input 0 (scanned_until m) s') by lia.
  rewrite positions_from_app, length_slice, Nat.sub_0_r by lia. done.
Qed.

Lemma location_scan_cursor_witness :
  let m := lm_new (bs "ab" ++ [10]%Z ++ bs "cd") in
  scanned_until (fst (get_source_point m 4)) = 4 /\
  newline_offsets (fst (get_source_point m 4)) = [2].
Proof.
  cbv zeta.
  destruct (location_scan_cursor (bs "ab" ++ [10]%Z ++ bs "cd")
    (lm_new (bs "ab" ++ [10]%Z ++ bs "cd")) 4 (reach_new _)) as (H1 & _ & _ & H2).
  split; [exact H1|]. rewrite H2. reflexivity.
Defined.

(** Compact spans: each coordinate below 2^32 survives the conversion to 32
    bits and back, a larger one becomes 0, and serializing a [Location] and
    reading it back gives the same offset span and the same resolved span. *)
Theorem compact_span_roundtrip os span loc :
  let keep n := if (Z.of_nat n <? U32_MOD)%Z then n else 0 in
  resolved_source_span (with_source_span os (Some span)) =
    mkSourceSpan (mkPoint (keep (line (src_start span))) (keep (column (src_start span))))
                 (mkPoint (keep (line (src_end span))) (keep (column (src_end span)))) /\
  ((forall c, loc_source_span loc = Some c ->
      Forall (fun z => 0 <= z < U32_MOD)%Z
        [start_line c; start_column c; end_line c; end_column c]) ->
   let '(o, s) := serialize_location loc in
   loc_offset_span (deserialize_location o (Some s)) = loc_offset_span loc /\
   resolved_source_span (deserialize_location o (Some s)) = resolved_source_span loc).
Proof.
  cbv zeta. split.
  - unfold resolved_source_span, with_source_span, to_source_span, from_source_span, try_u32; simpl.
    repeat match goal with |- context [(Z.of_nat ?n <? U32_MOD)%Z] =>
      destruct (Z.of_nat n <? U32_MOD)%Z end; by rewrite ?Nat2Z.id.
  - intros Hc. unfold serialize_location, resolved_source_span; simpl. split; [done|].
    destruct (loc_source_span loc) as [c|] eqn:E; simpl; [|done].
    specialize (Hc c eq_refl). rewrite !Forall_cons in Hc.
    destruct Hc as (H1 & H2 & H3 & H4 & _).
    unfold to_source_span, from_source_span, try_u32; simpl.
    rewrite !Z2Nat.id by lia.
    repeat match goal with |- context [(?z <? U32_MOD)%Z] =>
      replace (z <? U32_MOD)%Z with true by (symmetry; apply Z.ltb_lt; lia) end. done.
Qed.

Lemma compact_span_roundtrip_witness :
  let loc := with_source_span (mkSpan 3 9) (Some (mkSourceSpan (mkPoint 2 1) (mkPoint 2 6))) in
  resolved_source_span (deserialize_location (mkSpan 3 9) (Some (snd (serialize_location loc))))
  = mkSourceSpan (mkPoint 2 1) (mkPoint 2 6).
Proof.
  cbv zeta.
  destruct (compact_span_roundtrip (mkSpan 3 9) (mkSourceSpan (mkPoint 2 1) (mkPoint 2 6))
    (with_source_span (mkSpan 3 9) (Some (mkSourceSpan (mkPoint 2 1) (mkPoint 2 6))))) as [_ H].
  simpl in H. destruct H as [_ H].
  - intros c Hc. injection Hc as <-. repeat constructor; vm_compute; discriminate.
  - exact H.
Defined.

(** The newline index gives the complete lines that touch a span: the byte
    after the last newline before [start], and the first newline at or after
    [end], or the end of the input; it says "single line" exactly when no
    newline lies in the span. *)
Theorem line_index_bounds input start stop :
  start <= stop -> stop <= length input ->
  bounds (line_index_new input) start stop = (line_start_of input start, line_end_of input stop) /\
  (is_single_line (line_index_new input) start stop = true <->
   forall i, start <= i < stop -> input !! i <> Some 10%Z).
Proof.
  intros Hle Hs. split; [apply bounds_exact; lia|].
  unfold is_single_line, line_index_new; simpl. rewrite Nat.eqb_eq.
  assert (forall n, partition_point (fun offset => offset <? n) (positions_from is_nl 0 input) =
    length (List.filter is_nl (take n input))) as Hpp.
  { intros n. rewrite partition_point_filter, positions_below, Nat.sub_0_r; [done|].
    eapply StronglySorted_ind with (R := lt); [| |apply positions_sorted].
    - constructor.
    - intros a l' _ IH Ha. constructor; [done|].
      eapply List.Forall_impl; [|exact Ha]. intros b Hab Hb. tobool. apply Nat.ltb_lt. lia. }
  rewrite !Hpp. rewrite <- (take_drop start (take stop input)) at 1.
  rewrite take_take, Nat.min_l, List.filter_app, length_app by lia.
  rewrite drop_take_slice. split.
  - intros H i Hi Hb.
    assert (length (List.filter is_nl (slice input start stop)) = 0) as H0 by lia.
    apply nil_length_inv in H0.
    assert (In 10%Z (List.filter is_nl (slice input start stop))) as Hin.
    { apply filter_In. split; [|done]. apply list_elem_of_In.
      apply list_elem_of_lookup. exists (i - start). rewrite slice_lookup by lia.
      by replace (start + (i - start)) with i by lia. }
    rewrite H0 in Hin. done.
  - intros H. rewrite (filter_all_false is_nl (slice input start stop)); [simpl; lia|].
    intros b Hb. apply list_elem_of_In, list_elem_of_lookup in Hb as [i Hi].
    assert (i < stop - start).
    { apply lookup_lt_Some in Hi. rewrite length_slice in Hi by lia. lia. }
    rewrite slice_lookup in Hi by lia. specialize (H (start + i) ltac:(lia)).
    destruct (is_nl b) eqn:E; [|done]. unfold is_nl in E. tobool. subst. done.
Qed.

Lemma line_index_bounds_witness :
  let input := bs "ab" ++ [10]%Z ++ bs "cd" in
  bounds (line_index_new input) 1 4 = (0, 5) /\ is_single_line (line_index_new input) 3 5 = true.
Proof.
  cbv zeta. split.
  - destruct (line_index_bounds (bs "ab" ++ [10]%Z ++ bs "cd") 1 4 ltac:(lia) ltac:(simpl; lia))
      as [-> _]. reflexivity.
  - destruct (line_index_bounds (bs "ab" ++ [10]%Z ++ bs "cd") 3 5 ltac:(lia) ltac:(simpl; lia))
      as [_ H]. reflexivity.
Defined.
