(* ===== verification/Encoding.v ===== *)
(** * Unicode detection and decoding: [kingfisher-core/src/encoding.rs]

    [decode] recognises UTF-16 and UTF-32 by byte-order mark or by the density of
    zero bytes in the byte lanes ([guess]) and transcodes to UTF-8. The standard
    library routines it calls ([char::from_u32], [char::decode_utf16],
    [char::encode_utf8], [slice::as_chunks]) are written out. *)

From Stdlib Require Import ZArith Lia Bool ZifyNat.
From stdpp Require Import base list.
From S2P Require Import Prelude.

(** ** Standard-library codecs *)

(** Unicode scalar values: code points that are not surrogates. *)
Definition is_scalar (c : Z) : bool :=
  (0 ≤? c ≤? 1114111) && negb (55296 ≤? c ≤? 57343).
Definition from_u32 (v : Z) : option Z := if is_scalar v then Some v else None.

Definition REPLACEMENT : Z := 65533.

(** [char::encode_utf8] *)
Definition encode_utf8 (c : Z) : bytes :=
  (if c <? 128 then [c]
   else if c <? 2048 then [192 + c / 64; 128 + c mod 64]
   else if c <? 65536 then [224 + c / 4096; 128 + c / 64 mod 64; 128 + c mod 64]
   else [240 + c / 262144; 128 + c / 4096 mod 64; 128 + c / 64 mod 64; 128 + c mod 64])%Z.

Definition utf8 (cs : list Z) : bytes := flat_map encode_utf8 cs.

(** [char::decode_utf16]: a value per scalar, [None] for an unpaired surrogate.
    A unit that fails to complete a pair is decoded again on its own. *)
Fixpoint decode_utf16 (units : list Z) : list (option Z) :=
  match units with
  | [] => []
  | u :: r =>
      if negb (55296 ≤? u ≤? 57343) then Some u :: decode_utf16 r
      else if (56320 <=? u)%Z then None :: decode_utf16 r
      else match r with
           | [] => [None]
           | u2 :: r2 =>
               if (56320 ≤? u2 ≤? 57343)
               then Some ((u - 55296) * 1024 + (u2 - 56320) + 65536)%Z :: decode_utf16 r2
               else None :: decode_utf16 r
           end
  end.

(** [as_chunks::<2>] and [as_chunks::<4>]: the full chunks and the remainder. *)
Fixpoint chunks2 (l : bytes) : list (Z * Z) * bytes :=
  match l with
  | a :: b :: r => let '(cs, rest) := chunks2 r in ((a, b) :: cs, rest)
  | _ => ([], l)
  end.
Fixpoint chunks4 (l : bytes) : list (Z * Z * Z * Z) * bytes :=
  match l with
  | a :: b :: c :: d :: r => let '(cs, rest) := chunks4 r in ((a, b, c, d) :: cs, rest)
  | _ => ([], l)
  end.

Definition u16_le '(a, b) : Z := (a + 256 * b)%Z.
Definition u16_be '(a, b) : Z := (b + 256 * a)%Z.
Definition u32_le '(a, b, c, d) : Z := (a + 256 * (b + 256 * (c + 256 * d)))%Z.
Definition u32_be '(a, b, c, d) : Z := (d + 256 * (c + 256 * (b + 256 * a)))%Z.

(** ** Guessing without a byte-order mark *)

Inductive Encoding := Utf16Le | Utf16Be | Utf32Le | Utf32Be.

Definition is_zero (b : byte) : bool := (b ==? 0).
Definition zeros (l : bytes) : nat := length (List.filter is_zero l).

(** [input[offset..].iter().step_by(stride)], with [skip] bytes to drop first. *)
Fixpoint step_by (stride skip : nat) (l : bytes) : bytes :=
  match l with
  | [] => []
  | b :: r => match skip with
              | 0 => b :: step_by stride (stride - 1) r
              | S k => step_by stride k r
              end
  end.

Definition score (input : bytes) (offset stride : nat) : bool :=
  let lane := take (length input / stride) (step_by stride 0 (drop offset input)) in
  (1 <? length lane) && (60 <=? zeros lane * 100 / length lane).

(** The lane heuristics behind both gates. *)
Definition guess_lanes (input : bytes) : option (Encoding * nat) :=
  let s := score input in
  let by_four :=
    if length input mod 4 =? 0 then
      if negb (s 0 4) && s 1 4 && s 2 4 && s 3 4 then Some (Utf32Le, 0)
      else if s 0 4 && s 1 4 && s 2 4 && negb (s 3 4) then Some (Utf32Be, 0)
      else None
    else None in
  match by_four with
  | Some found => Some found
  | None =>
      if length input mod 2 =? 0 then
        if negb (s 0 2) && s 1 2 then Some (Utf16Le, 0)
        else if s 0 2 && negb (s 1 2) then Some (Utf16Be, 0)
        else None
      else None
  end.

Definition minimum_zeros (input : bytes) : nat :=
  let units := length input / 2 in
  units / 5 * 3 + (units mod 5 * 3 + 4) / 5.

Definition guess (input : bytes) : option (Encoding * nat) :=
  if (length input <? 8) || negb (length input mod 2 =? 0) || negb (existsb is_zero input)
  then None
  else if zeros input <? minimum_zeros input then None
  else guess_lanes input.

(** The heuristics before the zero-density gates, as the module's own tests
    keep them for comparison. *)
Definition original_guess (input : bytes) : option (Encoding * nat) :=
  if (length input <? 8) || negb (length input mod 2 =? 0) then None
  else guess_lanes input.

(** ** Decoding *)

Definition detect (input : bytes) : option (Encoding * nat) :=
  match input with
  | 255%Z :: 254%Z :: 0%Z :: 0%Z :: payload =>
      let '(chunks, remainder) := chunks4 payload in
      if match remainder with [] => true | _ => false end &&
         forallb (fun chunk => is_scalar (u32_le chunk)) chunks
      then Some (Utf32Le, 4) else Some (Utf16Le, 2)
  | 0%Z :: 0%Z :: 254%Z :: 255%Z :: _ => Some (Utf32Be, 4)
  | 255%Z :: 254%Z :: _ => Some (Utf16Le, 2)
  | 254%Z :: 255%Z :: _ => Some (Utf16Be, 2)
  | _ => guess input
  end.

Definition transcode (encoding : Encoding) (payload : bytes) : bytes :=
  match encoding with
  | Utf16Le => utf8 (map (default REPLACEMENT) (decode_utf16 (map u16_le (fst (chunks2 payload)))))
  | Utf16Be => utf8 (map (default REPLACEMENT) (decode_utf16 (map u16_be (fst (chunks2 payload)))))
  | Utf32Le => utf8 (map (fun c => default REPLACEMENT (from_u32 (u32_le c))) (fst (chunks4 payload)))
  | Utf32Be => utf8 (map (fun c => default REPLACEMENT (from_u32 (u32_be c))) (fst (chunks4 payload)))
  end.

Definition decode (input : bytes) : option bytes :=
  match detect input with
  | None => None
  | Some (encoding, start) =>
      match transcode encoding (drop start input) with
      | [] => None
      | b :: r => Some (b :: r)
      end
  end.

(** ** Reference encoders (the other direction of the standard codecs) *)

Definition units_of (c : Z) : list Z :=
  (if c <? 65536 then [c]
   else [55296 + (c - 65536) / 1024; 56320 + (c - 65536) mod 1024])%Z.
Definition le16 (u : Z) : bytes := [u mod 256; u / 256]%Z.
Definition be16 (u : Z) : bytes := [u / 256; u mod 256]%Z.
Definition le32 (c : Z) : bytes := [c mod 256; c / 256 mod 256; c / 65536 mod 256; c / 16777216]%Z.
Definition be32 (c : Z) : bytes := rev (le32 c).
Definition encode_utf16 (word : Z -> bytes) (cs : list Z) : bytes :=
  flat_map word (flat_map units_of cs).
Definition encode_utf32 (word : Z -> bytes) (cs : list Z) : bytes := flat_map word cs.

(** The payload [decode] would rather read as UTF-32 after the bytes FF FE 00 00. *)
Definition reads_as_utf32 (payload : bytes) : bool :=
  let '(chunks, remainder) := chunks4 payload in
  match remainder with [] => true | _ => false end &&
  forallb (fun chunk => is_scalar (u32_le chunk)) chunks.

(** ** Lanes and zero density *)

Lemma step_by_drop k o l : step_by k 0 (drop o l) = step_by k o l.
Proof.
  revert l; induction o as [|o IH]; intros [|b l]; simpl; auto.
Qed.

Lemma step_by_length k skip l :
  skip < k -> length (step_by k skip l) = (length l + k - 1 - skip) / k.
Proof.
  revert skip; induction l as [|b l IH]; intros skip Hk.
  - cbn [step_by length]. rewrite Nat.div_small; lia.
  - destruct skip as [|skip]; cbn [step_by length].
    + rewrite IH by lia. replace (S (length l) + k - 1 - 0) with (length l + 1 * k) by lia.
      rewrite Nat.div_add by lia. replace (length l + k - 1 - (k - 1)) with (length l) by lia. lia.
    + rewrite IH by lia. f_equal. lia.
Qed.

Lemma zeros_cons b l : zeros (b :: l) = (if is_zero b then 1 else 0) + zeros l.
Proof. unfold zeros; simpl. by destruct (is_zero b). Qed.

Lemma zeros_by_2 l : zeros l = zeros (step_by 2 0 l) + zeros (step_by 2 1 l).
Proof.
  induction l as [|b l IH]; [done|]. simpl step_by. rewrite !zeros_cons. lia.
Qed.

Lemma zeros_by_4 l :
  zeros l = zeros (step_by 4 0 l) + zeros (step_by 4 1 l)
          + zeros (step_by 4 2 l) + zeros (step_by 4 3 l).
Proof.
  induction l as [|b l IH]; [done|]. simpl step_by. rewrite !zeros_cons. lia.
Qed.

(** A lane that scores holds at least three zeros in five bytes. *)
Lemma score_zeros input o k m :
  o < k -> length input = m * k -> score input o k = true ->
  3 * m <= 5 * zeros (step_by k o input).
Proof.
  intros Ho Hlen Hs. unfold score in Hs. rewrite step_by_drop, Hlen in Hs.
  rewrite Nat.div_mul in Hs by lia.
  assert (length (step_by k o input) = m) as Hm.
  { rewrite step_by_length, Hlen by lia.
    replace (m * k + k - 1 - o) with ((k - 1 - o) + m * k) by lia.
    rewrite Nat.div_add, Nat.div_small by lia. lia. }
  rewrite take_ge in Hs by lia. rewrite Hm in Hs. tobool.
  pose proof (Nat.Div0.mul_div_le (zeros (step_by k o input) * 100) m). nia.
Qed.

Lemma guess_lanes_dense input :
  length input mod 2 = 0 -> guess_lanes input <> None ->
  3 * (length input / 2) <= 5 * zeros input.
Proof.
  intros Hev Hg. unfold guess_lanes in Hg.
  assert (score input 0 2 = true \/ score input 1 2 = true ->
    3 * (length input / 2) <= 5 * zeros input) as H2.
  { assert (length input = length input / 2 * 2) as Hl by dlia.
    rewrite zeros_by_2. intros [H|H]; eapply score_zeros in H; eauto; dlia. }
  destruct (length input mod 4 =? 0) eqn:E4; tobool.
  2: { destruct (_ =? 0); [|done]. destruct (score input 0 2), (score input 1 2); simpl in *; tauto. }
  assert (length input = length input / 4 * 4) as Hl by dlia.
  assert (forall o, o < 4 -> score input o 4 = true ->
    3 * (length input / 4) <= 5 * zeros (step_by 4 o input)) as H4
    by (intros; by eapply score_zeros).
  pose proof (zeros_by_4 input) as Hz.
  destruct (score input 1 4) eqn:E1, (score input 2 4) eqn:E2;
    [|destruct (score input 0 4), (score input 3 4), (score input 0 2), (score input 1 2),
      (length input mod 2 =? 0); simpl in *; tauto..].
  pose proof (H4 1 ltac:(lia) E1). pose proof (H4 2 ltac:(lia) E2).
  destruct (score input 0 4) eqn:E0, (score input 3 4) eqn:E3;
    try (pose proof (H4 0 ltac:(lia) E0)); try (pose proof (H4 3 ltac:(lia) E3));
    try dlia;
    destruct (score input 0 2), (score input 1 2), (length input mod 2 =? 0); simpl in *; tauto.
Qed.

Lemma minimum_zeros_bound input :
  minimum_zeros input <= zeros input <-> 3 * (length input / 2) <= 5 * zeros input.
Proof. unfold minimum_zeros. dlia. Qed.

Lemma zeros_positive input : 0 < zeros input -> existsb is_zero input = true.
Proof.
  induction input as [|b l IH]; [unfold zeros; simpl; lia|].
  rewrite zeros_cons. simpl. destruct (is_zero b); simpl; [done|]. apply IH.
Qed.

(** ** Round trips of the codecs *)

Lemma is_scalar_bounds c :
  is_scalar c = true -> (0 <= c <= 1114111 /\ ~ (55296 <= c <= 57343))%Z.
Proof. unfold is_scalar. intros H. tobool. lia. Qed.

Lemma chunks2_flat (f : Z -> bytes) us :
  (forall u, exists a b, f u = [a; b]) ->
  chunks2 (flat_map f us) =
  (map (fun u => match f u with [a; b] => (a, b) | _ => (0, 0)%Z end) us, []).
Proof.
  intros Hf. induction us as [|u us IH]; simpl; [done|].
  destruct (Hf u) as (a & b & E). rewrite E. simpl. by rewrite IH.
Qed.

Lemma chunks4_flat (f : Z -> bytes) cs :
  (forall u, exists a b c d, f u = [a; b; c; d]) ->
  chunks4 (flat_map f cs) =
  (map (fun u => match f u with [a; b; c; d] => (a, b, c, d) | _ => (0, 0, 0, 0)%Z end) cs, []).
Proof.
  intros Hf. induction cs as [|u cs IH]; simpl; [done|].
  destruct (Hf u) as (a & b & c & d & E). rewrite E. simpl. by rewrite IH.
Qed.

Lemma u16_le_word us : map u16_le (fst (chunks2 (flat_map le16 us))) = us.
Proof.
  rewrite chunks2_flat by (intros; eauto). simpl. rewrite map_map. simpl.
  rewrite <- (map_id us) at 2. apply map_ext. intros u. dlia.
Qed.

Lemma u16_be_word us : map u16_be (fst (chunks2 (flat_map be16 us))) = us.
Proof.
  rewrite chunks2_flat by (intros; eauto). simpl. rewrite map_map. simpl.
  rewrite <- (map_id us) at 2. apply map_ext. intros u. dlia.
Qed.

Lemma u32_le_word c : u32_le (c mod 256, c / 256 mod 256, c / 65536 mod 256, c / 16777216)%Z = c.
Proof. unfold u32_le. dlia. Qed.

Lemma decode_utf16_scalar c r :
  is_scalar c = true -> decode_utf16 (units_of c ++ r) = Some c :: decode_utf16 r.
Proof.
  intros Hc. apply is_scalar_bounds in Hc. unfold units_of.
  destruct (c <? 65536)%Z eqn:E; tobool; simpl.
  - destruct (55296 ≤? c ≤? 57343) eqn:Es; tobool; [lia|]. done.
  - pose proof (Z.mod_pos_bound (c - 65536) 1024 ltac:(lia)).
    destruct (55296 ≤? _ ≤? 57343) eqn:E1; simpl.
    2: { apply andb_false_iff in E1 as [?|?]; tobool; lia. }
    destruct (56320 <=? _)%Z eqn:E2; tobool; [lia|].
    destruct (56320 ≤? _ ≤? 57343) eqn:E3; simpl.
    2: { apply andb_false_iff in E3 as [?|?]; tobool; lia. }
    f_equal. f_equal. dlia.
Qed.

Lemma decode_utf16_units cs :
  Forall (fun c => is_scalar c = true) cs ->
  decode_utf16 (flat_map units_of cs) = map Some cs.
Proof.
  induction 1 as [|c cs Hc _ IH]; [done|]. cbn [flat_map map].
  by rewrite decode_utf16_scalar, IH.
Qed.

Lemma map_default_some d (cs : list Z) : map (default d) (map Some cs) = cs.
Proof. rewrite map_map. apply map_id. Qed.

Lemma utf8_nonempty c cs : utf8 (c :: cs) <> [].
Proof. unfold utf8; simpl. unfold encode_utf8. repeat case_match; done. Qed.

Lemma some_nonempty (l : bytes) :
  l <> [] -> match l with [] => None | b :: r => Some (b :: r) end = Some l.
Proof. by destruct l. Qed.

Section roundtrips.
Variable cs : list Z.
Hypothesis scalars : Forall (fun c => is_scalar c = true) cs.
Hypothesis nonempty : cs <> [].

Lemma utf8_cs_nonempty : utf8 cs <> [].
Proof. destruct cs; [done|apply utf8_nonempty]. Qed.

Lemma transcode_utf16_le : transcode Utf16Le (encode_utf16 le16 cs) = utf8 cs.
Proof.
  simpl. unfold encode_utf16. by rewrite u16_le_word, decode_utf16_units, map_default_some.
Qed.

Lemma transcode_utf16_be : transcode Utf16Be (encode_utf16 be16 cs) = utf8 cs.
Proof.
  simpl. unfold encode_utf16. by rewrite u16_be_word, decode_utf16_units, map_default_some.
Qed.

Lemma transcode_utf32_le : transcode Utf32Le (encode_utf32 le32 cs) = utf8 cs.
Proof.
  simpl. unfold encode_utf32. rewrite chunks4_flat by (intros; unfold le32; eauto 10). simpl.
  f_equal. rewrite map_map. rewrite <- (map_id cs) at 2.
  apply map_ext_in. intros c Hc. cbv beta iota zeta delta [le32].
  rewrite u32_le_word. unfold from_u32. rewrite List.Forall_forall in scalars.
  by rewrite scalars.
Qed.

Lemma transcode_utf32_be : transcode Utf32Be (encode_utf32 be32 cs) = utf8 cs.
Proof.
  simpl. unfold encode_utf32. rewrite chunks4_flat by (intros; unfold be32, le32; simpl; eauto 10).
  simpl. f_equal. rewrite map_map. rewrite <- (map_id cs) at 2.
  apply map_ext_in. intros c Hc. unfold be32, le32. simpl.
  replace (c mod 256 + 256 * (c / 256 mod 256 + 256 * (c / 65536 mod 256 + 256 * (c / 16777216))))%Z
    with c by dlia.
  unfold from_u32. rewrite List.Forall_forall in scalars. by rewrite scalars.
Qed.
End roundtrips.

Lemma reads_as_utf32_words cs :
  Forall (fun c => is_scalar c = true) cs -> reads_as_utf32 (encode_utf32 le32 cs) = true.
Proof.
  intros Hcs. unfold reads_as_utf32, encode_utf32.
  rewrite chunks4_flat by (intros; unfold le32; eauto 10). simpl.
  apply forallb_forall. intros q Hq. apply in_map_iff in Hq as (c & <- & Hc).
  rewrite List.Forall_forall in Hcs. cbv beta iota zeta delta [le32]. rewrite u32_le_word. auto.
Qed.

Lemma detect_utf16_le (payload : bytes) :
  match payload with 0%Z :: 0%Z :: r => reads_as_utf32 r = false | _ => True end ->
  detect (255 :: 254 :: payload)%Z = Some (Utf16Le, 2).
Proof.
  intros H. simpl. destruct payload as [|x payload]; [done|].
  destruct x; try done. destruct payload as [|y payload]; [done|].
  destruct y; try done. unfold reads_as_utf32 in H. destruct (chunks4 payload) as [ch rem].
  by rewrite H.
Qed.

(** ** What a payload says: the encoder's side *)

(** A text as it is written: a Unicode scalar value, or one unit that is none (a
    surrogate without its other half in UTF-16, a word that is no scalar value in
    UTF-32). *)
Inductive piece := Scalar (c : Z) | Broken (unit : Z).

Definition shown (p : piece) : Z :=
  match p with Scalar c => c | Broken _ => REPLACEMENT end.
Definition is_high (u : Z) : bool := 55296 ≤? u ≤? 56319.
Definition is_low (u : Z) : bool := 56320 ≤? u ≤? 57343.

Definition piece_units (p : piece) : list Z :=
  match p with Scalar c => units_of c | Broken u => [u] end.
Definition piece_word (p : piece) : Z := match p with Scalar c => c | Broken v => v end.

(** In UTF-16 the halves of a pair that stand beside each other are a pair. *)
Fixpoint separated (ps : list piece) : bool :=
  match ps with
  | [] => true
  | p :: r =>
      negb (match p, r with Broken u, Broken v :: _ => is_high u && is_low v | _, _ => false end)
      && separated r
  end.

Definition piece_ok16 (p : piece) : bool :=
  match p with Scalar c => is_scalar c | Broken u => is_high u || is_low u end.
Definition piece_ok32 (p : piece) : bool :=
  match p with Scalar c => is_scalar c | Broken v => (0 ≤? v ≤? 4294967295) && negb (is_scalar v) end.

Definition written (e : Encoding) (ps : list piece) : bytes :=
  match e with
  | Utf16Le => flat_map le16 (flat_map piece_units ps)
  | Utf16Be => flat_map be16 (flat_map piece_units ps)
  | Utf32Le => flat_map le32 (map piece_word ps)
  | Utf32Be => flat_map be32 (map piece_word ps)
  end.
Definition well_written (e : Encoding) (ps : list piece) : bool :=
  match e with
  | Utf16Le | Utf16Be => forallb piece_ok16 ps && separated ps
  | Utf32Le | Utf32Be => forallb piece_ok32 ps
  end.
Definition width (e : Encoding) : nat :=
  match e with Utf16Le | Utf16Be => 2 | Utf32Le | Utf32Be => 4 end.

(** The byte-order marks, and the payloads for which each is read as itself: the
    mark of little-endian UTF-16 is the beginning of that of UTF-32. *)
Definition mark (e : Encoding) : bytes :=
  (match e with
   | Utf16Le => [255; 254] | Utf16Be => [254; 255]
   | Utf32Le => [255; 254; 0; 0] | Utf32Be => [0; 0; 254; 255]
   end)%Z.
Definition unmistaken (e : Encoding) (payload : bytes) : bool :=
  match e with
  | Utf16Le => negb (starts_with [0; 0]%Z payload && reads_as_utf32 (drop 2 payload))
  | Utf32Le => reads_as_utf32 payload
  | _ => true
  end.

(** *** Every sequence of units is such a text *)

Lemma surrogate_unit u :
  negb (55296 ≤? u ≤? 57343) = false -> is_high u || is_low u = true.
Proof.
  unfold is_high, is_low. intros H. tobool. apply orb_true_iff.
  rewrite !andb_true_iff, !Z.leb_le. lia.
Qed.

Lemma pieces_of_units units :
  Forall (fun u => 0 <= u < 65536)%Z units ->
  exists ps, flat_map piece_units ps = units /\ forallb piece_ok16 ps = true /\
             separated ps = true.
Proof.
  remember (length units) as n eqn:Hn. revert units Hn.
  induction n as [n IH] using lt_wf_ind. intros units -> Hu.
  destruct units as [|u r]; [by exists []|].
  apply Forall_cons in Hu as [Hu Hr].
  destruct (IH (length r) ltac:(simpl; lia) r eq_refl Hr) as (ps & Eps & Ok & Sep).
  destruct (negb (55296 ≤? u ≤? 57343)) eqn:E.
  - exists (Scalar u :: ps). cbn [flat_map piece_units forallb piece_ok16 separated].
    rewrite Eps, Ok, Sep. unfold units_of, is_scalar. rewrite E.
    rewrite (proj2 (Z.ltb_lt u 65536)) by lia.
    split; [done|]. split; [|done]. rewrite !andb_true_r. apply andb_true_iff. rewrite !Z.leb_le. lia.
  - pose proof (surrogate_unit u E) as Hsur.
    destruct (is_high u && match r with v :: _ => is_low v | [] => false end) eqn:Epair.
    + destruct r as [|v r2]; [by rewrite andb_false_r in Epair|].
      apply Forall_cons in Hr as [Hv Hr2].
      destruct (IH (length r2) ltac:(simpl; lia) r2 eq_refl Hr2) as (qs & Eqs & Ok2 & Sep2).
      unfold is_high, is_low in Epair. tobool.
      exists (Scalar ((u - 55296) * 1024 + (v - 56320) + 65536)%Z :: qs).
      cbn [flat_map piece_units forallb piece_ok16 separated]. rewrite Eqs, Ok2, Sep2.
      split; [|split; [|done]].
      * unfold units_of. rewrite (proj2 (Z.ltb_ge _ 65536)) by lia. simpl. f_equal; [dlia|].
        f_equal; dlia.
      * rewrite andb_true_r. unfold is_scalar. rewrite andb_true_iff, negb_true_iff, andb_true_iff, !Z.leb_le.
        split; [lia|]. apply andb_false_iff. right. apply Z.leb_gt. lia.
    + exists (Broken u :: ps). cbn [flat_map piece_units forallb piece_ok16 separated].
      rewrite Eps, Ok, Sep, Hsur. split; [done|]. split; [done|]. rewrite andb_true_r.
      apply negb_true_iff. destruct ps as [|[c|v] ps]; try done.
      simpl in Eps. by subst r.
Qed.

Lemma decode_utf16_pieces ps :
  forallb piece_ok16 ps = true -> separated ps = true ->
  map (default REPLACEMENT) (decode_utf16 (flat_map piece_units ps)) = map shown ps.
Proof.
  induction ps as [|p ps IH]; [done|]. cbn [forallb separated].
  rewrite !andb_true_iff. intros [Hp Hok] [Hs Hsep]. specialize (IH Hok Hsep).
  destruct p as [c|u]; cbn [flat_map piece_units piece_ok16 map shown] in *.
  - rewrite decode_utf16_scalar by done. cbn [map default]. by rewrite IH.
  - assert (negb (55296 ≤? u ≤? 57343) = false) as Esur.
    { unfold is_high, is_low in Hp. apply negb_false_iff, andb_true_iff. rewrite !Z.leb_le.
      apply orb_true_iff in Hp as [Hp|Hp]; tobool; lia. }
    simpl app. cbn [decode_utf16]. rewrite Esur.
    destruct (56320 <=? u)%Z eqn:E; [simpl; by rewrite IH|].
    destruct (flat_map piece_units ps) as [|v r] eqn:Er.
    { destruct ps as [|[c|v] ps]; simpl in *; [done| |done].
      unfold units_of in Er. by destruct (c <? 65536)%Z. }
    destruct (56320 ≤? v ≤? 57343) eqn:Ev; [|cbn [map default]; by rewrite IH].
    exfalso. destruct ps as [|[c|w] ps]; simpl in *; [done| |].
    + apply andb_true_iff in Hok as [Hc _]. apply is_scalar_bounds in Hc. tobool.
      unfold units_of in Er. destruct (c <? 65536)%Z eqn:E2; simpl in Er; injection Er as <- _; tobool;
        [lia|]. dlia.
    + injection Er as -> _. unfold is_high, is_low in *. clear IH Hok. tobool.
      apply andb_false_iff in Hs as [Hs|Hs]; tobool; lia.
Qed.

(** *** Payloads as units *)

Lemma chunks2_written (word : Z -> bytes) f us left :
  (forall u, exists a b, word u = [a; b] /\ f (a, b) = u) -> length left < 2 ->
  map f (fst (chunks2 (flat_map word us ++ left))) = us.
Proof.
  intros Hw Hl. induction us as [|u us IH]; simpl.
  - by destruct left as [|? [|? ?]]; simpl in Hl |- *; try lia.
  - destruct (Hw u) as (a & b & E & Ef). rewrite E. simpl.
    destruct (chunks2 _) as [cs rest]. simpl in IH |- *. by rewrite IH, Ef.
Qed.

Lemma chunks4_written (word : Z -> bytes) f us left :
  (forall u, exists a b c d, word u = [a; b; c; d] /\ f (a, b, c, d) = u) -> length left < 4 ->
  map f (fst (chunks4 (flat_map word us ++ left))) = us.
Proof.
  intros Hw Hl. induction us as [|u us IH]; simpl.
  - by destruct left as [|? [|? [|? [|? ?]]]]; simpl in Hl |- *; try lia.
  - destruct (Hw u) as (a & b & c & d & E & Ef). rewrite E. simpl.
    destruct (chunks4 _) as [cs rest]. simpl in IH |- *. by rewrite IH, Ef.
Qed.

Lemma le16_word u : exists a b, le16 u = [a; b] /\ u16_le (a, b) = u.
Proof. do 2 eexists. split; [reflexivity|]. unfold u16_le. dlia. Qed.
Lemma be16_word u : exists a b, be16 u = [a; b] /\ u16_be (a, b) = u.
Proof. do 2 eexists. split; [reflexivity|]. unfold u16_be. dlia. Qed.
Lemma le32_word u : exists a b c d, le32 u = [a; b; c; d] /\ u32_le (a, b, c, d) = u.
Proof. do 4 eexists. split; [reflexivity|]. apply u32_le_word. Qed.
Lemma be32_word u : exists a b c d, be32 u = [a; b; c; d] /\ u32_be (a, b, c, d) = u.
Proof. do 4 eexists. split; [reflexivity|]. apply u32_le_word. Qed.

(** A payload is its units and a remainder shorter than one. *)
Lemma units2_of (word : Z -> bytes) f payload :
  (forall a b, byte_ok a -> byte_ok b ->
     (0 <= f (a, b) < 65536)%Z /\ word (f (a, b)) = [a; b]) ->
  Forall byte_ok payload ->
  exists us left, payload = flat_map word us ++ left /\ length left < 2 /\
    Forall (fun u => 0 <= u < 65536)%Z us.
Proof.
  intros Hf. remember (length payload) as n eqn:Hn. revert payload Hn.
  induction n as [n IH] using lt_wf_ind. intros l -> Hl.
  destruct l as [|a [|b r]]; [exists [], []; simpl; auto|exists [], [a]; simpl; auto|].
  rewrite !Forall_cons in Hl. destruct Hl as (Ha & Hb & Hr).
  destruct (IH (length r) ltac:(simpl; lia) r eq_refl Hr) as (us & left & -> & Hlen & Hus).
  destruct (Hf a b Ha Hb) as [Hu Ew].
  exists (f (a, b) :: us), left. cbn [flat_map]. rewrite Ew. auto.
Qed.

Lemma units4_of (word : Z -> bytes) f payload :
  (forall a b c d, byte_ok a -> byte_ok b -> byte_ok c -> byte_ok d ->
     (0 <= f (a, b, c, d) <= 4294967295)%Z /\ word (f (a, b, c, d)) = [a; b; c; d]) ->
  Forall byte_ok payload ->
  exists us left, payload = flat_map word us ++ left /\ length left < 4 /\
    Forall (fun u => 0 <= u <= 4294967295)%Z us.
Proof.
  intros Hf. remember (length payload) as n eqn:Hn. revert payload Hn.
  induction n as [n IH] using lt_wf_ind. intros l -> Hl.
  destruct (decide (length l < 4)) as [Hlt|Hge].
  { exists [], l. auto. }
  destruct l as [|a [|b [|c [|d r]]]]; simpl in Hge; try lia.
  rewrite !Forall_cons in Hl. destruct Hl as (Ha & Hb & Hc & Hd & Hr).
  destruct (IH (length r) ltac:(simpl; lia) r eq_refl Hr) as (us & left & -> & Hlen & Hus).
  destruct (Hf a b c d Ha Hb Hc Hd) as [Hu Ew].
  exists (f (a, b, c, d) :: us), left. cbn [flat_map]. rewrite Ew. auto.
Qed.

Lemma pieces_of_words us :
  Forall (fun u => 0 <= u <= 4294967295)%Z us ->
  exists ps, map piece_word ps = us /\ forallb piece_ok32 ps = true.
Proof.
  induction 1 as [|u us Hu _ (ps & <- & Ok)]; [by exists []|].
  destruct (is_scalar u) eqn:E; [exists (Scalar u :: ps)|exists (Broken u :: ps)]; simpl;
    rewrite Ok, E; [done|]. split; [done|]. rewrite andb_true_r. simpl.
  rewrite andb_true_r. apply andb_true_iff. rewrite !Z.leb_le. lia.
Qed.

Lemma from_u32_pieces ps :
  forallb piece_ok32 ps = true ->
  map (fun v => default REPLACEMENT (from_u32 v)) (map piece_word ps) = map shown ps.
Proof.
  induction ps as [|[c|v] ps IH]; [done| |]; simpl; rewrite andb_true_iff; intros [Hp Hok];
    rewrite IH by done; f_equal; unfold from_u32; [by rewrite Hp|].
  apply andb_true_iff in Hp as [_ Hp]. apply negb_true_iff in Hp. by rewrite Hp.
Qed.

(** Every payload is a text and a remainder shorter than a unit... *)
Lemma payload_written e payload :
  Forall byte_ok payload ->
  exists ps left, payload = written e ps ++ left /\ length left < width e /\
    well_written e ps = true.
Proof.
  intros Hp.
  assert (forall word f,
    (forall a b, byte_ok a -> byte_ok b ->
       (0 <= f (a, b) < 65536)%Z /\ word (f (a, b)) = [a; b]) ->
    exists ps left, payload = flat_map word (flat_map piece_units ps) ++ left /\ length left < 2 /\
      forallb piece_ok16 ps && separated ps = true) as H16.
  { intros word f Hf. destruct (units2_of word f payload Hf Hp) as (us & left & -> & Hl & Hus).
    destruct (pieces_of_units us Hus) as (ps & <- & Ok & Sep).
    exists ps, left. by rewrite Ok, Sep. }
  assert (forall word f,
    (forall a b c d, byte_ok a -> byte_ok b -> byte_ok c -> byte_ok d ->
       (0 <= f (a, b, c, d) <= 4294967295)%Z /\ word (f (a, b, c, d)) = [a; b; c; d]) ->
    exists ps left, payload = flat_map word (map piece_word ps) ++ left /\ length left < 4 /\
      forallb piece_ok32 ps = true) as H32.
  { intros word f Hf. destruct (units4_of word f payload Hf Hp) as (us & left & -> & Hl & Hus).
    destruct (pieces_of_words us Hus) as (ps & <- & Ok). by exists ps, left. }
  destruct e; [apply (H16 le16 u16_le)|apply (H16 be16 u16_be)|apply (H32 le32 u32_le)
    |apply (H32 be32 u32_be)]; unfold byte_ok; intros;
    cbv beta iota delta [u16_le u16_be u32_le u32_be le16 be16 le32 be32 rev app];
    (split; [lia|]); repeat (f_equal; [dlia|]); f_equal; dlia.
Qed.

(** ... and decodes to the UTF-8 of that text. *)
Lemma transcode_written e ps left :
  length left < width e -> well_written e ps = true ->
  transcode e (written e ps ++ left) = utf8 (map shown ps).
Proof.
  intros Hl Hw. destruct e; simpl in *; f_equal;
    try (apply andb_true_iff in Hw as [Hok Hsep]).
  - by rewrite (chunks2_written le16 u16_le _ _ le16_word Hl), decode_utf16_pieces.
  - by rewrite (chunks2_written be16 u16_be _ _ be16_word Hl), decode_utf16_pieces.
  - rewrite <- (map_map u32_le (fun v => default REPLACEMENT (from_u32 v))).
    by rewrite (chunks4_written le32 u32_le _ _ le32_word Hl), from_u32_pieces.
  - rewrite <- (map_map u32_be (fun v => default REPLACEMENT (from_u32 v))).
    by rewrite (chunks4_written be32 u32_be _ _ be32_word Hl), from_u32_pieces.
Qed.

Lemma shown_nonempty ps : ps <> [] -> utf8 (map shown ps) <> [].
Proof. destruct ps; [done|]. intros _. apply utf8_nonempty. Qed.

(** A mark names its encoding. *)
Lemma detect_mark e payload :
  unmistaken e payload = true -> detect (mark e ++ payload) = Some (e, length (mark e)).
Proof.
  destruct e; intros H; try done.
  - apply detect_utf16_le. simpl in H. destruct payload as [|x [|y r]]; try done;
      [by destruct x|]. destruct x, y; try done. simpl in H.
    by apply negb_true_iff in H.
  - simpl in *. unfold reads_as_utf32 in H. destruct (chunks4 payload). by rewrite H.
Qed.

(** Without a zero byte and without a mark, detection is left to [guess]. *)
Lemma detect_plain input :
  existsb is_zero input = false ->
  starts_with [255; 254]%Z input = false -> starts_with [254; 255]%Z input = false ->
  detect input = guess input.
Proof.
  intros Hz H1 H2. unfold detect.
  destruct input as [|a r]; [done|]. simpl in Hz, H1, H2.
  apply orb_false_iff in Hz as [Ha _]. unfold is_zero in Ha.
  destruct (decide (a = 255)%Z) as [->|N1]; [|destruct (decide (a = 254)%Z) as [->|N2]].
  - destruct r as [|b r]; [done|]. simpl in *. destruct (decide (b = 254)%Z) as [->|N]; [by vm_compute in H1|].
    repeat (case_match; try done; try lia).
  - destruct r as [|b r]; [done|]. simpl in *. destruct (decide (b = 255)%Z) as [->|N]; [by vm_compute in H2|].
    repeat (case_match; try done; try lia).
  - tobool. repeat (case_match; try done; try lia).
Qed.

(** ** Properties *)

(** The two gates in front of the byte-lane heuristics are pure shortcuts: on
    every input [guess] answers exactly what the heuristics alone answer. *)
Theorem zero_density_gate_exact input : guess input = original_guess input.
Proof.
  unfold guess, original_guess.
  destruct (length input <? 8) eqn:E8; [done|].
  destruct (length input mod 2 =? 0) eqn:E2; [|done]. cbn [orb negb]. tobool.
  destruct (guess_lanes input) as [found|] eqn:Eg; [|by repeat case_match].
  assert (minimum_zeros input <= zeros input) as Hmin.
  { apply minimum_zeros_bound, guess_lanes_dense; [done|by rewrite Eg]. }
  assert (0 < minimum_zeros input) as Hpos by (unfold minimum_zeros; dlia).
  rewrite zeros_positive by lia. simpl.
  destruct (zeros input <? _) eqn:E; tobool; [lia|done].
Qed.

(** A byte-order mark and the UTF-16 or UTF-32 encoding of any nonempty
    sequence of Unicode scalar values, in either byte order, decode to the UTF-8
    encoding of the same sequence. Little-endian UTF-16 text that starts with a
    NUL shares its prefix with the UTF-32 mark: it is read as UTF-16 unless its
    remaining bytes are complete, valid UTF-32. *)
Theorem bom_decode_roundtrip cs :
  Forall (fun c => is_scalar c = true) cs -> cs <> [] ->
  decode ([254; 255]%Z ++ encode_utf16 be16 cs) = Some (utf8 cs) /\
  decode ([255; 254; 0; 0]%Z ++ encode_utf32 le32 cs) = Some (utf8 cs) /\
  decode ([0; 0; 254; 255]%Z ++ encode_utf32 be32 cs) = Some (utf8 cs) /\
  (match cs with 0%Z :: r => reads_as_utf32 (encode_utf16 le16 r) = false | _ => True end ->
   decode ([255; 254]%Z ++ encode_utf16 le16 cs) = Some (utf8 cs)).
Proof.
  intros Hcs Hne.
  assert (utf8 cs <> []) as Hu by (by apply utf8_cs_nonempty).
  unfold decode. split; [|split; [|split]].
  - change (detect _) with (Some (Utf16Be, 2)). cbv iota beta.
    change (drop 2 _) with (encode_utf16 be16 cs).
    rewrite transcode_utf16_be by done. by apply some_nonempty.
  - assert (detect ([255; 254; 0; 0]%Z ++ encode_utf32 le32 cs) = Some (Utf32Le, 4)) as ->.
    { simpl. pose proof (reads_as_utf32_words cs Hcs) as Hr. unfold reads_as_utf32 in Hr.
      destruct (chunks4 _) as [ch rem]. by rewrite Hr. }
    change (drop 4 _) with (encode_utf32 le32 cs).
    rewrite transcode_utf32_le by done. by apply some_nonempty.
  - change (detect _) with (Some (Utf32Be, 4)). cbv iota beta.
    change (drop 4 _) with (encode_utf32 be32 cs).
    rewrite transcode_utf32_be by done. by apply some_nonempty.
  - intros Hnul. change ([255; 254]%Z ++ ?p) with (255 :: 254 :: p)%Z.
    rewrite detect_utf16_le.
    { change (drop 2 _) with (encode_utf16 le16 cs).
      rewrite transcode_utf16_le by done. by apply some_nonempty. }
    destruct cs as [|c r]; [done|]. inversion Hcs as [|? ? Hc Hr]; subst.
    apply is_scalar_bounds in Hc. unfold encode_utf16; simpl. unfold units_of at 1.
    destruct (c <? 65536)%Z eqn:E; tobool; simpl.
    + destruct (c mod 256)%Z eqn:E1; try done. destruct (c / 256)%Z eqn:E2; try done.
      assert (c = 0)%Z as -> by dlia. exact Hnul.
    + destruct ((55296 + (c - 65536) / 1024) mod 256)%Z eqn:E1; try done.
      destruct ((55296 + (c - 65536) / 1024) / 256)%Z eqn:E2; try done. exfalso. dlia.
Qed.

Lemma bom_decode_roundtrip_witness :
  decode ([255; 254]%Z ++ encode_utf16 le16 [128273; 65]%Z) = Some (utf8 [128273; 65]%Z).
Proof.
  apply bom_decode_roundtrip.
  - repeat constructor.
  - discriminate.
  - exact I.
Defined.

(** C35. What [decode] answers, for every input of bytes and against the encoder's
    side of the standard codecs. An input in no recognised encoding is left alone.
    An input detected as [e] is, after its mark, one text in [e] and a remainder
    shorter than a unit; the text is a sequence of Unicode scalar values and of
    units that are none (a surrogate whose other half is not beside it, a UTF-32
    word outside the scalar values), and the answer is the UTF-8 of the sequence
    with U+FFFD for each of those units and every scalar value kept, in order; an
    empty text is no answer. That reading is the only one: any text of which the
    payload is the encoding gives the answer. A byte-order mark selects its
    encoding (little-endian UTF-16 shares its mark with UTF-32, which is preferred
    when the payload is complete and valid); without one the heuristics decide,
    and never for an input with no zero byte. *)
Theorem decode_exact input :
  Forall byte_ok input ->
  (detect input = None -> decode input = None) /\
  (forall e start, detect input = Some (e, start) ->
     exists ps left, drop start input = written e ps ++ left /\ length left < width e /\
       well_written e ps = true) /\
  (forall e start ps left, detect input = Some (e, start) ->
     drop start input = written e ps ++ left -> length left < width e ->
     well_written e ps = true ->
     decode input = if decide (ps = []) then None else Some (utf8 (map shown ps))) /\
  (forall e payload, input = mark e ++ payload -> unmistaken e payload = true ->
     detect input = Some (e, length (mark e))) /\
  (existsb is_zero input = false ->
   starts_with [255; 254]%Z input = false -> starts_with [254; 255]%Z input = false ->
   detect input = None).
Proof.
  intros Hok. split; [|split; [|split; [|split]]].
  - intros Hd. unfold decode. by rewrite Hd.
  - intros e start _. by apply payload_written, Forall_drop.
  - intros e start ps left Hd Hp Hl Hw. unfold decode. rewrite Hd, Hp.
    rewrite transcode_written by done. case_decide as Eps; [by subst ps|].
    apply some_nonempty. by apply shown_nonempty.
  - intros e payload -> H. by apply detect_mark.
  - intros Hz H1 H2. rewrite detect_plain by done.
    unfold guess. rewrite Hz. simpl. by rewrite orb_true_r.
Qed.

(** The surrogates of the module's own test: DC00, A, D800, B, D800 after the mark
    of UTF-16, and the odd byte that is left. *)
Lemma decode_exact_witness :
  let input := [255; 254; 0; 220; 65; 0; 0; 216; 66; 0; 0; 216; 7]%Z in
  let text := [Broken 56320; Scalar 65; Broken 55296; Scalar 66; Broken 55296]%Z in
  detect input = Some (Utf16Le, 2) /\
  decode input = Some (utf8 [65533; 65; 65533; 66; 65533]%Z) /\
  detect (bs "plain text") = None.
Proof.
  intros input text. destruct (decode_exact input) as (_ & _ & Hd & Hm & _);
    [repeat constructor; discriminate|].
  assert (detect input = Some (Utf16Le, 2)) as E.
  { apply (Hm Utf16Le (drop 2 input)); reflexivity. }
  split; [exact E|]. split.
  - exact (Hd Utf16Le 2 text [7]%Z E eq_refl ltac:(simpl; lia) eq_refl).
  - apply decode_exact; try reflexivity. repeat constructor; discriminate.
Defined.
