(* ===== verification/Control.v ===== *)
(** * Scan control and resource limits:
      [kingfisher-scanner/src/scan_control.rs] and [.../archive/limits.rs]

    A controlled operation runs in [Ctl]: it reads a clock of observations (the
    cancellation flag and the monotonic time, one observation per [check]) and
    either answers or stops with [ScanAborted]. [refines c m p] is what every
    controlled operation [m] of the other files promises about its result [p]:
    whatever the clock does, the answer is exactly [p] or an abort, and an abort
    needs a control that sets a limit. *)

From Stdlib Require Import ZArith Lia Bool.
From stdpp Require Import base list.
From S2P Require Import Prelude.

Inductive ScanAborted := Cancelled | TimedOut.

#[export] Instance ScanAborted_eq_dec : EqDecision ScanAborted.
Proof. solve_decision. Defined.

(** The deadline, and whether a cancellation token is attached; the token's
    state is part of the observations. *)
Record ScanControl := { deadline : option Z; cancellation : bool }.

Definition control_default : ScanControl := {| deadline := None; cancellation := false |}.
Definition with_deadline (c : ScanControl) (d : Z) : ScanControl :=
  {| deadline := Some d; cancellation := cancellation c |}.
Definition with_cancellation (c : ScanControl) : ScanControl :=
  {| deadline := deadline c; cancellation := true |}.
Definition is_limited (c : ScanControl) : bool :=
  match deadline c with Some _ => true | None => false end || cancellation c.

(** What one [check] sees: [token.is_cancelled()] and [Instant::now()]. *)
Record Observation := { is_cancelled : bool; now : Z }.
Definition Clock := nat -> Observation.

(** A controlled computation: from the clock and the number of checks made so
    far to an answer or an abort, and the number of checks made. *)
Definition Ctl (A : Type) : Type := Clock -> nat -> (A + ScanAborted) * nat.

Definition ret {A} (a : A) : Ctl A := fun _ n => (inl a, n).
Definition bind {A B} (m : Ctl A) (f : A -> Ctl B) : Ctl B := fun clock n =>
  match m clock n with
  | (inl a, n') => f a clock n'
  | (inr e, n') => (inr e, n')
  end.

Declare Scope ctl_scope.
Delimit Scope ctl_scope with ctl.
Notation "'let!' x ':=' m 'in' k" := (bind m (fun x => k))
  (at level 10, x name, m at level 100, k at level 200) : ctl_scope.
Notation "m ';;!' k" := (bind m (fun _ => k)) (at level 199, right associativity) : ctl_scope.
Open Scope ctl_scope.

Definition check_at (c : ScanControl) (o : Observation) : option ScanAborted :=
  if cancellation c && is_cancelled o then Some Cancelled
  else if match deadline c with Some d => (d <=? now o)%Z | None => false end then Some TimedOut
  else None.

Definition check (c : ScanControl) : Ctl unit := fun clock n =>
  match check_at c (clock n) with
  | Some e => (inr e, S n)
  | None => (inl tt, S n)
  end.

(** [if CHECK { control.check()? }] *)
Definition check_if (b : bool) (c : ScanControl) : Ctl unit := if b then check c else ret tt.

(** [for x in l { .. }] over a state. *)
Fixpoint for_each {A S} (l : list A) (body : A -> S -> Ctl S) (s : S) : Ctl S :=
  match l with
  | [] => ret s
  | x :: r => let! s := body x s in for_each r body s
  end.

(** The answer of a computation whose [Result] the caller [expect]s to be [Ok]. *)
Definition expect {A} (d : A) (m : Ctl A) (clock : Clock) : A :=
  match fst (m clock 0) with inl a => a | inr _ => d end.

(** ** Refinement of a pure result *)

Definition refines {A} (c : ScanControl) (m : Ctl A) (p : A) : Prop :=
  forall clock n, let r := fst (m clock n) in
    r = inl p \/ (is_limited c = true /\ exists e, r = inr e).

Section refines.
Context (c : ScanControl).

Lemma refines_ret {A} (a : A) : refines c (ret a) a.
Proof. intros clock n. by left. Qed.

Lemma refines_bind {A B} (m : Ctl A) (f : A -> Ctl B) a b :
  refines c m a -> refines c (f a) b -> refines c (bind m f) b.
Proof.
  intros Hm Hf clock n. unfold bind. specialize (Hm clock n).
  destruct (m clock n) as [[x|e] n'] eqn:E; simpl in Hm.
  - destruct Hm as [Hm|(_ & e & ?)]; [|done]. injection Hm as ->. apply Hf.
  - destruct Hm as [?|(Hl & _)]; [done|]. right. eauto.
Qed.

Lemma refines_check : refines c (check c) tt.
Proof.
  intros clock n. unfold check, check_at.
  destruct (cancellation c && is_cancelled (clock n)) eqn:E1.
  - tobool. right. unfold is_limited. rewrite H, orb_true_r. eauto.
  - destruct (deadline c) as [d|] eqn:Ed; [|by left].
    destruct (d <=? now (clock n))%Z; [|by left]. right. unfold is_limited. rewrite Ed. eauto.
Qed.

Lemma refines_check_if b : refines c (check_if b c) tt.
Proof. destruct b; [apply refines_check|apply refines_ret]. Qed.

Lemma refines_for_each {A S} (l : list A) (body : A -> S -> Ctl S) (p : S -> A -> S) :
  (forall x s, In x l -> refines c (body x s) (p s x)) ->
  forall s, refines c (for_each l body s) (fold_left p l s).
Proof.
  induction l as [|x l IH]; intros H s; simpl; [apply refines_ret|].
  eapply refines_bind; [apply H; by left|]. apply IH. intros; apply H; by right.
Qed.

Lemma refines_if {A} (b : bool) (m1 m2 : Ctl A) p1 p2 :
  (b = true -> refines c m1 p1) -> (b = false -> refines c m2 p2) ->
  refines c (if b then m1 else m2) (if b then p1 else p2).
Proof. destruct b; auto. Qed.
End refines.

Lemma refines_expect {A} (d p : A) m clock :
  refines control_default m p -> expect d m clock = p.
Proof.
  intros H. unfold expect. destruct (H clock 0) as [->|[? _]]; done.
Qed.

(** ** Satisfaction of a postcondition *)

(** Whatever the clock does, the answer satisfies [Q], or the control is limited
    and the computation aborts. *)
Definition csat {A} (control : ScanControl) (m : Ctl A) (Q : A -> Prop) : Prop :=
  forall clock n, match fst (m clock n) with inl a => Q a | inr _ => is_limited control = true end.

Section csat.
Context (control : ScanControl).

Lemma csat_ret {A} (a : A) (Q : A -> Prop) : Q a -> csat control (ret a) Q.
Proof. intros H clock n. exact H. Qed.

Lemma csat_bind {A B} (m : Ctl A) (k : A -> Ctl B) (P : A -> Prop) (Q : B -> Prop) :
  csat control m P -> (forall a, P a -> csat control (k a) Q) -> csat control (bind m k) Q.
Proof.
  intros Hm Hk clock n. unfold bind. specialize (Hm clock n).
  destruct (m clock n) as [[a|e] n']; cbn in *; [by apply Hk|done].
Qed.

Lemma csat_refines {A} (m : Ctl A) p (Q : A -> Prop) : refines control m p -> Q p -> csat control m Q.
Proof.
  intros Hm HQ clock n. destruct (Hm clock n) as [E|[Hl [e E]]]; by rewrite E.
Qed.

Lemma csat_check (Q : unit -> Prop) : Q tt -> csat control (check control) Q.
Proof. apply csat_refines, refines_check. Qed.

Lemma csat_weaken {A} (m : Ctl A) (P Q : A -> Prop) :
  csat control m P -> (forall a, P a -> Q a) -> csat control m Q.
Proof. intros Hm H clock n. specialize (Hm clock n). destruct (fst _); auto. Qed.
End csat.

#[export] Hint Resolve refines_ret refines_check refines_check_if : kf.

(** One step of a refinement proof: run the checks, then the next action. *)
Ltac ctl_step :=
  first [ apply refines_ret
        | eapply refines_bind; [solve [eauto with kf]|]; cbv beta
        | solve [eauto with kf] ].

(** ** Resource limits *)

Record ResourceLimits := { unlimited : bool }.

Definition limits_default : ResourceLimits := {| unlimited := false |}.

Section limits.
Variable r : ResourceLimits.
Definition limit {T} (d : T) : option T := if unlimited r then None else Some d.
Definition reached (value lim : Z) : bool := negb (unlimited r) && (lim <=? value)%Z.
Definition exceeds (value lim : Z) : bool := negb (unlimited r) && (lim <? value)%Z.
Definition cap (value lim : Z) : Z := if unlimited r then value else Z.min value lim.
End limits.

(** [LimitedReader::read] over an inner reader that fills [n] of the bytes it is
    offered: the remaining budget after the read. *)
Record LimitedReader := { remaining : option Z }.
Definition reader (r : ResourceLimits) (lim : Z) : LimitedReader := {| remaining := limit r lim |}.
Definition read_count (lr : LimitedReader) (buffer_len : Z) : Z :=
  match remaining lr with Some n => Z.min n buffer_len | None => buffer_len end.
Definition limited_read (inner : Z -> Z) (lr : LimitedReader) (buffer_len : Z) : Z * LimitedReader :=
  let n := inner (read_count lr buffer_len) in
  (n, {| remaining := match remaining lr with Some k => Some (k - n)%Z | None => None end |}).

(** ** Properties *)

(** A cancellation is permanent and a passed deadline stays passed: with a
    monotone clock, once a check aborts every later check aborts, cancellation
    is reported in preference to the deadline, and a control without limits
    never aborts. *)
Theorem check_abort_permanent c (clock : Clock) :
  (forall i j, i <= j -> (now (clock i) <= now (clock j))%Z) ->
  (forall i j, i <= j -> is_cancelled (clock i) = true -> is_cancelled (clock j) = true) ->
  (forall i j, i <= j -> check_at c (clock i) <> None -> check_at c (clock j) <> None) /\
  (forall i, cancellation c = true -> is_cancelled (clock i) = true ->
     check_at c (clock i) = Some Cancelled) /\
  (is_limited c = false -> forall i, check_at c (clock i) = None).
Proof.
  intros Hnow Hcan. split; [|split].
  - intros i j Hij. unfold check_at. specialize (Hnow i j Hij). specialize (Hcan i j Hij).
    destruct (cancellation c), (is_cancelled (clock i)), (is_cancelled (clock j)), (deadline c) as [d|];
      simpl; try done; try (by specialize (Hcan eq_refl));
      destruct (d <=? now (clock i))%Z eqn:E1, (d <=? now (clock j))%Z eqn:E2; tobool; try done; lia.
  - intros i Hc Hi. unfold check_at. by rewrite Hc, Hi.
  - unfold is_limited, check_at. intros H i. destruct (deadline c); [done|].
    simpl in H. by rewrite H.
Qed.

Lemma check_abort_permanent_witness :
  check_at (with_deadline control_default 2) {| is_cancelled := false; now := Z.of_nat 5 |} <> None.
Proof.
  apply (proj1 (check_abort_permanent (with_deadline control_default 2)
    (fun i => {| is_cancelled := false; now := Z.of_nat i |})
    ltac:(simpl; lia) ltac:(done)) 3 5); [lia|]. vm_compute. discriminate.
Defined.

(** A sequence of reads of the limited reader. *)
Fixpoint read_all (inner : Z -> Z) (lr : LimitedReader) (buffers : list Z) : Z * LimitedReader :=
  match buffers with
  | [] => (0%Z, lr)
  | b :: r => let '(n, lr') := limited_read inner lr b in
              let '(m, lr'') := read_all inner lr' r in ((n + m)%Z, lr'')
  end.

(** Whatever buffers the caller offers, a limited reader over a well-behaved
    inner reader never hands out more than its limit in total, and its budget
    never goes below zero; without a limit it offers the whole buffer. *)
Theorem limited_reader_bound inner lim buffers :
  (forall n, 0 <= n -> 0 <= inner n <= n)%Z -> (0 <= lim)%Z -> Forall (fun b => 0 <= b)%Z buffers ->
  (let '(total, lr) := read_all inner (reader limits_default lim) buffers in
   (0 <= total <= lim)%Z /\ remaining lr = Some (lim - total)%Z) /\
  (forall b, read_count (reader {| unlimited := true |} lim) b = b).
Proof.
  intros Hin Hlim Hb. split; [|done]. change (reader limits_default lim) with {| remaining := Some lim |}.
  revert lim Hlim. induction Hb as [|b bs Hb _ IH]; intros lim Hlim; simpl.
  - split; [lia|]. f_equal. lia.
  - unfold read_count; simpl. specialize (Hin (Z.min lim b) ltac:(lia)).
    set (n := inner _) in *. specialize (IH (lim - n)%Z ltac:(lia)).
    destruct (read_all _ _ _) as [total lr]. destruct IH as [IH1 IH2].
    split; [lia|]. rewrite IH2. f_equal. lia.
Qed.

Lemma limited_reader_bound_witness :
  fst (read_all (fun n => n) (reader limits_default 10) [4; 4; 4]%Z) = 10%Z.
Proof.
  destruct (limited_reader_bound (fun n => n) 10 [4; 4; 4]%Z) as [H _].
  - intros; lia.
  - lia.
  - repeat constructor; discriminate.
  - reflexivity.
Defined.
