(* ===== verification/Spans.v ===== *)
(** * Matching primitives: [kingfisher-scanner/src/primitives.rs]

    Base64 window detection, the two span trackers that drop redundant matches
    ([insert_span], the legacy sorted vector, and [MatchSpans], the ordered map
    of the hot path), the candidate index trigger, the endpoint search that
    decides whether a confirmation window must widen, and the choice of the
    secret capture. Base64 codecs and regexes are third-party code: they are
    parameters, with the documented behaviour the code relies on as hypotheses. *)

From Stdlib Require Import ZArith Lia Bool.
From stdpp Require Import base list.
From S2P Require Import Prelude Control Location.

(** ** Base64 windows *)

Definition is_base64_byte (b : byte) : bool :=
  is_ascii_upper b || is_ascii_lower b || is_ascii_digit b ||
  (b ==? 43) || (b ==? 47) || (b ==? 45) || (b ==? 95).

Record DecodedData := mkDecoded { decoded : bytes; pos_start : nat; pos_end : nat }.

Definition is_ascii (l : bytes) : bool := forallb (fun b => b <? 128)%Z l.

Section base64.
(** [general_purpose::STANDARD], [URL_SAFE] and [URL_SAFE_NO_PAD]. *)
Variables standard url_safe url_safe_no_pad : bytes -> option bytes.
Variable CHECK : bool.
Variable control : ScanControl.

Definition try_decode (window : bytes) : option bytes :=
  match standard window with
  | Some d => Some d
  | None => match url_safe window with
            | Some d => Some d
            | None => url_safe_no_pad window
            end
  end.

(** [while i < input.len() && p(input[i]) { if CHECK && i % 65536 == 0 { check }; i += 1 }],
    over the bytes from [i] on. *)
Fixpoint scan_while (p : byte -> bool) (rest : bytes) (i : nat) : Ctl nat :=
  match rest with
  | b :: r =>
      if p b then
        check_if (CHECK && (Z.of_nat i mod 65536 =? 0)%Z) control ;;! scan_while p r (S i)
      else ret i
  | [] => ret i
  end.

(** [while i < input.len() && input[i] == b'=' && eq_count < 2] *)
Definition count_eq (rest : bytes) : nat :=
  match rest with
  | 61%Z :: 61%Z :: _ => 2
  | 61%Z :: _ => 1
  | _ => 0
  end.

Definition window_result (input : bytes) (start stop : nat) : list DecodedData :=
  let len := stop - start in
  if (32 <=? len) && (len mod 4 =? 0) then
    match try_decode (slice input start stop) with
    | Some d => if is_ascii d then [mkDecoded d start stop] else []
    | None => []
    end
  else [].

(** One iteration of the outer loop starts at [i]; [results] is the vector. *)
Fixpoint base64_loop (fuel : nat) (input : bytes) (i : nat) (results : list DecodedData)
  : Ctl (list DecodedData) :=
  if i <? length input then
    match fuel with
    | 0 => ret results
    | S fuel =>
        check_if CHECK control ;;!
        let! start := scan_while (fun b => negb (is_base64_byte b)) (drop i input) i in
        let! i := scan_while is_base64_byte (drop start input) start in
        let stop := i + count_eq (drop i input) in
        base64_loop fuel input stop (results ++ window_result input start stop)
    end
  else ret results.

Definition get_base64_strings_impl (input : bytes) : Ctl (list DecodedData) :=
  let! results := base64_loop (length input) input 0 [] in
  check_if CHECK control ;;! ret results.
End base64.

Definition get_base64_strings_with_control std url nopad (input : bytes) (control : ScanControl) :=
  if is_limited control then get_base64_strings_impl std url nopad true control input
  else get_base64_strings_impl std url nopad false control input.

Definition get_base64_strings std url nopad (input : bytes) (clock : Clock) : list DecodedData :=
  expect [] (get_base64_strings_with_control std url nopad input control_default) clock.

(** ** The legacy span tracker *)

(** [binary_search_by] on the strictly increasing starts finds the first span
    whose start is not below the new one, whether or not it is equal. *)
Definition insert_span (spans : list OffsetSpan) (span : OffsetSpan) : list OffsetSpan * bool :=
  let idx := partition_point (fun s => span_start s <? span_start span) spans in
  let redundant_before :=
    match idx with
    | 0 => false
    | S k => match spans !! k with Some s => fully_contains s span | None => false end
    end in
  if redundant_before then (spans, false)
  else
    let '(spans, idx) :=
      match idx with
      | 0 => (spans, 0)
      | S k => match spans !! k with
               | Some s => if fully_contains span s then (delete k spans, k) else (spans, S k)
               | None => (spans, S k)
               end
      end in
    match spans !! idx with
    | Some s =>
        if fully_contains s span then (spans, false)
        else
          let spans := if fully_contains span s then delete idx spans else spans in
          (take idx spans ++ span :: drop idx spans, true)
    | None => (take idx spans ++ span :: drop idx spans, true)
    end.

(** ** The ordered span tracker *)

(** [BTreeMap<usize, usize>]: the entries in key order. *)
Definition MatchSpans := list (nat * nat).

(** [range(..).next_back()]: the last entry whose key satisfies a lower set. *)
Definition last_key (p : nat -> bool) (m : MatchSpans) : option (nat * nat) :=
  last (List.filter (fun e => p (fst e)) m).
(** [range(from..).next()] *)
Definition first_from (from : nat) (m : MatchSpans) : option (nat * nat) :=
  head (List.filter (fun e => from <=? fst e) m).
Definition map_remove (k : nat) (m : MatchSpans) : MatchSpans :=
  List.filter (fun e => negb (fst e =? k)) m.
Definition map_insert (k v : nat) (m : MatchSpans) : MatchSpans :=
  List.filter (fun e => fst e <? k) m ++ (k, v) :: List.filter (fun e => k <? fst e) m.

Definition contains_end (m : MatchSpans) (stop : nat) : bool :=
  match last_key (fun k => k <? stop) m with
  | Some (_, previous_end) => stop <=? previous_end
  | None => false
  end.

(** [while let Some((start, end)) = range(span.start..).next() { .. remove .. }] *)
Fixpoint remove_covered (fuel : nat) (m : MatchSpans) (span : OffsetSpan) : MatchSpans :=
  match fuel with
  | 0 => m
  | S fuel =>
      match first_from (span_start span) m with
      | Some (start, stop) =>
          if span_end span <? stop then m else remove_covered fuel (map_remove start m) span
      | None => m
      end
  end.

Definition spans_insert (m : MatchSpans) (span : OffsetSpan) : MatchSpans * bool :=
  if match last_key (fun k => k <=? span_start span) m with
     | Some (_, stop) => span_end span <=? stop
     | None => false
     end
  then (m, false)
  else
    let m := remove_covered (length m) m span in
    (map_insert (span_start span) (span_end span) m, true).

(** A sequence of [insert]s into a fresh tracker, with the answers. *)
Fixpoint insert_all (m : MatchSpans) (spans : list OffsetSpan) : MatchSpans * list bool :=
  match spans with
  | [] => (m, [])
  | s :: r => let '(m, b) := spans_insert m s in
              let '(m, bs) := insert_all m r in (m, b :: bs)
  end.

(** ** When to index a candidate *)

Section cache.
Context {Index : Type}.
Record CandidateMatchCache := { candidates : Z; index : option Index }.
Definition cache_default : CandidateMatchCache := {| candidates := 0; index := None |}.

(** [get_or_try_insert_with]: the builder runs only when the code calls it. *)
Definition get_or_try_insert_with {E} (c : CandidateMatchCache) (indexed_bytes window_bytes : Z)
  (build : unit -> Index + E) : CandidateMatchCache * (option Index + E) :=
  let n := saturating_add (candidates c) 1 in
  match index c with
  | None =>
      if (16 <=? n)%Z && (indexed_bytes <=? saturating_mul n window_bytes)%Z then
        match build tt with
        | inl ix => ({| candidates := n; index := Some ix |}, inl (Some ix))
        | inr e => ({| candidates := n; index := None |}, inr e)
        end
      else ({| candidates := n; index := None |}, inl None)
  | Some ix => ({| candidates := n; index := Some ix |}, inl (Some ix))
  end.
End cache.
Arguments CandidateMatchCache : clear implicits.

(** ** Widening a confirmation window *)

Definition MAX_UTF8_CHAR_LEN : Z := 4.

Section confirmation.
(** [regex.find_at(haystack, position)]: the leftmost match starting at or
    after a position, as a (start, end) pair. *)
Variable find_at : nat -> option (nat * nat).
Variable haystack_len : nat.

Fixpoint endpoint_loop (fuel position : nat) : bool :=
  match fuel with
  | 0 => false
  | S fuel =>
      match find_at position with
      | Some (found_start, found_end) =>
          if found_end =? haystack_len then true else endpoint_loop fuel (found_start + 1)
      | None => false
      end
  end.

(** The cached verdict, and the verdict. [usize::saturating_add] on the bound. *)
Definition bounded_endpoint_can_match (maximum : Z) (endpoint_match : option bool)
  : option bool * bool :=
  if (Z.of_nat haystack_len <=? saturating_add maximum MAX_UTF8_CHAR_LEN)%Z
  then (endpoint_match, true)
  else match endpoint_match with
       | Some v => (Some v, v)
       | None =>
           let v := endpoint_loop (S haystack_len) (haystack_len - Z.to_nat maximum) in
           (Some v, v)
       end.

Definition confirmation_needs_wider_window (maximum_len : option Z) (confirmed : bool)
  (window_start : nat) (endpoint_match : option bool) : option bool * bool :=
  if confirmed || (window_start =? 0) then (endpoint_match, false)
  else match maximum_len with
       | None => (endpoint_match, true)
       | Some maximum => bounded_endpoint_can_match maximum endpoint_match
       end.
End confirmation.

(** ** Choosing the secret capture *)

Section captures.
(** Group 0 always matched; the other groups have a name or not, and matched
    or not, in index order. *)
Record Captures := {
  group0 : OffsetSpan;
  groups : list (option bytes * option OffsetSpan);
}.

Definition eq_ignore_ascii_case (a b : bytes) : bool :=
  bytes_eqb (map to_ascii_lowercase a) (map to_ascii_lowercase b).

(** [find_map] *)
Fixpoint find_map {A B} (f : A -> option B) (l : list A) : option B :=
  match l with
  | [] => None
  | x :: r => match f x with Some y => Some y | None => find_map f r end
  end.

Definition find_secret_capture (c : Captures) : OffsetSpan :=
  match find_map (fun '(name, m) =>
          match name with
          | Some n => if eq_ignore_ascii_case n (bs "TOKEN") then m else None
          | None => None
          end) (groups c) with
  | Some m => m
  | None =>
      match find_map (fun '(name, m) => match name with Some _ => m | None => None end) (groups c) with
      | Some m => m
      | None => match groups c with
                | (_, Some m) :: _ => m
                | _ => group0 c
                end
      end
  end.

(** [captures.get(index)] *)
Definition capture_get (c : Captures) (i : nat) : option OffsetSpan :=
  match i with
  | 0 => Some (group0 c)
  | S k => match groups c !! k with Some (_, m) => m | None => None end
  end.

Definition find_secret_capture_with_group (c : Captures) (secret_group : option nat) : OffsetSpan :=
  match secret_group with
  | None => find_secret_capture c
  | Some 0 =>
      default (group0 c)
        (find_map (fun '(_, m) =>
           match m with Some s => if span_is_empty s then None else Some s | None => None end)
           (groups c))
  | Some g => default (group0 c) (capture_get c g)
  end.
End captures.

(** [compute_finding_fingerprint]: the bytes handed to the 64-bit hash. *)
Section fingerprint.
Variable xxh3_64 : bytes -> Z.
Fixpoint to_le_bytes (n : nat) (v : Z) : bytes :=
  match n with 0 => [] | S n => (v mod 256)%Z :: to_le_bytes n (v / 256)%Z end.
Definition fingerprint_input (finding_value file_or_commit : bytes) (offset_start offset_end : Z)
  : bytes :=
  finding_value ++ file_or_commit ++ to_le_bytes 8 offset_start ++ to_le_bytes 8 offset_end.
Definition compute_finding_fingerprint finding_value file_or_commit offset_start offset_end : Z :=
  xxh3_64 (fingerprint_input finding_value file_or_commit offset_start offset_end).
End fingerprint.

(** ** Base64 windows: lemmas *)

Fixpoint run (p : byte -> bool) (l : bytes) : nat :=
  match l with b :: r => if p b then S (run p r) else 0 | [] => 0 end.

(** A byte of the input that is in the Base64 alphabet. *)
Definition b64_at (input : bytes) (i : nat) : bool :=
  match input !! i with Some b => is_base64_byte b | None => false end.

(** A maximal run [s, e) of alphabet bytes, and the window it gives: the run and
    at most two ['='] after it. *)
Definition maximal_run (input : bytes) (s e : nat) : Prop :=
  s < e /\ e <= length input /\ (forall i, s <= i < e -> b64_at input i = true) /\
  (s = 0 \/ b64_at input (s - 1) = false) /\ b64_at input e = false.

Lemma run_le p l : run p l <= length l.
Proof. induction l as [|b l IH]; simpl; [lia|]. destruct (p b); lia. Qed.

Lemma run_prefix p l i b : i < run p l -> l !! i = Some b -> p b = true.
Proof.
  revert i; induction l as [|c l IH]; intros i Hi Hb; simpl in *; [lia|].
  destruct (p c) eqn:E; [|lia]. destruct i; simplify_eq/=; [done|]. eapply IH; [|done]. lia.
Qed.

Lemma run_stop p l b : l !! run p l = Some b -> p b = false.
Proof.
  induction l as [|c l IH]; simpl; [done|]. destruct (p c) eqn:E; simpl; [apply IH|].
  intros; by simplify_eq.
Qed.

Lemma count_eq_spec rest :
  count_eq rest <= 2 /\ forall i, i < count_eq rest -> rest !! i = Some 61%Z.
Proof.
  unfold count_eq. repeat case_match; (split; [lia|]); intros [|[|i]] ?; simpl; done || lia.
Qed.

Definition run_end (input : bytes) (s : nat) : nat := s + run is_base64_byte (drop s input).
Definition window_end (input : bytes) (s : nat) : nat :=
  run_end input s + count_eq (drop (run_end input s) input).
Definition run_start (input : bytes) (s : nat) : bool :=
  b64_at input s && ((s =? 0) || negb (b64_at input (s - 1))).

Lemma b64_run input s i :
  s <= i < run_end input s -> b64_at input i = true.
Proof.
  unfold run_end, b64_at. intros Hi.
  pose proof (run_le is_base64_byte (drop s input)) as Hle. rewrite length_drop in Hle.
  destruct (input !! i) as [b|] eqn:E.
  - eapply run_prefix; [|rewrite lookup_drop; by replace (s + (i - s)) with i by lia]. lia.
  - apply lookup_ge_None in E. lia.
Qed.

Lemma b64_run_end input s : b64_at input (run_end input s) = false.
Proof.
  unfold run_end, b64_at. destruct (input !! _) as [b|] eqn:E; [|done].
  eapply run_stop. by rewrite lookup_drop.
Qed.

Lemma run_end_le input s : s <= length input -> run_end input s <= length input.
Proof.
  intros Hs. unfold run_end. pose proof (run_le is_base64_byte (drop s input)) as H.
  rewrite length_drop in H. lia.
Qed.

Lemma b64_eq input s i :
  run_end input s <= i < window_end input s -> b64_at input i = false /\ i < length input.
Proof.
  unfold window_end. intros Hi.
  destruct (count_eq_spec (drop (run_end input s) input)) as [_ Heq].
  specialize (Heq (i - run_end input s) ltac:(lia)). rewrite lookup_drop in Heq.
  replace (run_end input s + (i - run_end input s)) with i in Heq by lia.
  unfold b64_at. rewrite Heq. split; [done|]. by eapply lookup_lt_Some.
Qed.

(** Before each iteration, no run straddles the position. *)
Definition at_boundary (input : bytes) (i : nat) : Prop :=
  i = 0 \/ b64_at input (i - 1) = false \/ b64_at input i = false.

Lemma window_end_boundary input s : at_boundary input (window_end input s).
Proof.
  unfold at_boundary. destruct (decide (window_end input s = run_end input s)) as [->|Hne].
  - right; right. apply b64_run_end.
  - right; left. apply (b64_eq input s). unfold window_end in *. lia.
Qed.

Lemma not64_skip input i :
  let start := i + run (fun b => negb (is_base64_byte b)) (drop i input) in
  (forall k, i <= k < start -> b64_at input k = false) /\
  (start < length input -> b64_at input start = true).
Proof.
  cbv zeta. split.
  - intros k Hk. unfold b64_at. destruct (input !! k) as [b|] eqn:E; [|done].
    apply negb_true_iff. apply (run_prefix (fun b => negb (is_base64_byte b)) (drop i input) (k - i)); [lia|].
    rewrite lookup_drop. by replace (i + (k - i)) with k by lia.
  - intros Hlt. unfold b64_at. apply lookup_lt_is_Some in Hlt as [b Hb]. rewrite Hb.
    apply negb_false_iff. apply (run_stop (fun b => negb (is_base64_byte b)) (drop i input)).
    by rewrite lookup_drop.
Qed.

Lemma run_end_maximal input s e :
  maximal_run input s e -> run_start input s = true /\ e = run_end input s.
Proof.
  intros (Hse & Hle & Hin & Hl & Hr). split.
  - unfold run_start. rewrite Hin by lia. destruct Hl as [->| ->]; simpl; [done|by rewrite orb_true_r].
  - destruct (decide (run_end input s < e)) as [Hlt|Hge].
    + pose proof (b64_run_end input s) as Hf. rewrite Hin in Hf; [done|].
      split; [unfold run_end; lia|done].
    + destruct (decide (e < run_end input s)); [|lia].
      rewrite (b64_run input s e) in Hr by lia. done.
Qed.

Lemma run_start_maximal input s :
  run_start input s = true -> maximal_run input s (run_end input s).
Proof.
  intros H. unfold run_start in H. apply andb_true_iff in H as [Hs Hp].
  assert (s < length input) as Hlt.
  { unfold b64_at in Hs. destruct (input !! s) eqn:E; [|done]. by eapply lookup_lt_Some. }
  unfold maximal_run. repeat split.
  - destruct (decide (s < run_end input s)); [done|].
    assert (run_end input s = s) as Heq by (unfold run_end in *; lia).
    pose proof (b64_run_end input s) as Hf. rewrite Heq, Hs in Hf. done.
  - apply run_end_le. lia.
  - intros i Hi. by apply (b64_run input s).
  - apply orb_true_iff in Hp as [Hp|Hp]; tobool; auto.
  - apply b64_run_end.
Qed.

Section base64_proofs.
Variables standard url_safe url_safe_no_pad : bytes -> option bytes.
Variable CHECK : bool.
Variable control : ScanControl.
Abbreviation window input := (window_result standard url_safe url_safe_no_pad input).

(** The windows of the runs that start at [i] or later. *)
Definition windows_from (input : bytes) (i : nat) : list DecodedData :=
  flat_map (fun s => window input s (window_end input s))
    (List.filter (run_start input) (seq i (length input - i))).

Lemma scan_while_refines p rest i :
  refines control (scan_while CHECK control p rest i) (i + run p rest).
Proof.
  revert i; induction rest as [|b rest IH]; intros i; simpl.
  - rewrite Nat.add_0_r. auto with kf.
  - destruct (p b).
    + ctl_step. rewrite Nat.add_succ_r, <- Nat.add_succ_l. apply IH.
    + rewrite Nat.add_0_r. auto with kf.
Qed.

Lemma windows_skip input i j :
  i <= j -> (forall k, i <= k < j -> run_start input k = false) ->
  windows_from input i = windows_from input j.
Proof.
  intros Hij Hno. unfold windows_from.
  destruct (decide (j <= length input)) as [Hj|Hj].
  - replace (length input - i) with ((j - i) + (length input - j)) by lia.
    rewrite seq_app, List.filter_app.
    rewrite (filter_all_false (run_start input) (seq i (j - i))).
    + simpl. by replace (i + (j - i)) with j by lia.
    + intros k Hk. apply in_seq in Hk. apply Hno. lia.
  - replace (length input - j) with 0 by lia. simpl.
    rewrite filter_all_false; [done|]. intros k Hk. apply in_seq in Hk. apply Hno. lia.
Qed.

Lemma windows_take input s :
  run_start input s = true ->
  windows_from input s = window input s (window_end input s) ++ windows_from input (S s).
Proof.
  intros Hs. assert (s < length input) as Hlt.
  { unfold run_start, b64_at in Hs. destruct (input !! s) eqn:E; [|done].
    by eapply lookup_lt_Some. }
  unfold windows_from. replace (length input - s) with (S (length input - S s)) by lia.
  simpl. by rewrite Hs.
Qed.

Lemma base64_loop_refines fuel input i results :
  length input - i <= fuel -> at_boundary input i ->
  refines control (base64_loop standard url_safe url_safe_no_pad CHECK control fuel input i results)
    (results ++ windows_from input i).
Proof.
  revert i results; induction fuel as [|fuel IH]; intros i results Hf Hb; simpl.
  { destruct (i <? length input) eqn:E; tobool; [lia|].
    unfold windows_from. replace (length input - i) with 0 by lia. simpl.
    rewrite app_nil_r. auto with kf. }
  destruct (i <? length input) eqn:E; tobool.
  2: { unfold windows_from. replace (length input - i) with 0 by lia. simpl.
       rewrite app_nil_r. auto with kf. }
  ctl_step. eapply refines_bind; [apply scan_while_refines|]. cbv beta.
  eapply refines_bind; [apply scan_while_refines|]. cbv beta.
  set (start := i + run _ (drop i input)).
  destruct (not64_skip input i) as [Hno Hyes]. fold start in Hno, Hyes.
  assert (i <= start) as Hi by (unfold start; lia).
  fold (run_end input start). fold (window_end input start).
  assert (forall k, i <= k < start -> run_start input k = false) as Hskip.
  { intros k Hk. unfold run_start. by rewrite Hno. }
  rewrite (windows_skip input i start) by done.
  destruct (decide (start < length input)) as [Hs|Hs].
  - assert (run_start input start = true) as Hrs.
    { unfold run_start. rewrite Hyes by done. simpl.
      destruct (decide (start = i)) as [Heq|Hne].
      - rewrite Heq in *. destruct Hb as [->|[->| Hb]]; simpl; [done|by rewrite orb_true_r|].
        rewrite Hyes in Hb by done. done.
      - rewrite Hno by lia. by rewrite orb_true_r. }
    assert (start < run_end input start) as Hre.
    { unfold run_end. apply lookup_lt_is_Some in Hs as Hb'. destruct Hb' as [b Hbs].
      rewrite (drop_S _ b) by done. simpl. specialize (Hyes Hs). unfold b64_at in Hyes.
      rewrite Hbs in Hyes. rewrite Hyes. lia. }
    assert (run_end input start <= window_end input start) by (unfold window_end; lia).
    rewrite windows_take, app_assoc by done.
    rewrite (windows_skip input (S start) (window_end input start)).
    + apply IH; [lia|apply window_end_boundary].
    + lia.
    + intros k Hk. unfold run_start. destruct (decide (k < run_end input start)) as [Hlt|Hge].
      * rewrite (b64_run input start (k - 1)) by lia.
        destruct (k =? 0) eqn:Ek; tobool; [lia|]. simpl. by rewrite andb_false_r.
      * destruct (b64_eq input start k) as [-> _]; [lia|done].
  - assert (run_end input start = start /\ window_end input start = start) as [Hr Hw].
    { unfold window_end, run_end. rewrite (drop_ge input start) by lia. simpl.
      rewrite Nat.add_0_r, drop_ge by lia. simpl. lia. }
    assert (window input start (window_end input start) = []) as Hwin.
    { rewrite Hw. unfold window_result. rewrite Nat.sub_diag. done. }
    rewrite Hwin, app_nil_r. rewrite Hw. apply IH; [lia|].
    right; right. unfold b64_at. rewrite lookup_ge_None_2; [done|lia].
Qed.

Lemma get_base64_strings_impl_refines input :
  refines control (get_base64_strings_impl standard url_safe url_safe_no_pad CHECK control input)
    (windows_from input 0).
Proof.
  unfold get_base64_strings_impl.
  eapply refines_bind.
  - apply (base64_loop_refines (length input) input 0 []); [lia|by left].
  - ctl_step. auto with kf.
Qed.
End base64_proofs.

(** ** The ordered tracker: lemmas *)

Definition covers (a b : nat * nat) : bool := (fst a <=? fst b) && (snd b <=? snd a).
Definition entry (s : OffsetSpan) : nat * nat := (span_start s, span_end s).

(** Starts and ends both increase: no recorded span contains another. *)
Definition ms_wf (m : MatchSpans) : Prop :=
  StronglySorted (fun a b => fst a < fst b /\ snd a < snd b) m.

Lemma filter_sorted {A} (R : A -> A -> Prop) (p : A -> bool) l :
  StronglySorted R l -> StronglySorted R (List.filter p l).
Proof.
  induction 1 as [|x l Hs IH Hx]; simpl; [constructor|]. destruct (p x); [|done].
  constructor; [done|]. apply List.Forall_forall. intros y Hy. apply filter_In in Hy as [Hy _].
  rewrite List.Forall_forall in Hx. auto.
Qed.

Lemma sorted_app {A} (R : A -> A -> Prop) l1 l2 :
  StronglySorted R l1 -> StronglySorted R l2 ->
  (forall x y, In x l1 -> In y l2 -> R x y) -> StronglySorted R (l1 ++ l2).
Proof.
  induction 1 as [|x l Hs IH Hx]; simpl; [done|]. intros H2 Hxy.
  constructor; [apply IH; auto|]. apply List.Forall_app. split; [done|].
  apply List.Forall_forall. auto.
Qed.

Lemma ms_wf_antichain m a b :
  ms_wf m -> In a m -> In b m -> a = b \/ (fst a < fst b /\ snd a < snd b) \/
                                         (fst b < fst a /\ snd b < snd a).
Proof.
  induction 1 as [|x l Hs IH Hx]; simpl; [done|]. rewrite List.Forall_forall in Hx.
  intros [->|Ha] [->|Hb]; auto.
Qed.

Lemma last_key_some p m e :
  ms_wf m -> last_key p m = Some e ->
  In e m /\ p (fst e) = true /\ forall e', In e' m -> p (fst e') = true -> fst e' <= fst e.
Proof.
  intros Hm He. unfold last_key in He.
  set (l := List.filter (fun e => p (fst e)) m) in *.
  assert (StronglySorted (fun a b => fst a < fst b /\ snd a < snd b) l) as Hl by by apply filter_sorted.
  assert (exists l', l = l' ++ [e]) as [l' Hl'] by by apply last_Some.
  assert (In e l) as Hin by (rewrite Hl'; apply in_app_iff; right; by left).
  apply filter_In in Hin as [Hin Hp]. split; [done|]. split; [done|].
  intros e' He' Hp'. assert (In e' l) as Hel by (by apply filter_In).
  assert (In e l) as Hel2 by (by apply filter_In).
  rewrite Hl' in Hel. apply in_app_iff in Hel as [Hel|[->|[]]]; [|lia].
  rewrite Hl' in Hl. clear -Hl Hel. induction l' as [|x l' IH]; simpl in *; [done|].
  inversion Hl as [|? ? Hs Hx]; subst. rewrite List.Forall_forall in Hx.
  destruct Hel as [->|Hel]; [|by apply IH].
  destruct (Hx e); [|lia]. apply in_app_iff. right. by left.
Qed.

Lemma last_key_none p m e :
  last_key p m = None -> In e m -> p (fst e) = false.
Proof.
  unfold last_key. intros H He. apply last_None in H.
  destruct (p (fst e)) eqn:E; [|done].
  assert (In e (List.filter (fun e => p (fst e)) m)) as Hin by (by apply filter_In).
  rewrite H in Hin. done.
Qed.

Lemma first_from_some m k e :
  ms_wf m -> first_from k m = Some e ->
  In e m /\ k <= fst e /\ forall e', In e' m -> k <= fst e' -> fst e <= fst e' /\ snd e <= snd e'.
Proof.
  intros Hm He. unfold first_from in He.
  pose proof (filter_sorted _ (fun e => k <=? fst e) m Hm) as Hl.
  destruct (List.filter _ m) as [|x l] eqn:E; [done|]. simpl in He. injection He as ->.
  assert (In e m /\ (k <=? fst e) = true) as [H1 H2].
  { apply (filter_In (fun e => k <=? fst e)). rewrite E. by left. }
  tobool. split; [done|]. split; [done|]. intros e' He' Hk.
  assert (In e' (e :: l)) as Hin. { rewrite <- E. apply filter_In. split; [done|by apply Nat.leb_le]. }
  destruct Hin as [->|Hin]; [lia|]. inversion Hl as [|? ? _ Hx]; subst.
  rewrite List.Forall_forall in Hx. specialize (Hx e' Hin). lia.
Qed.

Lemma first_from_none m k e : first_from k m = None -> In e m -> fst e < k.
Proof.
  unfold first_from. intros H He. destruct (List.filter _ m) as [|x l] eqn:E; [|done].
  destruct (decide (fst e < k)); [done|].
  assert (In e (List.filter (fun e => k <=? fst e) m)) as Hin.
  { apply filter_In. split; [done|]. apply Nat.leb_le. lia. }
  rewrite E in Hin. done.
Qed.

(** The removal loop drops exactly the entries the new span covers. *)
Lemma remove_covered_filter fuel m span :
  ms_wf m -> length m <= fuel ->
  remove_covered fuel m span = List.filter (fun e => negb (covers (entry span) e)) m.
Proof.
  revert m; induction fuel as [|fuel IH]; intros m Hm Hlen; simpl.
  { destruct m; simpl in *; [done|lia]. }
  destruct (first_from (span_start span) m) as [[k v]|] eqn:Ef.
  - destruct (first_from_some m _ _ Hm Ef) as (Hin & Hk & Hmin). simpl in *.
    destruct (span_end span <? v) eqn:Ev; tobool.
    + rewrite filter_all_true; [done|]. intros e He. unfold covers; simpl.
      destruct (span_start span <=? fst e) eqn:E; tobool; [|done].
      specialize (Hmin e He E). simpl. apply negb_true_iff, Nat.leb_gt. lia.
    + assert (ms_wf (map_remove k m)) as Hwf by by apply filter_sorted.
      rewrite IH; [|done|].
      * clear IH Ef. induction m as [|e m IHm]; simpl; [done|].
        inversion Hm as [|? ? Hs Hx]; subst.
        destruct (fst e =? k) eqn:Ek; simpl; tobool.
        -- assert (e = (k, v)) as ->.
           { destruct Hin as [->|Hin]; [done|]. rewrite List.Forall_forall in Hx.
             specialize (Hx _ Hin). simpl in Hx. lia. }
           unfold covers at 2; simpl.
           destruct (span_start span <=? k) eqn:E1, (v <=? span_end span) eqn:E2; tobool; try lia.
           simpl. f_equal. unfold map_remove. apply filter_all_true.
           intros e He. rewrite List.Forall_forall in Hx. specialize (Hx e He). simpl in Hx.
           apply negb_true_iff, Nat.eqb_neq. lia.
        -- destruct Hin as [->|Hin]; [done|]. rewrite IHm; try done.
           ++ simpl in Hlen. lia.
           ++ intros e' He'. apply Hmin. by right.
           ++ by apply filter_sorted.
      * assert (length (map_remove k m) < length m); [|lia].
        clear -Hin. unfold map_remove. induction m as [|e m IHm]; simpl; [done|].
        destruct Hin as [->|Hin]; simpl.
        -- rewrite Nat.eqb_refl. simpl. pose proof (List.filter_length_le (fun e => negb (fst e =? k)) m). lia.
        -- specialize (IHm Hin). destruct (negb _); simpl; lia.
  - rewrite filter_all_true; [done|]. intros e He. pose proof (first_from_none m _ e Ef He).
    unfold covers; simpl. apply negb_true_iff, andb_false_iff. left. apply Nat.leb_gt. lia.
Qed.

Lemma spans_insert_spec m span :
  ms_wf m ->
  let '(m', fresh) := spans_insert m span in
  ms_wf m' /\
  (fresh = false <-> exists e, In e m /\ covers e (entry span) = true) /\
  (fresh = false -> m' = m) /\
  (fresh = true -> forall e, In e m' <->
     e = entry span \/ (In e m /\ covers (entry span) e = false)).
Proof.
  intros Hm. unfold spans_insert.
  destruct (match last_key (fun k => k <=? span_start span) m with
            | Some (_, stop) => span_end span <=? stop | None => false end) eqn:Ered.
  - split; [done|]. split; [|done]. split; [|done]. intros _.
    destruct (last_key _ m) as [[k v]|] eqn:El; [|done].
    destruct (last_key_some _ m _ Hm El) as (Hin & Hk & _). exists (k, v). split; [done|].
    unfold covers; simpl in *. by rewrite Hk, Ered.
  - assert (forall e, In e m -> covers e (entry span) = false) as Hnc.
    { intros e He. unfold covers; simpl. destruct (fst e <=? span_start span) eqn:Ek; [|done]. simpl.
      destruct (last_key _ m) as [[k v]|] eqn:El.
      - destruct (last_key_some _ m _ Hm El) as (Hin & Hk & Hmax). specialize (Hmax e He Ek).
        simpl in *. destruct (ms_wf_antichain m e (k, v) Hm He Hin) as [->|[?|?]]; simpl in *;
          tobool; apply Nat.leb_gt; lia.
      - pose proof (last_key_none _ m e El He) as Hf. simpl in Hf. congruence. }
    rewrite remove_covered_filter by done.
    set (m0 := List.filter (fun e => negb (covers (entry span) e)) m).
    assert (forall e, In e m0 -> In e m /\ covers (entry span) e = false) as Hm0.
    { intros e He. apply filter_In in He as [He Hc]. by apply negb_true_iff in Hc. }
    assert (forall e, In e m0 ->
      (fst e < span_start span /\ snd e < span_end span) \/
      (span_start span < fst e /\ span_end span < snd e)) as Hsep.
    { intros e He. destruct (Hm0 e He) as [He' Hc]. specialize (Hnc e He').
      unfold covers in *; simpl in *. apply andb_false_iff in Hc, Hnc.
      destruct Hc as [Hc|Hc], Hnc as [Hn|Hn]; tobool; lia. }
    assert (forall e, In e (map_insert (span_start span) (span_end span) m0) <->
      e = entry span \/ In e m0) as Hins.
    { intros e. unfold map_insert. rewrite in_app_iff. simpl. rewrite !filter_In.
      rewrite Nat.ltb_lt, Nat.ltb_lt. split.
      - intros [[? _]|[<-|[? _]]]; auto.
      - intros [->|He]; [auto|]. destruct (Hsep e He); tauto. }
    split; [|split; [|split]].
    + apply sorted_app.
      * by repeat apply filter_sorted.
      * constructor; [by repeat apply filter_sorted|]. apply List.Forall_forall.
        intros e He. apply filter_In in He as [He Hlt]. tobool. simpl. destruct (Hsep e He); lia.
      * intros a b Ha Hb. apply filter_In in Ha as [Ha Hlt]. tobool.
        destruct (Hsep a Ha) as [Hsa|]; [|lia].
        destruct Hb as [<-|Hb]; [simpl; lia|]. apply filter_In in Hb as [Hb Hgt]. tobool.
        destruct (Hsep b Hb); lia.
    + split; [done|]. intros (e & He & Hc). rewrite Hnc in Hc; done.
    + done.
    + intros _ e. rewrite Hins. split; (intros [?|He]; [by left|right]).
      * by apply Hm0.
      * apply filter_In. destruct He as [? ->]. done.
Qed.

Lemma covers_trans a b c : covers a b = true -> covers b c = true -> covers a c = true.
Proof.
  unfold covers. intros H1 H2. tobool. apply andb_true_iff. split; apply Nat.leb_le; lia.
Qed.

Lemma covers_antisym a b : covers a b = true -> covers b a = true -> a = b.
Proof. unfold covers. destruct a, b; simpl. intros H1 H2. tobool. f_equal; lia. Qed.

Lemma covers_refl a : covers a a = true.
Proof. unfold covers. by rewrite !Nat.leb_refl. Qed.

(** What the tracker knows after a sequence of insertions. *)
Definition tracks (spans : list OffsetSpan) (m : MatchSpans) : Prop :=
  ms_wf m /\
  (forall e, In e m -> exists s, In s spans /\ entry s = e) /\
  (forall s, In s spans -> exists e, In e m /\ covers e (entry s) = true).

Lemma tracks_insert spans m s :
  tracks spans m -> tracks (spans ++ [s]) (fst (spans_insert m s)).
Proof.
  intros (Hm & Hsub & Hcov). pose proof (spans_insert_spec m s Hm) as Hs.
  destruct (spans_insert m s) as [m' fresh]; simpl. destruct Hs as (Hm' & Hf & Hkeep & Hnew).
  split; [done|]. destruct fresh.
  - specialize (Hnew eq_refl). split.
    + intros e He. apply Hnew in He as [->|[He _]].
      * exists s. split; [apply in_app_iff; right; by left|done].
      * destruct (Hsub e He) as (t & Ht & <-). exists t. split; [apply in_app_iff; auto|done].
    + intros t Ht. apply in_app_iff in Ht as [Ht|[->|[]]].
      * destruct (Hcov t Ht) as (e & He & Hc). destruct (covers (entry s) e) eqn:Ec.
        -- exists (entry s). split; [apply Hnew; by left|]. by eapply covers_trans.
        -- exists e. split; [|done]. apply Hnew. auto.
      * exists (entry t). split; [apply Hnew; by left|apply covers_refl].
  - specialize (Hkeep eq_refl) as ->. split.
    + intros e He. destruct (Hsub e He) as (t & Ht & <-). exists t. split; [apply in_app_iff; auto|done].
    + intros t Ht. apply in_app_iff in Ht as [Ht|[->|[]]]; [auto|]. by apply Hf.
Qed.

Lemma insert_all_fold spans m :
  fst (insert_all m spans) = fold_left (fun m s => fst (spans_insert m s)) spans m.
Proof.
  revert m; induction spans as [|s spans IH]; intros m; simpl; [done|].
  destruct (spans_insert m s) as [m1 b]. specialize (IH m1).
  destruct (insert_all m1 spans) as [m2 bs]. by simpl in *.
Qed.

Lemma insert_all_tracks spans : tracks spans (fst (insert_all [] spans)).
Proof.
  rewrite insert_all_fold.
  assert (forall done m, tracks done m ->
    tracks (done ++ spans) (fold_left (fun m s => fst (spans_insert m s)) spans m)) as H.
  { induction spans as [|s spans IH]; intros seen m Hm; simpl; [by rewrite app_nil_r|].
    specialize (IH (seen ++ [s]) _ (tracks_insert _ _ s Hm)). by rewrite <- app_assoc in IH. }
  apply (H [] []). split; [constructor|]. split; done.
Qed.

Lemma tracks_contains_end spans m stop :
  tracks spans m ->
  contains_end m stop = true <-> exists s, In s spans /\ span_start s < stop <= span_end s.
Proof.
  intros (Hm & Hsub & Hcov). unfold contains_end. split.
  - destruct (last_key _ m) as [[k v]|] eqn:El; [|done]. intros Hv.
    destruct (last_key_some _ m _ Hm El) as (Hin & Hk & _). simpl in Hk. tobool.
    destruct (Hsub _ Hin) as (s & Hs & He). exists s. split; [done|].
    unfold entry in He. injection He as <- <-. lia.
  - intros (s & Hs & Hr). destruct (Hcov s Hs) as (e & He & Hc).
    unfold covers in Hc; simpl in Hc. tobool.
    destruct (last_key _ m) as [[k v]|] eqn:El.
    + destruct (last_key_some _ m _ Hm El) as (Hin & Hk & Hmax). simpl in *.
      specialize (Hmax e He ltac:(apply Nat.ltb_lt; lia)).
      destruct (ms_wf_antichain m e (k, v) Hm He Hin) as [->|[?|?]]; simpl in *; apply Nat.leb_le; lia.
    + pose proof (last_key_none _ m e El He) as Hf. simpl in Hf. tobool. lia.
Qed.

(** ** The legacy tracker: lemmas *)

Definition starts_sorted (l : list OffsetSpan) : Prop :=
  StronglySorted (fun a b => span_start a < span_start b) l.

Lemma sorted_app_inv {A} (R : A -> A -> Prop) l1 l2 :
  StronglySorted R (l1 ++ l2) ->
  StronglySorted R l1 /\ StronglySorted R l2 /\ forall x y, In x l1 -> In y l2 -> R x y.
Proof.
  induction l1 as [|a l1 IH]; simpl; intros H.
  - split; [constructor|]. split; [done|]. done.
  - inversion H as [|? ? Hs Hx]; subst. destruct (IH Hs) as (H1 & H2 & H3).
    rewrite List.Forall_forall in Hx. split; [|split; [done|]].
    + constructor; [done|]. apply List.Forall_forall. intros y Hy. apply Hx, in_app_iff. auto.
    + intros x y [->|Hx'] Hy; [|auto]. apply Hx, in_app_iff. auto.
Qed.

(** Below the insertion index starts are smaller, from it on they are not. *)
Lemma insert_index_split spans span :
  starts_sorted spans ->
  let idx := partition_point (fun s => span_start s <? span_start span) spans in
  (forall s, In s (take idx spans) -> span_start s < span_start span) /\
  (forall s, In s (drop idx spans) -> span_start span <= span_start s).
Proof.
  intros Hs. cbv zeta. split.
  - intros s Hin. apply list_elem_of_In, list_elem_of_lookup in Hin as [i Hi].
    apply lookup_take_Some in Hi as [Hi Hlt].
    pose proof (partition_point_lt _ _ _ _ Hlt Hi) as H. cbv beta in H. by apply Nat.ltb_lt.
  - set (idx := partition_point _ _). intros s Hin.
    destruct (drop idx spans) as [|s0 l] eqn:Ed; [done|].
    assert (spans !! idx = Some s0) as H0.
    { rewrite <- (Nat.add_0_r idx), <- lookup_drop, Ed. done. }
    pose proof (partition_point_stop _ _ _ H0) as Hstop. simpl in Hstop. tobool.
    rewrite <- (take_drop idx spans), Ed in Hs.
    apply sorted_app_inv in Hs as (_ & Hs & _). inversion Hs as [|? ? _ Hx]; subst.
    destruct Hin as [->|Hin]; [done|]. rewrite List.Forall_forall in Hx. specialize (Hx _ Hin). lia.
Qed.

Lemma insert_at_sorted l1 l2 span :
  starts_sorted (l1 ++ l2) ->
  (forall s, In s l1 -> span_start s < span_start span) ->
  (forall s, In s l2 -> span_start span < span_start s) ->
  starts_sorted (l1 ++ span :: l2).
Proof.
  intros Hs H1 H2. apply sorted_app_inv in Hs as (Hs1 & Hs2 & H12).
  apply sorted_app; [done| |].
  - constructor; [done|]. by apply List.Forall_forall.
  - intros x y Hx [<-|Hy]; auto.
Qed.

(** The tail of the legacy insertion, once the predecessor is out of the way. *)
Lemma legacy_insert_at spans idx span :
  starts_sorted spans -> idx <= length spans ->
  (forall s, In s (take idx spans) -> span_start s < span_start span) ->
  (forall s, In s (drop idx spans) -> span_start span <= span_start s) ->
  let '(spans', fresh) :=
    match spans !! idx with
    | Some s =>
        if fully_contains s span then (spans, false)
        else
          let spans := if fully_contains span s then delete idx spans else spans in
          (take idx spans ++ span :: drop idx spans, true)
    | None => (take idx spans ++ span :: drop idx spans, true)
    end in
  starts_sorted spans' /\
  (fresh = false -> spans' = spans /\ exists s, In s spans /\ fully_contains s span = true) /\
  (fresh = true -> In span spans' /\
     forall s, In s spans -> In s spans' \/ fully_contains span s = true).
Proof.
  intros Hs Hidx H1 H2. destruct (spans !! idx) as [s|] eqn:Ei.
  - assert (drop idx spans = s :: drop (S idx) spans) as Hd by by apply drop_S.
    assert (In s spans) as Hin by (apply list_elem_of_In; by eapply list_elem_of_lookup_2).
    destruct (fully_contains s span) eqn:Ec1; [split; [done|split; [eauto|done]]|].
    assert (forall l2, (forall x, In x l2 -> In x (drop idx spans)) ->
      (forall x, In x l2 -> span_start span < span_start x) -> StronglySorted (fun a b => span_start a < span_start b) l2 ->
      starts_sorted (take idx spans ++ span :: l2)) as Hmk.
    { intros l2 Hsub Hlt Hl2. apply insert_at_sorted; [|done|done].
      rewrite <- (take_drop idx spans) in Hs. apply sorted_app_inv in Hs as (Hs1 & _ & H12).
      apply sorted_app; auto. }
    rewrite <- (take_drop idx spans) in Hs. apply sorted_app_inv in Hs as (Hs1 & Hs2 & H12).
    rewrite Hd in Hs2. inversion Hs2 as [|? ? Hs2' Hx]; subst. rewrite List.Forall_forall in Hx.
    pose proof (H2 s ltac:(rewrite Hd; by left)) as Hle.
    destruct (fully_contains span s) eqn:Ec2; cbv zeta.
    + assert (delete idx spans = take idx spans ++ drop (S idx) spans) as Hdel by apply delete_take_drop.
      rewrite Hdel, take_app_length', drop_app_length' by (rewrite length_take; lia).
      split; [|split; [done|]].
      * apply Hmk; [|intros x Hxin; specialize (Hx x Hxin); lia|done].
        intros x Hxin. rewrite Hd. by right.
      * intros _. split; [apply in_app_iff; right; by left|]. intros t Ht.
        rewrite <- (take_drop idx spans), Hd in Ht. apply in_app_iff in Ht as [Ht|[<-|Ht]].
        -- left. apply in_app_iff. by left.
        -- by right.
        -- left. apply in_app_iff. right. by right.
    + assert (span_start span < span_start s) as Hlt.
      { unfold fully_contains in *. apply andb_false_iff in Ec1, Ec2.
        destruct Ec1, Ec2; tobool; lia. }
      split; [|split; [done|]].
      * apply Hmk; [done| |by rewrite Hd]. intros x Hxin. rewrite Hd in Hxin.
        destruct Hxin as [<-|Hxin]; [done|]. specialize (Hx x Hxin). lia.
      * intros _. split; [apply in_app_iff; right; by left|]. intros t Ht. left.
        rewrite <- (take_drop idx spans) in Ht. rewrite in_app_iff in *. simpl. tauto.
  - apply lookup_ge_None in Ei. rewrite take_ge, drop_ge in * by lia.
    split; [|split; [done|]].
    + apply insert_at_sorted; [by rewrite app_nil_r|done|done].
    + intros _. split; [apply in_app_iff; right; by left|]. intros t Ht. left.
      apply in_app_iff. by left.
Qed.

(** ** The endpoint search: lemmas *)

Section endpoint.
Variable find_at : nat -> option (nat * nat).
Variable len : nat.
(** A match lies at or after the position and inside the haystack. *)
Hypothesis find_range : forall p s e, find_at p = Some (s, e) -> p <= s /\ s <= e /\ e <= len.
(** Leftmost semantics: a search from anywhere up to the match found finds it
    again, and a failed search fails from every later position. *)
Hypothesis find_leftmost : forall p q s e,
  find_at p = Some (s, e) -> p <= q <= s -> find_at q = Some (s, e).
Hypothesis find_none : forall p q, find_at p = None -> p <= q -> find_at q = None.

Lemma endpoint_loop_exact fuel p :
  p <= len + 1 -> len + 1 - p < fuel ->
  endpoint_loop find_at len fuel p = true <->
  exists q s, p <= q /\ find_at q = Some (s, len).
Proof.
  revert p; induction fuel as [|fuel IH]; intros p Hp Hf; [lia|]. simpl.
  destruct (find_at p) as [[s e]|] eqn:E.
  - destruct (find_range _ _ _ E) as (H1 & H2 & H3).
    destruct (e =? len) eqn:Ee; tobool; [subst; split; eauto|].
    rewrite IH by lia. split.
    + intros (q & t & Hq & Ht). exists q, t. split; [lia|done].
    + intros (q & t & Hq & Ht). exists q, t. split; [|done].
      destruct (decide (q <= s)); [|lia]. rewrite (find_leftmost p q s e E) in Ht by lia.
      simplify_eq.
  - split; [done|]. intros (q & t & Hq & Ht). rewrite (find_none p q E) in Ht by lia. done.
Qed.
End endpoint.

(** ** Properties *)

(** Base64 detection reports one entry for each maximal run of alphabet
    bytes, extended by at most two ['='], whose length is a multiple of 4 and at
    least 32 and which decodes to ASCII, and nothing else. The loops terminate,
    an unlimited scan cannot be cancelled, and an interrupted scan returns an
    error rather than a partial list. *)
Theorem base64_windows_exact std url nopad input :
  (forall clock d, In d (get_base64_strings std url nopad input clock) <->
     exists s e, maximal_run input s e /\
       let stop := e + count_eq (drop e input) in
       32 <= stop - s /\ (stop - s) mod 4 = 0 /\
       exists data, try_decode std url nopad (slice input s stop) = Some data /\
         is_ascii data = true /\ d = mkDecoded data s stop) /\
  (forall control clock n, let r := fst (get_base64_strings_with_control std url nopad input control clock n) in
     r = inl (get_base64_strings std url nopad input clock) \/
     (is_limited control = true /\ exists e, r = inr e)).
Proof.
  assert (forall clock, get_base64_strings std url nopad input clock =
                        windows_from std url nopad input 0) as Hget.
  { intros clock. unfold get_base64_strings. apply refines_expect.
    apply get_base64_strings_impl_refines. }
  split.
  - intros clock d. rewrite Hget. unfold windows_from. rewrite Nat.sub_0_r, in_flat_map. split.
    + intros (s & Hs & Hd). apply filter_In in Hs as [_ Hs].
      exists s, (run_end input s). split; [by apply run_start_maximal|].
      fold (window_end input s). unfold window_result in Hd.
      destruct (_ && _) eqn:E; [|done]. tobool. split; [done|]. split; [done|].
      destruct (try_decode _ _ _ _) as [data|]; [|done]. exists data.
      destruct (is_ascii data); [|done]. destruct Hd as [<-|[]]. done.
    + intros (s & e & Hmax & Hd). destruct (run_end_maximal input s e Hmax) as [Hs ->].
      fold (window_end input s) in Hd. cbv zeta in Hd.
      destruct Hd as (H32 & H4 & data & Hdec & Hasc & ->). exists s. split.
      * apply filter_In. split; [|done]. apply in_seq. destruct Hmax. lia.
      * unfold window_result.
        replace (32 <=? _) with true by (symmetry; by apply Nat.leb_le).
        rewrite H4, Hdec, Hasc. by left.
  - intros control clock n. rewrite Hget. unfold get_base64_strings_with_control.
    pose proof (get_base64_strings_impl_refines std url nopad (is_limited control) control input clock n)
      as H.
    destruct (is_limited control); exact H.
Qed.

(** The ordered tracker keeps exactly the maximal spans of everything inserted
    so far, with starts and ends both increasing; an insertion is refused exactly
    when an earlier span contains the new one; and an endpoint is covered exactly
    when some inserted span covers it. *)
Theorem match_spans_maximal spans span stop :
  let '(m, answers) := insert_all [] spans in
  ms_wf m /\
  (forall e, In e m <-> exists s, In s spans /\ e = entry s /\
     forall t, In t spans -> fully_contains t s = true -> t = s) /\
  (snd (spans_insert m span) = false <-> exists t, In t spans /\ fully_contains t span = true) /\
  (contains_end m stop = true <-> exists s, In s spans /\ span_start s < stop <= span_end s).
Proof.
  pose proof (insert_all_tracks spans) as Htr. destruct (insert_all [] spans) as [m answers].
  simpl in Htr. pose proof Htr as (Hm & Hsub & Hcov). split; [done|].
  change (fun a b => fully_contains a b) with fully_contains.
  assert (forall t s, fully_contains t s = covers (entry t) (entry s)) as Hfc by done.
  split; [|split].
  - intros e. split.
    + intros He. destruct (Hsub e He) as (s & Hs & <-). exists s. split; [done|]. split; [done|].
      intros t Ht Hc. rewrite Hfc in Hc. destruct (Hcov t Ht) as (e' & He' & Hc').
      pose proof (covers_trans _ _ _ Hc' Hc) as Hes.
      destruct (ms_wf_antichain m e' (entry s) Hm He' He) as [->|[?|?]];
        [|unfold covers in Hes; tobool; lia..].
      pose proof (covers_antisym _ _ Hc Hc') as Heq. destruct t, s. unfold entry in Heq.
      simpl in Heq. congruence.
    + intros (s & Hs & -> & Hmax). destruct (Hcov s Hs) as (e & He & Hc).
      destruct (Hsub e He) as (t & Ht & <-). rewrite (Hmax t Ht Hc) in He. done.
  - pose proof (spans_insert_spec m span Hm) as Hs. destruct (spans_insert m span) as [m' fresh].
    destruct Hs as (_ & Hf & _). simpl. rewrite Hf. split.
    + intros (e & He & Hc). destruct (Hsub e He) as (t & Ht & <-). exists t. done.
    + intros (t & Ht & Hc). destruct (Hcov t Ht) as (e & He & Hc'). exists e. split; [done|].
      by eapply covers_trans.
  - by apply tracks_contains_end.
Qed.

(** The legacy sorted-vector tracker keeps its spans in strictly increasing
    start order, refuses a span only when a recorded span contains it (and then
    changes nothing), and otherwise records it and drops only spans it contains. *)
Theorem insert_span_ordered spans span :
  starts_sorted spans ->
  let '(spans', fresh) := insert_span spans span in
  starts_sorted spans' /\
  (fresh = false -> spans' = spans /\ exists s, In s spans /\ fully_contains s span = true) /\
  (fresh = true -> In span spans' /\
     forall s, In s spans -> In s spans' \/ fully_contains span s = true).
Proof.
  intros Hs. unfold insert_span.
  destruct (insert_index_split spans span Hs) as [H1 H2].
  pose proof (partition_point_le (fun s => span_start s <? span_start span) spans) as Hle.
  destruct (partition_point _ spans) as [|k] eqn:Ei; [by apply legacy_insert_at|].
  destruct (lookup_lt_is_Some_2 spans k ltac:(lia)) as [s Hk]. rewrite Hk.
  assert (In s spans) as Hin by (apply list_elem_of_In; by eapply list_elem_of_lookup_2).
  destruct (fully_contains s span) eqn:Ec; [split; [done|split; [eauto|done]]|].
  assert (span_start s < span_start span) as Hlt.
  { apply H1. apply list_elem_of_In. apply list_elem_of_lookup. exists k.
    apply lookup_take_Some. split; [done|lia]. }
  assert (fully_contains span s = false) as ->.
  { unfold fully_contains. apply andb_false_iff. left. apply Nat.leb_gt. lia. }
  by apply legacy_insert_at.
Qed.

Lemma insert_span_ordered_witness :
  starts_sorted (fst (insert_span [mkSpan 2 3; mkSpan 5 9] (mkSpan 5 7))) /\
  insert_span [mkSpan 2 3; mkSpan 5 9] (mkSpan 5 7) = ([mkSpan 2 3; mkSpan 5 9], false).
Proof.
  assert (starts_sorted [mkSpan 2 3; mkSpan 5 9]) as Hs by (repeat constructor).
  split; [|reflexivity].
  exact (proj1 (insert_span_ordered [mkSpan 2 3; mkSpan 5 9] (mkSpan 5 7) Hs)).
Defined.

(** The legacy tracker does not always refuse a contained span: a wide span
    replaces only its immediate neighbours, and a later span inside it is
    compared with those neighbours alone. The ordered tracker refuses it. *)
Example insert_span_accepts_contained :
  let '(s1, _) := insert_span [] (mkSpan 2 3) in
  let '(s2, _) := insert_span s1 (mkSpan 4 5) in
  let '(s3, _) := insert_span s2 (mkSpan 1 9) in
  s3 = [mkSpan 1 9; mkSpan 4 5] /\ snd (insert_span s3 (mkSpan 6 8)) = true /\
  snd (spans_insert (fst (insert_all [] [mkSpan 2 3; mkSpan 4 5; mkSpan 1 9])) (mkSpan 6 8)) = false.
Proof. split; [|split]; reflexivity. Qed.

(** For a regex with leftmost search semantics, a confirmation window that is
    not known to match at its start is widened exactly when no length bound is
    certified, the window is too short to hold the bound and its Unicode context,
    or some search started within the bound selects a match ending at the
    window's end. A cached verdict is the verdict. *)
Theorem wider_window_exact find_at len maximum window_start cached :
  (forall p s e, find_at p = Some (s, e) -> p <= s /\ s <= e /\ e <= len) ->
  (forall p q s e, find_at p = Some (s, e) -> p <= q <= s -> find_at q = Some (s, e)) ->
  (forall p q, find_at p = None -> p <= q -> find_at q = None) ->
  (0 < maximum)%Z -> (Z.of_nat len < USIZE_MAX - 4)%Z ->
  let selects := exists q s, len - Z.to_nat maximum <= q /\ find_at q = Some (s, len) in
  (forall v, cached = Some v -> v = true <-> selects) ->
  let '(cached', widen) :=
    confirmation_needs_wider_window find_at len (Some maximum) false window_start cached in
  (widen = true <-> window_start <> 0 /\ ((Z.of_nat len <= maximum + 4)%Z \/ selects)) /\
  (forall v, cached' = Some v -> v = true <-> selects) /\
  snd (confirmation_needs_wider_window find_at len (Some maximum) true window_start cached) = false /\
  snd (confirmation_needs_wider_window find_at len None false (S window_start) cached) = true.
Proof.
  intros H1 H2 H3 Hmax Hlen selects Hc. unfold confirmation_needs_wider_window; simpl.
  destruct (window_start =? 0) eqn:Ew; tobool.
  { split; [|split; [done|split; done]]. split; [done|]. intros [? _]. done. }
  unfold bounded_endpoint_can_match.
  assert (saturating_add maximum MAX_UTF8_CHAR_LEN =
          Z.min USIZE_MAX (maximum + 4))%Z as -> by done.
  destruct (Z.of_nat len <=? Z.min USIZE_MAX (maximum + 4))%Z eqn:E; tobool.
  - split; [|split; [done|split; done]]. split; [|done]. intros _. split; [done|]. left. lia.
  - assert (~ (Z.of_nat len <= maximum + 4)%Z) as Hgt by lia.
    destruct cached as [v|].
    + split; [|split; [done|split; done]]. rewrite (Hc v) by done. tauto.
    + assert (endpoint_loop find_at len (S len) (len - Z.to_nat maximum) = true <-> selects) as He.
      { apply endpoint_loop_exact; try done; lia. }
      split; [|split; [|split; done]].
      * rewrite He. tauto.
      * intros v Hv. by simplify_eq.
Qed.

Lemma wider_window_exact_witness :
  snd (confirmation_needs_wider_window
         (fun p => if p <=? 8 then Some (8, 10) else None) 10 (Some 4%Z) false 3 None) = true.
Proof.
  pose proof (wider_window_exact (fun p => if p <=? 8 then Some (8, 10) else None) 10 4 3 None) as H.
  destruct (confirmation_needs_wider_window _ _ _ _ _ _) as [c w].
  cbn [snd]. refine (proj2 (proj1 (H _ _ _ _ _ _)) _); clear H.
  - intros p s e. destruct (p <=? 8) eqn:E; [|discriminate]. intros [= <- <-]. tobool. lia.
  - intros p q s e. destruct (p <=? 8) eqn:E; [|discriminate]. intros [= <- <-] Hq.
    destruct (q <=? 8) eqn:E2; [reflexivity|]. tobool. lia.
  - intros p q. destruct (p <=? 8) eqn:E; [discriminate|]. intros _ Hq.
    destruct (q <=? 8) eqn:E2; [|reflexivity]. tobool. lia.
  - lia.
  - reflexivity.
  - discriminate.
  - split; [discriminate|]. right. exists 6, 8. split; [vm_compute; lia|reflexivity].
Defined.
