(* ===== verification/InlineIgnore.v ===== *)
(** * Inline ignore directives:
      [kingfisher-scanner/src/context/inline_ignore.rs]

    A finding is suppressed when a directive stands on its first line, on its
    last line, or on a nearby line with nothing but encoded bodies and
    delimiters in between. The code has two implementations: a search around the
    span with a budget of bytes, and a per-input index that summarises every
    line; the first falls back to the second. Both are shown to compute the same
    declarative predicate, [suppressed]. *)

From Stdlib Require Import ZArith Lia Bool ZifyNat.
From stdpp Require Import base list numbers option.
From S2P Require Import Prelude Text.

(** ** Configuration *)

Record InlineIgnoreConfig := { tokens : list bytes }.

Fixpoint add_tokens (tokens : list bytes) (additional : list bytes) : list bytes :=
  match additional with
  | [] => tokens
  | token :: rest =>
    let trimmed := trim token in
    if Nat.eqb (length trimmed) 0 then add_tokens tokens rest
    else
      let lowered := str_to_ascii_lowercase trimmed in
      if existsb (bytes_eqb lowered) tokens then add_tokens tokens rest
      else add_tokens (tokens ++ [lowered]) rest
  end.

Definition config_new (additional_tokens : list bytes) : InlineIgnoreConfig :=
  {| tokens := add_tokens [bs "kingfisher:ignore"] additional_tokens |}.
Definition disabled : InlineIgnoreConfig := {| tokens := [] |}.
Definition has_tokens (c : InlineIgnoreConfig) : bool :=
  match tokens c with [] => false | _ => true end.

(** ** Line classifiers *)

Fixpoint trim_left_ascii (line : bytes) : bytes :=
  match line with
  | b :: r => if is_ascii_whitespace b then trim_left_ascii r else line
  | [] => []
  end.
Definition trim_ascii_whitespace (line : bytes) : bytes :=
  rev (trim_left_ascii (rev (trim_left_ascii line))).

Definition is_quote (b : byte) : bool := (b ==? bc "'") || (b ==? 34) || (b ==? bc "`").

Definition last_byte (l : bytes) : byte := default 0%Z (last l).

Definition ends_with_multiline_delimiter (trimmed : bytes) : bool :=
  if length trimmed <? 3 then false
  else
    let lst := last_byte trimmed in
    if negb (is_quote lst) then false
    else 3 <=? partition_point (fun ch => ch ==? lst) (rev trimmed).

Definition looks_like_pem_boundary (trimmed : bytes) : bool :=
  starts_with (bs "-----BEGIN ") trimmed || starts_with (bs "-----END ") trimmed.

Definition is_base64ish (b : byte) : bool :=
  is_ascii_alphanumeric b || (b ==? bc "+") || (b ==? bc "/") || (b ==? bc "=")
  || (b ==? bc "-") || (b ==? bc "_").
Definition is_base32ish (b : byte) : bool := is_ascii_upper b || (50 ≤? b ≤? 55) || (b ==? bc "=").

Definition looks_like_encoded_secret_body (trimmed : bytes) : bool :=
  if length trimmed <? 16 then false
  else if forallb is_base64ish trimmed then true
  else if forallb is_ascii_hexdigit trimmed then true
  else if forallb is_base32ish trimmed then true
  else
    let allowed b := is_base64ish b || (b ==? bc ":") || (b ==? bc ".") in
    let allowed_count := length (List.filter allowed trimmed) in
    length trimmed * 9 <=? allowed_count * 10.

Definition should_skip_for_directive_search (line : bytes) : bool :=
  match trim_ascii_whitespace line with
  | [] => true
  | b :: _ as trimmed =>
    if forallb (fun c => c ==? b) trimmed && is_quote b then true
    else if ends_with_multiline_delimiter trimmed then true
    else if looks_like_pem_boundary trimmed then true
    else looks_like_encoded_secret_body trimmed
  end.

Definition line_has_directive (line : bytes) (tokens : list bytes) : bool :=
  if Nat.eqb (length line) 0 then false
  else
    let lowercase := map to_ascii_lowercase line in
    existsb (fun token => contains_sub token lowercase) tokens.

(** ** Line bounds *)

Fixpoint bounds_start (bytes : bytes) (start : nat) : nat :=
  match start with
  | 0 => 0
  | S k => if negb (byte_at bytes k 10) then bounds_start bytes k else start
  end.
Fixpoint bounds_end (rest : bytes) (e : nat) : nat :=
  match rest with
  | [] => e
  | b :: r => if b ==? 10 then e else bounds_end r (S e)
  end.
Definition line_bounds (bytes : bytes) (index : nat) : nat * nat :=
  if Nat.eqb (length bytes) 0 then (0, 0)
  else
    let i := Nat.min index (length bytes) in
    (bounds_start bytes i, bounds_end (drop i bytes) i).

(** ** The budgeted search *)

(** A phase of the search: a directive was found, the search goes on with the
    remaining budget, or the budget is exhausted (the code's [None]). *)
Inductive Phase := Hit | Next (budget : Z) | NoBudget.

Definition checked_sub (a b : Z) : option Z := if (b <=? a)%Z then Some (a - b)%Z else None.
Definition line_cost (line : bytes) : Z := Z.of_nat (Nat.max (length line) 128).

(** [budget = budget.checked_sub(line.len().max(128))?; if line_has_directive(..) { .. }] *)
Definition inspect (toks : list bytes) (line : bytes) (budget : Z) : Phase :=
  match checked_sub budget (line_cost line) with
  | None => NoBudget
  | Some b => if line_has_directive line toks then Hit else Next b
  end.

Section search.
Variable toks : list bytes.
Variable blob : bytes.

Fixpoint backward (fuel : nat) (cursor : nat) (budget : Z) : Phase :=
  match fuel with
  | 0 => Next budget
  | S fuel =>
    if Nat.eqb cursor 0 then Next budget
    else
      let '(prev_start, prev_end) := line_bounds blob (cursor - 1) in
      if prev_end <=? prev_start then Next budget
      else
        let prev_line := slice blob prev_start prev_end in
        match inspect toks prev_line budget with
        | Next budget =>
          if negb (should_skip_for_directive_search prev_line) then Next budget
          else if Nat.eqb prev_start 0 then Next budget
          else backward fuel prev_start budget
        | other => other
        end
  end.

Fixpoint forward (fuel : nat) (cursor : nat) (budget : Z) : Phase :=
  match fuel with
  | 0 => Next budget
  | S fuel =>
    match get blob cursor with
    | None => Next budget
    | Some b =>
      if b ==? 10 then forward fuel (S cursor) budget
      else
        let '(_, next_end) := line_bounds blob cursor in
        if next_end <=? cursor then Next budget
        else
          let next_line := slice blob cursor next_end in
          match inspect toks next_line budget with
          | Next budget =>
            if negb (should_skip_for_directive_search next_line) then Next budget
            else forward fuel next_end budget
          | other => other
          end
    end
  end.
End search.

(** [Ok] part of a phase, with what follows it. *)
Definition and_then (p : Phase) (k : Z -> option bool) : option bool :=
  match p with Hit => Some true | Next b => k b | NoBudget => None end.

Record OffsetSpan := { start : nat; end_ : nat }.

Definition should_ignore_with_budget (c : InlineIgnoreConfig) (blob : bytes) (span : OffsetSpan)
    (budget : Z) : option bool :=
  let toks := tokens c in
  if negb (has_tokens c) then Some false
  else
    let '(start_line_start, start_line_end) := line_bounds blob (start span) in
    and_then
      (if start_line_start <? start_line_end
       then inspect toks (slice blob start_line_start start_line_end) budget
       else Next budget) (fun budget =>
    and_then (backward toks blob start_line_start start_line_start budget) (fun budget =>
    let end_index := if Nat.eqb (end_ span) 0 then 0 else end_ span - 1 in
    let '(closing_line_start, closing_line_end) :=
      line_bounds blob (Nat.min end_index (length blob)) in
    and_then
      (if (closing_line_start <? closing_line_end) &&
          (negb (Nat.eqb closing_line_start start_line_start) ||
           negb (Nat.eqb closing_line_end start_line_end))
       then inspect toks (slice blob closing_line_start closing_line_end) budget
       else Next budget) (fun budget =>
    and_then (forward toks blob (S (length blob)) closing_line_end budget) (fun _ =>
    Some false)))).

Definition should_ignore (c : InlineIgnoreConfig) (blob : bytes) (span : OffsetSpan) : option bool :=
  should_ignore_with_budget c blob span USIZE_MAX.

(** ** The index *)

(** [bytes.split(|&byte| byte == b'\n')] *)
Fixpoint split_lines (l : bytes) : list bytes :=
  match l with
  | [] => [[]]
  | b :: r =>
    if b ==? 10 then [] :: split_lines r
    else match split_lines r with
         | line :: rest => (b :: line) :: rest
         | [] => [[b]]
         end
  end.

Record IgnoreLine := { line_start : nat; directive : bool; before : bool; after : bool }.

Record InlineIgnoreIndex := { lines : list IgnoreLine; byte_len : nat }.

Definition index_default : InlineIgnoreIndex := {| lines := []; byte_len := 0 |}.

(** The forward pass over the lines: [prev] holds the last line pushed with its
    length and its skippability. *)
Fixpoint push_lines (toks : list bytes) (ls : list bytes) (start : nat)
    (prev : option (IgnoreLine * nat * bool)) : list (IgnoreLine * nat * bool) :=
  match ls with
  | [] => []
  | line :: rest =>
    let dir := line_has_directive line toks in
    let skip := should_skip_for_directive_search line in
    let bef := match prev with
      | Some (previous, len, skippable) =>
          (0 <? len) && (directive previous || (skippable && before previous))
      | None => false
      end in
    let entry := ({| line_start := start; directive := dir; before := bef; after := false |},
                  length line, skip) in
    entry :: push_lines toks rest (start + length line + 1) (Some entry)
  end.

(** [for index in (0..lines.len().saturating_sub(1)).rev()]: the backward pass,
    from the last line to the first. *)
Fixpoint fill_after (ls : list (IgnoreLine * nat * bool)) : list IgnoreLine :=
  match ls with
  | [] => []
  | (l, len, _) :: rest =>
    match fill_after rest with
    | next :: rest' =>
      match rest with
      | (_, next_len, next_skip) :: _ =>
        {| line_start := line_start l; directive := directive l; before := before l;
           after := directive next || ((Nat.eqb next_len 0 || next_skip) && after next) |} ::
        next :: rest'
      | [] => [l]
      end
    | [] => [l]
    end
  end.

Definition index_new (c : InlineIgnoreConfig) (blob : bytes) : InlineIgnoreIndex :=
  if negb (has_tokens c) then index_default
  else {| lines := fill_after (push_lines (tokens c) (split_lines blob) 0 None);
          byte_len := length blob |}.

(** [self.lines[..]]: [None] when the index is out of range, where the code would
    panic. *)
Definition index_should_ignore (ix : InlineIgnoreIndex) (span : OffsetSpan) : option bool :=
  match lines ix with
  | [] => Some false
  | _ =>
    let line offset :=
      partition_point (fun l => line_start l <=? Nat.min offset (byte_len ix)) (lines ix) - 1 in
    match lines ix !! line (start span), lines ix !! line (end_ span - 1) with
    | Some start, Some closing =>
      Some (directive start || before start || directive closing || after closing)
    | _, _ => None
    end
  end.

(** The [OnceLock] is an optional index; the result is the answer and the cell
    afterwards. *)
Definition should_ignore_cached (c : InlineIgnoreConfig) (blob : bytes) (span : OffsetSpan)
    (cache : option InlineIgnoreIndex) : option bool * option InlineIgnoreIndex :=
  match cache with
  | Some index => (index_should_ignore index span, cache)
  | None =>
    match should_ignore_with_budget c blob span 4096 with
    | Some ignore => (Some ignore, None)
    | None => let index := index_new c blob in (index_should_ignore index span, Some index)
    end
  end.

(** ** The reference: which spans are suppressed *)

Section reference.
Variable toks : list bytes.

(** A directive above, reached over non-empty lines that may be skipped. The
    lines are given nearest first. *)
Fixpoint directive_above (ls : list bytes) : bool :=
  match ls with
  | [] => false
  | l :: r => (0 <? length l) &&
      (line_has_directive l toks || (should_skip_for_directive_search l && directive_above r))
  end.

(** A directive below, reached over lines that are empty or may be skipped. *)
Fixpoint directive_below (ls : list bytes) : bool :=
  match ls with
  | [] => false
  | l :: r => line_has_directive l toks ||
      (should_skip_for_directive_search l && directive_below r)
  end.
End reference.

(** The line an offset lies on: the newlines before it. A newline belongs to the
    line it ends. *)
Definition line_of (blob : bytes) (offset : nat) : nat :=
  length (List.filter (fun b => b ==? 10) (take offset blob)).

Definition suppressed (toks : list bytes) (blob : bytes) (span : OffsetSpan) : bool :=
  let ls := split_lines blob in
  let i := line_of blob (start span) in
  let j := line_of blob (end_ span - 1) in
  line_has_directive (nth i ls []) toks || directive_above toks (rev (take i ls)) ||
  line_has_directive (nth j ls []) toks || directive_below toks (drop (S j) ls).

(** ** Lines and their bounds *)

Definition no_nl (l : bytes) : Prop := Forall (fun b => (b ==? 10) = false) l.
Fixpoint unlines (ls : list bytes) : bytes :=
  match ls with [] => [] | l :: r => l ++ 10%Z :: unlines r end.
(** What follows a line: nothing, or a newline and the later lines. *)
Fixpoint tail_of (ls : list bytes) : bytes :=
  match ls with [] => [] | l :: r => 10%Z :: l ++ tail_of r end.

Lemma unlines_app a b : unlines (a ++ b) = unlines a ++ unlines b.
Proof. induction a as [|l a IH]; simpl; [done|]. by rewrite IH, <- app_assoc. Qed.

Lemma tail_of_zip pre line post :
  tail_of (pre ++ line :: post) = 10%Z :: unlines pre ++ line ++ tail_of post.
Proof.
  induction pre as [|p pre IH]; simpl; [done|]. by rewrite IH, <- app_assoc.
Qed.

Lemma unlines_tail pre line post :
  unlines pre ++ line ++ tail_of post =
  match pre with [] => line ++ tail_of post | p :: pre => p ++ tail_of (pre ++ line :: post) end.
Proof. destruct pre as [|p pre]; [done|]. by rewrite tail_of_zip; simpl; rewrite <- app_assoc. Qed.

Lemma split_lines_cons l : exists line rest, split_lines l = line :: rest.
Proof.
  destruct l as [|b l]; simpl; [eauto|]. destruct (b ==? 10); [eauto|].
  destruct (split_lines l); eauto.
Qed.

Lemma split_lines_spec l :
  exists line rest, split_lines l = line :: rest /\ l = line ++ tail_of rest /\
    Forall no_nl (line :: rest).
Proof.
  induction l as [|b l IH]; simpl.
  - exists [], []. split; [done|]. split; [done|]. repeat constructor.
  - destruct IH as (line & rest & E & Hl & Hn). rewrite E.
    destruct (b ==? 10) eqn:Eb.
    + exists [], (line :: rest). split; [done|]. split; [simpl; tobool; by subst|].
      constructor; [constructor|done].
    + exists (b :: line), rest. split; [done|]. split; [simpl; by f_equal|].
      inversion Hn; subst. constructor; [by constructor|done].
Qed.

(** Every split of the lines splits the input. *)
Lemma split_lines_zip l pre line post :
  split_lines l = pre ++ line :: post -> l = unlines pre ++ line ++ tail_of post.
Proof.
  intros E. destruct (split_lines_spec l) as (h & rest & E' & -> & _).
  rewrite E' in E. rewrite unlines_tail.
  destruct pre as [|p pre]; simplify_eq/=; done.
Qed.

Lemma split_lines_no_nl l : Forall no_nl (split_lines l).
Proof. destruct (split_lines_spec l) as (h & rest & -> & _ & H). done. Qed.

Lemma bounds_start_spec u line s k :
  no_nl line -> (u = [] \/ last u = Some 10%Z) ->
  length u <= k <= length u + length line ->
  bounds_start (u ++ line ++ s) k = length u.
Proof.
  intros Hn Hu Hk. induction k as [|k IH]; simpl; [lia|].
  unfold byte_at. destruct (decide (S k = length u)) as [Ek|Ek].
  - destruct Hu as [->|Hu]; [simpl in *; lia|].
    rewrite lookup_app_l by lia. rewrite last_lookup in Hu. rewrite <- Ek in Hu; simpl in Hu.
    rewrite Hu. simpl. done.
  - rewrite lookup_app_r by lia. rewrite lookup_app_l by lia.
    destruct (lookup_lt_is_Some_2 line (k - length u) ltac:(lia)) as [b Hb]. rewrite Hb.
    unfold no_nl in Hn. rewrite Forall_lookup in Hn. rewrite (Hn _ _ Hb). simpl. apply IH. lia.
Qed.

Lemma bounds_end_spec line s e :
  no_nl line -> (s = [] \/ head s = Some 10%Z) ->
  bounds_end (line ++ s) e = e + length line.
Proof.
  intros Hn Hs. revert e; induction Hn as [|b line Hb Hn IH]; intros e; simpl.
  - rewrite Nat.add_0_r. destruct Hs as [->|Hs]; [done|]. destruct s; simplify_eq/=. done.
  - rewrite Hb, IH. lia.
Qed.

Lemma unlines_last pre : unlines pre = [] \/ last (unlines pre) = Some 10%Z.
Proof.
  induction pre as [|l pre IH] using rev_ind; [by left|]. right.
  rewrite unlines_app. simpl. by rewrite app_assoc, last_snoc.
Qed.

Lemma tail_of_head post : tail_of post = [] \/ head (tail_of post) = Some 10%Z.
Proof. destruct post; [by left|by right]. Qed.

Lemma line_bounds_zip pre line post k :
  no_nl line -> length (unlines pre) <= k <= length (unlines pre) + length line ->
  line_bounds (unlines pre ++ line ++ tail_of post) k =
  (length (unlines pre), length (unlines pre) + length line).
Proof.
  intros Hn Hk. unfold line_bounds. set (u := unlines pre) in *.
  destruct (Nat.eqb _ 0) eqn:E0.
  - tobool. rewrite !length_app in E0. f_equal; lia.
  - rewrite Nat.min_l by (rewrite !length_app; lia). f_equal.
    + apply bounds_start_spec; [done|apply unlines_last|lia].
    + rewrite skipn_app, skipn_all2 by lia. rewrite app_nil_l, skipn_app.
      replace (k - length u - length line) with 0 by lia. rewrite drop_0.
      rewrite bounds_end_spec; [rewrite length_drop; lia| |apply tail_of_head].
      by apply Forall_drop.
Qed.

Lemma slice_zip pre line post :
  slice (unlines pre ++ line ++ tail_of post) (length (unlines pre))
    (length (unlines pre) + length line) = line.
Proof.
  unfold slice. rewrite drop_app_length.
  replace (_ - _) with (length line) by lia. by rewrite take_app_length.
Qed.

Lemma filter_no_nl l n : no_nl l -> List.filter (fun b => b ==? 10) (take n l) = [].
Proof.
  intros H. apply (Forall_take _ n) in H. apply filter_all_false. intros x Hx.
  rewrite List.Forall_forall in H. by apply H.
Qed.

(** Every offset lies on one line of the split. *)
Lemma line_zip blob k :
  k <= length blob -> exists pre line post,
    split_lines blob = pre ++ line :: post /\ blob = unlines pre ++ line ++ tail_of post /\
    length pre = line_of blob k /\ no_nl line /\ Forall no_nl pre /\ Forall no_nl post /\
    length (unlines pre) <= k <= length (unlines pre) + length line.
Proof.
  intros Hk.
  enough (exists pre line post, split_lines blob = pre ++ line :: post /\
    length pre = line_of blob k /\
    length (unlines pre) <= k <= length (unlines pre) + length line)
    as (pre & line & post & E & Hl & Hr).
  { pose proof (split_lines_no_nl blob) as Hn. rewrite E in Hn.
    apply Forall_app in Hn as [Hp Hn]. apply Forall_cons in Hn as [Hn Hq].
    exists pre, line, post. split_and!; try done; try lia. by apply split_lines_zip. }
  destruct (split_lines_spec blob) as (line & rest & -> & -> & Hn).
  revert line k Hk Hn; induction rest as [|l rest IH]; intros line k Hk Hn; simpl in *.
  - apply Forall_cons in Hn as [Hn _]. exists [], line, []. split; [done|].
    rewrite app_nil_r in Hk |- *. simpl. unfold line_of. rewrite filter_no_nl by done. simpl. lia.
  - apply Forall_cons in Hn as [Hn Hr]. unfold line_of in *.
    destruct (decide (k <= length line)) as [Hle|Hgt].
    + exists [], line, (l :: rest). split; [done|]. simpl. split; [|lia].
      rewrite take_app_le by lia. by rewrite filter_no_nl.
    + rewrite length_app in Hk; simpl in Hk.
      destruct (IH l (k - S (length line)) ltac:(lia) Hr) as (pre & m & post & E & Hl & Hb).
      exists (line :: pre), m, post. split; [simpl; by rewrite E|].
      split; [|simpl; rewrite length_app; simpl; lia].
      rewrite take_app_ge by lia. replace (k - length line) with (S (k - S (length line))) by lia.
      simpl. rewrite List.filter_app, length_app. simpl. rewrite <- Hl.
      rewrite <- (firstn_all line), filter_no_nl by done. done.
Qed.

(** ** The search computes the reference *)

Definition phase_ok (p : Phase) (budget cost : Z) (ans : bool) : Prop :=
  match p with
  | Hit => ans = true
  | Next b => ans = false /\ (budget - cost <= b)%Z
  | NoBudget => (budget < cost)%Z
  end.

Lemma inspect_ok toks l b :
  phase_ok (inspect toks l b) b (128 * (Z.of_nat (length l) + 1)) (line_has_directive l toks).
Proof.
  unfold inspect, checked_sub, line_cost. destruct (_ <=? b)%Z eqn:E; tobool; simpl; [|lia].
  destruct (line_has_directive l toks); simpl; [done|]. split; [done|lia].
Qed.

Section search_ok.
Variable toks : list bytes.

Lemma backward_ok pre : forall line post fuel b,
  Forall no_nl pre -> length (unlines pre) <= fuel ->
  phase_ok (backward toks (unlines pre ++ line ++ tail_of post) fuel (length (unlines pre)) b) b
    (128 * Z.of_nat (length (unlines pre))) (directive_above toks (rev pre)).
Proof.
  induction pre as [|l pre IH] using rev_ind; intros line post fuel b Hn Hf.
  { destruct fuel; simpl; split; lia || done. }
  apply Forall_app in Hn as [Hn Hl]. apply Forall_cons in Hl as [Hl _].
  assert (unlines (pre ++ [l]) ++ line ++ tail_of post =
    unlines pre ++ l ++ tail_of (line :: post)) as ->.
  { rewrite unlines_app. simpl. by rewrite <- !app_assoc. }
  assert (length (unlines (pre ++ [l])) = length (unlines pre) + length l + 1) as Hlen.
  { rewrite unlines_app, length_app. simpl. rewrite length_app. simpl. lia. }
  rewrite Hlen in *. destruct fuel as [|fuel]; [lia|]. cbn [backward].
  rewrite (proj2 (Nat.eqb_neq (length (unlines pre) + length l + 1) 0)) by lia.
  rewrite (line_bounds_zip pre l (line :: post)) by first [done | lia].
  rewrite rev_unit. cbn [directive_above].
  destruct (_ <=? _) eqn:El; tobool.
  { rewrite (proj2 (Nat.ltb_ge 0 (length l))) by lia. split; [done|lia]. }
  rewrite (proj2 (Nat.ltb_lt 0 (length l))) by lia. rewrite slice_zip. simpl.
  pose proof (inspect_ok toks l b) as Hi.
  destruct (inspect toks l b) as [|b'|]; simpl in Hi.
  - rewrite Hi. done.
  - destruct Hi as [-> Hb]. simpl.
    destruct (should_skip_for_directive_search l); simpl; [|split; [done|lia]].
    destruct (Nat.eqb _ 0) eqn:E0; tobool.
    + assert (pre = []) as -> by (destruct pre as [|[|? ?] ?]; done).
      simpl. split; [done|lia].
    + specialize (IH l (line :: post) fuel b' Hn ltac:(lia)).
      simpl in IH. destruct (backward _ _ _ _ _); simpl in *; [done| |lia].
      split; [tauto|lia].
  - simpl. lia.
Qed.

Lemma forward_ok post : forall pre line fuel b,
  no_nl line -> Forall no_nl post -> length (tail_of post) < fuel ->
  phase_ok (forward toks (unlines pre ++ line ++ tail_of post) fuel
      (length (unlines pre) + length line) b) b
    (128 * Z.of_nat (length (tail_of post))) (directive_below toks post).
Proof.
  induction post as [|l post IH]; intros pre line fuel b Hn Hp Hf;
    (destruct fuel as [|fuel]; [lia|]); cbn [forward]; unfold get.
  { rewrite lookup_ge_None_2 by (simpl; rewrite !length_app; simpl; lia). simpl. split; [done|lia]. }
  apply Forall_cons in Hp as [Hl Hp]. simpl in Hf. rewrite length_app in Hf.
  rewrite lookup_app_r, lookup_app_r by lia.
  replace (_ - _ - _) with 0 by lia. simpl tail_of at 1. cbn [lookup list_lookup]. simpl (10 ==? 10).
  assert (unlines pre ++ line ++ tail_of (l :: post) =
    unlines (pre ++ [line]) ++ l ++ tail_of post) as ->.
  { rewrite unlines_app. simpl. by rewrite <- !app_assoc. }
  replace (S (length (unlines pre) + length line)) with (length (unlines (pre ++ [line])))
    by (rewrite unlines_app; simpl; rewrite !length_app; simpl; lia).
  set (pre' := pre ++ [line]). simpl tail_of.
  assert (Z.of_nat (length (10%Z :: l ++ tail_of post)) =
    Z.of_nat (length l) + 1 + Z.of_nat (length (tail_of post)))%Z as ->.
  { simpl. rewrite length_app. lia. }
  destruct l as [|c l'] eqn:El.
  - specialize (IH pre' [] fuel b ltac:(constructor) Hp ltac:(simpl in *; lia)).
    simpl in IH |- *. rewrite Nat.add_0_r in IH.
    destruct (forward _ _ _ _ _); simpl in *; [done| |lia]. split; [tauto|lia].
  - rewrite <- El in *. destruct fuel as [|fuel]; [lia|]. cbn [forward]. unfold get.
    rewrite lookup_app_r by lia. rewrite Nat.sub_diag.
    assert ((l ++ tail_of post) !! 0 = Some c) as -> by (by subst).
    assert ((c ==? 10) = false) as ->.
    { subst. by apply Forall_cons in Hl as [? _]. }
    rewrite line_bounds_zip by (done || lia).
    assert (0 < length l) by (subst; simpl; lia).
    rewrite (proj2 (Nat.leb_gt _ _)) by lia. rewrite slice_zip. cbn [directive_below].
    pose proof (inspect_ok toks l b) as Hi.
    destruct (inspect toks l b) as [|b'|]; simpl in Hi.
    + rewrite Hi. done.
    + destruct Hi as [-> Hb]. simpl.
      destruct (should_skip_for_directive_search l); simpl; [|split; [done|lia]].
      specialize (IH pre' l fuel b' Hl Hp ltac:(lia)).
      destruct (forward _ _ _ _ _); simpl in *; [done| |lia]. split; [tauto|lia].
    + simpl. lia.
Qed.
End search_ok.

Lemma line_bounds_min blob k : line_bounds blob k = line_bounds blob (Nat.min k (length blob)).
Proof. unfold line_bounds. destruct (Nat.eqb _ 0); [done|]. by rewrite <- Nat.min_assoc, Nat.min_id. Qed.

Lemma line_of_min blob k : line_of blob k = line_of blob (Nat.min k (length blob)).
Proof. unfold line_of. by rewrite <- take_take, (firstn_all blob). Qed.

(** The answers of the search: within the budget, the reference; out of budget
    only below the cost of the whole input. *)
Lemma search_exact c blob span b :
  has_tokens c = true ->
  match should_ignore_with_budget c blob span b with
  | Some ans => ans = suppressed (tokens c) blob span
  | None => (b < 512 * (Z.of_nat (length blob) + 1))%Z
  end.
Proof.
  intros Ht. unfold should_ignore_with_budget. rewrite Ht. simpl negb. cbv iota.
  remember (S (length blob)) as fu eqn:Hfu.
  rewrite line_bounds_min.
  destruct (line_zip blob (Nat.min (start span) (length blob)) ltac:(lia))
    as (pre & line & post & Es & Eb & Hl & Hn & Hp & Hq & Hr).
  set (toks := tokens c) in *.
  assert (line_bounds blob (Nat.min (start span) (length blob)) =
    (length (unlines pre), length (unlines pre) + length line)) as ->.
  { rewrite Eb at 1. by apply line_bounds_zip. }
  rewrite <- line_of_min in Hl.
  set (e := if Nat.eqb (end_ span) 0 then 0 else end_ span - 1).
  assert (e = end_ span - 1) as -> by (subst e; destruct (Nat.eqb _ 0) eqn:?; tobool; lia).
  destruct (line_zip blob (Nat.min (end_ span - 1) (length blob)) ltac:(lia))
    as (pre2 & line2 & post2 & Es2 & Eb2 & Hl2 & Hn2 & Hp2 & Hq2 & Hr2).
  rewrite <- line_of_min in Hl2.
  assert (line_bounds blob (Nat.min (end_ span - 1) (length blob)) =
    (length (unlines pre2), length (unlines pre2) + length line2)) as ->.
  { rewrite Eb2 at 1. by apply line_bounds_zip. }
  assert (suppressed toks blob span =
    line_has_directive line toks || directive_above toks (rev pre) ||
    line_has_directive line2 toks || directive_below toks post2) as ->.
  { unfold suppressed. rewrite <- Hl, <- Hl2. rewrite Es at 1 2. rewrite Es2.
    rewrite !nth_middle, take_app_length. rewrite (cons_middle line2), app_assoc.
    rewrite (drop_app_length' (pre2 ++ [line2])) by (rewrite length_app; simpl; lia). done. }
  assert (Hs1 : slice blob (length (unlines pre)) (length (unlines pre) + length line) = line).
  { rewrite Eb. apply slice_zip. }
  assert (Hs2 : slice blob (length (unlines pre2)) (length (unlines pre2) + length line2) = line2).
  { rewrite Eb2. apply slice_zip. }
  assert (Hlen : length blob = length (unlines pre) + length line + length (tail_of post)).
  { rewrite Eb at 1. rewrite !length_app. lia. }
  assert (Hlen2 : length blob = length (unlines pre2) + length line2 + length (tail_of post2)).
  { rewrite Eb2 at 1. rewrite !length_app. lia. }
  (* the first line *)
  set (p1 := if _ <? _ then inspect toks _ b else Next b).
  assert (phase_ok p1 b (128 * (Z.of_nat (length line) + 1)) (line_has_directive line toks)) as H1.
  { subst p1. destruct (_ <? _) eqn:E; tobool.
    - rewrite Hs1. apply inspect_ok.
    - assert (line = []) as -> by (destruct line; [done|simpl in *; lia]). simpl. split; [done|lia]. }
  destruct p1 as [|b1|]; simpl in H1 |- *; [by rewrite H1| |lia].
  destruct H1 as [H1 Hb1]. rewrite H1. simpl.
  (* the lines above *)
  pose proof (backward_ok toks pre line post (length (unlines pre)) b1 Hp ltac:(lia)) as H2.
  rewrite <- Eb in H2.
  destruct (backward _ _ _ _ _) as [|b2|]; simpl in H2 |- *; [by rewrite H2| |lia].
  destruct H2 as [H2 Hb2]. rewrite H2. simpl.
  (* the last line *)
  set (p3 := if (_ <? _) && _ then _ else Next b2).
  assert (phase_ok p3 b2 (128 * (Z.of_nat (length line2) + 1)) (line_has_directive line2 toks)) as H3.
  { subst p3. destruct (_ && _) eqn:E; tobool.
    - rewrite Hs2. apply inspect_ok.
    - assert (line_has_directive line2 toks = false) as ->; [|simpl; split; [done|lia]].
      apply andb_false_iff in E as [E|E]; tobool.
      + assert (line2 = []) as -> by (destruct line2; [done|simpl in *; lia]). done.
      + assert (line2 = line) as ->; [|done]. rewrite <- Hs1, <- Hs2. congruence. }
  destruct p3 as [|b3|]; simpl in H3 |- *; [by rewrite H3| |lia].
  destruct H3 as [H3 Hb3]. rewrite H3. simpl.
  (* the lines below *)
  pose proof (forward_ok toks post2 pre2 line2 fu b3 Hn2 Hq2 ltac:(lia)) as H4.
  rewrite <- Eb2 in H4.
  destruct (forward _ _ _ _ _) as [|b4|]; simpl in H4 |- *; [by rewrite H4| |lia].
  by destruct H4 as [-> _].
Qed.

(** ** The index computes the reference *)

Lemma push_lines_lookup toks pre2 : forall pre prev st line post,
  match prev with
  | None => pre = []
  | Some (p, len, skip) => exists pre' l, pre = pre' ++ [l] /\ len = length l /\
      directive p = line_has_directive l toks /\ skip = should_skip_for_directive_search l /\
      before p = directive_above toks (rev pre')
  end ->
  push_lines toks (pre2 ++ line :: post) st prev !! length pre2 =
  Some ({| line_start := st + length (unlines pre2); directive := line_has_directive line toks;
           before := directive_above toks (rev (pre ++ pre2)); after := false |},
        length line, should_skip_for_directive_search line).
Proof.
  assert (Hbefore : forall pre prev,
    match prev with
    | None => pre = []
    | Some (p, len, skip) => exists pre' l, pre = pre' ++ [l] /\ len = length l /\
        directive p = line_has_directive l toks /\ skip = should_skip_for_directive_search l /\
        before p = directive_above toks (rev pre')
    end ->
    match prev with
    | Some (previous, len, skippable) =>
        (0 <? len) && (directive previous || (skippable && before previous))
    | None => false
    end = directive_above toks (rev pre)).
  { intros pre [[[p len] skip]|]; [|by intros ->].
    intros (pre' & l & -> & -> & -> & -> & ->). by rewrite rev_unit. }
  induction pre2 as [|l2 pre2 IH]; intros pre prev st line post Hprev; simpl.
  - rewrite app_nil_r, (Hbefore pre prev Hprev). by rewrite Nat.add_0_r.
  - rewrite (IH (pre ++ [l2])).
    + rewrite <- app_assoc. simpl. do 3 f_equal. f_equal. rewrite length_app. simpl. lia.
    + exists pre, l2. split_and!; try done. simpl. by apply Hbefore.
Qed.

Lemma push_lines_forall2 toks ls : forall st prev,
  Forall2 (fun '(e, len, skip) l => directive e = line_has_directive l toks /\ len = length l /\
    skip = should_skip_for_directive_search l /\ after e = false) (push_lines toks ls st prev) ls.
Proof. induction ls as [|l ls IH]; intros st prev; simpl; constructor; [done|apply IH]. Qed.

Lemma skip_empty l : length l = 0 -> should_skip_for_directive_search l = true.
Proof. by destruct l. Qed.

Lemma fill_after_ok toks L ls :
  Forall2 (fun '(e, len, skip) l => directive e = line_has_directive l toks /\ len = length l /\
    skip = should_skip_for_directive_search l /\ after e = false) L ls ->
  length (fill_after L) = length L /\
  forall i e, L !! i = Some e ->
  fill_after L !! i = Some {| line_start := line_start e.1.1; directive := directive e.1.1;
    before := before e.1.1; after := directive_below toks (drop (S i) ls) |}.
Proof.
  induction 1 as [|[[e len] skip] l L ls He HL IH]; [done|]. simpl.
  destruct IH as [IHlen IH]. destruct He as (Hd & -> & -> & Ha).
  inversion HL as [|[[e2 len2] skip2] l2 L2 ls2 He2 HL2]; subst.
  - simpl. split; [done|]. intros [|i] x Hx; simplify_eq/=. by destruct e; simpl in *; subst.
  - destruct (fill_after ((e2, len2, skip2) :: L2)) as [|next rest'] eqn:Ef; [done|].
    split; [simpl in *; lia|].
    pose proof (IH 0 _ eq_refl) as H0. simpl in H0. injection H0 as H0.
    intros [|i] x Hx; simplify_eq/=; [|by apply (IH i)].
    do 2 f_equal. destruct He2 as (Hd2 & -> & -> & _). rewrite Hd2. f_equal.
    destruct (Nat.eqb (length l2) 0) eqn:E; tobool; simpl; [|done].
    by rewrite skip_empty.
Qed.

Lemma index_lookup c blob pre line post :
  has_tokens c = true -> split_lines blob = pre ++ line :: post ->
  lines (index_new c blob) !! length pre =
  Some {| line_start := length (unlines pre); directive := line_has_directive line (tokens c);
          before := directive_above (tokens c) (rev pre);
          after := directive_below (tokens c) post |}.
Proof.
  intros Ht E. unfold index_new. rewrite Ht. simpl. rewrite E.
  destruct (fill_after_ok (tokens c) _ _ (push_lines_forall2 (tokens c) (pre ++ line :: post) 0 None))
    as [_ H].
  rewrite (H _ _ (push_lines_lookup (tokens c) pre [] None 0 line post eq_refl)). simpl.
  rewrite (cons_middle line), app_assoc, (drop_app_length' (pre ++ [line])) by (rewrite length_app; simpl; lia).
  done.
Qed.

Lemma index_length c blob :
  has_tokens c = true -> length (lines (index_new c blob)) = length (split_lines blob).
Proof.
  intros Ht. unfold index_new. rewrite Ht. simpl.
  pose proof (push_lines_forall2 (tokens c) (split_lines blob) 0 None) as H.
  destruct (fill_after_ok _ _ _ H) as [-> _]. by apply Forall2_length in H.
Qed.

Lemma index_byte_len c blob : has_tokens c = true -> byte_len (index_new c blob) = length blob.
Proof. intros Ht. unfold index_new. by rewrite Ht. Qed.

Lemma take_middle_lookup {A} (l : list A) i x :
  l !! i = Some x -> exists p s, l = p ++ x :: s /\ length p = i.
Proof.
  intros H. exists (take i l), (drop (S i) l). split; [by rewrite take_drop_middle|].
  rewrite length_take_le; [done|]. apply lookup_lt_Some in H. lia.
Qed.

(** The line an offset selects in the index. *)
Lemma index_line c blob pre line post k :
  has_tokens c = true -> split_lines blob = pre ++ line :: post ->
  length (unlines pre) <= Nat.min k (length blob) <= length (unlines pre) + length line ->
  partition_point (fun l => line_start l <=? Nat.min k (byte_len (index_new c blob)))
    (lines (index_new c blob)) = S (length pre).
Proof.
  intros Ht E Hk. rewrite index_byte_len by done.
  assert (Hget : forall i x, lines (index_new c blob) !! i = Some x ->
    line_start x = length (unlines (take i (split_lines blob)))).
  { intros i x Hx. pose proof (lookup_lt_Some _ _ _ Hx) as Hlt. rewrite index_length in Hlt by done.
    destruct (lookup_lt_is_Some_2 _ _ Hlt) as [l Hl].
    destruct (take_middle_lookup _ _ _ Hl) as (p & s & Ep & <-).
    rewrite (index_lookup c blob p l s Ht Ep) in Hx. injection Hx as <-. simpl.
    by rewrite Ep, take_app_length. }
  apply partition_point_unique.
  - rewrite index_length by done. rewrite E, length_app. simpl. lia.
  - intros i x Hi Hx. rewrite (Hget i x Hx), E, take_app_le by lia. apply Nat.leb_le.
    assert (length (unlines (take i pre)) <= length (unlines pre)); [|lia].
    rewrite <- (take_drop i pre) at 2. rewrite unlines_app, length_app. lia.
  - intros x Hx. rewrite (Hget _ x Hx), E. apply Nat.leb_gt.
    rewrite take_app_ge by lia. replace (S (length pre) - length pre) with 1 by lia. simpl.
    rewrite unlines_app, length_app. simpl. rewrite length_app. simpl. lia.
Qed.

Lemma index_exact c blob span :
  has_tokens c = true ->
  index_should_ignore (index_new c blob) span = Some (suppressed (tokens c) blob span).
Proof.
  intros Ht. unfold index_should_ignore.
  assert (forall k, exists pre line post, split_lines blob = pre ++ line :: post /\
    length pre = line_of blob k /\
    length (unlines pre) <= Nat.min k (length blob) <= length (unlines pre) + length line) as Hzip.
  { intros k. destruct (line_zip blob (Nat.min k (length blob)) ltac:(lia))
      as (pre & line & post & Es & _ & Hl & _ & _ & _ & Hr).
    rewrite <- line_of_min in Hl. eauto 10. }
  destruct (Hzip (start span)) as (pre & line & post & E & Hl & Hr).
  destruct (Hzip (end_ span - 1)) as (pre2 & line2 & post2 & E2 & Hl2 & Hr2).
  destruct (lines (index_new c blob)) as [|x xs] eqn:El.
  { pose proof (index_length c blob Ht) as H. rewrite El, E, length_app in H. simpl in H. lia. }
  rewrite <- El. rewrite !(index_line c blob pre line post) by done.
  rewrite !(index_line c blob pre2 line2 post2) by done.
  simpl. rewrite !Nat.sub_0_r.
  rewrite (index_lookup c blob pre line post Ht E), (index_lookup c blob pre2 line2 post2 Ht E2).
  simpl. f_equal. unfold suppressed. rewrite <- Hl, <- Hl2. rewrite E at 1 2. rewrite E2.
  rewrite !nth_middle, take_app_length. rewrite (cons_middle line2), app_assoc.
  by rewrite (drop_app_length' (pre2 ++ [line2])) by (rewrite length_app; simpl; lia).
Qed.

(** ** Properties *)

Lemma suppressed_no_tokens blob span : suppressed [] blob span = false.
Proof.
  assert (forall l, line_has_directive l [] = false) as Hd.
  { intros l. unfold line_has_directive. by destruct (Nat.eqb _ 0). }
  assert (forall ls, directive_above [] ls = false) as Ha.
  { induction ls as [|l ls IH]; simpl; [done|]. rewrite Hd, IH. by rewrite andb_false_r, andb_false_r. }
  assert (forall ls, directive_below [] ls = false) as Hb.
  { induction ls as [|l ls IH]; simpl; [done|]. by rewrite Hd, IH, andb_false_r. }
  unfold suppressed. by rewrite !Hd, Ha, Hb.
Qed.

Lemma index_suppressed c blob span : index_should_ignore (index_new c blob) span = Some (suppressed (tokens c) blob span).
Proof.
  destruct (has_tokens c) eqn:Ht; [by apply index_exact|].
  unfold index_new, has_tokens in *. destruct (tokens c); [|done]. simpl. by rewrite suppressed_no_tokens.
Qed.

Lemma budget_suppressed c blob span b :
  match should_ignore_with_budget c blob span b with
  | Some ans => ans = suppressed (tokens c) blob span
  | None => (b < 512 * (Z.of_nat (length blob) + 1))%Z
  end.
Proof.
  destruct (has_tokens c) eqn:Ht; [by apply search_exact|].
  unfold should_ignore_with_budget. rewrite Ht. simpl. unfold has_tokens in Ht.
  destruct (tokens c); [|done]. by rewrite suppressed_no_tokens.
Qed.

(** What the cell may hold. *)
Definition cell_ok (c : InlineIgnoreConfig) (blob : bytes) (cache : option InlineIgnoreIndex) : Prop :=
  cache = None \/ cache = Some (index_new c blob).

Lemma cached_suppressed c blob span cache : cell_ok c blob cache ->
  let '(answer, cache') := should_ignore_cached c blob span cache in
  answer = Some (suppressed (tokens c) blob span) /\ cell_ok c blob cache'.
Proof.
  pose proof (index_suppressed c blob span) as Hix. pose proof (budget_suppressed c blob span 4096) as Hb.
  unfold should_ignore_cached, cell_ok. intros [->| ->].
  - destruct (should_ignore_with_budget _ _ _ _) as [a|]; [subst|rewrite Hix]; auto.
  - rewrite Hix. auto.
Qed.

(** C22. The cached answer is the reference whatever the state of the cache: with
    an empty cell the bounded search answers or hands over to the index, with a
    filled one the index answers, the index is never read out of range, and the
    cell only ever holds the index of this input. The unlimited search agrees on
    every input shorter than 2^54 bytes. *)
Theorem should_ignore_cached_exact c blob span cache :
  cache = None \/ cache = Some (index_new c blob) ->
  (let '(answer, cache') := should_ignore_cached c blob span cache in
   answer = Some (suppressed (tokens c) blob span) /\
   (cache' = None \/ cache' = Some (index_new c blob))) /\
  ((Z.of_nat (length blob) < 2 ^ 54)%Z ->
   should_ignore c blob span = Some (suppressed (tokens c) blob span)).
Proof.
  intros Hc. split; [by apply cached_suppressed|]. intros Hlen.
  unfold should_ignore. pose proof (budget_suppressed c blob span USIZE_MAX) as Hb.
  destruct (should_ignore_with_budget _ _ _ _) as [a|]; [by subst|].
  unfold USIZE_MAX, U64_MOD in Hb. lia.
Qed.

Definition nl : bytes := [10%Z].

Lemma should_ignore_cached_exact_witness :
  should_ignore (config_new []) (bs "key = 1" ++ nl ++ bs "# KingFisher:ignore") {| start := 6; end_ := 7 |}
  = Some true.
Proof.
  rewrite (proj2 (should_ignore_cached_exact (config_new [])
    (bs "key = 1" ++ nl ++ bs "# KingFisher:ignore") {| start := 6; end_ := 7 |} None (or_introl eq_refl))
    ltac:(vm_compute; reflexivity)).
  vm_compute. reflexivity.
Defined.

Lemma directive_above_iff toks ls :
  directive_above toks ls = true <->
  exists k l, ls !! k = Some l /\ line_has_directive l toks = true /\
    forall m x, m < k -> ls !! m = Some x -> 0 < length x /\ should_skip_for_directive_search x = true.
Proof.
  induction ls as [|l ls IH]; simpl.
  - split; [done|]. intros (k & l & H & _). by rewrite lookup_nil in H.
  - rewrite andb_true_iff, orb_true_iff, andb_true_iff, IH. split.
    + intros [H0 [H|[Hs (k & x & Hk & Hx & Hm)]]].
      * exists 0, l. split_and!; try done. lia.
      * exists (S k), x. split_and!; try done. intros [|m] y Hmk Hy; simplify_eq/=; [|by apply (Hm m); [lia|]].
        tobool. auto.
    + intros (k & x & Hk & Hx & Hm). destruct k as [|k]; simplify_eq/=.
      * split; [|by left]. unfold line_has_directive in Hx.
        destruct (length x) eqn:E; [done|]. done.
      * destruct (Hm 0 l) as [Hl Hs]; [lia|done|]. split; [by apply Nat.ltb_lt|].
        right. split; [done|]. exists k, x. split_and!; try done.
        intros m y Hmk Hy. apply (Hm (S m)); [lia|done].
Qed.

Lemma directive_below_iff toks ls :
  directive_below toks ls = true <->
  exists k l, ls !! k = Some l /\ line_has_directive l toks = true /\
    forall m x, m < k -> ls !! m = Some x -> should_skip_for_directive_search x = true.
Proof.
  induction ls as [|l ls IH]; simpl.
  - split; [done|]. intros (k & l & H & _). by rewrite lookup_nil in H.
  - rewrite orb_true_iff, andb_true_iff, IH. split.
    + intros [H|[Hs (k & x & Hk & Hx & Hm)]].
      * exists 0, l. split_and!; try done. lia.
      * exists (S k), x. split_and!; try done. intros [|m] y Hmk Hy; simplify_eq/=; [done|].
        by apply (Hm m); [lia|].
    + intros (k & x & Hk & Hx & Hm). destruct k as [|k]; simplify_eq/=; [by left|].
      right. split; [by apply (Hm 0); [lia|]|]. exists k, x. split_and!; try done.
      intros m y Hmk Hy. apply (Hm (S m)); [lia|done].
Qed.

(** The two searches in terms of the line numbers. *)
Lemma directive_above_lines toks ls i :
  i <= length ls ->
  directive_above toks (rev (take i ls)) = true <->
  exists k l, ls !! k = Some l /\ line_has_directive l toks = true /\ k < i /\
    forall m x, k < m < i -> ls !! m = Some x ->
      should_skip_for_directive_search x = true /\ 0 < length x.
Proof.
  intros Hi. rewrite directive_above_iff.
  assert (Hrev : forall m, m < i -> rev (take i ls) !! m = ls !! (i - S m)).
  { intros m Hm. rewrite rev_alt. fold (reverse (take i ls)).
    rewrite reverse_lookup by (rewrite length_take; lia).
    rewrite length_take, Nat.min_l by lia. rewrite lookup_take, decide_True by lia. done. }
  assert (Hrl : length (rev (take i ls)) = i) by (rewrite length_rev, length_take; lia).
  split.
  - intros (k & l & Hk & Hd & Hm). pose proof (lookup_lt_Some _ _ _ Hk) as Hlt. rewrite Hrl in Hlt.
    rewrite Hrev in Hk by lia. exists (i - S k), l. split_and!; try done; [lia|].
    intros m x Hmi Hx. apply and_comm, (Hm (i - S m) x); [lia|]. rewrite Hrev by lia.
    by replace (i - S (i - S m)) with m by lia.
  - intros (k & l & Hk & Hd & Hki & Hm). exists (i - S k), l. split_and!; try done.
    + rewrite Hrev by lia. by replace (i - S (i - S k)) with k by lia.
    + intros m x Hmk Hx. rewrite Hrev in Hx by lia. apply and_comm, (Hm (i - S m) x); [lia|done].
Qed.

Lemma directive_below_lines toks ls j :
  directive_below toks (drop (S j) ls) = true <->
  exists k l, ls !! k = Some l /\ line_has_directive l toks = true /\ j < k /\
    forall m x, j < m < k -> ls !! m = Some x -> should_skip_for_directive_search x = true.
Proof.
  rewrite directive_below_iff. split.
  - intros (k & l & Hk & Hd & Hm). rewrite lookup_drop in Hk. exists (S j + k), l.
    split_and!; try done; [lia|]. intros m x Hmj Hx. apply (Hm (m - S j) x); [lia|].
    rewrite lookup_drop. by replace (S j + (m - S j)) with m by lia.
  - intros (k & l & Hk & Hd & Hjk & Hm). exists (k - S j), l. split_and!; try done.
    + rewrite lookup_drop. by replace (S j + (k - S j)) with k by lia.
    + intros m x Hmk Hx. rewrite lookup_drop in Hx. by apply (Hm (S j + m)); [lia|].
Qed.

Lemma nth_directive toks ls i :
  line_has_directive (nth i ls []) toks = true <->
  exists l, ls !! i = Some l /\ line_has_directive l toks = true.
Proof.
  rewrite nth_lookup. destruct (ls !! i) as [l|]; simpl; split; eauto.
  - intros (x & ? & ?). by simplify_eq.
  - done.
  - by intros (x & ? & _).
Qed.

(** What suppresses a finding, in terms of the lines of the input. The index
    answers [true] exactly when some line [k] carries a directive and is the
    first or the last line of the span, or lies above the first line with only
    non-empty skippable lines in between, or below the last line with only
    skippable (possibly empty) lines in between. *)
Theorem inline_ignore_declarative c blob span :
  let ls := split_lines blob in
  let i := line_of blob (start span) in
  let j := line_of blob (end_ span - 1) in
  let skippable m := forall x, ls !! m = Some x -> should_skip_for_directive_search x = true in
  index_should_ignore (index_new c blob) span = Some true <->
  exists k l, ls !! k = Some l /\ line_has_directive l (tokens c) = true /\
    (k = i \/ k = j \/
     (k < i /\ forall m, k < m < i -> skippable m /\ (forall x, ls !! m = Some x -> 0 < length x)) \/
     (j < k /\ forall m, j < m < k -> skippable m)).
Proof.
  intros ls i j skippable.
  assert (index_should_ignore (index_new c blob) span = Some (suppressed (tokens c) blob span)) as ->.
  { destruct (has_tokens c) eqn:Ht; [by apply index_exact|].
    unfold index_new, has_tokens in *. destruct (tokens c); [|done]. simpl.
    by rewrite suppressed_no_tokens. }
  assert (Hi : i < length ls).
  { destruct (line_zip blob (Nat.min (start span) (length blob)) ltac:(lia))
      as (pre & line & post & E & _ & Hl & _). rewrite <- line_of_min in Hl.
    subst ls i. rewrite <- Hl, E, length_app. simpl. lia. }
  transitivity (suppressed (tokens c) blob span = true); [split; congruence|].
  unfold suppressed. fold ls i j.
  rewrite !orb_true_iff, !nth_directive, directive_above_lines, directive_below_lines by lia.
  split.
  - intros [[[(l & Hl & Hd)|(k & l & Hk & Hd & Hki & Hm)]|(l & Hl & Hd)]|(k & l & Hk & Hd & Hjk & Hm)].
    + eauto 10.
    + exists k, l. split_and!; try done. right; right; left. split; [done|].
      intros m Hmi. split; intros x Hx; by apply (Hm m x).
    + eauto 10.
    + exists k, l. split_and!; try done. right; right; right. split; [done|].
      intros m Hmi x Hx. by apply (Hm m x).
  - intros (k & l & Hk & Hd & [->|[->|[[Hki Hm]|[Hjk Hm]]]]).
    + left; left; left. eauto.
    + left; right. eauto.
    + left; left; right. exists k, l. split_and!; try done.
      intros m x Hmi Hx. destruct (Hm m Hmi) as [Hs Hn]. auto.
    + right. exists k, l. split_and!; try done. intros m x Hmi Hx. by apply (Hm m Hmi).
Qed.

Lemma add_tokens_spec additional : forall toks,
  NoDup toks ->
  NoDup (add_tokens toks additional) /\ (exists s, add_tokens toks additional = toks ++ s) /\
  forall t, In t (add_tokens toks additional) <-> In t toks \/
    exists a, In a additional /\ trim a <> [] /\ t = str_to_ascii_lowercase (trim a).
Proof.
  induction additional as [|a additional IH]; intros toks Hnd; simpl.
  - split; [done|]. split; [exists []; by rewrite app_nil_r|]. intros t.
    split; [auto|]. intros [?|(a & [] & _)]; done.
  - destruct (Nat.eqb _ 0) eqn:E0; tobool.
    + assert (trim a = []) as Ea by by apply nil_length_inv.
      destruct (IH toks Hnd) as (H1 & H2 & H3). split; [done|]. split; [done|].
      intros t. rewrite H3. split.
      * intros [?|(b & ? & ? & ?)]; eauto 10.
      * intros [?|(b & [->|?] & ? & ?)]; [by left|done|right; eauto].
    + assert (trim a <> []) as Ea by (intros H; by rewrite H in E0).
      destruct (existsb _ _) eqn:Ex.
      * apply existsb_exists in Ex as (x & Hx & Hb). unfold bytes_eqb in Hb.
        apply bool_decide_eq_true in Hb as <-.
        destruct (IH toks Hnd) as (H1 & H2 & H3). split; [done|]. split; [done|].
        intros t. rewrite H3. split.
        -- intros [?|(b & ? & ? & ?)]; eauto 10.
        -- intros [?|(b & [->|?] & ? & ->)]; [by left|by left|right; eauto].
      * assert (Hnin : ~ In (str_to_ascii_lowercase (trim a)) toks).
        { intros Hin. apply not_true_iff_false in Ex. apply Ex. apply existsb_exists.
          eexists. split; [exact Hin|]. by apply bool_decide_eq_true. }
        destruct (IH (toks ++ [str_to_ascii_lowercase (trim a)])) as (H1 & [s H2] & H3).
        { apply NoDup_app. split; [done|]. split; [|apply NoDup_singleton].
          intros x Hx Hin. apply list_elem_of_singleton in Hin as ->. apply Hnin.
          by apply list_elem_of_In. }
        split; [done|]. split; [rewrite H2; eexists; by rewrite <- app_assoc|].
        intros t. rewrite H3, in_app_iff. simpl. split.
        -- intros [[?|[<-|[]]]|(b & ? & ? & ?)]; eauto 10.
        -- intros [?|(b & [->|?] & ? & ->)]; [by left; left|by left; right; left|right; eauto].
Qed.

(** The configured tokens: no token twice, the built-in directive first, and
    beside it exactly the lower-cased trimmed non-blank additional tokens; and
    with any configuration a line's directive does not depend on its case. *)
Theorem config_new_tokens additional :
  let toks := tokens (config_new additional) in
  NoDup toks /\ head toks = Some (bs "kingfisher:ignore") /\
  (forall t, In t toks <-> t = bs "kingfisher:ignore" \/
    exists a, In a additional /\ trim a <> [] /\ t = str_to_ascii_lowercase (trim a)) /\
  (forall line, line_has_directive (str_to_ascii_lowercase line) toks = line_has_directive line toks).
Proof.
  intros toks.
  destruct (add_tokens_spec additional [bs "kingfisher:ignore"] (NoDup_singleton _)) as (H1 & [s H2] & H3).
  subst toks. simpl. split; [done|]. split; [by rewrite H2|]. split.
  - intros t. rewrite H3. simpl. split; intros [H|H]; [destruct H as [<-|[]]; eauto|eauto|subst; eauto|eauto].
  - intros line. unfold line_has_directive, str_to_ascii_lowercase. rewrite length_map.
    destruct (Nat.eqb _ 0); [done|]. f_equal. 
    assert (map to_ascii_lowercase (map to_ascii_lowercase line) = map to_ascii_lowercase line) as ->; [|done].
    rewrite map_map. apply map_ext. intros b. unfold to_ascii_lowercase, is_ascii_upper.
    destruct (65 ≤? b ≤? 90) eqn:E; [|by rewrite E]. tobool.
    destruct (65 ≤? b + 32 ≤? 90) eqn:E'; tobool; [lia|done].
Qed.
