(* ===== verification/Marshal.v ===== *)
(** * Python bytecode strings: [kingfisher-scanner/src/extraction/pyc.rs]

    The reader of CPython's marshal format: it walks the objects of a [.pyc] file
    with an explicit work stack and collects the string constants. The stack
    machine is modelled step by step, with its position in the input, the strings
    collected so far (which a lenient caller keeps after an error) and the checks
    of the scan control in the order they are made. *)

From Stdlib Require Import ZArith Lia Bool ZifyNat.
From stdpp Require Import base list numbers option.
From S2P Require Import Prelude Control.

Definition MAX_RECURSION_DEPTH : Z := 256.
Definition MAX_TOTAL_BYTES : Z := 64 * 1024 * 1024.
Definition MAX_COLLECTION_LEN : Z := 1000000.
Definition FLAG_REF : Z := 128.

Inductive CodeFormat := V33 | V38 | V311 | V313.

Definition leading_longs (f : CodeFormat) : Z := match f with V33 => 5 | V38 => 6 | V311 | V313 => 5 end.
Definition middle_objects (f : CodeFormat) : Z := match f with V33 | V38 | V311 | V313 => 8 end.
Definition trailing_objects (f : CodeFormat) : Z := match f with V33 | V38 => 1 | V311 | V313 => 2 end.

Definition pyc_version_info (magic : Z) : option (nat * CodeFormat) :=
  if 3000 ≤? magic ≤? 3189 then Some (8, V33)
  else if 3190 ≤? magic ≤? 3379 then Some (12, V33)
  else if 3380 ≤? magic ≤? 3399 then Some (16, V33)
  else if 3400 ≤? magic ≤? 3494 then Some (16, V38)
  else if 3495 ≤? magic ≤? 3567 then Some (16, V311)
  else if 3568 ≤? magic ≤? 3700 then Some (16, V313)
  else None.

(** [OutOfFuel] is the model's own: the loop never returns it. *)
Inductive PycError := Eof | Malformed | LimitBytes | LimitBytecodeWork | Aborted (a : ScanAborted) | OutOfFuel.

Inductive MarshalWork := Objects (count depth : Z) | Dictionary (depth : Z) | Skip (n : Z).

(** The fields of [MarshalReader] that change. *)
Record Reader := {
  position : nat; refs : nat; strings : bytes; total_extracted : Z; depth : Z
}.
Definition reader_new : Reader :=
  {| position := 0; refs := 0; strings := []; total_extracted := 0; depth := 0 |}.
Definition set_position (r : Reader) (p : nat) : Reader :=
  {| position := p; refs := refs r; strings := strings r; total_extracted := total_extracted r; depth := depth r |}.
Definition set_depth (r : Reader) (d : Z) : Reader :=
  {| position := position r; refs := refs r; strings := strings r; total_extracted := total_extracted r; depth := d |}.
Definition push_ref (r : Reader) : Reader :=
  {| position := position r; refs := S (refs r); strings := strings r;
     total_extracted := total_extracted r; depth := depth r |}.
Definition push_strings (r : Reader) (s : bytes) : Reader :=
  {| position := position r; refs := refs r; strings := strings r ++ s;
     total_extracted := total_extracted r + Z.of_nat (length s); depth := depth r |}.

(** A fallible operation on the reader; the reader survives an error. *)
Definition M (A : Type) : Type := Reader -> Clock -> nat -> (A + PycError) * Reader * nat.
Definition mret {A} (a : A) : M A := fun r _ n => (inl a, r, n).
Definition mfail {A} (e : PycError) : M A := fun r _ n => (inr e, r, n).
Definition mbind {A B} (m : M A) (f : A -> M B) : M B := fun r clock n =>
  match m r clock n with
  | (inl a, r, n) => f a r clock n
  | (inr e, r, n) => (inr e, r, n)
  end.
Definition mget : M Reader := fun r _ n => (inl r, r, n).
Definition mmodify (f : Reader -> Reader) : M unit := fun r _ n => (inl tt, f r, n).

Declare Scope pyc_scope.
Delimit Scope pyc_scope with pyc.
Notation "'let?' x ':=' m 'in' k" := (mbind m (fun x => k))
  (at level 10, x name, m at level 100, k at level 200) : pyc_scope.
Notation "m ';;?' k" := (mbind m (fun _ => k)) (at level 199, right associativity) : pyc_scope.
Open Scope pyc_scope.

Section Reader.
Context (input : bytes) (code_format : CodeFormat) (resources : ResourceLimits)
  (max_output_bytes : option Z) (control : ScanControl).

Definition mcheck : M unit := fun r clock n =>
  match check control clock n with
  | (inl tt, n) => (inl tt, r, n)
  | (inr a, n) => (inr (Aborted a), r, n)
  end.

(** [get(start..start + len)] and the move of the cursor past it. *)
Definition read_bytes (len : Z) : M bytes :=
  let? r := mget in
  match checked_add (Z.of_nat (position r)) len with
  | None => mfail Eof
  | Some stop =>
    if (Z.of_nat (length input) <? stop)%Z then mfail Eof
    else
      let stop := Z.to_nat stop in
      mmodify (fun r => set_position r stop) ;;? mret (slice input (position r) stop)
  end.
Definition skip (n : Z) : M unit := read_bytes n ;;? mret tt.
Definition read_u8 : M Z := let? b := read_bytes 1 in mret (default 0%Z (head b)).
Definition read_u32 : M Z := let? b := read_bytes 4 in mret (le_word b).
Definition read_i32 : M Z := let? v := read_u32 in mret (i32_of_u32 v).

Definition collect_string (data : bytes) : M unit :=
  mcheck ;;?
  let? r := mget in
  let len := Z.of_nat (length data) in
  let over :=
    match max_output_bytes with
    | Some limit =>
      let separator := if non_empty data && non_empty (strings r) then 1%Z else 0%Z in
      (limit <? saturating_add (saturating_add (total_extracted r) separator) len)%Z
    | None => false
    end in
  if over then mfail LimitBytes
  else if reached resources (total_extracted r) MAX_TOTAL_BYTES then mret tt
  else if negb (non_empty data) then mret tt
  else
    (if non_empty (strings r) then mmodify (fun r => push_strings r [10%Z]) else mret tt) ;;?
    let? r := mget in
    let allowed := saturating_sub MAX_TOTAL_BYTES (total_extracted r) in
    let take_ := cap resources len allowed in
    mmodify (fun r => push_strings r (take (Z.to_nat take_) data)).

(** An over-long part: the strict reader reports its limit, the lenient one the
    malformed object. *)
Definition over_limit {A} (e : PycError) : M A :=
  match max_output_bytes with Some _ => mfail e | None => mfail Malformed end.

Definition read_string (len : Z) : M unit :=
  if exceeds resources len MAX_TOTAL_BYTES then over_limit LimitBytes
  else let? data := read_bytes len in collect_string data.

Definition push_collection (n : Z) (work : list MarshalWork) : M (list MarshalWork) :=
  if exceeds resources n MAX_COLLECTION_LEN then over_limit LimitBytecodeWork
  else let? r := mget in mret (Objects n (depth r) :: work).

Definition is_one_of (t : byte) (s : bytes) : bool := existsb (Z.eqb t) s.

(** [match type_byte]; the top of the work stack is the head of the list. *)
Definition read_payload (type_byte : byte) (work : list MarshalWork) : M (list MarshalWork) :=
  let done (m : M unit) := m ;;? mret work in
  if is_one_of type_byte (bs "0NS.TF") then mret work
  else if type_byte ==? bc "i" then done (skip 4)
  else if type_byte ==? bc "I" then done (skip 8)
  else if type_byte ==? bc "f" then done (let? n := read_u8 in skip n)
  else if type_byte ==? bc "g" then done (skip 8)
  else if type_byte ==? bc "x" then
    done (let? n1 := read_u8 in skip n1 ;;? let? n2 := read_u8 in skip n2)
  else if type_byte ==? bc "y" then done (skip 16)
  else if type_byte ==? bc "l" then
    let? n := read_i32 in
    let words := Z.abs n in
    if exceeds resources words MAX_COLLECTION_LEN then over_limit LimitBytecodeWork
    else
      let bytes := (words * 2)%Z in
      if exceeds resources bytes MAX_TOTAL_BYTES then over_limit LimitBytecodeWork
      else done (skip bytes)
  else if is_one_of type_byte (bs "stuaA") then done (let? len := read_u32 in read_string len)
  else if is_one_of type_byte (bs "zZ") then
    done (let? len := read_u8 in let? data := read_bytes len in collect_string data)
  else if type_byte ==? bc "r" then done (skip 4)
  else if is_one_of type_byte (bs "([<>") then let? n := read_u32 in push_collection n work
  else if type_byte ==? bc ")" then
    let? n := read_u8 in let? r := mget in mret (Objects n (depth r) :: work)
  else if type_byte ==? bc "{" then let? r := mget in mret (Dictionary (depth r) :: work)
  else if type_byte ==? bc ":" then let? r := mget in mret (Objects 3 (depth r) :: work)
  else if type_byte ==? bc "c" then
    skip (4 * leading_longs code_format) ;;?
    let? r := mget in
    mret (Objects (middle_objects code_format) (depth r) :: Skip 4
            :: Objects (trailing_objects code_format) (depth r) :: work)
  else mfail Malformed.

Definition read_object_inner (work : list MarshalWork) : M (list MarshalWork) :=
  let? raw_type := read_u8 in
  (if negb (Z.land raw_type FLAG_REF ==? 0) then mmodify push_ref else mret tt) ;;?
  read_payload (Z.land raw_type 127) work.

(** [match next], with the rest of the stack. *)
Definition round (next : MarshalWork) (work : list MarshalWork) : M (list MarshalWork) :=
  match next with
  | Objects count d =>
    if count ==? 0 then mret work
    else if exceeds resources d MAX_RECURSION_DEPTH then over_limit LimitBytecodeWork
    else
      mmodify (fun r => set_depth r (d + 1)) ;;?
      read_object_inner (Objects (count - 1) d :: work)
  | Dictionary d =>
    let? b := read_u8 in
    if b ==? bc "0" then mret work
    else mmodify (fun r => set_position r (position r - 1)) ;;? mret (Objects 2 d :: Dictionary d :: work)
  | Skip n => skip n ;;? mret work
  end.

Definition full (r : Reader) : bool :=
  match max_output_bytes with None => true | Some _ => false end
  && reached resources (total_extracted r) MAX_TOTAL_BYTES.

(** [while let Some(next) = work.pop()] *)
Fixpoint read_loop (fuel : nat) (work : list MarshalWork) : M unit :=
  match work with
  | [] => mret tt
  | next :: work =>
    match fuel with
    | 0 => mfail OutOfFuel
    | S fuel =>
      mcheck ;;?
      let? r := mget in
      if full r then mret tt else let? work := round next work in read_loop fuel work
    end
  end.

(** Every byte read pays for the work it pushes; see [read_loop_fuel]. *)
Definition read_object : M unit := read_loop (6 * length input + 1) [Objects 1 0].

End Reader.

(** [match reader.read_object()] and what is returned; [strict] callers get the
    error. *)
Definition extract_pyc_data (data : bytes) (resources : ResourceLimits) (max_bytes : option Z)
    (control : ScanControl) (strict : bool) (clock : Clock) (n : nat) : (bytes + PycError) * nat :=
  if length data <? 8 then (inr Malformed, n)
  else
    let magic := le_word (take 2 data) in
    if negb (byte_at data 2 13 && byte_at data 3 10) then (inr Malformed, n)
    else
      match pyc_version_info magic with
      | None => (inl [], n)
      | Some (header_size, code_format) =>
        if length data <? header_size then (inr Malformed, n)
        else
          let marshal_data := drop header_size data in
          match marshal_data with
          | [] => (inl [], n)
          | _ =>
            match read_object marshal_data code_format resources max_bytes control reader_new clock n with
            | (inl tt, r, n) => (inl (strings r), n)
            | (inr e, r, n) =>
              match check control clock n with
              | (inr a, n) => (inr (Aborted a), n)
              | (inl tt, n) =>
                match e with
                | LimitBytes | LimitBytecodeWork => (inr e, n)
                | _ => if strict then (inr e, n) else (inl (strings r), n)
                end
              end
            end
          end
      end.

(** [extract_pyc_strings_with_limits] on the bytes of the file. *)
Definition extract_pyc_strings_with_limits (data : bytes) (resources : ResourceLimits)
    (clock : Clock) (n : nat) : (bytes + PycError) * nat :=
  extract_pyc_data data resources None control_default false clock n.

Definition extract_pyc_strings_from_bytes_with_budget (data : bytes) (max_bytes : Z)
    (control : ScanControl) (clock : Clock) (n : nat) : (bytes + PycError) * nat :=
  match check control clock n with
  | (inr a, n) => (inr (Aborted a), n)
  | (inl tt, n) =>
    extract_pyc_data data limits_default (Some (Z.min max_bytes MAX_TOTAL_BYTES)) control true clock n
  end.

(** ** Postconditions of the reader's operations *)

Section Wp.
Context (input : bytes) (fmt : CodeFormat) (res : ResourceLimits) (lim : option Z) (control : ScanControl).

(** Whatever the clock does, [m] answers with [Q] or fails with [E]. *)
Definition wp {A} (m : M A) (r : Reader) (Q : A -> Reader -> Prop) (E : PycError -> Reader -> Prop) : Prop :=
  forall clock n, match m r clock n with (inl a, r', _) => Q a r' | (inr e, r', _) => E e r' end.

Lemma wp_ret {A} (a : A) r (Q : A -> Reader -> Prop) E : Q a r -> wp (mret a) r Q E.
Proof. by intros H clock n. Qed.
Lemma wp_fail {A} e r (Q : A -> Reader -> Prop) (E : PycError -> Reader -> Prop) : E e r -> wp (mfail e) r Q E.
Proof. by intros H clock n. Qed.
Lemma wp_get r (Q : Reader -> Reader -> Prop) E : Q r r -> wp mget r Q E.
Proof. by intros H clock n. Qed.
Lemma wp_modify f r (Q : unit -> Reader -> Prop) E : Q tt (f r) -> wp (mmodify f) r Q E.
Proof. by intros H clock n. Qed.

Lemma wp_bind {A B} (m : M A) (f : A -> M B) r Q E :
  wp m r (fun a r' => wp (f a) r' Q E) E -> wp (mbind m f) r Q E.
Proof.
  intros H clock n. unfold mbind. specialize (H clock n).
  destruct (m r clock n) as [[[a|e] r'] n']; [apply H|done].
Qed.

Lemma wp_mono {A} (m : M A) r (Q Q' : A -> Reader -> Prop) (E E' : PycError -> Reader -> Prop) :
  wp m r Q E -> (forall a r', Q a r' -> Q' a r') -> (forall e r', E e r' -> E' e r') -> wp m r Q' E'.
Proof.
  intros H HQ HE clock n. specialize (H clock n). destruct (m r clock n) as [[[a|e] r'] n']; auto.
Qed.

Lemma wp_check r (Q : unit -> Reader -> Prop) (E : PycError -> Reader -> Prop) :
  Q tt r -> (forall a, is_limited control = true -> E (Aborted a) r) -> wp (mcheck control) r Q E.
Proof.
  intros HQ HE clock n. unfold mcheck. pose proof (refines_check control clock n) as H.
  destruct (check control clock n) as [[[]|a] n']; [done|]. destruct H as [H|[H _]]; [done|auto].
Qed.

(** Reading moves the cursor inside the input. *)
Lemma wp_read_bytes len r (Q : bytes -> Reader -> Prop) (E : PycError -> Reader -> Prop) :
  (0 <= len)%Z ->
  (position r + Z.to_nat len <= length input ->
   Q (slice input (position r) (position r + Z.to_nat len)) (set_position r (position r + Z.to_nat len))) ->
  E Eof r -> wp (read_bytes input len) r Q E.
Proof.
  intros Hl HQ HE. apply wp_bind, wp_get. unfold checked_add.
  destruct (_ <=? USIZE_MAX)%Z; [|by apply wp_fail]. destruct (_ <? _)%Z eqn:E1; [by apply wp_fail|]. tobool.
  replace (Z.to_nat (Z.of_nat (position r) + len)) with (position r + Z.to_nat len) by lia.
  apply wp_bind, wp_modify, wp_ret, HQ. lia.
Qed.

(** The data that is next in the input is read. *)
Definition next (r : Reader) (data : bytes) : Prop := exists rest, drop (position r) input = data ++ rest.

Lemma next_length r data : next r data -> position r + length data <= length input \/ data = [].
Proof.
  intros [rest H]. apply (f_equal length) in H. rewrite length_drop, length_app in H. destruct data; [by right|left].
  simpl in *. lia.
Qed.

Lemma next_app r a b : next r (a ++ b) -> next r a /\ next (set_position r (position r + length a)) b.
Proof.
  intros [rest H]. split; [exists (b ++ rest); by rewrite app_assoc|]. exists rest. cbn [position set_position].
  rewrite <- drop_drop, H, <- app_assoc. apply drop_app_length.
Qed.

Lemma wp_read_next data r (Q : bytes -> Reader -> Prop) E :
  position r <= length input -> (Z.of_nat (length input) <= USIZE_MAX)%Z ->
  next r data -> Q data (set_position r (position r + length data)) ->
  wp (read_bytes input (Z.of_nat (length data))) r Q E.
Proof.
  intros Hp Hm Hn HQ. assert (Hle : position r + length data <= length input)
    by (destruct (next_length r data Hn) as [H| ->]; simpl; lia).
  apply wp_bind, wp_get. unfold checked_add. rewrite (proj2 (Z.leb_le _ _)) by lia.
  rewrite (proj2 (Z.ltb_ge _ _)) by lia.
  replace (Z.to_nat (Z.of_nat (position r) + Z.of_nat (length data))) with (position r + length data) by lia.
  apply wp_bind, wp_modify, wp_ret. destruct Hn as [rest H]. unfold slice. rewrite H.
  replace (position r + length data - position r) with (length data) by lia. by rewrite take_app_length.
Qed.

End Wp.

(** ** The loop finishes *)

Section Termination.
Context (input : bytes) (fmt : CodeFormat) (res : ResourceLimits) (lim : option Z) (control : ScanControl).
Context (Hbytes : Forall byte_ok input).

Definition runs_on (e : PycError) (_ : Reader) : Prop := e <> OutOfFuel.

(** An operation that only moves the cursor forward, with an answer in [P]. *)
Definition steady {A} (m : M A) (P : A -> Prop) : Prop :=
  forall r, position r <= length input ->
    wp m r (fun a r' => P a /\ position r <= position r' <= length input) runs_on.

Lemma steady_ret {A} (a : A) (P : A -> Prop) : P a -> steady (mret a) P.
Proof. intros HP r Hr. apply wp_ret. split; [done|lia]. Qed.

Lemma steady_fail {A} e (P : A -> Prop) : e <> OutOfFuel -> steady (mfail e) P.
Proof. intros He r Hr. by apply wp_fail. Qed.

Lemma steady_get (P : Reader -> Prop) : (forall r, P r) -> steady mget P.
Proof. intros HP r Hr. apply wp_get. split; [done|lia]. Qed.

Lemma steady_modify f (P : unit -> Prop) :
  P tt -> (forall r, position (f r) = position r) -> steady (mmodify f) P.
Proof. intros HP Hf r Hr. apply wp_modify. rewrite Hf. split; [done|lia]. Qed.

Lemma steady_bind {A B} (m : M A) (f : A -> M B) P Q :
  steady m P -> (forall a, P a -> steady (f a) Q) -> steady (mbind m f) Q.
Proof.
  intros Hm Hf r Hr. apply wp_bind. eapply wp_mono; [by apply Hm| |done].
  intros a r' [Ha Hr']. eapply wp_mono; [apply Hf; [done|lia]| |done].
  intros b r'' [Hb Hr'']. split; [done|lia].
Qed.

Lemma steady_check : steady (mcheck control) (fun _ => True).
Proof. intros r Hr. apply wp_check; [split; [done|lia]|by intros]. Qed.

Lemma le_word_nonneg l : Forall byte_ok l -> (0 <= le_word l)%Z.
Proof. induction 1 as [|b l Hb _ IH]; simpl; [lia|]. unfold byte_ok in Hb. lia. Qed.

Lemma steady_read_bytes len :
  (0 <= len)%Z -> steady (read_bytes input len) (fun b => Forall byte_ok b /\ length b = Z.to_nat len).
Proof.
  intros Hl r Hr. apply wp_read_bytes; [done| |done]. intros H. cbn [position set_position].
  split; [|lia]. split; [|rewrite length_slice by lia; lia]. unfold slice. by apply Forall_take, Forall_drop.
Qed.

Lemma steady_skip n : (0 <= n)%Z -> steady (skip input n) (fun _ => True).
Proof.
  intros Hn. unfold skip. eapply steady_bind; [by apply steady_read_bytes|]. intros a _. by apply steady_ret.
Qed.

Lemma steady_u8 : steady (read_u8 input) (fun v => (0 <= v)%Z).
Proof.
  unfold read_u8. eapply steady_bind; [by apply steady_read_bytes|]. intros b [Hb _]. apply steady_ret.
  destruct Hb as [|x l Hx]; simpl; [lia|]. unfold byte_ok in Hx. lia.
Qed.

Lemma steady_u32 : steady (read_u32 input) (fun v => (0 <= v)%Z).
Proof.
  unfold read_u32. eapply steady_bind; [by apply steady_read_bytes|]. intros b [Hb _]. apply steady_ret.
  by apply le_word_nonneg.
Qed.

Lemma steady_i32 : steady (read_i32 input) (fun _ => True).
Proof. unfold read_i32. eapply steady_bind; [apply steady_u32|]. intros. by apply steady_ret. Qed.

Lemma steady_over {A} e (P : A -> Prop) : e <> OutOfFuel -> steady (over_limit lim e) P.
Proof. intros He. unfold over_limit. destruct lim; by apply steady_fail. Qed.

Lemma steady_collect data : steady (collect_string res lim control data) (fun _ => True).
Proof.
  unfold collect_string. eapply steady_bind; [apply steady_check|]. intros _ _.
  eapply steady_bind; [by apply (steady_get (fun _ => True))|]. intros r _.
  destruct (match lim with Some _ => _ | None => _ end); [by apply steady_fail|].
  destruct (reached _ _ _); [by apply steady_ret|]. destruct (negb _); [by apply steady_ret|].
  eapply (steady_bind _ _ (fun _ => True)); [destruct (non_empty _); [by apply steady_modify|by apply steady_ret]|]. intros _ _.
  eapply steady_bind; [by apply (steady_get (fun _ => True))|]. intros r' _. by apply steady_modify.
Qed.

(** What the work on the stack costs: each entry but a pending object, and one
    more for a dictionary on top, which only looks ahead. *)
Definition entry_cost (w : MarshalWork) : nat :=
  match w with Objects c _ => if c ==? 0 then 2 else 0 | Dictionary _ => 2 | Skip _ => 2 end.
Definition top_cost (work : list MarshalWork) : nat := match work with Dictionary _ :: _ => 1 | _ => 0 end.
Definition stack_cost (work : list MarshalWork) : nat := foldr (fun w n => entry_cost w + n) 0 work.
Definition potential (r : Reader) (work : list MarshalWork) : nat :=
  6 * (length input - position r) + stack_cost work + top_cost work.

Lemma entry_cost_le w : entry_cost w <= 2.
Proof. unfold entry_cost. repeat case_match; lia. Qed.
Lemma top_cost_le work : top_cost work <= 1.
Proof. unfold top_cost. repeat case_match; lia. Qed.

Definition cheap (work work' : list MarshalWork) : Prop :=
  stack_cost work' + top_cost work' <= stack_cost work + top_cost work + 3.
Definition no_skip_below (w : MarshalWork) : Prop := match w with Skip n => (0 <= n)%Z | _ => True end.

Lemma cheap_refl work : cheap work work.
Proof. unfold cheap. lia. Qed.
Lemma cheap_push w work : cheap work (w :: work).
Proof.
  unfold cheap. cbn [stack_cost foldr]. fold (stack_cost work). destruct w as [c d|d|n]; cbn [entry_cost top_cost]; [|lia..].
  destruct (c ==? 0); lia.
Qed.

Lemma steady_payload t work :
  Forall no_skip_below work ->
  steady (read_payload input fmt res lim control t work) (fun work' => cheap work work' /\ Forall no_skip_below work').
Proof.
  intros Hs. unfold read_payload.
  set (Pw := fun work' => cheap work work' /\ Forall no_skip_below work').
  assert (Hdone : forall m : M unit, steady m (fun _ => True) -> steady (m ;;? mret work) Pw).
  { intros m Hm. eapply steady_bind; [apply Hm|]. intros _ _. apply steady_ret. split; [apply cheap_refl|done]. }
  assert (Hpush : forall f : Reader -> MarshalWork, (forall r, no_skip_below (f r)) ->
            steady (let? r := mget in mret (f r :: work)) Pw).
  { intros f Hf. eapply steady_bind; [by apply (steady_get (fun _ => True))|]. intros r _.
    apply steady_ret. split; [apply cheap_push|by constructor]. }
  assert (Hbind8 : forall {B} (f : Z -> M B) Q, (forall n, (0 <= n)%Z -> steady (f n) Q) -> steady (mbind (read_u8 input) f) Q)
    by (intros B f Q Hf; eapply steady_bind; [apply steady_u8|]; done).
  assert (Hbind32 : forall {B} (f : Z -> M B) Q, (forall n, (0 <= n)%Z -> steady (f n) Q) -> steady (mbind (read_u32 input) f) Q)
    by (intros B f Q Hf; eapply steady_bind; [apply steady_u32|]; done).
  assert (Hstr : forall n, (0 <= n)%Z -> steady (let? data := read_bytes input n in collect_string res lim control data) (fun _ => True)).
  { intros n Hn. eapply steady_bind; [by apply steady_read_bytes|]. intros data _. apply steady_collect. }
  repeat match goal with
  | |- steady (if ?c then _ else _) _ => destruct c
  | |- steady (_ ;;? mret work) Pw => apply Hdone
  | |- steady (skip _ _) _ => apply steady_skip; lia
  | |- steady (mbind (read_u8 _) _) _ => apply Hbind8; intros
  | |- steady (mbind (read_u32 _) _) _ => apply Hbind32; intros
  | |- steady (mret work) _ => apply steady_ret; split; [apply cheap_refl|done]
  | |- steady (mfail _) _ => by apply steady_fail
  | |- steady (over_limit _ _) _ => by apply steady_over
  | |- steady (read_string _ _ _ _ _) _ => unfold read_string
  | |- steady (push_collection _ _ _ _) _ => unfold push_collection
  | |- steady (mbind (read_bytes _ _) _) _ => by apply Hstr
  | |- steady (mbind mget _) Pw => apply Hpush; intros; exact I
  end.
  - eapply steady_bind; [by apply steady_skip|]. intros _ _. apply Hbind8. intros. by apply steady_skip.
  - eapply steady_bind; [apply steady_i32|]. intros n _.
    repeat (destruct (exceeds _ _ _); [by apply steady_over|]). apply Hdone, steady_skip. lia.
  - eapply steady_bind; [apply steady_skip; destruct fmt; simpl; lia|]. intros _ _.
    eapply steady_bind; [by apply (steady_get (fun _ => True))|]. intros r _. apply steady_ret. split.
    + unfold cheap. cbn [stack_cost foldr top_cost]. fold (stack_cost work). destruct fmt; cbn; lia.
    + repeat (constructor; [simpl; lia || done|]). done.
Qed.

Lemma inner_progress work :
  Forall no_skip_below work -> forall r, position r <= length input ->
  wp (read_object_inner input fmt res lim control work) r
    (fun work' r' => cheap work work' /\ Forall no_skip_below work' /\ S (position r) <= position r' <= length input)
    runs_on.
Proof.
  intros Hs r Hr. apply wp_bind. unfold read_u8. apply wp_bind, wp_read_bytes; [done| |done].
  change (Z.to_nat 1) with 1. intros Hlt. apply wp_ret, wp_bind.
  set (r1 := set_position r (position r + 1)). set (t := default 0%Z _).
  assert (Hgo : forall r2, position r2 = position r + 1 ->
    wp (read_payload input fmt res lim control (Z.land t 127) work) r2
      (fun work' r' => cheap work work' /\ Forall no_skip_below work' /\ S (position r) <= position r' <= length input) runs_on).
  { intros r2 Hr2. eapply wp_mono; [apply steady_payload; [done|lia]| |done].
    intros work' r' [[Hc Hf] Hp]. split_and!; [done|done|lia|lia]. }
  destruct (negb _); [apply wp_modify|apply wp_ret]; by apply Hgo.
Qed.

(** What one round does before it goes on: the stack and the reader of the next
    round have a smaller potential. *)
Definition continues (work : list MarshalWork) (r : Reader) (work' : list MarshalWork) (r' : Reader) : Prop :=
  Forall no_skip_below work' /\ position r' <= length input /\ potential r' work' < potential r work.

Lemma round_continues next work r :
  Forall no_skip_below (next :: work) -> position r <= length input ->
  wp (round input fmt res lim control next work) r (continues (next :: work) r) runs_on.
Proof.
  intros [Hn Hs]%Forall_cons Hr. unfold continues, potential. pose proof (top_cost_le work) as Htop.
  destruct next as [c d|d|n]; cbn [round].
  - cbn [stack_cost foldr top_cost entry_cost]. fold (stack_cost work). destruct (c ==? 0) eqn:Ec.
    { apply wp_ret. split_and!; [done|done|lia]. }
    destruct (exceeds _ _ _); [unfold over_limit; destruct lim; by apply wp_fail|]. apply wp_bind, wp_modify.
    eapply wp_mono; [apply (inner_progress (Objects (c - 1) d :: work)); [by constructor|done]| |done].
    cbn [position set_depth]. intros work' r' (Hc & Hf & Hp). split_and!; [done|lia|].
    unfold cheap in Hc. cbn [stack_cost foldr top_cost] in Hc. fold (stack_cost work) in Hc.
    pose proof (entry_cost_le (Objects (c - 1) d)). lia.
  - cbn [stack_cost foldr top_cost entry_cost]. fold (stack_cost work).
    apply wp_bind. unfold read_u8. apply wp_bind, wp_read_bytes; [done| |done].
    change (Z.to_nat 1) with 1. intros Hlt. apply wp_ret. destruct (_ ==? _).
    + apply wp_ret. cbn [position set_position]. split_and!; [done|lia|lia].
    + apply wp_bind, wp_modify, wp_ret. cbn [position set_position].
      replace (position r + 1 - 1) with (position r) by lia. split_and!; [by repeat constructor|lia|]. simpl. lia.
  - cbn [stack_cost foldr top_cost entry_cost]. fold (stack_cost work).
    apply wp_bind. eapply wp_mono; [apply steady_skip; [done|done]| |done]. intros _ r' [_ Hp]. apply wp_ret.
    split_and!; [done|lia|lia].
Qed.

Lemma mbind_ext {A B} (m : M A) (f g : A -> M B) r (Q : A -> Reader -> Prop) E :
  wp m r Q E -> (forall a r', Q a r' -> forall clock n, f a r' clock n = g a r' clock n) ->
  forall clock n, mbind m f r clock n = mbind m g r clock n.
Proof.
  intros Hm Hf clock n. unfold mbind. specialize (Hm clock n). destruct (m r clock n) as [[[a|e] r'] n']; [by apply Hf|done].
Qed.

Abbreviation loop := (read_loop input fmt res lim control).

(** Fuel above the potential is enough, and more changes nothing. *)
Lemma read_loop_fuel fuel : forall fuel' work r,
  potential r work < fuel -> potential r work < fuel' ->
  Forall no_skip_below work -> position r <= length input ->
  wp (loop fuel work) r (fun _ _ => True) runs_on /\
  forall clock n, loop fuel work r clock n = loop fuel' work r clock n.
Proof.
  induction fuel as [|fuel IH]; intros fuel' work r Hf Hf' Hs Hr; [lia|]. destruct fuel' as [|fuel']; [lia|].
  destruct work as [|next work]; [split; [by apply wp_ret|done]|]. cbn [read_loop].
  pose proof (round_continues next work r Hs Hr) as Hround.
  assert (Hrec : forall work' r', continues (next :: work) r work' r' ->
            wp (loop fuel work') r' (fun _ _ => True) runs_on /\
            forall clock n, loop fuel work' r' clock n = loop fuel' work' r' clock n).
  { intros work' r' (Hs' & Hp & Hlt). apply IH; [lia|lia|done|done]. }
  split.
  - apply wp_bind, wp_check; [|done]. apply wp_bind, wp_get. destruct (full _ _ _); [by apply wp_ret|].
    apply wp_bind. eapply wp_mono; [apply Hround| |done]. intros work' r' Hc. by apply Hrec.
  - apply (mbind_ext _ _ _ r (fun _ r' => r' = r) (fun _ _ => True)); [by apply wp_check|].
    intros _ r' ->. cbv beta.
    apply (mbind_ext _ _ _ r (fun r1 r2 => r1 = r /\ r2 = r) (fun _ _ => True)); [by apply wp_get|].
    intros r1 r2 [-> ->]. destruct (full _ _ _); [done|].
    eapply mbind_ext; [apply Hround|]. intros work' r' Hc. by apply Hrec.
Qed.

(** Reading the objects of any input finishes: the model's fuel, six rounds
    for a byte of input, is enough (it never runs out, and more fuel gives the
    same result, whatever the clock), so the loop of the code ends on malformed
    input, deep nesting and dictionaries without an end too. *)
Theorem read_object_terminates fuel clock n :
  6 * length input < fuel ->
  fst (fst (read_object input fmt res lim control reader_new clock n)) <> inr OutOfFuel /\
  read_object input fmt res lim control reader_new clock n = loop fuel [Objects 1 0] reader_new clock n.
Proof.
  intros Hf. destruct (read_loop_fuel (6 * length input + 1) fuel [Objects 1 0] reader_new) as [Hw He].
  - unfold potential. simpl. lia.
  - unfold potential. simpl. lia.
  - by repeat constructor.
  - simpl. lia.
  - split; [|apply He]. specialize (Hw clock n). unfold read_object.
    destruct (loop _ _ _ clock n) as [[[a|e] r'] n']; [done|]. intros [= ->]. by apply Hw.
Qed.
End Termination.

Lemma read_object_terminates_witness :
  read_object (bs "[" ++ [5; 0; 0; 0]%Z) V38 limits_default None control_default reader_new (fun _ => {| is_cancelled := false; now := 0 |}) 0
  = read_loop (bs "[" ++ [5; 0; 0; 0]%Z) V38 limits_default None control_default 100 [Objects 1 0] reader_new
      (fun _ => {| is_cancelled := false; now := 0 |}) 0.
Proof.
  apply read_object_terminates; [|vm_compute; lia].
  apply bytes_ok. vm_compute. reflexivity.
Defined.

(** ** Objects and the strings in them *)

Inductive leaf :=
| LConst (t : byte) | LFixed (t : byte) (payload : bytes) | LFloat (text : bytes)
| LComplex (re im : bytes) | LLong (digits : Z) (payload : bytes)
| LStr (t : byte) (s : bytes) | LShort (t : byte) (s : bytes).
Inductive node := NSeq (t : byte) | NSmall | NDict | NSlice | NCode (header firstlineno : bytes).

(** An object as CPython writes it; [ref] is the reference flag of its tag. *)
Inductive mobj := Leaf (ref : bool) (l : leaf) | Node (ref : bool) (k : node) (kids : list mobj).

Definition tag (ref : bool) (t : byte) : byte := if ref then (t + 128)%Z else t.
Definition le32 (n : Z) : bytes := [n mod 256; n / 256 mod 256; n / 65536 mod 256; n / 16777216]%Z.
Definition len (l : bytes) : Z := Z.of_nat (length l).

Definition leaf_tag (l : leaf) : byte :=
  match l with
  | LConst t | LFixed t _ | LStr t _ | LShort t _ => t
  | LFloat _ => bc "f" | LComplex _ _ => bc "x" | LLong _ _ => bc "l"
  end.
Definition leaf_body (l : leaf) : bytes :=
  match l with
  | LConst _ => []
  | LFixed _ p => p
  | LFloat s => [len s] ++ s
  | LComplex a b => ([len a] ++ a) ++ [len b] ++ b
  | LLong n p => le32 (if (n <? 0)%Z then n + 2 ^ 32 else n)%Z ++ p
  | LStr _ s => le32 (len s) ++ s
  | LShort _ s => [len s] ++ s
  end.
Definition leaf_strings (l : leaf) : list bytes :=
  match l with LStr _ s | LShort _ s => [s] | _ => [] end.

Definition node_tag (k : node) : byte :=
  match k with NSeq t => t | NSmall => bc ")" | NDict => bc "{" | NSlice => bc ":" | NCode _ _ => bc "c" end.

Fixpoint encode (o : mobj) : bytes :=
  match o with
  | Leaf ref l => tag ref (leaf_tag l) :: leaf_body l
  | Node ref k kids =>
    let items := map encode kids in
    let count := Z.of_nat (length kids) in
    tag ref (node_tag k) ::
    match k with
    | NSeq _ => le32 count ++ concat items
    | NSmall => [count] ++ concat items
    | NDict => concat items ++ [bc "0"]
    | NSlice => concat items
    | NCode header firstlineno => header ++ concat (take 8 items) ++ firstlineno ++ concat (drop 8 items)
    end
  end.

(** The strings in the order they are written. *)
Fixpoint obj_strings (o : mobj) : list bytes :=
  match o with
  | Leaf _ l => leaf_strings l
  | Node _ _ kids => concat (map obj_strings kids)
  end.

(** Strings joined by a newline, the empty ones left out. *)
Definition collect (out s : bytes) : bytes :=
  if non_empty s then if non_empty out then out ++ [10%Z] ++ s else s else out.
Definition collect_all (out : bytes) (ss : list bytes) : bytes := fold_left collect ss out.

Definition u32 (n : Z) : Prop := (0 <= n < 2 ^ 32)%Z.
Definition u8 (n : Z) : Prop := (0 <= n < 256)%Z.

Section Objects.
Context (input : bytes) (fmt : CodeFormat) (res : ResourceLimits) (lim : option Z) (control : ScanControl).
Context (Hmax : (Z.of_nat (length input) <= USIZE_MAX)%Z).

Definition leaf_ok (l : leaf) : Prop :=
  match l with
  | LConst t => In t (bs "0NFTS.")
  | LFixed t p => In (t, length p) [(bc "i", 4); (bc "I", 8); (bc "g", 8); (bc "y", 16); (bc "r", 4)]
  | LFloat s => u8 (len s)
  | LComplex a b => u8 (len a) /\ u8 (len b)
  | LLong n p => (- 2 ^ 31 <= n < 2 ^ 31)%Z /\ len p = (2 * Z.abs n)%Z /\ exceeds res (Z.abs n) MAX_COLLECTION_LEN = false
  | LStr t s => In t (bs "stuaA") /\ u32 (len s)
  | LShort t s => In t (bs "zZ") /\ u8 (len s)
  end.
Definition node_ok (k : node) (n : nat) : Prop :=
  match k with
  | NSeq t => In t (bs "([<>") /\ u32 (Z.of_nat n) /\ exceeds res (Z.of_nat n) MAX_COLLECTION_LEN = false
  | NSmall => u8 (Z.of_nat n)
  | NDict => exists m, n = m + m
  | NSlice => n = 3
  | NCode header firstlineno =>
    len header = (4 * leading_longs fmt)%Z /\ length firstlineno = 4 /\
    Z.of_nat n = (middle_objects fmt + trailing_objects fmt)%Z
  end.
Definition is_null (o : mobj) : bool := match o with Leaf false (LConst t) => t ==? bc "0" | _ => false end.
Fixpoint keys_ok (kids : list mobj) : Prop :=
  match kids with
  | key :: _ :: kids => is_null key = false /\ keys_ok kids
  | _ => True
  end.

(** An object that CPython can write at depth [d] and the reader accepts. *)
Fixpoint obj_ok (d : Z) (o : mobj) : Prop :=
  exceeds res d MAX_RECURSION_DEPTH = false /\
  match o with
  | Leaf _ l => leaf_ok l
  | Node _ k kids =>
    node_ok k (length kids) /\ match k with NDict => keys_ok kids | _ => True end /\
    fold_right (fun o P => obj_ok (d + 1) o /\ P) True kids
  end.

(** The output the limits leave room for. *)
Definition fits (out : bytes) : Prop :=
  (unlimited res = true \/ (len out < MAX_TOTAL_BYTES)%Z) /\
  match lim with Some l => (len out <= l)%Z | None => True end.

(** *** Collecting *)

Lemma collect_length out s : (len out <= len (collect out s))%Z.
Proof. unfold collect, len. repeat case_match; rewrite ?length_app; simpl; try lia. apply negb_false_iff, bool_decide_eq_true in H0. subst out. simpl. lia. Qed.

Lemma collect_all_length out ss : (len out <= len (collect_all out ss))%Z.
Proof.
  revert out; induction ss as [|s ss IH]; intros out; [done|]. simpl.
  etrans; [apply (collect_length out s)|apply IH].
Qed.

Lemma collect_all_app out a b : collect_all out (a ++ b) = collect_all (collect_all out a) b.
Proof. apply fold_left_app. Qed.

Lemma fits_mono out out' : (len out <= len out')%Z -> fits out' -> fits out.
Proof. intros H [[Hu|Hm] Hl]; (split; [first [by left | right; lia]|destruct lim; [lia|done]]). Qed.

Lemma fits_prefix out ss : fits (collect_all out ss) -> fits out.
Proof. apply fits_mono, collect_all_length. Qed.

(** The reader's count is the length of what it collected. *)
Definition good (r : Reader) : Prop := position r <= length input /\ total_extracted r = len (strings r).

(** The reader after data with the strings [ss]. *)
Definition moved (r : Reader) (data : bytes) (ss : list bytes) (r' : Reader) : Prop :=
  position r' = position r + length data /\ good r' /\ strings r' = collect_all (strings r) ss.

Definition aborts (e : PycError) (_ : Reader) : Prop := exists a, e = Aborted a /\ is_limited control = true.

Lemma wp_collect s r (Q : unit -> Reader -> Prop) :
  good r -> fits (collect (strings r) s) ->
  (forall r', position r' = position r -> depth r' = depth r -> good r' -> strings r' = collect (strings r) s -> Q tt r') ->
  wp (collect_string res lim control s) r Q aborts.
Proof.
  intros [Hp Ht] [Hfit Hl] HQ. apply wp_bind, wp_check; [|by intros a Ha; exists a].
  apply wp_bind, wp_get. cbv zeta. rewrite Ht.
  assert (Hcl := collect_length (strings r) s). assert (Hnn : (0 <= len (strings r))%Z) by (unfold len; lia).
  assert (Hc : (len (collect (strings r) s) = len (strings r)
            + (if non_empty s && non_empty (strings r) then 1 else 0) + len s)%Z).
  { unfold collect. destruct (non_empty s) eqn:E1; cbn [andb].
    - destruct (non_empty (strings r)) eqn:E2; unfold len in *; [rewrite !length_app; simpl; lia|].
      apply negb_false_iff, bool_decide_eq_true in E2. rewrite E2. simpl. lia.
    - apply negb_false_iff, bool_decide_eq_true in E1. subst s. unfold len. simpl. lia. }
  assert (match lim with
          | Some limit => (limit <? saturating_add (saturating_add (len (strings r))
              (if non_empty s && non_empty (strings r) then 1 else 0)) (Z.of_nat (length s)))%Z
          | None => false
          end = false) as ->.
  { destruct lim as [l|]; [|done]. apply Z.ltb_ge. unfold saturating_add. unfold len in *. lia. }
  assert (reached res (len (strings r)) MAX_TOTAL_BYTES = false) as ->.
  { unfold reached. destruct Hfit as [->|Hm]; [done|]. apply andb_false_iff. right. apply Z.leb_gt. lia. }
  assert (Htake : forall t, (t + len s = len (collect (strings r) s))%Z ->
            Z.to_nat (cap res (Z.of_nat (length s)) (saturating_sub MAX_TOTAL_BYTES t)) = length s).
  { intros t Hts. unfold cap, saturating_sub, len in *. destruct Hfit as [->|Hm]; [lia|]. destruct (unlimited res); lia. }
  destruct (non_empty s) eqn:E1; cbn [negb andb] in *.
  2:{ apply wp_ret, HQ; [done|done|done|]. unfold collect. by rewrite E1. }
  apply wp_bind. unfold collect in *. rewrite E1 in *. destruct (non_empty (strings r)) eqn:E2.
  - apply wp_modify, wp_bind, wp_get, wp_modify. cbn [total_extracted push_strings]. rewrite Ht.
    change (Z.of_nat (length [10%Z])) with 1%Z. rewrite Htake by lia. rewrite take_ge by lia.
    apply HQ; cbn; [done|done| |by rewrite <- app_assoc].
    split; [done|]. cbn. rewrite Ht. unfold len. rewrite !length_app. simpl. lia.
  - apply wp_ret, wp_bind, wp_get, wp_modify. rewrite Ht, Htake by lia. rewrite take_ge by lia.
    apply negb_false_iff, bool_decide_eq_true in E2.
    apply HQ; cbn; [done|done| |by rewrite E2].
    split; [done|]. cbn. rewrite Ht. unfold len. rewrite !length_app. lia.
Qed.

(** *** Reading what was written *)

Abbreviation wpr m r Q := (wp m r Q aborts).

Lemma wp_next data r (Q : bytes -> Reader -> Prop) :
  good r -> next input r data ->
  (forall r', moved r data [] r' -> depth r' = depth r -> Q data r') ->
  wpr (read_bytes input (len data)) r Q.
Proof.
  intros [Hp Ht] Hn HQ. apply wp_read_next; [done|done|done|].
  destruct (next_length input r data Hn) as [Hle| ->].
  - apply HQ; [|done]. by repeat split.
  - apply HQ; [|done]. repeat split; [|done]. cbn. simpl. lia.
Qed.

Lemma wp_skip_next n data r (Q : unit -> Reader -> Prop) :
  good r -> next input r data -> n = len data ->
  (forall r', moved r data [] r' -> depth r' = depth r -> Q tt r') -> wpr (skip input n) r Q.
Proof.
  intros Hg Hn -> HQ. apply wp_bind. apply wp_next; [done|done|]. intros r' Hm Hd. apply wp_ret. auto.
Qed.

Lemma wp_u8_next b r (Q : Z -> Reader -> Prop) :
  good r -> next input r [b] ->
  (forall r', moved r [b] [] r' -> depth r' = depth r -> Q b r') -> wpr (read_u8 input) r Q.
Proof.
  intros Hg Hn HQ. apply wp_bind. apply (wp_next [b]); [done|done|]. intros r' Hm Hd. apply wp_ret. auto.
Qed.

Lemma le_word_le32 n : u32 n -> le_word (le32 n) = n.
Proof. unfold u32, le32. intros H. cbn [le_word]. dlia. Qed.

Lemma wp_u32_next n r (Q : Z -> Reader -> Prop) :
  good r -> u32 n -> next input r (le32 n) ->
  (forall r', moved r (le32 n) [] r' -> depth r' = depth r -> Q n r') -> wpr (read_u32 input) r Q.
Proof.
  intros Hg Hu Hn HQ. apply wp_bind. apply (wp_next (le32 n)); [done|done|]. intros r' Hm Hd. apply wp_ret.
  rewrite le_word_le32 by done. auto.
Qed.

(** After a part of the data, the rest is next. *)
Lemma moved_next r a b ss r' : next input r (a ++ b) -> moved r a ss r' -> next input r' b.
Proof.
  intros Hn (Hp & _). apply next_app in Hn as [_ [rest H]]. exists rest. cbn in H. by rewrite Hp.
Qed.
Lemma next_first r a b : next input r (a ++ b) -> next input r a.
Proof. by intros [H _]%next_app. Qed.

Lemma moved_trans r a sa r1 b sb r2 :
  moved r a sa r1 -> moved r1 b sb r2 -> moved r (a ++ b) (sa ++ sb) r2.
Proof.
  intros (Hp1 & _ & Hs1) (Hp2 & Hg & Hs2). repeat split; [rewrite length_app; lia|apply Hg|apply Hg|].
  by rewrite Hs2, Hs1, collect_all_app.
Qed.

Lemma moved_good r a ss r' : moved r a ss r' -> good r'.
Proof. by intros (_ & H & _). Qed.

Lemma moved_fits r a sa r' sb :
  fits (collect_all (strings r) (sa ++ sb)) -> moved r a sa r' -> fits (collect_all (strings r') sb).
Proof. intros H (_ & _ & ->). by rewrite collect_all_app in H. Qed.

(** The string of a length that has been read. *)
Lemma wp_string_next s r (Q : unit -> Reader -> Prop) :
  good r -> next input r s -> fits (collect (strings r) s) ->
  (forall r', moved r s [s] r' -> depth r' = depth r -> Q tt r') ->
  wpr (let? data := read_bytes input (len s) in collect_string res lim control data) r Q.
Proof.
  intros Hg Hn Hf HQ. apply wp_bind, wp_next; [done|done|]. intros r1 (Hp & Hg1 & Hs) Hd.
  apply wp_collect; [done|by rewrite Hs|]. intros r2 Hp2 Hd2 Hg2 Hs2. apply HQ; [|by rewrite Hd2].
  split_and!; [by rewrite Hp2|done|by rewrite Hs2, Hs].
Qed.

Lemma string_not_long out s : fits (collect out s) -> exceeds res (len s) MAX_TOTAL_BYTES = false.
Proof.
  intros [[Hu|Hm] _]; unfold exceeds; [by rewrite Hu|]. apply andb_false_iff. right. apply Z.ltb_ge.
  assert (len s <= len (collect out s))%Z; [|lia]. unfold collect, len. repeat case_match; rewrite ?length_app; simpl; try lia.
  match goal with H : non_empty s = false |- _ => apply negb_false_iff, bool_decide_eq_true in H; subst s end. simpl. lia.
Qed.

Abbreviation payload := (read_payload input fmt res lim control).

(** A payload that leaves the stack alone. *)
Lemma wp_done (m : M unit) work r (Q : list MarshalWork -> Reader -> Prop) :
  wpr m r (fun _ r' => Q work r') -> wpr (m ;;? mret work) r Q.
Proof. intros H. apply wp_bind. eapply wp_mono; [exact H| |done]. intros a r' HQ. by apply wp_ret. Qed.

Lemma i32_of_signed n :
  (- 2 ^ 31 <= n < 2 ^ 31)%Z ->
  u32 (if (n <? 0)%Z then n + 2 ^ 32 else n)%Z /\ i32_of_u32 (if (n <? 0)%Z then n + 2 ^ 32 else n)%Z = n.
Proof.
  unfold u32, i32_of_u32. intros H. destruct (n <? 0)%Z eqn:E; tobool.
  - rewrite (proj2 (Z.ltb_ge _ _)) by lia. lia.
  - rewrite (proj2 (Z.ltb_lt _ _)) by lia. lia.
Qed.

Lemma wp_long_payload n p work r (Q : list MarshalWork -> Reader -> Prop) :
  leaf_ok (LLong n p) -> good r -> next input r (leaf_body (LLong n p)) ->
  (forall r', moved r (leaf_body (LLong n p)) [] r' -> depth r' = depth r -> Q work r') ->
  wpr (payload (bc "l") work) r Q.
Proof.
  intros (Hn & Hp & Hx) Hg Hnext HQ. destruct (i32_of_signed n Hn) as [Hu Hi].
  change (payload (bc "l") work) with
    (let? n := read_i32 input in
     if exceeds res (Z.abs n) MAX_COLLECTION_LEN then over_limit lim LimitBytecodeWork
     else if exceeds res (Z.abs n * 2) MAX_TOTAL_BYTES then over_limit lim LimitBytecodeWork
     else skip input (Z.abs n * 2) ;;? mret work).
  cbn [leaf_body] in *. apply wp_bind, wp_bind, (wp_u32_next (if (n <? 0)%Z then n + 2 ^ 32 else n)%Z); [done|done|by eapply next_first|].
  intros r1 Hm1 Hd1. apply wp_ret. rewrite Hi, Hx.
  assert (exceeds res (Z.abs n * 2) MAX_TOTAL_BYTES = false) as ->.
  { unfold exceeds in *. destruct (unlimited res); [done|]. simpl in *. tobool.
    apply Z.ltb_ge. unfold MAX_TOTAL_BYTES, MAX_COLLECTION_LEN in *. lia. }
  apply wp_done, (wp_skip_next _ p); [by eapply moved_good|by eapply moved_next|lia|].
  intros r2 Hm2 Hd2. apply HQ; [|by rewrite Hd2]. by eapply (moved_trans _ _ []).
Qed.

(** Every constant, number and string is read past, and a string is collected. *)
Lemma wp_leaf_payload l work r (Q : list MarshalWork -> Reader -> Prop) :
  leaf_ok l -> good r -> next input r (leaf_body l) -> fits (collect_all (strings r) (leaf_strings l)) ->
  (forall r', moved r (leaf_body l) (leaf_strings l) r' -> depth r' = depth r -> Q work r') ->
  wpr (payload (leaf_tag l) work) r Q.
Proof.
  intros Hok Hg Hn Hf HQ.
  destruct l as [t|t p|s|a b|n p|t s|t s]; cbn [leaf_tag leaf_body leaf_strings leaf_ok] in *.
  - assert (payload t work = mret work) as -> by (simpl in Hok; repeat destruct Hok as [<-|Hok]; done).
    apply wp_ret, HQ; [|done]. split_and!; [simpl; lia|done|done].
  - assert (payload t work = (skip input (len p) ;;? mret work)) as ->.
    { simpl in Hok. unfold len. repeat destruct Hok as [[= <- <-]|Hok]; done. }
    apply wp_done, (wp_skip_next _ p); [done|done|done|]. auto.
  - change (payload (bc "f") work) with ((let? n := read_u8 input in skip input n) ;;? mret work).
    apply wp_done, wp_bind, (wp_u8_next (len s)); [done|by eapply next_first|]. intros r1 Hm1 Hd1.
    apply (wp_skip_next _ s); [by eapply moved_good|by eapply moved_next|done|]. intros r2 Hm2 Hd2.
    apply HQ; [|by rewrite Hd2]. by eapply (moved_trans _ _ []).
  - change (payload (bc "x") work) with
      ((let? n1 := read_u8 input in skip input n1 ;;? let? n2 := read_u8 input in skip input n2) ;;? mret work).
    rewrite <- app_assoc in *.
    apply wp_done, wp_bind, (wp_u8_next (len a)); [done|by eapply next_first|]. intros r1 Hm1 Hd1.
    assert (N1 := moved_next _ _ _ _ _ Hn Hm1).
    apply wp_bind, (wp_skip_next _ a); [by eapply moved_good|by eapply next_first|done|]. intros r2 Hm2 Hd2.
    assert (N2 := moved_next _ _ _ _ _ N1 Hm2).
    apply wp_bind, (wp_u8_next (len b)); [by eapply moved_good|by eapply next_first|]. intros r3 Hm3 Hd3.
    apply (wp_skip_next _ b); [by eapply moved_good|by eapply moved_next|done|]. intros r4 Hm4 Hd4.
    apply HQ; [|congruence].
    exact (moved_trans _ _ _ _ _ _ _ Hm1 (moved_trans _ _ _ _ _ _ _ Hm2 (moved_trans _ _ _ _ _ _ _ Hm3 Hm4))).
  - by apply (wp_long_payload n p).
  - destruct Hok as [Ht Hu].
    assert (payload t work = ((let? n := read_u32 input in read_string input res lim control n) ;;? mret work)) as ->
      by (simpl in Ht; repeat destruct Ht as [<-|Ht]; done).
    apply wp_done, wp_bind, (wp_u32_next (len s)); [done|done|by eapply next_first|]. intros r1 Hm1 Hd1.
    assert (Hf1 : fits (collect (strings r1) s)) by exact (moved_fits _ _ [] _ [s] Hf Hm1).
    unfold read_string. rewrite (string_not_long (strings r1)) by done.
    apply wp_string_next; [by eapply moved_good|by eapply moved_next|done|]. intros r2 Hm2 Hd2.
    apply HQ; [|by rewrite Hd2]. by eapply (moved_trans _ _ []).
  - destruct Hok as [Ht Hu].
    assert (payload t work = ((let? n := read_u8 input in
              let? data := read_bytes input n in collect_string res lim control data) ;;? mret work)) as ->
      by (simpl in Ht; repeat destruct Ht as [<-|Ht]; done).
    apply wp_done, wp_bind, (wp_u8_next (len s)); [done|by eapply next_first|]. intros r1 Hm1 Hd1.
    apply wp_string_next; [by eapply moved_good|by eapply moved_next|exact (moved_fits _ _ [] _ [s] Hf Hm1)|].
    intros r2 Hm2 Hd2. apply HQ; [|by rewrite Hd2]. by eapply (moved_trans _ _ []).
Qed.

(** The tag and the reference flag are read before the payload. *)
Lemma wp_inner ref t work r (Q : list MarshalWork -> Reader -> Prop) :
  (0 <= t < 128)%Z -> good r -> next input r [tag ref t] ->
  (forall r', moved r [tag ref t] [] r' -> depth r' = depth r -> wpr (payload t work) r' Q) ->
  wpr (read_object_inner input fmt res lim control work) r Q.
Proof.
  intros Ht Hg Hn HQ. apply wp_bind, (wp_u8_next (tag ref t)); [done|done|]. intros r1 Hm Hd.
  assert (Z.land (tag ref t) 127 = t) as ->.
  { change 127%Z with (Z.ones 7). rewrite Z.land_ones by lia. unfold tag. destruct ref; dlia. }
  apply wp_bind. destruct (negb _); [apply wp_modify|apply wp_ret]; (apply HQ; [|done]); done.
Qed.

Lemma foldr_conj_app {A} (P : A -> Prop) a b :
  fold_right (fun o R => P o /\ R) True (a ++ b) <->
  fold_right (fun o R => P o /\ R) True a /\ fold_right (fun o R => P o /\ R) True b.
Proof. induction a as [|x a IH]; simpl; [tauto|]. rewrite IH. tauto. Qed.

(** *** Runs of the loop *)

Context (Hbytes : Forall byte_ok input) (Q : Reader -> Prop).

(** The loop started on this stack ends in [Q] or is aborted. *)
Definition runs (work : list MarshalWork) (r : Reader) : Prop :=
  wpr (read_loop input fmt res lim control (S (potential input r work)) work) r (fun _ r' => Q r').

Lemma runs_end r : Q r -> runs [] r.
Proof. intros H. by apply wp_ret. Qed.

Lemma wp_and {A} (m : M A) r (Q1 Q2 : A -> Reader -> Prop) (E1 E2 : PycError -> Reader -> Prop) :
  wp m r Q1 E1 -> wp m r Q2 E2 -> wp m r (fun a r' => Q1 a r' /\ Q2 a r') (fun e r' => E1 e r' /\ E2 e r').
Proof.
  intros H1 H2 clock n. specialize (H1 clock n). specialize (H2 clock n).
  by destruct (m r clock n) as [[[a|e] r'] n'].
Qed.

Lemma runs_step next work r :
  Forall no_skip_below (next :: work) -> position r <= length input -> full res lim r = false ->
  wpr (round input fmt res lim control next work) r (fun work' r' => runs work' r') -> runs (next :: work) r.
Proof.
  intros Hs Hp Hfull Hr. unfold runs. cbn [read_loop].
  apply wp_bind, wp_check; [|by intros a Ha; exists a]. apply wp_bind, wp_get. rewrite Hfull. apply wp_bind.
  eapply wp_mono; [apply (wp_and _ _ _ _ _ _ (round_continues input fmt res lim control Hbytes next work r Hs Hp) Hr)| |].
  - intros work' r' [(Hs' & Hp' & Hlt) Hrun] clock n.
    destruct (read_loop_fuel input fmt res lim control Hbytes (potential input r (next :: work))
                (S (potential input r' work')) work' r') as [_ ->]; [lia|lia|done|done|]. apply Hrun.
  - by intros e r' [_ H].
Qed.

Lemma not_full r out : good r -> fits out -> (len (strings r) <= len out)%Z -> full res lim r = false.
Proof.
  intros [_ Ht] [Hf _] Hl. unfold full, reached. destruct lim; [done|]. simpl. rewrite Ht.
  destruct Hf as [->|Hm]; [done|]. apply andb_false_iff. right. apply Z.leb_gt. lia.
Qed.

(** What reading an object at depth [d] does to the stack. *)
Definition reads (o : mobj) : Prop := forall d n work r,
  (0 <= n)%Z -> obj_ok d o -> good r -> next input r (encode o) ->
  fits (collect_all (strings r) (obj_strings o)) -> Forall no_skip_below work ->
  (forall r', moved r (encode o) (obj_strings o) r' -> runs (Objects n d :: work) r') ->
  runs (Objects (n + 1) d :: work) r.

(** The round that starts an object. *)
Lemma start_object ref t d n work r out :
  (0 <= n)%Z -> (0 <= t < 128)%Z -> exceeds res d MAX_RECURSION_DEPTH = false ->
  good r -> next input r [tag ref t] -> fits out -> (len (strings r) <= len out)%Z -> Forall no_skip_below work ->
  (forall r', moved r [tag ref t] [] r' -> depth r' = (d + 1)%Z ->
     wpr (payload t (Objects n d :: work)) r' (fun work' r'' => runs work' r'')) ->
  runs (Objects (n + 1) d :: work) r.
Proof.
  intros Hn Ht Hd Hg Hnext Hf Hl Hs Hp. apply runs_step; [by constructor|apply Hg|by eapply not_full|].
  cbn [round]. rewrite (proj2 (Z.eqb_neq _ _)) by lia. rewrite Hd. apply wp_bind, wp_modify.
  replace (n + 1 - 1)%Z with n by lia. apply (wp_inner ref t); [done|done|done|]. intros r1 Hm Hd1. by apply Hp.
Qed.

Lemma leaf_tag_range l : leaf_ok l -> (0 <= leaf_tag l < 128)%Z.
Proof.
  destruct l as [t|t p|s|a b|n p|t s|t s]; cbn [leaf_tag leaf_ok]; try (intros _; by vm_compute).
  - intros H. simpl in H. repeat destruct H as [<-|H]; by vm_compute.
  - intros H. simpl in H. repeat destruct H as [[= <- _]|H]; by vm_compute.
  - intros [H _]. simpl in H. repeat destruct H as [<-|H]; by vm_compute.
  - intros [H _]. simpl in H. repeat destruct H as [<-|H]; by vm_compute.
Qed.

Lemma reads_leaf ref l : reads (Leaf ref l).
Proof.
  intros d n work r Hn [Hd Hok] Hg Hnext Hf Hs Hrun. cbn [encode obj_strings] in *.
  change (tag ref (leaf_tag l) :: leaf_body l) with ([tag ref (leaf_tag l)] ++ leaf_body l) in *.
  eapply (start_object ref (leaf_tag l)); [done|by apply leaf_tag_range|done|done|by eapply next_first|exact Hf
    |apply collect_all_length|done|].
  intros r1 Hm1 Hd1. apply wp_leaf_payload; [done|by eapply moved_good|by eapply moved_next
    |exact (moved_fits _ _ [] _ _ Hf Hm1)|].
  intros r2 Hm2 Hd2. apply Hrun. exact (moved_trans _ _ _ _ _ _ _ Hm1 Hm2).
Qed.

(** Popping what is done. *)
Lemma runs_pop d work r out :
  good r -> fits out -> (len (strings r) <= len out)%Z -> Forall no_skip_below work ->
  runs work r -> runs (Objects 0 d :: work) r.
Proof.
  intros Hg Hf Hl Hs Hr. apply runs_step; [by constructor|apply Hg|by eapply not_full|]. by apply wp_ret.
Qed.

(** Reading the members of a collection. *)
Lemma reads_list kids : Forall reads kids -> forall d n work r,
  (0 <= n)%Z -> fold_right (fun o P => obj_ok d o /\ P) True kids -> good r ->
  next input r (concat (map encode kids)) ->
  fits (collect_all (strings r) (concat (map obj_strings kids))) -> Forall no_skip_below work ->
  (forall r', moved r (concat (map encode kids)) (concat (map obj_strings kids)) r' -> runs (Objects n d :: work) r') ->
  runs (Objects (n + Z.of_nat (length kids)) d :: work) r.
Proof.
  induction 1 as [|o kids Ho _ IH]; intros d n work r Hn Hok Hg Hnext Hf Hs Hrun.
  { rewrite Z.add_0_r. apply Hrun. by split_and!; [simpl; lia|..]. }
  cbn [map concat length fold_right] in *. destruct Hok as [Hok Hoks].
  replace (n + Z.of_nat (S (length kids)))%Z with (n + Z.of_nat (length kids) + 1)%Z by lia.
  apply Ho; [lia|done|done|by eapply next_first| |done|].
  { eapply fits_prefix. by rewrite <- collect_all_app. }
  intros r1 Hm1. apply IH; [done|done|by eapply moved_good|by eapply moved_next|by eapply moved_fits|done|].
  intros r2 Hm2. apply Hrun. by eapply moved_trans.
Qed.

(** The members of a collection whose count has been read. *)
Lemma reads_members kids d n work r out sa : Forall reads kids ->
  fold_right (fun o P => obj_ok d o /\ P) True kids -> good r -> next input r (concat (map encode kids)) ->
  fits (collect_all (strings r) (concat (map obj_strings kids))) -> Forall no_skip_below work ->
  out = concat (map encode kids) -> sa = concat (map obj_strings kids) -> n = Z.of_nat (length kids) ->
  (forall r', moved r out sa r' -> runs work r') ->
  runs (Objects n d :: work) r.
Proof.
  intros Hk Hok Hg Hnext Hf Hs -> -> -> Hrun. apply (reads_list kids Hk d 0%Z work r); try done.
  intros r' Hm. eapply runs_pop; [by eapply moved_good|exact Hf| |done|by apply Hrun].
  by destruct Hm as (_ & _ & ->).
Qed.

Lemma encode_first o d : obj_ok d o -> is_null o = false -> exists b l, encode o = b :: l /\ (b ==? bc "0") = false.
Proof.
  destruct o as [ref l|ref k kids]; cbn [encode obj_ok]; intros [_ Hok] Hn; (eexists _, _; split; [done|]).
  - pose proof (leaf_tag_range l Hok) as Hr. destruct ref; cbn [tag]; [apply Z.eqb_neq; unfold bc; simpl; lia|].
    destruct l as [t|t p|s|a b|n p|t s|t s]; cbn [leaf_tag is_null leaf_ok] in *; try done.
    + simpl in Hok. repeat destruct Hok as [[= <- _]|Hok]; done.
    + destruct Hok as [Hok _]. simpl in Hok. repeat destruct Hok as [<-|Hok]; done.
    + destruct Hok as [Hok _]. simpl in Hok. repeat destruct Hok as [<-|Hok]; done.
  - destruct Hok as [Hok _]. destruct k as [t| | | |h f]; cbn [node_tag node_ok] in *;
      [destruct Hok as [Hok _]; simpl in Hok; repeat destruct Hok as [<-|Hok]|..]; destruct ref; done.
Qed.

(** A dictionary reads pairs until the null byte. *)
Lemma reads_dict m : forall kids d work r, length kids = m + m -> Forall reads kids -> keys_ok kids ->
  fold_right (fun o P => obj_ok d o /\ P) True kids -> good r ->
  next input r (concat (map encode kids) ++ [bc "0"]) ->
  fits (collect_all (strings r) (concat (map obj_strings kids))) -> Forall no_skip_below work ->
  (forall r', moved r (concat (map encode kids) ++ [bc "0"]) (concat (map obj_strings kids)) r' -> runs work r') ->
  runs (Dictionary d :: work) r.
Proof.
  induction m as [|m IH]; intros kids d work r Hl Hk Hkeys Hok Hg Hnext Hf Hs Hrun.
  - destruct kids; [|done]. apply runs_step; [by constructor|apply Hg|by eapply not_full, Z.le_refl|].
    cbn [round]. apply wp_bind, (wp_u8_next (bc "0")); [done|done|]. intros r1 Hm Hd.
    rewrite Z.eqb_refl. apply wp_ret. by apply Hrun.
  - destruct kids as [|key [|value kids]]; [done|simpl in Hl; lia|].
    apply Forall_cons in Hk as [Hkey Hk]. apply Forall_cons in Hk as [Hvalue Hk].
    cbn [map concat fold_right keys_ok length] in *. destruct Hkeys as [Hnull Hkeys], Hok as (Hok1 & Hok2 & Hoks).
    apply runs_step; [by constructor|apply Hg| |].
    { eapply not_full; [done|exact Hf|apply collect_all_length]. }
    cbn [round]. destruct (encode_first key d Hok1 Hnull) as (b & l & Eb & Hb).
    rewrite <- !app_assoc in Hnext. apply wp_bind, (wp_u8_next b); [done| |].
    { rewrite Eb in Hnext. by apply (next_first _ [b] _) in Hnext. }
    intros r1 (Hp1 & Hg1 & Hs1) Hd1. rewrite Hb. apply wp_bind, wp_modify, wp_ret.
    set (r2 := set_position r1 (position r1 - 1)).
    assert (Hm0 : moved r [] [] r2).
    { subst r2. split_and!; cbn; [rewrite Hp1; simpl; lia| |done]. split; [cbn; rewrite Hp1; simpl; destruct Hg; lia|apply Hg1]. }
    assert (Hn2 : next input r2 (encode key ++ encode value ++ concat (map encode kids) ++ [bc "0"])).
    { destruct Hnext as [rest Hr]. exists rest. rewrite (proj1 Hm0). simpl. by rewrite Nat.add_0_r. }
    assert (Hf2 : fits (collect_all (strings r2) (obj_strings key ++ obj_strings value ++ concat (map obj_strings kids))))
      by by rewrite (proj2 (proj2 Hm0)).
    apply (Hkey d 1%Z (Dictionary d :: work) r2); [done|done|apply Hm0|by eapply next_first| |by constructor|].
    { eapply fits_prefix. by rewrite <- collect_all_app. }
    intros r3 Hm3. assert (Hn3 := moved_next _ _ _ _ _ Hn2 Hm3). assert (Hf3 := moved_fits _ _ _ _ _ Hf2 Hm3).
    apply (Hvalue d 0%Z (Dictionary d :: work) r3); [done|done|by eapply moved_good|by eapply next_first| |by constructor|].
    { eapply fits_prefix. by rewrite <- collect_all_app. }
    intros r4 Hm4. assert (Hn4 := moved_next _ _ _ _ _ Hn3 Hm4). assert (Hf4 := moved_fits _ _ _ _ _ Hf3 Hm4).
    eapply runs_pop; [by eapply moved_good|exact Hf4|apply collect_all_length|by constructor|].
    apply (IH kids); [simpl in Hl; lia|done|done|done|by eapply moved_good|done|done|done|].
    intros r5 Hm5. apply Hrun. rewrite <- !app_assoc.
    exact (moved_trans _ _ _ _ _ _ _ Hm0 (moved_trans _ _ _ _ _ _ _ Hm3 (moved_trans _ _ _ _ _ _ _ Hm4 Hm5))).
Qed.

Lemma node_tag_range k n : node_ok k n -> (0 <= node_tag k < 128)%Z.
Proof.
  destruct k as [t| | | |h f]; cbn [node_tag node_ok]; try (intros _; by vm_compute).
  intros [H _]. simpl in H. repeat destruct H as [<-|H]; by vm_compute.
Qed.

Definition node_body (k : node) (kids : list mobj) : bytes := tail (encode (Node false k kids)).

(** What the payload of a collection or a code object does: it pushes the reads
    of the members. *)
Lemma wp_node_payload k kids d work r : Forall reads kids ->
  node_ok k (length kids) -> match k with NDict => keys_ok kids | _ => True end ->
  fold_right (fun o P => obj_ok d o /\ P) True kids -> good r -> depth r = d -> next input r (node_body k kids) ->
  fits (collect_all (strings r) (concat (map obj_strings kids))) -> Forall no_skip_below work ->
  (forall r', moved r (node_body k kids) (concat (map obj_strings kids)) r' -> runs work r') ->
  wpr (payload (node_tag k) work) r (fun work' r' => runs work' r').
Proof.
  intros Hk Hok Hkeys Hoks Hg Hd Hnext Hf Hs Hrun.
  destruct k as [t| | | |h f]; cbn [node_tag node_ok node_body encode tail] in *.
  - destruct Hok as (Ht & Hu & Hx).
    assert (payload t work = (let? n := read_u32 input in push_collection res lim n work)) as ->
      by (simpl in Ht; repeat destruct Ht as [<-|Ht]; done).
    apply wp_bind, (wp_u32_next (Z.of_nat (length kids))); [done|done|by eapply next_first|]. intros r1 Hm Hd1.
    unfold push_collection. rewrite Hx. apply wp_bind, wp_get, wp_ret. rewrite Hd1, Hd.
    eapply reads_members; try done; [by eapply moved_good|by eapply moved_next|exact (moved_fits _ _ [] _ _ Hf Hm)|].
    intros r2 Hm2. apply Hrun. exact (moved_trans _ _ _ _ _ _ _ Hm Hm2).
  - change (payload (bc ")") work) with
      (let? n := read_u8 input in let? r := mget in mret (Objects n (depth r) :: work)).
    apply wp_bind, (wp_u8_next (Z.of_nat (length kids))); [done|by eapply next_first|]. intros r1 Hm Hd1.
    apply wp_bind, wp_get, wp_ret. rewrite Hd1, Hd.
    eapply reads_members; try done; [by eapply moved_good|by eapply moved_next|exact (moved_fits _ _ [] _ _ Hf Hm)|].
    intros r2 Hm2. apply Hrun. exact (moved_trans _ _ _ _ _ _ _ Hm Hm2).
  - change (payload (bc "{") work) with (let? r := mget in mret (Dictionary (depth r) :: work)).
    destruct Hok as [m Hm]. apply wp_bind, wp_get, wp_ret. rewrite Hd. by eapply reads_dict.
  - change (payload (bc ":") work) with (let? r := mget in mret (Objects 3 (depth r) :: work)).
    apply wp_bind, wp_get, wp_ret. rewrite Hd. eapply reads_members; try done. by rewrite Hok.
  - destruct Hok as (Hh & Hfl & Hn).
    change (payload (bc "c") work) with
      (skip input (4 * leading_longs fmt) ;;?
       let? r := mget in
       mret (Objects (middle_objects fmt) (depth r) :: Skip 4 :: Objects (trailing_objects fmt) (depth r) :: work)).
    assert (exists k1 k2, kids = k1 ++ k2 /\ length k1 = 8 /\ Z.of_nat (length k2) = trailing_objects fmt)
      as (k1 & k2 & -> & Hl1 & Hl2).
    { exists (take 8 kids), (drop 8 kids). rewrite take_drop, length_take, length_drop.
      destruct fmt; cbn [middle_objects trailing_objects] in *; split_and!; try done; lia. }
    clear Hn. rewrite (map_app encode) in Hnext, Hrun. rewrite (map_app obj_strings), concat_app in Hf, Hrun.
    rewrite take_app_length', drop_app_length' in Hnext, Hrun by by rewrite length_map.
    apply Forall_app in Hk as [Hk1 Hk2]. apply foldr_conj_app in Hoks as [Hoks1 Hoks2].
    apply wp_bind, (wp_skip_next _ h); [done|by eapply next_first|done|]. intros r1 Hm1 Hd1.
    assert (Hn1 := moved_next _ _ _ _ _ Hnext Hm1). assert (Hf1 := moved_fits _ _ [] _ _ Hf Hm1).
    apply wp_bind, wp_get, wp_ret. rewrite Hd1, Hd.
    assert (Hs2 : forall x y, Forall no_skip_below (Skip 4 :: Objects x y :: work)) by (intros; by repeat constructor).
    eapply (reads_members k1); try done; [by eapply moved_good|by eapply next_first
      |by eapply fits_prefix; rewrite <- collect_all_app|by rewrite Hl1; destruct fmt|].
    intros r2 Hm2. assert (Hn2 := moved_next _ _ _ _ _ Hn1 Hm2). assert (Hf2 := moved_fits _ _ _ _ _ Hf1 Hm2).
    apply runs_step; [done|by eapply moved_good| |].
    { eapply not_full; [by eapply moved_good|exact Hf2|apply collect_all_length]. }
    cbn [round]. apply wp_bind, (wp_skip_next _ f); [by eapply moved_good|by eapply next_first|unfold len; lia|].
    intros r3 Hm3 Hd3. apply wp_ret.
    eapply (reads_members k2); try done; [by eapply moved_good|by eapply moved_next|exact (moved_fits _ _ [] _ _ Hf2 Hm3)|].
    intros r4 Hm4. apply Hrun.
    exact (moved_trans _ _ _ _ _ _ _ Hm1 (moved_trans _ _ _ _ _ _ _ Hm2 (moved_trans _ _ _ _ _ _ _ Hm3 Hm4))).
Qed.

Lemma reads_node ref k kids : Forall reads kids -> reads (Node ref k kids).
Proof.
  intros Hk d n work r Hn (Hd & Hok & Hkeys & Hoks) Hg Hnext Hf Hs Hrun.
  change (encode (Node ref k kids)) with ([tag ref (node_tag k)] ++ node_body k kids) in *.
  cbn [obj_strings] in *.
  eapply (start_object ref (node_tag k)); [done|by eapply node_tag_range|done|done|by eapply next_first|exact Hf
    |apply collect_all_length|done|].
  intros r1 Hm1 Hd1. eapply wp_node_payload; try done;
    [by eapply moved_good|by eapply moved_next|exact (moved_fits _ _ [] _ _ Hf Hm1)|by constructor|].
  intros r2 Hm2. apply Hrun. exact (moved_trans _ _ _ _ _ _ _ Hm1 Hm2).
Qed.

Fixpoint mobj_induction (P : mobj -> Prop) (HL : forall ref l, P (Leaf ref l))
    (HN : forall ref k kids, Forall P kids -> P (Node ref k kids)) (o : mobj) : P o :=
  match o with
  | Leaf ref l => HL ref l
  | Node ref k kids =>
    HN ref k kids ((fix all (l : list mobj) : Forall P l :=
      match l with
      | [] => Forall_nil_2 P
      | x :: l => Forall_cons_2 P x l (mobj_induction P HL HN x) (all l)
      end) kids)
  end.

Lemma reads_all o : reads o.
Proof. apply mobj_induction; [apply reads_leaf|apply reads_node]. Qed.

End Objects.

Lemma read_object_strings input fmt res lim control o rest :
  input = encode o ++ rest -> (Z.of_nat (length input) <= USIZE_MAX)%Z -> Forall byte_ok input ->
  obj_ok fmt res 0 o -> fits res lim (collect_all [] (obj_strings o)) ->
  wp (read_object input fmt res lim control) reader_new
    (fun _ r => strings r = collect_all [] (obj_strings o)) (aborts control).
Proof.
  intros Hin Hmax Hb Hok Hf.
  assert (Hg : good input reader_new) by (split; [simpl; lia|done]).
  assert (Hr : runs input fmt res lim control (fun r => strings r = collect_all [] (obj_strings o)) [Objects 1 0] reader_new).
  { apply (reads_all input fmt res lim control Hmax Hb _ o 0%Z 0%Z []); try done.
    { exists rest. by rewrite drop_0. }
    intros r' Hm. eapply runs_pop; [done|by eapply moved_good|exact Hf|by destruct Hm as (_ & _ & ->)|done|].
    apply runs_end. apply Hm. }
  intros clock n. unfold read_object.
  assert (Hpot : potential input reader_new [Objects 1 0] = 6 * length input) by (unfold potential; simpl; lia).
  unfold runs in Hr. rewrite Hpot, <- Nat.add_1_r in Hr. apply Hr.
Qed.

(** C33. The strings of a bytecode file are exactly recovered: for every object
    CPython can write (constants, numbers, strings of every kind, nested tuples,
    lists, sets, dictionaries, slices and code objects, any of them flagged as a
    reference) within the reader's limits on depth, collection sizes and output,
    behind the header of any supported version, the extraction returns the
    strings of the object in the order they are written, joined by newlines, the
    empty ones left out. *)
Theorem pyc_strings_exact header o rest fmt res lim control strict clock n :
  pyc_version_info (le_word (take 2 header)) = Some (length header, fmt) ->
  byte_at header 2 13 = true -> byte_at header 3 10 = true ->
  Forall byte_ok (encode o ++ rest) -> (len (encode o ++ rest) <= USIZE_MAX)%Z ->
  obj_ok fmt res 0 o -> fits res lim (collect_all [] (obj_strings o)) -> is_limited control = false ->
  fst (extract_pyc_data (header ++ encode o ++ rest) res lim control strict clock n)
  = inl (collect_all [] (obj_strings o)).
Proof.
  intros Hv H2 H3 Hb Hm Hok Hf Hl. unfold extract_pyc_data. set (data := header ++ encode o ++ rest).
  assert (Hh : 8 <= length header) by (unfold pyc_version_info in Hv; repeat case_match; simplify_eq; lia).
  assert (Hd : length data = length header + length (encode o ++ rest)) by apply length_app.
  rewrite (proj2 (Nat.ltb_ge _ _)) by lia.
  assert (Hat : forall i b, i < 8 -> byte_at data i b = byte_at header i b)
    by (intros i b Hi; unfold byte_at, data; by rewrite lookup_app_l by lia).
  rewrite !Hat, H2, H3 by lia. cbn [andb negb].
  assert (take 2 data = take 2 header) as -> by (unfold data; apply take_app_le; lia).
  rewrite Hv, (proj2 (Nat.ltb_ge _ _)) by lia.
  assert (drop (length header) data = encode o ++ rest) as -> by apply drop_app_length.
  assert (exists b l, encode o ++ rest = b :: l) as (b & l & E) by (destruct o; simpl; eauto).
  rewrite E. cbn iota. rewrite <- E.
  pose proof (read_object_strings (encode o ++ rest) fmt res lim control o rest eq_refl Hm Hb Hok Hf clock n) as Hw.
  destruct (read_object _ _ _ _ _ _ _ _) as [[[[]|e] r'] n']; [by rewrite Hw|].
  destruct Hw as (a & _ & Ha). congruence.
Qed.

(** A Python 3.8 module with the constants [("key", None, {"k": "v"})]. *)
Definition example_header : bytes := [85; 13; 13; 10]%Z ++ repeat 0%Z 12.
Definition example_object : mobj :=
  Node true (NSeq (bc "("))
    [Leaf true (LShort (bc "Z") (bs "key")); Leaf false (LConst (bc "N"));
     Node false NDict [Leaf false (LShort (bc "z") (bs "k")); Leaf false (LStr (bc "u") (bs "v"))]].

Lemma pyc_strings_exact_witness :
  fst (extract_pyc_strings_with_limits (example_header ++ encode example_object ++ [])
         limits_default (fun _ => {| is_cancelled := false; now := 0 |}) 0)
  = inl (bs "key" ++ [10%Z] ++ bs "k" ++ [10%Z] ++ bs "v").
Proof.
  apply (pyc_strings_exact example_header example_object [] V38 limits_default None control_default false);
    try reflexivity.
  - apply bytes_ok. vm_compute. reflexivity.
  - vm_compute. discriminate.
  - repeat split; try reflexivity; try (simpl; tauto); try (exists 1; reflexivity); vm_compute; discriminate.
  - split; [right; reflexivity|exact I].
Defined.
