(* ===== verification/PrivateKey.v ===== *)
(** * Private key containers: [kingfisher-rules/src/private_key.rs]

    The structural checks that decide whether an armored candidate can be a key
    at all: the framing of BER values, the fields of an OpenSSH container, and
    the packets and secret fields of an OpenPGP key. The DER schemas, which the
    [der], [pkcs1], [pkcs8] and [sec1] crates decode, are not modelled. *)

From Stdlib Require Import ZArith Lia Bool ZifyNat.
From stdpp Require Import base list numbers option.
From S2P Require Import Prelude.

(** ** BER framing *)

(** The two flags the walk sets; they stay set when it fails. *)
Record BerFlags := mkFlags { non_der : bool; work_limit : bool }.
Definition set_non_der (b : bool) (f : BerFlags) : BerFlags := mkFlags (non_der f || b) (work_limit f).
Definition set_work_limit (f : BerFlags) : BerFlags := mkFlags (non_der f) true.

Definition Ber (A : Type) : Type := BerFlags -> option A * BerFlags.
Definition bret {A} (a : A) : Ber A := fun f => (Some a, f).
Definition bnone {A} : Ber A := fun f => (None, f).
Definition bbind {A B} (m : Ber A) (k : A -> Ber B) : Ber B := fun f =>
  match m f with (Some a, f) => k a f | (None, f) => (None, f) end.
Definition bflag (g : BerFlags -> BerFlags) : Ber unit := fun f => (Some tt, g f).
(** [e?] on an option *)
Definition btry {A} (o : option A) : Ber A := fun f => (o, f).

(** [bytes.get(from..to)] *)
Definition get_range (l : bytes) (from to : nat) : option bytes :=
  if (from <=? to) && (to <=? length l) then Some (slice l from to) else None.

(** The contents of an indefinite value, up to the end-of-contents octets; each
    value has two bytes at least. *)
Fixpoint indefinite_loop (value : bytes -> Ber nat) (fuel : nat) (l : bytes) (offset : nat) : Ber nat :=
  match fuel with
  | 0 => bnone
  | S fuel =>
    if bool_decide (get_range l offset (offset + 2) = Some [0; 0]%Z) then bret (offset + 2)
    else
      bbind (btry (get_range l offset (length l))) (fun rest =>
      bbind (value rest) (fun n => indefinite_loop value fuel l (offset + n)))
  end.

(** The contents of a constructed value of definite length. *)
Fixpoint definite_loop (value : bytes -> Ber nat) (fuel : nat) (l : bytes) (offset stop : nat) : Ber unit :=
  match fuel with
  | 0 => bnone
  | S fuel =>
    if offset <? stop then
      bbind (value (slice l offset stop)) (fun n => definite_loop value fuel l (offset + n) stop)
    else bret tt
  end.

(** The offset after the tag. *)
Definition tag_end (l : bytes) : option nat :=
  match l with
  | [] => None
  | tag :: r =>
    if Z.land tag 31 ==? 31 then
      let n := partition_point (fun b => negb (Z.land b 128 ==? 0)) r in
      if n <? length r then Some (n + 2) else None
    else Some 1
  end.

(** [try_fold] with [checked_mul(256)] and [checked_add] *)
Fixpoint be_length (acc : Z) (l : bytes) : option Z :=
  match l with
  | [] => Some acc
  | b :: l =>
    if (acc * 256 <=? USIZE_MAX)%Z then
      match checked_add (acc * 256) b with Some acc => be_length acc l | None => None end
    else None
  end.

(** A definite length, with the offset after its octets. *)
Definition definite_length (l : bytes) (offset : nat) (first : byte) : Ber (Z * nat) :=
  if Z.land first 128 ==? 0 then bret (first, offset)
  else
    let count := Z.to_nat (Z.land first 127) in
    if 8 <? count then bnone
    else
      bbind (btry (get_range l offset (offset + count))) (fun length_bytes =>
      bbind (btry (be_length 0 length_bytes)) (fun n =>
      bbind (bflag (set_non_der ((n <? 128)%Z || match length_bytes with b :: _ => b ==? 0 | [] => false end)))
        (fun _ => bret (n, offset + count)))).

(** The length octets, the first of which is given, and the contents. *)
Definition ber_contents (value : bytes -> Ber nat) (l : bytes) (constructed : bool) (offset : nat) (first : byte) : Ber nat :=
  if first ==? 128 then
    if negb constructed then bnone
    else bbind (bflag (set_non_der true)) (fun _ => indefinite_loop value (S (length l)) l offset)
  else
    bbind (definite_length l offset first) (fun '(n, offset) =>
    bbind (btry (checked_add (Z.of_nat offset) n)) (fun stop =>
    if (Z.of_nat (length l) <? stop)%Z then bnone
    else
      let stop := Z.to_nat stop in
      if negb constructed then bret stop
      else bbind (definite_loop value (S (length l)) l offset stop) (fun _ => bret stop))).

(** [levels] is [25 - depth]: no level is left when the depth exceeds 24. *)
Fixpoint ber_value_length (levels : nat) (l : bytes) : Ber nat :=
  match levels with
  | 0 => bbind (bflag set_work_limit) (fun _ => bnone)
  | S levels =>
    bbind (btry (head l)) (fun tag =>
    if tag ==? 0 then bnone
    else
      bbind (bflag (set_non_der (tag ==? 36))) (fun _ =>
      bbind (btry (tag_end l)) (fun offset =>
      bbind (btry (l !! offset)) (fun first =>
      ber_contents (ber_value_length levels) l (negb (Z.land tag 32 ==? 0)) (offset + 1) first))))
  end.

Definition non_der_ber (l : bytes) : bool :=
  match l with
  | b :: _ =>
    if existsb (Z.eqb b) [2; 4; 36; 48]%Z then
      let '(n, f) := ber_value_length 25 l (mkFlags false false) in
      work_limit f || (non_der f && bool_decide (n = Some (length l)))
    else false
  | [] => false
  end.

(** ** Length-prefixed fields: [SshReader] *)

Definition Rd (A : Type) : Type := bytes -> option (A * bytes).
Definition rret {A} (a : A) : Rd A := fun l => Some (a, l).
Definition rnone {A} : Rd A := fun _ => None.
Definition rbind {A B} (m : Rd A) (k : A -> Rd B) : Rd B := fun l =>
  match m l with Some (a, l) => k a l | None => None end.
(** The bytes that are left. *)
Definition rrest : Rd bytes := fun l => Some (l, l).

Declare Scope key_scope.
Delimit Scope key_scope with key.
Notation "'let+' x ':=' m 'in' k" := (rbind m (fun x => k))
  (at level 10, x name, m at level 100, k at level 200) : key_scope.
Notation "m ';;+' k" := (rbind m (fun _ => k)) (at level 199, right associativity) : key_scope.
Open Scope key_scope.

(** Run a reader on other bytes. *)
Definition on {A} (l : bytes) (m : Rd A) : Rd A := fun here =>
  match m l with Some (a, _) => Some (a, here) | None => None end.
Definition require (b : bool) : Rd unit := if b then rret tt else rnone.

Definition ssh_take (n : Z) : Rd bytes := fun l =>
  if (n <=? Z.of_nat (length l))%Z then Some (take (Z.to_nat n) l, drop (Z.to_nat n) l) else None.
Definition ssh_byte : Rd Z := let+ b := ssh_take 1 in rret (default 0%Z (head b)).
Definition ssh_uint : Rd Z := let+ b := ssh_take 4 in rret (be_word b).
Definition ssh_string : Rd bytes := let+ n := ssh_uint in ssh_take n.

Fixpoint repeat_rd (n : nat) (m : Rd unit) : Rd unit :=
  match n with 0 => rret tt | S n => m ;;+ repeat_rd n m end.

Definition is_empty (l : bytes) : bool := negb (non_empty l).
Definition is_ecdsa (name : bytes) : bool := starts_with (bs "ecdsa-sha2-") name.
Definition is_ed25519 (name : bytes) : bool := bytes_eqb name (bs "ssh-ed25519").

(** The numbers of public and private fields of the known algorithms. *)
Definition public_fields (algorithm : bytes) : option nat :=
  if bytes_eqb algorithm (bs "ssh-rsa") then Some 2
  else if bytes_eqb algorithm (bs "ssh-dss") then Some 4
  else if is_ed25519 algorithm then Some 1
  else if is_ecdsa algorithm then Some 2 else None.
Definition private_fields (algorithm : bytes) : option nat :=
  if bytes_eqb algorithm (bs "ssh-rsa") then Some 6
  else if bytes_eqb algorithm (bs "ssh-dss") then Some 5
  else if is_ed25519 algorithm then Some 2
  else if is_ecdsa algorithm then Some 3 else None.

(** One public key; its algorithm. *)
Definition public_field (algorithm : bytes) : Rd unit :=
  let+ value := ssh_string in
  require (negb (is_empty value || (is_ed25519 algorithm && negb (Nat.eqb (length value) 32)))).
Definition public_key : Rd bytes :=
  let+ algorithm := ssh_string in
  let+ left := rrest in
  require (negb (is_empty algorithm || is_empty left)) ;;+
  (match public_fields algorithm with
   | Some fields =>
     repeat_rd fields (public_field algorithm) ;;+ let+ left := rrest in require (is_empty left)
   | None => rret tt
   end) ;;+
  rret algorithm.
Fixpoint public_keys (count : nat) : Rd (list bytes) :=
  match count with
  | 0 => rret []
  | S count =>
    let+ public := ssh_string in
    let+ algorithm := on public public_key in
    let+ algorithms := public_keys count in
    rret (algorithm :: algorithms)
  end.

(** The fields of one private record; the first of ed25519 has 32 bytes, the
    second 64. *)
Fixpoint private_record (algorithm : bytes) (field count : nat) : Rd unit :=
  match count with
  | 0 => rret tt
  | S count =>
    let+ value := ssh_string in
    require (negb (is_empty value ||
      (is_ed25519 algorithm && negb (Nat.eqb (length value) (if Nat.eqb field 0 then 32 else 64))))) ;;+
    private_record algorithm (S field) count
  end.

(** The records in order; [true]: an unknown algorithm ended the inspection. *)
Fixpoint private_records (algorithms : list bytes) : Rd bool :=
  match algorithms with
  | [] => rret false
  | public_algorithm :: algorithms =>
    let+ algorithm := ssh_string in
    require (bytes_eqb algorithm public_algorithm) ;;+
    match private_fields algorithm with
    | Some fields => private_record algorithm 0 fields ;;+ ssh_string ;;+ private_records algorithms
    | None =>
      let+ left := rrest in
      require (negb (is_empty algorithm) && negb (is_empty left)) ;;+ rret true
    end
  end.

(** Padding: 1, 2, 3, ... *)
Fixpoint counts_from (i : Z) (l : bytes) : bool :=
  match l with [] => true | b :: l => (b ==? i) && counts_from (i + 1) l end.

Definition private_section (algorithms : list bytes) : Rd unit :=
  let+ c1 := ssh_uint in
  let+ c2 := ssh_uint in
  require (c1 ==? c2) ;;+
  let+ opaque := private_records algorithms in
  if opaque then rret tt
  else
    let+ left := rrest in
    require ((length left <=? 16) && counts_from 1 left).

Definition is_one (names : list bytes) (name : bytes) : bool := existsb (bytes_eqb name) names.
Definition aead_ciphers : list bytes :=
  map bs ["aes128-gcm@openssh.com"; "aes256-gcm@openssh.com"; "chacha20-poly1305@openssh.com"]%string.
Definition plain_ciphers : list bytes :=
  map bs ["aes128-ctr"; "aes192-ctr"; "aes256-ctr"; "aes128-cbc"; "aes192-cbc"; "aes256-cbc"; "3des-cbc"]%string.
Definition tag_len (cipher : bytes) : option nat :=
  if is_one aead_ciphers cipher then Some 16 else if is_one plain_ciphers cipher then Some 0 else None.

Definition bcrypt_options : Rd unit :=
  let+ salt := ssh_string in
  require (negb (is_empty salt)) ;;+
  let+ rounds := ssh_uint in
  require (negb (rounds ==? 0)) ;;+
  let+ left := rrest in
  require (is_empty left).

Definition openssh_container : Rd unit :=
  let+ cipher := ssh_string in
  let+ kdf := ssh_string in
  let+ options := ssh_string in
  require (negb (is_empty cipher || is_empty kdf)) ;;+
  let+ count := ssh_uint in
  let+ left := rrest in
  require (negb ((count ==? 0) || (Z.of_nat (length left) / 4 <? count)%Z)) ;;+
  let+ algorithms := public_keys (Z.to_nat count) in
  let+ private := ssh_string in
  require (negb (is_empty private)) ;;+
  if negb (bytes_eqb cipher (bs "none")) then
    require (negb (bytes_eqb kdf (bs "none") || is_empty options)) ;;+
    (if bytes_eqb kdf (bs "bcrypt") then on options bcrypt_options else rret tt) ;;+
    let+ left := rrest in
    require (match tag_len cipher with Some n => Nat.eqb (length left) n | None => true end)
  else
    let+ left := rrest in
    require (bytes_eqb kdf (bs "none") && is_empty options && is_empty left && Nat.eqb (length private mod 8) 0) ;;+
    on private (private_section algorithms).

Definition openssh_magic : bytes := bs "openssh-key-v1" ++ [0%Z].
Definition openssh_fields (l : bytes) : option unit :=
  if starts_with openssh_magic l then
    match openssh_container (drop (length openssh_magic) l) with Some _ => Some tt | None => None end
  else None.
Definition openssh_key (l : bytes) : bool := match openssh_fields l with Some _ => true | None => false end.

(** ** OpenPGP packets *)

(** The eight shifts for one byte; [u32] holds every intermediate value. *)
Fixpoint crc_shifts (n : nat) (crc : Z) : Z :=
  match n with
  | 0 => crc
  | S n =>
    let crc := Z.shiftl crc 1 in
    crc_shifts n (if Z.land crc 16777216 ==? 0 then crc else Z.lxor crc 25578747)
  end.
Definition crc24 (l : bytes) : Z :=
  Z.land (fold_left (fun crc b => crc_shifts 8 (Z.lxor crc (Z.shiftl b 16))) l 11994318%Z) 16777215.

(** A new-format length: the length and whether it is partial. *)
Definition new_length : Rd (Z * bool) :=
  let+ length := ssh_byte in
  if (length <=? 191)%Z then rret (length, false)
  else if (length <=? 223)%Z then
    let+ b := ssh_byte in rret (Z.shiftl (length - 192) 8 + b + 192, false)%Z
  else if (length <=? 254)%Z then rret (Z.shiftl 1 (Z.land length 31), true)
  else let+ n := ssh_uint in rret (n, false).

(** The body of a new-format packet; every chunk takes a byte at least. *)
Fixpoint new_body (fuel : nat) (packet : bytes) : Rd bytes :=
  match fuel with
  | 0 => rnone
  | S fuel =>
    let+ len := new_length in
    let+ chunk := ssh_take (fst len) in
    if snd len then new_body fuel (packet ++ chunk) else rret (packet ++ chunk)
  end.

Definition old_body (header : Z) : Rd bytes :=
  let kind := Z.land header 3 in
  let size := if kind ==? 0 then 1%Z else if kind ==? 1 then 2%Z else if kind ==? 2 then 4%Z else 0%Z in
  if size ==? 0 then let+ left := rrest in ssh_take (Z.of_nat (length left))
  else let+ b := ssh_take size in ssh_take (be_word b).

Definition packet_tag (header : Z) : Z :=
  if negb (Z.land header 64 ==? 0) then Z.land header 63 else Z.land (Z.shiftr header 2) 15.

(** One packet: its tag and its body. *)
Definition packet : Rd (Z * bytes) :=
  let+ header := ssh_byte in
  require (negb (Z.land header 128 ==? 0)) ;;+
  let+ left := rrest in
  let+ body := (if negb (Z.land header 64 ==? 0) then new_body (S (length left)) [] else old_body header) in
  rret (packet_tag header, body).

(** The declared octets of a number; its value is not looked at. *)
Definition pgp_mpi : Rd unit :=
  let+ b := ssh_take 2 in
  ssh_take ((be_word b + 7) / 8) ;;+ rret tt.

Definition sized : Rd unit :=
  let+ size := ssh_byte in
  require (negb (size ==? 0)) ;;+ ssh_take size ;;+ rret tt.

Definition some_left : Rd unit := let+ left := rrest in require (negb (is_empty left)).

(** The numbers of public and secret integers; [None]: an unknown algorithm. *)
Definition mpi_counts (algorithm : Z) : option (nat * nat) :=
  if (1 ≤? algorithm ≤? 3) then Some (2, 4)
  else if (algorithm ==? 16) || (algorithm ==? 20) then Some (3, 1)
  else if algorithm ==? 17 then Some (4, 1)
  else if (algorithm ==? 18) || (algorithm ==? 19) || (algorithm ==? 22) then Some (1, 1)
  else None.
Definition has_curve (algorithm : Z) : bool :=
  (algorithm ==? 18) || (algorithm ==? 19) || (algorithm ==? 22).

Definition byte_sum (l : bytes) : Z := fold_left (fun sum b => (sum + b) mod 65536)%Z l 0%Z.

Definition secret_section (secret_mpis : nat) : Rd unit :=
  let+ secret_bytes := rrest in
  repeat_rd secret_mpis pgp_mpi ;;+
  let+ left := rrest in
  let consumed := length secret_bytes - length left in
  let+ b := ssh_take 2 in
  let+ left := rrest in
  require (is_empty left && (be_word b ==? byte_sum (take consumed secret_bytes))).

Definition pgp_secret_fields : Rd unit :=
  let+ version := ssh_byte in
  ssh_take 4 ;;+
  (if (version ==? 2) || (version ==? 3) then ssh_take 2 ;;+ rret tt else rret tt) ;;+
  let+ algorithm := ssh_byte in
  if negb (2 ≤? version ≤? 4) then some_left
  else
    match mpi_counts algorithm with
    | None => some_left
    | Some (public_mpis, secret_mpis) =>
      (if has_curve algorithm then sized else rret tt) ;;+
      repeat_rd public_mpis pgp_mpi ;;+
      (if algorithm ==? 18 then sized else rret tt) ;;+
      let+ usage := ssh_byte in
      if negb (usage ==? 0) then some_left else secret_section secret_mpis
    end.
Definition pgp_secret_packet (l : bytes) : bool := match pgp_secret_fields l with Some _ => true | None => false end.

(** [while !bytes.is_empty()]; a packet takes a byte at least. *)
Fixpoint pgp_loop (fuel : nat) (secret : bool) (l : bytes) : option unit :=
  match l with
  | [] => if secret then Some tt else None
  | _ =>
    match fuel with
    | 0 => None
    | S fuel =>
      match packet l with
      | None => None
      | Some ((tag, body), l) =>
        if (tag ==? 5) || (tag ==? 7) then
          if pgp_secret_packet body then pgp_loop fuel true l else None
        else pgp_loop fuel secret l
      end
    end
  end.
Definition pgp_packets (l : bytes) : option unit := pgp_loop (length l) false l.
Definition pgp_key (l : bytes) : bool := match pgp_packets l with Some _ => true | None => false end.

Example crc24_check : crc24 (bs "123456789") = 2215682%Z.
Proof. vm_compute. reflexivity. Qed.

(** ** BER values *)

(** How a length is written: in one byte, or in [n] bytes after their count. *)
Inductive lenform := Short | Long (n : nat).

(** Values with their tag octets: primitive, constructed of definite length, and
    constructed up to the end-of-contents octets. *)
Inductive ber :=
| Prim (tag : bytes) (form : lenform) (content : bytes)
| Cons (tag : bytes) (form : lenform) (kids : list ber)
| Indef (tag : bytes) (kids : list ber).

Fixpoint be_bytes (n : nat) (v : Z) : bytes :=
  match n with 0 => [] | S n => (v / 256 ^ Z.of_nat n mod 256)%Z :: be_bytes n v end.
Definition length_octets (form : lenform) (v : nat) : bytes :=
  match form with
  | Short => [Z.of_nat v]
  | Long n => (128 + Z.of_nat n)%Z :: be_bytes n (Z.of_nat v)
  end.

Fixpoint ber_bytes (t : ber) : bytes :=
  match t with
  | Prim tag form content => tag ++ length_octets form (length content) ++ content
  | Cons tag form kids =>
    let content := concat (map ber_bytes kids) in tag ++ length_octets form (length content) ++ content
  | Indef tag kids => tag ++ [128%Z] ++ concat (map ber_bytes kids) ++ [0; 0]%Z
  end.

(** What X.690 asks of DER, as far as framing shows it. A length is written in
    the fewest octets (10.1)... *)
Definition minimal (form : lenform) (v : nat) : bool :=
  match form with
  | Short => true
  | Long n => (128 <=? Z.of_nat v)%Z && (256 ^ (Z.of_nat n - 1) <=? Z.of_nat v)%Z
  end.

(** ... and definite (10.1); [loose]: some value of the tree is not so. *)
Fixpoint loose (t : ber) : bool :=
  match t with
  | Prim _ form content => negb (minimal form (length content))
  | Cons _ form kids =>
    negb (minimal form (length (concat (map ber_bytes kids)))) || existsb loose kids
  | Indef _ kids => true
  end.

(** A string is primitive (10.2). The identifier octets of the constructed forms
    of the universal string types: BIT STRING, OCTET STRING, UTF8String, the
    numbers 18 to 22 and 25 to 30. *)
Definition string_types : list byte := [35; 36; 44; 50; 51; 52; 53; 54; 57; 58; 59; 60; 61; 62]%Z.

(** Whether a value of the tree has one of these identifiers. *)
Definition tagged (ids : list byte) (tag : bytes) : bool :=
  match tag with b :: _ => existsb (Z.eqb b) ids | [] => false end.
Fixpoint builds (ids : list byte) (t : ber) : bool :=
  match t with
  | Prim tag _ _ => tagged ids tag
  | Cons tag _ kids | Indef tag kids => tagged ids tag || existsb (builds ids) kids
  end.
Definition der_framed (t : ber) : bool := negb (loose t || builds string_types t).

(** The length octets the walk minds, and the marks it leaves on a tree. *)
Definition ber_form (form : lenform) (v : nat) : bool :=
  match form with
  | Short => false
  | Long n => (Z.of_nat v <? 128)%Z || match be_bytes n (Z.of_nat v) with b :: _ => b ==? 0 | [] => false end
  end.
Definition ber_tag (tag : bytes) : bool := match tag with b :: _ => b ==? 36 | [] => false end.
Fixpoint ber_only (t : ber) : bool :=
  match t with
  | Prim tag form content => ber_tag tag || ber_form form (length content)
  | Cons tag form kids =>
    ber_tag tag || ber_form form (length (concat (map ber_bytes kids))) || existsb ber_only kids
  | Indef tag kids => true
  end.

Definition form_ok (form : lenform) (v : nat) : Prop :=
  match form with
  | Short => v < 128
  | Long n => 1 <= n <= 8 /\ (Z.of_nat v < 256 ^ Z.of_nat n)%Z
  end.
(** The octets of a tag: the identifier, then the number of a high tag. *)
Definition tag_ok (constructed : bool) (tag : bytes) : Prop :=
  match tag with
  | [] => False
  | b :: r =>
    b <> 0%Z /\ (Z.land b 32 ==? 0) = negb constructed /\
    if Z.land b 31 ==? 31 then exists more last, r = more ++ [last] /\ Z.land last 128 = 0%Z /\
      Forall (fun c => Z.land c 128 <> 0%Z) more
    else r = []
  end.
Fixpoint ber_ok (t : ber) : Prop :=
  match t with
  | Prim tag form content => tag_ok false tag /\ form_ok form (length content)
  | Cons tag form kids =>
    tag_ok true tag /\ form_ok form (length (concat (map ber_bytes kids))) /\
    fold_right (fun t P => ber_ok t /\ P) True kids
  | Indef tag kids => tag_ok true tag /\ fold_right (fun t P => ber_ok t /\ P) True kids
  end.
Fixpoint ber_depth (t : ber) : nat :=
  match t with
  | Prim _ _ _ => 1
  | Cons _ _ kids | Indef _ kids => S (foldr (fun t n => Nat.max (ber_depth t) n) 0 kids)
  end.

Fixpoint ber_induction (P : ber -> Prop) (HP : forall tag form c, P (Prim tag form c))
    (HC : forall tag form kids, Forall P kids -> P (Cons tag form kids))
    (HI : forall tag kids, Forall P kids -> P (Indef tag kids)) (t : ber) : P t :=
  let all := fix all (l : list ber) : Forall P l :=
    match l with
    | [] => Forall_nil_2 P
    | x :: l => Forall_cons_2 P x l (ber_induction P HP HC HI x) (all l)
    end in
  match t with
  | Prim tag form c => HP tag form c
  | Cons tag form kids => HC tag form kids (all kids)
  | Indef tag kids => HI tag kids (all kids)
  end.

Lemma length_be_bytes n v : length (be_bytes n v) = n.
Proof. induction n as [|n IH]; simpl; [done|]. by rewrite IH. Qed.

Lemma be_length_bytes n v :
  (0 <= v <= USIZE_MAX)%Z -> be_length (v / 256 ^ Z.of_nat n) (be_bytes n v) = Some v.
Proof.
  intros Hv. induction n as [|n IH]; cbn [be_bytes be_length]; [by rewrite Z.pow_0_r, Z.div_1_r|].
  assert (Hp : (0 < 256 ^ Z.of_nat n)%Z) by (apply Z.pow_pos_nonneg; lia).
  set (q := (v / 256 ^ Z.of_nat n)%Z) in *.
  assert (Hq : (v / 256 ^ Z.of_nat (S n) = q / 256)%Z).
  { rewrite Nat2Z.inj_succ, Z.pow_succ_r, Z.mul_comm by lia. by rewrite <- Z.div_div by lia. }
  assert (Hqv : (0 <= q <= v)%Z) by (split; [apply Z.div_pos; lia|apply Z.div_le_upper_bound; nia]).
  rewrite Hq. pose proof (Z.div_mod q 256). pose proof (Z.mod_pos_bound q 256).
  rewrite (proj2 (Z.leb_le _ _)) by lia. unfold checked_add. rewrite (proj2 (Z.leb_le _ _)) by lia.
  replace (q / 256 * 256 + q mod 256)%Z with q by lia. exact IH.
Qed.

Lemma get_range_app (a b c : bytes) i j :
  i = length a -> j = length a + length b -> get_range (a ++ b ++ c) i j = Some b.
Proof.
  intros -> ->. unfold get_range. rewrite !length_app.
  rewrite (proj2 (Nat.leb_le _ _)) by lia. rewrite (proj2 (Nat.leb_le _ _)) by lia. cbn [andb].
  unfold slice. rewrite drop_app_length. replace (length a + length b - length a) with (length b) by lia.
  by rewrite take_app_length.
Qed.

Lemma tag_end_app c tag rest : tag_ok c tag -> tag_end (tag ++ rest) = Some (length tag).
Proof.
  destruct tag as [|b r]; [done|]. intros (_ & _ & Hr). cbn [app tag_end length].
  destruct (Z.land b 31 ==? 31); [|by subst r].
  destruct Hr as (more & last & -> & Hl & Hm). rewrite <- app_assoc. cbn [app].
  assert (Hp : partition_point (fun c => negb (Z.land c 128 ==? 0)) (more ++ last :: rest) = length more).
  { apply (partition_point_unique _ (more ++ last :: rest) (length more)).
    - rewrite length_app. simpl. lia.
    - intros i x Hi Hx. rewrite lookup_app_l in Hx by done. apply list_elem_of_lookup_2 in Hx.
      rewrite Forall_forall in Hm. apply Hm in Hx. apply negb_true_iff, Z.eqb_neq. done.
    - intros x Hx. rewrite lookup_app_r, Nat.sub_diag in Hx by lia. injection Hx as <-. by rewrite Hl. }
  rewrite Hp. rewrite !length_app. cbn [length]. rewrite (proj2 (Nat.ltb_lt _ _)) by lia. f_equal. lia.
Qed.

Lemma set_non_der_twice a b f : set_non_der a (set_non_der b f) = set_non_der (b || a) f.
Proof. unfold set_non_der. simpl. by rewrite orb_assoc. Qed.
Lemma set_non_der_false f : set_non_der false f = f.
Proof. destruct f. unfold set_non_der. simpl. by rewrite orb_false_r. Qed.

(** What the walk says of a value with anything after it. *)
Definition framed (t : ber) : Prop := forall levels f rest,
  ber_ok t -> ber_depth t <= levels -> (Z.of_nat (length (ber_bytes t)) <= USIZE_MAX)%Z ->
  ber_value_length levels (ber_bytes t ++ rest) f = (Some (length (ber_bytes t)), set_non_der (ber_only t) f).

(** The first octet of a value is not zero, and another follows. *)
Lemma ber_bytes_first t : ber_ok t -> exists b c r, ber_bytes t = b :: c :: r /\ b <> 0%Z.
Proof.
  assert (H : forall k tag r, tag_ok k tag -> r <> [] -> exists b c r', tag ++ r = b :: c :: r' /\ b <> 0%Z).
  { intros k [|b tag] r Ht Hr; [done|]. destruct Ht as (Hb & _). destruct (tag ++ r) as [|c r'] eqn:E.
    - by apply app_nil in E as [-> ->].
    - exists b, c, r'. cbn [app]. by rewrite E. }
  assert (Hl : forall form v, length_octets form v <> []) by by intros [|n] v.
  destruct t as [tag form c|tag form kids|tag kids]; cbn [ber_bytes ber_ok]; [intros [Ht _]|intros [Ht _]|intros [Ht _]];
    (eapply H; [exact Ht|]); try (intros E; apply app_nil in E as [E _]; by apply Hl in E). done.
Qed.

Lemma ber_bytes_two t : ber_ok t -> 2 <= length (ber_bytes t).
Proof. intros (b & c & r & -> & _)%ber_bytes_first. simpl. lia. Qed.

Lemma definite_loop_kids levels kids : Forall framed kids -> forall pre post f fuel stop,
  fold_right (fun t P => ber_ok t /\ P) True kids -> foldr (fun t n => Nat.max (ber_depth t) n) 0 kids <= levels ->
  (Z.of_nat (length (concat (map ber_bytes kids))) <= USIZE_MAX)%Z ->
  stop = length pre + length (concat (map ber_bytes kids)) -> length kids < fuel ->
  definite_loop (ber_value_length levels) fuel (pre ++ concat (map ber_bytes kids) ++ post) (length pre) stop f
  = (Some tt, set_non_der (existsb ber_only kids) f).
Proof.
  induction 1 as [|t kids Ht Hk IH]; intros pre post f fuel stop Hok Hd Hm -> Hfuel.
  { destruct fuel; [simpl in Hfuel; lia|]. cbn [definite_loop map concat length existsb]. rewrite (proj2 (Nat.ltb_ge _ _)) by lia. by rewrite set_non_der_false. }
  destruct fuel as [|fuel]; [simpl in Hfuel; lia|]. cbn [length] in Hfuel.
  cbn [map concat fold_right existsb] in *. destruct Hok as [Hok Hoks].
  pose proof (ber_bytes_two t Hok) as Htwo. rewrite length_app in *.
  cbn [definite_loop]. rewrite (proj2 (Nat.ltb_lt _ _)) by lia. unfold bbind at 1.
  assert (Hslice : slice (pre ++ (ber_bytes t ++ concat (map ber_bytes kids)) ++ post) (length pre)
            (length pre + (length (ber_bytes t) + length (concat (map ber_bytes kids))))
          = ber_bytes t ++ concat (map ber_bytes kids)).
  { unfold slice. rewrite drop_app_length, <- length_app.
    match goal with |- take ?n _ = _ => replace n with (length (ber_bytes t ++ concat (map ber_bytes kids))) by lia end.
    apply take_app_length. }
  rewrite Hslice, Ht by (done || lia).
  replace (pre ++ (ber_bytes t ++ concat (map ber_bytes kids)) ++ post)
    with ((pre ++ ber_bytes t) ++ concat (map ber_bytes kids) ++ post) by by rewrite <- !app_assoc.
  rewrite <- length_app. rewrite IH; [|done|lia|lia|rewrite length_app; lia|lia]. by rewrite set_non_der_twice.
Qed.

Lemma indefinite_loop_kids levels kids : Forall framed kids -> forall pre post f fuel,
  fold_right (fun t P => ber_ok t /\ P) True kids -> foldr (fun t n => Nat.max (ber_depth t) n) 0 kids <= levels ->
  (Z.of_nat (length (concat (map ber_bytes kids))) <= USIZE_MAX)%Z -> length kids < fuel ->
  indefinite_loop (ber_value_length levels) fuel (pre ++ concat (map ber_bytes kids) ++ [0; 0]%Z ++ post) (length pre) f
  = (Some (length pre + length (concat (map ber_bytes kids)) + 2), set_non_der (existsb ber_only kids) f).
Proof.
  induction 1 as [|t kids Ht Hk IH]; intros pre post f fuel Hok Hd Hm Hfuel.
  { destruct fuel; [simpl in Hfuel; lia|]. cbn [map concat app existsb length indefinite_loop].
    rewrite (get_range_app pre [0; 0]%Z post) by done. rewrite bool_decide_eq_true_2 by done.
    rewrite set_non_der_false. unfold bret. do 2 f_equal. lia. }
  destruct fuel as [|fuel]; [simpl in Hfuel; lia|]. cbn [length] in Hfuel.
  cbn [map concat fold_right existsb] in *. destruct Hok as [Hok Hoks]. rewrite length_app in *.
  pose proof (ber_bytes_first t Hok) as (b & c & r & Eb & Hb).
  cbn [indefinite_loop]. set (l := pre ++ _).
  assert (Hl : l = pre ++ ber_bytes t ++ concat (map ber_bytes kids) ++ [0; 0]%Z ++ post) by (unfold l; by rewrite <- !app_assoc).
  assert (get_range l (length pre) (length pre + 2) = Some [b; c]) as ->.
  { rewrite Hl, Eb. apply (get_range_app pre [b; c]); simpl; lia. }
  rewrite bool_decide_eq_false_2 by congruence. unfold bbind at 1.
  assert (Hg : get_range l (length pre) (length l) = Some (ber_bytes t ++ concat (map ber_bytes kids) ++ [0; 0]%Z ++ post)).
  { rewrite Hl. rewrite <- (app_nil_r (ber_bytes t ++ _)) at 1. apply get_range_app; [done|]. by rewrite !length_app. }
  unfold btry. rewrite Hg. unfold bbind at 1. rewrite Ht by (done || lia).
  rewrite <- length_app, Hl, (app_assoc pre). rewrite IH by (done || lia).
  rewrite set_non_der_twice, length_app. do 2 f_equal. lia.
Qed.

Lemma ber_after_tag levels c tag first x f :
  tag_ok c tag ->
  ber_value_length (S levels) (tag ++ first :: x) f =
  ber_contents (ber_value_length levels) (tag ++ first :: x) c (length tag + 1) first (set_non_der (ber_tag tag) f).
Proof.
  intros Ht. cbn [ber_value_length]. pose proof (tag_end_app c tag (first :: x) Ht) as He.
  destruct tag as [|b r] eqn:Et; [done|]. destruct Ht as (Hb & Hc & _). rewrite <- Et in *.
  assert (head (tag ++ first :: x) = Some b) as Hh by by rewrite Et.
  unfold bbind, btry, bflag. rewrite Hh, (proj2 (Z.eqb_neq b 0)), He by done.
  rewrite lookup_app_r, Nat.sub_diag by lia. cbn [lookup list_lookup]. rewrite Hc, negb_involutive. by rewrite Et.
Qed.

(** The octets of a definite length are read back. *)
Lemma definite_length_octets form v pre post f :
  form_ok form v -> (Z.of_nat v <= USIZE_MAX)%Z ->
  exists first x, length_octets form v = first :: x /\ (first ==? 128) = false /\
    definite_length (pre ++ first :: x ++ post) (length pre + 1) first f =
    (Some (Z.of_nat v, length pre + length (first :: x)), set_non_der (ber_form form v) f).
Proof.
  destruct form as [|n]; cbn [form_ok length_octets ber_form]; intros Hf Hm; (eexists _, _; split; [done|]).
  - split; [apply Z.eqb_neq; lia|]. unfold definite_length.
    assert (Z.land (Z.of_nat v) 128 = 0%Z) as ->.
    { change 128%Z with (2 ^ 7)%Z. rewrite Z.land_comm. apply Z.bits_inj'. intros k Hk.
      rewrite Z.land_spec, Z.bits_0, Z.pow2_bits_eqb by lia. destruct (Z.eqb_spec 7 k) as [<-|]; [|done].
      cbn [andb]. apply Z.testbit_false; [lia|]. rewrite Z.div_small by lia. done. }
    cbn. rewrite set_non_der_false. done.
  - destruct Hf as [Hn Hv]. split; [apply Z.eqb_neq; lia|]. unfold definite_length.
    assert (Hland : Z.land (128 + Z.of_nat n) 127 = Z.of_nat n).
    { change 127%Z with (Z.ones 7). rewrite Z.land_ones by lia. change (2 ^ 7)%Z with 128%Z. dlia. }
    assert ((Z.land (128 + Z.of_nat n) 128 ==? 0) = false) as ->.
    { assert (n = 1 \/ n = 2 \/ n = 3 \/ n = 4 \/ n = 5 \/ n = 6 \/ n = 7 \/ n = 8) as Hc by lia.
      repeat destruct Hc as [->|Hc]; try done. by subst n. }
    cbv zeta. rewrite Hland, Nat2Z.id, (proj2 (Nat.ltb_ge _ _)) by lia.
    unfold bbind, btry. replace (pre ++ (128 + Z.of_nat n)%Z :: be_bytes n (Z.of_nat v) ++ post)
      with ((pre ++ [128 + Z.of_nat n]%Z) ++ be_bytes n (Z.of_nat v) ++ post) by by rewrite <- app_assoc.
    rewrite (get_range_app (pre ++ [128 + Z.of_nat n]%Z) (be_bytes n (Z.of_nat v)) post)
      by (rewrite ?length_app, ?length_be_bytes; done).
    assert (be_length 0 (be_bytes n (Z.of_nat v)) = Some (Z.of_nat v)) as ->.
    { rewrite <- (be_length_bytes n (Z.of_nat v)) by lia. f_equal. symmetry. apply Z.div_small. lia. }
    unfold bflag, bret. cbn [length]. rewrite length_be_bytes. do 3 f_equal. lia.
Qed.

(** The contents of a value of definite length. *)
Lemma definite_contents levels c tag form content rest f Q :
  tag_ok c tag -> form_ok form (length content) ->
  (Z.of_nat (length (tag ++ length_octets form (length content) ++ content)) <= USIZE_MAX)%Z ->
  let l := tag ++ length_octets form (length content) ++ content ++ rest in
  let pre := tag ++ length_octets form (length content) in
  let stop := length pre + length content in
  (if c then bbind (definite_loop (ber_value_length levels) (S (length l)) l (length pre) stop) (fun _ => bret stop)
   else bret stop) (set_non_der (ber_tag tag || ber_form form (length content)) f) = Q ->
  ber_value_length (S levels) l f = Q.
Proof.
  intros Ht Hf Hm l pre stop HQ. rewrite !length_app in Hm.
  destruct (definite_length_octets form (length content) tag (content ++ rest) (set_non_der (ber_tag tag) f) Hf)
    as (first & x & El & Hfirst & Hdef); [lia|].
  assert (Hl : l = tag ++ first :: x ++ content ++ rest) by (unfold l; by rewrite El).
  assert (Hp : length pre = length tag + length (first :: x)) by (unfold pre; by rewrite El, length_app).
  rewrite Hl, (ber_after_tag _ c) by done. unfold ber_contents. rewrite Hfirst. unfold bbind at 1.
  rewrite Hdef, set_non_der_twice, <- Hp. unfold bbind at 1, btry, checked_add. rewrite El in Hm.
  rewrite (proj2 (Z.leb_le _ _)) by lia. rewrite <- Hl.
  assert (Hll : length l = stop + length rest) by (unfold l, stop, pre; rewrite !length_app; lia).
  rewrite (proj2 (Z.ltb_ge _ _)) by lia.
  replace (Z.to_nat (Z.of_nat (length pre) + Z.of_nat (length content))) with stop by (unfold stop; lia).
  rewrite <- HQ. by destruct c.
Qed.

Lemma kids_count kids : fold_right (fun t P => ber_ok t /\ P) True kids -> length kids <= length (concat (map ber_bytes kids)).
Proof.
  induction kids as [|t kids IH]; intros H; [done|]. destruct H as [Hok Hoks]. cbn [map concat length].
  rewrite length_app. pose proof (ber_bytes_two t Hok). specialize (IH Hoks). lia.
Qed.

Lemma framed_all t : framed t.
Proof.
  apply ber_induction; clear t.
  - intros tag form content [|levels] f rest [Ht Hf] Hd Hm; [simpl in Hd; lia|]. cbn [ber_bytes ber_only] in *.
    rewrite <- !app_assoc. apply (definite_contents levels false); [done|done|done|].
    unfold bret. by rewrite !length_app, Nat.add_assoc.
  - intros tag form kids Hk [|levels] f rest (Ht & Hf & Hoks) Hd Hm; [simpl in Hd; lia|].
    cbn [ber_bytes ber_only ber_depth] in *. rewrite <- !app_assoc. apply (definite_contents levels true); [done|done|done|].
    rewrite !length_app in Hm. unfold bbind. rewrite (app_assoc tag).
    rewrite (definite_loop_kids levels kids Hk); [|done|lia|lia|done|].
    + unfold bret. by rewrite set_non_der_twice, !length_app, Nat.add_assoc.
    + pose proof (kids_count kids Hoks). rewrite !length_app. lia.
  - intros tag kids Hk [|levels] f rest (Ht & Hoks) Hd Hm; [simpl in Hd; lia|].
    cbn [ber_bytes ber_only ber_depth] in *. rewrite <- !app_assoc. cbn [app].
    rewrite (ber_after_tag _ true) by done. unfold ber_contents. rewrite Z.eqb_refl. cbn [negb]. unfold bbind, bflag.
    rewrite !length_app in Hm.
    replace (tag ++ 128%Z :: concat (map ber_bytes kids) ++ 0%Z :: 0%Z :: rest)
      with ((tag ++ [128%Z]) ++ concat (map ber_bytes kids) ++ [0; 0]%Z ++ rest) by by rewrite <- app_assoc.
    assert (Hlt : length tag + 1 = length (tag ++ [128%Z])) by (rewrite length_app; done). rewrite Hlt.
    rewrite (indefinite_loop_kids levels kids Hk); [|done|lia|lia|].
    + rewrite !set_non_der_twice. cbn [orb]. rewrite orb_true_r. cbn [orb]. f_equal.
      f_equal. rewrite !length_app. cbn [length]. rewrite length_app. simpl. lia.
    + pose proof (kids_count kids Hoks). rewrite !length_app. lia.
Qed.

(** *** The marks of the walk against DER *)

Lemma ber_form_minimal form v : form_ok form v -> ber_form form v = negb (minimal form v).
Proof.
  destruct form as [|n]; [done|]. cbn [form_ok ber_form minimal]. intros [Hn Hv].
  destruct n as [|n]; [lia|]. cbn [be_bytes].
  replace (Z.of_nat (S n) - 1)%Z with (Z.of_nat n) by lia.
  rewrite Nat2Z.inj_succ, Z.pow_succ_r in Hv by lia.
  assert (Hp : (0 < 256 ^ Z.of_nat n)%Z) by (apply Z.pow_pos_nonneg; lia).
  rewrite Z.mod_small by (split; [apply Z.div_pos; lia|apply Z.div_lt_upper_bound; lia]).
  rewrite negb_andb, <- !Z.ltb_antisym. f_equal.
  apply Bool.eq_iff_eq_true. rewrite Z.eqb_eq, Z.ltb_lt, Z.div_small_iff; lia.
Qed.

Lemma ber_tag_tagged tag : ber_tag tag = tagged [36]%Z tag.
Proof. destruct tag; [done|]. simpl. by rewrite orb_false_r. Qed.

(** On well-formed values the walk minds length octets, indefinite lengths and the
    constructed OCTET STRING. *)
Lemma ber_only_exact t : ber_ok t -> ber_only t = loose t || builds [36]%Z t.
Proof.
  induction t as [tag form c|tag form kids IH|tag kids IH] using ber_induction;
    cbn [ber_ok ber_only loose builds]; [| |done].
  - intros [_ Hf]. rewrite ber_form_minimal, ber_tag_tagged by done. apply orb_comm.
  - intros (_ & Hf & Hk). rewrite ber_form_minimal, ber_tag_tagged by done.
    assert (existsb ber_only kids = existsb loose kids || existsb (builds [36]%Z) kids) as ->.
    { clear Hf. induction IH as [|k kids Hkid _ IH]; [done|]. destruct Hk as [Hok Hk].
      cbn [existsb]. rewrite Hkid, IH by done. by destruct (loose k), (builds _ k), (existsb loose kids), (existsb (builds _) kids). }
    by destruct (tagged _ _), (minimal _ _), (existsb loose kids), (existsb _ _).
Qed.

Lemma tagged_app ids1 ids2 tag : tagged (ids1 ++ ids2) tag = tagged ids1 tag || tagged ids2 tag.
Proof. destruct tag; [done|]. apply existsb_app. Qed.

Lemma existsb_orb {A} (p q : A -> bool) l :
  existsb (fun x => p x || q x) l = existsb p l || existsb q l.
Proof.
  induction l as [|x l IH]; [done|]. cbn [existsb]. rewrite IH.
  by destruct (p x), (q x), (existsb p l), (existsb q l).
Qed.

Lemma builds_app ids1 ids2 t : builds (ids1 ++ ids2) t = builds ids1 t || builds ids2 t.
Proof.
  induction t as [tag form c|tag form kids IH|tag kids IH] using ber_induction; cbn [builds];
    rewrite tagged_app; [done|..];
    (assert (existsb (builds (ids1 ++ ids2)) kids = existsb (builds ids1) kids || existsb (builds ids2) kids) as ->
      by (rewrite <- existsb_orb; induction IH as [|k kids Hk _ IHk]; [done|]; cbn [existsb]; by rewrite Hk, IHk));
    by destruct (tagged ids1 _), (tagged ids2 _), (existsb (builds ids1) _), (existsb (builds ids2) _).
Qed.

(** The string types whose constructed form the walk takes for DER. *)
Definition other_strings : list byte := [35; 44; 50; 51; 52; 53; 54; 57; 58; 59; 60; 61; 62]%Z.

Lemma tagged_mono ids1 ids2 tag : incl ids1 ids2 -> tagged ids1 tag = true -> tagged ids2 tag = true.
Proof.
  intros Hi. destruct tag as [|b tag]; [done|]. cbn [tagged]. rewrite !existsb_exists.
  intros (x & Hx & E). exists x. auto.
Qed.

Lemma existsb_mono {A} (p q : A -> bool) l :
  Forall (fun x => p x = true -> q x = true) l -> existsb p l = true -> existsb q l = true.
Proof.
  rewrite !existsb_exists, List.Forall_forall. intros H (x & Hx & E). exists x. auto.
Qed.

Lemma builds_mono ids1 ids2 t : incl ids1 ids2 -> builds ids1 t = true -> builds ids2 t = true.
Proof.
  intros Hi. induction t as [tag form c|tag form kids IH|tag kids IH] using ber_induction; cbn [builds];
    [by apply tagged_mono|..]; rewrite !orb_true_iff; intros [H|H];
    try (left; by eapply tagged_mono); right; by apply existsb_mono with (1 := IH).
Qed.

Lemma builds_strings t : builds string_types t = builds [36]%Z t || builds other_strings t.
Proof.
  rewrite <- builds_app. apply Bool.eq_iff_eq_true.
  split; apply builds_mono; intros x; unfold string_types, other_strings; simpl; tauto.
Qed.

(** A length of more than eight octets is refused, whatever it says. *)
Lemma long_length_refused c tag n rest f :
  tag_ok c tag -> 8 < n <= 127 ->
  fst (ber_value_length 25 (tag ++ (128 + Z.of_nat n)%Z :: rest) f) = None.
Proof.
  intros Ht Hn. rewrite (ber_after_tag 24 c) by done. unfold ber_contents.
  rewrite (proj2 (Z.eqb_neq _ 128)) by lia. unfold definite_length.
  assert (Hland : Z.land (128 + Z.of_nat n) 127 = Z.of_nat n).
  { change 127%Z with (Z.ones 7). rewrite Z.land_ones by lia. change (2 ^ 7)%Z with 128%Z. dlia. }
  assert ((Z.land (128 + Z.of_nat n) 128 ==? 0) = false) as ->.
  { apply Z.eqb_neq. intros H0. assert (Z.testbit (Z.land (128 + Z.of_nat n) 128) 7 = true) as Hb; [|by rewrite H0 in Hb].
    rewrite Z.land_spec. change (Z.testbit 128 7) with true. rewrite andb_true_r.
    apply Z.testbit_true; [lia|]. change (2 ^ 7)%Z with 128%Z. dlia. }
  rewrite Hland, Nat2Z.id, (proj2 (Nat.ltb_lt _ _)) by lia. done.
Qed.

(** C34. The walk over BER, against X.690's rules for DER as far as framing shows
    them ([der_framed]: minimal definite lengths and primitive strings). For every
    value with up to eight length octets anywhere in it, of any nesting up to the
    depth cap, primitive or constructed, followed by anything, the walk finds the
    end of the value. A candidate that starts like key material is answered for
    BER exactly when a length in it is indefinite or not minimal or an OCTET
    STRING is constructed; so nothing in DER is, and a value that is not in DER is
    unless all that DER forbids in it are constructed strings of the other string
    types. A value with more than eight length octets is not found. *)
Theorem ber_framing_exact t rest :
  ber_ok t -> ber_depth t <= 25 -> (Z.of_nat (length (ber_bytes t)) <= USIZE_MAX)%Z ->
  ber_value_length 25 (ber_bytes t ++ rest) (mkFlags false false)
    = (Some (length (ber_bytes t)), mkFlags (loose t || builds [36]%Z t) false) /\
  non_der_ber (ber_bytes t)
    = match ber_bytes t with b :: _ => existsb (Z.eqb b) [2; 4; 36; 48]%Z | [] => false end
      && (loose t || builds [36]%Z t) /\
  (non_der_ber (ber_bytes t) = true -> der_framed t = false) /\
  (der_framed t = false -> loose t || builds [36]%Z t = false -> builds other_strings t = true) /\
  (forall c tag n more f, tag_ok c tag -> 8 < n <= 127 ->
     fst (ber_value_length 25 (tag ++ (128 + Z.of_nat n)%Z :: more) f) = None).
Proof.
  intros Hok Hd Hm. rewrite <- ber_only_exact by done.
  assert (non_der_ber (ber_bytes t)
    = match ber_bytes t with b :: _ => existsb (Z.eqb b) [2; 4; 36; 48]%Z | [] => false end && ber_only t) as Hn.
  { unfold non_der_ber. pose proof (framed_all t 25 (mkFlags false false) [] Hok Hd Hm) as H.
    rewrite app_nil_r in H. destruct (ber_bytes t) as [|b r] eqn:E; [done|]. rewrite H. cbn [work_limit non_der set_non_der orb].
    rewrite bool_decide_eq_true_2, andb_true_r by done. by destruct (existsb _ _). }
  split; [by rewrite (framed_all t)|]. split; [done|]. unfold der_framed. split; [|split].
  - rewrite Hn, ber_only_exact, builds_strings by done. rewrite negb_false_iff.
    destruct (loose t), (builds [36]%Z t); try done. by rewrite andb_false_r.
  - rewrite ber_only_exact, builds_strings, negb_false_iff by done.
    by destruct (loose t), (builds [36]%Z t).
  - intros. by eapply long_length_refused.
Qed.

(** A SEQUENCE of indefinite length is answered for; one that holds a constructed
    BIT STRING is not in DER and is taken for DER. *)
Lemma ber_framing_exact_witness :
  non_der_ber [48; 128; 2; 1; 5; 0; 0]%Z = true /\
  der_framed (Cons [48]%Z Short [Cons [35]%Z Short [Prim [3]%Z Short [0; 170]%Z]]) = false /\
  non_der_ber [48; 6; 35; 4; 3; 2; 0; 170]%Z = false.
Proof.
  split; [|split; [reflexivity|]].
  - destruct (ber_framing_exact (Indef [48]%Z [Prim [2]%Z Short [5]%Z]) []) as (_ & H & _); [..|exact H].
    + repeat split; try done; simpl; lia.
    + simpl. lia.
    + vm_compute. discriminate.
  - destruct (ber_framing_exact (Cons [48]%Z Short [Cons [35]%Z Short [Prim [3]%Z Short [0; 170]%Z]]) [])
      as (_ & H & _); [..|exact H].
    + repeat split; try done; simpl; lia.
    + simpl. lia.
    + vm_compute. discriminate.
Defined.

(** ** Writing OpenSSH containers *)

Definition be32 (n : Z) : bytes := be_bytes 4 n.
Definition ssh_text (s : bytes) : bytes := be32 (Z.of_nat (length s)) ++ s.
Definition short (s : bytes) : Prop := (Z.of_nat (length s) < 2 ^ 32)%Z.

(** The reader takes exactly this part and answers [a]. *)
Definition takes {A} (m : Rd A) (data : bytes) (a : A) : Prop := forall rest, m (data ++ rest) = Some (a, rest).

Lemma takes_bind {A B} (m : Rd A) (k : A -> Rd B) d1 d2 a b :
  takes m d1 a -> takes (k a) d2 b -> takes (rbind m k) (d1 ++ d2) b.
Proof. intros Hm Hk rest. unfold rbind. by rewrite <- app_assoc, Hm, Hk. Qed.

Lemma takes_ret {A} (a : A) : takes (rret a) [] a.
Proof. by intros rest. Qed.

Lemma takes_require b : b = true -> takes (require b) [] tt.
Proof. by intros ->. Qed.

Lemma takes_then {A B} (m : Rd A) (k : A -> Rd B) a d b : takes m [] a -> takes (k a) d b -> takes (rbind m k) d b.
Proof. apply (takes_bind m k [] d). Qed.

Lemma takes_last {A B} (m : Rd A) (a : A) (b : B) d : takes m d a -> takes (m ;;+ rret b) d b.
Proof. intros H. rewrite <- (app_nil_r d). eapply takes_bind; [exact H|apply takes_ret]. Qed.

Lemma takes_ssh_take s n : n = Z.of_nat (length s) -> takes (ssh_take n) s s.
Proof.
  intros -> rest. unfold ssh_take. rewrite length_app, (proj2 (Z.leb_le _ _)), Nat2Z.id by lia.
  by rewrite take_app_length, drop_app_length.
Qed.

Lemma le_word_app a b : le_word (a ++ b) = (le_word a + 256 ^ Z.of_nat (length a) * le_word b)%Z.
Proof.
  induction a as [|x a IH]; cbn [app le_word length]; [lia|]. rewrite IH, Nat2Z.inj_succ, Z.pow_succ_r by lia. lia.
Qed.

Lemma be_word_bytes n v : (0 <= v)%Z -> be_word (be_bytes n v) = (v mod 256 ^ Z.of_nat n)%Z.
Proof.
  intros Hv. unfold be_word. induction n as [|n IH]; cbn [be_bytes rev]; [by rewrite Z.mod_1_r|].
  rewrite le_word_app, IH, length_rev, length_be_bytes, Nat2Z.inj_succ, Z.pow_succ_r by lia. cbn [le_word].
  set (p := (256 ^ Z.of_nat n)%Z). assert (0 < p)%Z by (apply Z.pow_pos_nonneg; lia).
  rewrite (Z.mul_comm 256 p), Z.rem_mul_r by lia. lia.
Qed.

Lemma takes_uint n : (0 <= n < 2 ^ 32)%Z -> takes ssh_uint (be32 n) n.
Proof.
  intros Hn. unfold ssh_uint. rewrite <- (app_nil_r (be32 n)).
  eapply takes_bind; [by apply takes_ssh_take|]. unfold be32. rewrite be_word_bytes, Z.mod_small by lia. apply takes_ret.
Qed.

Lemma takes_string s : short s -> takes ssh_string (ssh_text s) s.
Proof.
  intros Hs. unfold ssh_string, ssh_text. eapply takes_bind; [apply takes_uint; unfold short in Hs; lia|].
  by apply takes_ssh_take.
Qed.

Record ssh_record := { alg : bytes; public_part : list bytes; private_part : list bytes; comment : bytes }.

Definition field_ok (f : bytes) : Prop := f <> [] /\ short f.
Definition texts (l : list bytes) : bytes := concat (map ssh_text l).
Definition public_blob (k : ssh_record) : bytes := ssh_text (alg k) ++ texts (public_part k).
Definition record_ok (k : ssh_record) : Prop :=
  public_fields (alg k) = Some (length (public_part k)) /\ private_fields (alg k) = Some (length (private_part k)) /\
  Forall field_ok (public_part k) /\ Forall field_ok (private_part k) /\
  short (alg k) /\ short (public_blob k) /\ short (comment k) /\
  (is_ed25519 (alg k) = true -> map length (public_part k) = [32] /\ map length (private_part k) = [32; 64]).

Definition private_blob (k : ssh_record) : bytes := ssh_text (alg k) ++ texts (private_part k) ++ ssh_text (comment k).
Fixpoint padding (i : Z) (n : nat) : bytes := match n with 0 => [] | S n => i :: padding (i + 1) n end.
Definition private_bytes (c1 c2 : Z) (keys : list ssh_record) (pad : nat) : bytes :=
  be32 c1 ++ be32 c2 ++ concat (map private_blob keys) ++ padding 1 pad.

(** An unencrypted container with its two check integers. *)
Definition ssh_container (c1 c2 : Z) (keys : list ssh_record) (pad : nat) : bytes :=
  openssh_magic ++ ssh_text (bs "none") ++ ssh_text (bs "none") ++ ssh_text [] ++
  be32 (Z.of_nat (length keys)) ++ texts (map public_blob keys) ++ ssh_text (private_bytes c1 c2 keys pad).

Lemma is_empty_false l : l <> [] -> is_empty l = false.
Proof. intros H. unfold is_empty, non_empty, bytes_eqb. by rewrite bool_decide_eq_false_2. Qed.
Lemma is_empty_nil : is_empty [] = true.
Proof. done. Qed.

(** A record of fields, each checked as the code does. *)
Lemma takes_public_fields a fs :
  Forall field_ok fs -> (is_ed25519 a = true -> Forall (fun f => length f = 32) fs) ->
  takes (repeat_rd (length fs) (public_field a)) (texts fs) tt.
Proof.
  intros Hf Hed. induction Hf as [|f fs [Hne Hs] Hf IH]; cbn [length repeat_rd]; [apply takes_ret|].
  assert (Hed' : is_ed25519 a = true -> length f = 32 /\ Forall (fun f => length f = 32) fs)
    by (intros E; apply Hed in E; by apply Forall_cons in E).
  change (texts (f :: fs)) with (ssh_text f ++ texts fs).
  eapply (takes_bind _ _ (ssh_text f) _ tt); [|apply IH; intros E; by apply Hed'].
  unfold public_field. rewrite <- (app_nil_r (ssh_text f)). eapply takes_bind; [by apply takes_string|].
  apply takes_require. rewrite is_empty_false by done. destruct (is_ed25519 a); [|done].
  destruct Hed' as [-> _]; done.
Qed.

Lemma takes_private_fields a fs field :
  Forall field_ok fs ->
  (is_ed25519 a = true -> map length fs = drop field [32; 64] /\ (field < 2 \/ fs = [])) ->
  takes (private_record a field (length fs)) (texts fs) tt.
Proof.
  intros Hf. revert field. induction Hf as [|f fs [Hne Hs] Hf IH]; intros field Hed; cbn [length private_record];
    [apply takes_ret|].
  change (texts (f :: fs)) with (ssh_text f ++ texts fs). eapply takes_bind; [by apply takes_string|].
  rewrite is_empty_false by done. destruct (is_ed25519 a) eqn:E; cbn [orb andb negb].
  - destruct Hed as [Hm Hlt]; [done|]. destruct field as [|[|field]]; [| |destruct Hlt; [lia|done]]; cbn in Hm; simplify_eq.
    + rewrite H. cbn [Nat.eqb]. eapply takes_then; [by apply takes_require|]. apply IH. intros _. split; [done|]. left. lia.
    + rewrite H. cbn [Nat.eqb]. eapply takes_then; [by apply takes_require|]. apply map_eq_nil in H0. subst fs. apply IH. intros _.
      split; [done|by right].
  - eapply takes_then; [by apply takes_require|]. apply IH. done.
Qed.

Lemma ssh_text_length s : 4 <= length (ssh_text s).
Proof. unfold ssh_text, be32. rewrite length_app, length_be_bytes. lia. Qed.

Lemma texts_length l : 4 * length l <= length (texts l).
Proof.
  induction l as [|f l IH]; [done|]. change (texts (f :: l)) with (ssh_text f ++ texts l). rewrite length_app. cbn [length].
  pose proof (ssh_text_length f). lia.
Qed.

Lemma texts_nil l : texts l = [] -> l = [].
Proof. intros H%(f_equal length). pose proof (texts_length l). destruct l; [done|]. simpl in *. lia. Qed.

Lemma known_algorithm a n : public_fields a = Some n -> a <> [] /\ 1 <= n.
Proof.
  unfold public_fields. intros H. split; [by intros ->|]. repeat case_match; simplify_eq; lia.
Qed.

Lemma public_key_blob k : record_ok k -> exists l, public_key (public_blob k) = Some (alg k, l).
Proof.
  intros (Hp & _ & Hf & _ & Ha & _ & _ & Hed). destruct (known_algorithm _ _ Hp) as [Hne Hn].
  unfold public_key, public_blob, rbind at 1. rewrite (takes_string (alg k) Ha).
  unfold rbind at 1, rrest at 1. rewrite (is_empty_false (alg k)), (is_empty_false (texts _)); [|..]; try done.
  2:{ intros E%texts_nil. rewrite E in Hn. simpl in Hn. lia. }
  cbn [orb negb require]. unfold rbind at 1, rret at 1. rewrite Hp.
  unfold rbind at 1. unfold rbind at 1.
  assert (Ht : takes (repeat_rd (length (public_part k)) (public_field (alg k))) (texts (public_part k)) tt).
  { apply takes_public_fields; [done|]. intros E. destruct (Hed E) as [Hl _]. rewrite Forall_forall. intros f Hin.
    apply list_elem_of_In, (in_map length) in Hin. rewrite Hl in Hin. by destruct Hin as [<-|[]]. }
  specialize (Ht []). rewrite app_nil_r in Ht. rewrite Ht. unfold rbind, rrest. cbn. eauto.
Qed.

Lemma takes_on {A} l (m : Rd A) a r : m l = Some (a, r) -> takes (on l m) [] a.
Proof. intros H rest. unfold on. by rewrite H. Qed.

Lemma takes_public_keys keys :
  Forall record_ok keys -> takes (public_keys (length keys)) (texts (map public_blob keys)) (map alg keys).
Proof.
  induction 1 as [|k keys Hk _ IH]; cbn [length public_keys map]; [apply takes_ret|].
  change (texts (public_blob k :: map public_blob keys)) with (ssh_text (public_blob k) ++ texts (map public_blob keys)).
  eapply takes_bind; [by apply takes_string, Hk|]. destruct (public_key_blob k Hk) as [l Hl].
  eapply takes_then; [by eapply takes_on|]. rewrite <- (app_nil_r (texts _)). eapply takes_bind; [exact IH|]. apply takes_ret.
Qed.

Lemma takes_private_records keys :
  Forall record_ok keys -> takes (private_records (map alg keys)) (concat (map private_blob keys)) false.
Proof.
  induction 1 as [|k keys Hk _ IH]; cbn [private_records map concat]; [apply takes_ret|].
  destruct Hk as (_ & Hp & _ & Hf & Ha & _ & Hc & Hed). unfold private_blob at 1. rewrite <- !app_assoc.
  eapply takes_bind; [by apply takes_string|].
  eapply takes_then; [apply takes_require; by apply bool_decide_eq_true|]. rewrite Hp.
  eapply takes_bind; [apply takes_private_fields; [done|]; intros E; destruct (Hed E); split; [done|left; lia]|].
  eapply takes_bind; [by apply takes_string|]. exact IH.
Qed.

Lemma counts_padding i n : counts_from i (padding i n) = true.
Proof. revert i; induction n as [|n IH]; intros i; [done|]. simpl. by rewrite Z.eqb_refl, IH. Qed.
Lemma length_padding i n : length (padding i n) = n.
Proof. revert i; induction n as [|n IH]; intros i; [done|]. simpl. by rewrite IH. Qed.

Lemma private_section_bytes c1 c2 keys pad :
  Forall record_ok keys -> (0 <= c1 < 2 ^ 32)%Z -> (0 <= c2 < 2 ^ 32)%Z -> pad <= 16 ->
  private_section (map alg keys) (private_bytes c1 c2 keys pad) =
  if c1 ==? c2 then Some (tt, padding 1 pad) else None.
Proof.
  intros Hk H1 H2 Hpad. unfold private_section, private_bytes. unfold rbind at 1. rewrite (takes_uint c1 H1).
  unfold rbind at 1. rewrite (takes_uint c2 H2). unfold rbind at 1. destruct (c1 ==? c2); [|done].
  unfold require at 1, rret at 1, rbind at 1. rewrite (takes_private_records keys Hk). unfold rbind, rrest.
  rewrite counts_padding, length_padding, (proj2 (Nat.leb_le _ _)) by lia. done.
Qed.

(** Every unencrypted OpenSSH container of keys of the known algorithms
    (RSA, DSA, Ed25519, ECDSA, any number of them, any field values of the right
    count and sizes, any comments, padding of up to 16 bytes) is accepted exactly
    when its two check integers agree: the structural filter never drops a
    well-formed key and never keeps one with a wrong check integer. *)
Theorem openssh_containers c1 c2 keys pad :
  keys <> [] -> Forall record_ok keys -> (Z.of_nat (length keys) < 2 ^ 32)%Z ->
  (0 <= c1 < 2 ^ 32)%Z -> (0 <= c2 < 2 ^ 32)%Z -> pad <= 16 ->
  short (private_bytes c1 c2 keys pad) -> length (private_bytes c1 c2 keys pad) mod 8 = 0 ->
  openssh_key (ssh_container c1 c2 keys pad) = (c1 ==? c2).
Proof.
  intros Hne Hk Hcount H1 H2 Hpad Hshort Hmod. set (private := private_bytes c1 c2 keys pad) in *.
  unfold openssh_key, openssh_fields, ssh_container. rewrite starts_with_app, drop_app_length.
  unfold openssh_container. fold private.
  assert (Hnone : short (bs "none")) by (vm_compute; done). assert (Hnil : short []) by (vm_compute; done).
  unfold rbind at 1. rewrite (takes_string _ Hnone). unfold rbind at 1. rewrite (takes_string _ Hnone).
  unfold rbind at 1. rewrite (takes_string _ Hnil).
  change (require (negb (is_empty (bs "none") || is_empty (bs "none")))) with (rret tt). unfold rbind at 1, rret at 1.
  unfold rbind at 1. rewrite takes_uint by lia. unfold rbind at 1, rrest at 1.
  set (tail := texts (map public_blob keys) ++ ssh_text private).
  assert (Hguard : negb ((Z.of_nat (length keys) ==? 0) || (Z.of_nat (length tail) / 4 <? Z.of_nat (length keys))%Z) = true).
  { apply negb_true_iff, orb_false_iff. split; [apply Z.eqb_neq; destruct keys; [done|simpl; lia]|].
    apply Z.ltb_ge, Z.div_le_lower_bound; [lia|]. unfold tail. rewrite length_app.
    pose proof (texts_length (map public_blob keys)) as Ht. rewrite length_map in Ht. lia. }
  rewrite Hguard. unfold require at 1, rbind at 1, rret at 1. unfold rbind at 1. rewrite Nat2Z.id. unfold tail.
  rewrite (takes_public_keys keys Hk). unfold rbind at 1. rewrite <- (app_nil_r (ssh_text private)).
  rewrite (takes_string private Hshort).
  assert (Hp : is_empty private = false) by (apply is_empty_false; unfold private, private_bytes, be32; done).
  rewrite Hp. unfold require at 1, rbind at 1, rret at 1. change (bytes_eqb (bs "none") (bs "none")) with true.
  cbn [negb]. unfold rbind at 1, rrest at 1. rewrite Hmod, is_empty_nil. cbn [andb Nat.eqb]. unfold require, rbind, rret, on.
  unfold private. rewrite private_section_bytes by done. by destruct (c1 ==? c2).
Qed.

(** An Ed25519 container with synthetic field values. *)
Definition example_record : ssh_record :=
  {| alg := bs "ssh-ed25519"; public_part := [repeat 7%Z 32];
     private_part := [repeat 7%Z 32; repeat 9%Z 64]; comment := [] |}.

Lemma openssh_containers_witness : openssh_key (ssh_container 5 6 [example_record] 5) = false.
Proof.
  assert (Hf : forall n (b : byte), S n < 100 -> field_ok (repeat b (S n))).
  { intros n b Hn. split; [discriminate|]. unfold short. rewrite repeat_length. lia. }
  apply (openssh_containers 5 6 [example_record] 5); [discriminate| |reflexivity|lia|lia|lia|reflexivity|reflexivity].
  apply Forall_cons_2; [|apply Forall_nil_2]. split_and!; try reflexivity.
  - apply Forall_cons_2; [apply Hf; lia|apply Forall_nil_2].
  - apply Forall_cons_2; [apply Hf; lia|apply Forall_cons_2; [apply Hf; lia|apply Forall_nil_2]].
  - intros _. split; reflexivity.
Defined.

(** ** Writing OpenPGP packets *)

(** A finite range of bytes is checked by evaluation. *)
Lemma byte_range (p : Z -> bool) (n : nat) :
  forallb p (map Z.of_nat (seq 0 n)) = true -> forall z, (0 <= z < Z.of_nat n)%Z -> p z = true.
Proof.
  rewrite forallb_forall. intros H z Hz. apply H, in_map_iff. exists (Z.to_nat z). split; [lia|].
  apply in_seq. lia.
Qed.

(** How the length of a packet is written: one, two or four bytes in the old
    format; in the new one, partial chunks of powers of two and a last one. *)
Inductive framing := OldFormat (kind : Z) | NewFormat (chunks : list (Z * bytes)) (octets : nat).
Record pgp_packet := { tag_of : Z; framing_of : framing; last_chunk : bytes }.

Definition old_size (kind : Z) : nat := if kind ==? 0 then 1 else if kind ==? 1 then 2 else 4.
Definition new_octets (octets : nat) (n : Z) : bytes :=
  match octets with
  | 1 => [n]
  | 2 => [192 + (n - 192) / 256; (n - 192) mod 256]%Z
  | _ => 255%Z :: be32 n
  end.
Definition body_of (p : pgp_packet) : bytes :=
  match framing_of p with
  | OldFormat _ => last_chunk p
  | NewFormat chunks _ => concat (map snd chunks) ++ last_chunk p
  end.
Definition packet_bytes (p : pgp_packet) : bytes :=
  let n := Z.of_nat (length (last_chunk p)) in
  match framing_of p with
  | OldFormat kind => (128 + 4 * tag_of p + kind)%Z :: be_bytes (old_size kind) n ++ last_chunk p
  | NewFormat chunks octets =>
    (192 + tag_of p)%Z ::
      concat (map (fun '(k, chunk) => (224 + k)%Z :: chunk) chunks) ++ new_octets octets n ++ last_chunk p
  end.

Definition octets_ok (octets : nat) (n : Z) : Prop :=
  match octets with
  | 1 => (n <= 191)%Z
  | 2 => (192 <= n <= 8383)%Z
  | _ => (n < 2 ^ 32)%Z
  end.
Definition packet_ok (p : pgp_packet) : Prop :=
  let n := Z.of_nat (length (last_chunk p)) in
  match framing_of p with
  | OldFormat kind => (0 <= tag_of p < 16)%Z /\ (0 <= kind < 3)%Z /\ (n < 256 ^ Z.of_nat (old_size kind))%Z
  | NewFormat chunks octets =>
    (0 <= tag_of p < 64)%Z /\ octets_ok octets n /\
    Forall (fun '(k, chunk) => (0 <= k <= 30)%Z /\ Z.of_nat (length chunk) = (2 ^ k)%Z) chunks
  end.

Lemma takes_byte b : takes ssh_byte [b] b.
Proof.
  unfold ssh_byte. rewrite <- (app_nil_r [b]). eapply takes_bind; [by apply takes_ssh_take|]. apply takes_ret.
Qed.

Lemma takes_new_length octets n :
  (0 <= n)%Z -> octets_ok octets n -> takes new_length (new_octets octets n) (n, false).
Proof.
  intros Hn Hok rest. unfold new_length, rbind at 1.
  destruct octets as [|[|[|octets]]]; cbn [octets_ok new_octets] in *.
  - change ((255%Z :: be32 n) ++ rest) with ([255%Z] ++ be32 n ++ rest). rewrite takes_byte. cbn -[be32].
    unfold rbind. by rewrite takes_uint.
  - rewrite takes_byte, (proj2 (Z.leb_le _ _)) by lia. done.
  - set (a := (192 + (n - 192) / 256)%Z). set (b := ((n - 192) mod 256)%Z).
    change ([a; b] ++ rest) with ([a] ++ [b] ++ rest). rewrite takes_byte.
    assert (Ha : (192 <= a <= 223)%Z) by (unfold a; dlia).
    rewrite (proj2 (Z.leb_gt _ _)), (proj2 (Z.leb_le _ _)) by lia. unfold rbind. rewrite takes_byte.
    unfold rret. do 3 f_equal. rewrite Z.shiftl_mul_pow2 by lia. unfold a, b. change (2 ^ 8)%Z with 256%Z. dlia.
  - change ((255%Z :: be32 n) ++ rest) with ([255%Z] ++ be32 n ++ rest). rewrite takes_byte. cbn -[be32].
    unfold rbind. by rewrite takes_uint.
Qed.

Lemma takes_partial k : (0 <= k <= 30)%Z -> takes new_length [224 + k]%Z (2 ^ k, true)%Z.
Proof.
  intros Hk rest. unfold new_length, rbind at 1. rewrite takes_byte.
  rewrite (proj2 (Z.leb_gt _ 191)), (proj2 (Z.leb_gt _ 223)), (proj2 (Z.leb_le _ 254)) by lia.
  assert (Z.land (224 + k) 31 = k) as ->.
  { apply Z.eqb_eq. apply (byte_range (fun k => Z.land (224 + k) 31 ==? k)%Z 31); [reflexivity|lia]. }
  unfold rret. by rewrite Z.shiftl_1_l.
Qed.

Lemma takes_new_body chunks octets data fuel acc :
  Forall (fun '(k, chunk) => (0 <= k <= 30)%Z /\ Z.of_nat (length chunk) = (2 ^ k)%Z) chunks ->
  octets_ok octets (Z.of_nat (length data)) -> length chunks < fuel ->
  takes (new_body fuel acc)
    (concat (map (fun '(k, chunk) => (224 + k)%Z :: chunk) chunks) ++ new_octets octets (Z.of_nat (length data)) ++ data)
    (acc ++ concat (map snd chunks) ++ data).
Proof.
  intros Hc Ho. revert fuel acc. induction Hc as [|[k chunk] chunks [Hk Hl] _ IH]; intros fuel acc Hfuel;
    (destruct fuel as [|fuel]; [simpl in Hfuel; lia|]); cbn [length map concat app] in *; cbn [new_body].
  - eapply takes_bind; [by apply takes_new_length; [lia|]|]. cbn [fst snd].
    intros rest. unfold rbind. by rewrite (takes_ssh_take data _ eq_refl).
  - eapply (takes_bind _ _ [224 + k]%Z); [by apply takes_partial|]. cbn [fst snd].
    rewrite <- !app_assoc. eapply takes_bind; [by apply takes_ssh_take|]. rewrite (app_assoc acc chunk). apply IH. lia.
Qed.

Lemma header_old tag kind :
  (0 <= tag < 16)%Z -> (0 <= kind < 3)%Z ->
  let h := (128 + 4 * tag + kind)%Z in
  (Z.land h 128 ==? 0) = false /\ (Z.land h 64 ==? 0) = true /\ packet_tag h = tag /\ Z.land h 3 = kind.
Proof.
  intros Ht Hk h.
  pose (p := fun x => let t := (x / 3)%Z in let k := (x mod 3)%Z in let h := (128 + 4 * t + k)%Z in
    negb (Z.land h 128 ==? 0) && (Z.land h 64 ==? 0) && (packet_tag h ==? t) && (Z.land h 3 ==? k)).
  assert (Hp : p (3 * tag + kind)%Z = true) by (apply (byte_range p 48); [reflexivity|lia]).
  unfold p in Hp. replace ((3 * tag + kind) / 3)%Z with tag in Hp by dlia.
  replace ((3 * tag + kind) mod 3)%Z with kind in Hp by dlia. fold h in Hp. tobool.
  split_and!; try done; by apply Z.eqb_eq || by apply Z.eqb_neq.
Qed.

Lemma header_new tag :
  (0 <= tag < 64)%Z -> let h := (192 + tag)%Z in
  (Z.land h 128 ==? 0) = false /\ (Z.land h 64 ==? 0) = false /\ packet_tag h = tag.
Proof.
  intros Ht h. pose (p := fun t => let h := (192 + t)%Z in
    negb (Z.land h 128 ==? 0) && negb (Z.land h 64 ==? 0) && (packet_tag h ==? t)).
  assert (Hp : p tag = true) by (apply (byte_range p 64); [reflexivity|lia]).
  unfold p in Hp. fold h in Hp. tobool. split_and!; try done; by apply Z.eqb_neq.
Qed.

Lemma takes_old_body kind data h :
  Z.land h 3 = kind -> (0 <= kind < 3)%Z -> (Z.of_nat (length data) < 256 ^ Z.of_nat (old_size kind))%Z ->
  takes (old_body h) (be_bytes (old_size kind) (Z.of_nat (length data)) ++ data) data.
Proof.
  intros Hh Hk Hl. unfold old_body. rewrite Hh.
  assert (Hsize : forall n, n = Z.of_nat (old_size kind) ->
    takes (let+ b := ssh_take n in ssh_take (be_word b)) (be_bytes (old_size kind) (Z.of_nat (length data)) ++ data) data).
  { intros n ->. eapply takes_bind; [apply takes_ssh_take; by rewrite length_be_bytes|].
    rewrite be_word_bytes, Z.mod_small by lia. by apply takes_ssh_take. }
  assert (kind = 0 \/ kind = 1 \/ kind = 2)%Z as [->|[->| ->]] by lia; by apply Hsize.
Qed.

Lemma takes_packet p : packet_ok p -> takes packet (packet_bytes p) (tag_of p, body_of p).
Proof.
  destruct p as [tag [kind|chunks octets] data]; unfold packet_ok, packet_bytes, body_of; cbn [framing_of tag_of last_chunk].
  - intros (Ht & Hk & Hl). destruct (header_old tag kind Ht Hk) as (H1 & H2 & H3 & H4).
    eapply (takes_bind _ _ [128 + 4 * tag + kind]%Z); [apply takes_byte|].
    eapply takes_then; [apply takes_require; by rewrite H1|]. rewrite H2, H3. cbn [negb].
    intros rest. unfold rbind, rrest. by rewrite (takes_old_body kind data _ H4 Hk Hl).
  - intros (Ht & Ho & Hc). destruct (header_new tag Ht) as (H1 & H2 & H3).
    eapply (takes_bind _ _ [192 + tag]%Z); [apply takes_byte|].
    eapply takes_then; [apply takes_require; by rewrite H1|]. rewrite H2, H3. cbn [negb].
    intros rest. unfold rbind, rrest. rewrite (takes_new_body chunks octets data _ [] Hc Ho); [done|].
    rewrite !length_app. apply Nat.lt_succ_r. clear. induction chunks as [|[k c] chunks IH]; simpl; [lia|].
    rewrite length_app. lia.
Qed.

Definition is_secret (p : pgp_packet) : bool := (tag_of p ==? 5) || (tag_of p ==? 7).

Lemma packet_bytes_cons p : exists b l, packet_bytes p = b :: l.
Proof. unfold packet_bytes. destruct (framing_of p); eauto. Qed.

Lemma pgp_loop_packets ps fuel secret :
  Forall packet_ok ps -> length ps <= fuel ->
  pgp_loop fuel secret (concat (map packet_bytes ps)) =
  if (secret || existsb is_secret ps) && forallb (fun p => negb (is_secret p) || pgp_secret_packet (body_of p)) ps
  then Some tt else None.
Proof.
  intros Hps. revert fuel secret. induction Hps as [|p ps Hp _ IH]; intros fuel secret Hf.
  { destruct fuel; simpl; by rewrite orb_false_r, andb_true_r. }
  destruct fuel as [|fuel]; [simpl in Hf; lia|]. cbn [map concat length existsb forallb] in *.
  destruct (packet_bytes_cons p) as (b & l & E).
  cbn [pgp_loop]. pose proof (takes_packet p Hp (concat (map packet_bytes ps))) as Ht.
  destruct (packet_bytes p ++ concat (map packet_bytes ps)) as [|b' l'] eqn:E'; [by rewrite E in E'|].
  rewrite Ht. change ((tag_of p ==? 5) || (tag_of p ==? 7)) with (is_secret p). destruct (is_secret p); cbn [negb orb].
  - rewrite orb_true_r. destruct (pgp_secret_packet (body_of p)); cbn [andb]; [|done]. by rewrite IH by lia.
  - by rewrite IH by lia.
Qed.

(** The packets of an OpenPGP key are framed exactly. For every sequence of
    packets, each written in the old format or in the new one with lengths of
    one, two or five octets and any partial chunks before the last, the key is
    accepted exactly when it has a secret key or secret subkey packet and the
    reassembled body of each of those passes the check of its fields. *)
Theorem pgp_packets_exact ps :
  Forall packet_ok ps ->
  pgp_key (concat (map packet_bytes ps)) =
  existsb is_secret ps && forallb (fun p => negb (is_secret p) || pgp_secret_packet (body_of p)) ps.
Proof.
  intros Hps. unfold pgp_key, pgp_packets. rewrite pgp_loop_packets; [|done|].
  - cbn [orb]. by destruct (_ && _).
  - clear Hps. induction ps as [|p ps IH]; [done|]. cbn [map concat length]. rewrite length_app.
    destruct (packet_bytes_cons p) as (b & l & ->). simpl. lia.
Qed.

(** ** The fields of a secret packet *)

Record mpi := { bits : Z; octets : bytes }.
Definition mpi_ok (m : mpi) : Prop := (0 <= bits m < 65536)%Z /\ Z.of_nat (length (octets m)) = ((bits m + 7) / 8)%Z.
Definition mpi_bytes (m : mpi) : bytes := be_bytes 2 (bits m) ++ octets m.
Definition mpis_bytes (l : list mpi) : bytes := concat (map mpi_bytes l).

(** An unencrypted secret packet of version 2 to 4 with its checksum. *)
Record secret_fields := {
  version : Z; created : bytes; validity : bytes; algorithm : Z; curve : bytes;
  public_mpis : list mpi; kdf : bytes; secret_mpis : list mpi
}.
Definition sized_bytes (l : bytes) : bytes := Z.of_nat (length l) :: l.
Definition secret_bytes (k : secret_fields) (checksum : Z) : bytes :=
  [version k] ++ created k ++ validity k ++ [algorithm k] ++
  (if has_curve (algorithm k) then sized_bytes (curve k) else []) ++ mpis_bytes (public_mpis k) ++
  (if algorithm k ==? 18 then sized_bytes (kdf k) else []) ++ [0%Z] ++
  mpis_bytes (secret_mpis k) ++ be_bytes 2 checksum.
Definition sized_ok (l : bytes) : Prop := 0 < length l < 256.
Definition secret_ok (k : secret_fields) : Prop :=
  (2 <= version k <= 4)%Z /\ length (created k) = 4 /\ length (validity k) = (if version k ==? 4 then 0 else 2) /\
  mpi_counts (algorithm k) = Some (length (public_mpis k), length (secret_mpis k)) /\
  sized_ok (curve k) /\ sized_ok (kdf k) /\ Forall mpi_ok (public_mpis k) /\ Forall mpi_ok (secret_mpis k).

Lemma takes_mpis l : Forall mpi_ok l -> takes (repeat_rd (length l) pgp_mpi) (mpis_bytes l) tt.
Proof.
  induction 1 as [|m l [Hb Hl] _ IH]; cbn [length repeat_rd]; [apply takes_ret|].
  change (mpis_bytes (m :: l)) with (mpi_bytes m ++ mpis_bytes l). eapply (takes_bind _ _ _ _ tt); [|exact IH].
  unfold pgp_mpi, mpi_bytes. eapply takes_bind; [by apply takes_ssh_take; rewrite length_be_bytes|].
  rewrite be_word_bytes, Z.mod_small by lia. eapply takes_last. by apply takes_ssh_take.
Qed.

Lemma takes_sized l : sized_ok l -> takes sized (sized_bytes l) tt.
Proof.
  intros Hl. unfold sized, sized_bytes. eapply (takes_bind _ _ [Z.of_nat (length l)]); [apply takes_byte|].
  eapply takes_then; [apply takes_require, negb_true_iff, Z.eqb_neq; unfold sized_ok in Hl; lia|].
  eapply takes_last. by apply takes_ssh_take.
Qed.

Lemma takes_if (b : bool) (m : Rd unit) d : takes m d tt -> takes (if b then m else rret tt) (if b then d else []) tt.
Proof. destruct b; [done|]. intros _. apply takes_ret. Qed.

Lemma takes_here {A B} (m : Rd A) (k : A -> Rd B) d rest a : takes m d a -> rbind m k (d ++ rest) = k a rest.
Proof. intros H. unfold rbind. by rewrite H. Qed.

Lemma secret_section_bytes l checksum :
  Forall mpi_ok l -> (0 <= checksum < 65536)%Z ->
  secret_section (length l) (mpis_bytes l ++ be_bytes 2 checksum) =
  if checksum ==? byte_sum (mpis_bytes l) then Some (tt, []) else None.
Proof.
  intros Hl Hc. unfold secret_section. unfold rbind at 1, rrest at 1. rewrite (takes_here _ _ _ _ tt) by by apply takes_mpis.
  unfold rbind at 1, rrest at 1. rewrite length_app. replace (length (mpis_bytes l) + _ - _) with (length (mpis_bytes l)) by lia.
  rewrite take_app_length, <- (app_nil_r (be_bytes 2 checksum)).
  rewrite (takes_here _ _ _ _ (be_bytes 2 checksum)) by (apply takes_ssh_take; by rewrite length_be_bytes).
  unfold rbind, rrest. rewrite be_word_bytes, Z.mod_small by lia. rewrite is_empty_nil. cbn [andb].
  by destruct (checksum ==? _).
Qed.

(** The checksum of an unencrypted OpenPGP secret key is checked exactly:
    for every version and known algorithm, with any curve and KDF parameters and
    any integers (whatever their declared bit counts pad), the packet is accepted
    if and only if the two checksum bytes are the sum of the bytes of the secret
    integers modulo 65536. *)
Theorem pgp_checksum_exact k checksum :
  secret_ok k -> (0 <= checksum < 65536)%Z ->
  pgp_secret_packet (secret_bytes k checksum) = (checksum ==? byte_sum (mpis_bytes (secret_mpis k))).
Proof.
  intros (Hv & Hcr & Hva & Hcounts & Hcu & Hkdf & Hpub & Hsec) Hc.
  unfold pgp_secret_packet, pgp_secret_fields, secret_bytes. rewrite (takes_here _ _ _ _ (version k)) by apply takes_byte.
  rewrite (takes_here _ _ _ _ (created k)) by (apply takes_ssh_take; by rewrite Hcr).
  rewrite (takes_here _ _ (validity k) _ tt).
  2:{ destruct (version k ==? 4) eqn:E; tobool.
      - rewrite E. destruct (validity k); [|done]. apply takes_ret.
      - assert (((version k ==? 2) || (version k ==? 3)) = true) as ->.
        { assert (version k = 2 \/ version k = 3)%Z as [-> | ->] by lia; done. }
        eapply takes_last, takes_ssh_take. by rewrite Hva. }
  rewrite (takes_here _ _ _ _ (algorithm k)) by apply takes_byte.
  rewrite (proj2 (Z.leb_le 2 _)), (proj2 (Z.leb_le _ 4)), Hcounts by lia. cbn [andb negb].
  rewrite (takes_here _ _ _ _ tt) by by apply takes_if, takes_sized.
  rewrite (takes_here _ _ _ _ tt) by by apply takes_mpis.
  rewrite (takes_here _ _ _ _ tt) by by apply takes_if, takes_sized.
  rewrite (takes_here _ _ _ _ 0%Z) by apply takes_byte. cbn [negb Z.eqb].
  rewrite secret_section_bytes by done. by destruct (checksum ==? _).
Qed.

(** A version 4 RSA packet with tiny integers. *)
Definition example_secret : secret_fields :=
  {| version := 4; created := [0; 0; 0; 0]%Z; validity := []; algorithm := 1; curve := [1%Z];
     public_mpis := repeat {| bits := 3; octets := [5%Z] |} 2; kdf := [1%Z];
     secret_mpis := repeat {| bits := 3; octets := [5%Z] |} 4 |}.

Lemma pgp_checksum_exact_witness : pgp_secret_packet (secret_bytes example_secret 32) = true.
Proof.
  apply (pgp_checksum_exact example_secret 32); [|lia].
  split_and!; try reflexivity; try (simpl; lia); repeat (apply Forall_cons_2; [split; [simpl; lia|reflexivity]|]); try apply Forall_nil_2;
    vm_compute; lia.
Defined.

Lemma pgp_packets_exact_witness :
  pgp_key (concat (map packet_bytes
    [{| tag_of := 5; framing_of := NewFormat [(0%Z, [4%Z])] 1; last_chunk := tail (secret_bytes example_secret 32) |}])) = true.
Proof.
  apply (pgp_packets_exact
    [{| tag_of := 5; framing_of := NewFormat [(0%Z, [4%Z])] 1; last_chunk := tail (secret_bytes example_secret 32) |}]).
  apply Forall_cons_2; [|constructor]. split_and!; try (vm_compute; intuition congruence).
  apply Forall_cons_2; [|constructor]. split; [lia|reflexivity].
Defined.
