(* ===== verification/Rule.v ===== *)
(** * Rules and their precedence-relevant syntax: [kingfisher-rules/src/rule.rs]

    The fields of [Rule] and [RuleSyntax] that the scanner's post-processing
    reads, the confidence order and the confidence filter of a rule. *)

From Stdlib Require Import ZArith Lia Bool.
From stdpp Require Import base list numbers option.
From S2P Require Import Prelude.

(** [Validation]: the scanner only tests for [CredentialUri] and for presence;
    the payloads of the other variants are not modelled. *)
Inductive Validation :=
| Assumed | AWS | AzureStorage | Coinbase | GCP | MongoDB | MySQL | Postgres | Jdbc
| CredentialUri | JWT | Ethereum | Raw | Betterleaks | Http | Grpc.

Definition is_credential_uri (v : option Validation) : bool :=
  match v with Some CredentialUri => true | _ => false end.

Inductive Confidence := Low | Medium | High.

(** [Ord for Confidence] *)
Definition confidence_cmp (a b : Confidence) : comparison :=
  match a, b with
  | Low, Low => Eq
  | Low, _ => Lt
  | Medium, Low => Gt
  | Medium, Medium => Eq
  | Medium, High => Lt
  | High, High => Eq
  | High, _ => Gt
  end.
Definition is_at_least (c other : Confidence) : bool :=
  match confidence_cmp c other with Lt => false | _ => true end.

Record DependsOnRule := {
  verify_candidates : bool;
  dep_rule_id : bytes;
  variable : bytes;
  optional : bool;
  within : option bytes
}.

Record Rule := {
  id : bytes;
  visible : bool;
  specificity : Z;
  validation : option Validation;
  depends_on_rule : list (option DependsOnRule);
  runtime_minimum_confidence : Confidence;
  runtime_dependency_helper : bool
}.

(** [rule.syntax().depends_on_rule.iter().flatten()] *)
Definition dependencies (r : Rule) : list DependsOnRule := omap (fun d => d) (depends_on_rule r).

(** The runtime confidence filter, set once rule selection has resolved the
    helpers. *)
Definition set_runtime_confidence_filter (r : Rule) (minimum : Confidence) (helper : bool) : Rule :=
  {| id := id r; visible := visible r; specificity := specificity r; validation := validation r;
     depends_on_rule := depends_on_rule r; runtime_minimum_confidence := minimum;
     runtime_dependency_helper := helper |}.
Definition suppress_runtime_reporting (r : Rule) : Rule :=
  {| id := id r; visible := false; specificity := specificity r; validation := validation r;
     depends_on_rule := depends_on_rule r;
     runtime_minimum_confidence := runtime_minimum_confidence r;
     runtime_dependency_helper := runtime_dependency_helper r |}.
Definition reports_effective_confidence (r : Rule) (c : Confidence) : bool :=
  is_at_least c (runtime_minimum_confidence r).
Definition accepts_effective_confidence (r : Rule) (c : Confidence) : bool :=
  runtime_dependency_helper r || reports_effective_confidence r c.
