(* ===== verification/Overlap.v ===== *)
(** * Match indexes of the post-processing: [kingfisher-scanner/src/postprocess.rs]

    [RuleMatchIndex] (candidate positions per rule, in order), [OverlapIndex]
    (a static interval tree in an implicit heap) and [credential_uri_keep],
    which queries the tree. The tree's query is shown to be a filter over the
    spans, and the elimination to be the all-pairs one. *)

From Stdlib Require Import ZArith Lia Bool ZifyNat.
From stdpp Require Import base list numbers option gmap sorting.
From S2P Require Import Prelude Control Rule.

Record OffsetSpan := { start : nat; end_ : nat }.

(** ** Sorted sets of pairs: [BTreeSet<(usize, usize)>] *)

Module PairSet.

Definition pair_ltb (a b : nat * nat) : bool :=
  (a.1 <? b.1) || (Nat.eqb a.1 b.1 && (a.2 <? b.2)).
Definition pair_lt (a b : nat * nat) : Prop := pair_ltb a b = true.

Fixpoint bt_insert (x : nat * nat) (l : list (nat * nat)) : list (nat * nat) :=
  match l with
  | [] => [x]
  | y :: r => if pair_ltb x y then x :: l else if pair_ltb y x then y :: bt_insert x r else l
  end.
Fixpoint bt_remove (x : nat * nat) (l : list (nat * nat)) : list (nat * nat) :=
  match l with
  | [] => []
  | y :: r => if pair_ltb x y then l else if pair_ltb y x then y :: bt_remove x r else r
  end.
(** [set.range(lo..hi)]: panics when the bounds are inverted. *)
Definition bt_range (lo hi : nat * nat) (l : list (nat * nat)) : option (list (nat * nat)) :=
  if pair_ltb hi lo then None
  else Some (List.filter (fun x => negb (pair_ltb x lo) && pair_ltb x hi) l).

Lemma pair_lt_trans a b c : pair_lt a b -> pair_lt b c -> pair_lt a c.
Proof.
  unfold pair_lt, pair_ltb. destruct a as [a1 a2], b as [b1 b2], c as [c1 c2]; simpl.
  rewrite !orb_true_iff, !andb_true_iff, !Nat.ltb_lt, !Nat.eqb_eq. lia.
Qed.

Lemma pair_lt_total a b : pair_ltb a b = false -> pair_ltb b a = false -> a = b.
Proof.
  unfold pair_ltb. destruct a as [a1 a2], b as [b1 b2]; simpl. intros H1 H2.
  rewrite !orb_false_iff, !andb_false_iff, !Nat.ltb_ge, !Nat.eqb_neq in *. f_equal; lia.
Qed.

Lemma pair_lt_irrefl a : ~ pair_lt a a.
Proof.
  unfold pair_lt, pair_ltb. rewrite orb_true_iff, andb_true_iff, !Nat.ltb_lt. lia.
Qed.

Lemma bt_insert_spec x l :
  StronglySorted pair_lt l ->
  StronglySorted pair_lt (bt_insert x l) /\ forall y, In y (bt_insert x l) <-> y = x \/ In y l.
Proof.
  induction 1 as [|y l Hs IH Hy]; simpl.
  - split; [repeat constructor|]. intros y. intuition.
  - destruct (pair_ltb x y) eqn:E1; [|destruct (pair_ltb y x) eqn:E2].
    + split; [|intros z; simpl; intuition]. constructor; [by constructor|].
      constructor; [done|]. eapply Forall_impl; [exact Hy|]. intros z Hz.
      by apply (pair_lt_trans x y z).
    + destruct IH as [IH1 IH2]. split.
      * constructor; [done|]. apply List.Forall_forall. intros z Hz. apply IH2 in Hz as [->|Hz]; [done|].
        rewrite List.Forall_forall in Hy. by apply Hy.
      * intros z. simpl. rewrite IH2. intuition.
    + rewrite (pair_lt_total x y E1 E2) in *. split; [by constructor|]. intros z. simpl. intuition.
Qed.

Lemma bt_remove_spec x l :
  StronglySorted pair_lt l ->
  StronglySorted pair_lt (bt_remove x l) /\ forall y, In y (bt_remove x l) <-> y <> x /\ In y l.
Proof.
  induction 1 as [|y l Hs IH Hy]; simpl.
  - split; [constructor|]. intros y. intuition.
  - rewrite List.Forall_forall in Hy. destruct (pair_ltb x y) eqn:E1; [|destruct (pair_ltb y x) eqn:E2].
    + split; [constructor; [done|by apply List.Forall_forall]|]. intros z. simpl. split; [|tauto].
      intros Hz. split; [|done]. intros ->.
      assert (pair_lt x x); [|by apply (pair_lt_irrefl x)].
      destruct Hz as [->|Hz]; [done|]. by apply (pair_lt_trans x y x), Hy.
    + destruct IH as [IH1 IH2]. split.
      * constructor; [done|]. apply List.Forall_forall. intros z Hz. apply IH2 in Hz as [_ Hz]. by apply Hy.
      * intros z. simpl. rewrite IH2. split; [|tauto]. intros [<-|?]; [|tauto].
        split; [|auto]. intros ->. by apply (pair_lt_irrefl x).
    + rewrite (pair_lt_total x y E1 E2) in *. split; [done|]. intros z. simpl. split.
      * intros Hz. split; [|auto]. intros ->. by apply (pair_lt_irrefl y), Hy.
      * intros [? [->|?]]; done.
Qed.
End PairSet.
Import PairSet.

(** ** [RuleMatchIndex] *)

Record RuleMatchIndex := { positions : gmap bytes (list (nat * nat)) }.

Definition rmi_insert (ix : RuleMatchIndex) (e : bytes * nat * nat) : RuleMatchIndex :=
  let '(rule, position, finding) := e in
  {| positions :=
       <[rule := bt_insert (position, finding) (default [] (positions ix !! rule))]> (positions ix) |}.
Definition rmi_new (entries : list (bytes * nat * nat)) : RuleMatchIndex :=
  fold_left rmi_insert entries {| positions := ∅ |}.

Definition candidates (ix : RuleMatchIndex) (rule : bytes) (rstart rend : nat) :
    option (list (nat * nat)) :=
  let e := Nat.max rend rstart in
  match positions ix !! rule with
  | None => Some []
  | Some ps => bt_range (rstart, 0) (e, 0) ps
  end.

Definition rmi_remove (ix : RuleMatchIndex) (rule : bytes) (position finding : nat) : RuleMatchIndex :=
  match positions ix !! rule with
  | Some ps => {| positions := <[rule := bt_remove (position, finding) ps]> (positions ix) |}
  | None => ix
  end.

(** ** [OverlapIndex] *)

(** [usize::next_power_of_two] of a positive number. *)
Definition next_power_of_two (n : nat) : nat := 2 ^ Nat.log2_up n.

Record OverlapIndex := {
  spans : list (OffsetSpan * nat);
  max_end : list nat;
  leaves : nat;
  uniform_rule : list Z
}.

(** [for index in (1..=n).rev()]: every node from its two children. *)
Fixpoint fill_nodes {A} (d : A) (node_of : A -> A -> A -> A) (n : nat) (a : list A) : list A :=
  match n with
  | 0 => a
  | S k =>
    fill_nodes d node_of k
      (<[S k := node_of (nth (S k) a d) (nth (S k * 2) a d) (nth (S k * 2 + 1) a d)]> a)
  end.

(** [array[leaves + index] = value], for the values in order. *)
Fixpoint set_leaves {A} (base : nat) (values : list A) (a : list A) : list A :=
  match values with
  | [] => a
  | v :: r => set_leaves (S base) r (<[base := v]> a)
  end.

Definition from_sorted_spans (sp : list (OffsetSpan * nat)) : OverlapIndex :=
  let lv := next_power_of_two (Nat.max (length sp) 1) in
  {| spans := sp;
     max_end := fill_nodes 0 (fun _ l r => Nat.max l r) (lv - 1)
       (set_leaves lv (map (fun e => end_ e.1) sp) (replicate (lv * 2) 0));
     leaves := lv; uniform_rule := [] |}.

(** The sort keys of [new] and [with_rules]; the indexes are distinct, so the
    unstable sort has one result. *)
Definition key_leb (a b : nat * Z * nat) : bool :=
  let '(a1, a2, a3) := a in let '(b1, b2, b3) := b in
  (a1 <? b1) || (Nat.eqb a1 b1 && ((a2 <? b2)%Z || (Z.eqb a2 b2 && (a3 <=? b3)))).
Definition by_key (key : OffsetSpan * nat -> nat * Z * nat) (a b : OffsetSpan * nat) : Prop :=
  key_leb (key a) (key b) = true.
#[export] Instance by_key_dec key : RelDecision (by_key key).
Proof. intros a b. unfold by_key. apply _. Defined.

Definition overlap_new (entries : list (OffsetSpan * nat)) : OverlapIndex :=
  from_sorted_spans (merge_sort (by_key (fun e => (start e.1, 0%Z, e.2))) entries).

Definition with_rules (entries : list (OffsetSpan * nat)) (rules : list Z) : OverlapIndex :=
  let sp := merge_sort (by_key (fun e => (start e.1, nth e.2 rules 0%Z, e.2))) entries in
  let index := from_sorted_spans sp in
  let lv := leaves index in
  {| spans := spans index; max_end := max_end index; leaves := lv;
     uniform_rule :=
       fill_nodes USIZE_MAX (fun cur l r => if Z.eqb l r then l else cur) (lv - 1)
         (set_leaves lv (map (fun e => nth e.2 rules 0%Z) sp) (replicate (lv * 2) USIZE_MAX)) |}.

Section visits.
Variable ix : OverlapIndex.
Variable span : OffsetSpan.

Definition out_of_reach (node first : nat) : bool :=
  (nth node (max_end ix) 0 <=? start span) ||
  match spans ix !! first with None => true | Some (entry, _) => end_ span <=? start entry end.

(** [visit]: the indexes of the overlapping spans under a node, pushed in order. *)
Fixpoint visit (fuel node first last : nat) (found : list nat) : list nat :=
  match fuel with
  | 0 => found
  | S fuel =>
    if out_of_reach node first then found
    else if Nat.eqb (last - first) 1 then
      match spans ix !! first with Some (_, i) => found ++ [i] | None => found end
    else
      let middle := first + (last - first) / 2 in
      visit fuel (node * 2 + 1) middle last (visit fuel (node * 2) first middle found)
  end.

Variable rule : Z.
Variable control : ScanControl.
Variable predicate : nat -> bool.

(** [a? || b?] *)
Definition or_else (a b : Ctl bool) : Ctl bool := let! x := a in if x then ret true else b.

Fixpoint visit_excluding (fuel node first last : nat) : Ctl bool :=
  match fuel with
  | 0 => ret false
  | S fuel =>
    check control ;;!
    (if out_of_reach node first || Z.eqb (nth node (uniform_rule ix) 0%Z) rule then ret false
     else if Nat.eqb (last - first) 1 then
       match spans ix !! first with Some (_, i) => ret (predicate i) | None => ret false end
     else
       let middle := first + (last - first) / 2 in
       or_else (visit_excluding fuel (node * 2) first middle)
               (visit_excluding fuel (node * 2 + 1) middle last))
  end.
End visits.

(** The height of the tree bounds the depth of the recursion. *)
Definition overlapping (ix : OverlapIndex) (span : OffsetSpan) : list nat :=
  visit ix span (S (Nat.log2 (leaves ix))) 1 0 (leaves ix) [].
Definition any_overlapping_excluding (ix : OverlapIndex) (span : OffsetSpan) (rule : Z)
    (control : ScanControl) (predicate : nat -> bool) : Ctl bool :=
  visit_excluding ix span rule control predicate (S (Nat.log2 (leaves ix))) 1 0 (leaves ix).

(** ** [credential_uri_keep] *)

Definition Entry : Type := Rule * OffsetSpan * bytes.
Definition e_rule (e : Entry) : Rule := e.1.1.
Definition e_span (e : Entry) : OffsetSpan := e.1.2.
Definition e_secret (e : Entry) : bytes := e.2.

Definition eligible (r : Rule) : bool := visible r && starts_with (bs "betterleaks.") (id r).

(** [rule_ids.entry(rule.id()).or_insert(next)]: the rules numbered by first
    occurrence. *)
Fixpoint number_rules (control : ScanControl) (rule_ids : gmap bytes Z) (entries : list Entry) :
    Ctl (list Z) :=
  match entries with
  | [] => ret []
  | e :: rest =>
    check control ;;!
    (let next := Z.of_nat (size rule_ids) in
     let '(n, rule_ids) := match rule_ids !! id (e_rule e) with
       | Some n => (n, rule_ids)
       | None => (next, <[id (e_rule e) := next]> rule_ids)
       end in
     let! rest' := number_rules control rule_ids rest in ret (n :: rest'))
  end.

Fixpoint uri_loop (control : ScanControl) (overlaps : OverlapIndex) (rules : list Z)
    (all : list Entry) (index : nat) (entries : list Entry) : Ctl (list bool) :=
  match entries with
  | [] => ret []
  | e :: rest =>
    check control ;;!
    (let! keep :=
       if negb (eligible (e_rule e)) || negb (is_credential_uri (validation (e_rule e)))
          || Nat.eqb (length (e_secret e)) 0
       then ret true
       else
         let! hit := any_overlapping_excluding overlaps (e_span e) (nth index rules 0%Z) control
           (fun candidate => match all !! candidate with
              | Some c => contains_sub (e_secret e) (e_secret c)
              | None => false end) in
         ret (negb hit)
     in
     let! rest' := uri_loop control overlaps rules all (S index) rest in
     ret (keep :: rest'))
  end.

(** The entries the tree holds, with their positions. *)
Definition eligible_spans (entries : list Entry) : list (OffsetSpan * nat) :=
  map (fun '(i, e) => (e_span e, i))
    (List.filter (fun '(_, e) => eligible (e_rule e)) (imap (fun i e => (i, e)) entries)).

Definition credential_uri_keep (control : ScanControl) (entries : list Entry) : Ctl (list bool) :=
  if negb (existsb (fun e => is_credential_uri (validation (e_rule e))) entries)
  then ret (replicate (length entries) true)
  else
    let! rules := number_rules control ∅ entries in
    let overlaps := with_rules (eligible_spans entries) rules in
    uri_loop control overlaps rules entries 0 entries.

(** ** The heap *)

Section heap.
Context {A : Type} (d : A).
Implicit Types a : list A.

Lemma set_leaves_spec values : forall base a,
  base + length values <= length a ->
  length (set_leaves base values a) = length a /\
  forall i, nth i (set_leaves base values a) d =
    if (base <=? i) && (i <? base + length values) then nth (i - base) values d else nth i a d.
Proof.
  induction values as [|v r IH]; intros base a Ha; simpl in *.
  - split; [done|]. intros i. destruct (_ && _) eqn:E; [|done]. tobool. lia.
  - destruct (IH (S base) (<[base := v]> a)) as [H1 H2]; [rewrite length_insert; lia|].
    rewrite length_insert in H1. split; [done|]. intros i. rewrite H2, nth_insert by lia.
    destruct (Nat.eqb i base) eqn:E; tobool.
    + subst. rewrite (proj2 (Nat.leb_gt (S base) base)) by lia. simpl.
      rewrite Nat.leb_refl. rewrite (proj2 (Nat.ltb_lt _ _)) by lia. simpl. by rewrite Nat.sub_diag.
    + destruct (_ && _) eqn:E1; destruct ((base <=? i) && _) eqn:E2; try done; tobool.
      * replace (i - base) with (S (i - S base)) by lia. done.
      * apply andb_false_iff in E2 as [?|?]; tobool; lia.
      * apply andb_false_iff in E1 as [?|?]; tobool; lia.
Qed.

Lemma fill_nodes_spec node_of n : forall a,
  2 * n + 1 < length a \/ n = 0 ->
  let h := fill_nodes d node_of n a in
  length h = length a /\ (forall i, i = 0 \/ n < i -> nth i h d = nth i a d) /\
  (forall i, 1 <= i <= n -> nth i h d = node_of (nth i a d) (nth (i * 2) h d) (nth (i * 2 + 1) h d)).
Proof.
  induction n as [|k IH]; intros a Ha h; [subst h; simpl; split_and!; [done|done|lia]|].
  set (a' := <[S k := node_of (nth (S k) a d) (nth (S k * 2) a d) (nth (S k * 2 + 1) a d)]> a).
  assert (length a' = length a) as Ha' by apply length_insert.
  change h with (fill_nodes d node_of k a').
  destruct (IH a') as (H1 & H2 & H3); [lia|]. cbv zeta in *.
  set (h' := fill_nodes d node_of k a') in *.
  assert (forall i, i <> S k -> nth i a' d = nth i a d) as Hne.
  { intros i Hi. unfold a'. rewrite nth_insert by lia.
    by rewrite (proj2 (Nat.eqb_neq _ _)) by done. }
  split; [lia|]. split.
  - intros i Hi. rewrite H2 by lia. apply Hne. lia.
  - intros i Hi. destruct (decide (i = S k)) as [->|Hi'].
    + rewrite (H2 (S k)) by lia. rewrite (H2 (S k * 2)) by lia. rewrite (H2 (S k * 2 + 1)) by lia.
      rewrite !(Hne (S k * _)) by lia. rewrite (Hne (S k * 2 + 1)) by lia.
      unfold a' at 1. rewrite nth_insert by lia. by rewrite Nat.eqb_refl.
    + rewrite H3 by lia. by rewrite Hne by done.
Qed.

(** A property of the values that the node function relates to its children
    holds of a node exactly when it holds of the leaves under it. *)
Lemma heap_range node_of K a (P : A -> Prop) :
  length a = 2 ^ K * 2 ->
  (forall cur l r, (exists i, 1 <= i < 2 ^ K /\ nth i a d = cur) ->
     P (node_of cur l r) -> P l /\ P r) ->
  let h := fill_nodes d node_of (2 ^ K - 1) a in
  forall k node first, node * 2 ^ k = 2 ^ K + first -> first + 2 ^ k <= 2 ^ K ->
    P (nth node h d) -> forall i, first <= i < first + 2 ^ k -> P (nth (2 ^ K + i) a d).
Proof.
  intros Ha HP h. assert (0 < 2 ^ K) by (apply Nat.neq_0_lt_0, Nat.pow_nonzero; lia).
  destruct (fill_nodes_spec node_of (2 ^ K - 1) a) as (_ & H2 & H3); [lia|].
  fold h in H2, H3. cbv zeta in H2, H3.
  induction k as [|k IH]; intros node first Hn Hle Hp i Hi.
  - simpl in *. replace i with first by lia. rewrite <- (H2 (2 ^ K + first)) by lia.
    by replace (2 ^ K + first) with node by lia.
  - rewrite Nat.pow_succ_r' in *. set (w := 2 ^ k) in *.
    assert (0 < w) by (apply Nat.neq_0_lt_0, Nat.pow_nonzero; lia).
    assert (node < 2 ^ K) by nia. assert (1 <= node) by nia.
    rewrite H3 in Hp by lia. apply HP in Hp as [Hl Hr]; [|exists node; split; [lia|done]].
    destruct (decide (i < first + w)) as [Hlt|Hge].
    + apply (IH (node * 2) first); [nia|lia|done|lia].
    + apply (IH (node * 2 + 1) (first + w)); [nia|lia|done|lia].
Qed.
End heap.

(** The converse for the maximum: a bound of the leaves bounds the node. *)
Lemma max_node_bound K a x :
  length a = 2 ^ K * 2 ->
  let h := fill_nodes 0 (fun _ l r => Nat.max l r) (2 ^ K - 1) a in
  forall k node first, node * 2 ^ k = 2 ^ K + first -> first + 2 ^ k <= 2 ^ K ->
    (forall i, first <= i < first + 2 ^ k -> nth (2 ^ K + i) a 0 <= x) -> nth node h 0 <= x.
Proof.
  intros Ha h. assert (0 < 2 ^ K) by (apply Nat.neq_0_lt_0, Nat.pow_nonzero; lia).
  destruct (fill_nodes_spec 0 (fun _ l r => Nat.max l r) (2 ^ K - 1) a) as (_ & H2 & H3); [lia|].
  fold h in H2, H3. cbv zeta in H2, H3.
  induction k as [|k IH]; intros node first Hn Hle Hx.
  - simpl in *. rewrite H2 by lia. specialize (Hx first ltac:(lia)).
    by replace node with (2 ^ K + first) by lia.
  - rewrite Nat.pow_succ_r' in *. set (w := 2 ^ k) in *.
    assert (0 < w) by (apply Nat.neq_0_lt_0, Nat.pow_nonzero; lia).
    rewrite H3 by nia. apply Nat.max_lub.
    + apply (IH (node * 2) first); [nia|lia|]. intros i Hi. apply Hx. lia.
    + apply (IH (node * 2 + 1) (first + w)); [nia|lia|]. intros i Hi. apply Hx. lia.
Qed.

(** ** Queries *)

Definition overlaps (span : OffsetSpan) (e : OffsetSpan * nat) : bool :=
  (start e.1 <? end_ span) && (start span <? end_ e.1).

(** What the queries use of a tree of height [K]: the spans are sorted by start
    and every node bounds the ends under it. *)
Record tree_ok (ix : OverlapIndex) (K : nat) : Prop := {
  ok_leaves : leaves ix = 2 ^ K;
  ok_fits : length (spans ix) <= 2 ^ K;
  ok_sorted : forall i j x y, i <= j -> spans ix !! i = Some x -> spans ix !! j = Some y ->
    start x.1 <= start y.1;
  ok_bound : forall k node first, node * 2 ^ k = 2 ^ K + first -> first + 2 ^ k <= 2 ^ K ->
    forall x, nth node (max_end ix) 0 <= x <->
      forall i e, first <= i < first + 2 ^ k -> spans ix !! i = Some e -> end_ e.1 <= x
}.

Definition uniform_ok (ix : OverlapIndex) (K : nat) (rule_of : nat -> Z) : Prop :=
  forall k node first, node * 2 ^ k = 2 ^ K + first -> first + 2 ^ k <= 2 ^ K ->
    (nth node (uniform_rule ix) 0%Z <> USIZE_MAX ->
     forall i e, first <= i < first + 2 ^ k -> spans ix !! i = Some e ->
       rule_of e.2 = nth node (uniform_rule ix) 0%Z) /\
    (k = 0 -> forall e, spans ix !! first = Some e -> nth node (uniform_rule ix) 0%Z = rule_of e.2).

Lemma lookup_slice_inv {A} (l : list A) a b i x :
  slice l a b !! i = Some x -> l !! (a + i) = Some x /\ a + i < b.
Proof.
  unfold slice. rewrite lookup_take, lookup_drop. case_decide; [|done]. intros ->. split; [done|lia].
Qed.

Lemma in_slice {A} (l : list A) a b x :
  In x (slice l a b) -> exists i, a <= i < b /\ l !! i = Some x.
Proof.
  intros H. apply list_elem_of_In, list_elem_of_lookup in H as [i H].
  apply lookup_slice_inv in H as [H1 H2]. exists (a + i). split; [lia|done].
Qed.

Lemma slice_one {A} (l : list A) i x : l !! i = Some x -> slice l i (i + 1) = [x].
Proof.
  intros H. unfold slice. replace (i + 1 - i) with 1 by lia. by rewrite (drop_S _ _ _ H).
Qed.

Section query.
Context (ix : OverlapIndex) (K : nat) (Hok : tree_ok ix K) (span : OffsetSpan).

Lemma out_of_reach_none k node first :
  node * 2 ^ k = 2 ^ K + first -> first + 2 ^ k <= 2 ^ K ->
  out_of_reach ix span node first = true ->
  forall e, In e (slice (spans ix) first (first + 2 ^ k)) -> overlaps span e = false.
Proof.
  intros Hn Hle Ho e He. apply in_slice in He as (i & Hi & He). unfold overlaps.
  apply andb_false_iff. apply orb_true_iff in Ho as [Ho|Ho].
  - right. apply Nat.leb_le in Ho. apply Nat.ltb_ge.
    by apply (proj1 (ok_bound _ _ Hok k node first Hn Hle _) Ho i).
  - left. apply Nat.ltb_ge. destruct (spans ix !! first) as [[s0 j]|] eqn:E.
    + tobool. pose proof (ok_sorted _ _ Hok first i _ _ ltac:(lia) E He). simpl in *. lia.
    + apply lookup_ge_None in E. apply lookup_lt_Some in He. lia.
Qed.

Lemma leaf_overlaps node first :
  node = 2 ^ K + first -> first + 1 <= 2 ^ K -> out_of_reach ix span node first = false ->
  exists s i, spans ix !! first = Some (s, i) /\ overlaps span (s, i) = true.
Proof.
  intros Hn Hle Ho. apply orb_false_iff in Ho as [H1 H2].
  destruct (spans ix !! first) as [[s i]|] eqn:E; [|done].
  exists s, i. split; [done|]. tobool. unfold overlaps. simpl.
  rewrite (proj2 (Nat.ltb_lt _ _)) by lia. simpl. apply Nat.ltb_lt.
  apply Nat.nle_gt. intros Hle'. apply Nat.lt_nge in H1. apply H1.
  apply (proj2 (ok_bound _ _ Hok 0 node first ltac:(simpl; lia) ltac:(simpl; lia) _)).
  intros j e Hj He. simpl in Hj. replace j with first in He by lia. by simplify_eq.
Qed.

Lemma visit_exact k : forall fuel node first found,
  k < fuel -> node * 2 ^ k = 2 ^ K + first -> first + 2 ^ k <= 2 ^ K ->
  visit ix span fuel node first (first + 2 ^ k) found =
  found ++ map snd (List.filter (overlaps span) (slice (spans ix) first (first + 2 ^ k))).
Proof.
  induction k as [|k IH]; intros fuel node first found Hf Hn Hle;
    (destruct fuel as [|fuel]; [lia|]); cbn [visit];
    destruct (out_of_reach ix span node first) eqn:Ho;
    try (rewrite filter_all_false by (by apply (out_of_reach_none _ node)); simpl; by rewrite app_nil_r).
  - replace (first + 2 ^ 0 - first) with 1 by (simpl; lia). simpl Nat.eqb. cbv iota.
    destruct (leaf_overlaps node first) as (s & i & E & Hov); [simpl in *; lia|simpl in *; lia|done|].
    rewrite E. change (2 ^ 0) with 1. rewrite (slice_one _ _ _ E). simpl. by rewrite Hov.
  - assert (0 < 2 ^ k) by (apply Nat.neq_0_lt_0, Nat.pow_nonzero; lia).
    rewrite Nat.pow_succ_r' in *. set (w := 2 ^ k) in *.
    replace (first + 2 * w - first) with (w * 2) by lia.
    rewrite (proj2 (Nat.eqb_neq (w * 2) 1)) by lia. rewrite Nat.div_mul by lia.
    rewrite (IH fuel (node * 2) first) by lia.
    replace (first + 2 * w) with (first + w + w) by lia.
    rewrite (IH fuel (node * 2 + 1) (first + w)) by lia.
    rewrite <- app_assoc, <- map_app, <- List.filter_app, slice_app by lia. done.
Qed.

Context (rule_of : nat -> Z) (Hu : uniform_ok ix K rule_of).
Context (rule : Z) (Hrule : rule <> USIZE_MAX) (control : ScanControl) (predicate : nat -> bool).

Definition hit (e : OffsetSpan * nat) : bool :=
  overlaps span e && negb (Z.eqb (rule_of e.2) rule) && predicate e.2.

Lemma refines_or_else (a b : Ctl bool) x y :
  refines control a x -> refines control b y -> refines control (or_else a b) (x || y).
Proof.
  intros Ha Hb. unfold or_else. eapply refines_bind; [exact Ha|].
  destruct x; [apply refines_ret|exact Hb].
Qed.

Lemma existsb_all_false {A} (p : A -> bool) l : (forall x, In x l -> p x = false) -> existsb p l = false.
Proof.
  intros H. apply not_true_iff_false. intros Hx. apply existsb_exists in Hx as (x & Hi & Hp).
  by rewrite H in Hp.
Qed.

Lemma visit_excluding_exact k : forall fuel node first,
  k < fuel -> node * 2 ^ k = 2 ^ K + first -> first + 2 ^ k <= 2 ^ K ->
  refines control (visit_excluding ix span rule control predicate fuel node first (first + 2 ^ k))
    (existsb hit (slice (spans ix) first (first + 2 ^ k))).
Proof.
  induction k as [|k IH]; intros fuel node first Hf Hn Hle;
    (destruct fuel as [|fuel]; [lia|]); cbn [visit_excluding];
    (eapply refines_bind; [apply refines_check|]);
    destruct (out_of_reach ix span node first) eqn:Ho; simpl orb;
    try (rewrite existsb_all_false; [apply refines_ret|];
         intros e He; unfold hit; by rewrite (out_of_reach_none _ node first Hn Hle Ho)).
  all: destruct (Hu _ node first Hn Hle) as [Hu1 Hu2];
    destruct (Z.eqb (nth node (uniform_rule ix) 0%Z) rule) eqn:Er; cbv iota.
  1, 3: rewrite existsb_all_false; [apply refines_ret|]; intros e He; unfold hit; tobool;
    apply in_slice in He as (i & Hi & He);
    rewrite (Hu1 ltac:(congruence) i e Hi He), Er, Z.eqb_refl; simpl; by rewrite andb_false_r.
  - replace (first + 2 ^ 0 - first) with 1 by (simpl; lia). simpl Nat.eqb. cbv iota.
    destruct (leaf_overlaps node first) as (s & i & E & Hov); [simpl in *; lia|simpl in *; lia|done|].
    change (2 ^ 0) with 1. rewrite E, (slice_one _ _ _ E). simpl. unfold hit. simpl. rewrite Hov.
    specialize (Hu2 eq_refl _ E). simpl in Hu2. rewrite <- Hu2, Er. simpl.
    rewrite orb_false_r. apply refines_ret.
  - assert (0 < 2 ^ k) by (apply Nat.neq_0_lt_0, Nat.pow_nonzero; lia).
    rewrite Nat.pow_succ_r' in *. set (w := 2 ^ k) in *.
    replace (first + 2 * w - first) with (w * 2) by lia.
    rewrite (proj2 (Nat.eqb_neq (w * 2) 1)) by lia. rewrite Nat.div_mul by lia.
    replace (first + 2 * w) with (first + w + w) by lia.
    rewrite <- (slice_app _ first (first + w)) by lia. rewrite existsb_app.
    apply refines_or_else; [apply IH; lia|]. apply IH; lia.
Qed.
End query.

(** ** The trees the code builds *)

Lemma key_sorted_start key (l : list (OffsetSpan * nat)) :
  (forall e, (key e).1.1 = start e.1) ->
  forall i j x y, i <= j -> merge_sort (by_key key) l !! i = Some x ->
  merge_sort (by_key key) l !! j = Some y -> start x.1 <= start y.1.
Proof.
  intros Hk i j x y Hij Hx Hy.
  assert (Htot : Total (by_key key)).
  { intros a b. unfold by_key, key_leb. destruct (key a) as [[a1 a2] a3], (key b) as [[b1 b2] b3].
    rewrite !orb_true_iff, !andb_true_iff, !orb_true_iff, !andb_true_iff,
      !Nat.ltb_lt, !Nat.eqb_eq, !Z.ltb_lt, !Z.eqb_eq, !Nat.leb_le. lia. }
  assert (Htr : Transitive (by_key key)).
  { intros a b c. unfold by_key, key_leb.
    destruct (key a) as [[a1 a2] a3], (key b) as [[b1 b2] b3], (key c) as [[c1 c2] c3].
    rewrite !orb_true_iff, !andb_true_iff, !orb_true_iff, !andb_true_iff,
      !Nat.ltb_lt, !Nat.eqb_eq, !Z.ltb_lt, !Z.eqb_eq, !Nat.leb_le. lia. }
  pose proof (StronglySorted_merge_sort (by_key key) l) as Hs.
  destruct (decide (i = j)) as [->|Hne]; [by simplify_eq|].
  assert (by_key key x y) as Hb.
  { clear Htot Htr Hk. revert i j Hij Hne Hx Hy. induction Hs as [|z l' Hs IH Hz]; intros i j Hij Hne Hx Hy; [done|].
    destruct i as [|i], j as [|j]; simplify_eq/=; try lia.
    - rewrite Forall_lookup in Hz. by eapply Hz.
    - by apply (IH i j); try lia. }
  unfold by_key, key_leb in Hb. rewrite <- !Hk.
  destruct (key x) as [[a1 a2] a3], (key y) as [[b1 b2] b3]. simpl.
  rewrite !orb_true_iff, !andb_true_iff, Nat.ltb_lt, Nat.eqb_eq in Hb. lia.
Qed.

Lemma next_power_fits n : n <= next_power_of_two (Nat.max n 1).
Proof.
  unfold next_power_of_two. destruct (decide (n <= 1)).
  - replace (Nat.max n 1) with 1 by lia. simpl. lia.
  - rewrite Nat.max_l by lia. apply Nat.log2_up_spec. lia.
Qed.

Definition height (sp : list (OffsetSpan * nat)) : nat := Nat.log2_up (Nat.max (length sp) 1).

(** The values at the leaves before the internal nodes are filled in. *)
Lemma leaf_array {A} (d : A) K (values : list A) :
  length values <= 2 ^ K ->
  let a := set_leaves (2 ^ K) values (replicate (2 ^ K * 2) d) in
  length a = 2 ^ K * 2 /\ (forall i, i < 2 ^ K -> nth i a d = d) /\
  (forall i, nth (2 ^ K + i) a d = nth i values d).
Proof.
  intros Hl a. destruct (set_leaves_spec d values (2 ^ K) (replicate (2 ^ K * 2) d)) as [H1 H2].
  { rewrite length_replicate. lia. }
  assert (forall i, nth i (replicate (2 ^ K * 2) d) d = d) as Hr.
  { intros i. rewrite nth_lookup. destruct (replicate _ d !! i) eqn:E; [|done].
    by apply lookup_replicate in E as [-> _]. }
  split; [by rewrite <- (length_replicate (2 ^ K * 2) d)|]. split; intros i.
  - intros Hi. subst a. rewrite H2, (proj2 (Nat.leb_gt (2 ^ K) i)) by lia. apply Hr.
  - subst a. rewrite H2, (proj2 (Nat.leb_le (2 ^ K) _)) by lia. simpl.
    destruct (_ <? _) eqn:E; tobool; [by replace (2 ^ K + i - 2 ^ K) with i by lia|].
    rewrite Hr, nth_overflow by lia. done.
Qed.

Lemma from_sorted_spans_ok sp :
  (forall i j x y, i <= j -> sp !! i = Some x -> sp !! j = Some y -> start x.1 <= start y.1) ->
  tree_ok (from_sorted_spans sp) (height sp).
Proof.
  intros Hs. split; [done|apply next_power_fits|done|].
  intros k node first Hn Hle x. unfold from_sorted_spans; simpl.
  change (next_power_of_two (Nat.max (length sp) 1)) with (2 ^ height sp).
  set (K := height sp) in *.
  destruct (leaf_array 0 K (map (fun e => end_ e.1) sp)) as (Ha & _ & Hleaf).
  { rewrite length_map. apply next_power_fits. }
  set (a := set_leaves _ _ _) in *.
  assert (forall i, nth i (map (fun e : OffsetSpan * nat => end_ e.1) sp) 0 <= x <->
    forall e, sp !! i = Some e -> end_ e.1 <= x) as Hi.
  { intros i. rewrite nth_lookup, list_lookup_fmap. destruct (sp !! i) as [e|]; simpl.
    - split; [intros H e' ?; by simplify_eq|intros H; by apply H].
    - split; [done|lia]. }
  split.
  - intros Hx i e Hr He.
    apply (Hi i); [|done]. rewrite <- Hleaf.
    refine (heap_range 0 (fun _ l r => Nat.max l r) K a (fun v => v <= x) Ha _ k node first Hn Hle Hx i Hr).
    intros; lia.
  - intros H. apply (max_node_bound K a x Ha k node first Hn Hle).
    intros i Hr. rewrite Hleaf. apply Hi. intros e. by apply H.
Qed.

Lemma with_rules_ok entries rules :
  let sp := merge_sort (by_key (fun e => (start e.1, nth e.2 rules 0%Z, e.2))) entries in
  let rule_of := fun i => nth i rules 0%Z in
  spans (with_rules entries rules) = sp /\ leaves (with_rules entries rules) = 2 ^ height sp /\
  tree_ok (with_rules entries rules) (height sp) /\
  uniform_ok (with_rules entries rules) (height sp) rule_of.
Proof.
  intros sp rule_of. split; [done|]. split; [done|].
  assert (Hok : tree_ok (from_sorted_spans sp) (height sp)).
  { apply from_sorted_spans_ok. apply key_sorted_start. done. }
  split; [destruct Hok; by split|].
  intros k node first Hn Hle. unfold with_rules. fold sp. simpl.
  change (next_power_of_two (Nat.max (length sp) 1)) with (2 ^ height sp).
  set (K := height sp) in *.
  destruct (leaf_array USIZE_MAX K (map (fun e => nth e.2 rules 0%Z) sp)) as (Ha & Hint & Hleaf).
  { rewrite length_map. apply next_power_fits. }
  set (a := set_leaves _ _ _) in *.
  assert (0 < 2 ^ K) by (apply Nat.neq_0_lt_0, Nat.pow_nonzero; lia).
  set (f := fun cur l r : Z => if Z.eqb l r then l else cur).
  destruct (fill_nodes_spec USIZE_MAX f (2 ^ K - 1) a) as (Hlen & Hout & _); [lia|].
  set (h := fill_nodes _ f _ a) in *.
  assert (node < 2 ^ K * 2) as Hnode.
  { assert (0 < 2 ^ k) by (apply Nat.neq_0_lt_0, Nat.pow_nonzero; lia). nia. }
  assert (nth node h 0%Z = nth node h USIZE_MAX) as -> by (apply nth_indep; lia).
  assert (forall i e, sp !! i = Some e -> nth (2 ^ K + i) a USIZE_MAX = rule_of e.2) as Hrule.
  { intros i e He. by rewrite Hleaf, nth_lookup, list_lookup_fmap, He. }
  split.
  - intros Hne i e Hr He. rewrite <- (Hrule i e He).
    refine (heap_range USIZE_MAX f K a (fun v => v = nth node h USIZE_MAX) Ha _ k node first Hn Hle eq_refl i Hr).
    intros cur l r (j & Hj & Hcur). rewrite Hint in Hcur by lia. subst cur. unfold f.
    destruct (Z.eqb l r) eqn:E; [tobool; subst; auto|]. congruence.
  - intros -> e He. simpl in Hn. replace node with (2 ^ K + first) by lia.
    rewrite Hout by lia. by apply Hrule.
Qed.

Lemma overlapping_exact_sorted ix K span :
  tree_ok ix K -> overlapping ix span = map snd (List.filter (overlaps span) (spans ix)).
Proof.
  intros Hok. unfold overlapping. rewrite (ok_leaves _ _ Hok), Nat.log2_pow2 by lia.
  rewrite (visit_exact ix K Hok span K (S K) 1 0) by lia. simpl.
  unfold slice. rewrite drop_0, take_ge; [done|]. rewrite Nat.sub_0_r. apply (ok_fits _ _ Hok).
Qed.

Lemma any_overlapping_exact ix K span rule_of rule control predicate :
  tree_ok ix K -> uniform_ok ix K rule_of -> rule <> USIZE_MAX ->
  refines control (any_overlapping_excluding ix span rule control predicate)
    (existsb (hit span rule_of rule predicate) (spans ix)).
Proof.
  intros Hok Hu Hr. unfold any_overlapping_excluding. rewrite (ok_leaves _ _ Hok), Nat.log2_pow2 by lia.
  pose proof (visit_excluding_exact ix K Hok span rule_of Hu rule Hr control predicate K (S K) 1 0
    ltac:(lia) ltac:(lia) ltac:(lia)) as H.
  rewrite Nat.add_0_l in H. unfold slice in H. rewrite drop_0, take_ge in H; [done|].
  rewrite Nat.sub_0_r. apply (ok_fits _ _ Hok).
Qed.

(** ** [credential_uri_keep] is the all-pairs elimination *)

Definition covers (e other : Entry) : bool :=
  eligible (e_rule other) && overlaps (e_span e) (e_span other, 0) &&
  negb (bytes_eqb (id (e_rule other)) (id (e_rule e))) &&
  contains_sub (e_secret e) (e_secret other).

Definition uri_kept (entries : list Entry) (e : Entry) : bool :=
  negb (eligible (e_rule e) && is_credential_uri (validation (e_rule e)) &&
        negb (Nat.eqb (length (e_secret e)) 0) && existsb (covers e) entries).

Fixpoint numbering (m : gmap bytes Z) (entries : list Entry) : gmap bytes Z * list Z :=
  match entries with
  | [] => (m, [])
  | e :: rest =>
    let '(n, m) := match m !! id (e_rule e) with
      | Some n => (n, m)
      | None => (Z.of_nat (size m), <[id (e_rule e) := Z.of_nat (size m)]> m)
      end in
    let '(m, ns) := numbering m rest in (m, n :: ns)
  end.

Lemma number_rules_refines control entries : forall m,
  refines control (number_rules control m entries) (numbering m entries).2.
Proof.
  induction entries as [|e rest IH]; intros m; simpl; [apply refines_ret|].
  eapply refines_bind; [apply refines_check|].
  destruct (m !! id (e_rule e)) as [n|].
  - specialize (IH m). destruct (numbering m rest). ctl_step. apply refines_ret.
  - set (m' := <[_ := _]> m). specialize (IH m'). destruct (numbering m' rest). ctl_step. apply refines_ret.
Qed.

Definition numbered (m : gmap bytes Z) : Prop :=
  (forall a n, m !! a = Some n -> (0 <= n < Z.of_nat (size m))%Z) /\
  (forall a b n, m !! a = Some n -> m !! b = Some n -> a = b).

Lemma numbering_spec entries : forall m, numbered m ->
  let '(M, ns) := numbering m entries in
  numbered M /\ m ⊆ M /\ size M <= size m + length entries /\
  Forall2 (fun n e => M !! id (e_rule e) = Some n) ns entries.
Proof.
  induction entries as [|e rest IH]; intros m Hm; simpl.
  { split_and!; try done; lia. }
  destruct (m !! id (e_rule e)) as [n|] eqn:E.
  - specialize (IH m Hm). destruct (numbering m rest) as [M ns].
    destruct IH as (H1 & H2 & H3 & H4). split_and!; try done; [lia|].
    constructor; [|done]. eapply lookup_weaken; eauto.
  - set (m' := <[id (e_rule e) := Z.of_nat (size m)]> m).
    assert (size m' = S (size m)) as Hsz by (apply map_size_insert_None; done).
    assert (numbered m') as Hm'.
    { destruct Hm as [Hr Hi]. split.
      - intros a n Ha. rewrite Hsz. apply lookup_insert_Some in Ha as [[_ <-]|[_ Ha]]; [lia|].
        specialize (Hr a n Ha). lia.
      - intros a b n Ha Hb.
        apply lookup_insert_Some in Ha as [[<- <-]|[Hna Ha]], Hb as [[<- Hb]|[Hnb Hb]]; try done.
        + specialize (Hr b _ Hb). lia.
        + specialize (Hr a _ Ha). lia.
        + by eapply Hi. }
    specialize (IH m' Hm'). destruct (numbering m' rest) as [M ns].
    destruct IH as (H1 & H2 & H3 & H4). split_and!; try done.
    + etrans; [|exact H2]. by apply insert_subseteq.
    + lia.
    + constructor; [|done]. eapply lookup_weaken; [|exact H2]. apply lookup_insert_eq.
Qed.

Lemma existsb_perm {A} (p : A -> bool) l1 l2 : l1 ≡ₚ l2 -> existsb p l1 = existsb p l2.
Proof.
  induction 1 as [|x l1 l2 H IH|x y l|l1 l2 l3 H1 IH1 H2 IH2]; simpl; try done.
  - by rewrite IH.
  - by rewrite !orb_assoc, (orb_comm (p y)).
  - by rewrite IH1.
Qed.

Lemma eligible_spans_in entries s i :
  In (s, i) (eligible_spans entries) <->
  exists e, entries !! i = Some e /\ eligible (e_rule e) = true /\ s = e_span e.
Proof.
  unfold eligible_spans. rewrite in_map_iff. split.
  - intros ([j e] & E & H). apply filter_In in H as [Hin Hel]. simplify_eq/=.
    apply list_elem_of_In, elem_of_lookup_imap in Hin as (j' & e' & E & Hl). simplify_eq/=. eauto.
  - intros (e & He & Hel & ->). exists (i, e). split; [done|]. apply filter_In. split; [|done].
    apply list_elem_of_In, elem_of_lookup_imap. eauto.
Qed.

(** ** Properties *)

(** A query of the interval tree is a filter: over any spans, the tree built
    by [new] answers the indexes of exactly the spans that intersect the query
    (touching edges excluded), as a permutation of the input filtered. *)
Theorem overlapping_filter entries span :
  overlapping (overlap_new entries) span ≡ₚ map snd (List.filter (overlaps span) entries).
Proof.
  unfold overlap_new. set (sp := merge_sort _ entries).
  rewrite (overlapping_exact_sorted _ (height sp)).
  2:{ apply from_sorted_spans_ok. apply key_sorted_start. done. }
  apply Permutation_map. simpl.
  assert (sp ≡ₚ entries) as Hp by apply merge_sort_Permutation.
  clearbody sp. induction Hp as [|x l1 l2 H IH|x y l|l1 l2 l3 H1 IH1 H2 IH2]; simpl; [done| | |by etrans].
  - destruct (overlaps span x); [by constructor|done].
  - destruct (overlaps span x), (overlaps span y); try done. constructor.
Qed.

Lemma uri_hit_exact entries rules M index e :
  entries !! index = Some e -> numbered M ->
  Forall2 (fun n e => M !! id (e_rule e) = Some n) rules entries ->
  existsb (hit (e_span e) (fun i => nth i rules 0%Z) (nth index rules 0%Z)
      (fun candidate => match entries !! candidate with
         | Some c => contains_sub (e_secret e) (e_secret c) | None => false end))
    (eligible_spans entries) =
  existsb (covers e) entries.
Proof.
  intros He [_ Hinj] Hf. apply eq_true_iff_eq. rewrite !existsb_exists.
  assert (Hnum : forall i x, entries !! i = Some x -> M !! id (e_rule x) = Some (nth i rules 0%Z)).
  { intros i x Hx. destruct (Forall2_lookup_r _ _ _ _ _ Hf Hx) as (n & Hn & HM).
    by rewrite nth_lookup, Hn. }
  assert (Hid : forall i x, entries !! i = Some x ->
    Z.eqb (nth i rules 0%Z) (nth index rules 0%Z) = bytes_eqb (id (e_rule x)) (id (e_rule e))).
  { intros i x Hx. pose proof (Hnum i x Hx) as H1. pose proof (Hnum index e He) as H2.
    unfold bytes_eqb. case_bool_decide as Hb.
    - rewrite Hb in H1. rewrite H1 in H2. injection H2 as ->. apply Z.eqb_refl.
    - apply Z.eqb_neq. intros Hn. rewrite Hn in H1. apply Hb. by eapply Hinj. }
  split.
  - intros ([s i] & Hin & Hh). apply eligible_spans_in in Hin as (x & Hx & Hel & ->).
    exists x. split; [apply list_elem_of_In; by eapply list_elem_of_lookup_2|].
    unfold hit in Hh. simpl in Hh. rewrite Hx in Hh. rewrite (Hid i x Hx) in Hh.
    unfold covers. rewrite Hel. exact Hh.
  - intros (x & Hin & Hc). apply list_elem_of_In, list_elem_of_lookup in Hin as [i Hx].
    unfold covers in Hc. apply andb_prop in Hc as [Hc Hsub]. apply andb_prop in Hc as [Hc Hne].
    apply andb_prop in Hc as [Hel Hov].
    exists (e_span x, i). split; [apply eligible_spans_in; eauto|].
    unfold hit. simpl. rewrite Hx, (Hid i x Hx), Hne, Hsub. by rewrite andb_true_r, andb_true_r.
Qed.

Lemma uri_loop_refines control entries rules M todo : forall index,
  numbered M -> (Z.of_nat (size M) <= USIZE_MAX)%Z ->
  Forall2 (fun n e => M !! id (e_rule e) = Some n) rules entries ->
  (forall i e, todo !! i = Some e -> entries !! (index + i) = Some e) ->
  refines control
    (uri_loop control (with_rules (eligible_spans entries) rules) rules entries index todo)
    (map (uri_kept entries) todo).
Proof.
  induction todo as [|e todo IH]; intros index Hm Hsz Hf Htodo; simpl; [apply refines_ret|].
  assert (He : entries !! index = Some e) by (rewrite <- (Nat.add_0_r index); by apply Htodo).
  eapply refines_bind; [apply refines_check|]. eapply refines_bind.
  2:{ eapply refines_bind; [apply (IH (S index)); try done|apply refines_ret].
      intros i x Hx. replace (S index + i) with (index + S i) by lia. by apply Htodo. }
  unfold uri_kept.
  destruct (eligible (e_rule e)), (is_credential_uri _), (Nat.eqb _ 0); simpl; try apply refines_ret.
  eapply refines_bind; [|apply refines_ret].
  rewrite <- (uri_hit_exact entries rules M index e He Hm Hf).
  pose proof (with_rules_ok (eligible_spans entries) rules) as Hw. cbv zeta in Hw.
  set (sp := merge_sort _ _) in *. destruct Hw as (Hsp & Hlv & Hok & Hu).
  assert (nth index rules 0%Z <> USIZE_MAX) as Hne.
  { destruct (Forall2_lookup_r _ _ _ _ _ Hf He) as (n & Hn & HM).
    rewrite nth_lookup, Hn. simpl. apply Hm in HM. lia. }
  rewrite <- (existsb_perm _ (spans (with_rules (eligible_spans entries) rules))).
  2:{ rewrite Hsp. apply merge_sort_Permutation. }
  by apply (any_overlapping_exact _ (height sp)).
Qed.

Lemma uri_keep_refines control entries :
  (Z.of_nat (length entries) <= USIZE_MAX)%Z ->
  refines control (credential_uri_keep control entries) (map (uri_kept entries) entries).
Proof.
  intros Hlen. unfold credential_uri_keep.
  destruct (existsb _ entries) eqn:Ex; simpl.
  - eapply refines_bind; [apply number_rules_refines|].
    pose proof (numbering_spec entries ∅) as H.
    destruct (numbering ∅ entries) as [M ns]. simpl.
    destruct H as (H1 & _ & H3 & H4).
    { split; intros a; [intros n|intros b n]; by rewrite lookup_empty. }
    apply (uri_loop_refines control entries ns M entries 0); [done| |done|done].
    rewrite map_size_empty in H3. lia.
  - assert (map (uri_kept entries) entries = replicate (length entries) true) as ->; [|apply refines_ret].
    assert (forall e, In e entries -> uri_kept entries e = true) as Hk.
    { intros e He. unfold uri_kept.
      assert (is_credential_uri (validation (e_rule e)) = false) as ->; [|by rewrite andb_false_r].
      apply not_true_iff_false. intros Hc. apply not_true_iff_false in Ex. apply Ex.
      apply existsb_exists. eauto. }
    clear Ex Hlen. remember (uri_kept entries) as f eqn:Ef. clear Ef.
    induction entries as [|e es IH]; simpl; [done|]. rewrite Hk by (by left). f_equal. apply IH.
    intros x Hx. apply Hk. by right.
Qed.

(** C20. The credential-URI elimination is the all-pairs one: an entry is dropped
    exactly when it is a visible Betterleaks credential-URI match with a
    non-empty secret and some visible Betterleaks match of another rule
    intersects its span and contains its secret; a limited control can only
    replace the answer by an abort. *)
Theorem credential_uri_keep_exact control entries :
  (Z.of_nat (length entries) <= USIZE_MAX)%Z ->
  refines control (credential_uri_keep control entries) (map (uri_kept entries) entries).
Proof. apply uri_keep_refines. Qed.

Definition uri_rule (name : bytes) (v : option Validation) : Rule :=
  {| id := name; visible := true; specificity := 0; validation := v; depends_on_rule := [];
     runtime_minimum_confidence := Medium; runtime_dependency_helper := false |}.
Definition uri_example : list Entry :=
  [ (uri_rule (bs "betterleaks.uri") (Some CredentialUri), {| start := 0; end_ := 20 |}, bs "pw");
    (uri_rule (bs "betterleaks.postgres") None, {| start := 5; end_ := 12 |}, bs "x-pw-y");
    (uri_rule (bs "betterleaks.uri") (Some CredentialUri), {| start := 12; end_ := 16 |}, bs "other") ].

Lemma credential_uri_keep_exact_witness :
  expect [] (credential_uri_keep control_default uri_example) (fun _ => {| is_cancelled := false; now := 0 |})
  = [false; true; true].
Proof.
  rewrite (refines_expect [] (map (uri_kept uri_example) uri_example)).
  - vm_compute. reflexivity.
  - apply (credential_uri_keep_exact control_default uri_example). vm_compute. discriminate.
Defined.

Lemma rmi_sorted_new entries : forall ix,
  (forall r l, positions ix !! r = Some l -> StronglySorted pair_lt l) ->
  let ix' := fold_left rmi_insert entries ix in
  (forall r l, positions ix' !! r = Some l -> StronglySorted pair_lt l) /\
  (forall r x, In x (default [] (positions ix' !! r)) <->
     In x (default [] (positions ix !! r)) \/ In (r, x.1, x.2) entries).
Proof.
  induction entries as [|[[rule p] f] entries IH]; intros ix Hix; simpl.
  - split; [done|]. intros r x. tauto.
  - assert (Hd : StronglySorted pair_lt (default [] (positions ix !! rule))).
    { destruct (positions ix !! rule) eqn:E; simpl; [by eapply Hix|constructor]. }
    destruct (bt_insert_spec (p, f) _ Hd) as [Hs Hin].
    destruct (IH (rmi_insert ix (rule, p, f))) as [H1 H2].
    + intros r l Hr. simpl in Hr. apply lookup_insert_Some in Hr as [[_ <-]|[_ Hr]]; [done|by eapply Hix].
    + split; [done|]. intros r x. rewrite H2. simpl. destruct (decide (r = rule)) as [->|Hne].
      * rewrite lookup_insert_eq. simpl. rewrite Hin. destruct x as [x1 x2]; simpl.
        split; [intros [[?|?]|?]|intros [?|[?|?]]]; simplify_eq; tauto.
      * rewrite lookup_insert_ne by done. split; [tauto|].
        intros [?|[?|?]]; [tauto| |tauto]. simplify_eq.
Qed.

Definition remove_all (ix : RuleMatchIndex) (removed : list (bytes * nat * nat)) : RuleMatchIndex :=
  fold_left (fun ix '(r, p, f) => rmi_remove ix r p f) removed ix.

Lemma rmi_sorted_remove removed : forall ix,
  (forall r l, positions ix !! r = Some l -> StronglySorted pair_lt l) ->
  let ix' := remove_all ix removed in
  (forall r l, positions ix' !! r = Some l -> StronglySorted pair_lt l) /\
  (forall r x, In x (default [] (positions ix' !! r)) <->
     In x (default [] (positions ix !! r)) /\ ~ In (r, x.1, x.2) removed).
Proof.
  induction removed as [|[[rule p] f] removed IH]; intros ix Hix; simpl.
  { split; [done|]. intros r x. tauto. }
  destruct (IH (rmi_remove ix rule p f)) as [H1 H2].
  { unfold rmi_remove. destruct (positions ix !! rule) as [ps|] eqn:E; [|done]. simpl.
    intros r l Hr. apply lookup_insert_Some in Hr as [[_ <-]|[_ Hr]]; [|by eapply Hix].
    apply bt_remove_spec. by eapply Hix. }
  split; [done|]. intros r x. unfold remove_all in *. rewrite H2. unfold rmi_remove.
  destruct (positions ix !! rule) as [ps|] eqn:E; simpl.
  - destruct (decide (r = rule)) as [->|Hne].
    + rewrite lookup_insert_eq, E. simpl.
      rewrite (proj2 (bt_remove_spec (p, f) ps (Hix _ _ E))). destruct x as [x1 x2]; simpl.
      split; [intros [[Hn Hi] Hr]|intros [Hi Hr]].
      * split; [done|]. intros [?|?]; [simplify_eq|done].
      * split; [|tauto]. split; [|done]. intros ?; simplify_eq. tauto.
    + rewrite lookup_insert_ne by done. split; [|tauto].
      intros [Hi Hr]. split; [done|]. intros [?|?]; [simplify_eq|done].
  - split; [|tauto]. intros [Hi Hr]. split; [done|].
    intros [?|?]; [|done]. simplify_eq. by rewrite E in Hi.
Qed.

(** The match index holds what was inserted and not removed: after any
    construction and removals, the candidates of a rule in a window are, in
    strictly ascending order and without a panic on an inverted window, exactly
    the positions of that rule inside the window. *)
Theorem rmi_candidates_exact entries removed rule s e :
  exists l, candidates (remove_all (rmi_new entries) removed) rule s e = Some l /\
    StronglySorted pair_lt l /\
    forall p f, In (p, f) l <->
      In (rule, p, f) entries /\ ~ In (rule, p, f) removed /\ s <= p < e.
Proof.
  destruct (rmi_sorted_new entries {| positions := ∅ |}) as [Hn1 Hn2].
  { intros r l. simpl. by rewrite lookup_empty. }
  destruct (rmi_sorted_remove removed (rmi_new entries) Hn1) as [H1 H2].
  unfold candidates. set (ix := remove_all _ _) in *.
  assert (Hin : forall x, In x (default [] (positions ix !! rule)) <->
    In (rule, x.1, x.2) entries /\ ~ In (rule, x.1, x.2) removed).
  { intros x. rewrite H2. unfold rmi_new. rewrite Hn2. simpl. rewrite lookup_empty. simpl. tauto. }
  destruct (positions ix !! rule) as [ps|] eqn:E; simpl in Hin.
  - unfold bt_range. destruct (pair_ltb _ _) eqn:El.
    { unfold pair_ltb in El. simpl in El. rewrite andb_false_r, orb_false_r in El. tobool. lia. }
    eexists. split; [done|]. specialize (H1 _ _ E). split.
    + clear -H1. induction H1 as [|x l Hs IH Hx]; simpl; [constructor|].
      destruct (_ && _); [|done]. constructor; [done|]. apply List.Forall_forall.
      intros y Hy. apply filter_In in Hy as [Hy _]. rewrite List.Forall_forall in Hx. by apply Hx.
    + intros p f. rewrite filter_In, Hin.
      assert (negb (pair_ltb (p, f) (s, 0)) && pair_ltb (p, f) (Nat.max e s, 0) =
        (s <=? p) && (p <? Nat.max e s)) as ->.
      { unfold pair_ltb. cbn [fst snd]. replace (f <? 0) with false by done.
        rewrite !andb_false_r, !orb_false_r. by rewrite <- Nat.leb_antisym. }
      rewrite andb_true_iff, Nat.leb_le, Nat.ltb_lt. cbn [fst snd].
      split; [intros [[? ?] ?]|intros (? & ? & ?)]; split_and!; try done; lia.
  - exists []. split; [done|]. split; [constructor|]. intros p f. simpl. split; [done|].
    intros (? & ? & _). by apply (Hin (p, f)).
Qed.
