(* ===== verification/Windows.v ===== *)
(** * Component windows: [kingfisher-scanner/src/postprocess.rs]

    The proximity syntax of multi-part credentials ([1L,+20C], ...), the test
    whether a component lies in the window of a primary match, and the byte range
    the scanner enumerates candidates from. The range is shown to lose no
    candidate the test accepts. Offsets, lines and columns are [usize] values
    with the saturating operations written out. *)

From Stdlib Require Import ZArith Lia Bool ZifyNat.
From stdpp Require Import base list numbers option.
From S2P Require Import Prelude Text.
Open Scope Z_scope.

Record Span := { s_start : Z; s_end : Z }.

Record ComponentWindow := {
  cols_before : Z; cols_after : Z; lines_before : Z; lines_after : Z;
  has_lines : bool; unbounded : bool
}.
Definition window_default : ComponentWindow :=
  {| cols_before := 0; cols_after := 0; lines_before := 0; lines_after := 0;
     has_lines := false; unbounded := false |}.

(** [value.split(',')] *)
Fixpoint split_on (sep : byte) (l : bytes) : list bytes :=
  match l with
  | [] => [[]]
  | b :: r =>
    if b ==? sep then [] :: split_on sep r
    else match split_on sep r with t :: rest => (b :: t) :: rest | [] => [[b]] end
  end.

(** One token of the window: a direction, an amount and a unit. *)
Definition window_token (w : ComponentWindow) (token : bytes) : option ComponentWindow :=
  let '(direction, amount_and_unit) :=
    match token with
    | b :: r => if (b ==? bc "+") || (b ==? bc "-") then (b, r) else (bc " ", token)
    | [] => (bc " ", token)
    end in
  let '(amount, is_lines) :=
    match last amount_and_unit with
    | Some b =>
      if (b ==? bc "L") || (b ==? bc "l") then (removelast amount_and_unit, true)
      else if (b ==? bc "C") || (b ==? bc "c") then (removelast amount_and_unit, false)
      else (amount_and_unit, false)
    | None => (amount_and_unit, false)
    end in
  match parse_usize amount with
  | None => None
  | Some amount =>
    let upd (b : bool) (x v : Z) := if b then Z.max x v else x in
    if is_lines then
      let amount := saturating_sub amount 1 in
      Some {| cols_before := cols_before w; cols_after := cols_after w;
              lines_before := upd (negb (direction ==? bc "+")) (lines_before w) amount;
              lines_after := upd (negb (direction ==? bc "-")) (lines_after w) amount;
              has_lines := true; unbounded := unbounded w |}
    else
      Some {| cols_before := upd (negb (direction ==? bc "+")) (cols_before w) amount;
              cols_after := upd (negb (direction ==? bc "-")) (cols_after w) amount;
              lines_before := lines_before w; lines_after := lines_after w;
              has_lines := has_lines w; unbounded := unbounded w |}
  end.

Fixpoint window_tokens (w : ComponentWindow) (tokens : list bytes) : option ComponentWindow :=
  match tokens with
  | [] => Some w
  | t :: rest =>
    match window_token w (trim t) with Some w => window_tokens w rest | None => None end
  end.

Definition parse_component_window (value : bytes) : option ComponentWindow :=
  let value := trim value in
  if bytes_eqb value [] || bytes_eqb value (bs "0") then
    Some {| cols_before := 0; cols_after := 0; lines_before := 0; lines_after := 0;
            has_lines := false; unbounded := true |}
  else window_tokens window_default (split_on (bc ",") value).

Section windows.
Variable byte_len : Z.
Variable line_starts : list Z.

(** [line_starts.partition_point(|start| *start <= offset).saturating_sub(1)] *)
Definition line (offset : Z) : Z :=
  saturating_sub (Z.of_nat (partition_point (fun s => s <=? offset) line_starts)) 1.
(** [line_starts.get(i).copied()] *)
Definition line_start (i : Z) : option Z :=
  if (0 <=? i) && (i <? Z.of_nat (length line_starts)) then line_starts !! Z.to_nat i else None.
Definition column (offset : Z) : Z :=
  saturating_sub offset (default 0 (line_start (line offset))).

Definition component_is_within_window (primary component : Span) (w : ComponentWindow) : bool :=
  if unbounded w then true
  else if negb (has_lines w) then
    (saturating_sub (s_start primary) (cols_before w) <=? s_start component) &&
    (s_start component <? Z.min (saturating_add (s_end primary) (cols_after w)) byte_len)
  else
    let primary_start_line := line (s_start primary) in
    let primary_end_line := line (s_end primary) in
    let component_line := line (s_start component) in
    if (component_line <? saturating_sub primary_start_line (lines_before w)) ||
       (saturating_add primary_end_line (lines_after w) <? component_line) then false
    else if (primary_start_line =? primary_end_line) &&
            ((0 <? cols_before w) || (0 <? cols_after w)) then
      let component_column := column (s_start component) in
      (saturating_sub (column (s_start primary)) (cols_before w) <=? component_column) &&
      (component_column <? saturating_add (column (s_end primary)) (cols_after w))
    else true.

Definition component_candidate_range_with_window (primary : Span) (w : ComponentWindow) : Z * Z :=
  if unbounded w then (0, USIZE_MAX)
  else if negb (has_lines w) then
    (saturating_sub (s_start primary) (cols_before w),
     Z.min (saturating_add (s_end primary) (cols_after w)) byte_len)
  else
    let primary_start_line := line (s_start primary) in
    let primary_end_line := line (s_end primary) in
    let first := saturating_sub primary_start_line (lines_before w) in
    let after := saturating_add (saturating_add primary_end_line (lines_after w)) 1 in
    let start := default byte_len (line_start first) in
    let e := default (saturating_add byte_len 1) (line_start after) in
    if (primary_start_line =? primary_end_line) &&
       ((0 <? cols_before w) || (0 <? cols_after w)) &&
       (Z.min after (Z.of_nat (length line_starts)) =? saturating_add first 1)
    then (Z.max start (saturating_sub (s_start primary) (cols_before w)),
          Z.min e (saturating_add (s_end primary) (cols_after w)))
    else (start, e).

Definition component_candidate_range (primary : Span) (within : option bytes) : Z * Z :=
  match parse_component_window (default [] within) with
  | None => (0, 0)
  | Some w => component_candidate_range_with_window primary w
  end.

Definition component_is_within (primary component : Span) (within : bytes) : bool :=
  match parse_component_window within with
  | None => false
  | Some w => component_is_within_window primary component w
  end.
End windows.

(** ** Lines *)

(** The line starts of an input of [byte_len] bytes. *)
Record starts_ok (byte_len : Z) (line_starts : list Z) : Prop := {
  so_head : line_starts !! 0%nat = Some 0;
  so_sorted : forall i j x y, (i < j)%nat -> line_starts !! i = Some x -> line_starts !! j = Some y -> x < y;
  so_len : forall x, In x line_starts -> x <= byte_len;
  so_max : byte_len < USIZE_MAX
}.

Section lines.
Context (byte_len : Z) (ls : list Z) (Hok : starts_ok byte_len ls).

Lemma starts_length : Z.of_nat (length ls) <= byte_len + 1.
Proof.
  assert (forall i x, ls !! i = Some x -> Z.of_nat i <= x) as H.
  { induction i as [|i IH]; intros x Hx.
    - rewrite (so_head _ _ Hok) in Hx. simplify_eq. lia.
    - destruct (lookup_lt_is_Some_2 ls i) as [y Hy]; [apply lookup_lt_Some in Hx; lia|].
      pose proof (so_sorted _ _ Hok i (S i) y x ltac:(lia) Hy Hx). specialize (IH y Hy). lia. }
  destruct (length ls) as [|n] eqn:E.
  - pose proof (so_head _ _ Hok) as Hh. apply lookup_lt_Some in Hh. lia.
  - destruct (lookup_lt_is_Some_2 ls n) as [x Hx]; [lia|]. specialize (H n x Hx).
    pose proof (so_len _ _ Hok x) as Hl. apply list_elem_of_lookup_2 in Hx.
    apply list_elem_of_In in Hx. specialize (Hl Hx). lia.
Qed.

(** The line of an offset: the last start that is not past it. *)
Lemma line_spec o :
  0 <= o -> exists n x, line ls o = Z.of_nat n /\ ls !! n = Some x /\ x <= o /\
    forall m y, ls !! m = Some y -> (y <= o <-> (m <= n)%nat).
Proof.
  intros Ho. unfold line.
  assert (0 < partition_point (fun s => (s <=? o)%Z) ls)%nat as Hp.
  { pose proof (so_head _ _ Hok) as Hh. destruct ls as [|h r]; [done|].
    simplify_eq/=. destruct (0 <=? o) eqn:E; tobool; lia. }
  pose proof (partition_point_le (fun s => s <=? o) ls) as Hpl.
  pose proof (partition_point_lt (fun s => s <=? o) ls) as Hpre.
  pose proof (partition_point_stop (fun s => s <=? o) ls) as Hpost.
  set (p := partition_point _ ls) in *. clearbody p.
  destruct (lookup_lt_is_Some_2 ls (p - 1)) as [x Hx]; [lia|].
  exists (p - 1)%nat, x. split; [unfold saturating_sub; lia|]. split; [done|].
  assert (forall m y, ls !! m = Some y -> (m < p)%nat -> y <= o) as Hlt.
  { intros m y Hy Hm. apply Z.leb_le. by apply (Hpre m y). }
  split; [apply (Hlt _ _ Hx); lia|]. intros m y Hy. split.
  - intros Hyo. destruct (decide (m < p)%nat); [lia|]. exfalso.
    destruct (lookup_lt_is_Some_2 ls p) as [z Hz]; [apply lookup_lt_Some in Hy; lia|].
    pose proof (Hpost z Hz) as Hst. simpl in Hst. tobool.
    destruct (decide (m = p)) as [->|]; [simplify_eq; lia|].
    pose proof (so_sorted _ _ Hok p m z y ltac:(lia) Hz Hy). lia.
  - intros Hm. apply (Hlt m y Hy). lia.
Qed.

Lemma line_start_some n x : ls !! n = Some x -> line_start ls (Z.of_nat n) = Some x.
Proof.
  intros H. unfold line_start. pose proof (lookup_lt_Some _ _ _ H).
  rewrite (proj2 (Z.leb_le _ _)), (proj2 (Z.ltb_lt _ _)) by lia. simpl. by rewrite Nat2Z.id.
Qed.

Lemma line_start_inv i x :
  line_start ls i = Some x -> exists n, i = Z.of_nat n /\ ls !! n = Some x.
Proof.
  unfold line_start. destruct (_ && _) eqn:E; [|done]. tobool. intros H1.
  exists (Z.to_nat i). split; [lia|done].
Qed.

Lemma line_le o : 0 <= o -> 0 <= line ls o < Z.of_nat (length ls).
Proof.
  intros Ho. destruct (line_spec o Ho) as (n & x & -> & Hx & _). apply lookup_lt_Some in Hx. lia.
Qed.

Lemma line_mono a b : 0 <= a <= b -> line ls a <= line ls b.
Proof.
  intros Hab. destruct (line_spec a) as (n & x & -> & Hx & Hxa & _); [lia|].
  destruct (line_spec b) as (m & y & -> & Hy & _ & H); [lia|].
  apply H in Hx; lia.
Qed.

(** Being on or after a line is being at or after its start. *)
Lemma line_ge_iff o n x :
  0 <= o -> ls !! n = Some x -> (Z.of_nat n <= line ls o <-> x <= o).
Proof.
  intros Ho Hx. destruct (line_spec o Ho) as (m & y & -> & _ & _ & H).
  rewrite (H n x Hx). lia.
Qed.
End lines.

(** The start of the line an offset lies on. *)
Lemma line_first byte_len ls (Hok : starts_ok byte_len ls) l o :
  0 <= o -> line ls o = l ->
  exists x, line_start ls l = Some x /\ 0 <= x <= o.
Proof.
  intros Ho Hl. destruct (line_spec _ _ Hok o Ho) as (n & x & E & Hx & Hxo & _).
  exists x. subst l. rewrite E. split; [by apply line_start_some|].
  destruct n as [|n]; [rewrite (so_head _ _ Hok) in Hx; simplify_eq; lia|].
  pose proof (so_sorted _ _ Hok 0%nat (S n) _ _ ltac:(lia) (so_head _ _ Hok) Hx). lia.
Qed.

(** Columns of one line as a byte range. *)
Lemma single_line_range byte_len s0 e0 ps pe co cb ca :
  0 <= s0 <= ps -> ps <= pe <= byte_len -> byte_len < USIZE_MAX -> s0 <= co <= byte_len ->
  (s0 <=? co) && (co <? e0) = true -> 0 <= cb -> 0 <= ca ->
  (saturating_sub (saturating_sub ps s0) cb <=? saturating_sub co s0) &&
  (saturating_sub co s0 <? saturating_add (saturating_sub pe s0) ca) = true ->
  (Z.max s0 (saturating_sub ps cb) <=? co) && (co <? Z.min e0 (saturating_add pe ca)) = true.
Proof.
  unfold saturating_sub, saturating_add.
  rewrite !andb_true_iff, !Z.leb_le, !Z.ltb_lt. lia.
Qed.

Definition in_range (r : Z * Z) (o : Z) : bool := (r.1 <=? o) && (o <? r.2).
Definition window_ok (w : ComponentWindow) : Prop :=
  0 <= cols_before w /\ 0 <= cols_after w /\ 0 <= lines_before w /\ 0 <= lines_after w.

(** The lines of a window as a byte range. *)
Lemma line_bound_start byte_len ls (Hok : starts_ok byte_len ls) first co :
  0 <= first < Z.of_nat (length ls) -> 0 <= co ->
  (first <= line ls co <-> default byte_len (line_start ls first) <= co).
Proof.
  intros Hf Hco. destruct (lookup_lt_is_Some_2 ls (Z.to_nat first)) as [x Hx]; [lia|].
  pose proof (line_start_some ls _ _ Hx) as Hy. rewrite Z2Nat.id in Hy by lia. rewrite Hy.
  rewrite <- (line_ge_iff _ _ Hok co _ _ ltac:(lia) Hx). simpl. lia.
Qed.

Lemma line_bound_end byte_len ls (Hok : starts_ok byte_len ls) last co :
  0 <= last <= USIZE_MAX -> 0 <= co <= byte_len ->
  (line ls co <= last <->
   co < default (saturating_add byte_len 1) (line_start ls (saturating_add last 1))).
Proof.
  intros Hl Hco. pose proof (so_max _ _ Hok). pose proof (starts_length _ _ Hok).
  pose proof (line_le _ _ Hok co ltac:(lia)).
  destruct (line_start ls (saturating_add last 1)) as [x|] eqn:E; simpl.
  - apply line_start_inv in E as (n & En & Hx).
    pose proof (lookup_lt_Some _ _ _ Hx) as Hn.
    assert (last + 1 = Z.of_nat n) by (unfold saturating_add in En; lia).
    pose proof (line_ge_iff _ _ Hok co _ _ ltac:(lia) Hx). lia.
  - split; intros _; [unfold saturating_add; lia|].
    unfold line_start in E. destruct (_ && _) eqn:Eb; [tobool; apply lookup_ge_None in E; lia|].
    assert (0 <= saturating_add last 1) by (unfold saturating_add; lia).
    apply andb_false_iff in Eb as [Eb|Eb]; tobool; unfold saturating_add in *; lia.
Qed.

Lemma line_bounds_exact byte_len ls (Hok : starts_ok byte_len ls) first last co :
  0 <= first < Z.of_nat (length ls) -> 0 <= last <= USIZE_MAX -> 0 <= co <= byte_len ->
  (default byte_len (line_start ls first) <=? co) &&
  (co <? default (saturating_add byte_len 1) (line_start ls (saturating_add last 1))) =
  negb ((line ls co <? first) || (last <? line ls co)).
Proof.
  intros Hf Hl Hco. rewrite negb_orb, <- !Z.leb_antisym. apply eq_true_iff_eq.
  rewrite !andb_true_iff, !Z.leb_le, Z.ltb_lt.
  rewrite (line_bound_start _ _ Hok) by lia. by rewrite (line_bound_end _ _ Hok) by lia.
Qed.

(** ** Properties *)

Lemma range_complete byte_len ls primary component w :
  starts_ok byte_len ls -> window_ok w ->
  0 <= s_start primary <= s_end primary -> s_end primary <= byte_len ->
  0 <= s_start component <= byte_len ->
  let r := component_candidate_range_with_window byte_len ls primary w in
  (component_is_within_window byte_len ls primary component w = true ->
   in_range r (s_start component) = true) /\
  (has_lines w = false \/ (cols_before w = 0 /\ cols_after w = 0) ->
   in_range r (s_start component) = component_is_within_window byte_len ls primary component w).
Proof.
  intros Hok (Hcb & Hca & Hlb & Hla) Hp Hpe Hc r.
  pose proof (so_max _ _ Hok) as Hmax. pose proof (starts_length _ _ Hok) as Hsl.
  subst r. unfold component_candidate_range_with_window, component_is_within_window, in_range.
  destruct (unbounded w).
  { simpl. split; intros _; apply andb_true_intro; rewrite Z.leb_le, Z.ltb_lt; lia. }
  destruct (has_lines w); simpl negb; cbv iota; [|by split].
  set (co := s_start component) in *.
  pose proof (line_le _ _ Hok (s_start primary) ltac:(lia)) as Hl1.
  pose proof (line_le _ _ Hok (s_end primary) ltac:(lia)) as Hl2.
  pose proof (line_mono _ _ Hok (s_start primary) (s_end primary) ltac:(lia)) as Hl12.
  pose proof (line_le _ _ Hok co ltac:(lia)) as Hlc.
  set (first := saturating_sub (line ls (s_start primary)) (lines_before w)).
  set (last := saturating_add (line ls (s_end primary)) (lines_after w)).
  assert (Hfirst : 0 <= first <= line ls (s_start primary)) by (unfold first, saturating_sub; lia).
  assert (Hlast : 0 <= last <= USIZE_MAX) by (unfold last, saturating_add; lia).
  pose proof (line_bounds_exact _ _ Hok first last co ltac:(lia) Hlast Hc) as Hin.
  destruct ((line ls co <? first) || _) eqn:Eout; simpl in Hin.
  { (* outside the lines *)
    split; [done|]. intros [?|[-> ->]]; [done|]. simpl. rewrite andb_false_r. simpl. done. }
  destruct ((line ls (s_start primary) =? line ls (s_end primary)) && _) eqn:Ecol; simpl andb.
  2:{ cbn [fst snd]. split; done. }
  split.
  2:{ intros [?|[E1 E2]]; [done|]. rewrite E1, E2 in Ecol. simpl in Ecol. by rewrite andb_false_r in Ecol. }
  destruct (Z.min _ _ =? saturating_add first 1) eqn:Eone; cbn [fst snd]; [|done].
  apply andb_prop in Ecol as [Esame _]. apply orb_false_iff in Eout as [Eo1 Eo2]. tobool.
  assert (Hone : line ls co = first /\ line ls (s_start primary) = first).
  { clearbody first. unfold last, saturating_add in *. lia. }
  destruct Hone as [Hone1 Hone2].
  unfold column. rewrite Hone1, <- Esame, Hone2.
  destruct (line_first _ _ Hok first (s_start primary)) as (s0 & Es0 & Hs0); [lia|lia|].
  destruct (line_first _ _ Hok first co) as (s1 & Es1 & Hs1); [lia|lia|].
  rewrite Es0 in *. cbn [default from_option id] in *. simplify_eq.
  intros Hw. apply single_line_range with (byte_len := byte_len); try done; try lia.
Qed.

(** No candidate is lost: for every input of fewer than [usize::MAX] bytes,
    every primary match and every window, a component the window test accepts
    starts in the enumerated range; when the window restricts columns or lines
    only, the range is exactly the window. *)
Theorem candidate_range_complete byte_len ls primary component w :
  starts_ok byte_len ls -> window_ok w ->
  0 <= s_start primary <= s_end primary -> s_end primary <= byte_len ->
  0 <= s_start component <= byte_len ->
  let r := component_candidate_range_with_window byte_len ls primary w in
  (component_is_within_window byte_len ls primary component w = true ->
   in_range r (s_start component) = true) /\
  (has_lines w = false \/ (cols_before w = 0 /\ cols_after w = 0) ->
   in_range r (s_start component) = component_is_within_window byte_len ls primary component w).
Proof. apply range_complete. Qed.

Definition starts_example : list Z := [0; 12; 13].

Lemma candidate_range_complete_witness :
  in_range (component_candidate_range_with_window 20 starts_example {| s_start := 13; s_end := 15 |}
    {| cols_before := 0; cols_after := 3; lines_before := 1; lines_after := 0; has_lines := true; unbounded := false |})
    12 = true.
Proof.
  refine (proj1 (candidate_range_complete 20 starts_example {| s_start := 13; s_end := 15 |}
    {| s_start := 12; s_end := 14 |}
    {| cols_before := 0; cols_after := 3; lines_before := 1; lines_after := 0; has_lines := true; unbounded := false |}
    _ _ _ _ _) _).
  - split; [done| | |done].
    + intros i j x y Hij Hx Hy.
      destruct i as [|[|[|i]]], j as [|[|[|j]]]; simplify_eq/=; lia.
    + intros x [<-|[<-|[<-|[]]]]; lia.
  - repeat split; simpl; lia.
  - simpl; lia.
  - simpl; lia.
  - simpl; lia.
  - vm_compute. reflexivity.
Defined.

(** ** Printing windows *)

Lemma split_on_last sep t : Forall (fun b => (b ==? sep) = false) t -> split_on sep t = [t].
Proof. induction 1 as [|b t Hb Ht IH]; simpl; [done|]. by rewrite Hb, IH. Qed.

Lemma split_on_app sep t r :
  Forall (fun b => (b ==? sep) = false) t -> split_on sep (t ++ sep :: r) = t :: split_on sep r.
Proof.
  induction 1 as [|b t Hb Ht IH]; simpl; [by rewrite Z.eqb_refl|]. by rewrite Hb, IH.
Qed.

Definition show_token (dir : byte) (n : Z) (unit : byte) : bytes := dir :: show_usize n ++ [unit].

(** The four amounts of a window in the syntax of [within]. *)
Definition show_window (w : ComponentWindow) : bytes :=
  show_token (bc "-") (cols_before w) (bc "C") ++ bc "," ::
  show_token (bc "+") (cols_after w) (bc "C") ++
  if has_lines w then
    bc "," :: show_token (bc "-") (lines_before w + 1) (bc "L") ++
    bc "," :: show_token (bc "+") (lines_after w + 1) (bc "L")
  else [].

Lemma show_token_no_comma d n u :
  (d ==? bc ",") = false -> (u ==? bc ",") = false ->
  Forall (fun b => (b ==? bc ",") = false) (show_token d n u).
Proof.
  intros Hd Hu. constructor; [done|]. apply Forall_app. split; [|by repeat constructor].
  eapply Forall_impl; [apply show_digits_digits|]. intros b Hb. apply Z.eqb_neq. intros ->.
  vm_compute in Hb. done.
Qed.

Lemma trim_show_token d n u : trim_edge d -> trim_edge u -> trim (show_token d n u) = show_token d n u.
Proof. intros Hd Hu. by apply trim_id. Qed.

(** The effect of a printed token. *)
Definition add_amount (w : ComponentWindow) (d : byte) (n : Z) (u : byte) : ComponentWindow :=
  if u ==? bc "L" then
    {| cols_before := cols_before w; cols_after := cols_after w;
       lines_before := if d ==? bc "-" then Z.max (lines_before w) (saturating_sub n 1) else lines_before w;
       lines_after := if d ==? bc "+" then Z.max (lines_after w) (saturating_sub n 1) else lines_after w;
       has_lines := true; unbounded := unbounded w |}
  else
    {| cols_before := if d ==? bc "-" then Z.max (cols_before w) n else cols_before w;
       cols_after := if d ==? bc "+" then Z.max (cols_after w) n else cols_after w;
       lines_before := lines_before w; lines_after := lines_after w;
       has_lines := has_lines w; unbounded := unbounded w |}.

Lemma window_tokens_show w d n u rest :
  0 <= n <= USIZE_MAX -> d = bc "+" \/ d = bc "-" -> u = bc "C" \/ u = bc "L" ->
  window_tokens w (show_token d n u :: rest) = window_tokens (add_amount w d n u) rest.
Proof.
  intros Hn Hd Hu. cbn [window_tokens]. rewrite trim_show_token.
  2, 3: destruct Hd as [->| ->], Hu as [->| ->]; split_and!; vm_compute; congruence.
  unfold show_token, window_token, add_amount.
  assert ((d ==? bc "+") || (d ==? bc "-") = true) as -> by (destruct Hd; by subst).
  rewrite last_snoc, removelast_last.
  change (bc "+") with 43 in *; change (bc "-") with 45 in *; change (bc "C") with 67 in *;
    change (bc "L") with 76 in *; change (bc "l") with 108; change (bc "c") with 99.
  destruct Hd as [->| ->], Hu as [->| ->];
    cbn -[parse_usize show_usize Z.max saturating_sub]; by rewrite parse_show_usize by done.
Qed.

Lemma show_window_trim w : trim (show_window w) = show_window w.
Proof.
  assert (exists m u, show_window w = bc "-" :: m ++ [u] /\ trim_edge u) as (m & u & -> & Hu).
  { unfold show_window, show_token. destruct (has_lines w).
    - eexists (show_usize (cols_before w) ++ bc "C" :: bc "," :: bc "+" :: show_usize (cols_after w) ++
        bc "C" :: bc "," :: bc "-" :: show_usize (lines_before w + 1) ++ bc "L" :: bc "," :: bc "+" ::
        show_usize (lines_after w + 1)), (bc "L"). split; [|split_and!; vm_compute; congruence].
      simpl. repeat (rewrite <- app_assoc; simpl). done.
    - eexists (show_usize (cols_before w) ++ bc "C" :: bc "," :: bc "+" :: show_usize (cols_after w)), (bc "C").
      split; [|split_and!; vm_compute; congruence].
      simpl. repeat (rewrite <- app_assoc; simpl). done. }
  apply trim_id; [split_and!; vm_compute; congruence|done].
Qed.

(** The window syntax round-trips: every bounded window whose amounts fit
    the machine is printed to a text that parses back to it. *)
Theorem window_roundtrip w :
  window_ok w -> unbounded w = false ->
  cols_before w <= USIZE_MAX -> cols_after w <= USIZE_MAX ->
  lines_before w < USIZE_MAX -> lines_after w < USIZE_MAX ->
  (has_lines w = false -> lines_before w = 0 /\ lines_after w = 0) ->
  parse_component_window (show_window w) = Some w.
Proof.
  intros (H1 & H2 & H3 & H4) Hu Hc1 Hc2 Hl1 Hl2 Hl. unfold parse_component_window.
  rewrite show_window_trim.
  assert (bytes_eqb (show_window w) [] || bytes_eqb (show_window w) (bs "0") = false) as ->.
  { unfold bytes_eqb. rewrite !bool_decide_eq_false_2; [done| |]; intros E; by inversion E. }
  unfold show_window.
  destruct w as [cb ca lb la hl ub].
  cbn [has_lines cols_before cols_after lines_before lines_after unbounded] in *. subst ub.
  rewrite split_on_app by (by apply show_token_no_comma). destruct hl.
  - rewrite split_on_app by (by apply show_token_no_comma).
    rewrite split_on_app by (by apply show_token_no_comma).
    rewrite split_on_last by (by apply show_token_no_comma).
    rewrite !window_tokens_show by (auto; lia). cbn [window_tokens]. f_equal. cbv -[Z.max Z.add Z.sub].
    f_equal; lia.
  - destruct (Hl eq_refl) as [-> ->]. rewrite app_nil_r.
    rewrite split_on_last by (by apply show_token_no_comma).
    rewrite !window_tokens_show by (auto; lia). cbn [window_tokens]. f_equal. cbv -[Z.max].
    f_equal; lia.
Qed.

Lemma window_roundtrip_witness :
  parse_component_window (show_window
    {| cols_before := 3; cols_after := 20; lines_before := 0; lines_after := 4; has_lines := true; unbounded := false |})
  = Some {| cols_before := 3; cols_after := 20; lines_before := 0; lines_after := 4; has_lines := true; unbounded := false |}.
Proof. apply window_roundtrip; vm_compute; repeat split; congruence. Defined.
