(* ===== verification/Catalog.v ===== *)
(** * Cross-catalog elimination: [catalog_keep] of
      [kingfisher-scanner/src/postprocess.rs]

    Matches of the Betterleaks and Veles catalogs on one span eliminate each
    other by rank, in match order. The code keeps one queue of indexes per rank
    and group, and removes entries from the queues lazily; it is shown to compute
    the ordered all-pairs elimination. The iteration order of the hash map of
    groups is a parameter. *)

From Stdlib Require Import ZArith Lia Bool ZifyNat.
From stdpp Require Import base list numbers option sorting.
From S2P Require Import Prelude Control Rule Overlap.

#[export] Instance OffsetSpan_eq_dec : EqDecision OffsetSpan.
Proof. solve_decision. Defined.

Definition same_span (a b : OffsetSpan) : bool := bool_decide (a = b).

(** [keep[i]] and [keep[i] = false] *)
Definition kept (keep : list bool) (i : nat) : bool := nth i keep false.
Definition kill (keep : list bool) (i : nat) : list bool := <[i := false]> keep.

(** The catalog of a rule: [Some 1] for Betterleaks, [Some 0] for Veles. *)
Definition catalog (r : Rule) : option nat :=
  if starts_with (bs "betterleaks.") (id r) then Some 1
  else if starts_with (bs "veles.") (id r) then Some 0
  else None.

Definition rank_of (r : Rule) (catalog : nat) : nat :=
  (match validation r with Some _ => 1 | None => 0 end) * 2 + catalog.

Definition Group : Type := list (nat * nat).

(** [groups.entry(span).or_default().push(x)] *)
Fixpoint group_push (span : OffsetSpan) (x : nat * nat) (groups : list (OffsetSpan * Group)) :
    list (OffsetSpan * Group) :=
  match groups with
  | [] => [(span, [x])]
  | (s, g) :: rest => if same_span s span then (s, g ++ [x]) :: rest
                      else (s, g) :: group_push span x rest
  end.

Fixpoint collect (control : ScanControl) (entries : list (Rule * OffsetSpan)) (index : nat)
    (groups : list (OffsetSpan * Group)) : Ctl (list (OffsetSpan * Group)) :=
  match entries with
  | [] => ret groups
  | (rule, span) :: rest =>
    check control ;;!
    match catalog rule with
    | Some c =>
      if visible rule
      then collect control rest (S index) (group_push span (index, rank_of rule c) groups)
      else collect control rest (S index) groups
    | None => collect control rest (S index) groups
    end
  end.

(** [while queue.front().is_some_and(|&i| i <= lft || !keep[i]) { pop_front }] *)
Fixpoint clean (keep : list bool) (lft : nat) (queue : list nat) : list nat :=
  match queue with
  | i :: q => if (i <=? lft) || negb (kept keep i) then clean keep lft q else queue
  | [] => []
  end.

(** [while front.is_some_and(|&i| first_better.is_none_or(|stop| i < stop)) { .. }] *)
Fixpoint drain (control : ScanControl) (stop : option nat) (keep : list bool) (queue : list nat) :
    Ctl (list bool * list nat) :=
  match queue with
  | i :: q =>
    if match stop with Some s => i <? s | None => true end
    then check control ;;! drain control stop (kill keep i) q
    else ret (keep, queue)
  | [] => ret (keep, [])
  end.

Definition queue (ranks : list (list nat)) (r : nat) : list nat := nth r ranks [].

(** The minimum of two optional fronts. *)
Definition min_front (a b : option nat) : option nat :=
  match a, b with
  | Some x, Some y => Some (Nat.min x y)
  | Some x, None => Some x
  | None, b => b
  end.

Definition drain_rank (control : ScanControl) (rank : nat) (stop : option nat) (r : nat)
    (st : list bool * list (list nat)) : Ctl (list bool * list (list nat)) :=
  let '(keep, ranks) := st in
  if rank <? r then ret st
  else
    let! res := drain control stop keep (queue ranks r) in
    ret (res.1, <[r := res.2]> ranks).

Fixpoint group_loop (control : ScanControl) (group : Group) (ranks : list (list nat))
    (keep : list bool) : Ctl (list bool) :=
  match group with
  | [] => ret keep
  | (lft, rank) :: rest =>
    check control ;;!
    (if negb (kept keep lft) then group_loop control rest ranks keep
     else
       let ranks := map (clean keep lft) ranks in
       let o1 := 1 - rank mod 2 in
       let o2 := 3 - rank mod 2 in
       let front r := if rank <? r then head (queue ranks r) else None in
       let first_better := min_front (front o1) (front o2) in
       let! st := drain_rank control rank first_better o1 (keep, ranks) in
       let! st := drain_rank control rank first_better o2 st in
       group_loop control rest st.2
         (match first_better with Some _ => kill st.1 lft | None => st.1 end))
  end.

Definition rank_queues (group : Group) : list (list nat) :=
  map (fun r => map fst (List.filter (fun x => Nat.eqb x.2 r) group)) [0; 1; 2; 3].

Fixpoint groups_loop (control : ScanControl) (groups : list (OffsetSpan * Group)) (keep : list bool) :
    Ctl (list bool) :=
  match groups with
  | [] => ret keep
  | (_, group) :: rest =>
    let! keep := group_loop control group (rank_queues group) keep in
    groups_loop control rest keep
  end.

(** [groups.values()] visits the groups in the order [iter] of the hash map. *)
Definition catalog_keep (iter : list (OffsetSpan * Group) -> list (OffsetSpan * Group))
    (control : ScanControl) (entries : list (Rule * OffsetSpan)) : Ctl (list bool) :=
  let! groups := collect control entries 0 [] in
  groups_loop control (iter groups) (replicate (length entries) true).

(** ** The reference: ordered all-pairs elimination *)

(** The entries that take part: index, rank and span, in match order. *)
Definition Item : Type := nat * nat * OffsetSpan.

Fixpoint items (index : nat) (entries : list (Rule * OffsetSpan)) : list Item :=
  match entries with
  | [] => []
  | (rule, span) :: rest =>
    match catalog rule with
    | Some c => if visible rule then (index, rank_of rule c, span) :: items (S index) rest
                else items (S index) rest
    | None => items (S index) rest
    end
  end.

Definition opposes (a b : Item) : bool :=
  same_span a.2 b.2 && negb (Nat.eqb (a.1.2 mod 2) (b.1.2 mod 2)).

(** A left item meets the later ones in order: a better one eliminates it and
    ends its turn, the others are eliminated by it. *)
Fixpoint duel (keep : list bool) (lft : Item) (rest : list Item) : list bool :=
  match rest with
  | [] => keep
  | rgt :: rest =>
    if kept keep rgt.1.1 && opposes lft rgt then
      if lft.1.2 <? rgt.1.2 then kill keep lft.1.1
      else duel (kill keep rgt.1.1) lft rest
    else duel keep lft rest
  end.

Fixpoint all_pairs (keep : list bool) (l : list Item) : list bool :=
  match l with
  | [] => keep
  | lft :: rest => all_pairs (if kept keep lft.1.1 then duel keep lft rest else keep) rest
  end.

(** ** Killing a set of indexes *)

Definition kill_all (keep : list bool) (d : list nat) : list bool := fold_left kill d keep.

Lemma length_kill_all d : forall keep, length (kill_all keep d) = length keep.
Proof. induction d as [|i d IH]; intros keep; simpl; [done|]. rewrite IH. apply length_insert. Qed.

Lemma kept_kill keep i j : kept (kill keep j) i = kept keep i && negb (Nat.eqb i j).
Proof.
  unfold kept, kill. destruct (decide (j < length keep)).
  - rewrite nth_insert by done. destruct (Nat.eqb i j); [by rewrite andb_false_r|by rewrite andb_true_r].
  - rewrite list_insert_ge by lia. destruct (Nat.eqb i j) eqn:E; simpl; [|by rewrite andb_true_r].
    tobool. subst. rewrite nth_overflow by lia. done.
Qed.

Lemma kept_kill_all d : forall keep i,
  kept (kill_all keep d) i = kept keep i && negb (bool_decide (i ∈ d)).
Proof.
  induction d as [|j d IH]; intros keep i.
  - rewrite bool_decide_eq_false_2 by apply not_elem_of_nil. by rewrite andb_true_r.
  - change (kill_all keep (j :: d)) with (kill_all (kill keep j) d). rewrite IH, kept_kill, <- andb_assoc. f_equal.
    destruct (Nat.eqb i j) eqn:E; tobool.
    + subst. cbn [negb andb]. by rewrite bool_decide_eq_true_2 by (by left).
    + cbn [negb andb]. f_equal. apply bool_decide_ext. rewrite elem_of_cons. tauto.
Qed.

(** Lists of flags that agree everywhere are equal. *)
Lemma keep_ext (k1 k2 : list bool) :
  length k1 = length k2 -> (forall i, kept k1 i = kept k2 i) -> k1 = k2.
Proof.
  intros Hl H. apply nth_ext with (d := false) (d' := false); [done|]. intros i _. apply H.
Qed.

(** Only what the sets say of the flags still up matters. *)
Lemma kill_all_ext keep d1 d2 :
  (forall i, kept keep i = true -> i ∈ d1 <-> i ∈ d2) -> kill_all keep d1 = kill_all keep d2.
Proof.
  intros H. apply keep_ext; [by rewrite !length_kill_all|]. intros i. rewrite !kept_kill_all.
  destruct (kept keep i) eqn:E; [|done]. simpl. f_equal. apply bool_decide_ext. by apply H.
Qed.

Lemma kill_all_app keep d1 d2 : kill_all keep (d1 ++ d2) = kill_all (kill_all keep d1) d2.
Proof. apply fold_left_app. Qed.

(** ** What a left item kills *)

Fixpoint dead_of (keep : list bool) (lft : Item) (rest : list Item) : list nat :=
  match rest with
  | [] => []
  | rgt :: rest =>
    if kept keep rgt.1.1 && opposes lft rgt then
      if lft.1.2 <? rgt.1.2 then [lft.1.1] else rgt.1.1 :: dead_of keep lft rest
    else dead_of keep lft rest
  end.

Definition index_of (x : Item) : nat := x.1.1.

Lemma dead_of_ext k1 k2 l rest :
  (forall x, In x rest -> opposes l x = true -> kept k1 (index_of x) = kept k2 (index_of x)) ->
  dead_of k1 l rest = dead_of k2 l rest.
Proof.
  induction rest as [|r rest IH]; intros H; simpl; [done|].
  rewrite IH by (intros; apply H; [by right|done]).
  destruct (opposes l r) eqn:E; [|by rewrite !andb_false_r].
  pose proof (H r (or_introl eq_refl) E) as Hr. unfold index_of in Hr. by rewrite Hr.
Qed.

Lemma duel_kill l rest : forall keep,
  NoDup (map index_of rest) -> duel keep l rest = kill_all keep (dead_of keep l rest).
Proof.
  induction rest as [|r rest IH]; intros keep Hnd; simpl; [done|].
  apply NoDup_cons in Hnd as [Hr Hnd].
  destruct (kept keep r.1.1 && opposes l r) eqn:E; [|by apply IH].
  destruct (l.1.2 <? r.1.2); [done|]. rewrite IH by done. simpl. f_equal.
  apply dead_of_ext. intros x Hx _. rewrite kept_kill.
  rewrite (proj2 (Nat.eqb_neq _ _)); [by rewrite andb_true_r|].
  intros Hx'. apply Hr. apply list_elem_of_In, in_map_iff. exists x. split; [done|exact Hx].
Qed.

Lemma dead_of_in keep l rest i :
  In i (dead_of keep l rest) -> i = index_of l \/ exists x, In x rest /\ index_of x = i /\ opposes l x = true.
Proof.
  induction rest as [|r rest IH]; simpl; [done|].
  destruct (kept keep r.1.1 && opposes l r) eqn:E.
  - apply andb_prop in E as [_ E]. destruct (_ <? _); simpl.
    + intros [<-|[]]. by left.
    + intros [<-|H]; [right; exists r; auto|]. destruct (IH H) as [?|(x & ? & ? & ?)]; eauto 10.
  - intros H. destruct (IH H) as [?|(x & ? & ? & ?)]; eauto 10.
Qed.

(** ** One span at a time *)

Definition of_span (s : OffsetSpan) (l : list Item) : list Item :=
  List.filter (fun x => same_span x.2 s) l.

Lemma same_span_iff a b : same_span a b = true <-> a = b.
Proof. apply bool_decide_eq_true. Qed.

Lemma dead_of_span keep l rest :
  dead_of keep l rest = dead_of keep l (of_span l.2 rest).
Proof.
  induction rest as [|r rest IH]; simpl; [done|].
  destruct (same_span r.2 l.2) eqn:E; simpl.
  - by rewrite IH.
  - assert (opposes l r = false) as ->; [|by rewrite andb_false_r].
    unfold opposes. apply andb_false_iff. left. unfold same_span in *.
    apply bool_decide_eq_false in E. apply bool_decide_eq_false. congruence.
Qed.

Lemma in_of_span s l x : In x (of_span s l) <-> In x l /\ x.2 = s.
Proof. unfold of_span. by rewrite filter_In, same_span_iff. Qed.

Lemma nodup_of_span s l : NoDup (map index_of l) -> NoDup (map index_of (of_span s l)).
Proof.
  induction l as [|x l IH]; simpl; intros H; [done|]. apply NoDup_cons in H as [Hx H].
  destruct (same_span x.2 s); simpl; [|auto]. constructor; [|auto].
  intros Hin. apply Hx. apply list_elem_of_In, in_map_iff in Hin as (y & E & Hy).
  apply in_of_span in Hy as [Hy _]. apply list_elem_of_In, in_map_iff. eauto.
Qed.

Lemma length_duel l rest : forall keep, length (duel keep l rest) = length keep.
Proof.
  induction rest as [|r rest IH]; intros keep; simpl; [done|].
  destruct (_ && _); [|done]. destruct (_ <? _); [apply length_insert|].
  rewrite IH. apply length_insert.
Qed.

Lemma length_all_pairs l : forall keep, length (all_pairs keep l) = length keep.
Proof.
  induction l as [|x l IH]; intros keep; simpl; [done|]. rewrite IH.
  destruct (kept keep _); [apply length_duel|done].
Qed.

(** Items a turn does not name keep their flag. *)
Lemma duel_untouched l rest i : forall keep,
  index_of l <> i -> (forall z, In z rest -> index_of z <> i) ->
  kept (duel keep l rest) i = kept keep i.
Proof.
  assert (Hk : forall k j, j <> i -> kept (kill k j) i = kept k i).
  { intros k j Hj. rewrite kept_kill, (proj2 (Nat.eqb_neq _ _)) by done. apply andb_true_r. }
  induction rest as [|r rest IH]; intros keep Hl Hr; simpl; [done|].
  assert (index_of r <> i) by (apply Hr; by left).
  assert (forall z, In z rest -> index_of z <> i) by (intros; apply Hr; by right).
  destruct (_ && _); [|by apply IH]. destruct (_ <? _); [by apply Hk|].
  rewrite IH by done. by apply Hk.
Qed.

Lemma all_pairs_untouched l i : forall keep,
  (forall z, In z l -> index_of z <> i) -> kept (all_pairs keep l) i = kept keep i.
Proof.
  induction l as [|x l IH]; intros keep H; simpl; [done|].
  assert (forall z, In z l -> index_of z <> i) by (intros; apply H; by right).
  rewrite IH by done. destruct (kept keep _); [|done].
  apply duel_untouched; [apply H; by left|done].
Qed.

Lemma index_inj l x y :
  NoDup (map index_of l) -> In x l -> In y l -> index_of x = index_of y -> x = y.
Proof.
  intros Hnd Hx Hy E. apply list_elem_of_In, list_elem_of_lookup in Hx as [i Hx].
  apply list_elem_of_In, list_elem_of_lookup in Hy as [j Hy].
  assert (i = j) as ->; [|by simplify_eq].
  apply (NoDup_lookup (map index_of l) i j (index_of x)); [done| |];
    rewrite list_lookup_fmap; [by rewrite Hx|by rewrite Hy, E].
Qed.

(** A turn of the span's own item, seen from all items and from the span's. *)
Lemma duel_span k1 k2 y l :
  NoDup (map index_of (y :: l)) ->
  (forall x, In x (y :: l) -> x.2 = y.2 -> kept k1 (index_of x) = kept k2 (index_of x)) ->
  forall x, In x (y :: l) -> x.2 = y.2 ->
    kept (duel k1 y l) (index_of x) = kept (duel k2 y (of_span y.2 l)) (index_of x).
Proof.
  intros Hnd Hag x Hx Hs. apply NoDup_cons in Hnd as [_ Hnd].
  rewrite !duel_kill by (done || by apply nodup_of_span).
  rewrite <- dead_of_span, !kept_kill_all, (Hag x Hx Hs). do 2 f_equal.
  rewrite (dead_of_ext k1 k2); [done|].
  intros w Hw Ho. apply Hag; [by right|]. unfold opposes in Ho.
  apply andb_prop in Ho as [Ho _]. apply same_span_iff in Ho. congruence.
Qed.

(** A turn of an item of another span. *)
Lemma duel_other k y l x :
  NoDup (map index_of (y :: l)) -> In x l -> x.2 <> y.2 -> kept (duel k y l) (index_of x) = kept k (index_of x).
Proof.
  intros Hnd Hx Hs. pose proof Hnd as Hnd'. apply NoDup_cons in Hnd as [Hy Hnd].
  rewrite duel_kill, kept_kill_all by done.
  rewrite bool_decide_eq_false_2; [by rewrite andb_true_r|]. intros Hd%list_elem_of_In.
  apply dead_of_in in Hd as [Hd|(w & Hw & Hwi & Ho)].
  - apply Hy. apply list_elem_of_In, in_map_iff. eauto.
  - assert (w = x) as -> by by apply (index_inj l).
    unfold opposes in Ho. apply andb_prop in Ho as [Ho _]. apply same_span_iff in Ho. congruence.
Qed.

(** The elimination on one span only depends on the items of that span. *)
Lemma all_pairs_span s l : forall k1 k2,
  NoDup (map index_of l) ->
  (forall x, In x l -> x.2 = s -> kept k1 (index_of x) = kept k2 (index_of x)) ->
  forall x, In x l -> x.2 = s ->
    kept (all_pairs k1 l) (index_of x) = kept (all_pairs k2 (of_span s l)) (index_of x).
Proof.
  induction l as [|y l IH]; intros k1 k2 Hnd Hag x Hx Hs; [done|].
  pose proof Hnd as Hnd0. simpl in Hnd. apply NoDup_cons in Hnd as [Hy Hnd].
  assert (Hyn : forall z, In z l -> index_of z <> index_of y).
  { intros z Hz E. apply Hy. apply list_elem_of_In, in_map_iff. eauto. }
  cbn [of_span List.filter]. destruct (same_span y.2 s) eqn:E; fold (of_span s l).
  - apply same_span_iff in E. revert x Hx Hs. subst s. intros x Hx Hs.
    assert (Hky : kept k1 y.1.1 = kept k2 y.1.1) by (apply (Hag y); [by left|done]).
    cbn [all_pairs]. rewrite Hky.
    set (k1' := if kept k2 y.1.1 then _ else k1). set (k2' := if kept k2 y.1.1 then _ else k2).
    assert (Hag' : forall z, In z (y :: l) -> z.2 = y.2 -> kept k1' (index_of z) = kept k2' (index_of z)).
    { intros z Hz Hzs. subst k1' k2'. destruct (kept k2 y.1.1); [by apply duel_span|by apply Hag]. }
    destruct Hx as [<-|Hx].
    + rewrite !all_pairs_untouched; [by apply Hag'; [left|]| |done].
      intros z Hz. apply in_of_span in Hz as [Hz _]. by apply Hyn.
    + apply IH; [done| |done|done]. intros z Hz. apply Hag'. by right.
  - assert (y.2 <> s) by (by apply bool_decide_eq_false in E).
    destruct Hx as [->|Hx]; [done|]. cbn [all_pairs].
    apply IH; [done| |done|done]. intros z Hz Hzs.
    destruct (kept k1 y.1.1); [|by apply Hag; [right|]].
    rewrite duel_other by (done || congruence). apply Hag; [by right|done].
Qed.

(** ** The queues of a group *)

Definition below (stop : option nat) (i : nat) : bool :=
  match stop with Some s => i <? s | None => true end.

Lemma drain_refines control stop q : forall keep,
  let n := partition_point (below stop) q in
  refines control (drain control stop keep q) (kill_all keep (take n q), drop n q).
Proof.
  induction q as [|i q IH]; intros keep; simpl; [apply refines_ret|].
  change (match stop with Some s => i <? s | None => true end) with (below stop i).
  destruct (below stop i); simpl; [|apply refines_ret].
  eapply refines_bind; [apply refines_check|apply IH].
Qed.

(** What a drain of rank [r] kills and leaves. *)
Definition cut (rank : nat) (stop : option nat) (r : nat) (q : list nat) : nat :=
  if rank <? r then 0 else partition_point (below stop) q.

Lemma drain_rank_refines control rank stop r keep ranks :
  r < length ranks ->
  let q := queue ranks r in let n := cut rank stop r q in
  refines control (drain_rank control rank stop r (keep, ranks))
    (kill_all keep (take n q), <[r := drop n q]> ranks).
Proof.
  intros Hr q n. unfold drain_rank. subst n. unfold cut. destruct (rank <? r).
  - subst q. unfold queue. rewrite drop_0, insert_nth. apply refines_ret.
  - eapply refines_bind; [apply drain_refines|]. apply refines_ret.
Qed.

Lemma clean_spec keep lft q :
  StronglySorted lt q ->
  let q' := clean keep lft q in
  StronglySorted lt q' /\ (forall i, In i q' -> In i q /\ lft < i) /\
  (forall i, In i q -> lft < i -> kept keep i = true -> In i q') /\
  (forall i, head q' = Some i -> kept keep i = true).
Proof.
  induction 1 as [|i q Hs IH Hi]; simpl; [split_and!; [constructor|tauto|tauto|done]|].
  destruct IH as (H1 & H2 & H3 & H4). rewrite List.Forall_forall in Hi.
  destruct ((i <=? lft) || negb (kept keep i)) eqn:E.
  - split_and!; [done| | |done].
    + intros j Hj. destruct (H2 j Hj). auto.
    + intros j [<-|Hj] Hl Hk; [|auto]. rewrite Hk in E. simpl in E. rewrite orb_false_r in E. tobool. lia.
  - tobool. split_and!.
    + constructor; [done|by apply List.Forall_forall].
    + intros j Hj. split; [done|]. simpl in Hj. destruct Hj as [<-|Hj]; [lia|]. specialize (Hi j Hj). lia.
    + done.
    + intros j E. simplify_eq/=. done.
Qed.

Lemma sorted_take_below stop q i :
  StronglySorted lt q ->
  (In i (take (partition_point (below stop) q) q) <-> In i q /\ below stop i = true).
Proof.
  induction 1 as [|j q Hs IH Hj]; simpl; [tauto|]. rewrite List.Forall_forall in Hj.
  destruct (below stop j) eqn:E; simpl; [rewrite IH; split; [intros [<-|[? ?]]; auto|tauto]|].
  split; [done|]. intros [Hin Hb]. destruct Hin as [<-|Hin]; [congruence|].
  specialize (Hj i Hin). destruct stop as [s|]; simpl in *; [|done]. tobool. lia.
Qed.

Lemma sorted_drop (q : list nat) n : StronglySorted lt q -> StronglySorted lt (drop n q).
Proof.
  intros H. revert n; induction H as [|j q Hs IH Hj]; intros [|n]; simpl; try constructor; auto.
Qed.

Lemma head_min q i j : StronglySorted lt q -> head q = Some i -> In j q -> i <= j.
Proof.
  intros Hs Hh Hj. destruct q as [|x q]; [done|]. simplify_eq/=.
  apply StronglySorted_inv in Hs as [_ Hs]. rewrite List.Forall_forall in Hs.
  destruct Hj as [->|Hj]; [lia|]. specialize (Hs j Hj). lia.
Qed.

Lemma or_iff (a b c d : Prop) : (a <-> c) -> (b <-> d) -> (a \/ b) <-> (c \/ d).
Proof. tauto. Qed.

Lemma or_shift (a b c : Prop) : (a \/ b \/ c) <-> ((a \/ b) \/ c).
Proof. tauto. Qed.

Section group.
Context (s : OffsetSpan) (control : ScanControl).

Definition item (x : nat * nat) : Item := (x, s).

(** What a better opposing item ahead is, and what the turn kills. *)
Definition better (keep : list bool) (rank : nat) (x : nat * nat) : Prop :=
  kept keep x.1 = true /\ (rank mod 2 <> x.2 mod 2) /\ rank < x.2.

Lemma opposes_item l x : opposes (item l) (item x) = negb (Nat.eqb (l.2 mod 2) (x.2 mod 2)).
Proof. unfold opposes, item. simpl. unfold same_span. by rewrite bool_decide_eq_true_2. Qed.

Definition sorted_group (g : Group) : Prop := StronglySorted lt (map fst g).

(** The opposing items still up, and the turn as a cut of their list. *)
Definition relevant (keep : list bool) (rank : nat) (x : nat * nat) : bool :=
  kept keep x.1 && negb (Nat.eqb (rank mod 2) (x.2 mod 2)).
Definition not_better (rank : nat) (x : nat * nat) : bool := x.2 <=? rank.

Lemma dead_of_cut keep lft rank rest :
  let l := List.filter (relevant keep rank) rest in
  let n := partition_point (not_better rank) l in
  dead_of keep (item (lft, rank)) (map item rest) =
  map fst (take n l) ++ if n <? length l then [lft] else [].
Proof.
  induction rest as [|[j r] rest IH]; [done|]. cbn [map dead_of List.filter].
  rewrite opposes_item. change (kept keep (item (j, r)).1.1 && _) with (relevant keep rank (j, r)).
  cbv zeta in IH |- *. destruct (relevant keep rank (j, r)); [|exact IH]. cbn [partition_point].
  change (not_better rank (j, r)) with (r <=? rank). cbn [item fst snd length]. rewrite Nat.leb_antisym.
  destruct (rank <? r) eqn:E; cbn [negb]; [done|]. cbn [firstn map app fst].
  by rewrite IH.
Qed.

Lemma in_cut rank l i :
  StronglySorted lt (map fst l) ->
  (i ∈ map fst (take (partition_point (not_better rank) l) l) <->
   exists r, In (i, r) l /\ r <= rank /\ forall x, In x l -> rank < x.2 -> i < x.1).
Proof.
  induction l as [|[j r] l IH]; cbn [map]; intros Hs.
  { simpl. rewrite elem_of_nil. split; [done|]. by intros (r & [] & _). }
  apply StronglySorted_inv in Hs as [Hs Hj]. rewrite List.Forall_forall in Hj.
  assert (Hlt : forall x, In x l -> j < x.1) by (intros x Hx; apply Hj; by apply in_map).
  cbn [partition_point]. unfold not_better at 1. cbn [snd].
  destruct (r <=? rank) eqn:E; tobool.
  - cbn [firstn map fst]. rewrite elem_of_cons, (IH Hs). split.
    + intros [->|(r' & Hr & Hle & Hb)].
      * exists r. split_and!; [by left|done|]. intros x [<-|Hx] Hr; [simpl in *; lia|by apply Hlt].
      * exists r'. split_and!; [by right|done|]. intros x [<-|Hx] Hx'; [simpl in *; lia|by apply Hb].
    + intros (r' & [Hr|Hr] & Hle & Hb); [simplify_eq; by left|]. right.
      exists r'. split_and!; [done|done|]. intros x Hx. apply Hb. by right.
  - rewrite take_0. cbn [map]. rewrite elem_of_nil. split; [done|]. intros (r' & Hr & Hle & Hb).
    specialize (Hb (j, r) (or_introl eq_refl) E). cbn [fst] in Hb.
    destruct Hr as [Hr|Hr]; [simplify_eq; lia|]. specialize (Hlt _ Hr). simpl in Hlt. lia.
Qed.

Lemma cut_ends rank l :
  (partition_point (not_better rank) l <? length l) = true <-> exists x, In x l /\ rank < x.2.
Proof.
  induction l as [|[j r] l IH]; cbn [partition_point length].
  { split; [done|]. by intros (x & [] & _). }
  unfold not_better at 1. cbn [snd]. destruct (r <=? rank) eqn:E; tobool.
  - etransitivity; [exact IH|]. split.
    + intros (x & Hx & Hr). eauto using in_cons.
    + intros (x & [<-|Hx] & Hr); [simpl in *; lia|]. eauto.
  - split; [|done]. intros _. exists (j, r). split; [by left|done].
Qed.

Lemma dead_of_spec keep lft rank rest i :
  sorted_group rest ->
  i ∈ dead_of keep (item (lft, rank)) (map item rest) <->
  (exists r, In (i, r) rest /\ relevant keep rank (i, r) = true /\ r <= rank /\
     forall x, In x rest -> better keep rank x -> i < x.1) \/
  (i = lft /\ exists x, In x rest /\ better keep rank x).
Proof.
  intros Hs. rewrite dead_of_cut. set (l := List.filter _ rest).
  assert (Hl : forall x, In x l <-> In x rest /\ relevant keep rank x = true)
    by (intros; apply filter_In).
  assert (Hb : forall x, In x rest -> better keep rank x <-> relevant keep rank x = true /\ rank < x.2).
  { intros x Hx. unfold better, relevant. rewrite andb_true_iff, negb_true_iff, Nat.eqb_neq. tauto. }
  assert (StronglySorted lt (map fst l)) as Hsl.
  { subst l. unfold sorted_group in Hs. clear -Hs.
    induction rest as [|x rest IH]; [constructor|]. cbn [map] in Hs.
    apply StronglySorted_inv in Hs as [Hs Hx]. cbn [List.filter].
    destruct (relevant _ _ _); [|auto]. cbn [map]. constructor; [auto|].
    apply List.Forall_forall. intros y Hy. rewrite List.Forall_forall in Hx. apply Hx.
    apply in_map_iff in Hy as (z & <- & Hz). apply filter_In in Hz as [Hz _]. by apply in_map. }
  rewrite elem_of_app, (in_cut rank l i Hsl). apply or_iff.
  - split; intros (r & Hr & H).
    + apply Hl in Hr as [Hr Hrel]. exists r. split_and!; [done|done|tauto|].
      intros x Hx Hbx. apply Hb in Hbx as [? ?]; [|done]. apply H; [|done]. apply Hl. done.
    + destruct H as (Hrel & Hle & H). exists r. split_and!; [by apply Hl|done|].
      intros x Hx Hlt. apply Hl in Hx as [Hx ?]. apply H; [done|]. by apply Hb.
  - destruct (_ <? _) eqn:E.
    + rewrite list_elem_of_singleton. apply cut_ends in E as (x & Hx & Hlt).
      apply Hl in Hx as [Hx Hr]. split; [|tauto]. intros ->. split; [done|]. exists x.
      split; [done|]. by apply Hb.
    + rewrite elem_of_nil. split; [done|]. intros (_ & x & Hx & Hbx).
      apply Hb in Hbx as [? ?]; [|done]. apply not_true_iff_false in E. apply E, cut_ends.
      exists x. split; [by apply Hl|done].
Qed.

(** The queues before the turn of the first item of [rest]. *)
Record queues_ok (keep : list bool) (rest : Group) (ranks : list (list nat)) : Prop := {
  q_len : length ranks = 4;
  q_sorted : forall r, StronglySorted lt (queue ranks r);
  q_src : forall r i, In i (queue ranks r) -> In (i, r) rest \/ forall x, In x rest -> i < x.1;
  q_all : forall r i, In (i, r) rest -> kept keep i = true -> In i (queue ranks r)
}.

(** The queues after the lazy removal at [lft]. *)
Record fronts_ok (keep : list bool) (tail : Group) (ranks : list (list nat)) : Prop := {
  f_len : length ranks = 4;
  f_sorted : forall r, StronglySorted lt (queue ranks r);
  f_src : forall r i, In i (queue ranks r) -> In (i, r) tail;
  f_all : forall r i, In (i, r) tail -> kept keep i = true -> In i (queue ranks r);
  f_head : forall r i, head (queue ranks r) = Some i -> kept keep i = true
}.

Lemma queue_map f ranks r : f [] = [] -> queue (map f ranks) r = f (queue ranks r).
Proof. intros H. unfold queue. rewrite <- H at 1. apply map_nth. Qed.

Lemma clean_fronts keep lft rank tail ranks :
  sorted_group ((lft, rank) :: tail) -> queues_ok keep ((lft, rank) :: tail) ranks ->
  fronts_ok keep tail (map (clean keep lft) ranks).
Proof.
  intros Hs [Hlen Hso Hsrc Hall]. apply StronglySorted_inv in Hs as [_ Hlt].
  rewrite List.Forall_forall in Hlt.
  split; [by rewrite length_map|intros r|intros r i|intros r i|intros r i]; rewrite queue_map by done;
    destruct (clean_spec keep lft (queue ranks r) (Hso r)) as (H1 & H2 & H3 & H4).
  - done.
  - intros Hi. apply H2 in Hi as [Hi Hl]. destruct (Hsrc r i Hi) as [[E|Hr]|Hr]; [simplify_eq; lia|done|].
    specialize (Hr _ (or_introl eq_refl)). simpl in Hr. lia.
  - intros Hi Hk. apply H3; [apply Hall; [by right|done]| |done].
    apply (Hlt i). apply in_map_iff. by exists (i, r).
  - apply H4.
Qed.

Section turn.
Context (keep : list bool) (lft rank : nat) (tail : Group) (ranks : list (list nat)).
Context (Hf : fronts_ok keep tail ranks).

Definition front (r : nat) : option nat := if rank <? r then head (queue ranks r) else None.
Definition o1 : nat := 1 - rank mod 2.
Definition o2 : nat := 3 - rank mod 2.
Definition first_better : option nat := min_front (front o1) (front o2).

Lemma opposing_rank r : r < 4 -> (rank mod 2 <> r mod 2 <-> r = o1 \/ r = o2).
Proof.
  intros Hr. unfold o1, o2. assert (rank mod 2 < 2) by (apply Nat.mod_upper_bound; lia).
  destruct (rank mod 2) as [|[|]]; [| |lia];
    destruct r as [|[|[|[|]]]]; simpl; lia.
Qed.

Lemma opposing_lt : o1 < 4 /\ o2 < 4 /\ o1 <> o2.
Proof. unfold o1, o2. assert (rank mod 2 < 2) by (apply Nat.mod_upper_bound; lia). lia. Qed.

Lemma queue_range r i : In i (queue ranks r) -> r < 4.
Proof.
  intros H. unfold queue in H. destruct (decide (r < length ranks)) as [Hr|Hr].
  - by rewrite (f_len _ _ _ Hf) in Hr.
  - by rewrite nth_overflow in H by lia.
Qed.

(** The first better item ahead, if there is one. *)
Lemma first_better_spec :
  Forall (fun x => x.2 < 4) tail ->
  (forall x, first_better = Some x -> exists r, In (x, r) tail /\ better keep rank (x, r)) /\
  (forall x, In x tail -> better keep rank x -> exists y, first_better = Some y /\ y <= x.1).
Proof.
  intros H4. pose proof opposing_lt as (Ho1 & Ho2 & Hne).
  assert (Hfront : forall r x, r = o1 \/ r = o2 -> front r = Some x ->
    In (x, r) tail /\ better keep rank (x, r)).
  { intros r x Hr Hx. unfold front in Hx. destruct (rank <? r) eqn:E; [|done]. tobool.
    split; [apply (f_src _ _ _ Hf); by destruct (queue ranks r); [|simplify_eq/=; left]|].
    split; [by apply (f_head _ _ _ Hf r)|]. split; [|done]. apply opposing_rank; [|done].
    cbn [snd]; destruct Hr; lia. }
  split.
  - intros x Hx. unfold first_better in Hx.
    destruct (front o1) as [a|] eqn:E1, (front o2) as [b|] eqn:E2; simplify_eq/=.
    + destruct (Nat.min_spec a b) as [[_ ->]|[_ ->]]; [exists o1|exists o2]; apply Hfront; auto.
    + exists o1; apply Hfront; auto.
    + exists o2; apply Hfront; auto.
  - intros [i r] Hx (Hk & Hp & Hlt). simpl in *.
    rewrite List.Forall_forall in H4. specialize (H4 _ Hx). simpl in H4.
    pose proof (f_all _ _ _ Hf r i Hx Hk) as Hi.
    assert (exists y, front r = Some y /\ y <= i) as (y & Hy & Hle).
    { unfold front. rewrite (proj2 (Nat.ltb_lt _ _)) by done.
      destruct (queue ranks r) as [|y q] eqn:E; [done|]. exists y. split; [done|].
      apply (head_min (queue ranks r)); [apply (f_sorted _ _ _ Hf)|by rewrite E|by rewrite E]. }
    apply opposing_rank in Hp; [|done]. unfold first_better.
    destruct Hp as [->| ->]; rewrite Hy.
    + destruct (front o2); simpl; eexists; split; try done; lia.
    + destruct (front o1); simpl; eexists; split; try done; lia.
Qed.

(** What the drains and the turn kill, as in the reference. *)
Definition killed (r : nat) : list nat :=
  take (cut rank first_better r (queue ranks r)) (queue ranks r).
Definition turn_kills : list nat :=
  killed o1 ++ killed o2 ++ match first_better with Some _ => [lft] | None => [] end.

Lemma in_killed r i :
  i ∈ killed r <-> In i (queue ranks r) /\ r <= rank /\ below first_better i = true.
Proof.
  unfold killed, cut. destruct (rank <? r) eqn:E; tobool.
  - rewrite take_0, elem_of_nil. split; [done|]. lia.
  - rewrite list_elem_of_In, (sorted_take_below _ _ _ (f_sorted _ _ _ Hf r)). tauto.
Qed.

Lemma turn_exact :
  sorted_group tail -> Forall (fun x => x.2 < 4) tail ->
  kill_all keep turn_kills = kill_all keep (dead_of keep (item (lft, rank)) (map item tail)).
Proof.
  intros Hs H4. destruct (first_better_spec H4) as [Hfb1 Hfb2]. apply kill_all_ext.
  intros i Hi. rewrite (dead_of_spec _ _ _ _ _ Hs). unfold turn_kills.
  rewrite !elem_of_app, !in_killed.
  assert (Hbelow : below first_better i = true <->
    forall x, In x tail -> better keep rank x -> i < x.1).
  { destruct first_better as [y|] eqn:E; simpl.
    - rewrite Nat.ltb_lt. split.
      + intros Hlt x Hx Hb. destruct (Hfb2 x Hx Hb) as (z & ? & Hz). simplify_eq. lia.
      + intros H. destruct (Hfb1 y eq_refl) as (r & Hr & Hb). apply (H (y, r)); done.
    - split; [|done]. intros _ x Hx Hb. by destruct (Hfb2 x Hx Hb) as (? & ? & _). }
  etransitivity; [apply or_shift|]. apply or_iff.
  - rewrite Hbelow. split.
    + intros [(Hq & Hle & Hb)|(Hq & Hle & Hb)]; [exists o1|exists o2];
        (split_and!; [by apply (f_src _ _ _ Hf)| |done|done]);
        unfold relevant; cbn [fst snd]; rewrite Hi; apply negb_true_iff, Nat.eqb_neq;
        apply opposing_rank; auto; apply opposing_lt.
    + intros (r & Hr & Hrel & Hle & Hb). unfold relevant in Hrel. apply andb_prop in Hrel as [_ Hp].
      cbn [fst snd] in Hp. tobool. rewrite List.Forall_forall in H4.
      apply opposing_rank in Hp; [|by apply (H4 (i, r))].
      pose proof (f_all _ _ _ Hf r i Hr Hi). destruct Hp as [->| ->]; auto.
  - destruct first_better as [y|] eqn:E.
    + rewrite list_elem_of_singleton. split; [|tauto]. intros ->. split; [done|].
      destruct (Hfb1 y eq_refl) as (r & Hr & Hb). eauto.
    + rewrite elem_of_nil. split; [done|]. intros (_ & x & Hx & Hb).
      by destruct (Hfb2 x Hx Hb) as (? & ? & _).
Qed.

(** The queues after the drains. *)
Definition drained : list (list nat) :=
  let cut_of r := drop (cut rank first_better r (queue ranks r)) (queue ranks r) in
  <[o2 := cut_of o2]> (<[o1 := cut_of o1]> ranks).

Lemma queue_insert (rs : list (list nat)) r r' q :
  r < length rs -> queue (<[r := q]> rs) r' = if Nat.eqb r' r then q else queue rs r'.
Proof. intros Hr. unfold queue. by apply nth_insert. Qed.

Lemma queue_drained r :
  exists n, queue drained r = drop n (queue ranks r) /\
    forall i, In i (take n (queue ranks r)) -> i ∈ turn_kills.
Proof.
  pose proof opposing_lt as (Ho1 & Ho2 & Hne). pose proof (f_len _ _ _ Hf) as Hlen.
  unfold drained. rewrite queue_insert by (rewrite length_insert; lia).
  rewrite queue_insert by lia. unfold turn_kills.
  destruct (Nat.eqb r o2) eqn:E2; tobool; [subst r|destruct (Nat.eqb r o1) eqn:E1; tobool; [subst r|]].
  - eexists. split; [done|]. intros i Hi. rewrite !elem_of_app. right; left. by apply list_elem_of_In.
  - eexists. split; [done|]. intros i Hi. rewrite !elem_of_app. left. by apply list_elem_of_In.
  - exists 0. split; [done|]. rewrite take_0. done.
Qed.

Lemma drained_ok : queues_ok (kill_all keep turn_kills) tail drained.
Proof.
  split.
  - unfold drained. rewrite !length_insert. apply (f_len _ _ _ Hf).
  - intros r. destruct (queue_drained r) as (n & -> & _). apply sorted_drop, (f_sorted _ _ _ Hf).
  - intros r i Hi. left. destruct (queue_drained r) as (n & Hn & _). rewrite Hn in Hi.
    apply (f_src _ _ _ Hf). rewrite <- (take_drop n). apply in_app_iff. by right.
  - intros r i Hi Hk. rewrite kept_kill_all in Hk. tobool.
    pose proof (f_all _ _ _ Hf r i Hi ltac:(done)) as Hq.
    destruct (queue_drained r) as (n & -> & Hn). rewrite <- (take_drop n) in Hq.
    apply in_app_iff in Hq as [Hq|Hq]; [|done]. apply Hn in Hq.
    by rewrite bool_decide_eq_true_2 in H0.
Qed.
End turn.

(** One group of the code is the all-pairs elimination of its items. *)
Lemma group_loop_refines rest : forall ranks keep,
  sorted_group rest -> Forall (fun x => x.2 < 4) rest -> queues_ok keep rest ranks ->
  refines control (group_loop control rest ranks keep) (all_pairs keep (map item rest)).
Proof.
  induction rest as [|[lft rank] tail IH]; intros ranks keep Hs H4 Hq; [apply refines_ret|].
  pose proof Hs as Hs0. apply StronglySorted_inv in Hs as [Hs Hlt]. fold (sorted_group tail) in Hs.
  apply Forall_cons in H4 as [_ H4]. cbn [group_loop map all_pairs].
  eapply refines_bind; [apply refines_check|].
  change (item (lft, rank)).1.1 with lft. destruct (kept keep lft); cbn [negb].
  2:{ apply IH; [done|done|]. destruct Hq as [Q1 Q2 Q3 Q4]. split; [done|done| |].
      - intros r i Hi. destruct (Q3 r i Hi) as [[E|?]|Hx]; [|by left|right; intros; apply Hx; by right].
        simplify_eq. right. intros x Hx. rewrite List.Forall_forall in Hlt. apply Hlt. by apply in_map.
      - intros r i Hi. apply Q4. by right. }
  pose proof (clean_fronts _ _ _ _ _ Hs0 Hq) as Hf. set (rs := map (clean keep lft) ranks) in *.
  pose proof (opposing_lt rank) as (Ho1 & Ho2 & Hne).
  assert (NoDup (map index_of (map item tail))) as Hnd.
  { rewrite map_map. unfold index_of, item. cbn. clear -Hs. unfold sorted_group in Hs.
    induction tail as [|x l IHl]; [constructor|]. cbn [map] in *.
    apply StronglySorted_inv in Hs as [Hs Hx]. constructor; [|auto].
    intros Hin. rewrite List.Forall_forall in Hx. apply list_elem_of_In, Hx in Hin. lia. }
  rewrite duel_kill by done. rewrite <- (turn_exact keep lft rank tail rs Hf Hs H4).
  eapply refines_bind; [apply drain_rank_refines; by rewrite (f_len _ _ _ Hf)|].
  eapply refines_bind.
  { apply drain_rank_refines. rewrite length_insert. by rewrite (f_len _ _ _ Hf). }
  cbn [fst snd]. rewrite queue_insert by (by rewrite (f_len _ _ _ Hf)).
  fold (o1 rank) (o2 rank). rewrite (proj2 (Nat.eqb_neq (o2 rank) (o1 rank))) by congruence.
  fold (front rank rs (o1 rank)) (front rank rs (o2 rank)). fold (first_better rank rs).
  pose proof (drained_ok keep lft rank tail rs Hf) as Hd. unfold drained in Hd.
  assert (kill_all keep (turn_kills lft rank rs) =
    match first_better rank rs with
    | Some _ => kill (kill_all (kill_all keep (killed rank rs (o1 rank))) (killed rank rs (o2 rank))) lft
    | None => kill_all (kill_all keep (killed rank rs (o1 rank))) (killed rank rs (o2 rank))
    end) as Hk.
  { unfold turn_kills. rewrite !kill_all_app. by destruct (first_better rank rs). }
  unfold killed in Hk. rewrite <- Hk. by apply IH.
Qed.
End group.

(** ** Grouping *)

Definition groups_ok (groups : list (OffsetSpan * Group)) (l : list Item) : Prop :=
  NoDup (map fst groups) /\
  (forall s g, In (s, g) groups -> map (item s) g = of_span s l) /\
  (forall x, In x l -> In x.2 (map fst groups)).

Lemma of_span_app s l1 l2 : of_span s (l1 ++ l2) = of_span s l1 ++ of_span s l2.
Proof. apply List.filter_app. Qed.

Lemma group_push_keys s x groups :
  map fst (group_push s x groups) = if existsb (fun k => same_span k s) (map fst groups)
    then map fst groups else map fst groups ++ [s].
Proof.
  induction groups as [|[k g] rest IH]; simpl; [done|].
  destruct (same_span k s); simpl; [done|]. rewrite IH. by destruct (existsb _ _).
Qed.

Lemma group_push_in s x groups k g :
  NoDup (map fst groups) -> In (k, g) (group_push s x groups) ->
  (k <> s /\ In (k, g) groups) \/
  (k = s /\ ((exists g', In (s, g') groups /\ g = g' ++ [x]) \/ (~ In s (map fst groups) /\ g = [x]))).
Proof.
  induction groups as [|[k' g'] rest IH]; simpl; intros Hnd.
  - intros [E|[]]. simplify_eq. right. split; [done|]. right. auto.
  - apply NoDup_cons in Hnd as [Hk Hnd]. destruct (same_span k' s) eqn:E; simpl.
    + apply same_span_iff in E as ->. intros [E|H].
      * simplify_eq. right. split; [done|]. left. exists g'. auto.
      * left. split; [|auto]. intros ->. apply Hk. apply list_elem_of_In, in_map_iff. by exists (s, g).
    + apply bool_decide_eq_false in E. intros [E'|H]; [simplify_eq; left; auto|].
      destruct (IH Hnd H) as [[? ?]|[-> [(g'' & ? & ->)|[Hn ->]]]]; [by left; auto| |].
      * right. split; [done|]. left. eauto.
      * right. split; [done|]. right. split; [|done]. intros [?|?]; done.
Qed.

Lemma group_push_ok s x groups l :
  groups_ok groups l -> groups_ok (group_push s x groups) (l ++ [item s x]).
Proof.
  intros (Hnd & Hg & Hin). split_and!.
  - rewrite group_push_keys. destruct (existsb _ _) eqn:E; [done|].
    apply NoDup_app. split; [done|]. split; [|apply NoDup_singleton].
    intros k Hk Hks. apply list_elem_of_singleton in Hks as ->.
    apply not_true_iff_false in E. apply E, existsb_exists. exists s.
    split; [by apply list_elem_of_In|by apply same_span_iff].
  - intros k g H. rewrite of_span_app. simpl.
    apply group_push_in in H as [[Hne H]|[-> H]]; [| |done].
    + rewrite (Hg _ _ H). unfold same_span. rewrite bool_decide_eq_false_2 by congruence.
      by rewrite app_nil_r.
    + unfold same_span. rewrite bool_decide_eq_true_2 by done.
      destruct H as [(g' & H & ->)|[Hn ->]].
      * by rewrite map_app, (Hg _ _ H).
      * assert (of_span s l = []) as ->; [|done]. apply filter_all_false. intros y Hy.
        apply bool_decide_eq_false. intros Hys. apply Hn. rewrite <- Hys. by apply Hin.
  - intros y Hy. rewrite group_push_keys. destruct (existsb _ _) eqn:E.
    + apply in_app_iff in Hy as [Hy|[<-|[]]]; [auto|]. simpl.
      apply existsb_exists in E as (k & Hk & E). apply same_span_iff in E as ->. done.
    + apply in_app_iff. apply in_app_iff in Hy as [Hy|[<-|[]]]; [auto|]. right. by left.
Qed.

Lemma collect_refines control entries : forall index groups l,
  groups_ok groups l ->
  exists groups', refines control (collect control entries index groups) groups' /\
    groups_ok groups' (l ++ items index entries).
Proof.
  induction entries as [|[rule span] rest IH]; intros index groups l Hok; simpl.
  { exists groups. rewrite app_nil_r. split; [apply refines_ret|done]. }
  assert (Hstep : forall groups l', groups_ok groups l' -> exists groups',
    refines control (check control ;;! collect control rest (S index) groups) groups' /\
    groups_ok groups' (l' ++ items (S index) rest)).
  { intros g l' H. destruct (IH (S index) g l' H) as (g' & H1 & H2). exists g'. split; [|done].
    eapply refines_bind; [apply refines_check|done]. }
  destruct (catalog rule) as [c|]; [|by apply Hstep]. destruct (visible rule); [|by apply Hstep].
  rewrite (cons_middle _ l), app_assoc.
  apply Hstep. exact (group_push_ok span (index, rank_of rule c) groups l Hok).
Qed.

Lemma rank_of_lt r c : c < 2 -> rank_of r c < 4.
Proof. intros H. unfold rank_of. destruct (validation r); lia. Qed.

Lemma catalog_lt r c : catalog r = Some c -> c < 2.
Proof. unfold catalog. repeat case_match; intros; simplify_eq; lia. Qed.

Lemma items_spec entries : forall index,
  StronglySorted lt (map index_of (items index entries)) /\
  Forall (fun x => index <= index_of x < index + length entries /\ x.1.2 < 4) (items index entries).
Proof.
  induction entries as [|[rule span] rest IH]; intros index; simpl; [split; constructor|].
  destruct (IH (S index)) as [IH1 IH2].
  assert (Forall (fun x => index <= index_of x < index + S (length rest) /\ x.1.2 < 4)
    (items (S index) rest)) as IH3.
  { eapply Forall_impl; [exact IH2|]. intros x. simpl. lia. }
  destruct (catalog rule) as [c|] eqn:E; [|done]. destruct (visible rule); [|done]. simpl.
  split; constructor; try done.
  - apply List.Forall_forall. intros i Hi. apply in_map_iff in Hi as (x & <- & Hx).
    rewrite List.Forall_forall in IH2. specialize (IH2 x Hx). unfold index_of in *. simpl. lia.
  - unfold index_of. simpl. pose proof (rank_of_lt rule c (catalog_lt _ _ E)). lia.
Qed.

Lemma sorted_filter_map {A} (f : A -> nat) (p : A -> bool) l :
  StronglySorted lt (map f l) -> StronglySorted lt (map f (List.filter p l)).
Proof.
  induction l as [|x l IH]; simpl; intros H; [constructor|].
  apply StronglySorted_inv in H as [H Hx]. destruct (p x); [|auto]. simpl.
  constructor; [auto|]. rewrite List.Forall_forall in *. intros i Hi.
  apply in_map_iff in Hi as (y & <- & Hy). apply filter_In in Hy as [Hy _]. apply Hx. by apply in_map.
Qed.

(** A group starts with full queues. *)
Lemma rank_queues_ok keep g :
  sorted_group g -> Forall (fun x => x.2 < 4) g -> queues_ok keep g (rank_queues g).
Proof.
  intros Hs H4.
  assert (Hq : forall r, queue (rank_queues g) r = map fst (List.filter (fun x => Nat.eqb x.2 r) g)).
  { intros r. destruct (decide (r < 4)) as [Hr|Hr].
    - destruct r as [|[|[|[|r]]]]; [done|done|done|done|lia].
    - unfold queue. rewrite nth_overflow by (simpl; lia).
      rewrite (filter_all_false (fun x => Nat.eqb x.2 r)); [done|].
      intros x Hx. rewrite List.Forall_forall in H4. specialize (H4 x Hx). apply Nat.eqb_neq. lia. }
  split; [done| | |]; intros r; rewrite Hq.
  - by apply sorted_filter_map.
  - intros i Hi. left. apply in_map_iff in Hi as ([j r'] & <- & Hi).
    apply filter_In in Hi as [Hi E]. simpl in E. tobool. by subst.
  - intros i Hi _. apply in_map_iff. exists (i, r). split; [done|]. apply filter_In.
    split; [done|]. simpl. apply Nat.eqb_refl.
Qed.

(** ** The groups together *)

Definition groups_result (groups : list (OffsetSpan * Group)) (keep : list bool) : list bool :=
  fold_left (fun keep '(s, g) => all_pairs keep (map (item s) g)) groups keep.

Section together.
Context (l : list Item) (Hl : NoDup (map index_of l)).

Lemma groups_result_kept groups : forall keep x,
  NoDup (map fst groups) -> (forall s g, In (s, g) groups -> map (item s) g = of_span s l) ->
  In x l ->
  kept (groups_result groups keep) (index_of x) =
  if existsb (fun k => same_span k x.2) (map fst groups)
  then kept (all_pairs keep (of_span x.2 l)) (index_of x) else kept keep (index_of x).
Proof.
  induction groups as [|[s g] rest IH]; intros keep x Hnd Hg Hx; [done|].
  cbn [groups_result fold_left map fst existsb]. fold (groups_result rest).
  apply NoDup_cons in Hnd as [Hs Hnd].
  change (fold_left _ rest ?k) with (groups_result rest k).
  rewrite IH by (try done; intros; apply Hg; by right).
  rewrite (Hg s g (or_introl eq_refl)).
  destruct (same_span s x.2) eqn:E; simpl.
  - apply same_span_iff in E as ->.
    replace (existsb _ (map fst rest)) with false; [done|]. symmetry. apply not_true_iff_false.
    intros Hx'. apply existsb_exists in Hx' as (k & Hk & E). apply same_span_iff in E as ->.
    apply Hs. by apply list_elem_of_In.
  - apply bool_decide_eq_false in E.
    assert (Hag : forall y, In y l -> y.2 = x.2 ->
      kept (all_pairs keep (of_span s l)) (index_of y) = kept keep (index_of y)).
    { intros y Hy Hys. apply all_pairs_untouched. intros z Hz Hzi. apply in_of_span in Hz as [Hz Hzs].
      rewrite (index_inj l z y) in Hzs by done. congruence. }
    destruct (existsb _ (map fst rest)); [|by apply Hag].
    rewrite <- (all_pairs_span x.2 l keep keep Hl) by done.
    rewrite <- (all_pairs_span x.2 l keep (all_pairs keep (of_span s l)) Hl); try done.
    intros y Hy Hys. symmetry. by apply Hag.
Qed.

Lemma groups_result_untouched groups i : forall keep,
  (forall s g, In (s, g) groups -> map (item s) g = of_span s l) ->
  (forall x, In x l -> index_of x <> i) -> kept (groups_result groups keep) i = kept keep i.
Proof.
  induction groups as [|[s g] rest IH]; intros keep Hg Hi; [done|].
  cbn [groups_result fold_left]. change (fold_left _ rest ?k) with (groups_result rest k).
  rewrite IH by (try done; intros; apply Hg; by right).
  apply all_pairs_untouched. intros z Hz. rewrite (Hg s g (or_introl eq_refl)) in Hz.
  apply in_of_span in Hz as [Hz _]. by apply Hi.
Qed.

Lemma length_groups_result groups : forall keep, length (groups_result groups keep) = length keep.
Proof.
  induction groups as [|[s g] rest IH]; intros keep; [done|].
  cbn [groups_result fold_left]. change (fold_left _ rest ?k) with (groups_result rest k).
  by rewrite IH, length_all_pairs.
Qed.

Lemma groups_result_all_pairs groups keep :
  groups_ok groups l -> groups_result groups keep = all_pairs keep l.
Proof.
  intros (Hnd & Hg & Hin). apply keep_ext; [by rewrite length_groups_result, length_all_pairs|].
  intros i. destruct (decide (i ∈ map index_of l)) as [Hi|Hi].
  - apply list_elem_of_In, in_map_iff in Hi as (x & <- & Hx).
    rewrite groups_result_kept by done.
    replace (existsb _ _) with true.
    2:{ symmetry. apply existsb_exists. exists x.2. split; [by apply Hin|by apply same_span_iff]. }
    symmetry. by apply all_pairs_span.
  - assert (forall x, In x l -> index_of x <> i) as Hne.
    { intros x Hx <-. apply Hi. apply list_elem_of_In. by apply in_map. }
    rewrite groups_result_untouched by done. symmetry. by apply all_pairs_untouched.
Qed.
End together.

Lemma groups_ok_perm g1 g2 l : g1 ≡ₚ g2 -> groups_ok g2 l -> groups_ok g1 l.
Proof.
  intros Hp (Hnd & Hg & Hin). split_and!.
  - by rewrite Hp.
  - intros s g H. apply Hg. apply list_elem_of_In. rewrite <- Hp. by apply list_elem_of_In.
  - intros x Hx. apply list_elem_of_In. rewrite Hp. apply list_elem_of_In. by apply Hin.
Qed.

Lemma groups_loop_refines control groups : forall keep,
  (forall s g, In (s, g) groups -> sorted_group g /\ Forall (fun x => x.2 < 4) g) ->
  refines control (groups_loop control groups keep) (groups_result groups keep).
Proof.
  induction groups as [|[s g] rest IH]; intros keep H; [apply refines_ret|].
  destruct (H s g (or_introl eq_refl)) as [Hs H4]. simpl.
  eapply refines_bind; [apply (group_loop_refines s); [done|done|by apply rank_queues_ok]|].
  apply IH. intros s0 g0 H0. apply (H s0 g0). by right.
Qed.

(** ** Properties *)

Lemma catalog_keep_refines iter control entries :
  (forall groups, iter groups ≡ₚ groups) ->
  refines control (catalog_keep iter control entries)
    (all_pairs (replicate (length entries) true) (items 0 entries)).
Proof.
  intros Hiter. unfold catalog_keep.
  destruct (collect_refines control entries 0 [] []) as (groups & Hc & Hok).
  { split_and!; [constructor|done|done]. }
  eapply refines_bind; [exact Hc|]. simpl in Hok.
  destruct (items_spec entries 0) as [Hs Hr].
  assert (Hnd : NoDup (map index_of (items 0 entries))).
  { clear -Hs. induction Hs as [|i l Hs IH Hi]; constructor; [|done].
    intros H%list_elem_of_In. rewrite List.Forall_forall in Hi. specialize (Hi _ H). lia. }
  pose proof (groups_ok_perm _ _ _ (Hiter groups) Hok) as Hok'.
  rewrite <- (groups_result_all_pairs _ Hnd _ _ Hok'). apply groups_loop_refines.
  intros s g Hg. destruct Hok' as (_ & Hg' & _). specialize (Hg' s g Hg).
  assert (map fst g = map index_of (of_span s (items 0 entries))) as Hidx.
  { rewrite <- Hg', map_map. done. }
  split.
  - unfold sorted_group. rewrite Hidx. by apply sorted_filter_map.
  - apply List.Forall_forall. intros x Hx. rewrite List.Forall_forall in Hr.
    assert (In (item s x) (of_span s (items 0 entries))) as Hin by (rewrite <- Hg'; by apply in_map).
    apply in_of_span in Hin as [Hin _]. by apply Hr in Hin as [_ ?].
Qed.

(** C4. The queue-based elimination is the ordered all-pairs elimination: for any
    order in which the hash map yields its groups, the flags are those of the
    oracle that lets every surviving Veles or Betterleaks match in turn meet all
    later matches of the other catalog on its span, where the better-ranked one
    eliminates the other and a beaten left match stops. *)
Theorem catalog_keep_all_pairs iter control entries :
  (forall groups, iter groups ≡ₚ groups) ->
  refines control (catalog_keep iter control entries)
    (all_pairs (replicate (length entries) true) (items 0 entries)).
Proof. apply catalog_keep_refines. Qed.

Definition cat_rule (name : bytes) (v : option Validation) : Rule :=
  {| id := name; visible := true; specificity := 0; validation := v; depends_on_rule := [];
     runtime_minimum_confidence := Medium; runtime_dependency_helper := false |}.
Definition cat_example : list (Rule * OffsetSpan) :=
  [ (cat_rule (bs "veles.a") None, {| start := 0; end_ := 4 |});
    (cat_rule (bs "betterleaks.b") None, {| start := 0; end_ := 4 |});
    (cat_rule (bs "veles.c") (Some Http), {| start := 0; end_ := 4 |});
    (cat_rule (bs "acme.d") None, {| start := 0; end_ := 4 |});
    (cat_rule (bs "betterleaks.e") None, {| start := 2; end_ := 4 |}) ].

Lemma catalog_keep_all_pairs_witness :
  expect [] (catalog_keep (@rev _) control_default cat_example) (fun _ => {| is_cancelled := false; now := 0 |})
  = [false; false; true; true; true].
Proof.
  rewrite (refines_expect [] (all_pairs (replicate 5 true) (items 0 cat_example))).
  - vm_compute. reflexivity.
  - apply (catalog_keep_all_pairs (@rev _) control_default cat_example).
    intros groups. symmetry. apply Permutation_rev.
Defined.
