(* ===== verification/Specificity.v ===== *)
(** * Specificity precedence: [specificity_keep] of
      [kingfisher-scanner/src/postprocess.rs]

    On one source line a more specific credential suppresses a different rule
    whose value it contains; helpers act through the visible matches that own
    them. The code computes owners by breadth-first searches, counts the causes
    of every match, and resolves the matches with a work list. It is shown to
    compute the least labelling of the declarative rules: a match survives when
    all its causes are suppressed, and is suppressed when one of them survives. *)

From Stdlib Require Import ZArith Lia Bool ZifyNat Relations.
From stdpp Require Import base list numbers option gmap.
From S2P Require Import Prelude Control Rule.

Definition Entry : Type := Rule * nat * bytes.
Definition e_rule (e : Entry) : Rule := e.1.1.
Definition e_line (e : Entry) : nat := e.1.2.
Definition e_secret (e : Entry) : bytes := e.2.

Record SpecificityOutcome := { keep : list bool; suppress_reporting : list bool }.

(** [v[i].push(x)] and [v[i]] on vectors of vectors. *)
Definition row {A} (v : list (list A)) (i : nat) : list A := nth i v [].
Definition push_at {A} (i : nat) (x : A) (v : list (list A)) : list (list A) :=
  <[i := row v i ++ [x]]> v.

Definition mem (i : nat) (l : list nat) : bool := existsb (Nat.eqb i) l.
(** [FxHashSet::insert] and [extend], on a duplicate-free list. *)
Definition set_add (s : list nat) (i : nat) : list nat := if mem i s then s else s ++ [i].
Definition set_extend (s l : list nat) : list nat := fold_left set_add l s.

(** [indexes.sort_by_key(|&i| Reverse(specificity))]: a stable sort. *)
Fixpoint insert_desc (key : nat -> Z) (x : nat) (l : list nat) : list nat :=
  match l with
  | [] => [x]
  | y :: r => if (key y <=? key x)%Z then x :: l else y :: insert_desc key x r
  end.
Fixpoint sort_desc (key : nat -> Z) (l : list nat) : list nat :=
  match l with [] => [] | x :: r => insert_desc key x (sort_desc key r) end.

(** [lines.entry(line).or_default().push(index)] *)
Fixpoint line_push (line index : nat) (lines : list (nat * list nat)) : list (nat * list nat) :=
  match lines with
  | [] => [(line, [index])]
  | (k, v) :: rest =>
    if Nat.eqb k line then (k, v ++ [index]) :: rest else (k, v) :: line_push line index rest
  end.

(** [by_rule.entry(rule.id()).or_default().push(index)] *)
Definition rule_push (m : gmap bytes (list nat)) (x : nat * Entry) : gmap bytes (list nat) :=
  let k := id (e_rule x.2) in <[k := default [] (m !! k) ++ [x.1]]> m.

Section keep.
Variable entries : list Entry.
Variable component_attached : nat -> nat -> DependsOnRule -> bool.
Variable control : ScanControl.
(** The iteration order of the hash map of lines. *)
Variable iter : list (nat * list nat) -> list (nat * list nat).

Definition n_entries : nat := length entries.
Definition indexed : list (nat * Entry) := enumerate entries.

Definition rule_at (i : nat) : option Rule := e_rule <$> entries !! i.
Definition visible_at (i : nat) : bool :=
  match rule_at i with Some r => visible r | None => false end.
Definition specificity_at (i : nat) : Z :=
  match rule_at i with Some r => specificity r | None => 0%Z end.
Definition id_at (i : nat) : bytes := match rule_at i with Some r => id r | None => [] end.
Definition value_at (i : nat) : bytes := default [] (e_secret <$> entries !! i).
Definition line_at (i : nat) : nat := default 0 (e_line <$> entries !! i).

(** *** Components *)

Definition by_rule : gmap bytes (list nat) := fold_left rule_push indexed ∅.

Definition components_loop : Ctl (list (list nat)) :=
  for_each indexed (fun '(primary, e) components =>
    check control ;;!
    for_each (dependencies (e_rule e)) (fun dependency components =>
      for_each (default [] (by_rule !! dep_rule_id dependency)) (fun component components =>
        check control ;;!
        ret (if component_attached primary component dependency
             then push_at primary component components else components))
      components) components)
    (replicate n_entries []).

(** *** Owners *)

(** [visited] holds owners; [usize::MAX], which is no owner, is [None]. *)
Record Search := { owners : list (list nat); visited : list (option nat); primaries : list nat }.

Definition visit_component (owner component : nat) (s : Search) : Search :=
  if bool_decide (nth component (visited s) None = Some owner) then s
  else {| owners := push_at component owner (owners s);
          visited := <[component := Some owner]> (visited s);
          primaries := primaries s ++ [component] |}.

(** Every entry is queued at most once per owner, so [n_entries] rounds drain
    the queue. *)
Fixpoint search_loop (components : list (list nat)) (owner : nat) (fuel : nat) (s : Search) :
    Ctl Search :=
  match fuel, primaries s with
  | S fuel, primary :: q =>
    check control ;;!
    search_loop components owner fuel
      (fold_left (fun s c => visit_component owner c s) (row components primary)
        {| owners := owners s; visited := visited s; primaries := q |})
  | _, _ => ret s
  end.

Definition owners_loop (components : list (list nat)) : Ctl Search :=
  for_each indexed (fun '(owner, e) s =>
    if negb (visible (e_rule e)) || Nat.eqb (length (row components owner)) 0 then ret s
    else search_loop components owner n_entries
      {| owners := owners s; visited := <[owner := Some owner]> (visited s);
         primaries := primaries s ++ [owner] |})
    {| owners := replicate n_entries []; visited := replicate n_entries None; primaries := [] |}.

(** *** Causes *)

Definition lines_loop : Ctl (list (nat * list nat)) :=
  for_each indexed (fun '(index, e) lines =>
    check control ;;! ret (line_push (e_line e) index lines)) [].

(** [for &higher in &indexes[..position]], with its [break] and [continue]. *)
Fixpoint causes_loop (owners : list (list nat)) (index : nat) (higher : list nat)
    (causes : list nat) : Ctl (list nat) :=
  match higher with
  | [] => ret causes
  | h :: rest =>
    check control ;;!
    (if (specificity_at h <=? specificity_at index)%Z then ret causes
     else if bytes_eqb (id_at h) (id_at index) || negb (contains_sub (value_at index) (value_at h))
     then causes_loop owners index rest causes
     else
       let causes := if visible_at h then set_add causes h else causes in
       causes_loop owners index rest
         (if negb (mem index (row owners h)) then set_extend causes (row owners h) else causes))
  end.

Definition Pending : Type := list (list nat) * list nat.

Fixpoint line_loop (owners : list (list nat)) (before after : list nat) (st : Pending) : Ctl Pending :=
  match after with
  | [] => ret st
  | index :: rest =>
    check control ;;!
    (if Nat.eqb (length (value_at index)) 0 || negb (visible_at index)
     then line_loop owners (before ++ [index]) rest st
     else
       let! causes := causes_loop owners index before [] in
       line_loop owners (before ++ [index]) rest
         (fold_left (fun d cause => push_at cause index d) causes st.1,
          <[index := length causes]> st.2))
  end.

Definition pending_loop (owners : list (list nat)) (lines : list (nat * list nat)) : Ctl Pending :=
  for_each lines (fun '(_, indexes) st =>
    line_loop owners [] (sort_desc specificity_at indexes) st)
    (replicate n_entries [], replicate n_entries 0).

(** *** Resolution *)

Record Work := { reported : list (option bool); remaining : list nat; queue : list nat }.

Definition start_work (remaining : list nat) : Work :=
  fold_left (fun w '(index, e) =>
    if visible (e_rule e) && Nat.eqb (nth index remaining 0) 0
    then {| reported := <[index := Some true]> (reported w); remaining := remaining;
            queue := queue w ++ [index] |}
    else w) indexed
    {| reported := replicate n_entries None; remaining := remaining; queue := [] |}.

Definition resolve (survives : bool) (dependent : nat) (w : Work) : Work :=
  match nth dependent (reported w) None with
  | Some _ => w
  | None =>
    if survives then
      {| reported := <[dependent := Some false]> (reported w); remaining := remaining w;
         queue := queue w ++ [dependent] |}
    else
      let r := nth dependent (remaining w) 0 - 1 in
      let remaining' := <[dependent := r]> (remaining w) in
      if Nat.eqb r 0 then
        {| reported := <[dependent := Some true]> (reported w); remaining := remaining';
           queue := queue w ++ [dependent] |}
      else {| reported := reported w; remaining := remaining'; queue := queue w |}
  end.

(** Every entry is queued at most once. *)
Fixpoint work_loop (dependents : list (list nat)) (fuel : nat) (w : Work) : Ctl Work :=
  match fuel, queue w with
  | S fuel, primary :: q =>
    check control ;;!
    (let survives := default false (nth primary (reported w) None) in
     let! w := for_each (row dependents primary) (fun dependent w =>
         check control ;;! ret (resolve survives dependent w))
       {| reported := reported w; remaining := remaining w; queue := q |} in
     work_loop dependents fuel w)
  | _, _ => ret w
  end.

Definition outcome (owners : list (list nat)) (reported : list (option bool)) : SpecificityOutcome :=
  let suppressed_at i := match nth i reported None with Some false => true | _ => false end in
  {| keep := map (fun i => negb (suppressed_at i && Nat.eqb (length (row owners i)) 0)) (seq 0 n_entries);
     suppress_reporting :=
       map (fun i => suppressed_at i && negb (Nat.eqb (length (row owners i)) 0)) (seq 0 n_entries) |}.

Definition specificity_keep : Ctl SpecificityOutcome :=
  if forallb (fun e => Z.eqb (specificity (e_rule e)) 0) entries
  then ret {| keep := replicate n_entries true; suppress_reporting := replicate n_entries false |}
  else
    let! components := components_loop in
    let! s := owners_loop components in
    let! lines := lines_loop in
    let! pending := pending_loop (owners s) (iter lines) in
    let! w := work_loop pending.1 n_entries (start_work pending.2) in
    ret (outcome (owners s) (reported w)).
End keep.

(** ** Vectors *)

Section rows.
Context {A : Type}.
Implicit Types v : list (list A).

Lemma row_insert v i j l : i < length v -> row (<[i := l]> v) j = if Nat.eqb j i then l else row v j.
Proof. intros H. unfold row. by apply nth_insert. Qed.

Lemma row_push_at v i j x : i < length v -> row (push_at i x v) j = if Nat.eqb j i then row v i ++ [x] else row v j.
Proof. apply row_insert. Qed.

Lemma length_push_at v i x : length (push_at i x v) = length v.
Proof. apply length_insert. Qed.

Lemma row_insert_same v i : <[i := row v i]> v = v.
Proof. apply insert_nth. Qed.

(** Pushing the selected elements one by one. *)
Lemma fold_push_at (f : A -> bool) i l : forall v,
  fold_left (fun v x => if f x then push_at i x v else v) l v =
  <[i := row v i ++ List.filter f l]> v.
Proof.
  induction l as [|x l IH]; intros v; simpl; [by rewrite app_nil_r, row_insert_same|].
  rewrite IH. destruct (f x); [|done]. destruct (decide (i < length v)).
  - rewrite row_push_at, Nat.eqb_refl by done. unfold push_at. rewrite insert_twice.
    by rewrite <- app_assoc.
  - unfold push_at. by rewrite !list_insert_ge by (rewrite ?length_insert; lia).
Qed.

Lemma row_replicate n i : row (replicate n ([] : list A)) i = [].
Proof.
  unfold row. rewrite nth_lookup. destruct (_ !! i) eqn:E; [|done].
  by apply lookup_replicate in E as [-> _].
Qed.
End rows.

(** ** The declarative rules *)

Section spec.
Variable entries : list Entry.
Variable component_attached : nat -> nat -> DependsOnRule -> bool.

Let n := length entries.
Let visible_at := visible_at entries.
Let specificity_at := specificity_at entries.
Let id_at := id_at entries.
Let value_at := value_at entries.
Let line_at := line_at entries.

(** [c] is attached to [p] through one of its dependencies. *)
Definition attached (p c : nat) : Prop :=
  p < n /\ c < n /\ exists r dep, rule_at entries p = Some r /\ In dep (dependencies r) /\
    id_at c = dep_rule_id dep /\ component_attached p c dep = true.

(** A visible match owns the other matches its dependency chains reach. *)
Definition owns (o c : nat) : Prop :=
  visible_at o = true /\ o <> c /\ clos_trans nat attached o c.

(** What may suppress [i]: a more specific match of another rule on its line
    that contains its value, itself when visible, and its owners unless [i] is
    one of them. *)
Definition cause (i c : nat) : Prop :=
  visible_at i = true /\ value_at i <> [] /\
  exists h, h < n /\ line_at h = line_at i /\ (specificity_at i < specificity_at h)%Z /\
    id_at h <> id_at i /\ contains_sub (value_at i) (value_at h) = true /\
    ((visible_at h = true /\ c = h) \/ (owns c h /\ ~ owns i h)).

(** The least labelling: survives when every cause is suppressed, suppressed
    when a cause survives. *)
Inductive label : nat -> bool -> Prop :=
| label_survives i : i < n -> visible_at i = true ->
    (forall c, cause i c -> label c false) -> label i true
| label_suppressed i c : cause i c -> label c true -> label i false.

(** No match is labelled both ways. *)
Lemma label_consistent i b : label i b -> forall b', label i b' -> b' = b.
Proof.
  induction 1 as [i Hi Hv Hc IH|i c Hc Hl IH]; intros b' Hb'.
  - inversion Hb' as [|? c Hcc Hl]; subst; [done|]. by specialize (IH c Hcc true Hl).
  - inversion Hb' as [? _ _ Hcs|]; subst; [|done]. by specialize (IH false (Hcs c Hc)).
Qed.
End spec.

(** ** Components *)

Lemma in_indexed entries i e : In (i, e) (indexed entries) <-> entries !! i = Some e.
Proof. apply in_enumerate. Qed.

Lemma by_rule_spec entries k c :
  In c (default [] (by_rule entries !! k)) <-> c < length entries /\ id_at entries c = k.
Proof.
  unfold by_rule.
  assert (H : forall l m, In c (default [] (fold_left rule_push l m !! k)) <->
    In c (default [] (m !! k)) \/ exists e, In (c, e) l /\ id (e_rule e) = k).
  { induction l as [|[i e] l IH]; intros m; simpl.
    - split; [auto|]. intros [?|(e & [] & _)]. done.
    - rewrite IH. unfold rule_push. simpl. destruct (decide (id (e_rule e) = k)) as [<-|Hne].
      + rewrite lookup_insert_eq. simpl. rewrite in_app_iff. simpl. split.
        * intros [[?|[<-|[]]]|(x & ? & ?)]; eauto 10.
        * intros [?|(x & [E|?] & ?)]; simplify_eq; eauto 10.
      + rewrite lookup_insert_ne by done. split.
        * intros [?|(x & ? & ?)]; eauto 10.
        * intros [?|(x & [E|?] & ?)]; simplify_eq; eauto 10. }
  rewrite H, lookup_empty. simpl. split.
  - intros [[]|(e & He & <-)]. apply in_indexed in He. split; [by eapply lookup_lt_Some|].
    unfold id_at, rule_at. by rewrite He.
  - intros [Hc <-]. right. destruct (lookup_lt_is_Some_2 entries c Hc) as [e He].
    exists e. split; [by apply in_indexed|]. unfold id_at, rule_at. by rewrite He.
Qed.

Section components.
Context (entries : list Entry) (component_attached : nat -> nat -> DependsOnRule -> bool).
Context (control : ScanControl).

Definition component_row (p : nat) (e : Entry) : list nat :=
  flat_map (fun dep => List.filter (fun c => component_attached p c dep)
    (default [] (by_rule entries !! dep_rule_id dep))) (dependencies (e_rule e)).

Lemma fold_extend_row p (f : DependsOnRule -> list nat) ds : forall C,
  fold_left (fun C d => <[p := row C p ++ f d]> C) ds C = <[p := row C p ++ flat_map f ds]> C.
Proof.
  induction ds as [|d ds IH]; intros C; simpl; [by rewrite app_nil_r, row_insert_same|].
  rewrite IH. destruct (decide (p < length C)).
  - rewrite row_insert, Nat.eqb_refl, insert_twice by done. by rewrite app_assoc.
  - by rewrite !list_insert_ge by (rewrite ?length_insert; lia).
Qed.

Lemma fold_rows es : forall k C,
  k + length es <= length C -> (forall i, k <= i -> row C i = []) ->
  let C' := fold_left (fun C '(p, e) => <[p := row C p ++ component_row p e]> C)
              (enumerate_from k es) C in
  length C' = length C /\
  forall i, row C' i = if i <? k then row C i else
    match es !! (i - k) with Some e => component_row i e | None => [] end.
Proof.
  induction es as [|e es IH]; intros k C Hlen HC; simpl in *.
  { split; [done|]. intros i. destruct (i <? k) eqn:E; tobool; [done|]. by apply HC. }
  destruct (IH (S k) (<[k := row C k ++ component_row k e]> C)) as [H1 H2].
  - rewrite length_insert. lia.
  - intros i Hi. rewrite row_insert by lia. rewrite (proj2 (Nat.eqb_neq i k)) by lia. apply HC. lia.
  - rewrite length_insert in H1. split; [done|]. intros i. rewrite H2.
    destruct (decide (i = k)) as [->|Hne].
    + rewrite Nat.sub_diag, Nat.ltb_irrefl. rewrite (proj2 (Nat.ltb_lt k (S k))) by lia.
      rewrite row_insert, Nat.eqb_refl by lia. by rewrite HC.
    + destruct (i <? S k) eqn:E1, (i <? k) eqn:E2; tobool; try lia.
      * rewrite row_insert by lia. by rewrite (proj2 (Nat.eqb_neq i k)) by lia.
      * by replace (i - k) with (S (i - S k)) by lia.
Qed.

Definition components_of : list (list nat) :=
  fold_left (fun C '(p, e) => <[p := row C p ++ component_row p e]> C) (indexed entries)
    (replicate (length entries) []).

Lemma components_refines :
  refines control (components_loop entries component_attached control) components_of.
Proof.
  unfold components_loop, components_of, n_entries.
  apply refines_for_each. intros [p e] C _. eapply refines_bind; [apply refines_check|].
  unfold component_row. rewrite <- fold_extend_row.
  apply refines_for_each. intros dep C' _. rewrite <- fold_push_at.
  apply refines_for_each. intros c C'' _. eapply refines_bind; [apply refines_check|]. apply refines_ret.
Qed.

Lemma length_components : length components_of = length entries.
Proof.
  destruct (fold_rows entries 0 (replicate (length entries) [])) as [H _].
  - by rewrite length_replicate.
  - intros. apply row_replicate.
  - unfold components_of, indexed, enumerate. by rewrite H, length_replicate.
Qed.

Lemma in_components p c : In c (row components_of p) <-> attached entries component_attached p c.
Proof.
  destruct (fold_rows entries 0 (replicate (length entries) [])) as [_ H].
  { by rewrite length_replicate. } { intros. apply row_replicate. }
  unfold components_of, indexed, enumerate. cbv zeta in H. rewrite H, Nat.sub_0_r.
  replace (p <? 0) with false by done. unfold attached, rule_at.
  destruct (entries !! p) as [e|] eqn:E.
  - unfold component_row. rewrite in_flat_map. split.
    + intros (dep & Hd & Hc). apply filter_In in Hc as [Hc Ha]. apply by_rule_spec in Hc as [Hc Hid].
      split; [by eapply lookup_lt_Some|]. split; [done|]. exists (e_rule e), dep. by split_and!.
    + intros (_ & Hc & r & dep & Er & Hd & Hid & Ha). simplify_option_eq.
      exists dep. split; [done|]. apply filter_In. split; [|done]. by apply by_rule_spec.
  - split; [done|]. intros (Hp & _). apply lookup_ge_None in E. lia.
Qed.
End components.

(** ** Owners *)

Section owners.
Context (control : ScanControl) (C : list (list nat)) (n : nat).
Context (Hrange : forall p c, In c (row C p) -> p < n /\ c < n).

Definition edge (p c : nat) : Prop := In c (row C p).
Definition reaches : nat -> nat -> Prop := clos_trans nat edge.

Definition visit_all (owner : nat) (l : list nat) (s : Search) : Search :=
  fold_left (fun s c => visit_component owner c s) l s.

Fixpoint search (owner : nat) (fuel : nat) (s : Search) : Search :=
  match fuel, primaries s with
  | S fuel, p :: q =>
    search owner fuel (visit_all owner (row C p)
      {| owners := owners s; visited := visited s; primaries := q |})
  | _, _ => s
  end.

Lemma search_refines owner fuel : forall s,
  refines control (search_loop control C owner fuel s) (search owner fuel s).
Proof.
  induction fuel as [|fuel IH]; intros s; simpl; [apply refines_ret|].
  destruct (primaries s); [apply refines_ret|]. eapply refines_bind; [apply refines_check|apply IH].
Qed.

Section one.
Context (o : nat) (ow0 : list (list nat)).

Definition seen (s : Search) (c : nat) : Prop := nth c (visited s) None = Some o.

(** The state of the search of [o] after the matches [done] were expanded. *)
Record search_ok (done : list nat) (s : Search) : Prop := {
  so_vlen : length (visited s) = n;
  so_olen : length (owners s) = n;
  so_seen : forall c, seen s c <-> In c (done ++ primaries s);
  so_nodup : NoDup (done ++ primaries s);
  so_reach : forall c, seen s c -> c = o \/ reaches o c;
  so_stamp : forall c o', nth c (visited s) None = Some o' -> o' <= o;
  so_rows : forall c x, In x (row (owners s) c) <->
    In x (row ow0 c) \/ (x = o /\ seen s c /\ c <> o)
}.

Lemma visit_ok done c s :
  search_ok done s -> c < n -> (c = o \/ reaches o c) -> seen s o ->
  let s' := visit_component o c s in
  search_ok done s' /\ seen s' c /\ (forall x, seen s x -> seen s' x).
Proof.
  intros Hs Hc Hr Ho s'. subst s'. unfold visit_component.
  case_bool_decide as Hb; [split; [done|]; split; [exact Hb|auto]|].
  destruct Hs as [H1 H2 H3 H4 H5 H6 H7].
  assert (Hnth : forall x, nth x (<[c:=Some o]> (visited s)) None =
    if Nat.eqb x c then Some o else nth x (visited s) None) by (intros; apply nth_insert; lia).
  assert (Hne : c <> o) by (intros ->; done).
  split; [split|split]; unfold seen; cbn [visited owners primaries].
  - by rewrite length_insert.
  - by rewrite length_push_at.
  - intros x. rewrite Hnth, app_assoc, in_app_iff, <- H3. unfold seen. simpl.
    destruct (Nat.eqb x c) eqn:E; tobool; [subst; tauto|]. split; [auto|]. intros [?|[?|[]]]; congruence.
  - rewrite app_assoc. apply NoDup_app. split; [done|]. split; [|apply NoDup_singleton].
    intros x Hx Hxc. apply list_elem_of_singleton in Hxc as ->. apply Hb.
    apply H3. by apply list_elem_of_In.
  - intros x. rewrite Hnth. destruct (Nat.eqb x c) eqn:E; tobool; [subst; auto|apply H5].
  - intros x o'. rewrite Hnth. destruct (Nat.eqb x c); [intros [= <-]; lia|apply H6].
  - intros x y. rewrite row_push_at, Hnth by lia. destruct (Nat.eqb x c) eqn:E; tobool.
    + subst x. rewrite in_app_iff, H7. simpl. unfold seen in *. split.
      * intros [[?|(_ & ? & _)]|[<-|[]]]; [by left|done|by right].
      * intros [?|(-> & _)]; auto.
    + apply H7.
  - rewrite Hnth. by rewrite Nat.eqb_refl.
  - intros x Hx. rewrite Hnth. by destruct (Nat.eqb x c).
Qed.

Lemma visit_all_ok done l : forall s,
  search_ok done s -> seen s o -> (forall c, In c l -> c < n /\ reaches o c) ->
  let s' := visit_all o l s in
  search_ok done s' /\ (forall c, In c l -> seen s' c) /\ (forall x, seen s x -> seen s' x).
Proof.
  induction l as [|c l IH]; intros s Hs Ho Hl; [split; [done|]; split; [done|auto]|].
  destruct (Hl c (or_introl eq_refl)) as [Hc Hr].
  destruct (visit_ok done c s Hs Hc (or_intror Hr) Ho) as (H1 & H2 & H3).
  destruct (IH (visit_component o c s) H1 (H3 o Ho)) as (H4 & H5 & H6).
  { intros; apply Hl; by right. }
  split; [done|]. split; [intros x [<-|Hx]; [by apply H6|by apply H5]|auto].
Qed.

Lemma seen_lt done s c : search_ok done s -> seen s c -> c < n.
Proof.
  intros Hs Hc. destruct (decide (c < n)); [done|]. unfold seen in Hc.
  rewrite nth_overflow in Hc; [done|]. rewrite (so_vlen _ _ Hs). lia.
Qed.

(** The expanded matches and the queue are distinct indexes. *)
Lemma search_bound done s : search_ok done s -> length done + length (primaries s) <= n.
Proof.
  intros Hs. rewrite <- length_app.
  enough (length (done ++ primaries s) <= length (seq 0 n)) by (rewrite length_seq in *; lia).
  apply submseteq_length, NoDup_submseteq; [apply (so_nodup _ _ Hs)|].
  intros x Hx%list_elem_of_In. apply (so_seen _ _ Hs), (seen_lt _ _ _ Hs) in Hx.
  apply list_elem_of_In, in_seq. lia.
Qed.

Lemma bfs_exact fuel : forall done s,
  search_ok done s -> seen s o -> (forall p c, In p done -> edge p c -> seen s c) ->
  n <= length done + fuel ->
  let s' := search o fuel s in
  primaries s' = [] /\ search_ok (filter (fun c => nth c (visited s') None = Some o) (seq 0 n)) s' /\
  forall c, seen s' c <-> c = o \/ reaches o c.
Proof.
  assert (Hend : forall done s, search_ok done s -> seen s o ->
    (forall p c, In p done -> edge p c -> seen s c) -> primaries s = [] ->
    search_ok (filter (fun c => nth c (visited s) None = Some o) (seq 0 n)) s /\
    forall c, seen s c <-> c = o \/ reaches o c).
  { intros done s Hs Ho Hd Hp. split.
    - pose proof Hs as Hs0. destruct Hs as [H1 H2 H3 H4 H5 H6 H7]. split; try done.
      + intros c. rewrite Hp, app_nil_r. rewrite <- list_elem_of_In, list_elem_of_filter.
        rewrite list_elem_of_In, in_seq. split; [|by intros [? _]].
        intros Hc. split; [done|]. pose proof (seen_lt _ _ _ Hs0 Hc). lia.
      + rewrite Hp, app_nil_r. apply NoDup_filter, NoDup_ListNoDup, seq_NoDup.
    - intros c. split; [apply (so_reach _ _ Hs)|]. intros [->|Hc]; [done|].
      assert (Hstep : forall x y, edge x y -> seen s x -> seen s y).
      { intros x y Hxy Hx. apply (Hd x y); [|done].
        apply (so_seen _ _ Hs) in Hx. by rewrite Hp, app_nil_r in Hx. }
      induction Hc as [x y Hxy|x y z H1 IH1 H2 IH2]; [by eapply Hstep|auto]. }
  induction fuel as [|fuel IH]; intros done s Hs Ho Hd Hf.
  - pose proof (search_bound _ _ Hs). assert (primaries s = []) as Hp.
    { destruct (primaries s); [done|simpl in *; lia]. }
    cbn [search]. split; [done|]. by eapply Hend.
  - cbn [search]. destruct (primaries s) as [|p q] eqn:Ep; [split; [done|]; by eapply Hend|].
    set (s1 := {| owners := owners s; visited := visited s; primaries := q |}).
    assert (Hs1 : search_ok (done ++ [p]) s1).
    { destruct Hs as [H1 H2 H3 H4 H5 H6 H7]. rewrite Ep in *.
      split; try done; cbn [primaries s1]; rewrite <- app_assoc; [apply H3|done]. }
    assert (Hp : seen s p).
    { apply (so_seen _ _ Hs). rewrite Ep. apply in_app_iff. right. by left. }
    destruct (visit_all_ok (done ++ [p]) (row C p) s1 Hs1 Ho) as (H1 & H2 & H3).
    { intros c Hc. split; [by apply (Hrange p)|].
      destruct (so_reach _ _ Hs p Hp) as [->|Hr]; [by apply t_step|].
      eapply t_trans; [exact Hr|by apply t_step]. }
    apply (IH (done ++ [p])); [done|by apply H3| |rewrite length_app; simpl; lia].
    intros x c Hx Hxc. apply in_app_iff in Hx as [Hx|[<-|[]]]; [|by apply H2].
    apply H3. by apply (Hd x).
Qed.
End one.

(** All searches. *)
Context (entries : list Entry) (Hn : n = length entries) (HC : length C = n).

Definition owners_step (s : Search) (x : nat * Entry) : Search :=
  let '(owner, e) := x in
  if negb (visible (e_rule e)) || Nat.eqb (length (row C owner)) 0 then s
  else search owner n {| owners := owners s; visited := <[owner := Some owner]> (visited s);
                         primaries := primaries s ++ [owner] |}.

Definition all_owners : Search :=
  fold_left owners_step (indexed entries)
    {| owners := replicate n []; visited := replicate n None; primaries := [] |}.

Lemma owners_refines : refines control (owners_loop entries control C) all_owners.
Proof.
  unfold owners_loop, all_owners, n_entries. rewrite <- Hn. apply refines_for_each.
  intros [owner e] s _. unfold owners_step.
  destruct (_ || _); [apply refines_ret|apply search_refines].
Qed.

(** The state between searches. *)
Record between (k : nat) (s : Search) : Prop := {
  bt_vlen : length (visited s) = n;
  bt_olen : length (owners s) = n;
  bt_queue : primaries s = [];
  bt_stamp : forall c o, nth c (visited s) None = Some o -> o < k;
  bt_rows : forall c x, In x (row (owners s) c) <->
    x < k /\ visible_at entries x = true /\ x <> c /\ reaches x c
}.

Lemma reaches_edge o c : reaches o c -> exists c', edge o c'.
Proof. induction 1 as [x y H|x y z H1 IH1 H2 IH2]; [eauto|done]. Qed.

Lemma owners_step_ok k e s :
  entries !! k = Some e -> between k s -> between (S k) (owners_step s (k, e)).
Proof.
  intros He [H1 H2 H3 H4 H5]. pose proof (lookup_lt_Some _ _ _ He) as Hk.
  assert (Hv : visible_at entries k = visible (e_rule e)) by (unfold visible_at, rule_at; by rewrite He).
  assert (Hskip : (visible (e_rule e) = false \/ row C k = []) -> between (S k) s).
  { intros Hs. split; try done.
    - intros c o Ho. specialize (H4 c o Ho). lia.
    - intros c x. rewrite H5. split; [intros (? & ? & ? & ?); split_and!; auto; lia|].
      intros (Hx & Hvx & ? & Hr). split_and!; try done.
      destruct (decide (x = k)) as [->|]; [|lia]. exfalso.
      destruct Hs as [Hs|Hs]; [congruence|]. destruct (reaches_edge _ _ Hr) as [c' Hc'].
      unfold edge in Hc'. by rewrite Hs in Hc'. }
  unfold owners_step. destruct (negb (visible (e_rule e)) || _) eqn:E.
  { apply Hskip. apply orb_true_iff in E as [E|E]; tobool; [by left|right]. by apply nil_length_inv. }
  tobool. set (s0 := {| owners := owners s; visited := _; primaries := _ |}).
  assert (Hnth : forall x, nth x (visited s0) None = if Nat.eqb x k then Some k else nth x (visited s) None)
    by (intros; apply nth_insert; lia).
  assert (Hseen : forall c, seen k s0 c <-> c = k).
  { intros c. unfold seen. rewrite Hnth. destruct (Nat.eqb c k) eqn:Ec; tobool; [done|].
    split; [|done]. intros Hc. apply H4 in Hc. lia. }
  assert (Hok : search_ok k (owners s) [] s0).
  { split; [by unfold s0; cbn; rewrite length_insert|done| | | | |].
    - intros c. rewrite Hseen. unfold s0. cbn. rewrite H3. cbn. split; [auto|intros [?|[]]; done].
    - unfold s0. cbn. rewrite H3. apply NoDup_singleton.
    - intros c Hc. left. by apply Hseen.
    - intros c o. rewrite Hnth. destruct (Nat.eqb c k); [intros [= <-]; lia|]. intros Ho%H4. lia.
    - intros c x. rewrite Hseen. unfold s0. cbn. split; [auto|]. intros [?|(_ & ? & ?)]; done. }
  destruct (bfs_exact k (owners s) n [] s0 Hok) as (Hq & Hs' & Hr); [by apply Hseen|done|simpl; lia|].
  split; [apply (so_vlen _ _ _ _ Hs')|apply (so_olen _ _ _ _ Hs')|done| |].
  - intros c o Ho. apply (so_stamp _ _ _ _ Hs') in Ho. lia.
  - intros c x. rewrite (so_rows _ _ _ _ Hs'), H5, Hr. split.
    + intros [(? & ? & ? & ?)|(-> & [?|?] & ?)]; split_and!; auto; try lia; congruence.
    + intros (Hx & Hvx & Hne & Hrx). destruct (decide (x = k)) as [->|].
      * right. split_and!; auto.
      * left. split_and!; auto. lia.
Qed.

Lemma all_owners_ok : between n all_owners.
Proof.
  unfold all_owners, indexed, enumerate.
  assert (H : forall es k s, (forall i e, es !! i = Some e -> entries !! (k + i) = Some e) ->
    between k s -> between (k + length es) (fold_left owners_step (enumerate_from k es) s)).
  { induction es as [|e es IH]; intros k s He Hs; simpl; [by rewrite Nat.add_0_r|].
    replace (k + S (length es)) with (S k + length es) by lia. apply IH.
    - intros i x Hx. replace (S k + i) with (k + S i) by lia. by apply He.
    - apply owners_step_ok; [|done]. rewrite <- (Nat.add_0_r k). by apply He. }
  rewrite Hn at 1. rewrite <- (Nat.add_0_l (length entries)). apply H; [done|].
  split; cbn [owners visited primaries]; rewrite ?length_replicate; try done.
  - intros c o Ho. rewrite nth_lookup in Ho. destruct (_ !! c) eqn:E; [|done].
    apply lookup_replicate in E as [-> _]. done.
  - intros c x. rewrite row_replicate. split; [done|]. lia.
Qed.
End owners.

(** ** Lines *)

Section lines.
Context (entries : list Entry).

(** The groups hold the entries below [k], each line once. *)
Record lines_ok (k : nat) (lines : list (nat * list nat)) : Prop := {
  ln_keys : NoDup (map fst lines);
  ln_in : forall l v i, In (l, v) lines -> (In i v <-> i < k /\ line_at entries i = l);
  ln_nodup : forall l v, In (l, v) lines -> NoDup v;
  ln_all : forall i, i < k -> In (line_at entries i) (map fst lines)
}.

Lemma line_push_keys l i lines :
  map fst (line_push l i lines) =
  if mem l (map fst lines) then map fst lines else map fst lines ++ [l].
Proof.
  unfold mem. induction lines as [|[k v] rest IH]; simpl; [done|].
  rewrite (Nat.eqb_sym l k). destruct (Nat.eqb k l); simpl; [done|]. rewrite IH.
  by destruct (existsb _ _).
Qed.

Lemma mem_iff i l : mem i l = true <-> In i l.
Proof.
  unfold mem. rewrite existsb_exists. split.
  - intros (x & Hx & E). tobool. by subst.
  - intros H. exists i. split; [done|apply Nat.eqb_refl].
Qed.

Lemma line_push_in l i lines k v :
  NoDup (map fst lines) -> In (k, v) (line_push l i lines) ->
  (k <> l /\ In (k, v) lines) \/
  (k = l /\ ((exists v', In (l, v') lines /\ v = v' ++ [i]) \/ (~ In l (map fst lines) /\ v = [i]))).
Proof.
  induction lines as [|[k' v'] rest IH]; simpl; intros Hnd.
  - intros [E|[]]. simplify_eq. right. split; [done|]. right. auto.
  - apply NoDup_cons in Hnd as [Hk Hnd]. destruct (Nat.eqb k' l) eqn:E; simpl; tobool.
    + subst k'. intros [E|H].
      * simplify_eq. right. split; [done|]. left. exists v'. auto.
      * left. split; [|auto]. intros ->. apply Hk. apply list_elem_of_In, in_map_iff. by exists (l, v).
    + intros [E'|H]; [simplify_eq; left; auto|].
      destruct (IH Hnd H) as [[? ?]|[-> [(v'' & ? & ->)|[Hn ->]]]]; [by left; auto| |].
      * right. split; [done|]. left. eauto.
      * right. split; [done|]. right. split; [|done]. intros [?|?]; done.
Qed.

Lemma line_push_ok k e lines :
  entries !! k = Some e -> lines_ok k lines -> lines_ok (S k) (line_push (e_line e) k lines).
Proof.
  intros He [H1 H2 H3 H4].
  assert (Hk : line_at entries k = e_line e) by (unfold line_at; by rewrite He).
  split.
  - rewrite line_push_keys. destruct (mem _ _) eqn:E; [done|].
    apply NoDup_app. split; [done|]. split; [|apply NoDup_singleton].
    intros x Hx Hxl. apply list_elem_of_singleton in Hxl as ->.
    apply not_true_iff_false in E. apply E, mem_iff. by apply list_elem_of_In.
  - intros l v i H. apply line_push_in in H as [[Hne H]|[-> [(v' & H & ->)|[Hn ->]]]]; [| | |done].
    + rewrite (H2 l v i H). split; [intros [? ?]; split; [lia|done]|].
      intros [? <-]. split; [|done]. destruct (decide (i = k)) as [->|]; [congruence|lia].
    + rewrite in_app_iff, (H2 _ v' i H). simpl. split.
      * intros [[? ?]|[<-|[]]]; split; try done; lia.
      * intros [? <-]. destruct (decide (i = k)) as [->|]; [auto|]. left. split; [lia|done].
    + simpl. split; [intros [<-|[]]; split; [lia|done]|]. intros [? Hl].
      destruct (decide (i = k)) as [->|]; [auto|]. exfalso. apply Hn. rewrite <- Hl. apply H4. lia.
  - intros l v H. apply line_push_in in H as [[Hne H]|[-> [(v' & H & ->)|[Hn ->]]]]; [| | |done].
    + by eapply H3.
    + apply NoDup_app. split; [by eapply H3|]. split; [|apply NoDup_singleton].
      intros x Hx Hxl. apply list_elem_of_singleton in Hxl as ->.
      apply list_elem_of_In in Hx. apply (H2 _ _ _ H) in Hx. lia.
    + apply NoDup_singleton.
  - intros i Hi. rewrite line_push_keys. destruct (mem _ _) eqn:E.
    + destruct (decide (i = k)) as [->|]; [rewrite Hk; by apply mem_iff|apply H4; lia].
    + apply in_app_iff. destruct (decide (i = k)) as [->|]; [right; left; by rewrite Hk|].
      left. apply H4. lia.
Qed.

Definition all_lines : list (nat * list nat) :=
  fold_left (fun lines '(i, e) => line_push (e_line e) i lines) (indexed entries) [].

Lemma lines_refines control : refines control (lines_loop entries control) all_lines.
Proof.
  apply refines_for_each. intros [i e] lines _.
  eapply refines_bind; [apply refines_check|apply refines_ret].
Qed.

Lemma all_lines_ok : lines_ok (length entries) all_lines.
Proof.
  unfold all_lines, indexed, enumerate.
  assert (H : forall es k lines, (forall i e, es !! i = Some e -> entries !! (k + i) = Some e) ->
    lines_ok k lines -> lines_ok (k + length es)
      (fold_left (fun lines '(i, e) => line_push (e_line e) i lines) (enumerate_from k es) lines)).
  { induction es as [|e es IH]; intros k lines He Hs; simpl; [by rewrite Nat.add_0_r|].
    replace (k + S (length es)) with (S k + length es) by lia. apply IH.
    - intros i x Hx. replace (S k + i) with (k + S i) by lia. by apply He.
    - apply line_push_ok; [|done]. rewrite <- (Nat.add_0_r k). by apply He. }
  rewrite <- (Nat.add_0_l (length entries)). apply H; [done|].
  split; simpl; [constructor|done|done|]. intros i. lia.
Qed.

Lemma lines_ok_perm k l1 l2 : l1 ≡ₚ l2 -> lines_ok k l2 -> lines_ok k l1.
Proof.
  intros Hp [H1 H2 H3 H4]. split.
  - by rewrite Hp.
  - intros l v i H. apply H2. apply list_elem_of_In. rewrite <- Hp. by apply list_elem_of_In.
  - intros l v H. apply (H3 l). apply list_elem_of_In. rewrite <- Hp. by apply list_elem_of_In.
  - intros i Hi. apply list_elem_of_In. rewrite Hp. apply list_elem_of_In. by apply H4.
Qed.
End lines.

Section sort.
Context (key : nat -> Z).

Definition desc (x y : nat) : Prop := (key y <= key x)%Z.

Lemma insert_desc_perm x l : insert_desc key x l ≡ₚ x :: l.
Proof.
  induction l as [|y l IH]; simpl; [done|]. destruct (_ <=? _)%Z; [done|].
  rewrite IH. constructor.
Qed.

Lemma sort_desc_perm l : sort_desc key l ≡ₚ l.
Proof. induction l as [|x l IH]; simpl; [done|]. by rewrite insert_desc_perm, IH. Qed.

Lemma insert_desc_sorted x l : StronglySorted desc l -> StronglySorted desc (insert_desc key x l).
Proof.
  induction 1 as [|y l Hs IH Hy]; simpl; [repeat constructor|].
  destruct (_ <=? _)%Z eqn:E; tobool.
  - constructor; [by constructor|]. constructor; [done|].
    eapply Forall_impl; [exact Hy|]. unfold desc. intros z Hz. lia.
  - constructor; [done|]. rewrite insert_desc_perm. constructor; [unfold desc; lia|done].
Qed.

Lemma sort_desc_sorted l : StronglySorted desc (sort_desc key l).
Proof. induction l; simpl; [constructor|by apply insert_desc_sorted]. Qed.
End sort.

(** ** Causes *)

Lemma in_set_add s i x : In x (set_add s i) <-> In x s \/ x = i.
Proof.
  unfold set_add. destruct (mem i s) eqn:E.
  - apply mem_iff in E. split; [auto|]. by intros [?| ->].
  - rewrite in_app_iff. simpl. intuition.
Qed.

Lemma nodup_set_add s i : NoDup s -> NoDup (set_add s i).
Proof.
  unfold set_add. destruct (mem i s) eqn:E; [done|]. intros H.
  apply NoDup_app. split; [done|]. split; [|apply NoDup_singleton].
  intros x Hx Hi. apply list_elem_of_singleton in Hi as ->.
  apply not_true_iff_false in E. apply E, mem_iff. by apply list_elem_of_In.
Qed.

Lemma set_extend_spec l : forall s,
  NoDup s -> NoDup (set_extend s l) /\ forall x, In x (set_extend s l) <-> In x s \/ In x l.
Proof.
  unfold set_extend. induction l as [|i l IH]; intros s Hs; simpl; [split; [done|tauto]|].
  destruct (IH (set_add s i) (nodup_set_add _ _ Hs)) as [H1 H2]. split; [done|].
  intros x. rewrite H2, in_set_add. intuition.
Qed.

Section causes.
Context (entries : list Entry) (control : ScanControl) (ow : list (list nat)).

Fixpoint causes_of (index : nat) (higher : list nat) (causes : list nat) : list nat :=
  match higher with
  | [] => causes
  | h :: rest =>
    if (specificity_at entries h <=? specificity_at entries index)%Z then causes
    else if bytes_eqb (id_at entries h) (id_at entries index)
         || negb (contains_sub (value_at entries index) (value_at entries h))
    then causes_of index rest causes
    else
      let causes := if visible_at entries h then set_add causes h else causes in
      causes_of index rest
        (if negb (mem index (row ow h)) then set_extend causes (row ow h) else causes)
  end.

Lemma causes_refines index higher : forall causes,
  refines control (causes_loop entries control ow index higher causes) (causes_of index higher causes).
Proof.
  induction higher as [|h rest IH]; intros causes; simpl; [apply refines_ret|].
  eapply refines_bind; [apply refines_check|].
  destruct (_ <=? _)%Z; [apply refines_ret|]. destruct (_ || _); apply IH.
Qed.

(** A higher match acts on [index], and through what. *)
Definition acts (index h : nat) : Prop :=
  (specificity_at entries index < specificity_at entries h)%Z /\
  id_at entries h <> id_at entries index /\
  contains_sub (value_at entries index) (value_at entries h) = true.
Definition acts_through (index h c : nat) : Prop :=
  (visible_at entries h = true /\ c = h) \/ (In c (row ow h) /\ ~ In index (row ow h)).

Lemma causes_of_spec index higher : forall causes,
  StronglySorted (desc (specificity_at entries)) higher -> NoDup causes ->
  NoDup (causes_of index higher causes) /\
  forall c, In c (causes_of index higher causes) <->
    In c causes \/ exists h, In h higher /\ acts index h /\ acts_through index h c.
Proof.
  induction higher as [|h rest IH]; intros causes Hs Hnd; simpl.
  { split; [done|]. intros c. split; [auto|]. intros [?|(h & [] & _)]. done. }
  apply StronglySorted_inv in Hs as [Hs Hh]. rewrite List.Forall_forall in Hh. unfold desc in Hh.
  destruct (_ <=? _)%Z eqn:E; tobool.
  { split; [done|]. intros c. split; [auto|]. intros [?|(h' & [<-|Hin] & (Ha & _) & _)]; [done|lia|].
    specialize (Hh h' Hin). lia. }
  destruct (_ || _) eqn:E2.
  { destruct (IH causes Hs Hnd) as [H1 H2]. split; [done|]. intros c. rewrite H2.
    split; [intros [?|(h' & ? & ?)]; eauto 10|].
    intros [?|(h' & [<-|Hin] & (Ha & Hid & Hc) & Ht)]; [by left| |right; exists h'; unfold acts; auto].
    apply orb_true_iff in E2 as [E2|E2]; [by apply bool_decide_eq_true in E2|].
    by rewrite Hc in E2. }
  apply orb_false_iff in E2 as [E2 E3]. apply bool_decide_eq_false in E2. apply negb_false_iff in E3.
  set (c1 := if visible_at entries h then set_add causes h else causes).
  assert (Hc1 : NoDup c1 /\ forall c, In c c1 <-> In c causes \/ (visible_at entries h = true /\ c = h)).
  { subst c1. destruct (visible_at entries h).
    - split; [by apply nodup_set_add|]. intros c. rewrite in_set_add. tauto.
    - split; [done|]. intros c. split; [auto|]. intros [?|[? _]]; done. }
  set (c2 := if negb (mem index (row ow h)) then set_extend c1 (row ow h) else c1).
  assert (Hc2 : NoDup c2 /\ forall c, In c c2 <-> In c causes \/ acts_through index h c).
  { subst c2. destruct Hc1 as [Hn1 H1]. destruct (mem index (row ow h)) eqn:Em; simpl.
    - apply mem_iff in Em. split; [done|]. intros c. rewrite H1. unfold acts_through. tauto.
    - assert (~ In index (row ow h)) by (rewrite <- mem_iff; congruence).
      destruct (set_extend_spec (row ow h) c1 Hn1) as [Hn2 H2]. split; [done|].
      intros c. rewrite H2, H1. unfold acts_through. tauto. }
  destruct Hc2 as [Hn2 H2]. destruct (IH c2 Hs Hn2) as [H3 H4]. split; [done|].
  intros c. rewrite H4, H2. split.
  - intros [[?|?]|(h' & ? & ? & ?)]; [by left|right; exists h; unfold acts; auto|right; exists h'; auto].
  - intros [?|(h' & [<-|Hin] & Ha & Ht)]; [auto|auto|right; eauto].
Qed.

(** *** The pending counts *)

Definition active (i : nat) : bool :=
  negb (Nat.eqb (length (value_at entries i)) 0 || negb (visible_at entries i)).

Definition pend (st : Pending) (x : nat * list nat) : Pending :=
  let '(index, before) := x in
  if active index then
    let causes := causes_of index before [] in
    (fold_left (fun d cause => push_at cause index d) causes st.1, <[index := length causes]> st.2)
  else st.

(** The positions of a sorted line, each with the indexes before it. *)
Fixpoint prefixes (before after : list nat) : list (nat * list nat) :=
  match after with
  | [] => []
  | index :: rest => (index, before) :: prefixes (before ++ [index]) rest
  end.

Definition visits (lines : list (nat * list nat)) : list (nat * list nat) :=
  flat_map (fun '(_, indexes) => prefixes [] (sort_desc (specificity_at entries) indexes)) lines.

Lemma line_refines after : forall before st,
  refines control (line_loop entries control ow before after st) (fold_left pend (prefixes before after) st).
Proof.
  induction after as [|index rest IH]; intros before st; simpl; [apply refines_ret|].
  eapply refines_bind; [apply refines_check|]. unfold active.
  destruct (_ || _); simpl; [apply IH|].
  eapply refines_bind; [apply causes_refines|apply IH].
Qed.

Lemma pending_refines lines :
  refines control (pending_loop entries control ow lines)
    (fold_left pend (visits lines) (replicate (length entries) [], replicate (length entries) 0)).
Proof.
  unfold visits. rewrite fold_left_flat_map. apply refines_for_each.
  intros [l indexes] st _. apply line_refines.
Qed.
End causes.

Lemma map_fst_prefixes after : forall before, map fst (prefixes before after) = after.
Proof. induction after as [|i r IH]; intros before; simpl; [done|]. by rewrite IH. Qed.

Lemma in_prefixes after : forall before i b,
  In (i, b) (prefixes before after) <-> exists mid post, after = mid ++ i :: post /\ b = before ++ mid.
Proof.
  induction after as [|j r IH]; intros before i b; simpl.
  - split; [done|]. intros (mid & post & E & _). by destruct mid.
  - rewrite IH. split.
    + intros [E|(mid & post & -> & ->)].
      * simplify_eq. exists [], r. by rewrite app_nil_r.
      * exists (j :: mid), post. split; [done|]. by rewrite <- app_assoc.
    + intros (mid & post & E & ->). destruct mid as [|k mid]; simplify_eq/=.
      * left. by rewrite app_nil_r.
      * right. exists mid, post. split; [done|]. by rewrite <- app_assoc.
Qed.

Section pending.
Context (entries : list Entry) (ow : list (list nat)).
Let n := length entries.

Lemma visits_fst lines : map fst (visits entries lines) = flat_map (fun '(_, v) => sort_desc (specificity_at entries) v) lines.
Proof.
  unfold visits. induction lines as [|[l v] r IH]; [done|]. cbn [flat_map].
  by rewrite map_app, map_fst_prefixes, IH.
Qed.

Lemma in_visits lines i b :
  In (i, b) (visits entries lines) <->
  exists l v post, In (l, v) lines /\ sort_desc (specificity_at entries) v = b ++ i :: post.
Proof.
  unfold visits. rewrite in_flat_map. split.
  - intros ([l v] & Hl & Hi). apply in_prefixes in Hi as (mid & post & E & ->). eauto 10.
  - intros (l & v & post & Hl & E). exists (l, v). split; [done|]. apply in_prefixes. eauto.
Qed.

Lemma visits_nodup lines : lines_ok entries n lines -> NoDup (map fst (visits entries lines)).
Proof.
  intros [H1 H2 H3 _]. rewrite visits_fst. revert H1 H2 H3.
  induction lines as [|[l v] r IH]; intros H1 H2 H3; cbn [flat_map]; [constructor|].
  apply NoDup_cons in H1 as [Hl H1].
  apply NoDup_app. split; [|split].
  - rewrite sort_desc_perm. apply (H3 l). by left.
  - intros x Hx Hx'. rewrite sort_desc_perm in Hx.
    apply list_elem_of_In, in_flat_map in Hx' as ([l' v'] & Hin & Hx').
    apply list_elem_of_In in Hx'. rewrite sort_desc_perm in Hx'.
    apply list_elem_of_In in Hx, Hx'. apply (H2 l v x (or_introl eq_refl)) in Hx as [_ <-].
    apply (H2 l' v' x (or_intror Hin)) in Hx' as [_ Hx']. apply Hl. rewrite Hx'.
    apply list_elem_of_In, in_map_iff. by exists (l', v').
  - apply IH; [done| |]; intros; [apply H2; by right|apply (H3 l0); by right].
Qed.

Lemma fold_push_index (index : nat) cs c : forall D : list (list nat),
  length D = n -> c < n -> NoDup cs ->
  let D' : list (list nat) := fold_left (fun d cause => push_at cause index d) cs D in
  length D' = n /\ row D' c = row D c ++ (if mem c cs then [index] else []).
Proof.
  induction cs as [|k cs IH]; intros D HD Hc Hnd; simpl; [by rewrite app_nil_r|].
  apply NoDup_cons in Hnd as [Hk Hnd].
  destruct (IH (push_at k index D)) as [H1 H2]; [by rewrite length_push_at|done|done|].
  split; [done|]. simpl in H2. rewrite H2. destruct (Nat.eqb c k) eqn:E; simpl; tobool.
  - subst k. rewrite row_push_at, Nat.eqb_refl by lia.
    replace (mem c cs) with false; [by rewrite app_nil_r|]. symmetry.
    apply not_true_iff_false. rewrite mem_iff, <- list_elem_of_In. done.
  - destruct (decide (k < length D)).
    + rewrite row_push_at by done. by rewrite (proj2 (Nat.eqb_neq c k)) by done.
    + unfold push_at. by rewrite list_insert_ge by lia.
Qed.

Definition waits_on (c : nat) (x : nat * list nat) : bool :=
  active entries x.1 && mem c (causes_of entries ow x.1 x.2 []).

Lemma causes_of_nodup i b :
  StronglySorted (desc (specificity_at entries)) b -> NoDup (causes_of entries ow i b []).
Proof. intros H. by apply causes_of_spec; [|constructor]. Qed.

Lemma pend_spec V : forall D R,
  length D = n -> length R = n -> NoDup (map fst V) ->
  (forall i b, In (i, b) V -> i < n /\ StronglySorted (desc (specificity_at entries)) b) ->
  let '(D', R') := fold_left (pend entries ow) V (D, R) in
  length D' = n /\ length R' = n /\
  (forall c, c < n -> row D' c = row D c ++ map fst (List.filter (waits_on c) V)) /\
  (forall i b, In (i, b) V -> nth i R' 0 =
     if active entries i then length (causes_of entries ow i b []) else nth i R 0) /\
  (forall i, ~ In i (map fst V) -> nth i R' 0 = nth i R 0).
Proof.
  induction V as [|[i b] V IH]; intros D R HD HR Hnd HV; cbn [fold_left].
  { split_and!; try done. intros c _. by rewrite app_nil_r. }
  cbn [map] in Hnd. apply NoDup_cons in Hnd as [Hi Hnd]. rewrite list_elem_of_In in Hi.
  destruct (HV i b (or_introl eq_refl)) as [Hin Hb].
  unfold pend at 2. destruct (active entries i) eqn:Ea.
  - set (cs := causes_of entries ow i b []). cbn [fst snd].
    assert (Hcs : NoDup cs) by by apply causes_of_nodup.
    assert (HD' : length (fold_left (fun d cause => push_at cause i d) cs D) = n).
    { clear -HD. revert D HD. induction cs; intros D HD; simpl; [done|]. apply IHcs. by rewrite length_push_at. }
    specialize (IH (fold_left (fun d cause => push_at cause i d) cs D) (<[i := length cs]> R) HD'
      ltac:(by rewrite length_insert) Hnd ltac:(intros; apply HV; by right)).
    destruct (fold_left (pend entries ow) V _) as [D' R']. destruct IH as (H1 & H2 & H3 & H4 & H5).
    split_and!; try done.
    + intros c Hc. rewrite H3 by done.
      destruct (fold_push_index i cs c D HD Hc Hcs) as [_ Hrow]. cbv zeta in Hrow. rewrite Hrow.
      cbn [List.filter]. replace (waits_on c (i, b)) with (mem c cs) by (unfold waits_on; cbn [fst snd]; by rewrite Ea).
      destruct (mem c cs); rewrite <- app_assoc; done.
    + intros j b' [E|Hj].
      * simplify_eq. rewrite Ea, H5 by done. rewrite nth_insert by lia. by rewrite Nat.eqb_refl.
      * rewrite (H4 j b' Hj), nth_insert by lia. rewrite (proj2 (Nat.eqb_neq j i)); [done|].
        intros ->. apply Hi. apply in_map_iff. by exists (i, b').
    + intros j Hj. rewrite H5 by (intros ?; apply Hj; by right). rewrite nth_insert by lia.
      rewrite (proj2 (Nat.eqb_neq j i)); [done|]. intros ->. apply Hj. by left.
  - specialize (IH D R HD HR Hnd ltac:(intros; apply HV; by right)).
    destruct (fold_left (pend entries ow) V _) as [D' R']. destruct IH as (H1 & H2 & H3 & H4 & H5).
    split_and!; try done.
    + intros c Hc. rewrite H3 by done. cbn [List.filter].
      replace (waits_on c (i, b)) with false; [done|]. unfold waits_on. cbn [fst snd]. by rewrite Ea.
    + intros j b' [E|Hj]; [|by apply H4]. simplify_eq. rewrite Ea. by apply H5.
    + intros j Hj. apply H5. intros ?; apply Hj; by right.
Qed.
End pending.

(** ** Resolution *)

Section work.
Context (control : ScanControl) (n : nat) (dep : list (list nat)) (causes : nat -> list nat) (vis : nat -> bool).
Context (Hdep : forall c, NoDup (row dep c) /\ forall i, In i (row dep c) -> i < n /\ In c (causes i)).
Context (Hback : forall i c, i < n -> In c (causes i) -> In i (row dep c)).
Context (Hnodup : forall i, NoDup (causes i)).
Context (Hcv : forall i c, In c (causes i) -> i < n /\ vis i = true /\ c < n /\ vis c = true).

(** The least labelling over the lists of causes. *)
Inductive resolved : nat -> bool -> Prop :=
| resolved_true i : i < n -> vis i = true -> (forall c, In c (causes i) -> resolved c false) -> resolved i true
| resolved_false i c : In c (causes i) -> resolved c true -> resolved i false.

Definition rep (w : Work) (i : nat) : option bool := nth i (reported w) None.

(** The causes of [i] that are not among the resolved matches [d]. *)
Definition open_causes (d : list nat) (i : nat) : nat :=
  length (List.filter (fun c => negb (mem c d)) (causes i)).

(** The state after [done] was resolved; [seen_by i] is what of it the counter
    of [i] accounts for. *)
Record work_ok (done : list nat) (seen_by : nat -> list nat) (w : Work) : Prop := {
  wk_rlen : length (reported w) = n;
  wk_mlen : length (remaining w) = n;
  wk_lab : forall i, rep w i <> None <-> In i (done ++ queue w);
  wk_nodup : NoDup (done ++ queue w);
  wk_vis : forall i, In i (done ++ queue w) -> i < n /\ vis i = true;
  wk_sound : forall i b, rep w i = Some b -> resolved i b;
  wk_true : forall i, rep w i = Some true ->
    forall c, In c (causes i) -> In c done /\ rep w c = Some false;
  wk_false : forall i, rep w i = Some false -> exists c, In c (causes i) /\ rep w c = Some true;
  wk_none : forall i, i < n -> vis i = true -> rep w i = None ->
    nth i (remaining w) 0 = open_causes (seen_by i) i /\ 0 < open_causes (seen_by i) i /\
    forall c, In c (causes i) -> In c (seen_by i) -> rep w c = Some false
}.

Lemma filter_drop_one (p : nat) d l :
  NoDup l -> ~ In p d ->
  length (List.filter (fun c => negb (mem c d)) l) =
  (if mem p l then 1 else 0) + length (List.filter (fun c => negb (mem c (d ++ [p]))) l).
Proof.
  intros Hnd Hp. induction l as [|c l IH]; [done|]. apply NoDup_cons in Hnd as [Hc Hnd].
  specialize (IH Hnd). cbn [List.filter].
  assert (forall x, mem x (d ++ [p]) = mem x d || Nat.eqb x p) as Hm.
  { intros x. unfold mem. rewrite existsb_app. simpl. by rewrite orb_false_r. }
  rewrite Hm. change (mem p (c :: l)) with (Nat.eqb p c || mem p l). rewrite (Nat.eqb_sym p c).
  destruct (Nat.eqb c p) eqn:E; tobool.
  - subst c. assert (mem p l = false) as Hml.
    { apply not_true_iff_false. rewrite mem_iff, <- list_elem_of_In. done. }
    rewrite Hml in *. assert (mem p d = false) as -> by (apply not_true_iff_false; by rewrite mem_iff).
    cbn [negb orb length]. lia.
  - rewrite orb_false_r. cbn [orb]. destruct (mem c d); cbn [negb length]; lia.
Qed.

Lemma open_causes_step p d i :
  ~ In p d -> open_causes d i = (if mem p (causes i) then 1 else 0) + open_causes (d ++ [p]) i.
Proof. intros Hp. by apply filter_drop_one. Qed.

Lemma rep_insert rs i j b q m :
  i < length rs ->
  rep {| reported := <[i := b]> rs; remaining := m; queue := q |} j =
  if Nat.eqb j i then b else nth j rs None.
Proof. intros H. unfold rep. cbn. by apply nth_insert. Qed.

(** One dependent of a resolved [p]. *)
Definition seen_mid (done : list nat) (p : nat) (ds : list nat) (i : nat) : list nat :=
  if mem i ds then done else done ++ [p].

Lemma seen_mid_other done p i ds j : j <> i -> seen_mid done p (i :: ds) j = seen_mid done p ds j.
Proof. intros H. unfold seen_mid, mem. simpl. by rewrite (proj2 (Nat.eqb_neq j i)) by done. Qed.

(** Labelling an unlabelled visible [i] and queueing it. *)
Lemma label_ok done p i ds b m w :
  work_ok (done ++ [p]) (seen_mid done p (i :: ds)) w -> i < n -> vis i = true ->
  rep w i = None -> length m = n -> (forall j, j <> i -> nth j m 0 = nth j (remaining w) 0) ->
  (b = true -> forall c, In c (causes i) -> In c (done ++ [p]) /\ rep w c = Some false) ->
  (b = false -> exists c, In c (causes i) /\ rep w c = Some true) ->
  work_ok (done ++ [p]) (seen_mid done p ds)
    {| reported := <[i := Some b]> (reported w); remaining := m; queue := queue w ++ [i] |}.
Proof.
  intros [H1 H2 H3 H4 H5 Hso H6 H7 H8] Hi Hv Hr Hm Hme Ht Hf.
  set (w' := {| reported := _; remaining := m; queue := _ |}).
  assert (Hrep : forall j, rep w' j = if Nat.eqb j i then Some b else rep w j)
    by (intros; unfold w'; rewrite rep_insert by lia; done).
  assert (Hkeep : forall c x, rep w c = Some x -> rep w' c = Some x).
  { intros c x Hc. rewrite Hrep. destruct (Nat.eqb c i) eqn:E; tobool; [subst; congruence|done]. }
  assert (Hni : ~ In i ((done ++ [p]) ++ queue w)) by (intros Hx; apply H3 in Hx; done).
  split; try (unfold w'; cbn [reported remaining queue]).
  - by rewrite length_insert.
  - done.
  - intros j. fold w'. rewrite Hrep, app_assoc, in_app_iff, <- H3. simpl.
    destruct (Nat.eqb j i) eqn:E; tobool; [subst; split; [auto|done]|].
    split; [auto|]. intros [?|[?|[]]]; [done|congruence].
  - rewrite app_assoc. apply NoDup_app. split; [done|]. split; [|apply NoDup_singleton].
    intros x Hx Hxi. apply list_elem_of_singleton in Hxi as ->. apply Hni. by apply list_elem_of_In.
  - intros j. rewrite app_assoc, in_app_iff. intros [Hj|[<-|[]]]; [by apply H5|done].
  - intros j b'. fold w'. rewrite Hrep. destruct (Nat.eqb j i) eqn:E; tobool; [|apply Hso].
    intros [= <-]. subst j. destruct b.
    + apply resolved_true; [done|done|]. intros c Hc. apply Hso. by apply Ht.
    + destruct (Hf eq_refl) as (c & Hc & Hcr). apply (resolved_false i c); [done|by apply Hso].
  - intros j. fold w'. rewrite Hrep. destruct (Nat.eqb j i) eqn:E; tobool.
    + intros [= ->] c Hc. subst j. destruct (Ht eq_refl c Hc). split; [done|by apply Hkeep].
    + intros Hj c Hc. destruct (H6 j Hj c Hc). split; [done|by apply Hkeep].
  - intros j. fold w'. rewrite Hrep. destruct (Nat.eqb j i) eqn:E; tobool.
    + intros [= ->]. subst j. destruct (Hf eq_refl) as (c & Hc & Hcr). exists c. split; [done|by apply Hkeep].
    + intros Hj. destruct (H7 j Hj) as (c & Hc & Hcr). exists c. split; [done|by apply Hkeep].
  - intros j Hj Hvj. fold w'. rewrite Hrep. destruct (Nat.eqb j i) eqn:E; [done|]. tobool.
    intros Hjr. destruct (H8 j Hj Hvj Hjr) as (Hc & Hpos & Hall). rewrite seen_mid_other in * by done.
    rewrite Hme by done. split; [done|]. split; [done|].
    intros c Hcc Hcs. apply Hkeep. by apply Hall.
Qed.

Lemma resolve_ok done p i ds w b :
  work_ok (done ++ [p]) (seen_mid done p (i :: ds)) w -> ~ In p done -> ~ In i ds ->
  In i (row dep p) -> rep w p = Some b ->
  work_ok (done ++ [p]) (seen_mid done p ds) (resolve b i w) /\ rep (resolve b i w) p = Some b.
Proof.
  intros Hw Hp Hi Hin Hb. destruct (proj2 (Hdep p) i Hin) as [Hlt Hpc].
  destruct (Hcv i p Hpc) as (_ & Hvi & _ & _).
  assert (Hsame : rep w i <> None -> work_ok (done ++ [p]) (seen_mid done p ds) w).
  { intros Hr. destruct Hw as [H1 H2 H3 H4 H5 Hso H6 H7 H8]. split; try done.
    intros j Hj Hvj Hjr. assert (j <> i) by congruence.
    rewrite <- (seen_mid_other done p i ds j) by done. by apply H8. }
  unfold resolve. fold (rep w i). destruct (rep w i) as [x|] eqn:Er; [split; [by apply Hsame|done]|].
  assert (Hpi : p <> i) by congruence.
  destruct (wk_none _ _ _ Hw i Hlt Hvi Er) as (Hcnt & Hpos & Hall).
  unfold seen_mid, mem in Hcnt, Hpos, Hall. simpl in Hcnt, Hpos, Hall. rewrite Nat.eqb_refl in Hcnt, Hpos, Hall.
  cbn [orb] in Hcnt, Hpos, Hall.
  rewrite (open_causes_step p) in Hcnt by done.
  assert (mem p (causes i) = true) as Hmem by by apply mem_iff. rewrite Hmem in Hcnt.
  destruct b.
  - split.
    + apply label_ok; try done; [apply (wk_mlen _ _ _ Hw)|]. intros _. eauto.
    + rewrite rep_insert by (rewrite (wk_rlen _ _ _ Hw); lia).
      by rewrite (proj2 (Nat.eqb_neq p i)) by done.
  - rewrite Hcnt. replace (1 + open_causes (done ++ [p]) i - 1) with (open_causes (done ++ [p]) i) by lia.
    assert (Hall' : forall c, In c (causes i) -> In c (done ++ [p]) -> rep w c = Some false).
    { intros c Hc Hcd. apply in_app_iff in Hcd as [Hcd|[<-|[]]]; [by apply Hall|done]. }
    destruct (Nat.eqb (open_causes (done ++ [p]) i) 0) eqn:E0; tobool.
    + split.
      * apply label_ok; try done.
        -- rewrite length_insert. apply (wk_mlen _ _ _ Hw).
        -- intros j Hj. rewrite nth_insert by (rewrite (wk_mlen _ _ _ Hw); lia).
           by rewrite (proj2 (Nat.eqb_neq j i)) by done.
        -- intros _ c Hc. assert (In c (done ++ [p])) as Hcd; [|split; [done|by apply Hall']].
           apply mem_iff. unfold open_causes in E0. apply nil_length_inv in E0.
           destruct (mem c (done ++ [p])) eqn:Em; [done|]. exfalso.
           assert (In c (List.filter (fun c => negb (mem c (done ++ [p]))) (causes i))) as Hf.
           { apply filter_In. by rewrite Em. }
           by rewrite E0 in Hf.
      * rewrite rep_insert by (rewrite (wk_rlen _ _ _ Hw); lia).
        by rewrite (proj2 (Nat.eqb_neq p i)) by done.
    + split; [|done]. destruct Hw as [H1 H2 H3 H4 H5 Hso H6 H7 H8]. split; try done.
      * cbn. by rewrite length_insert.
      * intros j Hj Hvj Hjr. change (rep w j = None) in Hjr. cbn [remaining].
        rewrite nth_insert by lia. destruct (Nat.eqb j i) eqn:E; tobool.
        -- subst j. assert (seen_mid done p ds i = done ++ [p]) as Hsm.
           { unfold seen_mid. assert (mem i ds = false) as ->; [|done].
             apply not_true_iff_false. by rewrite mem_iff. }
           rewrite Hsm. split; [done|]. split; [lia|exact Hall'].
        -- destruct (H8 j Hj Hvj Hjr) as (Hc' & Hpos' & Ha'). rewrite seen_mid_other in * by done.
           split; [done|]. split; [done|exact Ha'].
Qed.

Lemma resolve_all_ok done p b ds : forall w,
  work_ok (done ++ [p]) (seen_mid done p ds) w -> ~ In p done -> NoDup ds ->
  (forall i, In i ds -> In i (row dep p)) -> rep w p = Some b ->
  work_ok (done ++ [p]) (fun _ => done ++ [p]) (fold_left (fun w i => resolve b i w) ds w).
Proof.
  induction ds as [|i ds IH]; intros w Hw Hp Hnd Hin Hb; [exact Hw|].
  apply NoDup_cons in Hnd as [Hi Hnd]. rewrite list_elem_of_In in Hi. cbn [fold_left].
  destruct (resolve_ok done p i ds w b) as [H1 H2]; try done; [apply Hin; by left|].
  apply IH; try done. intros; apply Hin; by right.
Qed.

Fixpoint run (fuel : nat) (w : Work) : Work :=
  match fuel, queue w with
  | S fuel, p :: q =>
    let survives := default false (nth p (reported w) None) in
    run fuel (fold_left (fun w i => resolve survives i w) (row dep p)
               {| reported := reported w; remaining := remaining w; queue := q |})
  | _, _ => w
  end.

Lemma run_refines fuel : forall w, refines control (work_loop control dep fuel w) (run fuel w).
Proof.
  induction fuel as [|fuel IH]; intros w; simpl; [apply refines_ret|].
  destruct (queue w) as [|p q]; [apply refines_ret|]. eapply refines_bind; [apply refines_check|].
  eapply refines_bind; [|apply IH].
  apply refines_for_each. intros i w' _. eapply refines_bind; [apply refines_check|apply refines_ret].
Qed.

Lemma work_bound done f w : work_ok done f w -> length done + length (queue w) <= n.
Proof.
  intros Hw. rewrite <- length_app.
  enough (length (done ++ queue w) <= length (seq 0 n)) by (rewrite length_seq in *; lia).
  apply submseteq_length, NoDup_submseteq; [apply (wk_nodup _ _ _ Hw)|].
  intros x Hx%list_elem_of_In. apply (wk_vis _ _ _ Hw) in Hx as [Hx _].
  apply list_elem_of_In, in_seq. lia.
Qed.

(** Taking a match off the queue. *)
Lemma pop_ok done p q w :
  work_ok done (fun _ => done) w -> queue w = p :: q ->
  ~ In p done /\ work_ok (done ++ [p]) (seen_mid done p (row dep p))
    {| reported := reported w; remaining := remaining w; queue := q |}.
Proof.
  intros Hw Hq. pose proof (wk_nodup _ _ _ Hw) as Hnd. rewrite Hq in Hnd.
  assert (Hp : ~ In p done).
  { apply NoDup_app in Hnd as (_ & Hd & _). intros Hin. apply list_elem_of_In in Hin.
    apply (Hd p Hin). by left. }
  split; [done|]. destruct Hw as [H1 H2 H3 H4 H5 Hso H6 H7 H8]. rewrite Hq in *.
  split; cbn [reported remaining queue]; rewrite <- ?app_assoc; try done.
  - intros j Hj c Hc. destruct (H6 j Hj c Hc). split; [apply in_app_iff; by left|done].
  - intros j Hj Hv Hr. destruct (H8 j Hj Hv Hr) as (Hc & Hpos & Hall). unfold seen_mid.
    destruct (mem j (row dep p)) eqn:E; [done|].
    assert (Hpj : ~ In p (causes j)).
    { intros Hin. apply not_true_iff_false in E. apply E, mem_iff. by apply Hback. }
    assert (mem p (causes j) = false) as Hm by (apply not_true_iff_false; by rewrite mem_iff).
    rewrite (open_causes_step p) in Hc, Hpos by done. rewrite Hm in Hc, Hpos.
    split; [done|]. split; [done|]. intros c Hcc Hcd. apply (Hall c Hcc).
    apply in_app_iff in Hcd as [Hcd|[<-|[]]]; [done|]. done.
Qed.

Lemma run_exact fuel : forall done w,
  work_ok done (fun _ => done) w -> n <= length done + fuel ->
  exists done', work_ok done' (fun _ => done') (run fuel w) /\ queue (run fuel w) = [].
Proof.
  induction fuel as [|fuel IH]; intros done w Hw Hf; pose proof (work_bound _ _ _ Hw) as Hb; cbn [run].
  - exists done. split; [done|]. destruct (queue w); [done|simpl in *; lia].
  - destruct (queue w) as [|p q] eqn:Eq; [by exists done|].
    destruct (pop_ok done p q w Hw Eq) as [Hp Hw1].
    destruct (rep w p) as [b|] eqn:Er.
    2:{ exfalso. apply (proj2 (wk_lab _ _ _ Hw p)); [|done]. rewrite Eq. apply in_app_iff. right. by left. }
    unfold rep in Er. rewrite Er. cbn [default from_option id].
    apply (IH (done ++ [p])); [|rewrite length_app; simpl; lia].
    apply resolve_all_ok with (p := p); try done. apply Hdep.
Qed.

Lemma final_labels done w :
  work_ok done (fun _ => done) w -> queue w = [] ->
  forall i b, rep w i = Some b <-> resolved i b.
Proof.
  intros Hw Hq.
  assert (Hdone : forall i, rep w i <> None <-> In i done).
  { intros i. rewrite (wk_lab _ _ _ Hw i). by rewrite Hq, app_nil_r. }
  assert (Hcomplete : forall i b, resolved i b -> rep w i = Some b).
  { induction 1 as [i Hi Hv Hc IH|i c Hc _ IH].
    - destruct (rep w i) as [[]|] eqn:E; [done| |]; exfalso.
      + destruct (wk_false _ _ _ Hw i E) as (c & Hcc & Hr). rewrite (IH c Hcc) in Hr. done.
      + destruct (wk_none _ _ _ Hw i Hi Hv E) as (_ & Hpos & _).
        unfold open_causes in Hpos. rewrite filter_all_false in Hpos; [simpl in Hpos; lia|].
        intros c Hcc. apply negb_false_iff, mem_iff, Hdone. by rewrite (IH c Hcc).
    - assert (In c done) as Hcd by (apply Hdone; by rewrite IH).
      destruct (Hcv i c Hc) as (Hi & Hv & Hcn & _).
      destruct (rep w i) as [[]|] eqn:E; [|done|]; exfalso.
      + destruct (wk_true _ _ _ Hw i E c Hc) as [_ Hf]. congruence.
      + destruct (wk_none _ _ _ Hw i Hi Hv E) as (_ & _ & Hall). specialize (Hall c Hc Hcd). congruence. }
  intros i b. split; [apply (wk_sound _ _ _ Hw)|apply Hcomplete].
Qed.
End work.

(** ** The pieces together *)

Section together.
Context (entries : list Entry) (component_attached : nat -> nat -> DependsOnRule -> bool).
Context (control : ScanControl).
Let n := length entries.
Let C := components_of entries component_attached.

Lemma components_range p c : In c (row C p) -> p < n /\ c < n.
Proof. intros H. apply in_components in H as (Hp & Hc & _). done. Qed.

Definition final_search : Search := all_owners C n entries.
Let ow := owners final_search.

Lemma clos_trans_iff {A} (r1 r2 : A -> A -> Prop) x y :
  (forall a b, r1 a b <-> r2 a b) -> clos_trans A r1 x y <-> clos_trans A r2 x y.
Proof.
  intros H. split; induction 1 as [a b Hab|a b c _ IH1 _ IH2];
    (apply t_step; by apply H) || (by apply t_trans with b).
Qed.

Lemma in_owners h c : In c (row ow h) <-> owns entries component_attached c h.
Proof.
  pose proof (all_owners_ok C n components_range entries eq_refl (length_components _ _)) as [_ _ _ _ Hr].
  unfold ow, final_search. rewrite Hr. unfold owns, reaches.
  rewrite (clos_trans_iff (edge C) (attached entries component_attached)).
  2:{ intros a b. apply in_components. }
  split; [tauto|]. intros (Hv & Hne & Ht). split_and!; try done.
  clear -Ht. induction Ht as [a b H|]; [apply H|done].
Qed.

Lemma owners_range h c : In c (row ow h) -> c < n.
Proof.
  intros H. apply in_owners in H as (Hv & _). unfold visible_at, rule_at in Hv.
  destruct (entries !! c) eqn:E; [by eapply lookup_lt_Some|done].
Qed.

(** The causes the code collects at a position are the declarative ones. *)
Lemma causes_exact lines i b c :
  lines_ok entries n lines -> In (i, b) (visits entries lines) ->
  active entries i = true -> (In c (causes_of entries ow i b []) <-> cause entries component_attached i c).
Proof.
  intros Hl Hv Ha. apply in_visits in Hv as (l & v & post & Hin & E).
  pose proof (sort_desc_sorted (specificity_at entries) v) as Hs. rewrite E in Hs.
  pose proof (sort_desc_perm (specificity_at entries) v) as Hp. rewrite E in Hp.
  assert (Hmem : forall h, In h v <-> In h b \/ h = i \/ In h post).
  { intros h. rewrite <- list_elem_of_In, <- Hp, list_elem_of_In, in_app_iff. simpl. intuition. }
  assert (Hline : forall h, In h v <-> h < n /\ line_at entries h = l) by (intros h; by apply (ln_in _ _ _ Hl l v h)).
  assert (Hi : line_at entries i = l) by (apply Hline, Hmem; auto).
  assert (Hsb : StronglySorted (desc (specificity_at entries)) b).
  { clear -Hs. induction b as [|x b IH]; [constructor|]. simpl in Hs.
    apply StronglySorted_inv in Hs as [Hs Hx]. constructor; [auto|].
    apply Forall_app in Hx as [Hx _]. done. }
  assert (Hpost : forall h, In h post -> (specificity_at entries h <= specificity_at entries i)%Z).
  { intros h Hh. clear -Hs Hh. induction b as [|x b IH]; simpl in Hs;
      apply StronglySorted_inv in Hs as [Hs Hx]; [|auto].
    rewrite List.Forall_forall in Hx. by apply Hx. }
  destruct (causes_of_spec entries ow i b [] Hsb (NoDup_nil_2)) as [_ ->].
  unfold active in Ha. tobool. unfold cause. rewrite Hi.
  assert (value_at entries i <> []) as Hval by (intros Hn; by rewrite Hn in H).
  split.
  - intros [[]|(h & Hh & (Hsp & Hid & Hc) & Ht)]. split; [done|]. split; [done|].
    assert (In h v) as Hhv by (apply Hmem; auto). apply Hline in Hhv as [Hhn Hhl].
    exists h. split_and!; try done. destruct Ht as [[? ->]|[Ho Hno]]; [by left|right].
    rewrite <- in_owners, <- in_owners. done.
  - intros (_ & _ & h & Hhn & Hhl & Hsp & Hid & Hc & Ht). right. exists h.
    assert (In h v) as Hhv by by apply Hline.
    apply Hmem in Hhv as [Hb|[->|Hb]]; [|lia|specialize (Hpost h Hb); lia].
    split; [done|]. split; [done|]. destruct Ht as [[? ->]|[Ho Hno]]; [by left|right].
    rewrite !in_owners. done.
Qed.

Lemma start_work_spec R :
  let w := start_work entries R in
  let ready i := visible_at entries i && Nat.eqb (nth i R 0) 0 in
  length (reported w) = n /\ remaining w = R /\ NoDup (queue w) /\
  (forall i, In i (queue w) <-> i < n /\ ready i = true) /\
  (forall i, rep w i = if (i <? n) && ready i then Some true else None).
Proof.
  cbv zeta. unfold start_work, indexed, enumerate. set (ready i := visible_at entries i && Nat.eqb (nth i R 0) 0).
  set (step := fun w '(index, e) => _).
  set (good := fun k (w : Work) => length (reported w) = n /\ remaining w = R /\ NoDup (queue w) /\
    (forall i, In i (queue w) <-> i < k /\ ready i = true) /\
    (forall i, rep w i = if (i <? k) && ready i then Some true else None)).
  assert (H : forall es k w, (forall i e, es !! i = Some e -> entries !! (k + i) = Some e) ->
    good k w -> good (k + length es) (fold_left step (enumerate_from k es) w)).
  { induction es as [|e es IH]; intros k w He Hw; simpl; [by rewrite Nat.add_0_r|].
    replace (k + S (length es)) with (S k + length es) by lia. apply IH.
    { intros i x Hx. replace (S k + i) with (k + S i) by lia. by apply He. }
    assert (Hk : entries !! k = Some e) by (rewrite <- (Nat.add_0_r k); by apply He).
    assert (Hv : visible_at entries k = visible (e_rule e)) by (unfold visible_at, rule_at; by rewrite Hk).
    pose proof (lookup_lt_Some _ _ _ Hk) as Hlt.
    destruct Hw as (H1 & H2 & H3 & H4 & H5). unfold step. rewrite <- Hv.
    change (visible_at entries k && Nat.eqb (nth k R 0) 0) with (ready k).
    assert (Hltb : forall i, i <> k -> (i <? S k) = (i <? k)).
    { intros i Hi. apply eq_true_iff_eq. rewrite !Nat.ltb_lt. lia. }
    destruct (ready k) eqn:Er; unfold good; cbn [reported remaining queue].
    - split_and!; [by rewrite length_insert|done| | |].
      + apply NoDup_app. split; [done|]. split; [|apply NoDup_singleton].
        intros x Hx Hxk. apply list_elem_of_singleton in Hxk as ->.
        apply list_elem_of_In, H4 in Hx. lia.
      + intros i. rewrite in_app_iff, H4. simpl. split.
        * intros [[? ?]|[<-|[]]]; split; try done; lia.
        * intros [Hi Hr]. destruct (decide (i = k)) as [->|]; [auto|]. left. split; [lia|done].
      + intros i. rewrite rep_insert by lia. destruct (Nat.eqb i k) eqn:E; tobool.
        * subst. rewrite Er, (proj2 (Nat.ltb_lt k (S k))) by lia. done.
        * rewrite Hltb by done. apply H5.
    - split_and!; [done|done|done| |].
      + intros i. rewrite H4. split; intros [Hi Hr]; (split; [|done]); [lia|].
        destruct (decide (i = k)) as [->|]; [congruence|lia].
      + intros i. rewrite H5. destruct (decide (i = k)) as [->|]; [|by rewrite Hltb].
        by rewrite Er, !andb_false_r. }
  apply (H entries 0 _); [done|]. unfold good. cbn [reported remaining queue].
  split_and!; [by rewrite length_replicate|done|constructor|simpl; intros; lia|].
  intros i. unfold rep. cbn. rewrite nth_lookup. destruct (replicate _ _ !! i) eqn:E; [|done].
  by apply lookup_replicate in E as [-> _].
Qed.

Section lines.
Context (lines : list (nat * list nat)) (Hl : lines_ok entries n lines).

Let V := visits entries lines.
Let DR := fold_left (pend entries ow) V (replicate n [], replicate n 0).

Lemma visits_sorted i b : In (i, b) V -> i < n /\ StronglySorted (desc (specificity_at entries)) b.
Proof.
  intros H. apply in_visits in H as (l & v & post & Hin & E).
  pose proof (sort_desc_sorted (specificity_at entries) v) as Hs. rewrite E in Hs.
  pose proof (sort_desc_perm (specificity_at entries) v) as Hp. rewrite E in Hp. split.
  - apply (ln_in _ _ _ Hl _ v i Hin). apply list_elem_of_In. rewrite <- Hp.
    apply elem_of_app. right. by left.
  - clear -Hs. induction b as [|x b IH]; [constructor|]. simpl in Hs.
    apply StronglySorted_inv in Hs as [Hs Hx]. constructor; [auto|].
    apply Forall_app in Hx as [Hx _]. done.
Qed.

Lemma visits_all i : i < n -> exists b, In (i, b) V.
Proof.
  intros Hi. pose proof (ln_all _ _ _ Hl i Hi) as H. apply in_map_iff in H as ([l v] & E & Hin).
  simpl in E. assert (In i v) as Hiv by (apply (ln_in _ _ _ Hl _ v i Hin); auto).
  assert (In i (map fst V)) as Hv.
  { unfold V. rewrite visits_fst. apply in_flat_map. exists (l, v). split; [done|].
    apply list_elem_of_In. rewrite sort_desc_perm. by apply list_elem_of_In. }
  apply in_map_iff in Hv as ([j b] & <- & Hv). eauto.
Qed.

(** The causes of a match, read off the rows of its dependents. *)
Definition causes_list (i : nat) : list nat :=
  List.filter (fun c => mem i (row DR.1 c)) (seq 0 n).

Lemma dependents_exact c i :
  NoDup (row DR.1 c) /\ (In i (row DR.1 c) <-> c < n /\ cause entries component_attached i c).
Proof.
  pose proof (pend_spec entries ow V (replicate n []) (replicate n 0)) as H.
  fold n in H. rewrite !length_replicate in H.
  specialize (H eq_refl eq_refl (visits_nodup entries lines Hl) visits_sorted).
  fold DR in H. destruct DR as [D R]. destruct H as (H1 & _ & H3 & _ & _). simpl.
  destruct (decide (c < n)) as [Hc|Hc].
  2:{ unfold row. rewrite nth_overflow by lia. split; [constructor|]. split; [done|]. by intros [? _]. }
  rewrite H3, row_replicate, app_nil_l by done. split.
  - pose proof (visits_nodup entries lines Hl) as Hnd. fold V in Hnd. clear -Hnd.
    induction V as [|x V' IH]; [constructor|]. cbn [map List.filter] in *.
    apply NoDup_cons in Hnd as [Hx Hnd]. destruct (waits_on _ _ _ _); [|auto]. cbn [map].
    constructor; [|auto]. intros Hin. apply Hx.
    apply list_elem_of_In, in_map_iff in Hin as (y & <- & Hy). apply filter_In in Hy as [Hy _].
    apply list_elem_of_In. by apply in_map.
  - rewrite in_map_iff. split.
    + intros ([j b] & <- & Hj). apply filter_In in Hj as [Hj Hw]. unfold waits_on in Hw. cbn [fst snd] in *.
      apply andb_prop in Hw as [Ha Hm]. apply mem_iff in Hm. split; [done|].
      by apply (causes_exact lines j b c Hl Hj Ha).
    + intros [_ Hcause]. pose proof Hcause as (Hv & Hval & h & _).
      assert (i < n) as Hi.
      { unfold visible_at, rule_at in Hv. destruct (entries !! i) eqn:E; [by eapply lookup_lt_Some|done]. }
      destruct (visits_all i Hi) as [b Hb]. exists (i, b). split; [done|].
      apply filter_In. split; [done|]. unfold waits_on. cbn [fst snd].
      assert (active entries i = true) as Ha.
      { unfold active. rewrite Hv. simpl. rewrite orb_false_r.
        apply negb_true_iff, Nat.eqb_neq. intros H0. apply nil_length_inv in H0. done. }
      rewrite Ha. simpl. apply mem_iff. by apply (causes_exact lines i b c Hl Hb Ha).
Qed.

Lemma in_causes_list i c : In c (causes_list i) <-> cause entries component_attached i c.
Proof.
  unfold causes_list. rewrite filter_In, in_seq, mem_iff. destruct (dependents_exact c i) as [_ ->].
  split; [tauto|]. intros H. pose proof H as (_ & _ & h & Hh & _ & _ & _ & _ & Ht).
  assert (c < n); [|split; [lia|auto]].
  destruct Ht as [[_ ->]|[Ho _]]; [done|]. apply (owners_range h). by apply in_owners.
Qed.

Lemma causes_list_nodup i : NoDup (causes_list i).
Proof. apply NoDup_ListNoDup, List.NoDup_filter, seq_NoDup. Qed.

Lemma remaining_exact i : i < n -> nth i DR.2 0 = length (causes_list i).
Proof.
  intros Hi. destruct (visits_all i Hi) as [b Hb].
  pose proof (pend_spec entries ow V (replicate n []) (replicate n 0)) as H.
  fold n in H. rewrite !length_replicate in H.
  specialize (H eq_refl eq_refl (visits_nodup entries lines Hl) visits_sorted).
  assert (Hlist : active entries i = true -> causes_list i ≡ₚ causes_of entries ow i b []).
  { intros Ha. apply NoDup_Permutation; [apply causes_list_nodup| |].
    - apply causes_of_nodup. by apply (visits_sorted i b).
    - intros c. rewrite !list_elem_of_In, in_causes_list. symmetry. by apply (causes_exact lines). }
  assert (Hnone : active entries i = false -> causes_list i = []).
  { intros Ha. destruct (causes_list i) as [|c l] eqn:E; [done|]. exfalso.
    assert (cause entries component_attached i c) as (Hv & Hval & _).
    { apply in_causes_list. rewrite E. by left. }
    unfold active in Ha. rewrite Hv in Ha. simpl in Ha. rewrite orb_false_r in Ha. tobool.
    apply nil_length_inv in Ha. done. }
  unfold causes_list in *. fold DR in H. destruct DR as [D R]. destruct H as (_ & _ & _ & H4 & _).
  cbn [fst snd] in *. rewrite (H4 i b Hb). destruct (active entries i).
  - by rewrite (Hlist eq_refl).
  - rewrite (Hnone eq_refl). rewrite nth_lookup. destruct (replicate n 0 !! i) eqn:E; [|done].
    by apply lookup_replicate in E as [-> _].
Qed.
End lines.
End together.

Lemma work_start entries component_attached lines :
  lines_ok entries (length entries) lines ->
  let ow := owners (final_search entries component_attached) in
  let DR := fold_left (pend entries ow) (visits entries lines)
              (replicate (length entries) [], replicate (length entries) 0) in
  length DR.2 = length entries ->
  work_ok (length entries) (causes_list entries component_attached lines) (visible_at entries)
    [] (fun _ => []) (start_work entries DR.2).
Proof.
  intros Hl ow DR HR. destruct (start_work_spec entries DR.2) as (H1 & H2 & H3 & H4 & H5).
  assert (Hlen : forall i, i < length entries ->
    nth i DR.2 0 = length (causes_list entries component_attached lines i)).
  { intros i Hi. by apply (remaining_exact entries component_attached lines Hl). }
  assert (Htrue : forall i b, rep (start_work entries DR.2) i = Some b ->
    b = true /\ i < length entries /\ visible_at entries i = true /\
    causes_list entries component_attached lines i = []).
  { intros i b. rewrite H5. destruct (_ && (_ && _)) eqn:E; [|done]. intros [= <-]. tobool.
    split_and!; try done. apply nil_length_inv. by rewrite <- Hlen. }
  split; try done.
  - by rewrite H2.
  - intros i. rewrite app_nil_l, H4, H5.
    destruct (_ <? _) eqn:E1, (_ && _) eqn:E2; simpl; tobool; split; (try done); try (intros [? ?]; done || lia).
  - intros i Hi. rewrite app_nil_l in Hi. apply H4 in Hi as [Hi Hr]. tobool. done.
  - intros i b Hb. apply Htrue in Hb as (-> & Hi & Hv & Hc).
    apply resolved_true; [done|done|]. by rewrite Hc.
  - intros i Hi c Hc. apply Htrue in Hi as (_ & _ & _ & He). by rewrite He in Hc.
  - intros i Hi. by apply Htrue in Hi as [? _].
  - intros i Hi Hv Hr. rewrite H2. unfold open_causes. rewrite filter_all_true by done.
    rewrite Hlen by done. split; [done|]. split; [|done].
    rewrite H5, Hv in Hr. rewrite (proj2 (Nat.ltb_lt _ _)) in Hr by done. simpl in Hr.
    destruct (Nat.eqb _ 0) eqn:E; [done|]. tobool. rewrite Hlen in E by done. lia.
Qed.

Lemma resolved_label entries component_attached lines i b :
  lines_ok entries (length entries) lines ->
  resolved (length entries) (causes_list entries component_attached lines) (visible_at entries) i b <->
  label entries component_attached i b.
Proof.
  intros Hl. split.
  - induction 1 as [i Hi Hv Hc IH|i c Hc _ IH].
    + apply label_survives; [done|done|]. intros c Hcc. apply IH. by apply in_causes_list.
    + apply (label_suppressed _ _ i c); [|done]. by apply (in_causes_list _ _ lines Hl).
  - induction 1 as [i Hi Hv Hc IH|i c Hc _ IH].
    + apply resolved_true; [done|done|]. intros c Hcc. apply IH. by apply (in_causes_list _ _ lines Hl).
    + apply (resolved_false _ _ _ i c); [|done]. by apply in_causes_list.
Qed.

(** The final labels of the work list. *)
Lemma run_labels entries component_attached lines :
  lines_ok entries (length entries) lines ->
  let ow := owners (final_search entries component_attached) in
  let DR := fold_left (pend entries ow) (visits entries lines)
              (replicate (length entries) [], replicate (length entries) 0) in
  let w := run DR.1 (length entries) (start_work entries DR.2) in
  forall i b, rep w i = Some b <-> label entries component_attached i b.
Proof.
  intros Hl ow DR w i b. rewrite <- (resolved_label _ _ lines) by done.
  pose proof (dependents_exact entries component_attached lines Hl) as Hdep.
  assert (HR : length DR.2 = length entries).
  { pose proof (pend_spec entries ow (visits entries lines) (replicate (length entries) [])
      (replicate (length entries) 0)) as H. rewrite !length_replicate in H.
    specialize (H eq_refl eq_refl (visits_nodup entries lines Hl) (visits_sorted entries lines Hl)).
    fold DR in H. destruct DR as [D R]. apply H. }
  set (causes := causes_list entries component_attached lines).
  assert (Hlist : forall i c, In c (causes i) <-> cause entries component_attached i c)
    by (intros; by apply in_causes_list).
  assert (Hvis : forall j, visible_at entries j = true -> j < length entries).
  { intros j Hj. unfold visible_at, rule_at in Hj. destruct (entries !! j) eqn:E; [by eapply lookup_lt_Some|done]. }
  assert (Hcv : forall i c, In c (causes i) ->
    i < length entries /\ visible_at entries i = true /\ c < length entries /\ visible_at entries c = true).
  { intros j c Hc. apply Hlist in Hc as (Hv & _ & h & Hh & _ & _ & _ & _ & Ht).
    assert (visible_at entries c = true) as Hvc by (destruct Ht as [[? ->]|[(? & _) _]]; done).
    split_and!; auto. }
  destruct (run_exact (length entries) DR.1 causes (visible_at entries)) with (fuel := length entries)
    (done := @nil nat) (w := start_work entries DR.2) as (done' & Hw & Hq).
  - intros c. split; [apply (Hdep c 0)|]. intros j Hj. apply (Hdep c j) in Hj as [Hc Hj].
    split; [|by apply Hlist]. destruct Hj as (Hv & _). by apply Hvis.
  - intros j c Hj Hc. apply (Hdep c j). apply Hlist in Hc. split; [|done].
    apply Hlist in Hc. by apply Hcv in Hc as (_ & _ & ? & _).
  - intros j. apply causes_list_nodup.
  - done.
  - by apply work_start.
  - simpl. lia.
  - apply (final_labels (length entries) causes (visible_at entries) Hcv _ _ Hw Hq).
Qed.

(** Without specificities nothing is suppressed. *)
Lemma no_specificity_no_label entries component_attached :
  forallb (fun e => Z.eqb (specificity (e_rule e)) 0) entries = true ->
  forall i, ~ label entries component_attached i false.
Proof.
  intros E0 i Hl. inversion Hl as [|? c Hc _]; subst. destruct Hc as (Hv & _ & h & Hh & _ & Hsp & _).
  assert (forall j, specificity_at entries j = 0%Z) as Hz.
  { intros j. unfold specificity_at, rule_at. destruct (entries !! j) as [e|] eqn:E; [|done]. simpl.
    rewrite forallb_forall in E0. apply Z.eqb_eq, E0.
    apply list_elem_of_In. by eapply list_elem_of_lookup_2. }
  rewrite !Hz in Hsp. lia.
Qed.

(** ** Properties *)

Lemma specificity_keep_outcome entries component_attached control iter :
  (forall lines, iter lines ≡ₚ lines) ->
  exists o, refines control (specificity_keep entries component_attached control iter) o /\
    length (keep o) = length entries /\ length (suppress_reporting o) = length entries /\
    forall i, i < length entries ->
      (nth i (keep o) true = false <->
         label entries component_attached i false /\ ~ exists w, owns entries component_attached w i) /\
      (nth i (suppress_reporting o) false = true <->
         label entries component_attached i false /\ exists w, owns entries component_attached w i).
Proof.
  intros Hiter. unfold specificity_keep. destruct (forallb _ entries) eqn:E0.
  { eexists. split; [apply refines_ret|]. cbn [keep suppress_reporting]. unfold n_entries.
    rewrite !length_replicate. split; [done|]. split; [done|]. intros i Hi.
    pose proof (no_specificity_no_label entries component_attached E0 i) as Hno.
    rewrite !nth_lookup, !lookup_replicate_2 by done. simpl.
    split; split; first [discriminate | intros [Hl _]; by destruct (Hno Hl)]. }
  set (ow := owners (final_search entries component_attached)).
  set (lines := iter (all_lines entries)).
  assert (Hl : lines_ok entries (length entries) lines).
  { eapply lines_ok_perm; [apply Hiter|apply all_lines_ok]. }
  set (DR := fold_left (pend entries ow) (visits entries lines)
    (replicate (length entries) [], replicate (length entries) 0)).
  set (w := run DR.1 (length entries) (start_work entries DR.2)).
  exists (outcome entries ow (reported w)). split.
  - eapply refines_bind; [apply components_refines|].
    eapply refines_bind; [by apply (owners_refines control _ (length entries))|].
    eapply refines_bind; [apply lines_refines|].
    eapply refines_bind; [apply pending_refines|].
    eapply refines_bind; [apply run_refines|]. apply refines_ret.
  - unfold outcome, n_entries. cbn [keep suppress_reporting].
    rewrite !length_map, !length_seq. split; [done|]. split; [done|]. intros i Hi.
    pose proof (run_labels entries component_attached lines Hl i false) as Hlab. cbv zeta in Hlab.
    fold ow DR w in Hlab. unfold rep in Hlab.
    assert (Hsup : match nth i (reported w) None with Some false => true | _ => false end = true <->
      label entries component_attached i false).
    { rewrite <- Hlab. destruct (nth i (reported w) None) as [[]|]; split; congruence || done. }
    assert (Hown : Nat.eqb (length (row ow i)) 0 = false <-> exists x, owns entries component_attached x i).
    { rewrite Nat.eqb_neq. split.
      - intros Hne. destruct (row ow i) as [|x l] eqn:Er; [done|]. exists x.
        apply in_owners. fold ow. rewrite Er. by left.
      - intros (x & Hx) H0. apply in_owners in Hx. fold ow in Hx. apply nil_length_inv in H0. by rewrite H0 in Hx. }
    rewrite !nth_lookup, !list_lookup_fmap, lookup_seq_lt by done. simpl.
    rewrite negb_false_iff, !andb_true_iff, negb_true_iff, Hsup, <- Hown.
    split; [|done]. rewrite not_false_iff_true. done.
Qed.

(** C3. The suppression is the least labelling: whatever the order of the hash
    map of lines, a match loses its report exactly when the rules label it
    suppressed - some cause of it survives, a cause surviving when all its own
    causes are suppressed - and it is then dropped when no visible match owns it
    and only kept from the report when one does. Matches that a cycle of causes
    leaves without a label stay visible. *)
Theorem specificity_keep_exact entries component_attached control iter :
  (forall lines, iter lines ≡ₚ lines) ->
  exists o, refines control (specificity_keep entries component_attached control iter) o /\
    length (keep o) = length entries /\ length (suppress_reporting o) = length entries /\
    forall i, i < length entries ->
      (nth i (keep o) true = false <->
         label entries component_attached i false /\ ~ exists w, owns entries component_attached w i) /\
      (nth i (suppress_reporting o) false = true <->
         label entries component_attached i false /\ exists w, owns entries component_attached w i).
Proof. apply specificity_keep_outcome. Qed.

Definition spec_rule (name : bytes) (vis : bool) (s : Z) (deps : list bytes) : Rule :=
  {| id := name; visible := vis; specificity := s; validation := None;
     depends_on_rule := map (fun d => Some {| verify_candidates := false; dep_rule_id := d; variable := []; optional := false; within := None |}) deps;
     runtime_minimum_confidence := Medium; runtime_dependency_helper := false |}.
(** A helper of the first match contains the value of the second. *)
Definition spec_example : list Entry :=
  [ (spec_rule (bs "a.primary") true 5 [bs "a.helper"], 1, bs "xyz");
    (spec_rule (bs "generic") true 0 [], 1, bs "tok");
    (spec_rule (bs "a.helper") false 3 [], 1, bs "my-tok") ].

Lemma specificity_keep_exact_witness :
  label spec_example (fun _ _ _ => true) 1 false /\
  expect None (let! o := specificity_keep spec_example (fun _ _ _ => true) control_default (@rev _) in ret (Some (keep o)))
    (fun _ => {| is_cancelled := false; now := 0 |}) = Some [true; false; true].
Proof.
  destruct (specificity_keep_exact spec_example (fun _ _ _ => true) control_default (@rev _))
    as (o & Hr & _ & _ & H); [intros; symmetry; apply Permutation_rev|].
  assert (Ho : keep o = [true; false; true]).
  { destruct (Hr (fun _ => {| is_cancelled := false; now := 0 |}) 0) as [Heq|[Hlim _]].
    - vm_compute in Heq. injection Heq as <-. reflexivity.
    - discriminate Hlim. }
  split.
  - apply (proj1 (proj1 (H 1 ltac:(simpl; lia)))). rewrite Ho. reflexivity.
  - vm_compute. reflexivity.
Defined.
