(* ===== verification/Timed.v ===== *)
(** * Runs under a deadline

    The git enumeration checks its deadline at every step and bails out with an
    error when it has passed. A run counts its checks: [late n] says whether the
    [n]-th check finds the deadline passed, and a run is a value or an error. The
    lemmas below take a run apart at a bind, and say when a run can only end in
    the errors its operations raise. *)

From Stdlib Require Import ZArith Lia Bool.
From stdpp Require Import base list numbers option.
From S2P Require Import Prelude.

(** What a run can end in: the deadline, a cycle of commits, a scanner failure, a
    panic; and, for the loops that take fuel, its end. *)
Inductive Error := TimedOut | CommitCycle | ScanFailed | Panicked | OutOfFuel.

Definition Timed (A : Type) : Type := nat -> (A * nat) + (Error * nat).
Definition tret {A} (x : A) : Timed A := fun n => inl (x, n).
Definition tbind {A B} (m : Timed A) (f : A -> Timed B) : Timed B :=
  fun n => match m n with inl (x, n') => f x n' | inr e => inr e end.
Definition throw {A} (e : Error) : Timed A := fun n => inr (e, n).
(** A [Result] that is looked at instead of being passed on with [?]. *)
Definition tcatch {A} (m : Timed A) : Timed (A + Error) :=
  fun n => match m n with inl (x, n') => inl (inl x, n') | inr (e, n') => inl (inr e, n') end.
(** [unwrap] *)
Definition unwrap {A} (o : option A) : Timed A := match o with Some x => tret x | None => throw Panicked end.
(** [check_deadline] *)
Definition check_deadline (late : nat -> bool) : Timed unit :=
  fun n => if late n then inr (TimedOut, S n) else inl (tt, S n).

Declare Scope timed_scope.
Delimit Scope timed_scope with timed.
Notation "'let*' p ':=' m 'in' k" := (tbind m (fun x => match x with p => k end))
  (at level 10, p pattern, m at level 100, k at level 200, only parsing) : timed_scope.
Notation "m ';;*' k" := (tbind m (fun _ => k)) (at level 199, right associativity, only parsing) : timed_scope.
Open Scope timed_scope.

(** A loop over a list. *)
Fixpoint tfold {A S} (f : A -> S -> Timed S) (l : list A) (s : S) : Timed S :=
  match l with [] => tret s | x :: l => tbind (f x s) (tfold f l) end.

Section Lemmas.
Context {A B : Type}.

Lemma tbind_inl (m : Timed A) (f : A -> Timed B) n b n' :
  tbind m f n = inl (b, n') -> exists a n1, m n = inl (a, n1) /\ f a n1 = inl (b, n').
Proof. unfold tbind. destruct (m n) as [[a n1]|[e n1]]; [eauto|done]. Qed.

Lemma tret_inl (a b : A) n n' : tret a n = inl (b, n') -> a = b /\ n = n'.
Proof. by intros [= -> ->]. Qed.
End Lemmas.

Lemma tfold_inl {A S} (f : A -> S -> Timed S) (P : S -> Prop) l s n s' n' :
  (forall x s n s' n', In x l -> P s -> f x s n = inl (s', n') -> P s') ->
  P s -> tfold f l s n = inl (s', n') -> P s'.
Proof.
  revert s n. induction l as [|x l IH]; intros s n Hf Hs; cbn [tfold].
  - by intros [-> ->]%tret_inl.
  - intros (s1 & n1 & H1 & H2)%tbind_inl. eapply IH; [|eapply Hf; [by left|exact Hs|exact H1]|exact H2].
    intros x' ???? Hx. apply Hf. by right.
Qed.

(** The same with a property of the elements left. *)
Lemma tfold_inl_rest {A S} (f : A -> S -> Timed S) (P : list A -> S -> Prop) l s n s' n' :
  (forall x l s n s' n', P (x :: l) s -> f x s n = inl (s', n') -> P l s') ->
  P l s -> tfold f l s n = inl (s', n') -> P [] s'.
Proof.
  intros Hf. revert s n. induction l as [|x l IH]; intros s n Hs; cbn [tfold].
  - by intros [-> ->]%tret_inl.
  - intros (s1 & n1 & H1 & H2)%tbind_inl. eapply IH; [|exact H2]. by eapply Hf.
Qed.

(** Takes every bind and return of a successful run apart. *)
Ltac timed_inv :=
  repeat match goal with
  | H : tbind _ _ _ = inl _ |- _ => apply tbind_inl in H as (? & ? & ? & H)
  | H : tret _ _ = inl _ |- _ => apply tret_inl in H as [? ?]; subst
  | H : throw _ _ = inl _ |- _ => discriminate H
  | H : check_deadline _ _ = inl _ |- _ => clear H
  end.

(** [agrees m m']: whatever [m] gives, [m'] gives, after any number of checks. *)
Definition agrees {A} (m m' : Timed A) : Prop :=
  forall n a n', m n = inl (a, n') -> forall k, exists k', m' k = inl (a, k').

(** A deadline that never passes. *)
Definition never : nat -> bool := fun _ => false.

Section Agrees.
Context {A B : Type}.

Lemma agrees_ret (x : A) : agrees (tret x) (tret x).
Proof. intros n a n' [= <- <-] k. by exists k. Qed.
Lemma agrees_throw e (m : Timed A) : agrees (throw e) m.
Proof. done. Qed.
Lemma agrees_check late : agrees (check_deadline late) (check_deadline never).
Proof. intros n [] n' _ k. by exists (S k). Qed.
Lemma agrees_bind (m m' : Timed A) (f f' : A -> Timed B) :
  agrees m m' -> (forall a, agrees (f a) (f' a)) -> agrees (tbind m f) (tbind m' f').
Proof.
  intros Hm Hf n b n' (a & n1 & H1 & H2)%tbind_inl k. destruct (Hm _ _ _ H1 k) as [k1 Hk].
  destruct (Hf _ _ _ _ H2 k1) as [k2 Hk2]. exists k2. unfold tbind. by rewrite Hk.
Qed.
End Agrees.

Lemma agrees_fold {A B} (f f' : A -> B -> Timed B) l s :
  (forall x s, agrees (f x s) (f' x s)) -> agrees (tfold f l s) (tfold f' l s).
Proof. intros Hf. revert s. induction l as [|x l IH]; intros s; [apply agrees_ret|]. by apply agrees_bind. Qed.
#[export] Hint Resolve agrees_ret agrees_throw agrees_check agrees_bind agrees_fold : kf.

(** [raises E m]: the errors of [m], with the checks made by then, are in [E]. *)
Definition raises {A} (E : Error -> nat -> Prop) (m : Timed A) : Prop :=
  forall n, match m n with inl _ => True | inr (e, k) => E e k end.

Section Raises.
Context {A B : Type} (E : Error -> nat -> Prop).

Lemma raises_ret (x : A) : raises E (tret x).
Proof. done. Qed.
Lemma raises_throw e : (forall k, E e k) -> raises E (@throw A e).
Proof. intros He n. apply He. Qed.
Lemma raises_bind (m : Timed A) (f : A -> Timed B) :
  raises E m -> (forall a n n', m n = inl (a, n') -> raises E (f a)) -> raises E (tbind m f).
Proof.
  intros Hm Hf n. unfold tbind. specialize (Hm n). destruct (m n) as [[a n1]|[e n1]] eqn:Em; [|done]. by eapply Hf.
Qed.
Lemma raises_bind' (m : Timed A) (f : A -> Timed B) :
  raises E m -> (forall a, raises E (f a)) -> raises E (tbind m f).
Proof. intros Hm Hf. apply raises_bind; eauto. Qed.
End Raises.

Lemma raises_unwrap {A} E (x : A) : raises E (unwrap (Some x)).
Proof. apply raises_ret. Qed.

Lemma raises_fold {A S} (f : A -> S -> Timed S) E l s :
  (forall x s, In x l -> raises E (f x s)) -> raises E (tfold f l s).
Proof.
  revert s. induction l as [|x l IH]; intros s Hf; [apply raises_ret|]. cbn [tfold]. apply raises_bind'.
  - apply Hf. by left.
  - intros s'. apply IH. intros ???. apply Hf. by right.
Qed.

(** The last check found the deadline passed. *)
Definition timeout (late : nat -> bool) (e : Error) (k : nat) : Prop :=
  e = TimedOut /\ exists n, k = S n /\ late n = true.

Lemma raises_check (late : nat -> bool) (E : Error -> nat -> Prop) :
  (forall e k, timeout late e k -> E e k) -> raises E (check_deadline late).
Proof. intros HE n. unfold check_deadline. destruct (late n) eqn:El; [|done]. apply HE. split; [done|by exists n]. Qed.

#[export] Hint Resolve raises_ret raises_throw raises_unwrap raises_check : kf.
