(* ===== verification/GitIndex.v ===== *)
(** * Git object index and candidate summaries:
      [src/git_metadata_graph.rs] and [src/git_candidate_summaries.rs]

    The dense numbering of a repository's objects, the sets of trees and blobs
    seen on the way to a commit, and the bounded summaries that let the traversal
    skip a subtree whose candidate blobs were all seen before. Object ids are
    integers; the object database is given by its parameters: the ids in order,
    the header of an object, [find_tree] ([None]: the tree cannot be read; an
    entry that is [None] cannot be decoded) and [find_blob]. Work that the code
    spreads over threads is done in one order, which for the summaries is any
    order of the trees. Bitmaps are finite sets; their sharing between commits is
    not observable. Fewer than 2^32 objects of a kind are assumed where an index
    is made. *)

From Stdlib Require Import ZArith Lia Bool ZifyNat.
From stdpp Require Import base list numbers option gmap.
From S2P Require Import Prelude Timed.

Abbreviation oid := Z.

Inductive Kind := KTree | KBlob | KCommit | KTag.
Inductive EntryKind := Tree | Blob | BlobExecutable | Link | Commit.
Record Entry := { mode : EntryKind; filename : bytes; entry_oid : oid }.
Definition is_blob (k : EntryKind) : bool := match k with Blob | BlobExecutable => true | _ => false end.
Definition is_tree (k : EntryKind) : bool := match k with Tree => true | _ => false end.

(** ** Dense numbering *)

Record ObjectIdBimap := { oid_to_idx : gmap Z nat; idx_to_oid : list oid }.
Definition bimap_empty : ObjectIdBimap := {| oid_to_idx := ∅; idx_to_oid := [] |}.
Definition bimap_insert (m : ObjectIdBimap) (o : oid) : ObjectIdBimap :=
  match oid_to_idx m !! o with
  | Some _ => m
  | None => {| oid_to_idx := <[o := length (idx_to_oid m)]> (oid_to_idx m); idx_to_oid := idx_to_oid m ++ [o] |}
  end.
Definition get_oid (m : ObjectIdBimap) (i : nat) : option oid := idx_to_oid m !! i.
Definition get_idx (m : ObjectIdBimap) (o : oid) : option nat := oid_to_idx m !! o.
Definition bimap_len (m : ObjectIdBimap) : nat := length (idx_to_oid m).

(** ** What has been seen *)

Record SeenObjectSet := mkSeen { seen_trees : gset nat; seen_blobs : gset nat }.
Definition seen_new : SeenObjectSet := mkSeen ∅ ∅.
Definition insert_tree (s : SeenObjectSet) (i : nat) : bool * SeenObjectSet :=
  if bool_decide (i ∈ seen_trees s) then (false, s) else (true, mkSeen ({[i]} ∪ seen_trees s) (seen_blobs s)).
Definition contains_tree (s : SeenObjectSet) (i : nat) : bool := bool_decide (i ∈ seen_trees s).
Definition insert_blob (s : SeenObjectSet) (i : nat) : SeenObjectSet :=
  mkSeen (seen_trees s) ({[i]} ∪ seen_blobs s).
Definition contains_blob (s : SeenObjectSet) (i : nat) : bool := bool_decide (i ∈ seen_blobs s).
Definition union_update (s other : SeenObjectSet) : SeenObjectSet :=
  mkSeen (seen_trees s ∪ seen_trees other) (seen_blobs s ∪ seen_blobs other).

(** ** Candidate summaries *)

(** The state of a tree, a [u32] in the code: unknown, no candidate below, too
    many, one candidate ([id + 3]), or the index of a set ([MULTI | i]). *)
Definition UNKNOWN : Z := 0.
Definition CLEAN : Z := 1.
Definition OVERFLOW : Z := 2.
Definition MULTI : Z := 2 ^ 31.
Definition LIMIT : nat := 4.
Definition MAX_DEPTH : nat := 64.

Record CandidateSummaries := { state_of : list Z; sets : list (list nat) }.

Record RepositoryIndex := {
  trees : ObjectIdBimap; commits : ObjectIdBimap; blobs : ObjectIdBimap; tags : ObjectIdBimap;
  candidate_trees : option (gset nat); content_filtered : bool;
  candidate_summaries : option CandidateSummaries
}.

Definition get_tree_index (ix : RepositoryIndex) (o : oid) : option nat := get_idx (trees ix) o.
Definition get_blob_index (ix : RepositoryIndex) (o : oid) : option nat := get_idx (blobs ix) o.
Definition num_commits (ix : RepositoryIndex) : nat := bimap_len (commits ix).
Definition num_blobs (ix : RepositoryIndex) : nat := bimap_len (blobs ix).
Definition num_trees (ix : RepositoryIndex) : nat := bimap_len (trees ix).
Definition num_tags (ix : RepositoryIndex) : nat := bimap_len (tags ix).
Definition num_objects (ix : RepositoryIndex) : nat := num_commits ix + num_blobs ix + num_tags ix + num_trees ix.
Definition get_tree_oid (ix : RepositoryIndex) (i : nat) : option oid := get_oid (trees ix) i.
Definition is_candidate_tree (ix : RepositoryIndex) (i : nat) : bool :=
  match candidate_trees ix with Some t => bool_decide (i ∈ t) | None => true end.

(** The candidates a state stands for; [None]: not known. A state with the top
    bit is at least [MULTI]. *)
Definition state_ids (sets : list (list nat)) (state : Z) : option (list nat) :=
  if (state ==? UNKNOWN) || (state ==? OVERFLOW) then None
  else if state ==? CLEAN then Some []
  else if (state <? MULTI)%Z then Some [Z.to_nat (state - 3)]
  else sets !! Z.to_nat (state - MULTI).

(** [covered]; [false] also where the code would index out of range. *)
Definition covered (s : CandidateSummaries) (tree : nat) (ancestors : gset nat) : bool :=
  match state_of s !! tree with
  | None => false
  | Some state =>
    match state_ids (sets s) state with
    | Some ids => forallb (fun i => bool_decide (i ∈ ancestors)) ids
    | None => false
    end
  end.
Definition tree_is_covered (ix : RepositoryIndex) (tree : nat) (seen : SeenObjectSet) : bool :=
  match candidate_summaries ix with Some s => covered s tree (seen_blobs seen) | None => false end.

Definition relevant (s : CandidateSummaries) : gset nat :=
  list_to_set (map fst (List.filter (fun '(_, st) => negb (st ==? CLEAN)) (enumerate (state_of s)))).

(** [sort_unstable] and [dedup] of a short list of numbers. *)
Fixpoint insert_sorted (x : nat) (l : list nat) : list nat :=
  match l with
  | [] => [x]
  | y :: r => if x <? y then x :: l else if Nat.eqb x y then l else y :: insert_sorted x r
  end.
Definition sorted_union (a b : list nat) : list nat := fold_left (fun acc x => insert_sorted x acc) b a.

(** [merge]: the candidates with those of a state added, and whether they are
    known and few. *)
Definition merge (sets : list (list nat)) (state : Z) (out : list nat) : list nat * bool :=
  match state_ids sets state with
  | None => (out, false)
  | Some ids => let out := sorted_union out ids in (out, length out <=? LIMIT)
  end.

Section Summaries.
Context (late : nat -> bool) (ix : RepositoryIndex) (find_tree : oid -> option (list (option Entry))).

(** The entries of one tree: its child trees, the candidates among its blobs and
    whether they are too many or unknown. *)
Fixpoint summarize_entries (sets : list (list nat)) (entries : list (option Entry)) (children ids : list nat) :
    Timed (list nat * list nat * bool) :=
  match entries with
  | [] => tret (children, ids, false)
  | entry :: entries =>
    check_deadline late ;;*
    match entry with
    | None => tret (children, ids, true)
    | Some e =>
      if is_blob (mode e) then
        match get_blob_index ix (entry_oid e) with
        | Some id =>
          if (MULTI - 3 <=? Z.of_nat id)%Z then tret (children, ids, true)
          else
            let '(ids, ok) := merge sets (Z.of_nat id + 3) ids in
            if ok then summarize_entries sets entries children ids else tret (children, ids, true)
        | None => summarize_entries sets entries children ids
        end
      else if is_tree (mode e) then
        match get_tree_index ix (entry_oid e) with
        | Some c => summarize_entries sets entries (children ++ [c]) ids
        | None => summarize_entries sets entries children ids
        end
      else summarize_entries sets entries children ids
    end
  end.

(** The position of a set that was interned before. *)
Fixpoint find_set (sets : list (list nat)) (ids : list nat) (i : nat) : option nat :=
  match sets with
  | [] => None
  | s :: sets => if bool_decide (s = ids) then Some i else find_set sets ids (S i)
  end.

(** The state of a tree with these candidates, interned if there are several. *)
Definition encode_ids (ids : list nat) (s : CandidateSummaries) : Z * CandidateSummaries :=
  match ids with
  | [] => (CLEAN, s)
  | [id] => (Z.of_nat id + 3, s)%Z
  | _ =>
    match find_set (sets s) ids 0 with
    | Some i => (MULTI + Z.of_nat i, s)%Z
    | None =>
      if (MULTI <=? Z.of_nat (length (sets s)))%Z then (OVERFLOW, s)
      else (MULTI + Z.of_nat (length (sets s)), {| state_of := state_of s; sets := sets s ++ [ids] |})%Z
    end
  end.

Definition store (s : CandidateSummaries) (tree : nat) (state : Z) : CandidateSummaries :=
  {| state_of := <[tree := state]> (state_of s); sets := sets s |}.

(** The children in order, each summarised by [child]. *)
Fixpoint summarize_children (child : nat -> CandidateSummaries -> Timed (Z * CandidateSummaries))
    (children ids : list nat) (s : CandidateSummaries) : Timed (list nat * bool * CandidateSummaries) :=
  match children with
  | [] => tret (ids, false, s)
  | c :: children =>
    let* (state, s) := child c s in
    let '(ids, ok) := merge (sets s) state ids in
    if ok then summarize_children child children ids s else tret (ids, true, s)
  end.

(** [levels] is [64 - depth]. *)
Fixpoint summarize (levels : nat) (tree : nat) (s : CandidateSummaries) : Timed (Z * CandidateSummaries) :=
  let cached := nth tree (state_of s) UNKNOWN in
  if negb (cached ==? UNKNOWN) then tret (cached, s)
  else
    check_deadline late ;;*
    match levels with
    | 0 => tret (OVERFLOW, s)
    | S levels =>
      let* (children, ids, overflow) :=
        match match get_tree_oid ix tree with Some o => find_tree o | None => None end with
        | None => tret ([], [], true)
        | Some entries => summarize_entries (sets s) entries [] []
        end in
      let* (ids, overflow, s) :=
        (if overflow : bool then tret (ids, true, s) else summarize_children (summarize levels) children ids s) in
      let '(result, s) := if overflow : bool then (OVERFLOW, s) else encode_ids ids s in
      tret (result, store s tree result)
    end.

(** The trees are summarised in the order the worker threads take them. *)
Definition build (order : list nat) : Timed CandidateSummaries :=
  tfold (fun tree s => let* (_, s) := summarize MAX_DEPTH tree s in tret s) order
    {| state_of := replicate (num_trees ix) UNKNOWN; sets := [] |}.
End Summaries.

(** [CandidateSummaries::retain] *)
Definition retain (s : CandidateSummaries) (selected : gset nat) : CandidateSummaries :=
  {| state_of := map snd (List.filter (fun '(i, _) => bool_decide (i ∈ selected)) (enumerate (state_of s)));
     sets := sets s |}.

(** ** Building the index *)

Definition MIN_SCANNABLE_BLOB_SIZE : Z := 20.
Definition BATCH_SIZE : nat := Z.to_nat 4096.

Section Build.
Context (late : nat -> bool) (header : oid -> option (Kind * Z)).

(** What one object of the database is indexed as. *)
Definition classify (object : option oid) : option (Kind * oid) :=
  match object with
  | None => None
  | Some o =>
    match header o with
    | None => None
    | Some (KBlob, size) => if (size <? MIN_SCANNABLE_BLOB_SIZE)%Z then None else Some (KBlob, o)
    | Some (kind, _) => Some (kind, o)
    end
  end.

Definition index_empty : RepositoryIndex :=
  {| trees := bimap_empty; commits := bimap_empty; blobs := bimap_empty; tags := bimap_empty;
     candidate_trees := None; content_filtered := false; candidate_summaries := None |}.

Definition index_insert (ix : RepositoryIndex) (object : option (Kind * oid)) : RepositoryIndex :=
  match object with
  | None => ix
  | Some (kind, o) =>
    {| trees := match kind with KTree => bimap_insert (trees ix) o | _ => trees ix end;
       commits := match kind with KCommit => bimap_insert (commits ix) o | _ => commits ix end;
       blobs := match kind with KBlob => bimap_insert (blobs ix) o | _ => blobs ix end;
       tags := match kind with KTag => bimap_insert (tags ix) o | _ => tags ix end;
       candidate_trees := candidate_trees ix; content_filtered := content_filtered ix;
       candidate_summaries := candidate_summaries ix |}
  end.

(** One batch: the headers are all read before the objects are numbered. *)
Definition index_batch (batch : list (option oid)) (ix : RepositoryIndex) : Timed RepositoryIndex :=
  let* found := tfold (fun o found => check_deadline late ;;* tret (found ++ [classify o])) batch [] in
  tret (fold_left index_insert found ix).

Fixpoint index_batches (fuel : nat) (objects : list (option oid)) (ix : RepositoryIndex) : Timed RepositoryIndex :=
  match fuel with
  | 0 => throw OutOfFuel
  | S fuel =>
    check_deadline late ;;*
    match take BATCH_SIZE objects with
    | [] => tret ix
    | batch => let* ix := index_batch batch ix in index_batches fuel (drop BATCH_SIZE objects) ix
    end
  end.

(** [RepositoryIndex::new_with_deadline] *)
Definition new_with_deadline (objects : list (option oid)) : Timed RepositoryIndex :=
  index_batches (S (length objects)) objects index_empty.
End Build.

(** [retain_blob_indexes] *)
Definition retain_blob_indexes (ix : RepositoryIndex) (keep : nat -> bool) : RepositoryIndex :=
  {| trees := trees ix; commits := commits ix;
     blobs := fold_left (fun m '(i, o) => if keep i : bool then bimap_insert m o else m)
                (enumerate (idx_to_oid (blobs ix))) bimap_empty;
     tags := tags ix; candidate_trees := candidate_trees ix; content_filtered := true;
     candidate_summaries := candidate_summaries ix |}.

(** ** The content prepass *)

(** [GitContentFilter]: the size limit, and whether some content may match, which
    asks the multi-pattern scanner ([None]: it fails). *)
Record GitContentFilter := { max_blob_size : option Z; may_match : bytes -> option bool }.
Definition exceeds_max_blob_size (f : GitContentFilter) (size : Z) : bool :=
  match max_blob_size f with Some limit => (limit <? size)%Z | None => false end.
Definition MAX_PREPASS_BLOB_BYTES : Z := 4 * 1024 * 1024.

Section Prepass.
Context (late : nat -> bool) (header : oid -> option (Kind * Z)) (find_blob : oid -> option bytes)
        (f : GitContentFilter).

(** Whether one blob stays a candidate. *)
Definition keep_blob (o : oid) : Timed bool :=
  check_deadline late ;;*
  let read :=
    match find_blob o with
    | Some data => match may_match f data with Some b => tret b | None => throw ScanFailed end
    | None => tret true
    end in
  match header o with
  | Some (_, size) =>
    if exceeds_max_blob_size f size then tret false
    else if (MAX_PREPASS_BLOB_BYTES <? size)%Z then tret true
    else read
  | None => read
  end.

Definition retain_content_candidates (ix : RepositoryIndex) : Timed RepositoryIndex :=
  let* selected := tfold (fun o bits => let* b := keep_blob o in tret (bits ++ [b])) (idx_to_oid (blobs ix)) [] in
  tret (retain_blob_indexes ix (fun i => nth i selected false)).
End Prepass.

(** [prepare_candidate_trees] *)
Definition prepare_candidate_trees (late : nat -> bool) (find_tree : oid -> option (list (option Entry)))
    (order : list nat) (ix : RepositoryIndex) : Timed RepositoryIndex :=
  let* s := build late ix find_tree order in
  tret {| trees := trees ix; commits := commits ix; blobs := blobs ix; tags := tags ix;
          candidate_trees := Some (relevant s); content_filtered := content_filtered ix;
          candidate_summaries := Some s |}.

(** ** The numbering is a bijection *)

(** Numbers and ids of a bimap built by insertions. *)
Definition bimap_ok (m : ObjectIdBimap) : Prop :=
  forall o i, oid_to_idx m !! o = Some i <-> idx_to_oid m !! i = Some o.

Lemma bimap_empty_ok : bimap_ok bimap_empty.
Proof. intros o i. simpl. by rewrite lookup_empty. Qed.

Lemma bimap_insert_ok m o : bimap_ok m -> bimap_ok (bimap_insert m o).
Proof.
  intros Hm. unfold bimap_insert. destruct (oid_to_idx m !! o) as [k|] eqn:E; [done|].
  intros o' i. cbn [oid_to_idx idx_to_oid]. rewrite lookup_insert_Some, lookup_app_Some, list_lookup_singleton_Some.
  rewrite (Hm o' i). split.
  - intros [[<- <-]|[Hne H]]; [right; split; [lia|split; [lia|done]]|by left].
  - intros [H|(Hi & Hk & <-)]; [|left; split; [done|lia]]. right. split; [|done]. intros <-.
    apply Hm in H. congruence.
Qed.

(** ** What is below a tree *)

Section Below.
Context (late : nat -> bool) (ix : RepositoryIndex) (find_tree : oid -> option (list (option Entry))).

Definition tree_entry (t : nat) (e : Entry) : Prop :=
  exists o es, get_tree_oid ix t = Some o /\ find_tree o = Some es /\ In (Some e) es.

(** The candidate blob [b] is in the tree [t] or in an indexed tree below it. *)
Inductive tree_blob (t : nat) : nat -> Prop :=
| tree_blob_here e b :
    tree_entry t e -> is_blob (mode e) = true -> get_blob_index ix (entry_oid e) = Some b -> tree_blob t b
| tree_blob_below e c b :
    tree_entry t e -> is_blob (mode e) = false -> is_tree (mode e) = true ->
    get_tree_index ix (entry_oid e) = Some c -> tree_blob c b -> tree_blob t b.

Lemma insert_sorted_elem x y l : In x (insert_sorted y l) <-> x = y \/ In x l.
Proof.
  induction l as [|z l IH]; cbn [insert_sorted]; [simpl; intuition congruence|].
  destruct (y <? z); [simpl; intuition congruence|]. destruct (Nat.eqb_spec y z) as [->|]; simpl; [intuition congruence|].
  rewrite IH. intuition congruence.
Qed.

Lemma sorted_union_elem x a b : In x (sorted_union a b) <-> In x a \/ In x b.
Proof.
  unfold sorted_union. revert a; induction b as [|y b IH]; intros a; simpl; [tauto|].
  rewrite IH, insert_sorted_elem. intuition congruence.
Qed.

Definition small (ids : list nat) : Prop := Forall (fun i => (Z.of_nat i < MULTI - 3)%Z) ids.

(** States that stand for a list, or that say that it is not known. *)
Definition known (sets : list (list nat)) (state : Z) : Prop :=
  (exists ids, state_ids sets state = Some ids) \/ state = UNKNOWN \/ state = OVERFLOW.

(** The sets are of small numbers, and every state of a tree that stands for a
    list stands for exactly the candidates below the tree. *)
Definition sets_ok (sets : list (list nat)) : Prop := Forall small sets.
Definition state_ok (sets : list (list nat)) (t : nat) (state : Z) : Prop :=
  (0 <= state)%Z /\ known sets state /\
  forall ids, state_ids sets state = Some ids -> forall b, In b ids <-> tree_blob t b.
Definition summaries_ok (s : CandidateSummaries) : Prop :=
  sets_ok (sets s) /\ forall t state, state_of s !! t = Some state -> state_ok (sets s) t state.

Lemma state_ids_mono sets more state ids :
  state_ids sets state = Some ids -> state_ids (sets ++ more) state = Some ids.
Proof. unfold state_ids. repeat case_match; try done. intros H'. by apply lookup_app_l_Some. Qed.

Lemma known_mono sets more state : known sets state -> known (sets ++ more) state.
Proof. intros [[ids H]|H]; [left; exists ids; by apply state_ids_mono|by right]. Qed.

Lemma state_ok_mono sets more t state : state_ok sets t state -> state_ok (sets ++ more) t state.
Proof.
  intros (Hs & Hk & H). split_and!; [done|by apply known_mono|]. intros ids Hids.
  destruct Hk as [[ids' Hi]|[->| ->]]; [|done|done].
  rewrite (state_ids_mono _ _ _ _ Hi) in Hids. injection Hids as ->. by apply H.
Qed.

Lemma state_ok_overflow sets t : state_ok sets t OVERFLOW.
Proof. split_and!; [done|by right; right|done]. Qed.

(** The state of one candidate. *)
Lemma state_ids_one sets i : (Z.of_nat i < MULTI - 3)%Z -> state_ids sets (Z.of_nat i + 3) = Some [i].
Proof.
  intros Hi. unfold state_ids.
  rewrite (proj2 (Z.eqb_neq _ UNKNOWN)), (proj2 (Z.eqb_neq _ OVERFLOW)), (proj2 (Z.eqb_neq _ CLEAN)),
    (proj2 (Z.ltb_lt _ MULTI)) by (unfold UNKNOWN, OVERFLOW, CLEAN; lia).
  simpl. do 2 f_equal. lia.
Qed.

(** The state of an interned set. *)
Lemma state_ids_multi sets i : state_ids sets (MULTI + Z.of_nat i) = sets !! i.
Proof.
  unfold state_ids.
  rewrite (proj2 (Z.eqb_neq _ UNKNOWN)), (proj2 (Z.eqb_neq _ OVERFLOW)), (proj2 (Z.eqb_neq _ CLEAN)),
    (proj2 (Z.ltb_ge _ MULTI)) by (unfold UNKNOWN, OVERFLOW, CLEAN, MULTI; lia).
  simpl. f_equal. lia.
Qed.

Lemma state_ids_small sets state ids :
  sets_ok sets -> (0 <= state)%Z -> state_ids sets state = Some ids -> small ids.
Proof.
  intros Hs H0. unfold state_ids. destruct (_ || _) eqn:E1; [done|].
  destruct (state ==? CLEAN) eqn:E3; [intros [= <-]; constructor|].
  destruct (state <? MULTI)%Z eqn:E2.
  - intros [= <-]. repeat constructor. apply orb_false_iff in E1 as [E0 E1].
    unfold UNKNOWN, OVERFLOW, CLEAN in *. tobool. lia.
  - intros H. apply list_elem_of_lookup_2 in H. unfold sets_ok in Hs. rewrite Forall_forall in Hs. by apply Hs.
Qed.

Lemma merge_spec sets state out out' :
  sets_ok sets -> (0 <= state)%Z -> small out -> merge sets state out = (out', true) ->
  exists ids, state_ids sets state = Some ids /\ small out' /\ forall b, In b out' <-> In b out \/ In b ids.
Proof.
  intros Hs H0 Ho. unfold merge. destruct (state_ids sets state) as [ids|] eqn:E; [|done]. intros [= <- _].
  exists ids. split; [done|]. pose proof (state_ids_small _ _ _ Hs H0 E) as Hi.
  split; [|intros b; apply sorted_union_elem]. unfold small in *. rewrite Forall_forall in *. intros x Hx%list_elem_of_In.
  apply sorted_union_elem in Hx as [Hx|Hx]; [apply Ho|apply Hi]; by apply list_elem_of_In.
Qed.

(** What the entries of a list lead to: candidates of their own and indexed
    trees. *)
Definition entry_blob (entries : list (option Entry)) (b : nat) : Prop :=
  exists e, In (Some e) entries /\ is_blob (mode e) = true /\ get_blob_index ix (entry_oid e) = Some b.
Definition entry_child (entries : list (option Entry)) (c : nat) : Prop :=
  exists e, In (Some e) entries /\ is_blob (mode e) = false /\ is_tree (mode e) = true /\
    get_tree_index ix (entry_oid e) = Some c.

Lemma entry_blob_cons e entries b :
  entry_blob (Some e :: entries) b <->
  (is_blob (mode e) = true /\ get_blob_index ix (entry_oid e) = Some b) \/ entry_blob entries b.
Proof.
  unfold entry_blob. split.
  - intros (e' & [[= <-]|H] & Hb & Hi); [by left|right; eauto].
  - intros [[Hb Hi]|(e' & H & ?)]; [exists e|exists e']; (split; [simpl; auto|done]).
Qed.

Lemma entry_child_cons e entries c :
  entry_child (Some e :: entries) c <->
  (is_blob (mode e) = false /\ is_tree (mode e) = true /\ get_tree_index ix (entry_oid e) = Some c) \/
  entry_child entries c.
Proof.
  unfold entry_child. split.
  - intros (e' & [[= <-]|H] & Hb & Hi); [by left|right; eauto].
  - intros [[Hb Hi]|(e' & H & ?)]; [exists e|exists e']; (split; [simpl; auto|done]).
Qed.

(** Reading the entries: the children are the indexed trees and the numbers are
    those of the indexed blobs. *)
Lemma summarize_entries_spec sets entries children ids n children' ids' n' :
  sets_ok sets -> small ids ->
  summarize_entries late ix sets entries children ids n = inl (children', ids', false, n') ->
  small ids' /\ (forall b, In b ids' <-> In b ids \/ entry_blob entries b) /\
  (forall c, In c children' <-> In c children \/ entry_child entries c).
Proof.
  intros Hs. revert children ids n.
  induction entries as [|[e|] entries IH]; intros children ids n Hi H; cbn [summarize_entries] in H; timed_inv.
  { simplify_eq. split_and!; [done|intros b|intros c]; (split; [by left|intros [?|(e & [] & _)]; done]). }
  2: { simplify_eq. }
  setoid_rewrite entry_blob_cons. setoid_rewrite entry_child_cons.
  destruct (is_blob (mode e)) eqn:Eb; [destruct (get_blob_index ix (entry_oid e)) as [id|] eqn:Ei|
    destruct (is_tree (mode e)) eqn:Et; [destruct (get_tree_index ix (entry_oid e)) as [c0|] eqn:Ec|]].
  - destruct (MULTI - 3 <=? Z.of_nat id)%Z eqn:Eg; [timed_inv; simplify_eq|].
    destruct (merge sets (Z.of_nat id + 3) ids) as [ids1 ok] eqn:Em. destruct ok; [|timed_inv; simplify_eq]. tobool.
    destruct (merge_spec sets (Z.of_nat id + 3) ids ids1 Hs ltac:(lia) Hi Em) as (new & Hn & Hi1 & Hm).
    rewrite state_ids_one in Hn by lia. injection Hn as <-.
    destruct (IH _ _ _ Hi1 H) as (H1 & H2 & H3). split_and!; [done| |]; intros y; [rewrite H2, Hm|rewrite H3]; simpl;
      intuition congruence.
  - destruct (IH _ _ _ Hi H) as (H1 & H2 & H3). split_and!; [done| |]; intros y; [rewrite H2|rewrite H3];
      intuition congruence.
  - destruct (IH _ _ _ Hi H) as (H1 & H2 & H3). split_and!; [done| |]; intros y; [rewrite H2|rewrite H3, in_app_iff];
      simpl; intuition congruence.
  - destruct (IH _ _ _ Hi H) as (H1 & H2 & H3). split_and!; [done| |]; intros y; [rewrite H2|rewrite H3];
      intuition congruence.
  - destruct (IH _ _ _ Hi H) as (H1 & H2 & H3). split_and!; [done| |]; intros y; [rewrite H2|rewrite H3];
      intuition congruence.
Qed.

Lemma tree_blob_entries t o es b :
  get_tree_oid ix t = Some o -> find_tree o = Some es ->
  tree_blob t b <-> entry_blob es b \/ exists c, entry_child es c /\ tree_blob c b.
Proof.
  intros Ho He. split.
  - intros [e b' (o' & es' & Ho' & He' & Hin) Hb Hi|e c b' (o' & es' & Ho' & He' & Hin) Hb Ht Hc Hbc];
      simplify_eq; [left; by exists e|right; exists c; split; [by exists e|done]].
  - intros [(e & Hin & Hb & Hi)|(c & (e & Hin & Hb & Ht & Hc) & Hbc)].
    + eapply tree_blob_here; [by exists o, es|done|done].
    + eapply tree_blob_below; [by exists o, es|done|done|done|done].
Qed.

(** Summaries only grow: the states stay right and sets are appended. *)
Definition grows (s s' : CandidateSummaries) : Prop :=
  summaries_ok s' /\ length (state_of s') = length (state_of s) /\ exists more, sets s' = sets s ++ more.

Lemma grows_refl s : summaries_ok s -> grows s s.
Proof. intros H. split_and!; [done|done|exists []; by rewrite app_nil_r]. Qed.

Lemma grows_trans s1 s2 s3 : grows s1 s2 -> grows s2 s3 -> grows s1 s3.
Proof.
  intros (_ & L1 & m1 & H1) (H & L2 & m2 & H2).
  split_and!; [done|congruence|exists (m1 ++ m2); by rewrite H2, H1, app_assoc].
Qed.

Lemma grows_state_ok s s' t state : grows s s' -> state_ok (sets s) t state -> state_ok (sets s') t state.
Proof. intros (_ & _ & more & ->). apply state_ok_mono. Qed.

Lemma store_grows s t state : summaries_ok s -> state_ok (sets s) t state -> grows s (store s t state).
Proof.
  intros [Hs Ht] Hst. split_and!; [split; [done|]|apply length_insert|exists []; by rewrite app_nil_r].
  intros t' state'. cbn. rewrite list_lookup_insert_Some. intros [(<- & <- & _)|[_ H]]; [done|by apply Ht].
Qed.

Lemma find_set_lookup l ids : forall i j, find_set l ids i = Some j -> exists k, j = i + k /\ l !! k = Some ids.
Proof.
  induction l as [|x l IH]; intros i j; cbn [find_set]; [done|]. case_bool_decide as E.
  - intros [= <-]. exists 0. split; [lia|by rewrite E].
  - intros (k & -> & Hk)%IH. exists (S k). split; [lia|done].
Qed.

Lemma encode_ids_grows ids s t state s' :
  summaries_ok s -> small ids -> (forall b, In b ids <-> tree_blob t b) -> encode_ids ids s = (state, s') ->
  grows s s' /\ state_ok (sets s') t state.
Proof.
  intros Hs Hi Hb.
  assert (Hone : forall l st, (0 <= st)%Z -> state_ids l st = Some ids -> state_ok l t st).
  { intros l st H0 Hst. split_and!; [done|left; eauto|]. by intros ids' [= <-]%(eq_trans (eq_sym Hst)). }
  unfold encode_ids. destruct ids as [|i [|i2 r]].
  - intros [= <- <-]. split; [by apply grows_refl|by apply Hone].
  - intros [= <- <-]. split; [by apply grows_refl|]. apply Forall_inv in Hi. apply Hone; [lia|by apply state_ids_one].
  - destruct (find_set (sets s) (i :: i2 :: r) 0) as [j|] eqn:Ej; [|case_match; [|]]; intros [= <- <-].
    + apply find_set_lookup in Ej as (k & -> & Hk). split; [by apply grows_refl|].
      apply Hone; [unfold MULTI; lia|by rewrite state_ids_multi].
    + split; [by apply grows_refl|apply state_ok_overflow].
    + destruct Hs as [Hss Hst]. split.
      * split_and!; [split|done|by exists [i :: i2 :: r]]; cbn.
        -- apply Forall_app. by split; [|constructor].
        -- intros t' st' Hl. by apply state_ok_mono, Hst.
      * apply Hone; [unfold MULTI; lia|]. by rewrite state_ids_multi; cbn; rewrite lookup_app_r, Nat.sub_diag.
Qed.

(** A summary of a subtree. *)
Definition child_ok (child : nat -> CandidateSummaries -> Timed (Z * CandidateSummaries)) : Prop :=
  forall c s n state s' n', summaries_ok s -> child c s n = inl (state, s', n') ->
    grows s s' /\ state_ok (sets s') c state.

Lemma summarize_children_grows child children ids s n ids' over s' n' :
  child_ok child -> summaries_ok s -> small ids ->
  summarize_children child children ids s n = inl (ids', over, s', n') ->
  grows s s' /\ (over = false -> small ids' /\
    forall b, In b ids' <-> In b ids \/ exists c, In c children /\ tree_blob c b).
Proof.
  intros Hc. revert ids s n. induction children as [|c children IH]; intros ids s n Hs Hi H; cbn [summarize_children] in H.
  - timed_inv. simplify_eq. split; [by apply grows_refl|]. intros _. split; [done|]. intros b.
    split; [by left|by intros [?|(? & [] & _)]].
  - apply tbind_inl in H as ([state s1] & n1 & Hch & H). destruct (Hc _ _ _ _ _ _ Hs Hch) as [Hg Hst].
    destruct (merge (sets s1) state ids) as [ids1 ok] eqn:Em. destruct ok; [|timed_inv; by simplify_eq].
    pose proof Hg as [[Hs1 Hs1'] _]. destruct Hst as (H0 & _ & Hst).
    destruct (merge_spec _ _ _ _ Hs1 H0 Hi Em) as (new & Hn & Hi1 & Hm).
    destruct (IH _ _ _ (conj Hs1 Hs1') Hi1 H) as [Hg' Hr]. split; [by eapply grows_trans|].
    intros Ho. destruct (Hr Ho) as [Hsm Hb]. split; [done|]. intros b.
    rewrite Hb, Hm, (Hst _ Hn). simpl. split.
    + intros [[?|?]|(c' & ? & ?)]; eauto.
    + intros [?|(c' & [<-|?] & ?)]; eauto.
Qed.

Lemma nth_set (l : list Z) i : nth i l UNKNOWN <> UNKNOWN -> l !! i = Some (nth i l UNKNOWN).
Proof. intros H. destruct (nth_lookup_or_length l i UNKNOWN) as [E|E]; [done|]. by rewrite nth_overflow in H. Qed.

Lemma summarize_ok levels : child_ok (summarize late ix find_tree levels).
Proof.
  induction levels as [|levels IH]; intros t s n state s' n' Hs H; cbn [summarize] in H.
  all: destruct (negb (nth t (state_of s) UNKNOWN ==? UNKNOWN)) eqn:Ec;
    [timed_inv; simplify_eq; split; [by apply grows_refl|]; apply (proj2 Hs), nth_set; by tobool|].
  all: apply tbind_inl in H as (u & n1 & _ & H).
  { timed_inv. simplify_eq. split; [by apply grows_refl|apply state_ok_overflow]. }
  apply tbind_inl in H as ([[children ids] over] & n2 & He & H).
  apply tbind_inl in H as ([[ids2 over2] s2] & n3 & Hc & H).
  assert (grows s s2 /\ (over2 = false -> small ids2 /\ forall b, In b ids2 <-> tree_blob t b)) as [Hg Hb].
  { destruct over; [timed_inv; simplify_eq; split; [by apply grows_refl|done]|].
    destruct (get_tree_oid ix t) as [o|] eqn:Eo; [|timed_inv; simplify_eq].
    destruct (find_tree o) as [es|] eqn:Et; [|timed_inv; simplify_eq].
    apply summarize_entries_spec in He as (Hi & Hb & Hch); [|apply Hs|constructor].
    destruct (summarize_children_grows _ _ _ _ _ _ _ _ _ IH Hs Hi Hc) as [Hg Hr]. split; [done|].
    intros Ho. destruct (Hr Ho) as [Hsm Hr']. split; [done|]. intros b.
    rewrite Hr', Hb, (tree_blob_entries t o es b Eo Et). setoid_rewrite Hch. simpl. naive_solver. }
  pose proof Hg as [Hs2 _]. destruct over2.
  - timed_inv. simplify_eq. pose proof (store_grows s2 t _ Hs2 (state_ok_overflow (sets s2) t)) as Hg2.
    split; [by eapply grows_trans|apply state_ok_overflow].
  - destruct (Hb eq_refl) as [Hsm Hb'].
    destruct (encode_ids ids2 s2) as [result s3] eqn:Ee.
    destruct (encode_ids_grows _ _ _ _ _ Hs2 Hsm Hb' Ee) as [Hg3 Hst]. timed_inv. simplify_eq.
    split; [|exact Hst]. do 2 (eapply grows_trans; [eassumption|]). apply store_grows; [apply Hg3|done].
Qed.

Lemma build_ok order n s n' :
  build late ix find_tree order n = inl (s, n') -> summaries_ok s /\ length (state_of s) = num_trees ix.
Proof.
  unfold build. apply (tfold_inl _ (fun s => summaries_ok s /\ length (state_of s) = num_trees ix)).
  - intros t s1 m s2 m' _ [Hs Hl] H. apply tbind_inl in H as ([state s3] & m1 & H & H2). apply tret_inl in H2 as [<- <-].
    destruct (summarize_ok _ _ _ _ _ _ _ Hs H) as [(Hs2 & Hl2 & _) _]. split; [done|congruence].
  - split; [|apply length_replicate]. split; [constructor|]. intros t state [-> _]%lookup_replicate.
    split_and!; [done|by right; left|done].
Qed.

(** Preparing the summaries can only time out. *)
Lemma summarize_entries_raises sets entries children ids :
  raises (timeout late) (summarize_entries late ix sets entries children ids).
Proof.
  revert children ids. induction entries as [|[e|] entries IH]; intros children ids; cbn [summarize_entries]; [done| |];
    (apply raises_bind'; [by apply raises_check|intros _]); [|done].
  repeat (case_match; try done); apply IH.
Qed.

Lemma summarize_children_raises child children ids s :
  (forall c s, raises (timeout late) (child c s)) -> raises (timeout late) (summarize_children child children ids s).
Proof.
  intros Hc. revert ids s. induction children as [|c children IH]; intros ids s; cbn [summarize_children]; [done|].
  apply raises_bind'; [apply Hc|intros [st s1]]. repeat case_match; [apply IH|done].
Qed.

Lemma summarize_raises levels : forall t s, raises (timeout late) (summarize late ix find_tree levels t s).
Proof.
  induction levels as [|levels IH]; intros t s; cbn [summarize];
    (case_match; [done|]); (apply raises_bind'; [by apply raises_check|intros _]); [done|].
  apply raises_bind'; [repeat case_match; [apply summarize_entries_raises|done..]|intros [[children ids] over]].
  apply raises_bind'; [|intros [[ids2 over2] s2]; repeat case_match; done]. destruct over; [done|].
  by apply summarize_children_raises.
Qed.

Lemma build_raises order : raises (timeout late) (build late ix find_tree order).
Proof.
  apply raises_fold. intros t s _. apply raises_bind'; [apply summarize_raises|by intros [? ?]].
Qed.

(** What the summaries answer. *)
Lemma covered_sound s t anc b : summaries_ok s -> covered s t anc = true -> tree_blob t b -> b ∈ anc.
Proof.
  intros [_ Hs]. unfold covered. destruct (state_of s !! t) as [state|] eqn:Es; [|done].
  destruct (state_ids (sets s) state) as [ids|] eqn:Ei; [|done]. intros H Hb.
  rewrite forallb_forall in H. eapply bool_decide_eq_true_1, H. by apply (proj2 (proj2 (Hs _ _ Es)) _ Ei).
Qed.

Lemma relevant_spec s t : t ∈ relevant s <-> exists state, state_of s !! t = Some state /\ state <> CLEAN.
Proof.
  unfold relevant. rewrite elem_of_list_to_set, list_elem_of_In, in_map_iff. split.
  - intros ([i st] & <- & [Hi Hc]%filter_In). apply in_enumerate in Hi. exists st. split; [done|]. by tobool.
  - intros (st & Hl & Hn). exists (t, st). split; [done|]. apply filter_In. split; [by apply in_enumerate|].
    apply negb_true_iff. by apply Z.eqb_neq.
Qed.

Lemma irrelevant_clean s t b :
  summaries_ok s -> length (state_of s) = num_trees ix -> t ∉ relevant s -> ~ tree_blob t b.
Proof.
  clear late. intros [_ Hs] Hl Ht Hb. destruct (state_of s !! t) as [state|] eqn:Es.
  - destruct (Z.eq_dec state CLEAN) as [->|Hn]; [|apply Ht, relevant_spec; eauto].
    destruct (proj2 (proj2 (Hs _ _ Es)) [] eq_refl b) as [_ H]. by destruct (H Hb).
  - apply lookup_ge_None in Es. destruct Hb as [? ? (o & ? & Ho & _)|? ? ? (o & ? & Ho & _)];
      unfold get_tree_oid, get_oid in Ho; apply lookup_lt_Some in Ho; unfold num_trees, bimap_len in Hl; lia.
Qed.
End Below.

(** ** The promise of an index to the traversal *)

(** A tree the index rules out has no candidate below it, and a tree it calls
    covered only has candidates that were seen. *)
Class Prunes (ix : RepositoryIndex) (find_tree : oid -> option (list (option Entry))) : Prop := {
  prune_irrelevant t b : is_candidate_tree ix t = false -> ~ tree_blob ix find_tree t b;
  prune_covered t seen b : tree_is_covered ix t seen = true -> tree_blob ix find_tree t b -> b ∈ seen_blobs seen
}.

(** An index without summaries rules out nothing. *)
Lemma prunes_plain ix find_tree :
  candidate_trees ix = None -> candidate_summaries ix = None -> Prunes ix find_tree.
Proof. intros H1 H2. split; [unfold is_candidate_tree; by rewrite H1|unfold tree_is_covered; by rewrite H2]. Qed.

(** Two indexes with the same trees and blobs have the same candidates below. *)
Lemma tree_blob_same ix ix' find_tree t b :
  trees ix' = trees ix -> blobs ix' = blobs ix -> tree_blob ix' find_tree t b -> tree_blob ix find_tree t b.
Proof.
  intros Ht Hb. assert (forall t e, tree_entry ix' find_tree t e -> tree_entry ix find_tree t e) as He.
  { intros t' e. unfold tree_entry, get_tree_oid. by rewrite Ht. }
  induction 1 as [t e b Hte Hm Hi|t e c b Hte Hm1 Hm2 Hi _ IH].
  - eapply tree_blob_here; [by apply He|done|]. unfold get_blob_index in *. by rewrite <-Hb.
  - eapply tree_blob_below; [by apply He|done|done| |exact IH]. unfold get_tree_index in *. by rewrite <-Ht.
Qed.

(** What a prepared index promises. *)
Lemma prepare_prunes late find_tree order ix n ix' n' :
  prepare_candidate_trees late find_tree order ix n = inl (ix', n') ->
  Prunes ix' find_tree /\ (forall t b, tree_blob ix' find_tree t b <-> tree_blob ix find_tree t b) /\
  exists s, candidate_summaries ix' = Some s /\ candidate_trees ix' = Some (relevant s) /\ summaries_ok ix find_tree s /\
    length (state_of s) = num_trees ix /\ trees ix' = trees ix /\ blobs ix' = blobs ix.
Proof.
  intros H. unfold prepare_candidate_trees in H. apply tbind_inl in H as (s & n1 & E & H). apply tret_inl in H as [<- _].
  apply build_ok in E as [Hs Hl].
  assert (forall t b, tree_blob (Build_RepositoryIndex (trees ix) (commits ix) (blobs ix) (tags ix) (Some (relevant s))
     (content_filtered ix) (Some s)) find_tree t b <-> tree_blob ix find_tree t b) as Hsame
    by (intros; split; by apply tree_blob_same).
  split_and!; [split|done|by exists s].
  - intros t b H. rewrite Hsame. eapply irrelevant_clean; [exact Hs|exact Hl|]. by apply bool_decide_eq_false in H.
  - intros t seen b H Hb%Hsame. exact (covered_sound ix find_tree s t _ b Hs H Hb).
Qed.

(** C27. Pruning by candidate summaries is exact. Whatever order the trees are
    summarised in, preparing an index either finds the deadline passed or gives
    an index that rules out only trees with no candidate blob below, calls a tree
    covered only when every candidate below it was seen, and calls every tree
    covered whose candidates were all seen and whose summary is known. *)
Theorem candidate_pruning_exact late find_tree order ix n :
  match prepare_candidate_trees late find_tree order ix n with
  | inr (e, k) => timeout late e k
  | inl (ix', _) =>
    (forall t b, is_candidate_tree ix' t = false -> ~ tree_blob ix find_tree t b) /\
    (forall t seen b, tree_is_covered ix' t seen = true -> tree_blob ix find_tree t b -> b ∈ seen_blobs seen) /\
    forall s t state seen, candidate_summaries ix' = Some s -> state_of s !! t = Some state ->
      state <> UNKNOWN -> state <> OVERFLOW ->
      (forall b, tree_blob ix find_tree t b -> b ∈ seen_blobs seen) -> tree_is_covered ix' t seen = true
  end.
Proof.
  destruct (prepare_candidate_trees late find_tree order ix n) as [[ix' n1]|[e n1]] eqn:E.
  - apply prepare_prunes in E as (Hp & Hsame & s & Hs & _ & [_ Hok] & _). split_and!.
    + intros t b. rewrite <-Hsame. apply prune_irrelevant.
    + intros t seen b H. rewrite <-Hsame. by apply prune_covered.
    + intros s' t state seen Hs' Hst Hu Ho H. assert (s' = s) as -> by congruence.
      unfold tree_is_covered, covered. rewrite Hs, Hst. destruct (Hok _ _ Hst) as (_ & [[ids Hi]|[|]] & Hb); [|done|done].
      rewrite Hi. apply forallb_forall. intros b Hin. by apply bool_decide_eq_true_2, H, (Hb _ Hi).
  - unfold prepare_candidate_trees, tbind in E. pose proof (build_raises late ix find_tree order n) as H.
    destruct (build late ix find_tree order n) as [[s n2]|[e' n2]]; [done|]. by injection E as <- <-.
Qed.

(** ** The index that is built *)

Lemma fold_bimap_ok {A} (f : ObjectIdBimap -> A -> ObjectIdBimap) l m :
  (forall m x, bimap_ok m -> bimap_ok (f m x)) -> bimap_ok m -> bimap_ok (fold_left f l m).
Proof. intros Hf. revert m. induction l as [|x l IH]; intros m Hm; [done|]. apply IH. by apply Hf. Qed.

(** The numberings are bijections, and nothing is ruled out yet. *)
Record index_ok (ix : RepositoryIndex) : Prop := {
  io_trees : bimap_ok (trees ix); io_commits : bimap_ok (commits ix); io_blobs : bimap_ok (blobs ix);
  io_candidates : candidate_trees ix = None; io_summaries : candidate_summaries ix = None
}.

Lemma index_ok_prunes ix find_tree : index_ok ix -> Prunes ix find_tree.
Proof. intros H. apply prunes_plain; apply H. Qed.

Lemma index_insert_ok ix o : index_ok ix -> index_ok (index_insert ix o).
Proof. intros []. destruct o as [[[] o]|]; constructor; cbn; try done; by apply bimap_insert_ok. Qed.

Lemma index_batches_ok late header fuel : forall objects ix n ix' n', index_ok ix ->
  index_batches late header fuel objects ix n = inl (ix', n') -> index_ok ix'.
Proof.
  induction fuel as [|fuel IH]; intros objects ix n ix' n' Hix H; cbn [index_batches] in H; [done|].
  apply tbind_inl in H as (u & n1 & _ & H). destruct (take BATCH_SIZE objects) as [|o batch]; [by apply tret_inl in H as [<- _]|].
  apply tbind_inl in H as (ix1 & n2 & H1 & H). eapply IH; [|exact H]. unfold index_batch in H1.
  apply tbind_inl in H1 as (found & n3 & _ & H1). apply tret_inl in H1 as [<- _].
  clear IH H. revert ix Hix. induction found as [|x found IHf]; intros ix Hix; [done|]. by apply IHf, index_insert_ok.
Qed.

Lemma new_with_deadline_ok late header objects n ix n' :
  new_with_deadline late header objects n = inl (ix, n') -> index_ok ix.
Proof. apply index_batches_ok. constructor; try apply bimap_empty_ok; done. Qed.

Lemma retain_content_ok late header find_blob f ix n ix' n' :
  index_ok ix -> retain_content_candidates late header find_blob f ix n = inl (ix', n') ->
  index_ok ix' /\ trees ix' = trees ix /\ commits ix' = commits ix.
Proof.
  intros [] H. apply tbind_inl in H as (bits & n1 & _ & H). apply tret_inl in H as [<- _].
  split; [|done]. constructor; cbn; try done. apply fold_bimap_ok; [|apply bimap_empty_ok].
  intros m [i o] Hm. destruct (nth i bits false); [by apply bimap_insert_ok|done].
Qed.

(** ** An example: a commit with two blobs, and one that moves a directory *)

Definition demo_entry (k : EntryKind) (name : string) (o : oid) : option Entry :=
  Some {| mode := k; filename := bs name; entry_oid := o |}.
Definition demo_find_tree (o : oid) : option (list (option Entry)) :=
  if o ==? 101 then Some [demo_entry Blob "a.txt" 201; demo_entry Tree "lib" 102]
  else if o ==? 102 then Some [demo_entry Blob "b.txt" 202]
  else if o ==? 103 then Some [demo_entry Blob "c.txt" 203; demo_entry Link "link" 204; demo_entry Tree "src" 102]
  else None.
Definition demo_header (o : oid) : option (Kind * Z) :=
  if (o <? 100)%Z then Some (KCommit, 200)%Z else if (o <? 200)%Z then Some (KTree, 90)%Z
  else if (o <? 300)%Z then Some (KBlob, 64)%Z else if o ==? 300 then Some (KBlob, 19)%Z else None.
Definition demo_objects : list (option oid) :=
  [Some 201; Some 102; None; Some 101; Some 1; Some 300; Some 202; Some 203; Some 103; Some 2; Some 400]%Z.
Definition demo_index : RepositoryIndex :=
  match new_with_deadline never demo_header demo_objects 0 with inl (ix, _) => ix | inr _ => index_empty end.

Lemma demo_index_ok : index_ok demo_index.
Proof.
  unfold demo_index. destruct (new_with_deadline never demo_header demo_objects 0) as [[ix n]|] eqn:E.
  - by eapply new_with_deadline_ok.
  - by vm_compute in E.
Qed.

Example demo_index_objects :
  (idx_to_oid (trees demo_index), idx_to_oid (commits demo_index), idx_to_oid (blobs demo_index)) =
  ([102; 101; 103], [1; 2], [201; 202; 203])%Z.
Proof. reflexivity. Qed.
