(* ===== verification/GitGraph.v ===== *)
(** * The commit graph and the blobs each commit introduces:
      [src/git_metadata_graph.rs]

    Commits are visited in a topological order; the trees and blobs seen by the
    ancestors of a commit decide which blobs it introduces, and at which path. A
    glob set is a parameter ([None]: no exclusions); on Unix every byte string is
    a path. Names are kept as bytes where the code interns them. Counters that
    are only logged are left out. *)

From Stdlib Require Import ZArith Lia Bool ZifyNat.
From stdpp Require Import base list numbers option gmap relations.
From S2P Require Import Prelude Timed GitIndex.

(** ** The graph *)

Record CommitMetadata := { commit_oid : oid; tree_idx : option nat }.

(** [DiGraph]: nodes and edges [(source, target)] by index. *)
Record GitMetadataGraph := {
  commit_oid_to_node_idx : gmap oid nat; nodes : list CommitMetadata; edges : list (nat * nat)
}.
Definition graph_empty : GitMetadataGraph := {| commit_oid_to_node_idx := ∅; nodes := []; edges := [] |}.

Definition get_commit_idx (g : GitMetadataGraph) (o : oid) (t : option nat) : nat * GitMetadataGraph :=
  match commit_oid_to_node_idx g !! o with
  | Some idx =>
    (idx, match t with
          | Some t =>
            {| commit_oid_to_node_idx := commit_oid_to_node_idx g;
               nodes := alter (fun md => {| commit_oid := commit_oid md; tree_idx := Some t |}) idx (nodes g);
               edges := edges g |}
          | None => g
          end)
  | None =>
    (length (nodes g),
     {| commit_oid_to_node_idx := <[o := length (nodes g)]> (commit_oid_to_node_idx g);
        nodes := nodes g ++ [{| commit_oid := o; tree_idx := t |}]; edges := edges g |})
  end.
Definition add_commit_edge (g : GitMetadataGraph) (parent child : nat) : GitMetadataGraph :=
  {| commit_oid_to_node_idx := commit_oid_to_node_idx g; nodes := nodes g; edges := edges g ++ [(parent, child)] |}.

(** Edges with their indexes, the newest first. *)
Definition edges_outgoing (g : GitMetadataGraph) (c : nat) : list (nat * nat) :=
  rev (map (fun '(i, (_, t)) => (i, t)) (List.filter (fun '(_, (s, _)) => Nat.eqb s c) (enumerate (edges g)))).
Definition edges_incoming (g : GitMetadataGraph) (c : nat) : list (nat * nat) :=
  rev (map (fun '(i, (s, _)) => (i, s)) (List.filter (fun '(_, (_, t)) => Nat.eqb t c) (enumerate (edges g)))).

(** ** Compaction *)

Definition U32_MAX : Z := U32_MOD - 1.

(** The selected trees renumbered: the old numbers' new ones ([u32::MAX]: none). *)
Definition compact_step (selected : gset nat) (x : list Z * ObjectIdBimap) (tree : nat * oid) : list Z * ObjectIdBimap :=
  let '(remap, m) := x in
  let '(i, o) := tree in
  if bool_decide (i ∈ selected) then (<[i := Z.of_nat (bimap_len m)]> remap, bimap_insert m o) else (remap, m).
Definition compact_bimap (selected : gset nat) (ids : list oid) : list Z * ObjectIdBimap :=
  fold_left (compact_step selected) (enumerate ids) (replicate (length ids) U32_MAX, bimap_empty).

Definition remap_commit (remap : list Z) (md : CommitMetadata) : CommitMetadata :=
  {| commit_oid := commit_oid md;
     tree_idx := match tree_idx md with
                 | Some old =>
                   let new := nth old remap U32_MAX in
                   if negb (new ==? U32_MAX) then Some (Z.to_nat new) else None
                 | None => None
                 end |}.

Definition compact_candidate_trees (ix : RepositoryIndex) (g : GitMetadataGraph) : RepositoryIndex * GitMetadataGraph :=
  match candidate_trees ix with
  | None => (ix, g)
  | Some selected =>
    let original_count := num_trees ix in
    let with_trees m c s := {| trees := m; commits := commits ix; blobs := blobs ix; tags := tags ix;
                               candidate_trees := c; content_filtered := content_filtered ix;
                               candidate_summaries := s |} in
    if Nat.eqb (size selected) original_count then (with_trees (trees ix) None (candidate_summaries ix), g)
    else if (U32_MAX <? Z.of_nat original_count)%Z then (ix, g)
    else
      let '(remap, m) := compact_bimap selected (idx_to_oid (trees ix)) in
      (with_trees m None (option_map (fun s => retain s selected) (candidate_summaries ix)),
       {| commit_oid_to_node_idx := commit_oid_to_node_idx g; nodes := map (remap_commit remap) (nodes g);
          edges := edges g |})
  end.

(** ** Visiting the trees of a commit *)

Definition path_is_excluded (globs : option (bytes -> bool)) (path : bytes) : bool :=
  match globs with None => false | Some is_match => is_match path end.
Definition tree_path_is_excluded (globs : option (bytes -> bool)) (path : bytes) : bool :=
  if path_is_excluded globs path then true
  else match globs with None => false | Some is_match => is_match (path ++ bs "/") end.
Fixpoint render_symbol_path (path : list bytes) : bytes :=
  match path with
  | [] => []
  | [name] => name
  | name :: rest => name ++ bs "/" ++ render_symbol_path rest
  end.

Abbreviation IntroducedBlobs := (list (oid * bytes)).

(** What a visit carries: the objects seen, the blobs introduced and met so far,
    and the trees to visit, the next one first. *)
Record Visit := {
  v_seen : SeenObjectSet; v_introduced : IntroducedBlobs; v_encountered : list nat;
  v_worklist : list (list bytes * oid)
}.
Definition v_with_seen (v : Visit) (s : SeenObjectSet) : Visit :=
  {| v_seen := s; v_introduced := v_introduced v; v_encountered := v_encountered v; v_worklist := v_worklist v |}.
Definition v_push (v : Visit) (path : list bytes) (o : oid) : Visit :=
  {| v_seen := v_seen v; v_introduced := v_introduced v; v_encountered := v_encountered v;
     v_worklist := (path, o) :: v_worklist v |}.

Section Traversal.
Context (late : nat -> bool) (ix : RepositoryIndex) (find_tree : oid -> option (list (option Entry)))
        (globs : option (bytes -> bool)).

(** A child tree at [path]. *)
Definition visit_child_tree (path : list bytes) (e : Entry) (v : Visit) : Visit :=
  match get_tree_index ix (entry_oid e) with
  | None => v
  | Some c =>
    if negb (is_candidate_tree ix c) || tree_is_covered ix c (v_seen v) then v
    else
      match globs with
      | None =>
        let '(new, seen) := insert_tree (v_seen v) c in
        if new then v_push (v_with_seen v seen) (path ++ [filename e]) (entry_oid e) else v_with_seen v seen
      | Some _ =>
        if contains_tree (v_seen v) c then v
        else
          let new_path := path ++ [filename e] in
          if tree_path_is_excluded globs (render_symbol_path new_path) then v
          else v_push (v_with_seen v (snd (insert_tree (v_seen v) c))) new_path (entry_oid e)
      end
  end.

(** A blob at [path]. *)
Definition visit_child_blob (path : list bytes) (e : Entry) (v : Visit) : Visit :=
  match get_blob_index ix (entry_oid e) with
  | None => v
  | Some b =>
    if contains_blob (v_seen v) b then v
    else
      let path := render_symbol_path (path ++ [filename e]) in
      if path_is_excluded globs path then v
      else {| v_seen := v_seen v; v_introduced := v_introduced v ++ [(entry_oid e, path)];
              v_encountered := v_encountered v ++ [b]; v_worklist := v_worklist v |}
  end.

Definition visit_entry (path : list bytes) (entry : option Entry) (v : Visit) : Visit :=
  match entry with
  | None => v
  | Some e =>
    match mode e with
    | Link | Commit => v
    | Tree => visit_child_tree path e v
    | Blob | BlobExecutable => visit_child_blob path e v
    end
  end.

Fixpoint visit_trees (fuel : nat) (v : Visit) : Timed Visit :=
  match v_worklist v with
  | [] => tret v
  | (path, o) :: worklist =>
    match fuel with
    | 0 => throw OutOfFuel
    | S fuel =>
      check_deadline late ;;*
      let v := {| v_seen := v_seen v; v_introduced := v_introduced v; v_encountered := v_encountered v;
                  v_worklist := worklist |} in
      match find_tree o with
      | None => visit_trees fuel v
      | Some entries =>
        let* v := tfold (fun entry v => check_deadline late ;;* tret (visit_entry path entry v)) entries v in
        visit_trees fuel v
      end
    end
  end.

(** [visit_tree]: one round per tree; every round but the first is for a tree
    that was not seen before. *)
Definition visit_tree (seen : SeenObjectSet) (worklist : list (list bytes * oid)) :
    Timed (SeenObjectSet * IntroducedBlobs) :=
  let* v := visit_trees (length worklist + num_trees ix)
              {| v_seen := seen; v_introduced := []; v_encountered := []; v_worklist := worklist |} in
  tret (fold_left insert_blob (v_encountered v) (v_seen v), v_introduced v).

(** The visit of a commit whose ancestors saw [seen]. *)
Definition visit_commit (md : CommitMetadata) (seen : SeenObjectSet) : Timed (SeenObjectSet * IntroducedBlobs) :=
  match tree_idx md with
  | None => tret (seen, [])
  | Some t =>
    if is_candidate_tree ix t && negb (tree_is_covered ix t seen) then
      let '(new, seen) := insert_tree seen t in
      if new : bool then let* o := unwrap (get_tree_oid ix t) in visit_tree seen [([], o)] else tret (seen, [])
    else tret (seen, [])
  end.

(** ** The traversal of the commits *)

(** [BinaryHeap] of [(Reverse(out_deg), commit)]: the greatest entry has the
    smallest out-degree, and the largest index among those. *)
Definition heap_gt (a b : nat * nat) : bool := (fst a <? fst b) || (Nat.eqb (fst a) (fst b) && (snd b <? snd a)).
Fixpoint heap_pop (x : nat * nat) (l : list (nat * nat)) : (nat * nat) * list (nat * nat) :=
  match l with
  | [] => (x, [])
  | y :: l => let '(top, rest) := heap_pop y l in if heap_gt top x then (top, x :: rest) else (x, top :: rest)
  end.

Record Walk := {
  commit_worklist : list (nat * nat); seen_sets : list (option SeenObjectSet);
  blobs_introduced : list IntroducedBlobs; visited_commits : gset nat; visited_commit_edges : gset nat
}.

Context (g : GitMetadataGraph).

Definition out_deg (c : nat) : nat := length (edges_outgoing g c).
Definition is_root (c : nat) : bool := Nat.eqb (length (edges_incoming g c)) 0.
Definition has_unvisited_parents (visited : gset nat) (c : nat) : bool :=
  existsb (fun '(e, _) => negb (bool_decide (e ∈ visited))) (edges_incoming g c).

(** The initial worklist: the commits without parents. *)
Definition walk_start : Walk :=
  let roots := List.filter is_root (seq 0 (length (nodes g))) in
  {| commit_worklist := map (fun c => (out_deg c, c)) roots;
     seen_sets := map (fun c => if is_root c then Some seen_new else None) (seq 0 (length (nodes g)));
     blobs_introduced := replicate (length (nodes g)) []; visited_commits := ∅; visited_commit_edges := ∅ |}.

(** One edge out of a visited commit: the child's ancestors saw what the commit
    saw, and the child is ready when it was the last edge into it. *)
Definition walk_edge (seen : SeenObjectSet) (w : Walk) (edge : nat * nat) : Walk :=
  let '(e, child) := edge in
  if bool_decide (e ∈ visited_commit_edges w) then w
  else
    let visited := {[e]} ∪ visited_commit_edges w in
    let child_seen := match seen_sets w !! child with Some (Some s) => union_update s seen | _ => seen end in
    {| commit_worklist :=
         if has_unvisited_parents visited child then commit_worklist w
         else (out_deg child, child) :: commit_worklist w;
       seen_sets := <[child := Some child_seen]> (seen_sets w);
       blobs_introduced := blobs_introduced w; visited_commits := visited_commits w;
       visited_commit_edges := visited |}.

Definition walk_commit (c : nat) (worklist : list (nat * nat)) (w : Walk) : Timed Walk :=
  check_deadline late ;;*
  if bool_decide (c ∈ visited_commits w) then
    tret {| commit_worklist := worklist; seen_sets := seen_sets w; blobs_introduced := blobs_introduced w;
            visited_commits := visited_commits w; visited_commit_edges := visited_commit_edges w |}
  else
    let* seen := unwrap (match seen_sets w !! c with Some o => o | None => None end) in
    let* md := unwrap (nodes g !! c) in
    let* (seen, introduced) := visit_commit md seen in
    tret (fold_left (walk_edge seen) (edges_outgoing g c)
      {| commit_worklist := worklist; seen_sets := <[c := None]> (seen_sets w);
         blobs_introduced := alter (fun l => l ++ introduced) c (blobs_introduced w);
         visited_commits := {[c]} ∪ visited_commits w; visited_commit_edges := visited_commit_edges w |}).

Fixpoint walk (fuel : nat) (w : Walk) : Timed Walk :=
  match commit_worklist w with
  | [] => tret w
  | x :: l =>
    match fuel with
    | 0 => throw OutOfFuel
    | S fuel =>
      let '((_, c), worklist) := heap_pop x l in
      let* w := walk_commit c worklist w in
      walk fuel w
    end
  end.

(** [get_repo_metadata_with_deadline]: the commits that introduce blobs, in node
    order. *)
Definition get_repo_metadata_with_deadline : Timed (list (oid * IntroducedBlobs)) :=
  let* w := walk (length (nodes g)) walk_start in
  if negb (Nat.eqb (size (visited_commit_edges w)) (length (edges g))) then throw CommitCycle
  else
    tret (List.filter (fun '(_, introduced) => negb (Nat.eqb (length introduced) 0))
            (zip_with (fun md introduced => (commit_oid md, introduced)) (nodes g) (blobs_introduced w))).
End Traversal.

(** ** Visiting trees: the rule of the loop *)

Section VisitProofs.
Context (late : nat -> bool) (ix : RepositoryIndex) (find_tree : oid -> option (list (option Entry)))
        (globs : option (bytes -> bool)).

Definition v_pop (v : Visit) (worklist : list (list bytes * oid)) : Visit :=
  {| v_seen := v_seen v; v_introduced := v_introduced v; v_encountered := v_encountered v; v_worklist := worklist |}.

(** [J] holds between trees, [K] within the tree [o] at [path] with entries left. *)
Lemma visit_trees_rule (J : Visit -> Prop) (K : list bytes -> oid -> list (option Entry) -> Visit -> Prop) :
  (forall v path o l, J v -> v_worklist v = (path, o) :: l -> find_tree o = None -> J (v_pop v l)) ->
  (forall v path o l es, J v -> v_worklist v = (path, o) :: l -> find_tree o = Some es -> K path o es (v_pop v l)) ->
  (forall path o e es v, K path o (e :: es) v -> K path o es (visit_entry ix globs path e v)) ->
  (forall path o v, K path o [] v -> J v) ->
  forall fuel v n v' n', J v -> visit_trees late ix find_tree globs fuel v n = inl (v', n') -> J v' /\ v_worklist v' = [].
Proof.
  intros Hnone Hsome Hstep Hend fuel. induction fuel as [|fuel IH]; intros v n v' n' HJ H; cbn [visit_trees] in H.
  - destruct (v_worklist v) as [|[path o] l] eqn:Ew; timed_inv. done.
  - destruct (v_worklist v) as [|[path o] l] eqn:Ew; [by timed_inv|].
    apply tbind_inl in H as (u & n1 & _ & H). change (Build_Visit _ _ _ l) with (v_pop v l) in H.
    destruct (find_tree o) as [es|] eqn:Ef; [|eapply IH; [by eapply Hnone|exact H]].
    apply tbind_inl in H as (v1 & n2 & Hf & H). eapply IH; [|exact H]. apply (Hend path o).
    refine (tfold_inl_rest _ (K path o) _ _ _ _ _ _ (Hsome _ _ _ _ _ HJ Ew Ef) Hf).
    intros e es' s m s' m' HK Hs. apply tbind_inl in Hs as (u' & m1 & _ & Hs). timed_inv. by apply Hstep.
Qed.

(** The rounds a visit can still take. *)
Definition unseen (s : SeenObjectSet) : nat :=
  length (List.filter (fun i => negb (bool_decide (i ∈ seen_trees s))) (seq 0 (num_trees ix))).
Definition budget (v : Visit) : nat := length (v_worklist v) + unseen (v_seen v).

Lemma filter_length_strict {A} (p q : A -> bool) l x :
  (forall y, q y = true -> p y = true) -> In x l -> p x = true -> q x = false ->
  length (List.filter q l) < length (List.filter p l).
Proof.
  intros Hqp. assert (forall l, length (List.filter q l) <= length (List.filter p l)) as Hle.
  { intros l'. induction l' as [|y l' IH]; simpl; [lia|]. specialize (Hqp y).
    destruct (q y) eqn:E; [rewrite Hqp by done; simpl; lia|destruct (p y); simpl; lia]. }
  induction l as [|y l IH]; [done|]. intros [->|Hin] Hp Hq; simpl.
  - rewrite Hp, Hq. simpl. specialize (Hle l). lia.
  - specialize (IH Hin Hp Hq). specialize (Hqp y). destruct (q y) eqn:E; [rewrite Hqp by done|destruct (p y)]; simpl; lia.
Qed.

Lemma unseen_insert s c : c < num_trees ix -> c ∉ seen_trees s -> S (unseen (mkSeen ({[c]} ∪ seen_trees s) (seen_blobs s))) <= unseen s.
Proof.
  intros Hc Hs. unfold unseen. apply filter_length_strict with c; cbn.
  - intros y. rewrite !negb_true_iff, !bool_decide_eq_false. set_solver.
  - apply in_seq. lia.
  - by rewrite bool_decide_eq_false_2.
  - rewrite bool_decide_eq_true_2; [done|set_solver].
Qed.

Context (Hix : bimap_ok (trees ix)).

Lemma tree_index_oid o c : get_tree_index ix o = Some c -> get_tree_oid ix c = Some o /\ c < num_trees ix.
Proof. intros H%Hix. split; [done|]. by apply lookup_lt_Some in H. Qed.

Lemma visit_entry_budget path e v : budget (visit_entry ix globs path e v) <= budget v.
Proof.
  unfold visit_entry, visit_child_tree, visit_child_blob, insert_tree, contains_tree, budget.
  destruct e as [e|]; [|done]. destruct (mode e); try lia.
  - destruct (get_tree_index ix (entry_oid e)) as [c|] eqn:Ec; [|lia]. apply tree_index_oid in Ec as [_ Hc].
    destruct (_ || _); [lia|]. destruct globs as [is_match|]; case_bool_decide as Es; cbn; try lia.
    + destruct (tree_path_is_excluded _ _); [lia|]. cbn. pose proof (unseen_insert (v_seen v) c Hc Es). lia.
    + pose proof (unseen_insert (v_seen v) c Hc Es). lia.
  - repeat (case_match; cbn; try lia).
  - repeat (case_match; cbn; try lia).
Qed.

Lemma visit_trees_raises fuel : forall v, budget v <= fuel -> raises (timeout late) (visit_trees late ix find_tree globs fuel v).
Proof.
  induction fuel as [|fuel IH]; intros v Hb; cbn [visit_trees]; destruct (v_worklist v) as [|[path o] l] eqn:Ew; try done.
  - unfold budget in Hb. rewrite Ew in Hb. simpl in Hb. lia.
  - assert (budget (v_pop v l) <= fuel) as Hb1 by (unfold budget in *; rewrite Ew in Hb; simpl in *; lia).
    apply raises_bind'; [by apply raises_check|intros _]. change (Build_Visit _ _ _ l) with (v_pop v l).
    destruct (find_tree o) as [es|]; [|by apply IH]. apply raises_bind.
    + apply raises_fold. intros e s _. apply raises_bind'; [by apply raises_check|done].
    + intros v1 n n1 H. apply IH. revert H. apply (tfold_inl _ (fun v => budget v <= fuel)); [|done].
      intros e s m s' m' _ Hs H. apply tbind_inl in H as (u & m1 & _ & H). timed_inv. subst.
      pose proof (visit_entry_budget path e s). lia.
Qed.

Lemma visit_tree_raises seen worklist : raises (timeout late) (visit_tree late ix find_tree globs seen worklist).
Proof.
  apply raises_bind'; [|done]. apply visit_trees_raises. unfold budget, unseen. cbn.
  pose proof (filter_length_le (fun i => negb (bool_decide (i ∈ seen_trees seen))) (seq 0 (num_trees ix))) as H.
  rewrite length_seq in H. lia.
Qed.

Lemma visit_commit_raises md seen :
  (forall t, tree_idx md = Some t -> t < num_trees ix) ->
  raises (timeout late) (visit_commit late ix find_tree globs md seen).
Proof.
  intros Ht. unfold visit_commit. destruct (tree_idx md) as [t|]; [|done].
  destruct (_ && _); [|done]. destruct (insert_tree seen t) as [new seen']. destruct new; [|done].
  destruct (lookup_lt_is_Some_2 (idx_to_oid (trees ix)) t (Ht _ eq_refl)) as [o Ho].
  apply raises_bind'; [unfold get_tree_oid, get_oid; rewrite Ho; apply raises_unwrap|intros o'; apply visit_tree_raises].
Qed.
End VisitProofs.

Lemma insert_blobs_spec l s :
  seen_trees (fold_left insert_blob l s) = seen_trees s /\
  forall b, b ∈ seen_blobs (fold_left insert_blob l s) <-> b ∈ seen_blobs s \/ In b l.
Proof.
  revert s. induction l as [|x l IH]; intros s; cbn [fold_left]; [split; [done|simpl; tauto]|].
  destruct (IH (insert_blob s x)) as [H1 H2]. split; [done|]. intros b. rewrite H2. simpl. set_solver.
Qed.

(** ** What a visit finds *)

Section Found.
Context (late : nat -> bool) (ix : RepositoryIndex) (find_tree : oid -> option (list (option Entry)))
        (globs : option (bytes -> bool)).

(** The trees at a path below [root], through directories that are not excluded,
    and the blobs that are not excluded either. *)
Inductive tree_at (root : oid) : list bytes -> oid -> Prop :=
| tree_at_root : tree_at root [] root
| tree_at_child path o es e :
    tree_at root path o -> find_tree o = Some es -> In (Some e) es -> is_tree (mode e) = true ->
    tree_path_is_excluded globs (render_symbol_path (path ++ [filename e])) = false ->
    tree_at root (path ++ [filename e]) (entry_oid e).
Definition blob_at (root : oid) (path : list bytes) (b : oid) : Prop :=
  exists dir o es e, tree_at root dir o /\ find_tree o = Some es /\ In (Some e) es /\ is_blob (mode e) = true /\
    entry_oid e = b /\ path = dir ++ [filename e] /\ path_is_excluded globs (render_symbol_path path) = false.

(** An introduced blob and the number it was met under. *)
Definition found_at (root : oid) (s0 : SeenObjectSet) (x : oid * bytes) (b : nat) : Prop :=
  get_blob_index ix (fst x) = Some b /\ b ∉ seen_blobs s0 /\
  exists path, snd x = render_symbol_path path /\ blob_at root path (fst x).

Record visit_ok (root : oid) (s0 : SeenObjectSet) (v : Visit) : Prop := {
  vo_blobs : seen_blobs (v_seen v) = seen_blobs s0;
  vo_found : Forall2 (found_at root s0) (v_introduced v) (v_encountered v);
  vo_worklist : Forall (fun '(path, o) => tree_at root path o) (v_worklist v)
}.

Lemma visit_entry_ok root s0 path o es e v :
  tree_at root path o -> find_tree o = Some es -> In e es -> visit_ok root s0 v ->
  visit_ok root s0 (visit_entry ix globs path e v).
Proof.
  intros Hp Hf He [Hb Hi Hw]. destruct e as [e|]; [|by constructor]. unfold visit_entry.
  assert (is_tree (mode e) = true -> visit_ok root s0 (visit_child_tree ix globs path e v)) as Htree.
  { intros Hm. unfold visit_child_tree. destruct (get_tree_index ix (entry_oid e)) as [c|]; [|by constructor].
    destruct (_ || _); [by constructor|]. unfold insert_tree, contains_tree.
    assert (tree_path_is_excluded globs (render_symbol_path (path ++ [filename e])) = false ->
            forall v', seen_blobs v' = seen_blobs s0 ->
            visit_ok root s0 (v_push (v_with_seen v v') (path ++ [filename e]) (entry_oid e))) as Hpush.
    { intros Hx v' Hv'. constructor; [done|done|]. constructor; [|done]. by eapply tree_at_child. }
    destruct globs as [is_match|] eqn:Eg; case_bool_decide as Es; try by constructor.
    - destruct (tree_path_is_excluded _ _) eqn:Ex; [by constructor|]. by apply Hpush.
    - by apply Hpush. }
  assert (is_blob (mode e) = true -> visit_ok root s0 (visit_child_blob ix globs path e v)) as Hblob.
  { intros Hm. unfold visit_child_blob. destruct (get_blob_index ix (entry_oid e)) as [b|] eqn:Eb; [|by constructor].
    unfold contains_blob. case_bool_decide as Es; [by constructor|].
    destruct (path_is_excluded _ _) eqn:Ex; [by constructor|]. constructor; [done| |done].
    apply Forall2_app; [done|]. constructor; [|done]. split_and!; [done|by rewrite <-Hb|].
    exists (path ++ [filename e]). split; [done|]. by exists path, o, es, e. }
  destruct (mode e); auto; by constructor.
Qed.

Lemma visit_trees_ok root s0 fuel v n v' n' :
  visit_ok root s0 v -> visit_trees late ix find_tree globs fuel v n = inl (v', n') -> visit_ok root s0 v' /\ v_worklist v' = [].
Proof.
  apply (visit_trees_rule late ix find_tree globs (visit_ok root s0)
    (fun path o es v => visit_ok root s0 v /\ tree_at root path o /\
       exists es0 done, find_tree o = Some es0 /\ es0 = done ++ es)).
  - intros v0 path o l [H1 H2 H3] Hw _. rewrite Hw in H3. apply Forall_cons in H3 as [_ H3]. by constructor.
  - intros v0 path o l es [H1 H2 H3] Hw Hf. rewrite Hw in H3. apply Forall_cons in H3 as [Ht H3].
    split_and!; [by constructor|done|by exists es, []].
  - intros path o e es v0 (Hv & Ht & es0 & dn & Hf & ->). split_and!; [|done|].
    + eapply visit_entry_ok; [done|done| |done]. apply in_or_app. right. by left.
    + exists (dn ++ e :: es), (dn ++ [e]). by rewrite <-app_assoc.
  - by intros path o v0 [Hv _].
Qed.

(** *** Everything below a seen tree is seen *)

(** Semantic closure of a set of seen objects. *)
Definition closed (s : SeenObjectSet) : Prop :=
  forall t b, t ∈ seen_trees s -> tree_blob ix find_tree t b -> b ∈ seen_blobs s.

(** What the visit of an entry has taken care of. *)
Definition handled (s0 : SeenObjectSet) (v : Visit) (e : Entry) : Prop :=
  (is_blob (mode e) = true -> forall b, get_blob_index ix (entry_oid e) = Some b ->
     b ∈ seen_blobs s0 \/ In b (v_encountered v)) /\
  (is_blob (mode e) = false -> is_tree (mode e) = true -> forall c, get_tree_index ix (entry_oid e) = Some c ->
     is_candidate_tree ix c = false \/ tree_is_covered ix c s0 = true \/ c ∈ seen_trees (v_seen v)).

(** New trees are handled, waiting, or being read. *)
Record visit_closed (s0 : SeenObjectSet) (es : list (option Entry)) (v : Visit) : Prop := {
  vc_blobs : seen_blobs (v_seen v) = seen_blobs s0;
  vc_trees : forall t e, t ∈ seen_trees (v_seen v) -> t ∉ seen_trees s0 -> tree_entry ix find_tree t e ->
    handled s0 v e \/ (exists path o, In (path, o) (v_worklist v) /\ get_tree_oid ix t = Some o) \/ In (Some e) es
}.

Lemma handled_mono s0 v v' e :
  (forall b, In b (v_encountered v) -> In b (v_encountered v')) ->
  (forall t, t ∈ seen_trees (v_seen v) -> t ∈ seen_trees (v_seen v')) -> handled s0 v e -> handled s0 v' e.
Proof. intros Hb Ht [H1 H2]. split; [intros H b Hi; destruct (H1 H b Hi); auto|intros H H' c Hc; destruct (H2 H H' c Hc) as [?|[?|?]]; auto]. Qed.

Lemma covered_same c s s' : seen_blobs s = seen_blobs s' -> tree_is_covered ix c s = tree_is_covered ix c s'.
Proof. intros H. unfold tree_is_covered. by rewrite H. Qed.

Context (Hix : bimap_ok (trees ix)).

Record grown (v v' : Visit) : Prop := {
  gr_blobs : seen_blobs (v_seen v') = seen_blobs (v_seen v);
  gr_encountered b : In b (v_encountered v) -> In b (v_encountered v');
  gr_trees t : t ∈ seen_trees (v_seen v) -> t ∈ seen_trees (v_seen v');
  gr_worklist x : In x (v_worklist v) -> In x (v_worklist v');
  gr_new t : t ∈ seen_trees (v_seen v') -> t ∉ seen_trees (v_seen v) ->
    exists path o, In (path, o) (v_worklist v') /\ get_tree_oid ix t = Some o
}.

Lemma grown_refl v : grown v v.
Proof. by constructor. Qed.

Lemma grown_push v c path o :
  get_tree_oid ix c = Some o -> grown v (v_push (v_with_seen v (mkSeen ({[c]} ∪ seen_trees (v_seen v)) (seen_blobs (v_seen v)))) path o).
Proof.
  intros Ho. constructor; cbn; [done|done|set_solver|by right|]. intros t Ht Hn. exists path, o. split; [by left|].
  by replace t with c by set_solver.
Qed.

Lemma visit_entry_grown path e v : grown v (visit_entry ix None path e v).
Proof.
  unfold visit_entry. destruct e as [e|]; [|by apply grown_refl].
  destruct (mode e); try by apply grown_refl.
  1: { unfold visit_child_tree. destruct (get_tree_index ix (entry_oid e)) as [c|] eqn:Ec; [|by apply grown_refl].
    apply (tree_index_oid ix Hix) in Ec as [Ho _]. destruct (_ || _); [by apply grown_refl|].
    unfold insert_tree. case_bool_decide; [by constructor|by apply grown_push]. }
  all: unfold visit_child_blob; destruct (get_blob_index ix (entry_oid e)); [|by apply grown_refl];
    destruct (contains_blob _ _); [by apply grown_refl|]; cbn; constructor; cbn; try done; intros b Hb; apply in_or_app; by left.
Qed.

Lemma visit_entry_handled s0 path e v :
  seen_blobs (v_seen v) = seen_blobs s0 -> handled s0 (visit_entry ix None path (Some e) v) e.
Proof.
  intros Hb. unfold visit_entry. split.
  - intros Hm b Hi. assert (visit_entry ix None path (Some e) v = visit_child_blob ix None path e v) as E
      by (unfold visit_entry; by destruct (mode e)). unfold visit_entry in E. rewrite E.
    unfold visit_child_blob. rewrite Hi. unfold contains_blob. case_bool_decide as Es; [left; by rewrite <-Hb|].
    right. cbn. apply in_or_app. right. by left.
  - intros _ Hm c Hi. destruct (mode e); try done. unfold visit_child_tree. rewrite Hi.
    destruct (is_candidate_tree ix c) eqn:Ec; [|by left]. cbn.
    rewrite (covered_same c (v_seen v) s0 Hb). destruct (tree_is_covered ix c s0) eqn:Ev; [by right; left|].
    right; right. unfold insert_tree. case_bool_decide as Es; [done|]. cbn. set_solver.
Qed.

Lemma visit_entry_closed s0 path e es v :
  visit_closed s0 (e :: es) v -> visit_closed s0 es (visit_entry ix None path e v).
Proof.
  intros [Hb Ht]. pose proof (visit_entry_grown path e v) as G. constructor; [by rewrite (gr_blobs _ _ G)|].
  intros t e' Hs Hn He. destruct (decide (t ∈ seen_trees (v_seen v))) as [Hv|Hv].
  - destruct (Ht t e' Hv Hn He) as [H|[(p & o & Hw & Ho)|[->|Hin]]].
    + left. eapply handled_mono; [apply G|apply G|done].
    + right; left. exists p, o. split; [by apply G|done].
    + left. by apply visit_entry_handled.
    + by right; right.
  - right; left. by apply (gr_new _ _ G).
Qed.

Lemma visit_trees_closed s0 fuel v n v' n' :
  visit_closed s0 [] v -> visit_trees late ix find_tree None fuel v n = inl (v', n') ->
  visit_closed s0 [] v' /\ v_worklist v' = [].
Proof.
  apply (visit_trees_rule late ix find_tree None (visit_closed s0 []) (fun _ _ es v => visit_closed s0 es v)).
  - intros v0 path o l [H1 H2] Hw Hf. constructor; [done|]. intros t e Hs Hn He.
    destruct (H2 t e Hs Hn He) as [H|[(p & o' & Hin & Ho)|[]]]; [by left|]. rewrite Hw in Hin.
    destruct Hin as [[= <- <-]|Hin]; [|right; left; by exists p, o'].
    destruct He as (o' & es & Ho' & Hf' & _). congruence.
  - intros v0 path o l es [H1 H2] Hw Hf. constructor; [done|]. intros t e Hs Hn He.
    destruct (H2 t e Hs Hn He) as [H|[(p & o' & Hin & Ho)|[]]]; [by left|]. rewrite Hw in Hin.
    destruct Hin as [[= <- <-]|Hin]; [|right; left; by exists p, o'].
    right; right. destruct He as (o' & es' & Ho' & Hf' & Hin). congruence.
  - intros path o e es v0. apply visit_entry_closed.
  - done.
Qed.

(** The visit of a tree leaves a closed set when it started from one. *)
Lemma visit_tree_closed `{!Prunes ix find_tree} s t o n s' intro n' :
  closed s -> t ∉ seen_trees s -> get_tree_oid ix t = Some o ->
  visit_tree late ix find_tree None (mkSeen ({[t]} ∪ seen_trees s) (seen_blobs s)) [([], o)] n = inl (s', intro, n') ->
  closed s' /\ t ∈ seen_trees s' /\ forall x, x ∈ seen_trees s -> x ∈ seen_trees s'.
Proof.
  intros Hs Ht Ho H. apply tbind_inl in H as (v & n1 & H & Hr). timed_inv. simplify_eq.
  pose proof H as H'. apply (visit_trees_closed s) in H as [[Hb Hc] Hw].
  2: { constructor; [done|]. cbn. intros t' e H1 H2 He. right; left. exists [], o. split; [by left|].
       by replace t' with t by set_solver. }
  destruct (insert_blobs_spec (v_encountered v) (v_seen v)) as [Et Eb].
  assert (forall x, x ∈ {[t]} ∪ seen_trees s -> x ∈ seen_trees (v_seen v)) as Hmono.
  { refine (proj1 (visit_trees_rule late ix find_tree None
      (fun v => forall x, x ∈ {[t]} ∪ seen_trees s -> x ∈ seen_trees (v_seen v))
      (fun _ _ _ v => forall x, x ∈ {[t]} ∪ seen_trees s -> x ∈ seen_trees (v_seen v)) _ _ _ _ _ _ _ _ _ _ H')); [done|done| |done|done].
    intros path o' e es v0 Hv x Hx. apply (gr_trees _ _ (visit_entry_grown path e v0)). by apply Hv. }
  split_and!; [|rewrite Et; apply Hmono; set_solver|intros x Hx; rewrite Et; apply Hmono; set_solver].
  intros t' b Ht'. rewrite Et in Ht'. rewrite Eb, Hb. intros Hbl.
  induction Hbl as [t' e b He Hm Hi|t' e c b He Hm1 Hm2 Hi Hbl IH].
  - destruct (decide (t' ∈ seen_trees s)) as [Hin|Hin]; [left; eapply Hs; [done|by eapply tree_blob_here]|].
    destruct (Hc t' e Ht' Hin He) as [[H1 _]|[(p & o' & Hw' & _)|[]]]; [by apply H1|by rewrite Hw in Hw'].
  - destruct (decide (t' ∈ seen_trees s)) as [Hin|Hin]; [left; eapply Hs; [done|by eapply tree_blob_below]|].
    destruct (Hc t' e Ht' Hin He) as [[_ H2]|[(p & o' & Hw' & _)|[]]]; [|by rewrite Hw in Hw'].
    destruct (H2 Hm1 Hm2 c Hi) as [Hn|[Hv|Hv]]; [by apply (prune_irrelevant c b) in Hn| |by apply IH].
    left. by eapply prune_covered.
Qed.
End Found.

(** ** The visit of a commit *)

Section VisitCommit.
Context (late : nat -> bool) (ix : RepositoryIndex) (find_tree : oid -> option (list (option Entry)))
        (globs : option (bytes -> bool)).

(** Whatever the deadline, a visit that ends gives the answer of the visit
    without one. *)
Lemma visit_commit_agrees md seen :
  agrees (visit_commit late ix find_tree globs md seen) (visit_commit never ix find_tree globs md seen).
Proof.
  assert (forall fuel v, agrees (visit_trees late ix find_tree globs fuel v) (visit_trees never ix find_tree globs fuel v)) as Ht.
  { intros fuel. induction fuel as [|fuel IH]; intros v; cbn [visit_trees]; destruct (v_worklist v) as [|[path o] l]; eauto with kf.
    apply agrees_bind; [apply agrees_check|intros _]. destruct (find_tree o) as [es|]; [|apply IH].
    apply agrees_bind; [apply agrees_fold; eauto with kf|apply IH]. }
  unfold visit_commit, visit_tree. destruct (tree_idx md) as [t|]; [|apply agrees_ret].
  destruct (_ && _); [|apply agrees_ret]. destruct (insert_tree seen t) as [new s']. destruct new; [|apply agrees_ret].
  apply agrees_bind; [destruct (get_tree_oid ix t); [apply agrees_ret|apply agrees_throw]|intros o].
  apply agrees_bind; [apply Ht|intros v; apply agrees_ret].
Qed.

(** The blobs a commit introduces are below its tree, at paths that are not
    excluded, and were not seen by its ancestors; they are what is seen in
    addition. *)
Definition introduced_ok (md : CommitMetadata) (seen : SeenObjectSet) (x : oid * bytes) : Prop :=
  exists t root b, tree_idx md = Some t /\ get_tree_oid ix t = Some root /\ found_at ix find_tree globs root seen x b.

Lemma visit_commit_sound md seen n s' I n' :
  visit_commit late ix find_tree globs md seen n = inl ((s', I), n') ->
  Forall (introduced_ok md seen) I /\
  forall b, b ∈ seen_blobs s' <-> b ∈ seen_blobs seen \/ exists x, In x I /\ get_blob_index ix (fst x) = Some b.
Proof.
  intros H. unfold visit_commit in H.
  assert (forall n, tret (seen, []) n = inl ((s', I), n') -> Forall (introduced_ok md seen) I /\
    forall b, b ∈ seen_blobs s' <-> b ∈ seen_blobs seen \/ exists x, In x I /\ get_blob_index ix (fst x) = Some b) as Hno.
  { intros m Hm. apply tret_inl in Hm as [[= -> <-] _]. split; [done|]. intros b. split; [by left|by intros [?|(? & [] & _)]]. }
  destruct (tree_idx md) as [t|] eqn:Et; [|by eapply Hno]. destruct (_ && _); [|by eapply Hno].
  unfold insert_tree in H. case_bool_decide as Es; [by eapply Hno|].
  apply tbind_inl in H as (o & n1 & Ho & H). destruct (get_tree_oid ix t) as [o'|] eqn:Eo; [|done].
  apply tret_inl in Ho as [-> _]. apply tbind_inl in H as (v & n2 & H & Hr). apply tret_inl in Hr as [[= <- <-] _].
  apply (visit_trees_ok late ix find_tree globs o seen) in H as [[Hb Hf _] _].
  2: { constructor; [done|constructor|]. cbn. constructor; [apply tree_at_root|constructor]. }
  destruct (insert_blobs_spec (v_encountered v) (v_seen v)) as [_ Eb]. split.
  - apply Forall_forall. intros x Hx. destruct (proj1 (list_elem_of_lookup _ _) Hx) as [i Hi].
    destruct (Forall2_lookup_l _ _ _ _ _ Hf Hi) as (b & _ & Hb'). by exists t, o, b.
  - intros b. rewrite Eb, Hb. apply or_iff_compat_l. split.
    + intros Hin%list_elem_of_In. apply list_elem_of_lookup in Hin as [i Hi].
      destruct (Forall2_lookup_r _ _ _ _ _ Hf Hi) as (x & Hx & Hix & _). exists x. split; [|done].
      by apply list_elem_of_In, list_elem_of_lookup_2 with i.
    + intros (x & Hx%list_elem_of_In & Hb'). apply list_elem_of_lookup in Hx as [i Hi].
      destruct (Forall2_lookup_l _ _ _ _ _ Hf Hi) as (b' & Hb2 & Hix & _).
      assert (b' = b) as -> by congruence. by apply list_elem_of_In, list_elem_of_lookup_2 with i.
Qed.
End VisitCommit.

(** Without exclusions, the visit of a commit keeps the seen objects closed and
    sees every candidate below the commit's tree. *)
Lemma visit_commit_closed late ix find_tree `{!Prunes ix find_tree} md seen n s' I n' :
  bimap_ok (trees ix) -> closed ix find_tree seen ->
  visit_commit late ix find_tree None md seen n = inl ((s', I), n') ->
  closed ix find_tree s' /\
  forall t b, tree_idx md = Some t -> tree_blob ix find_tree t b -> b ∈ seen_blobs s'.
Proof.
  intros Hix Hs H. unfold visit_commit in H. destruct (tree_idx md) as [t|] eqn:Et.
  2: { apply tret_inl in H as [[= -> <-] _]. by split. }
  destruct (is_candidate_tree ix t) eqn:Ec.
  2: { apply tret_inl in H as [[= -> <-] _]. split; [done|]. intros t' b [= <-] Hb. by apply (prune_irrelevant t b) in Ec. }
  destruct (tree_is_covered ix t seen) eqn:Ev; cbn in H.
  { apply tret_inl in H as [[= -> <-] _]. split; [done|]. intros t' b [= <-] Hb. by eapply prune_covered. }
  unfold insert_tree in H. case_bool_decide as Es.
  { apply tret_inl in H as [[= -> <-] _]. split; [done|]. intros t' b [= <-] Hb. by eapply Hs. }
  apply tbind_inl in H as (o & n1 & Ho & H). destruct (get_tree_oid ix t) as [o'|] eqn:Eo; [|done].
  apply tret_inl in Ho as [-> _].
  destruct (visit_tree_closed late ix find_tree Hix seen t o _ _ _ _ Hs Es Eo H) as (Hc & Ht & _).
  split; [done|]. intros t' b [= <-] Hb. by eapply Hc.
Qed.
