(* ===== verification/GitWalk.v ===== *)
(** * The traversal of the commit graph refines its specification

    [introduces] says, commit by commit, what the blobs introduced are: the visit
    of the commit's tree from what its parents saw. The worklist of
    [GitGraph.walk] computes it for every commit, or reports a cycle. *)

From Stdlib Require Import ZArith Lia Bool ZifyNat.
From stdpp Require Import base list numbers option gmap relations.
From S2P Require Import Prelude Timed GitIndex GitGraph.

(** Choosing a value for each element of a list. *)
Lemma list_choice {A B} `{EqDecision A} (d : B) (Q : A -> B -> Prop) (l : list A) :
  (forall x, In x l -> exists y, Q x y) -> exists f, forall x, In x l -> Q x (f x).
Proof.
  induction l as [|a l IH]; intros H; [by exists (fun _ => d)|].
  destruct IH as [f Hf]; [intros x Hx; apply H; by right|]. destruct (H a) as [y Hy]; [by left|].
  exists (fun x => if decide (x = a) then y else f x). intros x [<-|Hx]; case_decide; subst; auto. done.
Qed.

Lemma heap_pop_perm x l y rest : heap_pop x l = (y, rest) -> x :: l ≡ₚ y :: rest.
Proof.
  revert x y rest. induction l as [|z l IH]; intros x y rest; cbn [heap_pop]; [by intros [= <- <-]|].
  destruct (heap_pop z l) as [top r] eqn:E. apply IH in E. destruct (heap_gt top x); intros [= <- <-].
  - rewrite E. constructor.
  - by rewrite E.
Qed.

Lemma in_outgoing g c e d : In (e, d) (edges_outgoing g c) <-> edges g !! e = Some (c, d).
Proof.
  unfold edges_outgoing. rewrite <-in_rev, in_map_iff. split.
  - intros ([i [s t]] & [= <- <-] & [Hi%in_enumerate Hs]%filter_In). tobool. by subst.
  - intros H. exists (e, (c, d)). split; [done|]. apply filter_In. split; [by apply in_enumerate|apply Nat.eqb_refl].
Qed.

Lemma in_incoming g c e p : In (e, p) (edges_incoming g c) <-> edges g !! e = Some (p, c).
Proof.
  unfold edges_incoming. rewrite <-in_rev, in_map_iff. split.
  - intros ([i [s t]] & [= <- <-] & [Hi%in_enumerate Hs]%filter_In). tobool. by subst.
  - intros H. exists (e, (p, c)). split; [done|]. apply filter_In. split; [by apply in_enumerate|apply Nat.eqb_refl].
Qed.

Lemma has_unvisited_false g visited c :
  has_unvisited_parents g visited c = false <-> forall e p, edges g !! e = Some (p, c) -> e ∈ visited.
Proof.
  unfold has_unvisited_parents. rewrite <-not_true_iff_false, existsb_exists. split.
  - intros H e p He. destruct (decide (e ∈ visited)) as [|Hn]; [done|]. exfalso. apply H. exists (e, p).
    split; [by apply in_incoming|]. by rewrite bool_decide_eq_false_2.
  - intros H ([e p] & He%in_incoming & Hb). apply H in He. by rewrite bool_decide_eq_true_2 in Hb.
Qed.

Lemma is_root_spec g c : is_root g c = true <-> forall e p, edges g !! e <> Some (p, c).
Proof.
  unfold is_root. rewrite Nat.eqb_eq, length_zero_iff_nil. split.
  - intros H e p He%in_incoming. by rewrite H in He.
  - intros H. destruct (edges_incoming g c) as [|[e p] l] eqn:E; [done|]. exfalso.
    apply (H e p), in_incoming. rewrite E. by left.
Qed.

Section Walk.
Context (late : nat -> bool) (ix : RepositoryIndex) (find_tree : oid -> option (list (option Entry)))
        (globs : option (bytes -> bool)) (g : GitMetadataGraph).

Definition parent (p c : nat) : Prop := exists e, edges g !! e = Some (p, c).
Definition num_nodes : nat := length (nodes g).

(** Edges join nodes, and the trees of the commits are indexed. *)
Record graph_ok : Prop := {
  go_edges e p c : edges g !! e = Some (p, c) -> p < num_nodes /\ c < num_nodes;
  go_trees c md t : nodes g !! c = Some md -> tree_idx md = Some t -> t < num_trees ix
}.

(** ** The specification *)

(** Commit [c] saw [s'] and introduced [I]: it started from the union of what its
    parents saw. *)
Inductive introduces : nat -> SeenObjectSet -> IntroducedBlobs -> Prop :=
| introduces_at c md (outs : nat -> SeenObjectSet) (ins : nat -> IntroducedBlobs) seen s' I k :
    nodes g !! c = Some md ->
    (forall p, parent p c -> introduces p (outs p) (ins p)) ->
    (forall t, t ∈ seen_trees seen <-> exists p, parent p c /\ t ∈ seen_trees (outs p)) ->
    (forall b, b ∈ seen_blobs seen <-> exists p, parent p c /\ b ∈ seen_blobs (outs p)) ->
    visit_commit never ix find_tree globs md seen 0 = inl ((s', I), k) ->
    introduces c s' I.

Lemma seen_eq s s' :
  (forall t, t ∈ seen_trees s <-> t ∈ seen_trees s') -> (forall b, b ∈ seen_blobs s <-> b ∈ seen_blobs s') -> s = s'.
Proof. intros Ht Hb. destruct s, s'. f_equal; apply set_eq; done. Qed.

(** The specification is a partial function, defined only on commits without
    infinite ancestry. *)
Lemma introduces_det c s I : introduces c s I -> forall s2 I2, introduces c s2 I2 -> s = s2 /\ I = I2.
Proof.
  induction 1 as [c md outs ins seen s I k Hn Hp IH Ht Hb Hv]. intros s2 I2 H2.
  destruct H2 as [c md2 outs2 ins2 seen2 s2 I2 k2 Hn2 Hp2 Ht2 Hb2 Hv2].
  assert (forall p, parent p c -> outs p = outs2 p) as Ho by (intros p Hpc; by apply (IH p Hpc _ (ins2 p)), Hp2).
  assert (seen = seen2) as ->.
  { apply seen_eq; intros x; [rewrite Ht, Ht2|rewrite Hb, Hb2]; split; intros (p & Hpc & Hx); exists p;
      (split; [done|]); [rewrite <-Ho|rewrite Ho|rewrite <-Ho|rewrite Ho]; done. }
  assert (md = md2) as -> by congruence. rewrite Hv in Hv2. by injection Hv2 as <- <- _.
Qed.

Lemma introduces_acc c s I : introduces c s I -> Acc parent c.
Proof. induction 1 as [c md outs ins seen s I k _ _ IH _ _ _]. constructor. done. Qed.

(** ** The invariant of the worklist *)

(** What the edges visited so far brought to [c]. *)
Definition brought (E : gset nat) (c : nat) (s : SeenObjectSet) : Prop :=
  (forall t, t ∈ seen_trees s <-> exists e p s' I, e ∈ E /\ edges g !! e = Some (p, c) /\ introduces p s' I /\ t ∈ seen_trees s') /\
  (forall b, b ∈ seen_blobs s <-> exists e p s' I, e ∈ E /\ edges g !! e = Some (p, c) /\ introduces p s' I /\ b ∈ seen_blobs s').

Definition all_in (E : gset nat) (c : nat) : Prop := forall e p, edges g !! e = Some (p, c) -> e ∈ E.

(** [rem]: the edges still to be taken out of the commit just visited. *)
Record walk_inv (rem : list (nat * nat)) (w : Walk) : Prop := {
  wi_nodup : NoDup (map snd (commit_worklist w));
  wi_ready c : In c (map snd (commit_worklist w)) <->
    c < num_nodes /\ c ∉ visited_commits w /\ all_in (visited_commit_edges w) c;
  wi_visited c : c ∈ visited_commits w -> c < num_nodes /\ all_in (visited_commit_edges w) c /\
    exists s I, introduces c s I /\ blobs_introduced w !! c = Some I;
  wi_edges e : e ∈ visited_commit_edges w -> exists p c, edges g !! e = Some (p, c) /\ p ∈ visited_commits w;
  wi_out e p c : edges g !! e = Some (p, c) -> p ∈ visited_commits w -> e ∈ visited_commit_edges w \/ In (e, c) rem;
  wi_unvisited c : c < num_nodes -> c ∉ visited_commits w -> blobs_introduced w !! c = Some [];
  wi_seen c : c < num_nodes -> c ∉ visited_commits w ->
    match seen_sets w !! c with
    | Some (Some s) => brought (visited_commit_edges w) c s
    | Some None => (exists e p, edges g !! e = Some (p, c)) /\ forall e p, edges g !! e = Some (p, c) -> e ∉ visited_commit_edges w
    | None => False
    end
}.

Lemma walk_start_inv : walk_inv [] (walk_start g).
Proof.
  assert (forall c, In c (map snd (commit_worklist (walk_start g))) <-> c < num_nodes /\ is_root g c = true) as Hr.
  { intros c. unfold walk_start. cbn. rewrite map_map. cbn. rewrite map_id, filter_In, in_seq. unfold num_nodes. intuition lia. }
  constructor.
  - unfold walk_start. cbn. rewrite map_map. cbn. rewrite map_id. apply NoDup_ListNoDup, List.NoDup_filter, List.seq_NoDup.
  - intros c. rewrite Hr, is_root_spec. cbn. unfold all_in. split.
    + intros [Hc H]. split_and!; [done|set_solver|]. intros e p He. by apply H in He.
    + intros (Hc & _ & H). split; [done|]. intros e p He. apply H in He. set_solver.
  - set_solver.
  - set_solver.
  - set_solver.
  - intros c Hc _. cbn. by apply lookup_replicate_2.
  - intros c Hc _. cbn. rewrite list_lookup_fmap, lookup_seq_lt by done. cbn. destruct (is_root g c) eqn:E.
    + unfold brought. cbn. set_solver.
    + split; [|set_solver]. unfold is_root in E. destruct (edges_incoming g c) as [|[e p] l] eqn:Ei; [done|].
      exists e, p. apply in_incoming. rewrite Ei. by left.
Qed.

(** What one more edge brings. *)
Lemma brought_insert E e c d s s' I child_seen :
  e ∉ E -> edges g !! e = Some (c, d) -> introduces c s' I -> brought E d s ->
  child_seen = union_update s s' -> brought ({[e]} ∪ E) d child_seen.
Proof.
  intros He Hed Hi [H1 H2] ->. unfold brought, union_update. cbn.
  split; intros x; rewrite elem_of_union; [rewrite H1|rewrite H2]; (split;
    [intros [(e' & p & s2 & I2 & ? & ? & ? & ?)|Hx]; [exists e', p, s2, I2; set_solver|exists e, c, s', I; set_solver]|]);
    intros (e' & p & s2 & I2 & Hin & He' & Hi2 & Hx); (destruct (decide (e' = e)) as [->|Hne];
      [right; assert (p = c) as -> by congruence; by destruct (introduces_det _ _ _ Hi _ _ Hi2) as [-> _]|
       left; exists e', p, s2, I2; set_solver]).
Qed.

Lemma brought_skip E e c d d' s : edges g !! e = Some (c, d) -> d' <> d -> brought E d' s -> brought ({[e]} ∪ E) d' s.
Proof.
  intros He Hn [H1 H2]. split; intros x; [rewrite H1|rewrite H2]; (split; intros (e' & p & s2 & I2 & Hin & He' & Hi & Hx);
    exists e', p, s2, I2; (split; [|done]); [set_solver|]); assert (e' <> e) by congruence; set_solver.
Qed.

Context (Hg : graph_ok).

Lemma all_in_mono E E' c : (forall e, e ∈ E -> e ∈ E') -> all_in E c -> all_in E' c.
Proof. intros HE H e p He. by apply HE, (H e p). Qed.

(** The other commits do not notice the edge [e] into [d]. *)
Lemma all_in_skip E e c d d' : edges g !! e = Some (c, d) -> d' <> d -> all_in ({[e]} ∪ E) d' <-> all_in E d'.
Proof.
  intros He Hn. split; [|apply all_in_mono; set_solver]. intros H e' p He'. specialize (H e' p He').
  assert (e' <> e) by congruence. set_solver.
Qed.

Lemma walk_edge_inv c s I e d rem w :
  walk_inv ((e, d) :: rem) w -> edges g !! e = Some (c, d) -> c ∈ visited_commits w -> introduces c s I ->
  walk_inv rem (walk_edge g s w (e, d)) /\ visited_commits (walk_edge g s w (e, d)) = visited_commits w.
Proof.
  intros W He Hc Hi. unfold walk_edge. destruct (bool_decide (e ∈ _)) eqn:Ee; (split; [|done]).
  { apply bool_decide_eq_true in Ee. destruct W. constructor; try done. intros e' p c' He' Hp.
    destruct (wi_out0 e' p c' He' Hp) as [?|[[= <- <-]|?]]; auto. }
  apply bool_decide_eq_false in Ee. destruct (go_edges Hg _ _ _ He) as [_ Hd].
  assert (d ∉ visited_commits w) as Hdv.
  { intros Hv. apply Ee. destruct (wi_visited _ _ W d Hv) as (_ & H & _). by apply (H e c). }
  assert (forall d', d' <> d -> all_in ({[e]} ∪ visited_commit_edges w) d' <-> all_in (visited_commit_edges w) d') as Hskip
    by (intros d'; by apply (all_in_skip _ _ c)).
  assert (~ In d (map snd (commit_worklist w))) as Hdw.
  { intros (_ & _ & H)%(wi_ready _ _ W). apply Ee. by apply (H e c). }
  set (ready := has_unvisited_parents g ({[e]} ∪ visited_commit_edges w) d).
  assert (forall d', In d' (map snd (if ready then commit_worklist w else (out_deg g d, d) :: commit_worklist w)) <->
            In d' (map snd (commit_worklist w)) \/ d' = d /\ ready = false) as Hwl.
  { intros d'. destruct ready; simpl; intuition congruence. }
  assert (ready = false <-> all_in ({[e]} ∪ visited_commit_edges w) d) as Hready by apply has_unvisited_false.
  constructor; cbn.
  - destruct ready; cbn; [apply W|]. constructor; [by rewrite list_elem_of_In|apply W].
  - intros d'. rewrite Hwl, (wi_ready _ _ W), Hready. destruct (decide (d' = d)) as [->|Hn]; [|rewrite (Hskip d') by done; tauto].
    split; [intros [(? & ? & H)|[_ H]]; split_and!; try done; eapply all_in_mono; [|exact H]; set_solver|by intros (_ & _ & H); right].
  - intros d' Hv. destruct (wi_visited _ _ W d' Hv) as (? & H & ?). split_and!; [done| |done]. eapply all_in_mono; [|exact H]. set_solver.
  - intros e' [->%elem_of_singleton|H]%elem_of_union; [by exists c, d|by apply W].
  - intros e' p c' He' Hp. destruct (wi_out _ _ W e' p c' He' Hp) as [?|[[= <- <-]|?]]; [left; set_solver|left; set_solver|by right].
  - apply W.
  - intros d' Hd' Hv'. pose proof (wi_seen _ _ W d' Hd' Hv') as Hs. destruct (decide (d' = d)) as [->|Hn].
    + destruct (seen_sets w !! d) as [[sd|]|] eqn:Es; [| |done];
        rewrite list_lookup_insert_eq by (by eapply lookup_lt_Some).
      * by eapply brought_insert.
      * destruct Hs as [_ Hs]. unfold brought. split; intros x;
          (split; [intros Hx; exists e, c, s, I; set_solver|
           intros (e' & p & s2 & I2 & Hin & He' & Hi2 & Hx); apply elem_of_union in Hin as [->%elem_of_singleton|Hin];
             [assert (p = c) as -> by congruence; by destruct (introduces_det _ _ _ Hi _ _ Hi2) as [-> _]|by apply Hs in He']]).
    + rewrite list_lookup_insert_ne by done. destruct (seen_sets w !! d') as [[sd|]|]; [by eapply brought_skip| |done].
      destruct Hs as [Hs1 Hs2]. split; [done|]. intros e' p He'. apply not_elem_of_union. split; [|by apply (Hs2 e' p)].
      apply not_elem_of_singleton. congruence.
Qed.

Lemma walk_edges_inv c s I l w :
  (forall e d, In (e, d) l -> edges g !! e = Some (c, d)) -> walk_inv l w -> c ∈ visited_commits w -> introduces c s I ->
  walk_inv [] (fold_left (walk_edge g s) l w) /\ visited_commits (fold_left (walk_edge g s) l w) = visited_commits w.
Proof.
  revert w. induction l as [|[e d] l IH]; intros w Hl W Hc Hi; [by split|]. cbn [fold_left].
  destruct (walk_edge_inv c s I e d l w W (Hl _ _ (or_introl eq_refl)) Hc Hi) as [W' Hv].
  rewrite <-Hv. apply IH; [|done|by rewrite Hv|done]. intros e' d' Hin. apply Hl. by right.
Qed.

(** What all the parents saw together. *)
Lemma brought_all w c s :
  walk_inv [] w -> all_in (visited_commit_edges w) c -> brought (visited_commit_edges w) c s ->
  exists outs ins, (forall p, parent p c -> introduces p (outs p) (ins p)) /\
    (forall t, t ∈ seen_trees s <-> exists p, parent p c /\ t ∈ seen_trees (outs p)) /\
    (forall b, b ∈ seen_blobs s <-> exists p, parent p c /\ b ∈ seen_blobs (outs p)).
Proof.
  intros W Ha [Ht Hb].
  destruct (list_choice (seen_new, []) (fun p y => introduces p (fst y) (snd y)) (map snd (edges_incoming g c))) as [f Hf].
  { intros p ([e p'] & <- & He%in_incoming)%in_map_iff. cbn. destruct (wi_edges _ _ W e (Ha e p' He)) as (q & d & Hq & Hv).
    assert (q = p') as -> by congruence. destruct (wi_visited _ _ W p' Hv) as (_ & _ & s' & I & Hi & _). by exists (s', I). }
  assert (forall p, parent p c -> introduces p (fst (f p)) (snd (f p))) as Hf'.
  { intros p [e He]. apply Hf, in_map_iff. exists (e, p). split; [done|by apply in_incoming]. }
  exists (fun p => fst (f p)), (fun p => snd (f p)). split; [done|].
  split; intros x; [rewrite Ht|rewrite Hb]; (split; [intros (e & p & s' & I & _ & He & Hi & Hx); exists p;
      (split; [by exists e|]); by destruct (introduces_det _ _ _ Hi _ _ (Hf' p ltac:(by exists e))) as [<- _]|
    intros (p & [e He] & Hx); exists e, p, (fst (f p)), (snd (f p)); split_and!; [by apply (Ha e p)|done|apply Hf'; by exists e|done]]).
Qed.

Lemma walk_commit_inv d c x l rest w n w' n' :
  walk_inv [] w -> commit_worklist w = x :: l -> x :: l ≡ₚ (d, c) :: rest ->
  walk_commit late ix find_tree globs g c rest w n = inl (w', n') ->
  walk_inv [] w' /\ visited_commits w' = {[c]} ∪ visited_commits w /\ c < num_nodes /\ c ∉ visited_commits w.
Proof.
  intros W Hw Hp H. assert (forall c', In c' (map snd (commit_worklist w)) <-> c' = c \/ In c' (map snd rest)) as Hin.
  { intros c'. rewrite Hw, !in_map_iff. split.
    - intros (y & <- & Hy). apply list_elem_of_In in Hy. rewrite Hp in Hy. apply list_elem_of_In in Hy as [<-|Hy]; [by left|right; eauto].
    - intros [->|(y & <- & Hy)]; [exists (d, c)|exists y]; (split; [done|]); apply list_elem_of_In; rewrite Hp;
        apply list_elem_of_In; simpl; auto. }
  assert (NoDup (c :: map snd rest)) as Hnd.
  { pose proof (wi_nodup _ _ W) as Hn. rewrite Hw in Hn. by rewrite Hp in Hn. }
  destruct (proj1 (wi_ready _ _ W c) ltac:(apply Hin; by left)) as (Hc & Hv & Ha).
  unfold walk_commit in H. apply tbind_inl in H as (u & n1 & _ & H). rewrite bool_decide_eq_false_2 in H by done.
  pose proof (wi_seen _ _ W c Hc Hv) as Hs. destruct (seen_sets w !! c) as [[s|]|] eqn:Es; [| |done].
  2: { destruct Hs as [(e & p & He) Hs]. exfalso. apply (Hs e p He), (Ha e p He). }
  apply tbind_inl in H as (s1 & n2 & [-> _]%tret_inl & H).
  apply tbind_inl in H as (md & n3 & Hmd & H). destruct (nodes g !! c) as [md'|] eqn:Emd; [|done].
  apply tret_inl in Hmd as [-> _]. apply tbind_inl in H as ([s' I] & n4 & Hvis & H). apply tret_inl in H as [<- _].
  destruct (brought_all w c s1 W Ha Hs) as (outs & ins & Hi & Ht & Hb).
  destruct (visit_commit_agrees _ _ _ _ _ _ _ _ _ Hvis 0) as [k Hk].
  assert (introduces c s' I) as Hintro by (by eapply introduces_at).
  match goal with |- context [fold_left _ _ ?w0] => set (w1 := w0) end.
  assert (walk_inv (edges_outgoing g c) w1) as W1.
  { constructor; cbn.
    - by apply NoDup_cons in Hnd as [_ Hnd].
    - intros c'. pose proof (wi_ready _ _ W c') as Hr. rewrite Hin in Hr. rewrite not_elem_of_union, not_elem_of_singleton.
      apply NoDup_cons in Hnd as [Hnd _]. rewrite list_elem_of_In in Hnd. destruct (decide (c' = c)) as [->|]; [tauto|intuition].
    - intros c' Hv'. destruct (decide (c' = c)) as [->|Hn].
      + split_and!; [done|done|]. exists s', I. split; [done|]. rewrite list_lookup_alter_eq.
        by rewrite (wi_unvisited _ _ W c Hc Hv).
      + rewrite list_lookup_alter_ne by done. apply W. set_solver.
    - intros e He. destruct (wi_edges _ _ W e He) as (p & c' & ? & ?). exists p, c'. set_solver.
    - intros e p c' He Hp'. destruct (decide (p = c)) as [->|Hn]; [right; by apply in_outgoing|].
      destruct (wi_out _ _ W e p c' He) as [?|[]]; [set_solver|by left].
    - intros c' Hc' Hv'. rewrite list_lookup_alter_ne by set_solver. apply W; [done|set_solver].
    - intros c' Hc' Hv'. rewrite list_lookup_insert_ne by set_solver. apply W; [done|set_solver]. }
  destruct (walk_edges_inv c s' I (edges_outgoing g c) w1) as [W2 Hv2]; [intros e d'; apply in_outgoing|done|cbn; set_solver|done|].
  split_and!; [done|by rewrite Hv2|done|done].
Qed.

(** ** Termination, and what the end of the walk means *)

Lemma visited_size w : walk_inv [] w -> size (visited_commits w) <= num_nodes.
Proof.
  intros W. rewrite <-(size_set_seq (C := gset nat) 0 num_nodes). apply subseteq_size. intros c Hc.
  apply elem_of_set_seq. destruct (wi_visited _ _ W c Hc). lia.
Qed.

Lemma walk_raises fuel : forall w, walk_inv [] w -> num_nodes - size (visited_commits w) <= fuel ->
  bimap_ok (trees ix) -> raises (timeout late) (walk late ix find_tree globs g fuel w).
Proof.
  induction fuel as [|fuel IH]; intros w W Hf Hix; cbn [walk]; destruct (commit_worklist w) as [|x l] eqn:Ew; try done.
  - destruct (wi_ready _ _ W (snd x)) as [Hr _]. destruct Hr as (Hc & Hv & _); [rewrite Ew; by left|].
    assert (visited_commits w = set_seq 0 num_nodes) as E.
    { apply set_subseteq_size_eq; [|rewrite size_set_seq; lia]. intros c H. apply elem_of_set_seq.
      destruct (wi_visited _ _ W c H). lia. }
    exfalso. apply Hv. rewrite E. apply elem_of_set_seq. lia.
  - destruct (heap_pop x l) as [[d c] rest] eqn:Ep. apply heap_pop_perm in Ep.
    apply raises_bind.
    + destruct (proj1 (wi_ready _ _ W c)) as (Hc & Hv & Ha).
      { rewrite Ew. change c with (snd (d, c)). apply in_map, list_elem_of_In. rewrite Ep. left. }
      apply raises_bind'; [by apply raises_check|intros _]. rewrite bool_decide_eq_false_2 by done.
      pose proof (wi_seen _ _ W c Hc Hv) as Hs. destruct (seen_sets w !! c) as [[s|]|] eqn:Es; [| |done].
      2: { destruct Hs as [(e & p & He) Hs]. exfalso. apply (Hs e p He), (Ha e p He). }
      apply raises_bind'; [apply raises_unwrap|intros s1].
      destruct (lookup_lt_is_Some_2 (nodes g) c Hc) as [md Hmd]. rewrite Hmd.
      apply raises_bind; [apply raises_unwrap|intros md' n n1 [<- _]%tret_inl].
      apply raises_bind'; [|by intros [s' I]]. apply visit_commit_raises; [done|]. intros t. by apply (go_trees Hg c).
    + intros w' n n1 H. destruct (walk_commit_inv d c x l rest w n w' n1 W Ew Ep H) as (W' & Hv' & Hc & Hv).
      apply IH; [done| |done]. rewrite Hv', size_union by set_solver. rewrite size_singleton. lia.
Qed.

Lemma walk_ok fuel : forall w n w' n', walk_inv [] w -> walk late ix find_tree globs g fuel w n = inl (w', n') ->
  walk_inv [] w' /\ commit_worklist w' = [].
Proof.
  induction fuel as [|fuel IH]; intros w n w' n' W H; cbn [walk] in H; destruct (commit_worklist w) as [|x l] eqn:Ew;
    try (apply tret_inl in H as [<- _]; done); [done|].
  destruct (heap_pop x l) as [[d c] rest] eqn:Ep. apply heap_pop_perm in Ep.
  apply tbind_inl in H as (w1 & n1 & H1 & H).
  destruct (walk_commit_inv d c x l rest w n w1 n1 W Ew Ep H1) as [W1 _]. by eapply IH.
Qed.

(** A nonempty finite set where every element has a predecessor has a cycle. *)
Lemma cycle_exists {n} (P : nat -> Prop) (R : nat -> nat -> Prop) :
  (forall c, P c -> c < n) -> (forall c, P c -> exists p, P p /\ R p c) -> forall c, P c -> exists x, tc R x x.
Proof.
  intros Hn Hp c Hc.
  enough (forall k seen c, n - length seen <= k -> NoDup (c :: seen) -> Forall P (c :: seen) ->
            (forall x, In x seen -> tc R c x) -> exists x, tc R x x) as H.
  { apply (H n [] c); [simpl; lia|by apply NoDup_singleton|by repeat constructor|done]. }
  clear c Hc. intros k. induction k as [|k IH]; intros seen c Hk Hd HP Ht.
  - exfalso. assert (length (c :: seen) <= n); [|simpl in *; lia].
    rewrite <-(length_seq n 0). apply NoDup_incl_length; [by apply NoDup_ListNoDup|].
    intros x Hx. apply in_seq. rewrite Forall_forall in HP. apply list_elem_of_In, HP, Hn in Hx. lia.
  - pose proof HP as [Hc _]%Forall_cons. destruct (Hp c Hc) as (p & Hpp & Hr).
    destruct (in_dec Nat.eq_dec p (c :: seen)) as [[->|Hin]|Hin].
    + exists p. by apply tc_once.
    + exists p. eapply tc_l; [exact Hr|by apply Ht].
    + assert (length (c :: seen) <= n).
      { rewrite <-(length_seq n 0). apply NoDup_incl_length; [by apply NoDup_ListNoDup|].
        intros x Hx. apply in_seq. rewrite Forall_forall in HP. apply list_elem_of_In, HP, Hn in Hx. lia. }
      apply (IH (c :: seen) p); [simpl in *; lia|constructor; [by rewrite list_elem_of_In|done]|by constructor|].
      intros x [<-|Hx]; [by apply tc_once|]. eapply tc_l; [exact Hr|by apply Ht].
Qed.

Lemma tc_last {A} (R : A -> A -> Prop) x y : tc R x y -> exists z, R z y /\ rtc R x z.
Proof. induction 1 as [x y H|x y z H _ (w & Hw & Hy)]; [exists x; by split|exists w; split; [done|by eapply rtc_l]]. Qed.

Lemma acc_no_cycle {A} (R : A -> A -> Prop) x : Acc R x -> ~ tc R x x.
Proof.
  induction 1 as [x _ IH]. intros Hc. destruct (tc_last _ _ _ Hc) as (y & Hy & Hxy).
  apply (IH y Hy). eapply tc_rtc_r; [by apply tc_once|]. done.
Qed.

(** With nothing left to visit, either every edge was taken and every commit
    visited, or there is a cycle. *)
Lemma walk_end w :
  walk_inv [] w -> commit_worklist w = [] ->
  if Nat.eqb (size (visited_commit_edges w)) (length (edges g))
  then forall c, c < num_nodes -> c ∈ visited_commits w
  else exists c, tc parent c c.
Proof.
  intros W Hw.
  assert (visited_commit_edges w ⊆ set_seq 0 (length (edges g))) as Hsub.
  { intros e He. destruct (wi_edges _ _ W e He) as (p & c & H & _). apply elem_of_set_seq. apply lookup_lt_Some in H. lia. }
  assert (forall c, c < num_nodes -> c ∉ visited_commits w -> ~ all_in (visited_commit_edges w) c) as Hun.
  { intros c Hc Hv Ha. destruct (wi_ready _ _ W c) as [_ H]. rewrite Hw in H. by destruct H. }
  destruct (Nat.eqb_spec (size (visited_commit_edges w)) (length (edges g))) as [E|E].
  - intros c Hc. destruct (decide (c ∈ visited_commits w)) as [|Hv]; [done|]. exfalso. apply (Hun c Hc Hv).
    intros e p He. assert (visited_commit_edges w = set_seq 0 (length (edges g))) as ->
      by (apply set_subseteq_size_eq; [done|rewrite size_set_seq; lia]).
    apply elem_of_set_seq. apply lookup_lt_Some in He. lia.
  - assert (forall c, c < num_nodes -> c ∉ visited_commits w -> exists p, (p < num_nodes /\ p ∉ visited_commits w) /\ parent p c) as Hpar.
    { intros c Hc Hv. pose proof (Hun c Hc Hv) as Ha.
      destruct (has_unvisited_parents g (visited_commit_edges w) c) eqn:Eh; [|by destruct (Ha (proj1 (has_unvisited_false _ _ _) Eh))].
      apply existsb_exists in Eh as ([e p] & He%in_incoming & Hn). apply negb_true_iff, bool_decide_eq_false in Hn.
      exists p. split; [|by exists e]. split; [by apply (go_edges Hg) in He as [? _]|]. intros Hp.
      destruct (wi_out _ _ W e p c He Hp) as [?|[]]. done. }
    destruct (decide (set_seq 0 (length (edges g)) ⊆ visited_commit_edges w)) as [Hs|Hs].
    { exfalso. apply E. replace (visited_commit_edges w) with (set_seq (C := gset nat) 0 (length (edges g))) by set_solver.
      apply size_set_seq. }
    assert (exists e, e < length (edges g) /\ e ∉ visited_commit_edges w) as (e & He & Hn).
    { destruct (decide (set_Exists (fun e => e ∉ visited_commit_edges w) (set_seq (C := gset nat) 0 (length (edges g))))) as [(e & He & Hn)|H].
      - apply elem_of_set_seq in He. exists e. split; [lia|done].
      - exfalso. apply Hs. intros e He. destruct (decide (e ∈ visited_commit_edges w)) as [|Hn]; [done|]. exfalso. apply H. by exists e. }
    destruct (lookup_lt_is_Some_2 _ _ He) as [[p c] Hpc]. destruct (go_edges Hg _ _ _ Hpc) as [Hp _].
    assert (p ∉ visited_commits w) as Hv by (intros Hv; by destruct (wi_out _ _ W e p c Hpc Hv) as [?|[]]).
    eapply (cycle_exists (fun c => c < num_nodes /\ c ∉ visited_commits w)); [by intros c' [? _]|by intros c' [? ?]; apply Hpar|done].
Qed.

(** ** The answer *)

(** The commits that introduce something, in node order. *)
Definition collect (ins : nat -> IntroducedBlobs) : list (oid * IntroducedBlobs) :=
  List.filter (fun '(_, introduced) => negb (Nat.eqb (length introduced) 0))
    (imap (fun c md => (commit_oid md, ins c)) (nodes g)).

Lemma metadata_cases n : bimap_ok (trees ix) ->
  match get_repo_metadata_with_deadline late ix find_tree globs g n with
  | inl (result, _) => exists outs ins, (forall c, c < num_nodes -> introduces c (outs c) (ins c)) /\ result = collect ins
  | inr (e, k) => timeout late e k \/ e = CommitCycle /\ exists c, tc parent c c
  end.
Proof.
  intros Hix. unfold get_repo_metadata_with_deadline, tbind. fold num_nodes.
  pose proof (walk_raises num_nodes (walk_start g) walk_start_inv ltac:(lia) Hix n) as Hr.
  destruct (walk late ix find_tree globs g num_nodes (walk_start g) n) as [[w n']|[e n']] eqn:E; [|by left].
  destruct (walk_ok _ _ _ _ _ walk_start_inv E) as [W Hw]. pose proof (walk_end w W Hw) as He.
  destruct (Nat.eqb _ _); cbn; [|by right].
  destruct (list_choice (seen_new, []) (fun c y => introduces c (fst y) (snd y) /\ blobs_introduced w !! c = Some (snd y))
              (seq 0 num_nodes)) as [f Hf].
  { intros c Hc%in_seq. destruct (wi_visited _ _ W c (He c ltac:(lia))) as (_ & _ & s & I & ? & ?). by exists (s, I). }
  exists (fun c => fst (f c)), (fun c => snd (f c)). split.
  - intros c Hc. apply Hf, in_seq. lia.
  - unfold collect. f_equal. apply list_eq. intros c. rewrite lookup_zip_with, list_lookup_imap.
    destruct (nodes g !! c) as [md|] eqn:Em; [|done]. cbn.
    destruct (Hf c) as [_ ->]; [|done]. apply in_seq. apply lookup_lt_Some in Em. unfold num_nodes. lia.
Qed.

(** ** What the specification means *)

Lemma introduces_blobs c s I b : introduces c s I ->
  (b ∈ seen_blobs s <-> exists a s' I' x, rtc parent a c /\ introduces a s' I' /\ In x I' /\ get_blob_index ix (fst x) = Some b).
Proof.
  intros Hi. pose proof Hi as Hi'. induction Hi as [c md outs ins seen s I k Hn Hp IH Ht Hb Hv].
  destruct (visit_commit_sound _ _ _ _ _ _ _ _ _ _ Hv) as [_ Hs]. rewrite Hs, Hb. split.
  - intros [(p & Hpc & Hin)|(x & Hx & Hxb)]; [|by exists c, s, I, x].
    apply (IH p Hpc (Hp p Hpc)) in Hin as (a & s2 & I2 & x & Hr & ?). exists a, s2, I2, x. split; [|done]. by eapply rtc_r.
  - intros (a & s2 & I2 & x & Hr & Ha & Hx & Hxb). apply rtc_inv_r in Hr as [->|(p & Hr & Hpc)].
    + right. exists x. destruct (introduces_det _ _ _ Hi' _ _ Ha) as [_ <-]. done.
    + left. exists p. split; [done|]. apply (IH p Hpc (Hp p Hpc)). by exists a, s2, I2, x.
Qed.

(** The path and the place of an introduced blob, and that it is new. *)
Lemma introduces_sound c s I md o path :
  introduces c s I -> nodes g !! c = Some md -> In (o, path) I ->
  (exists t root p, tree_idx md = Some t /\ get_tree_oid ix t = Some root /\ path = render_symbol_path p /\
     blob_at find_tree globs root p o) /\
  forall a s' I' path', tc parent a c -> introduces a s' I' -> ~ In (o, path') I'.
Proof.
  intros Hi Hn Hin. pose proof Hi as Hi'. destruct Hi as [c md2 outs ins seen s I k Hn2 Hp Ht Hb Hv].
  assert (md2 = md) as -> by congruence. destruct (visit_commit_sound _ _ _ _ _ _ _ _ _ _ Hv) as [Hs _].
  rewrite Forall_forall in Hs. destruct (Hs _ (proj2 (list_elem_of_In _ _) Hin)) as (t & root & b & H1 & H2 & Hbi & Hnb & p & H3 & H4).
  split; [by exists t, root, p|]. intros a s' I' path' Hr Ha Hin'. apply Hnb, Hb.
  apply tc_last in Hr as (q & Hq & Hr). exists q. split; [done|]. apply (introduces_blobs _ _ _ _ (Hp q Hq)).
  by exists a, s', I', (o, path').
Qed.
End Walk.

(** Without exclusions, what a commit has seen is closed, and has every candidate
    below the commit's tree. *)
Lemma introduces_closed ix find_tree g `{!Prunes ix find_tree} c s I :
  bimap_ok (trees ix) -> introduces ix find_tree None g c s I ->
  closed ix find_tree s /\
  forall md t b, nodes g !! c = Some md -> tree_idx md = Some t -> tree_blob ix find_tree t b -> b ∈ seen_blobs s.
Proof.
  intros Hix. induction 1 as [c md outs ins seen s I k Hn Hp IH Ht Hb Hv].
  assert (closed ix find_tree seen) as Hs.
  { intros t b (p & Hpc & Hin)%Ht Htb. apply Hb. exists p. split; [done|]. exact (proj1 (IH p Hpc) t b Hin Htb). }
  destruct (visit_commit_closed _ _ _ _ _ _ _ _ _ Hix Hs Hv) as [Hc Htr]. split; [done|].
  intros md' t b Hn'. assert (md' = md) as -> by congruence. apply Htr.
Qed.

(** C12. The traversal refines its specification: it gives, for every commit in
    node order, the blobs that the visit of the commit's tree introduces after
    the union of what its parents saw, whatever the order of the worklist; it
    fails only when the deadline passes or the commits have a cycle, and never
    panics. *)
Theorem metadata_refines late ix find_tree globs g n :
  graph_ok ix g -> bimap_ok (trees ix) ->
  match get_repo_metadata_with_deadline late ix find_tree globs g n with
  | inl (result, _) =>
    exists outs ins, (forall c, c < num_nodes g -> introduces ix find_tree globs g c (outs c) (ins c)) /\
      result = collect g ins /\ forall c, ~ tc (parent g) c c
  | inr (e, k) => timeout late e k \/ e = CommitCycle /\ exists c, tc (parent g) c c
  end.
Proof.
  intros Hg Hix. pose proof (metadata_cases late ix find_tree globs g Hg n Hix) as H.
  destruct (get_repo_metadata_with_deadline late ix find_tree globs g n) as [[result n']|[e n']]; [|done].
  destruct H as (outs & ins & Hi & ->). exists outs, ins. split_and!; [done|done|]. intros c Hc.
  apply (acc_no_cycle (parent g) c); [|done]. eapply introduces_acc, Hi.
  destruct (tc_last _ _ _ Hc) as (p & [e He] & _). by apply (go_edges _ _ Hg) in He as [_ ?].
Qed.

(** An introduced blob is real and new: it is below the tree of its commit, at
    the path reported, through directories that are not excluded, and no proper
    ancestor of the commit introduces the same object. *)
Theorem introduced_sound late ix find_tree globs g n result n' :
  graph_ok ix g -> bimap_ok (trees ix) ->
  get_repo_metadata_with_deadline late ix find_tree globs g n = inl (result, n') ->
  exists ins, result = collect g ins /\ forall c md o path,
    nodes g !! c = Some md -> In (o, path) (ins c) ->
    (exists t root p, tree_idx md = Some t /\ get_tree_oid ix t = Some root /\ path = render_symbol_path p /\
       blob_at find_tree globs root p o) /\
    forall a path', tc (parent g) a c -> ~ In (o, path') (ins a).
Proof.
  intros Hg Hix H. pose proof (metadata_cases late ix find_tree globs g Hg n Hix) as Hm. rewrite H in Hm.
  destruct Hm as (outs & ins & Hi & ->). exists ins. split; [done|]. intros c md o path Hn Hin.
  assert (c < num_nodes g) as Hc by (by eapply lookup_lt_Some).
  destruct (introduces_sound ix find_tree globs g c (outs c) (ins c) md o path (Hi c Hc) Hn Hin) as [H1 H2].
  split; [done|]. intros a path' Ha. eapply H2; [exact Ha|apply Hi].
  destruct Ha as [a c [e He]|a q c [e He] _]; by apply (go_edges _ _ Hg) in He as [? _].
Qed.

(** Nothing is lost: without exclusions, every candidate blob in the tree of a
    commit, at any depth, is introduced by the commit or one of its ancestors. *)
Lemma introduces_complete ix find_tree g outs ins c md t b :
  graph_ok ix g -> bimap_ok (trees ix) -> Prunes ix find_tree ->
  (forall c, c < num_nodes g -> introduces ix find_tree None g c (outs c) (ins c)) ->
  nodes g !! c = Some md -> tree_idx md = Some t -> tree_blob ix find_tree t b ->
  exists a o path, a < num_nodes g /\ rtc (parent g) a c /\ In (o, path) (ins a) /\ get_blob_index ix o = Some b.
Proof.
  intros Hg Hix Hpr Hi Hn Ht Hb.
  assert (c < num_nodes g) as Hc by (by eapply lookup_lt_Some). pose proof (Hi c Hc) as Hic.
  destruct (introduces_closed ix find_tree g c _ _ Hix Hic) as [_ Hs]. specialize (Hs md t b Hn Ht Hb).
  apply (introduces_blobs _ _ _ _ _ _ _ _ Hic) in Hs as (a & s' & I' & [o path] & Hr & Ha & Hx & Hxb).
  assert (a < num_nodes g) as Han.
  { destruct Hr as [a|a q c [e He] _]; [done|]. by apply (go_edges _ _ Hg) in He as [? _]. }
  exists a, o, path. split_and!; [done|done| |done].
  by destruct (introduces_det _ _ _ _ _ _ _ (Hi a Han) _ _ Ha) as [_ ->].
Qed.

(** ** The example, traversed *)

Definition demo_graph : GitMetadataGraph :=
  {| commit_oid_to_node_idx := {[ 1%Z := 0; 2%Z := 1 ]};
     nodes := [{| commit_oid := 1; tree_idx := Some 1 |}; {| commit_oid := 2; tree_idx := Some 2 |}];
     edges := [(0, 1)] |}.

Lemma demo_graph_ok : graph_ok demo_index demo_graph.
Proof.
  constructor.
  - intros [|e] p c H; [|by destruct e]. injection H as <- <-. unfold num_nodes. simpl. lia.
  - intros [|[|c]] md t H Ht; [| |by destruct c]; injection H as <-; injection Ht as <-; vm_compute; lia.
Qed.

(** [lib/b.txt] moves to [src/b.txt] in the second commit, which introduces only
    [c.txt]. *)
Definition demo_result : list (oid * IntroducedBlobs) :=
  [(1, [(201, bs "a.txt"); (202, bs "lib/b.txt")]); (2, [(203, bs "c.txt")])]%Z.

Example demo_metadata :
  match get_repo_metadata_with_deadline never demo_index demo_find_tree None demo_graph 0 with
  | inl (result, _) => result = demo_result
  | inr _ => False
  end.
Proof. vm_compute. reflexivity. Qed.

Lemma demo_metadata_run : exists n',
  get_repo_metadata_with_deadline never demo_index demo_find_tree None demo_graph 0 = inl (demo_result, n').
Proof.
  pose proof demo_metadata as H. destruct (get_repo_metadata_with_deadline _ _ _ _ _ _) as [[r n']|]; [|done].
  exists n'. by rewrite H.
Qed.

Lemma metadata_refines_witness :
  match get_repo_metadata_with_deadline never demo_index demo_find_tree None demo_graph 0 with
  | inl (result, _) =>
    exists outs ins, (forall c, c < num_nodes demo_graph -> introduces demo_index demo_find_tree None demo_graph c (outs c) (ins c)) /\
      result = collect demo_graph ins /\ forall c, ~ tc (parent demo_graph) c c
  | inr (e, k) => timeout never e k \/ e = CommitCycle /\ exists c, tc (parent demo_graph) c c
  end.
Proof. exact (metadata_refines never demo_index demo_find_tree None demo_graph 0 demo_graph_ok (io_trees _ demo_index_ok)). Defined.

Lemma introduced_sound_witness : exists ins, demo_result = collect demo_graph ins /\ forall c md o path,
    nodes demo_graph !! c = Some md -> In (o, path) (ins c) ->
    (exists t root p, tree_idx md = Some t /\ get_tree_oid demo_index t = Some root /\ path = render_symbol_path p /\
       blob_at demo_find_tree None root p o) /\
    forall a path', tc (parent demo_graph) a c -> ~ In (o, path') (ins a).
Proof.
  destruct demo_metadata_run as [n' H].
  exact (introduced_sound never demo_index demo_find_tree None demo_graph 0 _ _ demo_graph_ok (io_trees _ demo_index_ok) H).
Defined.
