(* ===== verification/GitCompact.v ===== *)
(** * Compaction keeps the history:
      [compact_candidate_trees] of [src/git_metadata_graph.rs]

    Dropping the trees without candidates renumbers the others; the candidates
    below each commit, the parents of the commits and the promise of the index to
    the traversal stay. *)

From Stdlib Require Import ZArith Lia Bool ZifyNat.
From stdpp Require Import base list numbers option gmap.
From S2P Require Import Prelude Timed GitIndex GitGraph GitWalk.

(** The numbers that are kept, in order. *)
Definition kept (selected : gset nat) (n : nat) : list nat :=
  List.filter (fun i => bool_decide (i ∈ selected)) (seq 0 n).

Lemma kept_S selected n : kept selected (S n) = kept selected n ++ if bool_decide (n ∈ selected) then [n] else [].
Proof. unfold kept. rewrite seq_S, List.filter_app. simpl. by destruct (bool_decide _). Qed.

Lemma in_kept selected n i : In i (kept selected n) <-> i < n /\ i ∈ selected.
Proof. unfold kept. rewrite filter_In, in_seq, bool_decide_eq_true. intuition lia. Qed.

Lemma enumerate_snoc {A} (l : list A) x : enumerate (l ++ [x]) = enumerate l ++ [(length l, x)].
Proof.
  unfold enumerate. enough (forall k, enumerate_from k (l ++ [x]) = enumerate_from k l ++ [(k + length l, x)]) as H by apply H.
  induction l as [|y l IH]; intros k; simpl; [by rewrite Nat.add_0_r|]. rewrite IH. simpl. by rewrite Nat.add_succ_r.
Qed.

(** Filtering by position, as lookups. *)
Lemma filter_positions {A} selected (l : list A) j :
  map snd (List.filter (fun '(i, _) => bool_decide (i ∈ selected)) (enumerate l)) !! j =
  match kept selected (length l) !! j with Some i => l !! i | None => None end.
Proof.
  revert j. induction l as [|x l IH] using rev_ind; intros j; [done|].
  assert (length (map snd (List.filter (fun '(i, _) => bool_decide (i ∈ selected)) (enumerate l))) = length (kept selected (length l))) as Hl.
  { rewrite length_map. clear IH. induction l as [|y l IH] using rev_ind; [done|].
    rewrite enumerate_snoc, List.filter_app, length_app, IH, length_app. simpl. rewrite Nat.add_1_r, kept_S, length_app.
    by destruct (bool_decide _). }
  rewrite enumerate_snoc, List.filter_app, map_app, length_app. simpl. rewrite Nat.add_1_r, kept_S.
  destruct (decide (j < length (kept selected (length l)))) as [Hj|Hj].
  - rewrite !lookup_app_l by (rewrite ?Hl; done). rewrite IH.
    destruct (kept selected (length l) !! j) as [i|] eqn:Ei; [|done]. apply list_elem_of_lookup_2, list_elem_of_In, in_kept in Ei as [Hi _].
    by rewrite lookup_app_l.
  - rewrite !lookup_app_r by (rewrite ?Hl; lia). rewrite Hl. case_bool_decide; simpl; [|done].
    destruct (j - length (kept selected (length l))) as [|k]; simpl; [|done]. by rewrite lookup_app_r, Nat.sub_diag.
Qed.

Lemma bimap_nodup m : bimap_ok m -> NoDup (idx_to_oid m).
Proof. intros H. apply NoDup_alt. intros i j o Hi%H Hj%H. congruence. Qed.

(** The renumbering. *)
Lemma compact_bimap_spec selected ids N :
  NoDup ids -> length ids <= N ->
  let '(remap, m) := fold_left (compact_step selected) (enumerate ids) (replicate N U32_MAX, bimap_empty) in
  bimap_ok m /\ idx_to_oid m = map snd (List.filter (fun '(i, _) => bool_decide (i ∈ selected)) (enumerate ids)) /\
  length remap = N /\
  forall i, i < N ->
    if bool_decide (i ∈ selected /\ i < length ids)
    then exists j, remap !! i = Some (Z.of_nat j) /\ kept selected (length ids) !! j = Some i
    else remap !! i = Some U32_MAX.
Proof.
  induction ids as [|o ids IH] using rev_ind; intros Hd Hl.
  { simpl. split_and!; [apply bimap_empty_ok|done|apply length_replicate|]. intros i Hi.
    rewrite bool_decide_eq_false_2 by (simpl; lia). by apply lookup_replicate_2. }
  apply NoDup_app in Hd as (Hd & Hno & _). rewrite length_app in Hl. simpl in Hl.
  specialize (IH Hd ltac:(lia)). rewrite enumerate_snoc, fold_left_app.
  destruct (fold_left (compact_step selected) (enumerate ids) _) as [remap m]. destruct IH as (Hm & Hids & Hr & Hi).
  assert (length (idx_to_oid m) = length (kept selected (length ids))) as Hlen.
  { assert (forall j, is_Some (idx_to_oid m !! j) <-> is_Some (kept selected (length ids) !! j)) as H.
    { intros j. rewrite Hids, filter_positions. destruct (kept selected (length ids) !! j) as [i|] eqn:Ei; [|done].
      apply list_elem_of_lookup_2, list_elem_of_In, in_kept in Ei as [Hlt _]. split; [done|]. intros _. by apply lookup_lt_is_Some. }
    apply Nat.le_antisymm; apply Nat.le_ngt; intros Hlt; apply (lookup_lt_is_Some_2) in Hlt; apply H, lookup_lt_is_Some in Hlt; lia. }
  cbn [fold_left compact_step]. rewrite List.filter_app, map_app, length_app. simpl. rewrite Nat.add_1_r, kept_S.
  destruct (decide (length ids ∈ selected)) as [Hs|Hs];
    [rewrite !(bool_decide_eq_true_2 (length ids ∈ selected)) by done|rewrite !(bool_decide_eq_false_2 (length ids ∈ selected)) by done].
  - assert (oid_to_idx m !! o = None) as Ho.
    { destruct (oid_to_idx m !! o) as [j|] eqn:E; [|done]. exfalso. apply Hm in E. rewrite Hids in E.
      apply list_elem_of_lookup_2, list_elem_of_In, in_map_iff in E as ([i o'] & <- & [Hin%in_enumerate _]%filter_In).
      apply (Hno o'); [by eapply list_elem_of_lookup_2|by left]. }
    split_and!; [by apply bimap_insert_ok|unfold bimap_insert; rewrite Ho; cbn; by rewrite Hids|by rewrite length_insert|].
    intros i HiN. destruct (decide (i = length ids)) as [->|Hne].
    + rewrite bool_decide_eq_true_2 by (split; [done|lia]). exists (bimap_len m).
      rewrite list_lookup_insert_eq by lia. split; [done|]. unfold bimap_len. by rewrite Hlen, lookup_app_r, Nat.sub_diag.
    + rewrite list_lookup_insert_ne by done. specialize (Hi i HiN). case_bool_decide as E1.
      * rewrite bool_decide_eq_true_2 by (split; [apply E1|lia]). destruct Hi as (j & ? & Hj). exists j. split; [done|].
        by apply lookup_app_l_Some.
      * rewrite bool_decide_eq_false_2; [done|]. intros [? ?]. apply E1. split; [done|lia].
  - split_and!; [done|by rewrite app_nil_r|done|]. intros i HiN. specialize (Hi i HiN). rewrite app_nil_r.
    case_bool_decide as E1.
    + by rewrite bool_decide_eq_true_2 by (split; [apply E1|lia]).
    + rewrite bool_decide_eq_false_2; [done|]. intros [? ?]. apply E1. split; [done|].
      assert (i <> length ids) by congruence. lia.
Qed.

(** ** The renumbered index *)

Section Renumbered.
Context (ix ix' : RepositoryIndex) (find_tree : oid -> option (list (option Entry))) (s : CandidateSummaries).
Context (Hix : bimap_ok (trees ix)) (Hix' : bimap_ok (trees ix')) (Hblobs : blobs ix' = blobs ix).
Context (Hct : candidate_trees ix = Some (relevant s)) (Hcs : candidate_summaries ix = Some s)
        (Hlen : length (state_of s) = num_trees ix).
Context (Hct' : candidate_trees ix' = None) (Hcs' : candidate_summaries ix' = Some (retain s (relevant s))).
Context (Hids : idx_to_oid (trees ix') =
  map snd (List.filter (fun '(i, _) => bool_decide (i ∈ relevant s)) (enumerate (idx_to_oid (trees ix))))).
Context `{!Prunes ix find_tree}.

(** Tree [t] of the old index is tree [t'] of the new one. *)
Definition renumbered (t t' : nat) : Prop := kept (relevant s) (num_trees ix) !! t' = Some t.

Lemma renumbered_oid t t' : renumbered t t' -> get_tree_oid ix' t' = get_tree_oid ix t /\ t < num_trees ix.
Proof.
  intros H. unfold get_tree_oid, get_oid. rewrite Hids, filter_positions. unfold renumbered, num_trees, bimap_len in *.
  rewrite H. split; [done|]. by apply list_elem_of_lookup_2, list_elem_of_In, in_kept in H as [? _].
Qed.

Lemma renumbered_of_new t' o : get_tree_oid ix' t' = Some o -> exists t, renumbered t t'.
Proof.
  unfold get_tree_oid, get_oid. rewrite Hids, filter_positions. unfold renumbered, num_trees, bimap_len.
  destruct (kept _ _ !! t') as [t|]; [by exists t|done].
Qed.

(** A tree with a candidate below is kept. *)
Lemma renumbered_of_old t b : tree_blob ix find_tree t b -> exists t', renumbered t t'.
Proof.
  intros Hb. assert (is_candidate_tree ix t = true) as Hc.
  { destruct (is_candidate_tree ix t) eqn:E; [done|]. by apply (prune_irrelevant t b) in E. }
  unfold is_candidate_tree in Hc. rewrite Hct in Hc. apply bool_decide_eq_true in Hc.
  pose proof (proj1 (relevant_spec s t) Hc) as (st & Hst & _). apply lookup_lt_Some in Hst.
  assert (In t (kept (relevant s) (num_trees ix))) as H by (apply in_kept; split; [lia|done]).
  by apply list_elem_of_In, list_elem_of_lookup in H as [t' H]; exists t'.
Qed.

Lemma renumbered_index t t' o : renumbered t t' -> get_tree_index ix o = Some t <-> get_tree_index ix' o = Some t'.
Proof.
  intros H. pose proof (renumbered_oid _ _ H) as [Ho _]. unfold get_tree_index, get_idx.
  rewrite (Hix o t), (Hix' o t'). unfold get_tree_oid, get_oid in Ho. by rewrite Ho.
Qed.

Lemma renumbered_entry t t' e : renumbered t t' -> tree_entry ix find_tree t e <-> tree_entry ix' find_tree t' e.
Proof. intros [Ho _]%renumbered_oid. unfold tree_entry. by rewrite Ho. Qed.

Lemma renumbered_blob t t' b : renumbered t t' -> tree_blob ix find_tree t b <-> tree_blob ix' find_tree t' b.
Proof.
  intros H. assert (forall o, get_blob_index ix' o = get_blob_index ix o) as Hb by (intros; unfold get_blob_index; by rewrite Hblobs).
  split; intros Hbl; [revert t' H|revert t H].
  - induction Hbl as [t e b He Hm Hi|t e c b He Hm1 Hm2 Hi Hbl IH]; intros t' H.
    + eapply tree_blob_here; [by apply (renumbered_entry t)|done|by rewrite Hb].
    + destruct (renumbered_of_old _ _ Hbl) as [c' Hc]. eapply tree_blob_below; [by apply (renumbered_entry t)|done|done| |by apply IH].
      by apply (renumbered_index c).
  - induction Hbl as [t' e b He Hm Hi|t' e c' b He Hm1 Hm2 Hi Hbl IH]; intros t H.
    + eapply tree_blob_here; [by apply (renumbered_entry t t')|done|by rewrite <-Hb].
    + destruct (renumbered_of_new c' (entry_oid e)) as [c Hc]; [by apply Hix'|].
      eapply tree_blob_below; [by apply (renumbered_entry t t')|done|done| |by apply IH].
      by apply (renumbered_index c c').
Qed.

Lemma renumbered_prunes : Prunes ix' find_tree.
Proof.
  split.
  - intros t b. unfold is_candidate_tree. by rewrite Hct'.
  - intros t' seen b H Hb. assert (exists t, renumbered t t') as [t Ht].
    { destruct Hb as [? ? (o & ? & Ho & _)|? ? ? (o & ? & Ho & _)]; by apply (renumbered_of_new t' o). }
    apply (prune_covered t seen b); [|by apply (renumbered_blob t t')].
    unfold tree_is_covered in *. rewrite Hcs. rewrite Hcs' in H. unfold covered in *.
    assert (state_of (retain s (relevant s)) !! t' = state_of s !! t) as <-; [|done].
    unfold retain. cbn. rewrite filter_positions, Hlen. unfold renumbered in Ht. by rewrite Ht.
Qed.
End Renumbered.

(** The candidates below the tree of a commit. *)
Definition commit_blob (ix : RepositoryIndex) (find_tree : oid -> option (list (option Entry))) (md : CommitMetadata) (b : nat) : Prop :=
  exists t, tree_idx md = Some t /\ tree_blob ix find_tree t b.

Lemma tree_blob_same_iff ix ix' find_tree t b :
  trees ix' = trees ix -> blobs ix' = blobs ix -> tree_blob ix' find_tree t b <-> tree_blob ix find_tree t b.
Proof. intros Ht Hb. split; by apply tree_blob_same. Qed.

(** The same commit: its id, its tree while it is indexed, and what is below. *)
Record same_commit (ix : RepositoryIndex) find_tree (ix' : RepositoryIndex) (md md' : CommitMetadata) : Prop := {
  sc_oid : commit_oid md' = commit_oid md;
  sc_tree t' : tree_idx md' = Some t' -> exists t, tree_idx md = Some t /\ get_tree_oid ix' t' = get_tree_oid ix t;
  sc_blobs b : commit_blob ix find_tree md b <-> commit_blob ix' find_tree md' b
}.

(** What compaction keeps. *)
Definition keeps (ix : RepositoryIndex) find_tree (g : GitMetadataGraph) (ix' : RepositoryIndex) (g' : GitMetadataGraph) : Prop :=
  bimap_ok (trees ix') /\ blobs ix' = blobs ix /\ Prunes ix' find_tree /\ graph_ok ix' g' /\ edges g' = edges g /\
  Forall2 (same_commit ix find_tree ix') (nodes g) (nodes g').

(** Nothing is renumbered. *)
Lemma keeps_unchanged ix find_tree g ix' :
  bimap_ok (trees ix) -> graph_ok ix g -> trees ix' = trees ix -> blobs ix' = blobs ix -> Prunes ix' find_tree ->
  keeps ix find_tree g ix' g.
Proof.
  intros Hix [He Ht] E1 E2 Hp. split_and!; try done.
  - by rewrite E1.
  - constructor; [done|]. intros c md t. unfold num_trees. rewrite E1. apply Ht.
  - apply Forall2_same_length_lookup_2; [done|]. intros i md md' H1 H2. assert (md' = md) as -> by congruence.
    constructor; [done| |].
    + intros t Ht'. exists t. split; [done|]. unfold get_tree_oid. by rewrite E1.
    + intros b. unfold commit_blob. by setoid_rewrite (tree_blob_same_iff ix ix' find_tree).
Qed.

Section Keeps.
Context (ix ix' : RepositoryIndex) (find_tree : oid -> option (list (option Entry))) (s : CandidateSummaries).
Context (Hix : bimap_ok (trees ix)) (Hct : candidate_trees ix = Some (relevant s)) (Hcs : candidate_summaries ix = Some s)
        (Hlen : length (state_of s) = num_trees ix) (Hsize : (Z.of_nat (num_trees ix) <= U32_MAX)%Z).
Context `{!Prunes ix find_tree}.

(** The renumbered index and graph. *)
Lemma keeps_renumbered g remap m :
  graph_ok ix g -> compact_bimap (relevant s) (idx_to_oid (trees ix)) = (remap, m) ->
  trees ix' = m -> blobs ix' = blobs ix -> candidate_trees ix' = None -> candidate_summaries ix' = Some (retain s (relevant s)) ->
  keeps ix find_tree g ix'
    {| commit_oid_to_node_idx := commit_oid_to_node_idx g; nodes := map (remap_commit remap) (nodes g); edges := edges g |}.
Proof.
  intros [Hge Hgt] Hc Hm Hblobs Hct' Hcs'.
  pose proof (compact_bimap_spec (relevant s) (idx_to_oid (trees ix)) _ (bimap_nodup _ Hix) (Nat.le_refl _)) as Hspec.
  unfold compact_bimap in Hc. rewrite Hc in Hspec. destruct Hspec as (Hm' & Hids & Hr & Hi). rewrite <-Hm in Hm', Hids.
  fold (bimap_len (trees ix)) in Hi. fold (num_trees ix) in Hi.
  assert (forall t, t < num_trees ix -> t ∈ relevant s -> exists t', renumbered ix s t t' /\ nth t remap U32_MAX = Z.of_nat t') as Hin.
  { intros t Ht Hs. specialize (Hi t Ht). rewrite bool_decide_eq_true_2 in Hi by done. destruct Hi as (j & Hj & Hk).
    exists j. split; [done|]. by apply nth_lookup_Some with (d := U32_MAX) in Hj. }
  assert (forall t, t < num_trees ix -> t ∉ relevant s -> nth t remap U32_MAX = U32_MAX) as Hout.
  { intros t Ht Hs. specialize (Hi t Ht). rewrite bool_decide_eq_false_2 in Hi by tauto. by apply nth_lookup_Some with (d := U32_MAX) in Hi. }
  assert (forall t t', renumbered ix s t t' -> (Z.of_nat t' ==? U32_MAX) = false /\ t' < num_trees ix') as Hlt.
  { intros t t' H. destruct (renumbered_oid ix ix' s Hids t t' H) as [Ho Ht]. split.
    - apply Z.eqb_neq. apply lookup_lt_Some in H. unfold kept in H.
      pose proof (filter_length_le (fun i => bool_decide (i ∈ relevant s)) (seq 0 (num_trees ix))) as Hle.
      rewrite length_seq in Hle. lia.
    - destruct (lookup_lt_is_Some_2 (idx_to_oid (trees ix)) t Ht) as [o Ho']. unfold get_tree_oid, get_oid in Ho.
      rewrite Ho' in Ho. by apply lookup_lt_Some in Ho. }
  assert (forall c md, nodes g !! c = Some md ->
    (exists t t', tree_idx md = Some t /\ renumbered ix s t t' /\ tree_idx (remap_commit remap md) = Some t') \/
    tree_idx (remap_commit remap md) = None /\ forall t, tree_idx md = Some t -> t ∉ relevant s) as Hmap.
  { intros c md Hmd. unfold remap_commit. cbn. destruct (tree_idx md) as [t|] eqn:Et; [|by right].
    pose proof (Hgt c md t Hmd Et) as Ht. destruct (decide (t ∈ relevant s)) as [Hs|Hs].
    - destruct (Hin t Ht Hs) as (t' & Hren & ->). destruct (Hlt t t' Hren) as [-> _]. cbn. left. exists t, t'.
      by rewrite Nat2Z.id.
    - right. rewrite (Hout t Ht Hs), Z.eqb_refl. split; [done|]. by intros t2 [= <-]. }
  split_and!; [done|done|eapply (renumbered_prunes ix ix' find_tree s); eassumption| |done|].
  - constructor; cbn.
    + unfold num_nodes. cbn. rewrite length_map. apply Hge.
    + intros c md' t' Hc' Ht'. rewrite list_lookup_fmap in Hc'. destruct (nodes g !! c) as [md|] eqn:Emd; [|done].
      injection Hc' as <-. destruct (Hmap c md Emd) as [(t & t2 & _ & Hren & E)|[E _]]; [|congruence].
      assert (t2 = t') as -> by congruence. by apply (Hlt t).
  - cbn. apply Forall2_same_length_lookup_2; [by rewrite length_map|]. intros c md md' Emd Hc'.
    rewrite list_lookup_fmap, Emd in Hc'. injection Hc' as <-. constructor; [done| |].
    { intros t2 Ht2. destruct (Hmap c md Emd) as [(t & t' & Ht & Hren & E)|[E _]]; [|congruence].
      exists t. split; [done|]. assert (t2 = t') as -> by congruence. by apply (renumbered_oid ix ix' s Hids). }
    intros b. unfold commit_blob. destruct (Hmap c md Emd) as [(t & t' & -> & Hren & ->)|[-> Hno]].
    + pose proof (renumbered_blob ix ix' find_tree s Hix Hm' Hblobs Hct Hlen Hids t t' b Hren) as Hb.
      split; intros (t2 & [= <-] & H); eexists; (split; [reflexivity|]); by apply Hb.
    + split; intros (t & Ht & Hb); [|done]. exfalso. apply (prune_irrelevant (ix := ix) t b); [|done].
      unfold is_candidate_tree. rewrite Hct. by apply bool_decide_eq_false_2, Hno.
Qed.
End Keeps.

(** Compacting a prepared index. *)
Lemma compact_prepared late find_tree order ix n ix1 n1 g :
  bimap_ok (trees ix) -> graph_ok ix g -> prepare_candidate_trees late find_tree order ix n = inl (ix1, n1) ->
  let (ix', g') := compact_candidate_trees ix1 g in keeps ix find_tree g ix' g'.
Proof.
  intros Hix Hg H. apply prepare_prunes in H as (Hp & Hsame & s & Hs & Hc & _ & Hlen & Ht & Hb).
  assert (forall ix' g', keeps ix1 find_tree g ix' g' -> keeps ix find_tree g ix' g') as Hkeep.
  { intros ix' g' (K1 & K2 & K3 & K4 & K5 & K6). split_and!; try done; [congruence|]. eapply Forall2_impl; [exact K6|].
    intros md md' [E Et Hb']. constructor; [done| |].
    - intros t' Ht'. destruct (Et t' Ht') as (t & ? & ->). exists t. split; [done|]. unfold get_tree_oid. by rewrite Ht.
    - intros b. rewrite <-Hb'. unfold commit_blob. by setoid_rewrite Hsame. }
  assert (graph_ok ix1 g) as Hg1 by (destruct Hg as [G1 G2]; constructor; [done|unfold num_trees; by rewrite Ht]).
  assert (num_trees ix1 = num_trees ix) as Hn by (unfold num_trees; by rewrite Ht). rewrite <-Hn in Hlen.
  rewrite <-Ht in Hix. unfold compact_candidate_trees. rewrite Hc. destruct (Nat.eqb _ _).
  { apply Hkeep, keeps_unchanged; try done. split; [done|]. intros t seen b Hcov Hbl.
    eapply (prune_covered (ix := ix1)); [exact Hcov|]. by eapply tree_blob_same in Hbl. }
  destruct (U32_MAX <? _)%Z eqn:Esz; [by apply Hkeep, keeps_unchanged|].
  destruct (compact_bimap _ _) as [remap m] eqn:Em. apply Z.ltb_ge in Esz. rewrite Hs.
  by apply Hkeep, (keeps_renumbered ix1 _ find_tree s Hix Hc Hs Hlen Esz g remap m).
Qed.

(** Compacting an index after its summaries are prepared loses nothing: the
    numbering stays a bijection, the index still only rules out what it may, the
    commits keep their ids and parents, those that keep a tree keep the same one,
    and below every commit there are the same candidates as before. *)
Theorem compact_keeps_history late find_tree order ix n g :
  bimap_ok (trees ix) -> graph_ok ix g ->
  match prepare_candidate_trees late find_tree order ix n with
  | inl (ix1, _) => let (ix', g') := compact_candidate_trees ix1 g in keeps ix find_tree g ix' g'
  | inr (e, _) => e = TimedOut
  end.
Proof.
  intros Hix Hg. destruct (prepare_candidate_trees late find_tree order ix n) as [[ix1 n1]|[e n1]] eqn:E.
  - by eapply compact_prepared.
  - unfold prepare_candidate_trees, tbind in E. pose proof (build_raises late ix find_tree order n) as H.
    destruct (build late ix find_tree order n) as [[s n2]|[e' n2]]; [done|]. injection E as <- <-. apply H.
Qed.

(** The example with only [c.txt] a candidate: the trees of the first commit are
    dropped. *)
Definition demo_candidates : RepositoryIndex := retain_blob_indexes demo_index (fun i => Nat.eqb i 2).

Lemma demo_candidates_ok : bimap_ok (trees demo_candidates) /\ graph_ok demo_candidates demo_graph.
Proof. split; [apply (io_trees _ demo_index_ok)|by destruct demo_graph_ok]. Qed.

Example demo_compact :
  match prepare_candidate_trees never demo_find_tree [2; 1; 0] demo_candidates 0 with
  | inl (ix1, _) =>
    let (ix', g') := compact_candidate_trees ix1 demo_graph in
    (idx_to_oid (trees ix'), map tree_idx (nodes g'), option_map state_of (candidate_summaries ix')) =
    ([103]%Z, [None; Some 0], Some [3]%Z)
  | inr _ => False
  end.
Proof. vm_compute. reflexivity. Qed.

Lemma compact_keeps_history_witness :
  match prepare_candidate_trees never demo_find_tree [2; 1; 0] demo_candidates 0 with
  | inl (ix1, _) =>
    let (ix', g') := compact_candidate_trees ix1 demo_graph in keeps demo_candidates demo_find_tree demo_graph ix' g'
  | inr (e, _) => e = TimedOut
  end.
Proof.
  exact (compact_keeps_history never demo_find_tree [2; 1; 0] demo_candidates 0 demo_graph
           (proj1 demo_candidates_ok) (proj2 demo_candidates_ok)).
Defined.
