(* ===== verification/GitRepo.v ===== *)
(** * The blobs of a repository with their history:
      [src/git_repo_enumerator.rs]

    The object index, the content prepass, the commit graph and its traversal put
    together: every scannable blob with the commits that introduced it. The
    object database is a parameter: its ids in order, headers, trees, blobs and
    commits ([None]: unreadable), and the time parser of signatures. *)

From Stdlib Require Import ZArith Lia Bool ZifyNat.
From stdpp Require Import base list numbers option gmap relations.
From S2P Require Import Prelude Text Timed GitIndex GitGraph GitWalk GitCompact.

(** A decoded commit; signatures may fail to decode. *)
Record Signature := { sig_name : bytes; sig_email : bytes; sig_time : bytes }.
Record CommitObject := {
  commit_tree : oid; commit_parents : list oid; commit_committer : option Signature; commit_author : option Signature
}.

Record Time := { seconds : Z; offset : Z }.

(** [git_commit_metadata::CommitMetadata]; identities are interned, which is not
    observable. *)
Record CommitInfo := {
  commit_id : oid; author_name : option bytes; author_email : option bytes;
  committer_name : bytes; committer_email : bytes; committer_timestamp : Time
}.
Record BlobAppearance := { commit_metadata : CommitInfo; path : bytes }.
Record GitBlobMetadata := { blob_oid : oid; first_seen : list BlobAppearance }.

Definition CONTENT_PREPASS_MIN_BLOBS : Z := 1000000.

Section Enumerator.
Context (late : nat -> bool).
(** The object database. *)
Context (objects : list (option oid)) (header : oid -> option (Kind * Z))
        (find_tree : oid -> option (list (option Entry))) (find_blob : oid -> option bytes)
        (find_commit : oid -> option CommitObject) (parse_time : bytes -> option Time).
(** The configuration, and the order in which threads summarise trees. *)
Context (globs : option (bytes -> bool)) (filter : option GitContentFilter) (order : list nat).

Definition parse_sig_time (raw : bytes) : Time := default {| seconds := 0; offset := 0 |} (parse_time raw).

(** One commit of the graph: its node, and an edge from each parent. *)
Definition add_parent (commit_idx : nat) (g : GitMetadataGraph) (parent_oid : oid) : GitMetadataGraph :=
  let '(parent_idx, g) := get_commit_idx g parent_oid None in add_commit_edge g parent_idx commit_idx.
Definition add_commit (ix : RepositoryIndex) (commit_oid : oid) (g : GitMetadataGraph) : GitMetadataGraph :=
  match find_commit commit_oid with
  | None => g
  | Some commit =>
    match get_tree_index ix (commit_tree commit) with
    | None => g
    | Some tree_idx =>
      let '(commit_idx, g) := get_commit_idx g commit_oid (Some tree_idx) in
      fold_left (add_parent commit_idx) (commit_parents commit) g
    end
  end.
Definition build_graph (ix : RepositoryIndex) : Timed GitMetadataGraph :=
  tfold (fun o g => check_deadline late ;;* tret (add_commit ix o g)) (idx_to_oid (commits ix)) graph_empty.

(** The metadata of a commit, when it can be read and has a committer. *)
Definition commit_info (o : oid) : option CommitInfo :=
  match find_commit o with
  | None => None
  | Some commit =>
    match commit_committer commit with
    | None => None
    | Some c =>
      Some {| commit_id := o;
              author_name := option_map (fun a => from_utf8_lossy (sig_name a)) (commit_author commit);
              author_email := option_map (fun a => from_utf8_lossy (sig_email a)) (commit_author commit);
              committer_name := from_utf8_lossy (sig_name c); committer_email := from_utf8_lossy (sig_email c);
              committer_timestamp := parse_sig_time (sig_time c) |}
    end
  end.

Definition push_appearance (ix : RepositoryIndex) (cm : CommitInfo) (blobs : list GitBlobMetadata) (x : oid * bytes) :
    list GitBlobMetadata :=
  match get_blob_index ix (fst x) with
  | Some i =>
    alter (fun b => {| blob_oid := blob_oid b;
                       first_seen := first_seen b ++ [{| commit_metadata := cm; path := snd x |}] |}) i blobs
  | None => blobs
  end.
Definition assemble_commit (ix : RepositoryIndex) (e : oid * IntroducedBlobs) (blobs : list GitBlobMetadata) :
    Timed (list GitBlobMetadata) :=
  check_deadline late ;;*
  if Nat.eqb (length (snd e)) 0 then tret blobs
  else
    match commit_info (fst e) with
    | None => tret blobs
    | Some cm => tret (fold_left (push_appearance ix cm) (snd e) blobs)
    end.

(** [retain_mut]: [None] when the blob goes. *)
Definition retain_blob (b : GitBlobMetadata) : option GitBlobMetadata :=
  match first_seen b with
  | [] => Some b
  | _ =>
    let seen := List.filter (fun a => negb (path_is_excluded globs (path a))) (first_seen b) in
    match seen with [] => None | _ => Some {| blob_oid := blob_oid b; first_seen := seen |} end
  end.

(** Everything after the commit graph is built. *)
Definition assemble (ix : RepositoryIndex) (g : GitMetadataGraph) : Timed (list GitBlobMetadata) :=
  let '(ix, g) := compact_candidate_trees ix g in
  let* meta_result := tcatch (get_repo_metadata_with_deadline late ix find_tree globs g) in
  check_deadline late ;;*
  let blobs := map (fun o => {| blob_oid := o; first_seen := [] |}) (idx_to_oid (blobs ix)) in
  check_deadline late ;;*
  match meta_result with
  | inr _ => tret blobs
  | inl metadata =>
    let* blobs := tfold (assemble_commit ix) metadata blobs in
    check_deadline late ;;*
    let blobs := omap retain_blob blobs in
    check_deadline late ;;*
    tret blobs
  end.

(** The index with its prepass: [None] when no blob is left. *)
Definition prepare (minimum_blobs : Z) : Timed (option RepositoryIndex) :=
  let* ix := new_with_deadline late header objects in
  match filter with
  | Some f =>
    if (minimum_blobs <=? Z.of_nat (num_blobs ix))%Z then
      let* ix := retain_content_candidates late header find_blob f ix in
      if Nat.eqb (num_blobs ix) 0 then tret None
      else let* ix := prepare_candidate_trees late find_tree order ix in tret (Some ix)
    else tret (Some ix)
  | None => tret (Some ix)
  end.

Definition run_with_minimum_blobs (minimum_blobs : Z) : Timed (list GitBlobMetadata) :=
  check_deadline late ;;*
  let* prepared := prepare minimum_blobs in
  match prepared with
  | None => tret []
  | Some ix => let* g := build_graph ix in assemble ix g
  end.

Definition run_with_deadline : Timed (list GitBlobMetadata) := run_with_minimum_blobs CONTENT_PREPASS_MIN_BLOBS.
End Enumerator.

(** ** The commit graph that is built *)

Section Graph.
Context (ix : RepositoryIndex) (find_commit : oid -> option CommitObject).

(** The parents of a commit object, and its tree when it is indexed. *)
Definition git_parent (p c : oid) : Prop := exists commit, find_commit c = Some commit /\ In p (commit_parents commit).
Definition commit_tree_index (o : oid) : option nat :=
  match find_commit o with Some commit => get_tree_index ix (commit_tree commit) | None => None end.
Definition node_oid (g : GitMetadataGraph) (i : nat) : option oid := option_map commit_oid (nodes g !! i).

(** The commits in [P] were added. *)
Record graph_inv (P : oid -> Prop) (g : GitMetadataGraph) : Prop := {
  gi_map o i : commit_oid_to_node_idx g !! o = Some i <-> node_oid g i = Some o;
  gi_edges e p c : edges g !! e = Some (p, c) ->
    exists po co, node_oid g p = Some po /\ node_oid g c = Some co /\ git_parent po co;
  gi_trees c md t : nodes g !! c = Some md -> tree_idx md = Some t -> commit_tree_index (commit_oid md) = Some t;
  gi_done o t : P o -> commit_tree_index o = Some t -> exists i, nodes g !! i = Some {| commit_oid := o; tree_idx := Some t |}
}.

Lemma graph_empty_inv : graph_inv (fun _ => False) graph_empty.
Proof. by constructor. Qed.

Lemma get_commit_idx_inv P g o t i g' :
  graph_inv P g -> (t = None \/ t = commit_tree_index o) -> get_commit_idx g o t = (i, g') ->
  graph_inv P g' /\ node_oid g' i = Some o /\ edges g' = edges g /\
  (forall j x, node_oid g j = Some x -> node_oid g' j = Some x) /\
  forall t', t = Some t' -> nodes g' !! i = Some {| commit_oid := o; tree_idx := Some t' |}.
Proof.
  intros G Ht. unfold get_commit_idx. destruct (commit_oid_to_node_idx g !! o) as [k|] eqn:Ek.
  - pose proof (proj1 (gi_map _ _ G o k) Ek) as Hk. destruct t as [t'|]; intros [= <- <-]; [|by split_and!].
    set (f := fun md => {| commit_oid := commit_oid md; tree_idx := Some t' |}).
    assert (forall j, node_oid {| commit_oid_to_node_idx := commit_oid_to_node_idx g; nodes := alter f k (nodes g); edges := edges g |} j = node_oid g j) as Hn.
    { intros j. unfold node_oid. cbn. destruct (decide (j = k)) as [->|].
      - rewrite list_lookup_alter_eq. by destruct (nodes g !! k).
      - by rewrite list_lookup_alter_ne. }
    unfold node_oid in Hk. destruct (nodes g !! k) as [mk|] eqn:Emk; [|done]. injection Hk as Hk.
    destruct Ht as [?|Ht]; [done|]. split_and!.
    + constructor.
      * intros o' j. rewrite Hn. apply G.
      * intros e p c He. destruct (gi_edges _ _ G e p c He) as (po & co & ? & ? & ?). exists po, co. by rewrite !Hn.
      * cbn. intros c md t2 Hc Ht2. destruct (decide (c = k)) as [->|].
        -- rewrite list_lookup_alter_eq, Emk in Hc. injection Hc as <-. cbn in *. rewrite Hk, <-Ht. by injection Ht2 as <-.
        -- rewrite list_lookup_alter_ne in Hc by done. by eapply G.
      * intros o' t2 Ho' Ht2. destruct (gi_done _ _ G o' t2 Ho' Ht2) as [j Hj]. exists j. cbn. destruct (decide (j = k)) as [->|].
        -- rewrite Emk in Hj. injection Hj as ->. cbn in Hk. subst o'. rewrite list_lookup_alter_eq, Emk. unfold f. cbn. congruence.
        -- by rewrite list_lookup_alter_ne.
    + rewrite Hn. unfold node_oid. rewrite Emk. cbn. by rewrite Hk.
    + done.
    + intros j x. by rewrite Hn.
    + intros t2 [= <-]. cbn. rewrite list_lookup_alter_eq, Emk. unfold f. cbn. by rewrite Hk.
  - intros [= <- <-]. set (g' := Build_GitMetadataGraph _ _ _).
    assert (forall j x, node_oid g' j = Some x <-> node_oid g j = Some x \/ j = length (nodes g) /\ x = o) as Hn.
    { intros j x. unfold node_oid. cbn. destruct (Nat.lt_trichotomy j (length (nodes g))) as [Hj|[->|Hj]].
      - rewrite lookup_app_l by done. intuition lia.
      - rewrite lookup_app_r, Nat.sub_diag, (lookup_ge_None_2 (nodes g)) by lia. simpl. intuition congruence.
      - rewrite (lookup_ge_None_2 (nodes g)) by lia. rewrite lookup_ge_None_2 by (rewrite length_app; simpl; lia). simpl. intuition (congruence || lia). }
    split_and!; [|apply Hn; by right|done|intros j x Hj; apply Hn; by left|].
    + constructor; cbn.
      * intros o' j. rewrite lookup_insert_Some, Hn, (gi_map _ _ G). split; [intros [[<- <-]|[_ ?]]; [by right|by left]|].
        intros [Hj|[-> ->]]; [right; split; [|done]|by left]. intros ->. apply (gi_map _ _ G) in Hj. congruence.
      * intros e p c He. destruct (gi_edges _ _ G e p c He) as (po & co & ? & ? & ?). exists po, co.
        split_and!; [apply Hn; by left|apply Hn; by left|done].
      * intros c md t2 [Hc|[Hc [Hk <-]%list_lookup_singleton_Some]]%lookup_app_Some Ht2; [by eapply G|].
        cbn in *. destruct Ht as [->|Ht]; congruence.
      * intros o' t2 Ho' Ht2. destruct (gi_done _ _ G o' t2 Ho' Ht2) as [j Hj]. exists j. by apply lookup_app_l_Some.
    + intros t' ->. cbn. by rewrite lookup_app_r, Nat.sub_diag.
Qed.

Lemma add_parents_inv P g c co ps :
  graph_inv P g -> node_oid g c = Some co -> (forall p, In p ps -> git_parent p co) ->
  graph_inv P (fold_left (add_parent c) ps g).
Proof.
  revert g. induction ps as [|p ps IH]; intros g G Hc Hps; [done|]. cbn [fold_left]. unfold add_parent at 2.
  destruct (get_commit_idx g p None) as [i g'] eqn:E.
  destruct (get_commit_idx_inv P g p None i g' G (or_introl eq_refl) E) as (G' & Hi & He & Hn & _).
  apply IH; [|by apply Hn|intros q Hq; apply Hps; by right]. destruct G' as [G1 G2 G3 G4]. constructor; [done| |done|done].
  cbn. intros e q d [H|[Hl [Hk [= <- <-]]%list_lookup_singleton_Some]]%lookup_app_Some; [by eapply G2|].
  exists p, co. split_and!; [done|by apply Hn|apply Hps; by left].
Qed.

Lemma add_commit_inv P g o :
  graph_inv P g -> graph_inv (fun x => x = o \/ P x) (add_commit find_commit ix o g).
Proof.
  intros G. unfold add_commit.
  assert (commit_tree_index o = None -> graph_inv (fun x => x = o \/ P x) g) as Hnone.
  { intros Ho. destruct G as [G1 G2 G3 G4]. constructor; try done. intros x t [->|Hx] Ht; [congruence|by apply G4]. }
  unfold commit_tree_index in Hnone. destruct (find_commit o) as [commit|] eqn:Ec; [|by apply Hnone].
  destruct (get_tree_index ix (commit_tree commit)) as [t|] eqn:Et; [|by apply Hnone].
  assert (commit_tree_index o = Some t) as Ho by (unfold commit_tree_index; by rewrite Ec).
  destruct (get_commit_idx g o (Some t)) as [i g'] eqn:E.
  destruct (get_commit_idx_inv P g o (Some t) i g' G ltac:(by right) E) as (G' & Hi & He & Hn & Hd).
  eapply add_parents_inv; [|exact Hi|intros p Hp; by exists commit].
  destruct G' as [G1 G2 G3 G4]. constructor; try done. intros x t' [->|Hx] Ht; [|by apply G4].
  exists i. rewrite Ho in Ht. injection Ht as <-. by apply Hd.
Qed.

Lemma build_graph_inv late n g n' :
  build_graph late find_commit ix n = inl (g, n') -> graph_inv (fun o => In o (idx_to_oid (commits ix))) g.
Proof.
  intros H. eapply (tfold_inl_rest _ (fun rest g => exists P, graph_inv P g /\ forall o, In o (idx_to_oid (commits ix)) -> P o \/ In o rest)) in H.
  - destruct H as (P & [G1 G2 G3 G4] & HP). constructor; try done. intros o t Ho. destruct (HP o Ho) as [Hp|[]]. by apply G4.
  - intros o l s m s' m' (P & G & HP) Hs. apply tbind_inl in Hs as (u & m1 & _ & Hs). apply tret_inl in Hs as [<- _].
    exists (fun x => x = o \/ P x). split; [by apply add_commit_inv|]. intros x Hx. destruct (HP x Hx) as [?|[->|?]]; auto.
  - exists (fun _ => False). split; [apply graph_empty_inv|]. intros o Ho. by right.
Qed.

Lemma graph_inv_ok P g : bimap_ok (trees ix) -> graph_inv P g -> graph_ok ix g.
Proof.
  intros Hix [G1 G2 G3 G4]. constructor.
  - intros e p c He. destruct (G2 e p c He) as (po & co & Hp & Hc & _). unfold node_oid, num_nodes in *.
    destruct (nodes g !! p) eqn:E1, (nodes g !! c) eqn:E2; try done. split; by eapply lookup_lt_Some.
  - intros c md t Hc Ht. pose proof (G3 c md t Hc Ht) as H. unfold commit_tree_index in H.
    destruct (find_commit (commit_oid md)); [|done]. by apply (tree_index_oid ix Hix) in H as [_ H].
Qed.
End Graph.

(** ** Assembling the appearances *)

Section Assemble.
Context (late : nat -> bool) (ix : RepositoryIndex) (find_commit : oid -> option CommitObject)
        (parse_time : bytes -> option Time).

(** Blob [i] has the appearance [a]. *)
Definition appears (blobs : list GitBlobMetadata) (i : nat) (a : BlobAppearance) : Prop :=
  exists m, blobs !! i = Some m /\ In a (first_seen m).

(** The appearances that the metadata of some commits gives blob [i]. *)
Definition appearance_of (metadata : list (oid * IntroducedBlobs)) (i : nat) (a : BlobAppearance) : Prop :=
  exists co I o, In (co, I) metadata /\ commit_info find_commit parse_time co = Some (commit_metadata a) /\
    In (o, path a) I /\ get_blob_index ix o = Some i.

(** [blobs'] is [blobs] with the appearances [new] added. *)
Definition extended (blobs blobs' : list GitBlobMetadata) (new : nat -> BlobAppearance -> Prop) : Prop :=
  map blob_oid blobs' = map blob_oid blobs /\
  forall i a, appears blobs' i a <-> appears blobs i a \/ i < length blobs /\ new i a.

Lemma extended_length blobs blobs' new : extended blobs blobs' new -> length blobs' = length blobs.
Proof. intros [H _]. rewrite <-(length_map blob_oid), H. apply length_map. Qed.

Lemma push_appearance_extended cm blobs x :
  extended blobs (push_appearance ix cm blobs x)
    (fun i a => get_blob_index ix (fst x) = Some i /\ a = {| commit_metadata := cm; path := snd x |}).
Proof.
  unfold push_appearance. destruct (get_blob_index ix (fst x)) as [k|] eqn:Ek.
  2: { split; [done|]. intros i a. split; [by left|]. by intros [?|(_ & ? & _)]. }
  set (f := fun b => {| blob_oid := blob_oid b; first_seen := first_seen b ++ [{| commit_metadata := cm; path := snd x |}] |}).
  split.
  - apply list_eq. intros i. rewrite !list_lookup_fmap. destruct (decide (i = k)) as [->|].
    + rewrite list_lookup_alter_eq. by destruct (blobs !! k).
    + by rewrite list_lookup_alter_ne.
  - intros i a. unfold appears. destruct (decide (i = k)) as [->|Hn].
    + rewrite list_lookup_alter_eq. destruct (blobs !! k) as [b|] eqn:Eb; cbn.
      * apply lookup_lt_Some in Eb. split.
        -- intros (m & [= <-] & Hin). cbn in Hin. apply in_app_iff in Hin as [?|[<-|[]]]; [left; by exists b|by right].
        -- intros [(m & [= <-] & ?)|(_ & _ & ->)]; eexists; (split; [done|]); cbn; apply in_app_iff; [by left|right; by left].
      * split; [by intros (m & ? & _)|]. intros [(m & ? & _)|[H _]]; [done|]. apply lookup_lt_is_Some in H. by rewrite Eb in H.
    + rewrite list_lookup_alter_ne by done. split; [by left|]. intros [?|(_ & [= ->] & _)]; done.
Qed.

Lemma extended_trans blobs1 blobs2 blobs3 new1 new2 :
  extended blobs1 blobs2 new1 -> extended blobs2 blobs3 new2 -> extended blobs1 blobs3 (fun i a => new1 i a \/ new2 i a).
Proof.
  intros E1 E2. pose proof (extended_length _ _ _ E1) as Hl. destruct E1 as [M1 H1], E2 as [M2 H2].
  split; [congruence|]. intros i a. rewrite H2, H1, Hl. tauto.
Qed.

Lemma extended_iff blobs blobs' new new' :
  (forall i a, new i a <-> new' i a) -> extended blobs blobs' new -> extended blobs blobs' new'.
Proof. intros Hn [M H]. split; [done|]. intros i a. rewrite H. by setoid_rewrite Hn. Qed.

Lemma extended_refl blobs new : (forall i a, ~ new i a) -> extended blobs blobs new.
Proof. intros Hn. split; [done|]. intros i a. split; [by left|]. intros [?|[_ H]]; [done|]. by apply Hn in H. Qed.

Lemma push_all_extended cm I blobs :
  extended blobs (fold_left (push_appearance ix cm) I blobs)
    (fun i a => exists o, In (o, path a) I /\ get_blob_index ix o = Some i /\ commit_metadata a = cm).
Proof.
  revert blobs. induction I as [|[o p] I IH]; intros blobs; cbn [fold_left].
  - apply extended_refl. by intros i a (o & [] & _).
  - eapply extended_iff; [|eapply extended_trans; [apply push_appearance_extended|apply IH]]. intros i a. cbn. split.
    + intros [[Ho ->]|(o' & Hin & ?)]; [exists o; split_and!; [by left|done|done]|exists o'; split; [by right|done]].
    + intros (o' & [[= -> ->]|Hin] & Ho & Hc); [left; split; [done|]|right; by exists o']. destruct a. by subst.
Qed.

Lemma assemble_commits_extended metadata blobs n blobs' n' :
  tfold (assemble_commit late find_commit parse_time ix) metadata blobs n = inl (blobs', n') ->
  extended blobs blobs' (appearance_of metadata).
Proof.
  revert blobs n. induction metadata as [|[co I] metadata IH]; intros blobs n H; cbn [tfold] in H.
  - apply tret_inl in H as [<- _]. apply extended_refl. by intros i a (? & ? & ? & [] & _).
  - apply tbind_inl in H as (blobs1 & n1 & H1 & H). apply IH in H.
    assert (extended blobs blobs1 (appearance_of [(co, I)])) as E1.
    { unfold assemble_commit in H1. apply tbind_inl in H1 as (u & n2 & _ & H1). cbn in H1.
      destruct (Nat.eqb_spec (length I) 0) as [El|_].
      - apply tret_inl in H1 as [<- _]. apply extended_refl. intros i a (co' & I' & o & [[= <- <-]|[]] & _ & Hin & _).
        by destruct I.
      - destruct (commit_info find_commit parse_time co) as [cm|] eqn:Ec; apply tret_inl in H1 as [<- _].
        + eapply extended_iff; [|apply push_all_extended]. intros i a. split.
          * intros (o & Hin & Ho & Hc). exists co, I, o. split_and!; [by left|by rewrite Hc|done|done].
          * intros (co' & I' & o & [[= <- <-]|[]] & Hc & Hin & Ho). exists o. split_and!; [done|done|congruence].
        + apply extended_refl. intros i a (co' & I' & o & [[= <- <-]|[]] & Hc & _). congruence. }
    eapply extended_iff; [|eapply extended_trans; [exact E1|exact H]]. intros i a. unfold appearance_of. split.
    + intros [(co' & I' & o & [H'|[]] & ?)|(co' & I' & o & H' & ?)]; exists co', I', o; (split; [simpl; auto|done]).
    + intros (co' & I' & o & [H'|H'] & ?); [left|right]; exists co', I', o; (split; [simpl; auto|done]).
Qed.
End Assemble.

(** Appearances that are not excluded all stay. *)
Lemma retain_all globs blobs :
  (forall i a, appears blobs i a -> path_is_excluded globs (path a) = false) -> omap (retain_blob globs) blobs = blobs.
Proof.
  intros H. assert (forall m, In m blobs -> retain_blob globs m = Some m) as Hm.
  { intros [o l] Hin%list_elem_of_In. apply list_elem_of_lookup in Hin as [i Hi]. unfold retain_blob. cbn.
    rewrite filter_all_true. { by destruct l. }
    intros a Ha. rewrite (H i a); [done|]. exists {| blob_oid := o; first_seen := l |}. by split. }
  clear H. induction blobs as [|m blobs IH]; [done|]. cbn. rewrite (Hm m (or_introl eq_refl)).
  f_equal. apply IH. intros m' ?. apply Hm. by right.
Qed.

(** ** The repository *)

Section Repository.
Context (late : nat -> bool).
Context (objects : list (option oid)) (header : oid -> option (Kind * Z))
        (find_tree : oid -> option (list (option Entry))) (find_blob : oid -> option bytes)
        (find_commit : oid -> option CommitObject) (parse_time : bytes -> option Time).
Context (globs : option (bytes -> bool)) (filter : option GitContentFilter) (order : list nat).

(** What the traversal needs of a prepared index. *)
Record prepared (ix : RepositoryIndex) : Prop := {
  pr_trees : bimap_ok (trees ix); pr_blobs : bimap_ok (blobs ix);
  pr_keeps g : graph_ok ix g -> let (ix', g') := compact_candidate_trees ix g in keeps ix find_tree g ix' g'
}.

Lemma index_ok_prepared ix : index_ok ix -> prepared ix.
Proof.
  intros H. constructor; [apply H|apply H|]. intros g Hg. unfold compact_candidate_trees. rewrite (io_candidates _ H).
  apply keeps_unchanged; try done; [apply H|by apply index_ok_prunes].
Qed.

Lemma prepare_prepared minimum n ix n' :
  prepare late objects header find_tree find_blob filter order minimum n = inl (Some ix, n') -> prepared ix.
Proof.
  intros H. unfold prepare in H. apply tbind_inl in H as (ix0 & n1 & H0 & H). apply new_with_deadline_ok in H0.
  destruct filter as [f|]; [|apply tret_inl in H as [[= <-] _]; by apply index_ok_prepared].
  destruct (minimum <=? _)%Z; [|apply tret_inl in H as [[= <-] _]; by apply index_ok_prepared].
  apply tbind_inl in H as (ix1 & n2 & H1 & H). destruct (Nat.eqb _ _); [by apply tret_inl in H as [? _]|].
  apply tbind_inl in H as (ix2 & n3 & H2 & H). apply tret_inl in H as [[= <-] _].
  destruct (retain_content_ok _ _ _ _ _ _ _ _ H0 H1) as (Hok & _ & _).
  pose proof (compact_prepared late find_tree order ix1 n2 ix2 n3) as Hk.
  pose proof H2 as H2'. unfold prepare_candidate_trees in H2'. apply tbind_inl in H2' as (s & n4 & _ & H2').
  apply tret_inl in H2' as [E _].
  assert (trees ix2 = trees ix1) as Et by (by rewrite <-E). assert (blobs ix2 = blobs ix1) as Eb by (by rewrite <-E). clear E.
  constructor; [rewrite Et; apply Hok|rewrite Eb; apply Hok|]. intros g [Hg1 Hg2].
  specialize (Hk g (io_trees _ Hok)). specialize (Hk ltac:(constructor; [done|unfold num_trees in *; by rewrite <-Et]) H2).
  destruct (compact_candidate_trees ix2 g) as [ix' g']. destruct Hk as (K1 & K2 & K3 & K4 & K5 & K6).
  split_and!; try done; [congruence|]. eapply Forall2_impl; [exact K6|]. intros md md' [S1 S2 S3]. constructor; [done| |].
  - intros t' Ht'. destruct (S2 t' Ht') as (t & ? & ?). exists t. split; [done|]. unfold get_tree_oid in *. by rewrite Et.
  - intros b. rewrite <-S3. unfold commit_blob. by setoid_rewrite (tree_blob_same_iff ix1 ix2 find_tree).
Qed.

(** The end of a run: either the traversal reported a cycle and no blob has an
    appearance, or the appearances are those of its metadata; no blob is removed.
    With a clock that does not go back, a traversal that times out ends the run. *)
Lemma assemble_cases ix g n result n' :
  prepared ix -> graph_ok ix g ->
  assemble late find_tree find_commit parse_time globs ix g n = inl (result, n') ->
  let (ix', g') := compact_candidate_trees ix g in
  let bare := map (fun o => {| blob_oid := o; first_seen := [] |}) (idx_to_oid (blobs ix)) in
  (exists e n1 n2, get_repo_metadata_with_deadline late ix' find_tree globs g' n1 = inr (e, n2) /\ late n2 = false /\ result = bare) \/
  (exists metadata n1 n2, get_repo_metadata_with_deadline late ix' find_tree globs g' n1 = inl (metadata, n2) /\
     extended bare result (appearance_of ix' find_commit parse_time metadata)).
Proof.
  intros Hp Hg H. pose proof (pr_keeps _ Hp g Hg) as Hk. unfold assemble in H.
  destruct (compact_candidate_trees ix g) as [ix' g']. destruct Hk as (K1 & K2 & K3 & K4 & K5 & K6). cbv zeta.
  rewrite <-K2. apply tbind_inl in H as (r & n1 & Hr & H). unfold tcatch in Hr.
  apply tbind_inl in H as (u & n2 & Hc & H). apply tbind_inl in H as (u' & n3 & _ & H).
  destruct (get_repo_metadata_with_deadline late ix' find_tree globs g' n) as [[metadata m]|[e m]] eqn:Em; injection Hr as <- <-.
  - right. exists metadata, n, m. split; [done|]. apply tbind_inl in H as (blobs1 & n4 & Ha & H).
    apply tbind_inl in H as (u2 & n5 & _ & H). apply tbind_inl in H as (u3 & n6 & _ & H). apply tret_inl in H as [<- _].
    apply assemble_commits_extended in Ha. rewrite retain_all; [done|]. intros i a Hia. apply (proj2 Ha) in Hia as [(m0 & Hm & Hin)|(_ & Happ)].
    + rewrite list_lookup_fmap in Hm. destruct (idx_to_oid (blobs ix') !! i); [|done]. by injection Hm as <-.
    + destruct Happ as (co & I & o & Hin & _ & Ho & _).
      pose proof (metadata_cases late ix' find_tree globs g' K4 n K1) as Hm. rewrite Em in Hm. destruct Hm as (outs & ins & Hi & ->).
      apply filter_In in Hin as [Hin _]. apply list_elem_of_In, elem_of_lookup_imap in Hin as (c & md & [= -> ->] & Hmd).
      destruct (introduces_sound ix' find_tree globs g' c _ _ md o (path a) (Hi c ltac:(by eapply lookup_lt_Some)) Hmd Ho) as [(t & root & p & _ & _ & -> & dir & o2 & es & e & _ & _ & _ & _ & _ & _ & Hx) _]. done.
  - left. exists e, n, m. split; [done|]. apply tret_inl in H as [<- _]. split; [|done].
    unfold check_deadline in Hc. by destruct (late m).
Qed.

(** The graph and the index that a run goes on with. *)
Lemma run_cases minimum n result n' :
  run_with_minimum_blobs late objects header find_tree find_blob find_commit parse_time globs filter order minimum n = inl (result, n') ->
  (exists n1 n2, prepare late objects header find_tree find_blob filter order minimum n1 = inl (None, n2) /\ result = []) \/
  exists ix n1 n2 g n3, prepare late objects header find_tree find_blob filter order minimum n1 = inl (Some ix, n2) /\
    prepared ix /\ graph_inv ix find_commit (fun o => In o (idx_to_oid (commits ix))) g /\ graph_ok ix g /\
    assemble late find_tree find_commit parse_time globs ix g n3 = inl (result, n').
Proof.
  intros H. unfold run_with_minimum_blobs in H. apply tbind_inl in H as (u & n1 & _ & H).
  apply tbind_inl in H as ([ix|] & n2 & Hp & H).
  - right. apply tbind_inl in H as (g & n3 & Hb & H). pose proof (prepare_prepared _ _ _ _ Hp) as Hpr.
    apply build_graph_inv in Hb. exists ix, n1, n2, g, n3. split_and!; try done. eapply graph_inv_ok; [apply Hpr|done].
  - left. apply tret_inl in H as [<- _]. by exists n1, n2.
Qed.

(** Ancestry among the nodes is ancestry among the commits. *)
Lemma parent_git P ix g p c : graph_inv ix find_commit P g -> parent g p c ->
  exists po co, node_oid g p = Some po /\ node_oid g c = Some co /\ git_parent find_commit po co.
Proof. intros G [e He]. by eapply gi_edges. Qed.

Lemma tc_git P ix g p c : graph_inv ix find_commit P g -> tc (parent g) p c ->
  exists po co, node_oid g p = Some po /\ node_oid g c = Some co /\ tc (git_parent find_commit) po co.
Proof.
  intros G. induction 1 as [p c H|p q c H _ (qo & co & Hq & Hc & IH)]; apply (parent_git _ _ _ _ _ G) in H as (po & qo' & Hp & Hq' & Hg).
  - exists po, qo'. split_and!; [done|done|by apply tc_once].
  - exists po, co. split_and!; [done|done|]. eapply tc_l; [exact Hg|]. congruence.
Qed.

Lemma rtc_git P ix g p c co : graph_inv ix find_commit P g -> rtc (parent g) p c -> node_oid g c = Some co ->
  exists po, node_oid g p = Some po /\ rtc (git_parent find_commit) po co.
Proof.
  intros G H Hc. apply rtc_tc in H as [->|H]; [by exists co|].
  apply (tc_git _ _ _ _ _ G) in H as (po & co' & Hp & Hc' & H). exists po. split; [done|].
  assert (co' = co) as -> by congruence. by apply tc_rtc.
Qed.

(** An appearance comes from a node of the compacted graph. *)
Lemma appearance_node P ix g ix' g' ins i a :
  graph_inv ix find_commit P g -> keeps ix find_tree g ix' g' ->
  appearance_of ix' find_commit parse_time (collect g' ins) i a ->
  exists c md md' commit o, nodes g !! c = Some md /\ nodes g' !! c = Some md' /\ same_commit ix find_tree ix' md md' /\
    commit_oid md' = commit_id (commit_metadata a) /\ find_commit (commit_id (commit_metadata a)) = Some commit /\
    In (o, path a) (ins c) /\ get_blob_index ix' o = Some i.
Proof.
  intros G (_ & _ & _ & _ & _ & K6) (co & I & o & Hin & Hinfo & Ho & Hi).
  apply filter_In in Hin as [Hin _]. apply list_elem_of_In, elem_of_lookup_imap in Hin as (c & md' & [= -> ->] & Hmd').
  destruct (Forall2_lookup_r _ _ _ _ _ K6 Hmd') as (md & Hmd & Hsame).
  unfold commit_info in Hinfo. destruct (find_commit (commit_oid md')) as [commit|] eqn:Ec; [|done].
  destruct (commit_committer commit); [|done]. injection Hinfo as Hinfo. rewrite <-Hinfo. cbn.
  by exists c, md, md', commit, o.
Qed.

Lemma bare_appears ids i a : ~ appears (map (fun o => {| blob_oid := o; first_seen := [] |}) ids) i a.
Proof. intros (m & Hm & Hin). rewrite list_lookup_fmap in Hm. destruct (ids !! i); [|done]. by injection Hm as <-. Qed.

Lemma bare_oids ids : map blob_oid (map (fun o => {| blob_oid := o; first_seen := [] |}) ids) = ids.
Proof. rewrite map_map. cbn. apply map_id. Qed.
End Repository.

(** A run lists every candidate blob of the index, in the order of the object
    database, and removes none: whatever is excluded, the blobs listed are all the
    scannable blobs of the repository, or after the content prepass all that it
    kept. *)
Theorem every_candidate_listed late objects header find_tree find_blob find_commit parse_time globs filter order minimum n result n' :
  run_with_minimum_blobs late objects header find_tree find_blob find_commit parse_time globs filter order minimum n = inl (result, n') ->
  exists prepared_index n1 n2, prepare late objects header find_tree find_blob filter order minimum n1 = inl (prepared_index, n2) /\
    map blob_oid result = match prepared_index with Some ix => idx_to_oid (blobs ix) | None => [] end.
Proof.
  intros H. apply run_cases in H as [(n1 & n2 & Hp & ->)|(ix & n1 & n2 & g & n3 & Hp & Hpr & G & Hg & H)].
  - by exists None, n1, n2.
  - exists (Some ix), n1, n2. split; [done|]. apply assemble_cases in H; [|done|done].
    destruct (compact_candidate_trees ix g) as [ix' g'].
    destruct H as [(e & m1 & m2 & _ & _ & ->)|(metadata & m1 & m2 & _ & [Hm _])]; [|rewrite Hm]; apply bare_oids.
Qed.

(** Every appearance is real: its commit exists, and the blob is in that
    commit's tree at the path reported, through directories that are not excluded,
    at a path that is not excluded. *)
Theorem appearances_sound late objects header find_tree find_blob find_commit parse_time globs filter order minimum n result n' m a :
  run_with_minimum_blobs late objects header find_tree find_blob find_commit parse_time globs filter order minimum n = inl (result, n') ->
  In m result -> In a (first_seen m) ->
  exists commit p, find_commit (commit_id (commit_metadata a)) = Some commit /\ path a = render_symbol_path p /\
    blob_at find_tree globs (commit_tree commit) p (blob_oid m).
Proof.
  intros H Hm Ha. apply run_cases in H as [(n1 & n2 & Hp & ->)|(ix & n1 & n2 & g & n3 & Hp & Hpr & G & Hg & H)]; [done|].
  apply assemble_cases in H; [|done|done]. pose proof (pr_keeps _ _ Hpr g Hg) as Hk.
  apply list_elem_of_In, list_elem_of_lookup in Hm as [i Hi].
  assert (appears result i a) as Happ by (by exists m).
  destruct (compact_candidate_trees ix g) as [ix' g']. pose proof Hk as (K1 & K2 & K3 & K4 & K5 & K6).
  destruct H as [(e & m1 & m2 & _ & _ & ->)|(metadata & m1 & m2 & Hr & [Ho He])]; [by apply bare_appears in Happ|].
  apply He in Happ as [Happ|[_ Happ]]; [by apply bare_appears in Happ|].
  pose proof (metadata_cases late ix' find_tree globs g' K4 m1 K1) as Hc. rewrite Hr in Hc. destruct Hc as (outs & ins & Hins & ->).
  destruct (appearance_node _ _ _ _ _ _ _ _ _ _ _ G Hk Happ) as (c & md & md' & commit & o & Hmd & Hmd' & [S1 S2 S3] & Hco & Hfc & Hin & Hb).
  assert (c < num_nodes g') as Hlt by (by eapply lookup_lt_Some).
  destruct (introduces_sound _ _ _ _ _ _ _ _ _ _ (Hins c Hlt) Hmd' Hin) as [(t' & root & p & Ht' & Hroot & Hp' & Hat) _].
  exists commit, p. split_and!; [done|done|].
  assert (blob_oid m = o) as ->.
  { pose proof (pr_blobs _ _ Hpr) as Hbi. unfold get_blob_index, get_idx in Hb. rewrite K2, (Hbi o i) in Hb.
    rewrite bare_oids in Ho. assert (map blob_oid result !! i = Some (blob_oid m)) as Hl by (rewrite list_lookup_fmap, Hi; done).
    rewrite Ho in Hl. congruence. }
  destruct (S2 t' Ht') as (t & Ht & Hto). pose proof (gi_trees _ _ _ _ G c md t Hmd Ht) as Hct.
  unfold commit_tree_index in Hct. rewrite <-S1, Hco, Hfc in Hct. apply (tree_index_oid ix (pr_trees _ _ Hpr)) in Hct as [Hct _].
  assert (root = commit_tree commit) as <- by congruence. done.
Qed.

(** C14. The history is complete. Without exclusions, on a clock that does not go
    back and commits that are acyclic and have committers, every candidate blob in
    the tree of every commit, at any depth, is listed with an appearance at that
    commit or at one of its ancestors: neither the content prepass, the summaries,
    the compaction nor what was seen on the way hides the introduction of a
    candidate. *)
Theorem history_complete late objects header find_tree find_blob find_commit parse_time filter order minimum n result n' :
  (forall k, late k = true -> late (S k) = true) ->
  (forall o, ~ tc (git_parent find_commit) o o) ->
  (forall o commit, find_commit o = Some commit -> commit_committer commit <> None) ->
  run_with_minimum_blobs late objects header find_tree find_blob find_commit parse_time None filter order minimum n = inl (result, n') ->
  exists prepared_index n1 n2, prepare late objects header find_tree find_blob filter order minimum n1 = inl (prepared_index, n2) /\
    forall ix co commit t b, prepared_index = Some ix -> In co (idx_to_oid (commits ix)) -> find_commit co = Some commit ->
      get_tree_index ix (commit_tree commit) = Some t -> tree_blob ix find_tree t b ->
      exists m a, result !! b = Some m /\ In a (first_seen m) /\ rtc (git_parent find_commit) (commit_id (commit_metadata a)) co.
Proof.
  intros Hclock Hacyc Hcom H.
  apply run_cases in H as [(n1 & n2 & Hp & ->)|(ix & n1 & n2 & g & n3 & Hp & Hpr & G & Hg & H)]; [by exists None, n1, n2|].
  exists (Some ix), n1, n2. split; [done|]. intros ix0 co commit t b [= <-] Hco Hfc Ht Hb.
  apply assemble_cases in H; [|done|done]. pose proof (pr_keeps _ _ Hpr g Hg) as Hk.
  destruct (compact_candidate_trees ix g) as [ix' g']. pose proof Hk as (K1 & K2 & K3 & K4 & K5 & K6).
  destruct H as [(e & m1 & m2 & Hr & Hl & ->)|(metadata & m1 & m2 & Hr & [Ho He])];
    pose proof (metadata_cases late ix' find_tree None g' K4 m1 K1) as Hc; rewrite Hr in Hc.
  { exfalso. destruct Hc as [(_ & k & -> & Hk')|(_ & c & Hc)]; [apply Hclock in Hk'; congruence|].
    assert (tc (parent g) c c) as Hc' by (unfold parent in *; by rewrite <-K5).
    destruct (tc_git _ _ _ _ _ _ G Hc') as (po & co' & E1 & E2 & Hcyc). apply (Hacyc po). congruence. }
  destruct Hc as (outs & ins & Hins & ->).
  destruct (gi_done _ _ _ _ G co t Hco) as [i Hi]; [unfold commit_tree_index; by rewrite Hfc|].
  destruct (Forall2_lookup_l _ _ _ _ _ K6 Hi) as (md' & Hmd' & [S1 S2 S3]).
  destruct (proj1 (S3 b)) as (t' & Ht' & Hb'); [by exists t|].
  destruct (introduces_complete ix' find_tree g' outs ins i md' t' b K4 K1 K3 Hins Hmd' Ht' Hb') as (c & o & p & Hlt & Hrtc & Hin & Hbi).
  assert (rtc (parent g) c i) as Hrtc' by (unfold parent in *; by rewrite <-K5).
  destruct (rtc_git find_commit _ ix g c i co G Hrtc') as (ao & Hao & Hanc); [unfold node_oid; by rewrite Hi|].
  destruct (lookup_lt_is_Some_2 (nodes g') c Hlt) as [mda' Hmda']. destruct (Forall2_lookup_r _ _ _ _ _ K6 Hmda') as (mda & Hmda & [A1 A2 A3]).
  unfold node_oid in Hao. rewrite Hmda in Hao. injection Hao as Hao.
  destruct (introduces_sound _ _ _ _ _ _ _ _ _ _ (Hins c Hlt) Hmda' Hin) as [(ta' & _ & _ & Hta' & _) _].
  destruct (A2 ta' Hta') as (ta & Hta & _). pose proof (gi_trees _ _ _ _ G c mda ta Hmda Hta) as Hct.
  unfold commit_tree_index in Hct. rewrite Hao in Hct. destruct (find_commit ao) as [acommit|] eqn:Eac; [|done].
  destruct (commit_committer acommit) as [sig|] eqn:Esig; [|by destruct (Hcom ao acommit Eac)].
  assert (exists cm, commit_info find_commit parse_time ao = Some cm /\ commit_id cm = ao) as (cm & Hcm & Hid)
    by (unfold commit_info; rewrite Eac, Esig; by eexists).
  assert (b < length (idx_to_oid (blobs ix))) as Hblt.
  { unfold get_blob_index, get_idx in Hbi. rewrite K2, (pr_blobs _ _ Hpr o b) in Hbi. by apply lookup_lt_Some in Hbi. }
  destruct (proj2 (He b {| commit_metadata := cm; path := p |})) as (m & Hm & Ha).
  { right. split; [by rewrite length_map|]. exists ao, (ins c), o. split_and!; [|done|done|done].
    apply filter_In. split; [|by destruct (ins c)]. apply list_elem_of_In, elem_of_lookup_imap. exists c, mda'. split; [|done]. f_equal. congruence. }
  exists m, {| commit_metadata := cm; path := p |}. split_and!; [done|done|]. cbn. by rewrite Hid.
Qed.

(** ** The example, enumerated *)

Definition demo_signature : Signature := {| sig_name := bs "dev"; sig_email := bs "dev@example.com"; sig_time := bs "0 +0000" |}.
Definition demo_find_commit (o : oid) : option CommitObject :=
  if o ==? 1 then Some {| commit_tree := 101; commit_parents := []; commit_committer := Some demo_signature; commit_author := None |}
  else if o ==? 2 then Some {| commit_tree := 103; commit_parents := [1%Z]; commit_committer := Some demo_signature; commit_author := None |}
  else None.
Definition demo_find_blob (o : oid) : option bytes :=
  if o ==? 201 then Some (bs "plain text") else if o ==? 202 then Some (bs "key=K1") else None.
Definition demo_filter : GitContentFilter :=
  {| max_blob_size := Some 100%Z; may_match := fun data => Some (contains_sub (bs "K") data) |}.
Definition demo_run (globs : option (bytes -> bool)) (filter : option GitContentFilter) : Timed (list GitBlobMetadata) :=
  run_with_minimum_blobs never demo_objects demo_header demo_find_tree demo_find_blob demo_find_commit (fun _ => None) globs
    filter [2; 0; 1] 0.

(** The blobs with the commits and paths of their appearances. *)
Definition summary (r : (list GitBlobMetadata * nat) + (Error * nat)) : option (list (oid * list (oid * bytes))) :=
  match r with
  | inl (blobs, _) => Some (map (fun m => (blob_oid m, map (fun a => (commit_id (commit_metadata a), path a)) (first_seen m))) blobs)
  | inr _ => None
  end.

Example demo_run_plain :
  summary (demo_run None None 0) =
  Some [(201, [(1, bs "a.txt")]); (202, [(1, bs "lib/b.txt")]); (203, [(2, bs "c.txt")])]%Z.
Proof. vm_compute. reflexivity. Qed.

(** With the prepass only the blob that may match and the unreadable one are
    listed; both keep their appearances. *)
Example demo_run_filtered :
  summary (demo_run None (Some demo_filter) 0) = Some [(202, [(1, bs "lib/b.txt")]); (203, [(2, bs "c.txt")])]%Z.
Proof. vm_compute. reflexivity. Qed.

(** Excluding [lib/b.txt] marks the directory as seen on the way to it, so the
    same directory at [src] is not visited in the next commit: the included path
    [src/b.txt] is not reported. The blob is listed all the same. *)
Example excluded_path_hides_included_path :
  summary (demo_run (Some (bytes_eqb (bs "lib/b.txt"))) None 0) =
  Some [(201, [(1, bs "a.txt")]); (202, []); (203, [(2, bs "c.txt")])]%Z.
Proof. vm_compute. reflexivity. Qed.

(** The result of a run of the example. *)
Definition demo_listed (globs : option (bytes -> bool)) (filter : option GitContentFilter) : list GitBlobMetadata :=
  match demo_run globs filter 0 with inl (blobs, _) => blobs | inr _ => [] end.

Lemma demo_listed_run globs filter : (exists l, summary (demo_run globs filter 0) = Some l) ->
  exists n', demo_run globs filter 0 = inl (demo_listed globs filter, n').
Proof. intros [l H]. unfold demo_listed. destruct (demo_run globs filter 0) as [[r n']|]; [by exists n'|done]. Qed.

Lemma every_candidate_listed_witness :
  exists prepared_index n1 n2, prepare never demo_objects demo_header demo_find_tree demo_find_blob None [2; 0; 1] 0 n1 = inl (prepared_index, n2) /\
    map blob_oid (demo_listed (Some (bytes_eqb (bs "lib/b.txt"))) None) =
    match prepared_index with Some ix => idx_to_oid (blobs ix) | None => [] end.
Proof.
  destruct (demo_listed_run (Some (bytes_eqb (bs "lib/b.txt"))) None (ex_intro _ _ excluded_path_hides_included_path)) as [n' H].
  exact (every_candidate_listed _ _ _ _ _ _ _ _ _ _ _ _ _ _ H).
Defined.

Lemma appearances_sound_witness : exists m a, In m (demo_listed None (Some demo_filter)) /\ In a (first_seen m) /\
  exists commit p, demo_find_commit (commit_id (commit_metadata a)) = Some commit /\ path a = render_symbol_path p /\
    blob_at demo_find_tree None (commit_tree commit) p (blob_oid m).
Proof.
  destruct (demo_listed_run None (Some demo_filter) (ex_intro _ _ demo_run_filtered)) as [n' H].
  assert (exists m a, demo_listed None (Some demo_filter) !! 0 = Some m /\ first_seen m !! 0 = Some a) as (m & a & Hm & Ha)
    by (vm_compute; do 2 eexists; split; reflexivity).
  apply list_elem_of_lookup_2, list_elem_of_In in Hm, Ha. exists m, a. split; [exact Hm|]. split; [exact Ha|].
  exact (appearances_sound _ _ _ _ _ _ _ _ _ _ _ _ _ _ m a H Hm Ha).
Defined.

(** Commits whose rank is above that of their parents are acyclic. *)
Lemma ranked_acyclic find_commit (rank : oid -> Z) :
  (forall p c, git_parent find_commit p c -> (rank p < rank c)%Z) -> forall o, ~ tc (git_parent find_commit) o o.
Proof.
  intros Hr. assert (forall x y, tc (git_parent find_commit) x y -> (rank x < rank y)%Z) as H.
  { induction 1 as [x y Hxy|x y z Hxy _ IH]; [by apply Hr|]. apply Hr in Hxy. lia. }
  intros o Ho%H. lia.
Qed.

Lemma demo_acyclic : forall o, ~ tc (git_parent demo_find_commit) o o.
Proof.
  apply (ranked_acyclic _ (fun o => o)). intros p c (commit & Hc & Hp). unfold demo_find_commit in Hc.
  destruct (c ==? 1) eqn:E1; [injection Hc as <-; done|]. destruct (c ==? 2) eqn:E2; [|done]. injection Hc as <-.
  destruct Hp as [<-|[]]. tobool. lia.
Qed.

Lemma demo_committers o commit : demo_find_commit o = Some commit -> commit_committer commit <> None.
Proof. unfold demo_find_commit. by repeat case_match; intros; simplify_eq/=. Qed.

Lemma history_complete_witness :
  exists prepared_index n1 n2,
    prepare never demo_objects demo_header demo_find_tree demo_find_blob (Some demo_filter) [2; 0; 1] 0 n1 = inl (prepared_index, n2) /\
    forall ix co commit t b, prepared_index = Some ix -> In co (idx_to_oid (commits ix)) -> demo_find_commit co = Some commit ->
      get_tree_index ix (commit_tree commit) = Some t -> tree_blob ix demo_find_tree t b ->
      exists m a, demo_listed None (Some demo_filter) !! b = Some m /\ In a (first_seen m) /\
        rtc (git_parent demo_find_commit) (commit_id (commit_metadata a)) co.
Proof.
  destruct (demo_listed_run None (Some demo_filter) (ex_intro _ _ demo_run_filtered)) as [n' H].
  exact (history_complete never _ _ _ _ _ _ _ _ _ _ _ _ (fun k Hk => Hk) demo_acyclic demo_committers H).
Defined.
