(* ===== verification/ObjectCache.v ===== *)
(** * The durable object cache: [src/object_cache.rs]

    A listing of a bucket keeps a manifest, a journal of finished pages and a
    file per object, so that a scan that was killed resumes where its last page
    ended. The disk is explicit: an operation reads it and then makes a list of
    writes, each atomic except the append to the journal, which a crash can cut
    short. Hashing (BLAKE3, as hex) and the JSON codecs are parameters. The lock
    file, the symlink checks of [finish] and I/O errors other than a missing file
    are not modelled. *)

From Stdlib Require Import ZArith Lia Bool ZifyNat.
From stdpp Require Import base list numbers option gmap relations.
From S2P Require Import Prelude Text.

Record ObjectVersion := { identity : option bytes; modified : option bytes; version_size : option Z }.
#[global] Instance object_version_eq_dec : EqDecision ObjectVersion.
Proof. solve_decision. Defined.

Record CachedObject := { version : ObjectVersion; digest : bytes }.
#[global] Instance cached_object_eq_dec : EqDecision CachedObject.
Proof. solve_decision. Defined.

Record Scope := { next_token : option bytes; complete : bool }.

Record Manifest := {
  manifest_version : Z; source : bytes; policy : bytes; in_progress : bool;
  scopes : gmap bytes Scope; completed_objects : gset bytes; objects : gmap bytes CachedObject
}.

Record PageCheckpoint := { page_prefix : bytes; page_scope : Scope; page_objects : gmap bytes CachedObject }.

(** The open cache; its directory and its lock are those of the disk. *)
Record ObjectCache := { manifest : Manifest; pending_objects : gmap bytes CachedObject }.

(** ** The disk *)

Record Disk := { manifest_json : option bytes; pages_jsonl : option bytes; object_files : gmap bytes bytes }.

Inductive Action :=
| WriteManifest (b : bytes) | WritePages (b : bytes) | AppendPages (b : bytes) | TruncatePages (len : nat)
| WriteObject (name b : bytes) | RemoveObject (name : bytes).

Definition act (d : Disk) (a : Action) : Disk :=
  let '(Build_Disk m p o) := d in
  match a with
  | WriteManifest b => {| manifest_json := Some b; pages_jsonl := p; object_files := o |}
  | WritePages b => {| manifest_json := m; pages_jsonl := Some b; object_files := o |}
  | AppendPages b => {| manifest_json := m; pages_jsonl := option_map (fun l => l ++ b) p; object_files := o |}
  | TruncatePages len => {| manifest_json := m; pages_jsonl := option_map (take len) p; object_files := o |}
  | WriteObject name b => {| manifest_json := m; pages_jsonl := p; object_files := <[name := b]> o |}
  | RemoveObject name => {| manifest_json := m; pages_jsonl := p; object_files := delete name o |}
  end.
Definition acts (d : Disk) (l : list Action) : Disk := fold_left act l d.

(** What a crash can leave of some writes: those made so far, and a beginning of
    the append in progress. *)
Inductive cut : list Action -> Disk -> Disk -> Prop :=
| cut_none l d : cut l d d
| cut_append b b1 b2 l d : b = b1 ++ b2 -> cut (AppendPages b :: l) d (act d (AppendPages b1))
| cut_step a l d d' : cut l (act d a) d' -> cut (a :: l) d d'.

Section Cache.
Context (hash : bytes -> bytes).
Context (manifest_to_vec : Manifest -> bytes) (manifest_from_slice : bytes -> option Manifest).
Context (page_to_vec : PageCheckpoint -> bytes) (page_from_slice : bytes -> option PageCheckpoint).

(** ** Opening *)

Definition apply_page (m : Manifest) (p : PageCheckpoint) : Manifest :=
  {| manifest_version := manifest_version m; source := source m; policy := policy m; in_progress := in_progress m;
     scopes := <[page_prefix p := page_scope p]> (scopes m);
     completed_objects := dom (page_objects p) ∪ completed_objects m;
     objects := page_objects p ∪ objects m |}.

(** [replay_pages]: the manifest with the journal's pages applied, and the length
    to cut the journal to when its last line is not complete. [None]: a line is
    not a page. *)
Fixpoint replay_loop (fuel : nat) (l : bytes) (valid_bytes : nat) (m : Manifest) : option (Manifest * option nat) :=
  match fuel with
  | 0 => None
  | S fuel =>
    match l with
    | [] => Some (m, None)
    | _ =>
      match line_len l with
      | None => Some (m, Some valid_bytes)
      | Some n =>
        match page_from_slice (take n l) with
        | None => None
        | Some page => replay_loop fuel (drop n l) (valid_bytes + n) (apply_page m page)
        end
      end
    end
  end.
Definition replay_pages (journal : option bytes) (m : Manifest) : option (Manifest * list Action) :=
  match journal with
  | None => Some (m, [WritePages []])
  | Some l =>
    match replay_loop (S (length l)) l 0 m with
    | None => None
    | Some (m, None) => Some (m, [])
    | Some (m, Some n) => Some (m, [TruncatePages n])
    end
  end.

Definition new_manifest (src pol : bytes) : Manifest :=
  {| manifest_version := 1; source := src; policy := pol; in_progress := false;
     scopes := ∅; completed_objects := ∅; objects := ∅ |}.
Definition start_scan (m : Manifest) : Manifest :=
  {| manifest_version := manifest_version m; source := source m; policy := policy m; in_progress := true;
     scopes := ∅; completed_objects := ∅; objects := objects m |}.

Definition open_manifest (src pol : bytes) (d : Disk) : option Manifest :=
  match manifest_json d with
  | None => Some (new_manifest src pol)
  | Some b =>
    match manifest_from_slice b with
    | None => None
    | Some m =>
      if (manifest_version m ==? 1) && bytes_eqb (source m) src && bytes_eqb (policy m) pol then Some m else None
    end
  end.

(** [ObjectCache::open]: the cache and the writes made; [None]: an error, before
    anything is written. *)
Definition open (src pol : bytes) (d : Disk) : option (ObjectCache * list Action) :=
  match open_manifest src pol d with
  | None => None
  | Some m =>
    if negb (in_progress m) then
      let m := start_scan m in
      Some ({| manifest := m; pending_objects := ∅ |}, [WritePages []; WriteManifest (manifest_to_vec m)])
    else
      match replay_pages (pages_jsonl d) m with
      | None => None
      | Some (m, l) => Some ({| manifest := m; pending_objects := ∅ |}, l)
      end
  end.

(** ** Reading *)

Definition object_path (key : bytes) : bytes := hash key.

Definition check_digest (c : ObjectCache) (key b : bytes) : bool :=
  match objects (manifest c) !! key with Some o => bytes_eqb (digest o) (hash b) | None => false end.

(** [read]; [None]: an error. *)
Definition read (c : ObjectCache) (d : Disk) (key : bytes) : option bytes :=
  match object_files d !! object_path key with
  | None => None
  | Some b => if check_digest c key b then Some b else None
  end.

Definition scope_complete (c : ObjectCache) (prefix : bytes) : bool :=
  match scopes (manifest c) !! prefix with Some s => complete s | None => false end.
Definition continuation_token (c : ObjectCache) (prefix : bytes) : option bytes :=
  match scopes (manifest c) !! prefix with Some s => next_token s | None => None end.

(** [cached]: the outer [None] is an error. *)
Definition cached (c : ObjectCache) (d : Disk) (key : bytes) (v : ObjectVersion) : option (option bytes) :=
  if match identity v with Some i => negb (non_empty i) | None => true end
     || match objects (manifest c) !! key with Some o => negb (bool_decide (version o = v)) | None => true end
  then Some None
  else
    match object_files d !! object_path key with
    | None => Some None
    | Some b => if check_digest c key b then Some (Some b) else None
    end.

(** ** Writing *)

Definition store (c : ObjectCache) (d : Disk) (key : bytes) (v : ObjectVersion) (b : bytes) : ObjectCache * list Action :=
  let o := {| version := v; digest := hash b |} in
  let m := manifest c in
  ({| manifest := {| manifest_version := manifest_version m; source := source m; policy := policy m; in_progress := in_progress m;
                     scopes := scopes m; completed_objects := {[key]} ∪ completed_objects m;
                     objects := <[key := o]> (objects m) |};
      pending_objects := <[key := o]> (pending_objects c) |},
   if negb (bool_decide (objects m !! key = Some o))
      || match object_files d !! object_path key with Some _ => false | None => true end
   then [WriteObject (object_path key) b] else []).

Definition page_of (c : ObjectCache) (prefix : bytes) (token : option bytes) : PageCheckpoint :=
  {| page_prefix := prefix;
     page_scope := {| next_token := token; complete := match token with None => true | Some _ => false end |};
     page_objects := pending_objects c |}.

(** [finish_page]; [None]: the journal is missing. *)
Definition finish_page (c : ObjectCache) (d : Disk) (prefix : bytes) (token : option bytes) : option (ObjectCache * list Action) :=
  let page := page_of c prefix token in
  let m := manifest c in
  match pages_jsonl d with
  | None => None
  | Some _ =>
    Some ({| manifest := {| manifest_version := manifest_version m; source := source m; policy := policy m;
                            in_progress := in_progress m; scopes := <[prefix := page_scope page]> (scopes m);
                            completed_objects := completed_objects m; objects := objects m |};
             pending_objects := ∅ |},
          [AppendPages (page_to_vec page ++ [10%Z])])
  end.

(** [finish]: sweep the object files in the order the directory lists them, then
    compact. *)
Definition finished (m : Manifest) : Manifest :=
  {| manifest_version := manifest_version m; source := source m; policy := policy m; in_progress := false;
     scopes := scopes m; completed_objects := completed_objects m;
     objects := filter (fun '(key, _) => key ∈ completed_objects m) (objects m) |}.
Definition sweep (m : Manifest) (listing : list bytes) : list Action :=
  let referenced : gset bytes := set_map object_path (completed_objects m) in
  map RemoveObject (List.filter (fun name => negb (bool_decide (name ∈ referenced))) listing).
Definition finish (c : ObjectCache) (listing : list bytes) : list Action :=
  sweep (manifest c) listing ++ [WriteManifest (manifest_to_vec (finished (manifest c))); WritePages []].
End Cache.

(** ** The specification: what a crash cannot undo *)

(** The committed manifest, and the objects stored since the last page of the open
    session. *)
Record Spec := { committed : option Manifest; session : option (gmap bytes CachedObject) }.

Definition overlay (pend : gmap bytes CachedObject) (m : Manifest) : Manifest :=
  {| manifest_version := manifest_version m; source := source m; policy := policy m; in_progress := in_progress m;
     scopes := scopes m; completed_objects := dom pend ∪ completed_objects m; objects := pend ∪ objects m |}.

(** Opening resumes the scan in progress or starts one. *)
Definition spec_open (src pol : bytes) (o : option Manifest) : Manifest :=
  let m := default (new_manifest src pol) o in if in_progress m then m else start_scan m.

Definition accepts (src pol : bytes) (com : option Manifest) : bool :=
  match com with None => true | Some m => bytes_eqb (source m) src && bytes_eqb (policy m) pol end.

(** What is asked of the cache, and what becomes of it: an operation is done, or
    cut short by a crash, or the process is killed between operations. *)
Inductive Operation :=
| Open (src pol : bytes) | Store (key : bytes) (v : ObjectVersion) (b : bytes)
| FinishPage (prefix : bytes) (token : option bytes) | Finish.
Inductive Event := Done (o : Operation) | Cut (o : Operation) | Killed.

Section spec.
Context (hash : bytes -> bytes).

(** An operation: a page makes what was stored since the last one part of what is
    committed, with the scope it leaves; the end of the scan commits the rest and
    forgets what this listing did not complete. [None]: it does not apply. *)
Definition spec_do (o : Operation) (s : Spec) : option Spec :=
  match o, committed s, session s with
  | Open src pol, com, None =>
    if accepts src pol com then Some {| committed := Some (spec_open src pol com); session := Some ∅ |} else None
  | Store key v b, com, Some pend =>
    Some {| committed := com; session := Some (<[key := {| version := v; digest := hash b |}]> pend) |}
  | FinishPage prefix token, Some m, Some pend =>
    let scope := {| next_token := token; complete := match token with None => true | Some _ => false end |} in
    Some {| committed := Some (apply_page m {| page_prefix := prefix; page_scope := scope; page_objects := pend |}); session := Some ∅ |}
  | Finish, Some m, Some pend => Some {| committed := Some (finished (overlay pend m)); session := None |}
  | _, _, _ => None
  end.

(** A crash leaves what is committed, and nothing else. *)
Definition durable (s : Spec) : Spec := {| committed := committed s; session := None |}.

(** What an event can lead to: only an operation that is cut short has two ends,
    with all of its effect or with none. *)
Definition outcomes (e : Event) (s : Spec) : list Spec :=
  match e with
  | Done o => match spec_do o s with Some s' => [s'] | None => [] end
  | Cut o => match spec_do o s with Some s' => [durable s; durable s'] | None => [] end
  | Killed => [durable s]
  end.
Definition outcomes_of (es : list Event) : list Spec :=
  fold_left (fun ss e => flat_map (outcomes e) ss) es [{| committed := None; session := None |}].

Lemma outcomes_of_snoc es e s s' : s ∈ outcomes_of es -> s' ∈ outcomes e s -> s' ∈ outcomes_of (es ++ [e]).
Proof.
  intros Hs Hs'. unfold outcomes_of. rewrite fold_left_app. cbn [fold_left]. apply list_elem_of_In, in_flat_map.
  exists s. by rewrite <-!list_elem_of_In.
Qed.
End spec.

(** ** The system: operations, and crashes between and during them *)

(** [overwritten] and [stale] are history: the object files written since the last
    page, and those left so by a crash. *)
Record World := { disk : Disk; mem : option ObjectCache; overwritten : gset bytes; stale : gset bytes }.

Section System.
Context (hash : bytes -> bytes).
Context (manifest_to_vec : Manifest -> bytes) (manifest_from_slice : bytes -> option Manifest).
Context (page_to_vec : PageCheckpoint -> bytes) (page_from_slice : bytes -> option PageCheckpoint).

Abbreviation open' := (open manifest_to_vec manifest_from_slice page_from_slice).
Abbreviation store' := (store hash).
Abbreviation finish_page' := (finish_page page_to_vec).
Abbreviation finish' := (finish hash manifest_to_vec).

Definition written (key : bytes) (l : list Action) : gset bytes := match l with [] => ∅ | _ => {[key]} end.

Inductive lstep : World -> Event -> World -> Prop :=
| step_open src pol d st c l :
    open' src pol d = Some (c, l) ->
    lstep {| disk := d; mem := None; overwritten := ∅; stale := st |} (Done (Open src pol))
      {| disk := acts d l; mem := Some c; overwritten := ∅; stale := st |}
| step_open_crash src pol d st c l d' :
    open' src pol d = Some (c, l) -> cut l d d' ->
    lstep {| disk := d; mem := None; overwritten := ∅; stale := st |} (Cut (Open src pol))
      {| disk := d'; mem := None; overwritten := ∅; stale := st |}
| step_store d c ov st key v b c' l :
    store' c d key v b = (c', l) ->
    lstep {| disk := d; mem := Some c; overwritten := ov; stale := st |} (Done (Store key v b))
      {| disk := acts d l; mem := Some c'; overwritten := written key l ∪ ov; stale := st |}
| step_store_crash d c ov st key v b c' l d' :
    store' c d key v b = (c', l) -> cut l d d' ->
    lstep {| disk := d; mem := Some c; overwritten := ov; stale := st |} (Cut (Store key v b))
      {| disk := d'; mem := None; overwritten := ∅; stale := written key l ∪ ov ∪ st |}
| step_finish_page d c ov st prefix token c' l :
    finish_page' c d prefix token = Some (c', l) ->
    lstep {| disk := d; mem := Some c; overwritten := ov; stale := st |} (Done (FinishPage prefix token))
      {| disk := acts d l; mem := Some c'; overwritten := ∅; stale := st ∖ ov |}
| step_finish_page_crash d c ov st prefix token c' l d' :
    finish_page' c d prefix token = Some (c', l) -> cut l d d' ->
    lstep {| disk := d; mem := Some c; overwritten := ov; stale := st |} (Cut (FinishPage prefix token))
      {| disk := d'; mem := None; overwritten := ∅; stale := ov ∪ st |}
| step_finish d c ov st listing :
    lstep {| disk := d; mem := Some c; overwritten := ov; stale := st |} (Done Finish)
      {| disk := acts d (finish' c listing); mem := None; overwritten := ∅; stale := st ∖ ov |}
| step_finish_crash d c ov st listing d' :
    cut (finish' c listing) d d' ->
    lstep {| disk := d; mem := Some c; overwritten := ov; stale := st |} (Cut Finish)
      {| disk := d'; mem := None; overwritten := ∅; stale := ov ∪ st |}
| step_kill d c ov st :
    lstep {| disk := d; mem := Some c; overwritten := ov; stale := st |} Killed {| disk := d; mem := None; overwritten := ∅; stale := ov ∪ st |}.
Definition step (w w' : World) : Prop := exists e, lstep w e w'.

(** A run, with what happened in it. *)
Inductive run (w0 : World) : list Event -> World -> Prop :=
| run_start : run w0 [] w0
| run_next es e w w' : run w0 es w -> lstep w e w' -> run w0 (es ++ [e]) w'.

Lemma step_run w0 w : rtc step w0 w -> exists es, run w0 es w.
Proof.
  revert w. apply (rtc_ind_r (fun w => exists es, run w0 es w)); [exists []; constructor|].
  intros w w' _ [e He] [es Hes]. exists (es ++ [e]). by econstructor.
Qed.

(** What the code relies on: the codecs read back what they wrote, with the line
    end of the journal too, and JSON text has no line feed of its own. *)
Record codecs : Prop := {
  manifest_codec m : manifest_from_slice (manifest_to_vec m) = Some m;
  page_codec p : page_from_slice (page_to_vec p ++ [10%Z]) = Some p;
  page_no_newline p : 10%Z ∉ page_to_vec p
}.
Context (Hcodecs : codecs).

(** ** The journal *)

Definition journal (ps : list PageCheckpoint) : bytes := concat (map (fun p => page_to_vec p ++ [10%Z]) ps).
Definition replayed (m : Manifest) (ps : list PageCheckpoint) : Manifest := fold_left apply_page ps m.

Lemma replay_journal ps : forall fuel tail v m, length (journal ps ++ tail) < fuel -> 10%Z ∉ tail ->
  replay_loop page_from_slice fuel (journal ps ++ tail) v m =
  Some (replayed m ps, match tail with [] => None | _ => Some (v + length (journal ps)) end).
Proof.
  induction ps as [|p ps IH]; intros fuel tail v m Hf Ht; (destruct fuel as [|fuel]; [lia|]).
  - cbn. destruct tail as [|b tail]; [done|]. change (([] ++ b :: tail)) with (b :: tail).
    rewrite (line_len_tail _ Ht). by rewrite Nat.add_0_r.
  - assert (journal (p :: ps) ++ tail = page_to_vec p ++ 10%Z :: (journal ps ++ tail)) as E
      by (unfold journal; cbn; by rewrite <-!app_assoc).
    rewrite E in *. cbn [replay_loop]. rewrite (line_len_line _ _ (page_no_newline Hcodecs p)).
    replace (page_to_vec p ++ 10%Z :: journal ps ++ tail) with ((page_to_vec p ++ [10%Z]) ++ journal ps ++ tail)
      by (by rewrite <-app_assoc).
    rewrite take_app_length', drop_app_length' by (rewrite length_app; simpl; lia). rewrite (page_codec Hcodecs).
    rewrite IH; [|rewrite length_app in Hf; simpl in Hf; lia|done]. cbn [replayed fold_left].
    destruct (page_to_vec p ++ [10%Z]) eqn:E2; [by destruct (page_to_vec p)|]. cbn [app].
    do 2 f_equal. destruct tail; [done|]. f_equal. unfold journal. cbn. rewrite !length_app. simpl. lia.
Qed.

Lemma replay_pages_journal ps tail m : 10%Z ∉ tail ->
  replay_pages page_from_slice (Some (journal ps ++ tail)) m =
  Some (replayed m ps, match tail with [] => [] | _ => [TruncatePages (length (journal ps))] end).
Proof. intros Ht. unfold replay_pages. rewrite replay_journal by (done || lia). by destruct tail. Qed.

Lemma replayed_in_progress m ps : in_progress (replayed m ps) = in_progress m.
Proof. revert m. induction ps as [|p ps IH]; intros m; [done|]. exact (IH (apply_page m p)). Qed.

(** ** Invariant and simulation *)

(** What is on the disk and in memory for a committed manifest. *)
Inductive inv : Disk -> option ObjectCache -> option Manifest -> Prop :=
| inv_new p o : inv {| manifest_json := None; pages_jsonl := p; object_files := o |} None None
| inv_idle m p o : in_progress m = false ->
    inv {| manifest_json := Some (manifest_to_vec m); pages_jsonl := p; object_files := o |} None (Some m)
| inv_no_journal m o : in_progress m = true ->
    inv {| manifest_json := Some (manifest_to_vec m); pages_jsonl := None; object_files := o |} None (Some m)
| inv_stopped m ps tail o : in_progress m = true -> 10%Z ∉ tail ->
    inv {| manifest_json := Some (manifest_to_vec m); pages_jsonl := Some (journal ps ++ tail); object_files := o |}
      None (Some (replayed m ps))
| inv_open m ps o pend : in_progress m = true ->
    inv {| manifest_json := Some (manifest_to_vec m); pages_jsonl := Some (journal ps); object_files := o |}
      (Some {| manifest := overlay pend (replayed m ps); pending_objects := pend |}) (Some (replayed m ps)).

Definition spec_of (w : World) (o : option Manifest) : Spec :=
  {| committed := o; session := option_map pending_objects (mem w) |}.

(** Killing the process loses nothing that was committed. *)
Lemma inv_kill d c o : inv d c o -> inv d None o.
Proof.
  destruct 1; try by constructor. rewrite <-(app_nil_r (journal ps)). constructor; [done|]. apply not_elem_of_nil.
Qed.

(** Object files are not part of what is committed. *)
Definition object_action (a : Action) : bool := match a with WriteObject _ _ | RemoveObject _ => true | _ => false end.

Lemma inv_object_action d c o a : object_action a = true -> inv d c o -> inv (act d a) c o.
Proof. intros Ha. destruct 1; destruct a; try done; by constructor. Qed.

Lemma inv_object_actions d c o l : forallb object_action l = true -> inv d c o -> inv (acts d l) c o.
Proof.
  revert d. induction l as [|a l IH]; intros d Hl H; [done|]. apply andb_true_iff in Hl as [Ha Hl].
  apply IH; [done|]. by apply inv_object_action.
Qed.

Lemma cut_object_actions d l d' : forallb object_action l = true -> cut l d d' ->
  exists l', forallb object_action l' = true /\ d' = acts d l'.
Proof.
  intros Hl. induction 1 as [l d|b b1 b2 l d|a l d d' _ IH]; [by exists []|done|].
  apply andb_true_iff in Hl as [Ha Hl]. destruct (IH Hl) as (l' & Hl' & ->). exists (a :: l'). cbn. by rewrite Ha.
Qed.

(** Opening: the cut includes the whole. *)
Lemma cut_whole l d : cut l d (acts d l).
Proof. revert d. induction l as [|a l IH]; intros d; [apply cut_none|]. apply cut_step, IH. Qed.

Lemma acts_app d l1 l2 : acts d (l1 ++ l2) = acts (acts d l1) l2.
Proof. apply fold_left_app. Qed.

Lemma overlay_empty m : overlay ∅ m = m.
Proof. destruct m. unfold overlay. cbn. f_equal; [set_solver|apply map_empty_union]. Qed.

Lemma replayed_app m ps p : replayed m (ps ++ [p]) = apply_page (replayed m ps) p.
Proof. unfold replayed. by rewrite fold_left_app. Qed.

Lemma journal_app ps p : journal (ps ++ [p]) = journal ps ++ page_to_vec p ++ [10%Z].
Proof. unfold journal. rewrite map_app, concat_app. cbn. by rewrite app_nil_r. Qed.

Lemma cut_cons a l d d' : (forall b, a <> AppendPages b) -> cut (a :: l) d d' -> d' = d \/ cut l (act d a) d'.
Proof. intros H Hc. remember (a :: l) as al eqn:E. destruct Hc; [by left|injection E as E _; by edestruct H|injection E as -> ->; by right]. Qed.

Lemma cut_nil d d' : cut [] d d' -> d' = d.
Proof. by inversion 1. Qed.

Lemma cut2 a1 a2 d d' : (forall b, a1 <> AppendPages b) -> (forall b, a2 <> AppendPages b) -> cut [a1; a2] d d' ->
  d' = d \/ d' = act d a1 \/ d' = acts d [a1; a2].
Proof.
  intros H1 H2 H. apply (cut_cons _ _ _ _ H1) in H as [->|H]; [by left|].
  apply (cut_cons _ _ _ _ H2) in H as [->|H]; [by right; left|]. apply cut_nil in H as ->. by right; right.
Qed.

(** *** Opening *)

(** A scan that starts: the journal is emptied before the manifest refers to it. *)
Lemma start_cut m0 m p o d' : in_progress m0 = true ->
  cut [WritePages []; WriteManifest (manifest_to_vec m0)] {| manifest_json := m; pages_jsonl := p; object_files := o |} d' ->
  (exists p', d' = {| manifest_json := m; pages_jsonl := p'; object_files := o |}) \/ inv d' None (Some m0).
Proof.
  intros Hm H. apply cut2 in H as [->|[->| ->]]; [| | |done|done].
  - left. by exists p.
  - left. by exists (Some []).
  - right. apply (inv_stopped m0 [] [] o Hm). apply not_elem_of_nil.
Qed.

Lemma start_whole m0 m p o : in_progress m0 = true ->
  inv (acts {| manifest_json := m; pages_jsonl := p; object_files := o |} [WritePages []; WriteManifest (manifest_to_vec m0)])
    (Some {| manifest := m0; pending_objects := ∅ |}) (Some m0).
Proof. intros Hm. rewrite <-(overlay_empty m0) at 2. exact (inv_open m0 [] o ∅ Hm). Qed.

Lemma spec_open_resumes src pol m : in_progress m = true -> spec_open src pol (Some m) = m.
Proof. intros Hm. unfold spec_open. cbn. by rewrite Hm. Qed.

(** Opening succeeds with the manifest committed, and cut short it either changed
    nothing or did all of its work. *)
Lemma open_inv src pol d com c l : inv d None com -> open' src pol d = Some (c, l) ->
  inv (acts d l) (Some c) (Some (spec_open src pol com)) /\ pending_objects c = ∅ /\
  (forall d', cut l d d' -> inv d' None com \/ inv d' None (Some (spec_open src pol com))).
Proof.
  intros H. unfold open, open_manifest. inversion H as [p o|m p o Hm|m o Hm|m ps tail o Hm Ht|]; subst; cbn -[replay_pages].
  - intros [= <- <-]. split; [by apply start_whole|]. split; [done|]. intros d' Hc.
    apply start_cut in Hc as [[p' ->]|Hc]; [|by right|done]. left. constructor.
  - rewrite (manifest_codec Hcodecs). case (_ && _); [|done]. rewrite Hm. cbn. intros [= <- <-].
    unfold spec_open. cbn. rewrite Hm. split; [exact (start_whole (start_scan m) (Some (manifest_to_vec m)) p o eq_refl)|]. split; [done|]. intros d' Hc.
    apply start_cut in Hc as [[p' ->]|Hc]; [|by right|done]. left. by constructor.
  - rewrite (manifest_codec Hcodecs). case (_ && _); [|done]. rewrite Hm. cbn. intros [= <- <-].
    unfold spec_open. cbn. rewrite Hm. split; [rewrite <-(overlay_empty m) at 2; exact (inv_open m [] o ∅ Hm)|].
    split; [done|]. intros d' Hc. apply cut_cons in Hc as [->|Hc]; [by left| |done]. apply cut_nil in Hc as ->.
    left. apply (inv_stopped m [] [] o Hm). apply not_elem_of_nil.
  - rewrite (manifest_codec Hcodecs). case (_ && _); [|done]. rewrite Hm. cbn [negb].
    rewrite replay_pages_journal by done. rewrite spec_open_resumes by (by rewrite replayed_in_progress).
    assert (forall d', cut [] {| manifest_json := Some (manifest_to_vec m); pages_jsonl := Some (journal ps ++ tail); object_files := o |} d' ->
      inv d' None (Some (replayed m ps))) as Hcut by (intros d' Hc; apply cut_nil in Hc as ->; by constructor).
    pose proof (inv_open m ps o ∅ Hm) as Hopen. rewrite overlay_empty in Hopen.
    destruct tail as [|b tail]; intros [= <- <-]; (split; [|split; [done|]]).
    + rewrite app_nil_r. exact Hopen.
    + intros d' Hc. left. by apply Hcut.
    + cbn. rewrite take_app_length. exact Hopen.
    + intros d' Hc. left. apply cut_cons in Hc as [->|Hc]; [by constructor| |done]. apply cut_nil in Hc as ->. cbn.
      rewrite take_app_length, <-(app_nil_r (journal ps)). constructor; [done|apply not_elem_of_nil].
Qed.

(** *** Pages and the end of the scan *)

Lemma cut_append1 b d d' : cut [AppendPages b] d d' ->
  d' = d \/ exists b1 b2, b = b1 ++ b2 /\ d' = act d (AppendPages b1).
Proof.
  remember [AppendPages b] as l eqn:E. destruct 1 as [l d|b' b1 b2 l d Hb|a l d d' Hc]; [by left| |].
  - injection E as E _. right. exists b1, b2. by rewrite <-E.
  - injection E as -> ->. apply cut_nil in Hc as ->. right. exists b, []. by rewrite app_nil_r.
Qed.

(** A beginning of a line is the line or has no line end. *)
Lemma prefix_of_line (l b1 b2 : bytes) : l ++ [10%Z] = b1 ++ b2 -> b1 = l ++ [10%Z] \/ b1 ⊆ l.
Proof.
  intros E. destruct (app_eq_app _ _ _ _ E) as (x & [[Hx Hy]|[Hx Hy]]).
  - right. rewrite Hx. set_solver.
  - destruct x as [|y x]; [right; rewrite Hx, app_nil_r; done|]. left. injection Hy as <- Hy. symmetry in Hy.
    apply app_eq_nil in Hy as [-> _]. done.
Qed.

Lemma finish_page_inv d c com prefix token c' l : inv d (Some c) com -> finish_page' c d prefix token = Some (c', l) ->
  exists m, com = Some m /\ let m' := apply_page m (page_of c prefix token) in
  inv (acts d l) (Some c') (Some m') /\ pending_objects c' = ∅ /\
  (forall d', cut l d d' -> inv d' None (Some m) \/ inv d' None (Some m')).
Proof.
  intros H. inversion H as [| | | |m ps o pend Hm]; subst. unfold finish_page. cbn [pages_jsonl]. intros [= <- <-].
  exists (replayed m ps). split; [done|]. cbn zeta. set (p := page_of _ _ _).
  assert (inv {| manifest_json := Some (manifest_to_vec m); pages_jsonl := Some (journal (ps ++ [p])); object_files := o |}
    (Some {| manifest := overlay ∅ (replayed m (ps ++ [p])); pending_objects := ∅ |}) (Some (replayed m (ps ++ [p])))) as Hn by by constructor.
  rewrite overlay_empty, replayed_app, journal_app in Hn. split; [exact Hn|]. split; [done|]. intros d' Hc.
  apply cut_append1 in Hc as [->|(b1 & b2 & E & ->)]; [left; exact (inv_kill _ _ _ H)|]. cbn.
  destruct (prefix_of_line _ _ _ E) as [->|Hb]; [right|left].
  - exact (inv_kill _ _ _ Hn).
  - apply inv_stopped; [done|]. intros Hx. apply (page_no_newline Hcodecs p), Hb, Hx.
Qed.

(** Sweeping, then what follows. *)
Lemma cut_app l1 l2 d d' : forallb object_action l1 = true -> cut (l1 ++ l2) d d' ->
  (exists l, (exists l', l1 = l ++ l') /\ d' = acts d l) \/ cut l2 (acts d l1) d'.
Proof.
  revert d. induction l1 as [|a l1 IH]; intros d Hl H; [by right|]. apply andb_true_iff in Hl as [Ha Hl].
  apply cut_cons in H as [->|H]; [left; exists []; eauto| |by intros b ->].
  apply IH in H as [(l & (l' & ->) & ->)|H]; [left|by right|done]. exists (a :: l). split; [by exists l'|done].
Qed.

Lemma sweep_objects m listing : forallb object_action (sweep hash m listing) = true.
Proof. apply forallb_forall. intros a Ha. apply in_map_iff in Ha as (? & <- & _). done. Qed.

Lemma finish_inv d c com listing : inv d (Some c) com ->
  exists m, com = Some m /\ let m' := finished (overlay (pending_objects c) m) in
  inv (acts d (finish' c listing)) None (Some m') /\ manifest c = overlay (pending_objects c) m /\
  (forall d', cut (finish' c listing) d d' -> inv d' None (Some m) \/ inv d' None (Some m')).
Proof.
  intros H. inversion H as [| | | |m ps o pend Hm]; subst. exists (replayed m ps). split; [done|].
  cbn [pending_objects manifest]. cbn zeta. set (d := Build_Disk _ _ _) in *. set (m1 := overlay pend (replayed m ps)).
  assert (forall d, inv (acts d [WriteManifest (manifest_to_vec (finished m1)); WritePages []]) None (Some (finished m1))) as Hend
    by (intros [? ? ?]; by apply inv_idle).
  unfold finish. cbn [manifest]. split; [|split; [done|]].
  - rewrite acts_app. apply Hend.
  - intros d' Hc. apply cut_app in Hc as [(l & (l' & El) & ->)|Hc]; [| |apply sweep_objects].
    + left. apply inv_object_actions; [|exact (inv_kill _ _ _ H)]. pose proof (sweep_objects m1 listing) as Hs.
      fold m1 in El. rewrite El, forallb_app in Hs. by apply andb_true_iff in Hs as [? _].
    + apply cut2 in Hc as [->|[->| ->]]; [| | |done|done].
      * left. apply inv_object_actions; [apply sweep_objects|exact (inv_kill _ _ _ H)].
      * right. fold m1. destruct (acts d _). by apply inv_idle.
      * right. apply Hend.
Qed.

(** *** Object files *)

Lemma files_act d a : object_action a = false -> object_files (act d a) = object_files d.
Proof. by destruct d, a. Qed.

Lemma files_acts d l : forallb (fun a => negb (object_action a)) l = true -> object_files (acts d l) = object_files d.
Proof.
  revert d. induction l as [|a l IH]; intros d H; [done|]. apply andb_true_iff in H as [Ha H].
  change (acts d (a :: l)) with (acts (act d a) l). rewrite IH by done. apply files_act. by apply negb_true_iff.
Qed.

Lemma files_cut d l d' : forallb (fun a => negb (object_action a)) l = true -> cut l d d' -> object_files d' = object_files d.
Proof.
  intros Hl. induction 1 as [l d|b b1 b2 l d Hb|a l d d' Hc IH]; [done|by destruct d|].
  apply andb_true_iff in Hl as [Ha Hl]. rewrite IH by done. apply files_act. by apply negb_true_iff.
Qed.

Lemma open_actions src pol d c l : open' src pol d = Some (c, l) -> forallb (fun a => negb (object_action a)) l = true.
Proof.
  unfold open, replay_pages. repeat case_match; intros [= <- <-]; simplify_eq; done.
Qed.

Lemma finish_page_actions c d prefix token c' l : finish_page' c d prefix token = Some (c', l) -> forallb (fun a => negb (object_action a)) l = true.
Proof. unfold finish_page. case_match; by intros [= <- <-]. Qed.

(** A sweep removes files, none of a completed object. *)
Definition swept (m : Manifest) (f f' : gmap bytes bytes) : Prop :=
  f' ⊆ f /\ forall k, k ∈ completed_objects m -> f' !! hash k = f !! hash k.

Lemma swept_sweep m listing d l l' : sweep hash m listing = l ++ l' -> swept m (object_files d) (object_files (acts d l)).
Proof.
  intros E. assert (forall a, a ∈ l -> exists n, a = RemoveObject n /\ forall k, k ∈ completed_objects m -> hash k <> n) as Hl.
  { intros a Ha. assert (a ∈ sweep hash m listing) as Hs by (rewrite E; set_solver).
    apply list_elem_of_fmap in Hs as (n & -> & Hn). exists n. split; [done|]. intros k Hk <-.
    apply list_elem_of_In, filter_In in Hn as [_ Hn]. apply negb_true_iff, bool_decide_eq_false in Hn.
    apply Hn, elem_of_map_2, Hk. }
  clear E. revert d Hl. induction l as [|a l IH]; intros d Hl; [done|].
  destruct (Hl a) as (n & -> & Hn); [left|]. destruct (IH (act d (RemoveObject n))) as [H1 H2]; [set_solver|].
  change (acts d (RemoveObject n :: l)) with (acts (act d (RemoveObject n)) l).
  destruct d as [? ? f]. split.
  - etrans; [exact H1|]. apply delete_subseteq.
  - intros k Hk. rewrite H2 by done. cbn. apply lookup_delete_ne. symmetry. by apply Hn.
Qed.

Lemma removed_stays l d n : (forall a, a ∈ l -> exists n, a = RemoveObject n) -> object_files d !! n = None ->
  object_files (acts d l) !! n = None.
Proof.
  revert d. induction l as [|a l IH]; intros d Hl Hn; [done|]. destruct (Hl a) as [n' ->]; [left|].
  apply IH; [set_solver|]. destruct d. cbn. by apply lookup_delete_None; right.
Qed.

Lemma sweep_removes m listing d n : n ∈ listing -> n ∉ (set_map (object_path hash) (completed_objects m) : gset bytes) ->
  object_files (acts d (sweep hash m listing)) !! n = None.
Proof.
  intros Hn Hm. assert (RemoveObject n ∈ sweep hash m listing) as Hs.
  { apply list_elem_of_fmap. exists n. split; [done|]. apply list_elem_of_In, filter_In. split; [by apply list_elem_of_In|].
    by apply negb_true_iff, bool_decide_eq_false. }
  apply list_elem_of_split in Hs as (l1 & l2 & E).
  assert (forall a, a ∈ sweep hash m listing -> exists n, a = RemoveObject n) as Hall
    by (intros a Ha; apply list_elem_of_fmap in Ha as (? & -> & _); eauto).
  rewrite E in *. rewrite acts_app. change (acts ?d (RemoveObject n :: l2)) with (acts (act d (RemoveObject n)) l2).
  apply removed_stays; [set_solver|]. destruct (acts d l1). apply lookup_delete_eq.
Qed.

Lemma finish_files c listing d : swept (manifest c) (object_files d) (object_files (acts d (finish' c listing))).
Proof.
  unfold finish. rewrite acts_app. rewrite files_acts by done. apply (swept_sweep _ listing d _ []). by rewrite app_nil_r.
Qed.

Lemma finish_cut_files c listing d d' : cut (finish' c listing) d d' -> swept (manifest c) (object_files d) (object_files d').
Proof.
  intros H. apply cut_app in H as [(l & (l' & E) & ->)|H]; [by eapply swept_sweep| |apply sweep_objects].
  apply files_cut in H as ->; [|done]. apply (swept_sweep _ listing d _ []). by rewrite app_nil_r.
Qed.

(** *** What the files hold *)

(** [m] is committed, [pend] stored since, [ov] written since, and the files of
    [st] were left by a crash. *)
Record sound_at (m : Manifest) (f : gmap bytes bytes) (pend : gmap bytes CachedObject) (ov st : gset bytes) : Prop := {
  sound_digest k o b : objects m !! k = Some o -> k ∉ ov ∪ st -> f !! hash k = Some b -> digest o = hash b;
  sound_completed k : k ∈ completed_objects m -> is_Some (objects m !! k) /\ is_Some (f !! hash k);
  sound_file k o : pend !! k = Some o -> is_Some (f !! hash k);
  sound_written k o b : pend !! k = Some o -> k ∈ ov -> f !! hash k = Some b -> digest o = hash b;
  sound_reused k o : pend !! k = Some o -> k ∉ ov -> objects m !! k = Some o;
  sound_pending : ov ⊆ dom pend
}.

Lemma sound_new src pol f st : sound_at (new_manifest src pol) f ∅ ∅ st.
Proof. split; try done; set_solver. Qed.

Lemma sound_open src pol m f st : sound_at m f ∅ ∅ st -> sound_at (spec_open src pol (Some m)) f ∅ ∅ st.
Proof. intros H. unfold spec_open. cbn. destruct (in_progress m); [done|]. destruct H. split; try done; cbn; set_solver. Qed.

Lemma sound_kill m f pend ov st : sound_at m f pend ov st -> sound_at m f ∅ ∅ (ov ∪ st).
Proof.
  intros H. split; try (intros; done); [|apply (sound_completed _ _ _ _ _ H)].
  intros k o b H1 H2. apply (sound_digest _ _ _ _ _ H k o b H1). set_solver.
Qed.

Lemma sound_more m f st st' : sound_at m f ∅ ∅ st -> st ⊆ st' -> sound_at m f ∅ ∅ st'.
Proof.
  intros H Hst. split; try (intros; done); [|apply (sound_completed _ _ _ _ _ H)].
  intros k o b H1 H2. apply (sound_digest _ _ _ _ _ H k o b H1). set_solver.
Qed.

Lemma sound_page m f pend ov st prefix scope : sound_at m f pend ov st ->
  sound_at (apply_page m {| page_prefix := prefix; page_scope := scope; page_objects := pend |}) f ∅ ∅ (st ∖ ov).
Proof.
  intros H. split; try (intros; done); cbn [objects completed_objects apply_page page_objects].
  - intros k o b Ho Hk Hb. apply lookup_union_Some_raw in Ho as [Ho|[Hn Ho]].
    + destruct (decide (k ∈ ov)) as [Hv|Hv]; [exact (sound_written _ _ _ _ _ H k o b Ho Hv Hb)|].
      apply (sound_digest _ _ _ _ _ H k o b); [exact (sound_reused _ _ _ _ _ H k o Ho Hv)|set_solver|done].
    + apply not_elem_of_dom in Hn. pose proof (sound_pending _ _ _ _ _ H) as Hp.
      apply (sound_digest _ _ _ _ _ H k o b); [done|set_solver|done].
  - intros k Hk. apply elem_of_union in Hk as [Hk|Hk].
    + apply elem_of_dom in Hk as [o Ho]. split; [|exact (sound_file _ _ _ _ _ H k o Ho)].
      exists o. by apply lookup_union_Some_l.
    + destruct (sound_completed _ _ _ _ _ H k Hk) as [[o Ho] Hf]. split; [|done].
      apply lookup_union_is_Some. right. by exists o.
Qed.

Lemma sound_swept m m' f f' st : sound_at m f ∅ ∅ st -> swept m f f' -> objects m' ⊆ objects m ->
  completed_objects m' = completed_objects m -> (forall k, k ∈ completed_objects m -> objects m' !! k = objects m !! k) ->
  sound_at m' f' ∅ ∅ st.
Proof.
  intros H [Hf Hsame] Ho Hc Hk. split; try (intros; done).
  - intros k o b H1 H2 H3. apply (sound_digest _ _ _ _ _ H k o b); [by eapply lookup_weaken|done|by eapply lookup_weaken].
  - intros k. rewrite Hc. intros Hin. rewrite Hk, Hsame by done. by apply (sound_completed _ _ _ _ _ H).
Qed.

Lemma sound_finish m f f' pend st : sound_at (overlay pend m) f ∅ ∅ st -> swept (overlay pend m) f f' ->
  sound_at (finished (overlay pend m)) f' ∅ ∅ st.
Proof.
  intros H Hs. apply (sound_swept _ _ _ _ _ H Hs); [apply map_filter_subseteq|done|].
  intros k Hk. cbn -[overlay]. destruct (objects (overlay pend m) !! k) as [o|] eqn:E.
  - by apply map_lookup_filter_Some_2.
  - apply map_lookup_filter_None_2. by left.
Qed.

Lemma sound_overlay m f pend ov st : sound_at m f pend ov st -> sound_at (overlay pend m) f ∅ ∅ (st ∖ ov).
Proof. intros H. destruct (sound_page _ _ _ _ _ [] {| next_token := None; complete := true |} H). split; try done; by apply sound_pending0. Qed.

Lemma sound_stored m f pend ov st k o b : Inj (=) (=) hash -> sound_at m f pend ov st -> digest o = hash b ->
  sound_at m (<[hash k := b]> f) (<[k := o]> pend) ({[k]} ∪ ov) st.
Proof.
  intros Hinj H Hb.
  assert (forall k', k' <> k -> <[hash k := b]> f !! hash k' = f !! hash k') as Hne
    by (intros k' Hk; apply lookup_insert_ne; intros E; by apply Hinj in E).
  assert (forall k', is_Some (f !! hash k') -> is_Some (<[hash k := b]> f !! hash k')) as Hin.
  { intros k' Hk'. destruct (decide (k' = k)) as [->|Hk]; [rewrite lookup_insert_eq; eauto|by rewrite Hne]. }
  split.
  - intros k' o' b' H1 H2. rewrite Hne by set_solver. apply (sound_digest _ _ _ _ _ H k' o' b' H1). set_solver.
  - intros k' Hk'. destruct (sound_completed _ _ _ _ _ H k' Hk') as [H1 H2]. split; [done|]. by apply Hin.
  - intros k' o' Hk'. destruct (decide (k' = k)) as [->|Hk]; [rewrite lookup_insert_eq; eauto|].
    rewrite lookup_insert_ne in Hk' by done. rewrite Hne by done. by apply (sound_file _ _ _ _ _ H k' o').
  - intros k' o' b' Hp Hv. destruct (decide (k' = k)) as [->|Hk].
    + rewrite !lookup_insert_eq in *. congruence.
    + rewrite lookup_insert_ne in Hp by done. rewrite Hne by done. apply (sound_written _ _ _ _ _ H); [done|set_solver].
  - intros k' o' Hp Hv. assert (k' <> k) by set_solver. rewrite lookup_insert_ne in Hp by done.
    apply (sound_reused _ _ _ _ _ H); [done|set_solver].
  - rewrite dom_insert_L. pose proof (sound_pending _ _ _ _ _ H). set_solver.
Qed.

(** An object is not written again when its record is the same. *)
Lemma sound_reuse m f pend ov st k o : sound_at m f pend ov st ->
  (pend ∪ objects m) !! k = Some o -> is_Some (f !! hash k) -> sound_at m f (<[k := o]> pend) ov st.
Proof.
  intros H Ho Hf. assert (k ∈ ov -> pend !! k = Some o) as Hv.
  { intros Hv. apply (sound_pending _ _ _ _ _ H), elem_of_dom in Hv as [o' E]. rewrite E. rewrite <-Ho.
    symmetry. by apply lookup_union_Some_l. }
  split.
  - apply (sound_digest _ _ _ _ _ H).
  - apply (sound_completed _ _ _ _ _ H).
  - intros k' o' Hk'. destruct (decide (k' = k)) as [->|Hk]; [done|]. rewrite lookup_insert_ne in Hk' by done.
    by apply (sound_file _ _ _ _ _ H k' o').
  - intros k' o' b' Hp Hk. apply (sound_written _ _ _ _ _ H); [|done]. destruct (decide (k' = k)) as [->|Hne].
    + rewrite lookup_insert_eq in Hp. rewrite Hv by done. done.
    + by rewrite lookup_insert_ne in Hp.
  - intros k' o' Hp Hk. destruct (decide (k' = k)) as [->|Hne].
    + rewrite lookup_insert_eq in Hp. injection Hp as <-. apply lookup_union_Some_raw in Ho as [Ho|[_ Ho]]; [|done].
      by apply (sound_reused _ _ _ _ _ H).
    + rewrite lookup_insert_ne in Hp by done. by apply (sound_reused _ _ _ _ _ H).
  - rewrite dom_insert_L. pose proof (sound_pending _ _ _ _ _ H). set_solver.
Qed.

(** *** Every step *)

Lemma inv_opened d c com : inv d (Some c) com -> exists m, com = Some m /\ manifest c = overlay (pending_objects c) m.
Proof. inversion 1; subst. eauto. Qed.

Lemma overlay_insert k o pend m :
  overlay (<[k := o]> pend) m =
  {| manifest_version := manifest_version m; source := source m; policy := policy m; in_progress := in_progress m;
     scopes := scopes m; completed_objects := {[k]} ∪ completed_objects (overlay pend m);
     objects := <[k := o]> (objects (overlay pend m)) |}.
Proof. unfold overlay. cbn. f_equal; [rewrite dom_insert_L; set_solver|symmetry; apply insert_union_l]. Qed.

Lemma store_inv d c com k v b c' l : inv d (Some c) com -> store' c d k v b = (c', l) ->
  inv (acts d l) (Some c') com /\ forallb object_action l = true /\
  pending_objects c' = <[k := {| version := v; digest := hash b |}]> (pending_objects c).
Proof.
  intros H. unfold store. intros [= <- <-]. assert (forall o : bool, forallb object_action (if o then [WriteObject (object_path hash k) b] else []) = true)
    as Hl by (by intros []). split; [|by split]. apply inv_object_actions; [apply Hl|].
  inversion H as [| | | |m ps o pend Hm]; subst. pose proof (overlay_insert k {| version := v; digest := hash b |} pend (replayed m ps)) as E. cbn in E |- *.
  rewrite <-E. by constructor.
Qed.

Lemma store_sound d c com k v b c' l ov st m : Inj (=) (=) hash -> inv d (Some c) com -> com = Some m ->
  store' c d k v b = (c', l) ->
  sound_at m (object_files d) (pending_objects c) ov st ->
  sound_at m (object_files (acts d l)) (pending_objects c') (written k l ∪ ov) st.
Proof.
  intros Hinj Hi Hm Hs H. destruct (inv_opened _ _ _ Hi) as (m' & Hm' & Hc). assert (m' = m) as -> by congruence.
  unfold store in Hs. injection Hs as <- <-. cbn [pending_objects].
  destruct (decide (objects (manifest c) !! k = Some {| version := v; digest := hash b |})) as [Ho|Ho];
    [rewrite bool_decide_true by done|by rewrite bool_decide_false by done; destruct d; apply sound_stored].
  destruct (object_files d !! object_path hash k) eqn:Hf; cbn; [|by destruct d; apply sound_stored].
  rewrite (left_id_L ∅ (∪) ov). rewrite Hc in Ho. apply sound_reuse; [done|done|by eexists].
Qed.

Definition sound (w : World) (com : option Manifest) : Prop :=
  match com with
  | None => True
  | Some m => sound_at m (object_files (disk w)) (match mem w with Some c => pending_objects c | None => ∅ end) (overwritten w) (stale w)
  end.

Record linked (w : World) (com : option Manifest) : Prop := {
  linked_inv : inv (disk w) (mem w) com;
  linked_sound : Inj (=) (=) hash -> sound w com;
  linked_version m : com = Some m -> manifest_version m = 1%Z
}.

Lemma spec_open_version src pol com m : (forall m, com = Some m -> manifest_version m = 1%Z) ->
  Some (spec_open src pol com) = Some m -> manifest_version m = 1%Z.
Proof.
  intros H [= <-]. unfold spec_open. destruct com as [m|]; cbn; [|done]. destruct (in_progress m); by apply (H m).
Qed.

Lemma open_sound src pol d com st f : match com with None => True | Some m => sound_at m (object_files d) ∅ ∅ st end ->
  f = object_files d -> sound_at (spec_open src pol com) f ∅ ∅ st.
Proof. intros H ->. destruct com as [m|]; [by apply sound_open|apply (sound_open src pol (new_manifest src pol)), sound_new]. Qed.

Ltac link := split; [split; unfold sound; cbn [disk mem overwritten stale]|].

Lemma replayed_header m ps :
  manifest_version (replayed m ps) = manifest_version m /\ source (replayed m ps) = source m /\ policy (replayed m ps) = policy m.
Proof. revert m. induction ps as [|p ps IH]; intros m; [done|]. exact (IH (apply_page m p)). Qed.

(** The manifest on the disk is accepted when what is committed is. *)
Lemma open_accepts src pol d com : inv d None com -> (forall m, com = Some m -> manifest_version m = 1%Z) ->
  match open' src pol d with Some _ => true | None => false end = accepts src pol com.
Proof.
  intros H Hv. unfold open, open_manifest. inversion H as [p o|m p o Hm|m o Hm|m ps tail o Hm Ht|]; subst; cbn -[replay_pages]; [done| | |];
    rewrite (manifest_codec Hcodecs).
  - rewrite (Hv m eq_refl). cbn. case (_ && _); [|done]. by rewrite Hm.
  - rewrite (Hv m eq_refl). cbn. case (_ && _); [|done]. by rewrite Hm.
  - destruct (replayed_header m ps) as (E & -> & ->). rewrite (Hv _ eq_refl) in E. rewrite <-E.
    change (1 =? 1)%Z with true. cbn [andb]. case (_ && _); [|done]. rewrite Hm. cbn [negb]. by rewrite replay_pages_journal.
Qed.

Lemma open_accepted src pol d com c l : inv d None com -> (forall m, com = Some m -> manifest_version m = 1%Z) ->
  open' src pol d = Some (c, l) -> accepts src pol com = true.
Proof. intros Hi Hv Ho. by rewrite <-(open_accepts src pol d com Hi Hv), Ho. Qed.

Lemma step_linked w e w' com : linked w com -> lstep w e w' ->
  exists com', linked w' com' /\ spec_of w' com' ∈ outcomes hash e (spec_of w com).
Proof.
  intros [Hi Hs Hv] H. destruct H as [src pol d st c l Ho|src pol d st c l d' Ho Hc|d c ov st k v b c' l Ho|d c ov st k v b c' l d' Ho Hc
    |d c ov st p t c' l Ho|d c ov st p t c' l d' Ho Hc|d c ov st ls|d c ov st ls d' Hc|d c ov st]; cbn [disk mem overwritten stale] in *;
    unfold sound, spec_of in *; cbn [disk mem overwritten stale option_map] in *;
    unfold outcomes, spec_do, durable; cbn [committed session].
  - destruct (open_inv _ _ _ _ _ _ Hi Ho) as (Hi' & Hp & _). exists (Some (spec_open src pol com)). link; [done| | |].
    + intros Hinj. rewrite Hp. cbn. apply (open_sound _ _ d); [by apply Hs|]. by eapply files_acts, open_actions.
    + intros m. by apply spec_open_version.
    + rewrite (open_accepted _ _ _ _ _ _ Hi Hv Ho), Hp. left.
  - destruct (open_inv _ _ _ _ _ _ Hi Ho) as (_ & _ & Hcut). rewrite (open_accepted _ _ _ _ _ _ Hi Hv Ho). pose proof (files_cut _ _ _ (open_actions _ _ _ _ _ Ho) Hc) as Hf.
    destruct (Hcut _ Hc) as [Hi'|Hi'].
    + exists com. link; [done|by rewrite Hf|done|left].
    + exists (Some (spec_open src pol com)). link; [done| | |].
      * intros Hinj. apply (open_sound _ _ d); [by apply Hs|done].
      * intros m. by apply spec_open_version.
      * right. left.
  - destruct (store_inv _ _ _ _ _ _ _ _ Hi Ho) as (Hi' & _ & Hp). destruct (inv_opened _ _ _ Hi) as (m & -> & _).
    exists (Some m). link; [done| |done|].
    + intros Hinj. exact (store_sound _ _ _ _ _ _ _ _ _ _ _ Hinj Hi eq_refl Ho (Hs Hinj)).
    + rewrite Hp. left.
  - destruct (store_inv _ _ _ _ _ _ _ _ Hi Ho) as (Hi' & Hl & Hp). destruct (inv_opened _ _ _ Hi) as (m & -> & _).
    exists (Some m). link; [| |done|left].
    + destruct (cut_object_actions _ _ _ Hl Hc) as (l' & Hl' & ->). apply inv_object_actions; [done|]. by eapply inv_kill.
    + intros Hinj. cbn. assert (d' = d \/ d' = acts d l) as [->| ->].
      { unfold store in Ho. injection Ho as _ <-. destruct (_ || _); [|left; by apply cut_nil].
        apply cut_cons in Hc as [->|Hc]; [by left| |done]. right. by apply cut_nil in Hc. }
      * eapply sound_more; [exact (sound_kill _ _ _ _ _ (Hs Hinj))|]. set_solver.
      * eapply sound_more; [exact (sound_kill _ _ _ _ _ (store_sound _ _ _ _ _ _ _ _ _ _ _ Hinj Hi eq_refl Ho (Hs Hinj)))|]. set_solver.
  - destruct (finish_page_inv _ _ _ _ _ _ _ Hi Ho) as (m & -> & Hi' & Hp & _). eexists. link; [exact Hi'| | |].
    + intros Hinj. rewrite Hp. rewrite (files_acts _ _ (finish_page_actions _ _ _ _ _ _ Ho)). by apply sound_page, Hs.
    + intros m' [= <-]. pose proof (Hv m eq_refl). done.
    + rewrite Hp. left.
  - destruct (finish_page_inv _ _ _ _ _ _ _ Hi Ho) as (m & -> & _ & _ & Hcut).
    pose proof (files_cut _ _ _ (finish_page_actions _ _ _ _ _ _ Ho) Hc) as Hf. destruct (Hcut _ Hc) as [Hi'|Hi'].
    + exists (Some m). link; [done| |done|left]. intros Hinj. rewrite Hf. exact (sound_kill _ _ _ _ _ (Hs Hinj)).
    + eexists. link; [exact Hi'| | |].
      * intros Hinj. rewrite Hf. eapply sound_more; [exact (sound_page _ _ _ _ _ p _ (Hs Hinj))|]. set_solver.
      * intros m' [= <-]. pose proof (Hv m eq_refl). done.
      * right. left.
  - destruct (finish_inv _ _ _ ls Hi) as (m & -> & Hi' & Hm & _). eexists. link; [exact Hi'| | |].
    + intros Hinj. eapply sound_finish; [by apply sound_overlay, Hs|]. rewrite <-Hm. apply finish_files.
    + intros m' [= <-]. pose proof (Hv m eq_refl). done.
    + left.
  - destruct (finish_inv _ _ _ ls Hi) as (m & -> & _ & Hm & Hcut). pose proof (finish_cut_files _ _ _ _ Hc) as Hf.
    destruct (Hcut _ Hc) as [Hi'|Hi'].
    + exists (Some m). link; [done| |done|left]. intros Hinj.
      eapply sound_swept; [exact (sound_kill _ _ _ _ _ (Hs Hinj))| |done|done|done]. split; [apply Hf|]. intros k Hk. apply Hf. rewrite Hm. set_solver.
    + eexists. link; [exact Hi'| | |].
      * intros Hinj. eapply sound_more; [eapply sound_finish; [by apply sound_overlay, Hs|]; rewrite <-Hm; exact Hf|]. set_solver.
      * intros m' [= <-]. pose proof (Hv m eq_refl). done.
      * right. left.
  - exists com. link; [by eapply inv_kill| |done|left]. intros Hinj. destruct com; [|done]. exact (sound_kill _ _ _ _ _ (Hs Hinj)).
Qed.

(** ** Theorems *)

(** A cache directory without a manifest. *)
Definition initial (w : World) : Prop :=
  manifest_json (disk w) = None /\ mem w = None /\ overwritten w = ∅ /\ stale w = ∅.

Lemma initial_linked w : initial w -> linked w None.
Proof. destruct w as [[m p o] c ov st]. intros (Hm & Hc & Hov & Hst). cbn in *. subst. split; [constructor|done|done]. Qed.

Lemma run_linked w0 es w : initial w0 -> run w0 es w ->
  exists com, linked w com /\ spec_of w com ∈ outcomes_of hash es.
Proof.
  intros H0. induction 1 as [|es e w w' _ IH H].
  - exists None. split; [by apply initial_linked|]. destruct H0 as (_ & Hm & _). unfold spec_of. rewrite Hm. left.
  - destruct IH as (com & Hc & Hs). destruct (step_linked _ _ _ _ Hc H) as (com' & Hc' & Hs'). exists com'.
    split; [done|]. by eapply outcomes_of_snoc.
Qed.

Lemma reachable_linked w0 w : initial w0 -> rtc step w0 w -> exists com, linked w com.
Proof. intros H0 [es H]%step_run. destruct (run_linked _ _ _ H0 H) as (com & Hc & _). by exists com. Qed.

(** C15. The cache refines a store of one committed manifest. For every run - any
    operations, each done or cut short by a crash at any of its writes, and kills
    between them - the store has a run with the same operations and crashes in the
    same order, where a finished page commits exactly the objects stored since the
    last one and the scope it leaves, the end of the scan commits the rest, a crash
    loses what was stored since the last page and nothing that was committed, and
    an operation that was cut short had all of its effect on what is committed or
    none. At its end an open cache holds the committed manifest with what was
    stored since the last page; and opening a closed cache gives just the
    committed manifest, resuming or starting a scan, and fails only for another
    source or policy. *)
Theorem cache_refines w0 es w : initial w0 -> run w0 es w ->
  exists com, {| committed := com; session := option_map pending_objects (mem w) |} ∈ outcomes_of hash es /\
    (forall c, mem w = Some c -> exists m, com = Some m /\ manifest c = overlay (pending_objects c) m) /\
    (mem w = None -> forall src pol,
       match open' src pol (disk w) with
       | Some (c, _) => accepts src pol com = true /\ manifest c = spec_open src pol com /\ pending_objects c = ∅
       | None => accepts src pol com = false
       end).
Proof.
  intros H0 H. destruct (run_linked _ _ _ H0 H) as (com & [Hi _ Hv] & Hr). exists com. split; [exact Hr|]. split.
  - intros c Hc. rewrite Hc in Hi. exact (inv_opened _ _ _ Hi).
  - intros Hm src pol. rewrite Hm in Hi. pose proof (open_accepts src pol _ _ Hi Hv) as Ha.
    destruct (open' src pol (disk w)) as [[c l]|] eqn:Ho; [|done]. split; [done|].
    destruct (open_inv _ _ _ _ _ _ Hi Ho) as (Hi' & Hp & _). destruct (inv_opened _ _ _ Hi') as (m & [= <-] & Hc).
    rewrite Hp, overlay_empty in Hc. done.
Qed.

Lemma check_digest_some c k b o : objects (manifest c) !! k = Some o -> digest o = hash b -> check_digest hash c k b = true.
Proof. intros Ho Hb. unfold check_digest. rewrite Ho, Hb. by apply bool_decide_eq_true. Qed.

(** C28. Whatever operations and crashes led to an open cache, the content of each
    object that this listing completed can be read and has the recorded digest,
    unless a killed run left another content in its file and it was not written
    again. Hashing must not collide. *)
Theorem completed_objects_readable w0 w c key : Inj (=) (=) hash -> initial w0 -> rtc step w0 w -> mem w = Some c ->
  key ∈ completed_objects (manifest c) -> key ∈ overwritten w \/ key ∉ stale w ->
  exists b o, read hash c (disk w) key = Some b /\ objects (manifest c) !! key = Some o /\ digest o = hash b.
Proof.
  intros Hinj H0 H Hc Hk Hst. destruct (reachable_linked _ _ H0 H) as (com & [Hi Hs _]). specialize (Hs Hinj).
  rewrite Hc in Hi. destruct (inv_opened _ _ _ Hi) as (m & -> & Hm). cbn in Hs. rewrite Hc in Hs.
  pose proof (sound_overlay _ _ _ _ _ Hs) as Ho. rewrite <-Hm in Ho.
  destruct (sound_completed _ _ _ _ _ Ho key Hk) as [[o E] [b Hb]]. exists b, o.
  assert (digest o = hash b) as Hd by (apply (sound_digest _ _ _ _ _ Ho key o b E); [set_solver|done]).
  split; [|done]. unfold read, object_path. rewrite Hb. by rewrite (check_digest_some _ _ _ _ E Hd).
Qed.

(** A finished scan leaves the files of the objects it completed and no other:
    each of them is there, and what the directory listed besides, objects of
    interrupted pages and abandoned temporary files included, is gone. *)
Theorem finish_keeps_completed w0 w c listing name : Inj (=) (=) hash -> initial w0 -> rtc step w0 w -> mem w = Some c ->
  (forall n, is_Some (object_files (disk w) !! n) -> n ∈ listing) ->
  (is_Some (object_files (acts (disk w) (finish' c listing)) !! name) <->
   exists key, key ∈ completed_objects (manifest c) /\ name = hash key).
Proof.
  intros Hinj H0 H Hc Hls. destruct (reachable_linked _ _ H0 H) as (com & [Hi Hs _]). specialize (Hs Hinj).
  rewrite Hc in Hi. destruct (inv_opened _ _ _ Hi) as (m & -> & Hm). cbn in Hs. rewrite Hc in Hs.
  pose proof (sound_overlay _ _ _ _ _ Hs) as Ho. rewrite <-Hm in Ho. destruct (finish_files c listing (disk w)) as [Hf Hsame]. split.
  - intros Hn. destruct (decide (name ∈ (set_map (object_path hash) (completed_objects (manifest c)) : gset bytes))) as [Hin|Hout].
    + apply elem_of_map in Hin as (key & -> & Hk). by exists key.
    + destruct Hn as [b Hb]. pose proof (lookup_weaken _ _ _ _ Hb Hf) as Hb'.
      unfold finish in Hb. rewrite acts_app, files_acts in Hb by done. rewrite sweep_removes in Hb; [done| |done]. apply Hls. eauto.
  - intros (key & Hk & ->). rewrite Hsame by done. by apply (sound_completed _ _ _ _ _ Ho).
Qed.
End System.

(** ** Concrete runs *)

(** A name per key and a number per record: codecs that read back what they wrote. *)
#[global] Instance object_version_countable : Countable ObjectVersion.
Proof. apply (inj_countable' (fun v => (identity v, modified v, version_size v)) (fun '(i, m, s) => Build_ObjectVersion i m s)). by intros []. Defined.
#[global] Instance cached_object_countable : Countable CachedObject.
Proof. apply (inj_countable' (fun o => (version o, digest o)) (fun '(v, d) => Build_CachedObject v d)). by intros []. Defined.
#[global] Instance scope_eq_dec : EqDecision Scope.
Proof. solve_decision. Defined.
#[global] Instance scope_countable : Countable Scope.
Proof. apply (inj_countable' (fun s => (next_token s, complete s)) (fun '(t, c) => Build_Scope t c)). by intros []. Defined.
#[global] Instance manifest_eq_dec : EqDecision Manifest.
Proof. solve_decision. Defined.
#[global] Instance manifest_countable : Countable Manifest.
Proof.
  apply (inj_countable' (fun m => (manifest_version m, source m, policy m, in_progress m, scopes m, completed_objects m, objects m))
    (fun '(v, s, p, i, sc, c, o) => Build_Manifest v s p i sc c o)). by intros [].
Defined.
#[global] Instance page_eq_dec : EqDecision PageCheckpoint.
Proof. solve_decision. Defined.
#[global] Instance page_countable : Countable PageCheckpoint.
Proof.
  apply (inj_countable' (fun p => (page_prefix p, page_scope p, page_objects p)) (fun '(a, b, c) => Build_PageCheckpoint a b c)). by intros [].
Defined.

Definition demo_hash (b : bytes) : bytes := b.
Definition demo_manifest_to_vec (m : Manifest) : bytes := [Z.pos (encode m)].
Definition demo_manifest_from_slice (b : bytes) : option Manifest := match b with [Z.pos p] => decode p | _ => None end.
Definition demo_page_to_vec (p : PageCheckpoint) : bytes := [Z.pos (10 + encode p)].
Definition demo_page_from_slice (b : bytes) : option PageCheckpoint :=
  match b with [Z.pos p; 10%Z] => decode (p - 10) | _ => None end.

Lemma demo_codecs : codecs demo_manifest_to_vec demo_manifest_from_slice demo_page_to_vec demo_page_from_slice.
Proof.
  split.
  - intros m. apply decode_encode.
  - intros p. unfold demo_page_from_slice, demo_page_to_vec. cbn [app]. replace (10 + encode p - 10)%positive with (encode p) by lia.
    apply decode_encode.
  - intros p H. apply list_elem_of_singleton in H. lia.
Qed.

Abbreviation demo_lstep := (lstep demo_hash demo_manifest_to_vec demo_manifest_from_slice demo_page_to_vec demo_page_from_slice).
Abbreviation demo_step := (step demo_hash demo_manifest_to_vec demo_manifest_from_slice demo_page_to_vec demo_page_from_slice).
Abbreviation demo_open := (open demo_manifest_to_vec demo_manifest_from_slice demo_page_from_slice).

Definition demo_version (n : Z) : ObjectVersion := {| identity := None; modified := Some [n]; version_size := None |}.
Definition demo_start : World :=
  {| disk := {| manifest_json := None; pages_jsonl := None; object_files := ∅ |}; mem := None; overwritten := ∅; stale := ∅ |}.

(** The operations of a run, the crashes between them. *)
Inductive Op := OpOpen | OpStore (key : bytes) (v : Z) (b : bytes) | OpPage (token : option bytes) | OpFinish | OpKill.

Definition demo_op (w : World) (o : Op) : World :=
  match o, mem w with
  | OpOpen, None =>
    match demo_open [1%Z] [2%Z] (disk w) with
    | Some (c, l) => {| disk := acts (disk w) l; mem := Some c; overwritten := ∅; stale := stale w |}
    | None => w
    end
  | OpStore k v b, Some c =>
    let '(c', l) := store demo_hash c (disk w) k (demo_version v) b in
    {| disk := acts (disk w) l; mem := Some c'; overwritten := written k l ∪ overwritten w; stale := stale w |}
  | OpPage t, Some c =>
    match finish_page demo_page_to_vec c (disk w) [] t with
    | Some (c', l) => {| disk := acts (disk w) l; mem := Some c'; overwritten := ∅; stale := stale w ∖ overwritten w |}
    | None => w
    end
  | OpFinish, Some c =>
    {| disk := acts (disk w) (finish demo_hash demo_manifest_to_vec c (map fst (map_to_list (object_files (disk w)))));
       mem := None; overwritten := ∅; stale := stale w ∖ overwritten w |}
  | OpKill, Some c => {| disk := disk w; mem := None; overwritten := ∅; stale := overwritten w ∪ stale w |}
  | _, _ => w
  end.
Definition demo_run (l : list Op) : World := fold_left demo_op l demo_start.

(** An operation that changes nothing does not apply. *)
Definition event_of (o : Op) : Event :=
  match o with
  | OpOpen => Done (Open [1%Z] [2%Z])
  | OpStore k v b => Done (Store k (demo_version v) b)
  | OpPage t => Done (FinishPage [] t)
  | OpFinish => Done Finish
  | OpKill => Killed
  end.
Definition applies (w : World) (o : Op) : bool :=
  match o, mem w with
  | OpOpen, None => match demo_open [1%Z] [2%Z] (disk w) with Some _ => true | None => false end
  | OpPage t, Some c => match finish_page demo_page_to_vec c (disk w) [] t with Some _ => true | None => false end
  | OpStore _ _ _, Some _ | OpFinish, Some _ | OpKill, Some _ => true
  | _, _ => false
  end.

Lemma demo_op_step w o : (mem w = None -> overwritten w = ∅) ->
  (if applies w o then demo_lstep w (event_of o) (demo_op w o) else demo_op w o = w) /\
  (mem (demo_op w o) = None -> overwritten (demo_op w o) = ∅).
Proof.
  destruct w as [d [c|] ov st]; cbn; intros Hov; [|rewrite Hov by done]; unfold demo_op, applies; destruct o as [|k v b|t| |]; cbn [mem disk overwritten stale event_of];
    try (split; [reflexivity|done]).
  - destruct (store _ _ _ _ _ _) as [c' l] eqn:E. split; [by constructor|done].
  - destruct (finish_page _ _ _ _ _) as [[c' l]|] eqn:E; (split; [|done]); [by constructor|reflexivity].
  - split; [by constructor|done].
  - split; [by constructor|done].
  - destruct (open _ _ _ _ _ _) as [[c' l]|] eqn:E; (split; [|done]); [by constructor|reflexivity].
Qed.

Fixpoint all_apply (w : World) (l : list Op) : bool :=
  match l with [] => true | o :: l => applies w o && all_apply (demo_op w o) l end.

Lemma demo_events l : all_apply demo_start l = true ->
  run demo_hash demo_manifest_to_vec demo_manifest_from_slice demo_page_to_vec demo_page_from_slice demo_start (map event_of l) (demo_run l).
Proof.
  unfold demo_run.
  assert (forall l es w, (mem w = None -> overwritten w = ∅) ->
    run demo_hash demo_manifest_to_vec demo_manifest_from_slice demo_page_to_vec demo_page_from_slice demo_start es w -> all_apply w l = true ->
    run demo_hash demo_manifest_to_vec demo_manifest_from_slice demo_page_to_vec demo_page_from_slice demo_start (es ++ map event_of l) (fold_left demo_op l w)) as H.
  { clear l. induction l as [|o l IH]; intros es w Hw Hr Hl; [by rewrite app_nil_r|]. cbn [map fold_left all_apply] in *. tobool.
    destruct (demo_op_step w o Hw) as [H1 H2]. match goal with E : applies w o = true |- _ => rewrite E in H1 end.
    replace (es ++ event_of o :: map event_of l) with ((es ++ [event_of o]) ++ map event_of l) by by rewrite <-app_assoc.
    apply IH; [done| |done]. by econstructor. }
  intros Hl. apply (H l []); [done|constructor|done].
Qed.

Lemma demo_reachable l : rtc demo_step demo_start (demo_run l).
Proof.
  unfold demo_run. assert (forall w, (mem w = None -> overwritten w = ∅) -> rtc demo_step w (fold_left demo_op l w)) as H; [|by apply H].
  induction l as [|o l IH]; intros w Hw; [reflexivity|]. destruct (demo_op_step w o Hw) as [H1 H2].
  etrans; [|by apply IH]. destruct (applies w o); [apply rtc_once; by eexists|by rewrite H1].
Qed.

(** A page of object 7, an object of the next page, a crash, and the scan resumed. *)
Definition demo_ops : list Op := [OpOpen; OpStore [7%Z] 1 [70%Z]; OpPage (Some [5%Z]); OpStore [8%Z] 1 [80%Z]; OpKill; OpOpen].

Example demo_resumes :
  match mem (demo_run demo_ops) with
  | Some c => (continuation_token c [], elements (completed_objects (manifest c)), read demo_hash c (disk (demo_run demo_ops)) [7%Z])
              = (Some [5%Z], [[7%Z]], Some [70%Z])
  | None => False
  end.
Proof. vm_compute. reflexivity. Qed.

(** Object 7 is scanned, then a killed run stores a new version of it, then it is as
    it was: [store] sees the old record and a file and does not write, and the
    completed object cannot be read. *)
Example store_trusts_stale_file :
  let w := demo_run [OpOpen; OpStore [7%Z] 1 [70%Z]; OpPage None; OpFinish; OpOpen; OpStore [7%Z] 2 [71%Z]; OpKill;
                     OpOpen; OpStore [7%Z] 1 [70%Z]; OpPage None] in
  match mem w with
  | Some c => elements (completed_objects (manifest c)) = [[7%Z]] /\ read demo_hash c (disk w) [7%Z] = None
  | None => False
  end.
Proof. vm_compute. by split. Qed.

(** The run has one outcome: object 7 and the token survive the crash, object 8 of
    the page that was not finished does not. *)
Lemma cache_refines_witness :
  match mem (demo_run demo_ops) with
  | Some c => exists m, outcomes_of demo_hash (map event_of demo_ops) = [{| committed := Some m; session := Some ∅ |}] /\
      elements (completed_objects m) = [[7%Z]] /\ map_to_list (scopes m) = [([], {| next_token := Some [5%Z]; complete := false |})] /\
      manifest c = overlay (pending_objects c) m
  | None => False
  end.
Proof.
  destruct (mem (demo_run demo_ops)) as [c|] eqn:E; [|vm_compute in E; discriminate E].
  destruct (cache_refines demo_hash _ _ _ _ demo_codecs demo_start (map event_of demo_ops) (demo_run demo_ops)) as (com & H & Hopen & _);
    [by split|by apply demo_events; vm_compute|].
  destruct (Hopen c E) as (m & -> & Hm). exists m.
  destruct (outcomes_of demo_hash (map event_of demo_ops)) as [|s1 [|s2 ss]] eqn:Es; [by apply not_elem_of_nil in H| |vm_compute in Es; discriminate Es].
  apply list_elem_of_singleton in H. subst s1.
  assert (pending_objects c = ∅) as Hp by (vm_compute in E; by injection E as <-). rewrite E in *. cbn [option_map] in *. rewrite Hp in *.
  assert (Some m = committed (default {| committed := None; session := None |} (head (outcomes_of demo_hash (map event_of demo_ops))))) as Em
    by by rewrite Es.
  split; [done|]. clear Es. vm_compute in Em. injection Em as ->. split; [by vm_compute|]. split; [by vm_compute|exact Hm].
Defined.

Lemma completed_objects_readable_witness :
  match mem (demo_run demo_ops) with
  | Some c => exists b o, read demo_hash c (disk (demo_run demo_ops)) [7%Z] = Some b /\ objects (manifest c) !! [7%Z] = Some o /\ digest o = demo_hash b
  | None => False
  end.
Proof.
  destruct (mem (demo_run demo_ops)) as [c|] eqn:E; [|vm_compute in E; discriminate E].
  apply (completed_objects_readable demo_hash _ _ _ _ demo_codecs demo_start (demo_run demo_ops) c [7%Z]); [by intros ? ? ?|by split|apply demo_reachable|done| |].
  - apply (bool_decide_unpack _). vm_compute in E. injection E as <-. vm_compute. exact I.
  - right. apply (bool_decide_unpack _). vm_compute. exact I.
Defined.

Lemma finish_keeps_completed_witness :
  match mem (demo_run demo_ops) with
  | Some c => object_files (disk (demo_run demo_ops)) !! [8%Z] = Some [80%Z] /\
      ~ is_Some (object_files (acts (disk (demo_run demo_ops)) (finish demo_hash demo_manifest_to_vec c [[7%Z]; [8%Z]])) !! [8%Z])
  | None => False
  end.
Proof.
  destruct (mem (demo_run demo_ops)) as [c|] eqn:E; [|vm_compute in E; discriminate E].
  split; [by vm_compute|].
  rewrite (finish_keeps_completed demo_hash _ _ _ _ demo_codecs demo_start (demo_run demo_ops) c [[7%Z]; [8%Z]] [8%Z]);
    [|by intros ? ? ?|by split|apply demo_reachable|done|].
  - intros (key & Hk & E8). change (demo_hash key) with key in E8. subst key. revert Hk. vm_compute in E. injection E as <-.
    apply (bool_decide_unpack _). vm_compute. exact I.
  - assert (map_Forall (fun n _ => n ∈ [[7%Z]; [8%Z]]) (object_files (disk (demo_run demo_ops)))) as H
      by (apply (bool_decide_unpack _); vm_compute; exact I).
    intros n [b Hb]. exact (H n b Hb).
Defined.
