(* ===== verification/Ordered.v ===== *)
(** * Orders, stable sorting and ordered maps

    [Ord] as a comparison function with its laws, [sort_by] and [dedup_by] of
    slices, and the iteration order of a [BTreeMap], here a [gmap] listed by
    key. *)

From Stdlib Require Import ZArith Lia Bool Sorting.Sorted.
From stdpp Require Import base list numbers option gmap sorting.
From S2P Require Import Prelude.

(** ** Comparisons *)

(** A total preorder; [Eq] need not be equality. *)
Class WeakOrd {A} (cmp : A -> A -> comparison) : Prop := {
  cmp_flip x y : cmp y x = CompOpp (cmp x y);
  cmp_comp x y z : match cmp x y, cmp y z with
                   | Gt, _ | _, Gt => True
                   | Eq, c => cmp x z = c
                   | Lt, _ => cmp x z = Lt
                   end
}.

Arguments cmp_flip {A} cmp {_} x y.
Arguments cmp_comp {A} cmp {_} x y z.

(** One whose [Eq] is equality. *)
Class TotalOrd {A} (cmp : A -> A -> comparison) : Prop := {
  total_weak :: WeakOrd cmp;
  cmp_eq x y : cmp x y = Eq -> x = y
}.

Arguments cmp_eq {A} cmp {_} x y.

Definition cmp_le {A} (cmp : A -> A -> comparison) (x y : A) : Prop := cmp x y <> Gt.

Definition then_with (a b : comparison) : comparison := match a with Eq => b | c => c end.

Fixpoint bytes_cmp (a b : bytes) : comparison :=
  match a, b with
  | [], [] => Eq | [], _ => Lt | _, [] => Gt
  | x :: a, y :: b => then_with (x ?= y)%Z (bytes_cmp a b)
  end.

Section Laws.
Context {A : Type} (cmp : A -> A -> comparison) `{!WeakOrd cmp}.

Lemma cmp_refl x : cmp x x = Eq.
Proof. pose proof (cmp_flip cmp x x) as H. by destruct (cmp x x). Qed.

#[export] Instance cmp_le_trans : Transitive (cmp_le cmp).
Proof.
  intros x y z Hxy Hyz. unfold cmp_le in *. pose proof (cmp_comp cmp x y z) as H.
  destruct (cmp x y), (cmp y z); congruence.
Qed.

Lemma cmp_le_total x y : cmp_le cmp x y \/ cmp_le cmp y x.
Proof. unfold cmp_le. rewrite (cmp_flip cmp x y). by destruct (cmp x y); [left|left|right]. Qed.

Lemma cmp_gt_le x y : cmp x y = Gt -> cmp_le cmp y x.
Proof. unfold cmp_le. rewrite (cmp_flip cmp x y). by intros ->. Qed.
End Laws.

#[export] Instance z_total : TotalOrd Z.compare.
Proof.
  split; [split|].
  - intros x y. apply Z.compare_antisym.
  - intros x y z. destruct (Z.compare_spec x y), (Z.compare_spec y z); try done; subst;
      try (by apply Z.compare_refl); apply Z.compare_lt_iff; lia.
  - intros x y. apply Z.compare_eq.
Qed.

(** Lexicographic order, and an order seen through a function. *)
#[export] Instance then_with_weak {A} (f g : A -> A -> comparison) `{!WeakOrd f, !WeakOrd g} : WeakOrd (fun x y => then_with (f x y) (g x y)).
Proof.
  split.
  - intros x y. rewrite (cmp_flip f x y), (cmp_flip g x y). by destruct (f x y).
  - intros x y z. pose proof (cmp_comp f x y z) as Hf. pose proof (cmp_comp g x y z) as Hg.
    destruct (f x y), (f y z), (g x y), (g y z); cbn in *; try done; by rewrite Hf.
Qed.

#[export] Instance on_weak {A B} (p : A -> B) (cmp : B -> B -> comparison) `{!WeakOrd cmp} : WeakOrd (fun x y => cmp (p x) (p y)).
Proof. split; [intros x y; apply (cmp_flip cmp)|intros x y z; apply (cmp_comp cmp)]. Qed.

#[export] Instance bytes_total : TotalOrd bytes_cmp.
Proof.
  split; [split|].
  - induction x as [|a x IH]; intros [|b y]; try done. cbn. rewrite (cmp_flip Z.compare a b), IH.
    by destruct (a ?= b)%Z.
  - induction x as [|a x IH]; intros [|b y] [|c z]; cbn; try done; try (by destruct (then_with _ _)).
    pose proof (cmp_comp Z.compare a b c) as H. specialize (IH y z).
    destruct (a ?= b)%Z, (b ?= c)%Z, (bytes_cmp x y), (bytes_cmp y z); cbn in *; try done; by rewrite H.
  - induction x as [|a x IH]; intros [|b y]; try done. cbn. destruct (Z.compare_spec a b) as [->| |]; try done. cbn. intros H. f_equal. by apply IH.
Qed.

(** ** Sorting *)

Section Sorting.
Context {A : Type} (cmp : A -> A -> comparison).

Fixpoint insert_by (x : A) (l : list A) : list A :=
  match l with
  | [] => [x]
  | y :: r => match cmp x y with Gt => y :: insert_by x r | _ => x :: l end
  end.

(** [sort_by] is stable: of equal elements the first stays first. *)
Fixpoint sort_by (l : list A) : list A := match l with [] => [] | x :: l => insert_by x (sort_by l) end.

Lemma insert_by_perm x l : insert_by x l ≡ₚ x :: l.
Proof.
  induction l as [|y l IH]; [done|]. cbn. destruct (cmp x y); [done|done|]. rewrite IH. apply Permutation_swap.
Qed.

Lemma sort_by_perm l : sort_by l ≡ₚ l.
Proof. induction l as [|x l IH]; [done|]. cbn. by rewrite insert_by_perm, IH. Qed.

Lemma sort_by_elem l x : x ∈ sort_by l <-> x ∈ l.
Proof. by rewrite sort_by_perm. Qed.

Lemma sort_by_sorted_id l : StronglySorted (cmp_le cmp) l -> sort_by l = l.
Proof.
  induction 1 as [|x l Hl IH Hx]; [done|]. cbn. rewrite IH. destruct l as [|y l]; [done|]. cbn.
  apply Forall_cons in Hx as [Hx _]. unfold cmp_le in Hx. by destruct (cmp x y).
Qed.

Context `{!WeakOrd cmp}.

Lemma insert_by_sorted x l : StronglySorted (cmp_le cmp) l -> StronglySorted (cmp_le cmp) (insert_by x l).
Proof.
  induction 1 as [|y l Hl IH Hy]; [by repeat constructor|]. cbn.
  assert (cmp x y <> Gt -> StronglySorted (cmp_le cmp) (x :: y :: l)) as Hle.
  { intros H. constructor; [by constructor|]. constructor; [done|]. eapply Forall_impl; [exact Hy|]. intros z Hz.
    by apply (cmp_le_trans cmp x y z). }
  destruct (cmp x y) eqn:E; [by apply Hle|by apply Hle|]. constructor; [done|].
  rewrite insert_by_perm. constructor; [by apply cmp_gt_le|done].
Qed.

Lemma sort_by_sorted l : StronglySorted (cmp_le cmp) (sort_by l).
Proof. induction l as [|x l IH]; [constructor|]. by apply insert_by_sorted. Qed.
End Sorting.

(** [dedup_by]: of neighbours that are the same the first stays. *)
Section Dedup.
Context {A : Type} (same : A -> A -> bool).

Fixpoint dedup_from (x : A) (l : list A) : list A :=
  match l with [] => [] | y :: l => if same y x then dedup_from x l else y :: dedup_from y l end.
Definition dedup_by (l : list A) : list A := match l with [] => [] | x :: l => x :: dedup_from x l end.

Lemma dedup_from_sublist x l : sublist (dedup_from x l) l.
Proof.
  revert x. induction l as [|y l IH]; intros x; [constructor|]. cbn. destruct (same y x); [by apply sublist_cons|by apply sublist_skip].
Qed.

Lemma dedup_by_sublist l : sublist (dedup_by l) l.
Proof. destruct l as [|x l]; [constructor|]. apply sublist_skip, dedup_from_sublist. Qed.

Lemma dedup_from_twice x l : dedup_from x (dedup_from x l) = dedup_from x l.
Proof.
  revert x. induction l as [|y l IH]; intros x; [done|]. cbn. destruct (same y x) eqn:E; [done|]. cbn. by rewrite E, IH.
Qed.

Lemma dedup_by_twice l : dedup_by (dedup_by l) = dedup_by l.
Proof. destruct l as [|x l]; [done|]. cbn. by rewrite dedup_from_twice. Qed.

Lemma dedup_by_nil l : dedup_by l = [] <-> l = [].
Proof. by destruct l. Qed.

(** Every element is there or the same as one that is. *)
Lemma dedup_from_covers (HE : Equivalence (fun x y => same x y = true)) x l y : y ∈ l -> same y x = true \/ exists z, z ∈ dedup_from x l /\ same y z = true.
Proof.
  revert x. induction l as [|a l IH]; intros x Hy; [by apply not_elem_of_nil in Hy|]. cbn.
  apply elem_of_cons in Hy as [->|Hy].
  - destruct (same a x) eqn:E; [by left|]. right. exists a. split; [left|]. apply HE.
  - destruct (same a x) eqn:E.
    + by apply IH.
    + destruct (IH a Hy) as [H|(z & Hz & H)]; right; [exists a; split; [left|done]|exists z; split; [by right|done]].
Qed.

Lemma dedup_by_covers (HE : Equivalence (fun x y => same x y = true)) l y : y ∈ l -> exists z, z ∈ dedup_by l /\ same y z = true.
Proof.
  destruct l as [|x l]; [by intros H%not_elem_of_nil|]. intros [->|Hy]%elem_of_cons.
  - exists x. split; [left|apply HE].
  - destruct (dedup_from_covers HE x l y Hy) as [H|(z & Hz & H)]; [exists x; split; [left|done]|exists z; split; [by right|done]].
Qed.
End Dedup.

Lemma sublist_sorted {A} (R : A -> A -> Prop) (l1 l2 : list A) : sublist l1 l2 -> StronglySorted R l2 -> StronglySorted R l1.
Proof.
  induction 1 as [|x l1 l2 Hs IH|x l1 l2 Hs IH]; [done| |]; intros H; inversion H as [|? ? Hl Hx]; subst; [|by apply IH].
  constructor; [by apply IH|]. apply Forall_forall. intros y Hy. apply (proj1 (Forall_forall _ _) Hx). eapply elem_of_submseteq; [exact Hy|by apply sublist_submseteq].
Qed.

(** ** Ordered maps *)

Section BTree.
Context {K : Type} `{!EqDecision K, !Countable K} (cmp : K -> K -> comparison) `{!TotalOrd cmp}.

(** The entries of a map in the order of their keys. *)
Definition btree_list {V} (m : gmap K V) : list (K * V) := sort_by (fun a b => cmp (fst a) (fst b)) (map_to_list m).

Lemma elem_of_btree {V} (m : gmap K V) k v : (k, v) ∈ btree_list m <-> m !! k = Some v.
Proof. unfold btree_list. rewrite sort_by_elem. apply elem_of_map_to_list. Qed.

Lemma btree_nodup {V} (m : gmap K V) : NoDup (btree_list m).*1.
Proof. unfold btree_list. rewrite sort_by_perm. apply NoDup_fst_map_to_list. Qed.

(** A list by key with the entries of a map is its list. *)
Lemma btree_unique {V} (m : gmap K V) l : StronglySorted (cmp_le (fun a b => cmp (fst a) (fst b))) l -> NoDup l.*1 ->
  (forall k v, (k, v) ∈ l <-> m !! k = Some v) -> l = btree_list m.
Proof.
  intros Hs Hn Hl. assert (NoDup l) as Hnl by (by eapply NoDup_fmap_1).
  assert (btree_list m ≡ₚ l) as Hp.
  { apply NoDup_Permutation; [by eapply NoDup_fmap_1, btree_nodup|done|]. intros [k v]. by rewrite Hl, elem_of_btree. }
  assert (StronglySorted (cmp_le (fun a b => cmp (fst a) (fst b))) (btree_list m)) as Hb by (apply sort_by_sorted; apply _).
  revert Hs Hb Hn Hp. generalize (btree_list m) as l'. clear Hl Hnl. induction l as [|[k v] l IH]; intros l' Hs Hb Hn Hp.
  - symmetry. by apply Permutation_nil_r.
  - destruct l' as [|[k' v'] l']; [by apply Permutation_nil_l in Hp|].
    inversion Hs as [|? ? Hs' Hk]; inversion Hb as [|? ? Hb' Hk']; subst.
    assert ((k, v) = (k', v')) as E.
    { assert ((k, v) ∈ (k', v') :: l') as H1 by (rewrite Hp; left). assert ((k', v') ∈ (k, v) :: l) as H2 by (rewrite <-Hp; left).
      apply elem_of_cons in H1 as [H1|H1]; [done|]. apply elem_of_cons in H2 as [H2|H2]; [done|].
      pose proof (proj1 (Forall_forall _ _) Hk _ H2) as L1. pose proof (proj1 (Forall_forall _ _) Hk' _ H1) as L2.
      unfold cmp_le in L1, L2. cbn in L1, L2. rewrite (cmp_flip cmp k k') in L2.
      assert (k = k') as -> by (apply (cmp_eq cmp); by destruct (cmp k k')).
      exfalso. cbn in Hn. apply NoDup_cons in Hn as [Hn _]. apply Hn, list_elem_of_fmap. by exists (k', v'). }
    injection E as <- <-. f_equal. apply IH; [done|done| |by eapply Permutation_cons_inv].
    cbn in Hn. by apply NoDup_cons in Hn as [_ ?].
Qed.
End BTree.
