(* ===== verification/Origin.v ===== *)
(** * Where content comes from: [kingfisher-core/src/origin.rs]

    Paths, the origins of a blob and the non-empty sets of them. A path is its
    list of components, which is what [Path] compares and hashes by (Unix). *)

From Stdlib Require Import ZArith Lia Bool.
From stdpp Require Import base list numbers option gmap.
From S2P Require Import Prelude Text Ordered GitRepo.
Open Scope kf_scope.

(** ** Paths *)

Inductive PathComponent := RootDir | CurDir | ParentDir | Normal (name : bytes).
#[export] Instance path_component_eq_dec : EqDecision PathComponent.
Proof. solve_decision. Defined.
#[export] Instance path_component_countable : Countable PathComponent.
Proof.
  apply (inj_countable'
    (fun c => match c with RootDir => inl 0 | CurDir => inl 1 | ParentDir => inl 2 | Normal n => inr n end)
    (fun x => match x with inl 0 => RootDir | inl 1 => CurDir | inl _ => ParentDir | inr n => Normal n end)).
  by intros [].
Defined.

Abbreviation Path := (list PathComponent).

(** [Path::starts_with] and [Path::strip_prefix] compare whole components. *)
Fixpoint path_strip_prefix (prefix p : Path) : option Path :=
  match prefix, p with
  | [], _ => Some p
  | a :: prefix, b :: p => if decide (a = b) then path_strip_prefix prefix p else None
  | _ :: _, [] => None
  end.
Definition path_starts_with (p prefix : Path) : bool :=
  match path_strip_prefix prefix p with Some _ => true | None => false end.
Definition file_name (p : Path) : option PathComponent :=
  match last p with Some (Normal n) => Some (Normal n) | _ => None end.
Definition parent (p : Path) : option Path :=
  match last p with
  | None | Some RootDir => None
  | Some _ => Some (take (length p - 1) p)
  end.

Definition component_bytes (c : PathComponent) : bytes :=
  match c with RootDir => [] | CurDir => bs "." | ParentDir => bs ".." | Normal n => n end.
Fixpoint join_slash (l : list bytes) : bytes :=
  match l with [] => [] | [x] => x | x :: l => x ++ bc "/" :: join_slash l end.
(** The text of a path: a lone root is a slash. *)
Definition path_bytes (p : Path) : bytes :=
  match p with [RootDir] => bs "/" | _ => join_slash (map component_bytes p) end.

(** The order of [Path]: lexicographic by component. *)
Definition component_rank (c : PathComponent) : Z := match c with RootDir => 0 | CurDir => 1 | ParentDir => 2 | Normal _ => 3 end.
Definition component_cmp (a b : PathComponent) : comparison :=
  match a, b with
  | Normal x, Normal y => bytes_cmp x y
  | _, _ => (component_rank a ?= component_rank b)%Z
  end.
Fixpoint path_cmp (a b : Path) : comparison :=
  match a, b with
  | [], [] => Eq | [], _ => Lt | _, [] => Gt
  | x :: a, y :: b => then_with (component_cmp x y) (path_cmp a b)
  end.

#[export] Instance component_total : TotalOrd component_cmp.
Proof.
  split; [split|].
  - intros [| | |x] [| | |y]; try done. apply (cmp_flip bytes_cmp).
  - intros [| | |x] [| | |y] [| | |z]; cbn; try done; try (by destruct (bytes_cmp _ _)). apply (cmp_comp bytes_cmp).
  - intros [| | |x] [| | |y]; try done. cbn. intros H. f_equal. by apply (cmp_eq bytes_cmp).
Qed.

#[export] Instance path_total : TotalOrd path_cmp.
Proof.
  split; [split|].
  - induction x as [|a x IH]; intros [|b y]; try done. cbn. rewrite (cmp_flip component_cmp a b), IH. by destruct (component_cmp a b).
  - induction x as [|a x IH]; intros [|b y] [|c z]; cbn; try done; try (by destruct (then_with _ _)).
    pose proof (cmp_comp component_cmp a b c) as H. specialize (IH y z).
    destruct (component_cmp a b), (component_cmp b c), (path_cmp x y), (path_cmp y z); cbn in *; try done; by rewrite H.
  - induction x as [|a x IH]; intros [|b y]; try done. cbn. intros H.
    destruct (component_cmp a b) eqn:E; try done. apply (cmp_eq component_cmp) in E as ->. f_equal. by apply IH.
Qed.

(** ** Origins *)

#[export] Instance time_eq_dec : EqDecision Time.
Proof. solve_decision. Defined.
#[export] Instance commit_info_eq_dec : EqDecision CommitInfo.
Proof. solve_decision. Defined.

Record CommitOrigin := { origin_commit : CommitInfo; blob_path : bytes }.
#[export] Instance commit_origin_eq_dec : EqDecision CommitOrigin.
Proof. solve_decision. Defined.
Record GitRepoOrigin := { repo_path : Path; first_commit : option CommitOrigin }.
#[export] Instance git_repo_origin_eq_dec : EqDecision GitRepoOrigin.
Proof. solve_decision. Defined.

(** An extended origin is a JSON value, here its text. *)
Inductive Origin := File (path : Path) | GitRepo (g : GitRepoOrigin) | Extended (value : bytes).
#[export] Instance origin_eq_dec : EqDecision Origin.
Proof. solve_decision. Defined.

Record OriginSet := { origin : Origin; more_provenance : list Origin }.
#[export] Instance origin_set_eq_dec : EqDecision OriginSet.
Proof. solve_decision. Defined.

Definition origins (s : OriginSet) : list Origin := origin s :: more_provenance s.
Definition origin_set_len (s : OriginSet) : nat := 1 + length (more_provenance s).
Definition single (o : Origin) : OriginSet := {| origin := o; more_provenance := [] |}.

Definition has_commit (g : GitRepoOrigin) : bool := match first_commit g with Some _ => true | None => false end.

(** The repositories some origin of the list knows a commit of. *)
Definition detailed (l : list Origin) : list Path :=
  omap (fun o => match o with GitRepo g => if has_commit g then Some (repo_path g) else None | _ => None end) l.

Definition keeps_origin (repos : list Path) (o : Origin) : bool :=
  match o with
  | GitRepo g => has_commit g || negb (bool_decide (repo_path g ∈ repos))
  | File _ | Extended _ => true
  end.

(** [OriginSet::new]; [None]: its [unwrap] of an empty iterator, which
    [origin_set_new_total] excludes. *)
Definition origin_set_new (o : Origin) (more : list Origin) : option OriginSet :=
  match List.filter (keeps_origin (detailed (o :: more))) (o :: more) with
  | [] => None
  | o :: more => Some {| origin := o; more_provenance := more |}
  end.

Definition try_from_iter (l : list Origin) : option OriginSet :=
  match l with [] => None | o :: more => origin_set_new o more end.

(** ** Remote URLs *)

(** [compute_url] of the remote the configuration names, if any. *)
Definition compute_url (config : option bytes) : option bytes :=
  match config with
  | None => None
  | Some url =>
    if starts_with (bs "http://") url || starts_with (bs "https://") url then Some (from_utf8_lossy url)
    else if starts_with (bs "git@") url then
      match strip_prefix (bs "git@") (from_utf8_lossy url) with
      | None => None
      | Some stripped =>
        match list_find (fun b => b = bc ":") stripped with
        | None => None
        | Some (i, _) => Some (bs "https://" ++ take i stripped ++ bs "/" ++ drop (S i) stripped)
        end
      end
    else None
  end.

(** ** Properties *)

Lemma detailed_spec l p : p ∈ detailed l <-> exists g, GitRepo g ∈ l /\ has_commit g = true /\ repo_path g = p.
Proof.
  unfold detailed. rewrite list_elem_of_omap. split.
  - intros (o & Ho & E). destruct o as [|g|]; try done. destruct (has_commit g) eqn:Hg; [|done]. injection E as <-. eauto.
  - intros (g & Hg & Hc & <-). exists (GitRepo g). by rewrite Hc.
Qed.

(** An origin that knows its commit is never redundant. *)
Lemma keeps_detailed repos g : has_commit g = true -> keeps_origin repos (GitRepo g) = true.
Proof. intros H. cbn. by rewrite H. Qed.

Lemma origin_set_new_total o more : is_Some (origin_set_new o more).
Proof.
  unfold origin_set_new. destruct (List.filter _ _) eqn:E; [|eauto]. exfalso.
  assert (forall x, x ∈ o :: more -> keeps_origin (detailed (o :: more)) x = false) as Hno.
  { intros x Hx. destruct (keeps_origin _ x) eqn:Hk; [|done]. apply list_elem_of_In in Hx.
    pose proof (conj Hx Hk) as H. apply filter_In in H. by rewrite E in H. }
  pose proof (Hno o ltac:(left)) as Ho. destruct o as [|g|]; cbn [keeps_origin] in Ho; try done.
  apply orb_false_iff in Ho as [_ Ho]. apply negb_false_iff, bool_decide_eq_true, detailed_spec in Ho as (g' & Hg' & Hc & _).
  pose proof (Hno _ Hg') as H. by rewrite keeps_detailed in H.
Qed.

(** What is left out is known with its commit. *)
Lemma origin_set_new_keeps o more s x : origin_set_new o more = Some s -> x ∈ o :: more ->
  x ∈ origins s \/ exists g g', x = GitRepo g /\ GitRepo g' ∈ origins s /\ repo_path g' = repo_path g /\ has_commit g' = true.
Proof.
  unfold origin_set_new. set (l := o :: more). intros H Hx. assert (origins s = List.filter (keeps_origin (detailed l)) l) as E
    by (destruct (List.filter _ l); [done|by injection H as <-]).
  rewrite E. destruct (keeps_origin (detailed l) x) eqn:Hk.
  - left. apply list_elem_of_In, filter_In. split; [by apply list_elem_of_In|done].
  - right. destruct x as [|g|]; try done. cbn [keeps_origin] in Hk. apply orb_false_iff in Hk as [_ Hk].
    apply negb_false_iff, bool_decide_eq_true, detailed_spec in Hk as (g' & Hg' & Hc & Hp).
    exists g, g'. repeat split; try done. apply list_elem_of_In, filter_In. split; [by apply list_elem_of_In|by apply keeps_detailed].
Qed.

(** A set made by the constructors: building it again changes nothing. *)
Definition normal (s : OriginSet) : Prop := origin_set_new (origin s) (more_provenance s) = Some s.

Lemma single_normal o : normal (single o).
Proof.
  unfold normal, origin_set_new. cbn [origin more_provenance single]. assert (keeps_origin (detailed [o]) o = true) as E.
  { destruct o as [|g|]; try done. cbn. destruct (has_commit g) eqn:Hg; [done|]. cbn. rewrite bool_decide_false; [done|]. by apply not_elem_of_nil. }
  cbn [List.filter]. by rewrite E.
Qed.

Lemma origin_set_new_normal o more s : origin_set_new o more = Some s -> normal s.
Proof.
  unfold normal, origin_set_new. set (l := o :: more). intros H.
  assert (origins s = List.filter (keeps_origin (detailed l)) l) as E
    by (destruct (List.filter _ l); [done|by injection H as <-]).
  fold (origins s). rewrite filter_all_true; [by destruct s|]. intros x Hx. rewrite E in Hx. apply filter_In in Hx as [Hx Hk].
  destruct x as [|g|]; try done. cbn [keeps_origin] in *. destruct (has_commit g) eqn:Hg; [done|]. cbn [orb] in *.
  apply negb_true_iff, bool_decide_eq_false. apply negb_true_iff, bool_decide_eq_false in Hk. intros Hin. apply Hk.
  apply detailed_spec in Hin as (g' & Hg' & Hc & Hp). apply detailed_spec. exists g'. split; [|done].
  rewrite E in Hg'. apply list_elem_of_In, filter_In in Hg' as [Hg' _]. by apply list_elem_of_In.
Qed.

Lemma normal_try_from_iter s : normal s -> try_from_iter (origins s) = Some s.
Proof. done. Qed.
