(* ===== verification/FindingsStore.v ===== *)
(** * The findings store: [src/findings_store.rs] and [src/findings_store/spill.rs]

    Findings are recorded in batches, deduplicated by a digest of what they found,
    pooled (one copy of each blob's metadata and each origin set), and between
    repositories written to a temporary file when spilling is on. Hashing, JSON,
    Unicode upper case and URL parsing are parameters. The link tables that only
    reports read, counts by rule name and the audit manifest are not modelled. *)

From Stdlib Require Import ZArith Lia Bool.
From stdpp Require Import base list numbers option gmap.
From S2P Require Import Prelude Text Location Rule Origin.
Open Scope kf_scope.

(** ** Findings *)

Abbreviation BlobId := bytes.
Record BlobMetadata := { blob_id : BlobId; num_bytes : Z; mime_essence : option bytes; language : option bytes }.
Record SerializableCapture := { cap_name : option bytes; match_number : Z; cap_start : nat; cap_end : nat; value : bytes }.

Inductive ValidationOutcome :=
| VerifiedActive | AssumedValid | LocallyDerived | InvalidMaterial | VerifiedInactive | Unavailable | Skipped | NotAttempted.

Record Match := {
  location : Location; captures : list SerializableCapture; match_blob_id : BlobId; finding_fingerprint : Z; rule : Rule;
  validation_response_body : bytes; validation_response_status : Z; validation_success : bool; validation_outcome : ValidationOutcome;
  calculated_entropy : Z; match_visible : bool; is_base64 : bool;
  dependent_captures : gmap bytes bytes; ambiguous_dependencies : gmap bytes Z; dependency_candidates : gmap bytes (list bytes)
}.

(** [FindingsStoreMessage] *)
Abbreviation Message := (OriginSet * BlobMetadata * Match)%type.

Inductive RepositoryId := Numeric (n : Z) | Opaque (s : bytes).

(** ** The temporary file *)

Record FindingsSpill := { file : bytes; count : nat }.
Inductive AppendOutcome := Written | StorageFull.

(** What the file system makes of a batch: all of it, or some bytes of it and an
    error, which may be that storage is full. *)
Inductive WriteResult := Complete | Partial (written : nat) (storage_full : bool).

(** [Record] of [spill.rs], written and read as a line of JSON. *)
Record SpillRecord := {
  r_origins : list Origin; r_blob : BlobMetadata; r_rule_id : bytes; r_match_blob_id : BlobId; r_location : Location;
  r_captures : list SerializableCapture; r_finding_fingerprint : Z; r_validation_response_body : bytes;
  r_validation_response_status : Z; r_validation_success : bool; r_validation_outcome : ValidationOutcome;
  r_calculated_entropy : Z; r_visible : bool; r_is_base64 : bool;
  r_dependent_captures : gmap bytes bytes; r_ambiguous_dependencies : gmap bytes Z; r_dependency_candidates : gmap bytes (list bytes)
}.

Definition spill_message (msg : Message) : SpillRecord :=
  let '(o, b, m) := msg in
  {| r_origins := origins o; r_blob := b; r_rule_id := id (rule m); r_match_blob_id := match_blob_id m; r_location := location m;
     r_captures := captures m; r_finding_fingerprint := finding_fingerprint m; r_validation_response_body := validation_response_body m;
     r_validation_response_status := validation_response_status m; r_validation_success := validation_success m;
     r_validation_outcome := validation_outcome m; r_calculated_entropy := calculated_entropy m; r_visible := match_visible m;
     r_is_base64 := is_base64 m; r_dependent_captures := dependent_captures m;
     r_ambiguous_dependencies := ambiguous_dependencies m; r_dependency_candidates := dependency_candidates m |}.

(** The rules by id; of several with one id the last. *)
Definition rules_by_id (rules : list Rule) : gmap bytes Rule := fold_left (fun m r => <[id r := r]> m) rules ∅.

Definition into_message (r : SpillRecord) (rules : gmap bytes Rule) : option Message :=
  match rules !! r_rule_id r with
  | None => None
  | Some rl =>
    match try_from_iter (r_origins r) with
    | None => None
    | Some o =>
      Some (o, r_blob r,
        {| location := r_location r; captures := r_captures r; match_blob_id := r_match_blob_id r;
           finding_fingerprint := r_finding_fingerprint r; rule := rl;
           validation_response_body := r_validation_response_body r; validation_response_status := r_validation_response_status r;
           validation_success := r_validation_success r; validation_outcome := r_validation_outcome r;
           calculated_entropy := r_calculated_entropy r; match_visible := r_visible r; is_base64 := r_is_base64 r;
           dependent_captures := r_dependent_captures r; ambiguous_dependencies := r_ambiguous_dependencies r;
           dependency_candidates := r_dependency_candidates r |})
    end
  end.

(** ** The store *)

Record FindingsStore := {
  spill : option FindingsSpill; rules : list Rule; matches : list Message; index_map : gmap (BlobId * (nat * nat)) nat;
  blobs : gset BlobId; dedup_exact : gset bytes; blob_scoped_dependency_rule_ids : gset bytes;
  blob_meta : gmap BlobId BlobMetadata; origin_meta : gmap Z OriginSet;
  repo_links : gmap Path bytes; repo_ids : gmap bytes RepositoryId
}.

Definition store_new : FindingsStore :=
  {| spill := None; rules := []; matches := []; index_map := ∅; blobs := ∅; dedup_exact := ∅; blob_scoped_dependency_rule_ids := ∅;
     blob_meta := ∅; origin_meta := ∅; repo_links := ∅; repo_ids := ∅ |}.

(** [enable_spilling], with or without room for a temporary file. *)
Definition enable_spilling (s : FindingsStore) (storage_full : bool) : FindingsStore :=
  match spill s with
  | Some _ => s
  | None =>
    if storage_full then s
    else {| spill := Some {| file := []; count := 0 |}; rules := rules s; matches := matches s; index_map := index_map s; blobs := blobs s;
            dedup_exact := dedup_exact s; blob_scoped_dependency_rule_ids := blob_scoped_dependency_rule_ids s;
            blob_meta := blob_meta s; origin_meta := origin_meta s; repo_links := repo_links s; repo_ids := repo_ids s |}
  end.

(** The store with another working set and another spill. *)
Definition with_working (s : FindingsStore) (sp : option FindingsSpill) (w : FindingsStore) : FindingsStore :=
  {| spill := sp; rules := rules s; matches := matches w; index_map := index_map w; blobs := blobs s; dedup_exact := dedup_exact s;
     blob_scoped_dependency_rule_ids := blob_scoped_dependency_rule_ids s; blob_meta := blob_meta w; origin_meta := origin_meta w;
     repo_links := repo_links s; repo_ids := repo_ids s |}.

Definition span_key (m : Match) : nat * nat := let sp := loc_offset_span (location m) in (span_start sp, span_end sp).

Inductive Outcome := Ok | Err.

Section Store.
Context (hash : bytes -> bytes) (origin_fp : OriginSet -> Z) (to_uppercase : bytes -> bytes) (hex : BlobId -> bytes).
Context (dependencies_json : gmap bytes bytes -> gmap bytes Z -> gmap bytes (list bytes) -> bytes).
Context (link_host : bytes -> option bytes) (scope_json : bytes -> RepositoryId -> bytes).
Context (to_json : SpillRecord -> bytes) (from_json : bytes -> option SpillRecord).

(** ** Recording *)

Definition find_capture (p : SerializableCapture -> bool) (l : list SerializableCapture) : option bytes := value <$> List.find p l.
Definition snippet (m : Match) : bytes :=
  match find_capture (fun c => match cap_name c with None => (match_number c =? 0)%Z | Some _ => false end) (captures m) with
  | Some v => v
  | None =>
    match find_capture (fun c => bool_decide (cap_name c = Some (bs "TOKEN"))) (captures m) with
    | Some v => v
    | None => default [] (value <$> head (captures m))
    end
  end.

Definition dedup_origin_kind (o : OriginSet) : bytes :=
  if existsb (fun o => match o with Extended _ => true | _ => false end) (origins o) then bs "ext" else bs "file_git".

Definition repo_identity_url (url : bytes) : bytes :=
  let url := trim_end_while (fun b => b ==? bc "/") url in default url (strip_suffix (bs ".git") url).
Definition repo_id (s : FindingsStore) (url : bytes) : option RepositoryId := repo_ids s !! repo_identity_url url.

Definition repository_dedup_scope (s : FindingsStore) (o : OriginSet) : option bytes :=
  head (omap (fun o =>
    match o with
    | GitRepo g =>
      match repo_links s !! repo_path g with
      | None => None
      | Some link =>
        match repo_id s link, link_host link with
        | Some i, Some host => Some (scope_json host i)
        | _, _ => None
        end
      end
    | _ => None
    end) (origins o)).

Definition key_string (s : FindingsStore) (msg : Message) : bytes :=
  let '(o, b, m) := msg in
  let rule_id := to_uppercase (id (rule m)) in
  rule_id ++ bs "|" ++ dedup_origin_kind o ++ bs "|" ++ snippet m
  ++ (if bool_decide (rule_id ∈ blob_scoped_dependency_rule_ids s) then bs "|" ++ hex (blob_id b) else [])
  ++ (match depends_on_rule (rule m) with
      | [] => []
      | _ => dependencies_json (dependent_captures m) (ambiguous_dependencies m) (dependency_candidates m)
      end)
  ++ (match repository_dedup_scope s o with Some scope => bs "|repository:" ++ scope | None => [] end).

(** One finding past the duplicate filter: pool, count, index. *)
Definition record_kept (s : FindingsStore) (msg : Message) : FindingsStore * nat :=
  let '(o, b, m) := msg in
  let blob_arc := default b (blob_meta s !! blob_id b) in
  let fp := origin_fp o in
  let origin_arc := default o (origin_meta s !! fp) in
  ({| spill := spill s; rules := rules s; matches := matches s ++ [(origin_arc, blob_arc, m)];
      index_map := <[(blob_id blob_arc, span_key m) := length (matches s)]> (index_map s);
      blobs := {[blob_id blob_arc]} ∪ blobs s; dedup_exact := dedup_exact s;
      blob_scoped_dependency_rule_ids := blob_scoped_dependency_rule_ids s;
      blob_meta := <[blob_id b := blob_arc]> (blob_meta s); origin_meta := <[fp := origin_arc]> (origin_meta s);
      repo_links := repo_links s; repo_ids := repo_ids s |},
   if bool_decide (blob_id blob_arc ∈ blobs s) then 0 else 1).

Definition insert_digest (s : FindingsStore) (digest : bytes) : FindingsStore :=
  {| spill := spill s; rules := rules s; matches := matches s; index_map := index_map s; blobs := blobs s;
     dedup_exact := {[digest]} ∪ dedup_exact s; blob_scoped_dependency_rule_ids := blob_scoped_dependency_rule_ids s;
     blob_meta := blob_meta s; origin_meta := origin_meta s; repo_links := repo_links s; repo_ids := repo_ids s |}.

Fixpoint record (s : FindingsStore) (batch : list Message) (dedup : bool) : FindingsStore * nat :=
  match batch with
  | [] => (s, 0)
  | msg :: batch =>
    let digest := hash (key_string s msg) in
    if dedup && bool_decide (digest ∈ dedup_exact s) then record s batch dedup
    else
      let '(s, added) := record_kept (if dedup then insert_digest s digest else s) msg in
      let '(s, more) := record s batch dedup in
      (s, added + more)
  end.

(** ** Spilling *)

Definition write_records (msgs : list Message) : bytes := concat (map (fun msg => to_json (spill_message msg) ++ [10%Z]) msgs).

Definition append (sp : FindingsSpill) (msgs : list Message) (r : WriteResult) : FindingsSpill * option AppendOutcome :=
  let offset := length (file sp) in
  match r with
  | Complete => ({| file := file sp ++ write_records msgs; count := count sp + length msgs |}, Some Written)
  | Partial written full =>
    ({| file := take offset (file sp ++ take written (write_records msgs)); count := count sp |},
     if full then Some StorageFull else None)
  end.

Definition spill_clear (sp : FindingsSpill) : FindingsSpill := {| file := []; count := 0 |}.

(** [read_batches] handing each batch of 1024 findings to a store. The fuel bounds
    the number of lines. *)
Fixpoint read_loop (fuel : nat) (l : bytes) (rules : gmap bytes Rule) (batch : list Message) (n : nat) (s : FindingsStore) :
    option (list Message * nat * FindingsStore) :=
  match fuel with
  | 0 => None
  | S fuel =>
    match l with
    | [] => Some (batch, n, s)
    | _ =>
      let len := default (length l) (line_len l) in
      match from_json (take len l) with
      | None => None
      | Some r =>
        match into_message r rules with
        | None => None
        | Some msg =>
          let batch := batch ++ [msg] in
          if length batch =? 1024
          then read_loop fuel (drop len l) rules [] (S n) (fst (record s batch false))
          else read_loop fuel (drop len l) rules batch (S n) s
        end
      end
    end
  end.
Definition read_batches (sp : FindingsSpill) (rules : list Rule) (s : FindingsStore) : option FindingsStore :=
  match read_loop (S (length (file sp))) (file sp) (rules_by_id rules) [] 0 s with
  | None => None
  | Some (batch, n, s) =>
    if n =? count sp then Some (match batch with [] => s | _ => fst (record s batch false) end) else None
  end.

Definition restore_spilled_with_cleanup (s : FindingsStore) (truncate : bool) : FindingsStore * Outcome :=
  match spill s with
  | None => (s, Ok)
  | Some sp =>
    if count sp =? 0 then (s, Ok)
    else
      match read_batches sp (rules s) store_new with
      | None => (s, Err)
      | Some restored =>
        let restored := fold_left (fun restored msg => fst (record restored [msg] false)) (matches s) restored in
        (with_working s (Some (if truncate then spill_clear sp else sp)) restored, Ok)
      end
  end.
Definition restore_spilled (s : FindingsStore) : FindingsStore * Outcome := restore_spilled_with_cleanup s true.

Definition spill_pending (s : FindingsStore) (r : WriteResult) : FindingsStore * Outcome :=
  match spill s with
  | None => (s, Ok)
  | Some sp =>
    match matches s with
    | [] => (s, Ok)
    | _ =>
      match append sp (matches s) r with
      | (sp, None) => (with_working s (Some sp) s, Err)
      | (sp, Some StorageFull) =>
        match restore_spilled_with_cleanup (with_working s (Some sp) s) false with
        | (s, Err) => (s, Err)
        | (s, Ok) => (with_working s None s, Ok)
        end
      | (sp, Some Written) => (with_working s (Some sp) store_new, Ok)
      end
    end
  end.

(** ** The working set *)

(** [assert_restored]: reading the working set while findings are spilled panics. *)
Definition assert_restored (s : FindingsStore) : bool :=
  match spill s with None => true | Some sp => count sp =? 0 end.
Definition get_matches (s : FindingsStore) : option (list Message) := if assert_restored s then Some (matches s) else None.

Definition set_validation (u m : Match) : Match :=
  {| location := location m; captures := captures m; match_blob_id := match_blob_id m; finding_fingerprint := finding_fingerprint m;
     rule := rule m; validation_response_body := validation_response_body u;
     validation_response_status := validation_response_status u; validation_success := validation_success u;
     validation_outcome := validation_outcome u; calculated_entropy := calculated_entropy m; match_visible := match_visible m;
     is_base64 := is_base64 m; dependent_captures := dependent_captures m; ambiguous_dependencies := ambiguous_dependencies m;
     dependency_candidates := dependency_candidates m |}.

Definition with_matches (s : FindingsStore) (l : list Message) : FindingsStore :=
  {| spill := spill s; rules := rules s; matches := l; index_map := index_map s; blobs := blobs s; dedup_exact := dedup_exact s;
     blob_scoped_dependency_rule_ids := blob_scoped_dependency_rule_ids s; blob_meta := blob_meta s; origin_meta := origin_meta s;
     repo_links := repo_links s; repo_ids := repo_ids s |}.

Definition update_one (s : FindingsStore) (u : Message) : FindingsStore :=
  let updated := snd u in
  match index_map s !! (match_blob_id updated, span_key updated) with
  | None => s
  | Some i => with_matches s (alter (fun '(o, b, m) => (o, b, set_validation updated m)) i (matches s))
  end.
Definition update_matches_in_place (s : FindingsStore) (updates : list Message) : FindingsStore := fold_left update_one updates s.

Definition index_step (x : gmap (BlobId * (nat * nat)) nat) (e : nat * Message) : gmap (BlobId * (nat * nat)) nat :=
  <[(blob_id (snd (fst (snd e))), span_key (snd (snd e))) := fst e]> x.
Definition replace_matches (s : FindingsStore) (l : list Message) : FindingsStore :=
  {| spill := spill s; rules := rules s; matches := l; index_map := fold_left index_step (enumerate l) ∅;
     blobs := list_to_set (map (fun msg => blob_id (snd (fst msg))) l); dedup_exact := dedup_exact s;
     blob_scoped_dependency_rule_ids := blob_scoped_dependency_rule_ids s; blob_meta := blob_meta s; origin_meta := origin_meta s;
     repo_links := repo_links s; repo_ids := repo_ids s |}.

Definition record_rules (s : FindingsStore) (l : list Rule) : FindingsStore :=
  {| spill := spill s; rules := l; matches := matches s; index_map := index_map s; blobs := blobs s; dedup_exact := dedup_exact s;
     blob_scoped_dependency_rule_ids :=
       list_to_set (omap (fun dependency =>
         match List.find (fun candidate => bytes_eqb (id candidate) (dep_rule_id dependency)) l with
         | Some r => if negb (visible r) then Some (to_uppercase (dep_rule_id dependency)) else None
         | None => None
         end) (flat_map dependencies l));
     blob_meta := blob_meta s; origin_meta := origin_meta s; repo_links := repo_links s; repo_ids := repo_ids s |}.

Fixpoint chunks {A} (fuel n : nat) (l : list A) : list (list A) :=
  match fuel, l with
  | S fuel, _ :: _ => take n l :: chunks fuel n (drop n l)
  | _, _ => []
  end.
Definition with_links (s : FindingsStore) (links : gmap Path bytes) (ids : gmap bytes RepositoryId) : FindingsStore :=
  {| spill := spill s; rules := rules s; matches := matches s; index_map := index_map s; blobs := blobs s; dedup_exact := dedup_exact s;
     blob_scoped_dependency_rule_ids := blob_scoped_dependency_rule_ids s; blob_meta := blob_meta s; origin_meta := origin_meta s;
     repo_links := links; repo_ids := ids |}.

(** [merge_from]; [None]: the other store's findings are not restored. *)
Definition merge_from (s other : FindingsStore) (dedup : bool) : option FindingsStore :=
  match get_matches other with
  | None => None
  | Some l =>
    let s := with_links s (repo_links s ∪ repo_links other) (repo_ids s ∪ repo_ids other) in
    Some (fold_left (fun s batch => fst (record s batch dedup)) (chunks (length l) 1024 l) s)
  end.

Definition register_repo_link (s : FindingsStore) (p : Path) (link : bytes) : FindingsStore :=
  with_links s (<[p := link]> (repo_links s)) (repo_ids s).
Definition register_repo_id (s : FindingsStore) (url : bytes) (i : RepositoryId) : FindingsStore :=
  with_links s (repo_links s) (<[repo_identity_url url := i]> (repo_ids s)).
Definition copy_repo_metadata_from (s other : FindingsStore) (root : Path) : FindingsStore :=
  match repo_links other !! root with
  | None => s
  | Some link =>
    let s := register_repo_link s root link in
    match repo_id other link with Some i => register_repo_id s link i | None => s end
  end.

Definition get_num_matches (s : FindingsStore) : option nat :=
  (fun l => length (List.filter (fun msg => match_visible (snd msg)) l)) <$> get_matches s.

(** ** Pooling *)

(** The pools of blob metadata and of origin sets. *)
Abbreviation Pools := (gmap BlobId BlobMetadata * gmap Z OriginSet)%type.

Definition pool_one (p : Pools) (msg : Message) : Pools * Message :=
  let '(o, b, m) := msg in
  let b := default b (fst p !! blob_id b) in
  let fp := origin_fp o in
  let o := default o (snd p !! fp) in
  ((<[blob_id b := b]> (fst p), <[fp := o]> (snd p)), (o, b, m)).
Fixpoint pool (p : Pools) (l : list Message) : Pools * list Message :=
  match l with
  | [] => (p, [])
  | msg :: l => let '(p, msg) := pool_one p msg in let '(p, l) := pool p l in (p, msg :: l)
  end.

(** Pools are keyed by what they hold. *)
Definition keyed (p : Pools) : Prop :=
  (forall i b, fst p !! i = Some b -> blob_id b = i) /\ (forall h o, snd p !! h = Some o -> origin_fp o = h).

Lemma keyed_empty : keyed (∅, ∅).
Proof. split; intros ? ? H; cbn in H; by rewrite lookup_empty in H. Qed.

Lemma pooled_blob p b : keyed p -> blob_id (default b (fst p !! blob_id b)) = blob_id b.
Proof. intros [H _]. destruct (fst p !! blob_id b) as [b'|] eqn:E; [by apply (H _ b')|done]. Qed.

Lemma pooled_origin p o : keyed p -> origin_fp (default o (snd p !! origin_fp o)) = origin_fp o.
Proof. intros [_ H]. destruct (snd p !! origin_fp o) as [o'|] eqn:E; [by apply (H _ o')|done]. Qed.

Lemma keyed_one p msg : keyed p -> keyed (fst (pool_one p msg)).
Proof.
  intros H. destruct msg as [[o b] m]. cbn. split; intros i x; cbn.
  - intros [[<- <-]|[_ Hx]]%lookup_insert_Some; [done|by apply H].
  - intros [[<- <-]|[_ Hx]]%lookup_insert_Some; [by apply pooled_origin|by apply H].
Qed.

Lemma pool_cons p msg l :
  pool p (msg :: l) = (fst (pool (fst (pool_one p msg)) l), snd (pool_one p msg) :: snd (pool (fst (pool_one p msg)) l)).
Proof. cbn [pool]. destruct (pool_one p msg) as [q x]. cbn. by destruct (pool q l). Qed.

Lemma keyed_pool l : forall p, keyed p -> keyed (fst (pool p l)).
Proof.
  induction l as [|msg l IH]; intros p H; [done|]. rewrite pool_cons. cbn [fst]. apply IH, keyed_one, H.
Qed.

Lemma pool_app l1 l2 p :
  pool p (l1 ++ l2) = (fst (pool (fst (pool p l1)) l2), snd (pool p l1) ++ snd (pool (fst (pool p l1)) l2)).
Proof.
  revert p. induction l1 as [|msg l1 IH]; intros p; [cbn; by destruct (pool p l2)|].
  rewrite <-app_comm_cons, !pool_cons, IH. done.
Qed.

(** What one pool knows another knows. *)
Definition below (q p : Pools) : Prop :=
  (forall i, fst p !! i = None -> fst q !! i = None) /\ (forall h, snd p !! h = None -> snd q !! h = None).

Lemma pool_pooled_one p q msg : keyed p -> keyed q -> below q p ->
  pool_one p (snd (pool_one q msg)) = pool_one p msg /\ below (fst (pool_one q msg)) (fst (pool_one p msg)).
Proof.
  intros Hp Hq [Hb Ho]. destruct msg as [[o b] m]. cbn. rewrite (pooled_blob q b Hq), (pooled_origin q o Hq), (pooled_blob p b Hp).
  assert (default (default b (fst q !! blob_id b)) (fst p !! blob_id b) = default b (fst p !! blob_id b)) as ->
    by (destruct (fst p !! blob_id b) eqn:E; [done|by rewrite (Hb _ E)]).
  assert (default (default o (snd q !! origin_fp o)) (snd p !! origin_fp o) = default o (snd p !! origin_fp o)) as ->
    by (destruct (snd p !! origin_fp o) eqn:E; [done|by rewrite (Ho _ E)]).
  rewrite (pooled_blob p b Hp). split; [done|]. split; cbn; intros i Hi; apply lookup_insert_None in Hi as [Hi Hne].
  - rewrite lookup_insert_ne by done. by apply Hb.
  - rewrite lookup_insert_ne by done. by apply Ho.
Qed.

(** Pooling twice is pooling once. *)
Lemma pool_pooled l : forall p q, keyed p -> keyed q -> below q p -> pool p (snd (pool q l)) = pool p l.
Proof.
  induction l as [|msg l IH]; intros p q Hp Hq Hb; [done|]. rewrite (pool_cons q). cbn [snd]. rewrite !pool_cons.
  destruct (pool_pooled_one p q msg Hp Hq Hb) as [-> Hb']. rewrite IH; [done| | |done]; by apply keyed_one.
Qed.

(** Two lists of findings that any pool makes the same. *)
Definition same_pooled (l1 l2 : list Message) : Prop := forall p, keyed p -> pool p l1 = pool p l2.

Lemma same_pooled_app l1 l2 k1 k2 : same_pooled l1 l2 -> same_pooled k1 k2 -> same_pooled (l1 ++ k1) (l2 ++ k2).
Proof. intros Hl Hk p Hp. rewrite !pool_app, (Hl p Hp), Hk; [done|]. by apply keyed_pool. Qed.

Lemma same_pooled_pool l : same_pooled (snd (pool (∅, ∅) l)) l.
Proof. intros p Hp. apply pool_pooled; [done|apply keyed_empty|]. by split; intros i _; apply lookup_empty. Qed.

Lemma pool_length l : forall p, length (snd (pool p l)) = length l.
Proof. induction l as [|msg l IH]; intros p; [done|]. rewrite pool_cons. cbn. by rewrite IH. Qed.

Lemma same_pooled_length l1 l2 : same_pooled l1 l2 -> length l1 = length l2.
Proof. intros H. by rewrite <-(pool_length l1 (∅, ∅)), (H _ keyed_empty), pool_length. Qed.

(** ** The working set *)

Definition index_of (l : list Message) : gmap (BlobId * (nat * nat)) nat := fold_left index_step (enumerate l) ∅.

(** The working set holds these findings, pooled and indexed. *)
Record working (s : FindingsStore) (l : list Message) : Prop := {
  working_matches : matches s = snd (pool (∅, ∅) l);
  working_pools : (blob_meta s, origin_meta s) = fst (pool (∅, ∅) l);
  working_index : index_map s = index_of (matches s)
}.

Lemma enumerate_app_one {A} (l : list A) x : enumerate (l ++ [x]) = enumerate l ++ [(length l, x)].
Proof.
  unfold enumerate. assert (forall k, enumerate_from k (l ++ [x]) = enumerate_from k l ++ [(k + length l, x)]) as H; [|by rewrite H].
  induction l as [|y l IH]; intros k; cbn; [by rewrite Nat.add_0_r|]. rewrite IH. by rewrite Nat.add_succ_r.
Qed.

Lemma index_of_app_one l o b m : index_of (l ++ [(o, b, m)]) = <[(blob_id b, span_key m) := length l]> (index_of l).
Proof. unfold index_of. by rewrite enumerate_app_one, fold_left_app. Qed.

Lemma working_new : working store_new [].
Proof. done. Qed.

Lemma working_ext s s' l : working s l -> matches s' = matches s -> index_map s' = index_map s -> blob_meta s' = blob_meta s ->
  origin_meta s' = origin_meta s -> working s' l.
Proof. intros [H1 H2 H3] E1 E2 E3 E4. split; congruence. Qed.

Lemma working_kept s l msg : working s l -> working (fst (record_kept s msg)) (l ++ [msg]).
Proof.
  intros [H1 H2 H3]. destruct msg as [[o b] m]. pose proof (keyed_pool l _ keyed_empty) as Hk. rewrite <-H2 in Hk.
  pose proof (pooled_blob _ b Hk) as Hb. cbn [fst] in Hb.
  assert (pool (∅, ∅) (l ++ [(o, b, m)]) = (fst (pool_one (blob_meta s, origin_meta s) (o, b, m)),
    matches s ++ [snd (pool_one (blob_meta s, origin_meta s) (o, b, m))])) as E by (by rewrite pool_app, <-H1, <-H2, pool_cons).
  split; [by rewrite E|rewrite E; cbn; by rewrite Hb|]. cbn [fst record_kept matches index_map]. rewrite H3. by rewrite index_of_app_one.
Qed.

Lemma record_cons s msg batch :
  fst (record s (msg :: batch) false) = fst (record (fst (record_kept s msg)) batch false).
Proof. cbn [record andb]. destruct (record_kept s msg) as [s' n]. cbn [fst]; by destruct (record s' batch false). Qed.

Lemma record_app l1 l2 s : fst (record s (l1 ++ l2) false) = fst (record (fst (record s l1 false)) l2 false).
Proof. revert s. induction l1 as [|msg l1 IH]; intros s; [done|]. by rewrite <-app_comm_cons, !record_cons, IH. Qed.

Lemma record_working k : forall s l, working s l -> working (fst (record s k false)) (l ++ k).
Proof.
  induction k as [|msg k IH]; intros s l H; [by rewrite app_nil_r|]. rewrite record_cons.
  replace (l ++ msg :: k) with ((l ++ [msg]) ++ k) by (by rewrite <-app_assoc). apply IH, working_kept, H.
Qed.

(** ** The duplicate filter *)

Definition set_dedup (s : FindingsStore) (digests : gset bytes) : FindingsStore :=
  {| spill := spill s; rules := rules s; matches := matches s; index_map := index_map s; blobs := blobs s; dedup_exact := digests;
     blob_scoped_dependency_rule_ids := blob_scoped_dependency_rule_ids s; blob_meta := blob_meta s; origin_meta := origin_meta s;
     repo_links := repo_links s; repo_ids := repo_ids s |}.

(** The findings of a batch that pass the filter, and the digests afterwards. *)
Fixpoint kept (key : Message -> bytes) (digests : gset bytes) (batch : list Message) : list Message * gset bytes :=
  match batch with
  | [] => ([], digests)
  | msg :: batch =>
    if decide (key msg ∈ digests) then kept key digests batch
    else let '(l, digests) := kept key ({[key msg]} ∪ digests) batch in (msg :: l, digests)
  end.

Definition digest_of (s : FindingsStore) (msg : Message) : bytes := hash (key_string s msg).

Lemma digest_frame s s' msg : blob_scoped_dependency_rule_ids s' = blob_scoped_dependency_rule_ids s ->
  repo_links s' = repo_links s -> repo_ids s' = repo_ids s -> digest_of s' msg = digest_of s msg.
Proof.
  intros E1 E2 E3. destruct msg as [[o b] m]. unfold digest_of, key_string, repository_dedup_scope, repo_id. by rewrite E1, E2, E3.
Qed.

Lemma record_kept_dedup s msg D :
  record_kept (set_dedup s D) msg = (set_dedup (fst (record_kept s msg)) D, snd (record_kept s msg)).
Proof. by destruct msg as [[o b] m]. Qed.

Lemma digest_record_kept s msg x : digest_of (fst (record_kept s msg)) x = digest_of s x.
Proof. apply digest_frame; by destruct msg as [[o b] m]. Qed.

Lemma record_filters batch : forall s key, (forall msg, digest_of s msg = key msg) ->
  fst (record s batch true) =
  fst (record (set_dedup s (snd (kept key (dedup_exact s) batch))) (fst (kept key (dedup_exact s) batch)) false).
Proof.
  induction batch as [|msg batch IH]; intros s key Hkey; [by destruct s|]. cbn [record kept andb]. fold (digest_of s msg). rewrite Hkey.
  destruct (decide (key msg ∈ dedup_exact s)) as [Hd|Hd]; [rewrite bool_decide_true by done|rewrite bool_decide_false by done]; [by apply IH|].
  change (insert_digest s (key msg)) with (set_dedup s ({[key msg]} ∪ dedup_exact s)). set (D := {[key msg]} ∪ dedup_exact s).
  rewrite record_kept_dedup. cbn [fst snd].
  destruct (record (set_dedup (fst (record_kept s msg)) D) batch true) as [s1 n1] eqn:E1. cbn [fst].
  assert (s1 = fst (record (set_dedup (fst (record_kept s msg)) D) batch true)) as -> by (by rewrite E1). clear E1.
  rewrite (IH _ key) by (intros x; rewrite <-Hkey, <-(digest_record_kept s msg); by apply digest_frame).
  change (dedup_exact (set_dedup (fst (record_kept s msg)) D)) with D. destruct (kept key D batch) as [l D'] eqn:E. cbn [fst snd].
  rewrite record_cons, record_kept_dedup. done.
Qed.

(** A finding is kept when neither an earlier batch nor this one had its digest. *)
Lemma kept_app key l1 l2 D :
  kept key D (l1 ++ l2) = (fst (kept key D l1) ++ fst (kept key (snd (kept key D l1)) l2), snd (kept key (snd (kept key D l1)) l2)).
Proof.
  revert D. induction l1 as [|msg l1 IH]; intros D; [cbn; by destruct (kept key D l2)|]. cbn [kept app].
  destruct (decide (key msg ∈ D)); [by apply IH|]. rewrite IH. by destruct (kept key _ l1) as [l D'].
Qed.

Lemma kept_digests key l D : snd (kept key D l) = list_to_set (map key l) ∪ D.
Proof.
  clear -key l D. revert D. induction l as [|msg l IH]; intros D; cbn [kept map list_to_set]; [set_solver|].
  destruct (decide (key msg ∈ D)); [rewrite IH; set_solver|]. specialize (IH ({[key msg]} ∪ D)).
  destruct (kept key _ l). cbn [snd] in *. rewrite IH. set_solver.
Qed.

Lemma kept_subset key l D x : x ∈ fst (kept key D l) -> x ∈ l.
Proof.
  revert D. induction l as [|msg l IH]; intros D; cbn [kept]; [done|].
  destruct (decide (key msg ∈ D)); [intros Hx; right; by eapply IH|]. specialize (IH ({[key msg]} ∪ D)).
  destruct (kept key _ l). cbn [fst] in *. intros [->|Hx]%elem_of_cons; [left|right; by apply IH].
Qed.

Lemma record_keeps_dedup k s : dedup_exact (fst (record s k false)) = dedup_exact s.
Proof. revert s. induction k as [|[[o b] m] k IH]; intros s; [done|]. by rewrite record_cons, IH. Qed.

(** ** Frames *)

(** What does not depend on where the findings are. *)
Record alike (s p : FindingsStore) : Prop := {
  alike_rules : rules s = rules p; alike_blobs : blobs s = blobs p; alike_dedup : dedup_exact s = dedup_exact p;
  alike_scoped : blob_scoped_dependency_rule_ids s = blob_scoped_dependency_rule_ids p;
  alike_links : repo_links s = repo_links p; alike_ids : repo_ids s = repo_ids p
}.

Definition pools_of (s : FindingsStore) : Pools := (blob_meta s, origin_meta s).

Lemma working_keyed s l : working s l -> keyed (pools_of s).
Proof. intros H. unfold pools_of. rewrite (working_pools _ _ H). apply keyed_pool, keyed_empty. Qed.

Lemma alike_kept s p msg l1 l2 : working s l1 -> working p l2 -> alike s p -> alike (fst (record_kept s msg)) (fst (record_kept p msg)).
Proof.
  intros Hs Hp [E1 E2 E3 E4 E5 E6]. destruct msg as [[o b] m].
  pose proof (pooled_blob _ b (working_keyed _ _ Hs)) as Bs. pose proof (pooled_blob _ b (working_keyed _ _ Hp)) as Bp.
  split; cbn in *; try done. by rewrite Bs, Bp, E2.
Qed.

Lemma alike_record k : forall s p l1 l2, working s l1 -> working p l2 -> alike s p ->
  alike (fst (record s k false)) (fst (record p k false)).
Proof.
  induction k as [|msg k IH]; intros s p l1 l2 Hs Hp H; [done|]. rewrite !record_cons.
  eapply IH; [by apply working_kept|by apply working_kept|by eapply alike_kept].
Qed.

Lemma record_spill k s : spill (fst (record s k false)) = spill s.
Proof.
  revert s. induction k as [|msg k IH]; intros s; [done|]. rewrite record_cons, IH. by destruct msg as [[o b] m].
Qed.

(** Two stores alike record the same findings, deduplicated or not. *)
Lemma record_both s p l1 l2 batch d : working s l1 -> working p l2 -> alike s p ->
  exists k, (forall x, x ∈ k -> x ∈ batch) /\
    working (fst (record s batch d)) (l1 ++ k) /\ working (fst (record p batch d)) (l2 ++ k) /\
    alike (fst (record s batch d)) (fst (record p batch d)) /\
    spill (fst (record s batch d)) = spill s /\ spill (fst (record p batch d)) = spill p.
Proof.
  intros Hs Hp H. destruct d.
  - rewrite (record_filters batch s (digest_of s)) by done.
    rewrite (record_filters batch p (digest_of s)) by (intros msg; apply digest_frame; symmetry; apply H). rewrite <-(alike_dedup _ _ H).
    set (D := snd (kept _ _ _)). set (k := fst (kept _ _ _)). exists k.
    assert (working (set_dedup s D) l1 /\ working (set_dedup p D) l2) as [Hs' Hp'] by (split; by eapply working_ext).
    assert (alike (set_dedup s D) (set_dedup p D)) as Ha by (destruct H; by split).
    split; [intros x; apply kept_subset|]. rewrite !record_spill. split; [by apply record_working|]. split; [by apply record_working|].
    split; [|done]. by eapply alike_record.
  - exists batch. split; [done|]. rewrite !record_spill. split; [by apply record_working|]. split; [by apply record_working|].
    split; [|done]. by eapply alike_record.
Qed.

(** ** Writing and reading back *)

(** JSON reads back what it wrote, on a line of its own. *)
Record json_codec : Prop := {
  json_roundtrip r : from_json (to_json r ++ [10%Z]) = Some r;
  json_one_line r : 10%Z ∉ to_json r
}.

(** A finding of a known rule whose origins are a set [OriginSet] can build. *)
Definition message_ok (rs : list Rule) (msg : Message) : Prop :=
  rules_by_id rs !! id (rule (snd msg)) = Some (rule (snd msg)) /\ normal (fst (fst msg)).

Lemma into_spilled rs msg : message_ok rs msg -> into_message (spill_message msg) (rules_by_id rs) = Some msg.
Proof.
  destruct msg as [[o b] m]. intros [Hr Ho]. cbn in *. unfold into_message. cbn [r_rule_id spill_message r_origins]. rewrite Hr.
  rewrite (normal_try_from_iter o Ho). by destruct m.
Qed.

Section Reading.
Context (Hcodec : json_codec) (rs : list Rule).

Lemma read_records F : forall fuel batch n s, Forall (message_ok rs) F -> length (write_records F) < fuel ->
  exists batch' s', read_loop fuel (write_records F) (rules_by_id rs) batch n s = Some (batch', n + length F, s') /\
    fst (record s' batch' false) = fst (record s (batch ++ F) false).
Proof.
  induction F as [|msg F IH]; intros fuel batch n s HF Hfuel; (destruct fuel as [|fuel]; [lia|]).
  - exists batch, s. cbn. by rewrite Nat.add_0_r, app_nil_r.
  - apply Forall_cons in HF as [Hm HF]. set (line := to_json (spill_message msg)).
    assert (write_records (msg :: F) = line ++ 10%Z :: write_records F) as E by (unfold write_records; cbn; by rewrite <-app_assoc).
    assert (length (write_records F) < fuel) as Hf by (rewrite E, length_app in Hfuel; cbn in Hfuel; lia).
    rewrite E. cbn [read_loop]. destruct (line ++ 10%Z :: write_records F) eqn:El; [by destruct line|]. rewrite <-El. clear El.
    rewrite (line_len_line line _ (json_one_line Hcodec _)). cbn [default from_option].
    replace (line ++ 10%Z :: write_records F) with ((line ++ [10%Z]) ++ write_records F) by (by rewrite <-app_assoc).
    unfold default. cbn [from_option id]. rewrite take_app_length', drop_app_length' by (rewrite length_app; cbn; lia).
    unfold line at 1. rewrite (json_roundtrip Hcodec), (into_spilled rs msg Hm). cbn [length]. rewrite Nat.add_succ_r.
    destruct (_ =? 1024).
    + destruct (IH fuel [] (S n) (fst (record s (batch ++ [msg]) false)) HF Hf) as (b' & s' & -> & Hr).
      exists b', s'. split; [done|]. rewrite Hr. cbn [app]. rewrite <-record_app, <-app_assoc. done.
    + destruct (IH fuel (batch ++ [msg]) (S n) s HF Hf) as (b' & s' & -> & Hr).
      exists b', s'. split; [done|]. by rewrite Hr, <-app_assoc.
Qed.

Lemma read_batches_records F s : Forall (message_ok rs) F ->
  read_batches {| file := write_records F; count := length F |} rs s = Some (fst (record s F false)).
Proof.
  intros HF. unfold read_batches. cbn [file count]. destruct (read_records F (S (length (write_records F))) [] 0 s HF ltac:(lia)) as (b & s' & -> & Hr).
  cbn [Nat.add]. rewrite Nat.eqb_refl. cbn [app] in Hr. rewrite <-Hr. by destruct b.
Qed.
End Reading.

Lemma record_each l s : fold_left (fun s msg => fst (record s [msg] false)) l s = fst (record s l false).
Proof. revert s. induction l as [|msg l IH]; intros s; [done|]. cbn [fold_left]. rewrite IH, <-record_app. done. Qed.

Lemma working_same s l l' : same_pooled l l' -> working s l -> working s l'.
Proof. intros H [H1 H2 H3]. pose proof (H _ keyed_empty) as E. split; by rewrite <-?E. Qed.

(** Restoring reads the spilled findings, then adds the pending ones. *)
Lemma restored (Hcodec : json_codec) s F L0 Lp truncate : spill s = Some {| file := write_records F; count := length F |} ->
  working s Lp -> same_pooled F L0 -> Forall (message_ok (rules s)) F ->
  exists s', restore_spilled_with_cleanup s truncate = (s', Ok) /\ working s' (L0 ++ Lp) /\ alike s' s.
Proof.
  intros Hs Hw Hp HF. unfold restore_spilled_with_cleanup. rewrite Hs. cbn [count]. destruct (length F =? 0) eqn:E0.
  - apply Nat.eqb_eq, nil_length_inv in E0 as ->. exists s. split; [done|]. split; [|by split].
    apply same_pooled_length in Hp. cbn in Hp. symmetry in Hp. apply nil_length_inv in Hp as ->. done.
  - rewrite (read_batches_records Hcodec (rules s) F _ HF). eexists. split; [done|]. split; [|by split].
    rewrite record_each. apply (working_ext (fst (record (fst (record store_new F false)) (matches s) false))); try done.
    apply (working_same _ (F ++ matches s)); [apply same_pooled_app; [done|]|].
    + rewrite (working_matches _ _ Hw). apply same_pooled_pool.
    + rewrite <-record_app. apply (record_working _ _ []), working_new.
Qed.

Lemma pool_ok rs l : forall p, (forall h o, snd p !! h = Some o -> normal o) -> Forall (message_ok rs) l ->
  Forall (message_ok rs) (snd (pool p l)).
Proof.
  induction l as [|[[o b] m] l IH]; intros p Hp Hl; [constructor|]. apply Forall_cons in Hl as [[Hr Ho] Hl]. rewrite pool_cons. cbn [snd].
  assert (normal (default o (snd p !! origin_fp o))) as Hn by (destruct (snd p !! origin_fp o) as [o'|] eqn:E; [by apply (Hp _ _ E)|done]).
  constructor; [by split|]. apply IH; [|done]. intros h o'. cbn. intros [[_ <-]|[_ H]]%lookup_insert_Some; [done|by apply (Hp h)].
Qed.

(** ** Spilling cannot be seen *)

(** What the scan of several repositories does to the shared store. *)
Inductive Op := Merge (other : FindingsStore) (dedup : bool) | SpillPending (r : WriteResult).
Definition run_op (s : FindingsStore) (op : Op) : option FindingsStore :=
  match op with
  | Merge other dedup => merge_from s other dedup
  | SpillPending r => match spill_pending s r with (s, Ok) => Some s | (_, Err) => None end
  end.
Fixpoint run (s : FindingsStore) (ops : list Op) : option FindingsStore :=
  match ops with [] => Some s | op :: ops => match run_op s op with None => None | Some s => run s ops end end.

(** The findings are restored, of known rules, and a write fails only for lack of
    storage. *)
Definition op_ok (rs : list Rule) (op : Op) : Prop :=
  match op with
  | Merge other _ => assert_restored other = true /\ Forall (message_ok rs) (matches other)
  | SpillPending r => match r with Complete => True | Partial _ full => full = true end
  end.

(** The spilling store [s] and the store in memory [p]: [L0] is in the file, [Lp]
    in the working set. *)
Definition related (s p : FindingsStore) : Prop :=
  exists L0 Lp F, working p (L0 ++ Lp) /\ working s Lp /\ alike s p /\ spill p = None /\ same_pooled F L0 /\
    Forall (message_ok (rules s)) F /\ Forall (message_ok (rules s)) (L0 ++ Lp) /\
    match spill s with None => L0 = [] | Some sp => sp = {| file := write_records F; count := length F |} end.

Lemma record_rules_same k s : rules (fst (record s k false)) = rules s.
Proof. revert s. induction k as [|[[o b] m] k IH]; intros s; [done|]. by rewrite record_cons, IH. Qed.

Lemma related_record s p batch d : related s p -> Forall (message_ok (rules s)) batch ->
  related (fst (record s batch d)) (fst (record p batch d)) /\ rules (fst (record s batch d)) = rules s.
Proof.
  intros (L0 & Lp & F & Hp & Hs & Ha & Hn & HF & HFok & HLok & Hsp) Hb.
  destruct (record_both s p _ _ batch d Hs Hp Ha) as (k & Hk & Hs' & Hp' & Ha' & Es & Ep).
  assert (rules (fst (record s batch d)) = rules s) as Hr
    by (destruct d; [rewrite (record_filters batch s (digest_of s)) by done|]; by rewrite record_rules_same).
  split; [|done]. exists L0, (Lp ++ k), F. rewrite Hr, Es, Ep, app_assoc. do 6 (split; [done|]). split; [|done].
  apply Forall_app. split; [done|]. apply Forall_forall. intros x Hx. apply Hk in Hx. by apply (proj1 (Forall_forall _ _) Hb).
Qed.

Lemma related_fold chunks d : forall s p, related s p -> Forall (Forall (message_ok (rules s))) chunks ->
  related (fold_left (fun s batch => fst (record s batch d)) chunks s) (fold_left (fun s batch => fst (record s batch d)) chunks p) /\
  rules (fold_left (fun s batch => fst (record s batch d)) chunks s) = rules s.
Proof.
  induction chunks as [|batch l IH]; intros s p H Hl; [done|]. apply Forall_cons in Hl as [Hb Hl].
  destruct (related_record s p batch d H Hb) as [H' Hr]. cbn [fold_left]. rewrite <-Hr. apply IH; [done|]. by rewrite Hr.
Qed.

Lemma chunks_forall {A} (P : A -> Prop) n fuel l : Forall P l -> Forall (Forall P) (chunks fuel n l).
Proof.
  revert l. induction fuel as [|fuel IH]; intros l H; [constructor|]. destruct l as [|x l]; [constructor|].
  constructor; [by apply Forall_take|]. by apply IH, Forall_drop.
Qed.

Lemma related_links s p f g : related s p ->
  related (with_links s (f (repo_links s)) (g (repo_ids s))) (with_links p (f (repo_links p)) (g (repo_ids p))).
Proof.
  intros (L0 & Lp & F & Hp & Hs & [E1 E2 E3 E4 E5 E6] & H). exists L0, Lp, F.
  split; [by eapply working_ext|]. split; [by eapply working_ext|]. split; [|done]. split; cbn; congruence.
Qed.

Lemma related_merge s p other d : related s p -> op_ok (rules s) (Merge other d) ->
  exists s' p', merge_from s other d = Some s' /\ merge_from p other d = Some p' /\ related s' p' /\ rules s' = rules s.
Proof.
  intros H [Ho Hok]. unfold merge_from, get_matches. rewrite Ho. eexists _, _. split; [reflexivity|]. split; [reflexivity|].
  exact (related_fold _ d _ _ (related_links s p (fun x => x ∪ repo_links other) (fun x => x ∪ repo_ids other) H)
    (chunks_forall _ _ _ _ Hok)).
Qed.

Lemma write_records_app l1 l2 : write_records (l1 ++ l2) = write_records l1 ++ write_records l2.
Proof. unfold write_records. by rewrite map_app, concat_app. Qed.

Lemma normal_pools rs l : Forall (message_ok rs) l -> Forall (message_ok rs) (snd (pool (∅, ∅) l)).
Proof. apply pool_ok. intros h o H. cbn in H. by rewrite lookup_empty in H. Qed.

Lemma related_spill (Hcodec : json_codec) s p r : related s p -> op_ok (rules s) (SpillPending r) ->
  exists s', spill_pending s r = (s', Ok) /\ related s' p /\ rules s' = rules s.
Proof.
  intros H Hr. pose proof H as (L0 & Lp & F & Hp & Hs & Ha & Hn & HF & HFok & HLok & Hsp). unfold spill_pending.
  destruct (spill s) as [sp|] eqn:Esp; [|by exists s]. subst sp. destruct (matches s) as [|m0 ms] eqn:Em; [by exists s|]. rewrite <-Em.
  destruct r as [|n full]; cbn [append file count].
  - eexists. split; [done|]. split; [|done]. exists (L0 ++ Lp), [], (F ++ matches s). cbn [spill with_working rules]. rewrite app_nil_r.
    split; [done|]. split; [done|]. split; [by destruct Ha; split|]. split; [done|]. split.
    { apply same_pooled_app; [done|]. rewrite (working_matches _ _ Hs). apply same_pooled_pool. }
    split; [apply Forall_app; split; [done|]; rewrite (working_matches _ _ Hs); apply normal_pools; by apply Forall_app in HLok as [_ ?]|]. split; [done|].
    by rewrite write_records_app, length_app.
  - cbn in Hr. subst full. rewrite take_app_length.
    destruct (restored Hcodec (with_working s (Some {| file := write_records F; count := length F |}) s) F L0 Lp false) as (s' & -> & Hw & Ha');
      [done|by eapply working_ext|done|done|].
    eexists. split; [done|]. assert (rules s' = rules s) as Er by apply (alike_rules _ _ Ha').
    split; [|done]. exists [], (L0 ++ Lp), []. cbn [spill with_working rules app]. rewrite Er.
    split; [done|]. split; [by eapply working_ext|]. split; [|done].
    destruct Ha as [A1 A2 A3 A4 A5 A6], Ha' as [B1 B2 B3 B4 B5 B6]. split; cbn in *; congruence.
Qed.

Lemma related_start s0 : working s0 [] -> spill s0 = None -> related (enable_spilling s0 false) s0.
Proof.
  intros Hw Hs. exists [], [], []. unfold enable_spilling. rewrite Hs. cbn [spill rules app]. split; [done|].
  split; [by eapply working_ext|]. split; [by split|]. done.
Qed.

Lemma related_run (Hcodec : json_codec) ops : forall s p, related s p -> Forall (op_ok (rules s)) ops ->
  exists s' p', run s ops = Some s' /\ run p ops = Some p' /\ related s' p'.
Proof.
  induction ops as [|op ops IH]; intros s p H Hops; [by exists s, p|]. apply Forall_cons in Hops as [Hop Hops].
  destruct op as [other d|r]; cbn [run run_op].
  - destruct (related_merge s p other d H Hop) as (s' & p' & -> & -> & H' & Hr). rewrite <-Hr in Hops. by apply IH.
  - destruct (related_spill Hcodec s p r H Hop) as (s' & -> & H' & Hr). rewrite <-Hr in Hops.
    assert (spill_pending p r = (p, Ok)) as -> by (unfold spill_pending; by destruct H as (? & ? & ? & _ & _ & _ & -> & _)).
    by apply IH.
Qed.

(** C29. Storing accumulated findings on disk cannot be seen: whatever repositories
    are merged, deduplicated or not, and wherever findings are spilled, also when
    storage fills up in the middle of a write, restoring succeeds and leaves the
    store as if it had never spilled: the same findings in the same order with the
    same pooled metadata, index, digests and blobs. *)
Theorem spilling_is_transparent (Hcodec : json_codec) s0 ops :
  working s0 [] -> spill s0 = None -> Forall (op_ok (rules s0)) ops ->
  exists s p s', run (enable_spilling s0 false) ops = Some s /\ run s0 ops = Some p /\
    restore_spilled s = (s', Ok) /\ with_working s' None s' = p.
Proof.
  intros Hw Hs Hops. assert (rules (enable_spilling s0 false) = rules s0) as Hr by (unfold enable_spilling; by destruct (spill s0)).
  rewrite <-Hr in Hops. destruct (related_run Hcodec ops _ _ (related_start s0 Hw Hs) Hops) as (s & p & E1 & E2 & H).
  exists s, p. destruct H as (L0 & Lp & F & Hp & Hws & Ha & Hn & HF & HFok & HLok & Hsp). unfold restore_spilled.
  assert (exists s', restore_spilled_with_cleanup s true = (s', Ok) /\ working s' (L0 ++ Lp) /\ alike s' s) as (s' & Er & Hw' & Ha').
  { destruct (spill s) as [sp|] eqn:Esp; [subst sp; by apply (restored Hcodec s F)|]. exists s. subst L0.
    unfold restore_spilled_with_cleanup. rewrite Esp. done. }
  exists s'. repeat (split; [done|]). destruct Hp as [P1 P2 P3], Hw' as [W1 W2 W3], Ha as [A1 A2 A3 A4 A5 A6], Ha' as [B1 B2 B3 B4 B5 B6].
  rewrite <-P2 in W2. injection W2 as W2 W2'. destruct p, s'. unfold with_working. cbn in *. f_equal; congruence.
Qed.

(** C31. A failure to spill or to restore loses nothing: a write that fails is rolled
    back, also when storage is full and what was spilled cannot be read back, and a
    restore that fails changes nothing; the store is as it was, and a write that
    completes is never reported as a failure. *)
Theorem failures_keep_findings s :
  (forall r, snd (spill_pending s r) = Err -> r <> Complete /\ fst (spill_pending s r) = s) /\
  (forall t, snd (restore_spilled_with_cleanup s t) = Err -> fst (restore_spilled_with_cleanup s t) = s).
Proof.
  assert (forall s t, snd (restore_spilled_with_cleanup s t) = Err -> fst (restore_spilled_with_cleanup s t) = s) as Hr
    by (intros s' t; unfold restore_spilled_with_cleanup; repeat case_match; done).
  split; [|apply Hr]. intros r. unfold spill_pending. destruct (spill s) as [sp|] eqn:E; [|done]. destruct (matches s) eqn:Em; [done|]. rewrite <-Em.
  destruct r as [|n full]; cbn [append]; [done|]. rewrite take_app_length.
  assert (with_working s (Some {| file := file sp; count := count sp |}) s = s) as -> by (destruct s, sp; cbn in *; by subst).
  destruct full; [|done]. intros H. split; [done|]. specialize (Hr s false). destruct (restore_spilled_with_cleanup s false) as [s' []]; [done|]. by apply Hr.
Qed.

(** ** Deduplication *)

Lemma kept_spec key l : forall D, NoDup (map key (fst (kept key D l))) /\ sublist (fst (kept key D l)) l /\
  (forall x, x ∈ fst (kept key D l) -> key x ∉ D) /\ (forall x, x ∈ l -> key x ∈ D \/ key x ∈ map key (fst (kept key D l))).
Proof.
  induction l as [|msg l IH]; intros D; cbn [kept].
  - split; [constructor|]. split; [constructor|]. split; intros x Hx; by apply not_elem_of_nil in Hx.
  - destruct (decide (key msg ∈ D)) as [Hd|Hd].
    + destruct (IH D) as (H1 & H2 & H3 & H4). split; [done|]. split; [by apply sublist_cons|]. split; [done|].
      intros x [->|Hx]%elem_of_cons; [by left|by apply H4].
    + specialize (IH ({[key msg]} ∪ D)). destruct (kept key _ l) as [k D']. cbn [fst map] in *. destruct IH as (H1 & H2 & H3 & H4).
      split; [|split; [by apply sublist_skip|split]].
      * constructor; [|done]. intros Hin. apply list_elem_of_fmap in Hin as (x & E & Hx). apply (H3 x Hx). rewrite <-E. set_solver.
      * intros x [->|Hx]%elem_of_cons; [done|]. pose proof (H3 x Hx). set_solver.
      * intros x [->|Hx]%elem_of_cons; [right; left|]. destruct (H4 x Hx) as [H|H]; [|right; by right].
        apply elem_of_union in H as [->%elem_of_singleton|H]; [right; left|by left].
Qed.

(** What recording reads of a finding and pooling cannot change. *)
Definition content (msg : Message) : BlobId * Match := (blob_id (snd (fst msg)), snd msg).

Lemma pool_content l : forall p, keyed p -> map content (snd (pool p l)) = map content l.
Proof.
  induction l as [|msg l IH]; intros p Hp; [done|]. rewrite pool_cons. cbn [snd map]. rewrite IH by (by apply keyed_one).
  destruct msg as [[o b] m]. f_equal. unfold content. cbn. by rewrite pooled_blob.
Qed.

(** Deduplication keeps exactly the first finding with each digest: of a batch
    it appends, in order and with their content unchanged, findings with digests
    that are new and distinct, leaves none out whose digest is neither known nor
    among those kept, decides about a finding from what comes before it alone, and
    remembers the digests of the whole batch. *)
Theorem record_dedup_exact s l batch : working s l ->
  exists k, map content (matches (fst (record s batch true))) = map content (matches s) ++ map content k /\
    sublist k batch /\ NoDup (map (digest_of s) k) /\ (forall x, x ∈ k -> digest_of s x ∉ dedup_exact s) /\
    (forall x, x ∈ batch -> digest_of s x ∈ dedup_exact s \/ digest_of s x ∈ map (digest_of s) k) /\
    (forall earlier msg later, batch = earlier ++ msg :: later -> digest_of s msg ∉ dedup_exact s ->
       digest_of s msg ∉ map (digest_of s) earlier -> msg ∈ k) /\
    dedup_exact (fst (record s batch true)) = list_to_set (map (digest_of s) batch) ∪ dedup_exact s.
Proof.
  intros Hw. set (D := dedup_exact s). set (k := fst (kept (digest_of s) D batch)). exists k.
  destruct (kept_spec (digest_of s) batch D) as (H1 & H2 & H3 & H4). rewrite (record_filters batch s (digest_of s)) by done. fold D k.
  assert (working (set_dedup s (snd (kept (digest_of s) D batch))) l) as Hw' by (by eapply working_ext).
  assert (dedup_exact (fst (record (set_dedup s (snd (kept (digest_of s) D batch))) k false)) = snd (kept (digest_of s) D batch)) as ->
    by apply record_keeps_dedup.
  split; [|split; [done|split; [done|split; [done|split; [done|split; [|apply kept_digests]]]]]].
  - rewrite (working_matches _ _ (record_working k _ _ Hw')), (working_matches _ _ Hw).
    rewrite !pool_content by apply keyed_empty. apply map_app.
  - intros e msg lt -> Hd He. unfold k. rewrite kept_app. cbn [fst]. apply elem_of_app. right. cbn [kept].
    rewrite decide_False; [destruct (kept _ _ lt); left|]. rewrite kept_digests. intros [H%elem_of_list_to_set|H]%elem_of_union; done.
Qed.
End Store.

(** ** Concrete runs *)

Section Countability.
#[local] Instance offset_span_countable : Countable OffsetSpan.
Proof. apply (inj_countable' (fun s => (span_start s, span_end s)) (fun '(a, b) => mkSpan a b)). by intros []. Defined.
#[local] Instance compact_span_eq_dec : EqDecision CompactSourceSpan.
Proof. solve_decision. Defined.
#[local] Instance compact_span_countable : Countable CompactSourceSpan.
Proof.
  apply (inj_countable' (fun s => (start_line s, start_column s, end_line s, end_column s)) (fun '(a, b, c, d) => Build_CompactSourceSpan a b c d)).
  by intros [].
Defined.
#[local] Instance location_eq_dec : EqDecision Location.
Proof. solve_decision. Defined.
#[local] Instance location_countable : Countable Location.
Proof. apply (inj_countable' (fun s => (loc_offset_span s, loc_source_span s)) (fun '(a, b) => Build_Location a b)). by intros []. Defined.
#[local] Instance blob_metadata_eq_dec : EqDecision BlobMetadata.
Proof. solve_decision. Defined.
#[local] Instance blob_metadata_countable : Countable BlobMetadata.
Proof.
  apply (inj_countable' (fun b => (blob_id b, num_bytes b, mime_essence b, language b)) (fun '(a, b, c, d) => Build_BlobMetadata a b c d)).
  by intros [].
Defined.
#[local] Instance capture_eq_dec : EqDecision SerializableCapture.
Proof. solve_decision. Defined.
#[local] Instance capture_countable : Countable SerializableCapture.
Proof.
  apply (inj_countable' (fun c => (cap_name c, match_number c, cap_start c, cap_end c, value c))
    (fun '(a, b, c, d, e) => Build_SerializableCapture a b c d e)). by intros [].
Defined.
#[local] Instance outcome_eq_dec : EqDecision ValidationOutcome.
Proof. solve_decision. Defined.
#[local] Instance outcome_countable : Countable ValidationOutcome.
Proof.
  apply (inj_countable'
    (fun o => match o with VerifiedActive => 0 | AssumedValid => 1 | LocallyDerived => 2 | InvalidMaterial => 3
                         | VerifiedInactive => 4 | Unavailable => 5 | Skipped => 6 | NotAttempted => 7 end)
    (fun n => match n with 0 => VerifiedActive | 1 => AssumedValid | 2 => LocallyDerived | 3 => InvalidMaterial
                         | 4 => VerifiedInactive | 5 => Unavailable | 6 => Skipped | _ => NotAttempted end)). by intros [].
Defined.
#[local] Instance time_countable : Countable GitRepo.Time.
Proof. apply (inj_countable' (fun t => (GitRepo.seconds t, GitRepo.offset t)) (fun '(a, b) => GitRepo.Build_Time a b)). by intros []. Defined.
#[local] Instance commit_info_countable : Countable GitRepo.CommitInfo.
Proof.
  apply (inj_countable'
    (fun c => (GitRepo.commit_id c, GitRepo.author_name c, GitRepo.author_email c, GitRepo.committer_name c, GitRepo.committer_email c, GitRepo.committer_timestamp c))
    (fun '(a, b, c, d, e, f) => GitRepo.Build_CommitInfo a b c d e f)). by intros [].
Defined.
#[local] Instance commit_origin_countable : Countable CommitOrigin.
Proof. apply (inj_countable' (fun c => (origin_commit c, blob_path c)) (fun '(a, b) => Build_CommitOrigin a b)). by intros []. Defined.
#[local] Instance git_repo_origin_countable : Countable GitRepoOrigin.
Proof. apply (inj_countable' (fun g => (repo_path g, first_commit g)) (fun '(a, b) => Build_GitRepoOrigin a b)). by intros []. Defined.
#[local] Instance origin_countable : Countable Origin.
Proof.
  apply (inj_countable' (fun o => match o with File p => inl p | GitRepo g => inr (inl g) | Extended v => inr (inr v) end)
    (fun x => match x with inl p => File p | inr (inl g) => GitRepo g | inr (inr v) => Extended v end)). by intros [].
Defined.
#[local] Instance spill_record_eq_dec : EqDecision SpillRecord.
Proof. solve_decision. Defined.
#[local] Instance spill_record_countable : Countable SpillRecord.
Proof.
  apply (inj_countable'
    (fun r => (r_origins r, r_blob r, r_rule_id r, r_match_blob_id r, r_location r, r_captures r, r_finding_fingerprint r,
               r_validation_response_body r, r_validation_response_status r, r_validation_success r, r_validation_outcome r,
               r_calculated_entropy r, r_visible r, r_is_base64 r, r_dependent_captures r, r_ambiguous_dependencies r, r_dependency_candidates r))
    (fun '(a, b, c, d, e, f, g, h, i, j, k, l, m, n, o, p, q) => Build_SpillRecord a b c d e f g h i j k l m n o p q)). by intros [].
Defined.

Definition demo_to_json (r : SpillRecord) : bytes := [Z.pos (10 + encode r)].
Definition demo_from_json (b : bytes) : option SpillRecord := match b with [Z.pos p; 10%Z] => decode (p - 10) | _ => None end.
Lemma demo_json : json_codec demo_to_json demo_from_json.
Proof.
  split.
  - intros r. unfold demo_from_json, demo_to_json. cbn [app]. replace (10 + encode r - 10)%positive with (encode r) by lia. apply decode_encode.
  - intros r H. apply list_elem_of_singleton in H. lia.
Qed.

End Countability.

Definition demo_rule : Rule :=
  {| id := bs "K.1"; visible := true; specificity := 0; validation := None; depends_on_rule := []; runtime_minimum_confidence := Low;
     runtime_dependency_helper := false |}.
Definition demo_finding (blob start : nat) (secret : bytes) : Message :=
  (single (File [RootDir; Normal (bs "a")]),
   {| blob_id := [Z.of_nat blob]; num_bytes := 9; mime_essence := None; language := None |},
   {| location := {| loc_offset_span := mkSpan start (start + 4); loc_source_span := None |};
      captures := [{| cap_name := None; match_number := 0; cap_start := start; cap_end := start + 4; value := secret |}];
      match_blob_id := [Z.of_nat blob]; finding_fingerprint := Z.of_nat (blob + start); rule := demo_rule; validation_response_body := [];
      validation_response_status := 0; validation_success := false; validation_outcome := NotAttempted; calculated_entropy := 0;
      match_visible := true; is_base64 := false; dependent_captures := ∅; ambiguous_dependencies := ∅; dependency_candidates := ∅ |}).

Abbreviation demo_record := (record (fun b => b) (fun _ => 0%Z) (fun b => b) (fun b => b) (fun _ _ _ => []) (fun _ => None) (fun _ _ => [])).
Definition demo_store : FindingsStore := record_rules (fun b => b) store_new [demo_rule].
Definition demo_repo (l : list Message) : FindingsStore := fst (demo_record demo_store l false).

(** One secret in two blobs is one finding, and the second blob is no new blob. *)
Example demo_dedup :
  let '(s, added) := demo_record demo_store [demo_finding 1 0 (bs "key1"); demo_finding 2 5 (bs "key1"); demo_finding 2 9 (bs "key2")] true in
  (map content (matches s), added) = (map content [demo_finding 1 0 (bs "key1"); demo_finding 2 9 (bs "key2")], 2).
Proof. vm_compute. reflexivity. Qed.

Definition demo_ops : list Op :=
  [Merge (demo_repo [demo_finding 1 0 (bs "key1")]) true; SpillPending Complete;
   Merge (demo_repo [demo_finding 2 5 (bs "key1"); demo_finding 2 9 (bs "key2")]) true; SpillPending (Partial 1 true)].

Lemma spilling_is_transparent_witness :
  exists s p s', run (fun b => b) (fun _ => 0%Z) (fun b => b) (fun b => b) (fun _ _ _ => []) (fun _ => None) (fun _ _ => [])
      demo_to_json demo_from_json (enable_spilling demo_store false) demo_ops = Some s /\
    run (fun b => b) (fun _ => 0%Z) (fun b => b) (fun b => b) (fun _ _ _ => []) (fun _ => None) (fun _ _ => [])
      demo_to_json demo_from_json demo_store demo_ops = Some p /\
    restore_spilled (fun b => b) (fun _ => 0%Z) (fun b => b) (fun b => b) (fun _ _ _ => []) (fun _ => None) (fun _ _ => [])
      demo_from_json s = (s', Ok) /\ with_working s' None s' = p.
Proof.
  apply (spilling_is_transparent _ _ _ _ _ _ _ _ _ demo_json); [by split|done|].
  repeat constructor.
Defined.

Lemma record_dedup_exact_witness :
  exists k, sublist k [demo_finding 1 0 (bs "key1"); demo_finding 2 5 (bs "key1")] /\
    map content (matches (fst (demo_record demo_store [demo_finding 1 0 (bs "key1"); demo_finding 2 5 (bs "key1")] true))) = map content k.
Proof.
  destruct (record_dedup_exact (fun b => b) (fun _ => 0%Z) (fun b => b) (fun b => b) (fun _ _ _ => []) (fun _ => None) (fun _ _ => [])
    demo_store [] [demo_finding 1 0 (bs "key1"); demo_finding 2 5 (bs "key1")]) as (k & Hk & Hs & _); [by split|].
  exists k. by split.
Defined.
