(* ===== verification/Baseline.v ===== *)
(** * Baselines of known findings: [src/baseline.rs]

    A baseline lists the findings of each repository; applying it hides the
    findings it knows, managing it replaces the findings of the repositories just
    scanned. Canonical paths, git configuration, URL parsing and the YAML file are
    parameters or left out; the time is an argument. *)

From Stdlib Require Import ZArith Lia Bool Sorting.Sorted.
From stdpp Require Import base list numbers option gmap.
From S2P Require Import Prelude Text Location Rule Ordered Origin FindingsStore.
Open Scope kf_scope.

Definition BASELINE_VERSION : Z := 2.
Definition FINGERPRINT_ALGORITHM : bytes := bs "kingfisher-v1".

Record RepositoryBaselineFinding := {
  path : bytes; fingerprint : bytes; rule_id : bytes; line : nat; first_seen_at : bytes; last_updated_at : bytes
}.
Record RepositoryBaseline := { rb_id : bytes; findings : list RepositoryBaselineFinding }.
Record BaselineFinding := { filepath : bytes; bf_fingerprint : bytes; linenum : nat; lastupdated : bytes }.
Record BaselineFile := {
  version : option Z; fingerprint_algorithm : option bytes; repositories : list RepositoryBaseline; exact_findings : list BaselineFinding
}.

Inductive BaselineError := UnsupportedVersion (v : Z) | UnsupportedAlgorithm (a : bytes) | MissingAlgorithm | NotRestored.

Definition validate_baseline (b : BaselineFile) : option BaselineError :=
  match version b with
  | None => None
  | Some v =>
    if negb (v =? BASELINE_VERSION)%Z then Some (UnsupportedVersion v)
    else
      match fingerprint_algorithm b with
      | None => Some MissingAlgorithm
      | Some a => if bytes_eqb a FINGERPRINT_ALGORITHM then None else Some (UnsupportedAlgorithm a)
      end
  end.

(** ** Fingerprints *)

Definition hex_value (b : byte) : option Z :=
  if is_ascii_digit b then Some (b - 48)%Z
  else if (97 ≤? b ≤? 102) then Some (b - 87)%Z
  else if (65 ≤? b ≤? 70) then Some (b - 55)%Z
  else None.

(** [u64::from_str_radix] with radix 16. *)
Fixpoint parse_hex_digits (acc : Z) (l : bytes) : option Z :=
  match l with
  | [] => Some acc
  | b :: l =>
    match hex_value b with
    | None => None
    | Some d => let acc := (acc * 16 + d)%Z in if (acc <? U64_MOD)%Z then parse_hex_digits acc l else None
    end
  end.
Definition from_str_radix_16 (l : bytes) : option Z :=
  match l with
  | [] => None
  | b :: r => if b ==? bc "+" then match r with [] => None | _ => parse_hex_digits 0 r end else parse_hex_digits 0 l
  end.

Definition parse_fingerprint (s : bytes) : list Z :=
  let trimmed := trim s in
  match match strip_prefix (bs "0x") trimmed with Some r => Some r | None => strip_prefix (bs "0X") trimmed end with
  | Some rest => option_list (from_str_radix_16 rest)
  | None =>
    if (length trimmed =? 16) && forallb is_ascii_hexdigit trimmed then
      if existsb is_ascii_alphabetic trimmed then option_list (from_str_radix_16 trimmed)
      else
        let out := option_list (parse_usize trimmed) in
        match from_str_radix_16 trimmed with
        | Some v => if bool_decide (v ∈ out) then out else out ++ [v]
        | None => out
        end
    else option_list (parse_usize trimmed)
  end.

(** ** Repositories and paths *)

Record FindingContext := { repository_id : bytes; context_path : bytes }.
Record ScanScope := { root : Path; scope_repository_id : bytes }.
Record ScopeResolver := { scopes : list ScanScope; repo_links : gmap Path bytes }.
Record Url := { host : option bytes; port : option Z; url_path : bytes }.

Definition slashes (l : bytes) : bytes := map (fun b => if b ==? bc "\" then bc "/" else b) l.
Definition normalize_path (p : Path) : bytes := slashes (from_utf8_lossy (path_bytes p)).

(** A repository and a fingerprint. *)
Abbreviation FindingKey := (bytes * Z)%type.

Section Resolver.
Context (canonicalize : Path -> option Path) (remote_origin : Path -> option bytes).
Context (parse_url : bytes -> option Url) (json_path : bytes -> option Path).

Definition local_repository_id (root : Path) : bytes := bs "local://" ++ normalize_path (default root (canonicalize root)).

Definition split_once (b : byte) (l : bytes) : option (bytes * bytes) :=
  match list_find (fun x => x = b) l with None => None | Some (i, _) => Some (take i l, drop (S i) l) end.

Definition canonical_remote_repository_id (raw : bytes) : option bytes :=
  let normalized :=
    match strip_prefix (bs "git@") raw with
    | Some rest => match split_once (bc ":") rest with None => None | Some (h, p) => Some (bs "https://" ++ h ++ bs "/" ++ p) end
    | None => Some raw
    end in
  match normalized with
  | None => None
  | Some n =>
    match parse_url n with
    | None => None
    | Some url =>
      match host url with
      | None => None
      | Some h =>
        let h := str_to_ascii_lowercase h in
        let authority := match port url with None => h | Some p => h ++ bs ":" ++ show_usize p end in
        let p := trim_while (fun b => b ==? bc "/") (url_path url) in
        let p := default p (strip_suffix (bs ".git") p) in
        Some (if non_empty p then bs "git://" ++ authority ++ bs "/" ++ p else bs "git://" ++ authority)
      end
    end
  end.

Definition repository_id_for_root (root : Path) (links : gmap Path bytes) : bytes :=
  match links !! root ≫= canonical_remote_repository_id with
  | Some i => i
  | None =>
    match compute_url (remote_origin root) ≫= canonical_remote_repository_id with
    | Some i => i
    | None => local_repository_id root
    end
  end.

Definition scope_cmp (a b : ScanScope) : comparison :=
  then_with (Nat.compare (length (root b)) (length (root a))) (path_cmp (root a) (root b)).
Definition resolver_new (store : FindingsStore) (roots : list Path) : ScopeResolver :=
  let links := FindingsStore.repo_links store in
  {| scopes := dedup_by (fun a b => bool_decide (root a = root b))
                 (sort_by scope_cmp (map (fun r => {| root := r; scope_repository_id := repository_id_for_root r links |}) roots));
     repo_links := links |}.

Definition scanned_repository_ids (r : ScopeResolver) : gset bytes := list_to_set (map scope_repository_id (scopes r)).

Definition name_bytes (p : Path) : bytes := match file_name p with Some n => normalize_path [n] | None => [] end.
Definition context_for_path (r : ScopeResolver) (p : Path) : FindingContext :=
  match List.find (fun s => path_starts_with p (root s)) (scopes r) with
  | Some s =>
    let relative := default p (path_strip_prefix (root s) p) in
    {| repository_id := scope_repository_id s;
       context_path := match relative with [] => name_bytes p | _ => normalize_path relative end |}
  | None => {| repository_id := local_repository_id (default p (parent p)); context_path := name_bytes p |}
  end.
Definition context_for_origin (r : ScopeResolver) (o : Origin) : option FindingContext :=
  match o with
  | GitRepo g =>
    Some {| repository_id := repository_id_for_root (repo_path g) (repo_links r);
            context_path := match first_commit g with Some c => slashes (blob_path c) | None => [] end |}
  | File p => Some (context_for_path r p)
  | Extended v => context_for_path r <$> json_path v
  end.

Definition bytes_ltb (a b : bytes) : bool := match bytes_cmp a b with Lt => true | _ => false end.
Definition add_context (m : gmap bytes bytes) (c : FindingContext) : gmap bytes bytes :=
  match m !! repository_id c with
  | Some p => if bytes_ltb (context_path c) p then <[repository_id c := context_path c]> m else m
  | None => <[repository_id c := context_path c]> m
  end.
Definition contexts (r : ScopeResolver) (os : OriginSet) : list FindingContext :=
  let m := fold_left add_context (omap (context_for_origin r) (origins os)) ∅ in
  let m := match decide (m = ∅), scopes r with
           | left _, s :: _ => {[scope_repository_id s := []]}
           | _, _ => m
           end in
  map (fun '(i, p) => {| repository_id := i; context_path := p |}) (btree_list bytes_cmp m).

(** ** Applying *)

Definition legacy_fingerprints (b : BaselineFile) : gset Z :=
  list_to_set (flat_map (fun f => parse_fingerprint (bf_fingerprint f)) (exact_findings b)).
Definition forms_of (fs : list RepositoryBaselineFinding) : gset Z :=
  list_to_set (flat_map (fun f => parse_fingerprint (fingerprint f)) fs).
(** Of repositories listed twice the last counts. *)
Definition repository_fingerprints (b : BaselineFile) : gmap bytes (gset Z) :=
  fold_left (fun m r => <[rb_id r := forms_of (findings r)]> m) (repositories b) ∅.

Definition hide (m : Match) : Match :=
  {| location := location m; captures := captures m; match_blob_id := match_blob_id m; finding_fingerprint := finding_fingerprint m;
     rule := rule m; validation_response_body := validation_response_body m;
     validation_response_status := validation_response_status m; validation_success := validation_success m;
     validation_outcome := validation_outcome m; calculated_entropy := calculated_entropy m; match_visible := false;
     is_base64 := is_base64 m; dependent_captures := dependent_captures m; ambiguous_dependencies := ambiguous_dependencies m;
     dependency_candidates := dependency_candidates m |}.

Definition is_known (legacy : gset Z) (repositories : gmap bytes (gset Z)) (r : ScopeResolver) (msg : Message) : bool :=
  let '(os, _, finding) := msg in
  let fp := finding_fingerprint finding in
  bool_decide (fp ∈ legacy)
  || (match contexts r os with [] => false | _ => true end
      && forallb (fun c => match repositories !! repository_id c with Some known => bool_decide (fp ∈ known) | None => false end) (contexts r os)).

Definition apply_loaded_baseline (store : FindingsStore) (b : BaselineFile) (roots : list Path) : BaselineError + FindingsStore :=
  match validate_baseline b with
  | Some e => inl e
  | None =>
    let legacy := legacy_fingerprints b in
    let known := repository_fingerprints b in
    let r := resolver_new store roots in
    match get_matches store with
    | None => inl NotRestored
    | Some l =>
      inr (with_matches store (map (fun msg => let '(os, blob, m) := msg in if is_known legacy known r msg then (os, blob, hide m) else msg) l))
    end
  end.

(** ** Managing *)

Definition add_existing (id : bytes) (m : gmap FindingKey RepositoryBaselineFinding) (f : RepositoryBaselineFinding) :=
  fold_left (fun m fp => match m !! (id, fp) with Some _ => m | None => <[(id, fp) := f]> m end) (parse_fingerprint (fingerprint f)) m.
Definition existing_findings (b : BaselineFile) : gmap FindingKey RepositoryBaselineFinding :=
  fold_left (fun m r => fold_left (add_existing (rb_id r)) (findings r) m) (repositories b) ∅.

Definition place_cmp (a b : RepositoryBaselineFinding) : comparison :=
  then_with (bytes_cmp (path a) (path b)) (then_with (Nat.compare (line a) (line b)) (bytes_cmp (rule_id a) (rule_id b))).

Definition with_dates (f : RepositoryBaselineFinding) (first last : bytes) : RepositoryBaselineFinding :=
  {| path := path f; fingerprint := fingerprint f; rule_id := rule_id f; line := line f; first_seen_at := first; last_updated_at := last |}.

(** Keep the dates of a finding that is where it was. *)
Definition carry_dates (previous : option RepositoryBaselineFinding) (current : RepositoryBaselineFinding) : RepositoryBaselineFinding :=
  match previous with
  | None => current
  | Some previous =>
    with_dates current (first_seen_at previous)
      (if bytes_eqb (path current) (path previous) && bytes_eqb (rule_id current) (rule_id previous) && (line current =? line previous)
       then last_updated_at previous else last_updated_at current)
  end.

Definition candidate (now : bytes) (m : Match) (c : FindingContext) : RepositoryBaselineFinding :=
  {| path := context_path c; fingerprint := show_usize (finding_fingerprint m); rule_id := id (rule m);
     line := Location.line (src_start (resolved_source_span (location m))); first_seen_at := now; last_updated_at := now |}.

Definition observe (now : bytes) (existing : gmap FindingKey RepositoryBaselineFinding)
    (o : gmap FindingKey RepositoryBaselineFinding) (x : Match * FindingContext) : gmap FindingKey RepositoryBaselineFinding :=
  let '(m, c) := x in
  let key := (repository_id c, finding_fingerprint m) in
  let cand := candidate now m c in
  let current := match o !! key with
                 | Some current => match place_cmp cand current with Lt => cand | _ => current end
                 | None => cand
                 end in
  <[key := carry_dates (existing !! key) current]> o.

Definition push_finding (m : gmap bytes (list RepositoryBaselineFinding)) (x : FindingKey * RepositoryBaselineFinding) :=
  let '((id, _), f) := x in <[id := default [] (m !! id) ++ [f]]> m.

Definition key_cmp (a b : FindingKey) : comparison := then_with (bytes_cmp (fst a) (fst b)) (Z.compare (snd a) (snd b)).
Definition finding_cmp (a b : RepositoryBaselineFinding) : comparison :=
  then_with (bytes_cmp (path a) (path b)) (then_with (Nat.compare (line a) (line b))
    (then_with (bytes_cmp (rule_id a) (rule_id b)) (bytes_cmp (fingerprint a) (fingerprint b)))).
Definition same_fingerprint (a b : RepositoryBaselineFinding) : bool := bytes_eqb (fingerprint a) (fingerprint b).

Definition finish_repository (x : bytes * list RepositoryBaselineFinding) : option RepositoryBaseline :=
  let '(id, fs) := x in
  match dedup_by same_fingerprint (sort_by finding_cmp fs) with
  | [] => None
  | fs => Some {| rb_id := id; findings := fs |}
  end.

(** Each finding with each of its repositories, in the order of the loop. *)
Definition sightings (r : ScopeResolver) (l : list Message) : list (Match * FindingContext) :=
  flat_map (fun msg => let '(os, _, m) := msg in map (fun c => (m, c)) (contexts r os)) l.

Definition build_managed_baseline (store : FindingsStore) (b : BaselineFile) (roots : list Path) (now : bytes) : BaselineError + BaselineFile :=
  match validate_baseline b with
  | Some e => inl e
  | None =>
    let r := resolver_new store roots in
    match get_matches store with
    | None => inl NotRestored
    | Some l =>
      let seen := sightings r l in
      let scanned := scanned_repository_ids r ∪ list_to_set (map (fun x => repository_id (snd x)) seen) in
      let observations := fold_left (observe now (existing_findings b)) seen ∅ in
      let kept := fold_left (fun m rb => if decide (rb_id rb ∈ scanned) then m else <[rb_id rb := findings rb]> m) (repositories b) ∅ in
      let all := fold_left push_finding (btree_list key_cmp observations) kept in
      inr {| version := Some BASELINE_VERSION; fingerprint_algorithm := Some FINGERPRINT_ALGORITHM;
             repositories := omap finish_repository (btree_list bytes_cmp all); exact_findings := [] |}
    end
  end.
End Resolver.

(** ** Fingerprints are read back *)

Lemma trim_edges l : Forall trim_edge l -> trim l = l.
Proof.
  destruct l as [|a l]; [done|]. intros H. apply Forall_cons in H as [Ha H]. destruct l as [|b r _] using rev_ind.
  - unfold trim. rewrite trim_start_id by done. by apply (trim_end_id []).
  - apply Forall_app in H as [_ H]. apply Forall_cons in H as [Hb _]. by apply trim_id.
Qed.

Lemma hexdigit_edge b : is_ascii_hexdigit b = true -> trim_edge b.
Proof.
  unfold is_ascii_hexdigit, is_ascii_digit, trim_edge. intros H. tobool. destruct (9 ≤? b ≤? 13) eqn:E1, (b ==? 32) eqn:E2; tobool; lia.
Qed.

Lemma hexdigits_trim l : Forall (fun b => is_ascii_hexdigit b = true) l -> trim l = l.
Proof. intros H. apply trim_edges. eapply Forall_impl; [exact H|]. intros b. apply hexdigit_edge. Qed.

Lemma hexdigits_no_prefix x l : x = bc "x" \/ x = bc "X" -> Forall (fun b => is_ascii_hexdigit b = true) l -> strip_prefix [bc "0"; x] l = None.
Proof.
  intros Hx H. unfold strip_prefix. destruct l as [|a [|b l]]; cbn [starts_with]; [done|by destruct (_ ==? a)|].
  apply Forall_cons in H as [_ H]. apply Forall_cons in H as [Hb _].
  destruct (Z.eqb_spec x b) as [<-|]; [by destruct Hx as [-> | ->]|]. by destruct (_ ==? a).
Qed.

Lemma digit_hexdigit b : is_ascii_digit b = true -> is_ascii_hexdigit b = true.
Proof. intros H. unfold is_ascii_hexdigit. by rewrite H. Qed.

Lemma forallb_Forall_true {A} (p : A -> bool) l : forallb p l = true <-> Forall (fun x => p x = true) l.
Proof. rewrite forallb_forall, Forall_forall. split; intros H x Hx; apply H; by apply list_elem_of_In. Qed.

(** How a string of hexadecimal digits is read. *)
Lemma parse_hexdigits l : Forall (fun b => is_ascii_hexdigit b = true) l ->
  parse_fingerprint l =
  if length l =? 16 then
    if existsb is_ascii_alphabetic l then option_list (from_str_radix_16 l)
    else
      let out := option_list (parse_usize l) in
      match from_str_radix_16 l with Some v => if bool_decide (v ∈ out) then out else out ++ [v] | None => out end
  else option_list (parse_usize l).
Proof.
  intros H. unfold parse_fingerprint. rewrite (hexdigits_trim l H).
  change (bs "0x") with [bc "0"; bc "x"]. change (bs "0X") with [bc "0"; bc "X"].
  rewrite !hexdigits_no_prefix by auto. rewrite (proj2 (forallb_Forall_true _ _) H). by rewrite andb_true_r.
Qed.

Definition hex_char (d : Z) : byte := if (d <? 10)%Z then (48 + d)%Z else (87 + d)%Z.
(** [{:016x}] for [n] of 16. *)
Fixpoint show_hex (n : nat) (v : Z) (acc : bytes) : bytes :=
  match n with 0 => acc | S n => show_hex n (v / 16) (hex_char (v mod 16) :: acc) end.

Lemma hex_char_hexdigit d : (0 <= d < 16)%Z -> is_ascii_hexdigit (hex_char d) = true /\ hex_value (hex_char d) = Some d.
Proof.
  intros H. assert (d = 0 \/ d = 1 \/ d = 2 \/ d = 3 \/ d = 4 \/ d = 5 \/ d = 6 \/ d = 7 \/ d = 8 \/ d = 9 \/ d = 10 \/ d = 11 \/ d = 12
    \/ d = 13 \/ d = 14 \/ d = 15)%Z as Hd by lia.
  repeat (destruct Hd as [->|Hd]; [by split|]). by subst d.
Qed.

Lemma show_hex_digits n : forall v acc, Forall (fun b => is_ascii_hexdigit b = true) acc ->
  Forall (fun b => is_ascii_hexdigit b = true) (show_hex n v acc) /\ length (show_hex n v acc) = n + length acc.
Proof.
  induction n as [|n IH]; intros v acc H; [done|]. cbn [show_hex].
  destruct (IH (v / 16)%Z (hex_char (v mod 16) :: acc)) as [H1 H2].
  - constructor; [|done]. apply hex_char_hexdigit, Z.mod_pos_bound. lia.
  - split; [done|]. rewrite H2. cbn. lia.
Qed.

Lemma parse_show_hex n : forall v acc, (0 <= v < 16 ^ Z.of_nat n)%Z -> (v < U64_MOD)%Z ->
  parse_hex_digits 0 (show_hex n v acc) = parse_hex_digits v acc.
Proof.
  induction n as [|n IH]; intros v acc Hv Hu; [cbn in *; f_equal; lia|]. cbn [show_hex].
  rewrite Nat2Z.inj_succ, Z.pow_succ_r in Hv by lia. assert (0 <= v mod 16 < 16)%Z as Hm by (apply Z.mod_pos_bound; lia).
  pose proof (Z.div_mod v 16 ltac:(lia)) as Hd. 
  assert (0 <= v / 16 < 16 ^ Z.of_nat n)%Z as Hq by (split; [apply Z.div_pos|apply Z.div_lt_upper_bound]; lia).
  rewrite IH; [|done|lia].
  cbn [parse_hex_digits]. rewrite (proj2 (hex_char_hexdigit _ Hm)). replace (v / 16 * 16 + v mod 16)%Z with v by lia.
  by rewrite (proj2 (Z.ltb_lt _ _) Hu).
Qed.

Lemma from_show_hex v : (0 <= v < U64_MOD)%Z -> from_str_radix_16 (show_hex 16 v []) = Some v.
Proof.
  intros Hv. destruct (show_hex_digits 16 v [] ltac:(constructor)) as [H1 H2].
  assert (parse_hex_digits 0 (show_hex 16 v []) = Some v) as Hp by (rewrite parse_show_hex; [done|exact Hv|apply Hv]).
  unfold from_str_radix_16. destruct (show_hex 16 v []) as [|b r]; [done|]. apply Forall_cons in H1 as [Hb _].
  destruct (Z.eqb_spec b (bc "+")) as [->|]; [done|]. exact Hp.
Qed.

Lemma show_usize_hexdigits v : Forall (fun b => is_ascii_hexdigit b = true) (show_usize v).
Proof. eapply Forall_impl; [apply (show_digits_digits 20)|]. intros b. apply digit_hexdigit. Qed.

Lemma digit_not_alphabetic b : is_ascii_digit b = true -> is_ascii_alphabetic b = false.
Proof.
  unfold is_ascii_digit, is_ascii_alphabetic, is_ascii_upper, is_ascii_lower. intros H. tobool.
  destruct (65 ≤? b ≤? 90) eqn:E1, (97 ≤? b ≤? 122) eqn:E2; tobool; lia || done.
Qed.

(** The decimal form a managed baseline writes. *)
Lemma parse_fingerprint_decimal v : (0 <= v < U64_MOD)%Z -> v ∈ parse_fingerprint (show_usize v).
Proof.
  intros Hv. rewrite parse_hexdigits by apply show_usize_hexdigits. rewrite parse_show_usize by (unfold USIZE_MAX; lia). cbn [option_list].
  assert (existsb is_ascii_alphabetic (show_usize v) = false) as ->.
  { destruct (existsb _ _) eqn:E; [|done]. apply existsb_exists in E as (b & Hb & Ha). apply list_elem_of_In in Hb.
    pose proof (proj1 (Forall_forall _ _) (show_digits_digits 20 v) b Hb) as Hd. cbn in Hd. by rewrite digit_not_alphabetic in Ha. }
  assert (v ∈ [v]) as Hself by (by apply list_elem_of_singleton).
  case_match; [|done]. cbv zeta. case_match; [|done]. case_match; [done|]. apply elem_of_app. by left.
Qed.

Lemma parse_hex_range l : forall acc v, (0 <= acc < U64_MOD)%Z -> parse_hex_digits acc l = Some v -> (0 <= v < U64_MOD)%Z.
Proof.
  induction l as [|b l IH]; intros acc v Ha; cbn; [by intros [= <-]|]. destruct (hex_value b) as [d|] eqn:E; [|done].
  assert (0 <= d)%Z as Hd by (unfold hex_value, is_ascii_digit in E; repeat case_match; simplify_eq; tobool; lia).
  destruct (_ <? U64_MOD)%Z eqn:E2; [|done]. tobool. apply IH. lia.
Qed.

Lemma from_hex_range l v : from_str_radix_16 l = Some v -> (0 <= v < U64_MOD)%Z.
Proof. unfold from_str_radix_16. repeat case_match; try done; apply parse_hex_range; vm_compute; split; congruence. Qed.

Lemma elem_of_option_list {A} (o : option A) x : x ∈ option_list o <-> o = Some x.
Proof. destruct o; cbn; [rewrite list_elem_of_singleton; split; congruence|]. split; [by intros H%not_elem_of_nil|done]. Qed.

(** Each form a fingerprint has been written in is read back: the decimal form
    of reports and managed baselines, the sixteen hexadecimal digits of older
    baselines, and those with a prefix, which are never ambiguous. What is read
    has at most two meanings, each a 64-bit number. *)
Theorem parse_fingerprint_forms v : (0 <= v < U64_MOD)%Z ->
  v ∈ parse_fingerprint (show_usize v) /\ v ∈ parse_fingerprint (show_hex 16 v []) /\
  parse_fingerprint (bs "0x" ++ show_hex 16 v []) = [v] /\
  (forall s w, w ∈ parse_fingerprint s -> (0 <= w < U64_MOD)%Z) /\ (forall s, length (parse_fingerprint s) <= 2).
Proof.
  intros Hv. destruct (show_hex_digits 16 v [] ltac:(constructor)) as [Hh Hl]. split; [by apply parse_fingerprint_decimal|]. split; [|split; [|split]].
  - rewrite parse_hexdigits by done. rewrite Hl, from_show_hex by done. cbn [Nat.add Nat.eqb].
    destruct (existsb _ _); cbn [option_list]; [by apply list_elem_of_singleton|]. cbv zeta.
    case_bool_decide; [done|]. apply elem_of_app. right. by apply list_elem_of_singleton.
  - unfold parse_fingerprint. rewrite trim_edges.
    + assert (strip_prefix (bs "0x") (bs "0x" ++ show_hex 16 v []) = Some (show_hex 16 v [])) as -> by done.
      by rewrite from_show_hex.
    + apply Forall_app. split; [constructor; [|constructor; [|constructor]]; by repeat split|]. eapply Forall_impl; [exact Hh|]. intros b. apply hexdigit_edge.
  - intros s w. unfold parse_fingerprint. assert (forall l x, x ∈ option_list (parse_usize l) -> (0 <= x < U64_MOD)%Z) as Hd
      by (intros l x Hx; apply elem_of_option_list in Hx; by eapply parse_usize_range).
    assert (forall l x, x ∈ option_list (from_str_radix_16 l) -> (0 <= x < U64_MOD)%Z) as Hx
      by (intros l x Hx; apply elem_of_option_list in Hx; by eapply from_hex_range).
    destruct (match strip_prefix (bs "0x") _ with Some r => _ | None => _ end); [apply Hx|]. destruct (_ && _); [|apply Hd].
    destruct (existsb _ _); [apply Hx|]. destruct (from_str_radix_16 (trim s)) eqn:E; [|apply Hd].
    case_bool_decide; [apply Hd|]. intros [Hw|Hw]%elem_of_app; [by eapply Hd|]. apply list_elem_of_singleton in Hw as ->. by eapply from_hex_range.
  - intros s. unfold parse_fingerprint. assert (forall o : option Z, length (option_list o) <= 1) as H1 by (intros []; cbn; lia).
    repeat case_match; cbv zeta; rewrite ?length_app; cbn [length]; repeat match goal with |- context [option_list ?o] => pose proof (H1 o); generalize dependent (option_list o); intros end; lia.
Qed.

(** ** The findings of each repository *)

(** Of repositories listed twice the last counts. *)
Definition last_findings (rs : list RepositoryBaseline) : gmap bytes (list RepositoryBaselineFinding) :=
  fold_left (fun m r => <[rb_id r := findings r]> m) rs ∅.

Lemma repository_fingerprints_last b : repository_fingerprints b = forms_of <$> last_findings (repositories b).
Proof.
  unfold repository_fingerprints, last_findings. assert (∅ = forms_of <$> (∅ : gmap bytes (list RepositoryBaselineFinding))) as E by (by rewrite fmap_empty).
  rewrite E at 1. clear E. generalize (∅ : gmap bytes (list RepositoryBaselineFinding)) as m.
  induction (repositories b) as [|r rs IH]; intros m; [done|]. cbn. by rewrite <-IH, fmap_insert.
Qed.

Lemma kept_lookup (scanned : gset bytes) rs id :
  fold_left (fun m rb => if decide (rb_id rb ∈ scanned) then m else <[rb_id rb := findings rb]> m) rs (∅ : gmap bytes _) !! id =
  if decide (id ∈ scanned) then None else last_findings rs !! id.
Proof.
  unfold last_findings. induction rs as [|r rs IH] using rev_ind; [by case_decide|]. rewrite !fold_left_app. cbn [fold_left].
  destruct (decide (rb_id r ∈ scanned)) as [Hr|Hr].
  - rewrite IH. case_decide; [done|]. rewrite lookup_insert_ne; [done|]. by intros <-.
  - destruct (decide (rb_id r = id)) as [<-|Hne]; [by rewrite !lookup_insert_eq, decide_False|].
    rewrite !lookup_insert_ne by done. apply IH.
Qed.

Lemma last_findings_unique rs id fs : NoDup (map rb_id rs) ->
  last_findings rs !! id = Some fs <-> {| rb_id := id; findings := fs |} ∈ rs.
Proof.
  unfold last_findings. induction rs as [|[i l] rs IH] using rev_ind; intros Hn.
  - cbn. rewrite lookup_empty. split; [done|]. by intros H%not_elem_of_nil.
  - rewrite map_app in Hn. apply NoDup_app in Hn as (Hn & Hd & _). specialize (IH Hn). rewrite fold_left_app. cbn [fold_left rb_id findings].
    rewrite elem_of_app, list_elem_of_singleton. destruct (decide (i = id)) as [->|Hne].
    + rewrite lookup_insert_eq. split; [intros [= ->]; by right|]. intros [H|[= ->]]; [|done]. exfalso. apply (Hd id); [|cbn; left].
      apply list_elem_of_fmap. by exists {| rb_id := id; findings := fs |}.
    + rewrite lookup_insert_ne by done. rewrite IH. split; [by left|]. intros [H|[= -> ->]]; done.
Qed.

(** What is left of the findings of a repository once sorted and deduplicated. *)
Definition tidy (fs : list RepositoryBaselineFinding) : option (list RepositoryBaselineFinding) :=
  match dedup_by same_fingerprint (sort_by finding_cmp fs) with [] => None | fs => Some fs end.

#[local] Instance same_fingerprint_equiv : Equivalence (fun x y => same_fingerprint x y = true).
Proof.
  unfold same_fingerprint, bytes_eqb. split.
  - intros x. by apply bool_decide_eq_true.
  - intros x y H. apply bool_decide_eq_true in H. by apply bool_decide_eq_true.
  - intros x y z H1 H2. apply bool_decide_eq_true in H1, H2. apply bool_decide_eq_true. congruence.
Qed.

#[local] Instance nat_weak : WeakOrd Nat.compare.
Proof.
  split; [intros x y; apply Nat.compare_antisym|]. intros x y z.
  destruct (Nat.compare_spec x y), (Nat.compare_spec y z); try done; subst;
    try (by apply Nat.compare_refl); apply Nat.compare_lt_iff; lia.
Qed.

#[local] Instance finding_weak : WeakOrd finding_cmp.
Proof. unfold finding_cmp. apply _. Qed.

Lemma tidy_subset fs fs' f : tidy fs = Some fs' -> f ∈ fs' -> f ∈ fs.
Proof.
  unfold tidy. intros H Hf. rewrite <-(sort_by_elem finding_cmp).
  assert (fs' = dedup_by same_fingerprint (sort_by finding_cmp fs)) as -> by (destruct (dedup_by _ _); congruence).
  eapply elem_of_submseteq; [exact Hf|apply sublist_submseteq, dedup_by_sublist].
Qed.

Lemma tidy_covers fs f : f ∈ fs -> exists fs' z, tidy fs = Some fs' /\ z ∈ fs' /\ fingerprint z = fingerprint f.
Proof.
  intros Hf. rewrite <-(sort_by_elem finding_cmp) in Hf. destruct (dedup_by_covers same_fingerprint _ _ _ Hf) as (z & Hz & E).
  apply bool_decide_eq_true in E. unfold tidy. destruct (dedup_by _ _) as [|x l]; [by apply not_elem_of_nil in Hz|]. by exists (x :: l), z.
Qed.

Lemma tidy_none fs : tidy fs = None <-> fs = [].
Proof.
  split; [|by intros ->]. unfold tidy. destruct (dedup_by _ _) eqn:E; [|done]. intros _. apply dedup_by_nil in E.
  apply Permutation_nil_r. by rewrite <-E, sort_by_perm.
Qed.

(** Tidying again changes nothing. *)
Lemma tidy_twice fs fs' : tidy fs = Some fs' -> tidy fs' = Some fs'.
Proof.
  unfold tidy. intros H. assert (fs' = dedup_by same_fingerprint (sort_by finding_cmp fs)) as E by (destruct (dedup_by _ _); congruence).
  rewrite (sort_by_sorted_id finding_cmp fs'); [|rewrite E; eapply sublist_sorted; [apply dedup_by_sublist|apply (sort_by_sorted finding_cmp)]].
  rewrite E at 1. rewrite dedup_by_twice, <-E. destruct fs'; [by rewrite <-E in H|done].
Qed.

Lemma forms_of_elem fs fp : fp ∈ forms_of fs <-> exists f, f ∈ fs /\ fp ∈ parse_fingerprint (fingerprint f).
Proof.
  unfold forms_of. rewrite elem_of_list_to_set, list_elem_of_In, in_flat_map. split; intros (f & Hf & H); exists f;
    (split; by apply list_elem_of_In).
Qed.

Lemma tidy_forms fs fs' : tidy fs = Some fs' -> forms_of fs' = forms_of fs.
Proof.
  intros H. apply set_eq. intros fp. rewrite !forms_of_elem. split; intros (f & Hf & Hp).
  - exists f. split; [by eapply tidy_subset|done].
  - destruct (tidy_covers fs f Hf) as (l & z & E & Hz & Ef). exists z. rewrite Ef. split; [congruence|done].
Qed.

(** The repositories of a managed baseline are a map, tidied and listed by name. *)
Definition listed (m : gmap bytes (list RepositoryBaselineFinding)) : list RepositoryBaseline :=
  map (fun x => {| rb_id := fst x; findings := snd x |}) (btree_list bytes_cmp m).

Lemma omap_keys {A B} (f : bytes * A -> option (bytes * B)) l : (forall x y, f x = Some y -> fst y = fst x) ->
  sublist (omap f l).*1 l.*1.
Proof.
  intros Hf. induction l as [|x l IH]; [constructor|]. cbn. destruct (f x) as [y|] eqn:E; cbn; [rewrite (Hf _ _ E); by apply sublist_skip|by apply sublist_cons].
Qed.

Lemma keys_sorted {A} (l : list (bytes * A)) :
  StronglySorted (cmp_le (fun a b => bytes_cmp (fst a) (fst b))) l <-> StronglySorted (cmp_le bytes_cmp) l.*1.
Proof.
  induction l as [|x l IH]; [split; constructor|]. cbn. split; intros H; inversion H as [|? ? Hl Hx]; subst; (constructor; [by apply IH|]).
  - apply (Forall_fmap fst). exact Hx.
  - apply (Forall_fmap fst) in Hx. exact Hx.
Qed.

Lemma finish_listed m : omap finish_repository (btree_list bytes_cmp m) = listed (omap tidy m).
Proof.
  unfold listed. rewrite <-(btree_unique bytes_cmp (omap tidy m) (omap (fun x => (fun fs => (fst x, fs)) <$> tidy (snd x)) (btree_list bytes_cmp m))).
  - induction (btree_list bytes_cmp m) as [|[id fs] l IH]; [done|]. cbn. unfold tidy. destruct (dedup_by _ _); [exact IH|].
    cbn. f_equal. exact IH.
  - apply keys_sorted. eapply sublist_sorted; [apply omap_keys|apply keys_sorted, sort_by_sorted; apply _].
    intros [id fs] y. cbn. by intros (? & _ & ->)%fmap_Some.
  - eapply sublist_NoDup; [apply btree_nodup|apply omap_keys]. intros [id fs] y. cbn. by intros (? & _ & ->)%fmap_Some.
  - intros k v. rewrite list_elem_of_omap, lookup_omap. split.
    + intros ([id fs] & Hin & E). apply elem_of_btree in Hin. cbn in E. apply fmap_Some in E as (fs' & E & [= -> ->]). by rewrite Hin.
    + destruct (m !! k) as [fs|] eqn:E; [|done]. cbn. intros Ht. exists (k, fs). rewrite elem_of_btree. split; [done|]. cbn. by rewrite Ht.
Qed.

Lemma listed_lookup m : last_findings (listed m) = m.
Proof.
  apply map_eq. intros id. apply option_eq. intros fs. rewrite last_findings_unique.
  - unfold listed. split.
    + intros H. apply list_elem_of_fmap in H as ([i l] & [= -> ->] & H). by apply elem_of_btree in H.
    + intros H. apply list_elem_of_fmap. exists (id, fs). split; [done|]. by apply elem_of_btree.
  - unfold listed. rewrite map_map. apply btree_nodup.
Qed.

(** ** Observations *)

(** The part of a finding that does not depend on dates. *)
Definition shape (f : RepositoryBaselineFinding) : bytes * bytes * bytes * nat := (path f, fingerprint f, rule_id f, line f).

Definition same_place (f g : RepositoryBaselineFinding) : bool :=
  bytes_eqb (path f) (path g) && bytes_eqb (rule_id f) (rule_id g) && (line f =? line g).

(** The dates of a finding last baselined as [previous]. *)
Definition dated (now : bytes) (previous : option RepositoryBaselineFinding) (f : RepositoryBaselineFinding) : Prop :=
  first_seen_at f = match previous with Some p => first_seen_at p | None => now end /\
  last_updated_at f = match previous with Some p => if same_place f p then last_updated_at p else now | None => now end.

Section Observations.
Context (now : bytes) (existing : gmap FindingKey RepositoryBaselineFinding).

Definition observed (l : list (Match * FindingContext)) : gmap FindingKey RepositoryBaselineFinding := fold_left (observe now existing) l ∅.

Definition key_of (x : Match * FindingContext) : FindingKey := (repository_id (snd x), finding_fingerprint (fst x)).

Lemma observed_snoc l x : observed (l ++ [x]) =
  <[key_of x := carry_dates (existing !! key_of x)
      (match observed l !! key_of x with
       | Some current => match place_cmp (candidate now (fst x) (snd x)) current with Lt => candidate now (fst x) (snd x) | _ => current end
       | None => candidate now (fst x) (snd x)
       end)]> (observed l).
Proof. unfold observed. rewrite fold_left_app. by destruct x. Qed.

Lemma observed_domain l k : is_Some (observed l !! k) <-> exists x, x ∈ l /\ key_of x = k.
Proof.
  induction l as [|x l IH] using rev_ind.
  - unfold observed. cbn. rewrite lookup_empty. split; [by intros []|]. by intros (x & Hx%not_elem_of_nil & _).
  - rewrite observed_snoc, lookup_insert_is_Some, IH. split.
    + intros [<-|[_ (y & Hy & E)]]; [exists x|exists y]; (split; [|done]); apply elem_of_app; [right; by apply list_elem_of_singleton|by left].
    + intros (y & [Hy|Hy]%elem_of_app & E); [|apply list_elem_of_singleton in Hy as ->; by left].
      destruct (decide (key_of x = k)); [by left|right]. split; [done|]. by exists y.
Qed.

Lemma carry_shape p f : shape (carry_dates p f) = shape f.
Proof. by destruct p. Qed.

Lemma carry_dated p f : dated now p f \/ (first_seen_at f = now /\ last_updated_at f = now) -> dated now p (carry_dates p f).
Proof.
  unfold dated. destruct p as [p|]; cbn; [|tauto]. intros H. split; [done|]. unfold same_place. cbn.
  destruct (_ && _ && _) eqn:E; [done|]. destruct H as [[_ H]|[_ H]]; [|done]. unfold same_place in H. by rewrite E in H.
Qed.

Lemma observed_dated l k f : observed l !! k = Some f -> dated now (existing !! k) f /\ fingerprint f = show_usize (snd k).
Proof.
  revert f. induction l as [|x l IH] using rev_ind; intros f; [done|]. rewrite observed_snoc, lookup_insert_Some. intros [[<- <-]|[_ H]]; [|by apply IH].
  split.
  - apply carry_dated. destruct (observed l !! key_of x) as [c|] eqn:E; [|by right]. destruct (place_cmp _ c); [left|by right|left]; by apply IH.
  - pose proof (carry_shape (existing !! key_of x)) as Hc.
    assert (forall p g, fingerprint (carry_dates p g) = fingerprint g) as Hf by (by intros []). rewrite Hf. clear Hc Hf.
    destruct (observed l !! key_of x) as [c|] eqn:E; [|done]. destruct (place_cmp _ c); [|done|]; by apply IH.
Qed.
End Observations.

Lemma place_cmp_shape f f' g g' : shape f = shape f' -> shape g = shape g' -> place_cmp f g = place_cmp f' g'.
Proof. unfold shape, place_cmp. intros [= -> _ -> ->] [= -> _ -> ->]. done. Qed.

(** Which findings are observed where does not depend on earlier baselines. *)
Lemma observed_shape now1 now2 ex1 ex2 l k : shape <$> observed now1 ex1 l !! k = shape <$> observed now2 ex2 l !! k.
Proof.
  revert k. induction l as [|x l IH] using rev_ind; intros k; [done|]. rewrite !observed_snoc.
  destruct (decide (key_of x = k)) as [<-|Hne]; [|by rewrite !lookup_insert_ne]. rewrite !lookup_insert_eq. cbn. rewrite !carry_shape.
  specialize (IH (key_of x)). destruct (observed now1 ex1 l !! key_of x) as [c1|], (observed now2 ex2 l !! key_of x) as [c2|]; try done.
  cbn in IH. injection IH as IH. f_equal. erewrite (place_cmp_shape _ (candidate now2 (fst x) (snd x)) c1 c2); [|done|by unfold shape; f_equal; congruence].
  destruct (place_cmp _ c2); [|done|]; unfold shape; congruence.
Qed.

Lemma shape_dates f g : shape f = shape g -> first_seen_at f = first_seen_at g -> last_updated_at f = last_updated_at g -> f = g.
Proof. destruct f, g. unfold shape. cbn. intros [= -> -> -> ->] -> ->. done. Qed.

(** ** What is written *)

(** The observations of one repository, in the order they are pushed. *)
Definition entries (id : bytes) (l : list (FindingKey * RepositoryBaselineFinding)) : list RepositoryBaselineFinding :=
  omap (fun x => if decide (fst (fst x) = id) then Some (snd x) else None) l.

Lemma push_lookup l m id :
  fold_left push_finding l m !! id = match entries id l with [] => m !! id | fs => Some (default [] (m !! id) ++ fs) end.
Proof.
  revert m. induction l as [|[[i fp] f] l IH]; intros m; [done|]. cbn [fold_left push_finding]. rewrite IH. unfold entries. cbn.
  destruct (decide (i = id)) as [->|Hne].
  - rewrite lookup_insert_eq. cbn. destruct (omap _ l) eqn:E; cbn; [done|]. by rewrite <-app_assoc.
  - by rewrite lookup_insert_ne.
Qed.

Lemma entries_elem (id : bytes) (o : gmap FindingKey RepositoryBaselineFinding) f :
  f ∈ entries id (btree_list key_cmp o) <-> exists fp, o !! (id, fp) = Some f.
Proof.
  unfold entries. rewrite list_elem_of_omap. split.
  - intros ([[i fp] g] & Hin & E). apply elem_of_btree in Hin. cbn in E. case_decide; [|done]. injection E as ->. subst i. by exists fp.
  - intros (fp & H). exists ((id, fp), f). split; [by apply elem_of_btree|]. cbn. by rewrite decide_True.
Qed.

(** ** Existing findings *)

Definition or_insert (m : gmap FindingKey RepositoryBaselineFinding) (x : FindingKey * RepositoryBaselineFinding) :=
  match m !! fst x with Some _ => m | None => <[fst x := snd x]> m end.

(** Every finding of a baseline under each number its fingerprint can mean. *)
Definition baseline_entries (rs : list RepositoryBaseline) : list (FindingKey * RepositoryBaselineFinding) :=
  flat_map (fun r => flat_map (fun f => map (fun fp => ((rb_id r, fp), f)) (parse_fingerprint (fingerprint f))) (findings r)) rs.

Lemma existing_entries b : existing_findings b = fold_left or_insert (baseline_entries (repositories b)) ∅.
Proof.
  unfold existing_findings, baseline_entries. rewrite fold_left_flat_map. apply fold_left_ext_eq. intros m r.
  rewrite fold_left_flat_map. apply fold_left_ext_eq. intros m' f. unfold add_existing. by rewrite <-fold_left_map_arg.
Qed.

Lemma or_insert_lookup l k f : (forall m, m !! k = Some f -> fold_left or_insert l m !! k = Some f) /\
  (forall m, m !! k = None -> fold_left or_insert l m !! k = Some f -> (k, f) ∈ l) /\
  (forall m g, (k, g) ∈ l -> is_Some (fold_left or_insert l m !! k)).
Proof.
  revert k f. induction l as [|[k' f'] l IH]; intros k f; cbn [fold_left].
  - split; [done|]. split; [by intros m ->|]. by intros m g H%not_elem_of_nil.
  - destruct (IH k f) as (I1 & I2 & I3). split; [|split].
    + intros m Hm. apply I1. unfold or_insert. cbn. destruct (m !! k') eqn:E; [done|]. rewrite lookup_insert_ne; [done|]. intros ->. congruence.
    + intros m Hm. destruct (decide (k' = k)) as [->|Hne].
      * unfold or_insert at 2. cbn. rewrite Hm. intros H. destruct (IH k f') as (J1 & _ & _). rewrite J1 in H by (by rewrite lookup_insert_eq).
        injection H as ->. left.
      * intros H. right. apply (I2 (or_insert m (k', f'))); [|done]. unfold or_insert. cbn. destruct (m !! k'); [done|]. by rewrite lookup_insert_ne.
    + intros m g [[= <- <-]|H]%elem_of_cons; [|by apply I3 with g]. unfold or_insert at 2. cbn [fst snd].
      destruct (m !! k) as [x|] eqn:E; [destruct (IH k x) as (J1 & _ & _)|destruct (IH k g) as (J1 & _ & _)]; eexists; apply J1; [done|by rewrite lookup_insert_eq].
Qed.

Lemma baseline_entries_elem rs id fp f :
  ((id, fp), f) ∈ baseline_entries rs <-> exists r, r ∈ rs /\ rb_id r = id /\ f ∈ findings r /\ fp ∈ parse_fingerprint (fingerprint f).
Proof.
  unfold baseline_entries. rewrite list_elem_of_In, in_flat_map. split.
  - intros (r & Hr & H). apply in_flat_map in H as (g & Hg & H). apply in_map_iff in H as (x & [= <- <- <-] & Hx).
    exists r. repeat split; by apply list_elem_of_In.
  - intros (r & Hr & <- & Hf & Hp). exists r. split; [by apply list_elem_of_In|]. apply in_flat_map. exists f. split; [by apply list_elem_of_In|].
    apply in_map_iff. exists fp. split; [done|by apply list_elem_of_In].
Qed.

Section Managed.
Context (canonicalize : Path -> option Path) (remote_origin : Path -> option bytes).
Context (parse_url : bytes -> option Url) (json_path : bytes -> option Path).
Abbreviation resolver := (resolver_new canonicalize remote_origin parse_url).
Abbreviation contexts' := (contexts canonicalize remote_origin parse_url json_path).
Abbreviation sightings' := (sightings canonicalize remote_origin parse_url json_path).
Abbreviation build := (build_managed_baseline canonicalize remote_origin parse_url json_path).
Abbreviation apply' := (apply_loaded_baseline canonicalize remote_origin parse_url json_path).

(** The repositories a scan of these roots found something in or went through. *)
Definition scanned (store : FindingsStore) (roots : list Path) (l : list Message) : gset bytes :=
  scanned_repository_ids (resolver store roots) ∪ list_to_set (map (fun x => repository_id (snd x)) (sightings' (resolver store roots) l)).

Lemma elem_of_sightings r l m c : (m, c) ∈ sightings' r l <-> exists os b, (os, b, m) ∈ l /\ c ∈ contexts' r os.
Proof.
  unfold sightings. rewrite list_elem_of_In, in_flat_map. split.
  - intros ([[os b] m'] & Hin & H). apply in_map_iff in H as (c' & [= -> ->] & Hc). exists os, b. split; by apply list_elem_of_In.
  - intros (os & b & Hin & Hc). exists (os, b, m). split; [by apply list_elem_of_In|]. apply in_map_iff. exists c. split; [done|by apply list_elem_of_In].
Qed.

(** The findings written for each repository, before they are tidied. *)
Definition all_findings (store : FindingsStore) (b : BaselineFile) (roots : list Path) (now : bytes) (l : list Message) :
    gmap bytes (list RepositoryBaselineFinding) :=
  fold_left push_finding (btree_list key_cmp (observed now (existing_findings b) (sightings' (resolver store roots) l)))
    (fold_left (fun m rb => if decide (rb_id rb ∈ scanned store roots l) then m else <[rb_id rb := findings rb]> m) (repositories b) ∅).

Lemma build_inv store b roots now b' : build store b roots now = inr b' ->
  exists l, get_matches store = Some l /\ validate_baseline b = None /\
    b' = {| version := Some BASELINE_VERSION; fingerprint_algorithm := Some FINGERPRINT_ALGORITHM;
            repositories := listed (omap tidy (all_findings store b roots now l)); exact_findings := [] |}.
Proof.
  unfold build_managed_baseline. destruct (validate_baseline b); [done|]. destruct (get_matches store) as [l|]; [|done].
  intros [= <-]. exists l. split; [done|]. split; [done|]. by rewrite <-finish_listed.
Qed.

Lemma all_findings_lookup store b roots now l id :
  all_findings store b roots now l !! id =
  if decide (id ∈ scanned store roots l) then
    match entries id (btree_list key_cmp (observed now (existing_findings b) (sightings' (resolver store roots) l))) with
    | [] => None
    | fs => Some fs
    end
  else last_findings (repositories b) !! id.
Proof.
  unfold all_findings. rewrite push_lookup, kept_lookup. destruct (decide (id ∈ scanned store roots l)) as [Hin|Hout]; [done|].
  destruct (entries id _) as [|f fs] eqn:E; [done|]. exfalso. apply Hout.
  assert (f ∈ entries id (btree_list key_cmp (observed now (existing_findings b) (sightings' (resolver store roots) l)))) as Hf by (rewrite E; left).
  apply entries_elem in Hf as (fp & Hf). assert (is_Some (observed now (existing_findings b) (sightings' (resolver store roots) l) !! (id, fp))) as Hs by eauto.
  apply observed_domain in Hs as (x & Hx & [= <- _]). unfold scanned. apply elem_of_union_r, elem_of_list_to_set, list_elem_of_fmap. by exists x.
Qed.

Definition u64_fingerprints (store : FindingsStore) : Prop :=
  Forall (fun msg => (0 <= finding_fingerprint (snd msg) < U64_MOD)%Z) (matches store).

(** What a baseline hides of a repository. *)
Definition knows (b : BaselineFile) (id : bytes) (fp : Z) : Prop := exists known, repository_fingerprints b !! id = Some known /\ fp ∈ known.

Lemma knows_findings b id fp : knows b id fp <-> exists fs f, last_findings (repositories b) !! id = Some fs /\ f ∈ fs /\ fp ∈ parse_fingerprint (fingerprint f).
Proof.
  unfold knows. rewrite repository_fingerprints_last, lookup_fmap. split.
  - intros (k & Hk & Hf). apply fmap_Some in Hk as (fs & Hfs & ->). apply forms_of_elem in Hf as (f & H). by exists fs, f.
  - intros (fs & f & Hfs & Hf). exists (forms_of fs). rewrite Hfs. split; [done|]. apply forms_of_elem. by exists f.
Qed.

Lemma knows_tidied b m id fp : repositories b = listed (omap tidy m) ->
  knows b id fp <-> exists fs f, m !! id = Some fs /\ f ∈ fs /\ fp ∈ parse_fingerprint (fingerprint f).
Proof.
  intros Hb. rewrite knows_findings, Hb, listed_lookup, lookup_omap. destruct (m !! id) as [fs|]; cbn; [|by split; intros (? & ? & [=] & _)].
  split.
  - intros (fs' & f & Ht & Hf & Hp). exists fs, f. split; [done|]. split; [by eapply tidy_subset|done].
  - intros (fs0 & f & [= <-] & Hf & Hp). destruct (tidy_covers fs f Hf) as (fs' & z & Ht & Hz & E). exists fs', z. by rewrite E.
Qed.

(** A managed baseline knows, of each repository just scanned, the fingerprints
    its findings had (as they are read back) and nothing else, knows of every other
    repository exactly what the previous baseline did, and drops the legacy
    entries that apply everywhere. *)
Theorem managed_baseline_exact store b roots now b' : build store b roots now = inr b' ->
  exists l, get_matches store = Some l /\ legacy_fingerprints b' = ∅ /\ forall id fp,
    knows b' id fp <->
    if decide (id ∈ scanned store roots l)
    then exists os blob m c, (os, blob, m) ∈ l /\ c ∈ contexts' (resolver store roots) os /\ repository_id c = id /\
           fp ∈ parse_fingerprint (show_usize (finding_fingerprint m))
    else knows b id fp.
Proof.
  intros H. destruct (build_inv _ _ _ _ _ H) as (l & Hl & _ & E). exists l. split; [done|]. split; [by subst b'|]. intros id fp.
  rewrite (knows_tidied b' (all_findings store b roots now l)) by (by rewrite E). rewrite all_findings_lookup.
  set (o := observed now (existing_findings b) (sightings' (resolver store roots) l)). destruct (decide _) as [Hin|Hout].
  - split.
    + intros (fs & f & Hfs & Hf & Hp). assert (f ∈ entries id (btree_list key_cmp o)) as He by (destruct (entries id _); [done|congruence]).
      apply entries_elem in He as (fp0 & Ho). destruct (observed_dated _ _ _ _ _ Ho) as [_ Hfp]. cbn in Hfp. rewrite Hfp in Hp.
      assert (is_Some (o !! (id, fp0))) as Hs by eauto. apply observed_domain in Hs as ([m c] & Hx & [= <- <-]).
      apply elem_of_sightings in Hx as (os & blob & Hm & Hc). by exists os, blob, m, c.
    + intros (os & blob & m & c & Hm & Hc & <- & Hp). assert (is_Some (o !! (repository_id c, finding_fingerprint m))) as [f Hf].
      { apply observed_domain. exists (m, c). split; [|done]. apply elem_of_sightings. by exists os, blob. }
      assert (f ∈ entries (repository_id c) (btree_list key_cmp o)) as He by (apply entries_elem; by exists (finding_fingerprint m)).
      destruct (observed_dated _ _ _ _ _ Hf) as [_ Hfp]. destruct (entries _ _) as [|x fs] eqn:Ee; [by apply not_elem_of_nil in He|].
      exists (x :: fs), f. split; [done|]. split; [done|]. by rewrite Hfp.
  - symmetry. apply knows_findings.
Qed.

Lemma knows_is_known b r msg : (forall c, c ∈ contexts' r (fst (fst msg)) -> knows b (repository_id c) (finding_fingerprint (snd msg))) ->
  contexts' r (fst (fst msg)) <> [] ->
  is_known canonicalize remote_origin parse_url json_path (legacy_fingerprints b) (repository_fingerprints b) r msg = true.
Proof.
  destruct msg as [[os blob] m]. cbn. intros H Hne. apply orb_true_iff. right. apply andb_true_iff. split; [by destruct (contexts' r os)|].
  apply forallb_forall. intros c Hc. destruct (H c) as (k & -> & Hk); [by apply list_elem_of_In|]. by apply bool_decide_eq_true.
Qed.

(** C30. After a scan the managed baseline hides that scan: applied to the same
    findings, it succeeds and leaves no finding visible that belongs to a
    repository, changing nothing else about any of them. *)
Theorem managing_hides_scan store b roots now b' : u64_fingerprints store -> build store b roots now = inr b' ->
  exists s', apply' store b' roots = inr s' /\
    Forall2 (fun msg msg' => fst msg' = fst msg /\ (snd msg' = snd msg \/ snd msg' = hide (snd msg)) /\
                             (contexts' (resolver store roots) (fst (fst msg)) <> [] -> match_visible (snd msg') = false))
      (matches store) (matches s').
Proof.
  intros Hu H. destruct (managed_baseline_exact _ _ _ _ _ H) as (l & Hl & _ & Hk). destruct (build_inv _ _ _ _ _ H) as (l0 & _ & _ & Eb).
  assert (validate_baseline b' = None) as Hv by (by subst b'). clear Eb.
  assert (matches store = l) as El by (unfold get_matches in Hl; destruct (assert_restored store); congruence).
  unfold apply_loaded_baseline. rewrite Hv, Hl. eexists. split; [done|]. cbn [matches with_matches]. rewrite El.
  unfold u64_fingerprints in Hu. rewrite El in Hu.
  assert (forall msg, msg ∈ l -> contexts' (resolver store roots) (fst (fst msg)) <> [] ->
    is_known canonicalize remote_origin parse_url json_path (legacy_fingerprints b') (repository_fingerprints b') (resolver store roots) msg = true) as Hknown.
  { intros [[os blob] m] Hin Hne. apply knows_is_known; [|done]. intros c Hc. apply Hk. rewrite decide_True.
    - exists os, blob, m, c. split; [done|]. split; [done|]. split; [done|]. apply parse_fingerprint_decimal.
      by apply (proj1 (Forall_forall _ _) Hu _ Hin).
    - unfold scanned. apply elem_of_union_r, elem_of_list_to_set, list_elem_of_fmap. exists (m, c). split; [done|].
      apply elem_of_sightings. by exists os, blob. }
  clear -Hknown. induction l as [|[[os blob] m] l IH]; [constructor|]. cbn [map]. constructor; [|apply IH; intros msg Hm; apply Hknown; by right].
  specialize (Hknown (os, blob, m) ltac:(left)). destruct (is_known _ _ _ _ _ _ _ (os, blob, m)); cbn.
  - split; [done|]. split; [by right|done].
  - split; [done|]. split; [by left|]. intros Hne. by specialize (Hknown Hne).
Qed.

(** Fingerprints that are not read as one another: sixteen decimal digits could
    also be hexadecimal. *)
Definition unambiguous (store : FindingsStore) : Prop :=
  forall m1 m2, m1 ∈ matches store -> m2 ∈ matches store ->
    finding_fingerprint (snd m2) ∈ parse_fingerprint (show_usize (finding_fingerprint (snd m1))) -> finding_fingerprint (snd m1) = finding_fingerprint (snd m2).

(** The baseline just written lists each observation under its fingerprint. *)
Lemma existing_of_managed store b roots now b' l : u64_fingerprints store -> unambiguous store -> matches store = l ->
  b' = {| version := Some BASELINE_VERSION; fingerprint_algorithm := Some FINGERPRINT_ALGORITHM;
          repositories := listed (omap tidy (all_findings store b roots now l)); exact_findings := [] |} ->
  forall k f, observed now (existing_findings b) (sightings' (resolver store roots) l) !! k = Some f -> existing_findings b' !! k = Some f.
Proof.
  intros Hu Hun Hl Hb' [id fp] f Hf. set (o := observed _ _ _) in *.
  assert (forall id fp g, o !! (id, fp) = Some g -> exists m, m ∈ matches store /\ finding_fingerprint (snd m) = fp /\ fingerprint g = show_usize fp /\
    id ∈ scanned store roots l) as Ho.
  { intros id0 fp0 g Hg. destruct (observed_dated _ _ _ _ _ Hg) as [_ Hfp]. assert (is_Some (o !! (id0, fp0))) as Hs by eauto.
    apply observed_domain in Hs as ([m c] & Hx & [= <- <-]). pose proof Hx as Hx'. apply elem_of_sightings in Hx' as (os & blob & Hm & Hc).
    exists (os, blob, m). rewrite Hl. repeat split; try done. unfold scanned. apply elem_of_union_r, elem_of_list_to_set, list_elem_of_fmap. by exists (m, c). }
  destruct (Ho _ _ _ Hf) as (m & Hm & Em & Ef & Hid). unfold u64_fingerprints in Hu. rewrite Forall_forall in Hu.
  assert (forall g fs, all_findings store b roots now l !! id = Some fs -> g ∈ fs -> exists fp', o !! (id, fp') = Some g) as Hall.
  { intros g fs Hfs Hg. rewrite all_findings_lookup, decide_True in Hfs by done. apply entries_elem. fold o in Hfs. destruct (entries id _); congruence. }
  (* the finding listed for this fingerprint is the observation *)
  assert (forall g fs, all_findings store b roots now l !! id = Some fs -> g ∈ fs -> fp ∈ parse_fingerprint (fingerprint g) -> g = f) as Huniq.
  { intros g fs Hfs Hg Hp. destruct (Hall g fs Hfs Hg) as (fp' & Hg'). destruct (Ho _ _ _ Hg') as (m' & Hm' & Em' & Eg & _).
    rewrite Eg in Hp. assert (fp' = fp) as -> by (rewrite <-Em', <-Em; apply Hun; [done|done|]; by rewrite Em, Em'). congruence. }
  assert (exists fs, all_findings store b roots now l !! id = Some fs /\ f ∈ fs) as (fs & Hfs & Hin).
  { rewrite all_findings_lookup, decide_True by done. fold o. assert (f ∈ entries id (btree_list key_cmp o)) as He by (apply entries_elem; by exists fp).
    destruct (entries id _); [by apply not_elem_of_nil in He|eauto]. }
  assert (forall r, r ∈ repositories b' <-> exists fs, all_findings store b roots now l !! rb_id r = Some fs /\ tidy fs = Some (findings r)) as Hr.
  { intros [i gs]. rewrite Hb'. cbn [repositories rb_id findings]. unfold listed. rewrite list_elem_of_fmap. split.
    - intros ([i' gs'] & [= -> ->] & H). apply elem_of_btree in H. rewrite lookup_omap in H. by apply bind_Some in H.
    - intros (fs' & H1 & H2). exists (i, gs). split; [done|]. apply elem_of_btree. rewrite lookup_omap, H1. done. }
  rewrite existing_entries. destruct (tidy_covers fs f Hin) as (gs & z & Ht & Hz & Ez).
  assert (z = f) as -> by (apply (Huniq z fs Hfs); [by eapply tidy_subset|]; rewrite Ez, Ef; apply parse_fingerprint_decimal; rewrite <-Em; by apply Hu).
  assert (((id, fp), f) ∈ baseline_entries (repositories b')) as He.
  { apply baseline_entries_elem. exists {| rb_id := id; findings := gs |}. split; [apply Hr; by exists fs|]. split; [done|]. split; [done|].
    rewrite Ef. apply parse_fingerprint_decimal. rewrite <-Em. by apply Hu. }
  destruct (or_insert_lookup (baseline_entries (repositories b')) (id, fp) f) as (_ & _ & H3). destruct (H3 ∅ f He) as [g Hg]. rewrite Hg.
  destruct (or_insert_lookup (baseline_entries (repositories b')) (id, fp) g) as (_ & H2 & _). specialize (H2 ∅ (lookup_empty _) Hg).
  apply baseline_entries_elem in H2 as (r & Hr' & Eid & Hg' & Hp). apply Hr in Hr' as (fs' & Hfs' & Ht'). rewrite Eid in Hfs'.
  f_equal. eapply Huniq; [exact Hfs'|by eapply tidy_subset|done].
Qed.

Lemma build_eq store b roots now l : get_matches store = Some l -> validate_baseline b = None ->
  build store b roots now =
  inr {| version := Some BASELINE_VERSION; fingerprint_algorithm := Some FINGERPRINT_ALGORITHM;
         repositories := listed (omap tidy (all_findings store b roots now l)); exact_findings := [] |}.
Proof. intros Hl Hv. unfold build_managed_baseline. rewrite Hv, Hl. by rewrite <-finish_listed. Qed.

(** Managing a baseline is stable: the same scan managed again, at any later
    time, writes exactly the same file, dates included, so that an unchanged
    baseline is not rewritten, as long as no two fingerprints can be read as one
    another. *)
Theorem managing_is_stable store b roots now now' b' : u64_fingerprints store -> unambiguous store ->
  build store b roots now = inr b' -> build store b' roots now' = inr b'.
Proof.
  intros Hu Hun H. destruct (build_inv _ _ _ _ _ H) as (l & Hl & _ & Eb).
  assert (matches store = l) as El by (unfold get_matches in Hl; destruct (assert_restored store); congruence).
  assert (validate_baseline b' = None) as Hv by (by rewrite Eb). rewrite (build_eq store b' roots now' l Hl Hv). f_equal. rewrite Eb at 2.
  do 2 f_equal. set (l' := sightings' (resolver store roots) l).
  assert (observed now' (existing_findings b') l' = observed now (existing_findings b) l') as Eo.
  { apply map_eq. intros k. pose proof (observed_shape now' now (existing_findings b') (existing_findings b) l' k) as Es.
    destruct (observed now (existing_findings b) l' !! k) as [f|] eqn:E1; [|by apply fmap_None in Es].
    destruct (observed now' (existing_findings b') l' !! k) as [g|] eqn:E2; [|done]. f_equal.
    pose proof (existing_of_managed store b roots now b' l Hu Hun El Eb k f E1) as Hex.
    destruct (observed_dated _ _ _ _ _ E2) as [[D1 D2] _]. rewrite Hex in D1, D2. cbn in Es. injection Es as Ep Ef Er En.
    apply shape_dates; [by unfold shape; congruence|done|]. rewrite D2. unfold same_place, bytes_eqb. rewrite Ep, Er, En.
    rewrite !bool_decide_true by done. by rewrite Nat.eqb_refl. }
  apply map_eq. intros id. rewrite !lookup_omap, !all_findings_lookup. fold l'. rewrite Eo.
  destruct (decide (id ∈ scanned store roots l)) as [|Hout]; [done|]. rewrite Eb. cbn [repositories]. rewrite listed_lookup, lookup_omap.
  rewrite all_findings_lookup, decide_False by done. destruct (last_findings (repositories b) !! id) as [fs|]; [|done]. cbn.
  destruct (tidy fs) as [fs'|] eqn:Et; [|done]. cbn. by apply (tidy_twice fs).
Qed.
End Managed.

(** ** Concrete runs *)

Definition demo_findings : FindingsStore := demo_repo [demo_finding 1 0 (bs "key1"); demo_finding 2 5 (bs "key2")].
Definition demo_roots : list Path := [[RootDir]].
Definition demo_old : BaselineFile :=
  {| version := None; fingerprint_algorithm := None;
     repositories := [{| rb_id := bs "git://h/other"; findings := [{| path := bs "p"; fingerprint := bs "00000000000000ff"; rule_id := bs "R";
       line := 3; first_seen_at := bs "t0"; last_updated_at := bs "t0" |}] |}];
     exact_findings := [] |}.
Abbreviation demo_build := (build_managed_baseline (fun _ => None) (fun _ => None) (fun _ => None) (fun _ => None)).
Definition demo_managed (b : BaselineFile) (now : bytes) : BaselineFile :=
  match demo_build demo_findings b demo_roots now with inr b' => b' | inl _ => demo_old end.

Example demo_managed_repositories :
  map (fun r => (rb_id r, map (fun f => (path f, fingerprint f, line f)) (findings r))) (repositories (demo_managed demo_old (bs "t1"))) =
  [(bs "git://h/other", [(bs "p", bs "00000000000000ff", 3)]); (bs "local:///", [(bs "a", bs "1", 0); (bs "a", bs "7", 0)])].
Proof. vm_compute. reflexivity. Qed.

Lemma demo_build_ok b now : validate_baseline b = None -> demo_build demo_findings b demo_roots now = inr (demo_managed b now).
Proof. intros H. unfold demo_managed, build_managed_baseline. rewrite H. reflexivity. Qed.

Lemma demo_u64 : u64_fingerprints demo_findings.
Proof. unfold u64_fingerprints. apply (bool_decide_unpack _). vm_compute. exact I. Qed.

Lemma demo_unambiguous : unambiguous demo_findings.
Proof.
  assert (forallb (fun m1 => forallb (fun m2 =>
    negb (bool_decide (finding_fingerprint (snd m2) ∈ parse_fingerprint (show_usize (finding_fingerprint (snd m1)))))
    || (finding_fingerprint (snd m1) =? finding_fingerprint (snd m2))%Z) (matches demo_findings)) (matches demo_findings) = true) as H
    by (vm_compute; reflexivity).
  intros m1 m2 H1 H2 Hin. rewrite forallb_forall in H. specialize (H m1 (proj1 (list_elem_of_In _ _) H1)). rewrite forallb_forall in H.
  specialize (H m2 (proj1 (list_elem_of_In _ _) H2)). apply orb_true_iff in H as [H|H]; [|by apply Z.eqb_eq].
  apply negb_true_iff, bool_decide_eq_false in H. done.
Qed.

Lemma parse_fingerprint_forms_witness : 7%Z ∈ parse_fingerprint (show_usize 7) /\ 7%Z ∈ parse_fingerprint (show_hex 16 7 []).
Proof. destruct (parse_fingerprint_forms 7) as (H1 & H2 & _); [by split|]. by split. Defined.

Lemma managed_baseline_exact_witness : exists l, get_matches demo_findings = Some l /\ legacy_fingerprints (demo_managed demo_old (bs "t1")) = ∅.
Proof.
  destruct (managed_baseline_exact (fun _ => None) (fun _ => None) (fun _ => None) (fun _ => None) demo_findings demo_old demo_roots (bs "t1") _
    (demo_build_ok demo_old (bs "t1") eq_refl)) as (l & H1 & H2 & _).
  by exists l.
Defined.

Lemma managing_hides_scan_witness :
  exists s', apply_loaded_baseline (fun _ => None) (fun _ => None) (fun _ => None) (fun _ => None) demo_findings (demo_managed demo_old (bs "t1")) demo_roots = inr s'.
Proof.
  destruct (managing_hides_scan (fun _ => None) (fun _ => None) (fun _ => None) (fun _ => None) demo_findings demo_old demo_roots (bs "t1") _
    demo_u64 (demo_build_ok demo_old (bs "t1") eq_refl)) as (s' & H & _).
  by exists s'.
Defined.

Lemma managing_is_stable_witness :
  demo_build demo_findings (demo_managed demo_old (bs "t1")) demo_roots (bs "t2") = inr (demo_managed demo_old (bs "t1")).
Proof.
  apply (managing_is_stable (fun _ => None) (fun _ => None) (fun _ => None) (fun _ => None) demo_findings demo_old demo_roots (bs "t1") (bs "t2") _
    demo_u64 demo_unambiguous (demo_build_ok demo_old (bs "t1") eq_refl)).
Defined.
