(* ===== verification/Retry.v ===== *)
(** * Bounded retries: [src/github/retry.rs]

    The responses of the service, the clock and the jitter are parameters indexed
    by the attempt; the loop returns its answer with the waits it made. A
    [Duration] is a number of nanoseconds. JSON and RFC 2822 dates are parameters;
    logging and the asynchronous runtime are not modelled. *)

From Stdlib Require Import ZArith Lia Bool.
From stdpp Require Import base list numbers option.
From S2P Require Import Prelude Text.
Open Scope kf_scope.

(** ** Durations *)

Definition SECOND : Z := 1000000000.
Definition MILLISECOND : Z := 1000000.
Definition from_secs (s : Z) : Z := (s * SECOND)%Z.
Definition from_millis (m : Z) : Z := (m * MILLISECOND)%Z.

Definition MAX_RETRIES : nat := 3.
Definition DEFAULT_MAX_RETRY_WAIT : Z := from_secs 120.
Definition MAX_FORBIDDEN_BODY_BYTES : nat := 64 * 1024.

(** ** Responses *)

(** What a body's stream gives next; a [Stalled] one until its deadline. *)
Inductive Chunk := Data (b : bytes) | Broken | Stalled.

(** Header names are in lower case. *)
Record Response := { status : Z; headers : list (bytes * bytes); stream : list Chunk }.

Inductive SendError := NotReplayable | Transport | Body.

Definition FORBIDDEN : Z := 403.
Definition TOO_MANY_REQUESTS : Z := 429.
Definition is_server_error (status : Z) : bool := (500 <=? status)%Z && (status <? 600)%Z.

Definition RETRY_AFTER : bytes := bs "retry-after".
Definition REMAINING : bytes := bs "x-ratelimit-remaining".
Definition RESET : bytes := bs "x-ratelimit-reset".

Definition header (h : list (bytes * bytes)) (name : bytes) : option bytes := snd <$> List.find (fun x => bytes_eqb (fst x) name) h.
(** [HeaderValue::to_str]: visible ASCII, spaces and tabs. *)
Definition to_str (v : bytes) : option bytes := if forallb (fun b => (32 ≤? b ≤? 126) || (b ==? 9)) v then Some v else None.

Definition header_u64 (h : list (bytes * bytes)) (name : bytes) : option Z :=
  match header h name with
  | None => None
  | Some v => match to_str v with None => None | Some s => parse_usize (trim s) end
  end.
Definition exhausted (h : list (bytes * bytes)) : bool := bool_decide (header_u64 h REMAINING = Some 0%Z).
Definition has_rate_limit_headers (h : list (bytes * bytes)) : bool :=
  match header h RETRY_AFTER with Some _ => true | None => false end || exhausted h.

(** [read_body_prefix]; [None]: the stream broke or the deadline passed. *)
Fixpoint read_body_prefix (l : list Chunk) (max_bytes : nat) (body : bytes) : option bytes :=
  if length body <? max_bytes then
    match l with
    | [] => Some body
    | Data chunk :: l => read_body_prefix l max_bytes (body ++ take (Nat.min (length chunk) (max_bytes - length body)) chunk)
    | Broken :: _ | Stalled :: _ => None
    end
  else Some body.

Definition parse_max_retry_wait (clock_limit : Z) (value : option bytes) : option Z :=
  match value with
  | None => Some DEFAULT_MAX_RETRY_WAIT
  | Some v =>
    match parse_usize (trim v) with
    | None => None
    | Some seconds => if (from_secs seconds <=? clock_limit)%Z then Some (from_secs seconds) else None
    end
  end.

Section Retry.
Context (message_of : bytes -> option bytes) (parse_from_rfc2822 : bytes -> option Z).

(** ** Delays *)

Definition rate_limit_message (body : bytes) : bool :=
  match message_of body with
  | None => false
  | Some m => let m := str_to_ascii_lowercase m in contains_sub (bs "rate limit") m || contains_sub (bs "abuse detection") m
  end.

(** [now] in nanoseconds since the epoch. *)
Definition retry_after (h : list (bytes * bytes)) (now : Z) : option Z :=
  match header h RETRY_AFTER with
  | None => None
  | Some v =>
    match to_str v with
    | None => None
    | Some s =>
      match parse_usize (trim s) with
      | Some seconds => Some (from_secs seconds)
      | None =>
        match parse_from_rfc2822 (trim s) with
        | None => None
        | Some date => Some (Z.max 0 (date - now))
        end
      end
    end
  end.

Definition is_rate_limited (status : Z) (h : list (bytes * bytes)) (body : bytes) : bool :=
  (status =? TOO_MANY_REQUESTS)%Z || ((status =? FORBIDDEN)%Z && (has_rate_limit_headers h || rate_limit_message body)).

Definition reset_delay (h : list (bytes * bytes)) (now : Z) : option Z :=
  if exhausted h then
    (fun reset => from_secs (saturating_add (saturating_sub reset (Z.max 0 (now / SECOND))) 1)) <$> header_u64 h RESET
  else None.

(** [into_iter().chain().max()] *)
Definition max_option (a b : option Z) : option Z :=
  match a, b with Some x, Some y => Some (Z.max x y) | Some x, None => Some x | None, b => b end.

Definition backoff (rate_limited : bool) (retries : nat) : Z :=
  ((if rate_limited then 60 else 1) * Z.shiftl 1 (Z.of_nat (Nat.min retries MAX_RETRIES)))%Z.

(** [jitter base]: the random milliseconds, at most [base * 250]. *)
Definition retry_delay (status : Z) (h : list (bytes * bytes)) (body : bytes) (retries : nat) (now : Z) (jitter : Z -> Z) : option Z :=
  let rate_limited := is_rate_limited status h body in
  if negb rate_limited && negb (is_server_error status) then None
  else
    match max_option (retry_after h now) (reset_delay h now) with
    | Some delay => Some delay
    | None =>
      let base := backoff rate_limited retries in
      Some (from_secs base + from_millis (jitter base))%Z
    end.

(** ** The loop *)

(** The service: whether a request can be made and what each attempt is answered. *)
Context (make_request : nat -> bool) (respond : nat -> option Response) (now : nat -> Z) (jitter : nat -> Z -> Z).

(** The body of a forbidden response without rate-limit headers is read, a prefix
    of it, and the response keeps just that. *)
Definition forbidden_body (r : Response) : option (Response * bytes) :=
  if (status r =? FORBIDDEN)%Z && negb (has_rate_limit_headers (headers r)) then
    match read_body_prefix (stream r) MAX_FORBIDDEN_BODY_BYTES [] with
    | None => None
    | Some body =>
      Some ({| status := FORBIDDEN;
               headers := List.filter (fun x => negb (bytes_eqb (fst x) (bs "content-length") || bytes_eqb (fst x) (bs "transfer-encoding"))) (headers r);
               stream := [Data body] |}, body)
    end
  else Some (r, []).

(** One attempt: the response and the delay it asks for, if it can be retried. *)
Definition attempt (retries : nat) : SendError + (Response * option Z) :=
  if negb (make_request retries) then inl NotReplayable
  else
    match respond retries with
    | None => inl Transport
    | Some r =>
      match forbidden_body r with
      | None => inl Body
      | Some (r, body) => inr (r, retry_delay (status r) (headers r) body retries (now retries) (jitter retries))
      end
    end.

(** The answer and the waits made; [None]: out of fuel. *)
Fixpoint send_loop (fuel : nat) (max_retry_wait : Z) (retries : nat) (waited : Z) : option ((SendError + Response) * list Z) :=
  match fuel with
  | 0 => None
  | S fuel =>
    match attempt retries with
    | inl e => Some (inl e, [])
    | inr (r, None) => Some (inr r, [])
    | inr (r, Some delay) =>
      if MAX_RETRIES <=? retries then Some (inr r, [])
      else if (Z.max 0 (max_retry_wait - waited) <? delay)%Z then Some (inr r, [])
      else
        match send_loop fuel max_retry_wait (S retries) (waited + delay) with
        | None => None
        | Some (answer, waits) => Some (answer, delay :: waits)
        end
    end
  end.

Definition send_with_sleep (max_retry_wait : Z) : option ((SendError + Response) * list Z) := send_loop (S MAX_RETRIES) max_retry_wait 0 0.
Definition send : option ((SendError + Response) * list Z) := send_with_sleep DEFAULT_MAX_RETRY_WAIT.
(** The synchronous loop has the default budget. *)
Definition send_blocking_with_sleep : option ((SendError + Response) * list Z) := send_loop (S MAX_RETRIES) DEFAULT_MAX_RETRY_WAIT 0 0.
End Retry.

(** ** Delays *)

Section Delays.
Context (message_of : bytes -> option bytes) (parse_from_rfc2822 : bytes -> option Z).
Abbreviation delay_of := (retry_delay message_of parse_from_rfc2822).

(** [rand::random_range(0..=base * 250)] *)
Definition jitter_ok (jitter : Z -> Z) : Prop := forall base, (0 <= base)%Z -> (0 <= jitter base <= base * 250)%Z.

Lemma backoff_positive rate_limited retries : (0 < backoff rate_limited retries)%Z.
Proof.
  unfold backoff. rewrite Z.shiftl_1_l. apply Z.mul_pos_pos; [by destruct rate_limited|]. apply Z.pow_pos_nonneg; lia.
Qed.

Lemma retry_after_nonneg h now d : retry_after parse_from_rfc2822 h now = Some d -> (0 <= d)%Z.
Proof.
  unfold retry_after, from_secs, SECOND. repeat case_match; try done; intros [= <-]; [|lia].
  match goal with H : parse_usize _ = Some _ |- _ => apply parse_usize_range in H; lia end.
Qed.

Lemma reset_delay_nonneg h now d : reset_delay h now = Some d -> (0 <= d)%Z.
Proof.
  unfold reset_delay, from_secs, SECOND, saturating_add, saturating_sub, USIZE_MAX, U64_MOD. destruct (exhausted h); [|done].
  intros (r & _ & ->)%fmap_Some. lia.
Qed.

Lemma max_option_some a b d : max_option a b = Some d ->
  (forall x, a = Some x -> (x <= d)%Z) /\ (forall x, b = Some x -> (x <= d)%Z) /\ (a = Some d \/ b = Some d).
Proof.
  destruct a as [x|], b as [y|]; cbn; intros [= <-]; (split; [|split]); try (intros z [= <-]); try lia; try done; try (by left); try (by right).
  destruct (Z.max_spec x y) as [[_ ->]|[_ ->]]; [by right|by left].
Qed.

Lemma header_u64_range h name v : header_u64 h name = Some v -> (0 <= v < U64_MOD)%Z.
Proof. unfold header_u64. repeat case_match; try done. apply parse_usize_range. Qed.

Lemma delay_nonneg status h body retries now jitter d : jitter_ok jitter -> delay_of status h body retries now jitter = Some d -> (0 <= d)%Z.
Proof.
  intros Hj. unfold retry_delay. destruct (_ && _); [done|]. destruct (max_option _ _) as [x|] eqn:E.
  - intros [= <-]. apply max_option_some in E as (_ & _ & [E|E]); [by eapply retry_after_nonneg|by eapply reset_delay_nonneg].
  - intros [= <-]. pose proof (backoff_positive (is_rate_limited message_of status h body) retries) as Hb.
    pose proof (Hj (backoff (is_rate_limited message_of status h body) retries) ltac:(lia)).
    unfold from_secs, from_millis, SECOND, MILLISECOND. lia.
Qed.

(** When a delay is asked for and how long it is: exactly the rate-limited and
    the server-error responses are retried; a wait is at least the seconds or the
    time until the date that Retry-After names; it ends past the second at which an
    exhausted limit is reset; and without such headers it is the exponential step,
    one second or a minute doubled per retry, with at most a quarter of jitter. *)
Theorem retry_delay_respects status h body retries now jitter : jitter_ok jitter -> (SECOND <= now)%Z ->
  (delay_of status h body retries now jitter = None <-> is_rate_limited message_of status h body = false /\ is_server_error status = false) /\
  forall d, delay_of status h body retries now jitter = Some d ->
    (forall wait, retry_after parse_from_rfc2822 h now = Some wait -> (wait <= d)%Z) /\
    (forall reset, exhausted h = true -> header_u64 h RESET = Some reset -> (from_secs (reset + 1) <= now + d)%Z) /\
    (retry_after parse_from_rfc2822 h now = None -> reset_delay h now = None ->
       let step := from_secs ((if is_rate_limited message_of status h body then 60 else 1) * 2 ^ Z.of_nat (Nat.min retries MAX_RETRIES)) in
       (step <= d <= step + step / 4)%Z).
Proof.
  intros Hj Hnow. unfold retry_delay. set (limited := is_rate_limited message_of status h body). split.
  - destruct limited, (is_server_error status); cbn; try (destruct (max_option _ _)); split; try done; by intros [? ?].
  - intros d. destruct (negb limited && _); [done|]. intros H. destruct (max_option _ _) as [x|] eqn:E.
    + injection H as ->. apply max_option_some in E as (E1 & E2 & E3). split; [exact E1|]. split.
      * intros reset He Hr. pose proof (header_u64_range _ _ _ Hr) as Hreset. unfold reset_delay in E2. rewrite He, Hr in E2. specialize (E2 _ eq_refl).
        unfold saturating_add, saturating_sub, USIZE_MAX, from_secs, SECOND in *. pose proof (Z.div_mod now 1000000000 ltac:(lia)).
        pose proof (Z.mod_pos_bound now 1000000000 ltac:(lia)). assert (1 <= now / 1000000000)%Z by (apply Z.div_le_lower_bound; lia). lia.
      * intros N1 N2. rewrite N1, N2 in E3. by destruct E3.
    + injection H as <-. destruct (retry_after _ _ _) as [|] eqn:Ea; [by destruct (reset_delay h now)|]. cbn in E. split; [done|]. split.
      * intros reset He Hr. unfold reset_delay in E. by rewrite He, Hr in E.
      * intros _ _. unfold backoff. rewrite Z.shiftl_1_l. set (base := (_ * 2 ^ _)%Z). assert (0 <= base)%Z as Hb
          by (apply Z.mul_nonneg_nonneg; [by destruct limited|apply Z.pow_nonneg; lia]).
        pose proof (Hj base Hb). unfold from_secs, from_millis, SECOND, MILLISECOND in *. dlia.
Qed.
End Delays.

(** ** The loop *)

Section Loop.
Context (message_of : bytes -> option bytes) (parse_from_rfc2822 : bytes -> option Z).
Context (make_request : nat -> bool) (respond : nat -> option Response) (now : nat -> Z) (jitter : nat -> Z -> Z).
Abbreviation attempt' := (attempt message_of parse_from_rfc2822 make_request respond now jitter).
Abbreviation loop := (send_loop message_of parse_from_rfc2822 make_request respond now jitter).

Definition sum (l : list Z) : Z := foldr Z.add 0%Z l.

(** The answer after the attempts that led to these waits. *)
Definition final (budget : Z) (n : nat) (waited : Z) (answer : SendError + Response) : Prop :=
  match answer with
  | inl e => attempt' n = inl e
  | inr r => exists d, attempt' n = inr (r, d) /\
      match d with None => True | Some delay => MAX_RETRIES <= n \/ (Z.max 0 (budget - waited) < delay)%Z end
  end.

Lemma attempt_nonneg n r d : jitter_ok (jitter n) -> attempt' n = inr (r, Some d) -> (0 <= d)%Z.
Proof.
  intros Hj. unfold attempt. repeat case_match; try done. intros E. injection E as <- E. by eapply delay_nonneg.
Qed.

Lemma loop_spec fuel : forall budget retries waited, MAX_RETRIES < fuel + retries -> retries <= MAX_RETRIES ->
  (forall n, jitter_ok (jitter n)) -> (0 <= waited)%Z ->
  exists answer waits, loop fuel budget retries waited = Some (answer, waits) /\ length waits <= MAX_RETRIES - retries /\
    (forall i d, waits !! i = Some d -> exists r, attempt' (retries + i) = inr (r, Some d)) /\
    (0 <= sum waits)%Z /\ (waited + sum waits <= Z.max waited budget)%Z /\
    final budget (retries + length waits) (waited + sum waits) answer.
Proof.
  induction fuel as [|fuel IH]; intros budget retries waited Hf Hr Hj Hw; [lia|]. cbn [send_loop].
  assert (forall answer, final budget retries waited answer -> exists answer' waits, Some (answer, []) = Some (answer', waits) /\
    length waits <= MAX_RETRIES - retries /\ (forall i d, waits !! i = Some d -> exists r, attempt' (retries + i) = inr (r, Some d)) /\
    (0 <= sum waits)%Z /\ (waited + sum waits <= Z.max waited budget)%Z /\ final budget (retries + length waits) (waited + sum waits) answer') as Hstop.
  { intros answer Ha. exists answer, []. cbn [length sum foldr]. rewrite Nat.add_0_r, Z.add_0_r. split; [done|]. split; [lia|]. split; [done|].
    split; [lia|]. split; [lia|done]. }
  destruct (attempt' retries) as [e|[r [delay|]]] eqn:Ea; [by apply Hstop| |apply Hstop; by exists None].
  destruct (MAX_RETRIES <=? retries) eqn:Em; [apply Hstop; exists (Some delay); split; [done|left; by apply Nat.leb_le]|].
  destruct (Z.max 0 (budget - waited) <? delay)%Z eqn:Eb; [apply Hstop; exists (Some delay); split; [done|right; lia]|].
  apply Nat.leb_gt in Em. apply Z.ltb_ge in Eb. pose proof (attempt_nonneg _ _ _ (Hj retries) Ea) as Hd.
  destruct (IH budget (S retries) (waited + delay)%Z) as (answer & waits & E & Hlen & Hall & Hs & Hsum & Hfin); [lia|lia|done|lia|].
  rewrite E. exists answer, (delay :: waits). split; [done|]. cbn [length sum foldr]. fold (sum waits). split; [lia|]. split; [|split; [lia|split]].
  - intros [|i] d Hi; [injection Hi as <-; rewrite Nat.add_0_r; eauto|]. rewrite Nat.add_succ_r. exact (Hall i d Hi).
  - lia.
  - rewrite Nat.add_succ_r, Z.add_assoc. exact Hfin.
Qed.

(** Sending always answers, after at most three retries, and waits no longer
    than its budget in all. Every wait is the delay the attempt before it asked
    for, and the answer is the last attempt's: an error as it happened, or a
    response that cannot be retried, was the last allowed, or asks for more than is
    left of the budget. *)
Theorem send_bounded budget : (forall n, jitter_ok (jitter n)) ->
  exists answer waits, send_with_sleep message_of parse_from_rfc2822 make_request respond now jitter budget = Some (answer, waits) /\
    length waits <= MAX_RETRIES /\ (0 <= sum waits <= Z.max 0 budget)%Z /\
    (forall i d, waits !! i = Some d -> exists r, attempt' i = inr (r, Some d)) /\
    final budget (length waits) (sum waits) answer.
Proof.
  intros Hj. destruct (loop_spec (S MAX_RETRIES) budget 0 0) as (answer & waits & E & H1 & H2 & H3 & H4 & H5); [lia|lia|done|lia|].
  exists answer, waits. cbn [Nat.add] in *. rewrite Z.add_0_l in *. split; [exact E|]. split; [lia|]. split; [lia|]. by split.
Qed.

(** C32. A transient failure is ridden out: when the service recovers within three
    retries and the delays it asks for fit the budget, its response is the answer. *)
Theorem send_rides_out budget delays r : length delays <= MAX_RETRIES -> (sum delays <= budget)%Z -> Forall (fun d => (0 <= d)%Z) delays ->
  (forall i d, delays !! i = Some d -> exists r, attempt' i = inr (r, Some d)) -> attempt' (length delays) = inr (r, None) ->
  send_with_sleep message_of parse_from_rfc2822 make_request respond now jitter budget = Some (inr r, delays).
Proof.
  intros Hlen Hsum Hpos Hd Hr.
  assert (forall fuel retries waited l, length l < fuel -> retries + length l = length delays -> (0 <= waited)%Z -> (waited + sum l <= budget)%Z ->
    Forall (fun d => (0 <= d)%Z) l -> (forall i d, l !! i = Some d -> exists r, attempt' (retries + i) = inr (r, Some d)) ->
    loop fuel budget retries waited = Some (inr r, l)) as H.
  { induction fuel as [|fuel IH]; intros retries waited l Hf Hl Hw Hb Hp Ha; [lia|]. cbn [send_loop]. destruct l as [|d l].
    - cbn [length] in Hl. rewrite Nat.add_0_r in Hl. by rewrite Hl, Hr.
    - destruct (Ha 0 d eq_refl) as [r' E]. rewrite Nat.add_0_r in E. rewrite E. apply Forall_cons in Hp as [Hd0 Hp].
      cbn [length sum foldr] in *. fold (sum l) in Hb. assert (0 <= sum l)%Z as Hs by (clear -Hp; induction Hp; cbn; [lia|]; unfold sum in *; lia).
      rewrite (proj2 (Nat.leb_gt _ _)) by lia. rewrite (proj2 (Z.ltb_ge _ _)) by lia.
      rewrite (IH (S retries) (waited + d)%Z l); [done|lia|lia|lia|lia|done|].
      intros i d' Hi. rewrite Nat.add_succ_l, <-Nat.add_succ_r. exact (Ha (S i) d' Hi). }
  apply (H (S MAX_RETRIES) 0 0%Z delays); [lia|lia|lia|lia|done|done].
Qed.
End Loop.

(** ** Concrete runs *)

Definition demo_ok : Response := {| status := 200; headers := []; stream := [] |}.
Definition demo_limited : Response := {| status := 429; headers := [(RETRY_AFTER, bs "7")]; stream := [] |}.
Definition demo_forbidden : Response := {| status := 403; headers := []; stream := [Data (bs "abuse detection")] |}.
Definition demo_respond (n : nat) : option Response := nth_error [demo_limited; demo_forbidden; demo_ok] n.
Abbreviation demo_send := (send_with_sleep (fun b => Some b) (fun _ => None) (fun _ => true) demo_respond (fun _ => from_secs 1700000000) (fun _ _ => 0%Z)).

(** A limit with a header, a secondary limit known from the body, then success. *)
Example demo_retries : demo_send (from_secs 300) = Some (inr demo_ok, [from_secs 7; from_secs 120]).
Proof. vm_compute. reflexivity. Qed.

Lemma demo_jitter : jitter_ok (fun _ => 0%Z).
Proof. intros base H. lia. Qed.

Lemma retry_delay_respects_witness :
  exists d, retry_delay (fun b => Some b) (fun _ => None) 429 [(RETRY_AFTER, bs "7")] [] 0 (from_secs 1700000000) (fun _ => 0%Z) = Some d /\ (from_secs 7 <= d)%Z.
Proof.
  destruct (retry_delay_respects (fun b => Some b) (fun _ => None) 429 [(RETRY_AFTER, bs "7")] [] 0 (from_secs 1700000000) (fun _ => 0%Z) demo_jitter) as [_ H];
    [by vm_compute|].
  exists (from_secs 7). assert (retry_delay (fun b => Some b) (fun _ => None) 429 [(RETRY_AFTER, bs "7")] [] 0 (from_secs 1700000000) (fun _ => 0%Z) = Some (from_secs 7)) as E
    by (vm_compute; reflexivity).
  split; [exact E|]. destruct (H _ E) as (H1 & _). apply H1. vm_compute. reflexivity.
Defined.

Lemma send_bounded_witness : exists answer waits, demo_send (from_secs 60) = Some (answer, waits) /\ (0 <= sum waits <= Z.max 0 (from_secs 60))%Z.
Proof.
  destruct (send_bounded (fun b => Some b) (fun _ => None) (fun _ => true) demo_respond (fun _ => from_secs 1700000000) (fun _ _ => 0%Z) (from_secs 60)
    (fun _ => demo_jitter)) as (answer & waits & E & _ & H & _).
  by exists answer, waits.
Defined.

Lemma send_rides_out_witness : demo_send (from_secs 300) = Some (inr demo_ok, [from_secs 7; from_secs 120]).
Proof.
  apply (send_rides_out (fun b => Some b) (fun _ => None) (fun _ => true) demo_respond (fun _ => from_secs 1700000000) (fun _ _ => 0%Z)).
  - cbn. unfold MAX_RETRIES. lia.
  - by vm_compute.
  - repeat constructor; by vm_compute.
  - intros [|[|i]] d Hi; [injection Hi as <-; eexists; vm_compute; reflexivity|injection Hi as <-; eexists; vm_compute; reflexivity|done].
  - vm_compute. reflexivity.
Defined.
