(* ===== verification/Egress.v ===== *)
(** * Outgoing requests: [kingfisher-scanner/src/validation/http_validation.rs]

    The gate that keeps validation requests off internal hosts, with the parser of
    IP addresses of the standard library; the key under which a request's answer is
    cached, the headers of a request, bounded retries and the verdict on a response.
    DNS, Liquid templates, SHA-1, the JSON and XML parsers and the header syntax of
    the HTTP library are parameters. *)

From Stdlib Require Import ZArith Lia Bool Btauto.
From stdpp Require Import base list numbers option gmap.
From S2P Require Import Prelude Text Retry.
Open Scope kf_scope.

(** ** Addresses *)

(** The octets of an IPv4 address; the eight 16-bit segments of an IPv6 one. *)
Inductive IpAddr := V4 (a b c d : Z) | V6 (segments : list Z).

Definition segment (s : list Z) (i : nat) : Z := nth i s 0%Z.

Definition to_ipv4_mapped (s : list Z) : option IpAddr :=
  if bool_decide (take 6 s = [0; 0; 0; 0; 0; 65535]%Z)
  then Some (V4 (segment s 6 / 256) (segment s 6 mod 256) (segment s 7 / 256) (segment s 7 mod 256))
  else None.

Definition is_loopback (ip : IpAddr) : bool :=
  match ip with V4 a _ _ _ => a ==? 127 | V6 s => bool_decide (s = [0; 0; 0; 0; 0; 0; 0; 1]%Z) end.
Definition is_unspecified (ip : IpAddr) : bool :=
  match ip with V4 a b c d => bool_decide ([a; b; c; d] = [0; 0; 0; 0]%Z) | V6 s => bool_decide (s = [0; 0; 0; 0; 0; 0; 0; 0]%Z) end.
Definition is_multicast (ip : IpAddr) : bool :=
  match ip with V4 a _ _ _ => 224 ≤? a ≤? 239 | V6 s => (Z.land (segment s 0) 65280 ==? 65280) end.

(** The IPv4 branch of [is_ssrf_safe_ip]. *)
Definition is_ssrf_safe_v4 (a b c d : Z) : bool :=
  if is_loopback (V4 a b c d) || is_unspecified (V4 a b c d) || is_multicast (V4 a b c d) then false
  else if a ==? 0 then false
  else if a ==? 10 then false
  else if (a ==? 172) && (16 ≤? b ≤? 31) then false
  else if (a ==? 192) && (b ==? 168) then false
  else if (a ==? 169) && (b ==? 254) then false
  else if (a ==? 100) && (64 ≤? b ≤? 127) then false
  else if (a ==? 192) && (b ==? 0) && (c ==? 0) then false
  else if (a ==? 192) && (b ==? 0) && (c ==? 2) then false
  else if (a ==? 192) && (b ==? 88) && (c ==? 99) then false
  else if (a ==? 198) && (b ==? 51) && (c ==? 100) then false
  else if (a ==? 203) && (b ==? 0) && (c ==? 113) then false
  else if (a ==? 198) && (18 ≤? b ≤? 19) then false
  else negb (240 <=? a)%Z.

Definition is_ssrf_safe_ip (ip : IpAddr) : bool :=
  match ip with
  | V4 a b c d => is_ssrf_safe_v4 a b c d
  | V6 s =>
    if is_loopback ip || is_unspecified ip || is_multicast ip then false
    else
      match to_ipv4_mapped s with
      | Some (V4 a b c d) => is_ssrf_safe_v4 a b c d
      | _ =>
        if forallb (fun x => x ==? 0) (take 6 s) then false
        else if Z.land (segment s 0) 65024 ==? 64512 then false
        else if Z.land (segment s 0) 65472 ==? 65152 then false
        else if Z.land (segment s 0) 65472 ==? 65216 then false
        else if (segment s 0 ==? 8193) && (segment s 1 ==? 2) && (segment s 2 ==? 0) then false
        else negb ((segment s 0 ==? 8193) && (segment s 1 ==? 3512))
      end
  end.

(** ** The address parser of the standard library

    [IpAddr::from_str]: a reader over the text that a failed attempt leaves where
    it was. *)

Definition to_digit (radix b : Z) : option Z :=
  let v := if is_ascii_digit b then (b - 48)%Z
           else if is_ascii_lower b then (b - 87)%Z
           else if is_ascii_upper b then (b - 55)%Z else radix in
  if (v <? radix)%Z then Some v else None.

(** The digits from here: their value, their number and what follows. *)
Fixpoint read_digits (radix result : Z) (count : nat) (l : bytes) : Z * nat * bytes :=
  match l with
  | b :: r => match to_digit radix b with
              | Some d => read_digits radix (result * radix + d)%Z (S count) r
              | None => (result, count, l)
              end
  | [] => (result, count, l)
  end.

Definition read_number (radix limit : Z) (max_digits : nat) (allow_zero_prefix : bool) (l : bytes) : option (Z * bytes) :=
  let '(v, count, r) := read_digits radix 0 0 l in
  if Nat.ltb max_digits count || Nat.eqb count 0 then None
  else if negb allow_zero_prefix && byte_at l 0 48 && Nat.ltb 1 count then None
  else if (v <=? limit)%Z then Some (v, r) else None.

Definition read_given_char (c : Z) (l : bytes) : option bytes :=
  match l with b :: r => if b ==? c then Some r else None | [] => None end.

Definition read_separator {A} (sep : Z) (index : nat) (inner : bytes -> option (A * bytes)) (l : bytes) : option (A * bytes) :=
  match index with
  | 0 => inner l
  | _ => match read_given_char sep l with Some r => inner r | None => None end
  end.

Definition read_octet (index : nat) (l : bytes) : option (Z * bytes) :=
  read_separator 46 index (read_number 10 255 3 false) l.

Definition read_ipv4_addr (l : bytes) : option ((Z * Z * Z * Z) * bytes) :=
  match read_octet 0 l with
  | None => None
  | Some (a, l) =>
    match read_octet 1 l with
    | None => None
    | Some (b, l) =>
      match read_octet 2 l with
      | None => None
      | Some (c, l) =>
        match read_octet 3 l with
        | None => None
        | Some (d, l) => Some ((a, b, c, d), l)
        end
      end
    end
  end.

(** [read_groups] with [room] groups to fill, the first of index [i]: the groups,
    whether they end in an IPv4 address, and what follows. *)
Fixpoint read_groups (room i : nat) (l : bytes) : list Z * bool * bytes :=
  match room with
  | 0 => ([], false, l)
  | S room =>
    let group :=
      match read_separator 58 i (read_number 16 65535 4 true) l with
      | None => ([], false, l)
      | Some (g, r) => let '(gs, v4, r) := read_groups room (S i) r in (g :: gs, v4, r)
      end in
    match room with
    | 0 => group
    | S _ =>
      match read_separator 58 i read_ipv4_addr l with
      | Some ((a, b, c, d), r) => ([a * 256 + b; c * 256 + d]%Z, true, r)
      | None => group
      end
    end
  end.

Definition read_ipv6_addr (l : bytes) : option (list Z * bytes) :=
  let '(head, head_ipv4, r) := read_groups 8 0 l in
  if Nat.eqb (length head) 8 then Some (head, r)
  else if head_ipv4 then None
  else
    match read_given_char 58 r with
    | None => None
    | Some r =>
      match read_given_char 58 r with
      | None => None
      | Some r =>
        let '(tail, _, r) := read_groups (8 - (length head + 1)) 0 r in
        Some (head ++ replicate (8 - length head - length tail) 0%Z ++ tail, r)
      end
    end.

Definition parse_ip (l : bytes) : option IpAddr :=
  let answer := match read_ipv4_addr l with
    | Some ((a, b, c, d), r) => Some (V4 a b c d, r)
    | None => match read_ipv6_addr l with Some (s, r) => Some (V6 s, r) | None => None end
    end in
  match answer with Some (ip, []) => Some ip | _ => None end.

(** ** Resolving a host *)

Inductive ResolveError := NoHost | SsrfBlocked (ip : IpAddr) (host : bytes) | LookupFailed | Unresolved.

(** The spellings of a host that are tolerated. *)
Definition clean_host (host : bytes) : bytes :=
  let host := trim host in
  let host := match strip_prefix (bs "[") host with
    | Some h => match strip_suffix (bs "]") h with Some h => h | None => host end
    | None => host
    end in
  match strip_suffix (bs ".") host with Some h => h | None => host end.

Section Resolve.
(** [lookup_host], of the text [host:port]. *)
Context (lookup_host : bytes -> option (list (IpAddr * Z))).

(** The loop over the addresses: the first one that is refused. *)
Fixpoint check_addresses (allow_internal_ips : bool) (host : bytes) (l : list (IpAddr * Z)) : option ResolveError :=
  match l with
  | [] => None
  | (ip, _) :: l =>
    if negb allow_internal_ips && negb (is_ssrf_safe_ip ip) then Some (SsrfBlocked ip host)
    else check_addresses allow_internal_ips host l
  end.

Definition resolve_host_addresses (host : bytes) (port : Z) (allow_internal_ips : bool) : ResolveError + list (IpAddr * Z) :=
  let host := clean_host host in
  match host with
  | [] => inl NoHost
  | _ =>
    match parse_ip host with
    | Some ip =>
      if negb allow_internal_ips && negb (is_ssrf_safe_ip ip) then inl (SsrfBlocked ip host) else inr [(ip, port)]
    | None =>
      match lookup_host (host ++ bs ":" ++ show_usize port) with
      | None => inl LookupFailed
      | Some addresses =>
        match check_addresses allow_internal_ips host addresses with
        | Some e => inl e
        | None => match addresses with [] => inl Unresolved | _ => inr addresses end
        end
      end
    end
  end.

Definition check_host_resolvable (host : bytes) (port : Z) (allow_internal_ips : bool) : option ResolveError :=
  match resolve_host_addresses host port allow_internal_ips with inl e => Some e | inr _ => None end.

(** What the URL library gives of a URL. *)
Record Url := { host_str : option bytes; url_port : option Z; scheme : bytes }.

Definition check_url_resolvable (url : Url) (allow_internal_ips : bool) : option ResolveError :=
  match host_str url with
  | None => Some NoHost
  | Some host =>
    let port := match url_port url with Some p => p | None => if bytes_eqb (scheme url) (bs "https") then 443 else 80 end%Z in
    check_host_resolvable host port allow_internal_ips
  end.

Definition check_url_resolvable_safe (url : Url) : option ResolveError := check_url_resolvable url false.
End Resolve.

(** ** Cache keys and request variables *)

Section Requests.
Context (str_to_uppercase sha1_hex : bytes -> bytes).

Definition hash_header (kv : bytes * bytes) : bytes := fst kv ++ bs ":" ++ snd kv ++ [0%Z].

(** What is fed to the hash; the headers are in the order of their names. *)
Definition hashed_parts (method url : bytes) (headers : list (bytes * bytes)) (body : option bytes) : bytes :=
  str_to_uppercase method ++ [0%Z] ++ url ++ [0%Z] ++ flat_map hash_header headers ++
  match body with Some b => bs "BODY" ++ [0%Z] ++ b ++ [0%Z] | None => [] end.

Definition generate_http_cache_key_parts (method url : bytes) (headers : list (bytes * bytes)) (body : option bytes) : bytes :=
  bs "HTTP:" ++ sha1_hex (hashed_parts method url headers body).
End Requests.

Definition format_rfc1123 (rendered : option bytes) : bytes :=
  let rendered := default (bs "Thu, 01 Jan 1970 00:00:00 +0000") rendered in
  match strip_suffix (bs " +0000") rendered with Some prefix => prefix ++ bs " GMT" | None => rendered end.

Definition RFC1123_DATE : bytes := bs "REQUEST_RFC1123_DATE".
Definition UNIX_MILLIS : bytes := bs "REQUEST_UNIX_MILLIS".

Definition is_auto_provided_request_var (var : bytes) : bool := bytes_eqb var RFC1123_DATE || bytes_eqb var UNIX_MILLIS.
Definition is_validation_endpoint_var (var : bytes) : bool :=
  existsb (bytes_eqb var) [bs "VALIDATION_ENDPOINT_INDEX"; bs "VALIDATION_FALLBACK_ID"; bs "VALIDATION_ENDPOINT_COUNT"; bs "VALIDATION_URL"; bs "VALIDATION_ORIGIN"].

(** [if !out.contains_key(name) { out.insert(name, value) }] *)
Definition insert_absent (name value : bytes) (out : gmap bytes bytes) : gmap bytes bytes :=
  match out !! name with Some _ => out | None => <[name := value]> out end.

(** [rendered]: the current time in RFC 2822 form, unless formatting fails;
    [nanos]: nanoseconds since the epoch. Integer division truncates. *)
Definition with_request_template_globals (rendered : option bytes) (nanos : Z) (globals : gmap bytes bytes) : gmap bytes bytes :=
  let millis := Z.quot nanos 1000000 in
  insert_absent UNIX_MILLIS ((if (millis <? 0)%Z then bs "-" else []) ++ show_usize (Z.abs millis)) (insert_absent RFC1123_DATE (format_rfc1123 rendered) globals).
Definition with_cache_key_template_globals (globals : gmap bytes bytes) : gmap bytes bytes :=
  insert_absent UNIX_MILLIS UNIX_MILLIS (insert_absent RFC1123_DATE RFC1123_DATE globals).

(** ** Headers of a request *)

Section Headers.
(** Parsing and rendering a template, and the syntax of names and values. *)
Context (render : bytes -> option bytes) (header_name header_value : bytes -> option bytes).

(** [trim().replace(['\n', '\r'], "")] *)
Definition clean_header (l : bytes) : bytes := List.filter (fun b => negb ((b ==? 10) || (b ==? 13))) (trim l).

Definition process_header (headers_map : gmap bytes bytes) (kv : bytes * bytes) : gmap bytes bytes :=
  match render (snd kv) with
  | None => headers_map
  | Some value =>
    match header_name (clean_header (fst kv)) with
    | None => headers_map
    | Some name =>
      match header_value (clean_header value) with
      | None => headers_map
      | Some value => <[name := value]> headers_map
      end
    end
  end.
Definition process_headers (headers : list (bytes * bytes)) : gmap bytes bytes := foldl process_header ∅ headers.

Definition standard_headers (user_agent : bytes) : list (bytes * bytes) :=
  [(bs "user-agent", user_agent);
   (bs "accept", bs "text/html,application/xhtml+xml,application/xml;q=0.9,image/webp,*/*;q=0.8");
   (bs "accept-language", bs "en-US,en;q=0.5");
   (bs "accept-encoding", bs "gzip, deflate, br");
   (bs "connection", bs "keep-alive")].

Definition insert_standard (m : gmap bytes bytes) (kv : bytes * bytes) : gmap bytes bytes :=
  match header_value (snd kv) with Some v => <[fst kv := v]> m | None => m end.

Inductive BuildError := InvalidMethod | BodyTemplate.

(** A request as it is built: method, headers and body. [method] is the result of
    parsing the method. *)
Definition build_request_builder (method : option bytes) (user_agent : bytes) (headers : list (bytes * bytes)) (body : option bytes) :
    BuildError + bytes * gmap bytes bytes * option bytes :=
  match method with
  | None => inl InvalidMethod
  | Some method =>
    let combined := process_headers headers ∪ foldl insert_standard ∅ (standard_headers user_agent) in
    match body with
    | None => inr (method, combined, None)
    | Some template => match render template with None => inl BodyTemplate | Some b => inr (method, combined, Some b) end
    end
  end.
End Headers.

(** ** Retries *)

Definition DURATION_MAX : Z := U64_MOD * SECOND - 1.

Section Backoff.
Context {T E : Type} (operation : nat -> E + T) (is_retryable : E + T -> nat -> bool).
Context (max_retries : nat) (backoff_min backoff_max : Z).

Inductive RetryError := Exhausted | ExhaustedAfter (e : E).

Definition backoff_wait (retries : nat) : Z :=
  Z.min (Z.min DURATION_MAX (backoff_min * Z.min (U32_MOD - 1) (2 ^ (Z.of_nat retries mod U32_MOD)))) backoff_max.

(** The result and the waits made; an error of the operation itself is
    [inl (inl e)]. [None]: out of fuel. *)
Fixpoint backoff_loop (fuel retries : nat) : option (((E + RetryError) + T) * list Z) :=
  match fuel with
  | 0 => None
  | S fuel =>
    let result := operation retries in
    if negb (is_retryable result retries) then
      Some (match result with inl e => inl (inl e) | inr v => inr v end, [])
    else
      let retries := S retries in
      if Nat.ltb max_retries retries then
        Some (match result with inl e => inl (inr (ExhaustedAfter e)) | inr _ => inl (inr Exhausted) end, [])
      else
        match backoff_loop fuel retries with
        | None => None
        | Some (answer, waits) => Some (answer, backoff_wait retries :: waits)
        end
  end.
Definition retry_with_backoff : option (((E + RetryError) + T) * list Z) := backoff_loop (S max_retries) 0.
End Backoff.
Arguments RetryError : clear implicits.

Definition retryable_status (status : Z) : bool := existsb (Z.eqb status) [502; 503; 504; 429; 408]%Z.
(** The closures that [retry_request] and [retry_multipart_request] pass. *)
Definition retryable {T E} (status : T -> Z) (res : E + T) (attempt : nat) : bool :=
  match res with inl _ => true | inr r => retryable_status (status r) end.

(** ** Verdict on a response *)

Inductive ResponseMatcher :=
  | WordMatch (words : list bytes) (match_all_words negative : bool)
  | StatusMatch (status : list Z) (match_all_status negative : bool)
  | HeaderMatch (header : bytes) (expected : list bytes) (match_all_values : bool)
  | JsonValid
  | XmlValid
  | ReportResponse.

Section Response.
(** [headers.get(name)] and the two parsers. *)
Context (header_get : bytes -> option bytes) (json_valid xml_valid : bytes -> bool).

Definition is_char_boundary (l : bytes) (i : nat) : bool :=
  match l !! i with Some b => (b <? 128)%Z || (192 <=? b)%Z | None => Nat.eqb i (length l) end.
Fixpoint back_to_boundary (l : bytes) (i : nat) : nat :=
  match i with 0 => 0 | S j => if is_char_boundary l i then i else back_to_boundary l j end.

Definition header_text (name : bytes) : option bytes := match header_get name with Some v => to_str v | None => None end.

Definition body_looks_like_html (body : bytes) : bool :=
  let header_says_html :=
    match header_text (bs "content-type") with
    | Some ct => let ct := str_to_ascii_lowercase ct in contains_sub (bs "text/html") ct || contains_sub (bs "application/xhtml") ct
    | None => false
    end in
  let probe := take (back_to_boundary body (Nat.min 1024 (length body))) body in
  let probe := str_to_ascii_lowercase (trim_start probe) in
  header_says_html && (starts_with (bs "<") probe && contains_sub (bs "<html") probe).

Definition any_or_all {A} (all : bool) (p : A -> bool) (l : list A) : bool := if all then forallb p l else existsb p l.

(** [filter_map(pick).all(|b| b)] *)
Definition all_picked (pick : ResponseMatcher -> option bool) (matchers : list ResponseMatcher) : bool :=
  forallb id (omap pick matchers).

(** [StatusCode::as_str]: the code has three digits. *)
Definition pick_word (body : bytes) (m : ResponseMatcher) : option bool :=
  match m with
  | WordMatch words all negative => Some (xorb negative (any_or_all all (fun w => contains_sub w body) words))
  | _ => None
  end.
Definition pick_status (status : Z) (m : ResponseMatcher) : option bool :=
  match m with
  | StatusMatch expected all negative => Some (xorb negative (any_or_all all (fun s => bytes_eqb (show_usize s) (show_usize status)) expected))
  | _ => None
  end.
Definition pick_header (m : ResponseMatcher) : option bool :=
  match m with
  | HeaderMatch header expected all =>
    let val := str_to_ascii_lowercase (default [] (header_text header)) in
    Some (any_or_all all (fun e => contains_sub (str_to_ascii_lowercase e) val) expected)
  | _ => None
  end.
Definition pick_json (body : bytes) (m : ResponseMatcher) : option bool := match m with JsonValid => Some (json_valid body) | _ => None end.
Definition pick_xml (body : bytes) (m : ResponseMatcher) : option bool := match m with XmlValid => Some (xml_valid body) | _ => None end.

Definition validate_response (matchers : list ResponseMatcher) (body : bytes) (status : Z) (html_allowed : bool) : bool :=
  let word_ok := all_picked (pick_word body) matchers in
  let status_ok := all_picked (pick_status status) matchers in
  let header_ok := all_picked pick_header matchers in
  let json_ok := all_picked (pick_json body) matchers in
  let xml_ok := all_picked (pick_xml body) matchers in
  let html_ok := html_allowed || negb (body_looks_like_html body) in
  word_ok && status_ok && header_ok && json_ok && xml_ok && html_ok.
End Response.

(** ** The gate is the table of reserved blocks *)

(** A block: its first address, as a number of [width] bits, and the length of its
    prefix. *)
Definition in_block (width addr : Z) (block : Z * Z) : bool :=
  let '(first, len) := block in Z.shiftr addr (width - len) ==? Z.shiftr first (width - len).

Definition block4 (a b c d len : Z) : Z * Z := (number 256 [a; b; c; d], len).
Definition RESERVED_V4 : list (Z * Z) :=
  [block4 0 0 0 0 8; block4 10 0 0 0 8; block4 100 64 0 0 10; block4 127 0 0 0 8; block4 169 254 0 0 16; block4 172 16 0 0 12;
   block4 192 0 0 0 24; block4 192 0 2 0 24; block4 192 88 99 0 24; block4 192 168 0 0 16; block4 198 18 0 0 15; block4 198 51 100 0 24;
   block4 203 0 113 0 24; block4 224 0 0 0 4; block4 240 0 0 0 4].

Definition block6 (s : list Z) (len : Z) : Z * Z := (number 65536 (s ++ replicate (8 - length s) 0%Z), len).
Definition MAPPED : Z * Z := block6 [0; 0; 0; 0; 0; 65535]%Z 96.
Definition RESERVED_V6 : list (Z * Z) :=
  [block6 [] 96; block6 [8193; 2]%Z 48; block6 [8193; 3512]%Z 32; block6 [64512]%Z 7; block6 [65152]%Z 10; block6 [65216]%Z 10; block6 [65280]%Z 8].

(** An address that is mapped is the IPv4 address in its last 32 bits. *)
Definition outside_blocks (ip : IpAddr) : bool :=
  match ip with
  | V4 a b c d => negb (existsb (in_block 32 (number 256 [a; b; c; d])) RESERVED_V4)
  | V6 s =>
    let n := number 65536 s in
    if in_block 128 n MAPPED then negb (existsb (in_block 32 (n mod 2 ^ 32)%Z) RESERVED_V4)
    else negb (existsb (in_block 128 n) RESERVED_V6)
  end.

Definition ip_ok (ip : IpAddr) : Prop :=
  match ip with
  | V4 a b c d => Forall byte_ok [a; b; c; d]
  | V6 s => length s = 8 /\ Forall (fun x => (0 <= x < 65536)%Z) s
  end.

Lemma if_false (c x : bool) : (if c then false else x) = negb c && x.
Proof. by destruct c. Qed.

Lemma bool_decide_cons (x y : Z) l k : bool_decide (x :: l = y :: k) = (x ==? y) && bool_decide (l = k).
Proof.
  apply eq_true_iff_eq. rewrite andb_true_iff, !bool_decide_eq_true, Z.eqb_eq. split; [by intros [= -> ->]|by intros [-> ->]].
Qed.

Lemma in_block_div width addr first len : (0 <= width - len)%Z ->
  in_block width addr (first, len) = (addr / 2 ^ (width - len) ==? first / 2 ^ (width - len)).
Proof. intros H. unfold in_block. by rewrite !Z.shiftr_div_pow2 by exact H. Qed.

(** Evaluate the blocks of the table down to the numbers to compare with. *)
Ltac cut_blocks base :=
  repeat match goal with
  | |- context [Z.div (number base ?l) (2 ^ (?w - ?k))] =>
      let v := eval vm_compute in (number base l / 2 ^ (w - k))%Z in change (number base l / 2 ^ (w - k))%Z with v
  | |- context [(?w - ?k)%Z] => let v := eval vm_compute in (w - k)%Z in change (w - k)%Z with v
  end.

Lemma eqb_digits base n x m : (0 < base)%Z -> (0 <= x < base)%Z ->
  (n * base + x ==? m) = (n ==? m / base) && (x ==? m mod base).
Proof.
  intros Hb Hx. apply eq_true_iff_eq. rewrite andb_true_iff, !Z.eqb_eq. split.
  - intros <-. rewrite Z.add_comm, Z_div_plus, Z_mod_plus by lia. by rewrite Z.div_small, Z.mod_small.
  - intros [-> ->]. rewrite Z.mul_comm. symmetry. apply Z.div_mod. lia.
Qed.

Lemma ssrf_v4 a b c d : Forall byte_ok [a; b; c; d] ->
  is_ssrf_safe_v4 a b c d = negb (existsb (in_block 32 (number 256 [a; b; c; d])) RESERVED_V4).
Proof.
  intros H. rewrite !Forall_cons in H. destruct H as (Ha & Hb & Hc & Hd & _). unfold byte_ok in *.
  set (n := number 256 [a; b; c; d]). unfold RESERVED_V4, block4. cbn [existsb].
  rewrite !in_block_div by lia.
  assert (n / 2 ^ 24 = a)%Z as E24 by (unfold n; cbn [number foldl]; dlia).
  assert (n / 2 ^ 16 = a * 256 + b)%Z as E16 by (unfold n; cbn [number foldl]; dlia).
  assert (n / 2 ^ 8 = (a * 256 + b) * 256 + c)%Z as E8 by (unfold n; cbn [number foldl]; dlia).
  assert (n / 2 ^ 22 = a * 4 + b / 64)%Z as E22 by (unfold n; cbn [number foldl]; dlia).
  assert (n / 2 ^ 20 = a * 16 + b / 16)%Z as E20 by (unfold n; cbn [number foldl]; dlia).
  assert (n / 2 ^ 17 = a * 128 + b / 2)%Z as E17 by (unfold n; cbn [number foldl]; dlia).
  assert (n / 2 ^ 28 = a / 16)%Z as E28 by (unfold n; cbn [number foldl]; dlia).
  cut_blocks 256%Z. rewrite E24, E16, E8, E22, E20, E17, E28.
  unfold is_ssrf_safe_v4. cbn [is_loopback is_unspecified is_multicast]. rewrite !if_false, !bool_decide_cons. cbn [bool_decide].
  clear -Ha Hb Hc Hd.
  replace (a * 4 + b / 64 ==? 401) with ((a ==? 100) && (64 ≤? b ≤? 127)) by dlia.
  replace (a * 16 + b / 16 ==? 2753) with ((a ==? 172) && (16 ≤? b ≤? 31)) by dlia.
  replace (a * 128 + b / 2 ==? 25353) with ((a ==? 198) && (18 ≤? b ≤? 19)) by dlia.
  replace (a / 16 ==? 14) with (224 ≤? a ≤? 239) by dlia. replace (a / 16 ==? 15) with (240 <=? a)%Z by dlia.
  rewrite !(eqb_digits 256) by (try done; lia).
  cbn [Z.div Z.modulo Z.div_eucl Z.pos_div_eucl].
  destruct (a ==? 0); [by rewrite andb_false_r|]. cbn [andb negb].
  apply eq_true_iff_eq. rewrite !andb_true_iff, !negb_true_iff, !orb_false_iff. tauto.
Qed.

(** ** The blocks of IPv6 *)

(** A mask of the high bits of a segment. *)
Lemma eqb_mask x m k v : (0 <= x < 65536)%Z -> (0 <= k)%Z -> m = Z.ldiff (Z.ones 16) (Z.ones k) ->
  (Z.land x m ==? v * 2 ^ k) = (x / 2 ^ k ==? v).
Proof.
  intros Hx Hk ->. rewrite Z.ldiff_land, Z.land_assoc, Z.land_ones, (Z.mod_small x) by lia.
  rewrite <-Z.ldiff_land, Z.ldiff_ones_r, Z.shiftl_mul_pow2, Z.shiftr_div_pow2 by lia.
  apply eq_true_iff_eq. rewrite !Z.eqb_eq. assert (0 < 2 ^ k)%Z by (apply Z.pow_pos_nonneg; lia). split; [|by intros ->].
  apply Z.mul_cancel_r. lia.
Qed.

Ltac all_ok := repeat (apply Forall_cons; split; [assumption|]); apply Forall_nil; exact I.

(** The blocks of IPv6 as tests on the segments. *)
Lemma reserved_v6 a b c d e f g h : Forall (fun x => (0 <= x < 65536)%Z) [a; b; c; d; e; f; g; h] ->
  let n := number 65536 [a; b; c; d; e; f; g; h] in
  in_block 128 n MAPPED = bool_decide ([a; b; c; d; e; f] = [0; 0; 0; 0; 0; 65535]%Z) /\
  existsb (in_block 128 n) RESERVED_V6 =
    bool_decide ([a; b; c; d; e; f] = [0; 0; 0; 0; 0; 0]%Z) || (bool_decide ([a; b; c] = [8193; 2; 0]%Z) ||
    (bool_decide ([a; b] = [8193; 3512]%Z) || ((Z.land a 65024 ==? 64512) || ((Z.land a 65472 ==? 65152) || ((Z.land a 65472 ==? 65216) ||
    ((Z.land a 65280 ==? 65280) || false)))))).
Proof.
  intros Hs n. rewrite !Forall_cons in Hs. destruct Hs as (Ha & Hb & Hc & Hd & He & Hf & Hg & Hh & _).
  assert (n / 2 ^ 32 = number 65536 [a; b; c; d; e; f])%Z as E32 by (apply (number_cut 65536 [a; b; c; d; e; f] [g; h]); [done|all_ok]).
  assert (n / 2 ^ 80 = number 65536 [a; b; c])%Z as E80 by (apply (number_cut 65536 [a; b; c] [d; e; f; g; h]); [done|all_ok]).
  assert (n / 2 ^ 96 = number 65536 [a; b])%Z as E96 by (apply (number_cut 65536 [a; b] [c; d; e; f; g; h]); [done|all_ok]).
  assert (n / 2 ^ 112 = a)%Z as E112 by (apply (number_cut 65536 [a] [b; c; d; e; f; g; h]); [done|all_ok]).
  assert (forall k, (0 <= k)%Z -> n / 2 ^ (112 + k) = a / 2 ^ k)%Z as Ek.
  { intros k Hk. rewrite Z.pow_add_r by done. rewrite <-Z.div_div, E112 by (try (apply Z.pow_pos_nonneg); done). done. }
  clear E112. pose proof (Ek 9%Z ltac:(done)) as E121. pose proof (Ek 6%Z ltac:(done)) as E118. pose proof (Ek 8%Z ltac:(done)) as E120. clear Ek.
  unfold RESERVED_V6, MAPPED, block6. cbn [existsb]. rewrite !in_block_div by done. cut_blocks 65536%Z.
  change (112 + 9)%Z with 121%Z in E121. change (112 + 6)%Z with 118%Z in E118. change (112 + 8)%Z with 120%Z in E120.
  rewrite E32, E80, E96, E118, E120, E121. clear E32 E80 E96 E118 E120 E121 n.
  rewrite <-(eqb_mask a 65024 9 126), <-(eqb_mask a 65472 6 1018), <-(eqb_mask a 65472 6 1019), <-(eqb_mask a 65280 8 255) by done.
  rewrite <-(eqb_number 65536 [a; b; c; d; e; f] [0; 0; 0; 0; 0; 65535]%Z), <-(eqb_number 65536 [a; b; c; d; e; f] [0; 0; 0; 0; 0; 0]%Z),
    <-(eqb_number 65536 [a; b; c] [8193; 2; 0]%Z), <-(eqb_number 65536 [a; b] [8193; 3512]%Z) by (done || all_ok || by repeat constructor).
  done.
Qed.

Lemma ssrf_v6 s : ip_ok (V6 s) -> is_ssrf_safe_ip (V6 s) = outside_blocks (V6 s).
Proof.
  intros [Hlen Hs]. do 9 (destruct s as [|? s]; try done). clear Hlen.
  rename z into a, z0 into b, z1 into c, z2 into d, z3 into e, z4 into f, z5 into g, z6 into h.
  destruct (reserved_v6 _ _ _ _ _ _ _ _ Hs) as [Em Er]. cbn [outside_blocks]. rewrite Em, Er. clear Em Er.
  rewrite !Forall_cons in Hs. destruct Hs as (_ & _ & _ & _ & _ & _ & Hg & Hh & _).
  case_bool_decide as Em.
  - injection Em as -> -> -> -> -> ->. change (is_ssrf_safe_ip _) with (is_ssrf_safe_v4 (g / 256) (g mod 256) (h / 256) (h mod 256)).
    replace (number 65536 [0; 0; 0; 0; 0; 65535; g; h] mod 2 ^ 32)%Z with (number 256 [g / 256; g mod 256; h / 256; h mod 256]%Z)
      by (cbn [number foldl]; dlia).
    apply ssrf_v4. rewrite !Forall_cons. unfold byte_ok. repeat split; try dlia. done.
  - unfold is_ssrf_safe_ip, to_ipv4_mapped. cbn [is_loopback is_unspecified is_multicast take segment nth forallb].
    rewrite (bool_decide_eq_false_2 _ Em). clear. rewrite !if_false, !bool_decide_cons. rewrite !(bool_decide_eq_true_2 ([] = [])) by done.
    rewrite !andb_true_r, !andb_assoc. set (zeros := (a ==? 0) && (b ==? 0) && (c ==? 0) && (d ==? 0) && (e ==? 0) && (f ==? 0)). clearbody zeros.
    destruct zeros; [by rewrite andb_false_r|]. cbn [andb negb orb].
    apply eq_true_iff_eq. rewrite !andb_true_iff, !negb_true_iff, !orb_false_iff. tauto.
Qed.

(** The gate lets exactly the addresses through that are in no reserved block. *)
Lemma ssrf_safe_exact ip : ip_ok ip -> is_ssrf_safe_ip ip = outside_blocks ip.
Proof. destruct ip as [a b c d|s]; [apply ssrf_v4|apply ssrf_v6]. Qed.

(** ** What the address parser gives *)

Lemma to_digit_nonneg radix b d : (0 < radix)%Z -> to_digit radix b = Some d -> (0 <= d)%Z.
Proof.
  unfold to_digit, is_ascii_digit, is_ascii_lower, is_ascii_upper. intros Hr. destruct (_ <? _)%Z; [|done]. intros [= <-].
  destruct (48 ≤? b ≤? 57) eqn:E1; [tobool; lia|]. destruct (97 ≤? b ≤? 122) eqn:E2; [tobool; lia|].
  destruct (65 ≤? b ≤? 90) eqn:E3; [tobool; lia|lia].
Qed.

Lemma read_digits_nonneg radix l : forall result count v n r, (0 < radix)%Z -> (0 <= result)%Z ->
  read_digits radix result count l = (v, n, r) -> (0 <= v)%Z.
Proof.
  induction l as [|b l IH]; intros result count v n r Hr Hv; cbn [read_digits]; [by intros [= <- _ _]|].
  destruct (to_digit radix b) as [d|] eqn:E; [|by intros [= <- _ _]]. apply to_digit_nonneg in E; [|done]. apply IH; [done|].
  apply Z.add_nonneg_nonneg; [|done]. apply Z.mul_nonneg_nonneg; lia.
Qed.

Lemma read_number_range radix limit max zero l v r : (0 < radix)%Z -> read_number radix limit max zero l = Some (v, r) -> (0 <= v <= limit)%Z.
Proof.
  intros Hr. unfold read_number. destruct (read_digits _ _ _ _) as [[w n] r'] eqn:E. apply read_digits_nonneg in E; [|lia..].
  destruct (_ || _); [done|]. destruct (_ && _); [done|]. destruct (w <=? limit)%Z eqn:El; [|done]. intros [= <- <-]. tobool. lia.
Qed.

Lemma read_separator_inner {A} sep i (inner : bytes -> option (A * bytes)) l x r : read_separator sep i inner l = Some (x, r) ->
  exists l', inner l' = Some (x, r).
Proof. unfold read_separator. destruct i; [eauto|]. destruct (read_given_char _ _); [eauto|done]. Qed.

Lemma read_octet_range i l v r : read_octet i l = Some (v, r) -> byte_ok v.
Proof. intros (l' & H)%read_separator_inner. apply read_number_range in H; [|lia]. unfold byte_ok. lia. Qed.

Lemma read_ipv4_range l a b c d r : read_ipv4_addr l = Some ((a, b, c, d), r) -> Forall byte_ok [a; b; c; d].
Proof.
  unfold read_ipv4_addr. destruct (read_octet 0 l) as [[? l1]|] eqn:?; [|done]. destruct (read_octet 1 l1) as [[? l2]|] eqn:?; [|done].
  destruct (read_octet 2 l2) as [[? l3]|] eqn:?; [|done]. destruct (read_octet 3 l3) as [[? l4]|] eqn:?; [|done]. intros [= <- <- <- <- _].
  repeat (apply Forall_cons; split; [by eapply read_octet_range|]). by apply Forall_nil.
Qed.

Abbreviation segment_ok := (fun x => (0 <= x < 65536)%Z).

Lemma read_groups_range room : forall i l gs v4 r, read_groups room i l = (gs, v4, r) -> length gs <= room /\ Forall segment_ok gs.
Proof.
  induction room as [|room IH]; intros i l gs v4 r; cbn [read_groups]; [intros [= <- _ _]; split; [cbn; lia|by apply Forall_nil]|].
  set (group := match read_separator 58 i (read_number 16 65535 4 true) l with None => _ | Some _ => _ end).
  assert (group = (gs, v4, r) -> length gs <= S room /\ Forall segment_ok gs) as Hg.
  { unfold group. destruct (read_separator _ _ _ _) as [[g r']|] eqn:E; [|intros [= <- _ _]; split; [cbn; lia|by apply Forall_nil]].
    destruct (read_groups room _ _) as [[gs' v4'] r''] eqn:Eg. apply IH in Eg as [Hl Hf]. intros [= <- _ _].
    apply read_separator_inner in E as [l' E]. apply read_number_range in E; [|lia]. split; [cbn [length]; lia|]. apply Forall_cons. split; [lia|done]. }
  clearbody group. destruct room as [|room]; [exact Hg|]. destruct (read_separator 58 i read_ipv4_addr l) as [[[[[a b] c] d] r']|] eqn:E; [|exact Hg].
  intros [= <- _ _]. apply read_separator_inner in E as [l' E]. apply read_ipv4_range in E. rewrite !Forall_cons in E. unfold byte_ok in E.
  split; [cbn [length]; lia|]. repeat (apply Forall_cons; split; [lia|]). by apply Forall_nil.
Qed.

(** The parser gives well-formed addresses only. *)
Lemma parse_ip_ok l ip : parse_ip l = Some ip -> ip_ok ip.
Proof.
  unfold parse_ip. destruct (read_ipv4_addr l) as [[[[[a b] c] d] r]|] eqn:E4.
  - destruct r; [|done]. intros [= <-]. by eapply read_ipv4_range.
  - destruct (read_ipv6_addr l) as [[s r]|] eqn:E6; [|done]. destruct r; [|done]. intros [= <-]. revert E6. unfold read_ipv6_addr.
    destruct (read_groups 8 0 l) as [[hd v4] r] eqn:Eh. apply read_groups_range in Eh as [Hl Hf].
    destruct (Nat.eqb (length hd) 8) eqn:E8; [intros [= <- _]; split; [by apply Nat.eqb_eq|done]|]. apply Nat.eqb_neq in E8.
    destruct v4; [done|]. destruct (read_given_char 58 r) as [r1|]; [|done]. destruct (read_given_char 58 r1) as [r2|]; [|done].
    destruct (read_groups (8 - _) 0 r2) as [[tl v4'] r'] eqn:Et. apply read_groups_range in Et as [Hl' Hf']. intros [= <- _].
    cbn [ip_ok]. rewrite !length_app, length_replicate. split; [lia|]. rewrite !Forall_app. split; [done|]. split; [|done].
    apply Forall_replicate. lia.
Qed.

(** *** Addresses as they are written *)

Definition dotted (a b c d : Z) : bytes := show_usize a ++ bs "." ++ show_usize b ++ bs "." ++ show_usize c ++ bs "." ++ show_usize d.

Lemma read_digits_app radix l k : forall result count v n, read_digits radix result count l = (v, n, []) ->
  read_digits radix result count (l ++ k) = read_digits radix v n k.
Proof.
  induction l as [|b l IH]; intros result count v n; cbn [read_digits app]; [by intros [= -> ->]|].
  destruct (to_digit radix b); [apply IH|by intros [= <- <-]].
Qed.

Definition octet_reads (a : Z) : bool :=
  let l := show_usize a in
  match read_digits 10 0 0 l with
  | (v, n, []) => (v ==? a) && Nat.leb n 3 && negb (Nat.eqb n 0) && negb (byte_at l 0 48 && Nat.ltb 1 n)
  | _ => false
  end.

Lemma octets_read : forallb octet_reads (seqZ 0 256) = true.
Proof. vm_compute. reflexivity. Qed.

Lemma read_shown_octet a r : byte_ok a -> match r with [] => True | b :: _ => is_ascii_alphanumeric b = false end ->
  read_number 10 255 3 false (show_usize a ++ r) = Some (a, r).
Proof.
  intros Ha Hr. assert (octet_reads a = true) as H.
  { pose proof octets_read as H. rewrite forallb_forall in H. apply H. apply list_elem_of_In, elem_of_seqZ. unfold byte_ok in Ha. lia. }
  unfold octet_reads in H. destruct (read_digits 10 0 0 (show_usize a)) as [[v n] k] eqn:E. destruct k; [|done]. tobool. subst v.
  unfold read_number. rewrite (read_digits_app _ _ _ _ _ _ _ E).
  assert (read_digits 10 a n r = (a, n, r)) as ->.
  { destruct r as [|b r]; [done|]. cbn [read_digits]. unfold to_digit.
    unfold is_ascii_alphanumeric, is_ascii_alphabetic in Hr. apply orb_false_iff in Hr as [Hr ->]. apply orb_false_iff in Hr as [-> ->]. done. }
  rewrite (proj2 (Nat.ltb_ge _ _)), (proj2 (Nat.eqb_neq _ _)) by lia. cbn [orb negb andb].
  assert (byte_at (show_usize a ++ r) 0 48 = byte_at (show_usize a) 0 48) as ->
    by (destruct (show_usize_cons a) as (b0 & r0 & -> & _); done).
  destruct (byte_at _ 0 48 && _); [done|]. rewrite (proj2 (Z.leb_le _ _)); [done|]. unfold byte_ok in Ha. lia.
Qed.

Lemma read_next_octet i a r : byte_ok a -> match r with [] => True | b :: _ => is_ascii_alphanumeric b = false end ->
  read_octet (S i) (46%Z :: show_usize a ++ r) = Some (a, r).
Proof. intros Ha Hr. unfold read_octet. cbn [read_separator read_given_char]. by apply read_shown_octet. Qed.

Lemma read_dotted a b c d : Forall byte_ok [a; b; c; d] -> read_ipv4_addr (dotted a b c d) = Some ((a, b, c, d), []).
Proof.
  intros H. rewrite !Forall_cons in H. destruct H as (Ha & Hb & Hc & Hd & _). unfold dotted, read_ipv4_addr.
  change (bs ".") with [46%Z]. cbn [app]. unfold read_octet at 1. cbn [read_separator]. rewrite read_shown_octet by done.
  rewrite !read_next_octet by done. rewrite <-(app_nil_r (show_usize d)), read_next_octet by done. done.
Qed.

Lemma read_groups_step room i l : read_groups (S (S room)) i l =
  match read_separator 58 i read_ipv4_addr l with
  | Some ((a, b, c, d), r) => ([a * 256 + b; c * 256 + d]%Z, true, r)
  | None =>
    match read_separator 58 i (read_number 16 65535 4 true) l with
    | None => ([], false, l)
    | Some (g, r) => let '(gs, v4, r) := read_groups (S room) (S i) r in (g :: gs, v4, r)
    end
  end.
Proof. reflexivity. Qed.

Lemma parse_dotted a b c d : Forall byte_ok [a; b; c; d] -> parse_ip (dotted a b c d) = Some (V4 a b c d).
Proof. intros H. unfold parse_ip. by rewrite read_dotted. Qed.

(** The form that embeds an IPv4 address. *)
Lemma parse_mapped a b c d : Forall byte_ok [a; b; c; d] ->
  parse_ip (bs "::ffff:" ++ dotted a b c d) = Some (V6 [0; 0; 0; 0; 0; 65535; a * 256 + b; c * 256 + d]%Z).
Proof.
  intros H. unfold parse_ip. change (bs "::ffff:" ++ dotted a b c d) with (58 :: 58 :: 102 :: 102 :: 102 :: 102 :: 58 :: dotted a b c d)%Z.
  replace (read_ipv4_addr _) with (@None ((Z * Z * Z * Z) * bytes)) by reflexivity.
  unfold read_ipv6_addr. replace (read_groups 8 0 _) with (([], false, 58 :: 58 :: 102 :: 102 :: 102 :: 102 :: 58 :: dotted a b c d)%Z : list Z * bool * bytes) by reflexivity.
  cbn [length Nat.eqb read_given_char Z.eqb Pos.eqb Nat.sub Nat.add].
  assert (read_groups 7 0 (102 :: 102 :: 102 :: 102 :: 58 :: dotted a b c d)%Z = ([65535; a * 256 + b; c * 256 + d]%Z, true, [])) as ->.
  { rewrite (read_groups_step 5). cbn [read_separator].
    replace (read_ipv4_addr _) with (@None ((Z * Z * Z * Z) * bytes)) by reflexivity.
    replace (read_number 16 65535 4 true _) with (Some (65535%Z, 58%Z :: dotted a b c d)) by reflexivity.
    rewrite (read_groups_step 4). cbn [read_separator read_given_char Z.eqb Pos.eqb]. by rewrite read_dotted. }
  done.
Qed.

(** *** Spellings of a host *)

Lemma dotted_edges a b c d : exists x y z, dotted a b c d = x :: y ++ [z] /\ is_ascii_digit x = true /\ is_ascii_digit z = true.
Proof.
  destruct (show_usize_cons a) as (x & y & E & Hx). unfold dotted. rewrite E.
  pose proof (show_digits_digits 20 d : Forall _ (show_usize d)) as Hd. destruct (show_usize_cons d) as (z & k & Ed & Hz).
  destruct (show_usize d) as [|w l _] using rev_ind; [done|]. apply Forall_app in Hd as [_ Hw]. rewrite Forall_singleton in Hw.
  exists x, (y ++ bs "." ++ show_usize b ++ bs "." ++ show_usize c ++ bs "." ++ l), w. split; [|done]. cbn [app]. by rewrite <-!app_assoc.
Qed.

Lemma strip_suffix_snoc l x y : strip_suffix [y] (l ++ [x]) = if y ==? x then Some l else None.
Proof.
  unfold strip_suffix, ends_with. rewrite rev_app_distr. cbn [rev app starts_with]. rewrite andb_true_r. destruct (y ==? x); [|done].
  rewrite length_app. cbn [length]. by rewrite Nat.add_sub, take_app_length.
Qed.

Lemma graphic_edge b : is_ascii_graphic b = true -> trim_edge b.
Proof. unfold is_ascii_graphic, trim_edge. intros H. tobool. split; [lia|]. split; [|apply Z.eqb_neq; lia]. apply andb_false_iff. rewrite !Z.leb_gt. lia. Qed.

Lemma digit_graphic b : is_ascii_digit b = true -> is_ascii_graphic b = true /\ b <> 91%Z /\ b <> 46%Z.
Proof. unfold is_ascii_digit, is_ascii_graphic. intros H. tobool. rewrite andb_true_iff, !Z.leb_le. lia. Qed.

Lemma clean_plain x l z : is_ascii_graphic x = true -> is_ascii_graphic z = true -> x <> 91%Z -> z <> 46%Z -> clean_host (x :: l ++ [z]) = x :: l ++ [z].
Proof.
  intros Hx Hz Ex Ez. unfold clean_host. rewrite trim_id by (by apply graphic_edge).
  assert (strip_prefix (bs "[") (x :: l ++ [z]) = None) as ->
    by (unfold strip_prefix; change (bs "[") with [91%Z]; cbn [starts_with]; by rewrite (proj2 (Z.eqb_neq 91 x)) by congruence).
  change (bs ".") with [46%Z]. rewrite app_comm_cons, strip_suffix_snoc. by rewrite (proj2 (Z.eqb_neq 46 z)) by congruence.
Qed.

Lemma clean_bracketed l z : is_ascii_graphic z = true -> z <> 46%Z -> clean_host (bs "[" ++ (l ++ [z]) ++ bs "]") = l ++ [z].
Proof.
  intros Hz Ez. unfold clean_host. change (bs "[" ++ (l ++ [z]) ++ bs "]") with (91%Z :: (l ++ [z]) ++ [93%Z]).
  rewrite trim_id by (by apply graphic_edge).
  replace (strip_prefix (bs "[") _) with (Some ((l ++ [z]) ++ [93%Z])) by reflexivity.
  change (bs "]") with [93%Z]. rewrite strip_suffix_snoc. cbn [Z.eqb Pos.eqb]. change (bs ".") with [46%Z]. rewrite strip_suffix_snoc.
  by rewrite (proj2 (Z.eqb_neq 46 z)) by congruence.
Qed.

(** ** The gate *)

Section Gate.
Context (lookup_host : bytes -> option (list (IpAddr * Z))).
Context (lookup_ok : forall text l, lookup_host text = Some l -> Forall (fun x => ip_ok (fst x)) l).

Lemma check_addresses_spec allow host l : Forall (fun x => ip_ok (fst x)) l ->
  match check_addresses allow host l with
  | None => allow = true \/ Forall (fun x => outside_blocks (fst x) = true) l
  | Some e => allow = false /\ exists ip port, (ip, port) ∈ l /\ outside_blocks ip = false /\ e = SsrfBlocked ip host
  end.
Proof.
  induction 1 as [|[ip port] l Hip _ IH]; cbn [check_addresses]; [by right; apply Forall_nil|].
  cbn [fst] in Hip. rewrite (ssrf_safe_exact _ Hip). destruct allow; cbn [negb andb] in *.
  - destruct (check_addresses true host l); [by destruct IH|by left].
  - destruct (outside_blocks ip) eqn:E; cbn [negb].
    + destruct (check_addresses false host l) as [e|].
      * destruct IH as (_ & ip' & port' & Hin & Hp & He). split; [done|]. exists ip', port'. split; [by apply list_elem_of_further|done].
      * right. destruct IH as [?|IH]; [done|]. by apply Forall_cons.
    + split; [done|]. exists ip, port. split; [apply list_elem_of_here|done].
Qed.

(** The addresses a host stands for: its own, if it is a literal. *)
Definition addresses_of (host : bytes) (port : Z) : option (list (IpAddr * Z)) :=
  match parse_ip host with
  | Some ip => Some [(ip, port)]
  | None => lookup_host (host ++ bs ":" ++ show_usize port)
  end.

Lemma addresses_ok host port l : addresses_of host port = Some l -> Forall (fun x => ip_ok (fst x)) l.
Proof.
  unfold addresses_of. destruct (parse_ip host) as [ip|] eqn:E; [|apply lookup_ok].
  intros [= <-]. apply Forall_singleton. by eapply parse_ip_ok.
Qed.

(** A literal goes through the same loop as the answers of DNS. *)
Lemma resolve_unfold host port allow : resolve_host_addresses lookup_host host port allow =
  let host := clean_host host in
  match host with
  | [] => inl NoHost
  | _ =>
    match addresses_of host port with
    | None => inl LookupFailed
    | Some l => match check_addresses allow host l with Some e => inl e | None => match l with [] => inl Unresolved | _ => inr l end end
    end
  end.
Proof.
  unfold resolve_host_addresses, addresses_of. cbv zeta. destruct (clean_host host) as [|b r]; [done|].
  destruct (parse_ip (b :: r)) as [ip|]; [|done]. cbn [check_addresses]. by destruct (negb allow && _).
Qed.

Definition blocked (answer : ResolveError + list (IpAddr * Z)) : Prop := exists ip h, answer = inl (SsrfBlocked ip h).

Lemma literal_blocked host port ip : clean_host host <> [] -> parse_ip (clean_host host) = Some ip -> outside_blocks ip = false ->
  blocked (resolve_host_addresses lookup_host host port false).
Proof.
  intros Hne E Hp. rewrite resolve_unfold. cbv zeta. unfold addresses_of. rewrite E. cbn [check_addresses negb andb].
  rewrite (ssrf_safe_exact ip), Hp by (by eapply parse_ip_ok). destruct (clean_host host) as [|b r]; [done|]. cbn [negb]. by exists ip, (b :: r).
Qed.

(** A host resolves exactly when it stands for addresses, its own or those that DNS
    gives, and the gate is off or every one of them is outside the blocks the code
    lists; a refusal names an address in one; and an IPv4 address in one is refused
    however DNS answers, also when it is written as an IPv6 address in brackets.
    Callers that connect by name look the host up again; [Smtp] connects to the
    addresses. *)
Lemma resolve_gate host port :
  (forall allow l, resolve_host_addresses lookup_host host port allow = inr l <->
     clean_host host <> [] /\ l <> [] /\ addresses_of (clean_host host) port = Some l /\ (allow = true \/ Forall (fun x => outside_blocks (fst x) = true) l)) /\
  (forall allow ip h, resolve_host_addresses lookup_host host port allow = inl (SsrfBlocked ip h) -> allow = false /\ outside_blocks ip = false) /\
  (forall a b c d, Forall byte_ok [a; b; c; d] -> outside_blocks (V4 a b c d) = false ->
     host = dotted a b c d \/ host = bs "[::ffff:" ++ dotted a b c d ++ bs "]" ->
     blocked (resolve_host_addresses lookup_host host port false)).
Proof.
  split; [|split].
  - intros allow l. rewrite resolve_unfold. cbv zeta. destruct (clean_host host) as [|b r]; [split; [done|by intros [? _]]|].
    destruct (addresses_of (b :: r) port) as [k|] eqn:E; [|split; [done|by intros (_ & _ & ? & _)]].
    pose proof (check_addresses_spec allow (b :: r) k (addresses_ok _ _ _ E)) as Hc. destruct (check_addresses _ _ k) as [e|].
    + split; [done|]. destruct Hc as (-> & ip & p & Hin & Hp & _). intros (_ & _ & [= <-] & [?|H]); [done|].
      rewrite Forall_forall in H. specialize (H _ Hin). cbn in H. congruence.
    + destruct k as [|x k]; (split; [intros H; try done|]).
      * by intros (_ & H & [= <-] & _).
      * injection H as <-. by repeat split.
      * by intros (_ & _ & [= <-] & _).
  - intros allow ip h. rewrite resolve_unfold. cbv zeta. destruct (clean_host host) as [|b r]; [done|].
    destruct (addresses_of (b :: r) port) as [k|] eqn:E; [|done].
    pose proof (check_addresses_spec allow (b :: r) k (addresses_ok _ _ _ E)) as Hc. destruct (check_addresses _ _ k) as [e|]; [|by destruct k].
    destruct Hc as (-> & ip' & p & _ & Hp & ->). by intros [= <- _].
  - intros a b c d Hok Hp. destruct (dotted_edges a b c d) as (x & y & z & E & Hx & Hz).
    apply digit_graphic in Hx as (Hx & Hx' & _), Hz as (Hz & _ & Hz'). intros [->| ->].
    + assert (clean_host (dotted a b c d) = dotted a b c d) as Ec by (rewrite E; by apply clean_plain).
      apply literal_blocked with (ip := V4 a b c d); rewrite ?Ec; [by rewrite E|by apply parse_dotted|done].
    + assert (clean_host (bs "[::ffff:" ++ dotted a b c d ++ bs "]") = bs "::ffff:" ++ dotted a b c d) as Ec.
      { rewrite E. exact (clean_bracketed (bs "::ffff:" ++ x :: y) z Hz Hz'). }
      pose proof (parse_mapped _ _ _ _ Hok) as Em.
      eapply literal_blocked; rewrite ?Ec; [done|exact Em|]. rewrite <-ssrf_safe_exact by (by eapply parse_ip_ok).
      rewrite <-Hp, <-(ssrf_safe_exact (V4 a b c d)) by exact Hok.
      change (is_ssrf_safe_v4 ((a * 256 + b) / 256) ((a * 256 + b) mod 256) ((c * 256 + d) / 256) ((c * 256 + d) mod 256) = is_ssrf_safe_v4 a b c d).
      rewrite !Forall_cons in Hok. destruct Hok as (_ & Hb & _ & Hd & _). unfold byte_ok in *. f_equal; dlia.
Qed.
End Gate.

(** ** Cache keys *)

Definition no_nul (l : bytes) : Prop := 0%Z ∉ l.
Definition header_plain (kv : bytes * bytes) : Prop := no_nul (fst kv) /\ no_nul (snd kv) /\ 58%Z ∉ fst kv.

Lemma split_at_inj (x : Z) l1 l2 r1 r2 : x ∉ l1 -> x ∉ l2 -> l1 ++ x :: r1 = l2 ++ x :: r2 -> l1 = l2 /\ r1 = r2.
Proof.
  revert l2. induction l1 as [|a l1 IH]; intros [|b l2] H1 H2 E; cbn [app] in E.
  - by injection E as ->.
  - injection E as <- _. by destruct H2; apply list_elem_of_here.
  - injection E as -> _. by destruct H1; apply list_elem_of_here.
  - injection E as -> E. apply not_elem_of_cons in H1 as [_ H1], H2 as [_ H2]. by destruct (IH l2 H1 H2 E) as [-> ->].
Qed.

Definition hashed_tail (headers : list (bytes * bytes)) (body : option bytes) : bytes :=
  flat_map hash_header headers ++ match body with Some b => bs "BODY" ++ [0%Z] ++ b ++ [0%Z] | None => [] end.

Lemma hashed_tail_cons k v headers body :
  hashed_tail ((k, v) :: headers) body = (k ++ 58%Z :: v) ++ 0%Z :: hashed_tail headers body.
Proof. unfold hashed_tail. cbn [flat_map]. unfold hash_header at 1. cbn [fst snd]. change (bs ":") with [58%Z]. by rewrite <-!app_assoc. Qed.

Lemma header_ne_body k v headers body b : header_plain (k, v) -> hashed_tail ((k, v) :: headers) body <> hashed_tail [] (Some b).
Proof.
  intros (Hk & Hv & _). cbn [fst snd] in *. rewrite hashed_tail_cons. unfold hashed_tail at 2. cbn [flat_map app].
  change (bs "BODY" ++ 0%Z :: b ++ [0%Z]) with ([66; 79; 68; 89]%Z ++ 0%Z :: b ++ [0%Z]). intros E.
  apply split_at_inj in E as [E _].
  - assert (58%Z ∈ [66; 79; 68; 89]%Z) as H by (rewrite <-E; apply elem_of_app; right; apply list_elem_of_here). revert H. rewrite !elem_of_cons, elem_of_nil. lia.
  - rewrite not_elem_of_app, not_elem_of_cons. by repeat split.
  - rewrite !not_elem_of_cons. repeat split; try done. apply not_elem_of_nil.
Qed.

Lemma hashed_tail_inj h1 : forall h2 b1 b2, Forall header_plain h1 -> Forall header_plain h2 -> hashed_tail h1 b1 = hashed_tail h2 b2 -> h1 = h2 /\ b1 = b2.
Proof.
  induction h1 as [|[k v] h1 IH]; intros [|[k' v'] h2] b1 b2 H1 H2 E.
  - split; [done|]. unfold hashed_tail in E. cbn [flat_map app] in E. destruct b1, b2; try done. injection E as E. by apply app_inj_tail in E as [-> _].
  - destruct b1 as [b|]; [|by rewrite hashed_tail_cons in E; destruct k']. apply Forall_cons in H2 as [H2 _]. by destruct (header_ne_body k' v' h2 b2 b).
  - destruct b2 as [b|]; [|by rewrite hashed_tail_cons in E; destruct k]. apply Forall_cons in H1 as [H1 _]. by destruct (header_ne_body k v h1 b1 b).
  - apply Forall_cons in H1 as [(Hk & Hv & Hc) H1], H2 as [(Hk' & Hv' & Hc') H2]. cbn [fst snd] in *. rewrite !hashed_tail_cons in E.
    apply split_at_inj in E as [E Et]; [|by rewrite not_elem_of_app, not_elem_of_cons..].
    apply split_at_inj in E as [-> ->]; [|done..]. by destruct (IH h2 b1 b2 H1 H2 Et) as [-> ->].
Qed.

(** Two requests share the hashed text of their cache keys only if they are the
    same request: the same method but for case, URL, headers and body, when no part
    but the body holds a NUL and no header name a colon. *)
Theorem cache_key_identifies (str_to_uppercase : bytes -> bytes) m1 m2 u1 u2 h1 h2 b1 b2 :
  Forall no_nul [str_to_uppercase m1; str_to_uppercase m2; u1; u2] -> Forall header_plain h1 -> Forall header_plain h2 ->
  hashed_parts str_to_uppercase m1 u1 h1 b1 = hashed_parts str_to_uppercase m2 u2 h2 b2 ->
  str_to_uppercase m1 = str_to_uppercase m2 /\ u1 = u2 /\ h1 = h2 /\ b1 = b2.
Proof.
  intros H H1 H2 E. rewrite !Forall_cons in H. destruct H as (Hm1 & Hm2 & Hu1 & Hu2 & _).
  unfold hashed_parts in E. fold (hashed_tail h1 b1) (hashed_tail h2 b2) in E. cbn [app] in E.
  apply split_at_inj in E as [-> E]; [|done..]. apply split_at_inj in E as [-> E]; [|done..].
  by destruct (hashed_tail_inj h1 h2 b1 b2 H1 H2 E) as [-> ->].
Qed.

(** ** Retries *)

Section Retries.
Context {T E : Type} (operation : nat -> E + T) (is_retryable : E + T -> nat -> bool).
Context (max_retries : nat) (backoff_min backoff_max : Z).
Abbreviation again := (fun n => is_retryable (operation n) n).

(** The answer after attempt [n], the last one. *)
Definition answer_of (n : nat) : (E + RetryError E) + T :=
  match operation n with
  | inl e => inl (if again n then inr (ExhaustedAfter e) else inl e)
  | inr v => if again n then inl (inr Exhausted) else inr v
  end.

Lemma backoff_loop_spec fuel : forall n, max_retries < fuel + n -> n <= max_retries ->
  exists last, n <= last <= max_retries /\ (forall i, n <= i < last -> again i = true) /\ (again last = false \/ last = max_retries) /\
    backoff_loop operation is_retryable max_retries backoff_min backoff_max fuel n =
      Some (answer_of last, map (backoff_wait backoff_min backoff_max) (seq (S n) (last - n))).
Proof.
  induction fuel as [|fuel IH]; intros n Hf Hn; [lia|]. cbn [backoff_loop]. destruct (is_retryable (operation n) n) eqn:Ea; cbn [negb].
  - destruct (Nat.ltb max_retries (S n)) eqn:El; tobool.
    + exists n. split; [lia|]. split; [lia|]. split; [right; lia|]. rewrite Nat.sub_diag. unfold answer_of. rewrite Ea. by destruct (operation n).
    + destruct (IH (S n)) as (last & Hl & Hall & Hend & ->); [lia..|]. exists last. split; [lia|]. split; [|split; [done|]].
      * intros i Hi. destruct (decide (i = n)) as [->|]; [done|]. apply Hall. lia.
      * replace (last - n) with (S (last - S n)) by lia. done.
  - exists n. split; [lia|]. split; [lia|]. split; [by left|]. rewrite Nat.sub_diag. unfold answer_of. rewrite Ea. by destruct (operation n).
Qed.

(** An operation is tried until an attempt cannot be retried or the retries are used
    up, and always answered; before each retry it waits the bounded exponential step. *)
Theorem retry_with_backoff_spec :
  exists last, last <= max_retries /\ (forall i, i < last -> again i = true) /\ (again last = false \/ last = max_retries) /\
    retry_with_backoff operation is_retryable max_retries backoff_min backoff_max =
      Some (answer_of last, map (backoff_wait backoff_min backoff_max) (seq 1 last)).
Proof.
  destruct (backoff_loop_spec (S max_retries) 0) as (last & Hl & Hall & Hend & Ea); [lia..|]. exists last. rewrite Nat.sub_0_r in Ea.
  split; [lia|]. split; [intros i Hi; apply Hall; lia|]. by split.
Qed.
End Retries.

(** ** Headers, variables and verdicts *)

Lemma clean_header_one_line l : Forall (fun b => b <> 10%Z /\ b <> 13%Z) (clean_header l).
Proof.
  apply Forall_forall. intros b Hb. apply list_elem_of_In in Hb. unfold clean_header in Hb. apply filter_In in Hb as [_ Hb]. tobool. by split.
Qed.

Lemma insert_absent_lookup name value out k :
  insert_absent name value out !! k = match out !! k with Some v => Some v | None => if decide (k = name) then Some value else None end.
Proof.
  unfold insert_absent. destruct (out !! name) as [v|] eqn:E.
  - destruct (out !! k) eqn:Ek; [done|]. destruct (decide (k = name)) as [->|]; [congruence|done].
  - destruct (decide (k = name)) as [->|Hk]; [by rewrite lookup_insert_eq, E|]. rewrite lookup_insert_ne by done. by destruct (out !! k).
Qed.

(** Variables the caller sets stay as they are; the two of the request are there in
    both environments, and nothing else is added. *)
Lemma template_globals_lookup rendered nanos globals k :
  (forall v, globals !! k = Some v -> with_request_template_globals rendered nanos globals !! k = Some v /\ with_cache_key_template_globals globals !! k = Some v) /\
  (globals !! k = None -> is_auto_provided_request_var k = true ->
     is_Some (with_request_template_globals rendered nanos globals !! k) /\ with_cache_key_template_globals globals !! k = Some k) /\
  (globals !! k = None -> is_auto_provided_request_var k = false ->
     with_request_template_globals rendered nanos globals !! k = None /\ with_cache_key_template_globals globals !! k = None).
Proof.
  unfold with_request_template_globals, with_cache_key_template_globals, is_auto_provided_request_var, bytes_eqb. cbv zeta. rewrite !insert_absent_lookup.
  destruct (globals !! k) as [v|]; (split; [by intros ? [= <-]|]); [by split|].
  destruct (decide (k = RFC1123_DATE)) as [->|H1]; [by rewrite bool_decide_eq_true_2|]. rewrite (bool_decide_eq_false_2 (k = RFC1123_DATE)) by done.
  destruct (decide (k = UNIX_MILLIS)) as [->|H2]; [by rewrite bool_decide_eq_true_2|]. by rewrite (bool_decide_eq_false_2 (k = UNIX_MILLIS)) by done.
Qed.

Section Verdict.
Context (header_get : bytes -> option bytes) (json_valid xml_valid : bytes -> bool).

(** What each matcher asks of a response. *)
Definition matches (body : bytes) (status : Z) (m : ResponseMatcher) : bool :=
  match m with
  | WordMatch words all negative => xorb negative (any_or_all all (fun w => contains_sub w body) words)
  | StatusMatch expected all negative => xorb negative (any_or_all all (Z.eqb status) expected)
  | HeaderMatch header expected all =>
    any_or_all all (fun e => contains_sub (str_to_ascii_lowercase e) (str_to_ascii_lowercase (default [] (header_text header_get header)))) expected
  | JsonValid => json_valid body
  | XmlValid => xml_valid body
  | ReportResponse => true
  end.

Definition u16_ok (v : Z) : Prop := (0 <= v < 65536)%Z.
Definition matcher_ok (m : ResponseMatcher) : Prop := match m with StatusMatch expected _ _ => Forall u16_ok expected | _ => True end.

Lemma any_or_all_ext {A} all (p q : A -> bool) l : Forall (fun x => p x = q x) l -> any_or_all all p l = any_or_all all q l.
Proof. unfold any_or_all. induction 1 as [|x l Hx _ IH]; [done|]. destruct all; cbn [forallb existsb] in *; by rewrite Hx, IH. Qed.

(** The five passes over the matchers are one: a response is accepted when every
    matcher is satisfied and it is no page, unless pages are allowed. *)
Theorem validate_response_all matchers body status html_allowed : u16_ok status -> Forall matcher_ok matchers ->
  validate_response header_get json_valid xml_valid matchers body status html_allowed =
    forallb (matches body status) matchers && (html_allowed || negb (body_looks_like_html header_get body)).
Proof.
  intros Hs Hm. unfold validate_response. f_equal. unfold all_picked. induction Hm as [|m l Hm _ IH]; [done|]. cbn [forallb]. rewrite <-IH. clear IH.
  destruct m as [words all negative|expected all negative|header expected all| | |]; cbn [omap list_omap pick_word pick_status pick_header pick_json pick_xml forallb matches matcher_ok] in *.
  all: unfold id; rewrite ?andb_true_l; try (rewrite <-!andb_assoc; done).
  - rewrite (any_or_all_ext all _ (Z.eqb status)); [btauto|]. eapply Forall_impl; [exact Hm|]. intros s Hs'. cbn. unfold bytes_eqb.
    apply eq_true_iff_eq. rewrite bool_decide_eq_true, Z.eqb_eq. split; [intros E; symmetry; apply show_usize_inj; [unfold u16_ok, U64_MOD in *; lia..|done]|by intros ->].
  - btauto.
  - btauto.
  - btauto.
Qed.
End Verdict.

(** ** Concrete runs *)

(** A name with a public and an internal address, and one with a public one. *)
Definition demo_lookup (text : bytes) : option (list (IpAddr * Z)) :=
  if bytes_eqb text (bs "rebound.example:443") then Some [(V4 8 8 8 8, 443%Z); (V4 10 1 2 3, 443%Z)]
  else if bytes_eqb text (bs "api.example:443") then Some [(V4 8 8 8 8, 443%Z)] else None.

Lemma demo_lookup_ok text l : demo_lookup text = Some l -> Forall (fun x => ip_ok (fst x)) l.
Proof.
  unfold demo_lookup. repeat split_if; try done; intros [= <-]; rewrite !Forall_cons; cbn [fst ip_ok]; rewrite !Forall_cons; unfold byte_ok;
    repeat split; (lia || by apply Forall_nil).
Qed.

Example demo_rebound : resolve_host_addresses demo_lookup (bs "rebound.example.") 443 false = inl (SsrfBlocked (V4 10 1 2 3) (bs "rebound.example")).
Proof. vm_compute. reflexivity. Qed.
Example demo_loopback : resolve_host_addresses demo_lookup (bs "[::1]") 443 false = inl (SsrfBlocked (V6 [0; 0; 0; 0; 0; 0; 0; 1]%Z) (bs "::1")).
Proof. vm_compute. reflexivity. Qed.

(** Some reserved blocks are not in the table: the discard prefix 100::/64, and the
    blocks that embed an IPv4 address in another way: the NAT64 prefix 64:ff9b::/96
    and 6to4, 2002::/16; here 127.0.0.1 in both. *)
Example unlisted_blocks : map (fun text => is_ssrf_safe_ip <$> parse_ip (bs text)) ["100::1"; "64:ff9b::7f00:1"; "2002:7f00:1::"] = [Some true; Some true; Some true].
Proof. vm_compute. reflexivity. Qed.

Lemma metadata_octets : Forall byte_ok [169; 254; 169; 254]%Z.
Proof. rewrite !Forall_cons. unfold byte_ok. repeat split; (lia || by apply Forall_nil). Qed.

Lemma resolve_gate_witness :
  resolve_host_addresses demo_lookup (bs "api.example") 443 false = inr [(V4 8 8 8 8, 443%Z)] /\
  blocked (resolve_host_addresses demo_lookup (bs "[::ffff:" ++ dotted 169 254 169 254 ++ bs "]") 80 false).
Proof.
  split.
  - apply (proj1 (resolve_gate demo_lookup demo_lookup_ok (bs "api.example") 443)). split; [by vm_compute|]. split; [done|]. split; [vm_compute; reflexivity|].
    right. apply Forall_singleton. vm_compute. reflexivity.
  - apply (proj2 (proj2 (resolve_gate demo_lookup demo_lookup_ok (bs "[::ffff:" ++ dotted 169 254 169 254 ++ bs "]") 80)) 169%Z 254%Z 169%Z 254%Z);
      [exact metadata_octets|vm_compute; reflexivity|by right].
Defined.

Lemma cache_key_identifies_witness :
  let key m := hashed_parts str_to_ascii_lowercase m (bs "https://a/") [(bs "accept", bs "*/*")] (Some (bs "x")) in
  key (bs "get") = key (bs "GET") /\ str_to_ascii_lowercase (bs "get") = str_to_ascii_lowercase (bs "GET").
Proof.
  cbv zeta. split; [vm_compute; reflexivity|].
  apply (cache_key_identifies str_to_ascii_lowercase (bs "get") (bs "GET") (bs "https://a/") (bs "https://a/") [(bs "accept", bs "*/*")] [(bs "accept", bs "*/*")]
    (Some (bs "x")) (Some (bs "x"))).
  - repeat (apply Forall_cons; split; [apply (bool_decide_unpack _); vm_compute; exact I|]). by apply Forall_nil.
  - apply Forall_singleton. repeat split; apply (bool_decide_unpack _); vm_compute; exact I.
  - apply Forall_singleton. repeat split; apply (bool_decide_unpack _); vm_compute; exact I.
  - vm_compute. reflexivity.
Defined.

Lemma retry_demo : exists waits, retry_with_backoff (fun n => if Nat.ltb n 2 then inr 503%Z else inr 200%Z : bytes + Z) (retryable (fun s => s)) 3 (from_millis 100) (from_secs 1)
  = Some (inr 200%Z, waits) /\ waits = [from_millis 200; from_millis 400].
Proof. eexists. split; [vm_compute; reflexivity|]. vm_compute. reflexivity. Qed.
