(* ===== verification/Smtp.v ===== *)
(** * Addresses an SMTP server is dialled at: [kingfisher-scanner/src/validation/raw/smtp.rs]

    The target is resolved once, and the sockets are opened to the addresses that
    were checked, at every port that is tried; so the gate of [Egress] holds of the
    connections themselves. A session (greeting, TLS, AUTH, its deadline) is a
    parameter that gives the last reply code, [None] for an error or a timeout. *)

From Stdlib Require Import ZArith Lia Bool.
From stdpp Require Import base list numbers option.
From S2P Require Import Prelude Text Egress.
Open Scope kf_scope.

Section Smtp.
Context (lookup_host : bytes -> option (list (IpAddr * Z))).
(** A session with the first address that answers, over implicit TLS or not. *)
Context (authenticate : list (IpAddr * Z) -> bool -> option Z).

Definition ports (url_port : option Z) (scheme : bytes) : list (Z * bool) :=
  match url_port with
  | Some port => [(port, bytes_eqb scheme (bs "smtps") || (port ==? 465))]
  | None => if bytes_eqb scheme (bs "smtps") then [(465%Z, true)] else [(587%Z, false); (465%Z, true); (25%Z, false)]
  end.

Record RawValidationOutcome := { valid : bool; status : Z; outcome_body : bytes }.

Definition set_port (port : Z) (address : IpAddr * Z) : IpAddr * Z := (fst address, port).

Definition accepted (code port : Z) : RawValidationOutcome := {|
  valid := (code ==? 235);
  status := if code ==? 235 then 200%Z else 401%Z;
  outcome_body := bs "SMTP authentication " ++ (if code ==? 235 then bs "accepted" else bs "rejected") ++ bs " (SMTP " ++ show_usize code ++
    bs ", port " ++ show_usize port ++ bs ")"
|}.
Definition inconclusive : RawValidationOutcome := {|
  valid := false; status := 502%Z;
  outcome_body := bs "SMTP authentication inconclusive: connection, TLS, timeout, or AUTH failure"
|}.

(** The outcome, and what was dialled. *)
Abbreviation Dialled := (list (list (IpAddr * Z) * bool)).
Fixpoint probe (addresses : list (IpAddr * Z)) (probes : list (Z * bool)) : RawValidationOutcome * Dialled :=
  match probes with
  | [] => (inconclusive, [])
  | (port, implicit_tls) :: probes =>
    let at_port := map (set_port port) addresses in
    let next := let '(o, dialled) := probe addresses probes in (o, (at_port, implicit_tls) :: dialled) in
    match authenticate at_port implicit_tls with
    | Some code => if (code ==? 235) || (code ==? 535) then (accepted code port, [(at_port, implicit_tls)]) else next
    | None => next
    end
  end.

(** [validate], with the host of the target as it is looked up. *)
Definition validate (host : bytes) (url_port : option Z) (scheme : bytes) (allow_internal_ips : bool) : RawValidationOutcome * Dialled :=
  let probes := ports url_port scheme in
  match resolve_host_addresses lookup_host host (match probes with (port, _) :: _ => port | [] => 0%Z end) allow_internal_ips with
  | inr addresses => probe addresses probes
  | inl (SsrfBlocked _ _) =>
    ({| valid := false; status := 428%Z; outcome_body := bs "SMTP validation skipped: target blocked" |}, [])
  | inl _ =>
    ({| valid := false; status := 502%Z; outcome_body := bs "SMTP authentication inconclusive: host resolution failed" |}, [])
  end.

(** ** The registries of special-purpose addresses *)

(** IANA's registries (RFC 6890 and later): the blocks that are not globally
    reachable, and the multicast block. *)
Definition IANA_V4 : list (Z * Z) :=
  [block4 0 0 0 0 8; block4 10 0 0 0 8; block4 100 64 0 0 10; block4 127 0 0 0 8; block4 169 254 0 0 16; block4 172 16 0 0 12;
   block4 192 0 0 0 24; block4 192 0 2 0 24; block4 192 168 0 0 16; block4 198 18 0 0 15; block4 198 51 100 0 24; block4 203 0 113 0 24;
   block4 224 0 0 0 4; block4 240 0 0 0 4; block4 255 255 255 255 32].
(** Of IPv6: loopback, unspecified, mapped addresses (through IPv4), the local NAT64
    prefix, discard and dummy prefixes, protocol assignments, documentation twice,
    SRv6 identifiers, unique local, link-local, multicast. *)
Definition IANA_V6 : list (Z * Z) :=
  [block6 [0; 0; 0; 0; 0; 0; 0; 1] 128; block6 [] 128; block6 [100; 65435; 1] 48; block6 [256] 64; block6 [256; 0; 0; 1] 64; block6 [8193] 23;
   block6 [8193; 3512] 32; block6 [16383] 20; block6 [24320] 16; block6 [64512] 7; block6 [65152] 10; block6 [65280] 8]%Z.
(** Those the gate does not know, and the prefixes that hold an IPv4 address in
    another way than a mapped one: NAT64 and 6to4. *)
Definition UNCHECKED_V6 : list (Z * Z) :=
  [block6 [100; 65435] 96; block6 [100; 65435; 1] 48; block6 [256] 64; block6 [256; 0; 0; 1] 64; block6 [8193] 23; block6 [8194] 16;
   block6 [16383] 20; block6 [24320] 16]%Z.

(** An address that the registries keep off the public Internet, as far as the gate
    knows. *)
Definition local_address (ip : IpAddr) : bool :=
  match ip with
  | V4 a b c d => existsb (in_block 32 (number 256 [a; b; c; d])) IANA_V4
  | V6 s =>
    let n := number 65536 s in
    if in_block 128 n MAPPED then existsb (in_block 32 (n mod 2 ^ 32)%Z) IANA_V4
    else existsb (in_block 128 n) IANA_V6 && negb (existsb (in_block 128 n) UNCHECKED_V6)
  end.

Lemma in_block_wider width n first1 len1 first2 len2 :
  (0 <= len1 <= len2)%Z -> (len2 <= width)%Z -> Z.shiftr first2 (width - len1) = Z.shiftr first1 (width - len1) ->
  in_block width n (first2, len2) = true -> in_block width n (first1, len1) = true.
Proof.
  intros Hl Hw Hf. unfold in_block. rewrite !Z.eqb_eq, <-Hf. intros H.
  replace (width - len1)%Z with ((width - len2) + (len2 - len1))%Z by lia. rewrite <-!Z.shiftr_shiftr by lia. by rewrite H.
Qed.

Lemma blocks_inside width n blocks blocks' :
  Forall (fun b => Exists (fun b' => (0 <= b'.2 <= b.2)%Z /\ (b.2 <= width)%Z /\ Z.shiftr b.1 (width - b'.2) = Z.shiftr b'.1 (width - b'.2)) blocks') blocks ->
  existsb (in_block width n) blocks = true -> existsb (in_block width n) blocks' = true.
Proof.
  intros H (b & Hb & Hin)%existsb_exists. rewrite List.Forall_forall in H. apply H in Hb. apply List.Exists_exists in Hb as (b' & Hb' & Hl & Hw & Hf).
  apply existsb_exists. exists b'. split; [done|]. destruct b, b'. by eapply in_block_wider.
Qed.

Ltac inside := repeat (apply List.Forall_cons; [repeat first [apply List.Exists_cons_hd; split; [split; vm_compute; discriminate|split; [vm_compute; discriminate|vm_compute; reflexivity]]
  | apply List.Exists_cons_tl]|]); apply List.Forall_nil.

Lemma listed_v4 n : existsb (in_block 32 n) IANA_V4 = true -> existsb (in_block 32 n) RESERVED_V4 = true.
Proof. apply blocks_inside. unfold IANA_V4, RESERVED_V4. inside. Qed.

Lemma listed_v6 n : existsb (in_block 128 n) IANA_V6 = true -> existsb (in_block 128 n) (RESERVED_V6 ++ UNCHECKED_V6) = true.
Proof. apply blocks_inside. unfold IANA_V6, RESERVED_V6, UNCHECKED_V6. cbn [app]. inside. Qed.

Lemma outside_not_local ip : outside_blocks ip = true -> local_address ip = false.
Proof.
  intros H. apply not_true_iff_false. destruct ip as [a b c d|s]; cbn [outside_blocks local_address] in *.
  - intros Hl%listed_v4. by rewrite Hl in H.
  - cbv zeta in *. destruct (in_block 128 _ MAPPED); [intros Hl%listed_v4; by rewrite Hl in H|].
    intros [Hl Hu]%andb_prop. apply listed_v6 in Hl. rewrite existsb_app in Hl. apply negb_true_iff in Hu. rewrite Hu, orb_false_r in Hl.
    by rewrite Hl in H.
Qed.

(** ** What is dialled *)

Lemma probe_dialled addresses probes :
  let '(o, dialled) := probe addresses probes in
  exists k, k <= length probes /\ dialled = map (fun '(port, tls) => (map (set_port port) addresses, tls)) (take k probes) /\
    (forall i, S i < k -> forall port tls, probes !! i = Some (port, tls) ->
       authenticate (map (set_port port) addresses) tls <> Some 235%Z /\ authenticate (map (set_port port) addresses) tls <> Some 535%Z) /\
    match last dialled ≫= (fun '(at_port, tls) => authenticate at_port tls) with
    | Some 235%Z => valid o = true /\ status o = 200%Z
    | Some 535%Z => valid o = false /\ status o = 401%Z
    | _ => o = inconclusive /\ k = length probes
    end.
Proof.
  induction probes as [|[port tls] probes IH]; cbn [probe].
  { exists 0. split; [done|]. split; [done|]. split; [intros i Hi; lia|done]. }
  set (at_port := map (set_port port) addresses).
  assert (let '(o, dialled) := let '(o, dialled) := probe addresses probes in (o, (at_port, tls) :: dialled) in
    authenticate at_port tls <> Some 235%Z -> authenticate at_port tls <> Some 535%Z ->
    exists k, k <= S (length probes) /\ dialled = map (fun '(port, tls) => (map (set_port port) addresses, tls)) (take k ((port, tls) :: probes)) /\
    (forall i, S i < k -> forall port' tls', ((port, tls) :: probes) !! i = Some (port', tls') ->
       authenticate (map (set_port port') addresses) tls' <> Some 235%Z /\ authenticate (map (set_port port') addresses) tls' <> Some 535%Z) /\
    match last dialled ≫= (fun '(at_port, tls) => authenticate at_port tls) with
    | Some 235%Z => valid o = true /\ status o = 200%Z
    | Some 535%Z => valid o = false /\ status o = 401%Z
    | _ => o = inconclusive /\ k = S (length probes)
    end) as Hnext.
  { destruct (probe addresses probes) as [o dialled]. destruct IH as (k & Hk & Hd & Hno & Ho). intros H1 H2. exists (S k).
    split; [lia|]. split; [by rewrite Hd|]. split.
    - intros [|i] Hi port' tls'; cbn; [by intros [= <- <-]|]. apply Hno. lia.
    - destruct dialled as [|d ds].
      + cbn [last mbind option_bind] in *. destruct Ho as [-> ->]. destruct (authenticate at_port tls) as [code|]; [|done].
        destruct (decide (code = 235)%Z) as [->|]; [done|]. destruct (decide (code = 535)%Z) as [->|]; [done|].
        repeat (case_match; try done).
      + change (last ((at_port, tls) :: d :: ds)) with (last (d :: ds)). repeat (case_match; try done); destruct Ho as [-> ->]; done. }
  destruct (authenticate at_port tls) as [code|] eqn:E.
  2: { destruct (let '(o, dialled) := probe addresses probes in _) as [o dialled]. by apply Hnext. }
  destruct ((code ==? 235) || (code ==? 535)) eqn:Ec.
  - exists 1. split; [cbn; lia|]. split; [done|]. split; [intros ? ?; lia|]. cbn [last mbind option_bind]. rewrite E.
    apply orb_true_iff in Ec as [Ec|Ec]; apply Z.eqb_eq in Ec as ->; done.
  - apply orb_false_iff in Ec as [H1 H2]. tobool.
    destruct (let '(o, dialled) := probe addresses probes in _) as [o dialled]. apply Hnext; congruence.
Qed.

Context (lookup_ok : forall text l, lookup_host text = Some l -> Forall (fun x => ip_ok (fst x)) l).

(** C13. An SMTP server is dialled only at addresses the gate let through. Of one
    resolution of the host, its own address or what DNS gave, every attempt is
    handed all addresses and no other, at the port of the attempt, in the order of
    the ports; the attempts end with the first reply 235 or 535, which alone decides,
    or when the ports are used up. Unless internal addresses are allowed, no
    address dialled is one that IANA's registries keep off the public Internet,
    however the host is written and whatever DNS answers - but for the blocks of
    [UNCHECKED_V6], which the gate does not know; and the server of an IPv4
    address of such a block, plain or as an IPv6 address, is not dialled at all.
    Validation over HTTP checks in the same way but resolves again to connect. *)
Theorem smtp_dials_checked host url_port scheme allow :
  let '(o, dialled) := validate host url_port scheme allow in
  let probes := ports url_port scheme in
  (dialled = [] /\ valid o = false \/
   exists addresses k, addresses_of lookup_host (clean_host host) (match probes with (port, _) :: _ => port | [] => 0%Z end) = Some addresses /\
     1 <= k <= length probes /\ dialled = map (fun '(port, tls) => (map (set_port port) addresses, tls)) (take k probes) /\
     (forall i, S i < k -> forall at_port tls, dialled !! i = Some (at_port, tls) -> authenticate at_port tls <> Some 235%Z /\ authenticate at_port tls <> Some 535%Z) /\
     match last dialled ≫= (fun '(at_port, tls) => authenticate at_port tls) with
     | Some 235%Z => valid o = true /\ status o = 200%Z
     | Some 535%Z => valid o = false /\ status o = 401%Z
     | _ => o = inconclusive /\ k = length probes
     end) /\
  (allow = false -> forall at_port tls ip port, (at_port, tls) ∈ dialled -> (ip, port) ∈ at_port -> local_address ip = false) /\
  (allow = false -> forall a b c d, Forall byte_ok [a; b; c; d] -> local_address (V4 a b c d) = true ->
     host = dotted a b c d \/ host = bs "[::ffff:" ++ dotted a b c d ++ bs "]" -> dialled = [] /\ status o = 428%Z).
Proof using lookup_ok.
  unfold validate. cbv zeta. set (first := match ports url_port scheme with (port, _) :: _ => port | [] => 0%Z end).
  destruct (resolve_gate lookup_host lookup_ok host first) as (Hok & _ & Hlit).
  assert (allow = false -> forall a b c d, Forall byte_ok [a; b; c; d] -> local_address (V4 a b c d) = true ->
     host = dotted a b c d \/ host = bs "[::ffff:" ++ dotted a b c d ++ bs "]" -> blocked (resolve_host_addresses lookup_host host first allow)) as Hblock.
  { intros -> a b c d Hb Hl. apply Hlit; [done|]. apply not_true_iff_false. intros Ho%outside_not_local. congruence. }
  destruct (resolve_host_addresses lookup_host host first allow) as [e|addresses] eqn:E.
  - destruct e as [|ip h| |]; (split; [by left|]; split; [intros _ ? ? ? ? Hd; by apply not_elem_of_nil in Hd|]);
      intros Ha a b c d Hb Hl Hh; destruct (Hblock Ha a b c d Hb Hl Hh) as (ip' & h' & [=]); done.
  - apply Hok in E as (_ & Hne & Ea & Hgate). pose proof (probe_dialled addresses (ports url_port scheme)) as Hp.
    destruct (probe addresses (ports url_port scheme)) as [o dialled]. destruct Hp as (k & Hk & Hd & Hno & Ho).
    assert (1 <= k) as Hk1.
    { destruct k; [|lia]. subst dialled. cbn in Ho. destruct Ho as [_ Ho]. by destruct (ports _ _) as [|? ?] eqn:Ep;
        [unfold ports in Ep; destruct url_port; [done|by destruct (bytes_eqb _ _)]|]. }
    split; [right; exists addresses, k; split; [done|]; split; [lia|]; split; [done|]; split; [|done]|split].
    + intros i Hi at_port tls Hat. rewrite Hd in Hat.
      change (map ?f (take k ?l)) with (fmap (M := list) f (take k l)) in Hat. rewrite list_lookup_fmap, lookup_take_lt in Hat by lia.
      destruct (ports url_port scheme !! i) as [[port' tls']|] eqn:Ei; [|done]. injection Hat as <- <-. by apply (Hno i Hi).
    + intros -> at_port tls ip port Hin Hip. destruct Hgate as [|Hgate]; [done|]. subst dialled.
      apply list_elem_of_fmap in Hin as ([port' tls'] & [= -> ->] & _). apply list_elem_of_fmap in Hip as ([ip' q] & [= -> ->] & Hin).
      rewrite Forall_forall in Hgate. by apply outside_not_local, (Hgate _ Hin).
    + intros Ha a b c d Hb Hl Hh. by destruct (Hblock Ha a b c d Hb Hl Hh) as (ip & h & [=]).
Qed.
End Smtp.

(** ** An example *)

(** Two public addresses; the server answers at the second port. *)
Definition mail_lookup (text : bytes) : option (list (IpAddr * Z)) :=
  if bytes_eqb text (bs "mail.example:587") then Some [(V4 8 8 8 8, 587%Z); (V4 9 9 9 9, 587%Z)] else demo_lookup text.
Definition mail_session (at_port : list (IpAddr * Z)) (tls : bool) : option Z := if tls then Some 235%Z else Some 454%Z.

Lemma mail_lookup_ok text l : mail_lookup text = Some l -> Forall (fun x => ip_ok (fst x)) l.
Proof.
  unfold mail_lookup. destruct (bytes_eqb _ _); [|apply demo_lookup_ok]. intros [= <-]. rewrite !Forall_cons. cbn [fst ip_ok].
  rewrite !Forall_cons. unfold byte_ok. repeat split; (lia || by apply Forall_nil).
Qed.

Lemma smtp_dials_checked_witness :
  validate mail_lookup mail_session (bs "mail.example") None (bs "smtp") false =
    (accepted 235 465, [([(V4 8 8 8 8, 587%Z); (V4 9 9 9 9, 587%Z)], false); ([(V4 8 8 8 8, 465%Z); (V4 9 9 9 9, 465%Z)], true)]) /\
  (validate mail_lookup mail_session (bs "[::ffff:" ++ dotted 169 254 169 254 ++ bs "]") None (bs "smtp") false).2 = [].
Proof.
  split; [vm_compute; reflexivity|].
  pose proof (smtp_dials_checked mail_lookup mail_session mail_lookup_ok (bs "[::ffff:" ++ dotted 169 254 169 254 ++ bs "]") None (bs "smtp") false) as H.
  destruct (validate _ _ _ _ _ _) as [o dialled]. destruct H as (_ & _ & H).
  apply (H eq_refl 169%Z 254%Z 169%Z 254%Z metadata_octets); [vm_compute; reflexivity|by right].
Defined.
