(* ===== verification/Leftmost.v ===== *)
(** * Leftmost searches and the regexes of the rules

    Regexes are third-party code: [Regex] is what the source calls,
    [RegexLaws] the documented behaviour of a leftmost search and of its
    iterator, and [Certified] what the certificates that [RulesDatabase] computes
    for a rule promise to the index of [CandidateIndex]. The search for a literal
    satisfies all of them. *)

From Stdlib Require Import ZArith Lia Bool.
From stdpp Require Import base list option.
From S2P Require Import Prelude.

(** ** Leftmost searches *)

(** A search function of one input: from a position to the next match. *)
Definition Find := nat -> option (nat * nat).

(** The successive non-overlapping matches from a position. *)
Inductive matches_from (f : Find) : nat -> list (nat * nat) -> Prop :=
  | matches_nil p : f p = None -> matches_from f p []
  | matches_cons p a b l : f p = Some (a, b) -> matches_from f b l -> matches_from f p ((a, b) :: l).

#[export] Hint Constructors matches_from : kf.

(** A search up to [e] finds non-empty matches, and the leftmost one: starting
    later, but not after the match, finds the same match. *)
Class Leftmost (f : Find) (e : nat) : Prop := {
  find_bounds p a b : f p = Some (a, b) -> p <= a /\ a < b <= e;
  find_restart p q a b : f p = Some (a, b) -> p <= q <= a -> f q = Some (a, b);
  find_none p q : f p = None -> p <= q -> f q = None
}.

Definition ends_at (e : nat) (m : nat * nat) : bool := m.2 =? e.

Section leftmost.
Context (f : Find) (e : nat) `{!Leftmost f e}.

(** Nothing that ends at [e] is lost by searching from [q] instead of [p]. *)
Definition skips (p q : nat) : Prop := forall l, matches_from f p l ->
  exists l', matches_from f q l' /\ List.filter (ends_at e) l = List.filter (ends_at e) l'.

Lemma skips_refl p : skips p p.
Proof. intros l Hl. eauto. Qed.

Lemma skips_trans p q r : skips p q -> skips q r -> skips p r.
Proof.
  intros H1 H2 l Hl. destruct (H1 l Hl) as (l1 & Hl1 & ->). destruct (H2 l1 Hl1) as (l2 & Hl2 & ->). eauto.
Qed.

Lemma skips_match p a b : f p = Some (a, b) -> b < e -> skips p b.
Proof.
  intros Hf Hb l Hl. inversion Hl; simplify_eq. eexists; split; [done|].
  cbn. unfold ends_at at 1; cbn. by destruct (Nat.eqb_spec b e); [lia|].
Qed.

Lemma skips_gap p q a b : f p = Some (a, b) -> p <= q <= a -> skips p q.
Proof.
  intros Hf Hq l Hl. inversion Hl; simplify_eq. eexists; split; [|done].
  econstructor; [by eapply find_restart|done].
Qed.

(** No match crosses [q]. *)
Lemma skips_cut p q : p <= q < e ->
  (forall r a b, p <= r -> f r = Some (a, b) -> a < q -> b <= q) -> skips p q.
Proof.
  intros Hq Hcut l Hl. revert Hq Hcut. induction Hl as [p Hf|p a b l Hf Hl IH]; intros Hq Hcut.
  - exists []. split; [|done]. constructor. eapply find_none; [done|lia].
  - destruct (decide (a < q)) as [Ha|Ha].
    + pose proof (Hcut _ _ _ (le_n p) Hf Ha). pose proof (find_bounds _ _ _ Hf).
      destruct IH as (l' & Hl' & E); [lia|intros r x y ?; apply Hcut; lia|].
      exists l'. split; [done|]. rewrite <- E. cbn. unfold ends_at at 1; cbn.
      by destruct (Nat.eqb_spec b e); [lia|].
    + exists ((a, b) :: l). split; [|done]. econstructor; [|done].
      eapply find_restart; [done|lia].
Qed.

Lemma matches_from_fun p l : matches_from f p l -> forall l', matches_from f p l' -> l = l'.
Proof.
  induction 1 as [p Hf|p a b l Hf _ IH]; intros l' Hl'; inversion Hl'; simplify_eq; [done|].
  f_equal. by apply IH.
Qed.

(** At most one match ends at [e], the last one. *)
Lemma matches_past p l : matches_from f p l -> e <= p -> l = [].
Proof.
  intros Hl Hp. inversion Hl as [|? a b ? Hf]; simplify_eq; [done|]. apply find_bounds in Hf. lia.
Qed.

(** Every search function has its list of matches. *)
Lemma matches_total p : exists l, matches_from f p l.
Proof.
  remember (e - p) as n eqn:E. revert p E. induction n as [n IH] using lt_wf_ind; intros p E.
  destruct (f p) as [[a b]|] eqn:Hf; [|eauto with kf].
  pose proof (find_bounds _ _ _ Hf). destruct (IH (e - b)) with (p := b) as [l Hl]; [lia|done|].
  eauto with kf.
Qed.

Lemma matches_lookup p l i a b a' b' : matches_from f p l ->
  l !! i = Some (a, b) -> l !! S i = Some (a', b') -> f b = Some (a', b').
Proof.
  intros Hl. revert i. induction Hl as [|p x y l Hf Hl IH]; intros i; [done|].
  destruct i as [|i]; cbn; [|apply IH]. intros ? H. simplify_eq.
  inversion Hl; simplify_eq/=; done.
Qed.

Lemma matches_head p l m : matches_from f p l -> l !! 0 = Some m -> f p = Some m.
Proof. intros Hl Hm. inversion Hl; simplify_eq/=; done. Qed.

Lemma matches_ge p l i a b : matches_from f p l -> l !! i = Some (a, b) -> p <= a /\ a < b <= e.
Proof.
  intros Hl. revert i. induction Hl as [|p x y l Hf Hl IH]; intros i; [done|].
  pose proof (find_bounds _ _ _ Hf). destruct i as [|i]; cbn; intros H1; [simplify_eq; lia|].
  specialize (IH _ H1). lia.
Qed.

(** Later matches start after earlier ones end. *)
Lemma matches_order p l i j a b a' b' : matches_from f p l ->
  l !! i = Some (a, b) -> l !! j = Some (a', b') -> i < j -> b <= a'.
Proof.
  intros Hl. revert i j. induction Hl as [|p x y l Hf Hl IH]; intros i j; [done|].
  destruct i as [|i], j as [|j]; cbn; intros H1 H2 ?; try lia.
  - simplify_eq. eapply matches_ge in H2; [|done]. lia.
  - eapply IH; [done..|lia].
Qed.
End leftmost.

(** A search from [s] on, with offsets of the whole input. *)
Definition shift (s : nat) (m : nat * nat) : nat * nat := (s + m.1, s + m.2).
Definition shifted (s : nat) (f : Find) : Find := fun p => shift s <$> f (p - s).

Lemma shifted_some s f p a b : shifted s f p = Some (a, b) <->
  exists a' b', f (p - s) = Some (a', b') /\ a = s + a' /\ b = s + b'.
Proof.
  unfold shifted, shift. destruct (f (p - s)) as [[x y]|]; cbn; split.
  - intros; simplify_eq. eauto.
  - intros (a' & b' & ? & -> & ->). by simplify_eq.
  - done.
  - by intros (a' & b' & ? & _).
Qed.

Lemma shifted_leftmost s f n : Leftmost f n -> Leftmost (shifted s f) (s + n).
Proof.
  intros L. split.
  - intros p a b (a' & b' & Hf & -> & ->)%shifted_some. apply L in Hf. lia.
  - intros p q a b (a' & b' & Hf & -> & ->)%shifted_some Hq. apply shifted_some.
    exists a', b'. split; [|done]. eapply (find_restart (Leftmost := L)); [done|lia].
  - unfold shifted. intros p q Hf Hq. destruct (f (p - s)) eqn:E; [done|].
    by rewrite (find_none (Leftmost := L) (p - s)) by (done || lia).
Qed.

Lemma shifted_matches s f n p l : Leftmost f n -> s <= p ->
  matches_from f (p - s) l -> matches_from (shifted s f) p (map (shift s) l).
Proof.
  intros L. intros Hp Hl. remember (p - s) as q eqn:E. revert p Hp E.
  induction Hl as [q Hf|q a b l Hf Hl IH]; intros p Hp E; subst q; cbn.
  - constructor. unfold shifted. by rewrite Hf.
  - apply (matches_cons _ _ (s + a) (s + b)).
    + apply shifted_some. eauto.
    + apply IH; lia.
Qed.

Lemma shifted_matches_inv s f n p l : Leftmost f n -> s <= p ->
  matches_from (shifted s f) p l -> exists l', l = map (shift s) l' /\ matches_from f (p - s) l'.
Proof.
  intros L Hp Hl. destruct (matches_total f n (p - s)) as [l' Hl'].
  exists l'. split; [|done]. eapply matches_from_fun; [done|]. by eapply shifted_matches.
Qed.

Lemma filter_map_shift s n l :
  List.filter (ends_at (s + n)) (map (shift s) l) = map (shift s) (List.filter (ends_at n) l).
Proof.
  induction l as [|[a b] l IH]; [done|]. cbn. rewrite IH. unfold ends_at; cbn.
  assert ((s + b =? s + n) = (b =? n)) as ->; [|by destruct (b =? n)].
  destruct (Nat.eqb_spec (s + b) (s + n)), (Nat.eqb_spec b n); lia.
Qed.

Lemma map_shift_inj s l l' : map (shift s) l = map (shift s) l' -> l = l'.
Proof.
  revert l'. induction l as [|[a b] l IH]; intros [|[a' b'] l']; cbn; [done..|].
  unfold shift at 1 3; cbn. intros H. injection H as Ha Hb Hl.
  f_equal; [f_equal; lia|by apply IH].
Qed.

Lemma skips_shifted s f n q : Leftmost f n ->
  s <= q -> skips (shifted s f) (s + n) s q -> skips f n 0 (q - s).
Proof.
  intros L Hq H l Hl. rewrite <- (Nat.sub_diag s) in Hl.
  destruct (H _ (shifted_matches s f n s l L ltac:(lia) Hl)) as (l2 & Hl2 & E).
  apply (shifted_matches_inv s f n) in Hl2 as (l' & -> & Hl'); [|done..].
  exists l'. split; [done|]. rewrite !filter_map_shift in E. by eapply map_shift_inj.
Qed.

(** ** Regexes *)

(** What the source calls of [regex::bytes::Regex]: [find_at], [find_iter], and
    the groups of the match that a capturing search finds at a start; and the
    endpoint regex's [find_at]. *)
Record Regex (G : Type) := mkRegex {
  find_at : bytes -> nat -> option (nat * nat);
  find_iter : bytes -> list (nat * nat);
  groups_at : bytes -> nat -> G
}.
Arguments find_at {G}. Arguments find_iter {G}. Arguments groups_at {G}.

Definition MAX_UTF8_CHAR_LEN : nat := 4.

(** ** The laws of the regexes and what the certificates promise *)

Class RegexLaws {G} (regex : Regex G) : Prop := {
  regex_leftmost haystack : Leftmost (find_at regex haystack) (length haystack);
  regex_iter haystack : matches_from (find_at regex haystack) 0 (find_iter regex haystack)
}.

Section laws.
Context {G : Type} (regex : Regex G) (input : bytes).

(** The search over the window [s..e], with offsets of the input. *)
Definition window_find (s e : nat) : Find := shifted s (find_at regex (slice input s e)).

(** The window's own first match ends at or before [p]. *)
Definition settled (s e p : nat) : Prop := exists x y, window_find s e s = Some (x, y) /\ y <= p.

Record Certified (range : nat * nat) (maximum_len endpoint_maximum_len : option nat)
    (prefix_stable line_restart_safe : bool)
    (endpoint_regex : option (bytes -> nat -> option (nat * nat))) : Prop := {
  (** without assertions, a match of the input that fits a window is the window's *)
  cert_prefix s e p a b : prefix_stable = true -> range.1 <= s <= p -> e <= range.2 ->
    window_find range.1 range.2 p = Some (a, b) -> b <= e -> window_find s e p = Some (a, b);
  (** no match consumes a newline and then another byte *)
  cert_line s e p a b n : line_restart_safe = true -> s <= p -> s <= e <= length input ->
    window_find s e p = Some (a, b) -> input !! n = Some 10%Z -> a <= n -> b <= S n;
  (** a match that leaves [maximum_len] and a character before the window's end
      does not depend on where the input ends *)
  cert_tail len s e p a b : maximum_len = Some len -> range.1 <= s -> s <= e -> e <= range.2 ->
    settled s e p -> b + (len + MAX_UTF8_CHAR_LEN) <= e ->
    window_find s e p = Some (a, b) <-> window_find range.1 range.2 p = Some (a, b);
  (** a match consumes at most [endpoint_maximum_len] bytes *)
  cert_length len haystack p a b : endpoint_maximum_len = Some len ->
    find_at regex haystack p = Some (a, b) -> b - a <= len;
  (** the endpoint regex finds the leftmost start of a match that ends the haystack *)
  cert_endpoint re haystack p q a : endpoint_regex = Some re ->
    find_at regex haystack p = Some (a, length haystack) -> q <= a ->
    exists a', re haystack q = Some (a', length haystack) /\ a' <= a;
  (** an earlier end of input introduces only matches that touch that end *)
  cert_earlier re s e p a b x y : endpoint_regex = Some re ->
    range.1 <= s -> s <= e -> e <= range.2 -> settled s e p ->
    window_find range.1 range.2 p = Some (a, b) -> b <= e ->
    window_find s e p = Some (x, y) -> x < a -> y = e;
  (** and replaces a match that ends before it only by one that touches it *)
  cert_kept re s e p a b : endpoint_regex = Some re ->
    range.1 <= s -> s <= e -> e <= range.2 -> settled s e p ->
    window_find range.1 range.2 p = Some (a, b) -> b < e ->
    exists y, window_find s e a = Some (a, y) /\ (y = b \/ y = e)
}.
End laws.

Arguments cert_prefix {G regex input range maximum_len endpoint_maximum_len prefix_stable line_restart_safe endpoint_regex}.
Arguments cert_line {G regex input range maximum_len endpoint_maximum_len prefix_stable line_restart_safe endpoint_regex}.
Arguments cert_tail {G regex input range maximum_len endpoint_maximum_len prefix_stable line_restart_safe endpoint_regex}.
Arguments cert_length {G regex input range maximum_len endpoint_maximum_len prefix_stable line_restart_safe endpoint_regex}.
Arguments cert_endpoint {G regex input range maximum_len endpoint_maximum_len prefix_stable line_restart_safe endpoint_regex}.
Arguments cert_earlier {G regex input range maximum_len endpoint_maximum_len prefix_stable line_restart_safe endpoint_regex}.
Arguments cert_kept {G regex input range maximum_len endpoint_maximum_len prefix_stable line_restart_safe endpoint_regex}.

(** ** A literal, as a regex

    The search for a fixed non-empty byte string without newlines satisfies the
    laws and every certificate. *)

Section literal.
Context (needle : bytes) (Hneedle : needle <> []) (Hline : ~ In 10%Z needle).
Notation n := (length needle).

Definition literal_at (haystack : bytes) (a : nat) : bool := starts_with needle (drop a haystack).
Definition literal_find (haystack : bytes) (p : nat) : option (nat * nat) :=
  match List.find (literal_at haystack) (seq p (S (length haystack) - p)) with
  | Some a => Some (a, a + n)
  | None => None
  end.
Fixpoint literal_iter (fuel : nat) (haystack : bytes) (p : nat) : list (nat * nat) :=
  match fuel with
  | 0 => []
  | S fuel => match literal_find haystack p with
              | Some (a, b) => (a, b) :: literal_iter fuel haystack b
              | None => []
              end
  end.
Definition literal : Regex unit :=
  mkRegex _ literal_find (fun h => literal_iter (S (length h)) h 0) (fun _ _ => tt).
(** [(?:needle)\z] *)
Definition literal_endpoint (haystack : bytes) (q : nat) : option (nat * nat) :=
  let a := length haystack - n in
  if (q <=? a) && literal_at haystack a then Some (a, length haystack) else None.

Lemma needle_pos : 0 < n.
Proof. destruct needle; [done|cbn; lia]. Qed.

Lemma starts_with_lookup (p l : bytes) : starts_with p l = true <->
  forall k, k < length p -> l !! k = p !! k.
Proof.
  revert l. induction p as [|b p IH]; intros l; cbn; [split; [lia|done]|].
  destruct l as [|c l].
  - split; [done|]. intros H. by specialize (H 0 ltac:(lia)).
  - split.
    + intros H [|k] Hk; cbn; tobool; [by subst|]. apply IH; [done|lia].
    + intros H. apply andb_true_iff; split.
      * specialize (H 0 ltac:(lia)). cbn in H. simplify_eq. apply Z.eqb_refl.
      * apply IH. intros k Hk. apply (H (S k)). lia.
Qed.

Lemma literal_at_spec h a : literal_at h a = true <->
  forall k, k < n -> h !! (a + k) = needle !! k.
Proof.
  unfold literal_at. rewrite starts_with_lookup.
  split; intros H k Hk; specialize (H k Hk); by rewrite lookup_drop in *.
Qed.

Lemma literal_at_fits h a : literal_at h a = true -> a + n <= length h.
Proof.
  intros H. pose proof needle_pos.
  destruct (lookup_lt_is_Some_2 needle (n - 1) ltac:(lia)) as [b Hb].
  pose proof (proj1 (literal_at_spec h a) H (n - 1) ltac:(lia)) as E. rewrite Hb in E.
  apply lookup_lt_Some in E. lia.
Qed.

Lemma find_seq (p : nat -> bool) k : forall i a,
  List.find p (seq i k) = Some a <->
  i <= a < i + k /\ p a = true /\ forall j, i <= j < a -> p j = false.
Proof.
  induction k as [|k IH]; intros i a; cbn; [split; [done|lia]|].
  destruct (p i) eqn:E.
  - split; [intros [= <-]; split_and!; [lia..|done|intros; lia]|].
    intros (H1 & H2 & H3). destruct (decide (i = a)) as [->|]; [done|].
    rewrite H3 in E by lia. done.
  - rewrite IH. split; intros (H1 & H2 & H3).
    + split_and!; [lia..|done|]. intros j Hj. destruct (decide (i = j)) as [->|]; [done|]. apply H3. lia.
    + destruct (decide (i = a)) as [->|]; [congruence|]. split_and!; [lia..|done|]. intros; apply H3. lia.
Qed.

Lemma literal_find_spec h p a b : literal_find h p = Some (a, b) <->
  p <= a /\ b = a + n /\ literal_at h a = true /\ forall j, p <= j < a -> literal_at h j = false.
Proof.
  unfold literal_find. destruct (List.find _ _) as [x|] eqn:E.
  - apply find_seq in E as (H1 & H2 & H3). split.
    + intros; simplify_eq. split_and!; [lia|done..].
    + intros (H4 & -> & H5 & H6). assert (x = a) as ->; [|done].
      destruct (lt_eq_lt_dec x a) as [[Hl| ->]|Hl]; [|done|].
      * rewrite H6 in H2 by lia. done.
      * rewrite H3 in H5 by lia. done.
  - split; [done|]. intros (H1 & -> & H2 & _). pose proof (literal_at_fits _ _ H2).
    rewrite (List.find_none _ _ E a) in H2; [done|]. apply in_seq. lia.
Qed.

Lemma literal_leftmost h : Leftmost (literal_find h) (length h).
Proof.
  pose proof needle_pos. split.
  - intros p a b (H1 & -> & H2 & _)%literal_find_spec. apply literal_at_fits in H2. lia.
  - intros p q a b (H1 & -> & H2 & H3)%literal_find_spec Hq. apply literal_find_spec.
    split_and!; [lia|done..|]. intros; apply H3; lia.
  - intros p q Hp Hq. destruct (literal_find h q) as [[a b]|] eqn:E; [|done].
    apply literal_find_spec in E as (H1 & -> & H2 & _). exfalso.
    unfold literal_find in Hp. destruct (List.find _ _) eqn:Ef; [done|].
    pose proof (literal_at_fits _ _ H2).
    rewrite (List.find_none _ _ Ef a) in H2; [done|]. apply in_seq. lia.
Qed.

Lemma literal_iter_matches fuel h : forall p, S (length h) - p <= fuel ->
  matches_from (literal_find h) p (literal_iter fuel h p).
Proof.
  pose proof (literal_leftmost h) as L. induction fuel as [|fuel IH]; intros p Hp; cbn.
  - constructor. destruct (literal_find h p) as [[a b]|] eqn:E; [|done]. apply L in E. lia.
  - destruct (literal_find h p) as [[a b]|] eqn:E; [|by constructor].
    constructor; [done|]. apply L in E. apply IH. lia.
Qed.

#[export] Instance literal_laws : RegexLaws literal.
Proof. split; intros h; [apply literal_leftmost|]. apply literal_iter_matches. lia. Qed.

(** The search over a window, in the input. *)
Lemma literal_window input s e p a b : s <= e <= length input -> s <= p ->
  window_find literal input s e p = Some (a, b) <->
  p <= a /\ b = a + n /\ b <= e /\ literal_at input a = true /\
  forall j, p <= j < a -> literal_at input j = false.
Proof.
  intros Hse Hp. pose proof needle_pos as Hn.
  assert (forall j, s <= j -> j + n <= e ->
    literal_at (slice input s e) (j - s) = literal_at input j) as Hat.
  { intros j Hj Hje. apply eq_true_iff_eq. rewrite !literal_at_spec.
    split; intros H k Hk; specialize (H k Hk); rewrite slice_lookup in * by lia;
      by replace (s + (j - s + k)) with (j + k) in * by lia. }
  unfold window_find. rewrite shifted_some. split.
  - intros (a' & b' & (H1 & -> & H2 & H3)%literal_find_spec & -> & ->).
    pose proof (literal_at_fits _ _ H2) as Hf. rewrite length_slice in Hf by lia.
    replace a' with (s + a' - s) in H2 by lia. rewrite Hat in H2 by lia.
    split_and!; [lia..|done|]. intros j Hj. rewrite <- Hat by lia. apply H3. lia.
  - intros (H1 & -> & H2 & H3 & H4). exists (a - s), (a - s + n). split; [|lia].
    apply literal_find_spec. split_and!; [lia|done|by rewrite Hat by lia|].
    intros j Hj. replace j with (s + j - s) by lia. rewrite Hat by lia. apply H4. lia.
Qed.

Lemma literal_window_start input s s' e q : s' <= s <= q -> s <= e <= length input ->
  window_find literal input s e q = window_find literal input s' e q.
Proof. intros Hs He. apply option_eq. intros [a b]. rewrite !literal_window by lia. done. Qed.

Lemma literal_certified input r stable line : r.1 <= r.2 <= length input ->
  Certified literal input r (Some n) (Some n) stable line (Some literal_endpoint).
Proof.
  intros Hr. pose proof needle_pos as Hn. split.
  - intros s e p a b _ Hs He Hf Hb. apply literal_window in Hf as (H1 & -> & _ & H2); [|lia..].
    by apply literal_window; [lia..|].
  - intros s e p a b k _ Hp Hse Hf Hk Ha. apply literal_window in Hf as (_ & -> & _ & H2 & _); [|lia..].
    destruct (decide (k < a + n)) as [Hlt|]; [|lia]. exfalso. apply Hline.
    pose proof (proj1 (literal_at_spec input a) H2 (k - a) ltac:(lia)) as E.
    replace (a + (k - a)) with k in E by lia. rewrite Hk in E.
    apply list_elem_of_In, list_elem_of_lookup. eauto.
  - intros len s e p a b [= <-] Hs Hse He (x & y & Hf & Hy) Hb.
    pose proof (proj1 (literal_window input s e s x y ltac:(lia) ltac:(lia)) Hf).
    rewrite !literal_window by lia. split; intros (H1 & -> & _ & H2 & H3); split_and!; done || lia.
  - intros len h p a b [= <-] (_ & -> & _)%literal_find_spec. lia.
  - intros re h p q a [= <-] (H1 & E & H2 & _)%literal_find_spec Hq. exists a. split; [|done].
    unfold literal_endpoint. rewrite E. replace (a + n - n) with a by lia.
    destruct (Nat.leb_spec q a); [|lia]. by rewrite H2.
  - intros re s e p a b x y _ Hs Hse He (x0 & y0 & Hf0 & Hy0) Hf Hb Hw Hx. exfalso.
    pose proof (proj1 (literal_window input s e s x0 y0 ltac:(lia) ltac:(lia)) Hf0).
    apply literal_window in Hf as (_ & -> & _ & _ & H3); [|lia..].
    apply literal_window in Hw as (H1 & _ & _ & H2 & _); [|lia..]. rewrite H3 in H2 by lia. done.
  - intros re s e p a b _ Hs Hse He (x0 & y0 & Hf0 & Hy0) Hf Hb.
    pose proof (proj1 (literal_window input s e s x0 y0 ltac:(lia) ltac:(lia)) Hf0).
    apply literal_window in Hf as (H1 & -> & _ & H2 & H3); [|lia..].
    exists (a + n). split; [|by left]. apply literal_window; [lia..|]. split_and!; [lia..|done|intros; lia].
Qed.
End literal.
