(* ===== verification/CandidateIndex.v ===== *)
(** * Indexed candidate confirmation: [kingfisher-scanner/src/primitives.rs]
      ([CandidateMatchIndex]), [.../confirmation.rs] ([IndexedCaptures]) and the
      confirmation loop of [.../scanner.rs]

    A rule's regex is searched over a window that ends at each candidate endpoint.
    The index runs the regex once over the whole input and answers a window from
    its own matches where it can: one match at the endpoint, a restart after the
    last newline, or a restart after the last match that the window's end cannot
    have changed. The client keeps only the captures that end at the window's end;
    the theorem of this file says it keeps the same ones as when it iterates the
    regex over the window.

    The cache of the index is a shared object: operations run in [Ix], which
    passes its contents on whether they answer or abort. *)

From Stdlib Require Import ZArith Lia Bool.
From stdpp Require Import base list option gmap.
From S2P Require Import Prelude Control Leftmost.

Record Captures (G : Type) := mkCaptures { full : nat * nat; groups : G }.
Arguments mkCaptures {G}. Arguments full {G}. Arguments groups {G}.

Section captures.
Context {G : Type} (regex : Regex G).

Definition find (haystack : bytes) : option (nat * nat) := find_at regex haystack 0.
Definition capture (haystack : bytes) (m : nat * nat) : Captures G :=
  mkCaptures m (groups_at regex haystack m.1).
Definition captures_at (haystack : bytes) (position : nat) : option (Captures G) :=
  capture haystack <$> find_at regex haystack position.
Definition captures_iter (haystack : bytes) : list (Captures G) :=
  map (capture haystack) (find_iter regex haystack).
End captures.

(** ** [IndexedCaptures] *)

Inductive IndexedCaptures (G : Type) :=
  | One (captures : option (Captures G))
  | Search (rest : list (Captures G))
  | SearchFrom (haystack : bytes) (position : nat).
Arguments One {G}. Arguments Search {G}. Arguments SearchFrom {G}.

Section iterator.
Context {G : Type} (regex : Regex G) (control : ScanControl).

Definition search (haystack : bytes) : IndexedCaptures G := Search (captures_iter regex haystack).

(** [while *position <= haystack.len()]: the capture, and the position it leaves. *)
Fixpoint search_from (fuel : nat) (haystack : bytes) (position : nat)
  : Ctl (option (Captures G) * nat) :=
  match fuel with
  | 0 => ret (None, position)
  | S fuel =>
      if position <=? length haystack then
        check control ;;!
        match captures_at regex haystack position with
        | None => ret (None, position)
        | Some captures =>
            let '(a, b) := full captures in
            if b =? length haystack then ret (Some captures, S (length haystack))
            else search_from fuel haystack (b + if a =? b then 1 else 0)
        end
      else ret (None, position)
  end.

Definition next_with_control (ic : IndexedCaptures G)
  : Ctl (option (Captures G) * IndexedCaptures G) :=
  check control ;;!
  match ic with
  | One captures => ret (captures, One None)
  | Search [] => ret (None, Search [])
  | Search (captures :: rest) => ret (Some captures, Search rest)
  | SearchFrom haystack position =>
      let! r := search_from (S (length haystack)) haystack position in
      ret (r.1, SearchFrom haystack r.2)
  end.

(** How many captures an iterator can still yield, plus the [None] that ends it. *)
Definition remaining_captures (ic : IndexedCaptures G) : nat :=
  match ic with
  | One (Some _) => 2
  | One None => 1
  | Search rest => S (length rest)
  | SearchFrom haystack position => if position <=? length haystack then 2 else 1
  end.

(** [while let Some(captures) = captures.next_with_control(control)?]: the
    captures that reach [confirmed = true]. *)
Definition endpoint_capture (bounded : bool) (scan_start len : nat) (c : Captures G) : bool :=
  negb (bounded && ((0 <? scan_start) && ((full c).1 =? 0) || negb ((full c).2 =? len))).

Fixpoint confirmed_loop (fuel : nat) (bounded : bool) (scan_start len : nat)
    (ic : IndexedCaptures G) (out : list (Captures G)) : Ctl (list (Captures G)) :=
  match fuel with
  | 0 => ret out
  | S fuel =>
      let! r := next_with_control ic in
      match r.1 with
      | None => ret out
      | Some c =>
          check control ;;!
          confirmed_loop fuel bounded scan_start len r.2
            (if endpoint_capture bounded scan_start len c then out ++ [c] else out)
      end
  end.

Definition confirmed_captures (bounded : bool) (scan_start : nat) (haystack : bytes)
    (ic : IndexedCaptures G) : Ctl (list (Captures G)) :=
  confirmed_loop (remaining_captures ic) bounded scan_start (length haystack) ic [].
End iterator.

(** ** [CandidateMatchIndex] *)

(** The parts fixed when the index is built; [line_restart] tells whether
    [line_restart_position] holds a cursor. Offsets are those of the input. *)
Record Index := mkIndex {
  spans : list (nat * nat);
  range : nat * nat;
  maximum_len : option nat;
  endpoint_maximum_len : option nat;
  prefix_stable : bool;
  line_restart : bool
}.

(** What the two mutexes guard: the cursor and the start of its line, and the
    jumps by boundary and level. *)
Record Cache := mkCache { position : nat * nat; chains : gmap (nat * nat) nat }.

Definition USIZE_BITS : nat := 64.

Definition from_spans (spans : list (nat * nat)) (range : nat * nat)
    (maximum_len endpoint_maximum_len : option nat) (prefix_stable line_restart_safe : bool)
  : Index * Cache :=
  let line_restart := line_restart_safe && negb prefix_stable &&
    bool_decide (maximum_len = None) && bool_decide (endpoint_maximum_len = None) in
  (mkIndex spans range maximum_len endpoint_maximum_len prefix_stable line_restart,
   mkCache (range.1, 0) ∅).

(** Computations over the cache, which outlives an abort. *)
Definition Ix (A : Type) : Type :=
  Cache -> Clock -> nat -> (A + ScanAborted) * Cache * nat.

Definition ix_ret {A} (a : A) : Ix A := fun c _ n => (inl a, c, n).
Definition ix_bind {A B} (m : Ix A) (k : A -> Ix B) : Ix B := fun c clock n =>
  match m c clock n with
  | (inl a, c', n') => k a c' clock n'
  | (inr e, c', n') => (inr e, c', n')
  end.
Definition ix_lift {A} (m : Ctl A) : Ix A := fun c clock n =>
  let '(r, n') := m clock n in (r, c, n').
Definition ix_get : Ix Cache := fun c _ n => (inl c, c, n).
Definition ix_put (c : Cache) : Ix unit := fun _ _ n => (inl tt, c, n).

Declare Scope ix_scope.
Delimit Scope ix_scope with ix.
Notation "'do!' x ':=' m 'in' k" := (ix_bind m (fun x => k))
  (at level 10, x name, m at level 100, k at level 200) : ix_scope.
Notation "m ';;?' k" := (ix_bind m (fun _ => k)) (at level 199, right associativity) : ix_scope.
Open Scope ix_scope.

Section index.
Context {G : Type} (regex : Regex G) (control : ScanControl).

(** [for found in regex.find_iter(input) { control.check()?; spans.push(..) }] *)
Definition collect_spans (input : bytes) : Ctl (list (nat * nat)) :=
  let! spans := for_each (find_iter regex input)
                  (fun m spans => check control ;;! ret (spans ++ [m])) [] in
  check control ;;! ret spans.

Definition new_in_range_with_maximum_len (input : bytes) (range : nat * nat)
    (maximum_len endpoint_maximum_len : option nat) (prefix_stable line_restart_safe : bool)
  : Index * Cache :=
  let spans := map (shift range.1) (find_iter regex (slice input range.1 range.2)) in
  from_spans spans range maximum_len endpoint_maximum_len prefix_stable line_restart_safe.

Definition with_control (input : bytes) (maximum_len endpoint_maximum_len : option nat)
    (prefix_stable line_restart_safe : bool) : Ctl (Index * Cache) :=
  if negb (is_limited control) then
    ret (new_in_range_with_maximum_len input (0, length input) maximum_len endpoint_maximum_len
           prefix_stable line_restart_safe)
  else
    let! spans := collect_spans input in
    ret (from_spans spans (0, length input) maximum_len endpoint_maximum_len
           prefix_stable line_restart_safe).

Variable ix : Index.

Definition span_at (i : nat) : nat * nat := nth i (spans ix) (0, 0).

(** [spans.binary_search_by_key(&key, |span| span.end)]; the ends ascend strictly. *)
Definition search_end (key : nat) : option nat :=
  let i := partition_point (fun span => span.2 <? key) (spans ix) in
  match spans ix !! i with
  | Some span => if span.2 =? key then Some i else None
  | None => None
  end.

Definition chain_get (key : nat * nat) : Ix (option nat) :=
  do! c := ix_get in ix_ret (chains c !! key).
Definition chain_insert (key : nat * nat) (stop : nat) : Ix unit :=
  do! c := ix_get in ix_put (mkCache (position c) (<[key := stop]> (chains c))).

(** The jump is kept when it advances and stays below the limit. *)
Definition keep_jump (boundary level limit stop : nat) : Ix (option nat) :=
  if (stop <=? boundary) || (limit <? stop) then ix_ret None
  else chain_insert (boundary, level) stop ;;? ix_ret (Some stop).

(** [chain_jump]: the end of the [2^level]-th match after [boundary]. *)
Fixpoint chain_jump (haystack : bytes) (start boundary level limit : nat) : Ix (option nat) :=
  ix_lift (check control) ;;?
  do! cached := chain_get (boundary, level) in
  match cached with
  | Some stop => ix_ret (if stop <=? limit then Some stop else None)
  | None =>
      match level with
      | 0 =>
          match search_end boundary with
          | Some index =>
              ix_ret (match spans ix !! (index + 1) with
                      | Some span => if span.2 <=? limit then Some span.2 else None
                      | None => None
                      end)
          | None =>
              match find_at regex haystack (boundary - start) with
              | None => ix_ret None
              | Some found => keep_jump boundary level limit (start + found.2)
              end
          end
      | S level' =>
          do! middle := chain_jump haystack start boundary level' limit in
          match middle with
          | None => ix_ret None
          | Some middle =>
              do! stop := chain_jump haystack start middle level' limit in
              match stop with
              | None => ix_ret None
              | Some stop => keep_jump boundary level limit stop
              end
          end
      end
  end.

(** [for level in 0..usize::BITS]: the furthest jump, stopping at the first
    level that has none. *)
Fixpoint furthest_jump (n level : nat) (haystack : bytes) (start boundary limit : nat)
    (furthest : option nat) : Ix (option nat) :=
  match n with
  | 0 => ix_ret furthest
  | S n =>
      do! stop := chain_jump haystack start boundary level limit in
      match stop with
      | None => ix_ret furthest
      | Some stop => furthest_jump n (S level) haystack start boundary limit (Some stop)
      end
  end.

(** [loop { .. let Some(end) = furthest else { break }; boundary = end }]; the
    answer is [None] when the fuel runs out. *)
Fixpoint chain_walk (fuel : nat) (haystack : bytes) (start boundary limit : nat) : Ix (option nat) :=
  match fuel with
  | 0 => ix_ret None
  | S fuel =>
      do! furthest := furthest_jump USIZE_BITS 0 haystack start boundary limit None in
      match furthest with
      | None => ix_ret (Some boundary)
      | Some stop => chain_walk fuel haystack start stop limit
      end
  end.

(** [iter().rposition(p)] *)
Fixpoint rposition (p : byte -> bool) (l : bytes) : option nat :=
  match l with
  | [] => None
  | b :: r => match rposition p r with
              | Some i => Some (S i)
              | None => if p b then Some 0 else None
              end
  end.

(** [while stop > cursor - start]: the start of the last line found. *)
Fixpoint newline_scan (fuel : nat) (haystack : bytes) (start cursor stop line_start : nat) : Ctl nat :=
  match fuel with
  | 0 => ret line_start
  | S fuel =>
      if cursor - start <? stop then
        check control ;;!
        let begin := Nat.max (stop - 64 * 1024) (cursor - start) in
        match rposition (fun b => b ==? 10%Z) (slice haystack begin stop) with
        | Some newline => ret (start + begin + newline + 1)
        | None => newline_scan fuel haystack start cursor begin line_start
        end
      else ret line_start
  end.

(** The cursor's cached line start extended to [span_start], and the cursor moved. *)
Definition line_start_of (haystack : bytes) (start span_start : nat) : Ix nat :=
  do! c := ix_get in
  let pos := position c in
  let cursor := if pos.1 <=? span_start then Nat.max pos.1 start else start in
  let line_start := if cursor =? start then 0 else pos.2 in
  do! line_start := ix_lift (newline_scan (span_start - start) haystack start cursor
                               (span_start - start) line_start) in
  ix_lift (check control) ;;?
  (if pos.1 <=? span_start then
     do! c := ix_get in ix_put (mkCache (span_start, line_start) (chains c))
   else ix_ret tt) ;;?
  ix_ret line_start.

Definition first_agrees (haystack : bytes) (start first : nat) : bool :=
  match find regex haystack, spans ix !! first with
  | Some m, Some span => (span.1 =? start + m.1) && (span.2 =? start + m.2)
  | _, _ => false
  end.
(** The window's leftmost sequence joins the index's without a search for it. *)
Definition prefix_aligned_at (haystack : bytes) (start first : nat) : bool :=
  prefix_stable ix &&
  ((first =? 0) || ((span_at (first - 1)).2 <=? start) || first_agrees haystack start first).

(** The branch of a window whose end is the end of the indexed match [span]:
    the confirmation, when it is settled there. *)
Definition endpoint_branch (endpoint_regex : option (bytes -> nat -> option (nat * nat)))
    (haystack : bytes) (start first : nat) (prefix_aligned : bool) (span : nat * nat)
  : Ix (option (IndexedCaptures G)) :=
  do! line_start := (if line_restart ix then line_start_of haystack start span.1 else ix_ret 0) in
  if line_restart ix && (start <? line_start) then
    ix_ret (Some (SearchFrom haystack (line_start - start)))
  else
    let aligned := prefix_aligned || negb (prefix_stable ix) && first_agrees haystack start first in
    let endpoint_start := match endpoint_maximum_len ix with
                          | Some len => length haystack - len
                          | None => 0
                          end in
    let endpoint_agrees := prefix_stable ix || aligned &&
      match endpoint_regex with
      | Some re => match re haystack endpoint_start with
                   | Some m => (m.1 =? span.1 - start) && (m.2 =? length haystack)
                   | None => false
                   end
      | None => false
      end in
    ix_ret (if aligned && endpoint_agrees then
              match captures_at regex haystack (span.1 - start) with
              | Some c => if ((full c).1 =? span.1 - start) && ((full c).2 =? length haystack)
                          then Some (One (Some c)) else None
              | None => None
              end
            else None).

(** The branch of a bounded tail: both saturations agree with natural numbers
    because [end] is at most [usize::MAX]. *)
Definition tail_branch (haystack : bytes) (start stop maximum_len : nat)
  : Ix (option (IndexedCaptures G)) :=
  let safe_end := stop - (maximum_len + MAX_UTF8_CHAR_LEN) in
  let tail := partition_point (fun span => span.2 <=? safe_end) (spans ix) in
  match find regex haystack with
  | Some m =>
      if start + m.2 <=? safe_end then
        let first_end := start + m.2 in
        let indexed := match search_end first_end with
                       | Some i => (span_at i).1 =? start + m.1
                       | None => false
                       end in
        if indexed && (0 <? tail) then
          ix_ret (Some (SearchFrom haystack ((span_at (tail - 1)).2 - start)))
        else
          do! boundary := chain_walk (S (safe_end - first_end)) haystack start first_end safe_end in
          ix_ret (match boundary with
                  | Some boundary => Some (SearchFrom haystack (boundary - start))
                  | None => None
                  end)
      else ix_ret None
  | None => ix_ret None
  end.

Definition captures_with_control (endpoint_regex : option (bytes -> nat -> option (nat * nat)))
    (haystack : bytes) (start : nat) : Ix (IndexedCaptures G) :=
  ix_lift (check control) ;;?
  let stop := start + length haystack in
  if (start <? (range ix).1) || ((range ix).2 <? stop) then ix_ret (search regex haystack)
  else
    let first := partition_point (fun span => span.1 <? start) (spans ix) in
    let prefix_aligned := prefix_aligned_at haystack start first in
    do! found := (match search_end stop with
                  | Some index =>
                      let span := span_at index in
                      if start <=? span.1
                      then endpoint_branch endpoint_regex haystack start first prefix_aligned span
                      else ix_ret None
                  | None => ix_ret None
                  end) in
    match found with
    | Some captures => ix_ret captures
    | None =>
        let tail := partition_point (fun span => span.2 <? stop) (spans ix) in
        if prefix_aligned && (first <? tail) then
          ix_ret (SearchFrom haystack ((span_at (tail - 1)).2 - start))
        else
          match maximum_len ix with
          | None => ix_ret (search regex haystack)
          | Some maximum_len =>
              do! found := tail_branch haystack start stop maximum_len in
              ix_ret (default (search regex haystack) found)
          end
    end.
End index.

(** ** The client

    [confirm_windows] answers windows [start..end] of the input one after the
    other from one index, as the candidates of a rule do. *)
Section client.
Context {G : Type} (regex : Regex G) (control : ScanControl)
  (endpoint_regex : option (bytes -> nat -> option (nat * nat))) (input : bytes).

Definition confirm_window (ix : Index) (window : nat * nat) : Ix (list (Captures G)) :=
  let haystack := slice input window.1 window.2 in
  do! captures := captures_with_control regex control ix endpoint_regex haystack window.1 in
  ix_lift (confirmed_captures regex control true window.1 haystack captures).

Fixpoint confirm_windows (ix : Index) (windows : list (nat * nat)) : Ix (list (list (Captures G))) :=
  match windows with
  | [] => ix_ret []
  | w :: r => do! c := confirm_window ix w in
              do! cs := confirm_windows ix r in ix_ret (c :: cs)
  end.

(** The index built for a rule over the whole input, and its windows. *)
Definition confirm_rule (maximum_len endpoint_maximum_len : option nat)
    (prefix_stable line_restart_safe : bool) (windows : list (nat * nat))
  : Ctl (list (list (Captures G))) :=
  let! built := with_control regex control input maximum_len endpoint_maximum_len
                  prefix_stable line_restart_safe in
  fun clock n => let '(r, _, n) := confirm_windows built.1 windows built.2 clock n in (r, n).

(** The original search: every match of the window, filtered by the client. *)
Definition search_window (window : nat * nat) : list (Captures G) :=
  let haystack := slice input window.1 window.2 in
  List.filter (endpoint_capture true window.1 (length haystack)) (captures_iter regex haystack).
End client.

(** ** The client's loop over an iterator *)

Section drain.
Context {G : Type} (regex : Regex G) `{!RegexLaws regex} (control : ScanControl) (haystack : bytes).
#[local] Existing Instance regex_leftmost.
Notation f := (find_at regex haystack).
Notation len := (length haystack).

(** What an iterator over the haystack still yields that ends at its end. *)
Definition yields (ic : IndexedCaptures G) (ms : list (nat * nat)) : Prop :=
  match ic with
  | One (Some c) => c = capture regex haystack (full c) /\ ms = [full c] /\ (full c).2 = len
  | One None => ms = []
  | Search rest => exists l, rest = map (capture regex haystack) l /\ ms = List.filter (ends_at len) l
  | SearchFrom h q => h = haystack /\ exists l, matches_from f q l /\ ms = List.filter (ends_at len) l
  end.

Lemma search_from_csat fuel : forall q l,
  S len - q <= fuel -> matches_from f q l ->
  csat control (search_from regex control fuel haystack q) (fun r =>
    match List.filter (ends_at len) l with
    | m :: _ => r = (Some (capture regex haystack m), S len)
    | [] => r.1 = None
    end).
Proof.
  induction fuel as [|fuel IH]; intros q l Hq Hl; cbn [search_from].
  - assert (l = []) as -> by (apply (matches_past f len q l); [done|lia]). by apply csat_ret.
  - destruct (Nat.leb_spec q len) as [Hle|Hgt].
    2:{ assert (l = []) as -> by (apply (matches_past f len q l); [done|lia]). by apply csat_ret. }
    eapply csat_bind; [by apply (csat_check _ (fun _ => True))|]. intros _ _.
    unfold captures_at. destruct Hl as [q Hf|q a b l Hf Hl]; rewrite Hf; cbn; [by apply csat_ret|].
    pose proof (find_bounds _ _ _ Hf). unfold ends_at at 1; cbn.
    destruct (Nat.eqb_spec b len) as [->|Hb]; [by apply csat_ret|].
    destruct (Nat.eqb_spec a b); [lia|]. rewrite Nat.add_0_r. apply IH; [lia|done].
Qed.

(** One step of the iterator: a capture that does not end the haystack changes
    nothing, one that does is the next that remains. *)
Lemma next_csat ic ms : yields ic ms ->
  csat control (next_with_control regex control ic) (fun r =>
    match r.1 with
    | None => ms = []
    | Some c => exists m ms', c = capture regex haystack m /\ yields r.2 ms' /\
                  remaining_captures r.2 < remaining_captures ic /\
                  ms = if ends_at len m then m :: ms' else ms'
    end).
Proof.
  intros Hy. eapply csat_bind; [by apply (csat_check _ (fun _ => True))|]. intros _ _.
  destruct ic as [[c|]|[|c rest]|h q]; cbn in Hy.
  - destruct Hy as (Hc & -> & He). apply csat_ret. cbn. exists (full c), []. split_and!; try done; [lia|].
    unfold ends_at. by rewrite He, Nat.eqb_refl.
  - by apply csat_ret.
  - destruct Hy as (l & Hl & ->). apply csat_ret. cbn. by destruct l.
  - destruct Hy as (l & Hl & ->). apply csat_ret. cbn. destruct l as [|m l]; [done|]. cbn in Hl. simplify_eq.
    exists m, (List.filter (ends_at len) l). split_and!; [done|eauto|lia|done].
  - destruct Hy as (-> & l & Hl & ->).
    eapply csat_bind; [apply (search_from_csat _ q l); [lia|done]|]. intros [c q'] Hr.
    apply csat_ret. cbn [fst snd]. destruct (List.filter (ends_at len) l) as [|m ms'] eqn:E.
    { cbn in Hr. by subst c. }
    simplify_eq. exists m, [].
    assert (In m (List.filter (ends_at len) l)) as [Hin Hm]%List.filter_In by (rewrite E; by left).
    split_and!; [done| | |].
    + cbn [fst snd yields]. split; [done|]. exists []. split; [|done]. constructor.
      destruct (f (S len)) as [[a b]|] eqn:Hf; [|done]. apply find_bounds in Hf. lia.
    + cbn [remaining_captures]. destruct (Nat.leb_spec (S len) len); [lia|].
      destruct (Nat.leb_spec q len); [lia|].
      assert (l = []) as -> by (apply (matches_past f len q l); [done|lia]). done.
    + rewrite Hm. f_equal. clear Hin Hm. revert E.
      induction Hl as [|p a b l Hf Hl IH]; cbn; [done|]. unfold ends_at at 1; cbn.
      destruct (Nat.eqb_spec b len) as [->|]; [|by apply IH].
      intros H; simplify_eq. by rewrite (matches_past f len len l Hl).
Qed.

(** The client keeps the captures that end the haystack, less one that starts a
    window cut out of the input. *)
Lemma confirmed_csat start ic ms : yields ic ms ->
  csat control (confirmed_captures regex control true start haystack ic) (fun cs =>
    cs = List.filter (endpoint_capture true start len) (map (capture regex haystack) ms)).
Proof.
  intros Hy. unfold confirmed_captures.
  assert (forall fuel ic ms out, remaining_captures ic <= fuel -> yields ic ms ->
    csat control (confirmed_loop regex control fuel true start len ic out) (fun cs =>
      cs = out ++ List.filter (endpoint_capture true start len) (map (capture regex haystack) ms)))
    as H; [|by apply (H _ ic ms [])].
  clear ic ms Hy. induction fuel as [|fuel IH]; intros ic ms out Hf Hy.
  - exfalso. destruct ic as [[?|]|?|? q]; cbn in Hf; try lia. by destruct (q <=? _); lia.
  - cbn [confirmed_loop]. eapply csat_bind; [by apply next_csat|]. intros [[c|] ic'] Hr; cbn [fst snd] in *.
    2:{ subst ms. apply csat_ret. by rewrite app_nil_r. }
    destruct Hr as (m & ms' & -> & Hy' & Hlt & ->).
    eapply csat_bind; [by apply (csat_check _ (fun _ => True))|]. intros _ _.
    eapply csat_weaken; [apply IH; [lia|exact Hy']|]. intros cs ->.
    unfold ends_at. destruct (Nat.eqb_spec m.2 len) as [Hm|Hm]; cbn [map List.filter].
    + destruct (endpoint_capture _ _ _ _); [by rewrite <- app_assoc|done].
    + unfold endpoint_capture at 1; cbn. destruct (Nat.eqb_spec m.2 len); [done|].
      by rewrite orb_true_r.
Qed.
End drain.

Lemma filter_endpoint {G} (regex : Regex G) haystack start l :
  List.filter (endpoint_capture true start (length haystack))
    (map (capture regex haystack) (List.filter (ends_at (length haystack)) l)) =
  List.filter (endpoint_capture true start (length haystack)) (map (capture regex haystack) l).
Proof.
  induction l as [|m l IH]; [done|]. cbn. unfold ends_at at 1. rewrite <- IH.
  destruct (m.2 =? length haystack) eqn:E; [done|].
  unfold endpoint_capture at 2; cbn. by rewrite E, orb_true_r.
Qed.

(** ** The cache of an index *)

Section exact.
Context {G : Type} (regex : Regex G) `{!RegexLaws regex} (control : ScanControl) (input : bytes).
Context (r1 r2 : nat) (maxl endl : option nat) (stable line : bool)
  (ep : option (bytes -> nat -> option (nat * nat))).
Context (Hr : r1 <= r2 <= length input)
  (C : Certified regex input (r1, r2) maxl endl stable line ep).
#[local] Existing Instance regex_leftmost.
Notation F := (window_find regex input).
Notation FN := (window_find regex input r1 r2).
Context (ix : Index)
  (Hix : (new_in_range_with_maximum_len regex input (r1, r2) maxl endl stable line).1 = ix).

Lemma window_leftmost s e : s <= e <= length input -> Leftmost (F s e) e.
Proof.
  intros H. pose proof (shifted_leftmost s _ _ (regex_leftmost (slice input s e))) as L.
  rewrite length_slice in L by lia. by replace (s + (e - s)) with e in L by lia.
Qed.
#[local] Instance input_leftmost : Leftmost FN r2.
Proof. by apply window_leftmost. Qed.

Lemma spans_matches : matches_from FN r1 (spans ix).
Proof.
  rewrite <- Hix. eapply shifted_matches; [apply regex_leftmost|done|]. rewrite Nat.sub_diag. apply regex_iter.
Qed.

Lemma ix_range : range ix = (r1, r2).
Proof. by rewrite <- Hix. Qed.
Lemma ix_maximum_len : maximum_len ix = maxl.
Proof. by rewrite <- Hix. Qed.
Lemma ix_endpoint_maximum_len : endpoint_maximum_len ix = endl.
Proof. by rewrite <- Hix. Qed.
Lemma ix_prefix_stable : prefix_stable ix = stable.
Proof. by rewrite <- Hix. Qed.
Lemma ix_line_restart : line_restart ix = true -> line = true.
Proof. rewrite <- Hix. cbn. by destruct line. Qed.

(** [jump n p q]: [q] is the end of the [n]-th match of the input after [p]. *)
Fixpoint jump (n p q : nat) : Prop :=
  match n with
  | 0 => p = q
  | S n => exists a b, FN p = Some (a, b) /\ jump n b q
  end.

Lemma jump_add n m p q t : jump n p q -> jump m q t -> jump (n + m) p t.
Proof.
  revert p. induction n as [|n IH]; intros p; cbn; [by intros ->|].
  intros (a & b & Hf & Hj) Hm. eauto.
Qed.

Lemma jump_le n p q : jump n p q -> p <= q.
Proof.
  revert p. induction n as [|n IH]; intros p; cbn; [lia|].
  intros (a & b & Hf & Hj). apply find_bounds in Hf. apply IH in Hj. lia.
Qed.

(** What survives every call: a line start the cursor may reuse, and jumps that
    are the index's. *)
Definition Inv (c : Cache) : Prop :=
  ((position c).2 = 0 \/
   0 < (position c).2 <= (position c).1 /\ input !! ((position c).2 - 1) = Some 10%Z) /\
  forall p l q, chains c !! (p, l) = Some q -> jump (2 ^ l) p q.

Lemma Inv_new : Inv (new_in_range_with_maximum_len regex input (r1, r2) maxl endl stable line).2.
Proof. split; [by left|]. intros p l q H. change (chains _) with (∅ : gmap (nat * nat) nat) in H. by rewrite lookup_empty in H. Qed.

(** A computation over a valid cache leaves a valid cache, also when it aborts. *)
Definition ok {A} (m : Ix A) (Q : A -> Prop) : Prop := forall c clock n, Inv c ->
  let '(r, c', _) := m c clock n in
  Inv c' /\ match r with inl a => Q a | inr _ => is_limited control = true end.

Lemma ok_ret {A} (a : A) (Q : A -> Prop) : Q a -> ok (ix_ret a) Q.
Proof. intros H c clock n Hc. by split. Qed.

Lemma ok_bind {A B} (m : Ix A) (k : A -> Ix B) (P : A -> Prop) (Q : B -> Prop) :
  ok m P -> (forall a, P a -> ok (k a) Q) -> ok (ix_bind m k) Q.
Proof.
  intros Hm Hk c clock n Hc. unfold ix_bind. specialize (Hm c clock n Hc).
  destruct (m c clock n) as [[[a|e] c'] n']; [|done]. destruct Hm as [Hc' Ha]. by apply Hk.
Qed.

Lemma ok_weaken {A} (m : Ix A) (P Q : A -> Prop) : ok m P -> (forall a, P a -> Q a) -> ok m Q.
Proof.
  intros Hm H c clock n Hc. specialize (Hm c clock n Hc).
  destruct (m c clock n) as [[[a|e] c'] n']; [|done]. destruct Hm. auto.
Qed.

Lemma ok_lift {A} (m : Ctl A) (Q : A -> Prop) : csat control m Q -> ok (ix_lift m) Q.
Proof.
  intros Hm c clock n Hc. unfold ix_lift. specialize (Hm clock n).
  destruct (m clock n) as [r n']. by split.
Qed.

Lemma ok_check : ok (ix_lift (check control)) (fun _ => True).
Proof. apply ok_lift, (csat_check _ (fun _ => True)). done. Qed.

Lemma ok_get : ok ix_get Inv.
Proof. by intros c clock n Hc. Qed.

Lemma ok_put c : Inv c -> ok (ix_put c) (fun _ => True).
Proof. by intros H c' clock n Hc. Qed.

Lemma ok_if {A} (b : bool) (m1 m2 : Ix A) (Q : A -> Prop) :
  (b = true -> ok m1 Q) -> (b = false -> ok m2 Q) -> ok (if b then m1 else m2) Q.
Proof. destruct b; auto. Qed.

Lemma ok_insert p l q : jump (2 ^ l) p q -> ok (chain_insert (p, l) q) (fun _ => True).
Proof.
  intros Hj. eapply ok_bind; [apply ok_get|]. intros c [Hp Hc]. apply ok_put.
  split; [done|]. cbn. intros p' l' q' [[[= <- <-] <-]|[_ ?]]%lookup_insert_Some; [done|by apply Hc].
Qed.

(** ** Reading the spans *)

Lemma search_end_some k i : search_end ix k = Some i -> exists a, spans ix !! i = Some (a, k).
Proof.
  unfold search_end. destruct (spans ix !! _) as [[a b]|] eqn:E; [|done]. cbn.
  destruct (Nat.eqb_spec b k) as [->|]; [|done]. intros; simplify_eq. eauto.
Qed.

Lemma span_at_some i m : spans ix !! i = Some m -> span_at ix i = m.
Proof. unfold span_at. intros H. by rewrite nth_lookup, H. Qed.

(** The last span of a non-empty prefix. *)
Lemma span_before (p : nat * nat -> bool) : 0 < partition_point p (spans ix) ->
  exists m, spans ix !! (partition_point p (spans ix) - 1) = Some m /\
            span_at ix (partition_point p (spans ix) - 1) = m /\ p m = true.
Proof.
  intros H. pose proof (partition_point_le p (spans ix)).
  destruct (lookup_lt_is_Some_2 (spans ix) (partition_point p (spans ix) - 1)) as [m Hm]; [lia|].
  exists m. split; [done|]. split; [by apply span_at_some|].
  eapply partition_point_lt; [|done]. lia.
Qed.

Lemma span_bounds i a b : spans ix !! i = Some (a, b) -> r1 <= a /\ a < b <= r2.
Proof. exact (matches_ge FN r2 r1 (spans ix) i a b spans_matches). Qed.

Lemma span_next i a b m : spans ix !! i = Some (a, b) -> spans ix !! S i = Some m -> FN b = Some m.
Proof. destruct m. exact (matches_lookup FN r1 (spans ix) i a b _ _ spans_matches). Qed.

Lemma span_order i j a b a' b' :
  spans ix !! i = Some (a, b) -> spans ix !! j = Some (a', b') -> i < j -> b <= a'.
Proof. exact (matches_order FN r2 r1 (spans ix) i j a b a' b' spans_matches). Qed.

(** ** The window *)

Section window.
Context (s e : nat) (Hs : r1 <= s) (Hse : s <= e) (He : e <= r2).
Notation hay := (slice input s e).
Notation Fw := (window_find regex input s e).
#[local] Instance this_leftmost : Leftmost Fw e.
Proof. apply window_leftmost. lia. Qed.
Notation "p ~> q" := (skips Fw e p q) (at level 70).

Lemma haystack_length : length hay = e - s.
Proof. apply length_slice. lia. Qed.

(** What the window search relies on: an iterator that yields all the matches
    that end at the window's end, in order. *)
Definition correct (ic : IndexedCaptures G) : Prop :=
  exists l, matches_from (find_at regex hay) 0 l /\
    yields regex hay ic (List.filter (ends_at (length hay)) l).

Lemma correct_search : correct (search regex hay).
Proof. exists (find_iter regex hay). split; [apply regex_iter|]. cbn. eauto. Qed.

Lemma window_skips q : s <= q -> s ~> q -> skips (find_at regex hay) (length hay) 0 (q - s).
Proof.
  intros Hq Hk. pose proof (skips_shifted s _ _ q (regex_leftmost hay) Hq) as P.
  rewrite haystack_length in P. replace (s + (e - s)) with e in P by lia.
  rewrite haystack_length. by apply P.
Qed.

Lemma correct_from q : s <= q -> s ~> q -> correct (SearchFrom hay (q - s)).
Proof.
  intros Hq Hk. exists (find_iter regex hay). split; [apply regex_iter|]. cbn. split; [done|].
  apply (window_skips q Hq Hk), regex_iter.
Qed.

Lemma correct_one a : s <= a -> s ~> a -> find_at regex hay (a - s) = Some (a - s, length hay) ->
  correct (One (Some (capture regex hay (a - s, length hay)))).
Proof.
  intros Ha Hk Hf. exists (find_iter regex hay). split; [apply regex_iter|]. cbn.
  destruct (window_skips a Ha Hk _ (regex_iter hay)) as (l & Hl & ->).
  split_and!; [done| |done]. inversion Hl; simplify_eq. cbn. unfold ends_at at 1; cbn. rewrite Nat.eqb_refl.
  by rewrite (matches_past (find_at regex hay) (length hay) (length hay) l0).
Qed.

(** Walking along the index as far as the window agrees with it. *)
Lemma skips_spans i j ai bi aj bj : i <= j ->
  spans ix !! i = Some (ai, bi) -> spans ix !! j = Some (aj, bj) -> bj < e ->
  (forall p a b, bi <= p -> FN p = Some (a, b) -> b <= bj -> Fw p = Some (a, b)) -> bi ~> bj.
Proof.
  intros Hij Hi Hj Hb Hstep. remember (j - i) as n eqn:E. revert i ai bi Hij Hi Hstep E.
  induction n as [|n IH]; intros i ai bi Hij Hi Hstep E.
  - assert (i = j) as -> by lia. simplify_eq. apply skips_refl.
  - destruct (lookup_lt_is_Some_2 (spans ix) (S i)) as [[a b] Hn].
    { apply lookup_lt_Some in Hj. lia. }
    assert (b <= bj).
    { destruct (decide (S i = j)) as [<-|]; [by simplify_eq|].
      pose proof (span_order (S i) j _ _ _ _ Hn Hj ltac:(lia)).
      pose proof (span_bounds _ _ _ Hj). lia. }
    pose proof (span_next _ _ _ _ Hi Hn) as Hf. pose proof (span_bounds _ _ _ Hn).
    pose proof (find_bounds _ _ _ Hf).
    eapply skips_trans; [eapply skips_match; [by apply Hstep|lia]|].
    apply (IH (S i) a b); [lia|done| |lia]. intros; apply Hstep; [lia|done..].
Qed.

Lemma window_at p : s <= p -> forall a b, Fw p = Some (a, b) ->
  find_at regex hay (p - s) = Some (a - s, b - s) /\ s <= a.
Proof.
  intros Hp a b Hf. pose proof (find_bounds _ _ _ Hf).
  apply shifted_some in Hf as (a' & b' & Hf & -> & ->). split; [|lia].
  rewrite Hf. repeat f_equal; lia.
Qed.

Lemma window_first m : find regex hay = Some m -> Fw s = Some (shift s m).
Proof. unfold find, window_find, shifted. rewrite Nat.sub_diag. by intros ->. Qed.

Lemma first_agrees_true i : first_agrees regex ix hay s i = true ->
  exists a b, spans ix !! i = Some (a, b) /\ Fw s = Some (a, b).
Proof.
  unfold first_agrees. destruct (find regex hay) as [[x y]|] eqn:Ef; [|done].
  apply window_first in Ef. destruct (spans ix !! i) as [[a b]|]; [|done]. cbn.
  intros Hm. tobool. subst. eauto.
Qed.

Lemma settled_trans p q : settled regex input s e p -> p <= q -> settled regex input s e q.
Proof. intros (x & y & Hf & Hy) Hq. exists x, y. split; [done|lia]. Qed.

Lemma settled_ge p : settled regex input s e p -> s <= p.
Proof. intros (x & y & Hf & Hy). apply find_bounds in Hf. lia. Qed.

(** *** Assertion-free regexes *)

Notation first := (partition_point (fun span => span.1 <? s) (spans ix)).

Lemma span_first i a b : spans ix !! i = Some (a, b) -> first = i -> s <= a.
Proof.
  intros Hi E. subst i. apply (partition_point_stop (fun span => span.1 <? s)) in Hi. cbn [fst snd] in Hi. tobool. lia.
Qed.

Lemma span_ge i a b : spans ix !! i = Some (a, b) -> first <= i -> s <= a.
Proof.
  intros Hi Hle. destruct (lookup_lt_is_Some_2 (spans ix) first) as [[a0 b0] H0].
  { apply lookup_lt_Some in Hi. lia. }
  pose proof (span_first _ _ _ H0 eq_refl). pose proof (span_bounds _ _ _ H0).
  destruct (decide (first = i)) as [E|E]; [rewrite E in H0; by simplify_eq|].
  pose proof (span_order _ _ _ _ _ _ H0 Hi ltac:(lia)). lia.
Qed.

Lemma first_le i a b : spans ix !! i = Some (a, b) -> s <= a -> first <= i.
Proof.
  intros Hi Ha. destruct (decide (first <= i)) as [|Hn]; [done|].
  apply (partition_point_lt (fun span => span.1 <? s)) in Hi; [|lia]. cbn [fst snd] in Hi. tobool. lia.
Qed.

Section aligned.
Context (Hal : prefix_aligned_at regex ix hay s first = true).

Lemma aligned_stable : stable = true.
Proof. assert (Ho := Hal). unfold prefix_aligned_at in Ho. apply andb_true_iff in Ho as [Ho _]. by rewrite ix_prefix_stable in Ho. Qed.

Lemma aligned_step p a b : s <= p -> FN p = Some (a, b) -> b <= e -> Fw p = Some (a, b).
Proof. intros Hp Hf Hb. by apply (cert_prefix C); [apply aligned_stable|cbn; lia|done|..]. Qed.

Lemma aligned_first a b : spans ix !! first = Some (a, b) -> b <= e -> Fw s = Some (a, b).
Proof.
  intros Hi Hb. pose proof (span_first _ _ _ Hi eq_refl) as Ha.
  assert (Ho := Hal). unfold prefix_aligned_at in Ho. apply andb_true_iff in Ho as [_ Ho].
  apply orb_true_iff in Ho as [Ho|Ho]; [apply orb_true_iff in Ho as [Ho|Ho]|].
  - tobool. rewrite Ho in Hi. pose proof (matches_head _ _ _ _ spans_matches Hi) as Hf.
    apply aligned_step; [done| |done]. apply (find_restart r1); [done|lia].
  - destruct (decide (first = 0)) as [E|E].
    { rewrite E in Hi. pose proof (matches_head _ _ _ _ spans_matches Hi) as Hf.
      apply aligned_step; [done| |done]. apply (find_restart r1); [done|lia]. }
    destruct (span_before (fun span => span.1 <? s)) as ([a0 b0] & H0 & E0 & _); [lia|].
    rewrite E0 in Ho. cbn [fst snd] in Ho. tobool.
    assert (S (first - 1) = first) as ES by lia. rewrite <- ES in Hi.
    pose proof (span_next _ _ _ _ H0 Hi) as Hf.
    apply aligned_step; [done| |done]. apply (find_restart b0); [done|lia].
  - apply first_agrees_true in Ho as (a' & b' & Hi' & Hf). by simplify_eq.
Qed.

Lemma aligned_reaches j a b : first <= j -> spans ix !! j = Some (a, b) -> b < e -> s ~> b.
Proof.
  intros Hj Hi Hb. destruct (lookup_lt_is_Some_2 (spans ix) first) as [[a0 b0] H0].
  { apply lookup_lt_Some in Hi. lia. }
  assert (b0 <= b).
  { destruct (decide (first = j)) as [E|E]; [rewrite E in H0; by simplify_eq|].
    pose proof (span_order _ _ _ _ _ _ H0 Hi ltac:(lia)). pose proof (span_bounds _ _ _ Hi). lia. }
  pose proof (aligned_first _ _ H0 ltac:(lia)) as Hf. pose proof (find_bounds _ _ _ Hf).
  eapply skips_trans; [eapply (skips_match Fw e); [exact Hf|lia]|].
  eapply (skips_spans first j); [done..|]. intros; apply aligned_step; [lia|done|lia].
Qed.

Lemma aligned_start j a b : first <= j -> spans ix !! j = Some (a, b) -> b <= e -> s ~> a.
Proof.
  intros Hj Hi Hb. pose proof (span_bounds _ _ _ Hi). destruct (decide (first = j)) as [E|E].
  - rewrite <- E in Hi. pose proof (span_first _ _ _ Hi eq_refl).
    eapply (skips_gap Fw e); [by apply aligned_first|lia].
  - destruct (lookup_lt_is_Some_2 (spans ix) (j - 1)) as [[a0 b0] H0].
    { apply lookup_lt_Some in Hi. lia. }
    pose proof (span_order _ _ _ _ _ _ H0 Hi ltac:(lia)).
    assert (S (j - 1) = j) as ES by lia. rewrite <- ES in Hi.
    pose proof (span_next _ _ _ _ H0 Hi) as Hf.
    pose proof (aligned_reaches (j - 1) _ _ ltac:(lia) H0 ltac:(lia)) as Hk.
    pose proof (span_ge _ _ _ H0 ltac:(lia)). pose proof (span_bounds _ _ _ H0).
    eapply skips_trans; [exact Hk|].
    apply (skips_gap Fw e _ _ a b); [by apply aligned_step; [lia| |]|lia].
Qed.
End aligned.

(** *** The endpoint regex *)

Section endpoint.
Context (re : bytes -> nat -> option (nat * nat)) (Hep : ep = Some re).
Context (i ai : nat) (Hi : spans ix !! i = Some (ai, e)) (Hai : s <= ai).
Notation endpoint_start :=
  (match endl with Some len => length hay - len | None => 0 end).
Context (Hre : re hay endpoint_start = Some (ai - s, length hay)).

(** The endpoint regex rules out every earlier start. *)
Lemma no_earlier_touch p x : s <= p -> Fw p = Some (x, e) -> ai <= x.
Proof.
  intros Hp Hf. destruct (window_at p Hp x e Hf) as [Hm Hx].
  rewrite <- haystack_length in Hm.
  destruct (cert_endpoint C re hay _ endpoint_start _ Hep Hm) as (a' & Ha' & Hle).
  { destruct endl as [len|] eqn:El; [|lia].
    pose proof (cert_length C len _ _ _ _ eq_refl Hm). lia. }
  rewrite Hre in Ha'. simplify_eq. lia.
Qed.

Lemma endpoint_step p a b : settled regex input s e p ->
  FN p = Some (a, b) -> b < e -> a < ai -> Fw p = Some (a, b).
Proof.
  intros Hst Hf Hb Ha. pose proof (settled_ge _ Hst) as Hp. pose proof (find_bounds _ _ _ Hf).
  destruct (cert_kept C re s e p a b Hep) as (y & Hy & Hor); [done..|].
  assert (y = b) as ->.
  { destruct Hor as [|Ey]; [done|]. subst y. apply no_earlier_touch in Hy; lia. }
  destruct (Fw p) as [[x y]|] eqn:E.
  2:{ by rewrite (find_none p a E) in Hy by lia. }
  pose proof (find_bounds _ _ _ E). destruct (decide (x < a)) as [Hx|Hx].
  - rewrite (cert_earlier C re s e p a b x y Hep) in E by (done || lia).
    apply no_earlier_touch in E; lia.
  - rewrite (find_restart p a x y E) in Hy by lia. simplify_eq. done.
Qed.

Context (Hag : first_agrees regex ix hay s first = true).
Context (Hcap : find_at regex hay (ai - s) = Some (ai - s, length hay)).

Lemma endpoint_reaches : s ~> ai.
Proof.
  assert (Hag' := Hag). apply first_agrees_true in Hag' as (a0 & b0 & H0 & Hf0). pose proof (find_bounds _ _ _ Hf0).
  pose proof (first_le _ _ _ Hi Hai) as Hle.
  destruct (decide (first = i)) as [E|E].
  { rewrite E in H0. simplify_eq. apply (skips_gap Fw e _ _ ai e); [done|lia]. }
  pose proof (span_order _ _ _ _ _ _ H0 Hi ltac:(lia)).
  destruct (lookup_lt_is_Some_2 (spans ix) (i - 1)) as [[aj bj] Hj].
  { apply lookup_lt_Some in Hi. lia. }
  pose proof (span_order _ _ _ _ _ _ Hj Hi ltac:(lia)). pose proof (span_bounds _ _ _ Hi).
  pose proof (span_bounds _ _ _ Hj).
  assert (settled regex input s e b0) as Hst by (exists a0, b0; done).
  assert (b0 <= bj) as Hbj.
  { destruct (decide (first = i - 1)) as [E'|]; [rewrite E' in H0; by simplify_eq|].
    pose proof (span_order _ _ _ _ _ _ H0 Hj ltac:(lia)). lia. }
  assert (b0 ~> bj) as Hk.
  { eapply (skips_spans first (i - 1)); [lia|done..|lia|]. intros p a b Hp Hf Hb.
    pose proof (find_bounds _ _ _ Hf).
    apply endpoint_step; [by eapply settled_trans|done|lia..]. }
  eapply skips_trans; [apply (skips_match Fw e _ _ _ Hf0); lia|].
  eapply skips_trans; [exact Hk|].
  assert (S (i - 1) = i) as ES by lia. assert (Hn := Hi). rewrite <- ES in Hn.
  pose proof (span_next _ _ _ _ Hj Hn) as Hf.
  assert (Fw ai = Some (ai, e)) as Hw.
  { apply shifted_some. exists (ai - s), (length hay). split; [done|]. rewrite haystack_length. lia. }
  destruct (Fw bj) as [[x y]|] eqn:Ef.
  2:{ by rewrite (find_none bj ai Ef) in Hw by lia. }
  destruct (decide (x < ai)) as [Hx|Hx].
  - pose proof (cert_earlier C re s e bj ai e x y Hep Hs Hse He (settled_trans _ _ Hst Hbj) Hf
      (Nat.le_refl e) Ef Hx) as Hy.
    rewrite Hy in Ef. apply no_earlier_touch in Ef; lia.
  - eapply (skips_gap Fw e); [exact Ef|lia].
Qed.
End endpoint.

(** *** The last newline *)

Lemma rposition_some p (l : bytes) k : rposition p l = Some k -> exists b, l !! k = Some b /\ p b = true.
Proof.
  revert k. induction l as [|b l IH]; intros k; cbn; [done|].
  destruct (rposition p l) as [j|]; [|by destruct (p b) eqn:E; intros; simplify_eq; eauto].
  intros; simplify_eq. by apply IH.
Qed.

(** A line starts at [q], within the first [n] bytes from [s]. *)
Definition line_at (n q : nat) : Prop := 0 < q <= n /\ input !! (q - 1) = Some 10%Z.

Lemma newline_scan_csat fuel cursor stop q0 : stop <= length hay ->
  csat control (newline_scan control fuel hay s cursor stop q0) (fun q =>
    q = q0 \/ s < q /\ line_at (s + stop) q).
Proof.
  revert stop. induction fuel as [|fuel IH]; intros stop Hstop; cbn [newline_scan];
    [by apply csat_ret; left|].
  destruct (Nat.ltb_spec (cursor - s) stop) as [Hlt|]; [|by apply csat_ret; left].
  eapply csat_bind; [by apply (csat_check _ (fun _ => True))|]. intros _ _.
  set (begin := Nat.max _ _).
  destruct (rposition _ _) as [k|] eqn:E.
  - apply csat_ret. right. apply rposition_some in E as (b & Hb & Hn). tobool. subst b.
    rewrite haystack_length in Hstop.
    assert (k < stop - begin) as Hk.
    { apply lookup_lt_Some in Hb. rewrite length_slice in Hb; [done|]. rewrite haystack_length. lia. }
    rewrite slice_lookup in Hb by done. rewrite slice_lookup in Hb by lia.
    split; [lia|]. split; [lia|]. rewrite <- Hb. f_equal. lia.
  - assert (begin <= stop) by lia.
    eapply csat_weaken; [apply IH; lia|]. intros q [->|(Hq & H1 & H2)]; [by left|].
    right. split; [done|]. split; [lia|done].
Qed.

Lemma line_start_ok span_start : s <= span_start -> span_start <= e ->
  ok (line_start_of control hay s span_start) (fun q => s < q -> line_at span_start q).
Proof.
  intros Hle Hse'. unfold line_start_of. eapply ok_bind; [apply ok_get|]. intros c Hc. cbv zeta.
  set (cursor := if (position c).1 <=? span_start then Nat.max (position c).1 s else s).
  set (q0 := if cursor =? s then 0 else (position c).2).
  assert (q0 = 0 \/ line_at span_start q0) as H0.
  { unfold q0. destruct (Nat.eqb_spec cursor s) as [|Hne]; [by left|].
    destruct Hc as [[Hc|[Hc Hn]] _]; [by left|right]. split; [|done].
    unfold cursor in Hne. destruct (Nat.leb_spec (position c).1 span_start); lia. }
  eapply ok_bind.
  { apply ok_lift. apply newline_scan_csat. rewrite haystack_length. lia. }
  intros q Hq. cbn beta in Hq.
  assert (q = 0 \/ line_at span_start q) as Hq'.
  { destruct Hq as [->|(Hsq & H1 & H2)]; [done|right]. split; [lia|done]. }
  eapply ok_bind; [apply ok_check|]. intros _ _.
  eapply (ok_bind _ _ (fun _ => True)).
  - apply ok_if; intros _; [|by apply ok_ret].
    eapply ok_bind; [apply ok_get|]. intros c' Hc'. apply ok_put.
    split; [|apply Hc']. cbn. destruct Hq' as [->|[H1 H2]]; [by left|by right].
  - intros _ _. apply ok_ret. intros Hsq. destruct Hq' as [->|]; [lia|done].
Qed.

Lemma line_reaches i ai q : line = true -> spans ix !! i = Some (ai, e) ->
  s < q -> line_at ai q -> s ~> q.
Proof.
  intros Hl Hi Hsq [Hq Hn]. pose proof (span_bounds _ _ _ Hi).
  apply (skips_cut Fw e); [lia|]. intros p a b Hp Hf Ha.
  pose proof (cert_line C s e p a b (q - 1) Hl Hp ltac:(lia) Hf Hn ltac:(lia)). lia.
Qed.

(** *** The bounded tail *)

Section tail.
Context (len : nat) (Hlen : maxl = Some len).
Notation limit := (e - (len + MAX_UTF8_CHAR_LEN)).

Lemma limit_lt q : 0 < q <= limit -> q < e.
Proof. unfold MAX_UTF8_CHAR_LEN. lia. Qed.

Lemma tail_step p a b : settled regex input s e p -> 0 < b <= limit ->
  Fw p = Some (a, b) <-> FN p = Some (a, b).
Proof. intros Hp Hb. apply (cert_tail C len); cbn [fst snd]; [done..|lia]. Qed.

Lemma jump_lt n p q : 0 < n -> jump n p q -> p < q.
Proof.
  destruct n as [|n]; [lia|]. intros _ (a & b & Hf & Hj). apply find_bounds in Hf. apply jump_le in Hj. lia.
Qed.

Lemma jump_reaches n p q : settled regex input s e p -> jump n p q -> q <= limit -> p ~> q.
Proof.
  revert p. induction n as [|n IH]; intros p Hp; cbn; [intros -> _; apply skips_refl|].
  intros (a & b & Hf & Hj) Hq. pose proof (find_bounds _ _ _ Hf). pose proof (jump_le _ _ _ Hj).
  apply (skips_trans _ _ _ b); [|apply IH; [apply (settled_trans p); [done|lia]|done..]].
  apply (skips_match Fw e _ a); [|apply limit_lt; lia]. apply tail_step; [done|lia|done].
Qed.

(** A jump of the index from a settled boundary. *)
Definition jumps (n boundary : nat) (r : option nat) : Prop :=
  forall q, r = Some q -> jump n boundary q /\ boundary < q <= limit.

Lemma keep_jump_ok boundary level stop :
  (boundary < stop -> stop <= limit -> jump (2 ^ level) boundary stop) ->
  ok (keep_jump boundary level limit stop) (jumps (2 ^ level) boundary).
Proof.
  intros Hj. unfold keep_jump. apply ok_if; [by intros _; apply ok_ret|]. intros Hb. tobool.
  eapply ok_bind; [apply ok_insert, Hj; lia|]. intros _ _. apply ok_ret.
  intros q [= <-]. split; [apply Hj; lia|lia].
Qed.

Lemma chain_jump_ok level : forall boundary, settled regex input s e boundary ->
  ok (chain_jump regex control ix hay s boundary level limit) (jumps (2 ^ level) boundary).
Proof.
  induction level as [|level IH]; intros boundary Hb; cbn [chain_jump].
  all: eapply ok_bind; [apply ok_check|]; intros _ _.
  all: eapply (ok_bind _ _ (fun r => forall q, r = Some q -> jump (2 ^ _) boundary q));
    [eapply ok_bind; [apply ok_get|]; intros c [_ Hc]; apply ok_ret; intros q; apply Hc|].
  all: intros [stop|] Hcached.
  1, 3: apply ok_ret; intros q; destruct (Nat.leb_spec stop limit); [|done]; intros [= <-];
    specialize (Hcached _ eq_refl); split; [done|split; [|done]];
    eapply jump_lt, Hcached; apply Nat.neq_0_lt_0, Nat.pow_nonzero; done.
  - destruct (search_end ix boundary) as [i|] eqn:Ei.
    + apply ok_ret. apply search_end_some in Ei as [a Ha]. rewrite Nat.add_1_r.
      destruct (spans ix !! S i) as [[a' b']|] eqn:En; [|done]. intros q. cbn [snd].
      destruct (Nat.leb_spec b' limit); [|done]. intros [= <-].
      pose proof (span_next _ _ _ _ Ha En) as Hf. pose proof (find_bounds _ _ _ Hf).
      split; [|lia]. exists a', b'. done.
    + destruct (find_at regex hay (boundary - s)) as [[a b]|] eqn:Ef; [|by apply ok_ret].
      apply keep_jump_ok. cbn [snd]. intros Hlt Hle. exists (s + a), (s + b). split; [|done].
      apply tail_step; [done|lia|]. apply shifted_some. eauto.
  - eapply ok_bind; [by apply IH|]. intros [middle|] Hm; [|by apply ok_ret].
    destruct (Hm _ eq_refl) as [Hj1 Hlt1].
    eapply ok_bind; [apply (IH middle); eapply settled_trans; [done|lia]|].
    intros [stop|] Hs'; [|by apply ok_ret]. destruct (Hs' _ eq_refl) as [Hj2 Hlt2].
    apply keep_jump_ok. intros _ _. replace (2 ^ S level) with (2 ^ level + 2 ^ level) by (cbn; lia). by eapply jump_add.
Qed.

(** Some number of matches after the boundary. *)
Definition advances (boundary : nat) (r : option nat) : Prop :=
  forall q, r = Some q -> exists n, jump n boundary q /\ boundary < q <= limit.

Lemma furthest_jump_ok n : forall level boundary furthest, settled regex input s e boundary ->
  advances boundary furthest ->
  ok (furthest_jump regex control ix n level hay s boundary limit furthest) (advances boundary).
Proof.
  induction n as [|n IH]; intros level boundary furthest Hb Hf; cbn [furthest_jump]; [by apply ok_ret|].
  eapply ok_bind; [by apply chain_jump_ok|]. intros [stop|] Hj; [|by apply ok_ret].
  apply IH; [done|]. intros q [= <-]. destruct (Hj _ eq_refl). eauto.
Qed.

(** The walk ends within its fuel: the boundary advances and stays below the
    limit. *)
Lemma chain_walk_ok fuel : forall boundary, settled regex input s e boundary ->
  boundary <= limit -> limit - boundary < fuel ->
  ok (chain_walk regex control ix fuel hay s boundary limit)
     (fun r => exists q n, r = Some q /\ jump n boundary q /\ q <= limit).
Proof.
  induction fuel as [|fuel IH]; intros boundary Hb Hle Hfuel; [lia|]. cbn [chain_walk].
  eapply ok_bind; [by apply furthest_jump_ok|]. intros [stop|] Hj.
  - destruct (Hj _ eq_refl) as (n & Hn & Hlt).
    eapply ok_weaken; [apply IH; [eapply settled_trans; [done|lia]|lia..]|].
    intros r (q & m & -> & Hm & Hq). exists q, (n + m). split; [done|]. split; [by eapply jump_add|done].
  - apply ok_ret. exists boundary, 0. done.
Qed.

Lemma tail_branch_ok : ok (tail_branch regex control ix hay s e len)
  (fun r => forall ic, r = Some ic -> correct ic).
Proof.
  unfold tail_branch. cbv zeta. destruct (find regex hay) as [[x y]|] eqn:Ef; [|by apply ok_ret].
  pose proof (window_first _ Ef) as Hw. unfold shift in Hw; cbn [fst snd] in *.
  pose proof (find_bounds _ _ _ Hw). apply ok_if; intros Hsafe; [|by apply ok_ret]. tobool.
  assert (settled regex input s e (s + y)) as Hst by (eexists _, _; split; [exact Hw|done]).
  assert (s ~> s + y) as Hk by (apply (skips_match Fw e _ _ _ Hw), limit_lt; lia).
  apply ok_if; intros Hin.
  - tobool. apply ok_ret. intros ic [= <-].
    destruct (search_end ix (s + y)) as [i|] eqn:Ei; [|done].
    apply search_end_some in Ei as [a Ha].
    set (p := fun span : nat * nat => span.2 <=? limit) in *.
    destruct (span_before p) as ([at' bt] & Ht & -> & Hp); [done|]. unfold p in Hp; cbn [snd] in *. tobool.
    assert (i <= partition_point p (spans ix) - 1) as Hi.
    { destruct (decide (i < partition_point p (spans ix))) as [|Hn]; [lia|exfalso].
      destruct (lookup_lt_is_Some_2 (spans ix) (partition_point p (spans ix))) as [[a2 b2] H2].
      { apply lookup_lt_Some in Ha. lia. }
      pose proof (partition_point_stop _ _ _ H2) as Hs2. unfold p in Hs2; cbn [snd] in Hs2. tobool.
      destruct (decide (i = partition_point p (spans ix))) as [E|E]; [rewrite <- E in H2; simplify_eq; lia|].
      pose proof (span_order _ _ _ _ _ _ H2 Ha ltac:(lia)). pose proof (span_bounds _ _ _ Ha). lia. }
    assert (s + y <= bt).
    { destruct (decide (i = partition_point p (spans ix) - 1)) as [E|E]; [rewrite <- E in Ht; by simplify_eq|].
      pose proof (span_order _ _ _ _ _ _ Ha Ht ltac:(lia)). pose proof (span_bounds _ _ _ Ht). lia. }
    apply correct_from; [lia|]. eapply skips_trans; [exact Hk|].
    eapply (skips_spans i); [exact Hi|done..|apply limit_lt; lia|]. intros q a' b' Hq Hf Hb.
    pose proof (find_bounds _ _ _ Hf).
    apply tail_step; [by eapply settled_trans|lia|done].
  - eapply ok_bind; [by apply chain_walk_ok; [|lia..]|].
    intros r (q & n & -> & Hj & Hq). apply ok_ret. intros ic [= <-].
    pose proof (jump_le _ _ _ Hj).
    apply correct_from; [lia|]. eapply skips_trans; [exact Hk|]. by eapply jump_reaches.
Qed.
End tail.

(** *** One window *)

Lemma endpoint_branch_ok i ai : spans ix !! i = Some (ai, e) -> s <= ai ->
  ok (endpoint_branch regex control ix ep hay s first (prefix_aligned_at regex ix hay s first) (ai, e))
     (fun r => forall ic, r = Some ic -> correct ic).
Proof.
  intros Hi Hai. unfold endpoint_branch. pose proof (span_bounds _ _ _ Hi).
  eapply (ok_bind _ _ (fun q => line_restart ix = true -> s < q -> line_at ai q)).
  { apply ok_if; intros Hl; [|apply ok_ret; by rewrite Hl].
    apply (ok_weaken _ _ _ (line_start_ok ai ltac:(lia) ltac:(lia))). auto. }
  intros q Hq. apply ok_if; intros Hl.
  - tobool. apply ok_ret. intros ic [= <-]. apply correct_from; [lia|].
    eapply line_reaches; [by apply ix_line_restart|done..|by apply Hq].
  - apply ok_ret. rewrite ix_prefix_stable, ix_endpoint_maximum_len. cbn [fst].
    destruct (_ && _) eqn:Hag in |- *; [|done]. unfold captures_at.
    destruct (find_at regex hay (ai - s)) as [[x y]|] eqn:Ef; [|done].
    cbn [fmap option_fmap option_map full capture fst snd].
    destruct ((x =? ai - s) && _) eqn:Hfull; [|done]. intros ic [= <-].
    apply andb_true_iff in Hfull as [Hx%Nat.eqb_eq Hy%Nat.eqb_eq]. subst x y.
    apply correct_one; [done| |done].
    destruct (prefix_aligned_at regex ix hay s first) eqn:Hal; cbn [orb] in *.
    + apply (aligned_start Hal i ai e); [by eapply first_le|done..].
    + assert (stable = false) as Est by (clear -Hag; by destruct stable).
      rewrite Est in Hag. cbn [negb orb andb] in Hag.
      case_eq ep; [intros re Hep|intros Hep]; rewrite Hep in Hag; [|by rewrite !andb_false_r in Hag].
      destruct (re hay _) as [[x y]|] eqn:Hre; [|by rewrite !andb_false_r in Hag].
      cbn [fst snd] in Hag. tobool. subst x y.
      eapply (endpoint_reaches re); [done|exact Hi|..]; done.
Qed.

Lemma captures_ok : ok (captures_with_control regex control ix ep hay s) correct.
Proof.
  unfold captures_with_control. eapply ok_bind; [apply ok_check|]. intros _ _. cbv zeta.
  rewrite ix_range. replace (s + length hay) with e by (rewrite haystack_length; lia).
  apply ok_if; intros _; [apply ok_ret, correct_search|].
  eapply (ok_bind _ _ (fun r => forall ic, r = Some ic -> correct ic)).
  { destruct (search_end ix e) as [i|] eqn:Ei; [|by apply ok_ret].
    apply search_end_some in Ei as [a Ha]. rewrite (span_at_some _ _ Ha).
    apply ok_if; intros Hle; [|by apply ok_ret]. cbn [fst] in Hle. tobool. by eapply endpoint_branch_ok. }
  intros [ic|] Hic; [by apply ok_ret, Hic|]. clear Hic.
  apply ok_if; intros Hal.
  - tobool. apply ok_ret. set (p := fun span : nat * nat => span.2 <? e) in *.
    destruct (span_before p) as ([a b] & Ht & -> & Hp); [lia|]. unfold p in Hp; cbn [snd] in *. tobool.
    pose proof (span_ge _ _ _ Ht ltac:(lia)). pose proof (span_bounds _ _ _ Ht).
    apply correct_from; [lia|]. eapply aligned_reaches; [done| |exact Ht|done]. lia.
  - rewrite ix_maximum_len. case_eq maxl; [intros len Hlen|intros Hlen; apply ok_ret, correct_search].
    eapply ok_bind; [by apply tail_branch_ok|]. intros [ic|] Hic; apply ok_ret; [by apply Hic|].
    apply correct_search.
Qed.

Lemma confirm_ok : ok (confirm_window regex control ep input ix (s, e))
  (fun cs => cs = search_window regex input (s, e)).
Proof.
  unfold confirm_window, search_window. cbn [fst snd]. eapply ok_bind; [apply captures_ok|].
  intros ic (l & Hl & Hy). apply ok_lift. eapply csat_weaken; [by apply confirmed_csat|].
  intros cs ->. rewrite filter_endpoint. unfold captures_iter.
  by rewrite (matches_from_fun _ _ _ Hl _ (regex_iter hay)).
Qed.
End window.

(** A window that leaves the indexed range is searched. *)
Lemma confirm_any s e : s <= e <= length input ->
  ok (confirm_window regex control ep input ix (s, e)) (fun cs => cs = search_window regex input (s, e)).
Proof.
  intros Hse. destruct (decide (r1 <= s /\ e <= r2)) as [[H1 H2]|Hout]; [apply confirm_ok; lia|].
  unfold confirm_window, captures_with_control, search_window. cbn [fst snd].
  eapply (ok_bind _ _ (fun ic => ic = search regex (slice input s e))).
  - eapply ok_bind; [apply ok_check|]. intros _ _. cbv zeta.
    rewrite ix_range, length_slice by lia. cbn [fst snd].
    apply ok_if; intros Hb; [by apply ok_ret|].
    apply orb_false_iff in Hb as [?%Nat.ltb_ge ?%Nat.ltb_ge]. lia.
  - intros ic ->. apply ok_lift. eapply csat_weaken.
    + apply (confirmed_csat _ _ _ _ _ (List.filter (ends_at (length (slice input s e)))
        (find_iter regex (slice input s e)))). by exists (find_iter regex (slice input s e)).
    + intros cs ->. apply filter_endpoint.
Qed.

Lemma confirm_windows_ok windows : Forall (fun w => w.1 <= w.2 <= length input) windows ->
  ok (confirm_windows regex control ep input ix windows)
     (fun css => css = map (search_window regex input) windows).
Proof.
  induction 1 as [|[s e] ws Hw _ IH]; cbn [confirm_windows map]; [by apply ok_ret|].
  eapply ok_bind; [by apply confirm_any|]. intros cs ->.
  eapply ok_bind; [exact IH|]. intros css ->. by apply ok_ret.
Qed.
End exact.

(** ** Building the index under a control *)

Lemma map_shift_0 l : map (shift 0) l = l.
Proof. induction l as [|[a b] l IH]; [done|]. cbn. by rewrite IH. Qed.

Lemma with_control_refines {G} (regex : Regex G) control input maxl endl stable line :
  refines control (with_control regex control input maxl endl stable line)
    (new_in_range_with_maximum_len regex input (0, length input) maxl endl stable line).
Proof.
  unfold with_control, new_in_range_with_maximum_len. cbn [fst snd].
  rewrite map_shift_0, slice_full. destruct (negb (is_limited control)); [apply refines_ret|].
  eapply refines_bind; [|apply refines_ret].
  eapply refines_bind; [apply refines_for_each with (p := fun spans m => spans ++ [m])|].
  - intros m spans _. eapply refines_bind; [apply refines_check|apply refines_ret].
  - eapply refines_bind; [apply refines_check|]. cbv beta.
    assert (forall l acc, fold_left (fun spans (m : nat * nat) => spans ++ [m]) l acc = acc ++ l) as ->.
    { induction l as [|m l IH]; intros acc; cbn; [by rewrite app_nil_r|]. by rewrite IH, <- app_assoc. }
    apply refines_ret.
Qed.

(** ** Properties *)

(** C11. Confirming candidate windows from the shared index of a rule gives, for
    every sequence of windows and whatever earlier windows left in the caches,
    exactly the captures that iterating the regex over each window and keeping
    those that end it gives; the control can only abort the confirmation. Assumed:
    the regex searches leftmost ([RegexLaws]), and the certificates that
    [RulesDatabase] computes hold of it on this input ([Certified]): the lengths of
    matches, no match past a newline, and that a window finds the matches of the
    input that fit in it where no assertion looks past its borders. *)
Theorem indexed_confirmation_exact {G} (regex : Regex G) (control : ScanControl) (input : bytes)
    maxl endl stable line ep (windows : list (nat * nat)) :
  RegexLaws regex ->
  Certified regex input (0, length input) maxl endl stable line ep ->
  Forall (fun w => w.1 <= w.2 <= length input) windows ->
  refines control (confirm_rule regex control ep input maxl endl stable line windows)
    (map (search_window regex input) windows).
Proof.
  intros R C Hw. unfold confirm_rule. eapply refines_bind; [apply with_control_refines|].
  intros clock n.
  pose proof (confirm_windows_ok regex control input 0 (length input) maxl endl stable line ep
    ltac:(lia) C _ eq_refl windows Hw _ clock n (Inv_new regex input 0 (length input) maxl endl stable line)) as H.
  destruct (confirm_windows _ _ _ _ _ _ _ _ _) as [[[css|e] c] n']; cbn in *; destruct H as [_ H];
    [left; by subst|right; eauto].
Qed.

Lemma indexed_confirmation_exact_witness :
  let input := bs "ab..abab.xab." in
  let regex := literal (bs "ab") in
  let windows := [(0, 2); (0, 12); (3, 12); (5, 12); (0, 8); (4, 8); (3, 11)] in
  map (map full) (map (search_window regex input) windows) =
    [[(0, 2)]; [(10, 12)]; [(7, 9)]; [(5, 7)]; [(6, 8)]; [(2, 4)]; []] /\
  refines control_default
    (confirm_rule regex control_default (Some (literal_endpoint (bs "ab"))) input
       (Some 2) (Some 2) false false windows)
    (map (search_window regex input) windows).
Proof.
  cbv zeta. split; [vm_compute; reflexivity|].
  apply (indexed_confirmation_exact (literal (bs "ab")) control_default (bs "ab..abab.xab.")
    (Some 2) (Some 2) false false (Some (literal_endpoint (bs "ab")))).
  - apply literal_laws; cbv; intuition discriminate.
  - apply (literal_certified (bs "ab")); [discriminate|intros H; cbv in H; intuition discriminate|cbn; lia].
  - repeat constructor; cbn; lia.
Defined.
