(* ===== verification/Certificates.v ===== *)
(** * Confirmation certificates: [kingfisher-rules/src/rules_database.rs]
      ([confirmation_maximum_lengths])

    What [RulesDatabase] reads off a parsed expression so that an index may skip
    searches: whether the expression is free of assertions, whether a match can
    consume a byte after a newline, how long a match is and how long its tail
    after an unbounded run is. The expression is the [Hir] of [regex_syntax]:
    the parser and the length and look-around properties of a node are
    parameters, and [consumes] is the documented meaning of the nodes: the
    strings a match of the expression can consume. *)

From Stdlib Require Import ZArith Lia Bool.
From stdpp Require Import base list option.
From S2P Require Import Prelude Encoding Leftmost.

(** ** Expressions *)

Inductive Look := Start | End | StartLF | EndLF | StartCRLF | EndCRLF | OtherLook.

(** The ranges of a class, of bytes or of Unicode scalar values. *)
Inductive Class_ := BytesClass (ranges : list (Z * Z)) | UnicodeClass (ranges : list (Z * Z)).

Inductive Hir :=
  | Empty
  | LookAround (look : Look)
  | Literal (literal : bytes)
  | Class (class : Class_)
  | Repetition (min : nat) (max : option nat) (sub : Hir)
  | Capture (sub : Hir)
  | Concat (parts : list Hir)
  | Alternation (parts : list Hir).

Section Hir_induction.
Variable P : Hir -> Prop.
Hypothesis Hempty : P Empty.
Hypothesis Hlook : forall l, P (LookAround l).
Hypothesis Hliteral : forall l, P (Literal l).
Hypothesis Hclass : forall c, P (Class c).
Hypothesis Hrepetition : forall min max h, P h -> P (Repetition min max h).
Hypothesis Hcapture : forall h, P h -> P (Capture h).
Hypothesis Hconcat : forall parts, Forall P parts -> P (Concat parts).
Hypothesis Halternation : forall parts, Forall P parts -> P (Alternation parts).

Fixpoint Hir_nested_ind (h : Hir) : P h :=
  let nested := fix nested (l : list Hir) : Forall P l :=
    match l with
    | [] => Forall_nil_2 _
    | h :: l => Forall_cons_2 _ _ _ (Hir_nested_ind h) (nested l)
    end in
  match h with
  | Empty => Hempty
  | LookAround l => Hlook l
  | Literal l => Hliteral l
  | Class c => Hclass c
  | Repetition min max h => Hrepetition min max h (Hir_nested_ind h)
  | Capture h => Hcapture h (Hir_nested_ind h)
  | Concat parts => Hconcat parts (nested parts)
  | Alternation parts => Halternation parts (nested parts)
  end.
End Hir_induction.

Definition in_ranges (ranges : list (Z * Z)) (c : Z) : bool :=
  existsb (fun r => (fst r <=? c) && (c <=? snd r))%Z ranges.
Definition class_contains (class : Class_) (c : Z) : bool :=
  match class with BytesClass ranges | UnicodeClass ranges => in_ranges ranges c end.

(** The strings that matches consume; assertions consume nothing. *)
Inductive consumes : Hir -> bytes -> Prop :=
  | consumes_empty : consumes Empty []
  | consumes_look l : consumes (LookAround l) []
  | consumes_literal w : consumes (Literal w) w
  | consumes_byte ranges b : byte_ok b -> in_ranges ranges b = true ->
      consumes (Class (BytesClass ranges)) [b]
  | consumes_char ranges c : is_scalar c = true -> in_ranges ranges c = true ->
      consumes (Class (UnicodeClass ranges)) (encode_utf8 c)
  | consumes_repetition min max h ws : min <= length ws ->
      match max with Some m => length ws <= m | None => True end ->
      (forall w, In w ws -> consumes h w) -> consumes (Repetition min max h) (concat ws)
  | consumes_capture h w : consumes h w -> consumes (Capture h) w
  | consumes_concat parts ws : all_consume parts ws -> consumes (Concat parts) (concat ws)
  | consumes_alternation parts h w : In h parts -> consumes h w -> consumes (Alternation parts) w
with all_consume : list Hir -> list bytes -> Prop :=
  | all_nil : all_consume [] []
  | all_cons h w parts ws : consumes h w -> all_consume parts ws -> all_consume (h :: parts) (w :: ws).

(** ** The certificates *)

Record NewlineShape := mkShape { consumes_newline : bool; newline_has_suffix : bool }.
Definition no_newline : NewlineShape := mkShape false false.

Record ConfirmationLengths := mkLengths {
  lengths_prefix_stable : bool;
  lengths_line_restart_safe : bool;
  safe_tail : option nat;
  full_match : option nat
}.
Definition no_lengths : ConfirmationLengths := mkLengths false false None None.

Section compute.
(** [hir.properties()]: [minimum_len], [maximum_len] and [look_set().is_empty()]. *)
Variable minimum_len : Hir -> option nat.
Variable maximum_len : Hir -> option nat.
Variable look_set_is_empty : Hir -> bool.

Definition can_consume_nonempty (h : Hir) : bool :=
  match maximum_len h with Some length => 0 <? length | None => true end.

(** [iter().position(|byte| *byte == b'\n')] *)
Definition newline_position (literal : bytes) : option nat :=
  let i := partition_point (fun b => negb (b ==? 10)) literal in
  if i <? length literal then Some i else None.

Fixpoint newline_shape (h : Hir) : NewlineShape :=
  match h with
  | Empty | LookAround _ => no_newline
  | Literal literal =>
      match newline_position literal with
      | Some index => mkShape true (index + 1 <? length literal)
      | None => no_newline
      end
  | Class class => mkShape (class_contains class 10) false
  | Capture sub => newline_shape sub
  | Alternation parts =>
      fold_left (fun shape part =>
        mkShape (consumes_newline shape || consumes_newline part)
                (newline_has_suffix shape || newline_has_suffix part))
        (map newline_shape parts) no_newline
  | Concat parts =>
      (* [parts.iter().rev()], with [suffix_can_consume] *)
      fst (fold_right (fun part (state : NewlineShape * bool) =>
        let '(shape, suffix_can_consume) := state in
        let part_shape := newline_shape part in
        (mkShape (consumes_newline shape || consumes_newline part_shape)
           (newline_has_suffix shape || (newline_has_suffix part_shape ||
              (consumes_newline part_shape && suffix_can_consume))),
         suffix_can_consume || can_consume_nonempty part)) (no_newline, false) parts)
  | Repetition _ max sub =>
      let shape := newline_shape sub in
      let repeats := match max with Some maximum => 1 <? maximum | None => true end in
      mkShape (negb (bool_decide (max = Some 0)) && consumes_newline shape)
        (newline_has_suffix shape ||
         (consumes_newline shape && repeats && can_consume_nonempty sub))
  end.

Fixpoint flatten (h : Hir) : list Hir :=
  match h with
  | Capture sub => flatten sub
  | Concat parts => flat_map flatten parts
  | _ => [h]
  end.

Definition is_look (h : Hir) : bool := match h with LookAround _ => true | _ => false end.
Definition is_end_look (h : Hir) : bool :=
  match h with LookAround (End | EndLF | EndCRLF) => true | _ => false end.

Definition usize_checked_add (a b : nat) : option nat :=
  if (Z.of_nat (a + b) <=? USIZE_MAX)%Z then Some (a + b) else None.

(** [for node in rest { maximum_len = maximum_len.checked_add(..)?; }] *)
Fixpoint add_lengths (acc : nat) (rest : list Hir) : option nat :=
  match rest with
  | [] => Some acc
  | node :: rest =>
      match maximum_len node with
      | None => None
      | Some length => match usize_checked_add acc length with
                       | None => None
                       | Some acc => add_lengths acc rest
                       end
      end
  end.

(** The pattern of a delimiter-terminated run: its suffix and what follows. *)
Definition delimited_run (h : Hir) : option (Hir * list Hir) :=
  let nodes := flatten h in
  match List.filter (fun node => negb (is_look node)) nodes with
  | Repetition min None (Class class) :: Literal (delimiter :: literal) :: rest =>
      if (0 <? min) && (delimiter <? 128)%Z && negb (existsb is_end_look nodes) &&
         negb (class_contains class delimiter)
      then Some (Literal (delimiter :: literal), rest) else None
  | _ => None
  end.

Definition compute (h : Hir) : option ConfirmationLengths :=
  if negb match minimum_len h with Some length => 0 <? length | None => false end then None
  else
    let prefix_stable := look_set_is_empty h in
    let line_restart_safe := negb (newline_has_suffix (newline_shape h)) in
    match maximum_len h with
    | Some len => Some (mkLengths prefix_stable line_restart_safe (Some len) (Some len))
    | None =>
        match delimited_run h with
        | Some (suffix, rest) =>
            match maximum_len suffix with
            | None => None
            | Some len =>
                match add_lengths len rest with
                | None => None
                | Some len => Some (mkLengths prefix_stable line_restart_safe (Some len) None)
                end
            end
        | None => Some (mkLengths prefix_stable line_restart_safe None None)
        end
    end.

(** [parsed] is what the parser makes of the pattern. *)
Definition confirmation_maximum_lengths (parsed : option Hir) : ConfirmationLengths :=
  default no_lengths (h ← parsed; compute h).
End compute.

(** ** Newlines in the strings consumed *)

(** A newline and then a further byte. *)
Definition crosses (w : bytes) : Prop := exists u x v, w = u ++ 10%Z :: x :: v.

Lemma crosses_app a b : crosses (a ++ b) -> crosses a \/ (In 10%Z a /\ b <> []) \/ crosses b.
Proof.
  intros (u & x & v & E). apply app_eq_app in E as (k & [[-> E]|[-> E]]).
  - destruct k as [|c k]; cbn in E.
    + right; right. exists [], x, v. done.
    + simplify_eq. destruct k as [|c k]; cbn in *.
      * right; left. split; [apply in_or_app; right; by left|]. by subst.
      * simplify_eq. left. by exists u, c, k.
  - right; right. by exists k, x, v.
Qed.

Lemma crosses_concat ws : crosses (concat ws) ->
  exists l w r, ws = l ++ w :: r /\ (crosses w \/ (In 10%Z w /\ concat r <> [])).
Proof.
  induction ws as [|w ws IH]; cbn; [by intros ([|] & ? & ? & ?)|].
  intros [H|[H|H]]%crosses_app.
  - exists [], w, ws. auto.
  - exists [], w, ws. auto.
  - destruct (IH H) as (l & w' & r & -> & H'). exists (w :: l), w', r. auto.
Qed.

Lemma crosses_newline w : crosses w -> In 10%Z w.
Proof. intros (u & x & v & ->). apply in_or_app. right. by left. Qed.

Lemma concat_nonempty (ws : list bytes) : concat ws <> [] -> exists w, In w ws /\ w <> [].
Proof.
  induction ws as [|w ws IH]; cbn; [done|]. destruct w as [|b w].
  - intros H. destruct (IH H) as (w & Hw & Hn). eauto.
  - intros _. exists (b :: w). auto.
Qed.

Lemma newline_position_spec l : match newline_position l with
  | Some i => exists u v, l = u ++ 10%Z :: v /\ length u = i /\ ~ In 10%Z u
  | None => ~ In 10%Z l
  end.
Proof.
  unfold newline_position. set (p := fun b : Z => negb (b ==? 10)).
  assert (forall u i, i <= partition_point p l -> u = take i l -> ~ In 10%Z u) as Hno.
  { intros u i Hi -> (k & Hk)%list_elem_of_In%list_elem_of_lookup.
    apply lookup_take_Some in Hk as [Hk Hlt].
    pose proof (partition_point_lt p l k _ ltac:(lia) Hk) as Hp. done. }
  pose proof (partition_point_le p l). destruct (Nat.ltb_spec (partition_point p l) (length l)) as [Hlt|Hge].
  - destruct (lookup_lt_is_Some_2 l _ Hlt) as [b Hb].
    pose proof (partition_point_stop _ _ _ Hb) as Hs. unfold p in Hs. tobool. subst b.
    exists (take (partition_point p l) l), (drop (S (partition_point p l)) l).
    split; [by rewrite take_drop_middle|]. split; [rewrite length_take; lia|]. by eapply Hno.
  - apply (Hno _ (length l)); [lia|]. by rewrite firstn_all.
Qed.

Lemma encode_utf8_ascii c d : is_scalar c = true -> (d < 128)%Z -> In d (encode_utf8 c) -> c = d.
Proof.
  unfold encode_utf8, is_scalar. intros Hs Hd Hin. tobool. repeat split_if; cbn in Hin; tobool.
  all: repeat destruct Hin as [Hin|Hin]; try done; dlia.
Qed.

Lemma encode_utf8_crosses c : is_scalar c = true -> ~ crosses (encode_utf8 c).
Proof.
  intros Hs Hc. pose proof (encode_utf8_ascii c 10 Hs eq_refl (crosses_newline _ Hc)) as ->.
  destruct Hc as (u & x & v & E). change (encode_utf8 10) with [10%Z] in E.
  destruct u as [|y [|z u]]; simplify_eq/=.
Qed.

(** ** The shape of an expression *)

Section sound.
Context (minimum_len maximum_len : Hir -> option nat).

(** The documented bounds of a node on what it consumes. *)
Class LengthLaws : Prop := {
  minimum_law h n w : minimum_len h = Some n -> consumes h w -> n <= length w;
  maximum_law h n w : maximum_len h = Some n -> consumes h w -> length w <= n
}.
Context (Hlaws : LengthLaws).
#[local] Existing Instance Hlaws.
Notation shape := (newline_shape maximum_len).

Lemma can_consume_true h w : consumes h w -> w <> [] -> can_consume_nonempty maximum_len h = true.
Proof.
  unfold can_consume_nonempty. intros Hc Hw. destruct (maximum_len h) as [n|] eqn:E; [|done].
  pose proof (maximum_law _ _ _ E Hc). destruct w; [done|]. cbn [length] in *. apply Nat.ltb_lt. lia.
Qed.

(** What the shape of an expression claims about a string it consumes. *)
Definition shaped (s : NewlineShape) (w : bytes) : Prop :=
  (In 10%Z w -> consumes_newline s = true) /\ (crosses w -> newline_has_suffix s = true).

Lemma shaped_nil s : shaped s [].
Proof. split; [done|]. intros H%crosses_newline. done. Qed.

Lemma shaped_or s1 s2 w : shaped s1 w \/ shaped s2 w ->
  shaped (mkShape (consumes_newline s1 || consumes_newline s2)
                  (newline_has_suffix s1 || newline_has_suffix s2)) w.
Proof.
  intros [[H1 H2]|[H1 H2]]; split; cbn; intros H; apply orb_true_iff; auto.
Qed.

Lemma alternation_shaped (ss : list NewlineShape) : forall acc w,
  shaped acc w \/ (exists s, In s ss /\ shaped s w) ->
  shaped (fold_left (fun shape part =>
    mkShape (consumes_newline shape || consumes_newline part)
            (newline_has_suffix shape || newline_has_suffix part)) ss acc) w.
Proof.
  induction ss as [|s ss IH]; intros acc w; cbn.
  - by intros [H|(s & [] & _)].
  - intros [H|(s' & [<-|Hs] & H)]; apply IH; [left; apply shaped_or; auto..|eauto].
Qed.

Notation concat_state parts :=
  (fold_right (fun part (state : NewlineShape * bool) =>
    let '(s, suffix_can_consume) := state in
    (mkShape (consumes_newline s || consumes_newline (shape part))
       (newline_has_suffix s || (newline_has_suffix (shape part) ||
          (consumes_newline (shape part) && suffix_can_consume))),
     suffix_can_consume || can_consume_nonempty maximum_len part)) (no_newline, false) parts).

Lemma concat_shaped parts ws : Forall (fun h => forall w, consumes h w -> shaped (shape h) w) parts ->
  all_consume parts ws ->
  shaped (fst (concat_state parts)) (concat ws) /\
  (concat ws <> [] -> snd (concat_state parts) = true).
Proof.
  intros Hp Hws. induction Hws as [|h w parts ws Hc Hws IH]; cbn; [split; [apply shaped_nil|done]|].
  apply Forall_cons in Hp as [Hh Hp]. destruct (IH Hp) as [[IH1 IH2] IH3].
  destruct (concat_state parts) as [s can] eqn:E. cbn [fst snd] in *.
  destruct (Hh w Hc) as [H1 H2]. split; [split; cbn|].
  - intros [Hin|Hin]%in_app_or; apply orb_true_iff; auto.
  - intros [Hx|[[Hn Hne]|Hx]]%crosses_app.
    + rewrite (H2 Hx). cbn. apply orb_true_r.
    + rewrite (H1 Hn), (IH3 Hne). cbn. by rewrite !orb_true_r.
    + by rewrite (IH2 Hx).
  - intros Hne. apply orb_true_iff. destruct w as [|b w]; [left; by apply IH3|right].
    by eapply can_consume_true.
Qed.

Lemma newline_shape_sound h : forall w, consumes h w -> shaped (shape h) w.
Proof.
  induction h as [|l|l|c|min max h IH|h IH|parts IH|parts IH] using Hir_nested_ind;
    intros w Hw; inversion Hw; subst; cbn [newline_shape].
  - apply shaped_nil.
  - apply shaped_nil.
  - pose proof (newline_position_spec w) as Hp. destruct (newline_position w) as [i|].
    + destruct Hp as (u & v & E & Hu & Hno). split; cbn; [done|]. intros (u' & x & v' & Hx).
      apply Nat.ltb_lt. rewrite E, length_app. cbn.
      destruct v; [exfalso|cbn; lia]. rewrite E in Hx. apply app_eq_app in Hx as (k & [[-> Hx]|[-> Hx]]).
      * destruct k as [|? k]; simplify_eq/=. apply Hno. apply in_or_app. right. by left.
      * by destruct k as [|? [|? k]]; simplify_eq/=.
    + split; cbn; [done|]. intros H%crosses_newline. done.
  - split; cbn; [by intros [->|[]]|]. intros (u & x & v & E). by destruct u as [|? [|? u]]; simplify_eq/=.
  - split; cbn; [intros Hin; by apply encode_utf8_ascii in Hin as ->|].
    intros Hx. by apply encode_utf8_crosses in Hx.
  - match goal with H : forall w, In w ws -> _ |- _ => rename H into Hall end.
    match goal with H : match max with _ => _ end |- _ => rename H into Hmax end.
    split; cbn [consumes_newline newline_has_suffix].
    + intros (w & Hin & Hw')%in_concat. destruct (IH w (Hall w Hin)) as [Ha _]. rewrite (Ha Hw').
      rewrite bool_decide_false; [done|]. intros ->. destruct ws; [done|cbn in *; lia].
    + intros (u & w & r & -> & Hx)%crosses_concat.
      assert (consumes h w) as Hcw by (apply Hall, in_or_app; right; by left).
      destruct (IH w Hcw) as [Ha Hb]. destruct Hx as [Hx|[Hn Hne]]; [by rewrite (Hb Hx)|].
      apply concat_nonempty in Hne as (w' & Hw' & Hne).
      assert (consumes h w') as Hcw' by (apply Hall, in_or_app; right; by right).
      rewrite (Ha Hn), (can_consume_true h w' Hcw' Hne).
      assert (match max with Some maximum => 1 <? maximum | None => true end = true) as ->.
      { destruct max as [m|]; [|done]. apply Nat.ltb_lt. rewrite length_app in Hmax. cbn in Hmax.
        destruct r; [done|]. cbn in Hmax. lia. }
      by rewrite orb_true_r.
  - by apply IH.
  - by apply concat_shaped.
  - apply alternation_shaped. right.
    match goal with H : In ?x parts |- _ => exists (shape x); split; [by apply in_map|] end.
    rewrite List.Forall_forall in IH. by apply IH.
Qed.
(** ** A run and its delimiter *)

Lemma all_consume_app hs1 hs2 ws1 ws2 :
  all_consume hs1 ws1 -> all_consume hs2 ws2 -> all_consume (hs1 ++ hs2) (ws1 ++ ws2).
Proof. induction 1; cbn; [done|]. intros. constructor; auto. Qed.

Lemma flatten_consumes h : forall w, consumes h w ->
  exists ws, all_consume (flatten h) ws /\ w = concat ws.
Proof.
  assert (forall h w, consumes h w -> exists ws, all_consume [h] ws /\ w = concat ws) as Hone.
  { intros h' w Hw. exists [w]. split; [by repeat constructor|]. cbn. by rewrite app_nil_r. }
  induction h as [|l|l|c|min max h IH|h IH|parts IH|parts IH] using Hir_nested_ind;
    intros w Hw; cbn [flatten]; auto.
  - inversion Hw; subst. by apply IH.
  - inversion Hw as [| | | | | | |parts' ws Hws|]; subst. clear Hw.
    induction Hws as [|h w parts ws Hc Hws IHws]; cbn; [exists []; by repeat constructor|].
    apply Forall_cons in IH as [IHh IHp].
    destruct (IHh w Hc) as (ws1 & H1 & ->). destruct (IHws IHp) as (ws2 & H2 & ->).
    exists (ws1 ++ ws2). split; [by apply all_consume_app|]. by rewrite concat_app.
Qed.

(** Assertions consume nothing. *)
Lemma consuming_nodes nodes ws : all_consume nodes ws ->
  exists ws', all_consume (List.filter (fun node => negb (is_look node)) nodes) ws' /\
              concat ws = concat ws'.
Proof.
  induction 1 as [|h w nodes ws Hc _ (ws' & IH & E)]; cbn; [exists []; by repeat constructor|].
  destruct (is_look h) eqn:El; cbn.
  - destruct h; try done. inversion Hc; subst. eauto.
  - exists (w :: ws'). split; [by constructor|]. cbn. by rewrite E.
Qed.

Lemma add_lengths_bound rest : forall acc n ws, add_lengths maximum_len acc rest = Some n ->
  all_consume rest ws -> acc + length (concat ws) <= n.
Proof.
  induction rest as [|h rest IH]; intros acc n ws; cbn; intros Hn Hws; inversion Hws; subst; cbn.
  - simplify_eq. lia.
  - destruct (maximum_len h) as [m|] eqn:Em; [|done].
    unfold usize_checked_add in Hn. split_if; [|done].
    match goal with Hc : consumes h _ |- _ => pose proof (maximum_law _ _ _ Em Hc) end.
    specialize (IH _ _ _ Hn ltac:(eassumption)). rewrite length_app. lia.
Qed.

(** What one repetition of a class consumes: at least a byte, and no ASCII byte
    outside the class. *)
Lemma class_consumes c w d : consumes (Class c) w -> (d < 128)%Z -> class_contains c d = false ->
  w <> [] /\ ~ In d w.
Proof.
  intros Hw Hd Hc. inversion Hw; subst; cbn in Hc.
  - split; [done|]. intros [->|[]]. congruence.
  - split; [unfold encode_utf8; by repeat case_match|].
    intros Hin. apply encode_utf8_ascii in Hin as ->; [congruence|done..].
Qed.

(** A string is a run without its delimiter, the delimiter and a tail: [n] bounds
    what follows the run. *)
Definition delimited (n : nat) (w : bytes) : Prop :=
  exists run delimiter tail, w = run ++ delimiter :: tail /\ run <> [] /\ ~ In delimiter run /\
    S (length tail) <= n.

Lemma delimited_run_sound h suffix rest len n w :
  delimited_run h = Some (suffix, rest) -> maximum_len suffix = Some len ->
  add_lengths maximum_len len rest = Some n -> consumes h w -> delimited n w.
Proof.
  intros Hrun Hlen Hadd Hw. apply flatten_consumes in Hw as (ws & Hws & ->).
  apply consuming_nodes in Hws as (ws' & Hws & ->). unfold delimited_run in Hrun.
  destruct (List.filter _ _) as [|[| | | |min [?|] [| | |class| | | |]| | |] [|[| |[|d lit]| | | | |] rest']] eqn:E;
    try done. split_if; [|done]. simplify_eq. tobool.
  inversion Hws as [|? run ? ws1 Hr Hws1]; subst. inversion Hws1 as [|? lw ? ws2 Hl Hws2]; subst.
  inversion Hl; subst. inversion Hr as [| | | | |? ? ? pieces Hmin _ Hall| | |]; subst.
  exists (concat pieces), d, (lit ++ concat ws2). cbn. split; [done|]. split; [|split].
  - destruct pieces as [|p pieces]; [cbn in Hmin; lia|]. cbn.
    destruct (class_consumes class p d (Hall p (or_introl eq_refl))) as [Hp _]; [done..|]. by destruct p.
  - intros (p & Hp & Hd)%in_concat. destruct (class_consumes class p d (Hall p Hp)) as [_ Hn]; [done..|]. done.
  - pose proof (maximum_law _ _ _ Hlen Hl) as Hb. pose proof (add_lengths_bound _ _ _ _ Hadd Hws2).
    cbn in Hb. rewrite length_app. lia.
Qed.
End sound.

(** ** The certificates as the index uses them

    [Certified] of [Leftmost] asks for [cert_line] and [cert_length]: both follow
    for a regex whose matches consume strings of the parsed expression. *)

Lemma compute_fields minimum_len maximum_len look_set_is_empty h c :
  compute minimum_len maximum_len look_set_is_empty h = Some c ->
  lengths_prefix_stable c = look_set_is_empty h /\
  lengths_line_restart_safe c = negb (newline_has_suffix (newline_shape maximum_len h)) /\
  full_match c = maximum_len h.
Proof.
  unfold compute. split_if; [done|]. destruct (maximum_len h) as [m|]; [by intros [= <-]|].
  destruct (delimited_run h) as [[suffix rest]|]; [|by intros [= <-]].
  destruct (maximum_len suffix) as [len|]; [|done]. destruct (add_lengths _ _ _); [|done]. by intros [= <-].
Qed.

Section bridge.
Context (minimum_len maximum_len : Hir -> option nat) (look_set_is_empty : Hir -> bool).
Context (Hlaws : LengthLaws minimum_len maximum_len).
Context {G : Type} (regex : Regex G) (Hregex : RegexLaws regex) (h : Hir) (c : ConfirmationLengths).
Context (Hdenotes : forall haystack p a b, find_at regex haystack p = Some (a, b) ->
  consumes h (slice haystack a b)).
Context (Hc : confirmation_maximum_lengths minimum_len maximum_len look_set_is_empty (Some h) = c).

Lemma certified_words w : consumes h w ->
  (lengths_line_restart_safe c = true -> ~ crosses w) /\
  (forall n, full_match c = Some n -> length w <= n).
Proof.
  intros Hw. unfold confirmation_maximum_lengths in Hc. cbn in Hc.
  destruct (compute _ _ _ h) as [c'|] eqn:E; [|by subst c]. cbn in Hc. subst c'.
  apply compute_fields in E as (_ & -> & ->). split.
  - intros Hs Hx. destruct (newline_shape_sound _ _ Hlaws h w Hw) as [_ Hsh].
    by rewrite (Hsh Hx) in Hs.
  - intros n Hn. by eapply maximum_law.
Qed.

Lemma line_certificate input s e p a b n : lengths_line_restart_safe c = true -> s <= p ->
  s <= e <= length input -> window_find regex input s e p = Some (a, b) ->
  input !! n = Some 10%Z -> a <= n -> b <= S n.
Proof.
  intros Hs Hp Hse (a' & b' & Hf & -> & ->)%shifted_some Hn Ha.
  destruct (decide (s + b' <= S n)) as [|Hlt]; [done|exfalso].
  pose proof (find_bounds (Leftmost := regex_leftmost _) _ _ _ Hf) as Hb. rewrite length_slice in Hb by lia.
  destruct (certified_words _ (Hdenotes _ _ _ _ Hf)) as [Hx _]. apply (Hx Hs). clear Hx.
  destruct (lookup_lt_is_Some_2 (slice (slice input s e) a' b') (n - s - a' + 1)) as [x Hxn].
  { rewrite length_slice; [lia|]. rewrite length_slice; lia. }
  assert (slice (slice input s e) a' b' !! (n - s - a') = Some 10%Z) as Hnl.
  { rewrite slice_lookup by lia. rewrite slice_lookup by lia. rewrite <- Hn. f_equal. lia. }
  exists (take (n - s - a') (slice (slice input s e) a' b')), x,
    (drop (S (S (n - s - a'))) (slice (slice input s e) a' b')).
  rewrite <- (take_drop_middle _ _ _ Hnl) at 1. f_equal. f_equal.
  rewrite Nat.add_1_r in Hxn. by rewrite <- (drop_S _ _ _ Hxn).
Qed.

Lemma length_certificate n haystack p a b : full_match c = Some n ->
  find_at regex haystack p = Some (a, b) -> b - a <= n.
Proof.
  intros Hn Hf. pose proof (find_bounds (Leftmost := regex_leftmost _) _ _ _ Hf).
  destruct (certified_words _ (Hdenotes _ _ _ _ Hf)) as [_ Hl]. specialize (Hl n Hn).
  rewrite length_slice in Hl by lia. lia.
Qed.
End bridge.

(** ** Length properties of an expression

    Bounds that satisfy the laws, computed from the expression. *)

Fixpoint shortest (h : Hir) : nat :=
  match h with
  | Empty | LookAround _ => 0
  | Literal literal => length literal
  | Class _ => 1
  | Repetition min _ sub => min * shortest sub
  | Capture sub => shortest sub
  | Concat parts => fold_right (fun h n => shortest h + n) 0 parts
  | Alternation [] => 0
  | Alternation (h :: parts) => fold_right (fun h n => Nat.min (shortest h) n) (shortest h) parts
  end.

Definition bounded2 (f : nat -> nat -> nat) (a b : option nat) : option nat :=
  match a, b with Some a, Some b => Some (f a b) | _, _ => None end.

Fixpoint longest (h : Hir) : option nat :=
  match h with
  | Empty | LookAround _ => Some 0
  | Literal literal => Some (length literal)
  | Class (BytesClass _) => Some 1
  | Class (UnicodeClass _) => Some 4
  | Repetition _ (Some max) sub => bounded2 Nat.mul (Some max) (longest sub)
  | Repetition _ None sub => None
  | Capture sub => longest sub
  | Concat parts => fold_right (fun h n => bounded2 Nat.add (longest h) n) (Some 0) parts
  | Alternation parts => fold_right (fun h n => bounded2 Nat.max (longest h) n) (Some 0) parts
  end.

Lemma length_concat_ge k ws : (forall w : bytes, In w ws -> k <= length w) -> length ws * k <= length (concat ws).
Proof.
  induction ws as [|w ws IH]; cbn; intros Hw; [lia|]. rewrite length_app.
  pose proof (Hw w (or_introl eq_refl)). specialize (IH ltac:(auto)). lia.
Qed.

Lemma length_concat_le k ws : (forall w : bytes, In w ws -> length w <= k) -> length (concat ws) <= length ws * k.
Proof.
  induction ws as [|w ws IH]; cbn; intros Hw; [lia|]. rewrite length_app.
  pose proof (Hw w (or_introl eq_refl)). specialize (IH ltac:(auto)). lia.
Qed.

Lemma shortest_law h : forall w, consumes h w -> shortest h <= length w.
Proof.
  induction h as [|l|l|c|min max h IH|h IH|parts IH|parts IH] using Hir_nested_ind;
    intros w Hw; inversion Hw; subst; cbn; try lia; auto.
  - unfold encode_utf8. repeat case_match; cbn; lia.
  - match goal with Hl : min <= length ws |- _ => rename Hl into Hmin end.
    pose proof (length_concat_ge (shortest h) ws ltac:(auto)). nia.
  - clear Hw. match goal with Ha : all_consume parts ws |- _ => induction Ha as [|h w parts ws Hc Ha IHa] end; cbn; [lia|].
    apply Forall_cons in IH as [IHh IHp]. rewrite length_app. specialize (IHh w Hc).
    specialize (IHa IHp). lia.
  - match goal with H1 : In _ parts |- _ => rename H1 into Hin end.
    rewrite List.Forall_forall in IH. pose proof (IH _ Hin w ltac:(eassumption)) as Hle.
    destruct parts as [|p parts]; [done|]. etransitivity; [|exact Hle]. clear -Hin.
    induction parts as [|q parts IHp]; cbn in *; [by destruct Hin as [->|[]]|].
    destruct Hin as [->|[->|Hin]]; [specialize (IHp (or_introl eq_refl))|..|specialize (IHp (or_intror Hin))]; lia.
Qed.

Lemma longest_law h : forall w n, longest h = Some n -> consumes h w -> length w <= n.
Proof.
  induction h as [|l|l|c|min max h IH|h IH|parts IH|parts IH] using Hir_nested_ind;
    intros w n Hn Hw; inversion Hw; subst; cbn in *; simplify_eq; cbn; try lia; eauto.
  - unfold encode_utf8. repeat case_match; cbn; lia.
  - destruct max as [m|]; [|done]. destruct (longest h) as [k|] eqn:E; cbn in Hn; [|done]. simplify_eq.
    pose proof (length_concat_le k ws ltac:(eauto)). nia.
  - clear Hw. revert n Hn. match goal with Ha : all_consume parts ws |- _ => induction Ha as [|h w parts ws Hc Ha IHa] end;
      cbn; intros n Hn; simplify_eq; cbn; [lia|].
    apply Forall_cons in IH as [IHh IHp]. rewrite length_app.
    destruct (longest h) as [k|] eqn:E; [|done]. destruct (fold_right _ _ parts) as [m|] eqn:Ef; [|done].
    cbn in Hn. simplify_eq. specialize (IHh w k eq_refl Hc).
    specialize (IHa IHp m eq_refl). lia.
  - match goal with H1 : In ?x parts, H2 : consumes ?x w |- _ => rename x into h, H1 into Hin, H2 into Hc end.
    rewrite List.Forall_forall in IH. specialize (IH _ Hin w). clear Hw. revert n Hn.
    induction parts as [|q parts IHp]; cbn; [done|]. intros n Hn.
    destruct (longest q) as [k|] eqn:E; [|done]. destruct (fold_right _ _ parts) as [m|] eqn:Ef; [|done].
    cbn in Hn. simplify_eq. destruct Hin as [->|Hin]; [specialize (IH k E Hc); lia|].
    specialize (IHp Hin m eq_refl). lia.
Qed.

Lemma length_laws : LengthLaws (fun h => Some (shortest h)) longest.
Proof. split; [intros h n w [= <-]; apply shortest_law|intros; by eapply longest_law]. Qed.

(** ** Properties *)

(** C26. The certificates of an expression hold of every string its matches
    consume: it is not empty, it has no byte after a newline when restarting at
    lines is certified, it is at most the full-match length, and the safe tail is
    that length or bounds what follows an unbounded run that its delimiter ends. *)
Theorem certificates_sound minimum_len maximum_len look_set_is_empty h c w :
  LengthLaws minimum_len maximum_len ->
  compute minimum_len maximum_len look_set_is_empty h = Some c -> consumes h w ->
  w <> [] /\
  (lengths_line_restart_safe c = true -> ~ crosses w) /\
  (forall n, full_match c = Some n -> safe_tail c = Some n /\ length w <= n) /\
  (forall n, safe_tail c = Some n -> full_match c = None -> delimited n w) /\
  lengths_prefix_stable c = look_set_is_empty h.
Proof.
  intros L Hc Hw. destruct (compute_fields _ _ _ _ _ Hc) as (-> & -> & ->).
  unfold compute in Hc. destruct (minimum_len h) as [[|k]|] eqn:Emin; [done| |done].
  pose proof (minimum_law minimum_len maximum_len _ _ _ Emin Hw) as Hk.
  cbn [negb Nat.ltb Nat.leb] in Hc. split_and!; [intros ->; cbn in Hk; lia| | | |done].
  - intros Hs Hx. destruct (newline_shape_sound _ _ L h w Hw) as [_ Hsh]. by rewrite (Hsh Hx) in Hs.
  - intros n Hn. rewrite Hn in Hc. cbn in Hc. simplify_eq. split; [done|]. by eapply maximum_law.
  - intros n Hn Hf. rewrite Hf in Hc. cbn in Hc.
    destruct (delimited_run h) as [[suffix rest]|] eqn:Er; [|by simplify_eq].
    destruct (maximum_len suffix) as [len|] eqn:El; [|done].
    destruct (add_lengths maximum_len len rest) as [len'|] eqn:Ea; [|done].
    simplify_eq/=. by eapply delimited_run_sound.
Qed.

(** [([a-z]+\.com\n)]: an unbounded run, its delimiter and a final newline. *)
Definition example_host : Hir :=
  Capture (Concat [Repetition 1 None (Class (BytesClass [(97, 122)%Z])); Literal (bs ".com"); Literal [10%Z]]).

Lemma certificates_sound_witness :
  compute (fun h => Some (shortest h)) longest (fun _ => true) example_host =
    Some (mkLengths true true (Some 5) None) /\
  delimited 5 (bs "ab.com" ++ [10%Z]).
Proof.
  split; [reflexivity|].
  apply (certificates_sound (fun h => Some (shortest h)) longest (fun _ => true) example_host
    (mkLengths true true (Some 5) None) (bs "ab.com" ++ [10%Z])); [apply length_laws|reflexivity| |done..].
  apply consumes_capture.
  apply (consumes_concat _ [[97; 98]%Z; bs ".com"; [10%Z]]).
  constructor; [|constructor; [apply consumes_literal|constructor; [apply consumes_literal|constructor]]].
  apply (consumes_repetition 1 None _ [[97%Z]; [98%Z]]); [cbn; lia|done|].
  intros w [<-|[<-|[]]]; (apply consumes_byte; [split; lia|reflexivity]).
Defined.
