(* ===== verification/Confirmation.v ===== *)
(** * Candidate confirmation: the candidate loop of
      [kingfisher-scanner/src/scanner.rs] ([Scanner::scan_blob_impl])

    The multi-pattern matcher reports the ends of possible matches; for each the
    rule's regex is searched over a window before it, which doubles while nothing
    is confirmed. Four devices save searches: ends inside an accepted match are
    skipped ([MatchSpans]), an index is built once enough candidates came
    ([CandidateMatchCache]), windows are answered from it ([CandidateMatchIndex]),
    and widening stops when no wider window can confirm
    ([confirmation_needs_wider_window]). The loop is modelled for one rule, whose
    state the code keeps under the rule's key; what it accepts is compared with
    the loop that searches every window up to the start of the input. *)

From Stdlib Require Import ZArith Lia Bool.
From stdpp Require Import base list option gmap.
From S2P Require Import Prelude Control Location Spans Leftmost CandidateIndex.

(** The caches of an index survive the computation that used them. *)
Definition run_ix {A} (m : Ix A) (c : Cache) : Ctl (A * Cache) := fun clock n =>
  match m c clock n with
  | (inl a, c, n) => (inl (a, c), n)
  | (inr e, _, n) => (inr e, n)
  end.

Section rule.
Context {G : Type} (regex : Regex G) (control : ScanControl)
  (endpoint_regex : option (bytes -> nat -> option (nat * nat))) (input : bytes).
(** The certificates of the rule, the first window and whether the candidate
    comes from a prefilter that reports no ends. *)
Context (maximum_len match_maximum_len : option nat) (prefix_stable line_restart_safe : bool)
  (lookback : nat) (uses_prefilter : bool).

(** An accepted capture with the start of the window it was found in. *)
Abbreviation Accepted := (list (nat * Captures G)).

Record RuleState := mkRuleState {
  seen_ends : list nat;
  seen_prefilter : bool;
  previous_full_spans : MatchSpans;
  candidate_index : CandidateMatchCache (Index * Cache);
  accepted : Accepted
}.
Definition rule_state_new : RuleState := mkRuleState [] false [] cache_default [].

(** [if !record_indexed_match(..) { continue; }] for the captures of a window. *)
Definition record_step (start : nat) (st : MatchSpans * Accepted) (c : Captures G)
  : MatchSpans * Accepted :=
  let '(spans, fresh) := spans_insert st.1 (mkSpan (start + (full c).1) (start + (full c).2)) in
  (spans, if fresh then st.2 ++ [(start, c)] else st.2).
Definition record_all (start : nat) (cs : list (Captures G)) (st : MatchSpans * Accepted) :=
  fold_left (record_step start) cs st.

Definition endpoint_regex_of : option (bytes -> nat -> option (nat * nat)) :=
  if prefix_stable then None else endpoint_regex.

Definition is_confirmed (cs : list (Captures G)) : bool :=
  match cs with [] => false | _ => true end.

(** One window, from the index or by searching. *)
Definition confirmed_in (index : option Index) (bounded : bool) (start stop : nat)
  : Ix (list (Captures G)) :=
  match index with
  | Some ix => confirm_window regex control endpoint_regex_of input ix (start, stop)
  | None =>
      let haystack := slice input start stop in
      ix_lift (confirmed_captures regex control bounded start haystack (search regex haystack))
  end.

(** [loop { .. }] over the windows that end at [stop]. *)
Fixpoint confirm_loop (fuel : nat) (index : option Index) (bounded : bool) (start stop : nat)
    (endpoint_match : option bool) (st : MatchSpans * Accepted) : Ix (MatchSpans * Accepted) :=
  match fuel with
  | 0 => ix_ret st
  | S fuel =>
      ix_lift (check control) ;;?
      let haystack := slice input start stop in
      do! confirmed := confirmed_in index bounded start stop in
      let st := record_all start confirmed st in
      let '(endpoint_match, wider) :=
        confirmation_needs_wider_window (find_at regex haystack) (length haystack)
          (Z.of_nat <$> match_maximum_len) (is_confirmed confirmed) start endpoint_match in
      if wider
      then confirm_loop fuel index bounded (stop - (stop - start) * 2) stop endpoint_match st
      else ix_ret st
  end.

(** [candidate_indexes.entry(rule_id).or_default().get_or_try_insert_with(..)]:
    the checks of the builder count when it runs. *)
Definition index_candidate (cm : CandidateMatchCache (Index * Cache))
  : Ctl (CandidateMatchCache (Index * Cache) * option (Index * Cache)) := fun clock n =>
  let '(built, n') := with_control regex control input maximum_len match_maximum_len
                        prefix_stable line_restart_safe clock n in
  let '(cm', r) := get_or_try_insert_with cm (Z.of_nat (length input)) (Z.of_nat lookback)
                     (fun _ => built) in
  match r, index cm with
  | inr e, _ => (inr e, n')
  | inl (Some ix), None => (inl (cm', Some ix), n')
  | inl ix, _ => (inl (cm', ix), n)
  end.

(** The index's caches after a candidate. *)
Definition put_back (cm : CandidateMatchCache (Index * Cache)) (c : Cache)
  : CandidateMatchCache (Index * Cache) :=
  {| candidates := candidates cm;
     index := match index cm with Some (ix, _) => Some (ix, c) | None => None end |}.

Definition no_cache : Cache := mkCache (0, 0) ∅.

Definition with_recorded (rs : RuleState) (st : MatchSpans * Accepted) : RuleState :=
  mkRuleState (seen_ends rs) (seen_prefilter rs) st.1 (candidate_index rs) st.2.

(** One raw match of the rule, which ends at [stop]. *)
Definition raw_match (stop : nat) (rs : RuleState) : Ctl RuleState :=
  check control ;;!
  if uses_prefilter then
    if seen_prefilter rs then ret rs
    else
      let! r := run_ix (confirm_loop 1 None false 0 (length input) None
                          (previous_full_spans rs, accepted rs)) no_cache in
      ret (with_recorded
             (mkRuleState (seen_ends rs) true (previous_full_spans rs) (candidate_index rs)
                (accepted rs)) r.1)
  else if bool_decide (stop ∈ seen_ends rs) then ret rs
  else
    let rs := mkRuleState (stop :: seen_ends rs) (seen_prefilter rs) (previous_full_spans rs)
                (candidate_index rs) (accepted rs) in
    if contains_end (previous_full_spans rs) stop then ret rs
    else
      let start := stop - lookback in
      let! found := index_candidate (candidate_index rs) in
      let! r := run_ix (confirm_loop (S start) (fst <$> found.2) true start stop None
                          (previous_full_spans rs, accepted rs))
                  match found.2 with Some (_, c) => c | None => no_cache end in
      ret (with_recorded
             (mkRuleState (seen_ends rs) (seen_prefilter rs) (previous_full_spans rs)
                (put_back found.1 r.2) (accepted rs)) r.1).

(** The raw matches of the rule, in the order the scan takes them. *)
Definition scan_rule (ends : list nat) : Ctl Accepted :=
  let! rs := for_each ends raw_match rule_state_new in
  ret (accepted rs).

(** ** The plain loop

    Every window is searched, from the first one up to the start of the input,
    until one confirms. *)

Fixpoint widen_search (fuel start stop : nat) : nat * list (Captures G) :=
  let cs := search_window regex input (start, stop) in
  match fuel with
  | 0 => (start, cs)
  | S fuel => if is_confirmed cs || (start =? 0) then (start, cs)
              else widen_search fuel (stop - (stop - start) * 2) stop
  end.

Definition plain_match (st : list nat * (MatchSpans * Accepted)) (stop : nat)
  : list nat * (MatchSpans * Accepted) :=
  if bool_decide (stop ∈ st.1) then st
  else if contains_end st.2.1 stop then (stop :: st.1, st.2)
  else let '(start, cs) := widen_search (stop - lookback) (stop - lookback) stop in
       (stop :: st.1, record_all start cs st.2).

Definition plain_scan (ends : list nat) : Accepted :=
  if uses_prefilter
  then match ends with [] => [] | _ => (record_all 0 (captures_iter regex input) ([], [])).2 end
  else (fold_left plain_match ends ([], ([], []))).2.2.
End rule.

(** ** Windows *)

Section windows.
Context {G : Type} (regex : Regex G) (control : ScanControl).

Lemma search_drained rest : forall fuel bounded start len out, length rest < fuel ->
  csat control (confirmed_loop regex control fuel bounded start len (Search rest) out)
    (fun cs => cs = out ++ List.filter (endpoint_capture bounded start len) rest).
Proof.
  induction rest as [|c rest IH]; intros [|fuel] bounded start len out Hf; cbn in Hf; try lia;
    cbn [confirmed_loop]; eapply csat_bind.
  - apply (csat_bind _ _ _ (fun _ => True) (fun r => r = (None, Search []))); [by apply csat_check|].
    intros _ _. by apply csat_ret.
  - intros r ->. apply csat_ret. cbn. by rewrite app_nil_r.
  - apply (csat_bind _ _ _ (fun _ => True) (fun r => r = (Some c, Search rest))); [by apply csat_check|].
    intros _ _. by apply csat_ret.
  - intros r ->. cbn [fst snd]. eapply csat_bind; [by apply (csat_check _ (fun _ => True))|].
    intros _ _. eapply csat_weaken; [apply IH; lia|]. intros cs ->. cbn.
    by destruct (endpoint_capture bounded start len c); [rewrite <- app_assoc|].
Qed.

Lemma filter_unbounded (cs : list (Captures G)) start len :
  List.filter (endpoint_capture false start len) cs = cs.
Proof. apply filter_all_true. intros c _. done. Qed.
End windows.

Section exact.
Context {G : Type} (regex : Regex G) `{!RegexLaws regex} (control : ScanControl)
  (endpoint_regex : option (bytes -> nat -> option (nat * nat))) (input : bytes).
Context (maximum_len match_maximum_len : option nat) (prefix_stable line_restart_safe : bool)
  (lookback : nat) (uses_prefilter : bool).
Notation n := (length input).
Context (C : Certified regex input (0, n) maximum_len match_maximum_len prefix_stable
  line_restart_safe (endpoint_regex_of endpoint_regex prefix_stable)).

(** A search that starts a character or more after the window's start does not
    see where the window starts. *)
Definition left_context : Prop := forall s s' e q, s' <= s -> s + MAX_UTF8_CHAR_LEN <= q ->
  s <= e <= n -> window_find regex input s e q = window_find regex input s' e q.

Context (Hleft : left_context) (Husize : (Z.of_nat n < USIZE_MAX - 4)%Z).
Notation F := (window_find regex input).
Notation Inv := (Inv regex input 0 n).
Notation ok := (ok regex control input 0 n).

Lemma window_search s e : s <= e <= n -> Leftmost (F s e) e.
Proof. apply (window_leftmost regex input 0 n). lia. Qed.

Lemma searched (s e : nat) : s <= e <= n ->
  csat control (confirmed_captures regex control true s (slice input s e) (search regex (slice input s e)))
    (fun cs => cs = search_window regex input (s, e)).
Proof. intros Hse. eapply csat_weaken; [apply search_drained; cbn; lia|]. done. Qed.

(** ** Widening *)

(** Some search in reach of the length bound selects a match that ends at [e]. *)
Definition selects (len e : nat) : Prop := exists q a, e - len <= q /\ F 0 e q = Some (a, e).

Lemma confirmed_selects len s e c : match_maximum_len = Some len -> s <= e <= n ->
  In c (search_window regex input (s, e)) ->
  exists a, e - len <= a /\ F s e a = Some (a, e).
Proof.
  intros Hlen Hse Hin. unfold search_window in Hin. cbn [fst snd] in Hin.
  apply List.filter_In in Hin as [Hin Hend]. apply in_map_iff in Hin as (m & <- & Hm).
  pose proof (regex_leftmost (slice input s e)) as L. pose proof (length_slice input s e ltac:(lia)) as Hl.
  assert (m.2 = length (slice input s e)) as Em.
  { unfold endpoint_capture in Hend. cbn [full capture andb] in Hend.
    apply negb_true_iff, orb_false_iff in Hend as [_ Hend%negb_false_iff%Nat.eqb_eq]. done. }
  assert (exists p, find_at regex (slice input s e) p = Some m) as [p Hp].
  { pose proof (regex_iter (slice input s e)) as Hi. revert Hm. clear -Hi.
    induction Hi as [|p a b l Hf _ IH]; cbn; [done|]. intros [<-|Hin]; [eauto|by apply IH]. }
  destruct m as [a b]. cbn in Em. subst b. pose proof (find_bounds _ _ _ Hp).
  pose proof (cert_length C len _ _ _ _ Hlen Hp).
  exists (s + a). split; [lia|]. apply shifted_some. exists a, (length (slice input s e)).
  split; [|lia]. replace (s + a - s) with a by lia. eapply find_restart; [done|lia].
Qed.

(** In a window that holds the bound and its context, the selecting searches are
    those of every wider window. *)
Lemma selects_window len s e : len + MAX_UTF8_CHAR_LEN < e - s -> s <= e <= n ->
  selects len e <->
  exists q a, (e - s) - len <= q /\ find_at regex (slice input s e) q = Some (a, e - s).
Proof.
  intros Hlen Hse. unfold MAX_UTF8_CHAR_LEN in Hlen. split.
  - intros (q & a & Hq & Hf). rewrite <- (Hleft s 0 e q) in Hf by (unfold MAX_UTF8_CHAR_LEN; lia).
    apply shifted_some in Hf as (a' & b' & Hf & -> & Hb). exists (q - s), a'. split; [lia|].
    rewrite Hf. repeat f_equal. lia.
  - intros (q & a & Hq & Hf). exists (s + q), (s + a). split; [lia|].
    rewrite <- (Hleft s 0 e (s + q)) by (unfold MAX_UTF8_CHAR_LEN; lia).
    apply shifted_some. exists a, (e - s). replace (s + q - s) with q by lia. split; [done|lia].
Qed.

(** Without such a search no wider window confirms. *)
Lemma unselected_windows len s s' e : match_maximum_len = Some len ->
  len + MAX_UTF8_CHAR_LEN < e - s -> s' <= s -> s <= e <= n ->
  ~ selects len e -> search_window regex input (s', e) = [].
Proof.
  intros Hlen Hc Hs Hse Hno. destruct (search_window regex input (s', e)) as [|c cs] eqn:E; [done|].
  destruct (confirmed_selects len s' e c Hlen ltac:(lia)) as (a & Ha & Hf); [rewrite E; by left|].
  exfalso. apply Hno. exists a, a. split; [lia|].
  rewrite <- (Hleft s' 0 e a) by (unfold MAX_UTF8_CHAR_LEN in *; lia). done.
Qed.

(** The verdict of a window: whether widening goes on, and what is cached. *)
Definition verdict_ok (e : nat) (v : option bool) : Prop :=
  forall b, v = Some b -> exists len, match_maximum_len = Some len /\ (b = true <-> selects len e).

Lemma wider_spec s e (cs : list (Captures G)) em : s <= e <= n -> verdict_ok e em ->
  let '(em', wider) := confirmation_needs_wider_window (find_at regex (slice input s e))
      (length (slice input s e)) (Z.of_nat <$> match_maximum_len) (is_confirmed cs) s em in
  verdict_ok e em' /\
  (is_confirmed cs || (s =? 0) = true -> wider = false) /\
  (is_confirmed cs || (s =? 0) = false -> wider = false -> exists len, match_maximum_len = Some len /\
     len + MAX_UTF8_CHAR_LEN < e - s /\ ~ selects len e).
Proof.
  intros Hse Hem. unfold confirmation_needs_wider_window. rewrite length_slice by lia.
  destruct (is_confirmed cs || (s =? 0)); [done|].
  case_eq match_maximum_len; [intros len Hlen|by split]. cbn.
  unfold bounded_endpoint_can_match, saturating_add, Spans.MAX_UTF8_CHAR_LEN.
  destruct (Z.leb_spec (Z.of_nat (e - s)) (Z.min USIZE_MAX (Z.of_nat len + 4))) as [|Hlt]; [by split|].
  assert (len + MAX_UTF8_CHAR_LEN < e - s) as Hw by (unfold MAX_UTF8_CHAR_LEN; lia).
  destruct em as [v|].
  - split; [done|split; [done|]]. intros _ ->. destruct (Hem false eq_refl) as (len' & El & Hv).
    assert (len' = len) as -> by congruence.
    exists len. split; [done|]. split; [done|]. intros Hs. apply Hv in Hs. done.
  - rewrite Nat2Z.id. pose proof (regex_leftmost (slice input s e)) as L.
    rewrite length_slice in L by lia.
    assert (endpoint_loop (find_at regex (slice input s e)) (e - s) (S (e - s)) (e - s - len) = true <->
            selects len e) as He.
    { rewrite selects_window by done. apply endpoint_loop_exact; try lia.
      - intros p a b Hf. apply L in Hf. lia.
      - intros p q a b Hf Hq. by eapply (find_restart (Leftmost := L)).
      - intros p q Hf Hq. by eapply (find_none (Leftmost := L)). }
    split; [|split; [done|]].
    + intros b [= <-]. eauto.
    + intros _ Hv. exists len. split; [done|]. split; [done|]. intros Hs. apply He in Hs. congruence.
Qed.
(** ** The loop of a candidate *)

Notation built := (new_in_range_with_maximum_len regex input (0, n) maximum_len match_maximum_len
  prefix_stable line_restart_safe).
Notation widen := (widen_search regex input).

Definition index_ok (ix : option Index) : Prop := ix = None \/ ix = Some built.1.

Lemma confirmed_in_ok ix s e : index_ok ix -> s <= e <= n ->
  ok (confirmed_in regex control endpoint_regex input prefix_stable ix true s e)
    (fun cs => cs = search_window regex input (s, e)).
Proof.
  intros [->| ->] Hse; cbn [confirmed_in].
  - apply ok_lift. by apply searched.
  - apply (confirm_any regex control input 0 n maximum_len match_maximum_len prefix_stable
      line_restart_safe _ ltac:(lia) C _ eq_refl). done.
Qed.

Lemma unselected_widen len s e : match_maximum_len = Some len ->
  len + MAX_UTF8_CHAR_LEN < e - s -> s <= e <= n -> ~ selects len e ->
  forall fuel s', s' <= s -> (widen fuel s' e).2 = [].
Proof.
  intros Hlen Hw Hse Hno. induction fuel as [|fuel IH]; intros s' Hs; cbn [widen_search];
    rewrite (unselected_windows len s s' e Hlen Hw Hs Hse Hno); [done|].
  cbn [is_confirmed orb]. destruct (s' =? 0); [done|]. apply IH. lia.
Qed.

Lemma confirm_loop_ok ix e : index_ok ix -> e <= n -> forall fuel s em st,
  s <= fuel -> s <= e -> (s = 0 \/ s < e) -> verdict_ok e em ->
  ok (confirm_loop regex control endpoint_regex input match_maximum_len prefix_stable
        (S fuel) ix true s e em st)
     (fun r => r = record_all (widen fuel s e).1 (widen fuel s e).2 st).
Proof.
  intros Hix He. induction fuel as [|fuel IH]; intros s em st Hs Hse Hne Hem.
  all: cbn [confirm_loop]; eapply ok_bind; [apply ok_check|]; intros _ _; cbv zeta;
    eapply ok_bind; [by apply confirmed_in_ok|]; intros cs Hcs; cbn beta in Hcs.
  all: pose proof (wider_spec s e cs em ltac:(lia) Hem) as Hv;
    destruct (confirmation_needs_wider_window _ _ _ _ _ _) as [em' wider]; destruct Hv as (Hem' & Hstop & Hgo).
  - assert (s = 0) as -> by lia. rewrite Hstop by (by rewrite orb_true_r). cbn [widen_search fst snd].
    apply ok_ret. by rewrite Hcs.
  - cbn [widen_search]. rewrite <- Hcs. destruct (is_confirmed cs || (s =? 0)) eqn:E.
    { rewrite Hstop by done. by apply ok_ret. }
    apply orb_false_iff in E as [Ec Es%Nat.eqb_neq]. destruct cs as [|c cs]; [|done]. cbn [record_all fold_left].
    destruct wider.
    + apply IH; [lia|lia|lia|done].
    + apply ok_ret. destruct (Hgo eq_refl eq_refl) as (len & Hlen & Hw & Hno).
      rewrite (unselected_widen len s e Hlen Hw ltac:(lia) Hno) by lia. done.
Qed.

(** ** The raw matches of the rule *)

Notation raw := (raw_match regex control endpoint_regex input maximum_len match_maximum_len
  prefix_stable line_restart_safe lookback uses_prefilter).
Notation plain := (plain_match regex input lookback).
Context (Hlookback : 0 < lookback).

Definition cache_ok (cm : CandidateMatchCache (Index * Cache)) : Prop :=
  match index cm with Some (ix, c) => ix = built.1 /\ Inv c | None => True end.

Lemma run_ix_csat {A} (m : Ix A) (Q : A -> Prop) c : ok m Q -> Inv c ->
  csat control (run_ix m c) (fun r => Q r.1 /\ Inv r.2).
Proof.
  intros Hm Hc clock k. unfold run_ix. specialize (Hm c clock k Hc).
  destruct (m c clock k) as [[[a|e] c'] k']; cbn; [by destruct Hm|by destruct Hm].
Qed.

Lemma no_cache_ok : Inv no_cache.
Proof. split; [by left|]. intros p l q Hq. cbn in Hq. by rewrite lookup_empty in Hq. Qed.

Lemma index_candidate_csat cm : cache_ok cm ->
  csat control (index_candidate regex control input maximum_len match_maximum_len prefix_stable
                  line_restart_safe lookback cm)
    (fun r => cache_ok r.1 /\ match r.2 with Some (ix, c) => ix = built.1 /\ Inv c | None => True end).
Proof.
  intros Hcm clock k. unfold index_candidate.
  pose proof (with_control_refines regex control input maximum_len match_maximum_len prefix_stable
    line_restart_safe clock k) as Hb.
  destruct (with_control _ _ _ _ _ _ _ clock k) as [b k']. cbn in Hb.
  unfold get_or_try_insert_with. unfold cache_ok in Hcm. destruct (index cm) as [[ix c]|] eqn:Ei.
  - cbn. done.
  - destruct (_ && _).
    + destruct Hb as [->|[Hl [e ->]]]; [|exact Hl].
      pose proof (Inv_new regex input 0 n maximum_len match_maximum_len prefix_stable line_restart_safe) as HI.
      split; (split; [done|exact HI]).
    + cbn. by unfold cache_ok.
Qed.

(** The state of the rule next to that of the plain loop. *)
Definition simulates (rs : RuleState) (st : list nat * (MatchSpans * list (nat * Captures G))) : Prop :=
  seen_ends rs = st.1 /\ (previous_full_spans rs, accepted rs) = st.2 /\ cache_ok (candidate_index rs).

Lemma raw_match_simulates stop rs st : uses_prefilter = false -> stop <= n ->
  simulates rs st -> csat control (raw stop rs) (fun rs' => simulates rs' (plain st stop)).
Proof.
  intros Hp Hstop (Hseen & Hst & Hcm). unfold raw_match. rewrite Hp.
  eapply csat_bind; [by apply (csat_check _ (fun _ => True))|]. intros _ _.
  unfold plain_match. rewrite Hseen. destruct (bool_decide (stop ∈ st.1)); [by apply csat_ret|].
  cbn [previous_full_spans accepted candidate_index].
  rewrite <- Hst. cbn [fst snd]. destruct (contains_end (previous_full_spans rs) stop).
  { apply csat_ret. by split_and!. }
  eapply csat_bind; [by apply index_candidate_csat|]. intros [cm ix] [Hcm' Hixc]. cbn [fst snd] in *.
  eapply csat_bind.
  - apply run_ix_csat; [apply (confirm_loop_ok _ stop); [|done|done|lia|lia|done]|].
    + destruct ix as [[ix c]|]; [right; by destruct Hixc as [-> _]|by left].
    + destruct ix as [[ix c]|]; [apply Hixc|apply no_cache_ok].
  - intros [r c] [-> Hc]. apply csat_ret. cbn [fst snd].
    destruct (widen_search _ _ _ _ _) as [start cs]. split_and!; [done| |].
    + exact (eq_sym (surjective_pairing _)).
    + unfold cache_ok, put_back in *. cbn. destruct (index cm) as [[ix' c']|]; [|done].
      split; [apply Hcm'|done].
Qed.
Lemma raw_matches_simulate ends : uses_prefilter = false -> Forall (fun stop => stop <= n) ends ->
  forall rs st, simulates rs st ->
  csat control (for_each ends raw rs) (fun rs' => simulates rs' (fold_left plain ends st)).
Proof.
  intros Hp. induction 1 as [|stop ends Hs _ IH]; intros rs st Hst; cbn [for_each fold_left].
  - by apply csat_ret.
  - eapply csat_bind; [by apply raw_match_simulates|]. intros rs' Hrs'. by apply IH.
Qed.

(** *** Prefiltered rules *)

Lemma prefilter_seen ends rs : uses_prefilter = true -> seen_prefilter rs = true ->
  csat control (for_each ends raw rs) (fun rs' => rs' = rs).
Proof.
  intros Hp Hs. induction ends as [|stop ends IH]; cbn [for_each]; [by apply csat_ret|].
  apply (csat_bind _ _ _ (fun rs' => rs' = rs)); [|by intros ? ->].
  unfold raw_match. rewrite Hp, Hs. eapply csat_bind; [by apply (csat_check _ (fun _ => True))|].
  intros _ _. by apply csat_ret.
Qed.

Lemma prefilter_first stop rs : uses_prefilter = true -> seen_prefilter rs = false ->
  csat control (raw stop rs) (fun rs' => seen_prefilter rs' = true /\
    accepted rs' = (record_all 0 (captures_iter regex input) (previous_full_spans rs, accepted rs)).2).
Proof.
  intros Hp Hs. unfold raw_match. rewrite Hp, Hs.
  eapply csat_bind; [by apply (csat_check _ (fun _ => True))|]. intros _ _.
  eapply csat_bind.
  - apply run_ix_csat with (Q := fun r => r = record_all 0 (captures_iter regex input)
      (previous_full_spans rs, accepted rs)); [|apply no_cache_ok].
    cbn [confirm_loop]. eapply ok_bind; [apply ok_check|]. intros _ _. cbv zeta.
    rewrite slice_full. eapply ok_bind.
    + cbn [confirmed_in]. rewrite slice_full. apply ok_lift, search_drained. cbn. lia.
    + intros cs Hcs. cbn beta in Hcs. rewrite filter_unbounded in Hcs. cbn [app] in Hcs. subst cs.
      unfold confirmation_needs_wider_window. cbn [Nat.eqb]. rewrite orb_true_r. by apply ok_ret.
  - intros [r c] [-> _]. by apply csat_ret.
Qed.
End exact.

Lemma csat_refines_eq {A} control (m : Ctl A) p : csat control m (fun a => a = p) -> refines control m p.
Proof.
  intros H clock k. specialize (H clock k). destruct (fst (m clock k)) as [a|e]; [left; by subst|right; eauto].
Qed.

(** ** Properties *)

(** C10. For every sequence of raw matches, a rule accepts exactly the captures
    that it would accept by searching, for each candidate end, all the windows up
    to the start of the input until one confirms: the index, its caches, the
    moment it is built and the early end of widening change nothing, and the loop
    ends. A control can only abort it. Assumed: the regex searches leftmost
    ([RegexLaws]); the certificates that [RulesDatabase] computes hold of it on this
    input ([Certified]), where an assertion reads nothing past a border of a window;
    and a search that starts a character or more after the start of a window does not
    see where the window starts ([left_context]). *)
Theorem confirmation_accelerators_invisible {G} (regex : Regex G) (control : ScanControl)
    endpoint_regex input maximum_len match_maximum_len prefix_stable line_restart_safe
    lookback uses_prefilter ends :
  RegexLaws regex ->
  Certified regex input (0, length input) maximum_len match_maximum_len prefix_stable
    line_restart_safe (endpoint_regex_of endpoint_regex prefix_stable) ->
  left_context regex input -> (Z.of_nat (length input) < USIZE_MAX - 4)%Z -> 0 < lookback ->
  Forall (fun stop => stop <= length input) ends ->
  refines control
    (scan_rule regex control endpoint_regex input maximum_len match_maximum_len prefix_stable
       line_restart_safe lookback uses_prefilter ends)
    (plain_scan regex input lookback uses_prefilter ends).
Proof.
  intros R C Hleft Husize Hlook Hends. unfold scan_rule, plain_scan.
  apply csat_refines_eq. destruct uses_prefilter.
  - destruct ends as [|stop ends]; cbn [for_each].
    { eapply csat_bind; [by apply (csat_ret _ _ (fun rs => rs = rule_state_new))|].
      intros rs ->. by apply csat_ret. }
    eapply csat_bind with (P := fun rs => accepted rs = (record_all 0 (captures_iter regex input) ([], [])).2).
    + eapply csat_bind; [by apply prefilter_first|]. intros rs [Hs Ha].
      eapply csat_weaken; [by apply prefilter_seen|]. by intros ? ->.
    + intros rs Ha. by apply csat_ret.
  - eapply csat_bind.
    + apply (raw_matches_simulate regex control endpoint_regex input maximum_len match_maximum_len
        prefix_stable line_restart_safe lookback false C Hleft Husize Hlook ends eq_refl Hends
        rule_state_new ([], ([], []))). by split_and!.
    + intros rs (_ & Hst & _). apply csat_ret. by rewrite <- Hst.
Qed.

Lemma confirmation_accelerators_invisible_witness :
  let input := bs "ab.ab.ab.ab.ab.ab.ab.ab.ab.ab.ab.ab.ab.ab.ab.ab.ab.ab.ab.ab" in
  let regex := literal (bs "ab") in
  let ends := map (fun k => 3 * k + 2) (rev (seq 0 20)) ++ [4; 5] in
  map (fun a => (a.1 + (full a.2).1, a.1 + (full a.2).2)) (plain_scan regex input 1 false ends) =
    map (fun k => (3 * k, 3 * k + 2)) (rev (seq 0 20)) /\
  refines control_default
    (scan_rule regex control_default (Some (literal_endpoint (bs "ab"))) input
       (Some 2) (Some 2) false true 1 false ends)
    (plain_scan regex input 1 false ends).
Proof.
  cbv zeta. split; [vm_compute; reflexivity|].
  apply (confirmation_accelerators_invisible (literal (bs "ab")) control_default
    (Some (literal_endpoint (bs "ab"))) _ (Some 2) (Some 2) false true 1 false).
  - apply literal_laws; cbv; intuition discriminate.
  - apply (literal_certified (bs "ab")); [discriminate|intros H; cbv in H; intuition discriminate|cbn; lia].
  - intros s s' e q Hs Hq Hse. unfold MAX_UTF8_CHAR_LEN in Hq. 
    apply (literal_window_start (bs "ab")); [discriminate|intros H; cbv in H; intuition discriminate|lia|exact Hse].
  - reflexivity.
  - lia.
  - repeat constructor; cbn; lia.
Defined.
