(* ===== verification/Expr.v ===== *)
(** * Betterleaks expressions

    The syntax tree [BetterleaksExpr] of [kingfisher-rules/src/rule.rs], the names
    calls go by, the patterns and variables collected from a tree, and the
    validators of [build_support/betterleaks.rs] that every expression parsed from
    a rule passes. A Rust [String] is its UTF-8 bytes; [l is "x"] compares it with
    a literal. *)

From Stdlib Require Import ZArith Lia Bool.
From stdpp Require Import base list numbers option gmap sets.
From S2P Require Import Prelude Text.

(** [matches!(name, "a" | "b" | ..)] *)
Notation "l 'is' s" := (bytes_eqb l (bs s)) (at level 70, no associativity) : kf_scope.
Definition one_of (l : bytes) (names : list string) : bool := existsb (fun s => l is s) names.

Inductive BetterleaksExpr : Type :=
  | Nil
  | Identifier (value : bytes)
  | Integer (value : Z)
  | Float (value : bytes)
  | Bool (value : bool)
  | String (value : bytes)
  | Unary (operator : bytes) (node : BetterleaksExpr)
  | Binary (operator : bytes) (left right : BetterleaksExpr)
  | Chain (node : BetterleaksExpr)
  | Member (node property : BetterleaksExpr) (optional method : bool)
  | Slice (node from to : BetterleaksExpr)
  | Call (callee : BetterleaksExpr) (arguments : list BetterleaksExpr)
  | Builtin (name : bytes) (arguments : list BetterleaksExpr)
  | Conditional (cond exp1 exp2 : BetterleaksExpr)
  | VariableDeclarator (name : bytes) (value expr : BetterleaksExpr)
  | Sequence (nodes : list BetterleaksExpr)
  | Array (nodes : list BetterleaksExpr)
  | Map (pairs : list BetterleaksExpr)
  | Pair (key value : BetterleaksExpr)
  | Predicate (node : BetterleaksExpr)
  | Pointer (name : bytes).

(** Induction with the hypothesis for every child, also those in lists. *)
Section expr_ind.
Context (P : BetterleaksExpr -> Prop).

Definition children (e : BetterleaksExpr) : list BetterleaksExpr :=
  match e with
  | Nil | Identifier _ | Integer _ | Float _ | Bool _ | String _ | Pointer _ => []
  | Unary _ node | Chain node | Predicate node => [node]
  | Binary _ lhs rhs => [lhs; rhs]
  | Member node property _ _ => [node; property]
  | Slice node from to => [node; from; to]
  | Call callee arguments => callee :: arguments
  | Builtin _ nodes | Sequence nodes | Array nodes | Map nodes => nodes
  | Conditional cond exp1 exp2 => [cond; exp1; exp2]
  | VariableDeclarator _ value expr => [value; expr]
  | Pair key value => [key; value]
  end.

Hypothesis step : forall e, Forall P (children e) -> P e.

Lemma expr_nested_ind e : P e.
Proof using step.
  revert e. fix IH 1. intros e. apply step.
  assert (forall l, Forall P l) as Hl.
  { fix IHl 1. intros [|x l]; constructor; [apply IH|apply IHl]. }
  destruct e; cbn; repeat constructor; try apply IH; apply Hl.
Qed.
End expr_ind.

(** ** Names of calls *)

Fixpoint expression_name (expression : BetterleaksExpr) : option bytes :=
  match expression with
  | Identifier value => Some value
  | Member node property _ _ =>
    match expression_name node with
    | None => None
    | Some parent =>
      match property with String value => Some (parent ++ bs "." ++ value) | _ => None end
    end
  | _ => None
  end.

(** [name.rsplit('.').next()]: what follows the last dot. *)
Fixpoint rsplit_dot (l : bytes) : bytes :=
  match l with
  | [] => []
  | b :: r => if existsb (Z.eqb (bc ".")) r then rsplit_dot r else if b ==? bc "." then r else l
  end.

(** ** Environment variables a program asks for *)

Section env_input_vars.
(** [env.get("NAME")], the argument if the call is one. *)
Definition env_get (e : BetterleaksExpr) : list bytes :=
  match e with
  | Call (Member (Identifier env) (String get) _ _) [String value] =>
    if (env is "env") && (get is "get") then [value] else []
  | _ => []
  end.

(** The work list: a popped node pushes its children. *)
Fixpoint env_loop (fuel : nat) (nodes : list BetterleaksExpr) (vars : list bytes) : list bytes :=
  match fuel, nodes with
  | S fuel, node :: nodes => env_loop fuel (rev (children node) ++ nodes) (env_get node ++ vars)
  | _, _ => vars
  end.
End env_input_vars.

(** How many nodes an expression has; a round of the work list pops one. *)
Fixpoint nodes_of (e : BetterleaksExpr) : nat :=
  let all := fix all (l : list BetterleaksExpr) : nat := match l with [] => 0 | x :: l => nodes_of x + all l end in
  S match e with
  | Nil | Identifier _ | Integer _ | Float _ | Bool _ | String _ | Pointer _ => 0
  | Unary _ node | Chain node | Predicate node => nodes_of node
  | Binary _ a b | Member a b _ _ | VariableDeclarator _ a b | Pair a b => nodes_of a + nodes_of b
  | Slice a b c | Conditional a b c => nodes_of a + nodes_of b + nodes_of c
  | Call callee arguments => nodes_of callee + all arguments
  | Builtin _ nodes | Sequence nodes | Array nodes | Map nodes => all nodes
  end.

(** The [BTreeSet] as the set of its elements. *)
Definition env_input_vars (e : BetterleaksExpr) : gset bytes :=
  list_to_set (env_loop (nodes_of e) [e] []).

(** ** What a filter may call

    [Ok(())] is [true]. *)

Definition HELPERS : list string :=
  ["filter.matchesAny"; "filter.findMatch"; "filter.containsAny"; "filter.entropy"; "filter.tokenRatio";
   "filter.failsTokenEfficiency"; "filter.setConfidence"]%string.

Definition METHODS : list string :=
  ["contains"; "startsWith"; "endsWith"; "substring"; "lastIndexOf"; "replace"]%string.

Definition FUNCTIONS : list string :=
  ["matchesAny"; "malformedPrivateKey"; "findMatch"; "containsAny"; "startsWithAny"; "intersects"; "entropy";
   "tokenRatio"; "failsTokenEfficiency"; "setConfidence"; "len"; "size"; "max"; "min"; "split"; "join"; "lower";
   "upper"; "trim"; "trimPrefix"; "trimSuffix"; "repeat"; "indexOf"; "lastIndexOf"; "hasPrefix"; "hasSuffix";
   "keys"; "values"; "reverse"; "sort"; "uniq"; "flatten"; "concat"; "first"; "last"; "get"; "sum"; "mean"; "abs";
   "ceil"; "floor"; "round"; "type"; "string"; "int"; "float"; "toJSON"; "fromJSON"; "fromBase64"]%string.

Definition BUILTINS : list string :=
  ["any"; "all"; "none"; "one"; "map"; "filter"; "find"; "findLast"; "findIndex"; "findLastIndex"; "count";
   "lastIndexOf"; "replace"]%string.

Definition UNARY_OPERATORS : list string := ["!"; "not"; "-"]%string.

Definition BINARY_OPERATORS : list string :=
  ["||"; "or"; "&&"; "and"; "??"; "=="; "!="; "<"; "<="; ">"; ">="; "+"; "-"; "*"; "/"; "%"; "contains"; "in";
   "startsWith"; "endsWith"; "matches"; ".."; "**"; "^"]%string.

(** The callee is called as a method: [a.b(..)]. *)
Definition is_method (callee : BetterleaksExpr) : bool :=
  match callee with Member _ _ _ true => true | _ => false end.

Definition filter_call_supported (callee : BetterleaksExpr) (name : bytes) : bool :=
  if is_method callee then
    if starts_with (bs "filter.") name then one_of name HELPERS
    else (name is "crypto.sha256") || one_of (rsplit_dot name) METHODS
  else one_of name FUNCTIONS.

Fixpoint validate_filter_expression (expression : BetterleaksExpr) : bool :=
  match expression with
  | Call callee arguments =>
    match expression_name callee with
    | None => false
    | Some name =>
      filter_call_supported callee name && validate_filter_expression callee &&
      forallb validate_filter_expression arguments
    end
  | Builtin name arguments => one_of name BUILTINS && forallb validate_filter_expression arguments
  | Unary operator node => one_of operator UNARY_OPERATORS && validate_filter_expression node
  | Predicate node | Chain node => validate_filter_expression node
  | Binary operator lhs rhs =>
    one_of operator BINARY_OPERATORS && validate_filter_expression lhs && validate_filter_expression rhs
  | Member node property _ _ => validate_filter_expression node && validate_filter_expression property
  | Slice node from to =>
    validate_filter_expression node && validate_filter_expression from && validate_filter_expression to
  | Conditional cond exp1 exp2 =>
    validate_filter_expression cond && validate_filter_expression exp1 && validate_filter_expression exp2
  | VariableDeclarator _ value expr => validate_filter_expression value && validate_filter_expression expr
  | Array nodes | Map nodes | Sequence nodes => forallb validate_filter_expression nodes
  | Pair key value => validate_filter_expression key && validate_filter_expression value
  | Nil | Identifier _ | Integer _ | Float _ | Bool _ | String _ | Pointer _ => true
  end.

(** ** What a validation, an analysis or a revocation may call *)

Definition PROVIDER_METHODS : list string :=
  ["http.get"; "http.post"; "validate.unknown"; "bytes"; "size"; "substring"; "base64.encode"; "base64.decode";
   "hex.encode"; "crypto.sha1"; "crypto.sha256"; "crypto.md5"; "crypto.hmacSha1"; "crypto.hmacSha256";
   "strings.urlQueryEscape"; "strings.splitTrim"; "strings.obfuscate"; "json.string"; "time.nowUnix";
   "time.nowRFC3339"; "env.getOrDefault"; "env.get"; "filter.matchesAny"; "aws.validate"; "gcp.validate";
   "azure.validateStorage"; "azure.validateServicePrincipal"; "azure.validateAppConfig";
   "azure.validateServiceBusSAS"]%string.

Definition PROVIDER_FUNCTIONS : list string :=
  ["bytes"; "size"; "substring"; "toJSON"; "type"; "string"; "int"; "len"; "trim"; "split"; "matchesAny";
   "containsAny"; "startsWithAny"; "entropy"; "tokenRatio"; "failsTokenEfficiency"; "findMatch"; "intersects";
   "flatten"; "sort"; "uniq"; "concat"; "last"; "lower"; "upper"; "join"; "keys"; "values"; "get"; "fromJSON";
   "trimPrefix"; "trimSuffix"; "repeat"; "indexOf"; "hasPrefix"; "hasSuffix"; "reverse"; "first"; "sum"; "min";
   "max"; "mean"; "abs"; "ceil"; "floor"; "round"]%string.

Definition provider_call_supported (callee : BetterleaksExpr) (name : bytes) (revoke analyze : bool) : bool :=
  (revoke && one_of name ["http.delete"; "revoke.unknown"]%string) ||
  (analyze && (name is "analysis.capabilities")) ||
  (if is_method callee then
     one_of (rsplit_dot name) ["contains"; "split"]%string || one_of name PROVIDER_METHODS
   else one_of name PROVIDER_FUNCTIONS).

Fixpoint validate_provider_expression (revoke analyze : bool) (expression : BetterleaksExpr) : bool :=
  let validate := validate_provider_expression revoke analyze in
  match expression with
  | Call callee arguments =>
    match expression_name callee with
    | None => false
    | Some name =>
      provider_call_supported callee name revoke analyze && validate callee && forallb validate arguments
    end
  | Builtin name arguments => one_of name BUILTINS && forallb validate arguments
  | Unary operator node => one_of operator UNARY_OPERATORS && validate node
  | Binary operator lhs rhs => one_of operator BINARY_OPERATORS && validate lhs && validate rhs
  | Predicate node | Chain node => validate node
  | Member node property _ _ => validate node && validate property
  | Slice node from to => validate node && validate from && validate to
  | Conditional cond exp1 exp2 => validate cond && validate exp1 && validate exp2
  | VariableDeclarator _ value expr => validate value && validate expr
  | Array nodes | Map nodes | Sequence nodes => forallb validate nodes
  | Pair key value => validate key && validate value
  | Nil | Identifier _ | Integer _ | Float _ | Bool _ | String _ | Pointer _ => true
  end.

Definition validate_validation_expression : BetterleaksExpr -> bool := validate_provider_expression false false.
Definition validate_revocation_expression : BetterleaksExpr -> bool := validate_provider_expression true false.
Definition validate_analysis_expression : BetterleaksExpr -> bool := validate_provider_expression false true.

(** ** Rules put together *)

Definition combine_filters (filters : list (option BetterleaksExpr)) : option BetterleaksExpr :=
  match omap id filters with
  | [] => None
  | first :: rest => Some (fold_left (fun lhs rhs => Binary (bs "||") lhs rhs) rest first)
  end.

(** The variable a component's value is bound to; the bytes after the first of a
    character are skipped. *)
Definition component_variable (id : bytes) : bytes :=
  omap (fun b =>
    if 128 ≤? b ≤? 191 then None
    else Some (if is_ascii_alphanumeric b then if is_ascii_lower b then (b - 32)%Z else b else bc "_")) id.

(** ** The work list visits every node *)

Inductive subexpr : BetterleaksExpr -> BetterleaksExpr -> Prop :=
  | subexpr_refl e : subexpr e e
  | subexpr_child x c e : c ∈ children e -> subexpr x c -> subexpr x e.

#[export] Hint Constructors subexpr : kf.

Fixpoint sum_nodes (l : list BetterleaksExpr) : nat :=
  match l with [] => 0 | x :: l => nodes_of x + sum_nodes l end.

Lemma nodes_of_children e : nodes_of e = S (sum_nodes (children e)).
Proof.
  assert (forall l, (fix all (l : list BetterleaksExpr) : nat := match l with [] => 0 | x :: l => nodes_of x + all l end) l = sum_nodes l) as Hl
    by (induction l as [|x l IH]; cbn; congruence).
  destruct e; cbn; rewrite ?Hl; lia.
Qed.

Lemma sum_nodes_app l1 l2 : sum_nodes (l1 ++ l2) = sum_nodes l1 + sum_nodes l2.
Proof. induction l1 as [|x l1 IH]; cbn; lia. Qed.

Lemma sum_nodes_rev l : sum_nodes (rev l) = sum_nodes l.
Proof. induction l as [|x l IH]; [done|]. cbn. rewrite sum_nodes_app, IH. cbn. lia. Qed.

Lemma subexpr_cases x e : subexpr x e <-> x = e \/ exists c, c ∈ children e /\ subexpr x c.
Proof. split; [intros []; eauto|intros [->|(c & ? & ?)]; eauto with kf]. Qed.

Lemma elem_of_rev' {A} (x : A) l : x ∈ rev l <-> x ∈ l.
Proof. by rewrite !list_elem_of_In, <-in_rev. Qed.

Lemma env_loop_visits fuel : forall nodes vars v, sum_nodes nodes <= fuel ->
  v ∈ env_loop fuel nodes vars <-> v ∈ vars \/ exists n x, n ∈ nodes /\ subexpr x n /\ v ∈ env_get x.
Proof.
  induction fuel as [|fuel IH]; intros [|n nodes] vars v Hf; cbn [env_loop sum_nodes] in *;
    try (rewrite (nodes_of_children n) in Hf; lia).
  1,2: split; [auto|intros [?|(? & ? & []%not_elem_of_nil & _)]; done].
  rewrite IH by (rewrite sum_nodes_app, sum_nodes_rev; rewrite nodes_of_children in Hf; lia).
  setoid_rewrite elem_of_app. setoid_rewrite elem_of_cons.
  setoid_rewrite elem_of_rev'. split.
  - intros [[?|?]|(m & x & [?|?] & ? & ?)]; eauto 8 with kf.
  - intros [?|(m & x & [->|?] & Hx & ?)]; [eauto| |eauto 8].
    apply subexpr_cases in Hx as [->|(c & ? & ?)]; eauto 8.
Qed.

(** The variables are those of the [env.get] calls of the tree, wherever they
    are. *)
Lemma env_input_vars_exact e v : v ∈ env_input_vars e <-> exists x, subexpr x e /\ v ∈ env_get x.
Proof.
  unfold env_input_vars. rewrite elem_of_list_to_set, env_loop_visits by (cbn; lia). split.
  - intros [[]%not_elem_of_nil|(n & x & ->%list_elem_of_singleton & ? & ?)]. eauto.
  - intros (x & ? & ?). right. exists e, x. split; [by apply list_elem_of_singleton|done].
Qed.
