(* ===== verification/FilterValue.v ===== *)
(** * Values of the filter language

    The first half of [kingfisher-rules/src/betterleaks_filter.rs]'s functions:
    [Value] with its conversions, comparisons and members, and the functions on
    values that do not touch the evaluator. [f64] is an interface, [F64], that
    [SpecF64.v] implements; a borrowed string is its pointer and length into a
    [Memory], so that the identity of two strings is what the code compares. *)

From Stdlib Require Import ZArith Lia Bool.
From stdpp Require Import base list numbers option gmap.
From S2P Require Import Prelude Text Ordered Expr.

(** ** Results *)

(** The errors the development tells apart: a regex that does not compile, a
    failure of the native scanner, an operation the language does not have, and
    any other. *)
Inductive error := BadRegex | Native | Unsupported | Failed (what : string).

Inductive res (A : Type) := Ok (value : A) | Err (e : error) | Panic.
Arguments Ok {A}. Arguments Err {A}. Arguments Panic {A}.

#[export] Instance res_ret : MRet res := @Ok.
#[export] Instance res_bind : MBind res := fun A B f m =>
  match m with Ok a => f a | Err e => Err e | Panic => Panic end.

Definition bail {A} (what : string) : res A := Err (Failed what).
(** [ok_or_else] *)
Definition or_err {A} (e : error) (o : option A) : res A := match o with Some a => Ok a | None => Err e end.
(** [.ok()] *)
Definition res_ok {A} (r : res A) : option A := match r with Ok a => Some a | _ => None end.

(** ** The types of the standard library *)

(** [f64]. *)
Class F64 := {
  f64 : Type;
  f_of_int : Z -> f64;
  f_to_int : f64 -> Z;
  f_decimal : Z -> Z -> f64;
  f_parse : bytes -> option f64;
  f_neg : f64 -> f64; f_abs : f64 -> f64; f_ceil : f64 -> f64; f_floor : f64 -> f64; f_round : f64 -> f64;
  f_fract : f64 -> f64; f_log2 : f64 -> f64;
  f_add : f64 -> f64 -> f64; f_sub : f64 -> f64 -> f64; f_mul : f64 -> f64 -> f64; f_div : f64 -> f64 -> f64;
  f_pow : f64 -> f64 -> f64; f_max : f64 -> f64 -> f64; f_min : f64 -> f64 -> f64;
  f_eq : f64 -> f64 -> bool; f_ge : f64 -> f64 -> bool; f_total_cmp : f64 -> f64 -> comparison;
  f_is_finite : f64 -> bool;
  (** what [sum] starts from *)
  f_sum_start : f64
}.

Definition f_zero `{F64} : f64 := f_of_int 0.

Definition I64_MIN : Z := - 2 ^ 63.
Definition I64_MAX : Z := 2 ^ 63 - 1.
Definition i64_ok (v : Z) : bool := (I64_MIN <=? v)%Z && (v <=? I64_MAX)%Z.
Definition i64_saturate (v : Z) : Z := Z.max I64_MIN (Z.min I64_MAX v).
(** [usize as i64] *)
Definition as_i64 (v : Z) : Z := ((v + 2 ^ 63) mod 2 ^ 64 - 2 ^ 63)%Z.

(** [str::parse::<i64>] *)
Fixpoint parse_nat (acc : Z) (l : bytes) : option Z :=
  match l with
  | [] => Some acc
  | b :: r => if is_ascii_digit b then parse_nat (acc * 10 + (b - 48))%Z r else None
  end.
Definition parse_i64 (l : bytes) : option Z :=
  let '(sign, digits) := match l with
    | b :: r => if b ==? bc "+" then (1, r) else if b ==? bc "-" then (-1, r) else (1, l)
    | [] => (1, [])
    end%Z in
  match digits with
  | [] => None
  | _ => match parse_nat 0 digits with
         | Some v => if i64_ok (sign * v) then Some (sign * v)%Z else None
         | None => None
         end
  end.

(** Characters of a UTF-8 text. *)
Definition char_len (b : byte) : nat :=
  if (b <? 128)%Z then 1 else if (b <? 224)%Z then 2 else if (b <? 240)%Z then 3 else 4.
Fixpoint chars_loop (fuel : nat) (l : bytes) : list bytes :=
  match fuel, l with
  | S fuel, b :: _ => take (char_len b) l :: chars_loop fuel (drop (char_len b) l)
  | _, _ => []
  end.
Definition chars (l : bytes) : list bytes := chars_loop (length l) l.
(** [str::is_char_boundary] *)
Definition is_char_boundary (l : bytes) (i : nat) : bool :=
  (i =? length l) || match l !! i with Some b => negb (128 ≤? b ≤? 191) | None => false end.
(** [char::to_string] of a [u8] taken as a character *)
Definition byte_char (b : byte) : bytes :=
  if (b <? 128)%Z then [b] else [192 + b / 64; 128 + b mod 64]%Z.

(** [str::find] and [str::rfind] of a text. *)
Fixpoint find_from (base : nat) (needle l : bytes) : option nat :=
  if starts_with needle l then Some base
  else match l with [] => None | _ :: r => find_from (S base) needle r end.
Definition find_text (needle l : bytes) : option nat := find_from 0 needle l.
Fixpoint rfind_from (base : nat) (needle l : bytes) : option nat :=
  match l with
  | [] => if starts_with needle l then Some base else None
  | _ :: r =>
    match rfind_from (S base) needle r with
    | Some i => Some i
    | None => if starts_with needle l then Some base else None
    end
  end.
Definition rfind_text (needle l : bytes) : option nat := rfind_from 0 needle l.

(** [match_indices]: the leftmost matches that do not overlap; the empty text
    matches at every character boundary. *)
Fixpoint match_indices_loop (skip base : nat) (needle l : bytes) : list nat :=
  match l with
  | [] => match skip, needle with 0, [] => [base] | _, _ => [] end
  | b :: r =>
    match skip with
    | S skip => match_indices_loop skip (S base) needle r
    | 0 =>
      if starts_with needle l && negb (match needle with [] => 128 ≤? b ≤? 191 | _ => false end)
      then base :: match_indices_loop (pred (length needle)) (S base) needle r
      else match_indices_loop 0 (S base) needle r
    end
  end.
Definition match_indices (needle l : bytes) : list nat := match_indices_loop 0 0 needle l.

(** The pieces of a text between matches. *)
Fixpoint pieces (l : bytes) (from len : nat) (indices : list nat) : list bytes :=
  match indices with
  | [] => [drop from l]
  | i :: indices => slice l from i :: pieces l (i + len) len indices
  end.
(** [str::split] *)
Definition split_text (separator l : bytes) : list bytes :=
  pieces l 0 (length separator) (match_indices separator l).
(** [join] *)
Fixpoint join_with (separator : bytes) (l : list bytes) : bytes :=
  match l with [] => [] | [x] => x | x :: l => x ++ separator ++ join_with separator l end.
(** [str::replace] and [str::replacen] *)
Definition replace_text (from to l : bytes) : bytes := join_with to (split_text from l).
Definition replacen_text (from to : bytes) (limit : Z) (l : bytes) : bytes :=
  join_with to (pieces l 0 (length from) (take (Z.to_nat limit) (match_indices from l))).

(** [str::trim_matches] by a set of characters. *)
Fixpoint drop_chars (p : bytes -> bool) (l : list bytes) : list bytes :=
  match l with [] => [] | c :: r => if p c then drop_chars p r else l end.
Definition trim_chars (p : bytes -> bool) (l : bytes) : bytes :=
  concat (rev (drop_chars p (rev (drop_chars p (chars l))))).

Example split_text_example : split_text [] (bs "ab") = [[]; bs "a"; bs "b"; []]
  /\ split_text (bs "aa") (bs "aaa") = [[]; bs "a"] /\ replacen_text (bs "a") (bs "x") 2 (bs "banana") = bs "bxnxna"
  /\ rfind_text (bs "an") (bs "banana") = Some 3 /\ rfind_text [] (bs "ab") = Some 2.
Proof. repeat split; reflexivity. Qed.

Example parse_i64_example : parse_i64 (bs "-9223372036854775808") = Some I64_MIN
  /\ parse_i64 (bs "9223372036854775808") = None /\ parse_i64 (bs "+7") = Some 7%Z /\ parse_i64 (bs "-") = None.
Proof. repeat split; reflexivity. Qed.

(** ** Memory

    A [&str] that borrows from the context is a pointer and a length; [text_at] is
    the text behind it while an evaluation runs. [owned_at] is where the buffer of
    an owned (or static) text lies. *)
Class Memory := {
  text_at : Z -> nat -> bytes;
  owned_at : bytes -> Z
}.

(** [Cow<str>] *)
Inductive Cow := Borrowed (ptr : Z) (len : nat) | Owned (value : bytes).

Definition text_of `{Memory} (s : Cow) : bytes :=
  match s with Borrowed ptr len => text_at ptr len | Owned value => value end.
Definition as_ptr `{Memory} (s : Cow) : Z :=
  match s with Borrowed ptr _ => ptr | Owned value => owned_at value end.
Definition cow_len (s : Cow) : nat :=
  match s with Borrowed _ len => len | Owned value => length value end.

(** ** [BTreeMap<String, V>] as its entries by key *)
Section btree.
Context {V : Type}.

Fixpoint bt_insert (k : bytes) (v : V) (l : list (bytes * V)) : list (bytes * V) :=
  match l with
  | [] => [(k, v)]
  | (k', v') :: r =>
    match bytes_cmp k k' with
    | Lt => (k, v) :: l
    | Eq => (k, v) :: r
    | Gt => (k', v') :: bt_insert k v r
    end
  end.
Fixpoint bt_get (k : bytes) (l : list (bytes * V)) : option V :=
  match l with
  | [] => None
  | (k', v') :: r => if bytes_eqb k k' then Some v' else bt_get k r
  end.
(** [collect()] *)
Definition bt_collect (l : list (bytes * V)) : list (bytes * V) :=
  fold_left (fun m kv => bt_insert (fst kv) (snd kv) m) l [].
End btree.

(** ** [serde_json::Value] *)
Inductive json `{F64} :=
  | JNull | JBool (b : bool) | JInt (n : Z) (** fits [i64] or [u64] *) | JFloat (x : f64)
  | JString (s : bytes) | JArray (l : list json) | JObject (l : list (bytes * json)).

(** What the filter language calls outside the sources, of Unicode and of the
    private key classifier, whose readers are in [PrivateKey.v]. *)
Class Library `{F64} := {
  to_lowercase : bytes -> bytes;
  to_uppercase : bytes -> bytes;
  sha256 : bytes -> bytes;
  (** the number of tokens [encode_ordinary] makes of a text *)
  tokens_of : bytes -> nat;
  (** the decompressed word list *)
  words : bytes;
  base64_decode : bytes -> option bytes;
  json_to_string : json -> bytes;
  json_from_str : bytes -> option json;
  is_malformed : bytes -> bool
}.

(** ** Values *)
Module Value.
Inductive Value `{F64} :=
  | Nil | Bool (b : bool) | Integer (n : Z) | Float (x : f64) | String (s : Cow)
  | Array (l : list Value) | Map (l : list (bytes * Value)).
End Value.
Abbreviation Value := Value.Value.

(** How the build behaves: whether an overflow of [-] panics, and what
    [slice::sort_by] makes of a comparison that is not an order ([None], a
    panic). *)
Class Build `{F64} := {
  overflow_checks : bool;
  sort_unordered : list Value -> option (list Value)
}.

Section values.
Context {F : F64} {Mem : Memory}.

(** [Value::string] of an owned text *)
Definition value_string (s : bytes) : Value := Value.String (Owned s).

Definition truthy (v : Value) : bool :=
  match v with
  | Value.Nil => false
  | Value.Bool b => b
  | Value.Integer n => negb (n ==? 0)
  | Value.Float x => negb (f_eq x f_zero)
  | Value.String s => non_empty (text_of s)
  | Value.Array l => match l with [] => false | _ => true end
  | Value.Map l => match l with [] => false | _ => true end
  end.

(** [as_string], [into_string] *)
Definition as_string (v : Value) : res bytes :=
  match v with Value.String s => Ok (text_of s) | _ => bail "expected string" end.
Definition as_int (v : Value) : res Z :=
  match v with Value.Integer n => Ok n | Value.Float x => Ok (f_to_int x) | _ => bail "expected number" end.
Definition as_f64 (v : Value) : res f64 :=
  match v with Value.Integer n => Ok (f_of_int n) | Value.Float x => Ok x | _ => bail "expected number" end.

Definition is_nil (v : Value) : bool := match v with Value.Nil => true | _ => false end.

(** [PartialEq] *)
Fixpoint value_eqb (a b : Value) : bool :=
  match a, b with
  | Value.Nil, Value.Nil => true
  | Value.Bool x, Value.Bool y => Bool.eqb x y
  | Value.Integer x, Value.Integer y => x ==? y
  | Value.Float x, Value.Float y => f_eq x y
  | Value.String x, Value.String y => bytes_eqb (text_of x) (text_of y)
  | Value.Array x, Value.Array y =>
    (fix all (x y : list Value) : bool :=
      match x, y with [], [] => true | a :: x, b :: y => value_eqb a b && all x y | _, _ => false end) x y
  | Value.Map x, Value.Map y =>
    (fix all (x y : list (bytes * Value)) : bool :=
      match x, y with
      | [], [] => true
      | (k, a) :: x, (k', b) :: y => bytes_eqb k k' && value_eqb a b && all x y
      | _, _ => false
      end) x y
  | _, _ => false
  end.

Definition values_equal (left right : Value) : bool :=
  match left, right with
  | Value.Integer n, Value.Float x => f_eq (f_of_int n) x
  | Value.Float x, Value.Integer n => f_eq x (f_of_int n)
  | _, _ => value_eqb left right
  end.

(** [strings], [strings_or_single] *)
Definition strings (v : Value) : res (list bytes) :=
  match v with Value.Array l => mapM as_string l | _ => bail "expected an array of strings" end.
Definition strings_or_single (v : Value) : option (list bytes) :=
  match v with
  | Value.String s => Some [text_of s]
  | Value.Array _ => res_ok (strings v)
  | _ => None
  end.

(** [usize::try_from(i64).ok()] with [Vec::get] *)
Definition get_at {A} (l : list A) (i : Z) : option A := if (i <? 0)%Z then None else l !! Z.to_nat i.

Definition member (container property : Value) : res Value :=
  match container, property with
  | Value.Map l, Value.String key => Ok (default Value.Nil (bt_get (text_of key) l))
  | Value.Array l, _ => i ← as_int property; Ok (default Value.Nil (get_at l i))
  | Value.String s, _ =>
    i ← as_int property;
    Ok (match get_at (text_of s) i with Some b => value_string (byte_char b) | None => Value.Nil end)
  | Value.Nil, _ => Ok Value.Nil
  | _, _ => bail "cannot read member"
  end.

(** A bound of a slice, from the end when it is negative. *)
Definition slice_index (len : nat) (index : Z) : nat :=
  let n := if (index <? 0)%Z then Z.max 0 (i64_saturate (Z.of_nat len + index)) else index in
  Nat.min (Z.to_nat n) len.

Definition value_slice (v : Value) (from to : Z) : res Value :=
  let len := match v with
    | Value.String s => length (chars (text_of s)) | Value.Array l => length l | _ => 0
    end in
  let from := slice_index len from in
  let to := Nat.max (slice_index len to) from in
  match v with
  | Value.String s => Ok (value_string (concat (take (to - from) (drop from (chars (text_of s))))))
  | Value.Array l => Ok (Value.Array (slice l from to))
  | _ => bail "cannot slice"
  end.

Definition numeric_binary (left right : Value) (operation : f64 -> f64 -> f64) : res Value :=
  match left, right with
  | Value.Integer x, Value.Integer y =>
    let value := operation (f_of_int x) (f_of_int y) in
    if f_eq (f_fract value) f_zero then Ok (Value.Integer (f_to_int value))
    else Ok (Value.Float value)
  | _, _ => x ← as_f64 left; y ← as_f64 right; Ok (Value.Float (operation x y))
  end.
End values.

(** ** Functions of values *)

Definition MAX_EXPRESSION_STRING_BYTES : Z := 16 * 1024 * 1024.

Section functions.
Context {F : F64} {Mem : Memory} {Lib : Library}.

Definition any_of (l : list bytes) (p : bytes -> bool) : bool := existsb p l.

Definition contains_any (arguments : list Value) : res Value :=
  match arguments with
  | [input; terms] =>
    match strings_or_single input, res_ok (strings terms) with
    | Some input, Some terms =>
      Ok (Value.Bool (any_of input (fun input => any_of terms (fun term =>
        contains_sub (to_lowercase term) (to_lowercase input)))))
    | _, _ => Ok (Value.Bool false)
    end
  | _ => bail "containsAny expects two arguments"
  end.

Definition string_set_helper (arguments : list Value) (name : bytes) : res Value :=
  match arguments with
  | [input; terms] =>
    match strings_or_single input, res_ok (strings terms) with
    | Some input, Some terms =>
      Ok (Value.Bool (any_of input (fun input => any_of terms (fun term =>
        if name is "intersects" then bytes_eqb input term else starts_with term input))))
    | _, _ => Ok (Value.Bool false)
    end
  | _ => bail "helper expects two arguments"
  end.

Definition count_byte (b : byte) (l : bytes) : nat := length (filter (fun c => c = b) l).
Definition f_sum (l : list f64) : f64 := fold_left f_add l f_sum_start.
Definition BYTES : bytes := map Z.of_nat (seq 0 256).

Definition entropy (arguments : list Value) : res Value :=
  match arguments with
  | [input] =>
    bytes ← as_string input;
    match bytes with
    | [] => Ok (Value.Float f_zero)
    | _ =>
      let len := f_of_int (Z.of_nat (length bytes)) in
      let frequencies := filter (fun n => 0 < n) (map (fun b => count_byte b bytes) BYTES) in
      Ok (Value.Float (f_sum (map (fun n =>
        let probability := f_div (f_of_int (Z.of_nat n)) len in
        f_mul (f_neg probability) (f_log2 probability)) frequencies)))
    end
  | _ => bail "entropy expects one argument"
  end.

Definition is_line_break (b : byte) : bool := (b ==? 10) || (b ==? 13).

Definition normalize_efficiency_input (input : bytes) : bytes :=
  if (length input <? 20) && existsb is_line_break input then filter (fun b => is_line_break b = false) input
  else input.

Definition efficiency_ratio (analyzed : bytes) (tokens : nat) : f64 :=
  f_div (f_of_int (Z.of_nat (length analyzed))) (f_of_int (Z.of_nat tokens)).

Definition token_efficiency_ratio (input : bytes) : f64 :=
  let analyzed := normalize_efficiency_input input in
  let tokens := tokens_of analyzed in
  if tokens =? 0 then f_zero else efficiency_ratio analyzed tokens.

Definition token_ratio (arguments : list Value) : res Value :=
  match arguments with
  | [input] => input ← as_string input; Ok (Value.Float (token_efficiency_ratio input))
  | _ => bail "tokenRatio expects one argument"
  end.

(** The words, with the lengths they are grouped by. *)
Definition EFFICIENCY_WORDS : list bytes := filter (fun w => w <> []) (lines words).

(** [input.get(start..end)] *)
Definition get_str (l : bytes) (from to : nat) : option bytes :=
  if is_char_boundary l from && is_char_boundary l to then Some (slice l from to) else None.

Definition contains_dictionary_word (input : bytes) (minimum : nat) : bool :=
  let input := to_lowercase input in
  if length input <? minimum then false
  else existsb (fun word =>
    let len := length word in
    (minimum <=? len) && (len <=? length input) &&
    existsb (fun start => bool_decide (get_str input start (start + len) = Some word))
      (seq 0 (S (length input - len)))) EFFICIENCY_WORDS.

Definition fails_token_efficiency_value (input : bytes) : bool :=
  let analyzed := normalize_efficiency_input input in
  let tokens := tokens_of analyzed in
  if tokens =? 0 then false
  else if contains_dictionary_word analyzed 5 then true
  else
    let threshold :=
      if (length analyzed <? 12) && contains_dictionary_word analyzed 4
      then f_decimal 21 (-1) else f_decimal 25 (-1) in
    f_ge (efficiency_ratio analyzed tokens) threshold.

Definition fails_token_efficiency (arguments : list Value) : res Value :=
  match arguments with
  | [input] => input ← as_string input; Ok (Value.Bool (fails_token_efficiency_value input))
  | _ => bail "failsTokenEfficiency expects one argument"
  end.

Definition value_length (arguments : list Value) : res Value :=
  match arguments with
  | [Value.String s] => Ok (Value.Integer (Z.of_nat (length (chars (text_of s)))))
  | [Value.Array l] => Ok (Value.Integer (Z.of_nat (length l)))
  | [Value.Map l] => Ok (Value.Integer (Z.of_nat (length l)))
  | [_] => bail "cannot take length"
  | _ => bail "len/size expects one argument"
  end.

Definition min_or_max (arguments : list Value) (maximum : bool) : res Value :=
  match arguments with
  | [lhs; rhs] =>
    x ← as_f64 lhs; y ← as_f64 rhs;
    let value := if maximum then f_max x y else f_min x y in
    match lhs, rhs with
    | Value.Integer _, Value.Integer _ => Ok (Value.Integer (f_to_int value))
    | _, _ => Ok (Value.Float value)
    end
  | _ => bail "min/max expects two arguments"
  end.

Definition split (arguments : list Value) : res Value :=
  match arguments with
  | [input; separator] =>
    input ← as_string input; separator ← as_string separator;
    Ok (Value.Array (map value_string (split_text separator input)))
  | _ => bail "split expects two arguments"
  end.

Definition join (arguments : list Value) : res Value :=
  match arguments with
  | [values; separator] =>
    values ← strings values; separator ← as_string separator; Ok (value_string (join_with separator values))
  | _ => bail "join expects two arguments"
  end.

Definition substring (receiver : Value) (arguments : list Value) : res Value :=
  input ← as_string receiver;
  start ← or_err (Failed "substring expects a start index") (head arguments);
  start ← as_int start;
  let start := Nat.min (Z.to_nat start) (length input) in
  len ← match arguments !! 1 with Some v => n ← as_int v; Ok (Some n) | None => Ok None end;
  let stop := match len with Some n => Nat.min (start + Z.to_nat n) (length input) | None => length input end in
  Ok (value_string (from_utf8_lossy (slice input start stop))).

Definition last_index_of (arguments : list Value) : res Value :=
  match arguments with
  | [input; needle] =>
    input ← as_string input; needle ← as_string needle;
    Ok (Value.Integer (match rfind_text needle input with Some i => Z.of_nat i | None => -1 end))
  | _ => bail "lastIndexOf expects two arguments"
  end.

Definition replace (arguments : list Value) : res Value :=
  match arguments with
  | [input; from; to] =>
    input ← as_string input; from ← as_string from; to ← as_string to;
    Ok (value_string (replace_text from to input))
  | [input; from; to; limit] =>
    limit ← as_int limit;
    input ← as_string input; from ← as_string from; to ← as_string to;
    Ok (value_string (if (limit <? 0)%Z then replace_text from to input else replacen_text from to limit input))
  | _ => bail "replace expects three or four arguments"
  end.

(** [String::from_utf8] *)
Definition from_utf8 (l : bytes) : option bytes := if bytes_eqb (from_utf8_lossy l) l then Some l else None.

Definition from_base64 (arguments : list Value) : res Value :=
  match arguments with
  | [input] =>
    input ← as_string input;
    if (MAX_EXPRESSION_STRING_BYTES <? Z.of_nat (length input))%Z then bail "fromBase64 exceeds expression size limit"
    else
      let normalized := if existsb is_line_break input then filter (fun b => is_line_break b = false) input else input in
      decoded ← or_err (Failed "invalid base64 in fromBase64") (base64_decode normalized);
      decoded ← or_err (Failed "fromBase64 decoded data is not valid UTF-8") (from_utf8 decoded);
      Ok (value_string decoded)
  | _ => bail "fromBase64 expects one argument"
  end.

Fixpoint value_to_json (v : Value) : json :=
  match v with
  | Value.Nil => JNull
  | Value.Bool b => JBool b
  | Value.Integer n => JInt n
  | Value.Float x => if f_is_finite x then JFloat x else JNull
  | Value.String s => JString (text_of s)
  | Value.Array l => JArray (map value_to_json l)
  | Value.Map l =>
    JObject ((fix entries (l : list (bytes * Value)) : list (bytes * json) :=
      match l with [] => [] | (k, v) :: l => (k, value_to_json v) :: entries l end) l)
  end.

Fixpoint value_from_json (j : json) : Value :=
  match j with
  | JNull => Value.Nil
  | JBool b => Value.Bool b
  | JInt n => if i64_ok n then Value.Integer n else Value.Float (f_of_int n)
  | JFloat x => Value.Float x
  | JString s => value_string s
  | JArray l => Value.Array (map value_from_json l)
  | JObject l =>
    Value.Map (bt_collect ((fix entries (l : list (bytes * json)) : list (bytes * Value) :=
      match l with [] => [] | (k, v) :: l => (k, value_from_json v) :: entries l end) l))
  end.
End functions.

(** ** The functions of expr-lang *)

Section builtins.
Context {F : F64} {Mem : Memory} {Lib : Library} {Bld : Build}.

Definition type_name (v : Value) : bytes :=
  match v with
  | Value.Nil => bs "nil" | Value.Bool _ => bs "bool" | Value.Integer _ => bs "int" | Value.Float _ => bs "float"
  | Value.String _ => bs "string" | Value.Array _ => bs "array" | Value.Map _ => bs "map"
  end.

Fixpoint flatten (v : Value) : list Value :=
  match v with
  | Value.Array l => flat_map flatten l
  | _ => [v]
  end.

(** Keep the values equal to none kept before. *)
Fixpoint uniq_loop (out l : list Value) : list Value :=
  match l with
  | [] => out
  | v :: l => if existsb (fun seen => values_equal seen v) out then uniq_loop out l else uniq_loop (out ++ [v]) l
  end.

Definition number_or_zero (v : Value) : f64 := default f_zero (res_ok (as_f64 v)).
Definition sort_compare (lhs rhs : Value) : comparison :=
  match lhs, rhs with
  | Value.String x, Value.String y => bytes_cmp (text_of x) (text_of y)
  | _, _ => f_total_cmp (number_or_zero lhs) (number_or_zero rhs)
  end.
Definition is_string (v : Value) : bool := match v with Value.String _ => true | _ => false end.
(** The comparison is a total order of texts, or of other values; mixed, it is
    none. *)
Definition sort_values (l : list Value) : res (list Value) :=
  if forallb is_string l || forallb (fun v => negb (is_string v)) l then Ok (sort_by sort_compare l)
  else match sort_unordered l with Some l => Ok l | None => Panic end.

Definition concat_arrays (values arguments : list Value) : res (list Value) :=
  extra ← mapM (fun argument => match argument with Value.Array l => Ok l | _ => bail "concat expects arrays" end) arguments;
  Ok (values ++ concat extra).

Definition array_builtin (name : bytes) (values arguments : list Value) : res Value :=
  if name is "first" then Ok (default Value.Nil (head values))
  else if name is "last" then Ok (default Value.Nil (last values))
  else if name is "reverse" then Ok (Value.Array (rev values))
  else if name is "concat" then l ← concat_arrays values (tail arguments); Ok (Value.Array l)
  else if name is "flatten" then Ok (Value.Array (flat_map flatten values))
  else if name is "uniq" then Ok (Value.Array (uniq_loop [] values))
  else if name is "sort" then
    l ← sort_values values;
    let desc := match arguments !! 1 with
      | Some v => match as_string v with Ok s => s is "desc" | _ => false end
      | None => false
      end in
    Ok (Value.Array (if desc then rev l else l))
  else if (name is "sum") || (name is "mean") then
    l ← mapM as_f64 values;
    let sum := f_sum l in
    Ok (Value.Float (if (name is "mean") && negb (length values =? 0)
      then f_div sum (f_of_int (Z.of_nat (length values))) else sum))
  else Err Unsupported.

Definition parameter (arguments : list Value) (index : nat) : res Value :=
  or_err (Failed "missing argument") (arguments !! index).

Definition text_builtin (name text : bytes) (arguments : list Value) : res Value :=
  if name is "trim" then
    Ok (value_string (match arguments !! 1 with
      | Some characters =>
        trim_chars (fun c => match as_string characters with Ok set => contains_sub c set | _ => false end) text
      | None => trim text
      end))
  else if name is "trimPrefix" then
    p ← parameter arguments 1; p ← as_string p; Ok (value_string (default text (strip_prefix p text)))
  else if name is "trimSuffix" then
    p ← parameter arguments 1; p ← as_string p; Ok (value_string (default text (strip_suffix p text)))
  else if name is "indexOf" then
    p ← parameter arguments 1; p ← as_string p;
    Ok (Value.Integer (match find_text p text with
      | Some i => Z.of_nat (length (chars (take i text))) | None => -1 end))
  else if name is "hasPrefix" then
    p ← parameter arguments 1; p ← as_string p; Ok (Value.Bool (starts_with p text))
  else if name is "hasSuffix" then
    p ← parameter arguments 1; p ← as_string p; Ok (Value.Bool (ends_with p text))
  else j ← or_err (Failed "invalid JSON") (json_from_str text); Ok (value_from_json j).

Definition repeat_builtin (input : Value) (arguments : list Value) : res Value :=
  count ← parameter arguments 1; count ← as_int count;
  if (count <? 0)%Z then bail "out of range"
  else
    text ← as_string input;
    if (MAX_EXPRESSION_STRING_BYTES <? saturating_mul (Z.of_nat (length text)) count)%Z
    then bail "repeat exceeds expression size limit"
    else Ok (value_string (concat (replicate (Z.to_nat count) text))).

Definition get_builtin (input : Value) (arguments : list Value) : res Value :=
  match input with
  | Value.Map l => k ← parameter arguments 1; k ← as_string k; Ok (default Value.Nil (bt_get k l))
  | Value.Array l =>
    i ← parameter arguments 1; i ← as_int i;
    let i := if (i <? 0)%Z then (Z.of_nat (length l) + i)%Z else i in
    Ok (default Value.Nil (get_at l i))
  | _ => Ok Value.Nil
  end.

Definition TEXT_BUILTINS : list string :=
  ["trim"; "trimPrefix"; "trimSuffix"; "indexOf"; "hasPrefix"; "hasSuffix"; "fromJSON"]%string.

Definition simple_builtin (name : bytes) (arguments : list Value) : res Value :=
  input ← or_err (Failed "expects an argument") (head arguments);
  if name is "type" then Ok (value_string (type_name input))
  else if name is "string" then
    Ok (value_string (match input with Value.String s => text_of s | _ => json_to_string (value_to_json input) end))
  else if name is "int" then
    match input with
    | Value.String s => n ← or_err (Failed "invalid integer") (parse_i64 (text_of s)); Ok (Value.Integer n)
    | _ => n ← as_int input; Ok (Value.Integer n)
    end
  else if name is "float" then
    match input with
    | Value.String s => x ← or_err (Failed "invalid float") (f_parse (text_of s)); Ok (Value.Float x)
    | _ => x ← as_f64 input; Ok (Value.Float x)
    end
  else if name is "repeat" then repeat_builtin input arguments
  else if one_of name TEXT_BUILTINS then text ← as_string input; text_builtin name text arguments
  else if (name is "keys") || (name is "values") then
    match input with
    | Value.Map l => Ok (Value.Array (if name is "keys" then map (fun kv => value_string (fst kv)) l else map snd l))
    | _ => bail "requires a map"
    end
  else if name is "get" then get_builtin input arguments
  else if one_of name ["abs"; "ceil"; "floor"; "round"]%string then
    x ← as_f64 input;
    Ok (Value.Float (if name is "abs" then f_abs x else if name is "ceil" then f_ceil x
      else if name is "floor" then f_floor x else f_round x))
  else if name is "toJSON" then Ok (value_string (json_to_string (value_to_json input)))
  else match input with
  | Value.Array l => array_builtin name l arguments
  | _ => bail "expects an array"
  end.
End builtins.
