(* ===== verification/LiquidFilters.v ===== *)
(** * Template filters: [kingfisher-rules/src/liquid_filters.rs]

    The filters that the templates of rules use: checksums of card and account
    numbers, prefixes and suffixes, CRC-32 texts, numbers in base 36 and 62, and the
    signing filters put together from digests. Digests, signatures, Base32 and
    Base64, BIP-39, JSON, the clock and randomness are parameters, and so is the
    evaluation of a filter's arguments by the template engine. *)

From Stdlib Require Import ZArith Lia Bool.
From stdpp Require Import base list numbers option.
From S2P Require Import Prelude Text FilterValue.
Open Scope kf_scope.

(** ** Values

    What the filters ask of a value of the template engine. *)

Inductive LiquidFloat := Finite (is_sign_negative : bool) (floor : Z) | Infinite (is_sign_negative : bool) | NotANumber (is_sign_negative : bool).
Definition is_sign_negative (f : LiquidFloat) : bool := match f with Finite n _ | Infinite n | NotANumber n => n end.
(** [floor() as u64]: the conversion saturates. *)
Definition floor_u64 (f : LiquidFloat) : Z :=
  match f with Finite _ v => Z.max 0 (Z.min USIZE_MAX v) | Infinite n => if n then 0 else USIZE_MAX | NotANumber _ => 0 end%Z.

Record Scalar := { to_integer : option Z; to_float : option LiquidFloat; to_bool : option bool; scalar_kstr : bytes }.
Record LiquidValue := { as_scalar : option Scalar; to_kstr : bytes }.

(** An integer as a value. *)
Definition integer_value (v : Z) : LiquidValue :=
  let text := ((if (v <? 0)%Z then bs "-" else []) ++ show_usize (Z.abs v)) in
  {| as_scalar := Some {| to_integer := Some v; to_float := None; to_bool := None; scalar_kstr := text |}; to_kstr := text |}.

(** The number of a value; [u64] and [usize] have the same 64 bits. *)
Definition scalar_u64 (s : Scalar) : option Z :=
  match to_integer s with
  | Some int => Some (if (int <? 0)%Z then 0 else int)%Z
  | None =>
    match to_float s with
    | Some float => Some (if is_sign_negative float then 0 else floor_u64 float)%Z
    | None =>
      match to_bool s with
      | Some b => Some (if b then 1 else 0)%Z
      | None => parse_usize (scalar_kstr s)
      end
    end
  end.
Definition value_to_usize (value : LiquidValue) : option Z :=
  match match as_scalar value with Some s => scalar_u64 s | None => None end with
  | Some v => Some v
  | None => parse_usize (to_kstr value)
  end.
(** An optional argument of a filter is an integer. *)
Definition usize_argument (argument : option Z) : option Z :=
  match argument with Some v => value_to_usize (integer_value v) | None => None end.

(** [for _ in 0..n { text.push('0') }] before a text: at least [width] bytes. *)
Definition pad_zeros (width : Z) (text : bytes) : bytes := replicate (Z.to_nat (width - Z.of_nat (length text))) 48%Z ++ text.

(** ** Texts *)

Definition replace_filter (input from to : bytes) : bytes := replace_text from to input.

Definition lstrip_chars (input set : bytes) : bytes := concat (drop_chars (fun c => contains_sub c set) (chars input)).

Definition requested_length (text : bytes) (len : option Z) : nat :=
  Z.to_nat (default (Z.of_nat (length text)) (usize_argument len)).

Definition suffix (text : bytes) (len : option Z) : bytes :=
  let requested := requested_length text len in
  if Nat.eqb requested 0 then []
  else
    let cs := chars text in
    let keep := Nat.min requested (length cs) in
    concat (drop (length cs - keep) cs).

Definition prefix (text : bytes) (len : option Z) : bytes :=
  let requested := requested_length text len in
  if Nat.eqb requested 0 then []
  else let cs := chars text in concat (take (Nat.min requested (length cs)) cs).

Definition newline (input : bytes) : bytes := [10%Z].

(** ** Checksums of numbers *)

(** The loop over the bytes from the end; [None]: a byte that is no digit. *)
Fixpoint luhn_loop (l : bytes) (count : nat) (sum : Z) : option (nat * Z) :=
  match l with
  | [] => Some (count, sum)
  | byte :: l =>
    if (byte ==? bc " ") || (byte ==? bc "-") then luhn_loop l count sum
    else if negb (is_ascii_digit byte) then None
    else
      let digit := (byte - 48)%Z in
      let digit :=
        if Nat.eqb (Nat.modulo count 2) 1 then let digit := (digit * 2)%Z in if (9 <? digit)%Z then (digit - 9)%Z else digit
        else digit in
      luhn_loop l (S count) ((sum + digit) mod 10)
  end.
Definition luhn_valid (input : bytes) : bool :=
  match luhn_loop (rev input) 0 0 with
  | None => false
  | Some (count, sum) => Nat.leb 2 count && (sum ==? 0)
  end.

Definition upper (b : byte) : byte := if is_ascii_lower b then (b - 32)%Z else b.

(** The buffer holds 34 bytes. *)
Fixpoint iban_normalize (l normalized : bytes) : option bytes :=
  match l with
  | [] => Some normalized
  | byte :: l =>
    if byte ==? bc " " then iban_normalize l normalized
    else if Nat.eqb (length normalized) 34 || negb (is_ascii_alphanumeric byte) then None
    else iban_normalize l (normalized ++ [upper byte])
  end.

Definition iban_step (remainder byte : Z) : Z :=
  if is_ascii_digit byte then ((remainder * 10 + (byte - 48)) mod 97)%Z
  else ((remainder * 100 + (byte - 65 + 10)) mod 97)%Z.

Definition iban_valid (input : bytes) : bool :=
  match iban_normalize input [] with
  | None => false
  | Some normalized =>
    if Nat.ltb (length normalized) 5 || negb (forallb is_ascii_upper (take 2 normalized))
       || negb (forallb is_ascii_digit (slice normalized 2 4)) then false
    else
      let check_digits := ((nth 2 normalized 0 - 48) * 10 + nth 3 normalized 0 - 48)%Z in
      if negb (2 ≤? check_digits ≤? 98) then false
      else foldl iban_step 0%Z (drop 4 normalized ++ take 4 normalized) ==? 1
  end.

(** The [width] lowest hexadecimal digits: [{v:02x}] of a byte, [{v:08x}] of a [u32]. *)
Definition hex_digit (v : Z) : byte := if (v <? 10)%Z then (48 + v)%Z else (87 + v)%Z.
Fixpoint hex_digits (n : nat) (v : Z) (acc : bytes) : bytes :=
  match n with 0 => acc | S n => hex_digits n (v / 16) (hex_digit (v mod 16) :: acc) end.
Definition hex_text (l : bytes) : bytes := flat_map (fun b => hex_digits 2 b []) l.

Section Digests.
Context (crc32 : bytes -> Z) (sha256 : bytes -> bytes) (hex_encode base32_encode b64_standard b64_url : bytes -> bytes).

(** [sha256] and [sha256_b32] *)
Definition sha256_filter (input : bytes) : bytes := hex_encode (sha256 input).
Definition sha256_b32 (input : bytes) (len : option Z) : bytes :=
  let encoded := base32_encode (sha256 input) in
  match usize_argument len with
  | None => encoded
  | Some len =>
    match Z.compare (Z.of_nat (length encoded)) len with
    | Gt => take (Z.to_nat len) encoded
    | Lt => encoded ++ replicate (Z.to_nat (len - Z.of_nat (length encoded))) (bc "=")
    | Eq => encoded
    end
  end.

Definition crc32_filter (input : bytes) : Z := crc32 input.

Definition crc32_dec (input : bytes) (digits : option Z) : bytes :=
  let checksum := crc32 input in
  let digits := default 0%Z (usize_argument digits) in
  if (digits =? 0)%Z then show_usize checksum
  else
    let clamped_digits := Z.min digits 38 in
    let value := show_usize (checksum mod 10 ^ clamped_digits) in
    if (Z.of_nat (length value) <? clamped_digits)%Z then pad_zeros clamped_digits value else value.

Definition crc32_hex (input : bytes) (digits : option Z) : bytes :=
  let hex := hex_digits 8 (crc32 input) [] in
  let digits := default 0%Z (usize_argument digits) in
  if (digits =? 0)%Z then hex
  else
    let clamped := Z.min digits 32 in
    if (Z.of_nat (length hex) <? clamped)%Z then pad_zeros clamped hex
    else drop (length hex - Z.to_nat clamped) hex.

(** [to_le_bytes] of a [u32] *)
Definition le_bytes (v : Z) : bytes := [v mod 256; v / 256 mod 256; v / 65536 mod 256; v / 16777216 mod 256]%Z.
Definition crc32_le_b64 (input : bytes) (len : option Z) : bytes :=
  let encoded := b64_standard (le_bytes (crc32 input)) in
  match usize_argument len with Some len => concat (take (Z.to_nat len) (chars encoded)) | None => encoded end.
End Digests.

(** ** Numbers in other bases *)

Definition BASE62 : bytes := bs "0123456789ABCDEFGHIJKLMNOPQRSTUVWXYZabcdefghijklmnopqrstuvwxyz".
Definition BASE36 : bytes := bs "0123456789abcdefghijklmnopqrstuvwxyz".

(** The loop of [encode_base62] and [encode_base36], with the digits pushed so far
    in their final order; a 64-bit number has at most 64 digits. *)
Fixpoint encode_loop (alphabet : bytes) (fuel : nat) (value : Z) (buf : bytes) : bytes :=
  match fuel with
  | 0 => buf
  | S fuel =>
    if (0 <? value)%Z then
      let base := Z.of_nat (length alphabet) in
      encode_loop alphabet fuel (value / base) (nth (Z.to_nat (value mod base)) alphabet 0%Z :: buf)
    else buf
  end.
Definition encode (alphabet : bytes) (value : Z) : bytes := if (value =? 0)%Z then bs "0" else encode_loop alphabet 64 value [].
Definition encode_base62 (value : Z) : bytes := encode BASE62 value.
Definition encode_base36 (value : Z) : bytes := encode BASE36 value.

Definition encode_filter (alphabet : bytes) (input : LiquidValue) (width : option Z) : bytes :=
  let encoded := encode alphabet (default 0%Z (value_to_usize input)) in
  match usize_argument width with
  | Some width => if (Z.of_nat (length encoded) <? width)%Z then pad_zeros width encoded else encoded
  | None => encoded
  end.
Definition base62 (input : LiquidValue) (width : option Z) : bytes := encode_filter BASE62 input width.
Definition base36 (input : LiquidValue) (width : option Z) : bytes := encode_filter BASE36 input width.

(** ** Encodings, signatures, dates *)

Section Signatures.
Context (hmac_sha256_raw hmac_sha1_raw hmac_sha384_raw : bytes -> bytes -> bytes) (b64_standard b64_url : bytes -> bytes).
Context (b64_standard_decode b64_url_decode b64_url_padded_decode : bytes -> option bytes).
Context (json_header json_string : bytes -> bytes) (json_is_object mnemonic_valid : bytes -> bool).
(** The tag and contents of a PEM text; the signature of a message under a key of
    either form, with the modulus length of the key. *)
Context (parse_pem : bytes -> option (bytes * bytes)) (sign : bool -> bytes -> bytes -> option (option bytes)).

Definition hmac_sha256 (input key : bytes) : bytes := b64_standard (hmac_sha256_raw key input).
Definition hmac_sha1 (input key : bytes) : bytes := b64_standard (hmac_sha1_raw key input).
Definition hmac_sha384 (input key : bytes) : bytes := b64_standard (hmac_sha384_raw key input).
Definition hmac_sha384_hex (input key : bytes) : bytes := hex_text (hmac_sha384_raw key input).
Definition hmac_sha256_b64key (input key : bytes) : option bytes :=
  match b64_standard_decode key with Some key => Some (b64_standard (hmac_sha256_raw key input)) | None => None end.

Definition b64enc (input : bytes) : bytes := b64_standard input.
Definition b64dec (input : bytes) : option bytes := from_utf8_lossy <$> b64_standard_decode input.
Definition b64url_enc (input : bytes) : bytes := b64_url input.
Definition b64url_dec (input : bytes) : option bytes :=
  from_utf8_lossy <$> match b64_url_decode input with Some b => Some b | None => b64_url_padded_decode input end.

(** [json!({ "typ": "JWT", "alg": alg })] is [json_header alg]. *)
Definition jwt_header (alg : bytes) : bytes := b64_url (json_header alg).

Inductive SignError := InvalidPem | UnexpectedKey | InvalidKey | SigningFailed | NotAnObject.

Definition sign_rs256 (message key_pem : bytes) : SignError + bytes :=
  match parse_pem key_pem with
  | None => inl InvalidPem
  | Some (tag, der) =>
    match (if bytes_eqb tag (bs "PRIVATE KEY") then Some true else if bytes_eqb tag (bs "RSA PRIVATE KEY") then Some false else None) with
    | None => inl UnexpectedKey
    | Some pkcs8 =>
      match sign pkcs8 der message with
      | None => inl InvalidKey
      | Some None => inl SigningFailed
      | Some (Some signature) => inr (b64_url signature)
      end
    end
  end.
Definition rsa_sha256 (input key : bytes) : SignError + bytes := sign_rs256 input key.

Definition QUOTE : byte := 34.
Definition quoted (l : bytes) : bytes := QUOTE :: l ++ [QUOTE].
Definition RS256_HEADER : bytes :=
  bs "{" ++ quoted (bs "typ") ++ bs ":" ++ quoted (bs "JWT") ++ bs "," ++ quoted (bs "alg") ++ bs ":" ++ quoted (bs "RS256") ++ bs "}".
Definition jwt_sign (claims key : bytes) : SignError + bytes :=
  if negb (json_is_object claims) then inl NotAnObject
  else
    let message := b64_url RS256_HEADER ++ bs "." ++ b64_url claims in
    match sign_rs256 message key with
    | inl e => inl e
    | inr signature => inr (message ++ bs "." ++ signature)
    end.

Definition json_escape (input : bytes) : bytes := json_string input.

(** [split_whitespace().collect::<Vec<_>>().join(" ")] *)
Fixpoint words_from (fuel : nat) (word l : bytes) : list bytes :=
  let flush := match word with [] => [] | _ => [word] end in
  match fuel, l with
  | S fuel, b :: r =>
    match ws_char_len l with
    | 0 => words_from fuel (word ++ [b]) r
    | n => flush ++ words_from fuel [] (drop n l)
    end
  | _, _ => flush
  end.
Definition split_whitespace (l : bytes) : list bytes := words_from (length l) [] l.
Definition MAX_MNEMONIC_BYTES : nat := 640.
Definition bip39_valid (input : bytes) : bool :=
  if Nat.ltb MAX_MNEMONIC_BYTES (length input) then false
  else mnemonic_valid (join_with (bs " ") (split_whitespace input)).

(** A random text of the length that the argument or else the input names. *)
Definition random_string (sample : nat -> bytes) (input : bytes) (len : option Z) : bytes :=
  let n := match usize_argument len with Some n => Some n | None => parse_usize input end in
  sample (Z.to_nat (default 32%Z n)).

(** The clock in nanoseconds; the division truncates. *)
Definition unix_timestamp_ms (nanos : Z) : Z := as_i64 (Z.quot nanos 1000000).

Fixpoint until_dot (l : bytes) : option bytes :=
  match l with [] => None | b :: r => if b ==? bc "." then Some [] else (fun p => b :: p) <$> until_dot r end.
Definition iso_timestamp (formatted : option bytes) : bytes := default (bs "1970-01-01T00:00:00Z") formatted.
Definition iso_timestamp_no_frac (formatted : option bytes) : bytes :=
  let full := iso_timestamp formatted in
  match until_dot full with Some prefix => prefix ++ bs "Z" | None => full end.
Definition rfc1123_date (formatted : option bytes) : bytes :=
  let rendered := default (bs "Thu, 01 Jan 1970 00:00:00 +0000") formatted in
  match strip_suffix (bs " +0000") rendered with Some prefix => prefix ++ bs " GMT" | None => rendered end.
End Signatures.

(** ** Luhn *)

Definition separator (b : byte) : bool := (b ==? bc " ") || (b ==? bc "-").
Definition digits_of (l : bytes) : bytes := List.filter (fun b => negb (separator b)) l.

(** What the digit at place [i] from the end adds. *)
Definition weigh (i : nat) (b : byte) : Z :=
  if Nat.eqb (Nat.modulo i 2) 1 then if (9 <? (b - 48) * 2)%Z then ((b - 48) * 2 - 9)%Z else ((b - 48) * 2)%Z else (b - 48)%Z.
Fixpoint weighted (i : nat) (l : bytes) : Z := match l with [] => 0 | b :: l => weigh i b + weighted (S i) l end%Z.

Lemma weighted_app l1 : forall i l2, weighted i (l1 ++ l2) = (weighted i l1 + weighted (i + length l1) l2)%Z.
Proof.
  induction l1 as [|b l1 IH]; intros i l2; cbn [app weighted length]; [by rewrite Nat.add_0_r|]. rewrite IH, Nat.add_succ_r. cbn [Nat.add]. lia.
Qed.

Lemma digits_of_step b l : digits_of (b :: l) = if separator b then digits_of l else b :: digits_of l.
Proof. unfold digits_of. cbn [List.filter]. by destruct (separator b). Qed.

Lemma luhn_loop_spec l : forall count sum,
  luhn_loop l count sum =
    if forallb is_ascii_digit (digits_of l) then
      Some (count + length (digits_of l), match digits_of l with [] => sum | ds => ((sum + weighted count ds) mod 10)%Z end)
    else None.
Proof.
  induction l as [|b l IH]; intros count sum; cbn [luhn_loop]; [by rewrite Nat.add_0_r|]. fold (separator b). rewrite digits_of_step.
  destruct (separator b); [apply IH|]. cbn [forallb]. destruct (is_ascii_digit b); cbn [negb andb]; [|done].
  rewrite IH. destruct (forallb is_ascii_digit (digits_of l)); [|done]. f_equal. cbn [length weighted]. f_equal; [lia|].
  change (if Nat.eqb (Nat.modulo count 2) 1 then if (9 <? (b - 48) * 2)%Z then ((b - 48) * 2 - 9)%Z else ((b - 48) * 2)%Z else (b - 48)%Z) with (weigh count b).
  generalize (weigh count b). intros w. destruct (digits_of l) as [|c ds]; [cbn [weighted]; by rewrite Z.add_0_r|].
  rewrite Z.add_mod_idemp_l by done. cbn [weighted]. f_equal. lia.
Qed.

(** The sum of the weights of the digits, from the end, decides. *)
Lemma luhn_valid_sum input : luhn_valid input =
  forallb is_ascii_digit (digits_of input) && Nat.leb 2 (length (digits_of input)) && (weighted 0 (rev (digits_of input)) mod 10 ==? 0).
Proof.
  unfold luhn_valid. rewrite luhn_loop_spec. unfold digits_of. rewrite List.filter_rev. fold (digits_of input).
  assert (forallb is_ascii_digit (rev (digits_of input)) = forallb is_ascii_digit (digits_of input)) as ->.
  { apply eq_true_iff_eq. rewrite !forallb_forall. split; intros H x Hx; apply H; [by apply in_rev in Hx|by apply in_rev]. }
  destruct (forallb _ _); [|done]. rewrite length_rev. cbn [andb Nat.add]. f_equal.
  destruct (rev (digits_of input)) as [|b ds] eqn:E; [done|]. by rewrite Z.add_0_l.
Qed.

Lemma digits_of_app l1 l2 : digits_of (l1 ++ l2) = digits_of l1 ++ digits_of l2.
Proof. apply List.filter_app. Qed.

Lemma digit_not_separator b : is_ascii_digit b = true -> separator b = false.
Proof. unfold is_ascii_digit, separator. change (bc " ") with 32%Z. change (bc "-") with 45%Z. intros H. tobool. apply orb_false_iff. rewrite !Z.eqb_neq. lia. Qed.

Lemma digits_of_cons b l : is_ascii_digit b = true -> digits_of (b :: l) = b :: digits_of l.
Proof. intros H. by rewrite digits_of_step, (digit_not_separator b H). Qed.

Lemma digits_of_separators q : forallb separator q = true -> digits_of q = [].
Proof. unfold digits_of. induction q as [|b q IH]; [done|]. cbn [forallb List.filter]. intros H. apply andb_true_iff in H as [-> H]. by apply IH. Qed.

Lemma weigh_cases i b : (weigh i b = b - 48 \/ (weigh i b = if 9 <? (b - 48) * 2 then (b - 48) * 2 - 9 else (b - 48) * 2))%Z.
Proof. unfold weigh. destruct (Nat.eqb _ _); [right|left]; by repeat split_if. Qed.

(** A digit adds between 0 and 9, different digits add differently, and so do two
    digits in the two orders, but for 0 and 9. *)
Lemma weigh_inj i a b : is_ascii_digit a = true -> is_ascii_digit b = true -> ((weigh i a - weigh i b) mod 10 = 0)%Z -> a = b.
Proof.
  unfold is_ascii_digit, weigh. intros Ha Hb. tobool. destruct (Nat.eqb _ _); repeat split_if; tobool; dlia.
Qed.

Lemma weigh_swap i a b : is_ascii_digit a = true -> is_ascii_digit b = true ->
  ((weigh i b + weigh (S i) a - (weigh i a + weigh (S i) b)) mod 10 = 0)%Z <-> a = b \/ (a = 48 /\ b = 57)%Z \/ (a = 57 /\ b = 48)%Z.
Proof.
  unfold is_ascii_digit. intros Ha Hb. tobool. unfold weigh.
  assert (Nat.eqb (S i mod 2) 1 = negb (Nat.eqb (i mod 2) 1)) as ->.
  { pose proof (Nat.div_mod_eq i 2). pose proof (Nat.div_mod_eq (S i) 2). pose proof (Nat.mod_upper_bound i 2). pose proof (Nat.mod_upper_bound (S i) 2).
    apply eq_true_iff_eq. rewrite negb_true_iff, Nat.eqb_eq, Nat.eqb_neq. lia. }
  destruct (Nat.eqb _ _); cbn [negb]; repeat split_if; tobool; dlia.
Qed.

(** The sums of two numbers that differ inside only. *)
Lemma weighted_inside (p m m' r : bytes) : length m = length m' ->
  (weighted 0 (rev (p ++ m ++ r)) - weighted 0 (rev (p ++ m' ++ r)) = weighted (length r) (rev m) - weighted (length r) (rev m'))%Z.
Proof.
  intros Hl. rewrite !rev_app_distr, <-!app_assoc, !weighted_app. cbn [Nat.add]. rewrite !length_rev, Hl. lia.
Qed.

(** Validity of two inputs whose numbers differ inside only. *)
Lemma luhn_valid_inside p m m' r : length m = length m' -> forallb is_ascii_digit m = true -> forallb is_ascii_digit m' = true ->
  forall x y, digits_of x = p ++ m ++ r -> digits_of y = p ++ m' ++ r -> luhn_valid x = true ->
  luhn_valid y = true <-> ((weighted (length r) (rev m) - weighted (length r) (rev m')) mod 10 = 0)%Z.
Proof.
  intros Hl Hm Hm' x y Ex Ey. rewrite !luhn_valid_sum, Ex, Ey, !forallb_app, Hm, Hm', !length_app, Hl. cbn [andb].
  pose proof (weighted_inside p m m' r Hl) as E. intros [Hd H0]%andb_true_iff. rewrite Hd. cbn [andb]. rewrite Z.eqb_eq in *. rewrite <-E.
  clear -H0. split; intros H; dlia.
Qed.

(** C39. The Luhn filter catches the errors it is for: in a number it accepts, with or
    without separators, no digit can be changed, and no two neighbouring digits can
    be exchanged unless they are equal or 0 and 9. *)
Theorem luhn_detects p a b q r : is_ascii_digit a = true -> is_ascii_digit b = true -> forallb separator q = true ->
  (luhn_valid (p ++ a :: r) = true -> (luhn_valid (p ++ b :: r) = true <-> a = b)) /\
  (luhn_valid (p ++ a :: q ++ b :: r) = true ->
     (luhn_valid (p ++ b :: q ++ a :: r) = true <-> a = b \/ (a = bc "0" /\ b = bc "9") \/ (a = bc "9" /\ b = bc "0"))).
Proof.
  intros Ha Hb Hq. split; intros H.
  - rewrite (luhn_valid_inside (digits_of p) [a] [b] (digits_of r)) with (x := p ++ a :: r); cbn [forallb]; rewrite ?Ha, ?Hb; try done.
    + cbn [rev app weighted]. rewrite !Z.add_0_r. split; [by apply weigh_inj|intros ->; by rewrite Z.sub_diag].
    + by rewrite digits_of_app, digits_of_cons.
    + by rewrite digits_of_app, digits_of_cons.
  - rewrite (luhn_valid_inside (digits_of p) [a; b] [b; a] (digits_of r)) with (x := p ++ a :: q ++ b :: r); cbn [forallb]; rewrite ?Ha, ?Hb; try done.
    + cbn [rev app weighted]. rewrite !Z.add_0_r. by apply weigh_swap.
    + by rewrite digits_of_app, digits_of_cons, digits_of_app, digits_of_cons, (digits_of_separators q).
    + by rewrite digits_of_app, digits_of_cons, digits_of_app, digits_of_cons, (digits_of_separators q).
Qed.

(** ** IBAN *)

(** A letter stands for two digits. *)
Definition expand (b : byte) : list Z := if is_ascii_digit b then [b - 48]%Z else [(b - 55) / 10; (b - 55) mod 10]%Z.
Definition iban_text (input : bytes) : bytes := map upper (List.filter (fun b => negb (b ==? bc " ")) input).
(** The country and check digits go to the end. *)
Definition iban_number (l : bytes) : Z := number 10 (flat_map expand l).

Lemma iban_normalize_spec l : forall normalized, length normalized <= 34 ->
  iban_normalize l normalized =
    if Nat.leb (length (normalized ++ iban_text l)) 34 && forallb is_ascii_alphanumeric (List.filter (fun b => negb (b ==? bc " ")) l)
    then Some (normalized ++ iban_text l) else None.
Proof.
  induction l as [|b l IH]; intros normalized Hn; cbn [iban_normalize].
  - unfold iban_text. cbn [List.filter map forallb]. rewrite app_nil_r, andb_true_r. by rewrite (proj2 (Nat.leb_le _ _)).
  - unfold iban_text. cbn [List.filter]. destruct (b ==? bc " "); cbn [negb]; [by apply IH|]. cbn [map forallb].
    fold (iban_text l). rewrite length_app. cbn [length].
    destruct (Nat.eqb (length normalized) 34) eqn:E; cbn [orb].
    + apply Nat.eqb_eq in E. by rewrite (proj2 (Nat.leb_gt _ _)) by lia.
    + apply Nat.eqb_neq in E. destruct (is_ascii_alphanumeric b); cbn [negb andb]; [|by rewrite andb_false_r].
      rewrite IH by (rewrite length_app; cbn [length]; lia). rewrite <-app_assoc. cbn [app]. by rewrite length_app.
Qed.

Definition iban_char (b : byte) : bool := is_ascii_digit b || is_ascii_upper b.

Lemma upper_char b : is_ascii_alphanumeric b = true -> iban_char (upper b) = true.
Proof.
  unfold is_ascii_alphanumeric, is_ascii_alphabetic, iban_char, upper. destruct (is_ascii_lower b) eqn:E; [|by destruct (is_ascii_upper b), (is_ascii_digit b)].
  unfold is_ascii_lower in E. tobool. intros _. apply orb_true_iff. right. unfold is_ascii_upper. apply andb_true_iff. rewrite !Z.leb_le. lia.
Qed.

Lemma number_foldl (base : Z) l : forall n, foldl (fun n x => n * base + x)%Z n l = (n * base ^ Z.of_nat (length l) + number base l)%Z.
Proof.
  unfold number. induction l as [|x l IH] using rev_ind; intros n; [cbn; lia|].
  rewrite !foldl_app, IH, length_app. cbn [foldl length]. rewrite Nat2Z.inj_add, Z.pow_add_r by lia. change (base ^ Z.of_nat 1)%Z with (base ^ 1)%Z.
  rewrite Z.pow_1_r. ring.
Qed.

Lemma number_app base l k : number base (l ++ k) = (number base l * base ^ Z.of_nat (length k) + number base k)%Z.
Proof. unfold number at 1. rewrite foldl_app. apply number_foldl. Qed.

Lemma iban_step_expand r b : iban_char b = true -> iban_step r b = ((r * 10 ^ Z.of_nat (length (expand b)) + number 10 (expand b)) mod 97)%Z.
Proof.
  unfold iban_char, iban_step, expand. intros H. destruct (is_ascii_digit b); cbn [orb length number foldl] in *.
  - change (10 ^ Z.of_nat 1)%Z with 10%Z. f_equal. 
  - change (10 ^ Z.of_nat 2)%Z with 100%Z. f_equal. unfold is_ascii_upper in H. tobool. dlia.
Qed.

(** Reducing at every step is reducing at the end. *)
Lemma iban_fold l : forall r, forallb iban_char l = true ->
  foldl iban_step r l = match l with [] => r | _ => ((r * 10 ^ Z.of_nat (length (flat_map expand l)) + iban_number l) mod 97)%Z end.
Proof.
  unfold iban_number. induction l as [|b l IH]; intros r H; [done|]. cbn [forallb foldl flat_map] in *. apply andb_true_iff in H as [Hb H].
  rewrite IH, iban_step_expand by done. destruct l as [|c l]; [by rewrite app_nil_r|].
  set (k := flat_map expand (c :: l)). rewrite number_app, length_app, Nat2Z.inj_add, Z.pow_add_r by lia.
  rewrite Z.add_mod, Z.mul_mod_idemp_l, <-Z.add_mod by done. f_equal. ring.
Qed.

(** The check digits that the standard computes: 98 less the remainder of the number
    with 00 in their place. *)
Definition standard_check_digits (l : bytes) : Z := (98 - iban_number (drop 4 l ++ take 2 l ++ bs "00") mod 97)%Z.
Definition given_check_digits (l : bytes) : Z := number 10 (flat_map expand (slice l 2 4)).

Definition iban_shape (l : bytes) : bool :=
  (5 <=? length l) && (length l <=? 34) && forallb is_ascii_upper (take 2 l) && forallb is_ascii_digit (slice l 2 4).

Lemma iban_remainder M c : (0 <= c < 100)%Z -> (2 ≤? c ≤? 98) && ((M + c) mod 97 ==? 1) = (c ==? 98 - M mod 97).
Proof. intros H. dlia. Qed.

(** C40. An IBAN is accepted exactly when it has the shape of one, spaces and case
    aside, and carries the check digits that the standard computes: the two letters
    of the country and the account, read as one decimal number. *)
Theorem iban_valid_exact input : iban_valid input =
  let l := iban_text input in
  forallb is_ascii_alphanumeric (List.filter (fun b => negb (b ==? bc " ")) input) && iban_shape l && (given_check_digits l ==? standard_check_digits l).
Proof.
  unfold iban_valid. rewrite iban_normalize_spec by (cbn; lia). cbn [app]. cbv zeta. unfold iban_shape.
  destruct (forallb is_ascii_alphanumeric _) eqn:Ha; [|by rewrite andb_false_r]. rewrite andb_true_r. cbn [andb].
  assert (forallb iban_char (iban_text input) = true) as Hc.
  { unfold iban_text. rewrite forallb_forall in Ha. apply forallb_forall. intros x (b & <- & Hb)%in_map_iff. by apply upper_char, Ha. }
  set (l := iban_text input) in *. clearbody l. clear Ha input.
  destruct (length l <=? 34); [|by rewrite andb_false_r]. rewrite andb_true_r.
  rewrite Nat.leb_antisym. destruct (Nat.ltb (length l) 5) eqn:E5; [done|]. cbn [negb orb andb]. apply Nat.ltb_ge in E5.
  destruct l as [|c0 [|c1 [|c2 [|c3 [|c4 l]]]]]; cbn [length] in E5; try lia. cbn [take drop slice Nat.sub]. change (slice _ 2 4) with [c2; c3].
  destruct (forallb is_ascii_upper [c0; c1]) eqn:E1; [|done]. destruct (forallb is_ascii_digit [c2; c3]) eqn:E2; [|done]. cbn [negb orb andb nth].
  cbn [forallb] in E2. apply andb_true_iff in E2 as [E2 E3]. rewrite andb_true_r in E3.
  cbn [forallb] in Hc. do 4 (apply andb_true_iff in Hc as [? Hc]).
  rewrite iban_fold by (rewrite forallb_app; cbn [forallb]; by rewrite Hc, andb_true_r; repeat (apply andb_true_iff; split)).
  set (M := iban_number ((c4 :: l) ++ [c0; c1] ++ bs "00")). set (cd := ((c2 - 48) * 10 + (c3 - 48))%Z).
  assert (given_check_digits (c0 :: c1 :: c2 :: c3 :: c4 :: l) = cd) as ->
    by (unfold given_check_digits, expand; cbn [slice Nat.sub take drop flat_map]; rewrite E2, E3; cbn [app number foldl]; unfold cd; lia).
  change (standard_check_digits _) with (98 - M mod 97)%Z.
  assert (iban_number ((c4 :: l) ++ [c0; c1; c2; c3]) = M + cd)%Z as E.
  { unfold M, iban_number. change [c0; c1; c2; c3] with ([c0; c1] ++ [c2; c3]). rewrite !flat_map_app, !app_assoc, !(number_app 10 (_ ++ _)).
    change (flat_map expand (bs "00")) with [0; 0]%Z. assert (flat_map expand [c2; c3] = [c2 - 48; c3 - 48]%Z) as ->
      by (cbn [flat_map]; unfold expand; by rewrite E2, E3). cbn [length number foldl]. unfold cd. lia. }
  cbn [app] in *. rewrite Z.mul_0_l, Z.add_0_l, E. replace ((c2 - 48) * 10 + c3 - 48)%Z with cd by (unfold cd; lia).
  assert (0 <= cd < 100)%Z as Hcd by (unfold is_ascii_digit in *; tobool; unfold cd; lia).
  rewrite <-(iban_remainder M cd Hcd). by destruct (2 ≤? cd ≤? 98).
Qed.

(** ** Numbers in other bases *)

Fixpoint index_in (l : bytes) (b : byte) : Z := match l with [] => 0 | c :: l => if c ==? b then 0 else 1 + index_in l b end%Z.
(** The number that a text of digits of the alphabet stands for. *)
Definition decode (alphabet text : bytes) : Z := number (Z.of_nat (length alphabet)) (map (index_in alphabet) text).

(** At least two digits, all different, the first the character 0. *)
Definition alphabet_ok (a : bytes) : Prop := 2 <= length a /\ NoDup a /\ head a = Some 48%Z.

Lemma index_nth a : NoDup a -> forall i, i < length a -> index_in a (nth i a 0%Z) = Z.of_nat i.
Proof.
  induction 1 as [|x a Hx _ IH]; intros i Hi; cbn [length] in Hi; [lia|]. destruct i as [|i]; cbn [nth index_in]; [by rewrite Z.eqb_refl|].
  destruct (x ==? nth i a 0%Z) eqn:E.
  - apply Z.eqb_eq in E. subst x. destruct Hx. apply list_elem_of_In, nth_In. lia.
  - rewrite IH by lia. lia.
Qed.

Lemma encode_loop_app a fuel : forall v buf, encode_loop a fuel v buf = encode_loop a fuel v [] ++ buf.
Proof.
  induction fuel as [|fuel IH]; intros v buf; cbn [encode_loop]; [done|]. destruct (0 <? v)%Z; [|done].
  rewrite IH, (IH _ [_]), <-app_assoc. done.
Qed.

(** The digits of a number, with as many rounds as it has bits. *)
Lemma encode_loop_decode a fuel : alphabet_ok a -> forall v, (0 <= v < 2 ^ Z.of_nat fuel)%Z ->
  decode a (encode_loop a fuel v []) = v /\ ((0 < v)%Z -> exists b r, encode_loop a fuel v [] = b :: r /\ b <> 48%Z).
Proof.
  intros (Hlen & Hdup & Hz). induction fuel as [|fuel IH]; intros v Hv.
  - cbn [encode_loop]. change (2 ^ Z.of_nat 0)%Z with 1%Z in Hv. split; [unfold decode; cbn; lia|lia].
  - cbn [encode_loop]. destruct (0 <? v)%Z eqn:E; [|split; [unfold decode; cbn; lia|lia]]. apply Z.ltb_lt in E. cbv zeta.
    set (base := Z.of_nat (length a)) in *. assert (2 <= base)%Z as Hb by lia.
    assert (0 <= v mod base < base)%Z as Hm by (apply Z.mod_pos_bound; lia).
    assert (0 <= v / base < 2 ^ Z.of_nat fuel)%Z as Hd.
    { rewrite Nat2Z.inj_succ, Z.pow_succ_r in Hv by lia. split; [apply Z.div_pos; lia|]. apply Z.div_lt_upper_bound; [lia|].
      pose proof (Z.pow_pos_nonneg 2 (Z.of_nat fuel)). nia. }
    assert (index_in a (nth (Z.to_nat (v mod base)) a 0%Z) = v mod base)%Z as Hi by (rewrite index_nth by (done || lia); lia).
    destruct (IH _ Hd) as [IH1 IH2]. rewrite encode_loop_app. split.
    + unfold decode in *. rewrite map_app. cbn [map]. rewrite number_snoc. fold base. rewrite Hi. fold base in IH1. rewrite IH1.
      rewrite Z.mul_comm. symmetry. apply Z.div_mod. lia.
    + intros _. destruct (Z_lt_le_dec 0 (v / base)) as [H|H].
      * destruct (IH2 H) as (b & r & -> & Hb0). by exists b, (r ++ [nth (Z.to_nat (v mod base)) a 0%Z]).
      * assert (v / base = 0)%Z as E0 by lia. rewrite E0. destruct fuel as [|fuel]; cbn [encode_loop Z.ltb Z.compare app];
          (eexists _, []; split; [done|]; intros Hn; rewrite Hn in Hi; destruct a as [|c a]; [done|]; injection Hz as ->; cbn [index_in Z.eqb Pos.eqb] in Hi;
           pose proof (Z.div_mod v base); lia).
Qed.

(** What is written in a base is read back: the text has no leading zero but that of
    zero itself, and padding changes its length only. *)
Theorem encode_filter_roundtrip a input width v : alphabet_ok a -> value_to_usize input = Some v -> (0 <= v <= USIZE_MAX)%Z ->
  decode a (encode a v) = v /\
  decode a (encode_filter a input width) = v /\
  Z.of_nat (length (encode_filter a input width)) = Z.max (Z.of_nat (length (encode a v))) (default 0%Z (usize_argument width)) /\
  ((0 < v)%Z -> exists b r, encode a v = b :: r /\ b <> 48%Z).
Proof.
  intros Ha Hi Hv. assert (decode a (encode a v) = v /\ ((0 < v)%Z -> exists b r, encode a v = b :: r /\ b <> 48%Z)) as [Hd Hc].
  { unfold encode. destruct (v =? 0)%Z eqn:E; tobool; [|apply encode_loop_decode; [done|unfold USIZE_MAX, U64_MOD in Hv; lia]].
    subst v. split; [|lia]. destruct Ha as (_ & _ & Hz). destruct a as [|c a]; [done|]. injection Hz as ->. done. }
  split; [done|]. unfold encode_filter. rewrite Hi. cbn [default from_option id].
  assert (forall n, decode a (replicate n 48%Z ++ encode a v) = v) as Hpad.
  { intros n. rewrite <-Hd at 2. unfold decode. rewrite map_app, number_app.
    assert (number (Z.of_nat (length a)) (map (index_in a) (replicate n 48%Z)) = 0%Z) as ->; [|by rewrite Z.mul_0_l].
    destruct Ha as (_ & _ & Hz). destruct a as [|c a]; [done|]. injection Hz as ->. induction n as [|n IH]; [done|].
    rewrite replicate_S_end, map_app. change (map (index_in (48%Z :: a)) [48%Z]) with [0%Z]. rewrite number_snoc, IH. lia. }
  destruct (usize_argument width) as [w|]; cbn [default from_option id]; [|by split; [|split; [lia|]]].
  destruct (_ <? w)%Z eqn:E; tobool; [|by split; [|split; [lia|]]].
  unfold pad_zeros. split; [apply Hpad|]. split; [|done]. rewrite length_app, length_replicate. lia.
Qed.

Lemma base62_ok : alphabet_ok BASE62.
Proof. split; [vm_compute; lia|]. split; [|done]. apply (bool_decide_unpack _). vm_compute. exact I. Qed.
Lemma base36_ok : alphabet_ok BASE36.
Proof. split; [vm_compute; lia|]. split; [|done]. apply (bool_decide_unpack _). vm_compute. exact I. Qed.

(** ** Concrete runs *)

Lemma luhn_detects_witness : (luhn_valid (bs "4111-1111 1111111" ++ bs "1") = true /\ luhn_valid (bs "4111-1111 1111111" ++ bs "2") <> true) /\
  luhn_valid (bs "7" ++ bc "9" :: bs "-" ++ bc "9" :: bs "27398713") = true.
Proof.
  assert (luhn_valid (bs "4111-1111 1111111" ++ bs "1") = true) as H by (vm_compute; reflexivity). split; [split; [exact H|]|vm_compute; reflexivity].
  intros H'. apply (proj1 (luhn_detects (bs "4111-1111 1111111") (bc "1") (bc "2") [] [] eq_refl eq_refl eq_refl) H) in H'. discriminate H'.
Defined.

Example iban_demo : map (fun s => iban_valid (bs s)) ["GB82WEST12345698765432"; "gb82 west 1234 5698 7654 32"; "GB82WEST12345698765433"; "GB82"] = [true; true; false; false].
Proof. vm_compute. reflexivity. Qed.
Example base62_demo : base62 (integer_value 61) (Some 6%Z) = bs "00000z" /\ base36 (integer_value (-5)) None = bs "0".
Proof. vm_compute. by split. Qed.
Example crc32_demo : crc32_hex (fun _ => 907060870%Z) [] (Some 10%Z) = bs "003610a686" /\ crc32_dec (fun _ => 907060870%Z) [] (Some 4%Z) = bs "0870".
Proof. vm_compute. by split. Qed.
