(* ===== verification/SpecF64.v ===== *)
(** * [f64] by the IEEE 754 specification

    The interface [F64] of the filter language, implemented with the exact
    specification of binary64 of the Standard Library, to which the methods the
    code calls are added: conversions, parsing of decimals, rounding to integers
    and the total order. [log2] and [powf] have no specified precision and are
    parameters; there is one NaN, the positive one. *)

From Stdlib Require Import ZArith Lia Bool SpecFloat.
From stdpp Require Import base list numbers option.
From S2P Require Import Prelude Text Expr FilterValue.

Section spec.
Context (log2 : spec_float -> spec_float) (powf : spec_float -> spec_float -> spec_float).

Definition PREC : Z := 53.
Definition EMAX : Z := 1024.

(** [n as f64], and [n * 10 ^ e] rounded once *)
Definition of_int (n : Z) : spec_float := binary_normalize PREC EMAX n 0 false.
Definition of_decimal (n e : Z) : spec_float :=
  if (0 <=? e)%Z then of_int (n * 10 ^ e)
  else if (n =? 0)%Z then S754_zero false
  else
    let '(q, x, loc) := SFdiv_core_binary PREC EMAX (Z.abs n) 0 (10 ^ (- e)) 0 in
    binary_round_aux PREC EMAX (n <? 0)%Z q x loc.

(** The integer towards zero, and whether something is left. *)
Definition truncated (m : positive) (e : Z) : Z * bool :=
  if (0 <=? e)%Z then (Z.pos m * 2 ^ e, false)%Z
  else ((Z.pos m / 2 ^ (- e))%Z, negb (Z.pos m mod 2 ^ (- e) =? 0)%Z).

(** [x as i64] *)
Definition to_int (x : spec_float) : Z :=
  match x with
  | S754_zero _ | S754_nan => 0
  | S754_infinity s => if s then I64_MIN else I64_MAX
  | S754_finite s m e => let n := fst (truncated m e) in i64_saturate (if s then - n else n)
  end%Z.

(** Round to an integer; [up s m e] says whether the magnitude grows by one. *)
Definition integral (up : bool -> positive -> Z -> bool) (x : spec_float) : spec_float :=
  match x with
  | S754_finite s m e =>
    let '(n, left_over) := truncated m e in
    let n := if left_over && up s m e then (n + 1)%Z else n in
    binary_normalize PREC EMAX (if s then - n else n)%Z 0 s
  | _ => x
  end.
Definition trunc : spec_float -> spec_float := integral (fun _ _ _ => false).
Definition floor : spec_float -> spec_float := integral (fun s _ _ => s).
Definition ceil : spec_float -> spec_float := integral (fun s _ _ => negb s).
(** half away from zero *)
Definition round : spec_float -> spec_float :=
  integral (fun _ m e => (2 ^ (- e) <=? 2 * (Z.pos m mod 2 ^ (- e)))%Z).

Definition add : spec_float -> spec_float -> spec_float := SFadd PREC EMAX.
Definition sub : spec_float -> spec_float -> spec_float := SFsub PREC EMAX.
Definition fract (x : spec_float) : spec_float := sub x (trunc x).

Definition is_nan (x : spec_float) : bool := match x with S754_nan => true | _ => false end.
Definition is_negative (x : spec_float) : bool :=
  match x with S754_zero s | S754_infinity s | S754_finite s _ _ => s | S754_nan => false end.
Definition is_zero (x : spec_float) : bool := match x with S754_zero _ => true | _ => false end.

Definition maximum (x y : spec_float) : spec_float :=
  match SFcompare x y with Some Lt => y | Some _ => x | None => if is_nan x then y else x end.
Definition minimum (x y : spec_float) : spec_float :=
  match SFcompare x y with Some Gt => y | Some _ => x | None => if is_nan x then y else x end.

(** [total_cmp]: the zeros by sign, NaN above everything *)
Definition total_cmp (x y : spec_float) : comparison :=
  if is_nan x then if is_nan y then Eq else Gt
  else if is_nan y then Lt
  else if is_zero x && is_zero y then
    match is_negative x, is_negative y with true, false => Lt | false, true => Gt | _, _ => Eq end
  else default Eq (SFcompare x y).

(** ** [str::parse::<f64>] *)

Fixpoint take_digits (l : bytes) : bytes * bytes :=
  match l with
  | b :: r => if is_ascii_digit b then let '(ds, rest) := take_digits r in (b :: ds, rest) else ([], l)
  | [] => ([], [])
  end.
Definition digits_value (ds : bytes) : Z := fold_left (fun acc b => acc * 10 + (b - 48))%Z ds 0%Z.

(** An exponent [e5], [E-3]; no exponent is 0. *)
Definition parse_exponent (l : bytes) : option Z :=
  match l with
  | [] => Some 0%Z
  | b :: r =>
    if (b ==? bc "e") || (b ==? bc "E") then
      let '(sign, r) := match r with
        | c :: r' => if c ==? bc "+" then (1, r') else if c ==? bc "-" then (-1, r') else (1, r)
        | [] => (1, [])
        end%Z in
      match take_digits r with
      | ([], _) => None
      | (ds, []) => Some (sign * digits_value ds)%Z
      | _ => None
      end
    else None
  end.

Definition parse_magnitude (l : bytes) : option spec_float :=
  let word := str_to_ascii_lowercase l in
  if (word is "inf") || (word is "infinity") then Some (S754_infinity false)
  else if word is "nan" then Some S754_nan
  else
    let '(whole, l) := take_digits l in
    let '(frac, l) := match l with
      | b :: r => if b ==? bc "." then take_digits r else ([], l)
      | [] => ([], [])
      end in
    match whole ++ frac with
    | [] => None
    | ds => e ← parse_exponent l; Some (of_decimal (digits_value ds) (e - Z.of_nat (length frac)))
    end.

Definition parse_f64 (l : bytes) : option spec_float :=
  match l with
  | b :: r =>
    if b ==? bc "-" then option_map SFopp (parse_magnitude r)
    else if b ==? bc "+" then parse_magnitude r
    else parse_magnitude l
  | [] => None
  end.

Definition spec_f64 : F64 := {|
  f64 := spec_float;
  f_of_int := of_int; f_to_int := to_int; f_decimal := of_decimal; f_parse := parse_f64;
  f_neg := SFopp; f_abs := SFabs; f_ceil := ceil; f_floor := floor; f_round := round; f_fract := fract; f_log2 := log2;
  f_add := add; f_sub := sub; f_mul := SFmul PREC EMAX; f_div := SFdiv PREC EMAX; f_pow := powf;
  f_max := maximum; f_min := minimum;
  f_eq := SFeqb; f_ge x y := SFleb y x; f_total_cmp := total_cmp;
  f_is_finite x := match x with S754_zero _ | S754_finite _ _ _ => true | _ => false end;
  f_sum_start := S754_zero true
|}.
End spec.

Example parse_f64_examples :
  parse_f64 (bs "2.5") = Some (of_decimal 25 (-1)) /\ parse_f64 (bs "-1e3") = Some (of_int (-1000)) /\
  parse_f64 (bs ".5") = parse_f64 (bs "5.E-1") /\ parse_f64 (bs ".") = None /\ parse_f64 (bs "1e") = None /\
  parse_f64 (bs "-Inf") = Some (S754_infinity true) /\
  of_decimal 1 (-1) = S754_finite false 7205759403792794 (-56).
Proof. repeat split; vm_compute; reflexivity. Qed.

Example rounding_examples :
  to_int (of_decimal (-25) (-1)) = (-2)%Z /\ floor (of_decimal (-25) (-1)) = of_int (-3) /\
  ceil (of_decimal 21 (-1)) = of_int 3 /\ round (of_decimal 25 (-1)) = of_int 3 /\
  ceil (of_decimal (-5) (-1)) = S754_zero true /\ to_int (of_decimal 1 30) = I64_MAX /\
  total_cmp (S754_zero true) (S754_zero false) = Lt /\ fract (of_int 7) = S754_zero false.
Proof. repeat split; vm_compute; reflexivity. Qed.
