(* ===== verification/FilterEngine.v ===== *)
(** * The regexes of filters

    The engine of [kingfisher-rules/src/betterleaks_filter.rs] that compiles the
    patterns of every filter once, and the interface [RegexEngine] the evaluator
    calls. Its reference implementation, [literal_engine], has no databases and
    compiles what it runs where it is used; it says for which patterns and texts the
    native scanner decides and for which the regex. Regexes and Vectorscan are
    parameters; [ScanLaws] says that Vectorscan reports of the patterns of a
    database what it reports of each alone, nothing of how it and the regex
    compare. *)

From Stdlib Require Import ZArith Lia Bool.
From stdpp Require Import base list numbers option gmap.
From S2P Require Import Prelude Text Ordered Expr FilterValue.

(** ** Regexes *)

(** [regex::Regex]: [find] is the span of the leftmost match. *)
Class RegexLib := {
  regex : Type;
  regex_new : bytes -> option regex;
  regex_is_match : regex -> bytes -> bool;
  regex_find : regex -> bytes -> option (nat * nat)
}.

(** [split_once]: around the first comma. *)
Fixpoint split_once (sep : byte) (l : bytes) : option (bytes * bytes) :=
  match l with
  | [] => None
  | b :: r =>
    if b ==? sep then Some ([], r)
    else match split_once sep r with Some (x, y) => Some (b :: x, y) | None => None end
  end.

(** A counted repetition of Go: [{n}], [{n,}] or [{n,m}]. *)
Definition valid_count (count : bytes) : bool :=
  match split_once (bc ",") count with
  | None => non_empty count && forallb is_ascii_digit count
  | Some (from, to) => non_empty from && forallb is_ascii_digit from && forallb is_ascii_digit to
  end.

(** Escape the braces that do not form a counted repetition. A round reads at
    least a byte, so the length is fuel enough. *)
Fixpoint normalize_loop (fuel : nat) (in_class : bool) (l : bytes) : bytes :=
  match fuel, l with
  | S fuel, ch :: rest =>
    if ch ==? bc "\" then
      match rest with
      | escaped :: rest => ch :: escaped :: normalize_loop fuel in_class rest
      | [] => [ch]
      end
    else if ch ==? bc "[" then ch :: normalize_loop fuel true rest
    else if ch ==? bc "]" then ch :: normalize_loop fuel false rest
    else if (ch ==? bc "{") && negb in_class then
      match split_once (bc "}") rest with
      | Some (count, after) =>
        if valid_count count then bs "{" ++ count ++ bs "}" ++ normalize_loop fuel in_class after
        else bs "\{" ++ normalize_loop fuel in_class rest
      | None => bs "\{" ++ normalize_loop fuel in_class rest
      end
    else if (ch ==? bc "}") && negb in_class then bs "\}" ++ normalize_loop fuel in_class rest
    else ch :: normalize_loop fuel in_class rest
  | _, _ => []
  end.
Definition normalize_go (pattern : bytes) : bytes := normalize_loop (length pattern) false pattern.

Example normalize_go_example : normalize_go (bs "a{2}{x}[{]}{,3}\{{1,}")= bs "a{2}\{x\}[{]\}\{,3\}\{{1,}".
Proof. reflexivity. Qed.

Definition compile_go_regex `{RegexLib} (pattern : bytes) : res regex :=
  match regex_new pattern with
  | Some regex => Ok regex
  | None => or_err BadRegex (regex_new (normalize_go pattern))
  end.

(** [find(..).map_or_else(String::new, ..)] *)
Definition matched_text (input : bytes) (m : option (nat * nat)) : bytes :=
  match m with Some (a, b) => slice input a b | None => [] end.

(** ** What the evaluator asks of an engine *)
Class RegexEngine := {
  engine_matches_any : bytes -> list bytes -> res bool;
  engine_find_match : bytes -> bytes -> res bytes
}.

(** Every pattern is compiled and run where it is used, by the regex. *)
#[local] Instance plain_engine `{RegexLib} : RegexEngine := {|
  engine_matches_any input patterns :=
    regexes ← mapM compile_go_regex patterns;
    Ok (existsb (fun regex => regex_is_match regex input) regexes);
  engine_find_match input pattern :=
    regex ← compile_go_regex pattern; Ok (matched_text input (regex_find regex input))
|}.

(** ** Vectorscan *)

(** [BlockDatabase::new] of patterns with their identifiers, and the identifiers
    a scan reports, in order. *)
Class Vectorscan := {
  database : Type;
  block_database_new : list (bytes * nat) -> option database;
  database_scan : database -> bytes -> option (list nat)
}.

(** The two sets of patterns. *)
Abbreviation pattern_sets := (list bytes * list bytes)%type.

Section engine.
Context {RL : RegexLib} {VS : Vectorscan}.

Record VectorscanRegexDatabase := { pattern_ids : list (bytes * nat); scanners : database }.

Definition database_compile (patterns : list (bytes * bytes)) : res (option VectorscanRegexDatabase) :=
  match patterns with
  | [] => Ok None
  | _ =>
    if (2 ^ 32 <? Z.of_nat (length patterns))%Z then bail "out of range"
    else
      let numbered := enumerate patterns in
      let ids := fold_left (fun m '(id, (source, _)) => bt_insert source id m) numbered [] in
      db ← or_err Native (block_database_new (map (fun '(id, (_, compiled)) => (compiled, id)) numbered));
      Ok (Some {| pattern_ids := ids; scanners := db |})
  end.

(** Reported identifiers are looked up in the sorted allowed ones. *)
Definition database_matches_any (db : VectorscanRegexDatabase) (input : bytes) (patterns : list bytes) : res bool :=
  allowed_ids ← mapM (fun pattern => or_err (Failed "uncompiled pattern") (bt_get pattern (pattern_ids db))) patterns;
  reported ← or_err Native (database_scan (scanners db) input);
  Ok (existsb (fun id => existsb (Nat.eqb id) allowed_ids) reported).

(** ** The patterns of an expression *)

(** The name of a call that takes a regex. *)
Definition is_matches_any (name : option bytes) : bool :=
  match name with Some name => (name is "matchesAny") || (name is "filter.matchesAny") | None => false end.
Definition is_find_match (name : option bytes) : bool :=
  match name with Some name => (name is "findMatch") || (name is "filter.findMatch") | None => false end.
Definition is_string_literal (e : BetterleaksExpr) : bool := match e with String _ => true | _ => false end.

(** A call whose patterns are only known when it runs. *)
Definition dynamic_call (name : option bytes) (arguments : list BetterleaksExpr) : bool :=
  if is_matches_any name then
    match arguments with [_; Array nodes] => negb (forallb is_string_literal nodes) | _ => true end
  else if is_find_match name then
    match arguments with [_; String _] => false | _ => true end
  else false.

Fixpoint has_dynamic_regex (expression : BetterleaksExpr) : bool :=
  match expression with
  | Call callee arguments =>
    dynamic_call (expression_name callee) arguments || existsb has_dynamic_regex arguments
  | Builtin _ nodes | Array nodes | Sequence nodes | Map nodes => existsb has_dynamic_regex nodes
  | Unary _ node | Chain node | Predicate node => has_dynamic_regex node
  | Binary _ lhs rhs | Pair lhs rhs => has_dynamic_regex lhs || has_dynamic_regex rhs
  | Member node property _ _ => has_dynamic_regex node || has_dynamic_regex property
  | Slice node from to => has_dynamic_regex node || has_dynamic_regex from || has_dynamic_regex to
  | Conditional cond exp1 exp2 => has_dynamic_regex cond || has_dynamic_regex exp1 || has_dynamic_regex exp2
  | VariableDeclarator _ value expr => has_dynamic_regex value || has_dynamic_regex expr
  | _ => false
  end.

(** A [BTreeSet] is its elements in order. *)
Fixpoint set_insert (k : bytes) (l : list bytes) : list bytes :=
  match l with
  | [] => [k]
  | k' :: r => match bytes_cmp k k' with Lt => k :: l | Eq => l | Gt => k' :: set_insert k r end
  end.
Definition string_value (e : BetterleaksExpr) : list bytes := match e with String value => [value] | _ => [] end.

Definition collect_call (name : option bytes) (arguments : list BetterleaksExpr) (sets : pattern_sets) : res pattern_sets :=
  if is_matches_any name then
    match arguments with
    | [_; Array nodes] => Ok (foldl (fun l p => set_insert p l) (fst sets) (flat_map string_value nodes), snd sets)
    | [_; _] => Ok sets
    | _ => bail "matchesAny expects two arguments"
    end
  else if is_find_match name then
    match arguments with
    | [_; pattern] => Ok (fst sets, foldl (fun l p => set_insert p l) (snd sets) (string_value pattern))
    | _ => bail "findMatch expects two arguments"
    end
  else Ok sets.

Fixpoint collect_filter_regex_patterns (expression : BetterleaksExpr) (sets : pattern_sets) : res pattern_sets :=
  let collect_all := fix collect_all (l : list BetterleaksExpr) (sets : pattern_sets) : res pattern_sets :=
    match l with [] => Ok sets | x :: l => sets ← collect_filter_regex_patterns x sets; collect_all l sets end in
  match expression with
  | Call callee arguments =>
    sets ← collect_call (expression_name callee) arguments sets; collect_all arguments sets
  | Builtin _ nodes | Sequence nodes | Array nodes | Map nodes => collect_all nodes sets
  | Unary _ node | Chain node | Predicate node => collect_filter_regex_patterns node sets
  | Binary _ a b | Member a b _ _ | VariableDeclarator _ a b | Pair a b =>
    sets ← collect_filter_regex_patterns a sets; collect_filter_regex_patterns b sets
  | Slice a b c | Conditional a b c =>
    sets ← collect_filter_regex_patterns a sets; sets ← collect_filter_regex_patterns b sets;
    collect_filter_regex_patterns c sets
  | Nil | Identifier _ | Integer _ | Float _ | Bool _ | String _ | Pointer _ => Ok sets
  end.

(** The children whose patterns are collected: not those of a callee. *)
Definition collected_children (e : BetterleaksExpr) : list BetterleaksExpr :=
  match e with Call _ arguments => arguments | _ => children e end.

Definition own_patterns (e : BetterleaksExpr) (sets : pattern_sets) : res pattern_sets :=
  match e with Call callee arguments => collect_call (expression_name callee) arguments sets | _ => Ok sets end.

Fixpoint collect_list (l : list BetterleaksExpr) (sets : pattern_sets) : res pattern_sets :=
  match l with [] => Ok sets | x :: l => sets ← collect_filter_regex_patterns x sets; collect_list l sets end.

(** ** The engine *)

Record BetterleaksFilterEngine := {
  matches_any_database : option VectorscanRegexDatabase;
  matches_any_empty : list (bytes * regex);
  find_match_database : option VectorscanRegexDatabase;
  find_match_exact : list (bytes * regex);
  dynamic_regex : bool
}.

(** The pattern that stands for one that matches the empty text: any byte. *)
Definition ANY_BYTE : bytes := bs "(?s).".

Definition compiled_patterns (exact : list (bytes * regex)) (patterns : list bytes) : list (bytes * bytes) :=
  map (fun pattern =>
    (pattern, match bt_get pattern exact with
              | Some regex => if regex_is_match regex [] then ANY_BYTE else pattern
              | None => pattern
              end)) patterns.

Definition keep_empty (l : list (bytes * regex)) : list (bytes * regex) :=
  List.filter (fun pr => regex_is_match (snd pr) []) l.

(** A pattern with its regex. *)
Definition with_regex (pattern : bytes) : res (bytes * regex) := regex ← compile_go_regex pattern; Ok (pattern, regex).

Definition engine_compile (expressions : list BetterleaksExpr) : res BetterleaksFilterEngine :=
  sets ← collect_list expressions ([], []);
  let '(matches_any_patterns, find_match_patterns) := (sets : pattern_sets) in
  exact ← mapM with_regex find_match_patterns;
  all ← mapM with_regex matches_any_patterns;
  let empty := keep_empty all in
  let rest := List.filter (fun pattern => negb (bool_decide (is_Some (bt_get pattern empty)))) matches_any_patterns in
  any ← database_compile (map (fun pattern => (pattern, pattern)) rest);
  find ← database_compile (compiled_patterns exact find_match_patterns);
  Ok {| matches_any_database := any; matches_any_empty := empty; find_match_database := find;
        find_match_exact := exact; dynamic_regex := existsb has_dynamic_regex expressions |}.

Definition compiled_in (db : option VectorscanRegexDatabase) (pattern : bytes) : bool :=
  match db with Some db => bool_decide (is_Some (bt_get pattern (pattern_ids db))) | None => false end.

Definition filter_matches_any (engine : BetterleaksFilterEngine) (input : bytes) (patterns : list bytes) : res bool :=
  if existsb (fun '(pattern, regex) => bool_decide (pattern ∈ patterns) && regex_is_match regex input)
       (matches_any_empty engine) then Ok true
  else
    let patterns := List.filter (fun pattern =>
      negb (bool_decide (is_Some (bt_get pattern (matches_any_empty engine))))) patterns in
    match patterns with
    | [] => Ok false
    | _ =>
      if dynamic_regex engine && negb (forallb (compiled_in (matches_any_database engine)) patterns) then
        regexes ← mapM compile_go_regex patterns;
        Ok (existsb (fun regex => regex_is_match regex input) regexes)
      else
        db ← or_err (Failed "matchesAny patterns were not compiled") (matches_any_database engine);
        database_matches_any db input patterns
    end.

Definition filter_find_match (engine : BetterleaksFilterEngine) (input pattern : bytes) : res bytes :=
  if dynamic_regex engine && negb (bool_decide (is_Some (bt_get pattern (find_match_exact engine)))) then
    regex ← compile_go_regex pattern; Ok (matched_text input (regex_find regex input))
  else
    db ← or_err (Failed "findMatch pattern was not compiled") (find_match_database engine);
    matched ← database_matches_any db input [pattern];
    if (matched : bool) then
      regex ← or_err (Failed "uncompiled findMatch regex") (bt_get pattern (find_match_exact engine));
      Ok (matched_text input (regex_find regex input))
    else Ok [].

(** The compiled engine behind the interface. *)
Definition filter_engine (engine : BetterleaksFilterEngine) : RegexEngine := {|
  engine_matches_any := filter_matches_any engine;
  engine_find_match := filter_find_match engine
|}.
End engine.

(** ** Maps and results *)

Lemma bind_ok {A B} (m : res A) (f : A -> res B) b : (m ≫= f) = Ok b <-> exists a, m = Ok a /\ f a = Ok b.
Proof. destruct m; cbn; [|split; [done|by intros (? & ? & _)]..]. split; [eauto|]. by intros (? & [= <-] & ?). Qed.

Lemma bytes_eqb_spec a b : reflect (a = b) (bytes_eqb a b).
Proof. unfold bytes_eqb. apply bool_decide_reflect. Qed.

Lemma bt_get_insert {V} k k' (v : V) l :
  bt_get k' (bt_insert k v l) = if bytes_eqb k' k then Some v else bt_get k' l.
Proof.
  induction l as [|[k2 v2] l IH]; cbn; [done|]. destruct (bytes_cmp k k2) eqn:E; cbn.
  - apply (cmp_eq bytes_cmp) in E as ->. by destruct (bytes_eqb_spec k' k2).
  - done.
  - rewrite IH. destruct (bytes_eqb_spec k' k2) as [->|], (bytes_eqb_spec k2 k) as [->|]; try done.
    by rewrite (cmp_refl bytes_cmp) in E.
Qed.

Lemma set_insert_elem x k l : x ∈ set_insert k l <-> x = k \/ x ∈ l.
Proof.
  induction l as [|k' l IH]; cbn; [set_solver|]. destruct (bytes_cmp k k') eqn:E.
  - apply (cmp_eq bytes_cmp) in E as ->. set_solver.
  - set_solver.
  - rewrite !elem_of_cons, IH. set_solver.
Qed.

Lemma set_insert_all x ks l : x ∈ foldl (fun l p => set_insert p l) l ks <-> x ∈ ks \/ x ∈ l.
Proof.
  revert l. induction ks as [|k ks IH]; intros l; cbn; [set_solver|]. rewrite IH, set_insert_elem. set_solver.
Qed.

Section results.
Context {A B : Type} (f : A -> res B).

Lemma mapM_cons x l : mapM f (x :: l) = (y ← f x; k ← mapM f l; Ok (y :: k)).
Proof. done. Qed.

Lemma mapM_ok l k : mapM f l = Ok k -> Forall2 (fun x y => f x = Ok y) l k.
Proof.
  revert k. induction l as [|x l IH]; intros k; cbn; [by intros [= <-]|].
  destruct (f x) eqn:Ex; [|done..]. cbn. destruct (mapM f l) eqn:El; [|done..]. cbn.
  intros [= <-]. constructor; auto.
Qed.

Lemma mapM_err l e : mapM f l = Err e -> exists x, x ∈ l /\ f x = Err e.
Proof.
  induction l as [|x l IH]; cbn; [done|]. destruct (f x) eqn:Ex; cbn; [|intros [= <-]; set_solver|done].
  destruct (mapM f l) eqn:El; cbn; [done| |done]. intros [= <-]. destruct (IH eq_refl) as (y & ? & ?). set_solver.
Qed.

Lemma mapM_panic l : mapM f l = Panic -> exists x, x ∈ l /\ f x = Panic.
Proof.
  induction l as [|x l IH]; cbn; [done|]. destruct (f x) eqn:Ex; cbn; [|done|set_solver].
  destruct (mapM f l) eqn:El; cbn; [done|done|]. intros _. destruct (IH eq_refl) as (y & ? & ?). set_solver.
Qed.

Lemma mapM_total l : Forall (fun x => exists y, f x = Ok y) l -> exists k, mapM f l = Ok k.
Proof.
  induction 1 as [|x l (y & Hy) _ (k & Hk)]; [by eexists|]. exists (y :: k). rewrite mapM_cons, Hy, Hk. done.
Qed.
End results.

Lemma mapM_map {A B C} (f : B -> res C) (g : A -> B) l : mapM f (map g l) = mapM (fun x => f (g x)) l.
Proof. induction l as [|x l IH]; [done|]. cbn [map]. by rewrite !mapM_cons, IH. Qed.

Lemma Forall2_existsb {A B} (R : A -> B -> Prop) (p : A -> bool) (q : B -> bool) l k :
  Forall2 R l k -> (forall x y, R x y -> p x = q y) -> existsb p l = existsb q k.
Proof. intros H Hp. induction H as [|x y l k Hxy _ IH]; cbn; [done|]. by rewrite (Hp x y), IH. Qed.

Lemma existsb_elem {A} (p : A -> bool) l : existsb p l = true <-> exists x, x ∈ l /\ p x = true.
Proof. rewrite existsb_exists. by setoid_rewrite list_elem_of_In. Qed.

(** ** The engine gives the reference's answers *)

(** What Vectorscan documents: of the patterns of a database it reports those it
    finds in the text, each as if it were alone, and any byte where there is one. *)
Class ScanLaws `{VS : Vectorscan} (vs_matches : bytes -> bytes -> bool) : Prop := {
  scan_exact patterns db input ids id : block_database_new patterns = Some db -> database_scan db input = Some ids ->
    id ∈ ids <-> exists p, (p, id) ∈ patterns /\ vs_matches p input = true;
  scan_any input : vs_matches ANY_BYTE input = non_empty input
}.

Definition native_fails `{Vectorscan} : Prop := exists db input, database_scan db input = None.

(** The engine answers what the reference does, unless the native scanner fails. *)
Definition answers `{Vectorscan} {A} (r plain : res A) : Prop := (r = Err Native /\ native_fails) \/ r = plain.

Lemma answers_refl `{Vectorscan} {A} (r : res A) : answers r r.
Proof. by right. Qed.

(** ** The reference

    [any] and [find] are the string literals of the expressions that are searched
    for with [matchesAny] and [findMatch]. *)
Section literals.
Context {RL : RegexLib} (vs_matches : bytes -> bytes -> bool) (any find : list bytes).

(** Whether a pattern's regex matches. *)
Definition pattern_matches (input p : bytes) : bool :=
  match compile_go_regex p with Ok r => regex_is_match r input | _ => false end.

(** A literal that matches the empty text is the regex's. *)
Definition matches_empty (p : bytes) : bool := pattern_matches [] p.
Definition regex_literal (p : bytes) : bool := bool_decide (p ∈ any) && matches_empty p.

(** Of the other patterns of a call the native scanner decides if all of them are
    literals, the regex if one is built at run time. *)
Definition literal_matches_any (input : bytes) (patterns : list bytes) : res bool :=
  let others := List.filter (fun p => negb (regex_literal p)) patterns in
  if existsb (fun p => regex_literal p && pattern_matches input p) patterns then Ok true
  else if forallb (fun p => bool_decide (p ∈ any)) others then Ok (existsb (fun p => vs_matches p input) others)
  else
    regexes ← mapM compile_go_regex others;
    Ok (existsb (fun regex => regex_is_match regex input) regexes).

(** The regex finds the text; a literal that does not match the empty text is
    searched for only where the native scanner finds it. *)
Definition literal_find_match (input p : bytes) : res bytes :=
  regex ← compile_go_regex p;
  Ok (if bool_decide (p ∈ find) && negb (matches_empty p) && negb (vs_matches p input) then []
      else matched_text input (regex_find regex input)).

Definition literal_engine : RegexEngine := {|
  engine_matches_any := literal_matches_any;
  engine_find_match := literal_find_match
|}.
End literals.

Lemma elem_of_enumerate_from {A} (l : list A) : forall i n x, (n, x) ∈ enumerate_from i l <-> i <= n /\ l !! (n - i) = Some x.
Proof.
  induction l as [|y l IH]; intros i n x; cbn; [split; [by intros []%not_elem_of_nil|by rewrite lookup_nil; intros []]|].
  rewrite elem_of_cons, IH. split.
  - intros [[= -> ->]|[? Hl]]; [by rewrite Nat.sub_diag|]. split; [lia|].
    by replace (n - i) with (S (n - S i)) by lia.
  - intros [Hn Hl]. destruct (decide (n = i)) as [->|]; [left; rewrite Nat.sub_diag in Hl; by injection Hl as ->|].
    right. split; [lia|]. by replace (n - i) with (S (n - S i)) in Hl by lia.
Qed.

Section exact.
Context {RL : RegexLib} {VS : Vectorscan} (vs_matches : bytes -> bytes -> bool) {SL : ScanLaws vs_matches}.

Lemma compile_go_err p e : compile_go_regex p = Err e -> e = BadRegex.
Proof. unfold compile_go_regex, or_err. repeat case_match; congruence. Qed.
Lemma compile_go_no_panic p : compile_go_regex p <> Panic.
Proof. unfold compile_go_regex, or_err. repeat case_match; congruence. Qed.

(** The identifiers of a database are those of its patterns. *)
Lemma fold_ids (f : bytes -> bytes) (l : list (nat * bytes)) m p id :
  bt_get p (fold_left (fun m '(id, (source, _)) => bt_insert source id m) (map (fun '(i, p) => (i, (p, f p))) l) m) = Some id ->
  (id, p) ∈ l \/ bt_get p m = Some id.
Proof.
  revert m. induction l as [|[i q] l IH]; intros m; cbn; [auto|]. intros [?|H]%IH; [set_solver|].
  rewrite bt_get_insert in H. destruct (bytes_eqb_spec p q) as [->|]; [injection H as ->; set_solver|auto].
Qed.

Lemma fold_ids_total (f : bytes -> bytes) (l : list (nat * bytes)) m p :
  (exists id, (id, p) ∈ l) \/ is_Some (bt_get p m) ->
  is_Some (bt_get p (fold_left (fun m '(id, (source, _)) => bt_insert source id m) (map (fun '(i, p) => (i, (p, f p))) l) m)).
Proof.
  revert m. induction l as [|[i q] l IH]; intros m; cbn.
  - by intros [(? & []%not_elem_of_nil)|?].
  - intros H. apply IH. rewrite bt_get_insert. destruct (bytes_eqb_spec p q) as [->|Hn]; [eauto|].
    destruct H as [(id & [[= ? ?]|?]%elem_of_cons)|?]; [done|eauto..].
Qed.

Lemma enumerate_map {A B} (f : A -> B) l i : enumerate_from i (map f l) = map (fun '(i, x) => (i, f x)) (enumerate_from i l).
Proof. revert i. induction l as [|x l IH]; intros i; cbn; [done|]. by rewrite IH. Qed.

Record knows (f : bytes -> bytes) (l : list bytes) (db : VectorscanRegexDatabase) : Prop := {
  knows_ids p id : bt_get p (pattern_ids db) = Some id -> l !! id = Some p;
  knows_all p : p ∈ l -> is_Some (bt_get p (pattern_ids db));
  knows_scan input ids id : database_scan (scanners db) input = Some ids ->
    id ∈ ids <-> exists p, l !! id = Some p /\ vs_matches (f p) input = true
}.

Lemma database_compile_knows f l db : database_compile (map (fun p => (p, f p)) l) = Ok db ->
  match db with Some db => knows f l db | None => l = [] end.
Proof using SL.
  unfold database_compile. destruct l as [|p0 l]; [by intros [= <-]|]. cbn [map].
  change ((p0, f p0) :: map (fun p => (p, f p)) l) with (map (fun p => (p, f p)) (p0 :: l)). generalize (p0 :: l) as k; intros k.
  case_match; [done|]. unfold enumerate. rewrite enumerate_map.
  destruct (block_database_new _) as [d|] eqn:Ed; [|done]. intros [= <-]. split; cbn [pattern_ids scanners].
  - intros p id Hp. apply fold_ids in Hp as [Hp|Hp]; [|done]. apply elem_of_enumerate_from in Hp as [_ Hp].
    by rewrite Nat.sub_0_r in Hp.
  - intros p (i & Hi)%list_elem_of_lookup. apply fold_ids_total. left. exists i. apply elem_of_enumerate_from.
    rewrite Nat.sub_0_r. split; [lia|done].
  - intros input ids id Hs. rewrite (scan_exact _ _ _ _ _ Ed Hs). setoid_rewrite list_elem_of_fmap. split.
    + intros (c & ([i [p c']] & [= -> ->] & Hin) & Hm). apply list_elem_of_fmap in Hin as ([j q] & [= -> -> ->] & Hin).
      apply elem_of_enumerate_from in Hin as [_ Hin]. rewrite Nat.sub_0_r in Hin. eauto.
    + intros (p & Hp & Hm). exists (f p). split; [|done]. exists (id, (p, f p)). split; [done|].
      apply list_elem_of_fmap. exists (id, p). split; [done|]. apply elem_of_enumerate_from. rewrite Nat.sub_0_r. split; [lia|done].
Qed.

Lemma existsb_eqb id l : existsb (Nat.eqb id) l = true <-> id ∈ l.
Proof.
  rewrite existsb_elem. split; [|intros; exists id; by rewrite Nat.eqb_refl].
  intros (x & ? & E). tobool. by subst.
Qed.

(** A scan for known patterns says whether one of them matches. *)
Lemma database_matches_any_exact f l db input patterns : knows f l db -> (forall p, p ∈ patterns -> p ∈ l) ->
  answers (database_matches_any db input patterns) (Ok (existsb (fun p => vs_matches (f p) input) patterns)).
Proof.
  intros K Hl. unfold database_matches_any.
  destruct (mapM_total (fun p => or_err (Failed "uncompiled pattern") (bt_get p (pattern_ids db))) patterns) as (ids & Hids).
  { apply Forall_forall. intros p Hp. destruct (knows_all _ _ _ K p (Hl p Hp)) as [id ->]. by exists id. }
  rewrite Hids. cbn. destruct (database_scan _ _) as [reported|] eqn:Es; cbn; [|left; split; [done|by eexists _, _]]. right. f_equal.
  apply mapM_ok in Hids. apply eq_true_iff_eq. rewrite !existsb_elem. split.
  - intros (id & Hr & Ha%existsb_eqb). apply list_elem_of_lookup in Ha as [i Hi].
    destruct (Forall2_lookup_r _ _ _ _ _ Hids Hi) as (p & Hp & Eid). exists p.
    split; [by eapply list_elem_of_lookup_2|]. apply (knows_scan _ _ _ K _ _ _ Es) in Hr as (q & Hq & Hm).
    destruct (bt_get p (pattern_ids db)) as [id'|] eqn:Eg; [|done]. injection Eid as ->.
    apply (knows_ids _ _ _ K) in Eg. by simplify_eq.
  - intros (p & Hp & Hm). apply list_elem_of_lookup in Hp as [i Hi].
    destruct (Forall2_lookup_l _ _ _ _ _ Hids Hi) as (id & Hid & Eid). exists id.
    destruct (bt_get p (pattern_ids db)) as [id'|] eqn:Eg; [|done]. injection Eid as ->.
    split; [|apply existsb_eqb; by eapply list_elem_of_lookup_2].
    apply (knows_scan _ _ _ K _ _ _ Es). exists p. split; [by eapply (knows_ids _ _ _ K)|done].
Qed.

Lemma bt_get_elem {V} p (v : V) l : bt_get p l = Some v -> (p, v) ∈ l.
Proof.
  induction l as [|[k w] l IH]; cbn; [done|]. destruct (bytes_eqb_spec p k) as [->|]; [|set_solver].
  intros [= ->]. set_solver.
Qed.
Lemma elem_bt_get {V} p (v : V) l : (p, v) ∈ l -> is_Some (bt_get p l).
Proof.
  induction l as [|[k w] l IH]; cbn; [by intros []%not_elem_of_nil|]. intros [[= -> ->]|?]%elem_of_cons.
  - destruct (bytes_eqb_spec k k); eauto. done.
  - destruct (bytes_eqb p k); eauto.
Qed.

Lemma with_regex_all l all : mapM with_regex l = Ok all ->
  (forall p r, (p, r) ∈ all -> p ∈ l /\ compile_go_regex p = Ok r) /\
  (forall p, p ∈ l -> exists r, (p, r) ∈ all /\ compile_go_regex p = Ok r).
Proof.
  intros H%mapM_ok. unfold with_regex in H. split.
  - intros p r (i & Hi)%list_elem_of_lookup. destruct (Forall2_lookup_r _ _ _ _ _ H Hi) as (q & Hq & E).
    cbn in E. destruct (compile_go_regex q) eqn:Eq; [|done..]. injection E as -> ->.
    split; [by eapply list_elem_of_lookup_2|done].
  - intros p (i & Hi)%list_elem_of_lookup. destruct (Forall2_lookup_l _ _ _ _ _ H Hi) as ([q r] & Hq & E).
    cbn in E. destruct (compile_go_regex p) eqn:Eq; [|done..]. injection E as -> ->.
    eexists; split; [by eapply list_elem_of_lookup_2|done].
Qed.

(** What a compiled engine holds of the collected patterns. *)
Record compiled (engine : BetterleaksFilterEngine) (any find : list bytes) : Prop := {
  empty_sound p r : (p, r) ∈ matches_any_empty engine -> compile_go_regex p = Ok r;
  empty_exact p : is_Some (bt_get p (matches_any_empty engine)) <-> regex_literal any p = true;
  any_only db p : matches_any_database engine = Some db -> is_Some (bt_get p (pattern_ids db)) -> p ∈ any;
  any_known p : p ∈ any -> regex_literal any p = false ->
    exists db, matches_any_database engine = Some db /\ is_Some (bt_get p (pattern_ids db));
  any_exact db input patterns : matches_any_database engine = Some db ->
    (forall p, p ∈ patterns -> is_Some (bt_get p (pattern_ids db))) ->
    answers (database_matches_any db input patterns) (Ok (existsb (fun p => vs_matches p input) patterns));
  exact_sound p r : bt_get p (find_match_exact engine) = Some r -> compile_go_regex p = Ok r /\ p ∈ find;
  find_known p : p ∈ find -> is_Some (bt_get p (find_match_exact engine));
  find_exact p r input : bt_get p (find_match_exact engine) = Some r -> exists db, find_match_database engine = Some db /\
    answers (database_matches_any db input [p])
      (Ok (if regex_is_match r [] then non_empty input else vs_matches p input))
}.

Lemma compile_parts expressions engine : engine_compile expressions = Ok engine ->
  exists any find all, collect_list expressions ([], []) = Ok (any, find) /\
    mapM with_regex find = Ok (find_match_exact engine) /\ mapM with_regex any = Ok all /\
    matches_any_empty engine = keep_empty all /\
    database_compile (map (fun p => (p, p)) (List.filter (fun p =>
      negb (bool_decide (is_Some (bt_get p (keep_empty all))))) any)) = Ok (matches_any_database engine) /\
    database_compile (compiled_patterns (find_match_exact engine) find) = Ok (find_match_database engine) /\
    dynamic_regex engine = existsb has_dynamic_regex expressions.
Proof.
  unfold engine_compile. intros ([any find] & E0 & H)%bind_ok. apply bind_ok in H as (exact & E1 & H).
  apply bind_ok in H as (all & E2 & H). apply bind_ok in H as (d1 & E3 & H). apply bind_ok in H as (d2 & E4 & H).
  injection H as <-. exists any, find, all. done.
Qed.

Lemma keep_empty_elem p r all : (p, r) ∈ keep_empty all <-> (p, r) ∈ all /\ regex_is_match r [] = true.
Proof. unfold keep_empty. by rewrite !list_elem_of_In, filter_In, <-list_elem_of_In. Qed.

Lemma engine_compiled expressions engine : engine_compile expressions = Ok engine ->
  exists any find, collect_list expressions ([], []) = Ok (any, find) /\ compiled engine any find.
Proof using SL.
  intros (any & find & all & Ec & Ef & Ea & Ee & E1 & E2 & _)%compile_parts. exists any, find. split; [done|].
  apply with_regex_all in Ef as [Ef1 Ef2], Ea as [Ea1 Ea2].
  apply (database_compile_knows (fun p => p)) in E1.
  set (f p := match bt_get p (find_match_exact engine) with
              | Some regex => if regex_is_match regex [] then ANY_BYTE else p | None => p end).
  apply (database_compile_knows f) in E2.
  assert (forall p, p ∈ List.filter (fun p => negb (bool_decide (is_Some (bt_get p (keep_empty all))))) any <->
    p ∈ any /\ ~ is_Some (bt_get p (keep_empty all))) as Hrest.
  { intros p. rewrite !list_elem_of_In, filter_In, negb_true_iff, bool_decide_eq_false. done. }
  assert (forall p, is_Some (bt_get p (keep_empty all)) <-> regex_literal any p = true) as Hempty.
  { intros p. unfold regex_literal, matches_empty, pattern_matches. rewrite andb_true_iff, bool_decide_eq_true. split.
    - intros [r [Hr Em]%bt_get_elem%keep_empty_elem]. apply Ea1 in Hr as [Hp ->]. done.
    - intros [(r & Hr & ->)%Ea2 Em]. apply (elem_bt_get p r). by apply keep_empty_elem. }
  split; rewrite ?Ee.
  - intros p r [Hp _]%keep_empty_elem. by apply Ea1 in Hp as [_ ?].
  - exact Hempty.
  - intros db p Hdb [id Hid]. rewrite Hdb in E1. apply (knows_ids _ _ _ E1), list_elem_of_lookup_2 in Hid. by apply Hrest in Hid as [? _].
  - intros p Hp Hn. assert (~ is_Some (bt_get p (keep_empty all))) as Hno by (rewrite Hempty; congruence).
    destruct (matches_any_database engine) as [db|].
    + exists db. split; [done|]. eapply knows_all; [done|]. by apply Hrest.
    + exfalso. eapply not_elem_of_nil. rewrite <-E1. by apply Hrest.
  - intros db input patterns Hdb Hp. rewrite Hdb in E1.
    apply (database_matches_any_exact (fun p => p) _ db input patterns E1).
    intros p [id Hid]%Hp. eapply list_elem_of_lookup_2. by eapply knows_ids.
  - intros p r Hr%bt_get_elem. apply Ef1 in Hr. tauto.
  - intros p Hp. destruct (Ef2 p Hp) as (r & Hr & _). by eapply elem_bt_get.
  - intros p r input Hr. pose proof (bt_get_elem _ _ _ Hr) as [Hin Ep]%Ef1.
    destruct (find_match_database engine) as [db|]; [|subst find; by apply not_elem_of_nil in Hin].
    exists db. split; [done|].
    pose proof (database_matches_any_exact f _ db input [p] E2) as Ha.
    replace (if regex_is_match r [] then _ else _) with (existsb (fun p => vs_matches (f p) input) [p]).
    { apply Ha. by intros q ->%list_elem_of_singleton. }
    cbn. rewrite orb_false_r. unfold f. rewrite Hr. destruct (regex_is_match r []) eqn:Em; [apply (scan_any (ScanLaws := SL))|done].
Qed.

(** The helpers of the engine against those of the reference. *)
Lemma filter_matches_any_answers engine any find input patterns : compiled engine any find ->
  (dynamic_regex engine = false -> forall p, p ∈ patterns -> p ∈ any) ->
  answers (filter_matches_any engine input patterns) (literal_matches_any vs_matches any input patterns).
Proof.
  intros C Hd. unfold filter_matches_any, literal_matches_any. set (empty := matches_any_empty engine) in *.
  assert (forall p, bool_decide (is_Some (bt_get p empty)) = regex_literal any p) as He.
  { intros p. apply eq_true_iff_eq. rewrite bool_decide_eq_true. apply (empty_exact _ _ _ C). }
  assert (existsb (fun '(p, r) => bool_decide (p ∈ patterns) && regex_is_match r input) empty =
    existsb (fun p => regex_literal any p && pattern_matches input p) patterns) as ->.
  { apply eq_true_iff_eq. rewrite !existsb_elem. unfold pattern_matches. split.
    - intros ([p r] & Hin & [Hp Hm]%andb_true_iff). apply bool_decide_eq_true in Hp. exists p. split; [done|].
      rewrite (empty_sound _ _ _ C p r Hin), Hm, andb_true_r. apply (empty_exact _ _ _ C). by eapply elem_bt_get.
    - intros (p & Hp & [Hl Hm]%andb_true_iff). apply (empty_exact _ _ _ C) in Hl as [r Hr%bt_get_elem]. exists (p, r).
      split; [done|]. rewrite (empty_sound _ _ _ C p r Hr) in Hm. rewrite Hm, andb_true_r. by apply bool_decide_eq_true. }
  destruct (existsb _ patterns); [apply answers_refl|].
  rewrite (filter_ext (fun p => negb (bool_decide (is_Some (bt_get p empty)))) (fun p => negb (regex_literal any p))) by (intros; by rewrite He).
  set (others := List.filter _ patterns).
  assert (forall p, p ∈ others -> p ∈ patterns /\ regex_literal any p = false) as Hothers.
  { intros p. unfold others. by rewrite !list_elem_of_In, filter_In, negb_true_iff. }
  assert (forall p, p ∈ others -> compiled_in (matches_any_database engine) p = bool_decide (p ∈ any)) as Hc.
  { intros p [_ Hl]%Hothers. apply eq_true_iff_eq. rewrite bool_decide_eq_true. unfold compiled_in. split.
    - destruct (matches_any_database engine) as [db|] eqn:Edb; [|done]. intros H%bool_decide_eq_true. by eapply (any_only _ _ _ C).
    - intros Hp. destruct (any_known _ _ _ C p Hp Hl) as (db & -> & ?). by apply bool_decide_eq_true. }
  assert (forallb (compiled_in (matches_any_database engine)) others = forallb (fun p => bool_decide (p ∈ any)) others) as ->.
  { clearbody others. clear Hothers. induction others as [|p l IH]; [done|]. cbn. rewrite Hc, IH; [done|intros; apply Hc; set_solver|left]. }
  destruct (forallb _ others) eqn:Ea.
  - rewrite andb_false_r. destruct others as [|p0 l]; [apply answers_refl|]. rewrite forallb_forall in Ea.
    assert (forall p, p ∈ p0 :: l -> exists db, matches_any_database engine = Some db /\ is_Some (bt_get p (pattern_ids db))) as Hk.
    { intros p Hp. apply (any_known _ _ _ C); [|by apply Hothers]. rewrite list_elem_of_In in Hp. by apply Ea, bool_decide_eq_true in Hp. }
    destruct (Hk p0 (list_elem_of_here _ _)) as (db & Edb & _). rewrite Edb. cbn [or_err mbind res_bind]. apply (any_exact _ _ _ C); [done|].
    intros p Hp. destruct (Hk p Hp) as (db' & Edb' & ?). congruence.
  - destruct others as [|p0 l] eqn:El; [done|]. destruct (dynamic_regex engine) eqn:Ed; [apply answers_refl|].
    exfalso. enough (false = true) by done. rewrite <-Ea. apply forallb_forall. intros p Hp%list_elem_of_In.
    apply bool_decide_eq_true, Hd; [done|]. by apply Hothers.
Qed.

Lemma filter_find_match_answers engine any find input p : compiled engine any find ->
  (dynamic_regex engine = false -> p ∈ find) ->
  answers (filter_find_match engine input p) (literal_find_match vs_matches find input p).
Proof.
  intros C Hd. unfold filter_find_match, literal_find_match, matches_empty, pattern_matches.
  destruct (bt_get p (find_match_exact engine)) as [r|] eqn:Er.
  - rewrite bool_decide_eq_true_2, andb_false_r by eauto. destruct (find_exact _ _ _ C p r input Er) as (db & -> & Ha).
    destruct (exact_sound _ _ _ C p r Er) as [Ep Hp]. rewrite (bool_decide_eq_true_2 (p ∈ find)) by done. rewrite Ep.
    cbn [or_err mbind res_bind andb]. destruct Ha as [[E ?]|E]; [left; by rewrite E|rewrite E; right]. cbn [mbind res_bind].
    destruct (regex_is_match r []); cbn [negb andb]; [|by destruct (vs_matches p input)].
    destruct input as [|b input]; cbn [non_empty]; [|done].
    unfold matched_text, slice. destruct (regex_find r []) as [[a b]|]; [|done]. by rewrite drop_nil, take_nil.
  - rewrite (bool_decide_eq_false_2 (is_Some None)) by (by intros [? ?]). destruct (dynamic_regex engine).
    + rewrite (bool_decide_eq_false_2 (p ∈ find)); [apply answers_refl|]. intros [r Hr]%(find_known _ _ _ C). congruence.
    + destruct (find_known _ _ _ C p) as [r Hr]; [by apply Hd|]. congruence.
Qed.
End exact.

(** ** What the collector sees

    A node the collector reaches: it does not look into callees. *)
Inductive collected : BetterleaksExpr -> BetterleaksExpr -> Prop :=
  | collected_refl e : collected e e
  | collected_child x c e : c ∈ collected_children e -> collected x c -> collected x e.

#[export] Hint Constructors collected : kf.

Lemma collect_list_unfold l sets :
  (fix collect_all (l : list BetterleaksExpr) (sets : pattern_sets) : res pattern_sets :=
    match l with [] => Ok sets | x :: l => sets ← collect_filter_regex_patterns x sets; collect_all l sets end) l sets
  = collect_list l sets.
Proof. revert sets. induction l as [|x l IH]; intros sets; cbn; [done|]. by destruct (collect_filter_regex_patterns x sets); cbn. Qed.

Lemma bind_ret {A} (m : res A) : (m ≫= Ok) = m.
Proof. by destruct m. Qed.

Lemma collect_unfold e sets :
  collect_filter_regex_patterns e sets = (sets ← own_patterns e sets; collect_list (collected_children e) sets).
Proof.
  destruct e; cbn [collect_filter_regex_patterns own_patterns collected_children children mbind res_bind collect_list];
    rewrite ?collect_list_unfold; try done.
  all: try (by destruct (collect_filter_regex_patterns _ sets)).
  all: destruct (collect_filter_regex_patterns _ sets) as [s| |]; cbn; try done; try (by rewrite bind_ret).
  all: try (by destruct (collect_filter_regex_patterns _ s)).
  all: destruct (collect_filter_regex_patterns _ s) as [s'| |]; cbn; try done; by rewrite bind_ret.
Qed.

Definition own_dynamic (e : BetterleaksExpr) : bool :=
  match e with Call callee arguments => dynamic_call (expression_name callee) arguments | _ => false end.

Lemma has_dynamic_unfold e :
  has_dynamic_regex e = own_dynamic e || existsb has_dynamic_regex (collected_children e).
Proof. destruct e; cbn; rewrite ?orb_false_r, ?orb_assoc; done. Qed.

(** The patterns of a call that takes a regex are in the sets, or it is dynamic. *)
Definition call_served (dynamic : bool) (any find : list bytes) (name : option bytes) (arguments : list BetterleaksExpr) : Prop :=
  (is_matches_any name = true -> dynamic = true \/
    exists a lits, arguments = [a; Array (map String lits)] /\ forall p, p ∈ lits -> p ∈ any) /\
  (is_find_match name = true -> dynamic = true \/ exists a p, arguments = [a; String p] /\ p ∈ find).

Definition served (dynamic : bool) (any find : list bytes) (e : BetterleaksExpr) : Prop :=
  forall callee arguments, collected (Call callee arguments) e ->
    call_served dynamic any find (expression_name callee) arguments.

Definition sets_le (s t : pattern_sets) : Prop :=
  (forall p, p ∈ fst s -> p ∈ fst t) /\ (forall p, p ∈ snd s -> p ∈ snd t).
#[export] Instance sets_le_order : PreOrder sets_le.
Proof. unfold sets_le. split; [split; auto|]. intros s t u [] []. split; auto. Qed.

Lemma collect_call_le name arguments s t : collect_call name arguments s = Ok t -> sets_le s t.
Proof.
  unfold collect_call. intros H. repeat case_match; simplify_eq/=; try done; split; cbn; intros; auto;
    apply set_insert_all; auto.
Qed.

Lemma string_literals nodes : forallb is_string_literal nodes = true -> nodes = map String (flat_map string_value nodes).
Proof.
  induction nodes as [|n nodes IH]; [done|]. cbn. intros [Hn Hl]%andb_true_iff. destruct n; try done.
  cbn. f_equal. auto.
Qed.

Lemma collect_call_served name arguments s t : collect_call name arguments s = Ok t ->
  call_served (dynamic_call name arguments) (fst t) (snd t) name arguments.
Proof.
  intros H. unfold collect_call, dynamic_call in *. split; intros Hn; rewrite Hn in *.
  - destruct arguments as [|a [|b l]]; auto. destruct b, l; auto.
    destruct (forallb is_string_literal nodes) eqn:El; [right|by left]. injection H as <-. cbn.
    exists a, (flat_map string_value nodes). split; [by rewrite <-string_literals|]. intros. apply set_insert_all. auto.
  - destruct (is_matches_any name) eqn:Em.
    { exfalso. destruct name as [name|]; [|done]. unfold is_matches_any, is_find_match in *.
      apply orb_true_iff in Hn, Em.
      destruct Hn as [Hn|Hn], Em as [Em|Em]; apply bool_decide_eq_true in Hn, Em; rewrite Hn in Em; by vm_compute in Em. }
    destruct arguments as [|a [|b l]]; auto. destruct b, l; auto. injection H as <-.
    right. exists a, value. split; [done|]. apply set_insert_elem. auto.
Qed.

Lemma call_served_mono d d' any any' find find' name arguments :
  (d = true -> d' = true) -> sets_le (any, find) (any', find') ->
  call_served d any find name arguments -> call_served d' any' find' name arguments.
Proof.
  intros Hd [Ha Hf] [H1 H2]. split; intros Hn.
  - destruct (H1 Hn) as [?|(a & lits & ? & ?)]; [auto|]. right. exists a, lits. auto.
  - destruct (H2 Hn) as [?|(a & p & ? & ?)]; [auto|]. right. exists a, p. auto.
Qed.

Lemma collect_served_list l : Forall (fun e => forall s t, collect_filter_regex_patterns e s = Ok t ->
    sets_le s t /\ served (has_dynamic_regex e) (fst t) (snd t) e) l ->
  forall s t, collect_list l s = Ok t -> sets_le s t /\
    forall e, e ∈ l -> served (existsb has_dynamic_regex l) (fst t) (snd t) e.
Proof.
  induction 1 as [|e l He _ IH]; intros s t; cbn [collect_list]; [intros [= <-]; split; [done|by intros ? []%not_elem_of_nil]|].
  intros (s1 & H1 & H2)%bind_ok. apply He in H1 as [L1 S1]. apply IH in H2 as [L2 S2]. split; [by etrans|].
  intros e' [->|Hin]%elem_of_cons callee arguments Hc.
  - eapply (call_served_mono _ _ s1.1 _ s1.2); [|by destruct s1, t|by apply S1]. cbn. by intros ->.
  - eapply (call_served_mono _ _ t.1 _ t.2); [|done|by eapply S2]. cbn. intros ->. apply orb_true_r.
Qed.

Lemma collect_served e : forall s t, collect_filter_regex_patterns e s = Ok t ->
  sets_le s t /\ served (has_dynamic_regex e) (fst t) (snd t) e.
Proof.
  induction e as [e IH] using expr_nested_ind. intros s t. rewrite collect_unfold. intros (s1 & H1 & H2)%bind_ok.
  apply collect_served_list in H2 as [L2 S2].
  2:{ apply Forall_forall. intros x Hx. rewrite Forall_forall in IH. apply IH.
      destruct e; cbn in *; try done. by apply elem_of_cons; right. }
  assert (sets_le s s1) as L1 by (destruct e; cbn in H1; simplify_eq; try done; by eapply collect_call_le).
  split; [by etrans|]. intros callee arguments Hc. rewrite has_dynamic_unfold. inversion Hc as [? E|? c ? Hin Hx]; subst.
  - cbn [own_patterns own_dynamic] in *. eapply (call_served_mono _ _ s1.1 _ s1.2); [|by destruct s1, t|by eapply collect_call_served].
    by intros ->.
  - eapply (call_served_mono _ _ t.1 _ t.2); [|done|by eapply S2]. intros ->. apply orb_true_r.
Qed.

(** Every call with a regex that the collector reaches is served by the engine. *)
Lemma expressions_served expressions sets e : collect_list expressions ([], []) = Ok sets -> e ∈ expressions ->
  served (existsb has_dynamic_regex expressions) (fst sets) (snd sets) e.
Proof.
  intros H. apply collect_served_list in H as [_ H]; [auto|]. apply Forall_forall. intros. by apply collect_served.
Qed.
