(* ===== verification/Filter.v ===== *)
(** * Evaluating Betterleaks filters

    The evaluator of [kingfisher-rules/src/betterleaks_filter.rs]: variables, the
    confidence a filter sets, and the cache of the regex results of source lines.
    A computation of the evaluator is a function on its state, [M]; a call gets
    its arguments as computations, since the collection functions run a predicate
    once per item. [eval] and [eval_chain] are two results of one recursion.

    What the evaluator promises is in [FilterExact.v]. *)

From Stdlib Require Import ZArith Lia Bool.
From stdpp Require Import base list numbers option gmap.
From S2P Require Import Rule.
From S2P Require Import Prelude Text Ordered Expr FilterValue FilterEngine.

(** A borrowed [&str]. *)
Abbreviation str := (Z * nat)%type.
Definition borrow (s : str) : Cow := Borrowed (fst s) (snd s).

(** [Confidence::from_str] *)
Definition confidence_from_str `{Library} (s : bytes) : option Confidence :=
  let s := to_lowercase s in
  if s is "low" then Some Low else if s is "medium" then Some Medium else if s is "high" then Some High else None.

(** [XxHash3] of 128 bits. *)
Class Hasher := xxh3_digest128 : bytes -> Z.
Definition le_bytes8 (n : Z) : bytes := map (fun i => Z.shiftr n (8 * Z.of_nat i) mod 256)%Z (seq 0 8).

(** ** The line cache *)

Abbreviation LineCacheKey := (Z * Z * Z * Z * Z)%type.
Record CachedPatterns := { patterns : list bytes; matched : bool }.
Abbreviation BetterleaksFilterLineCache := (gmap LineCacheKey (list CachedPatterns)).

Section cache.
Context {Hash : Hasher}.

Definition patterns_hash (patterns : list bytes) : Z :=
  xxh3_digest128 (flat_map (fun pattern => le_bytes8 (Z.of_nat (length pattern)) ++ pattern) patterns).

Definition cache_find (cache : BetterleaksFilterLineCache) (key : LineCacheKey) (ps : list bytes) : option bool :=
  match cache !! key with
  | Some results => option_map matched (List.find (fun result => bool_decide (patterns result = ps)) results)
  | None => None
  end.

Definition cache_push (cache : BetterleaksFilterLineCache) (key : LineCacheKey) (ps : list bytes) (m : bool)
    : BetterleaksFilterLineCache :=
  <[key := default [] (cache !! key) ++ [{| patterns := ps; matched := m |}]]> cache.
End cache.

(** ** Computations of the evaluator *)

Section state.
Context {F : F64}.

Record Evaluator := {
  variables : gmap bytes Value;
  confidence : option Confidence;
  line_cache : option BetterleaksFilterLineCache
}.

Definition set_variables (v : gmap bytes Value) (s : Evaluator) : Evaluator :=
  {| variables := v; confidence := confidence s; line_cache := line_cache s |}.
Definition set_cache (c : option BetterleaksFilterLineCache) (s : Evaluator) : Evaluator :=
  {| variables := variables s; confidence := confidence s; line_cache := c |}.
Definition put_confidence (c : Confidence) (s : Evaluator) : Evaluator :=
  {| variables := variables s; confidence := Some c; line_cache := line_cache s |}.

Definition M (A : Type) := Evaluator -> res A * Evaluator.

#[export] Instance M_ret : MRet M := fun A a s => (Ok a, s).
#[export] Instance M_bind : MBind M := fun A B f m s =>
  match m s with
  | (Ok a, s) => f a s
  | (Err e, s) => (Err e, s)
  | (Panic, s) => (Panic, s)
  end.

Lemma bind_run {A B} (m : M A) (f : A -> M B) s :
  (m ≫= f) s = match m s with (Ok a, s) => f a s | (Err e, s) => (Err e, s) | (Panic, s) => (Panic, s) end.
Proof. done. Qed.

Lemma ret_run {A} (a : A) s : (mret a : M A) s = (Ok a, s).
Proof. done. Qed.

Definition lift {A} (r : res A) : M A := fun s => (r, s).
Definition modify (f : Evaluator -> Evaluator) : M () := fun s => (Ok (), f s).
Definition get_variable (name : bytes) : M (option Value) := fun s => (Ok (variables s !! name), s).
Definition insert_variable (name : bytes) (v : Value) : M () :=
  modify (fun s => set_variables (<[name := v]> (variables s)) s).
Definition restore_variable (name : bytes) (previous : option Value) (s : Evaluator) : Evaluator :=
  match previous with
  | Some v => set_variables (<[name := v]> (variables s)) s
  | None => set_variables (delete name (variables s)) s
  end.
(** Run a computation, then put a variable back, whatever the result is. *)
Definition restoring {A} (name : bytes) (previous : option Value) (m : M A) : M A := fun s =>
  let '(r, s) := m s in (r, restore_variable name previous s).

(** Evaluate one after the other. *)
Fixpoint eval_arguments (arguments : list (M Value)) : M (list Value) :=
  match arguments with
  | [] => mret []
  | m :: arguments => v ← m; l ← eval_arguments arguments; mret (v :: l)
  end.
End state.

(** ** The evaluator *)

Section evaluator.
Context {F : F64} {Mem : Memory} {Lib : Library} {Bld : Build} {RL : RegexLib} {Hash : Hasher}.
Context (Engine : RegexEngine) (source_line : str) (line_range : Z * Z).

Definition same_line (input : Cow) : bool :=
  (as_ptr input =? source_line.1)%Z && (cow_len input =? source_line.2).

Definition cache_key (input : Cow) (ps : list bytes) : LineCacheKey :=
  (as_ptr input, Z.of_nat (cow_len input), line_range.1, line_range.2, patterns_hash ps).

(** [matchesAny] of one text. *)
Definition matches_any_text (input : Value) (patterns : Value) : M Value :=
  match res_ok (strings patterns), input with
  | Some ps, Value.String input => fun s =>
    let scan := Engine.(engine_matches_any) (text_of input) ps in
    if same_line input then
      match line_cache s with
      | Some cache =>
        let key := cache_key input ps in
        match cache_find cache key ps with
        | Some m => (Ok (Value.Bool m), s)
        | None =>
          match scan with
          | Ok m => (Ok (Value.Bool m), set_cache (Some (cache_push cache key ps m)) s)
          | r => (m ← r; Ok (Value.Bool m), s)
          end
        end
      | None => (m ← scan; Ok (Value.Bool m), s)
      end
    else (m ← scan; Ok (Value.Bool m), s)
  | _, _ => mret (Value.Bool false)
  end.

(** The texts of an array, until one matches. *)
Fixpoint matches_any_texts (values : list Value) (patterns : Value) : M Value :=
  match values with
  | [] => mret (Value.Bool false)
  | v :: values =>
    r ← matches_any_text v patterns;
    match r with Value.Bool true => mret (Value.Bool true) | _ => matches_any_texts values patterns end
  end.

Definition matches_any (arguments : list Value) : M Value :=
  match arguments with
  | [Value.Array values; patterns] =>
    if forallb is_string values then matches_any_texts values patterns else mret (Value.Bool false)
  | [input; patterns] => matches_any_text input patterns
  | _ => lift (bail "matchesAny expects two arguments")
  end.

Definition find_match (arguments : list Value) : res Value :=
  match arguments with
  | [input; pattern] =>
    input ← as_string input; pattern ← as_string pattern;
    text ← Engine.(engine_find_match) input pattern; Ok (value_string text)
  | _ => bail "findMatch expects two arguments"
  end.

Definition set_confidence (arguments : list Value) : M Value :=
  match arguments with
  | [value] =>
    value ← lift (as_string value);
    c ← lift (or_err (Failed "Invalid confidence level") (confidence_from_str value));
    _ ← modify (put_confidence c);
    mret (value_string value)
  | _ => lift (bail "filter.setConfidence expects one argument")
  end.

(** ** Collection functions *)

Definition COLLECTIONS : list String.string :=
  ["any"; "all"; "none"; "one"; "filter"; "map"; "count"; "find"; "findLast"; "findIndex"; "findLastIndex"]%string.

(** What the function has seen: the output, the count, the last found. *)
Record Seen := { output : list Value; count : Z; found : Value }.

Definition collection_result (name : bytes) (seen : Seen) : Value :=
  if (name is "filter") || (name is "map") then Value.Array (output seen)
  else if name is "count" then Value.Integer (count seen)
  else if one_of name ["find"; "findLast"; "findIndex"; "findLastIndex"]%string then found seen
  else if (name is "all") || (name is "none") then Value.Bool true
  else if name is "one" then Value.Bool (count seen =? 1)%Z
  else Value.Bool false.

(** One item: what is seen after it, or the result that ends the loop. *)
Definition collection_item (name : bytes) (index : nat) (item value : Value) (seen : Seen) : Value + Seen :=
  if name is "map" then inr {| output := output seen ++ [value]; count := count seen; found := found seen |}
  else if truthy value then
    let seen := {| output := output seen; count := (count seen + 1)%Z; found := found seen |} in
    if name is "any" then inl (Value.Bool true)
    else if name is "none" then inl (Value.Bool false)
    else if (name is "one") && (1 <? count seen)%Z then inl (Value.Bool false)
    else if name is "find" then inl item
    else if name is "findIndex" then inl (Value.Integer (Z.of_nat index))
    else if name is "findLast" then inr {| output := output seen; count := count seen; found := item |}
    else if name is "findLastIndex" then
      inr {| output := output seen; count := count seen; found := Value.Integer (Z.of_nat index) |}
    else if name is "filter" then inr {| output := output seen ++ [item]; count := count seen; found := found seen |}
    else inr seen
  else if name is "all" then inl (Value.Bool false)
  else inr seen.

Definition POINTER : bytes := bs "#".
Definition POINTER_INDEX : bytes := bs "#index".

Fixpoint collection_loop (name : bytes) (predicate : M Value) (index : nat) (items : list Value) (seen : Seen) : M Value :=
  match items with
  | [] => mret (collection_result name seen)
  | item :: items =>
    _ ← insert_variable POINTER item;
    _ ← insert_variable POINTER_INDEX (Value.Integer (Z.of_nat index));
    value ← predicate;
    match collection_item name index item value seen with
    | inl result => mret result
    | inr seen => collection_loop name predicate (S index) items seen
    end
  end.

Definition call_collection (name : bytes) (arguments : list (M Value)) : M Value :=
  match arguments with
  | [items; predicate] =>
    items ← items;
    match items with
    | Value.Array items =>
      previous ← get_variable POINTER;
      previous_index ← get_variable POINTER_INDEX;
      restoring POINTER_INDEX previous_index (restoring POINTER previous
        (collection_loop name predicate 0 items {| output := []; count := 0; found := Value.Nil |}))
    | _ => lift (bail "first argument must be an array")
    end
  | _ => lift (bail "expects two arguments")
  end.

(** ** Calls *)

Definition SIMPLE_BUILTINS : list String.string :=
  ["type"; "string"; "int"; "float"; "trim"; "trimPrefix"; "trimSuffix"; "repeat"; "indexOf"; "hasPrefix";
   "hasSuffix"; "keys"; "values"; "reverse"; "sort"; "uniq"; "flatten"; "concat"; "first"; "last"; "get"; "sum";
   "mean"; "abs"; "ceil"; "floor"; "round"; "toJSON"; "fromJSON"]%string.

Definition hex_digit (n : Z) : byte := if (n <? 10)%Z then (48 + n)%Z else (87 + n)%Z.
Definition hex_encode (l : bytes) : bytes := flat_map (fun b => [hex_digit (b / 16); hex_digit (b mod 16)]%Z) l.

(** The functions of values; [None] for a name that is none of them. *)
Definition value_function (name : bytes) (arguments : list Value) : option (res Value) :=
  if name is "malformedPrivateKey" then
    Some match arguments with
    | [input] => input ← as_string input; Ok (Value.Bool (is_malformed input))
    | _ => bail "malformedPrivateKey expects one argument"
    end
  else if one_of name ["filter.findMatch"; "findMatch"]%string then Some (find_match arguments)
  else if one_of name ["filter.containsAny"; "containsAny"]%string then Some (contains_any arguments)
  else if one_of name ["startsWithAny"; "intersects"]%string then Some (string_set_helper arguments name)
  else if name is "crypto.sha256" then
    Some match arguments with
    | [input] => input ← as_string input; Ok (value_string (hex_encode (sha256 input)))
    | _ => bail "crypto.sha256 expects one argument"
    end
  else if one_of name ["filter.entropy"; "entropy"]%string then Some (entropy arguments)
  else if one_of name ["filter.tokenRatio"; "tokenRatio"]%string then Some (token_ratio arguments)
  else if one_of name ["filter.failsTokenEfficiency"; "failsTokenEfficiency"]%string then
    Some (fails_token_efficiency arguments)
  else if one_of name ["len"; "size"]%string then Some (value_length arguments)
  else if one_of name ["lower"; "upper"]%string then
    Some match arguments with
    | [value] => s ← as_string value; Ok (value_string (if name is "lower" then to_lowercase s else to_uppercase s))
    | _ => bail "lower expects one argument"
    end
  else if name is "max" then Some (min_or_max arguments true)
  else if name is "min" then Some (min_or_max arguments false)
  else if name is "split" then Some (split arguments)
  else if name is "join" then Some (join arguments)
  else if name is "lastIndexOf" then Some (last_index_of arguments)
  else if name is "replace" then Some (replace arguments)
  else if name is "fromBase64" then Some (from_base64 arguments)
  else if one_of name SIMPLE_BUILTINS then Some (simple_builtin name arguments)
  else None.

Definition call_named (name : bytes) (arguments : list (M Value)) : M Value :=
  if one_of name COLLECTIONS then call_collection name arguments
  else
    arguments ← eval_arguments arguments;
    if one_of name ["filter.matchesAny"; "matchesAny"]%string then matches_any arguments
    else if one_of name ["filter.setConfidence"; "setConfidence"]%string then set_confidence arguments
    else lift (default (Err Unsupported) (value_function name arguments)).

Definition call_method (receiver : Value) (name : bytes) (arguments : list Value) : res Value :=
  if name is "contains" then
    match arguments with
    | [needle] => l ← as_string receiver; n ← as_string needle; Ok (Value.Bool (contains_sub n l))
    | _ => bail "contains expects one argument"
    end
  else if name is "startsWith" then
    match arguments with
    | [prefix] => l ← as_string receiver; n ← as_string prefix; Ok (Value.Bool (starts_with n l))
    | _ => bail "startsWith expects one argument"
    end
  else if name is "endsWith" then
    match arguments with
    | [suffix] => l ← as_string receiver; n ← as_string suffix; Ok (Value.Bool (ends_with n l))
    | _ => bail "endsWith expects one argument"
    end
  else if name is "substring" then substring receiver arguments
  else if name is "lastIndexOf" then last_index_of (receiver :: arguments)
  else if name is "replace" then replace (receiver :: arguments)
  else Err Unsupported.

(** ** Operators *)

Definition unary (operator : bytes) (v : Value) : res Value :=
  if one_of operator ["!"; "not"]%string then Ok (Value.Bool (negb (truthy v)))
  else if operator is "-" then
    match v with
    | Value.Integer n =>
      if (n =? I64_MIN)%Z then if overflow_checks then Panic else Ok (Value.Integer n)
      else Ok (Value.Integer (- n))
    | Value.Float x => Ok (Value.Float (f_neg x))
    | _ => bail "cannot negate"
    end
  else Err Unsupported.

(** The operand decides alone. *)
Definition short_circuit (operator : bytes) (lhs : Value) : option Value :=
  if one_of operator ["||"; "or"]%string && truthy lhs then Some (Value.Bool true)
  else if one_of operator ["&&"; "and"]%string && negb (truthy lhs) then Some (Value.Bool false)
  else if (operator is "??") && negb (is_nil lhs) then Some lhs
  else None.

(** [checked_rem] *)
Definition checked_rem (a b : Z) : option Z :=
  if (b =? 0)%Z || ((a =? I64_MIN)%Z && (b =? -1)%Z) then None else Some (Z.rem a b).

Definition compare_values (operator : bytes) (lhs rhs : Value) : res Value :=
  ordering ← match lhs, rhs with
    | Value.String x, Value.String y => Ok (bytes_cmp (text_of x) (text_of y))
    | _, _ => x ← as_f64 lhs; y ← as_f64 rhs; Ok (f_total_cmp x y)
    end;
  Ok (Value.Bool (
    if operator is "<" then match ordering with Lt => true | _ => false end
    else if operator is "<=" then match ordering with Gt => false | _ => true end
    else if operator is ">" then match ordering with Gt => true | _ => false end
    else match ordering with Lt => false | _ => true end)).

Definition add_values (lhs rhs : Value) : res Value :=
  match lhs, rhs with
  | Value.Integer x, Value.Integer y =>
    if i64_ok (x + y) then Ok (Value.Integer (x + y)) else bail "integer overflow"
  | Value.String x, Value.String y => Ok (value_string (text_of x ++ text_of y))
  | _, _ => x ← as_f64 lhs; y ← as_f64 rhs; Ok (Value.Float (f_add x y))
  end.

(** [from..=to] *)
Definition range_values (from to : Z) : list Value :=
  map (fun i => Value.Integer (from + Z.of_nat i)) (seq 0 (Z.to_nat (to - from + 1))).

Definition in_value (lhs rhs : Value) : res Value :=
  match rhs with
  | Value.Array l => Ok (Value.Bool (existsb (fun v => values_equal lhs v) l))
  | Value.String s => x ← as_string lhs; Ok (Value.Bool (contains_sub x (text_of s)))
  | Value.Map l => x ← as_string lhs; Ok (Value.Bool (bool_decide (is_Some (bt_get x l))))
  | _ => Ok (Value.Bool false)
  end.

Definition text_operator (lhs rhs : Value) (f : bytes -> bytes -> bool) : res Value :=
  x ← as_string lhs; y ← as_string rhs; Ok (Value.Bool (f x y)).

Definition binary (operator : bytes) (lhs rhs : Value) : res Value :=
  if one_of operator ["||"; "or"; "&&"; "and"]%string then Ok (Value.Bool (truthy rhs))
  else if operator is "??" then Ok rhs
  else if operator is "==" then Ok (Value.Bool (values_equal lhs rhs))
  else if operator is "!=" then Ok (Value.Bool (negb (values_equal lhs rhs)))
  else if one_of operator ["<"; "<="; ">"; ">="]%string then compare_values operator lhs rhs
  else if operator is "+" then add_values lhs rhs
  else if operator is "-" then numeric_binary lhs rhs f_sub
  else if operator is "*" then numeric_binary lhs rhs f_mul
  else if operator is "/" then
    y ← as_f64 rhs;
    if f_eq y f_zero then bail "division by zero" else x ← as_f64 lhs; Ok (Value.Float (f_div x y))
  else if operator is "%" then
    x ← as_int lhs; y ← as_int rhs;
    n ← or_err (Failed "invalid integer remainder") (checked_rem x y); Ok (Value.Integer n)
  else if one_of operator ["**"; "^"]%string then numeric_binary lhs rhs f_pow
  else if operator is ".." then
    from ← as_int lhs; to ← as_int rhs;
    if (1000000 <? i64_saturate (to - from))%Z then bail "range exceeds expression collection limit"
    else Ok (Value.Array (range_values from to))
  else if operator is "contains" then text_operator lhs rhs (fun x y => contains_sub y x)
  else if operator is "startsWith" then text_operator lhs rhs (fun x y => starts_with y x)
  else if operator is "endsWith" then text_operator lhs rhs (fun x y => ends_with y x)
  else if operator is "matches" then
    pattern ← as_string rhs; regex ← compile_go_regex pattern; x ← as_string lhs;
    Ok (Value.Bool (regex_is_match regex x))
  else if operator is "in" then in_value lhs rhs
  else Err Unsupported.

(** ** Expressions

    [run] gives both [eval] and [eval_chain] of an expression: [eval_chain] calls
    [eval] on the same expression, and [eval] of a chain calls [eval_chain]. *)

(** What a chain makes of a receiver: [None] skips the rest. *)
Definition with_receiver (receiver : M (option Value)) (optional : bool) (k : Value -> M Value) : M (option Value) :=
  r ← receiver;
  match r with
  | None => mret None
  | Some r => if optional && is_nil r then mret None else v ← k r; mret (Some v)
  end.

(** [call_method] on a receiver, after the method and the arguments. *)
Definition method_call (property : M Value) (arguments : list (M Value)) (receiver : Value) : M Value :=
  method ← property; method ← lift (as_string method);
  arguments ← eval_arguments arguments; lift (call_method receiver method arguments).

Definition slice_call (from to : M Value) (v : Value) : M Value :=
  from ← from; from ← lift (as_int from); to ← to; to ← lift (as_int to); lift (value_slice v from to).

Fixpoint eval_sequence (nodes : list (M Value)) (v : Value) : M Value :=
  match nodes with [] => mret v | node :: nodes => v ← node; eval_sequence nodes v end.

(** The pairs of a map; [None] is a node that is no pair. *)
Fixpoint eval_pairs (pairs : list (option (M Value * M Value))) (values : list (bytes * Value)) : M Value :=
  match pairs with
  | [] => mret (Value.Map values)
  | Some (key, value) :: pairs =>
    key ← key; key ← lift (as_string key); v ← value; eval_pairs pairs (bt_insert key v values)
  | None :: _ => lift (Err Unsupported)
  end.

(** Names that [call] resolves before it looks at the receiver. *)
Definition namespaced (name : option bytes) : bool :=
  match name with
  | Some name => starts_with (bs "filter.") name || starts_with (bs "crypto.") name
  | None => false
  end.

Definition named_call (name : option bytes) (arguments : list (M Value)) : M Value :=
  match name with Some name => call_named name arguments | None => lift (Err Unsupported) end.

Fixpoint run (expression : BetterleaksExpr) : M Value * M (option Value) :=
  let eval e := fst (run e) in
  let eval_chain e := snd (run e) in
  let evals := map eval in
  let value : M Value :=
    match expression with
    | Nil => mret Value.Nil
    | Identifier value | Pointer value => v ← get_variable value; mret (default Value.Nil v)
    | Integer value => mret (Value.Integer value)
    | Float value => x ← lift (or_err (Failed "invalid float literal") (f_parse value)); mret (Value.Float x)
    | Bool value => mret (Value.Bool value)
    | String value => mret (value_string value)
    | Unary operator node => v ← eval node; lift (unary operator v)
    | Binary operator lhs rhs =>
      l ← eval lhs;
      match short_circuit operator l with
      | Some v => mret v
      | None => r ← eval rhs; lift (binary operator l r)
      end
    | Chain node => v ← eval_chain node; mret (default Value.Nil v)
    | Member node property optional method =>
      if method then lift (Err Unsupported)
      else
        container ← eval node;
        if optional && is_nil container then mret Value.Nil
        else p ← eval property; lift (member container p)
    | Slice node from to => v ← eval node; slice_call (eval from) (eval to) v
    | Call callee arguments =>
      let name := expression_name callee in
      if namespaced name then named_call name (evals arguments)
      else match callee with
      | Member node property _ true =>
        receiver ← eval node; method_call (eval property) (evals arguments) receiver
      | _ => named_call name (evals arguments)
      end
    | Builtin name arguments => call_named name (evals arguments)
    | Conditional cond exp1 exp2 => c ← eval cond; if truthy c then eval exp1 else eval exp2
    | VariableDeclarator name value expr =>
      v ← eval value;
      previous ← get_variable name;
      _ ← insert_variable name v;
      restoring name previous (eval expr)
    | Sequence nodes => eval_sequence (evals nodes) Value.Nil
    | Array nodes => l ← eval_arguments (evals nodes); mret (Value.Array l)
    | Map pairs =>
      eval_pairs (map (fun pair =>
        match pair with Pair key value => Some (eval key, eval value) | _ => None end) pairs) []
    | Pair _ _ => lift (Err Unsupported)
    | Predicate node => eval node
    end in
  (value,
   match expression with
   | Member node property optional false =>
     with_receiver (eval_chain node) optional (fun receiver => p ← eval property; lift (member receiver p))
   | Slice node from to =>
     with_receiver (eval_chain node) false (slice_call (eval from) (eval to))
   | Call (Member node property optional true) arguments =>
     with_receiver (eval_chain node) optional (method_call (eval property) (evals arguments))
   | _ => v ← value; mret (Some v)
   end).

Definition eval (expression : BetterleaksExpr) : M Value := fst (run expression).
Definition eval_chain (expression : BetterleaksExpr) : M (option Value) := snd (run expression).
End evaluator.

(** ** Evaluating a filter *)

(** Candidate data; [usize] indexes are integers below 2^64. *)
Record BetterleaksFilterContext := {
  path : str;
  attributes : option (list (bytes * str));
  secret : str;
  full_match : str;
  line : str;
  fragment_raw : str;
  match_start_idx : Z;
  match_end_idx : Z;
  match_line_start_idx : Z;
  match_line_end_idx : Z;
  rule_id : str;
  description : str;
  captures : list (bytes * bytes)
}.

Record BetterleaksFilterOutcome := { discard : bool; outcome_confidence : option Confidence }.

Section evaluate.
Context {F : F64} {Mem : Memory} {Lib : Library} {Bld : Build} {RL : RegexLib} {Hash : Hasher}.

Definition finding_value (c : BetterleaksFilterContext) : Value :=
  Value.Map (bt_collect [
    (bs "secret", Value.String (borrow (secret c)));
    (bs "match", Value.String (borrow (full_match c)));
    (bs "line", Value.String (borrow (line c)));
    (bs "rule_id", Value.String (borrow (rule_id c)));
    (bs "description", Value.String (borrow (description c)));
    (bs "context", Value.String (borrow (full_match c)));
    (bs "fragment_raw", Value.String (borrow (fragment_raw c)));
    (bs "match_start_idx", Value.Integer (as_i64 (match_start_idx c)));
    (bs "match_end_idx", Value.Integer (as_i64 (match_end_idx c)));
    (bs "match_line_start_idx", Value.Integer (as_i64 (match_line_start_idx c)));
    (bs "match_line_end_idx", Value.Integer (as_i64 (match_line_end_idx c)));
    (bs "captures", Value.Map (bt_collect (map (fun kv => (fst kv, value_string (snd kv))) (captures c))))]).

Definition attributes_value (c : BetterleaksFilterContext) : Value :=
  let entries := bt_collect (map (fun kv => (fst kv, Value.String (borrow (snd kv)))) (default [] (attributes c))) in
  Value.Map (match bt_get (bs "path") entries with
             | Some _ => entries
             | None => bt_insert (bs "path") (Value.String (borrow (path c))) entries
             end).

Definition initial (c : BetterleaksFilterContext) (cache : option BetterleaksFilterLineCache) : Evaluator :=
  {| variables := <[bs "finding" := finding_value c]> (<[bs "attributes" := attributes_value c]> ∅);
     confidence := None; line_cache := cache |}.

(** The outcome, and the line cache after it. *)
Definition evaluate_filter_with_engine_and_line_cache (engine : RegexEngine) (expression : BetterleaksExpr)
    (c : BetterleaksFilterContext) (line_range : Z * Z) (cache : option BetterleaksFilterLineCache)
    : res BetterleaksFilterOutcome * option BetterleaksFilterLineCache :=
  let '(r, s) := eval engine (line c) line_range expression (initial c cache) in
  (match r with
   | Ok v => Ok {| discard := truthy v; outcome_confidence := confidence s |}
   | Err e => Err e
   | Panic => Panic
   end, line_cache s).

Definition evaluate_filter_with_engine (engine : RegexEngine) (expression : BetterleaksExpr)
    (c : BetterleaksFilterContext) : res BetterleaksFilterOutcome :=
  fst (evaluate_filter_with_engine_and_line_cache engine expression c (0, 0)%Z None).

Section compiled.
Context {VS : Vectorscan}.

Definition evaluate_filter (expression : BetterleaksExpr) (c : BetterleaksFilterContext) : res BetterleaksFilterOutcome :=
  engine ← engine_compile [expression];
  evaluate_filter_with_engine (filter_engine engine) expression c.
End compiled.

(** A prefilter sees a path and attributes; [empty] is where the empty literal
    lies. *)
Definition prefilter_context (empty : str) (p : str) (a : option (list (bytes * str))) : BetterleaksFilterContext := {|
  path := p; attributes := a; secret := empty; full_match := empty; line := empty; fragment_raw := empty;
  match_start_idx := 0; match_end_idx := 0; match_line_start_idx := 0; match_line_end_idx := 0;
  rule_id := empty; description := empty; captures := []
|}.

Definition evaluate_prefilter_with_attributes (empty : str) (engine : RegexEngine) (expression : BetterleaksExpr)
    (p : str) (a : option (list (bytes * str))) : res bool :=
  o ← evaluate_filter_with_engine engine expression (prefilter_context empty p a); Ok (discard o).
End evaluate.
