(* ===== verification/FilterExact.v ===== *)
(** * What the filter evaluator promises

    Evaluating an expression leaves the variables as they were, also when it
    fails ([eval_restores_scope]); the engine compiled from all filters and the
    cache of the source lines change no decision ([filters_accelerated_exact]);
    the collection functions are the quantifiers and searches they are named
    after ([collection_functions_exact]). *)

From Stdlib Require Import ZArith Lia Bool.
From stdpp Require Import base list numbers option gmap.
From S2P Require Import Rule.
From S2P Require Import Prelude Text Ordered Expr FilterValue SpecF64 FilterEngine Filter.

(** ** The cache holds answers of the engine, and scopes are left as they were *)

Lemma find_snoc {A} (p : A -> bool) l x y : List.find p (l ++ [x]) = Some y ->
  List.find p l = Some y \/ (p x = true /\ y = x).
Proof.
  induction l as [|z l IH]; cbn; [destruct (p x) eqn:E; [|done]; intros [= <-]; auto|].
  destruct (p z); auto.
Qed.

Lemma cache_find_push (c : BetterleaksFilterLineCache) k ps m k' ps' m' :
  cache_find (cache_push c k ps m) k' ps' = Some m' ->
  cache_find c k' ps' = Some m' \/ (k' = k /\ ps' = ps /\ m' = m).
Proof.
  unfold cache_find, cache_push. destruct (decide (k' = k)) as [->|Hk]; [|rewrite lookup_insert_ne by done; auto].
  rewrite lookup_insert_eq. destruct (List.find _ (_ ++ _)) as [e|] eqn:E; [|done]. cbn. intros [= <-].
  apply find_snoc in E as [E|[E ->]]; [left|right; apply bool_decide_eq_true in E; auto].
  destruct (c !! k); cbn in E; [by rewrite E|done].
Qed.

(** The texts of the lines a cache knows, by pointer, length and range. *)
Abbreviation Lines := (Z * Z * Z * Z -> bytes).

(** Where [eval_chain] is not [eval]. *)
Definition chained (e : BetterleaksExpr) : bool :=
  match e with Member _ _ _ false | Slice _ _ _ | Call (Member _ _ _ true) _ => true | _ => false end.

Section unchained.
Context {F : F64} {Mem : Memory} {Lib : Library} {Bld : Build} {RL : RegexLib} {Hash : Hasher}.

Lemma run_unchained (Engine : RegexEngine) (source_line : str) (line_range : Z * Z) e : chained e = false ->
  snd (run Engine source_line line_range e) = (v ← fst (run Engine source_line line_range e); mret (Some v)).
Proof.
  destruct e as [| | | | | | | | |node property ? []| |callee arguments| | | | | | | | |]; try reflexivity; try discriminate.
  destruct callee as [| | | | | | | | |node property ? []| | | | | | | | | | |]; (discriminate || reflexivity).
Qed.
End unchained.

Section cache_ok.
Context {Mem : Memory} {Hash : Hasher}.
Context (Engine : RegexEngine) (source_line : str) (line_range : Z * Z) (line_of : Lines).

(** The source line is one of the lines, and no other live buffer lies where it
    does. *)
Class LineKnown : Prop := {
  line_known : line_of (source_line.1, Z.of_nat source_line.2, line_range.1, line_range.2) =
    text_at source_line.1 source_line.2;
  owned_apart t : owned_at t = source_line.1 -> length t = source_line.2 -> t = text_at source_line.1 source_line.2
}.
Context {LK : LineKnown}.

Definition cache_ok (cache : BetterleaksFilterLineCache) : Prop := forall ptr len from to h ps m,
  cache_find cache (ptr, len, from, to, h) ps = Some m ->
  Engine.(engine_matches_any) (line_of (ptr, len, from, to)) ps = Ok m.

Lemma same_line_text input : same_line source_line input = true ->
  text_of input = text_at source_line.1 source_line.2 /\ as_ptr input = source_line.1 /\ cow_len input = source_line.2.
Proof using LK.
  unfold same_line. intros H. tobool. destruct input as [ptr len|t]; cbn in *; [by subst|].
  split; [by apply owned_apart|done].
Qed.

(** A scan of the source line that is put into the cache is right. *)
Lemma cache_push_ok cache input ps m : cache_ok cache -> same_line source_line input = true ->
  Engine.(engine_matches_any) (text_of input) ps = Ok m -> cache_ok (cache_push cache (cache_key line_range input ps) ps m).
Proof using LK.
  intros Hc Hs Hm ptr len from to h ps' m'. intros [?|(Hk & -> & ->)]%cache_find_push; [by eapply Hc|].
  apply same_line_text in Hs as (Ht & Hp & Hl). unfold cache_key in Hk. rewrite Hp, Hl in Hk. injection Hk as -> -> -> -> ->.
  by rewrite line_known, <-Ht.
Qed.

End cache_ok.

Section keeps.
Context {F : F64} {Mem : Memory} {Lib : Library} {Bld : Build} {RL : RegexLib} {Hash : Hasher}.
Context (Engine : RegexEngine) (source_line : str) (line_range : Z * Z).

(** An invariant of the cache that a scan of the source line keeps. *)
Context (I : BetterleaksFilterLineCache -> Prop).
Hypothesis push_keeps : forall cache input ps m, I cache -> same_line source_line input = true ->
  Engine.(engine_matches_any) (text_of input) ps = Ok m -> I (cache_push cache (cache_key line_range input ps) ps m).

Definition caches_ok (s : Evaluator) : Prop := match line_cache s with Some c => I c | None => True end.

Definition outside (names : list bytes) (s t : Evaluator) : Prop :=
  forall k, k ∉ names -> variables t !! k = variables s !! k.

(** Whatever the result is, the cache stays right and the variables but for some
    are what they were. *)
Definition keeps_but {A} (names : list bytes) (m : M A) : Prop := forall s, caches_ok s ->
  caches_ok (m s).2 /\ outside names s (m s).2.
Abbreviation keeps := (keeps_but []).

Lemma outside_trans names s t u : outside names s t -> outside names t u -> outside names s u.
Proof. intros H1 H2 k Hk. by rewrite H2, H1. Qed.

Lemma keeps_weaken {A} names (m : M A) : keeps m -> keeps_but names m.
Proof. intros H s Hs. destruct (H s Hs) as [? Ho]. split; [done|]. intros k _. apply Ho, not_elem_of_nil. Qed.

Lemma keeps_pure {A} names (f : Evaluator -> res A) : keeps_but names (fun s => (f s, s)).
Proof. intros s Hs. split; [done|by intros k]. Qed.

Lemma keeps_ret {A} names (a : A) : keeps_but names (mret a).
Proof. apply (keeps_pure _ (fun _ => Ok a)). Qed.
Lemma keeps_lift {A} names (r : res A) : keeps_but names (lift r).
Proof. apply (keeps_pure _ (fun _ => r)). Qed.
Lemma keeps_get names k : keeps_but names (get_variable k).
Proof. apply (keeps_pure _ (fun s => Ok (variables s !! k))). Qed.

Lemma keeps_bind {A B} names (m : M A) (f : A -> M B) :
  keeps_but names m -> (forall a, keeps_but names (f a)) -> keeps_but names (m ≫= f).
Proof.
  intros Hm Hf s Hs. rewrite bind_run. destruct (Hm s Hs) as [H1 H2]. destruct (m s) as [[a|e|] t]; cbn in *; [|by split..].
  destruct (Hf a t H1) as [H3 H4]. split; [done|by eapply outside_trans].
Qed.

Lemma keeps_insert names k v : k ∈ names -> keeps_but names (insert_variable k v).
Proof. intros Hk s Hs. split; [exact Hs|]. intros k' Hk'. cbn. apply lookup_insert_ne. congruence. Qed.

Lemma keeps_confidence names c : keeps_but names (modify (put_confidence c)).
Proof. intros s Hs. split; [exact Hs|by intros k]. Qed.

Lemma keeps_matches_any_text input ps : keeps (matches_any_text Engine source_line line_range input ps).
Proof using push_keeps.
  unfold matches_any_text. destruct (res_ok (strings ps)) as [l|]; [|apply keeps_ret]. destruct input; try apply keeps_ret.
  destruct (same_line source_line s) eqn:Es; [|apply keeps_pure].
  intros st Hst. destruct (line_cache st) as [c|] eqn:Ec; [|by split]. destruct (cache_find c _ l); [by split|].
  destruct (engine_matches_any (text_of s) l) eqn:Em; [|by split..]. split; [|by intros k].
  unfold caches_ok in *. rewrite Ec in Hst. cbn. by apply push_keeps.
Qed.

Lemma keeps_matches_any_texts l ps : keeps (matches_any_texts Engine source_line line_range l ps).
Proof using push_keeps.
  induction l as [|x l IH]; cbn [matches_any_texts]; [apply keeps_ret|].
  apply keeps_bind; [apply keeps_matches_any_text|]. intros r. destruct r as [|[]| | | | |]; done || apply keeps_ret.
Qed.

Lemma keeps_matches_any l : keeps (matches_any Engine source_line line_range l).
Proof using push_keeps.
  unfold matches_any. repeat case_match; auto using keeps_lift, keeps_ret, keeps_matches_any_text, keeps_matches_any_texts.
Qed.

Lemma restore_lookup n previous t k :
  variables (restore_variable n previous t) !! k = if decide (k = n) then previous else variables t !! k.
Proof.
  destruct previous; cbn; destruct (decide (k = n)) as [->|]; by rewrite ?lookup_insert_eq, ?lookup_delete_eq,
    ?lookup_insert_ne, ?lookup_delete_ne by done.
Qed.

Lemma restore_caches n previous t : caches_ok (restore_variable n previous t) <-> caches_ok t.
Proof. by destruct previous. Qed.

(** A variable put back after a computation that may change it. *)
Lemma keeps_restoring {A} names n (m : M A) (s : Evaluator) : caches_ok s ->
  caches_ok (m s).2 -> outside (n :: names) s (m s).2 ->
  caches_ok (restoring n (variables s !! n) m s).2 /\ outside names s (restoring n (variables s !! n) m s).2.
Proof.
  unfold restoring. intros Hs Hc Ho. destruct (m s) as [r t]. cbn in *. rewrite restore_caches. split; [done|].
  intros k Hk. rewrite restore_lookup. case_decide as E; [by subst|]. apply Ho. by apply not_elem_of_cons.
Qed.

Lemma keeps_collection_loop name predicate : keeps predicate -> forall items index seen,
  keeps_but [POINTER; POINTER_INDEX] (collection_loop name predicate index items seen).
Proof.
  intros Hp items. induction items as [|item items IH]; intros index seen; cbn [collection_loop]; [apply keeps_ret|].
  apply keeps_bind; [apply keeps_insert; set_solver|intros _].
  apply keeps_bind; [apply keeps_insert; set_solver|intros _].
  apply keeps_bind; [by apply keeps_weaken|intros value]. destruct (collection_item _ _ _ _ _); [apply keeps_ret|apply IH].
Qed.

Lemma keeps_call_collection name arguments : Forall keeps arguments -> keeps (call_collection name arguments).
Proof.
  intros H. unfold call_collection. destruct arguments as [|items [|predicate [|? ?]]]; try apply keeps_lift.
  apply Forall_cons in H as [Hi [Hp _]%Forall_cons]. apply keeps_bind; [done|]. intros v.
  destruct v; try apply keeps_lift. intros s Hs.
  set (loop := collection_loop _ _ _ _ _).
  change (caches_ok (restoring POINTER_INDEX (variables s !! POINTER_INDEX) (restoring POINTER (variables s !! POINTER) loop) s).2 /\
    outside [] s (restoring POINTER_INDEX (variables s !! POINTER_INDEX) (restoring POINTER (variables s !! POINTER) loop) s).2).
  destruct (keeps_collection_loop name predicate Hp l 0 {| output := []; count := 0; found := Value.Nil |} s Hs) as [Hc Ho].
  destruct (keeps_restoring [POINTER_INDEX] POINTER loop s Hs Hc Ho) as [Hc' Ho'].
  by apply keeps_restoring.
Qed.

Lemma keeps_arguments arguments : Forall keeps arguments -> keeps (eval_arguments arguments).
Proof.
  induction 1 as [|m l Hm _ IH]; cbn [eval_arguments]; [apply keeps_ret|].
  apply keeps_bind; [done|]. intros v. apply keeps_bind; [done|]. intros. apply keeps_ret.
Qed.

Lemma keeps_call_named name arguments : Forall keeps arguments ->
  keeps (call_named Engine source_line line_range name arguments).
Proof using push_keeps.
  intros H. unfold call_named. destruct (one_of _ _); [by apply keeps_call_collection|].
  apply keeps_bind; [by apply keeps_arguments|]. intros l. destruct (one_of _ _); [apply keeps_matches_any|].
  destruct (one_of _ _); [|apply keeps_lift]. unfold set_confidence. repeat case_match; try apply keeps_lift.
  repeat (apply keeps_bind; [auto using keeps_lift, keeps_confidence|intros ?]). apply keeps_ret.
Qed.

Lemma keeps_named_call name arguments : Forall keeps arguments ->
  keeps (named_call Engine source_line line_range name arguments).
Proof using push_keeps. intros. destruct name; [by apply keeps_call_named|apply keeps_lift]. Qed.

Lemma keeps_method_call property arguments receiver : keeps property -> Forall keeps arguments ->
  keeps (method_call property arguments receiver).
Proof.
  intros. unfold method_call. repeat (apply keeps_bind; [auto using keeps_lift, keeps_arguments|intros ?]). apply keeps_lift.
Qed.

Lemma keeps_slice_call from to v : keeps from -> keeps to -> keeps (slice_call from to v).
Proof. intros. unfold slice_call. repeat (apply keeps_bind; [auto using keeps_lift|intros ?]). apply keeps_lift. Qed.

Lemma keeps_receiver receiver optional k : keeps receiver -> (forall v, keeps (k v)) ->
  keeps (with_receiver receiver optional k).
Proof.
  intros Hr Hk. unfold with_receiver. apply keeps_bind; [done|]. intros [r|]; [|apply keeps_ret].
  destruct (_ && _); [apply keeps_ret|]. apply keeps_bind; [done|]. intros. apply keeps_ret.
Qed.

Lemma keeps_declare name (value expr : M Value) : keeps value -> keeps expr ->
  keeps (v ← value; previous ← get_variable name; _ ← insert_variable name v; restoring name previous expr).
Proof.
  intros Hv He. apply keeps_bind; [done|]. intros v s Hs.
  change (caches_ok (restoring name (variables s !! name) (_ ← insert_variable name v; expr) s).2 /\
    outside [] s (restoring name (variables s !! name) (_ ← insert_variable name v; expr) s).2).
  assert (keeps_but [name] (_ ← insert_variable name v; expr)) as H.
  { apply keeps_bind; [apply keeps_insert; set_solver|]. intros _. by apply keeps_weaken. }
  destruct (H s Hs) as [Hc Ho]. by apply keeps_restoring.
Qed.

Abbreviation eval_run := (run Engine source_line line_range).

Definition keeps_both (e : BetterleaksExpr) : Prop := keeps (fst (eval_run e)) /\ keeps (snd (eval_run e)).

Lemma keeps_evals l : Forall keeps_both l -> Forall keeps (map (fun e => fst (eval_run e)) l).
Proof. intros H. apply Forall_fmap. apply (Forall_impl _ _ _ H). by intros e [? _]. Qed.

Ltac keeps_steps := repeat first
  [ assumption
  | apply keeps_lift | apply keeps_ret | apply keeps_get
  | apply keeps_declare | apply keeps_named_call | apply keeps_call_named | apply keeps_method_call | apply keeps_slice_call
  | apply keeps_arguments | apply keeps_receiver | apply keeps_evals
  | apply keeps_bind; [|intros ?]
  | match goal with |- forall _, _ => intros ? end
  | match goal with |- keeps (match ?x with _ => _ end) => destruct x end
  | match goal with
    | H : keeps_both ?e |- keeps (fst (eval_run ?e)) => exact (proj1 H)
    | H : keeps_both ?e |- keeps (snd (eval_run ?e)) => exact (proj2 H)
    end ].

Lemma keeps_sequence l : Forall keeps l -> forall v, keeps (eval_sequence l v).
Proof. induction 1; intros v; cbn [eval_sequence]; keeps_steps; auto. Qed.

Lemma keeps_pairs l : (forall k v, Some (k, v) ∈ l -> keeps k /\ keeps v) -> forall m, keeps (eval_pairs l m).
Proof.
  induction l as [|[[k v]|] l IH]; intros H m; cbn [eval_pairs]; [keeps_steps|..|keeps_steps].
  destruct (H k v) as [? ?]; [left|]. keeps_steps. apply IH. intros; apply H. by right.
Qed.

Lemma keeps_value e : Forall (fun c => keeps_both c /\ Forall keeps_both (children c)) (children e) ->
  keeps (fst (eval_run e)).
Proof using push_keeps.
  intros H. assert (Forall keeps_both (children e)) as Hb by (apply (Forall_impl _ _ _ H); by intros ? [? _]).
  destruct e; cbn [children] in H, Hb; try (decompose_Forall_hyps; destruct_and?); cbn [run fst];
    try solve [keeps_steps].
  - destruct (namespaced _); [keeps_steps|]. destruct e as [| | | | | | | | |node property ? []| | | | | | | | | | |]; try solve [keeps_steps].
    cbn [children] in *. decompose_Forall_hyps. keeps_steps.
  - apply keeps_sequence. by apply keeps_evals.
  - apply keeps_pairs. intros k v ([| | | | | | | | | | | | | | | | | |key value| |] & E & Hin)%list_elem_of_fmap; try done.
    injection E as -> ->. rewrite Forall_forall in H. destruct (H _ Hin) as [_ Hc]. cbn in Hc. decompose_Forall_hyps.
    split; keeps_steps.
Qed.

Lemma keeps_chain e : chained e = true -> Forall (fun c => keeps_both c /\ Forall keeps_both (children c)) (children e) ->
  keeps (snd (eval_run e)).
Proof using push_keeps.
  intros Hc H. destruct e as [| | | | | | | | |node property ? []|node from to|callee arguments| | | | | | | | |]; try discriminate.
  - cbn [run snd]. cbn [children] in H. apply Forall_cons in H as [[? _] [[? _] _]%Forall_cons]. keeps_steps.
  - cbn [run snd]. cbn [children] in H. apply Forall_cons in H as [[? _] [[? _] [[? _] _]%Forall_cons]%Forall_cons]. keeps_steps.
  - destruct callee as [| | | | | | | | |node property ? []| | | | | | | | | | |]; try discriminate.
    cbn [run snd]. cbn [children] in H. apply Forall_cons in H as [[_ H'] Ha]. cbn [children] in H'.
    apply Forall_cons in H' as [? [? _]%Forall_cons].
    assert (Forall keeps_both arguments) by (apply (Forall_impl _ _ _ Ha); by intros ? [? _]). keeps_steps.
Qed.

Lemma keeps_run e : keeps_both e /\ Forall keeps_both (children e).
Proof using push_keeps.
  induction e as [e IH] using expr_nested_ind.
  split; [|apply (Forall_impl _ _ _ IH); by intros ? [? _]]. pose proof (keeps_value e IH) as Hv. split; [done|].
  destruct (chained e) eqn:Ec; [by apply keeps_chain|]. rewrite run_unchained by done. apply keeps_bind; [exact Hv|].
  intros. apply keeps_ret.
Qed.
End keeps.

(** ** Two evaluators side by side

    [sim m1 m2]: from states that agree, but for the cache of the first, both give
    the same result and states that agree, unless the native scanner of the first
    fails. *)

Section sim.
Context {F : F64} {Mem : Memory} {Lib : Library} {Bld : Build} {RL : RegexLib} {VS : Vectorscan} {Hash : Hasher}.
Context (E1 E2 : RegexEngine) (source_line : str) (line_range range2 : Z * Z) (line_of : Lines).
Context {LK : LineKnown source_line line_range line_of}.

Definition same_state (s1 s2 : Evaluator) : Prop :=
  variables s1 = variables s2 /\ confidence s1 = confidence s2 /\ line_cache s2 = None /\ caches_ok (cache_ok E1 line_of) s1.

Definition agree {A} (x1 x2 : res A * Evaluator) : Prop :=
  (x1.1 = Err Native /\ native_fails) \/ (x1.1 = x2.1 /\ same_state x1.2 x2.2).

Definition sim {A} (m1 m2 : M A) : Prop := forall s1 s2, same_state s1 s2 -> agree (m1 s1) (m2 s2).

(** What holds of the value of a computation that ends. *)
Definition yields {A} (m : M A) (P : A -> Prop) : Prop := forall s a s', m s = (Ok a, s') -> P a.

Lemma sim_ret {A} (a : A) : sim (mret a) (mret a).
Proof. intros s1 s2 H. right. done. Qed.

Lemma sim_lift {A} (r1 r2 : res A) : answers r1 r2 -> sim (lift r1) (lift r2).
Proof. intros [H|H] s1 s2 Hs; [by left|by right]. Qed.

Lemma sim_pure {A} (r : res A) : sim (lift r) (lift r).
Proof. apply sim_lift, answers_refl. Qed.

Lemma sim_bind_yields {A B} (P : A -> Prop) (m1 m2 : M A) (f1 f2 : A -> M B) :
  sim m1 m2 -> yields m2 P -> (forall a, P a -> sim (f1 a) (f2 a)) -> sim (m1 ≫= f1) (m2 ≫= f2).
Proof.
  intros Hm Hp Hf s1 s2 H. pose proof (Hm s1 s2 H) as D. rewrite !bind_run. specialize (Hp s2).
  destruct (m1 s1) as [r1 t1], (m2 s2) as [r2 t2]. destruct D as [[D Hf']|[D Ht]]; cbn in *; subst.
  - by left.
  - destruct r2 as [a| |]; [|by right..]. apply Hf; [by eapply Hp|done].
Qed.

Lemma sim_bind {A B} (m1 m2 : M A) (f1 f2 : A -> M B) :
  sim m1 m2 -> (forall a, sim (f1 a) (f2 a)) -> sim (m1 ≫= f1) (m2 ≫= f2).
Proof. intros Hm Hf. by apply (sim_bind_yields (fun _ => True)). Qed.

Lemma sim_get k : sim (get_variable k) (get_variable k).
Proof. intros s1 s2 H. right. destruct H as (E & H). split; [cbn; by rewrite E|done]. Qed.

Lemma sim_insert k v : sim (insert_variable k v) (insert_variable k v).
Proof. intros s1 s2 (E & H). right. split; [done|]. split; [cbn; by rewrite E|exact H]. Qed.

Lemma sim_confidence c : sim (modify (put_confidence c)) (modify (put_confidence c)).
Proof. intros s1 s2 (E & _ & H). right. split; [done|]. split; [exact E|]. split; [done|exact H]. Qed.

Lemma sim_restoring {A} n previous (m1 m2 : M A) : sim m1 m2 -> sim (restoring n previous m1) (restoring n previous m2).
Proof.
  intros Hm s1 s2 H. specialize (Hm s1 s2 H). unfold restoring. destruct (m1 s1) as [r1 t1], (m2 s2) as [r2 t2].
  destruct Hm as [D|[D (E & H1)]]; cbn in *; subst; [by left|right]. split; [done|].
  destruct previous; (split; [cbn; by rewrite E|exact H1]).
Qed.

Lemma sim_arguments l1 l2 : Forall2 sim l1 l2 -> sim (eval_arguments l1) (eval_arguments l2).
Proof.
  induction 1 as [|m1 m2 l1 l2 Hm _ IH]; cbn [eval_arguments]; [apply sim_ret|].
  apply sim_bind; [done|]. intros v. apply sim_bind; [done|]. intros. apply sim_ret.
Qed.

(** ** Helpers with a regex *)

(** The engines answer alike for these patterns. *)
Definition known_any (ps : list bytes) : Prop := forall input,
  answers (E1.(engine_matches_any) input ps) (E2.(engine_matches_any) input ps).
Definition known_find (p : bytes) : Prop := forall input,
  answers (E1.(engine_find_match) input p) (E2.(engine_find_match) input p).

Lemma sim_matches_any_text input patterns : (forall ps, strings patterns = Ok ps -> known_any ps) ->
  sim (matches_any_text E1 source_line line_range input patterns) (matches_any_text E2 source_line range2 input patterns).
Proof using LK.
  intros Hk. unfold matches_any_text. destruct (strings patterns) as [ps| |] eqn:Ep; try apply sim_ret. cbn [res_ok].
  destruct input; try apply sim_ret. specialize (Hk ps eq_refl (text_of s)). intros s1 s2 Hs.
  assert (agree ((m ← E1.(engine_matches_any) (text_of s) ps; Ok (Value.Bool m)), s1)
    ((m ← E2.(engine_matches_any) (text_of s) ps; Ok (Value.Bool m)), s2)) as Hscan.
  { destruct Hk as [[-> ?]| ->]; [by left|by right]. }
  pose proof Hs as (E & Ec & Hn & Hc). rewrite Hn. destruct (same_line source_line s) eqn:El; [|done].
  destruct (line_cache s1) as [cache|] eqn:Es; [|done]. destruct (cache_find cache _ ps) as [m|] eqn:Ef.
  - unfold caches_ok in Hc. rewrite Es in Hc. unfold cache_key in Ef. apply Hc in Ef.
    destruct (same_line_text source_line line_range line_of _ El) as (Ht & Hp & Hl). rewrite Hp, Hl, (line_known source_line line_range line_of), <-Ht in Ef. rewrite Ef in Hk.
    destruct Hk as [[Hk _]|Hk]; [done|rewrite <-Hk; right; by split].
  - destruct (engine_matches_any (text_of s) ps) as [m| |] eqn:Em; [|exact Hscan..].
    destruct Hk as [[Hk _]|Hk]; [done|]. rewrite <-Hk. right. split; [done|].
    do 3 (split; [done|]). unfold caches_ok in *. rewrite Es in Hc. cbn. by eapply cache_push_ok.
Qed.

Lemma sim_matches_any_texts l patterns : (forall ps, strings patterns = Ok ps -> known_any ps) ->
  sim (matches_any_texts E1 source_line line_range l patterns) (matches_any_texts E2 source_line range2 l patterns).
Proof using LK.
  intros Hk. induction l as [|v l IH]; cbn [matches_any_texts]; [apply sim_ret|].
  apply sim_bind; [by apply sim_matches_any_text|]. intros r. destruct r as [|[]| | | | |]; done || apply sim_ret.
Qed.

(** The patterns a call is given are known, if its name is one that takes some. *)
Definition known_call (name : bytes) (l : list Value) : Prop :=
  (is_matches_any (Some name) = true -> forall input patterns ps, l = [input; patterns] -> strings patterns = Ok ps -> known_any ps) /\
  (is_find_match (Some name) = true -> forall input pattern p, l = [input; pattern] -> as_string pattern = Ok p -> known_find p).

Lemma sim_matches_any name l : is_matches_any (Some name) = true -> known_call name l ->
  sim (matches_any E1 source_line line_range l) (matches_any E2 source_line range2 l).
Proof using LK.
  intros Hn [Hk _]. specialize (Hk Hn). unfold matches_any. destruct l as [|input [|patterns [|? ?]]]; try apply sim_pure.
  1,3: destruct input; apply sim_pure.
  assert (forall ps, strings patterns = Ok ps -> known_any ps) as Hs by eauto.
  destruct input; try (by apply sim_matches_any_text). destruct (forallb _ _); [by apply sim_matches_any_texts|apply sim_ret].
Qed.

Lemma answers_bind {A B} (r1 r2 : res A) (f : A -> res B) : answers r1 r2 -> answers (r1 ≫= f) (r2 ≫= f).
Proof. intros [[-> ?]| ->]; [by left|apply answers_refl]. Qed.

Lemma find_match_answers name l : is_find_match (Some name) = true -> known_call name l ->
  answers (find_match E1 l) (find_match E2 l).
Proof.
  intros Hn [_ Hk]. specialize (Hk Hn). unfold find_match. destruct l as [|input [|pattern [|? ?]]]; try apply answers_refl.
  destruct (as_string input) as [t| |]; try apply answers_refl. cbn.
  destruct (as_string pattern) as [p| |] eqn:Ep; try apply answers_refl. cbn.
  apply answers_bind. by eapply Hk.
Qed.

Lemma sim_collection_loop name p1 p2 : sim p1 p2 -> forall items index seen,
  sim (collection_loop name p1 index items seen) (collection_loop name p2 index items seen).
Proof.
  intros Hp items. induction items as [|item items IH]; intros index seen; cbn [collection_loop]; [apply sim_ret|].
  apply sim_bind; [apply sim_insert|intros _]. apply sim_bind; [apply sim_insert|intros _].
  apply sim_bind; [done|intros value]. destruct (collection_item _ _ _ _ _); [apply sim_ret|apply IH].
Qed.

Lemma sim_call_collection name l1 l2 : Forall2 sim l1 l2 -> sim (call_collection name l1) (call_collection name l2).
Proof.
  intros H. unfold call_collection. destruct H as [|i1 i2 l1 l2 Hi [|p1 p2 l1' l2' Hp [|? ? ? ? ? ?]]]; try apply sim_pure.
  apply sim_bind; [done|]. intros v. destruct v; try apply sim_pure.
  apply sim_bind; [apply sim_get|intros previous]. apply sim_bind; [apply sim_get|intros previous_index].
  by apply sim_restoring, sim_restoring, sim_collection_loop.
Qed.

Lemma sim_call_named name l1 l2 : Forall2 sim l1 l2 ->
  yields (eval_arguments l2) (known_call name) ->
  sim (call_named E1 source_line line_range name l1) (call_named E2 source_line range2 name l2).
Proof using LK.
  intros Hl Hk. unfold call_named. destruct (one_of name COLLECTIONS); [by apply sim_call_collection|].
  apply (sim_bind_yields (known_call name)); [by apply sim_arguments|done|]. intros l Hn.
  destruct (one_of name ["filter.matchesAny"; "matchesAny"]%string) eqn:E1'.
  { apply (sim_matches_any name); [|done]. revert E1'. unfold one_of, is_matches_any. cbn [existsb].
    by destruct (name is "filter.matchesAny"), (name is "matchesAny"). }
  destruct (one_of name ["filter.setConfidence"; "setConfidence"]%string).
  { unfold set_confidence. repeat case_match; try apply sim_pure.
    repeat (apply sim_bind; [auto using sim_pure, sim_confidence|intros ?]). apply sim_ret. }
  apply sim_lift. unfold value_function. destruct (name is "malformedPrivateKey"); [apply answers_refl|].
  destruct (one_of name ["filter.findMatch"; "findMatch"]%string) eqn:E2'.
  { apply (find_match_answers name); [|done]. revert E2'. unfold one_of, is_find_match. cbn [existsb].
    by destruct (name is "filter.findMatch"), (name is "findMatch"). }
  apply answers_refl.
Qed.

Lemma sim_method_call p1 p2 l1 l2 receiver : sim p1 p2 -> Forall2 sim l1 l2 ->
  sim (method_call p1 l1 receiver) (method_call p2 l2 receiver).
Proof.
  intros Hp Hl. unfold method_call. apply sim_bind; [done|intros v]. apply sim_bind; [apply sim_pure|intros m].
  apply sim_bind; [by apply sim_arguments|intros l]. apply sim_pure.
Qed.

Lemma sim_slice_call f1 f2 t1 t2 v : sim f1 f2 -> sim t1 t2 -> sim (slice_call f1 t1 v) (slice_call f2 t2 v).
Proof. intros. unfold slice_call. repeat (apply sim_bind; [auto using sim_pure|intros ?]). apply sim_pure. Qed.

Lemma sim_receiver r1 r2 optional k1 k2 : sim r1 r2 -> (forall v, sim (k1 v) (k2 v)) ->
  sim (with_receiver r1 optional k1) (with_receiver r2 optional k2).
Proof.
  intros Hr Hk. unfold with_receiver. apply sim_bind; [done|]. intros [r|]; [|apply sim_ret].
  destruct (_ && _); [apply sim_ret|]. apply sim_bind; [done|]. intros. apply sim_ret.
Qed.

Lemma sim_sequence l1 l2 : Forall2 sim l1 l2 -> forall v, sim (eval_sequence l1 v) (eval_sequence l2 v).
Proof. induction 1; intros v; cbn [eval_sequence]; [apply sim_ret|]. by apply sim_bind. Qed.

Lemma sim_pairs l1 l2 :
  Forall2 (fun p1 p2 => match p1, p2 with
    | Some (k1, v1), Some (k2, v2) => sim k1 k2 /\ sim v1 v2 | None, None => True | _, _ => False end) l1 l2 ->
  forall m, sim (eval_pairs l1 m) (eval_pairs l2 m).
Proof.
  induction 1 as [|[[k1 v1]|] [[k2 v2]|] l1 l2 Hp _ IH]; intros m; try done; cbn [eval_pairs]; [apply sim_ret|..|apply sim_pure].
  destruct Hp as [Hk Hv]. repeat (apply sim_bind; [by auto using sim_pure|intros ?]). apply IH.
Qed.

(** ** Validated expressions whose patterns the first engine knows *)

Context (dynamic : bool) (any find : list bytes).
Hypothesis any_served : forall ps, (dynamic = false -> forall p, p ∈ ps -> p ∈ any) -> known_any ps.
Hypothesis find_served : forall p, (dynamic = false -> p ∈ find) -> known_find p.

Definition good (e : BetterleaksExpr) : Prop := validate_filter_expression e = true /\ served dynamic any find e.

(** A name calls nothing. *)
Lemma name_collects_no_call e n callee arguments : expression_name e = Some n -> ~ collected (Call callee arguments) e.
Proof.
  revert n. induction e as [e IH] using expr_nested_ind. intros n Hn Hc.
  inversion Hc as [? E|x c e' Hin Hx]; subst; [done|]. destruct e; try done; cbn in Hin; [by apply not_elem_of_nil in Hin|].
  cbn in Hn. destruct (expression_name e1) as [n1|] eqn:E1'; [|done]. destruct e2; try done.
  cbn in IH. apply Forall_cons in IH as [IH _]. apply elem_of_cons in Hin as [->|Hin]; [by eapply IH|].
  apply list_elem_of_singleton in Hin as ->. inversion Hx as [|? c' ? Hin' _]; subst. by apply not_elem_of_nil in Hin'.
Qed.

Lemma validate_children e : validate_filter_expression e = true ->
  Forall (fun c => validate_filter_expression c = true) (children e).
Proof.
  intros H. destruct e; cbn in *; repeat case_match; try done; repeat (apply andb_true_iff in H as [H ?]);
    repeat apply Forall_cons_2; try done; apply Forall_forall; intros x Hx;
    match goal with Hf : forallb _ _ = true |- _ => rewrite forallb_forall in Hf; apply Hf, list_elem_of_In, Hx end.
Qed.

Lemma good_children e : good e -> Forall good (children e).
Proof.
  intros [Hv Hs]. pose proof (validate_children e Hv) as Hc.
  apply Forall_forall. intros x Hx. split; [by eapply Forall_forall in Hc|]. intros callee arguments Hin.
  destruct e; try (apply Hs; by eapply collected_child). cbn in Hx. apply elem_of_cons in Hx as [->|Hx].
  - cbn in Hv. destruct (expression_name e) as [n|] eqn:En; [|done]. by apply (name_collects_no_call e n callee arguments) in En.
  - apply Hs. by eapply collected_child.
Qed.

Abbreviation run1 := (run E1 source_line line_range).
Abbreviation run2 := (run E2 source_line range2).

Lemma eval_literals lits s :
  eval_arguments (map (fun e => fst (run2 e)) (map String lits)) s = (Ok (map value_string lits), s).
Proof.
  induction lits as [|p lits IH]; [done|]. cbn [map eval_arguments]. rewrite bind_run. cbn [run fst].
  by rewrite ret_run, bind_run, IH.
Qed.

Lemma strings_literals lits : strings (Value.Array (map value_string lits)) = Ok lits.
Proof. cbn. induction lits as [|p lits IH]; [done|]. cbn [map]. rewrite mapM_cons, IH. done. Qed.

(** A call with a regex gives the patterns that were collected. *)
Lemma served_yields name arguments : call_served dynamic any find (Some name) arguments ->
  yields (eval_arguments (map (fun e => fst (run2 e)) arguments)) (known_call name).
Proof using any_served find_served.
  intros [Ha Hf] s l s' Hl. split; intros Hn.
  - intros input patterns ps -> Hps. apply any_served. intros Hd p Hp.
    destruct (Ha Hn) as [?|(a & lits & -> & Hlits)]; [congruence|]. apply Hlits.
    cbn [map eval_arguments] in Hl. rewrite bind_run in Hl. destruct (fst (run2 a) s) as [[va| |] s1]; [|done..].
    cbn [run fst] in Hl. rewrite !bind_run, eval_literals in Hl. injection Hl as <- <- <-.
    rewrite strings_literals in Hps. by injection Hps as <-.
  - intros input pattern p -> Hp. apply find_served. intros Hd.
    destruct (Hf Hn) as [?|(a & q & -> & Hq)]; [congruence|].
    cbn [map eval_arguments] in Hl. rewrite bind_run in Hl. destruct (fst (run2 a) s) as [[va| |] s1]; [|done..].
    injection Hl as <- <- <-. cbn in Hp. by injection Hp as <-.
Qed.

Lemma builtin_yields name arguments : one_of name BUILTINS = true ->
  yields (eval_arguments arguments) (known_call name).
Proof.
  intros H s l s' _. unfold is_matches_any, is_find_match. apply existsb_elem in H as (n & Hin & Hn).
  apply bool_decide_eq_true in Hn as ->. split; intros H; exfalso; revert H;
    repeat (apply elem_of_cons in Hin as [->|Hin]; [done|]); by apply not_elem_of_nil in Hin.
Qed.

Definition sim_both (e : BetterleaksExpr) : Prop := sim (fst (run1 e)) (fst (run2 e)) /\ sim (snd (run1 e)) (snd (run2 e)).

Lemma sim_evals l : Forall sim_both l -> Forall2 sim (map (fun e => fst (run1 e)) l) (map (fun e => fst (run2 e)) l).
Proof. induction 1 as [|e l [He _] _ IH]; cbn [map]; by constructor. Qed.

Lemma sim_named_call name arguments : Forall sim_both arguments ->
  call_served dynamic any find name arguments ->
  sim (named_call E1 source_line line_range name (map (fun e => fst (run1 e)) arguments))
      (named_call E2 source_line range2 name (map (fun e => fst (run2 e)) arguments)).
Proof using LK any_served find_served.
  intros Hl Hs. destruct name as [name|]; [|apply sim_pure]. apply sim_call_named; [by apply sim_evals|].
  by apply served_yields.
Qed.

Lemma sim_builtin name arguments : Forall sim_both arguments -> one_of name BUILTINS = true ->
  sim (call_named E1 source_line line_range name (map (fun e => fst (run1 e)) arguments))
      (call_named E2 source_line range2 name (map (fun e => fst (run2 e)) arguments)).
Proof using LK. intros Hl Hn. apply sim_call_named; [by apply sim_evals|]. by apply builtin_yields. Qed.

Lemma sim_declare name (v1 v2 m1 m2 : M Value) : sim v1 v2 -> sim m1 m2 ->
  sim (v ← v1; previous ← get_variable name; _ ← insert_variable name v; restoring name previous m1)
      (v ← v2; previous ← get_variable name; _ ← insert_variable name v; restoring name previous m2).
Proof.
  intros Hv Hm. apply sim_bind; [done|intros v]. apply sim_bind; [apply sim_get|intros previous].
  apply sim_bind; [apply sim_insert|intros _]. by apply sim_restoring.
Qed.

Ltac sim_steps := repeat first
  [ assumption
  | apply sim_pure | apply sim_ret | apply sim_get | apply sim_declare
  | apply sim_method_call | apply sim_slice_call | apply sim_receiver | apply sim_evals | apply sim_arguments
  | apply sim_sequence
  | apply sim_bind; [|intros ?]
  | match goal with |- forall _, _ => intros ? end
  | match goal with |- sim (match ?x with _ => _ end) _ => destruct x end
  | match goal with
    | H : sim_both ?e |- sim (fst (run1 ?e)) _ => exact (proj1 H)
    | H : sim_both ?e |- sim (snd (run1 ?e)) _ => exact (proj2 H)
    end ].

Lemma sim_value e : good e -> Forall (fun c => sim_both c /\ Forall sim_both (children c)) (children e) ->
  sim (fst (run1 e)) (fst (run2 e)).
Proof using LK any_served find_served.
  intros [Hv Hs] H. assert (Forall sim_both (children e)) as Hb by (apply (Forall_impl _ _ _ H); by intros ? [? _]).
  destruct e; cbn [children] in H, Hb; try (decompose_Forall_hyps; destruct_and?); cbn [run fst];
    try solve [sim_steps].
  - assert (call_served dynamic any find (expression_name e) arguments) as Hc by (apply Hs; constructor).
    destruct (namespaced _); [by apply sim_named_call|].
    destruct e as [| | | | | | | | |node property ? []| | | | | | | | | | |]; try by apply sim_named_call.
    cbn [children] in *. decompose_Forall_hyps. sim_steps.
  - cbn in Hv. apply andb_true_iff in Hv as [Hn _]. by apply sim_builtin.
  - apply sim_pairs. apply Forall2_fmap. apply Forall_Forall2_diag. apply (Forall_impl _ _ _ H).
    intros c [_ Hc]. destruct c; try done. cbn in Hc. decompose_Forall_hyps. split; sim_steps.
Qed.

Lemma sim_chain e : chained e = true -> Forall (fun c => sim_both c /\ Forall sim_both (children c)) (children e) ->
  sim (snd (run1 e)) (snd (run2 e)).
Proof using LK.
  intros Hc H. destruct e as [| | | | | | | | |node property ? []|node from to|callee arguments| | | | | | | | |]; try discriminate.
  - cbn [run snd]. cbn [children] in H. apply Forall_cons in H as [[? _] [[? _] _]%Forall_cons]. sim_steps.
  - cbn [run snd]. cbn [children] in H. apply Forall_cons in H as [[? _] [[? _] [[? _] _]%Forall_cons]%Forall_cons]. sim_steps.
  - destruct callee as [| | | | | | | | |node property ? []| | | | | | | | | | |]; try discriminate.
    cbn [run snd]. cbn [children] in H. apply Forall_cons in H as [[_ H'] Ha]. cbn [children] in H'.
    apply Forall_cons in H' as [? [? _]%Forall_cons].
    assert (Forall sim_both arguments) by (apply (Forall_impl _ _ _ Ha); by intros ? [? _]). sim_steps.
Qed.

Lemma sim_run e : good e -> sim_both e /\ Forall sim_both (children e).
Proof using LK any_served find_served.
  induction e as [e IH] using expr_nested_ind. intros Hg. pose proof (good_children e Hg) as Hc.
  assert (Forall (fun c => sim_both c /\ Forall sim_both (children c)) (children e)) as H.
  { apply Forall_forall. intros c Hin. rewrite Forall_forall in IH, Hc. auto. }
  split; [|apply (Forall_impl _ _ _ H); by intros ? [? _]]. pose proof (sim_value e Hg H) as Hv. split; [done|].
  destruct (chained e) eqn:Ec; [by apply sim_chain|]. rewrite !run_unchained by done. apply sim_bind; [exact Hv|].
  intros. apply sim_ret.
Qed.
End sim.

(** ** Scopes *)

Section scope.
Context {F : F64} {Mem : Memory} {Lib : Library} {Bld : Build} {RL : RegexLib} {Hash : Hasher}.

(** C37. Whatever an expression evaluates to, also an error in the middle of a
    declaration or of a predicate, the variables are afterwards what they were
    before: a declaration hides a variable for its own expression only, and a
    collection function puts [#] and [#index] back. *)
Theorem eval_restores_scope (engine : RegexEngine) (source_line : str) (line_range : Z * Z)
    (expression : BetterleaksExpr) (s : Evaluator) :
  variables (snd (eval engine source_line line_range expression s)) = variables s.
Proof.
  destruct (keeps_run engine source_line line_range (fun _ => True) (fun _ _ _ _ _ _ _ => I) expression) as [[H _] _].
  destruct (H s) as [_ Ho]; [by unfold caches_ok; destruct (line_cache s)|].
  apply map_eq. intros k. apply Ho, not_elem_of_nil.
Qed.
End scope.

(** ** The engine and the cache *)

(** One evaluation of a scan: what it evaluates, and the memory it runs in. *)
Record Evaluation := {
  ev_memory : Memory;
  ev_expression : BetterleaksExpr;
  ev_context : BetterleaksFilterContext;
  ev_range : Z * Z
}.

Section accelerated.
Context {F : F64} {Lib : Library} {Bld : Build} {RL : RegexLib} {VS : Vectorscan} {Hash : Hasher}.

(** Evaluations that share an engine and a line cache, in order. *)
Fixpoint evaluate_all (engine : RegexEngine) (evaluations : list Evaluation) (cache : BetterleaksFilterLineCache)
    : list (res BetterleaksFilterOutcome) :=
  match evaluations with
  | [] => []
  | x :: evaluations =>
    let '(r, cache) := evaluate_filter_with_engine_and_line_cache (Mem := ev_memory x) engine (ev_expression x)
      (ev_context x) (ev_range x) (Some cache) in
    r :: evaluate_all engine evaluations (default ∅ cache)
  end.

(** The same evaluation with neither: with the reference engine of the literals
    that the expressions search for. *)
Definition evaluate_plain (vs_matches : bytes -> bytes -> bool) (expressions : list BetterleaksExpr) (x : Evaluation)
    : res BetterleaksFilterOutcome :=
  let '(any, find) := match collect_list expressions ([], []) with Ok sets => sets | _ => ([], []) end in
  evaluate_filter_with_engine (Mem := ev_memory x) (literal_engine vs_matches any find) (ev_expression x) (ev_context x).

(** What an evaluation may assume: a validated filter of the engine, and a line
    that its pointer, length and range identify. *)
Definition evaluation_ok (expressions : list BetterleaksExpr) (line_of : Lines) (x : Evaluation) : Prop :=
  ev_expression x ∈ expressions /\ validate_filter_expression (ev_expression x) = true /\
  LineKnown (Mem := ev_memory x) (line (ev_context x)) (ev_range x) line_of.

Section engine.
Context (expressions : list BetterleaksExpr) (engine : BetterleaksFilterEngine) (line_of : Lines).
Context (vs_matches : bytes -> bytes -> bool) {SL : ScanLaws vs_matches}.
Hypothesis compiled_engine : engine_compile expressions = Ok engine.

Lemma engine_knows : exists any find, collect_list expressions ([], []) = Ok (any, find) /\
  let reference := literal_engine vs_matches any find in
  (forall ps, (dynamic_regex engine = false -> forall p, p ∈ ps -> p ∈ any) -> known_any (filter_engine engine) reference ps) /\
  (forall p, (dynamic_regex engine = false -> p ∈ find) -> known_find (filter_engine engine) reference p) /\
  (forall e, e ∈ expressions -> served (dynamic_regex engine) any find e).
Proof using compiled_engine SL.
  destruct (engine_compiled vs_matches _ _ compiled_engine) as (any & find & Ec & C). exists any, find.
  split; [done|]. split; [|split].
  - intros ps Hp input. by apply (filter_matches_any_answers vs_matches _ any find).
  - intros p Hp input. by apply (filter_find_match_answers vs_matches _ any find).
  - intros e He. destruct (compile_parts _ _ compiled_engine) as (? & ? & ? & _ & _ & _ & _ & _ & _ & ->).
    by apply (expressions_served _ _ _ Ec).
Qed.

Lemma evaluation_accelerated x cache : evaluation_ok expressions line_of x ->
  cache_ok (filter_engine engine) line_of cache ->
  let '(r, cache') := evaluate_filter_with_engine_and_line_cache (Mem := ev_memory x) (filter_engine engine)
    (ev_expression x) (ev_context x) (ev_range x) (Some cache) in
  answers r (evaluate_plain vs_matches expressions x) /\ cache_ok (filter_engine engine) line_of (default ∅ cache').
Proof using compiled_engine SL.
  intros (Hin & Hv & LK) Hc. destruct engine_knows as (any & find & Ec & Ha & Hf & Hs).
  unfold evaluate_plain. rewrite Ec. unfold evaluate_filter_with_engine, evaluate_filter_with_engine_and_line_cache, eval.
  set (s1 := initial _ (Some cache)). set (s2 := initial _ None).
  destruct (sim_run (Mem := ev_memory x) (filter_engine engine) (literal_engine vs_matches any find) _ (ev_range x) (0, 0)%Z line_of
    (dynamic_regex engine) any find Ha Hf (ev_expression x)) as [[Hsim _] _]; [by split; [|apply Hs]|].
  destruct (keeps_run (Mem := ev_memory x) (filter_engine engine) (line (ev_context x)) (ev_range x)
    (cache_ok (filter_engine engine) line_of) (cache_push_ok _ _ _ _) (ev_expression x)) as [[Hkeep _] _].
  destruct (Hkeep s1 Hc) as [Hc' _]. specialize (Hsim s1 s2). unfold agree, caches_ok in *.
  destruct (fst (run _ _ _ _) s1) as [r1 t1]. destruct (fst (run (literal_engine vs_matches any find) _ _ _) s2) as [r2 t2]. cbn in *.
  split; [|by destruct (line_cache t1)].
  destruct Hsim as [[-> ?]|(-> & _ & -> & _)]; [done|by left|apply answers_refl].
Qed.

(** C16. Neither the databases compiled from all filters nor the cache of results on
    source lines changes a decision: evaluations that share both give, one by one,
    the outcomes - or errors - of evaluations with neither, which ask
    [literal_engine]. There the native scanner decides on the literals of the filters
    that do not match the empty text - those of [matchesAny] unless the call has a
    pattern built at run time, those of [findMatch] as to whether there is a match -
    and the regex on everything else. Nothing is assumed of how the two compare.
    Assumed: the native scanner reports of the patterns of a database what it reports
    of each alone, and any byte where there is one ([ScanLaws]); evaluations in which
    it fails are left out; filters are validated ones the engine was compiled from;
    a line's pointer, length and range identify its text. *)
Theorem filters_accelerated_exact (evaluations : list Evaluation) :
  Forall (evaluation_ok expressions line_of) evaluations ->
  Forall2 (fun x r => answers r (evaluate_plain vs_matches expressions x)) evaluations
    (evaluate_all (filter_engine engine) evaluations ∅).
Proof using compiled_engine SL.
  intros H. assert (cache_ok (filter_engine engine) line_of ∅) as Hc by (intros ? ? ? ? ? ? ? Hf; unfold cache_find in Hf; by rewrite lookup_empty in Hf).
  revert Hc. generalize (∅ : BetterleaksFilterLineCache). induction H as [|x l Hx _ IH]; intros cache Hc; cbn [evaluate_all]; [constructor|].
  pose proof (evaluation_accelerated x cache Hx Hc) as He. destruct (evaluate_filter_with_engine_and_line_cache _ _ _ _ _) as [r cache'].
  destruct He as [Hr Hc']. by constructor; [|apply IH].
Qed.
End engine.
End accelerated.

(** ** The collection functions

    What they mean for a predicate that has a value [p i item] at every index and
    item; [hits] are the items where it is truthy, with their indexes. *)

Section collections.
Context {F : F64} {Mem : Memory}.

Definition hits (p : nat -> Value -> Value) (from : nat) (items : list Value) : list (nat * Value) :=
  List.filter (fun '(i, item) => truthy (p i item)) (enumerate_from from items).

Definition index_value (hit : nat * Value) : Value := Value.Integer (Z.of_nat (fst hit)).

Definition collection_spec (name : bytes) (p : nat -> Value -> Value) (items : list Value) : Value :=
  let h := hits p 0 items in
  if name is "any" then Value.Bool (negb (length h =? 0))
  else if name is "none" then Value.Bool (length h =? 0)
  else if name is "all" then Value.Bool (length h =? length items)
  else if name is "one" then Value.Bool (length h =? 1)
  else if name is "filter" then Value.Array (map snd h)
  else if name is "map" then Value.Array (map (fun '(i, item) => p i item) (enumerate items))
  else if name is "count" then Value.Integer (Z.of_nat (length h))
  else if name is "find" then default Value.Nil (option_map snd (head h))
  else if name is "findLast" then default Value.Nil (option_map snd (last h))
  else if name is "findIndex" then default Value.Nil (option_map index_value (head h))
  else default Value.Nil (option_map index_value (last h)).

(** The loop on values alone. *)
Fixpoint fold_items (name : bytes) (p : nat -> Value -> Value) (index : nat) (items : list Value) (seen : Seen) : Value :=
  match items with
  | [] => collection_result name seen
  | item :: items =>
    match collection_item name index item (p index item) seen with
    | inl result => result
    | inr seen => fold_items name p (S index) items seen
    end
  end.

Lemma hits_cons p i item items : hits p i (item :: items) =
  if truthy (p i item) then (i, item) :: hits p (S i) items else hits p (S i) items.
Proof. done. Qed.

Definition start : Seen := {| output := []; count := 0; found := Value.Nil |}.

(** The specification from any state of the loop. *)
Definition fold_spec (name : bytes) (p : nat -> Value -> Value) (i : nat) (items : list Value) (seen : Seen) : Value :=
  let h := hits p i items in
  if name is "any" then Value.Bool (negb (length h =? 0))
  else if name is "none" then Value.Bool (length h =? 0)
  else if name is "all" then Value.Bool (length h =? length items)
  else if name is "one" then Value.Bool (count seen + Z.of_nat (length h) =? 1)%Z
  else if name is "filter" then Value.Array (output seen ++ map snd h)
  else if name is "map" then Value.Array (output seen ++ map (fun '(i, item) => p i item) (enumerate_from i items))
  else if name is "count" then Value.Integer (count seen + Z.of_nat (length h))
  else if name is "find" then default (found seen) (option_map snd (head h))
  else if name is "findLast" then default (found seen) (option_map snd (last h))
  else if name is "findIndex" then default (found seen) (option_map index_value (head h))
  else default (found seen) (option_map index_value (last h)).

Lemma length_hits p items : forall i, length (hits p i items) <= length items.
Proof. induction items as [|item items IH]; intros i; [done|]. rewrite hits_cons. specialize (IH (S i)). case_match; cbn; lia. Qed.

Lemma last_default {A} (x : A) l d (f : A -> Value) :
  default d (option_map f (last (x :: l))) = default (f x) (option_map f (last l)).
Proof. rewrite last_cons. by destruct (last l). Qed.
End collections.

(** Decide every test of a name against literals once the name is one. *)
Ltac names := repeat match goal with
  | |- context [bytes_eqb (bs ?a) (bs ?b)] =>
    let v := eval vm_compute in (bytes_eqb (bs a) (bs b)) in change (bytes_eqb (bs a) (bs b)) with v
  | |- context [one_of (bs ?a) ?l] => let v := eval vm_compute in (one_of (bs a) l) in change (one_of (bs a) l) with v
  end; cbn [orb andb].

Section collections_exact.
Context {F : F64} {Mem : Memory}.

Lemma fold_items_spec name p : one_of name COLLECTIONS = true -> forall items i seen, (0 <= count seen)%Z ->
  fold_items name p i items seen = fold_spec name p i items seen.
Proof.
  intros H. apply existsb_elem in H as (n & Hin & Hn). apply bool_decide_eq_true in Hn as ->.
  intros items. induction items as [|item items IH]; intros i seen Hc; cbn [fold_items].
  - repeat (apply elem_of_cons in Hin as [->|Hin]; [by unfold collection_result, fold_spec; names; cbn; rewrite ?app_nil_r, ?Z.add_0_r|]).
    by apply not_elem_of_nil in Hin.
  - pose proof (length_hits p items (S i)) as Hl. revert Hin. intros Hin.
    repeat (apply elem_of_cons in Hin as [->|Hin]; [
      unfold collection_item; names; destruct (truthy (p i item)) eqn:Et;
      try (rewrite IH by (cbn; lia)); unfold fold_spec; names; rewrite ?hits_cons, ?Et; cbn [length map option_map head];
      rewrite ?last_default; cbn [output count found fst snd]; rewrite <-?app_assoc; try done|]).
    all: try by apply not_elem_of_nil in Hin.
    + f_equal. symmetry. apply Nat.eqb_neq. lia.
    + destruct (1 <? count seen + 1)%Z eqn:E; [f_equal; symmetry; apply Z.eqb_neq; tobool; lia|].
      rewrite IH by (cbn; lia). unfold fold_spec. names. cbn [count]. f_equal.
      destruct (Z.eqb_spec (count seen + 1 + Z.of_nat (length (hits p (S i) items))) 1),
        (Z.eqb_spec (count seen + Z.of_nat (S (length (hits p (S i) items)))) 1); lia.
    + f_equal. lia.
Qed.

(** A predicate with a value at every item: with the item as [#] and its index as
    [#index], it gives that value and leaves the variables. *)
Definition predicate_is (predicate : M Value) (p : nat -> Value -> Value) (s : Evaluator) : Prop :=
  forall t i item, (forall k, k <> POINTER -> k <> POINTER_INDEX -> variables t !! k = variables s !! k) ->
    variables t !! POINTER = Some item -> variables t !! POINTER_INDEX = Some (Value.Integer (Z.of_nat i)) ->
    exists t', predicate t = (Ok (p i item), t') /\ variables t' = variables t.

Lemma insert_run {A} k v (f : () -> M A) t :
  (insert_variable k v ≫= f) t = f () (set_variables (<[k := v]> (variables t)) t).
Proof. done. Qed.

Lemma get_run {A} k (f : option Value -> M A) t : (get_variable k ≫= f) t = f (variables t !! k) t.
Proof. done. Qed.

Lemma collection_loop_folds name predicate p s : predicate_is predicate p s -> forall items i seen t,
  (forall k, k <> POINTER -> k <> POINTER_INDEX -> variables t !! k = variables s !! k) ->
  exists t', collection_loop name predicate i items seen t = (Ok (fold_items name p i items seen), t').
Proof.
  intros Hp items. induction items as [|item items IH]; intros i seen t Ht; cbn [collection_loop fold_items].
  { rewrite ret_run. eauto. }
  rewrite !insert_run, bind_run. match goal with |- context [predicate ?x] => set (t1 := x) end.
  assert (forall k, k <> POINTER -> k <> POINTER_INDEX -> variables t1 !! k = variables s !! k) as H1.
  { intros k Hk1 Hk2. unfold t1. cbn [set_variables variables]. rewrite !lookup_insert_ne by congruence. auto. }
  destruct (Hp t1 i item) as (t2 & -> & E); [done|unfold t1; cbn [set_variables variables]..|].
  - rewrite lookup_insert_ne by done. apply lookup_insert_eq.
  - apply lookup_insert_eq.
  - destruct (collection_item _ _ _ _ _); [rewrite ret_run; eauto|]. apply IH. intros. rewrite E. auto.
Qed.

Lemma fold_spec_start name p l : fold_spec name p 0 l start = collection_spec name p l.
Proof.
  unfold fold_spec, collection_spec, start, enumerate. cbn [output count found]. rewrite !Z.add_0_l, !app_nil_l.
  assert ((Z.of_nat (length (hits p 0 l)) =? 1)%Z = (length (hits p 0 l) =? 1)) as ->; [|done].
  destruct (Z.eqb_spec (Z.of_nat (length (hits p 0 l))) 1), (Nat.eqb_spec (length (hits p 0 l)) 1); lia.
Qed.

(** The collection functions are what they are named after: over the items
    where the predicate holds, [any], [all], [none], [one] and [count] say how
    many there are, [filter] and [map] list items and values in order, [find] and
    [findLast] give the first and the last item, [findIndex] and [findLastIndex]
    their indexes, or nil. The predicate sees the item as [#] and its index as
    [#index]; stopping early cannot be observed. *)
Theorem collection_functions_exact name (items predicate : M Value) l p s s1 :
  one_of name COLLECTIONS = true -> items s = (Ok (Value.Array l), s1) -> predicate_is predicate p s1 ->
  exists s2, call_collection name [items; predicate] s = (Ok (collection_spec name p l), s2).
Proof.
  intros Hn Hi Hp. unfold call_collection. rewrite bind_run, Hi, !get_run.
  destruct (collection_loop_folds name predicate p s1 Hp l 0 start s1 (fun _ _ _ => eq_refl)) as [t E].
  unfold restoring. unfold start in E. rewrite E. eexists. do 2 f_equal.
  rewrite fold_items_spec by done. apply fold_spec_start.
Qed.
End collections_exact.

(** ** A concrete instance

    Regexes are literals, but for the one of any byte; the scanner reports the
    patterns it finds, in order, and does not mind the case of letters, so that it and
    the regexes differ; the memory is one buffer. *)
Module Concrete.
#[export] Instance floats : F64 := spec_f64 (fun x => x) (fun x _ => x).

#[export] Instance library : Library := {|
  to_lowercase := str_to_ascii_lowercase; to_uppercase l := l; sha256 l := l; tokens_of l := length l; words := [];
  base64_decode _ := None; json_to_string _ := []; json_from_str _ := None; is_malformed _ := false
|}.

#[export] Instance build : Build := {| overflow_checks := false; sort_unordered l := Some l |}.
#[export] Instance hasher : Hasher := fun l => Z.of_nat (length l).

Definition literal_matches (p input : bytes) : bool :=
  if bytes_eqb p ANY_BYTE then non_empty input else contains_sub p input.

Definition literal_find (p input : bytes) : option (nat * nat) :=
  if bytes_eqb p ANY_BYTE then match input with [] => None | _ => Some (0, 1) end
  else option_map (fun i => (i, i + length p)) (find_text p input).

#[export] Instance literals : RegexLib := {|
  regex := bytes; regex_new p := if p is "(" then None else Some p;
  regex_is_match := literal_matches; regex_find := literal_find
|}.

Definition native_matches (p input : bytes) : bool :=
  if bytes_eqb p ANY_BYTE then non_empty input
  else contains_sub (str_to_ascii_lowercase p) (str_to_ascii_lowercase input).

#[export] Instance scanner : Vectorscan := {|
  database := list (bytes * nat);
  block_database_new patterns := Some patterns;
  database_scan db input := Some (map snd (List.filter (fun pn => native_matches (fst pn) input) db))
|}.

#[export] Instance native_laws : ScanLaws native_matches.
Proof.
  split.
  - intros patterns db input ids id [= <-] [= <-]. rewrite list_elem_of_fmap. split.
    + intros ([p n] & -> & Hin). rewrite list_elem_of_In, filter_In, <-list_elem_of_In in Hin. cbn in *. eauto.
    + intros (p & Hin & Hm). exists (p, id). split; [done|]. rewrite list_elem_of_In, filter_In, <-list_elem_of_In. done.
  - done.
Qed.

(** Text [buffer] at address 100. *)
Definition buffer : bytes := bs "key = example0 src/test.rs".
#[export] Instance memory : Memory := {|
  text_at ptr len := slice buffer (Z.to_nat (ptr - 100)) (Z.to_nat (ptr - 100) + len);
  owned_at _ := 0%Z
|}.

Definition name_call (name : string) (arguments : list BetterleaksExpr) : BetterleaksExpr :=
  Call (Identifier (bs name)) arguments.
Definition finding_field (name : string) : BetterleaksExpr := Member (Identifier (bs "finding")) (String (bs name)) false false.

(** [matchesAny(finding["line"], ["example", ""]) && findMatch(finding["secret"], "0") == "0"] *)
Definition example_filter : BetterleaksExpr :=
  Binary (bs "&&")
    (name_call "matchesAny" [finding_field "line"; Array [String (bs "example"); String []]])
    (Binary (bs "==") (name_call "findMatch" [finding_field "secret"; String (bs "0")]) (String (bs "0"))).
(** [setConfidence("high") == "" || any([1, 2, 3], # + #index == 3)] *)
Definition scope_filter : BetterleaksExpr :=
  Binary (bs "||") (Binary (bs "==") (name_call "setConfidence" [String (bs "high")]) (String []))
    (Builtin (bs "any") [Array [Integer 1; Integer 2; Integer 3];
      Predicate (Binary (bs "==") (Binary (bs "+") (Pointer (bs "#")) (Identifier (bs "#index"))) (Integer 3))]).

(** [matchesAny(finding["line"], ["KEY"])] *)
Definition native_filter : BetterleaksExpr := name_call "matchesAny" [finding_field "line"; Array [String (bs "KEY")]].

Definition filters : list BetterleaksExpr := [example_filter; scope_filter; native_filter].
Definition engine : BetterleaksFilterEngine := Eval vm_compute in
  match engine_compile filters with Ok engine => engine
  | _ => {| matches_any_database := None; matches_any_empty := []; find_match_database := None;
            find_match_exact := []; dynamic_regex := false |} end.

Definition example_context : BetterleaksFilterContext := {|
  path := (115%Z, 11); attributes := None; secret := (106%Z, 8); full_match := (100%Z, 14); line := (100%Z, 14);
  fragment_raw := (100%Z, 26); match_start_idx := 0; match_end_idx := 14; match_line_start_idx := 0;
  match_line_end_idx := 14; rule_id := (100%Z, 3); description := (100%Z, 3); captures := []
|}.
Definition evaluation (e : BetterleaksExpr) : Evaluation :=
  {| ev_memory := memory; ev_expression := e; ev_context := example_context; ev_range := (0, 14)%Z |}.
Definition lines (k : Z * Z * Z * Z) : bytes := slice buffer 0 14.

Definition scan : list Evaluation := [evaluation example_filter; evaluation scope_filter; evaluation example_filter; evaluation native_filter].

Lemma evaluation_line : LineKnown (line example_context) (0, 14)%Z lines.
Proof. split; [reflexivity|done]. Defined.

Lemma evaluation_fine e : e ∈ filters -> validate_filter_expression e = true -> evaluation_ok filters lines (evaluation e).
Proof. intros He Hv. split; [exact He|]. split; [exact Hv|apply evaluation_line]. Qed.
End Concrete.

Import Concrete.

(** The third evaluation finds the line's result in the cache; on the last one the
    native scanner and the regex differ. *)
Lemma filters_accelerated_exact_witness :
  Forall2 (fun x r => answers r (evaluate_plain native_matches filters x)) scan
    (evaluate_all (filter_engine engine) scan ∅) /\
  evaluate_all (filter_engine engine) scan ∅ =
    [Ok {| discard := true; outcome_confidence := None |}; Ok {| discard := true; outcome_confidence := Some High |};
     Ok {| discard := true; outcome_confidence := None |}; Ok {| discard := true; outcome_confidence := None |}] /\
  pattern_matches (slice buffer 0 14) (bs "KEY") = false.
Proof.
  split; [|split; vm_compute; reflexivity].
  apply (filters_accelerated_exact filters engine lines native_matches); [vm_compute; reflexivity|].
  assert (evaluation_ok filters lines (evaluation example_filter)) by (apply evaluation_fine; [left|reflexivity]).
  repeat apply Forall_cons_2; [assumption|apply evaluation_fine; [right; left|reflexivity]|assumption|
    apply evaluation_fine; [right; right; left|reflexivity]|apply Forall_nil; exact I].
Defined.

(** [filter([5, 0, 7], #)] *)
Lemma collection_functions_exact_witness :
  let items : M Value := mret (Value.Array [Value.Integer 5; Value.Integer 0; Value.Integer 7]) in
  let predicate := eval plain_engine (0%Z, 0) (0, 0)%Z (Pointer (bs "#")) in
  (exists s2, call_collection (bs "filter") [items; predicate] (initial example_context None) =
    (Ok (collection_spec (bs "filter") (fun _ item => item) [Value.Integer 5; Value.Integer 0; Value.Integer 7]), s2)) /\
  collection_spec (bs "filter") (fun _ item => item) [Value.Integer 5; Value.Integer 0; Value.Integer 7] =
    Value.Array [Value.Integer 5; Value.Integer 7].
Proof.
  split; [|reflexivity].
  apply (collection_functions_exact (bs "filter") _ _ _ (fun _ item => item) _ (initial example_context None)); [reflexivity|reflexivity|].
  intros t i item _ Hi _. exists t. split; [|done]. unfold eval. cbn [run fst]. rewrite bind_run. unfold get_variable.
  change (bs "#") with POINTER. rewrite Hi. reflexivity.
Defined.
