(* ===== verification/FilterSupport.v ===== *)
(** * A validated filter uses only what the evaluator has

    The validator of [build_support/betterleaks.rs] accepts an expression by the
    names in it; the evaluator of [betterleaks_filter.rs] resolves them when it
    runs. [validated_filter_supported] says that the two agree on what the parser
    produces, and [runnable] names the three uses where they do not. *)

From Stdlib Require Import ZArith Lia Bool.
From stdpp Require Import base list numbers option gmap.
From S2P Require Import Rule.
From S2P Require Import Prelude Text Ordered Expr FilterValue SpecF64 FilterEngine Filter FilterExact.

(** ** What the parser produces, and the uses that are accepted but fail *)

(** A helper of a namespace is called along the receivers of a chain, where
    [eval_chain] takes it for a method. *)
Fixpoint receiver_helper (e : BetterleaksExpr) : bool :=
  match e with
  | Member node _ _ false | Slice node _ _ => receiver_helper node
  | Call callee _ =>
    match callee with
    | Member node _ _ true => namespaced (expression_name callee) || receiver_helper node
    | _ => false
    end
  | _ => false
  end.

(** A name under [crypto.] that is no function: a method of a variable [crypto]. *)
Definition crypto_variable (name : option bytes) : bool :=
  match name with
  | Some name => starts_with (bs "crypto.") name && negb (name is "crypto.sha256")
  | None => false
  end.

(** A method is named by one word, a callee is the only place for a reference to
    a method, and pairs are in maps. *)
Fixpoint runnable (e : BetterleaksExpr) : bool :=
  match e with
  | Nil | Identifier _ | Integer _ | Float _ | Bool _ | String _ | Pointer _ => true
  | Unary _ node | Predicate node => runnable node
  | Chain node => negb (receiver_helper node) && runnable node
  | Binary _ a b | VariableDeclarator _ a b => runnable a && runnable b
  | Member node property _ method => negb method && runnable node && runnable property
  | Slice a b c | Conditional a b c => runnable a && runnable b && runnable c
  | Call callee arguments =>
    negb (crypto_variable (expression_name callee)) &&
    match callee with
    | Member node property _ true =>
      match property with String value => negb (existsb (Z.eqb (bc ".")) value) | _ => false end && runnable node
    | _ => runnable callee
    end && forallb runnable arguments
  | Builtin _ nodes | Sequence nodes | Array nodes => forallb runnable nodes
  | Map pairs => forallb (fun pair => match pair with Pair key value => runnable key && runnable value | _ => false end) pairs
  | Pair _ _ => false
  end.

(** ** Functions of values *)

Definition fine {A} (r : res A) : Prop := r <> Err Unsupported.

Lemma fine_bind {A B} (m : res A) (f : A -> res B) : fine m -> (forall a, fine (f a)) -> fine (m ≫= f).
Proof. intros Hm Hf. destruct m; cbn; [apply Hf|intros [= ->]; by apply Hm|done]. Qed.

Lemma fine_mapM {A B} (f : A -> res B) l : (forall x, fine (f x)) -> fine (mapM f l).
Proof.
  intros Hf. induction l as [|x l IH]; [done|]. rewrite mapM_cons. apply fine_bind; [done|]. intros y.
  by apply fine_bind; [|done].
Qed.

Lemma fine_or_err {A} e (o : option A) : e <> Unsupported -> fine (or_err e o).
Proof. intros He. by destruct o; [|intros [= ->]]. Qed.

Lemma fine_compile `{RegexLib} p : fine (compile_go_regex p).
Proof. intros E. by apply compile_go_err in E. Qed.

Create HintDb fine.
#[export] Hint Resolve fine_compile : fine.
#[export] Hint Extern 1 (fine (or_err _ _)) => (apply fine_or_err; discriminate) : fine.

Ltac fine_steps := repeat first
  [ discriminate
  | solve [auto with fine]
  | match goal with |- forall _, _ => intros ? end
  | apply fine_bind
  | apply fine_mapM
  | match goal with |- fine (match ?x with _ => _ end) => destruct x end
  | progress cbv zeta ].

Section values.
Context {F : F64} {Mem : Memory} {Lib : Library} {Bld : Build} {RL : RegexLib}.

Lemma fine_as_string v : fine (as_string v).
Proof. by destruct v. Qed.
Lemma fine_as_int v : fine (as_int v).
Proof. by destruct v. Qed.
Lemma fine_as_f64 v : fine (as_f64 v).
Proof. by destruct v. Qed.
#[local] Hint Resolve fine_as_string fine_as_int fine_as_f64 : fine.

Lemma fine_strings v : fine (strings v).
Proof. destruct v; fine_steps. Qed.
#[local] Hint Resolve fine_strings : fine.

Lemma fine_numeric_binary a b f : fine (numeric_binary a b f).
Proof. unfold numeric_binary. fine_steps. Qed.
Lemma fine_member a b : fine (member a b).
Proof. unfold member. fine_steps. Qed.
Lemma fine_value_slice v a b : fine (value_slice v a b).
Proof. unfold value_slice. fine_steps. Qed.
Lemma fine_last_index_of l : fine (last_index_of l).
Proof. unfold last_index_of. fine_steps. Qed.
Lemma fine_replace l : fine (replace l).
Proof. unfold replace. fine_steps. Qed.
Lemma fine_substring v l : fine (substring v l).
Proof. unfold substring. fine_steps. Qed.
#[local] Hint Resolve fine_numeric_binary fine_member fine_value_slice fine_last_index_of fine_replace fine_substring : fine.

Lemma fine_contains_any l : fine (contains_any l).
Proof. unfold contains_any. fine_steps. Qed.
Lemma fine_string_set_helper l n : fine (string_set_helper l n).
Proof. unfold string_set_helper. fine_steps. Qed.
Lemma fine_entropy l : fine (entropy l).
Proof. unfold entropy. fine_steps. Qed.
Lemma fine_token_ratio l : fine (token_ratio l).
Proof. unfold token_ratio. fine_steps. Qed.
Lemma fine_fails_token_efficiency l : fine (fails_token_efficiency l).
Proof. unfold fails_token_efficiency. fine_steps. Qed.
Lemma fine_value_length l : fine (value_length l).
Proof. unfold value_length. fine_steps. Qed.
Lemma fine_min_or_max l b : fine (min_or_max l b).
Proof. unfold min_or_max. fine_steps. Qed.
Lemma fine_split l : fine (split l).
Proof. unfold split. fine_steps. Qed.
Lemma fine_join l : fine (join l).
Proof. unfold join. fine_steps. Qed.
Lemma fine_from_base64 l : fine (from_base64 l).
Proof. unfold from_base64. fine_steps. Qed.
#[local] Hint Resolve fine_contains_any fine_string_set_helper fine_entropy fine_token_ratio fine_fails_token_efficiency
  fine_value_length fine_min_or_max fine_split fine_join fine_from_base64 : fine.

Lemma fine_simple_builtin name l : one_of name SIMPLE_BUILTINS = true -> fine (simple_builtin name l).
Proof.
  intros H. apply existsb_elem in H as (n & Hin & Hn). apply bool_decide_eq_true in Hn as ->.
  repeat (apply elem_of_cons in Hin as [->|Hin]; [
    unfold simple_builtin, text_builtin, array_builtin, repeat_builtin, get_builtin, parameter, sort_values, concat_arrays;
    names; fine_steps|]).
  by apply not_elem_of_nil in Hin.
Qed.

Lemma fine_short_circuit_binary op l r : one_of op BINARY_OPERATORS = true -> fine (binary op l r).
Proof.
  intros H. apply existsb_elem in H as (n & Hin & Hn). apply bool_decide_eq_true in Hn as ->.
  repeat (apply elem_of_cons in Hin as [->|Hin]; [
    unfold binary, compare_values, add_values, text_operator, in_value; names; fine_steps|]).
  by apply not_elem_of_nil in Hin.
Qed.

Lemma fine_unary op v : one_of op UNARY_OPERATORS = true -> fine (unary op v).
Proof.
  intros H. apply existsb_elem in H as (n & Hin & Hn). apply bool_decide_eq_true in Hn as ->.
  repeat (apply elem_of_cons in Hin as [->|Hin]; [unfold unary; names; fine_steps|]).
  by apply not_elem_of_nil in Hin.
Qed.

Lemma fine_call_method receiver name l : one_of name METHODS = true -> fine (call_method receiver name l).
Proof.
  intros H. apply existsb_elem in H as (n & Hin & Hn). apply bool_decide_eq_true in Hn as ->.
  repeat (apply elem_of_cons in Hin as [->|Hin]; [unfold call_method; names; fine_steps|]).
  by apply not_elem_of_nil in Hin.
Qed.
End values.

#[export] Hint Resolve fine_as_string fine_as_int fine_as_f64 fine_strings fine_numeric_binary fine_member
  fine_value_slice fine_last_index_of fine_replace fine_substring fine_contains_any fine_string_set_helper fine_entropy
  fine_token_ratio fine_fails_token_efficiency fine_value_length fine_min_or_max fine_split fine_join
  fine_from_base64 : fine.

(** ** Computations *)

Section supported.
Context {F : F64} {Mem : Memory} {Lib : Library} {Bld : Build} {RL : RegexLib} {Hash : Hasher}.
Context (Engine : RegexEngine) (source_line : str) (line_range : Z * Z).
Hypothesis engine_fine : forall input ps, fine (Engine.(engine_matches_any) input ps).
Hypothesis engine_find_fine : forall input p, fine (Engine.(engine_find_match) input p).

Definition supported {A} (m : M A) : Prop := forall s, fine (fst (m s)).

Lemma supported_ret {A} (a : A) : supported (mret a).
Proof. done. Qed.
Lemma supported_lift {A} (r : res A) : fine r -> supported (lift r).
Proof. by intros H s. Qed.
Lemma supported_bind_yields {A B} (P : A -> Prop) (m : M A) (f : A -> M B) :
  supported m -> yields m P -> (forall a, P a -> supported (f a)) -> supported (m ≫= f).
Proof.
  intros Hm Hp Hf s. rewrite bind_run. specialize (Hm s). specialize (Hp s).
  destruct (m s) as [[a|e|] t]; cbn in *; [apply Hf; by eapply Hp|intros [= ->]; by apply Hm|done].
Qed.
Lemma supported_bind {A B} (m : M A) (f : A -> M B) : supported m -> (forall a, supported (f a)) -> supported (m ≫= f).
Proof. intros Hm Hf. by apply (supported_bind_yields (fun _ => True)). Qed.
Lemma supported_get k : supported (get_variable k).
Proof. done. Qed.
Lemma supported_modify f : supported (modify f).
Proof. done. Qed.
Lemma supported_restoring {A} n previous (m : M A) : supported m -> supported (restoring n previous m).
Proof. intros Hm s. unfold restoring. specialize (Hm s). by destruct (m s). Qed.

Lemma supported_arguments l : Forall supported l -> supported (eval_arguments l).
Proof.
  induction 1 as [|m l Hm _ IH]; cbn [eval_arguments]; [apply supported_ret|].
  apply supported_bind; [done|]. intros v. apply supported_bind; [done|]. intros. apply supported_ret.
Qed.

Lemma supported_matches_any_text v ps : supported (matches_any_text Engine source_line line_range v ps).
Proof using engine_fine.
  unfold matches_any_text. destruct (res_ok (strings ps)) as [l|]; [|done]. destruct v as [| | | |t| |]; try done.
  intros s. pose proof (engine_fine (text_of t) l) as He. unfold fine in *.
  destruct (engine_matches_any (text_of t) l) as [m|e|]; repeat case_match; cbn; congruence.
Qed.

Lemma supported_matches_any l : supported (matches_any Engine source_line line_range l).
Proof using engine_fine.
  assert (forall l ps, supported (matches_any_texts Engine source_line line_range l ps)) as Ht.
  { intros l' ps. induction l' as [|v l' IH]; cbn [matches_any_texts]; [apply supported_ret|].
    apply supported_bind; [apply supported_matches_any_text|]. intros r. destruct r as [|[]| | | | |]; done || apply supported_ret. }
  unfold matches_any. repeat case_match; try done; try apply Ht; apply supported_matches_any_text.
Qed.

Lemma supported_collection name l : Forall supported l -> supported (call_collection name l).
Proof.
  intros H. unfold call_collection. destruct l as [|items [|predicate [|? ?]]]; try done.
  apply Forall_cons in H as [Hi [Hp _]%Forall_cons]. apply supported_bind; [done|]. intros v. destruct v; try done.
  apply supported_bind; [done|intros a]. apply supported_bind; [done|intros b].
  do 2 apply supported_restoring. generalize {| output := []; count := 0; found := Value.Nil |} as seen. generalize 0 as i.
  induction l as [|item l IH]; intros i seen; cbn [collection_loop]; [apply supported_ret|].
  do 2 (apply supported_bind; [done|intros _]). apply supported_bind; [done|]. intros value.
  destruct (collection_item _ _ _ _ _); [apply supported_ret|apply IH].
Qed.

(** Every name that [call_named] resolves. *)
Definition NAMES : list string :=
  (COLLECTIONS ++ ["malformedPrivateKey"; "filter.matchesAny"; "matchesAny"; "filter.findMatch"; "findMatch";
   "filter.containsAny"; "containsAny"; "startsWithAny"; "intersects"; "crypto.sha256"; "filter.entropy"; "entropy";
   "filter.tokenRatio"; "tokenRatio"; "filter.failsTokenEfficiency"; "failsTokenEfficiency"; "filter.setConfidence";
   "setConfidence"; "len"; "size"; "lower"; "upper"; "max"; "min"; "split"; "join"; "lastIndexOf"; "replace";
   "fromBase64"]%string ++ SIMPLE_BUILTINS)%list.

Lemma supported_call_named name l : one_of name NAMES = true -> Forall supported l ->
  supported (call_named Engine source_line line_range name l).
Proof using engine_fine engine_find_fine.
  intros Hn Hl. unfold call_named. destruct (one_of name COLLECTIONS) eqn:Ec; [by apply supported_collection|].
  apply supported_bind; [by apply supported_arguments|]. intros vs.
  destruct (one_of name ["filter.matchesAny"; "matchesAny"]%string) eqn:E1; [apply supported_matches_any|].
  destruct (one_of name ["filter.setConfidence"; "setConfidence"]%string) eqn:E2.
  { unfold set_confidence. repeat case_match; try done.
    apply supported_bind; [apply supported_lift, fine_as_string|intros ?].
    apply supported_bind; [by apply supported_lift, fine_or_err|intros ?].
    apply supported_bind; [apply supported_modify|done]. }
  apply supported_lift. assert (fine (find_match Engine vs)) as Hf.
  { unfold find_match. repeat case_match; try done. apply fine_bind; [apply fine_as_string|intros ?].
    apply fine_bind; [apply fine_as_string|intros ?]. by apply fine_bind. }
  apply existsb_elem in Hn as (n & Hin & Hn). apply bool_decide_eq_true in Hn as ->.
  unfold NAMES in Hin. apply elem_of_app in Hin as [Hin|Hin].
  { assert (one_of (bs n) COLLECTIONS = true) as E; [|congruence].
    apply existsb_elem. exists n. split; [done|by apply bool_decide_eq_true]. }
  apply elem_of_app in Hin as [Hin|Hin].
  - repeat (apply elem_of_cons in Hin as [->|Hin]; [
      try (by vm_compute in E1); try (by vm_compute in E2); unfold value_function; names; cbn [default from_option]; unfold Datatypes.id; fine_steps|]).
    by apply not_elem_of_nil in Hin.
  - assert (one_of (bs n) SIMPLE_BUILTINS = true) as E.
    { apply existsb_elem. exists n. split; [done|by apply bool_decide_eq_true]. }
    apply (fine_simple_builtin _ vs) in E. revert E.
    repeat (apply elem_of_cons in Hin as [->|Hin]; [unfold value_function; names; cbn [default from_option]; unfold Datatypes.id; done|]).
    by apply not_elem_of_nil in Hin.
Qed.

Lemma supported_named_call name l : match name with Some name => one_of name NAMES = true | None => False end ->
  Forall supported l -> supported (named_call Engine source_line line_range name l).
Proof using engine_fine engine_find_fine. destruct name; [|done]. apply supported_call_named. Qed.

Abbreviation eval_run := (run Engine source_line line_range).

Lemma supported_method_call value l receiver : one_of value METHODS = true -> Forall supported l ->
  supported (method_call (fst (eval_run (String value))) l receiver).
Proof.
  intros Hv Hl. unfold method_call. apply (supported_bind_yields (fun v => v = value_string value)); [done|by intros s a s' [= <- _]|].
  intros v ->. apply (supported_bind_yields (fun m => m = value)); [done|by intros s a s' [= <- _]|]. intros m ->.
  apply supported_bind; [by apply supported_arguments|]. intros vs. apply supported_lift. by apply fine_call_method.
Qed.

Lemma supported_receiver receiver optional k : supported receiver -> (forall v, supported (k v)) ->
  supported (with_receiver receiver optional k).
Proof.
  intros Hr Hk. unfold with_receiver. apply supported_bind; [done|]. intros [r|]; [|done].
  destruct (_ && _); [done|]. by apply supported_bind.
Qed.

Lemma supported_slice_call from to v : supported from -> supported to -> supported (slice_call from to v).
Proof.
  intros. unfold slice_call. repeat (apply supported_bind; [by auto using supported_lift, fine_as_int|intros ?]).
  apply supported_lift, fine_value_slice.
Qed.

Lemma supported_sequence l : Forall supported l -> forall v, supported (eval_sequence l v).
Proof. induction 1; intros v; cbn [eval_sequence]; [done|]. by apply supported_bind. Qed.

Lemma supported_pairs l : (forall p, p ∈ l -> match p with Some (k, v) => supported k /\ supported v | None => False end) ->
  forall m, supported (eval_pairs l m).
Proof.
  induction l as [|p l IH]; intros H m; [done|]. pose proof (H p ltac:(left)) as Hp. destruct p as [[k v]|]; [|done].
  destruct Hp as [Hk Hv]. cbn [eval_pairs]. repeat (apply supported_bind; [by auto using supported_lift, fine_as_string|intros ?]).
  apply IH. intros. apply H. by right.
Qed.

(** ** Names of accepted calls *)

Lemma one_of_incl a b name : forallb (fun n => one_of (bs n) b) a = true -> one_of name a = true -> one_of name b = true.
Proof.
  intros Hab H. apply existsb_elem in H as (n & Hin & Hn). apply bool_decide_eq_true in Hn as ->.
  rewrite forallb_forall in Hab. by apply Hab, list_elem_of_In.
Qed.

Lemma rsplit_dot_last p v : existsb (Z.eqb (bc ".")) v = false -> rsplit_dot (p ++ bs "." ++ v) = v.
Proof.
  intros Hv. induction p as [|b p IH].
  - change (bs "." ++ v) with (bc "." :: v). cbn [app rsplit_dot]. rewrite Hv. done.
  - cbn [app rsplit_dot]. rewrite existsb_app, IH. change (bs "." ++ v) with (bc "." :: v). cbn [existsb].
    by rewrite Z.eqb_refl, orb_true_r.
Qed.

Lemma accepted_name callee name : filter_call_supported callee name = true -> crypto_variable (Some name) = false ->
  is_method callee = false \/ namespaced (Some name) = true -> one_of name NAMES = true.
Proof.
  unfold filter_call_supported, crypto_variable, namespaced. intros H Hc [Hm|Hn].
  - rewrite Hm in H. by apply (one_of_incl FUNCTIONS).
  - destruct (is_method callee); [|by apply (one_of_incl FUNCTIONS)].
    destruct (starts_with (bs "filter.") name); [by apply (one_of_incl HELPERS)|]. cbn [orb] in Hn. rewrite Hn in Hc.
    cbn [andb] in Hc. apply negb_false_iff, bool_decide_eq_true in Hc as ->. reflexivity.
Qed.

Lemma accepted_method node value optional name :
  expression_name (Member node (String value) optional true) = Some name -> existsb (Z.eqb (bc ".")) value = false ->
  filter_call_supported (Member node (String value) optional true) name = true -> namespaced (Some name) = false ->
  one_of value METHODS = true.
Proof.
  cbn [expression_name]. destruct (expression_name node) as [p|]; [|done]. intros E Hd H Hn.
  apply (inj Some) in E. subst name. unfold filter_call_supported in H. cbn [is_method] in H. unfold namespaced in Hn. apply orb_false_iff in Hn as [Hf Hc].
  rewrite Hf, rsplit_dot_last in H by done. apply orb_true_iff in H as [H|H]; [|done].
  apply bool_decide_eq_true in H. rewrite H in Hc. done.
Qed.

(** ** Expressions *)

Definition accepted (e : BetterleaksExpr) : Prop := validate_filter_expression e = true /\ runnable e = true.

Definition runs (e : BetterleaksExpr) : Prop := accepted e ->
  supported (fst (eval_run e)) /\ (receiver_helper e = false -> supported (snd (eval_run e))).

Lemma runs_all l : Forall runs l -> forallb validate_filter_expression l = true -> forallb runnable l = true ->
  Forall supported (map (fun e => fst (eval_run e)) l).
Proof.
  intros Hl Hv Hr. rewrite forallb_forall in Hv, Hr. apply Forall_fmap. apply Forall_forall. intros e He.
  rewrite Forall_forall in Hl. apply list_elem_of_In in He as He'.
  by destruct (Hl e He) as [? _]; [split; auto|].
Qed.

Ltac supported_steps := repeat first
  [ assumption
  | apply supported_ret | apply supported_get | apply supported_modify
  | match goal with H : runs ?e |- supported (fst (eval_run ?e)) => apply H; split; assumption end
  | match goal with H : runs ?e |- supported (snd (eval_run ?e)) => apply H; [split; assumption|assumption] end
  | apply supported_lift; solve [auto with fine | discriminate]
  | apply supported_slice_call
  | apply supported_bind; [|intros ?]
  | apply supported_restoring
  | match goal with |- supported (match ?x with _ => _ end) => destruct x end ].

(** The two ways to call, of an accepted call. *)
Lemma call_supported callee arguments : accepted (Call callee arguments) -> Forall runs arguments ->
  exists name, expression_name callee = Some name /\
  Forall supported (map (fun e => fst (eval_run e)) arguments) /\
  (is_method callee = false \/ namespaced (Some name) = true ->
    supported (named_call Engine source_line line_range (Some name) (map (fun e => fst (eval_run e)) arguments))) /\
  (forall node property optional, callee = Member node property optional true -> namespaced (Some name) = false ->
    accepted node /\ forall receiver,
    supported (method_call (fst (eval_run property)) (map (fun e => fst (eval_run e)) arguments) receiver)).
Proof using engine_fine engine_find_fine.
  intros [Hv Hr] Ha. cbn [validate_filter_expression runnable] in Hv, Hr.
  destruct (expression_name callee) as [name|] eqn:En; [|done]. exists name. split; [done|].
  apply andb_true_iff in Hv as [[Hs Hvc]%andb_true_iff Hva]. apply andb_true_iff in Hr as [[Hc Hrc]%andb_true_iff Hra].
  apply negb_true_iff in Hc. pose proof (runs_all _ Ha Hva Hra) as Hl. split; [done|]. split.
  - intros Hm. apply supported_named_call; [|done]. by eapply accepted_name.
  - intros node property optional -> Hn. cbn [validate_filter_expression] in Hvc. apply andb_true_iff in Hvc as [Hvn _].
    apply andb_true_iff in Hrc as [Hp Hrn]. destruct property; try done. apply negb_true_iff in Hp.
    split; [done|]. intros receiver. apply supported_method_call; [|done]. by eapply accepted_method.
Qed.

Lemma runs_eval e : Forall (fun c => runs c /\ Forall runs (children c)) (children e) -> accepted e ->
  supported (fst (eval_run e)).
Proof using engine_fine engine_find_fine.
  intros H Hacc. assert (Forall runs (children e)) as Hb by (apply (Forall_impl _ _ _ H); by intros ? [? _]).
  destruct e as [| | | | | |op node|op lhs rhs|node|node property optional method|node from to|callee arguments|name arguments|c e1 e2|name value expr|nodes|nodes|pairs|key value|node|];
    cbn [children] in H, Hb; try (decompose_Forall_hyps; destruct_and?); pose proof Hacc as [Hv Hr];
    cbn [validate_filter_expression runnable] in Hv, Hr; cbn [run fst];
    repeat match goal with H : (_ && _) = true |- _ => apply andb_true_iff in H; destruct H | H : negb _ = true |- _ => apply negb_true_iff in H end;
    subst; try solve [supported_steps].
  - supported_steps. apply supported_lift. by apply fine_unary.
  - supported_steps. apply supported_lift. by apply fine_short_circuit_binary.
  - destruct (call_supported callee arguments Hacc) as (name & En & Hl & Hn & Hm); [done|]. rewrite En.
    destruct (namespaced (Some name)) eqn:Es; [apply Hn; by right|].
    destruct callee as [| | | | | | | | |node property optional []| | | | | | | | | | |]; try (apply Hn; by left).
    destruct (Hm node property optional eq_refl eq_refl) as [Hacc' Hc].
    match goal with H : Forall runs (children (Member _ _ _ _)) |- _ => cbn [children] in H; apply Forall_cons in H as [Hnode _] end.
    apply supported_bind; [by apply Hnode|done].
  - apply supported_call_named; [by apply (one_of_incl BUILTINS)|by apply runs_all].
  - by apply supported_sequence, runs_all.
  - apply supported_bind; [by apply supported_arguments, runs_all|done].
  - apply supported_pairs. intros p (pair & -> & Hin)%list_elem_of_fmap. rewrite Forall_forall in H.
    destruct (H _ Hin) as [_ Hc]. rewrite list_elem_of_In in Hin. rewrite forallb_forall in Hv, Hr.
    specialize (Hv _ Hin). specialize (Hr _ Hin). destruct pair; try done. cbn [children] in Hc.
    cbn [validate_filter_expression] in Hv. apply andb_true_iff in Hv as [? ?], Hr as [? ?]. decompose_Forall_hyps.
    split; supported_steps.
Qed.

Lemma runs_chain e : Forall (fun c => runs c /\ Forall runs (children c)) (children e) -> accepted e ->
  receiver_helper e = false -> supported (snd (eval_run e)).
Proof using engine_fine engine_find_fine.
  intros H Hacc Hh. pose proof (runs_eval e H Hacc) as He.
  destruct (chained e) eqn:Ec; [|rewrite run_unchained by done; by apply supported_bind].
  pose proof Hacc as [Hv Hr].
  destruct e as [| | | | | | | | |node property optional []|node from to|callee arguments| | | | | | | | |]; try discriminate.
  - cbn [run snd children validate_filter_expression runnable receiver_helper] in *.
    apply andb_true_iff in Hv as [? ?], Hr as [[_ ?]%andb_true_iff ?].
    apply Forall_cons in H as [[? _] [[? _] _]%Forall_cons].
    apply supported_receiver; [supported_steps|]. intros v. supported_steps.
  - cbn [run snd children validate_filter_expression runnable receiver_helper] in *.
    apply andb_true_iff in Hv as [[? ?]%andb_true_iff ?], Hr as [[? ?]%andb_true_iff ?].
    apply Forall_cons in H as [[? _] [[? _] [[? _] _]%Forall_cons]%Forall_cons].
    apply supported_receiver; [supported_steps|]. intros v. supported_steps.
  - destruct callee as [| | | | | | | | |node property optional []| | | | | | | | | | |]; try discriminate.
    cbn [receiver_helper] in Hh. apply orb_false_iff in Hh as [Hn Hh]. cbn [children] in H.
    apply Forall_cons in H as [[_ H'] Ha].
    assert (Forall runs arguments) as Hb by (apply (Forall_impl _ _ _ Ha); by intros ? [? _]).
    destruct (call_supported _ arguments Hacc Hb) as (name & En & Hl & _ & Hm). rewrite En in Hn.
    destruct (Hm node property optional eq_refl Hn) as [Hacc' Hc].
    cbn [children] in H'. apply Forall_cons in H' as [Hnode _]. cbn [run snd].
    apply supported_receiver; [by apply Hnode|exact Hc].
Qed.

Lemma runs_expression e : runs e /\ Forall runs (children e).
Proof using engine_fine engine_find_fine.
  induction e as [e IH] using expr_nested_ind. split; [|apply (Forall_impl _ _ _ IH); by intros ? [? _]].
  intros Hacc. split; [by apply runs_eval|by apply runs_chain].
Qed.
End supported.

Section engine.
Context {RL : RegexLib} {VS : Vectorscan}.

Lemma fine_database_matches_any db input ps : fine (database_matches_any db input ps).
Proof. unfold database_matches_any. fine_steps. Qed.
#[local] Hint Resolve fine_database_matches_any : fine.

Lemma fine_filter_matches_any engine input ps : fine (filter_matches_any engine input ps).
Proof. unfold filter_matches_any. fine_steps. Qed.
Lemma fine_filter_find_match engine input p : fine (filter_find_match engine input p).
Proof. unfold filter_find_match. fine_steps. Qed.
End engine.

(** C36. A filter that the validator accepts never fails at run time because of an
    operator, a function, a method or a construct that the evaluator does not
    have, whatever the candidate is: for the expressions the parser produces, but
    for three uses that are accepted and fail ([runnable]). *)
Theorem validated_filter_supported {F : F64} {Mem : Memory} {Lib : Library} {Bld : Build} {RL : RegexLib}
    {VS : Vectorscan} {Hash : Hasher} (engine : BetterleaksFilterEngine) (expression : BetterleaksExpr)
    (c : BetterleaksFilterContext) (line_range : Z * Z) (cache : option BetterleaksFilterLineCache) :
  validate_filter_expression expression = true -> runnable expression = true ->
  fst (evaluate_filter_with_engine_and_line_cache (filter_engine engine) expression c line_range cache) <> Err Unsupported.
Proof.
  intros Hv Hr. unfold evaluate_filter_with_engine_and_line_cache, eval.
  destruct (runs_expression (filter_engine engine) (line c) line_range) with (e := expression) as [H _];
    [apply fine_filter_matches_any|apply fine_filter_find_match|].
  destruct (H (conj Hv Hr)) as [Hs _]. specialize (Hs (initial c cache)). unfold fine in Hs.
  destruct (fst (run _ _ _ _) _) as [[v|e|] s]; cbn in *; [done| |done]. intros E. by injection E as ->.
Qed.

Import Concrete.

Lemma validated_filter_supported_witness :
  validate_filter_expression example_filter = true /\ runnable example_filter = true /\
  fst (evaluate_filter_with_engine_and_line_cache (filter_engine engine) example_filter example_context (0, 14)%Z None)
    <> Err Unsupported.
Proof. split; [reflexivity|]. split; [reflexivity|]. apply validated_filter_supported; reflexivity. Defined.

(** ** The three uses that the validator accepts and the evaluator does not have *)

Definition outcome_of (e : BetterleaksExpr) : res BetterleaksFilterOutcome :=
  evaluate_filter_with_engine plain_engine e example_context.

(** [filter.findMatch(finding["line"], "key")?.[0]]; without the optional chain the
    same call is fine. *)
Definition chained_helper : BetterleaksExpr :=
  Member (Call (Member (Identifier (bs "filter")) (String (bs "findMatch")) false true)
    [finding_field "line"; String (bs "key")]) (Integer 0) true false.

Example chained_helper_fails :
  validate_filter_expression (Chain chained_helper) = true /\ outcome_of (Chain chained_helper) = Err Unsupported /\
  outcome_of chained_helper = Ok {| discard := true; outcome_confidence := None |}.
Proof. repeat split; vm_compute; reflexivity. Qed.

(** [let crypto = "abc"; crypto.contains("b")]; any other name is fine. *)
Definition contains_of (name : string) : BetterleaksExpr :=
  VariableDeclarator (bs name) (String (bs "abc"))
    (Call (Member (Identifier (bs name)) (String (bs "contains")) false true) [String (bs "b")]).

Example crypto_variable_fails :
  validate_filter_expression (contains_of "crypto") = true /\ outcome_of (contains_of "crypto") = Err Unsupported /\
  outcome_of (contains_of "text") = Ok {| discard := true; outcome_confidence := None |}.
Proof. repeat split; vm_compute; reflexivity. Qed.

(** [finding["a.contains"]("b")]: a method whose name has a dot. *)
Example dotted_method_fails :
  let e := Call (Member (Identifier (bs "finding")) (String (bs "a.contains")) false true) [String (bs "b")] in
  validate_filter_expression e = true /\ outcome_of e = Err Unsupported.
Proof. repeat split; vm_compute; reflexivity. Qed.
