(* ===== verification/ExprParser.v ===== *)
(** * Reading Betterleaks expressions

    The lexer and the parser of [kingfisher-rules/build_support/betterleaks.rs],
    which every filter, validation and revocation expression of a rule goes
    through. The source is its UTF-8 bytes. The parser is a state monad over the
    tokens that are left; its functions call each other with a fuel that
    [parse_expression] chooses large enough for every source
    ([ExprParsed.parse_expression_terminates]). *)

From Stdlib Require Import ZArith Lia Bool.
From stdpp Require Import base list numbers option.
From S2P Require Import Prelude Text Expr FilterValue.

(** ** Tokens *)
Module Token.
Inductive Token :=
  | Identifier (value : bytes) | Integer (value : Z) | Float (value : bytes) | String (value : bytes) | Bool (value : bool)
  | Nil | Let | LParen | RParen | LBracket | RBracket | LBrace | RBrace | Comma | Colon | Semicolon | Dot
  | OptionalDot | Question | Operator (value : bytes) | Eof.
End Token.
Abbreviation Token := Token.Token.

#[export] Instance token_eq_dec : EqDecision Token.
Proof. solve_decision. Defined.

(** The result of a reader: a value, an error, or no more fuel. *)
Inductive parsed (A : Type) := Done (value : A) | Error | Starved.
Arguments Done {A}. Arguments Error {A}. Arguments Starved {A}.

Definition done_or_error {A} (o : option A) : parsed A := match o with Some a => Done a | None => Error end.

(** ** The lexer *)

Fixpoint span_while (p : byte -> bool) (l : bytes) : bytes * bytes :=
  match l with
  | b :: r => if p b then let '(w, rest) := span_while p r in (b :: w, rest) else ([], l)
  | [] => ([], [])
  end.

Definition word_byte (b : byte) : bool := is_ascii_alphanumeric b || (b ==? bc "_") || (b ==? bc "#") || (b ==? bc "$").
Definition word_start (b : byte) : bool := is_ascii_alphabetic b || (b ==? bc "_") || (b ==? bc "#") || (b ==? bc "$").
Definition name_byte (b : byte) : bool := is_ascii_alphanumeric b || (b ==? bc "_").

(** Digits with at most one point, which does not start a range. *)
Fixpoint read_number (point : bool) (l : bytes) : bytes * bytes :=
  match l with
  | b :: r =>
    if is_ascii_digit b then let '(w, rest) := read_number point r in (b :: w, rest)
    else if (b ==? bc ".") && negb (starts_with (bs "..") l) && negb point then
      let '(w, rest) := read_number true r in (b :: w, rest)
    else ([], l)
  | [] => ([], [])
  end.

Definition hex_value (b : byte) : option Z :=
  if is_ascii_digit b then Some (b - 48)%Z
  else if 97 ≤? b ≤? 102 then Some (b - 87)%Z
  else if 65 ≤? b ≤? 70 then Some (b - 55)%Z
  else None.

(** [char::from_u32] of four digits, in UTF-8; surrogates are no characters. *)
Definition encode_char (v : Z) : option bytes :=
  if (v <? 128)%Z then Some [v]
  else if (v <? 2048)%Z then Some [192 + v / 64; 128 + v mod 64]%Z
  else if 55296 ≤? v ≤? 57343 then None
  else Some [224 + v / 4096; 128 + (v / 64) mod 64; 128 + v mod 64]%Z.

Definition escape (b : byte) : option byte :=
  if b ==? bc "n" then Some 10%Z else if b ==? bc "r" then Some 13%Z else if b ==? bc "t" then Some 9%Z
  else if b ==? bc "b" then Some 8%Z else if b ==? bc "f" then Some 12%Z
  else if b ==? 92 then Some 92%Z else if b ==? bc "/" then Some 47%Z else if b ==? 39 then Some 39%Z
  else if b ==? 34 then Some 34%Z else None.

(** The text up to the delimiter, and what follows it. *)
Fixpoint read_string (delimiter : byte) (l : bytes) : option (bytes * bytes) :=
  match l with
  | [] => None
  | value :: r =>
    if value ==? delimiter then Some ([], r)
    else if negb (value ==? 92) || (delimiter ==? 96) then
      '(s, rest) ← read_string delimiter r; Some (value :: s, rest)
    else match r with
    | [] => None
    | escaped :: r =>
      if escaped ==? bc "u" then
        match r with
        | a :: b :: c :: d :: r =>
          a ← hex_value a; b ← hex_value b; c ← hex_value c; d ← hex_value d;
          ch ← encode_char (((a * 16 + b) * 16 + c) * 16 + d)%Z;
          '(s, rest) ← read_string delimiter r; Some (ch ++ s, rest)
        | _ => None
        end
      else
        ch ← escape escaped; '(s, rest) ← read_string delimiter r; Some (ch :: s, rest)
    end
  end.

Fixpoint skip_line (l : bytes) : bytes :=
  match l with [] => [] | b :: r => if b ==? 10 then r else skip_line r end.

Definition KEYWORD_OPERATORS : list string :=
  ["and"; "or"; "in"; "contains"; "startsWith"; "endsWith"; "matches"; "not"]%string.

(** A word as a token, and what is left: [not] looks ahead for [in]. *)
Definition word_token (word rest : bytes) : Token * bytes :=
  if word is "let" then (Token.Let, rest)
  else if word is "true" then (Token.Bool true, rest)
  else if word is "false" then (Token.Bool false, rest)
  else if word is "nil" then (Token.Nil, rest)
  else if one_of word KEYWORD_OPERATORS then
    if word is "not" then
      let '(next, after) := span_while name_byte (trim_start rest) in
      if next is "in" then (Token.Operator (bs "not in"), after) else (Token.Operator word, rest)
    else (Token.Operator word, rest)
  else (Token.Identifier word, rest).

(** The operators of two characters that start with this one. *)
Definition doubled (ch next : byte) : bool :=
  ((next ==? bc "=") && ((ch ==? bc "=") || (ch ==? bc "!") || (ch ==? bc "<") || (ch ==? bc ">"))) ||
  ((next ==? bc "&") && (ch ==? bc "&")) || ((next ==? bc "|") && (ch ==? bc "|")).

Definition next_is (b : byte) (l : bytes) : bool := match l with c :: _ => c ==? b | [] => false end.

(** One token that starts with [ch], and what is left. *)
Definition read_token (ch : byte) (rest : bytes) : option (Token * bytes) :=
  if ch ==? bc "(" then Some (Token.LParen, rest)
  else if ch ==? bc ")" then Some (Token.RParen, rest)
  else if ch ==? bc "[" then Some (Token.LBracket, rest)
  else if ch ==? bc "]" then Some (Token.RBracket, rest)
  else if ch ==? bc "{" then Some (Token.LBrace, rest)
  else if ch ==? bc "}" then Some (Token.RBrace, rest)
  else if ch ==? bc "," then Some (Token.Comma, rest)
  else if ch ==? bc ":" then Some (Token.Colon, rest)
  else if ch ==? bc ";" then Some (Token.Semicolon, rest)
  else if ch ==? bc "." then
    if next_is (bc ".") rest then Some (Token.Operator (bs ".."), tail rest) else Some (Token.Dot, rest)
  else if ch ==? bc "?" then
    if next_is (bc ".") rest then Some (Token.OptionalDot, tail rest)
    else if next_is (bc "?") rest then Some (Token.Operator (bs "??"), tail rest)
    else Some (Token.Question, rest)
  else if (ch ==? 34) || (ch ==? 39) || (ch ==? 96) then
    '(s, rest) ← read_string ch rest; Some (Token.String s, rest)
  else if is_ascii_digit ch then
    let '(w, rest) := read_number false rest in
    let raw := ch :: w in
    if existsb (Z.eqb (bc ".")) raw then Some (Token.Float raw, rest)
    else n ← parse_i64 raw; Some (Token.Integer n, rest)
  else if word_start ch then
    let '(w, rest) := span_while word_byte rest in Some (word_token (ch :: w) rest)
  else if (ch ==? bc "*") && next_is (bc "*") rest then Some (Token.Operator (bs "**"), tail rest)
  else if existsb (Z.eqb ch) (bs "+-*%^/") then Some (Token.Operator [ch], rest)
  else if existsb (Z.eqb ch) (bs "=!<>&|") then
    match rest with
    | next :: after => if doubled ch next then Some (Token.Operator [ch; next], after) else Some (Token.Operator [ch], rest)
    | [] => Some (Token.Operator [ch], rest)
    end
  else None.

(** A round reads at least a byte. *)
Fixpoint lex_loop (fuel : nat) (l : bytes) : parsed (list Token) :=
  match l with
  | [] => Done [Token.Eof]
  | ch :: rest =>
    match fuel with
    | 0 => Starved
    | S fuel =>
      match ws_char_len l with
      | S n => lex_loop fuel (drop (S n) l)
      | 0 =>
        if (ch ==? bc "/") && next_is (bc "/") rest then lex_loop fuel (skip_line rest)
        else match read_token ch rest with
        | None => Error
        | Some (token, rest) =>
          match lex_loop fuel rest with Done tokens => Done (token :: tokens) | Error => Error | Starved => Starved end
        end
      end
    end
  end.
Definition lex (source : bytes) : parsed (list Token) := lex_loop (length source) source.

(** ** The parser's state

    The tokens from the parser's position on; past the end there is [Eof]. *)

Definition Parser (A : Type) : Type := list Token -> parsed (A * list Token).

#[export] Instance Parser_ret : MRet Parser := fun A x tokens => Done (x, tokens).
#[export] Instance Parser_bind : MBind Parser := fun A B k m tokens =>
  match m tokens with Done (x, tokens) => k x tokens | Error => Error | Starved => Starved end.

Definition fails {A} : Parser A := fun _ => Error.
Definition starved {A} : Parser A := fun _ => Starved.

Definition head_token (tokens : list Token) : Token := default Token.Eof (head tokens).
Definition peek : Parser Token := fun tokens => Done (head_token tokens, tokens).
Definition peek_second : Parser (option Token) := fun tokens => Done (tokens !! 1, tokens).
Definition advance : Parser Token := fun tokens => Done (head_token tokens, tail tokens).

Definition expect (expected : Token) : Parser unit :=
  actual ← advance; if decide (actual = expected) then mret tt else fails.
Definition expect_operator (expected : string) : Parser unit :=
  actual ← advance;
  match actual with Token.Operator actual => if actual is expected then mret tt else fails | _ => fails end.
Definition take_identifier : Parser bytes :=
  token ← advance; match token with Token.Identifier value => mret value | _ => fails end.
Definition take_member_name : Parser bytes :=
  token ← advance;
  match token with
  | Token.Identifier value | Token.Operator value => if forallb name_byte value then mret value else fails
  | _ => fails
  end.
Definition map_key : Parser bytes :=
  token ← advance; match token with Token.String value | Token.Identifier value => mret value | _ => fails end.

(** ** Operators *)

(** The precedence of a binary operator, and whether it associates to the
    right. *)
Definition binary_precedence (operator : bytes) : option (nat * bool) :=
  if one_of operator ["||"; "or"]%string then Some (1, false)
  else if operator is "??" then Some (2, true)
  else if one_of operator ["&&"; "and"]%string then Some (3, false)
  else if one_of operator ["=="; "!="]%string then Some (4, false)
  else if one_of operator ["in"; "not in"; "contains"; "startsWith"; "endsWith"; "matches"; "<"; "<="; ">"; ">="]%string
    then Some (5, false)
  else if one_of operator ["+"; "-"]%string then Some (6, false)
  else if one_of operator ["*"; "/"; "%"]%string then Some (7, false)
  else if operator is ".." then Some (8, false)
  else if one_of operator ["**"; "^"]%string then Some (9, true)
  else None.

Definition prefix_operator (operator : bytes) : bool := one_of operator ["!"; "not"; "-"]%string.

Definition binary_node (operator : bytes) (lhs rhs : BetterleaksExpr) : BetterleaksExpr :=
  if operator is "not in" then Unary (bs "not") (Binary (bs "in") lhs rhs) else Binary operator lhs rhs.

(** ** Calls *)

(** The functions that take a predicate or come as a builtin of the language. *)
Definition BUILTIN_CALLS : list string :=
  ["any"; "all"; "none"; "one"; "filter"; "map"; "find"; "findLast"; "findIndex"; "findLastIndex"; "count";
   "lastIndexOf"; "replace"]%string.

Definition call_node (node : BetterleaksExpr) (arguments : list BetterleaksExpr) : BetterleaksExpr :=
  match node with
  | Member node property optional _ => Call (Member node property optional true) arguments
  | Identifier value => if one_of value BUILTIN_CALLS then Builtin value arguments else Call node arguments
  | _ => Call node arguments
  end.

(** The token a primary expression may start with, if it is an expression by
    itself. *)
Definition literal (token : Token) : option BetterleaksExpr :=
  match token with
  | Token.Identifier value => Some (if value is "#" then Pointer value else Identifier value)
  | Token.Integer value => Some (Integer value)
  | Token.Float value => Some (Float value)
  | Token.String value => Some (String value)
  | Token.Bool value => Some (Bool value)
  | Token.Nil => Some Nil
  | _ => None
  end.

(** ** The parser

    A function calls the others with one fuel less. The declarations of a program
    wrap what follows them; [method] is set when the arguments are there. *)

Definition starts_map (token : Token) (second : option Token) : bool :=
  match token with
  | Token.String _ | Token.Identifier _ => bool_decide (second = Some Token.Colon)
  | _ => false
  end.

Fixpoint parse_program (fuel : nat) (terminator : Token) : Parser BetterleaksExpr :=
  match fuel with
  | 0 => starved
  | S fuel =>
    token ← peek;
    if decide (token = Token.Let) then
      _ ← advance; name ← take_identifier; _ ← expect_operator "=";
      value ← parse_expr fuel 0; _ ← expect Token.Semicolon;
      expr ← parse_program fuel terminator;
      mret (VariableDeclarator name value expr)
    else
      expression ← parse_expr fuel 0;
      token ← peek;
      if decide (token = Token.Semicolon) then
        _ ← advance; rest ← parse_program fuel terminator; mret (Sequence [expression; rest])
      else _ ← expect terminator; mret expression
  end
with parse_expr (fuel : nat) (min_precedence : nat) : Parser BetterleaksExpr :=
  match fuel with
  | 0 => starved
  | S fuel => left ← parse_prefix fuel; parse_binary fuel min_precedence left
  end
with parse_binary (fuel : nat) (min_precedence : nat) (left : BetterleaksExpr) : Parser BetterleaksExpr :=
  match fuel with
  | 0 => starved
  | S fuel =>
    token ← peek;
    match token with
    | Token.Question =>
      if min_precedence =? 0 then
        _ ← advance; exp1 ← parse_expr fuel 0; _ ← expect Token.Colon; exp2 ← parse_expr fuel 0;
        parse_binary fuel min_precedence (Conditional left exp1 exp2)
      else mret left
    | Token.Operator operator =>
      if operator is "=" then mret left
      else match binary_precedence operator with
      | None => mret left
      | Some (precedence, right_associative) =>
        if precedence <? min_precedence then mret left
        else
          _ ← advance; right ← parse_expr fuel (if right_associative : bool then precedence else precedence + 1);
          parse_binary fuel min_precedence (binary_node operator left right)
      end
    | _ => mret left
    end
  end
with parse_prefix (fuel : nat) : Parser BetterleaksExpr :=
  match fuel with
  | 0 => starved
  | S fuel =>
    token ← peek;
    match token with
    | Token.Operator operator =>
      if prefix_operator operator then _ ← advance; node ← parse_prefix fuel; mret (Unary operator node)
      else primary ← parse_primary fuel; parse_postfix fuel false primary
    | _ => primary ← parse_primary fuel; parse_postfix fuel false primary
    end
  end
with parse_primary (fuel : nat) : Parser BetterleaksExpr :=
  match fuel with
  | 0 => starved
  | S fuel =>
    token ← advance;
    match token with
    | Token.LParen => parse_program fuel Token.RParen
    | Token.LBracket => nodes ← parse_items fuel Token.RBracket; mret (Array nodes)
    | Token.LBrace => parse_braced fuel
    | token => match literal token with Some node => mret node | None => fails end
    end
  end
with parse_postfix (fuel : nat) (optional_chain : bool) (node : BetterleaksExpr) : Parser BetterleaksExpr :=
  match fuel with
  | 0 => starved
  | S fuel =>
    token ← peek;
    match token with
    | Token.Dot | Token.OptionalDot =>
      let optional := bool_decide (token = Token.OptionalDot) in
      let optional_chain := optional_chain || optional in
      _ ← advance; token ← peek;
      if optional && bool_decide (token = Token.LBracket) then
        _ ← advance; property ← parse_expr fuel 0; _ ← expect Token.RBracket;
        parse_postfix fuel optional_chain (Member node property true false)
      else
        property ← take_member_name;
        parse_postfix fuel optional_chain (Member node (String property) optional false)
    | Token.LBracket =>
      _ ← advance; token ← peek;
      if decide (token = Token.Colon) then
        _ ← advance; to ← parse_slice_end fuel;
        parse_postfix fuel optional_chain (Slice node (Integer 0) to)
      else
        from ← parse_expr fuel 0; token ← peek;
        if decide (token = Token.Colon) then
          _ ← advance; to ← parse_slice_end fuel;
          parse_postfix fuel optional_chain (Slice node from to)
        else
          _ ← expect Token.RBracket;
          parse_postfix fuel optional_chain (Member node from false false)
    | Token.LParen =>
      arguments ← parse_arguments fuel;
      parse_postfix fuel optional_chain (call_node node arguments)
    | _ => mret (if optional_chain then Chain node else node)
    end
  end
with parse_slice_end (fuel : nat) : Parser BetterleaksExpr :=
  match fuel with
  | 0 => starved
  | S fuel =>
    token ← peek;
    to ← (if decide (token = Token.RBracket) then mret (Integer I64_MAX) else parse_expr fuel 0);
    _ ← expect Token.RBracket; mret to
  end
with parse_arguments (fuel : nat) : Parser (list BetterleaksExpr) :=
  match fuel with
  | 0 => starved
  | S fuel => _ ← expect Token.LParen; parse_items fuel Token.RParen
  end
(* What [parse_arguments] and [parse_array] share: expressions up to the closing
   token. *)
with parse_items (fuel : nat) (closing : Token) : Parser (list BetterleaksExpr) :=
  match fuel with
  | 0 => starved
  | S fuel =>
    token ← peek;
    if decide (token = closing) then _ ← expect closing; mret []
    else
      node ← parse_expr fuel 0; token ← peek;
      if decide (token = Token.Comma) then _ ← advance; nodes ← parse_items fuel closing; mret (node :: nodes)
      else _ ← expect closing; mret [node]
  end
with parse_braced (fuel : nat) : Parser BetterleaksExpr :=
  match fuel with
  | 0 => starved
  | S fuel =>
    token ← peek;
    if decide (token = Token.RBrace) then _ ← advance; mret (Map [])
    else
      second ← peek_second;
      if starts_map token second then pairs ← parse_pairs fuel; mret (Map pairs)
      else node ← parse_program fuel Token.RBrace; mret (Predicate node)
  end
with parse_pairs (fuel : nat) : Parser (list BetterleaksExpr) :=
  match fuel with
  | 0 => starved
  | S fuel =>
    token ← peek;
    if decide (token = Token.RBrace) then _ ← expect Token.RBrace; mret []
    else
      key ← map_key; _ ← expect Token.Colon; value ← parse_expr fuel 0;
      let pair := Pair (String key) value in
      token ← peek;
      if decide (token = Token.Comma) then _ ← advance; pairs ← parse_pairs fuel; mret (pair :: pairs)
      else _ ← expect Token.RBrace; mret [pair]
  end.

(** A call takes at most eight levels before a token is read. *)
Definition parse_tokens (tokens : list Token) : parsed BetterleaksExpr :=
  match parse_program (8 * S (length tokens)) Token.Eof tokens with
  | Done (expression, _) => Done expression
  | Error => Error
  | Starved => Starved
  end.

Definition parse_expression (source : bytes) : parsed BetterleaksExpr :=
  match lex source with Done tokens => parse_tokens tokens | Error => Error | Starved => Starved end.
