(* ===== verification/ExprPrinter.v ===== *)
(** * Writing Betterleaks expressions

    The program has no printer for its expressions. The one here is the
    specification its parser is measured by: [print] writes a tree with the
    brackets its operators and the lexer need and no more, [show] writes the tokens with a space
    after each, and [well_formed] says which trees have a text. *)

From Stdlib Require Import ZArith Lia Bool.
From stdpp Require Import base list numbers option.
From S2P Require Import Prelude Text Expr FilterValue ExprParser.

(** ** Which trees have a text *)

(** An optional member among the receivers that share a chain with the node. *)
Fixpoint optional_receiver (e : BetterleaksExpr) : bool :=
  match e with
  | Member node _ optional _ => optional || optional_receiver node
  | Slice node _ _ | Call node _ => optional_receiver node
  | _ => false
  end.

Definition is_pair (e : BetterleaksExpr) : bool := match e with Pair _ _ => true | _ => false end.

(** What may be the receiver of a member or a slice; an expression of its own also
    has its optional members below a [Chain]. *)
Definition receiver (e : BetterleaksExpr) : bool := negb (is_method e) && negb (is_pair e).
Definition whole (e : BetterleaksExpr) : bool := receiver e && negb (optional_receiver e).

Definition callee_ok (e : BetterleaksExpr) : bool :=
  match e with
  | Member _ _ _ method => method
  | Identifier value => negb (one_of value BUILTIN_CALLS)
  | Pair _ _ => false
  | _ => true
  end.

(** A word that is no keyword. *)
Definition RESERVED : list string := ["let"; "true"; "false"; "nil"]%string.
Definition word (value : bytes) : bool :=
  match value with b :: r => word_start b && forallb word_byte r | [] => false end &&
  negb (one_of value RESERVED) && negb (one_of value KEYWORD_OPERATORS).

Definition float_text (value : bytes) : bool :=
  match value with
  | b :: r => is_ascii_digit b && bool_decide (read_number false r = (r, [])) && existsb (Z.eqb (bc ".")) r
  | [] => false
  end.

Definition operator_ok (operator : bytes) : bool :=
  match binary_precedence operator with Some _ => negb (operator is "not in") | None => false end.

Fixpoint well_formed (e : BetterleaksExpr) : bool :=
  let ok e := whole e && well_formed e in
  match e with
  | Nil | Bool _ | String _ => true
  | Identifier value => word value && negb (value is "#")
  | Pointer name => name is "#"
  | Integer value => (0 <=? value)%Z && (value <=? I64_MAX)%Z
  | Float value => float_text value
  | Unary operator node => prefix_operator operator && ok node
  | Binary operator lhs rhs => operator_ok operator && ok lhs && ok rhs
  | Chain node => optional_receiver node && receiver node && well_formed node
  | Member node property _ _ => receiver node && well_formed node && ok property
  | Slice node from to => receiver node && well_formed node && ok from && ok to
  | Call callee arguments => callee_ok callee && well_formed callee && forallb ok arguments
  | Builtin name arguments => one_of name BUILTIN_CALLS && forallb ok arguments
  | Conditional cond exp1 exp2 => ok cond && ok exp1 && ok exp2
  | VariableDeclarator name value expr => word name && ok value && ok expr
  | Sequence [first; rest] => ok first && ok rest
  | Sequence _ | Pair _ _ => false
  | Array nodes => forallb ok nodes
  | Map pairs => forallb (fun pair => match pair with Pair (String _) value => ok value | _ => false end) pairs
  | Predicate node => ok node
  end.

Definition well_formed_expression (e : BetterleaksExpr) : bool := whole e && well_formed e.

(** ** The tokens of a tree *)

(** How tightly a node binds: programs, conditionals, binary operators by their
    precedence, prefixes and chains, and what a postfix may follow. *)
Definition precedence (operator : bytes) : nat := default 0 (fst <$> binary_precedence operator).
Definition right_associative (operator : bytes) : bool := default false (snd <$> binary_precedence operator).
Definition level (e : BetterleaksExpr) : nat :=
  match e with
  | VariableDeclarator _ _ _ | Sequence _ => 0
  | Conditional _ _ _ => 1
  | Binary operator _ _ => S (precedence operator)
  | Unary _ _ | Chain _ => 11
  | _ => 12
  end.

Fixpoint commas (items : list (list Token)) : list Token :=
  match items with
  | [] => []
  | [item] => item
  | item :: items => item ++ Token.Comma :: commas items
  end.

(** A name that may follow a dot. *)
Definition dotted (name : bytes) : bool := word name && forallb name_byte name.

Definition member_name (property : BetterleaksExpr) : option bytes :=
  match property with String name => if dotted name then Some name else None | _ => None end.

(** A member after its receiver: a name after a dot, or its tokens in brackets. *)
Definition member_tokens (property : BetterleaksExpr) (optional : bool) (tokens : list Token) : list Token :=
  match member_name property with
  | Some name => [if optional then Token.OptionalDot else Token.Dot; Token.Identifier name]
  | None => (if optional then [Token.OptionalDot; Token.LBracket] else [Token.LBracket]) ++ tokens ++ [Token.RBracket]
  end.

(** ** The text of tokens *)

Definition quote (value : bytes) : bytes :=
  34%Z :: flat_map (fun b => if (b ==? 34) || (b ==? 92) then [92; b]%Z else [b]) value ++ [34]%Z.

Definition show_token (token : Token) : bytes :=
  match token with
  | Token.Identifier value | Token.Float value | Token.Operator value => value
  | Token.Integer value => show_usize value
  | Token.String value => quote value
  | Token.Bool value => if value then bs "true" else bs "false"
  | Token.Nil => bs "nil"
  | Token.Let => bs "let"
  | Token.LParen => bs "("
  | Token.RParen => bs ")"
  | Token.LBracket => bs "["
  | Token.RBracket => bs "]"
  | Token.LBrace => bs "{"
  | Token.RBrace => bs "}"
  | Token.Comma => bs ","
  | Token.Colon => bs ":"
  | Token.Semicolon => bs ";"
  | Token.Dot => bs "."
  | Token.OptionalDot => bs "?."
  | Token.Question => bs "?"
  | Token.Eof => []
  end.

Definition show_tokens (tokens : list Token) : bytes := flat_map (fun token => show_token token ++ [32]%Z) tokens.

(** ** The tokens of a tree with its brackets *)

(** Whether the lexer takes [not] and the beginning of these tokens for the operator
    [not in]: it looks at the letters, digits and underscores that follow, so a
    word such as [in$x] is taken for [in]. *)
Definition taken_for_in (tokens : list Token) : bool :=
  match tokens with token :: _ => fst (span_while name_byte (show_token token)) is "in" | [] => false end.

(** An operand is in brackets when it binds less tightly than its place asks for,
    and after [not] when its first word is taken for [in]. *)
Fixpoint print (l : nat) (e : BetterleaksExpr) : list Token :=
  let body := match e with
    | Nil => [Token.Nil]
    | Bool value => [Token.Bool value]
    | String value => [Token.String value]
    | Identifier value | Pointer value => [Token.Identifier value]
    | Integer value => [Token.Integer value]
    | Float value => [Token.Float value]
    | Unary operator node =>
      Token.Operator operator ::
      (if (operator is "not") && taken_for_in (print 11 node) then Token.LParen :: print 0 node ++ [Token.RParen]
       else print 11 node)
    | Binary operator lhs rhs =>
      let p := precedence operator in
      let right := right_associative operator in
      print (if right : bool then S (S p) else S p) lhs ++ Token.Operator operator ::
      print (if right : bool then S p else S (S p)) rhs
    | Chain node => print 12 node
    | Member node property optional _ => print 12 node ++ member_tokens property optional (print 1 property)
    | Slice node from to =>
      print 12 node ++ Token.LBracket :: print 1 from ++ Token.Colon :: print 1 to ++ [Token.RBracket]
    | Call callee arguments => print 12 callee ++ Token.LParen :: commas (map (print 1) arguments) ++ [Token.RParen]
    | Builtin name arguments =>
      Token.Identifier name :: Token.LParen :: commas (map (print 1) arguments) ++ [Token.RParen]
    | Conditional cond exp1 exp2 =>
      print 2 cond ++ Token.Question :: print 1 exp1 ++ Token.Colon :: print 1 exp2
    | VariableDeclarator name value expr =>
      Token.Let :: Token.Identifier name :: Token.Operator (bs "=") :: print 1 value ++ Token.Semicolon :: print 0 expr
    | Sequence [first; rest] => print 1 first ++ Token.Semicolon :: print 0 rest
    | Sequence _ | Pair _ _ => []
    | Array nodes => Token.LBracket :: commas (map (print 1) nodes) ++ [Token.RBracket]
    | Map pairs =>
      Token.LBrace :: commas (map (fun pair => match pair with
        | Pair (String key) value => Token.String key :: Token.Colon :: print 1 value
        | _ => []
        end) pairs) ++ [Token.RBrace]
    | Predicate node => Token.LBrace :: print 0 node ++ [Token.RBrace]
    end in
  if l <=? level e then body else Token.LParen :: body ++ [Token.RParen].

(** The text of an expression. *)
Definition show (e : BetterleaksExpr) : bytes := show_tokens (print 0 e).
