(* ===== verification/ExprRoundtrip.v ===== *)
(** * Betterleaks expressions are read back

    The lexer and the parser of [ExprParser] against the printer of [ExprPrinter]:
    every source is answered, every well-formed tree is read from its text, and
    the trees the parser gives are the well-formed ones. *)

From Stdlib Require Import ZArith Lia Bool.
From stdpp Require Import base list numbers option.
From S2P Require Import Prelude Text Expr FilterValue ExprParser ExprPrinter.

(** ** Steps of the parser *)

Section steps.
Context {A B : Type}.
Implicit Types (tokens : list Token) (k : A -> Parser B).

Lemma bind_done (m : Parser A) k tokens x rest : m tokens = Done (x, rest) -> (m ≫= k) tokens = k x rest.
Proof. intros H. cbv [mbind Parser_bind]. by rewrite H. Qed.

Lemma ret_step (x : A) tokens : (mret x : Parser A) tokens = Done (x, tokens).
Proof. done. Qed.

Lemma peek_step (k : Token -> Parser B) tokens : (peek ≫= k) tokens = k (head_token tokens) tokens.
Proof. done. Qed.

Lemma second_step (k : option Token -> Parser B) tokens : (peek_second ≫= k) tokens = k (tokens !! 1) tokens.
Proof. done. Qed.

Lemma advance_step (k : Token -> Parser B) token tokens : (advance ≫= k) (token :: tokens) = k token tokens.
Proof. done. Qed.

End steps.

Lemma expect_head token tokens : expect token (token :: tokens) = Done (tt, tokens).
Proof. cbv [expect mbind Parser_bind advance]. cbn [head_token head default tail]. by rewrite decide_True. Qed.

Lemma expect_step {B} (k : unit -> Parser B) token tokens : (expect token ≫= k) (token :: tokens) = k tt tokens.
Proof. apply (bind_done (expect token)), expect_head. Qed.

Lemma identifier_step {B} (k : bytes -> Parser B) name tokens :
  (take_identifier ≫= k) (Token.Identifier name :: tokens) = k name tokens.
Proof. done. Qed.

Lemma operator_step {B} (k : unit -> Parser B) tokens :
  (expect_operator "=" ≫= k) (Token.Operator (bs "=") :: tokens) = k tt tokens.
Proof. done. Qed.

Lemma key_step {B} (k : bytes -> Parser B) key tokens : (map_key ≫= k) (Token.String key :: tokens) = k key tokens.
Proof. done. Qed.

Lemma member_step {B} (k : bytes -> Parser B) name tokens : forallb name_byte name = true ->
  (take_member_name ≫= k) (Token.Identifier name :: tokens) = k name tokens.
Proof.
  intros H. apply (bind_done take_member_name). unfold take_member_name. rewrite advance_step. by rewrite H.
Qed.

Lemma head_cons token tokens : head_token (token :: tokens) = token.
Proof. done. Qed.

#[export] Hint Rewrite @ret_step @peek_step @second_step @advance_step @expect_head @expect_step @identifier_step
  @operator_step @key_step head_cons : parser.

(** With fuel for the tokens that are left, a function gives a result. *)
Definition yields {A} (rank : nat) (m : nat -> Parser A) (tokens : list Token) (result : parsed (A * list Token)) : Prop :=
  forall fuel, 8 * length tokens + rank <= fuel -> m fuel tokens = result.

Ltac start := let Hf := fresh "Hf" in intros [|fuel] Hf; repeat (progress (rewrite ?length_app in Hf; cbn [length] in Hf)); [lia|].
Ltac room := repeat (progress (rewrite ?length_app; cbn [length])); lia.

(** ** How expressions begin *)

Definition opens (tokens : list Token) : bool :=
  match head_token tokens with
  | Token.Identifier _ | Token.Integer _ | Token.Float _ | Token.String _ | Token.Bool _ | Token.Nil
  | Token.LParen | Token.LBracket | Token.LBrace => true
  | Token.Operator operator => prefix_operator operator
  | _ => false
  end.

Lemma print_eq l e : print l e = if l <=? level e then print 0 e else Token.LParen :: print 0 e ++ [Token.RParen].
Proof. destruct e; reflexivity. Qed.

Lemma print_loose l e : l <= level e -> print l e = print 0 e.
Proof. intros H. rewrite print_eq. by rewrite (proj2 (Nat.leb_le _ _) H). Qed.

Lemma print_tight l e : level e < l -> print l e = Token.LParen :: print 0 e ++ [Token.RParen].
Proof. intros H. rewrite print_eq. by rewrite (proj2 (Nat.leb_gt _ _) H). Qed.

Lemma is_pair_false e : is_pair e = false -> forall key value, e <> Pair key value.
Proof. by destruct e. Qed.

Lemma whole_receiver e : whole e = true -> receiver e = true.
Proof. unfold whole. intros H. tobool. done. Qed.

Lemma level_low e : level e <> 12 -> receiver e = true -> whole e = true.
Proof. unfold whole, receiver. by destruct e. Qed.

Lemma opens_app tokens1 tokens2 : tokens1 <> [] -> opens (tokens1 ++ tokens2) = opens tokens1.
Proof. by destruct tokens1. Qed.

Lemma print_opens e : forall l tokens, well_formed e = true -> 1 <= l \/ 1 <= level e -> opens (print l e ++ tokens) = true.
Proof.
  induction e as [e IH] using expr_nested_ind. intros l tokens Hwf Hl.
  destruct (decide (l <= level e)) as [Hle|Hgt]; [|rewrite print_tight by lia; done].
  rewrite (print_loose _ _ Hle). assert (1 <= level e) as H1 by lia. clear Hle Hl.
  destruct e; cbn [well_formed children] in *; tobool; repeat (apply Forall_cons in IH as [? IH]); try done; cbn [level] in H1; try lia;
    cbn [print level Nat.leb] in *; rewrite <-?app_assoc; auto with lia.
  - destruct (right_associative operator); auto with lia.
Qed.

(** The head of an expression is no token that ends or separates one. *)
Lemma opens_not token tokens : opens tokens = true -> opens [token] = false -> head_token tokens <> token.
Proof. intros H1 H2 <-. change (opens tokens = false) in H2. congruence. Qed.

Lemma print_nonempty e l : well_formed e = true -> print l e <> [].
Proof.
  intros Hwf E. destruct (level e) eqn:El; [|pose proof (print_opens e l [] Hwf ltac:(lia)) as H; by rewrite E in H].
  rewrite print_eq in E. destruct (l <=? level e); [|done]. destruct e; try done; cbn in El; try done.
  destruct nodes as [|a [|b [|]]]; cbn in Hwf; try done. cbn [print level Nat.leb] in E. by destruct (print 1 a).
Qed.

(** No tree is taken for the pairs of a map. *)
Definition no_map (tokens : list Token) : bool := negb (starts_map (head_token tokens) (tokens !! 1)).

Lemma no_map_opens token tokens : head_token tokens <> Token.Colon -> no_map (token :: tokens) = true.
Proof.
  intros H. unfold no_map, starts_map. rewrite head_cons.
  destruct token; try done; rewrite bool_decide_false; try done; destruct tokens as [|t r]; cbn in *; congruence.
Qed.

Lemma no_map_loose token tokens : match token with Token.String _ | Token.Identifier _ => False | _ => True end -> no_map (token :: tokens) = true.
Proof. by destruct token. Qed.

Lemma print_no_map e : forall l tokens, well_formed e = true -> head_token tokens <> Token.Colon -> no_map (print l e ++ tokens) = true.
Proof.
  induction e as [e IH] using expr_nested_ind. intros l tokens Hwf Hc.
  destruct (decide (l <= level e)) as [Hle|Hgt]; [|rewrite print_tight by lia; by apply no_map_loose].
  rewrite (print_loose _ _ Hle). clear Hle.
  destruct e; cbn [well_formed children] in *; tobool; repeat (apply Forall_cons in IH as [? IH]); try done;
    cbn [print level Nat.leb] in *; rewrite <-?app_assoc; try (by apply no_map_opens); try (by apply no_map_loose); try (by auto).
  - match goal with H : forall l tokens, _ -> _ -> no_map (print l e1 ++ _) = true |- _ => apply H; [done|] end. 
    unfold member_tokens. by destruct (member_name e2), optional.
  - destruct nodes as [|a [|b [|]]]; try done. apply Forall_cons in IH as [H IH]. tobool. rewrite <-app_assoc. by apply H.
Qed.

(** ** What may follow an expression *)

(** The tokens do not go on with an expression read for operators that bind at
    least as tightly as [m]. *)
Definition fits (m : nat) (tokens : list Token) : bool :=
  match head_token tokens with
  | Token.Dot | Token.OptionalDot | Token.LBracket | Token.LParen => false
  | Token.Question => 0 <? m
  | Token.Operator operator => match binary_precedence operator with Some (k, _) => k <? m | None => true end
  | _ => true
  end.

(** The least precedence an operator must have to be read by the last operand. *)
Definition last_min (e : BetterleaksExpr) : nat :=
  match e with
  | Conditional _ _ _ => 0
  | Binary operator _ _ => if right_associative operator then precedence operator else S (precedence operator)
  | _ => 10
  end.

Lemma fits_weaken m n tokens : m <= n -> fits m tokens = true -> fits n tokens = true.
Proof.
  unfold fits. intros Hmn. destruct (head_token tokens) as [| | | | | | | | | | | | | | | | | | |operator|]; intros H; try done.
  - rewrite Nat.ltb_lt in *. lia.
  - destruct (binary_precedence operator) as [[k r]|]; [|done]. rewrite Nat.ltb_lt in *. lia.
Qed.

Lemma precedence_cases operator : operator_ok operator = true ->
  binary_precedence operator = Some (precedence operator, right_associative operator) /\ 1 <= precedence operator <= 9.
Proof.
  unfold operator_ok, precedence, right_associative, binary_precedence. intros H. split_ifs; try done; cbn; split; try done; lia.
Qed.

(** The operators of a precedence associate to the same side. *)
Lemma associativity operator1 operator2 : operator_ok operator1 = true -> operator_ok operator2 = true ->
  precedence operator1 = precedence operator2 -> right_associative operator1 = right_associative operator2.
Proof.
  assert (forall o, operator_ok o = true -> right_associative o = (precedence o =? 2) || (precedence o =? 9)) as Ha.
  { intros o H. unfold operator_ok, precedence, right_associative, binary_precedence in *. split_ifs; done. }
  intros H1 H2 E. by rewrite !Ha, E by done.
Qed.

Lemma operator_not_equals operator : operator_ok operator = true -> (operator is "=") = false.
Proof.
  intros H. destruct (operator is "=") eqn:E; [|done]. unfold bytes_eqb in E. apply bool_decide_eq_true in E. by subst.
Qed.

Lemma binary_node_ok operator lhs rhs : operator_ok operator = true -> binary_node operator lhs rhs = Binary operator lhs rhs.
Proof. unfold operator_ok, binary_node. destruct (binary_precedence operator); [|done]. intros H. tobool. by rewrite H. Qed.

Lemma level_le e : level e <= 12.
Proof.
  destruct e; cbn; try lia. unfold precedence, binary_precedence. split_ifs; lia.
Qed.

Lemma binary_stops fuel m e tokens : fits m tokens = true -> 0 < fuel -> parse_binary fuel m e tokens = Done (e, tokens).
Proof.
  intros H Hf. destruct fuel as [|fuel]; [lia|]. cbn [parse_binary]. rewrite peek_step. unfold fits in H.
  destruct (head_token tokens) as [| | | | | | | | | | | | | | | | | | |operator|]; try done.
  - destruct m; done.
  - destruct (operator is "="); [done|]. destruct (binary_precedence operator) as [[k r]|]; [|done]. by rewrite H.
Qed.

Lemma postfix_stops fuel chain e tokens : fits 10 tokens = true -> 0 < fuel ->
  parse_postfix fuel chain e tokens = Done (if chain then Chain e else e, tokens).
Proof.
  intros H Hf. destruct fuel as [|fuel]; [lia|]. cbn [parse_postfix]. rewrite peek_step. unfold fits in H.
  by destruct (head_token tokens).
Qed.

(** ** How a tree is read

    The trees that bind like a program, an expression, a prefix expression and a
    postfix expression; each reading continues with the tokens that follow. *)

(** The node before the arguments of a call are read. *)
Definition parsed_node (e : BetterleaksExpr) : BetterleaksExpr :=
  match e with Member node property optional _ => Member node property optional false | _ => e end.

Definition terminators : list Token := [Token.RParen; Token.RBrace; Token.Eof].

Definition reads_program (e : BetterleaksExpr) : Prop := forall terminator tokens, terminator ∈ terminators ->
  yields 4 (fun fuel => parse_program fuel terminator) (print 0 e ++ terminator :: tokens) (Done (e, tokens)).
Definition reads_expr (e : BetterleaksExpr) : Prop := forall m tokens result, m < level e -> fits (last_min e) tokens = true ->
  yields 1 (fun fuel => parse_binary fuel m e) tokens result ->
  yields 3 (fun fuel => parse_expr fuel m) (print 0 e ++ tokens) result.
Definition reads_prefix (e : BetterleaksExpr) : Prop := forall tokens, 11 <= level e -> fits 10 tokens = true ->
  yields 2 parse_prefix (print 0 e ++ tokens) (Done (e, tokens)).
Definition reads_chain (e : BetterleaksExpr) : Prop := forall tokens result, level e = 12 ->
  yields 2 (fun fuel => parse_postfix fuel (optional_receiver e) (parsed_node e)) tokens result ->
  yields 2 parse_prefix (print 0 e ++ tokens) result.

Record reads (e : BetterleaksExpr) : Prop := {
  read_program : whole e = true -> reads_program e;
  read_expr : whole e = true -> reads_expr e;
  read_prefix : whole e = true -> reads_prefix e;
  read_chain : reads_chain e;
}.

Section reads.
Context (e : BetterleaksExpr) (Hwf : well_formed e = true).

Lemma whole_parsed : whole e = true -> parsed_node e = e /\ optional_receiver e = false.
Proof using. clear Hwf. unfold whole, receiver. intros H. tobool. split; [|done]. by destruct e as [| | | | | | | | |? ? ? []| | | | | | | | | | |]. Qed.

Lemma last_min_tight : 11 <= level e -> last_min e = 10.
Proof using Hwf.
  intros Hl. destruct e; cbn in *; try done; try lia. tobool.
  match goal with H : operator_ok _ = true |- _ => apply precedence_cases in H end. lia.
Qed.

Lemma program_of_expr : 1 <= level e -> reads_expr e -> reads_program e.
Proof using Hwf.
  intros Hl He terminator tokens Ht. start. cbn [parse_program]. rewrite peek_step.
  rewrite decide_False by (apply opens_not; [by apply print_opens; auto|done]).
  assert (fits 0 (terminator :: tokens) = true /\ terminator <> Token.Semicolon) as [Hfit Hsemi].
  { unfold terminators in Ht. rewrite !elem_of_cons, elem_of_nil in Ht. by destruct Ht as [->|[->|[->|[]]]]. }
  rewrite (bind_done (parse_expr fuel 0) _ _ e (terminator :: tokens)); [autorewrite with parser|].
  - rewrite decide_False by done. by autorewrite with parser.
  - apply He; [lia|by apply (fits_weaken 0); [lia|]| |room].
    intros f Hf'. apply binary_stops; [done|lia].
Qed.

Lemma expr_of_prefix : 11 <= level e -> reads_prefix e -> reads_expr e.
Proof using Hwf.
  intros Hl He m tokens result Hm Hfit Hr. start. cbn [parse_expr].
  rewrite (bind_done (parse_prefix fuel) _ _ e tokens); [apply Hr; lia|].
  apply He; [lia| |room]. by rewrite last_min_tight in Hfit.
Qed.

Lemma prefix_of_chain : whole e = true -> level e = 12 -> reads_chain e -> reads_prefix e.
Proof using.
  intros Hw Hl He tokens _ Hfit. apply He; [done|]. destruct (whole_parsed Hw) as [-> ->].
  intros f Hf. apply postfix_stops; [done|lia].
Qed.

Lemma reads_of_program : level e = 0 -> (whole e = true -> reads_program e) -> reads e.
Proof using Hwf. intros Hl Hp. split; intros; [auto| | |]; intros ?; intros; lia. Qed.

Lemma reads_of_expr : 1 <= level e < 11 -> (whole e = true -> reads_expr e) -> reads e.
Proof using Hwf. intros Hl He. split; intros; [|auto| |]; [apply program_of_expr; auto; lia| |]; intros ?; intros; lia. Qed.

Lemma reads_of_prefix : level e = 11 -> (whole e = true -> reads_prefix e) -> reads e.
Proof using Hwf.
  intros Hl He. split; intros; [|apply expr_of_prefix; auto; lia|auto|intros ?; intros; lia].
  apply program_of_expr; [lia|]. apply expr_of_prefix; auto; lia.
Qed.

Lemma reads_of_chain : level e = 12 -> reads_chain e -> reads e.
Proof using Hwf.
  intros Hl He. assert (whole e = true -> reads_prefix e) as Hp by (intros; by apply prefix_of_chain).
  assert (whole e = true -> reads_expr e) as Hx by (intros; apply expr_of_prefix; auto; lia).
  split; auto. intros. apply program_of_expr; auto; lia.
Qed.

(** At a place that asks for a level. *)
Lemma brackets_read : whole e = true -> reads_program e -> forall tokens result,
  yields 2 (fun fuel => parse_postfix fuel false e) tokens result ->
  yields 2 parse_prefix (Token.LParen :: print 0 e ++ Token.RParen :: tokens) result.
Proof using.
  intros Hw Hp tokens result Hr. start. destruct fuel as [|fuel]; [lia|]. cbn [parse_prefix]. rewrite peek_step, head_cons.
  rewrite (bind_done (parse_primary (S fuel)) _ _ e tokens); [apply Hr; lia|].
  cbn [parse_primary]. rewrite advance_step. apply Hp; [repeat constructor|room].
Qed.

Hypothesis Hr : reads e.

Lemma receiver_read tokens result : is_pair e = false ->
  (level e = 12 \/ whole e = true) ->
  yields 2 (fun fuel => parse_postfix fuel (optional_receiver e) (parsed_node e)) tokens result ->
  yields 2 parse_prefix (print 12 e ++ tokens) result.
Proof using Hr.
  intros Hpair Hw Hc. pose proof (level_le e). destruct (decide (level e = 12)) as [Hl|Hl].
  - rewrite print_loose by lia. by apply Hr.
  - destruct Hw as [|Hw]; [done|]. rewrite print_tight by lia. cbn [app]. rewrite <-app_assoc. cbn [app].
    destruct (whole_parsed Hw) as [E1 E2]. rewrite E1, E2 in Hc. apply brackets_read; [done|by apply Hr|done].
Qed.

Lemma operand_read tokens : whole e = true -> fits 10 tokens = true ->
  yields 2 parse_prefix (print 11 e ++ tokens) (Done (e, tokens)).
Proof using Hr.
  intros Hw Hfit. destruct (decide (11 <= level e)) as [Hl|Hl].
  - rewrite print_loose by lia. by apply Hr.
  - rewrite print_tight by lia. cbn [app]. rewrite <-app_assoc. cbn [app].
    apply brackets_read; [done|by apply Hr|]. intros f Hf. apply postfix_stops; [done|lia].
Qed.

Lemma left_read l m tokens result : whole e = true -> S m <= l -> 
  fits (if l <=? level e then last_min e else 10) tokens = true ->
  yields 1 (fun fuel => parse_binary fuel m e) tokens result ->
  yields 3 (fun fuel => parse_expr fuel m) (print l e ++ tokens) result.
Proof using Hr.
  intros Hw Hm Hfit Hb. destruct (Nat.leb_spec l (level e)) as [Hl|Hl].
  - rewrite print_loose by lia. apply Hr; [done|lia|done|done].
  - rewrite print_tight by lia. cbn [app]. rewrite <-app_assoc. cbn [app]. start. cbn [parse_expr].
    rewrite (bind_done (parse_prefix fuel) _ _ e tokens); [apply Hb; lia|].
    apply brackets_read; [done|by apply Hr| |room]. intros f Hf'. apply postfix_stops; [done|lia].
Qed.

Lemma expr_read m tokens : whole e = true -> m <= 10 -> fits m tokens = true ->
  yields 3 (fun fuel => parse_expr fuel m) (print (S m) e ++ tokens) (Done (e, tokens)).
Proof using Hwf Hr.
  intros Hw Hm Hfit. apply left_read; [done|lia| |].
  - destruct (Nat.leb_spec (S m) (level e)) as [Hl|Hl]; [|by apply (fits_weaken m)].
    apply (fits_weaken m); [|done]. destruct e; cbn [level last_min] in *; try lia. destruct (right_associative operator); lia.
  - intros f Hf. apply binary_stops; [done|lia].
Qed.
End reads.

(** A child that is read as an expression. *)
Definition child (e : BetterleaksExpr) : Prop := well_formed e = true /\ whole e = true /\ reads e.

Lemma child_read e tokens : child e -> fits 0 tokens = true ->
  yields 3 (fun fuel => parse_expr fuel 0) (print 1 e ++ tokens) (Done (e, tokens)).
Proof. intros (Hwf & Hw & Hr) Hfit. apply expr_read; [done|done|done|lia|done]. Qed.

Lemma child_opens l e tokens : child e -> 1 <= l -> opens (print l e ++ tokens) = true.
Proof. intros (Hwf & _) Hl. apply print_opens; auto. Qed.

Lemma child_not token e tokens : child e -> opens [token] = false -> head_token (print 1 e ++ tokens) <> token.
Proof. intros H1 H2. apply opens_not; [by apply child_opens|done]. Qed.

Lemma child_step {B} (k : BetterleaksExpr -> Parser B) fuel e tokens : child e -> fits 0 tokens = true ->
  8 * length (print 1 e ++ tokens) + 3 <= fuel -> (parse_expr fuel 0 ≫= k) (print 1 e ++ tokens) = k e tokens.
Proof. intros Hc Hfit Hf. apply (bind_done (parse_expr fuel 0)). by apply child_read. Qed.

Lemma items_read closing nodes tokens : closing = Token.RParen \/ closing = Token.RBracket -> Forall child nodes ->
  yields 4 (fun fuel => parse_items fuel closing) (commas (map (print 1) nodes) ++ closing :: tokens) (Done (nodes, tokens)).
Proof.
  intros Hc. assert (opens [closing] = false /\ fits 0 (closing :: tokens) = true /\ closing <> Token.Comma) as (Ho & Hfit & Hcomma)
    by (by destruct Hc as [->| ->]).
  induction nodes as [|x nodes IH]; intros Hn; cbn [map commas].
  - start. cbn [app parse_items]. rewrite peek_step, head_cons, decide_True by done. by autorewrite with parser.
  - apply Forall_cons in Hn as [Hx Hn]. specialize (IH Hn). destruct nodes as [|y nodes]; cbn [map commas] in *.
    + start. cbn [parse_items]. rewrite peek_step, decide_False by (by apply child_not).
      rewrite child_step by (done || room).
      autorewrite with parser. rewrite decide_False by done. by autorewrite with parser.
    + rewrite <-app_assoc. cbn [app]. start. cbn [parse_items]. rewrite peek_step, decide_False by (by apply child_not).
      rewrite child_step by (done || room). autorewrite with parser. rewrite decide_True by done. autorewrite with parser.
      rewrite (bind_done (parse_items fuel closing) _ _ (y :: nodes) tokens); [done|].
      apply IH. room.
Qed.

Lemma pairs_read pairs tokens : Forall (fun pair => exists key value, pair = Pair (String key) value /\ child value) pairs ->
  yields 4 parse_pairs (commas (map (fun pair => match pair with
    | Pair (String key) value => Token.String key :: Token.Colon :: print 1 value
    | _ => []
    end) pairs) ++ Token.RBrace :: tokens) (Done (pairs, tokens)).
Proof.
  induction pairs as [|x pairs IH]; intros Hn; cbn [map commas].
  - start. cbn [app parse_pairs]. rewrite peek_step, head_cons, decide_True by done. by autorewrite with parser.
  - apply Forall_cons in Hn as [(key & value & -> & Hx) Hn]. specialize (IH Hn). destruct pairs as [|y pairs]; cbn [map commas app] in *.
    + start. cbn [parse_pairs]. rewrite peek_step, head_cons, decide_False by done. autorewrite with parser.
      rewrite child_step by (done || room). autorewrite with parser. rewrite decide_False by done. by autorewrite with parser.
    + rewrite <-app_assoc. cbn [app]. start. cbn [parse_pairs]. rewrite peek_step, head_cons, decide_False by done. autorewrite with parser.
      rewrite child_step by (done || room). autorewrite with parser. rewrite decide_True by done. autorewrite with parser.
      rewrite (bind_done (parse_pairs fuel) _ _ (y :: pairs) tokens); [done|]. apply IH. room.
Qed.

(** ** Every node is read from its text *)

Definition bare (token : Token) : Prop := match token with Token.Operator _ => False | _ => True end.

(** What a primary expression reads, a postfix may follow. *)
Lemma primary_read token e rest : bare token -> print 0 e = token :: rest -> parsed_node e = e -> optional_receiver e = false ->
  (forall tokens, yields 1 parse_primary (print 0 e ++ tokens) (Done (e, tokens))) -> reads_chain e.
Proof.
  intros Ht Hp He Ho Hprim tokens result _ Hr. rewrite He, Ho in Hr. specialize (Hprim tokens). rewrite Hp in *. cbn [app] in *.
  start. cbn [parse_prefix]. rewrite peek_step, head_cons. 
  destruct token; try done; (rewrite (bind_done (parse_primary fuel) _ _ e tokens); [apply Hr; lia|apply Hprim; room]).
Qed.

Lemma literal_read token e : bare token -> literal token = Some e -> print 0 e = [token] -> parsed_node e = e ->
  optional_receiver e = false -> reads_chain e.
Proof.
  intros Ht Hl Hp He Ho. apply (primary_read token e []); [done..|]. intros tokens. rewrite Hp. start.
  cbn [app parse_primary]. rewrite advance_step. destruct token; try done; by rewrite Hl.
Qed.

Lemma unary_step operator node rest tokens : prefix_operator operator = true ->
  yields 2 parse_prefix rest (Done (node, tokens)) ->
  yields 2 parse_prefix (Token.Operator operator :: rest) (Done (Unary operator node, tokens)).
Proof.
  intros Hop Hrest. start. cbn [parse_prefix]. rewrite peek_step, head_cons, Hop, advance_step.
  rewrite (bind_done (parse_prefix fuel) _ _ node tokens); [done|]. apply Hrest. lia.
Qed.

Lemma unary_read operator node : prefix_operator operator = true -> child node -> reads_prefix (Unary operator node).
Proof.
  intros Hop (Hwf & Hw & Hr) tokens _ Hfit. cbn [print level Nat.leb].
  destruct (_ && taken_for_in _); cbn [app]; rewrite <-?app_assoc; cbn [app]; (apply unary_step; [done|]).
  - apply brackets_read; [done|by apply Hr|]. intros f Hf'. apply postfix_stops; [done|lia].
  - by apply operand_read.
Qed.

Lemma chain_read node : receiver node = true -> optional_receiver node = true -> reads node -> reads_prefix (Chain node).
Proof.
  intros Hrec Ho Hr tokens _ Hfit. cbn [print level Nat.leb]. unfold receiver in Hrec. tobool.
  apply receiver_read; [done|done|left; by destruct node|]. rewrite Ho.
  assert (parsed_node node = node) as -> by (by destruct node as [| | | | | | | | |? ? ? []| | | | | | | | | | |]).
  intros f Hf. apply (postfix_stops f true); [done|lia].
Qed.

(** Postfixes, after any receiver. *)
Lemma member_read chain node property optional tokens result : child property ->
  yields 2 (fun fuel => parse_postfix fuel (chain || optional) (Member node property optional false)) tokens result ->
  yields 2 (fun fuel => parse_postfix fuel chain node) (member_tokens property optional (print 1 property) ++ tokens) result.
Proof.
  intros Hp Hr. unfold member_tokens. destruct (member_name property) as [name|] eqn:En.
  - assert (property = String name /\ forallb name_byte name = true) as [-> Hname].
    { destruct property; try done. cbn in En. destruct (dotted value) eqn:E; [|done]. unfold dotted in E. by simplify_eq; tobool. }
    start. cbn [app parse_postfix]. rewrite peek_step, head_cons.
    destruct optional; rewrite advance_step, peek_step, head_cons; [rewrite bool_decide_true by done|];
      rewrite bool_decide_false by done; cbn [andb]; rewrite member_step by done; apply Hr; lia.
  - destruct optional; rewrite <-!app_assoc; cbn [app]; start; cbn [parse_postfix]; rewrite peek_step, head_cons.
    + rewrite advance_step, peek_step, head_cons, !bool_decide_true by done. cbn [andb]. rewrite advance_step.
      rewrite child_step by (done || room). autorewrite with parser. apply Hr. lia.
    + rewrite advance_step, peek_step, decide_False by (by apply child_not).
      rewrite child_step by (done || room). rewrite peek_step, head_cons, decide_False by done. autorewrite with parser.
      rewrite orb_false_r in Hr. apply Hr. lia.
Qed.

Lemma slice_read chain node from to tokens result : child from -> child to ->
  yields 2 (fun fuel => parse_postfix fuel chain (Slice node from to)) tokens result ->
  yields 2 (fun fuel => parse_postfix fuel chain node)
    (Token.LBracket :: print 1 from ++ Token.Colon :: print 1 to ++ Token.RBracket :: tokens) result.
Proof.
  intros Hfrom Hto Hr. start. cbn [parse_postfix]. rewrite peek_step, head_cons, advance_step, peek_step, decide_False by (by apply child_not).
  rewrite child_step by (done || room). rewrite peek_step, head_cons, decide_True, advance_step by done.
  rewrite (bind_done (parse_slice_end fuel) _ _ to tokens); [apply Hr; lia|].
  destruct fuel as [|fuel]; [lia|]. cbn [parse_slice_end]. rewrite peek_step, decide_False by (by apply child_not).
  rewrite child_step by (done || room). by autorewrite with parser.
Qed.

Definition arguments_tokens (arguments : list BetterleaksExpr) (tokens : list Token) : list Token :=
  Token.LParen :: commas (map (print 1) arguments) ++ Token.RParen :: tokens.

Lemma arguments_read chain node arguments tokens result : Forall child arguments ->
  yields 2 (fun fuel => parse_postfix fuel chain (call_node node arguments)) tokens result ->
  yields 2 (fun fuel => parse_postfix fuel chain node) (arguments_tokens arguments tokens) result.
Proof.
  intros Ha Hr. unfold arguments_tokens. start. cbn [parse_postfix]. rewrite peek_step, head_cons.
  rewrite (bind_done (parse_arguments fuel) _ _ arguments tokens); [apply Hr; lia|].
  destruct fuel as [|fuel]; [lia|]. cbn [parse_arguments]. autorewrite with parser. apply items_read; [by left|done|room].
Qed.

(** Nodes below a receiver. *)
Lemma receiver_level e : receiver e = true -> is_pair e = false /\ (level e = 12 \/ whole e = true) /\ parsed_node e = e.
Proof.
  intros H. assert (is_pair e = false) by (by unfold receiver in H; tobool). split; [done|]. split.
  - destruct (decide (level e = 12)); [by left|right]. by apply level_low.
  - unfold receiver in H. tobool. by destruct e as [| | | | | | | | |? ? ? []| | | | | | | | | | |].
Qed.

Lemma callee_level e : callee_ok e = true -> is_pair e = false /\ (level e = 12 \/ whole e = true).
Proof. intros H. by destruct e; (split; [done|]); first [by left|by right]. Qed.

Lemma member_chain node property optional method : receiver node = true -> reads node -> child property ->
  reads_chain (Member node property optional method).
Proof.
  intros Hrec Hr Hp tokens result _ Hc. cbn [print level Nat.leb optional_receiver parsed_node] in *. rewrite <-app_assoc.
  destruct (receiver_level _ Hrec) as (? & ? & E). apply receiver_read; [done..|]. rewrite E.
  apply member_read; [done|]. by rewrite orb_comm.
Qed.

Lemma slice_chain node from to : receiver node = true -> reads node -> child from -> child to -> reads_chain (Slice node from to).
Proof.
  intros Hrec Hr Hf Ht tokens result _ Hc. cbn [print level Nat.leb optional_receiver parsed_node] in *.
  repeat (rewrite <-app_assoc; cbn [app]).
  destruct (receiver_level _ Hrec) as (? & ? & E). apply receiver_read; [done..|]. rewrite E. by apply slice_read.
Qed.

Lemma call_chain callee arguments : callee_ok callee = true -> reads callee -> Forall child arguments -> reads_chain (Call callee arguments).
Proof.
  intros Hc Hr Ha tokens result _ Hk. cbn [print level Nat.leb optional_receiver parsed_node] in *.
  repeat (rewrite <-app_assoc; cbn [app]). destruct (callee_level _ Hc) as [? ?]. apply receiver_read; [done..|].
  apply arguments_read; [done|]. assert (call_node (parsed_node callee) arguments = Call callee arguments) as ->; [|done].
  destruct callee; try done; cbn [callee_ok parsed_node call_node] in *; tobool; [|by subst].
  match goal with H : one_of _ _ = false |- _ => by rewrite H end.
Qed.

Lemma builtin_chain name arguments : one_of name BUILTIN_CALLS = true -> Forall child arguments -> reads_chain (Builtin name arguments).
Proof.
  intros Hn Ha tokens result _ Hk. cbn [print level Nat.leb optional_receiver parsed_node] in *.
  assert (reads_chain (Identifier name)) as Hi.
  { apply (literal_read (Token.Identifier name)); try done. cbn [literal]. destruct (name is "#") eqn:E; [|done].
    unfold bytes_eqb in E. apply bool_decide_eq_true in E. by subst. }
  cbn [app]. rewrite <-app_assoc. apply (Hi (arguments_tokens arguments tokens)); [done|]. apply arguments_read; [done|]. cbn [call_node parsed_node]. by rewrite Hn.
Qed.

(** Expressions in brackets of their own. *)
Lemma program_head node tokens : well_formed node = true -> head_token (print 0 node ++ Token.RBrace :: tokens) <> Token.RBrace.
Proof.
  intros Hwf. destruct (level node) eqn:El; [|apply opens_not; [apply print_opens; auto with lia|done]].
  destruct node; try done. cbn [well_formed] in Hwf. destruct nodes as [|a [|b [|]]]; try done. tobool.
  cbn [print level Nat.leb]. rewrite <-app_assoc. apply opens_not; [by apply print_opens; auto|done].
Qed.

Lemma array_chain nodes : Forall child nodes -> reads_chain (Array nodes).
Proof.
  intros Hn. eapply (primary_read Token.LBracket); [done..|]. intros tokens. cbn [print level Nat.leb app].
  rewrite <-app_assoc. start. cbn [parse_primary]. rewrite advance_step.
  rewrite (bind_done (parse_items fuel Token.RBracket) _ _ nodes tokens); [done|]. apply items_read; [by right|done|room].
Qed.

Lemma map_chain pairs : Forall (fun pair => exists key value, pair = Pair (String key) value /\ child value) pairs -> reads_chain (Map pairs).
Proof.
  intros Hn. eapply (primary_read Token.LBrace); [done..|]. intros tokens. cbn [print level Nat.leb app].
  rewrite <-app_assoc. start. cbn [parse_primary]. rewrite advance_step. destruct fuel as [|fuel]; [lia|]. cbn [parse_braced].
  rewrite peek_step. destruct pairs as [|pair pairs]; [by cbn [map commas app]; rewrite head_cons, decide_True by done|].
  pose proof Hn as (key & value & -> & _)%Forall_inv. set (body := commas _ ++ _).
  assert (exists rest, body = Token.String key :: Token.Colon :: rest) as [rest E].
  { subst body. cbn [map commas]. destruct (map _ pairs); cbn [app]; eauto. }
  rewrite E, head_cons, decide_False, second_step by done. cbn [starts_map lookup list_lookup].
  rewrite bool_decide_true by done. rewrite <-E. subst body.
  rewrite (bind_done (parse_pairs fuel) _ _ (Pair (String key) value :: pairs) tokens); [done|]. apply pairs_read; [done|room].
Qed.

Lemma predicate_chain node : child node -> reads_chain (Predicate node).
Proof.
  intros (Hwf & Hw & Hr). eapply (primary_read Token.LBrace); [done..|]. intros tokens. cbn [print level Nat.leb app].
  rewrite <-app_assoc. cbn [app]. start. cbn [parse_primary]. rewrite advance_step. destruct fuel as [|fuel]; [lia|]. cbn [parse_braced].
  rewrite peek_step.
  assert (head_token (print 0 node ++ Token.RBrace :: tokens) <> Token.RBrace) as Hne by (by apply program_head).
  rewrite decide_False, second_step by done.
  pose proof (print_no_map node 0 (Token.RBrace :: tokens) Hwf ltac:(done)) as Hm. unfold no_map in Hm. tobool. rewrite Hm.
  rewrite (bind_done (parse_program fuel Token.RBrace) _ _ node tokens); [done|].
  apply Hr; [done|repeat constructor|room].
Qed.

Lemma binary_read operator lhs rhs : operator_ok operator = true -> child lhs -> child rhs -> reads_expr (Binary operator lhs rhs).
Proof.
  intros Ho (Hwl & Hl & Hrl) (Hwr & Hr & Hrr) m tokens result Hm Hfit Hb.
  destruct (precedence_cases _ Ho) as [Eo Hp]. cbn [print level Nat.leb last_min] in *.
  rewrite <-app_assoc. cbn [app]. set (right := right_associative operator) in *. set (p := precedence operator) in *.
  apply left_read; [done|done|destruct right; lia| |].
  - unfold fits. rewrite head_cons, Eo. apply Nat.ltb_lt.
    destruct (Nat.leb_spec (if right then S (S p) else S p) (level lhs)) as [Hlv|Hlv]; [|lia].
    destruct lhs; cbn [level last_min] in *; try (destruct right; lia).
    cbn [well_formed] in Hwl. tobool. subst right p.
    destruct (decide (precedence operator0 = precedence operator)) as [E|E].
    + rewrite (associativity operator0 operator) by done. destruct (right_associative operator); lia.
    + destruct (right_associative operator), (right_associative operator0); lia.
  - start. cbn [parse_binary]. rewrite peek_step, head_cons, (operator_not_equals _ Ho), Eo, (proj2 (Nat.ltb_ge _ _)) by lia.
    rewrite advance_step.
    rewrite (bind_done (parse_expr fuel _) _ _ rhs tokens); [rewrite binary_node_ok by done; apply Hb; lia|].
    rewrite ?Nat.add_1_r. destruct right; (apply expr_read; first [done|lia|room]).
Qed.

Lemma conditional_read cond exp1 exp2 : child cond -> child exp1 -> child exp2 -> reads_expr (Conditional cond exp1 exp2).
Proof.
  intros (Hwc & Hc & Hrc) H1 H2 m tokens result Hm Hfit Hb. cbn [print level Nat.leb last_min] in *. assert (m = 0) as -> by lia.
  repeat (rewrite <-app_assoc; cbn [app]). apply left_read; [done|done|lia| |].
  - destruct (Nat.leb_spec 2 (level cond)) as [Hlv|Hlv]; [|done]. apply Nat.ltb_lt.
    destruct cond; cbn [level last_min] in *; try lia. destruct (right_associative operator); lia.
  - start. cbn [parse_binary]. rewrite peek_step, head_cons. cbn [Nat.eqb]. rewrite advance_step.
    rewrite child_step by (done || room). autorewrite with parser. rewrite child_step by (done || room). apply Hb. lia.
Qed.

Lemma declarator_read name value expr : child value -> child expr -> reads_program (VariableDeclarator name value expr).
Proof.
  intros Hv (Hwe & He & Hre) terminator tokens Ht. cbn [print level Nat.leb app]. rewrite <-app_assoc. cbn [app]. start.
  cbn [parse_program]. rewrite peek_step, head_cons, decide_True by done. autorewrite with parser.
  rewrite child_step by (done || room). autorewrite with parser.
  rewrite (bind_done (parse_program fuel terminator) _ _ expr tokens); [done|]. apply Hre; [done|done|room].
Qed.

Lemma sequence_read first rest : child first -> child rest -> reads_program (Sequence [first; rest]).
Proof.
  intros Hf (Hwe & He & Hre) terminator tokens Ht. cbn [print level Nat.leb]. rewrite <-app_assoc. cbn [app]. start.
  cbn [parse_program]. rewrite peek_step, decide_False by (by apply child_not).
  rewrite child_step by (done || room). rewrite peek_step, head_cons, decide_True, advance_step by done.
  rewrite (bind_done (parse_program fuel terminator) _ _ rest tokens); [done|]. apply Hre; [done|done|room].
Qed.

(** The induction also goes through the pairs of a map. *)
Definition readable (e : BetterleaksExpr) : Prop :=
  (well_formed e = true -> reads e) /\ forall key value, e = Pair key value -> well_formed value = true -> reads value.

Lemma readable_child e : readable e -> whole e = true -> well_formed e = true -> child e.
Proof. intros [Hr _] Hw Hwf. split; auto. Qed.

Lemma readable_children nodes : Forall readable nodes -> forallb (fun e => whole e && well_formed e) nodes = true -> Forall child nodes.
Proof. induction 1 as [|x nodes H _ IH]; cbn; intros Hok; constructor; tobool; [by apply readable_child|auto]. Qed.

Lemma readable_pairs pairs : Forall readable pairs ->
  forallb (fun pair => match pair with Pair (String _) value => whole value && well_formed value | _ => false end) pairs = true ->
  Forall (fun pair => exists key value, pair = Pair (String key) value /\ child value) pairs.
Proof.
  induction 1 as [|x pairs [_ H] _ IH]; cbn; intros Hok; constructor; tobool; [|auto].
  destruct x; try done. destruct x1; try done. tobool. eexists _, _. split; [done|]. split; eauto.
Qed.

Lemma readable_reads e : readable e -> well_formed e = true -> reads e.
Proof. intros [H _]. done. Qed.

#[local] Hint Resolve readable_reads readable_child readable_children readable_pairs : parser.
#[local] Hint Resolve declarator_read sequence_read binary_read conditional_read unary_read chain_read member_chain slice_chain call_chain
  builtin_chain array_chain map_chain predicate_chain : parser.

Lemma reads_of_level e : well_formed e = true -> (level e = 0 -> reads_program e) -> (1 <= level e < 11 -> reads_expr e) ->
  (level e = 11 -> reads_prefix e) -> (level e = 12 -> reads_chain e) -> reads e.
Proof.
  intros Hwf H0 H1 H2 H3. pose proof (level_le e).
  destruct (decide (level e = 0)); [by apply reads_of_program; auto|]. destruct (decide (level e = 11)); [by apply reads_of_prefix; auto|].
  destruct (decide (level e = 12)); [by apply reads_of_chain; auto|]. apply reads_of_expr; [done|lia|]. intros _. apply H1. lia.
Qed.

(** Every well-formed tree is read from the tokens it is written with. *)
Lemma all_readable e : readable e.
Proof.
  induction e as [e IH] using expr_nested_ind. split; cycle 1.
  { intros key value -> Hwf. cbn in IH. apply Forall_cons in IH as [_ [[H _] _]%Forall_cons]. auto. }
  intros Hwf. apply reads_of_level; [done|..]; intros Hlevel;
    (destruct e; cbn [level] in Hlevel; try done; try lia; cbn [children well_formed] in *; tobool; repeat (apply Forall_cons in IH as [? IH])).
  all: try (match goal with H : operator_ok _ = true |- _ => apply precedence_cases in H as [_ H]; lia end).
  all: eauto 6 with parser.
  all: try (eapply literal_read; [..|reflexivity|done|done]; done).
  - destruct nodes as [|a [|b [|]]]; try done. apply Forall_cons in IH as [? [? _]%Forall_cons]. tobool. eauto with parser.
  - apply (literal_read (Token.Identifier value)); try done. cbn [literal]. by match goal with H : (_ is "#") = _ |- _ => rewrite H end.
  - apply (literal_read (Token.Identifier name)); try done. cbn [literal]. by rewrite Hwf.
Qed.

Lemma parse_printed_tokens e : well_formed_expression e = true -> parse_tokens (print 0 e ++ [Token.Eof]) = Done e.
Proof.
  unfold well_formed_expression, parse_tokens. intros H. tobool.
  destruct (all_readable e) as [Hr _]. erewrite (read_program _ (Hr ltac:(done))); [done|done|repeat constructor|lia].
Qed.

(** ** Tokens are read from their text *)

Definition lexes_to (source : bytes) (tokens : list Token) : Prop :=
  forall fuel, length source <= fuel -> lex_loop fuel source = Done tokens.

(** Read whatever follows. *)
Definition lexes (tokens : list Token) : Prop :=
  forall source rest, lexes_to source rest -> lexes_to (show_tokens tokens ++ source) (tokens ++ rest).

Lemma lexes_app tokens1 tokens2 : lexes tokens1 -> lexes tokens2 -> lexes (tokens1 ++ tokens2).
Proof.
  intros H1 H2 source rest H. unfold show_tokens. rewrite flat_map_app, <-!app_assoc. by apply H1, H2.
Qed.

Lemma lexes_nil : lexes [].
Proof. by intros source rest H. Qed.

Lemma lexes_cons token tokens : lexes [token] -> lexes tokens -> lexes (token :: tokens).
Proof. apply (lexes_app [token] tokens). Qed.

Lemma space_skipped source rest : lexes_to source rest -> lexes_to (32%Z :: source) rest.
Proof. intros H [|fuel] Hf; cbn [length] in Hf; [lia|]. cbn [lex_loop]. change (ws_char_len (32%Z :: source)) with 1. apply H. lia. Qed.

Definition visible (b : byte) : Prop := (33 <= b < 127)%Z.

Lemma visible_no_space b r : visible b -> ws_char_len (b :: r) = 0.
Proof. intros H. unfold visible in H. apply ws_char_len_ascii; [lia| |apply Z.eqb_neq; lia]. apply andb_false_iff. rewrite !Z.leb_gt. lia. Qed.

Lemma token_lexes token ch r : show_token token = ch :: r -> visible ch ->
  (forall source, (ch ==? bc "/") && next_is (bc "/") (r ++ 32%Z :: source) = false) ->
  (forall source, read_token ch (r ++ 32%Z :: source) = Some (token, 32%Z :: source)) -> lexes [token].
Proof.
  intros Hs Hv Hc Hr source rest H. cbn [show_tokens flat_map]. rewrite Hs, app_nil_r, <-app_assoc. cbn [app].
  intros [|fuel] Hf; cbn [length] in Hf; [lia|]. cbn [lex_loop]. rewrite visible_no_space, Hc, Hr by done.
  rewrite (space_skipped _ _ H); [done|]. rewrite length_app in Hf. cbn [length] in *. lia.
Qed.

Lemma span_while_stops p (w : bytes) c source : forallb p w = true -> p c = false -> span_while p (w ++ c :: source) = (w, c :: source).
Proof.
  induction w as [|b w IH]; cbn; intros Hw Hc; [by rewrite Hc|]. tobool. rewrite H, IH by done. done.
Qed.

Lemma span_while_fst p (w : bytes) c source : p c = false ->
  fst (span_while p (w ++ c :: source)) = fst (span_while p w).
Proof.
  intros Hc. induction w as [|b w IH]; cbn; [by rewrite Hc|]. destruct (p b); [|done].
  destruct (span_while p (w ++ _)), (span_while p w). cbn in *. by rewrite IH.
Qed.

Lemma word_start_byte b : word_start b = true -> visible b /\ is_ascii_digit b = false.
Proof.
  unfold word_start, is_ascii_alphabetic, is_ascii_upper, is_ascii_lower, is_ascii_digit, visible. intros H.
  rewrite !orb_true_iff, !andb_true_iff, !Z.leb_le, !Z.eqb_eq in H. change (bc "_") with 95%Z in H. change (bc "#") with 35%Z in H.
  change (bc "$") with 36%Z in H. split; [lia|]. apply andb_false_iff. rewrite !Z.leb_gt. lia.
Qed.

Ltac differs H := repeat match goal with
  | |- context [if (?b ==? ?c) then _ else _] => destruct (b ==? c) eqn:?; [tobool; subst b; by vm_compute in H|]
  end.

Lemma read_word b r : word_start b = true ->
  read_token b r = let '(w, rest) := span_while word_byte r in Some (word_token (b :: w) rest).
Proof.
  intros H. destruct (word_start_byte b H) as [_ Hd]. unfold read_token. differs H.
  destruct ((b ==? 34) || (b ==? 39) || (b ==? 96)) eqn:E.
  - rewrite !orb_true_iff, !Z.eqb_eq in E. destruct E as [[-> | ->]| ->]; by vm_compute in H.
  - by rewrite Hd, H.
Qed.

Lemma word_lexes value : word value = true -> lexes [Token.Identifier value].
Proof.
  intros H. unfold word in H. destruct value as [|b r]; [done|]. tobool.
  destruct (word_start_byte b ltac:(done)) as [Hv _].
  apply (token_lexes _ b r); [done|done| |]; intros source.
  - destruct (b ==? bc "/") eqn:E; [|done]. tobool. subst. done.
  - rewrite read_word, span_while_stops by done. unfold word_token. 
    match goal with H : one_of (b :: r) KEYWORD_OPERATORS = false |- _ => rewrite H end.
    match goal with H : one_of (b :: r) RESERVED = false |- _ => unfold one_of, RESERVED in H; cbn [existsb] in H end. tobool.
    repeat match goal with H : ((b :: r) is _) = false |- _ => rewrite H; clear H end. done.
Qed.

Lemma parse_nat_digits l : forall acc v, parse_digits acc l = Some v -> parse_nat acc l = Some v.
Proof.
  induction l as [|b l IH]; intros acc v; [done|]. cbn [parse_digits parse_nat]. destruct (is_ascii_digit b); [|done].
  destruct (_ <=? _)%Z; [apply IH|done].
Qed.

Lemma digit_visible b : is_ascii_digit b = true -> visible b /\ (b ==? bc "/") = false /\ (b ==? bc ".") = false.
Proof.
  unfold is_ascii_digit, visible. intros H. tobool. change (bc "/") with 47%Z. change (bc ".") with 46%Z. rewrite !Z.eqb_neq. lia.
Qed.

Lemma read_digit b r : is_ascii_digit b = true ->
  read_token b r = let '(w, rest) := read_number false r in let raw := b :: w in
    if existsb (Z.eqb (bc ".")) raw then Some (Token.Float raw, rest) else n ← parse_i64 raw; Some (Token.Integer n, rest).
Proof.
  intros H. unfold read_token. differs H.
  destruct ((b ==? 34) || (b ==? 39) || (b ==? 96)) eqn:E; [|by rewrite H].
  rewrite !orb_true_iff, !Z.eqb_eq in E. destruct E as [[-> | ->]| ->]; by vm_compute in H.
Qed.

Lemma read_digits l source : forall point, Forall (fun b => is_ascii_digit b = true) l -> read_number point (l ++ 32%Z :: source) = (l, 32%Z :: source).
Proof. intros point. induction 1 as [|b l Hb Hl IH]; [done|]. cbn [app read_number]. by rewrite Hb, IH. Qed.

Lemma integer_lexes value : (0 <= value <= I64_MAX)%Z -> lexes [Token.Integer value].
Proof.
  intros H. destruct (show_usize_cons value) as (b & r & E & Hb). pose proof (show_digits_digits 20 value) as Hd.
  change (show_digits 20 value []) with (show_usize value) in Hd. rewrite E in Hd. apply Forall_cons in Hd as [_ Hd].
  destruct (digit_visible b Hb) as (Hv & Hs & _). apply (token_lexes _ b r); [done|done| |]; intros source; [by rewrite Hs|].
  rewrite read_digit, read_digits by done. cbn zeta.
  assert (existsb (Z.eqb (bc ".")) (b :: r) = false) as ->.
  { apply not_true_iff_false. rewrite existsb_exists. intros (x & Hx & Ex). tobool. subst x. apply list_elem_of_In in Hx.
    assert (is_ascii_digit (bc ".") = true); [|done]. pose proof (proj1 (Forall_forall _ _) (Forall_cons_2 _ _ _ Hb Hd) _ Hx). done. }
  assert (parse_i64 (b :: r) = Some value) as ->; [|done].
  assert (parse_nat 0 (b :: r) = Some value) as Hp.
  { apply parse_nat_digits. rewrite <-E. apply parse_show_digits; unfold I64_MAX, USIZE_MAX, U64_MOD in *; lia. }
  unfold parse_i64. destruct (b ==? bc "+") eqn:E1; [tobool; by subst|]. destruct (b ==? bc "-") eqn:E2; [tobool; by subst|].
  rewrite Hp. unfold i64_ok. rewrite Z.mul_1_l. rewrite (proj2 (Z.leb_le _ _)), (proj2 (Z.leb_le _ _)) by (unfold I64_MIN, I64_MAX in *; lia). done.
Qed.

Lemma read_float l source : forall point, read_number point l = (l, []) -> read_number point (l ++ 32%Z :: source) = (l, 32%Z :: source).
Proof.
  induction l as [|b l IH]; intros point H; [done|]. cbn [app read_number] in *. destruct (is_ascii_digit b).
  - destruct (read_number point l) as [w rest] eqn:E; simplify_eq. by rewrite IH.
  - assert (starts_with (bs "..") (b :: l ++ 32%Z :: source) = starts_with (bs "..") (b :: l)) as ->.
    { destruct l as [|c l]; [|done]. change (bs "..") with [46; 46]%Z. cbn. by destruct (46 =? b)%Z. }
    destruct ((b ==? bc ".") && _ && _); [|done]. destruct (read_number true l) as [w rest] eqn:E; simplify_eq. by rewrite IH.
Qed.

Lemma float_lexes value : float_text value = true -> lexes [Token.Float value].
Proof.
  intros H. unfold float_text in H. destruct value as [|b r]; [done|]. tobool.
  match goal with H : bool_decide _ = true |- _ => apply bool_decide_eq_true in H end.
  destruct (digit_visible b ltac:(done)) as (Hv & Hs & _). apply (token_lexes _ b r); [done|done| |]; intros source; [by rewrite Hs|].
  rewrite read_digit, read_float by done. cbn zeta. cbn [existsb].
  match goal with H : existsb _ r = true |- _ => rewrite H end. by rewrite orb_true_r.
Qed.

Lemma read_quoted value source : 
  read_string 34 (flat_map (fun b => if (b ==? 34) || (b ==? 92) then [92; b]%Z else [b]) value ++ 34%Z :: source) = Some (value, source).
Proof.
  induction value as [|b value IH]; [done|]. cbn [flat_map]. destruct ((b ==? 34) || (b ==? 92)) eqn:E.
  - rewrite orb_true_iff, !Z.eqb_eq in E. cbn [app read_string]. destruct E as [->| ->]; cbn -[read_string flat_map]; by rewrite IH.
  - tobool. cbn [app read_string]. rewrite (proj2 (Z.eqb_neq b 34)), (proj2 (Z.eqb_neq b 92)) by done. cbn [negb orb]. by rewrite IH.
Qed.

Lemma string_lexes value : lexes [Token.String value].
Proof.
  apply (token_lexes _ 34%Z (flat_map (fun b => if (b ==? 34) || (b ==? 92) then [92; b]%Z else [b]) value ++ [34%Z])); [done|done|done|].
  intros source. rewrite <-app_assoc. cbn [app]. change (read_token 34%Z ?r) with ('(s, rest) ← read_string 34 r; Some (Token.String s, rest)).
  by rewrite read_quoted.
Qed.

(** The operators that are read whatever follows. *)
Definition FREE_OPERATORS : list string :=
  ["and"; "or"; "in"; "contains"; "startsWith"; "endsWith"; "matches"; ".."; "??"; "**"; "+"; "-"; "*"; "%"; "^"; "/"; "=";
   "!"; "<"; ">"; "=="; "!="; "<="; ">="; "&&"; "||"]%string.

Lemma one_of_cases l names : one_of l names = true -> exists s, s ∈ names /\ l = bs s.
Proof.
  unfold one_of. intros (s & Hs & H)%existsb_exists. exists s. split; [by apply list_elem_of_In|]. by apply bool_decide_eq_true in H.
Qed.

Ltac fixed := eapply token_lexes; [reflexivity|unfold visible; cbn; lia|intros ?; reflexivity|intros ?; reflexivity].

Lemma operator_lexes operator : one_of operator FREE_OPERATORS = true -> lexes [Token.Operator operator].
Proof.
  intros (s & Hs & ->)%one_of_cases. unfold FREE_OPERATORS in Hs. rewrite !elem_of_cons, elem_of_nil in Hs.
  repeat (destruct Hs as [->|Hs]; [fixed|]). done.
Qed.

Lemma bool_lexes value : lexes [Token.Bool value].
Proof. destruct value; fixed. Qed.

(** Tokens whose text starts with a visible character. *)
Definition shows (tokens : list Token) : Prop := exists b r, show_tokens tokens = b :: r /\ visible b.

Lemma shows_app tokens1 tokens2 : shows tokens1 -> shows (tokens1 ++ tokens2).
Proof.
  intros (b & r & E & Hb). unfold show_tokens in E. exists b, (r ++ show_tokens tokens2). split; [|done].
  unfold show_tokens. by rewrite flat_map_app, E.
Qed.

Lemma shows_token token tokens b r : show_token token = b :: r -> visible b -> shows (token :: tokens).
Proof. intros E Hb. do 2 eexists. split; [|exact Hb]. cbn [show_tokens flat_map]. by rewrite E. Qed.

(** [not] is read as itself unless what follows is taken for [in]. *)
Lemma not_lexes tokens : lexes tokens -> shows tokens -> taken_for_in tokens = false ->
  lexes (Token.Operator (bs "not") :: tokens).
Proof.
  intros Hl (b & r & E & Hb) Hn source rest H. specialize (Hl source rest H).
  change (show_tokens (Token.Operator (bs "not") :: tokens)) with (bs "not " ++ show_tokens tokens).
  rewrite <-app_assoc. change (bs "not " ++ ?s) with (110 :: [111; 116] ++ 32 :: s)%Z.
  assert (Ht : trim_start (32%Z :: show_tokens tokens ++ source) = show_tokens tokens ++ source).
  { rewrite E. cbn [app]. unfold trim_start. cbn [length drop_ws]. change (ws_char_len (32%Z :: ?s)) with 1.
    cbn [drop Nat.eqb drop_ws]. by rewrite visible_no_space. }
  assert (read_token 110 ([111; 116] ++ 32 :: show_tokens tokens ++ source)%Z
          = Some (Token.Operator (bs "not"), 32%Z :: show_tokens tokens ++ source)) as Hr.
  { rewrite read_word, span_while_stops by done.
    change (word_token [110; 111; 116]%Z ?s) with
      (let '(next, after) := span_while name_byte (trim_start s) in
       if next is "in" then (Token.Operator (bs "not in"), after) else (Token.Operator (bs "not"), s)).
    rewrite Ht. destruct tokens as [|token tokens]; [done|]. cbn [taken_for_in show_tokens flat_map] in *.
    rewrite <-!app_assoc. cbn [app]. 
    pose proof (span_while_fst name_byte (show_token token) 32 (flat_map (fun t => show_token t ++ [32%Z]) tokens ++ source) eq_refl) as Ef.
    destruct (span_while name_byte (show_token token ++ _)) as [next after]. cbn [fst] in Ef. by rewrite Ef, Hn. }
  intros [|fuel] Hf; cbn [length] in Hf; [lia|]. cbn [lex_loop]. rewrite visible_no_space by (unfold visible; lia).
  change ((110 ==? bc "/") && _) with false. cbn match. rewrite Hr.
  rewrite (space_skipped _ _ Hl); [done|]. rewrite length_app in Hf. cbn [length] in *. lia.
Qed.

(** ** The text of a tree is read as its tokens *)

Lemma punctuation_lexes : Forall (fun token => lexes [token]) 
  [Token.Nil; Token.Let; Token.LParen; Token.RParen; Token.LBracket; Token.RBracket; Token.LBrace; Token.RBrace; Token.Comma;
   Token.Colon; Token.Semicolon; Token.Dot; Token.OptionalDot; Token.Question].
Proof. repeat constructor; fixed. Qed.

Lemma punctuation token : token ∈ [Token.Nil; Token.Let; Token.LParen; Token.RParen; Token.LBracket; Token.RBracket; Token.LBrace;
  Token.RBrace; Token.Comma; Token.Colon; Token.Semicolon; Token.Dot; Token.OptionalDot; Token.Question] -> lexes [token].
Proof. apply (proj1 (Forall_forall _ _) punctuation_lexes). Qed.

Lemma brackets_lexes tokens : lexes tokens -> lexes (Token.LParen :: tokens ++ [Token.RParen]).
Proof. intros H. apply lexes_cons; [by apply punctuation; repeat constructor|]. apply lexes_app; [done|]. by apply punctuation; repeat constructor. Qed.

Lemma commas_lexes items : Forall lexes items -> lexes (commas items).
Proof.
  induction 1 as [|x [|y items] Hx Hi IH]; [apply lexes_nil|done|]. apply lexes_app; [done|].
  apply lexes_cons; [by apply punctuation; repeat constructor|done].
Qed.

Lemma prefix_lexes operator : prefix_operator operator = true -> (operator is "not") = false -> lexes [Token.Operator operator].
Proof.
  intros (s & Hs & ->)%one_of_cases Hn. rewrite !elem_of_cons, elem_of_nil in Hs.
  destruct Hs as [->|[->|[->|[]]]]; [fixed|done|fixed].
Qed.

Lemma binary_operator_lexes operator : operator_ok operator = true -> lexes [Token.Operator operator].
Proof.
  intros H. apply operator_lexes. unfold operator_ok, binary_precedence in H.
  repeat match type of H with context [if one_of ?o ?l then _ else _] => destruct (one_of o l) eqn:?
    | context [if ?o is ?n then Some _ else _] => destruct (o is n) eqn:? end; cbn match in H; try done;
    try (match goal with E : (_ is _) = true |- _ => apply bool_decide_eq_true in E as ->; done end);
    match goal with E : one_of _ _ = true |- _ => apply one_of_cases in E as (s & Hs & ->) end;
    rewrite !elem_of_cons, elem_of_nil in Hs; repeat (destruct Hs as [->|Hs]; [first [done|by vm_compute in H]|]); done.
Qed.

Definition writable (e : BetterleaksExpr) : Prop :=
  (well_formed e = true -> lexes (print 0 e)) /\ forall key value, e = Pair key value -> well_formed value = true -> lexes (print 0 value).

Lemma print_lexes l e : lexes (print 0 e) -> lexes (print l e).
Proof. intros H. rewrite print_eq. destruct (l <=? level e); [done|by apply brackets_lexes]. Qed.

Lemma writable_at l e : writable e -> well_formed e = true -> lexes (print l e).
Proof. intros [H _] Hwf. apply print_lexes. auto. Qed.

Lemma writable_items nodes : Forall writable nodes -> forallb (fun e => whole e && well_formed e) nodes = true ->
  lexes (commas (map (print 1) nodes)).
Proof.
  intros Hn Hok. apply commas_lexes, Forall_map. induction Hn as [|x nodes Hx Hn IH]; cbn in Hok; constructor; tobool; [by apply writable_at|auto].
Qed.

Lemma writable_pairs pairs : Forall writable pairs ->
  forallb (fun pair => match pair with Pair (String _) value => whole value && well_formed value | _ => false end) pairs = true ->
  lexes (commas (map (fun pair => match pair with Pair (String key) value => Token.String key :: Token.Colon :: print 1 value | _ => [] end) pairs)).
Proof.
  intros Hn Hok. apply commas_lexes, Forall_map. induction Hn as [|x pairs [_ Hx] Hn IH]; cbn in Hok; constructor; tobool; [|auto].
  destruct x; try done. destruct x1; try done. tobool. apply lexes_cons; [apply string_lexes|].
  apply lexes_cons; [by apply punctuation; repeat constructor|]. apply print_lexes. eauto.
Qed.

Lemma member_lexes property optional tokens : lexes tokens -> lexes (member_tokens property optional tokens).
Proof.
  intros H. unfold member_tokens. destruct (member_name property) as [name|] eqn:En.
  - apply lexes_cons; [destruct optional; by apply punctuation; repeat constructor|]. destruct property; try done. cbn in En.
    destruct (dotted value) eqn:E; [|done]. unfold dotted in E. simplify_eq. tobool. by apply word_lexes.
  - apply lexes_app; [|apply lexes_app; [done|by apply punctuation; repeat constructor]].
    destruct optional; repeat (apply lexes_cons; [by apply punctuation; repeat constructor|]); apply lexes_nil.
Qed.

Lemma identifier_hash value : (value is "#") = true -> lexes [Token.Identifier value].
Proof. intros H. apply bool_decide_eq_true in H as ->. by apply word_lexes. Qed.

Lemma builtin_lexes name : one_of name BUILTIN_CALLS = true -> lexes [Token.Identifier name].
Proof.
  intros (s & Hs & ->)%one_of_cases. apply word_lexes. unfold BUILTIN_CALLS in Hs. rewrite !elem_of_cons, elem_of_nil in Hs.
  repeat (destruct Hs as [->|Hs]; [reflexivity|]). done.
Qed.

Lemma equals_lexes : lexes [Token.Operator (bs "=")].
Proof. by apply operator_lexes. Qed.

Ltac pieces := repeat match goal with
  | |- lexes [] => apply lexes_nil
  | |- lexes (print _ _) => apply writable_at; assumption
  | |- lexes (member_tokens _ _ _) => apply member_lexes
  | |- lexes (commas (map (print 1) _)) => apply writable_items; assumption
  | |- lexes (commas _) => apply writable_pairs; assumption
  | |- lexes [Token.Identifier _] => first [apply word_lexes; assumption | apply identifier_hash; assumption | apply builtin_lexes; assumption]
  | |- lexes [Token.Operator _] => first [apply equals_lexes | apply binary_operator_lexes; assumption]
  | |- lexes [Token.String _] => apply string_lexes
  | |- lexes [Token.Float _] => apply float_lexes; assumption
  | |- lexes [Token.Bool _] => apply bool_lexes
  | |- lexes [_] => apply punctuation; repeat constructor; fail
  | |- lexes (_ ++ _) => apply lexes_app
  | |- lexes (_ :: _ :: _) => apply lexes_cons
  | |- lexes (_ :: _ ++ _) => apply lexes_cons
  | |- lexes (_ :: print _ _) => apply lexes_cons
  end.

Lemma word_shows value tokens : word value = true -> shows (Token.Identifier value :: tokens).
Proof.
  unfold word. destruct value as [|b r]; [done|]. intros H. tobool.
  eapply shows_token; [done|]. by destruct (word_start_byte b ltac:(done)).
Qed.

(** The text of a tree starts with a visible character. *)
Lemma print_shows e : forall l, well_formed e = true -> shows (print l e).
Proof.
  induction e as [e IH] using expr_nested_ind. intros l Hwf.
  destruct (decide (l <= level e)) as [Hle|Hgt]; [|rewrite print_tight by lia; by eapply shows_token].
  rewrite (print_loose _ _ Hle). clear Hle.
  destruct e; cbn [well_formed children] in *; tobool; repeat (apply Forall_cons in IH as [? IH]); try done;
    cbn [print level Nat.leb] in *; try (by auto using shows_app); try (by eapply shows_token).
  - by apply word_shows.
  - match goal with |- shows [Token.Integer ?v] => destruct (show_usize_cons v) as (b & r & E & Hb) end.
    eapply shows_token; [exact E|]. by destruct (digit_visible b Hb).
  - destruct value as [|b r]; [done|]. unfold float_text in Hwf. tobool.
    eapply shows_token; [done|]. by destruct (digit_visible b ltac:(done)).
  - by destruct value; eapply shows_token.
  - match goal with H : prefix_operator _ = true |- _ => apply one_of_cases in H as (s & Hs & ->) end.
    rewrite !elem_of_cons, elem_of_nil in Hs. by destruct Hs as [->|[->|[->|[]]]]; eapply shows_token.
  - match goal with H : one_of name _ = true |- _ => apply one_of_cases in H as (s & Hs & ->) end.
    unfold BUILTIN_CALLS in Hs. rewrite !elem_of_cons, elem_of_nil in Hs.
    repeat (destruct Hs as [->|Hs]; [by eapply shows_token|]). done.
  - destruct nodes as [|a [|b [|]]]; try done. apply Forall_cons in IH as [? _]. tobool. auto using shows_app.
  - match goal with H : (name is "#") = true |- _ => apply bool_decide_eq_true in H as -> end. by eapply shows_token.
Qed.

Lemma all_writable e : writable e.
Proof.
  induction e as [e IH] using expr_nested_ind. split; cycle 1.
  { intros key value -> Hwf. cbn in IH. apply Forall_cons in IH as [_ [[H _] _]%Forall_cons]. auto. }
  intros Hwf. destruct e; cbn [children well_formed] in *; tobool; repeat (apply Forall_cons in IH as [? IH]); try discriminate Hwf;
    cbn [print level Nat.leb].
  all: pieces.
  - by apply integer_lexes.
  - destruct (operator is "not") eqn:E.
    + pose proof E as ->%bool_decide_eq_true. cbn [andb]. destruct (taken_for_in (print 11 e)) eqn:Et.
      * apply not_lexes; [pieces|by eapply shows_token|done].
      * apply not_lexes; [pieces|by apply print_shows|done].
    + apply lexes_cons; [by apply prefix_lexes|cbn [andb]; pieces].
  - destruct nodes as [|a [|b [|]]]; try discriminate Hwf. apply Forall_cons in IH as [? [? _]%Forall_cons]. tobool. pieces.
Qed.

Lemma shown_lexes e : well_formed e = true -> lex (show e) = Done (print 0 e ++ [Token.Eof]).
Proof.
  intros Hwf. assert (lexes (print 0 e)) as H by (by apply all_writable).
  assert (lexes_to [] [Token.Eof]) as H0 by (by intros [|fuel]).
  specialize (H [] [Token.Eof] H0). rewrite app_nil_r in H. apply H. done.
Qed.

Lemma shown_parses e : well_formed_expression e = true -> parse_expression (show e) = Done e.
Proof.
  intros H. pose proof H as [_ Hwf]%andb_true_iff. unfold parse_expression. rewrite shown_lexes by done. by apply parse_printed_tokens.
Qed.

(** C17. Every well-formed expression is read back from its text: the lexer and the
    parser give the tree again, so words, keywords and their prefixes, precedence,
    associativity, optional chains, slices, calls, builtins and the brackets round a
    program are read the way the printer writes them. The text is the tokens with a
    space after each; an operand is in brackets when it binds less tightly than its
    place asks for, and after [not] when its first word is one the lexer takes for
    [in] (such as [in$x], see [taken_for_in]); [not index] has none. *)
Theorem parse_printed e : well_formed_expression e = true -> parse_expression (show e) = Done e.
Proof. apply shown_parses. Qed.

(** [let re = "a"; not (re in x?.y["k"] ?? []) || -2 ** 3 ** n == all(l, {# > 1}) ? f(1)[0:2] : {a: nil}] *)
Definition sample : BetterleaksExpr :=
  VariableDeclarator (bs "re") (String (bs "a"))
    (Conditional
       (Binary (bs "||")
          (Unary (bs "not") (Binary (bs "in") (Identifier (bs "re"))
             (Binary (bs "??") (Chain (Member (Member (Identifier (bs "x")) (String (bs "y")) true false) (String (bs "k y")) false false)) (Array []))))
          (Binary (bs "==")
             (Binary (bs "**") (Unary (bs "-") (Integer 2)) (Binary (bs "**") (Integer 3) (Identifier (bs "n"))))
             (Builtin (bs "all") [Identifier (bs "l"); Predicate (Binary (bs ">") (Pointer (bs "#")) (Integer 1))])))
       (Slice (Call (Identifier (bs "f")) [Integer 1]) (Integer 0) (Integer 2))
       (Map [Pair (String (bs "a")) Nil])).

Lemma parse_printed_witness : well_formed_expression sample = true /\ parse_expression (show sample) = Done sample /\
  show (Unary (bs "not") (Identifier (bs "index"))) = bs "not index " /\
  parse_expression (bs "not index ") = Done (Unary (bs "not") (Identifier (bs "index"))) /\
  show (Unary (bs "not") (Identifier (bs "in$x"))) = bs "not ( in$x ) ".
Proof.
  split; [reflexivity|split; [apply (parse_printed sample); reflexivity|split; [reflexivity|split; [|reflexivity]]]].
  apply (parse_printed (Unary (bs "not") (Identifier (bs "index")))). reflexivity.
Defined.

(** A word that starts with [in] and a sign is an identifier after [!], but not
    after [not]. *)
Example not_in_word : parse_expression (bs "!in$x") = Done (Unary (bs "!") (Identifier (bs "in$x"))) /\
  parse_expression (bs "not in$x") = Error /\ parse_expression (bs "a not in$x") = 
    Done (Unary (bs "not") (Binary (bs "in") (Identifier (bs "a")) (Identifier (bs "$x")))).
Proof. repeat split; reflexivity. Qed.
