(* ===== verification/ExprParsed.v ===== *)
(** * What the parser of Betterleaks expressions gives

    Every source is answered with a tree or an error: the fuel of the parser is
    enough. The trees it gives are the well-formed ones, so the trees that come
    from a text are exactly those the printer writes a text for. *)

From Stdlib Require Import ZArith Lia Bool.
From stdpp Require Import base list numbers option.
From S2P Require Import Prelude Text Expr FilterValue ExprParser ExprPrinter ExprRoundtrip.

(** ** The tokens of a source *)

Definition token_ok (token : Token) : bool :=
  match token with
  | Token.Identifier value => word value
  | Token.Integer value => (0 <=? value)%Z && (value <=? I64_MAX)%Z
  | Token.Float value => float_text value
  | _ => true
  end.
Definition tokens_ok (tokens : list Token) : Prop := Forall (fun token => token_ok token = true) tokens.

Lemma span_while_all p l w rest : span_while p l = (w, rest) -> forallb p w = true /\ length rest <= length l.
Proof.
  revert w rest; induction l as [|b l IH]; intros w rest; cbn; [by intros; simplify_eq|].
  destruct (p b) eqn:E; [|by intros; simplify_eq; cbn; split; [|lia]].
  destruct (span_while p l) as [w' rest'] eqn:El. intros; simplify_eq. destruct (IH _ _ eq_refl). cbn. rewrite E. split; [done|lia].
Qed.

Lemma word_token_ok b r rest token rest' : word_start b = true -> forallb word_byte r = true ->
  word_token (b :: r) rest = (token, rest') -> token_ok token = true /\ length rest' <= length rest.
Proof.
  intros Hb Hr. unfold word_token.
  destruct ((b :: r) is "let") eqn:E1; [intros; by simplify_eq|]. destruct ((b :: r) is "true") eqn:E2; [intros; by simplify_eq|].
  destruct ((b :: r) is "false") eqn:E3; [intros; by simplify_eq|]. destruct ((b :: r) is "nil") eqn:E4; [intros; by simplify_eq|].
  destruct (one_of (b :: r) KEYWORD_OPERATORS) eqn:E5.
  - destruct ((b :: r) is "not"); [|intros; by simplify_eq].
    destruct (span_while name_byte (trim_start rest)) as [next after] eqn:Es. apply span_while_all in Es as [_ Hl].
    pose proof (length_trim_start rest). destruct (next is "in"); intros; simplify_eq; split; try done; lia.
  - intros; simplify_eq. split; [|done]. cbn [token_ok]. unfold word. rewrite Hb, Hr, E5. unfold one_of, RESERVED. cbn [existsb].
    by rewrite E1, E2, E3, E4.
Qed.

Lemma read_number_all l : forall point w rest, read_number point l = (w, rest) ->
  read_number point w = (w, []) /\ length rest <= length l /\ (existsb (Z.eqb (bc ".")) w = false -> forallb is_ascii_digit w = true).
Proof.
  induction l as [|b l IH]; intros point w rest; cbn [read_number]; [intros; by simplify_eq|].
  destruct (is_ascii_digit b) eqn:Ed.
  - destruct (read_number point l) as [w' rest'] eqn:E. intros; simplify_eq. destruct (IH _ _ _ E) as (H1 & H2 & H3).
    cbn [read_number existsb forallb length]. rewrite Ed, H1. split; [done|]. split; [lia|]. intros [_ H]%orb_false_iff. auto.
  - destruct ((b ==? bc ".") && negb (starts_with (bs "..") (b :: l)) && negb point) eqn:Ep; [|by intros; simplify_eq].
    destruct (read_number true l) as [w' rest'] eqn:E. intros; simplify_eq. destruct (IH _ _ _ E) as (H1 & H2 & H3).
    tobool. subst b. cbn [read_number existsb forallb length]. rewrite Ed, H1, Z.eqb_refl. split; [|split; [lia|done]].
    assert (starts_with (bs "..") (bc "." :: w') = false) as ->.
    { match goal with H : starts_with _ _ = false |- _ => rename H into Hs end.
      destruct w' as [|c w']; [done|]. destruct l as [|c' l]; [cbn in E; by simplify_eq|].
      cbn [read_number] in E. assert (c = c') as ->; [|done].
      destruct (is_ascii_digit c'); [destruct (read_number true l); by simplify_eq|]. by rewrite andb_false_r in E. }
    by destruct point.
Qed.

Lemma read_string_shorter delimiter n : forall l s rest, length l <= n -> read_string delimiter l = Some (s, rest) -> length rest < length l.
Proof.
  induction n as [|n IH]; intros [|b l] s rest Hn; cbn [length] in Hn; try done; try lia.
  cbn [read_string]. destruct (b ==? delimiter); [intros; simplify_eq; cbn; lia|].
  destruct (negb (b ==? 92) || (delimiter ==? 96)).
  - destruct (read_string delimiter l) as [[s' rest']|] eqn:E; cbn; intros; simplify_eq. apply IH in E; [|lia]. lia.
  - destruct l as [|c l]; [done|]. cbn [length] in Hn. destruct (c ==? bc "u").
    + destruct l as [|d1 [|d2 [|d3 [|d4 l]]]]; try done. cbn [length] in Hn.
      destruct (hex_value d1); [|done]. destruct (hex_value d2); [|done]. destruct (hex_value d3); [|done]. destruct (hex_value d4); [|done]. cbn.
      destruct (encode_char _); [|done]. cbn. destruct (read_string delimiter l) as [[s' rest']|] eqn:E; cbn; intros; simplify_eq.
      apply IH in E; [|lia]. lia.
    + destruct (escape c); [|done]. cbn. destruct (read_string delimiter l) as [[s' rest']|] eqn:E; cbn; intros; simplify_eq.
      apply IH in E; [|lia]. lia.
Qed.

Lemma parse_nat_nonneg l : forall acc n, (0 <= acc)%Z -> parse_nat acc l = Some n -> (0 <= n)%Z.
Proof.
  induction l as [|b l IH]; intros acc n Ha; cbn [parse_nat]; [by intros; simplify_eq|].
  destruct (is_ascii_digit b) eqn:E; [|done]. apply IH. unfold is_ascii_digit in E. tobool. lia.
Qed.

Lemma parse_i64_range b w n : is_ascii_digit b = true -> parse_i64 (b :: w) = Some n -> (0 <= n <= I64_MAX)%Z.
Proof.
  intros Hb. unfold parse_i64. destruct (b ==? bc "+") eqn:E1; [tobool; by subst|]. destruct (b ==? bc "-") eqn:E2; [tobool; by subst|].
  destruct (parse_nat 0 (b :: w)) as [v|] eqn:E; [|done]. apply parse_nat_nonneg in E; [|done].
  destruct (i64_ok (1 * v)) eqn:Eo; [|done]. intros; simplify_eq. unfold i64_ok in Eo. tobool. unfold I64_MAX in *. lia.
Qed.

Lemma read_token_ok ch rest token rest' : read_token ch rest = Some (token, rest') -> token_ok token = true /\ length rest' <= length rest.
Proof.
  assert (forall b, next_is b rest = true -> length (tail rest) <= length rest) as Htail by (destruct rest; cbn; lia).
  destruct (is_ascii_digit ch) eqn:Ed.
  { rewrite read_digit by done. destruct (read_number false rest) as [w rest1] eqn:En. apply read_number_all in En as (H1 & H2 & H3). cbn zeta.
    destruct (existsb _ (ch :: w)) eqn:Ex.
    - intros; simplify_eq. split; [|lia]. cbn [token_ok float_text]. rewrite Ed, bool_decide_true by done.
      cbn [existsb] in Ex. destruct (bc "." ==? ch) eqn:Ec; [tobool; by subst|]. cbn [orb] in Ex. by rewrite Ex.
    - destruct (parse_i64 (ch :: w)) as [n|] eqn:Ep; [|done]. cbn. intros; simplify_eq. split; [|done].
      apply parse_i64_range in Ep; [|done]. cbn. apply andb_true_iff. rewrite !Z.leb_le. unfold I64_MAX in *. lia. }
  destruct (word_start ch) eqn:Ew.
  { rewrite read_word by done. destruct (span_while word_byte rest) as [w rest1] eqn:Es. apply span_while_all in Es as [H1 H2].
    intros H. simplify_eq. apply word_token_ok in H as [H3 H4]; [split; [done|lia]|done|done]. }
  unfold read_token. rewrite Ed, Ew.
  repeat match goal with |- context [if ?c then _ else _] => lazymatch c with (ch ==? 34) || _ || _ => fail | _ => destruct c eqn:? end end;
    try (intros; simplify_eq; by split; [|first [lia|eapply Htail]]).
  all: destruct ((ch ==? 34) || (ch ==? 39) || (ch ==? 96));
    [destruct (read_string ch rest) as [[s r]|] eqn:Es; cbn; [|done]; apply read_string_shorter with (n := length rest) in Es; [|done];
     intros; simplify_eq; split; [done|lia]|].
  all: try (intros; simplify_eq; by split; [|first [lia|destruct rest; cbn; lia]]).
  destruct rest as [|next after]; [intros; by simplify_eq|]. destruct (doubled ch next); intros; simplify_eq; (split; [done|cbn; lia]).
Qed.

Lemma skip_line_shorter l : length (skip_line l) <= length l.
Proof. induction l as [|b l IH]; cbn; [done|]. destruct (b ==? 10); lia. Qed.

(** The lexer answers, with tokens of the right form. *)
Lemma lex_loop_ok fuel : forall l, length l <= fuel ->
  match lex_loop fuel l with Done tokens => tokens_ok tokens | Error => True | Starved => False end.
Proof.
  induction fuel as [|fuel IH]; intros [|ch rest] Hl; cbn [length] in Hl; try lia; cbn [lex_loop]; try (by repeat constructor).
  destruct (ws_char_len (ch :: rest)) as [|n].
  - destruct ((ch ==? bc "/") && next_is (bc "/") rest).
    + apply IH. pose proof (skip_line_shorter rest). lia.
    + destruct (read_token ch rest) as [[token rest']|] eqn:Er; [|done]. apply read_token_ok in Er as [Ht Hr].
      specialize (IH rest' ltac:(lia)). destruct (lex_loop fuel rest'); [|done|done]. by constructor.
  - apply IH. cbn [drop]. rewrite length_drop. lia.
Qed.

(** ** What a reading guarantees

    [reads m Q tokens]: [m] gives a value and tokens with [Q], or an error; it does
    not run out of fuel. *)

Definition reads {A} (m : Parser A) (Q : A -> list Token -> Prop) (tokens : list Token) : Prop :=
  match m tokens with Done (x, rest) => Q x rest | Error => True | Starved => False end.

Section reads.
Context {A B : Type}.

Lemma reads_ret (x : A) (Q : A -> list Token -> Prop) tokens : Q x tokens -> reads (mret x) Q tokens.
Proof. done. Qed.

Lemma reads_fails (Q : A -> list Token -> Prop) tokens : reads fails Q tokens.
Proof. done. Qed.

Lemma reads_bind (m : Parser A) (k : A -> Parser B) (P : A -> list Token -> Prop) Q tokens : reads m P tokens ->
  (forall x rest, P x rest -> reads (k x) Q rest) -> reads (m ≫= k) Q tokens.
Proof.
  intros Hm Hk. unfold reads in *. cbv [mbind Parser_bind]. destruct (m tokens) as [[x rest]| |]; [|done|done]. exact (Hk x rest Hm).
Qed.

Lemma reads_mono (m : Parser A) (P Q : A -> list Token -> Prop) tokens : reads m P tokens -> (forall x rest, P x rest -> Q x rest) -> reads m Q tokens.
Proof. unfold reads. destruct (m tokens) as [[x rest]| |]; auto. Qed.

Lemma reads_peek (k : Token -> Parser A) Q tokens : reads (k (head_token tokens)) Q tokens -> reads (peek ≫= k) Q tokens.
Proof. done. Qed.

Lemma reads_second (k : option Token -> Parser A) Q tokens : reads (k (tokens !! 1)) Q tokens -> reads (peek_second ≫= k) Q tokens.
Proof. done. Qed.

Lemma reads_advance (k : Token -> Parser A) Q tokens : reads (k (head_token tokens)) Q (tail tokens) -> reads (advance ≫= k) Q tokens.
Proof. done. Qed.

Lemma reads_expect token (k : unit -> Parser A) Q tokens : (head_token tokens = token -> reads (k tt) Q (tail tokens)) -> reads (expect token ≫= k) Q tokens.
Proof.
  intros H. unfold reads, expect, mbind, Parser_bind, advance in *. destruct (decide (head_token tokens = token)); [by apply H|done].
Qed.

Lemma reads_operator (k : unit -> Parser A) Q tokens : reads (k tt) Q (tail tokens) -> reads (expect_operator "=" ≫= k) Q tokens.
Proof.
  intros H. unfold reads, expect_operator, mbind, Parser_bind, advance in *. destruct (head_token tokens); try done.
  by destruct (value is "=").
Qed.
End reads.

Lemma tokens_ok_tail tokens : tokens_ok tokens -> tokens_ok (tail tokens).
Proof. unfold tokens_ok. by destruct 1; [constructor|]. Qed.

Lemma tokens_ok_head tokens : tokens_ok tokens -> token_ok (head_token tokens) = true.
Proof. intros H. by destruct H. Qed.

Lemma reads_identifier {A} (k : bytes -> Parser A) Q tokens : tokens_ok tokens ->
  (forall name, word name = true -> reads (k name) Q (tail tokens)) -> reads (take_identifier ≫= k) Q tokens.
Proof.
  intros Hok H. apply tokens_ok_head in Hok. unfold reads, take_identifier, mbind, Parser_bind, advance in *.
  destruct (head_token tokens); try done. by apply H.
Qed.

Lemma reads_member_name {A} (k : bytes -> Parser A) Q tokens : (forall name, reads (k name) Q (tail tokens)) -> reads (take_member_name ≫= k) Q tokens.
Proof.
  intros H. unfold reads, take_member_name, mbind, Parser_bind, advance in *.
  destruct (head_token tokens); try done; (destruct (forallb name_byte value); [apply H|done]).
Qed.

Lemma reads_map_key {A} (k : bytes -> Parser A) Q tokens : (forall name, tokens <> [] -> reads (k name) Q (tail tokens)) -> reads (map_key ≫= k) Q tokens.
Proof.
  intros H. unfold reads, map_key, mbind, Parser_bind, advance in *.
  destruct tokens as [|token tokens]; [done|]. cbn [tail] in *. rewrite head_cons. destruct token; try done; by apply H.
Qed.

(** ** The readings *)

Definition wf (e : BetterleaksExpr) : Prop := well_formed_expression e = true.

(** Tokens that are left, at most or less than before, and a result. *)
Definition within {A} (n : nat) (P : A -> Prop) (x : A) (rest : list Token) : Prop := length rest <= n /\ tokens_ok rest /\ P x.

Definition below {A} (n : nat) (P : A -> Prop) (x : A) (rest : list Token) : Prop := length rest < n /\ tokens_ok rest /\ P x.

Definition all_wf (nodes : list BetterleaksExpr) : Prop := forallb (fun e => whole e && well_formed e) nodes = true.
Definition pairs_wf (pairs : list BetterleaksExpr) : Prop := well_formed (Map pairs) = true.

Record guarantees (fuel : nat) : Prop := {
  for_program : forall terminator tokens, tokens_ok tokens -> 8 * length tokens + 4 <= fuel ->
    reads (parse_program fuel terminator) (below (length tokens) wf) tokens;
  for_expr : forall m tokens, tokens_ok tokens -> 8 * length tokens + 3 <= fuel ->
    reads (parse_expr fuel m) (below (length tokens) wf) tokens;
  for_binary : forall m left tokens, tokens_ok tokens -> 8 * length tokens + 1 <= fuel -> wf left ->
    reads (parse_binary fuel m left) (within (length tokens) wf) tokens;
  for_prefix : forall tokens, tokens_ok tokens -> 8 * length tokens + 2 <= fuel ->
    reads (parse_prefix fuel) (below (length tokens) wf) tokens;
  for_primary : forall tokens, tokens_ok tokens -> 8 * length tokens + 1 <= fuel ->
    reads (parse_primary fuel) (below (length tokens) wf) tokens;
  for_postfix : forall node tokens, tokens_ok tokens -> 8 * length tokens + 2 <= fuel -> receiver node = true -> well_formed node = true ->
    reads (parse_postfix fuel (optional_receiver node) node) (within (length tokens) wf) tokens;
  for_slice_end : forall tokens, tokens_ok tokens -> 8 * length tokens + 4 <= fuel ->
    reads (parse_slice_end fuel) (within (length tokens) wf) tokens;
  for_arguments : forall tokens, tokens_ok tokens -> 8 * length tokens + 1 <= fuel -> tokens <> [] ->
    reads (parse_arguments fuel) (below (length tokens) all_wf) tokens;
  for_items : forall closing tokens, tokens_ok tokens -> 8 * length tokens + 4 <= fuel ->
    reads (parse_items fuel closing) (within (length tokens) all_wf) tokens;
  for_braced : forall tokens, tokens_ok tokens -> 8 * length tokens + 5 <= fuel ->
    reads (parse_braced fuel) (within (length tokens) wf) tokens;
  for_pairs : forall tokens, tokens_ok tokens -> 8 * length tokens + 2 <= fuel ->
    reads (parse_pairs fuel) (within (length tokens) pairs_wf) tokens;
}.

Lemma length_tail {A} (l : list A) : length (tail l) = pred (length l).
Proof. by destruct l. Qed.

Lemma head_counts tokens token : head_token tokens = token -> token <> Token.Eof -> 1 <= length tokens.
Proof. destruct tokens; cbn; [congruence|lia]. Qed.

Ltac ok := repeat apply tokens_ok_tail; assumption.
Ltac fuel := rewrite ?length_tail in *; lia.
Ltac counts := match goal with H : head_token _ = _ |- _ => apply head_counts in H; [rewrite ?length_tail in H|discriminate] end.
Ltac call H := eapply reads_bind; [apply H; [ok|fuel|..]|intros ? ? (? & ? & ?)].
Ltac result := apply reads_ret; (split; [fuel|split; [ok|]]).

Lemma wf_spec e : wf e <-> whole e = true /\ well_formed e = true.
Proof. unfold wf, well_formed_expression. apply andb_true_iff. Qed.

Ltac wf_done := rewrite ?wf_spec in *; destruct_and?; split_and?; cbn; rewrite ?andb_true_iff; split_and?; done.

Section step.
Context (fuel : nat) (IH : guarantees fuel).

Lemma step_program terminator tokens : tokens_ok tokens -> 8 * length tokens + 4 <= S fuel ->
  reads (parse_program (S fuel) terminator) (below (length tokens) wf) tokens.
Proof using IH.
  intros Hok Hf. cbn [parse_program]. apply reads_peek. destruct (decide (head_token tokens = Token.Let)) as [Hh|_].
  - counts. apply reads_advance, reads_identifier; [ok|]. intros name Hname. apply reads_operator.
    call (for_expr fuel IH). apply reads_expect. intros ?. counts. call (for_program fuel IH). result.
    wf_done.
  - call (for_expr fuel IH). apply reads_peek. destruct (decide (head_token rest = Token.Semicolon)) as [Hh|_].
    + counts. apply reads_advance. call (for_program fuel IH). result. wf_done.
    + apply reads_expect. intros _. by result.
Qed.

Lemma step_expr m tokens : tokens_ok tokens -> 8 * length tokens + 3 <= S fuel ->
  reads (parse_expr (S fuel) m) (below (length tokens) wf) tokens.
Proof using IH.
  intros Hok Hf. cbn [parse_expr]. call (for_prefix fuel IH).
  eapply reads_mono; [apply (for_binary fuel IH); [ok|fuel|done]|]. intros e rest' (? & ? & ?). split; [fuel|done].
Qed.

Lemma binary_node_wf operator p lhs rhs : binary_precedence operator = Some p -> wf lhs -> wf rhs -> wf (binary_node operator lhs rhs).
Proof using.
  rewrite !wf_spec. intros Hp [H1 H2] [H3 H4]. unfold binary_node. destruct (operator is "not in") eqn:E; cbn.
  - by rewrite H1, H2, H3, H4.
  - unfold operator_ok. by rewrite H1, H2, H3, H4, Hp, E.
Qed.

Lemma step_binary m left tokens : tokens_ok tokens -> 8 * length tokens + 1 <= S fuel -> wf left ->
  reads (parse_binary (S fuel) m left) (within (length tokens) wf) tokens.
Proof using IH.
  intros Hok Hf Hw. cbn [parse_binary]. apply reads_peek.
  destruct (head_token tokens) as [| | | | | | | | | | | | | | | | | | |operator|] eqn:Hh; try (by result).
  - destruct (m =? 0); [|by result]. counts. apply reads_advance. call (for_expr fuel IH). apply reads_expect. intros _.
    call (for_expr fuel IH). eapply reads_mono; [apply (for_binary fuel IH); [ok|fuel|]|].
    + wf_done.
    + intros e rest' (? & ? & ?). split; [fuel|done].
  - counts. destruct (operator is "="); [by result|]. destruct (binary_precedence operator) as [[p r]|] eqn:Ep; [|by result].
    destruct (p <? m); [by result|]. apply reads_advance. call (for_expr fuel IH).
    eapply reads_mono; [apply (for_binary fuel IH); [ok|fuel|by eapply binary_node_wf]|].
    intros e rest' (? & ? & ?). split; [fuel|done].
Qed.

Lemma wf_receiver e : wf e -> receiver e = true /\ well_formed e = true /\ optional_receiver e = false.
Proof using. rewrite wf_spec. unfold whole. intros [H ?]. by tobool. Qed.

(** The loop goes on with the node it has built. *)
Lemma goes_on chain node n tokens : tokens_ok tokens -> 8 * length tokens + 2 <= fuel -> length tokens <= n ->
  chain = optional_receiver node -> receiver node = true -> well_formed node = true ->
  reads (parse_postfix fuel chain node) (within n wf) tokens.
Proof using IH.
  intros Hok Hf Hn -> Hr Hw. eapply reads_mono; [by apply (for_postfix fuel IH)|]. intros e rest' (? & ? & ?). split; [lia|done].
Qed.

Lemma step_prefix tokens : tokens_ok tokens -> 8 * length tokens + 2 <= S fuel ->
  reads (parse_prefix (S fuel)) (below (length tokens) wf) tokens.
Proof using IH.
  intros Hok Hf. cbn [parse_prefix]. apply reads_peek.
  assert (reads (primary ← parse_primary fuel; parse_postfix fuel false primary) (below (length tokens) wf) tokens) as Hp.
  { call (for_primary fuel IH). destruct (wf_receiver x ltac:(done)) as (? & ? & ?). 
    eapply reads_mono; [apply (goes_on _ _ (length rest)); first [done|fuel|congruence]|]. intros e rest' (? & ? & ?). split; [lia|done]. }
  destruct (head_token tokens) as [| | | | | | | | | | | | | | | | | | |operator|] eqn:Hh; try exact Hp.
  destruct (prefix_operator operator) eqn:Eo; [|exact Hp]. counts. apply reads_advance. call (for_prefix fuel IH). result. wf_done.
Qed.

Lemma step_primary tokens : tokens_ok tokens -> 8 * length tokens + 1 <= S fuel ->
  reads (parse_primary (S fuel)) (below (length tokens) wf) tokens.
Proof using IH.
  intros Hok Hf. cbn [parse_primary]. apply reads_advance. pose proof (tokens_ok_head _ Hok) as Ht.
  destruct (head_token tokens) eqn:Hh; cbn [literal token_ok] in *; try apply reads_fails;
    try (counts; result; try done; unfold wf, well_formed_expression; cbn; by rewrite ?Ht).
  - counts. result. unfold wf, well_formed_expression. destruct (value is "#") eqn:E; cbn [well_formed]; by rewrite E, ?Ht.
  - counts. eapply reads_mono; [apply (for_program fuel IH); [ok|fuel]|]. intros e rest' (? & ? & ?). split; [fuel|done].
  - counts. call (for_items fuel IH). result. done.
  - counts. eapply reads_mono; [apply (for_braced fuel IH); [ok|fuel]|]. intros e rest' (? & ? & ?). split; [fuel|done].
Qed.

Lemma step_slice_end tokens : tokens_ok tokens -> 8 * length tokens + 4 <= S fuel ->
  reads (parse_slice_end (S fuel)) (within (length tokens) wf) tokens.
Proof using IH.
  intros Hok Hf. cbn [parse_slice_end]. apply reads_peek. eapply reads_bind with (P := within (length tokens) wf).
  - destruct (decide _); [by result|]. eapply reads_mono; [apply (for_expr fuel IH); [ok|fuel]|]. intros e rest' (? & ? & ?). split; [lia|done].
  - intros e rest' (? & ? & ?). apply reads_expect. intros _. by result.
Qed.

Lemma step_arguments tokens : tokens_ok tokens -> 8 * length tokens + 1 <= S fuel -> tokens <> [] ->
  reads (parse_arguments (S fuel)) (below (length tokens) all_wf) tokens.
Proof using IH.
  intros Hok Hf Hne. cbn [parse_arguments]. apply reads_expect. intros Hh. counts.
  eapply reads_mono; [apply (for_items fuel IH); [ok|fuel]|]. intros e rest' (? & ? & ?). split; [fuel|done].
Qed.

Lemma step_items closing tokens : tokens_ok tokens -> 8 * length tokens + 4 <= S fuel ->
  reads (parse_items (S fuel) closing) (within (length tokens) all_wf) tokens.
Proof using IH.
  intros Hok Hf. cbn [parse_items]. apply reads_peek. destruct (decide (head_token tokens = closing)) as [Hc|_]; [apply reads_expect; intros _; by result|].
  call (for_expr fuel IH). apply reads_peek. destruct (decide (head_token rest = Token.Comma)) as [Hh|_].
  - counts. apply reads_advance. call (for_items fuel IH). result. unfold all_wf in *. cbn. rewrite wf_spec in *. wf_done.
  - apply reads_expect. intros _. result. unfold all_wf. cbn. wf_done.
Qed.

Lemma call_node_wf node arguments : receiver node = true -> well_formed node = true -> all_wf arguments ->
  receiver (call_node node arguments) = true /\ well_formed (call_node node arguments) = true /\
  optional_receiver (call_node node arguments) = optional_receiver node.
Proof using.
  unfold all_wf, receiver. intros H1 H2 H3. destruct node; cbn [call_node]; try discriminate H1.
  2: destruct (one_of value BUILTIN_CALLS) eqn:E.
  all: cbn [well_formed callee_ok is_method is_pair optional_receiver negb andb] in *; rewrite H3, ?E, ?H2; by repeat split.
Qed.

Lemma step_postfix node tokens : tokens_ok tokens -> 8 * length tokens + 2 <= S fuel -> receiver node = true -> well_formed node = true ->
  reads (parse_postfix (S fuel) (optional_receiver node) node) (within (length tokens) wf) tokens.
Proof using IH.
  intros Hok Hf Hr Hw. cbn [parse_postfix]. apply reads_peek.
  destruct (head_token tokens) eqn:Hh;
    try (result; rewrite wf_spec; unfold whole; destruct (optional_receiver node) eqn:Eo; cbn; by rewrite ?Eo, ?Hr, ?Hw).
  all: counts.
  - call (for_arguments fuel IH); [by intros ->; cbn in *; lia|]. destruct (call_node_wf node x) as (? & ? & ?); [done..|]. 
    apply goes_on; first [done|fuel].
  - apply reads_advance, reads_peek. destruct (decide (head_token (tail tokens) = Token.Colon)) as [Hc|_].
    + counts. apply reads_advance. call (for_slice_end fuel IH). apply goes_on; try done; try fuel. wf_done.
    + call (for_expr fuel IH). apply reads_peek. destruct (decide (head_token rest = Token.Colon)) as [Hc|_].
      * counts. apply reads_advance. call (for_slice_end fuel IH). apply goes_on; try done; try fuel. wf_done.
      * apply reads_expect. intros _. apply goes_on; try ok; try done; try fuel. wf_done.
  - rewrite bool_decide_false by done. apply reads_advance, reads_peek. cbn [andb]. apply reads_member_name. intros name.
    apply goes_on; try ok; try done; try fuel; [by rewrite orb_false_r|]. cbn. by rewrite Hr, Hw.
  - rewrite bool_decide_true by done. apply reads_advance, reads_peek. cbn [andb]. rewrite orb_true_r.
    destruct (bool_decide (head_token (tail tokens) = Token.LBracket)).
    + apply reads_advance. call (for_expr fuel IH). apply reads_expect. intros _. apply goes_on; try ok; try done; try fuel. wf_done.
    + apply reads_member_name. intros name. apply goes_on; try ok; try done; try fuel. cbn. by rewrite Hr, Hw.
Qed.

Lemma step_braced tokens : tokens_ok tokens -> 8 * length tokens + 5 <= S fuel ->
  reads (parse_braced (S fuel)) (within (length tokens) wf) tokens.
Proof using IH.
  intros Hok Hf. cbn [parse_braced]. apply reads_peek. destruct (decide (head_token tokens = Token.RBrace)) as [Hh|_]; [apply reads_advance; by result|].
  apply reads_second. destruct (starts_map _ _).
  - call (for_pairs fuel IH). by result.
  - call (for_program fuel IH). result. wf_done.
Qed.

Lemma step_pairs tokens : tokens_ok tokens -> 8 * length tokens + 2 <= S fuel ->
  reads (parse_pairs (S fuel)) (within (length tokens) pairs_wf) tokens.
Proof using IH.
  intros Hok Hf. cbn [parse_pairs]. apply reads_peek. destruct (decide (head_token tokens = Token.RBrace)) as [Hc|_]; [apply reads_expect; intros _; by result|].
  apply reads_map_key. intros key Hne. assert (1 <= length tokens) by (destruct tokens; cbn; [done|lia]).
  apply reads_expect. intros ?. counts. call (for_expr fuel IH). apply reads_peek. destruct (decide (head_token rest = Token.Comma)) as [Hh|_].
  - counts. apply reads_advance. call (for_pairs fuel IH). result. unfold pairs_wf in *. cbn in *. wf_done.
  - apply reads_expect. intros _. result. unfold pairs_wf. cbn. wf_done.
Qed.
End step.

Lemma all_guarantees fuel : guarantees fuel.
Proof.
  induction fuel as [|fuel IH]; [split; intros; lia|].
  split; intros; [by apply step_program|by apply step_expr|by apply step_binary|by apply step_prefix|by apply step_primary|by apply step_postfix
    |by apply step_slice_end|by apply step_arguments|by apply step_items|by apply step_braced|by apply step_pairs].
Qed.

(** What the parser gives for a source. *)
Lemma parse_expression_ok source :
  match parse_expression source with Done e => wf e | Error => True | Starved => False end.
Proof.
  unfold parse_expression, lex. pose proof (lex_loop_ok (length source) source ltac:(done)) as Hlex.
  destruct (lex_loop _ _) as [tokens| |]; [|done|done]. unfold parse_tokens.
  pose proof (for_program _ (all_guarantees (8 * S (length tokens))) Token.Eof tokens Hlex ltac:(lia)) as H. unfold reads in H.
  destruct (parse_program _ _ _) as [[e rest]| |]; [|done|done]. by destruct H as (_ & _ & H).
Qed.

(** The parser answers every source, with a tree or an error: the fuel, eight
    times the number of tokens and of [Eof], is enough for every loop and every
    level of nesting, whatever the bytes of the source. *)
Theorem parse_expression_terminates source : parse_expression source <> Starved.
Proof. intros E. pose proof (parse_expression_ok source) as H. by rewrite E in H. Qed.

(** C18. The trees that come from a text are the well-formed ones, and no others:
    identifiers are words that are no keywords, operators are those of the
    language and [not in] is [not] of [in], a member is a method exactly where it
    is called, an optional member is below a chain and a chain holds one, builtins
    are called by their names only, a sequence has two nodes, pairs are in maps,
    integers are not negative. *)
Theorem parsed_expressions e : (exists source, parse_expression source = Done e) <-> well_formed_expression e = true.
Proof.
  split; [|intros H; exists (show e); by apply shown_parses].
  intros [source E]. pose proof (parse_expression_ok source) as H. by rewrite E in H.
Qed.
