(* ===== verification/Requirements.v ===== *)
(** * What a match must satisfy: [kingfisher-rules/src/rule.rs]
      ([PatternRequirements], [Rule::matches_keywords], [Rule::matches_path]),
      the checks of [kingfisher-scanner/src/primitives.rs],
      [kingfisher-core/src/entropy.rs] and [src/safe_list.rs]

    The tests a captured text passes or fails by itself, before the filters and
    the bookkeeping of [MatchFilter]. Regexes, the Liquid templates and the URI
    parsers are parameters, [f32] is an interface. *)

From Stdlib Require Import ZArith Lia Bool.
From stdpp Require Import base list numbers option gmap.
From S2P Require Import Prelude Text Rule Location Spans Expr FilterValue.

#[export] Instance Confidence_eq_dec : EqDecision Confidence.
Proof. solve_decision. Defined.

(** ** Shannon entropy *)

Class F32 := {
  f32 : Type;
  f32_zero : f32;
  f32_of_int : Z -> f32;
  f32_div : f32 -> f32 -> f32;
  f32_mul : f32 -> f32 -> f32;
  f32_sub : f32 -> f32 -> f32;
  f32_log2 : f32 -> f32;
  f32_le : f32 -> f32 -> bool
}.

Section entropy.
Context {F : F32}.

(** The counters are [u32]. *)
Definition byte_counts (l : bytes) : list Z :=
  map (fun b => Z.of_nat (length (List.filter (Z.eqb (Z.of_nat b)) l)) mod U32_MOD)%Z (seq 0 256).

Definition calculate_shannon_entropy (l : bytes) : f32 :=
  match l with
  | [] => f32_zero
  | _ =>
    let total_bytes := f32_of_int (Z.of_nat (length l)) in
    fold_left (fun entropy count =>
      let probability := f32_div (f32_of_int count) total_bytes in
      f32_sub entropy (f32_mul probability (f32_log2 probability)))
      (List.filter (fun count => 0 <? count)%Z (byte_counts l)) f32_zero
  end.
End entropy.

(** ** Captures *)

(** The name of every group with a name, in order; group 0 has none. *)
Definition capture_names (c : Captures) : list bytes := omap fst (groups c).

(** [captures.name(name)] *)
Definition capture_by_name (c : Captures) (name : bytes) : option OffsetSpan :=
  find_map (fun '(n, m) => match n with Some n => if bytes_eqb n name then m else None | None => None end) (groups c).

(** [as_bytes] of a match in the haystack it was found in. *)
Definition span_bytes (haystack : bytes) (s : OffsetSpan) : bytes := slice haystack (span_start s) (span_end s).

Definition to_ascii_uppercase (l : bytes) : bytes := map (fun b => if is_ascii_lower b then (b - 32)%Z else b) l.

(** ** Pattern requirements *)

Record ChecksumActual := { template : bytes; requires_capture : option bytes }.
Record ChecksumRequirement := { checksum_actual : ChecksumActual; expected : bytes; skip_if_missing : bool }.

Record PatternRequirements := {
  min_digits : option nat;
  min_uppercase : option nat;
  min_lowercase : option nat;
  min_special_chars : option nat;
  special_chars : option bytes;
  ignore_if_contains : option (list bytes);
  checksum : option ChecksumRequirement
}.

(** The captures of a match and the haystack they lie in. *)
Record PatternRequirementContext := { context_captures : Captures; context_haystack : bytes; context_full_match : bytes }.

Inductive PatternValidationResult :=
  | Passed
  | Failed
  | FailedChecksum (actual_len expected_len : nat)
  | IgnoredBySubstring (matched_term : bytes).

(** The quote and the backslash are written as numbers. *)
Definition DEFAULT_SPECIAL_CHARS : bytes :=
  bs "!@#$%^&*()_+-=[]{}|;:'" ++ [34%Z] ++ bs ",.<>?/" ++ [92%Z] ++ bs "`~".

Definition count_chars (p : bytes -> bool) (s : bytes) : nat := length (List.filter p (chars s)).
Definition ascii_char (p : byte -> bool) (c : bytes) : bool := match c with [b] => p b | _ => false end.
Definition short_of (minimum : option nat) (p : bytes -> bool) (s : bytes) : bool :=
  match minimum with Some n => count_chars p s <? n | None => false end.

Section requirements.
Context {F : F64} {Lib : Library}.
(** [render_pattern_requirement_template]: the text, or an error. *)
Context (render : bytes -> gmap bytes bytes -> option bytes).

(** The first term that the text contains, both in lower case. *)
Definition ignored_term (terms : list bytes) (s : bytes) : option bytes :=
  let lowercase_input := to_lowercase s in
  find_map (fun term =>
    let trimmed := trim term in
    if non_empty trimmed && contains_sub (to_lowercase trimmed) lowercase_input then Some trimmed else None) terms.

(** The variables of the checksum templates: each named capture under its name and
    its name in upper case. *)
Definition template_globals (s : bytes) (ctx : PatternRequirementContext) : gmap bytes bytes :=
  fold_left (fun globals name =>
    match capture_by_name (context_captures ctx) name with
    | Some capture =>
      let value := from_utf8_lossy (span_bytes (context_haystack ctx) capture) in
      <[to_ascii_uppercase name := value]> (<[name := value]> globals)
    | None => globals
    end) (capture_names (context_captures ctx))
    (<[bs "FULL_MATCH" := from_utf8_lossy (context_full_match ctx)]> (<[bs "MATCH" := s]> ∅)).

Definition missing (c : ChecksumRequirement) : PatternValidationResult := if skip_if_missing c then Passed else Failed.

Definition validate_checksum (c : ChecksumRequirement) (s : bytes) (context : option PatternRequirementContext)
    : PatternValidationResult :=
  match context with
  | None => missing c
  | Some ctx =>
    if match requires_capture (checksum_actual c) with
       | Some required => match capture_by_name (context_captures ctx) required with None => true | Some _ => false end
       | None => false
       end
    then missing c
    else
      let globals := template_globals s ctx in
      match render (template (checksum_actual c)) globals with
      | None => Failed
      | Some actual =>
        match render (expected c) globals with
        | None => Failed
        | Some wanted =>
          if bytes_eqb actual wanted then Passed else FailedChecksum (length (chars actual)) (length (chars wanted))
        end
      end
  end.

Definition validate (r : PatternRequirements) (input : bytes) (context : option PatternRequirementContext)
    (respect_ignore_if_contains : bool) : PatternValidationResult :=
  let s := from_utf8_lossy input in
  if short_of (min_digits r) (ascii_char is_ascii_digit) s then Failed
  else if short_of (min_uppercase r) (ascii_char is_ascii_upper) s then Failed
  else if short_of (min_lowercase r) (ascii_char is_ascii_lower) s then Failed
  else if short_of (min_special_chars r)
    (fun c => existsb (bytes_eqb c) (chars (default DEFAULT_SPECIAL_CHARS (special_chars r)))) s then Failed
  else
    match (if respect_ignore_if_contains : bool then terms ← ignore_if_contains r; ignored_term terms s else None) with
    | Some matched_term => IgnoredBySubstring matched_term
    | None => match checksum r with None => Passed | Some c => validate_checksum c s context end
    end.
End requirements.

(** ** The rule of a scan *)

(** The fields of [Rule] and [RuleSyntax] that matching reads besides those of
    [Rule.Rule]. *)
Record ScanRule `{F32} := {
  base : Rule;
  name : bytes;
  path : option bytes;
  keywords : list bytes;
  min_entropy : f32;
  confidence : Confidence;
  pattern_requirements : option PatternRequirements;
  betterleaks_filter : option BetterleaksExpr;
  betterleaks_secret_group : option nat;
  betterleaks_path_only : bool
}.

Section rule.
Context {F : F32} {F6 : F64} {Lib : Library}.
(** [Regex::new] of a path pattern, and the regex of the escaped ASCII keywords,
    which ignores case. *)
Context (path_regex_new : bytes -> option (bytes -> bool)) (keyword_regex_new : list bytes -> option (bytes -> bool)).

(** [path_regex]: the pattern the regex was compiled from, once it was. *)
Abbreviation PathCell := (option (bytes * option (bytes -> bool))).

Definition syntax_matches_path (r : ScanRule) (p : bytes) : bool :=
  match path r with
  | None => true
  | Some pattern => match path_regex_new pattern with Some is_match => is_match p | None => false end
  end.

Definition matches_path (r : ScanRule) (cell : PathCell) (p : bytes) : bool * PathCell :=
  match path r with
  | None => (true, cell)
  | Some pattern =>
    let '(cached_pattern, regex) := default (pattern, path_regex_new pattern) cell in
    (if bytes_eqb cached_pattern pattern then match regex with Some is_match => is_match p | None => false end
     else syntax_matches_path r p, Some (cached_pattern, regex))
  end.

(** [bytes.windows(n).any(..)] *)
Fixpoint contains_ignore_ascii_case (keyword l : bytes) : bool :=
  eq_ignore_ascii_case (take (length keyword) l) keyword || match l with [] => false | _ :: r => contains_ignore_ascii_case keyword r end.

Definition contains_lowercase (keyword l : bytes) : bool :=
  contains_sub (to_lowercase keyword) (to_lowercase (from_utf8_lossy l)).

Definition matches_keywords_uncached (r : ScanRule) (l : bytes) : bool :=
  match keywords r with
  | [] => true
  | keywords =>
    existsb (fun keyword =>
      match keyword with
      | [] => true
      | _ => if is_ascii keyword then contains_ignore_ascii_case keyword l else contains_lowercase keyword l
      end) keywords
  end.

(** [keyword_regex]: the keywords the regex was compiled from, once it was. *)
Abbreviation KeywordCell := (option (list bytes * option (bytes -> bool))).

Definition compile_keywords (keywords : list bytes) : list bytes * option (bytes -> bool) :=
  (keywords, match List.filter is_ascii keywords with [] => None | patterns => keyword_regex_new patterns end).

Definition matches_keywords (r : ScanRule) (cell : KeywordCell) (l : bytes) : bool * KeywordCell :=
  if (length l <=? 256) || match keywords r with [] => true | _ => false end then (matches_keywords_uncached r l, cell)
  else
    let '(cached, ascii_regex) := default (compile_keywords (keywords r)) cell in
    (if bool_decide (cached = keywords r) then
       match ascii_regex with
       | Some is_match => is_match l || existsb (fun keyword => contains_lowercase keyword l) (List.filter (fun k => negb (is_ascii k)) cached)
       | None => matches_keywords_uncached r l
       end
     else matches_keywords_uncached r l, Some (cached, ascii_regex)).
End rule.

(** ** The checks of a match *)

Section checks.
Context {F : F32} {F6 : F64} {Lib : Library} (render : bytes -> gmap bytes bytes -> option bytes).

(** Named captures or several groups: the requirements are about the whole
    match. *)
Definition check_pattern_requirements (r : ScanRule) (c : Captures) (haystack full_bytes secret_bytes : bytes)
    (respect_ignore_if_contains : bool) : bool :=
  match pattern_requirements r with
  | None => true
  | Some char_reqs =>
    let context := {| context_captures := c; context_haystack := haystack; context_full_match := full_bytes |} in
    let has_named_captures := negb (length (capture_names c) =? 0) in
    let use_full_match := has_named_captures || (2 <? S (length (groups c))) in
    match validate render char_reqs (if use_full_match then full_bytes else secret_bytes) (Some context) respect_ignore_if_contains with
    | Passed => true
    | _ => false
    end
  end.

(** [is_parseable_*] of the validators. *)
Record UriParsers := {
  is_parseable_mongodb_uri : bytes -> bool;
  is_parseable_postgres_uri : bytes -> bool;
  is_parseable_mysql_uri : bytes -> bool;
  is_parseable_credential_uri : bytes -> option bytes -> bool
}.

(** A capture whose name is the expected one, whatever its case. *)
Definition named_capture (c : Captures) (expected : string) : option OffsetSpan :=
  find_map (fun '(n, m) => match n with Some n => if eq_ignore_ascii_case n (bs expected) then m else None | None => None end) (groups c).

Definition check_uri_validation (parsers : UriParsers) (r : ScanRule) (c : Captures) (haystack matching_input_bytes : bytes) : bool :=
  let parse (p : bytes -> bool) := match from_utf8 matching_input_bytes with Some uri => p uri | None => false end in
  match validation (base r) with
  | Some MongoDB => parse (is_parseable_mongodb_uri parsers)
  | Some Postgres => parse (is_parseable_postgres_uri parsers)
  | Some MySQL => parse (is_parseable_mysql_uri parsers)
  | Some CredentialUri =>
    let uri_bytes := match named_capture c "URI" with Some m => span_bytes haystack m | None => matching_input_bytes end in
    let scheme := m ← named_capture c "SCHEME"; from_utf8 (span_bytes haystack m) in
    match from_utf8 uri_bytes with Some uri => is_parseable_credential_uri parsers uri scheme | None => false end
  | _ => true
  end.

(** The safe list: its rules with their descriptions, and what the user added. *)
Record SafeList := { safe_rules : list (bytes * (bytes -> bool)); user_regexes : list (bytes -> bool); user_skipwords : list bytes }.

Definition is_safe_match_reason (s : SafeList) (input : bytes) : option bytes :=
  fst <$> List.find (fun rule => snd rule input) (safe_rules s).

Definition is_user_match (s : SafeList) (secret full_match : bytes) : bool :=
  if existsb (fun is_match => is_match secret || is_match full_match) (user_regexes s) then true
  else
    let contains_skipword input :=
      match from_utf8 input with
      | Some text => let lower := to_lowercase text in existsb (fun w => contains_sub w lower) (user_skipwords s)
      | None => false
      end in
    match user_skipwords s with [] => false | _ => contains_skipword secret || contains_skipword full_match end.

Definition add_user_regex (is_match : bytes -> bool) (s : SafeList) : SafeList :=
  {| safe_rules := safe_rules s; user_regexes := user_regexes s ++ [is_match]; user_skipwords := user_skipwords s |}.
Definition add_user_skipword (word : bytes) (s : SafeList) : SafeList :=
  {| safe_rules := safe_rules s; user_regexes := user_regexes s; user_skipwords := user_skipwords s ++ [to_lowercase word] |}.

Definition check_entropy_and_safelist (s : SafeList) (entropy_bytes full_bytes : bytes) (min_entropy : f32) : option f32 :=
  let calculated_entropy := calculate_shannon_entropy entropy_bytes in
  if f32_le calculated_entropy min_entropy then None
  else match is_safe_match_reason s entropy_bytes with
  | Some _ => None
  | None => if is_user_match s entropy_bytes full_bytes then None else Some calculated_entropy
  end.
End checks.

(** [Rule::new] and [get_or_init] only ever fill a cell from the rule itself. *)
Section cells.
Context {F : F32} {F6 : F64} {Lib : Library}.
Context (path_regex_new : bytes -> option (bytes -> bool)) (keyword_regex_new : list bytes -> option (bytes -> bool)).

Definition path_cell_ok (cell : option (bytes * option (bytes -> bool))) : Prop :=
  forall pattern regex, cell = Some (pattern, regex) -> regex = path_regex_new pattern.
Definition keyword_cell_ok (cell : option (list bytes * option (bytes -> bool))) : Prop :=
  forall ks regex, cell = Some (ks, regex) -> (ks, regex) = compile_keywords keyword_regex_new ks.

(** The regex of escaped keywords finds them whatever their case. *)
Definition keyword_regex_finds : Prop := forall patterns is_match l, Forall (fun k => is_ascii k = true) patterns ->
  keyword_regex_new patterns = Some is_match -> is_match l = existsb (fun k => contains_ignore_ascii_case k l) patterns.
End cells.
