(* ===== verification/MatchFilter.v ===== *)
(** * From captures to findings: [src/matcher/filter.rs] ([filter_match]) and
      [src/matcher/captures.rs]

    The rule's regex has confirmed a candidate; [filter_match] takes its captures
    one by one through the checks of [Requirements], the rule's Betterleaks filter,
    the confidence threshold, the inline directives and the deduplication, and
    records what passes as a finding. The state it shares with the other calls of
    a scan is passed on: the findings, the spans per rule, the keys, the line cache
    and the index of directives. [None] is a panic. *)

From Stdlib Require Import ZArith Lia Bool.
From stdpp Require Import base list numbers option gmap.
From S2P Require Import InlineIgnore.
From S2P Require Import Prelude Text Rule Location Expr FilterValue FilterEngine Filter Spans Requirements.

(** ** Serialized captures *)

Record SerializableCapture := {
  cap_name : option bytes;
  match_number : Z;
  cap_start : nat;
  cap_end : nat;
  cap_value : bytes
}.

Definition i32_or (d : Z) (i : nat) : Z := if (Z.of_nat i <? 2 ^ 31)%Z then Z.of_nat i else d.

Section captures.
Context (haystack : bytes) (c : Spans.Captures).

Definition serialize_group (i : nat) (name : option bytes) (m : OffsetSpan) (number : Z) : SerializableCapture :=
  {| cap_name := name; match_number := number; cap_start := span_start m; cap_end := span_end m;
     cap_value := from_utf8_lossy (span_bytes haystack m) |}.

(** The groups that matched, or the whole match when the regex has none. *)
Definition from_captures : list SerializableCapture :=
  match groups c with
  | [] => [serialize_group 0 None (group0 c) 0]
  | _ => omap (fun '(i, (name, m)) => (fun m => serialize_group i name m (i32_or 0 i)) <$> m) (enumerate_from 1 (groups c))
  end.

Fixpoint position {A} (p : A -> bool) (l : list A) : option nat :=
  match l with [] => None | x :: l => if p x then Some 0 else S <$> position p l end.

(** The first group that is not empty, counted from 1, or the whole match. *)
Definition selected_group (configured_group : nat) : nat :=
  if 0 <? configured_group then configured_group
  else default 0 (find_map (fun '(i, (_, m)) =>
    match m with Some m => if span_bytes haystack m is "" then None else Some i | None => None end) (enumerate_from 1 (groups c))).

(** The selected secret comes first, under the name [TOKEN]. *)
Definition from_captures_with_secret_group (betterleaks_secret_group : option nat) : list SerializableCapture :=
  let serialized := from_captures in
  match betterleaks_secret_group with
  | None => serialized
  | Some configured_group =>
    let selected := selected_group configured_group in
    match capture_get c selected with
    | None => serialized
    | Some secret =>
      let of_group capture := (match_number capture =? i32_or (-1) selected)%Z in
      match position (fun capture => of_group capture &&
          match cap_name capture with Some name => eq_ignore_ascii_case name (bs "TOKEN") | None => false end) serialized with
      | Some position =>
        match serialized !! position with
        | Some token => token :: delete position serialized
        | None => serialized
        end
      | None =>
        let value := match List.find of_group serialized with
                     | Some capture => cap_value capture
                     | None => from_utf8_lossy (span_bytes haystack secret)
                     end in
        {| cap_name := Some (bs "TOKEN"); match_number := i32_or (-1) selected; cap_start := span_start secret;
           cap_end := span_end secret; cap_value := value |} :: serialized
      end
    end
  end.
End captures.

(** ** Findings *)

Inductive ValidationOutcome := NotAttempted | AssumedOutcome.

Record BlobMatch `{F32} := {
  match_rule : ScanRule;
  matching_input : bytes;
  matching_input_offset_span : OffsetSpan;
  association_offset_span : OffsetSpan;
  match_captures : list SerializableCapture;
  validation_outcome : ValidationOutcome;
  calculated_entropy : f32;
  match_is_base64 : bool;
  dependent_captures : gmap bytes bytes;
  ambiguous_dependencies : gmap bytes nat;
  dependency_candidates : gmap bytes (list bytes)
}.

Record MatchState `{F32} := {
  matches : list BlobMatch;
  full_matches : option (gmap nat MatchSpans);
  previous_matches : gmap nat MatchSpans;
  seen_matches : gset Z;
  filter_line_cache : BetterleaksFilterLineCache;
  inline_ignore_index : option InlineIgnoreIndex
}.

(** What a call is about. *)
Record Call `{F32} := {
  rule : ScanRule;
  rule_id : nat;
  path_cell : option (bytes * option (bytes -> bool));
  keyword_cell : option (list bytes * option (bytes -> bool));
  blob : bytes;
  start : nat;
  stop : nat;
  ts_match : option bytes;
  is_base64 : bool;
  filename : bytes;
  source_attributes : option (list (bytes * bytes));
  respect_ignore_if_contains : bool;
  inline_ignore_config : InlineIgnoreConfig;
  bounded_confirmation : bool
}.

(** The texts a filter is evaluated on. *)
Record Texts := {
  t_path : bytes;
  t_attributes : option (list (bytes * bytes));
  t_secret : bytes;
  t_full_match : bytes;
  t_line : bytes;
  t_fragment_raw : bytes;
  t_match : nat * nat;
  t_match_line : nat * nat;
  t_rule_id : bytes;
  t_description : bytes;
  t_captures : list (bytes * bytes)
}.

(** ** One call *)

(** What is given to a hasher, in order. *)
Inductive Hashed := HashBytes (value : bytes) | HashUsize (value : nat).

(** [fx] is [FxHasher]. *)
Definition compute_match_key (fx : list Hashed -> Z) (content rule_id : bytes) (start stop : nat) : Z :=
  fx [HashBytes content; HashBytes rule_id; HashUsize start; HashUsize stop].

Section filter_match.
Context {F : F32} {F6 : F64} {Lib : Library} {Bld : Build} {RL : RegexLib} {Hash : Hasher} (engine : RegexEngine).
Context (path_regex_new : bytes -> option (bytes -> bool)) (keyword_regex_new : list bytes -> option (bytes -> bool)).
Context (render : bytes -> gmap bytes bytes -> option bytes) (parsers : UriParsers) (safe_list : SafeList).
Context (fx : list Hashed -> Z).
(** Where an evaluation finds its texts. *)
Context (place : Texts -> Memory * BetterleaksFilterContext).

(** [map.entry(rule_id).or_default().insert(span)] *)
Definition record_match (map : gmap nat MatchSpans) (rule_id : nat) (span : OffsetSpan) : gmap nat MatchSpans * bool :=
  let '(spans, fresh) := spans_insert (default [] (map !! rule_id)) span in (<[rule_id := spans]> map, fresh).

Section call.
Context (call : Call).

Definition haystack : bytes := default (slice (blob call) (start call) (stop call)) (ts_match call).
Definition offset_span (m : OffsetSpan) : OffsetSpan := mkSpan (start call + span_start m) (start call + span_end m).

(** A capture of a bounded window that another window decides on. *)
Definition interior (c : Spans.Captures) : bool :=
  bounded_confirmation call &&
  ((0 <? start call) && (span_start (group0 c) =? 0) || negb (span_end (group0 c) =? length haystack)).

Definition secret_of (c : Spans.Captures) : OffsetSpan := find_secret_capture_with_group c (betterleaks_secret_group (rule call)).

(** The checks before the filter; the entropy if they pass. *)
Definition check_content (c : Spans.Captures) : option f32 :=
  let entropy_bytes := span_bytes haystack (secret_of c) in
  let full_bytes := span_bytes haystack (group0 c) in
  let matches_keywords l := fst (matches_keywords keyword_regex_new (rule call) (keyword_cell call) l) in
  if negb (matches_keywords full_bytes) && negb (matches_keywords (default (blob call) (ts_match call))) then None
  else
    entropy ← check_entropy_and_safelist safe_list entropy_bytes full_bytes (min_entropy (rule call));
    if check_pattern_requirements render (rule call) c haystack full_bytes entropy_bytes (respect_ignore_if_contains call)
    then Some entropy else None.

Definition match_line (c : Spans.Captures) : nat * nat :=
  bounds (line_index_new haystack) (span_start (group0 c)) (span_end (group0 c)).

(** A line of a text that is UTF-8 is cut out of it, another one is converted; the
    cache of converted lines maps their range to the conversion. *)
Definition line_text (range : nat * nat) : bytes :=
  match from_utf8 haystack with
  | Some text => slice text range.1 range.2
  | None => from_utf8_lossy (slice haystack range.1 range.2)
  end.

Definition texts (c : Spans.Captures) : Texts := {|
  t_path := filename call;
  t_attributes := source_attributes call;
  t_secret := from_utf8_lossy (span_bytes haystack (secret_of c));
  t_full_match := from_utf8_lossy (span_bytes haystack (group0 c));
  t_line := line_text (match_line c);
  t_fragment_raw := from_utf8_lossy haystack;
  t_match := (span_start (group0 c), span_end (group0 c));
  t_match_line := match_line c;
  t_rule_id := id (base (rule call));
  t_description := name (rule call);
  t_captures := fold_left (fun captures name =>
    match capture_by_name c name with
    | Some m => bt_insert name (from_utf8_lossy (span_bytes haystack m)) captures
    | None => captures
    end) (capture_names c) []
|}.

Definition line_range (c : Spans.Captures) : Z * Z :=
  (Z.of_nat (start call + (match_line c).1), Z.of_nat (start call + (match_line c).2)).

(** The outcome of the rule's filter, if it has one and it does not fail, and the
    line cache. *)
Definition filter_outcome (c : Spans.Captures) (cache : BetterleaksFilterLineCache)
    : option (option BetterleaksFilterOutcome * BetterleaksFilterLineCache) :=
  match betterleaks_filter (rule call) with
  | None => Some (None, cache)
  | Some expression =>
    let '(memory, context) := place (texts c) in
    let '(r, cache') := evaluate_filter_with_engine_and_line_cache (Mem := memory) engine expression context (line_range c) (Some cache) in
    match r with
    | Ok outcome => Some (Some outcome, default cache cache')
    | Err _ => Some (None, default cache cache')
    | Panic => None
    end
  end.

Definition discards (outcome : option BetterleaksFilterOutcome) : bool := match outcome with Some o => discard o | None => false end.
Definition effective_confidence (outcome : option BetterleaksFilterOutcome) : Confidence :=
  default (confidence (rule call)) (outcome ≫= outcome_confidence).

(** The rule of a finding whose confidence differs, or that is only a component. *)
Definition effective_rule (c : Confidence) : ScanRule :=
  let r := rule call in
  let suppress := runtime_dependency_helper (base r) && negb (reports_effective_confidence (base r) c) in
  if negb (bool_decide (c = confidence r)) || suppress then
    {| base := if suppress then suppress_runtime_reporting (base r) else base r; name := name r; path := path r; keywords := keywords r;
       min_entropy := min_entropy r; confidence := c; pattern_requirements := pattern_requirements r;
       betterleaks_filter := betterleaks_filter r; betterleaks_secret_group := betterleaks_secret_group r;
       betterleaks_path_only := betterleaks_path_only r |}
  else r.

Definition finding (c : Spans.Captures) (entropy : f32) (effective : Confidence) : BlobMatch := {|
  match_rule := effective_rule effective;
  matching_input := slice (blob call) (span_start (offset_span (secret_of c))) (span_end (offset_span (secret_of c)));
  matching_input_offset_span := offset_span (secret_of c);
  association_offset_span := offset_span (group0 c);
  match_captures := from_captures_with_secret_group haystack c (betterleaks_secret_group (rule call));
  validation_outcome := match validation (base (rule call)) with Some Assumed => AssumedOutcome | _ => NotAttempted end;
  calculated_entropy := entropy;
  match_is_base64 := is_base64 call;
  dependent_captures := ∅;
  ambiguous_dependencies := ∅;
  dependency_candidates := ∅
|}.

(** The bookkeeping of a finding: its key, then its span among those of the rule. *)
Definition report (c : Spans.Captures) (entropy : f32) (effective : Confidence) (s : MatchState) : option MatchState :=
  let span := offset_span (secret_of c) in
  let key := compute_match_key fx (span_bytes haystack (secret_of c)) (id (base (rule call))) (span_start span) (span_end span) in
  if bool_decide (key ∈ seen_matches s) then Some s
  else
    let '(previous, fresh) := record_match (previous_matches s) (rule_id call) span in
    let pushed := if fresh then [finding c entropy effective] else [] in
    if fresh && (length (blob call) <? span_end span) then None
    else Some {| matches := matches s ++ pushed; full_matches := full_matches s; previous_matches := previous;
                 seen_matches := {[ key ]} ∪ seen_matches s; filter_line_cache := filter_line_cache s;
                 inline_ignore_index := inline_ignore_index s |}.

(** A capture after its full match was recorded. *)
Definition judge (c : Spans.Captures) (s : MatchState) : option MatchState :=
  match check_content c with
  | None => Some s
  | Some entropy =>
    '(outcome, cache) ← filter_outcome c (filter_line_cache s);
    let s := {| matches := matches s; full_matches := full_matches s; previous_matches := previous_matches s;
                seen_matches := seen_matches s; filter_line_cache := cache; inline_ignore_index := inline_ignore_index s |} in
    let effective := effective_confidence outcome in
    if discards outcome || negb (accepts_effective_confidence (base (rule call)) effective) then Some s
    else
      let span := offset_span (secret_of c) in
      let '(ignore, index) := should_ignore_cached (inline_ignore_config call) (blob call)
        {| InlineIgnore.start := span_start span; InlineIgnore.end_ := span_end span |} (inline_ignore_index s) in
      ignore ← ignore;
      let s := {| matches := matches s; full_matches := full_matches s; previous_matches := previous_matches s;
                  seen_matches := seen_matches s; filter_line_cache := filter_line_cache s; inline_ignore_index := index |} in
      if ignore : bool then Some s
      else if negb (check_uri_validation parsers (rule call) c haystack (span_bytes haystack (secret_of c))) then Some s
      else report c entropy effective s
  end.

(** A capture of the iterator. *)
Definition step (c : Spans.Captures) (s : MatchState) : option MatchState :=
  if interior c then Some s
  else
    match full_matches s with
    | None => judge c s
    | Some full =>
      let '(full, fresh) := record_match full (rule_id call) (offset_span (group0 c)) in
      let s := {| matches := matches s; full_matches := Some full; previous_matches := previous_matches s;
                  seen_matches := seen_matches s; filter_line_cache := filter_line_cache s;
                  inline_ignore_index := inline_ignore_index s |} in
      if fresh then judge c s else Some s
    end.

Fixpoint steps (captures : list Spans.Captures) (s : MatchState) : option MatchState :=
  match captures with [] => Some s | c :: captures => s ← step c s; steps captures s end.

(** Whether a capture was confirmed, and the state. *)
Definition filter_match (captures : list Spans.Captures) (s : MatchState) : option (bool * MatchState) :=
  if betterleaks_path_only (rule call) || negb (fst (matches_path path_regex_new (rule call) (path_cell call) (filename call)))
  then Some (false, s)
  else s ← steps captures s; Some (existsb (fun c => negb (interior c)) captures, s).
End call.

(** The calls of a scan of one buffer, which share their state. *)
Fixpoint filter_matches (calls : list (Call * list Spans.Captures)) (s : MatchState) : option MatchState :=
  match calls with
  | [] => Some s
  | (call, captures) :: calls => '(_, s) ← filter_match call captures s; filter_matches calls s
  end.
End filter_match.
