(* ===== verification/MatchExact.v ===== *)
(** * The findings of a scan

    [MatchFilter.filter_match] against what it means: every finding is a capture
    that passes the checks, every capture that passes them is covered by a
    finding, and the caches of a scan - the compiled filter patterns, the line
    cache, the index of inline directives, the compiled keywords - decide nothing. *)

From Stdlib Require Import ZArith Lia Bool.
From stdpp Require Import base list numbers option gmap.
From S2P Require Import InlineIgnore.
From S2P Require Import Prelude Text Rule Location Expr FilterValue FilterEngine Filter FilterExact Spans Requirements MatchFilter.

(** ** Keywords *)

Section keywords.
Context {F : F32} {F6 : F64} {Lib : Library}.
Context (keyword_regex_new : list bytes -> option (bytes -> bool)).

Lemma existsb_split {A} (p q : A -> bool) l :
  existsb p l = existsb p (List.filter q l) || existsb p (List.filter (fun x => negb (q x)) l).
Proof.
  induction l as [|x l IH]; [done|]. cbn. destruct (q x); cbn; rewrite IH; [by rewrite orb_assoc|].
  destruct (p x); cbn; [by rewrite orb_true_r|done].
Qed.

Lemma existsb_ext_in {A} (p q : A -> bool) l : (forall x, In x l -> p x = q x) -> existsb p l = existsb q l.
Proof. induction l as [|x l IH]; cbn; intros H; [done|]. rewrite (H x) by auto. rewrite IH; auto. Qed.

(** The compiled keywords change nothing, whatever the cell holds. *)
Lemma matches_keywords_exact (r : ScanRule) cell l : keyword_regex_finds keyword_regex_new -> keyword_cell_ok keyword_regex_new cell ->
  fst (matches_keywords keyword_regex_new r cell l) = matches_keywords_uncached r l.
Proof.
  intros Hre Hcell. unfold matches_keywords. destruct ((length l <=? 256) || _); [done|].
  assert (exists ks regex, default (compile_keywords keyword_regex_new (keywords r)) cell = (ks, regex) /\ (ks, regex) = compile_keywords keyword_regex_new ks)
    as (ks & regex & -> & E).
  { destruct cell as [[ks regex]|]; cbn; [exists ks, regex; split; [done|by apply Hcell]|].
    unfold compile_keywords. eexists _, _. split; reflexivity. }
  cbn [fst]. destruct (bool_decide (ks = keywords r)) eqn:Ek; [|done]. apply bool_decide_eq_true in Ek as ->.
  destruct regex as [is_match|]; [|done]. unfold compile_keywords in E.
  destruct (List.filter is_ascii (keywords r)) as [|k patterns] eqn:Ef; [done|]. injection E as E.
  assert (is_match l = existsb (fun k => contains_ignore_ascii_case k l) (List.filter is_ascii (keywords r))) as ->.
  { rewrite Ef. apply Hre; [|done]. rewrite <-Ef. apply Forall_forall. intros x Hx. apply list_elem_of_In, filter_In in Hx. tauto. }
  unfold matches_keywords_uncached. destruct (keywords r) as [|k' ks]; [done|]. symmetry. rewrite (existsb_split _ is_ascii (k' :: ks)). symmetry.
  f_equal; apply existsb_ext_in.
  - intros x [_ Hx]%filter_In. destruct x as [|b x]; [by destruct l|]. by rewrite Hx.
  - intros x [_ Hx]%filter_In. apply negb_true_iff in Hx. destruct x as [|b x]; [done|]. by rewrite Hx.
Qed.
End keywords.

(** ** Lines of a text *)

Lemma continuation_newline lo hi (r x : bytes) i : (10 < lo)%Z -> i <= length r -> continuation lo hi (r ++ 10%Z :: x) i = continuation lo hi r i.
Proof.
  intros Hlo Hi. unfold continuation. destruct (decide (i < length r)) as [Hlt|].
  - by rewrite lookup_app_l.
  - assert (i = length r) as -> by lia. rewrite list_lookup_middle by done. rewrite lookup_ge_None_2 by lia.
    apply andb_false_iff. left. apply Z.leb_gt. lia.
Qed.

Lemma continuation_some lo hi (r : bytes) i : continuation lo hi r i = true -> i < length r.
Proof. unfold continuation. destruct (r !! i) eqn:E; [|done]. intros _. by eapply lookup_lt_Some. Qed.

(** A character does not reach past a newline. *)
Lemma utf8_step_newline b (r x : bytes) : utf8_step b (r ++ 10%Z :: x) = utf8_step b r.
Proof.
  unfold utf8_step. destruct (b <? 128)%Z; [done|]. rewrite !(continuation_newline 128 191) by lia.
  destruct (194 ≤? b ≤? 223); [done|]. destruct (224 ≤? b ≤? 239).
  { rewrite (continuation_newline _ _ r x 0) by (destruct (b ==? 224); lia).
    destruct (continuation _ _ r 0) eqn:E; [|done]. cbn [negb]. apply continuation_some in E.
    by rewrite (continuation_newline 128 191 r x 1) by lia. }
  destruct (240 ≤? b ≤? 244); [|done]. rewrite (continuation_newline _ _ r x 0) by (destruct (b ==? 240); lia).
  destruct (continuation _ _ r 0) eqn:E0; [|done]. cbn [negb]. apply continuation_some in E0.
  rewrite (continuation_newline 128 191 r x 1) by lia. destruct (continuation 128 191 r 1) eqn:E1; [|done]. cbn [negb].
  apply continuation_some in E1. by rewrite (continuation_newline 128 191 r x 2) by lia.
Qed.

Lemma utf8_step_bounds b r : let '(n, valid) := utf8_step b r in 1 <= n <= S (length r) /\ n <= 4 /\ (valid = false -> n <= 3).
Proof.
  unfold utf8_step. destruct (b <? 128)%Z; [lia|]. destruct (194 ≤? b ≤? 223).
  { destruct (continuation _ _ r 0) eqn:E; [apply continuation_some in E|]; repeat split; try lia; done. }
  destruct (224 ≤? b ≤? 239).
  { destruct (continuation _ _ r 0) eqn:E; [|cbn; lia]. apply continuation_some in E. cbn [negb].
    destruct (continuation _ _ r 1) eqn:E1; [apply continuation_some in E1|]; repeat split; try lia; done. }
  destruct (240 ≤? b ≤? 244); [|lia]. destruct (continuation _ _ r 0) eqn:E; [|cbn; lia]. apply continuation_some in E. cbn [negb].
  destruct (continuation _ _ r 1) eqn:E1; [|cbn; lia]. apply continuation_some in E1. cbn [negb].
  destruct (continuation _ _ r 2) eqn:E2; [apply continuation_some in E2|]; repeat split; try lia; done.
Qed.

Lemma lossy_loop_fuel fuel1 : forall fuel2 l, length l <= fuel1 -> length l <= fuel2 -> lossy_loop fuel1 l = lossy_loop fuel2 l.
Proof.
  induction fuel1 as [|fuel1 IH]; intros [|fuel2] [|b r] H1 H2; cbn [length] in *; try lia; try done. cbn [lossy_loop].
  pose proof (utf8_step_bounds b r) as Hb. destruct (utf8_step b r) as [n valid]. f_equal.
  apply IH; rewrite length_drop; cbn [length]; lia.
Qed.

(** Conversion goes line by line. *)
Lemma lossy_newline l1 l2 : from_utf8_lossy (l1 ++ 10%Z :: l2) = from_utf8_lossy l1 ++ 10%Z :: from_utf8_lossy l2.
Proof.
  unfold from_utf8_lossy. remember (length l1) as k eqn:Hk. assert (length l1 <= k) as H by lia. clear Hk.
  assert (forall fuel, length (l1 ++ 10%Z :: l2) <= fuel -> lossy_loop fuel (l1 ++ 10%Z :: l2) = lossy_loop k l1 ++ 10%Z :: lossy_loop (length l2) l2) as Hl;
    [|by apply Hl].
  revert l1 H. induction k as [|k IH]; intros [|b r] H fuel Hf; cbn [length app] in *; try lia.
  1,2: destruct fuel as [|fuel]; [lia|]; cbn [lossy_loop app]; change (utf8_step 10 l2) with (1, true); cbn [take drop app];
    f_equal; apply lossy_loop_fuel; lia.
  destruct fuel as [|fuel]; [lia|]. cbn [lossy_loop]. rewrite utf8_step_newline. pose proof (utf8_step_bounds b r) as Hb.
  destruct (utf8_step b r) as [n valid]. change (b :: r ++ 10%Z :: l2) with ((b :: r) ++ 10%Z :: l2).
  rewrite take_app_le, drop_app_le by (cbn [length]; lia). rewrite IH; [by rewrite app_assoc|rewrite length_drop; cbn [length]; lia|].
  rewrite length_app, length_drop in *. cbn [length] in *. lia.
Qed.

Lemma lossy_length l : length l <= length (from_utf8_lossy l).
Proof.
  unfold from_utf8_lossy. assert (forall fuel l, length l <= fuel -> length l <= length (lossy_loop fuel l)) as H; [|by apply H].
  clear l. induction fuel as [|fuel IH]; intros [|b r] Hf; cbn [length] in *; try lia. cbn [lossy_loop].
  pose proof (utf8_step_bounds b r) as Hb. destruct (utf8_step b r) as [n valid]. rewrite length_app.
  specialize (IH (drop n (b :: r)) ltac:(rewrite length_drop; cbn [length]; lia)). rewrite length_drop in IH. cbn [length] in IH.
  destruct valid; [rewrite length_take; cbn [length]; lia|cbn [length]; lia].
Qed.

Lemma lossy_lines_valid l1 l2 : from_utf8_lossy (l1 ++ 10%Z :: l2) = l1 ++ 10%Z :: l2 -> from_utf8_lossy l1 = l1 /\ from_utf8_lossy l2 = l2.
Proof.
  rewrite lossy_newline. intros H. pose proof (lossy_length l1). pose proof (lossy_length l2).
  assert (length (from_utf8_lossy l1) = length l1) as E.
  { apply (f_equal length) in H. rewrite !length_app in H. cbn [length] in H. lia. }
  apply app_inj_1 in H as [-> H]; [|done]. by injection H as ->.
Qed.

(** Lines of a text: they start after a newline and end before one. *)
Definition line_cut (l : bytes) (a b : nat) : Prop :=
  a <= b <= length l /\ (a = 0 \/ exists x, l !! x = Some 10%Z /\ a = S x) /\ (b = length l \/ l !! b = Some 10%Z).

Lemma line_cut_valid l a b : from_utf8_lossy l = l -> line_cut l a b -> from_utf8_lossy (slice l a b) = slice l a b.
Proof.
  intros Hl (Hab & Ha & Hb).
  assert (from_utf8_lossy (drop a l) = drop a l) as Hd.
  { destruct Ha as [->|(x & Hx & ->)]; [done|]. rewrite <-(take_drop_middle l x 10%Z Hx) in Hl. by apply lossy_lines_valid in Hl as [_ Hl]. }
  unfold slice. destruct Hb as [->|Hb]; [rewrite take_ge; [done|rewrite length_drop; lia]|].
  assert (drop a l !! (b - a) = Some 10%Z) as Hx by (rewrite lookup_drop; by replace (a + (b - a)) with b by lia).
  rewrite <-(take_drop_middle _ _ _ Hx) in Hd. by apply lossy_lines_valid in Hd as [Hd _].
Qed.

Lemma until_nl_lookup l : until_nl l < length l -> l !! until_nl l = Some 10%Z.
Proof.
  induction l as [|b l IH]; cbn [until_nl length]; [lia|]. unfold is_nl at 1 2. destruct (Z.eqb_spec b 10) as [->|]; [done|].
  intros H. cbn. apply IH. lia.
Qed.

Lemma line_bounds_cut l a b : a <= b <= length l -> line_cut l (line_start_of l a) (line_end_of l b).
Proof.
  intros [Hab Hb]. unfold line_cut, line_start_of, line_end_of. pose proof (until_nl_le (rev (take a l))) as Hs. pose proof (until_nl_le (drop b l)) as He.
  rewrite length_rev, length_take in Hs. rewrite length_drop in He. split; [lia|]. split.
  - destruct (decide (until_nl (rev (take a l)) = a)) as [->|Hne]; [left; lia|right].
    exists (a - S (until_nl (rev (take a l)))). split; [|lia].
    pose proof (until_nl_lookup (rev (take a l))) as H. rewrite length_rev, length_take in H. specialize (H ltac:(lia)).
    assert (forall l : bytes, rev l = reverse l) as Hrev by apply rev_alt. rewrite !Hrev in *.
    apply reverse_lookup_Some in H as [H _]. rewrite length_take, Nat.min_l in H by lia.
    by apply lookup_take_Some in H as [H _].
  - destruct (decide (until_nl (drop b l) = length l - b)) as [->|Hne]; [left; lia|right].
    rewrite <-lookup_drop. apply until_nl_lookup. rewrite length_drop. lia.
Qed.

(** ** The line of a match *)

Section line.
Context {F : F32} (call : Call) (c : Spans.Captures).

Definition group0_in : Prop := span_start (group0 c) <= span_end (group0 c) <= length (haystack call).

Lemma match_line_cut : group0_in -> line_cut (haystack call) (match_line call c).1 (match_line call c).2.
Proof. intros [H1 H2]. unfold match_line. rewrite bounds_exact by lia. apply line_bounds_cut. lia. Qed.

(** The line is the conversion of its bytes, whether its text is cut out of the
    converted buffer or converted by itself. *)
Lemma line_text_lossy : group0_in ->
  line_text call (match_line call c) = from_utf8_lossy (slice (haystack call) (match_line call c).1 (match_line call c).2).
Proof.
  intros Hin%match_line_cut. unfold line_text, from_utf8.
  destruct (bytes_eqb_spec (from_utf8_lossy (haystack call)) (haystack call)) as [E|]; [|done].
  symmetry. apply line_cut_valid; [done|exact Hin].
Qed.

Lemma slice_slice (l : bytes) a b x y : y <= b - a -> slice (slice l a b) x y = slice l (a + x) (a + y).
Proof.
  intros Hy. unfold slice. rewrite skipn_firstn_comm, take_take, drop_drop. f_equal; lia.
Qed.

(** In a window of a buffer the range of the line, counted in the buffer, says
    what the line is. *)
Lemma window_line : group0_in -> ts_match call = None ->
  line_text call (match_line call c) =
  from_utf8_lossy (slice (blob call) (Z.to_nat (line_range call c).1) (Z.to_nat (line_range call c).2)).
Proof.
  intros Hin Hts. rewrite line_text_lossy by done. apply match_line_cut in Hin as ((_ & Hl) & _).
  unfold line_range, haystack in *. rewrite Hts in *. cbn [default fst snd] in *. rewrite !Nat2Z.id. f_equal. apply slice_slice.
  unfold slice at 1 in Hl.
  rewrite length_take in Hl. lia.
Qed.
End line.

(** ** Spans per rule *)

(** A span of a rule, and whether one of a list covers it. *)
Definition covered (spans : list (nat * OffsetSpan)) (id : nat) (s : OffsetSpan) : bool :=
  existsb (fun '(id', t) => (id' =? id) && covers (entry t) (entry s)) spans.

(** The map of a rule's spans says what the list does. *)
Definition tracked (spans : list (nat * OffsetSpan)) (m : gmap nat MatchSpans) : Prop := forall id,
  let recorded := default [] (m !! id) in
  ms_wf recorded /\ forall s, covered spans id s = true <-> exists e, In e recorded /\ covers e (entry s) = true.

Lemma tracked_empty : tracked [] ∅.
Proof. intros id. rewrite lookup_empty. split; [constructor|]. intros s. split; [done|]. by intros (? & [] & _). Qed.

Lemma record_match_exact spans m id s : tracked spans m ->
  let '(m', fresh) := record_match m id s in
  fresh = negb (covered spans id s) /\ tracked ((id, s) :: spans) m' /\ (fresh = false -> tracked spans m').
Proof.
  intros Ht. unfold record_match. destruct (Ht id) as [Hwf Hs]. pose proof (spans_insert_spec _ s Hwf) as Hi.
  destruct (spans_insert _ s) as [recorded fresh]. destruct Hi as (Hwf' & Hf & Hsame & Hnew). rewrite <-Hs in Hf.
  assert (forall t, covered spans id t = true \/ covers (entry s) (entry t) = true <->
    exists e, In e recorded /\ covers e (entry t) = true) as Hrec.
  { intros t. destruct fresh.
    - specialize (Hnew eq_refl). split.
      + intros [(e & He & Hc)%Hs|Hc]; [|by exists (entry s); rewrite Hnew; auto].
        destruct (covers (entry s) e) eqn:Ec; [exists (entry s); rewrite Hnew; eauto using covers_trans|].
        exists e. rewrite Hnew. auto.
      + intros (e & He & Hc). apply Hnew in He as [->|[He _]]; [auto|left; apply Hs; eauto].
    - rewrite Hsame by done. rewrite <-Hs. split; [|auto]. intros [?|Hc]; [done|].
      destruct (Hs s) as [H _]. destruct H as (e & He & Hce); [by apply Hf|]. apply Hs. exists e. eauto using covers_trans. }
  split; [|split].
  - destruct fresh, (covered spans id s); try done; [by destruct Hf as [_ ?%(fun f => f eq_refl)]|by destruct Hf as [?%(fun f => f eq_refl) _]].
  - intros id'. destruct (decide (id = id')) as [<-|Hne].
    + rewrite lookup_insert_eq. cbn. split; [done|]. intros t. rewrite Nat.eqb_refl. cbn. rewrite orb_true_iff, <-Hrec. tauto.
    + rewrite lookup_insert_ne by done. destruct (Ht id') as [? H]. split; [done|]. intros t. cbn.
      apply Nat.eqb_neq in Hne as ->. apply H.
  - intros E. rewrite (Hsame E). intros id'. destruct (decide (id = id')) as [<-|Hne].
    + rewrite lookup_insert_eq. apply Ht.
    + rewrite lookup_insert_ne by done. apply Ht.
Qed.

(** ** A scan without its caches *)

Section scan.
Context {F : F32} {F6 : F64} {Lib : Library} {Bld : Build} {RL : RegexLib} {VS : Vectorscan} {Hash : Hasher}.
Context (path_regex_new : bytes -> option (bytes -> bool)) (keyword_regex_new : list bytes -> option (bytes -> bool)).
Context (render : bytes -> gmap bytes bytes -> option bytes) (parsers : UriParsers) (safe_list : SafeList).
Context (fx : list Hashed -> Z).
Context (place : Texts -> Memory * BetterleaksFilterContext).
Context (vs_matches : bytes -> bytes -> bool) (expressions : list BetterleaksExpr).

Definition secret_span (call : Call) (c : Spans.Captures) : OffsetSpan := offset_span call (secret_of call c).
Definition full_span (call : Call) (c : Spans.Captures) : OffsetSpan := offset_span call (group0 c).

(** The checks before the filter, the keywords searched one by one. *)
Definition content (call : Call) (c : Spans.Captures) : option f32 :=
  let secret := span_bytes (haystack call) (secret_of call c) in
  let full := span_bytes (haystack call) (group0 c) in
  let found l := matches_keywords_uncached (rule call) l in
  if found full || found (default (blob call) (ts_match call)) then
    entropy ← check_entropy_and_safelist safe_list secret full (min_entropy (rule call));
    if check_pattern_requirements render (rule call) c (haystack call) full secret (respect_ignore_if_contains call)
    then Some entropy else None
  else None.

Definition evaluation (call : Call) (c : Spans.Captures) (e : BetterleaksExpr) : Evaluation :=
  let '(memory, context) := place (texts call c) in
  {| ev_memory := memory; ev_expression := e; ev_context := context; ev_range := line_range call c |}.

(** The filter with the reference engine; a filter that fails decides nothing. *)
Definition plain_outcome (call : Call) (c : Spans.Captures) : option (option BetterleaksFilterOutcome) :=
  match betterleaks_filter (rule call) with
  | None => Some None
  | Some e => match evaluate_plain vs_matches expressions (evaluation call c e) with Ok o => Some (Some o) | Err _ => Some None | Panic => None end
  end.

(** Whether a capture is a finding, by itself: with which entropy and confidence. *)
Definition passes (call : Call) (c : Spans.Captures) : option (option (f32 * Confidence)) :=
  match content call c with
  | None => Some None
  | Some entropy =>
    outcome ← plain_outcome call c;
    let effective := effective_confidence call outcome in
    let span := {| InlineIgnore.start := span_start (secret_span call c); InlineIgnore.end_ := span_end (secret_span call c) |} in
    Some (if discards outcome || negb (accepts_effective_confidence (base (rule call)) effective) ||
             suppressed (tokens (inline_ignore_config call)) (blob call) span ||
             negb (check_uri_validation parsers (rule call) c (haystack call) (span_bytes (haystack call) (secret_of call c)))
          then None else Some (entropy, effective))
  end.

(** The captures a scan decides on, in order. *)
Definition path_ok (call : Call) (filename : bytes) : bool :=
  negb (betterleaks_path_only (rule call)) && syntax_matches_path path_regex_new (rule call) filename.
Definition decided (calls : list (Call * list Spans.Captures)) : list (Call * Spans.Captures) :=
  flat_map (fun '(call, captures) =>
    if path_ok call (filename call) then map (pair call) (List.filter (fun c => negb (interior call c)) captures) else []) calls.

(** The 64-bit key of a match. *)
Definition key_of (x : Call * Spans.Captures) : Z :=
  compute_match_key fx (span_bytes (haystack x.1) (secret_of x.1 x.2)) (id (base (rule x.1)))
    (span_start (secret_span x.1 x.2)) (span_end (secret_span x.1 x.2)).

(** Whether a match, or one with its key, was met. *)
Definition met (keys : list Z) (call : Call) (c : Spans.Captures) : bool := bool_decide (key_of (call, c) ∈ keys).

(** The findings, from plain lists of the full matches seen - if they are tracked -,
    of the secrets that passed, by rule, and of their keys. *)
Fixpoint reference (track : bool) (seen kept : list (nat * OffsetSpan)) (keys : list Z)
    (candidates : list (Call * Spans.Captures)) : option (list BlobMatch) :=
  match candidates with
  | [] => Some []
  | (call, c) :: candidates =>
    let id := rule_id call in
    if track && covered seen id (full_span call c) then reference track seen kept keys candidates
    else
      verdict ← passes call c;
      let seen := (id, full_span call c) :: seen in
      match verdict with
      | Some (entropy, effective) =>
        if met keys call c then reference track seen kept keys candidates
        else
          let rest := reference track seen ((id, secret_span call c) :: kept) (key_of (call, c) :: keys) candidates in
          if covered kept id (secret_span call c) then rest else cons (finding call c entropy effective) <$> rest
      | None => reference track seen kept keys candidates
      end
  end.

(** ** What a scan relies on *)

Context (engine : BetterleaksFilterEngine) (line_of : Lines) {SL : ScanLaws vs_matches}.
Hypothesis scans_succeed : ~ native_fails.
Hypothesis compiled_engine : engine_compile expressions = Ok engine.
Hypothesis keyword_regex : keyword_regex_finds keyword_regex_new.
Context (buffer : bytes) (config : InlineIgnoreConfig).

(** The calls are about one buffer; the cells of the rules are filled from them. *)
Record call_ok (call : Call) : Prop := {
  call_buffer : blob call = buffer;
  call_config : inline_ignore_config call = config;
  call_path_cell : path_cell_ok path_regex_new (path_cell call);
  call_keyword_cell : keyword_cell_ok keyword_regex_new (keyword_cell call)
}.

(** The filter of the rule was compiled with the engine, and a line's place and
    range say what it is. *)
Definition capture_ok (x : Call * Spans.Captures) : Prop :=
  span_end (secret_span x.1 x.2) <= length (blob x.1) /\
  forall e, betterleaks_filter (rule x.1) = Some e -> evaluation_ok expressions line_of (evaluation x.1 x.2 e).

(** What the state says of the lists of [reference]. *)
Record agrees (track : bool) (seen kept : list (nat * OffsetSpan)) (keys : list Z) (s : MatchState) : Prop := {
  agree_full : match full_matches s with Some m => track = true /\ tracked seen m | None => track = false end;
  agree_previous : tracked kept (previous_matches s);
  agree_keys k : k ∈ seen_matches s <-> k ∈ keys;
  agree_cache : cache_ok (filter_engine engine) line_of (filter_line_cache s);
  agree_index : cell_ok config buffer (inline_ignore_index s)
}.

Abbreviation filter_outcome := (filter_outcome (filter_engine engine) place).

Lemma filter_outcome_exact call c cache : capture_ok (call, c) -> cache_ok (filter_engine engine) line_of cache ->
  match filter_outcome call c cache with
  | Some (o, cache') => plain_outcome call c = Some o /\ cache_ok (filter_engine engine) line_of cache'
  | None => plain_outcome call c = None
  end.
Proof using compiled_engine scans_succeed SL.
  intros [_ Hf] Hc. unfold MatchFilter.filter_outcome, plain_outcome. cbn [fst snd] in Hf.
  destruct (betterleaks_filter (rule call)) as [e|] eqn:Ee; [|done]. specialize (Hf e eq_refl).
  pose proof (evaluation_accelerated expressions engine line_of vs_matches compiled_engine _ cache Hf Hc) as He.
  unfold evaluation in *. destruct (place (texts call c)) as [memory context]. cbn [ev_memory ev_expression ev_context ev_range] in *.
  destruct (evaluate_filter_with_engine_and_line_cache _ _ _ _ _) as [r cache']. destruct He as [Ha Hc']. cbn [fst] in *.
  assert (cache_ok (filter_engine engine) line_of (default cache cache')) as Hd by by destruct cache'.
  destruct Ha as [[_ ?]| ->]; [done|]. by destruct (evaluate_plain _ _ _).
Qed.

Abbreviation judge := (judge (filter_engine engine) keyword_regex_new render parsers safe_list fx place).
Abbreviation step := (step (filter_engine engine) keyword_regex_new render parsers safe_list fx place).
Abbreviation steps := (steps (filter_engine engine) keyword_regex_new render parsers safe_list fx place).
Abbreviation filter_match := (filter_match (filter_engine engine) path_regex_new keyword_regex_new render parsers safe_list fx place).
Abbreviation filter_matches := (filter_matches (filter_engine engine) path_regex_new keyword_regex_new render parsers safe_list fx place).

Lemma check_content_exact call c : call_ok call ->
  check_content keyword_regex_new render safe_list call c = content call c.
Proof using keyword_regex.
  intros [_ _ _ Hk]. unfold check_content, content. rewrite !(matches_keywords_exact keyword_regex_new _ _ _ keyword_regex Hk).
  destruct (matches_keywords_uncached _ (span_bytes _ _)), (matches_keywords_uncached _ (default _ _)); reflexivity.
Qed.

(** The report of a capture that passes: its finding, unless its key was met or a
    secret of the rule covers it. *)
Definition pushed (kept : list (nat * OffsetSpan)) (keys : list Z) (call : Call) (c : Spans.Captures) (verdict : option (f32 * Confidence))
    : list BlobMatch :=
  match verdict with
  | Some (entropy, effective) =>
    if met keys call c || covered kept (rule_id call) (secret_span call c) then [] else [finding call c entropy effective]
  | None => []
  end.

(** The secrets that passed, and their keys, after a verdict. *)
Definition kept_after (kept : list (nat * OffsetSpan)) (keys : list Z) (call : Call) (c : Spans.Captures)
    (verdict : option (f32 * Confidence)) : list (nat * OffsetSpan) * list Z :=
  match verdict with
  | Some _ => if met keys call c then (kept, keys) else ((rule_id call, secret_span call c) :: kept, key_of (call, c) :: keys)
  | None => (kept, keys)
  end.

Lemma report_exact track seen kept keys call c entropy effective s : capture_ok (call, c) -> agrees track seen kept keys s ->
  let verdict := Some (entropy, effective) in
  let '(kept', keys') := kept_after kept keys call c verdict in
  exists s', report fx call c entropy effective s = Some s' /\
    matches s' = matches s ++ pushed kept keys call c verdict /\ agrees track seen kept' keys' s'.
Proof.
  intros [Hlen _] Hs. pose proof Hs as [Hfull Hprev Hseen Hcache Hindex]. unfold report, kept_after, pushed. fold (secret_span call c).
  change (compute_match_key fx _ _ _ _) with (key_of (call, c)). cbn [fst snd] in Hlen. unfold met.
  rewrite <-(bool_decide_ext _ _ (Hseen (key_of (call, c)))). case_bool_decide as Hk; cbn [orb].
  - exists s. by rewrite app_nil_r.
  - pose proof (record_match_exact _ _ (rule_id call) (secret_span call c) Hprev) as Hr.
    destruct (record_match _ _ _) as [previous fresh]. destruct Hr as (-> & Hr & _).
    rewrite (proj2 (Nat.ltb_ge _ _) Hlen), andb_false_r. eexists. split; [reflexivity|]. cbn. split; [by destruct (covered _ _ _)|].
    split; [done|done| |done|done]. intros k. cbn. by rewrite elem_of_union, elem_of_singleton, elem_of_cons, Hseen.
Qed.

(** [s] is reached, with the findings of a verdict, or a filter panics. *)
Definition judged track seen kept keys (call : Call) (c : Spans.Captures) (s : MatchState) (r : option MatchState) : Prop :=
  match passes call c with
  | None => r = None
  | Some verdict =>
    let '(kept', keys') := kept_after kept keys call c verdict in
    exists s', r = Some s' /\ matches s' = matches s ++ pushed kept keys call c verdict /\ agrees track seen kept' keys' s'
  end.

Lemma judge_exact track seen kept keys call c s : call_ok call -> capture_ok (call, c) ->
  agrees track seen kept keys s -> judged track seen kept keys call c s (judge call c s).
Proof using compiled_engine scans_succeed SL keyword_regex.
  intros Hcall Hcap Hs. unfold judged, passes, MatchFilter.judge. rewrite check_content_exact by done.
  destruct (content call c) as [entropy|]; [|exists s; by rewrite app_nil_r].
  pose proof (filter_outcome_exact call c (filter_line_cache s) Hcap (agree_cache _ _ _ _ _ Hs)) as Ho.
  destruct (filter_outcome call c (filter_line_cache s)) as [[outcome cache]|]; [|by rewrite Ho]. destruct Ho as [-> Hcache].
  cbn [mbind option_bind]. destruct Hs as [Hfull Hprev Hseen _ Hindex].
  set (s1 := Build_MatchState _ _ _ _ _ cache _). assert (agrees track seen kept keys s1) as Hs1 by by split.
  destruct (discards outcome || negb _); [exists s1; by rewrite app_nil_r|]. cbn [orb].
  fold (secret_span call c). set (span := InlineIgnore.Build_OffsetSpan _ _).
  pose proof (cached_suppressed (inline_ignore_config call) (blob call) span (inline_ignore_index s)) as Hi.
  rewrite (call_buffer _ Hcall), (call_config _ Hcall) in *. specialize (Hi Hindex). cbn [inline_ignore_index] in *.
  destruct (should_ignore_cached _ _ _ _) as [ignore index]. destruct Hi as [-> Hi']. cbn [mbind option_bind].
  set (s2 := Build_MatchState _ _ _ _ _ _ index). assert (agrees track seen kept keys s2) as Hs2 by by split.
  destruct (suppressed _ _ _); [exists s2; by rewrite app_nil_r|]. cbn [orb].
  destruct (negb _); [exists s2; by rewrite app_nil_r|]. by apply (report_exact track seen kept keys call c entropy _ s2).
Qed.

(** What follows a state gives what [reference] does. *)
Definition follows track (k : MatchState -> option MatchState) (rest : list (Call * Spans.Captures)) : Prop :=
  forall s seen kept keys, agrees track seen kept keys s -> matches <$> k s = app (matches s) <$> reference track seen kept keys rest.

(** What [reference] does with a candidate that is no longer to be judged by its
    full match. *)
Definition then_reference track seen kept keys (call : Call) (c : Spans.Captures) rest : option (list BlobMatch) :=
  verdict ← passes call c;
  let '(kept', keys') := kept_after kept keys call c verdict in
  app (pushed kept keys call c verdict) <$> reference track seen kept' keys' rest.

Lemma then_reference_eq track seen kept keys call c rest : track && covered seen (rule_id call) (full_span call c) = false ->
  reference track seen kept keys ((call, c) :: rest) =
  then_reference track ((rule_id call, full_span call c) :: seen) kept keys call c rest.
Proof.
  intros E. cbn [reference]. rewrite E. unfold then_reference. destruct (passes call c) as [[[entropy effective]|]|]; [| |done]; cbn.
  - destruct (met keys call c); cbn; [by destruct (reference _ _ _ _ _)|]. destruct (covered kept _ _); [|done].
    by destruct (reference _ _ _ _ _).
  - by destruct (reference _ _ _ _ _).
Qed.

Lemma judged_follows track seen kept keys call c s r k rest : judged track seen kept keys call c s r -> follows track k rest ->
  matches <$> (r ≫= k) = app (matches s) <$> then_reference track seen kept keys call c rest.
Proof.
  unfold judged, then_reference. intros Hj Hk. destruct (passes call c) as [verdict|]; [|by subst]. cbn [mbind option_bind].
  destruct (kept_after kept keys call c verdict) as [kept' keys']. destruct Hj as (s' & -> & Hm & Ha).
  cbn [mbind option_bind]. rewrite (Hk _ _ _ _ Ha), Hm. destruct (reference _ _ _ _ _) as [l|]; [|done]. cbn. by rewrite app_assoc.
Qed.

Lemma step_follows track k rest call c : call_ok call -> capture_ok (call, c) -> interior call c = false ->
  follows track k rest -> follows track (fun s => step call c s ≫= k) ((call, c) :: rest).
Proof using compiled_engine scans_succeed SL keyword_regex.
  intros Hcall Hcap Hi Hk s seen kept keys Hs. unfold MatchFilter.step. rewrite Hi.
  pose proof Hs as [Hfull Hprev Hseen Hcache Hindex]. fold (full_span call c).
  assert (forall seen' s1, matches s1 = matches s -> agrees track seen' kept keys s1 ->
    matches <$> (judge call c s1 ≫= k) = app (matches s) <$> then_reference track seen' kept keys call c rest) as Hjudge.
  { intros seen' s1 <- Hs1. apply judged_follows; [by apply judge_exact|done]. }
  destruct (full_matches s) as [m|] eqn:Ef.
  - destruct Hfull as [-> Hfull]. pose proof (record_match_exact _ _ (rule_id call) (full_span call c) Hfull) as Hr.
    destruct (record_match _ _ _) as [m' fresh]. destruct Hr as (-> & Hr & Hsame).
    destruct (covered seen _ _) eqn:Ec; cbn [negb] in *.
    + cbn [reference]. rewrite Ec. apply (Hk (Build_MatchState _ _ _ _ _ _ _)). split; cbn; auto.
    + rewrite then_reference_eq by done. apply Hjudge; [done|]. split; cbn; auto.
  - subst track. rewrite then_reference_eq by done. apply Hjudge; [done|]. split; [by rewrite Ef|done..].
Qed.

Lemma steps_follow track k rest call captures : call_ok call ->
  (forall c, In c captures -> interior call c = false -> capture_ok (call, c)) -> follows track k rest ->
  follows track (fun s => steps call captures s ≫= k) (map (pair call) (List.filter (fun c => negb (interior call c)) captures) ++ rest).
Proof using compiled_engine scans_succeed SL keyword_regex.
  intros Hcall. induction captures as [|c captures IH]; cbn [MatchFilter.steps List.filter map app]; intros Hin Hk; [done|].
  assert (follows track (fun s => steps call captures s ≫= k)
    (map (pair call) (List.filter (fun c => negb (interior call c)) captures) ++ rest)) as Hnext by (apply IH; [|done]; intros; apply Hin; [by right|done]).
  intros s seen kept keys Hs. destruct (interior call c) eqn:Ei; cbn [negb map app].
  - unfold MatchFilter.step at 1. rewrite Ei. by apply Hnext.
  - pose proof (Hin c (or_introl eq_refl) Ei). rewrite <-(step_follows _ _ _ _ _ Hcall) by done. by destruct (step call c s).
Qed.

Lemma matches_path_exact r cell p : path_cell_ok path_regex_new cell -> fst (matches_path path_regex_new r cell p) = syntax_matches_path path_regex_new r p.
Proof.
  intros Hc. unfold matches_path, syntax_matches_path. destruct (path r) as [pattern|]; [|done].
  destruct cell as [[cached regex]|]; cbn.
  - rewrite (Hc cached regex eq_refl). by destruct (bytes_eqb_spec cached pattern) as [->|].
  - by destruct (bytes_eqb_spec pattern pattern).
Qed.

Lemma calls_follow track calls : Forall (fun x => call_ok x.1) calls -> (forall x, x ∈ decided calls -> capture_ok x) ->
  follows track (filter_matches calls) (decided calls).
Proof using compiled_engine scans_succeed SL keyword_regex.
  induction 1 as [|[call captures] calls Hcall _ IH]; cbn [decided flat_map MatchFilter.filter_matches]; intros Hin.
  { intros s seen kept keys _. cbn. by rewrite app_nil_r. }
  assert (follows track (filter_matches calls) (decided calls)) as Hnext.
  { apply IH. intros x Hx. apply Hin. unfold decided in *. cbn [flat_map]. apply elem_of_app. auto. }
  intros s seen kept keys Hs. unfold MatchFilter.filter_match. cbn [fst] in Hcall. rewrite matches_path_exact by apply Hcall.
  assert (betterleaks_path_only (rule call) || negb (syntax_matches_path path_regex_new (rule call) (filename call)) =
    negb (path_ok call (filename call))) as -> by (unfold path_ok; by destruct (betterleaks_path_only _), (syntax_matches_path _ _ _)).
  destruct (path_ok call (filename call)); cbn [negb] in *; [|by apply Hnext]. fold (decided calls) in *.
  rewrite <-(steps_follow track (filter_matches calls) (decided calls) call captures Hcall) with (3 := Hs);
    [by destruct (steps call captures s)| |done].
  intros c Hc Hi. apply Hin, elem_of_app. left. apply list_elem_of_In, in_map, filter_In. by rewrite Hi.
Qed.

(** The state a scan starts from. *)
Definition initial (track : bool) : MatchState := {|
  matches := []; full_matches := if track then Some ∅ else None; previous_matches := ∅; seen_matches := ∅;
  filter_line_cache := ∅; inline_ignore_index := None
|}.

Lemma initial_agrees track : agrees track [] [] [] (initial track).
Proof.
  split; cbn.
  - destruct track; [split; [done|apply tracked_empty]|done].
  - apply tracked_empty.
  - intros k. by rewrite elem_of_empty, elem_of_nil.
  - intros ? ? ? ? ? ? ? H. unfold cache_find in H. by rewrite lookup_empty in H.
  - by left.
Qed.

(** The calls of a scan and what they rely on. *)
Record scan_ok (calls : list (Call * list Spans.Captures)) : Prop := {
  calls_ok : Forall (fun x => call_ok x.1) calls;
  captures_ok : Forall capture_ok (decided calls)
}.

Lemma scan_exact track calls : scan_ok calls ->
  matches <$> filter_matches calls (initial track) = reference track [] [] [] (decided calls).
Proof using compiled_engine scans_succeed SL keyword_regex.
  intros [Hcalls Hcaptures]. rewrite (calls_follow track calls Hcalls) with (seen := []) (kept := []) (keys := []).
  - by destruct (reference _ _ _ _ _).
  - intros x Hx. by eapply Forall_forall in Hcaptures.
  - apply initial_agrees.
Qed.

(** C8. The caches of a scan decide nothing. The calls of [filter_match] on a
    buffer share compiled filter patterns, results on source lines, the index of
    inline directives, the interval maps of spans and the set of keys met; their
    findings are, in order, those of [reference], which asks the reference engine
    for every pattern, reads the directives off the lines and keeps plain lists of
    spans and keys. A match whose 64-bit key was met is dropped, also where another
    match has it; the reference does the same: nothing is assumed of collisions.
    Assumed: the native scanner reports of the patterns of a database what it reports
    of each alone ([ScanLaws]) and does not fail, but need not find what the regexes
    find; the regex of a rule's keywords finds them; the calls are about one buffer;
    filters are validated ones the engine was compiled from; a line's address and
    range identify it; secrets end within the buffer. *)
Theorem filter_matches_exact track calls : scan_ok calls ->
  matches <$> filter_matches calls (initial track) = reference track [] [] [] (decided calls).
Proof using compiled_engine scans_succeed SL keyword_regex. apply scan_exact. Qed.

(** ** What is found *)

(** A capture with its verdict. *)
Abbreviation Reported := ((Call * Spans.Captures) * (f32 * Confidence))%type.
Definition finding_of (r : Reported) : BlobMatch := finding r.1.1 r.1.2 r.2.1 r.2.2.

(** The full match, or the secret, of [y] lies within that of [x], for the same
    rule. *)
Definition within (span : Call -> Spans.Captures -> OffsetSpan) (y x : Call * Spans.Captures) : bool :=
  (rule_id x.1 =? rule_id y.1) && covers (entry (span x.1 x.2)) (entry (span y.1 y.2)).

Lemma covered_within spans id t s : covered spans id t = true -> covers (entry t) (entry s) = true -> covered spans id s = true.
Proof.
  unfold covered. rewrite !existsb_exists. intros ([id' u] & Hu & H) Hc. exists (id', u). split; [done|].
  apply andb_true_iff in H as [-> H]. cbn. eauto using covers_trans.
Qed.

(** The same rule and secret. *)
Definition same_secret (x y : Call * Spans.Captures) : Prop :=
  rule_id x.1 = rule_id y.1 /\ entry (secret_span x.1 x.2) = entry (secret_span y.1 y.2).

(** An earlier match with another secret has the key. *)
Definition collides (before : list (Call * Spans.Captures)) (x : Call * Spans.Captures) : Prop :=
  exists y, y ∈ before /\ key_of y = key_of x /\ ~ same_secret y x.

(** The candidates that [reported] lists with respect to spans and keys known
    before. *)
Record reports (track : bool) (seen kept : list (nat * OffsetSpan)) (keys : list Z) (cs : list (Call * Spans.Captures))
    (reported : list Reported) : Prop := {
  reports_in_order : map fst reported `sublist_of` cs;
  reports_pass : Forall (fun r => passes r.1.1 r.1.2 = Some (Some r.2)) reported;
  reports_new r : r ∈ reported -> covered kept (rule_id r.1.1) (secret_span r.1.1 r.1.2) = false;
  reports_distinct : StronglySorted (fun r r' => within secret_span r'.1 r.1 = false) reported;
  reports_all before x after verdict : cs = before ++ x :: after ->
    (track = true -> covered seen (rule_id x.1) (full_span x.1 x.2) = false /\ Forall (fun y => within full_span x y = false) before) ->
    passes x.1 x.2 = Some (Some verdict) ->
    covered kept (rule_id x.1) (secret_span x.1 x.2) = true \/ Exists (fun r => within secret_span x r.1 = true) reported \/
    key_of x ∈ keys \/ collides before x
}.

#[local] Instance same_secret_dec x y : Decision (same_secret x y).
Proof. unfold same_secret. apply _. Defined.

Lemma collides_cons y before x : collides before x -> collides (y :: before) x.
Proof. intros (z & ? & ?). exists z. split; [by right|done]. Qed.

Lemma same_covered kept x y : same_secret y x -> covered kept (rule_id y.1) (secret_span y.1 y.2) = true ->
  covered kept (rule_id x.1) (secret_span x.1 x.2) = true.
Proof. intros [Hid He]. unfold covered. by rewrite Hid, He. Qed.

(** A candidate that adds no finding. *)
Lemma reports_over track seen seen' kept kept' keys keys' x0 cs reported : reports track seen' kept' keys' cs reported ->
  (forall id s, covered kept' id s = covered kept id s) ->
  (forall k, k ∈ keys' -> k ∈ keys \/ k = key_of x0 /\ covered kept (rule_id x0.1) (secret_span x0.1 x0.2) = true) ->
  (forall x, track = true -> covered seen (rule_id x.1) (full_span x.1 x.2) = false -> within full_span x x0 = false ->
    covered seen' (rule_id x.1) (full_span x.1 x.2) = false) ->
  (forall verdict, (track = true -> covered seen (rule_id x0.1) (full_span x0.1 x0.2) = false) -> passes x0.1 x0.2 = Some (Some verdict) ->
    covered kept (rule_id x0.1) (secret_span x0.1 x0.2) = true \/ key_of x0 ∈ keys) ->
  reports track seen kept keys (x0 :: cs) reported.
Proof.
  intros [Horder Hpass Hnew Hdistinct Hall] Hkept Hkeys Hseen Hx0. split; [by constructor|done| |done|].
  - intros r Hr. rewrite <-Hkept. by apply Hnew.
  - intros [|y before] x after verdict [= <- Hcs] Hfresh Hp.
    + destruct (Hx0 verdict); [intros Ht; apply (Hfresh Ht)|done|by left|by right; right; left].
    + destruct (Hall before x after verdict Hcs) as [H|[H|[H|H]]]; [|done|rewrite <-Hkept; by left|by right; left| |].
      * intros Ht. destruct (Hfresh Ht) as [Hs Hb]. inversion_clear Hb. auto.
      * apply Hkeys in H as [?|[Hk Hc]]; [by right; right; left|]. destruct (decide (same_secret x0 x)).
        { left. by eapply same_covered. }
        right; right; right. exists x0. by split; [left|].
      * right; right; right. by apply collides_cons.
Qed.

(** A candidate that is reported. *)
Lemma reports_report track seen seen' kept keys x0 v cs reported :
  reports track seen' ((rule_id x0.1, secret_span x0.1 x0.2) :: kept) (key_of x0 :: keys) cs reported ->
  (forall x, track = true -> covered seen (rule_id x.1) (full_span x.1 x.2) = false -> within full_span x x0 = false ->
    covered seen' (rule_id x.1) (full_span x.1 x.2) = false) ->
  passes x0.1 x0.2 = Some (Some v) -> covered kept (rule_id x0.1) (secret_span x0.1 x0.2) = false ->
  reports track seen kept keys (x0 :: cs) ((x0, v) :: reported).
Proof.
  intros [Horder Hpass Hnew Hdistinct Hall] Hseen Hv Hx0.
  assert (forall id s, covered ((rule_id x0.1, secret_span x0.1 x0.2) :: kept) id s =
    (rule_id x0.1 =? id) && covers (entry (secret_span x0.1 x0.2)) (entry s) || covered kept id s) as Hc by done.
  split.
  - by constructor.
  - by constructor.
  - intros r [->|Hr]%elem_of_cons; [done|]. specialize (Hnew r Hr). rewrite Hc in Hnew. by apply orb_false_iff in Hnew as [_ ?].
  - constructor; [done|]. apply Forall_forall. intros r Hr. specialize (Hnew r Hr). rewrite Hc in Hnew.
    by apply orb_false_iff in Hnew as [? _].
  - intros [|y before] x after verdict [= <- Hcs] Hfresh Hp.
    + right. left. left. unfold within. cbn. by rewrite Nat.eqb_refl, covers_refl.
    + destruct (Hall before x after verdict Hcs) as [H|[H|[H|H]]]; [|done| |by right; left; right| |].
      * intros Ht. destruct (Hfresh Ht) as [Hs Hb]. inversion_clear Hb. auto.
      * rewrite Hc, orb_true_iff in H. destruct H; [by right; left; left|by left].
      * apply elem_of_cons in H as [H|H]; [|by right; right; left]. destruct (decide (same_secret x0 x)) as [[Hid He]|Hn].
        { right; left; left. unfold within. cbn. by rewrite Hid, He, Nat.eqb_refl, covers_refl. }
        right; right; right. exists x0. by split; [left|].
      * right; right; right. by apply collides_cons.
Qed.

Lemma reference_reports track cs : forall seen kept keys l, reference track seen kept keys cs = Some l ->
  exists reported, l = map finding_of reported /\ reports track seen kept keys cs reported.
Proof.
  induction cs as [|[call c] cs IH]; intros seen kept keys l; cbn [reference].
  { intros [= <-]. exists []. split; [done|]. split; [done|done|by intros r Hr%not_elem_of_nil|constructor|by intros []]. }
  assert (forall x, track = true -> covered seen (rule_id x.1) (full_span x.1 x.2) = false -> within full_span x (call, c) = false ->
    covered ((rule_id call, full_span call c) :: seen) (rule_id x.1) (full_span x.1 x.2) = false) as Hseen.
  { intros x _ Hs Hw. unfold within in Hw. unfold covered in *. cbn in *. by rewrite Hw, Hs. }
  destruct (track && covered seen _ _) eqn:Et.
  { apply andb_true_iff in Et as [-> Et]. intros (reported & -> & Hr)%IH. exists reported. split; [done|].
    eapply reports_over; [exact Hr|done|auto|auto|]. cbn. intros verdict Hf. by rewrite (Hf eq_refl) in Et. }
  destruct (passes call c) as [[[entropy effective]|]|] eqn:Ep; [| |done]; cbn [mbind option_bind].
  - unfold met. case_bool_decide as Hm; [|destruct (covered kept _ _) eqn:Ek].
    + intros (reported & -> & Hr)%IH. exists reported. split; [done|]. eapply reports_over; [exact Hr|done|auto|done|auto].
    + intros (reported & -> & Hr)%IH. exists reported. split; [done|]. eapply reports_over; [exact Hr| | |done|auto].
      * intros id s. cbn. destruct (Nat.eqb_spec (rule_id call) id) as [<-|]; [|done]. cbn.
        destruct (covers _ _) eqn:E; [|done]. symmetry. by eapply covered_within.
      * intros k [->|?]%elem_of_cons; auto.
    + destruct (reference _ _ _ _ cs) as [l'|] eqn:Er; [|done]. intros [= <-]. apply IH in Er as (reported & -> & Hr).
      exists (((call, c), (entropy, effective)) :: reported). split; [done|]. by eapply reports_report.
  - intros (reported & -> & Hr)%IH. exists reported. split; [done|]. eapply reports_over; [exact Hr|done|auto|done|].
    cbn. intros verdict _. by rewrite Ep.
Qed.

Lemma reference_total track cs : forall seen kept keys, Forall (fun x => passes x.1 x.2 <> None) cs ->
  exists l, reference track seen kept keys cs = Some l.
Proof.
  induction cs as [|[call c] cs IH]; intros seen kept keys H; [by exists []|]. inversion_clear H as [|? ? Hp Hcs]. cbn [reference fst snd] in *.
  destruct (track && _); [by apply IH|]. destruct (passes call c) as [[[entropy effective]|]|]; [| |done]; cbn [mbind option_bind]; [|by apply IH].
  destruct (met _ _ _); [by apply IH|].
  destruct (IH ((rule_id call, full_span call c) :: seen) ((rule_id call, secret_span call c) :: kept) (key_of (call, c) :: keys) Hcs) as [l ->].
  destruct (covered _ _ _); eexists; reflexivity.
Qed.

(** C9. What a scan finds. Unless a filter panics a scan ends; its findings are
    some of its candidates, in their order; each of them passes every check; none
    lies within one of the same rule reported before it; and the secret of a
    candidate that passes lies within a finding of its rule, if - when full matches
    are tracked - its full match lies within none before it, and unless another
    secret before it has its 64-bit key. A candidate passes by itself, by
    [passes], which knows no cache and no other candidate. What the scan relies on
    is what C8 says: of the native scanner that it takes patterns one by one and does
    not fail, and not that it finds what the regexes find. *)
Theorem findings_exact track calls : scan_ok calls ->
  Forall (fun x => passes x.1 x.2 <> None) (decided calls) ->
  exists s reported, filter_matches calls (initial track) = Some s /\ matches s = map finding_of reported /\
    map fst reported `sublist_of` decided calls /\
    Forall (fun r => passes r.1.1 r.1.2 = Some (Some r.2)) reported /\
    StronglySorted (fun r r' => within secret_span r'.1 r.1 = false) reported /\
    forall before x after verdict, decided calls = before ++ x :: after -> passes x.1 x.2 = Some (Some verdict) ->
      (track = true -> Forall (fun y => within full_span x y = false) before) -> ~ collides before x ->
      Exists (fun r => within secret_span x r.1 = true) reported.
Proof using compiled_engine scans_succeed SL keyword_regex.
  intros Hok Htotal. pose proof (scan_exact track calls Hok) as He.
  destruct (reference_total track (decided calls) [] [] [] Htotal) as [l Hl]. rewrite Hl in He.
  destruct (filter_matches calls _) as [s|]; [|done]. injection He as He. apply reference_reports in Hl as (reported & -> & [Ho Hp _ Hd Ha]).
  exists s, reported. repeat (split; [done|]). intros before x after verdict Hx Hv Hf Hc.
  destruct (Ha before x after verdict Hx) as [|[|[[]%not_elem_of_nil|]]]; [auto|done|done|done|done].
Qed.
End scan.

(** ** A scan of one buffer

    Two windows of [FilterExact.Concrete.buffer], with a rule whose filter searches
    the line of a match, and a call of another rule. *)
Module Example.
Import FilterExact.Concrete.

#[export] Instance integers : F32 := {|
  f32 := Z; f32_zero := 0%Z; f32_of_int n := n; f32_div := Z.div; f32_mul := Z.mul; f32_sub := Z.sub; f32_log2 := Z.log2; f32_le := Z.leb
|}.

(** [matchesAny(finding["line"], ["absent"])] *)
Definition line_filter : BetterleaksExpr := name_call "matchesAny" [finding_field "line"; Array [String (bs "absent")]].
Definition line_engine : BetterleaksFilterEngine := Eval vm_compute in
  match engine_compile [line_filter] with Ok engine => engine | _ => engine end.

Definition scan_rule (rule_id : string) (filter : option BetterleaksExpr) : ScanRule := {|
  base := {| id := bs rule_id; visible := true; specificity := 0; validation := None; depends_on_rule := [];
             runtime_minimum_confidence := Medium; runtime_dependency_helper := false |};
  name := bs "example"; path := None; keywords := [bs "KEY"]; min_entropy := (-1)%Z; confidence := Medium;
  pattern_requirements := None; betterleaks_filter := filter; betterleaks_secret_group := None; betterleaks_path_only := false
|}.

Definition call (r : ScanRule) (n from to : nat) : Call := {|
  rule := r; rule_id := n; path_cell := None; keyword_cell := None; blob := buffer; start := from; stop := to; ts_match := None;
  is_base64 := false; filename := bs "src/test.rs"; source_attributes := None; respect_ignore_if_contains := true;
  inline_ignore_config := config_new []; bounded_confirmation := false
|}.
Definition capture (a b c d : nat) : Spans.Captures := {| group0 := mkSpan a b; groups := [(None, Some (mkSpan c d))] |}.

(** [key = example0], then [= example0] in a window that starts later. *)
Definition calls : list (Call * list Spans.Captures) :=
  [(call (scan_rule "one" (Some line_filter)) 0 0 14, [capture 0 14 6 14]);
   (call (scan_rule "one" (Some line_filter)) 0 4 26, [capture 0 10 2 10]);
   (call (scan_rule "three" None) 1 0 26, [capture 0 14 6 14; capture 0 26 15 26])].

(** A text lies at an address of its own. *)
Definition placed (t : Texts) : Memory * BetterleaksFilterContext :=
  let held := [t_path t; t_secret t; t_full_match t; t_line t; t_fragment_raw t; t_rule_id t; t_description t] in
  let str n := (Z.of_nat n, length (nth n held [])) in
  ({| text_at ptr len := take len (nth (Z.to_nat ptr) held []); owned_at _ := (-1)%Z |},
   {| Filter.path := str 0; attributes := None; secret := str 1; full_match := str 2; line := str 3; fragment_raw := str 4;
      match_start_idx := Z.of_nat (t_match t).1; match_end_idx := Z.of_nat (t_match t).2;
      match_line_start_idx := Z.of_nat (t_match_line t).1; match_line_end_idx := Z.of_nat (t_match_line t).2;
      Filter.rule_id := str 5; description := str 6; captures := t_captures t |}).

(** The lines of the buffer, by their range. *)
Definition buffer_lines (k : Z * Z * Z * Z) : bytes := from_utf8_lossy (slice buffer (Z.to_nat k.1.2) (Z.to_nat k.2)).

Definition key (l : list Hashed) : Z :=
  foldr (fun h k => match h with HashBytes value => Z.of_nat (length value) | HashUsize n => Z.of_nat n end + 100 * k)%Z 0%Z l.
Definition no_parsers : UriParsers := {|
  is_parseable_mongodb_uri _ := false; is_parseable_postgres_uri _ := false; is_parseable_mysql_uri _ := false;
  is_parseable_credential_uri _ _ := false
|}.
Definition no_safe_list : SafeList := {| safe_rules := []; user_regexes := []; user_skipwords := [] |}.
Definition keyword_search (patterns : list bytes) : option (bytes -> bool) :=
  Some (fun l => existsb (fun k => contains_ignore_ascii_case k l) patterns).

Lemma line_placed (r : ScanRule) n a b c : group0_in (call r n a b) c ->
  LineKnown (Mem := (placed (texts (call r n a b) c)).1) (line (placed (texts (call r n a b) c)).2) (line_range (call r n a b) c) buffer_lines.
Proof.
  intros Hin. split.
  - cbn [placed line text_at fst snd nth]. change (Z.to_nat (Z.of_nat 3)) with 3. cbn [nth]. rewrite take_ge by done.
    unfold texts. cbn [t_line]. by rewrite window_line.
  - intros t Ht. cbn in Ht. lia.
Qed.

(** The scanner of the instance never fails. *)
Lemma scans_succeed : ~ native_fails.
Proof. by intros (db & input & H). Qed.

Definition candidates : list (Call * Spans.Captures) :=
  [(call (scan_rule "one" (Some line_filter)) 0 0 14, capture 0 14 6 14);
   (call (scan_rule "one" (Some line_filter)) 0 4 26, capture 0 10 2 10);
   (call (scan_rule "three" None) 1 0 26, capture 0 14 6 14);
   (call (scan_rule "three" None) 1 0 26, capture 0 26 15 26)].

Lemma calls_decided : decided (fun _ => None) calls = candidates.
Proof. reflexivity. Qed.

Lemma calls_scan_ok : scan_ok (fun _ => None) keyword_search placed [line_filter] buffer_lines buffer (config_new []) calls.
Proof.
  assert (forall from to c, group0_in (call (scan_rule "one" (Some line_filter)) 0 from to) c ->
    evaluation_ok [line_filter] buffer_lines
      (MatchExact.evaluation placed (call (scan_rule "one" (Some line_filter)) 0 from to) c line_filter)) as H.
  { intros from to c Hin. split; [by left|]. split; [done|]. by apply line_placed. }
  split; rewrite ?calls_decided.
  - repeat apply Forall_cons_2; try apply Forall_nil_2; done.
  - repeat apply Forall_cons_2; try apply Forall_nil_2; (split; [vm_compute; lia|]); intros e [= <-];
      apply H; unfold group0_in; cbn; lia.
Qed.
End Example.

Import FilterExact.Concrete Example.

(** The second window finds nothing new; the other rule finds the same secret and
    another one. *)
Lemma filter_matches_exact_witness :
  let scan := MatchFilter.filter_matches (filter_engine line_engine) (fun _ => None) keyword_search (fun _ _ => None) no_parsers no_safe_list key
    placed calls (initial true) in
  matches <$> scan = reference (fun _ _ => None) no_parsers no_safe_list key placed native_matches [line_filter] true [] [] []
    (decided (fun _ => None) calls) /\
  map matching_input ∘ matches <$> scan = Some [bs "example0"; bs "example0"; bs "src/test.rs"].
Proof.
  split; [|vm_compute; reflexivity].
  apply (filter_matches_exact (fun _ => None) keyword_search (fun _ _ => None) no_parsers no_safe_list key placed native_matches [line_filter] line_engine
    buffer_lines scans_succeed eq_refl) with (buffer := buffer) (config := config_new []).
  - intros patterns is_match l _ [= <-]. reflexivity.
  - exact calls_scan_ok.
Defined.

Lemma findings_exact_witness :
  let candidates := decided (fun _ => None) calls in
  let passes := passes (fun _ _ => None) no_parsers no_safe_list placed native_matches [line_filter] in
  exists s reported,
    MatchFilter.filter_matches (filter_engine line_engine) (fun _ => None) keyword_search (fun _ _ => None) no_parsers no_safe_list key
      placed calls (initial true) = Some s /\
    matches s = map finding_of reported /\ map fst reported `sublist_of` candidates /\
    Forall (fun r => passes r.1.1 r.1.2 = Some (Some r.2)) reported /\
    StronglySorted (fun r r' => within secret_span r'.1 r.1 = false) reported /\
    forall before x after verdict, candidates = before ++ x :: after ->
      passes x.1 x.2 = Some (Some verdict) ->
      (true = true -> Forall (fun y => within full_span x y = false) before) -> ~ collides key before x ->
      Exists (fun r => within secret_span x r.1 = true) reported.
Proof.
  apply (findings_exact (fun _ => None) keyword_search (fun _ _ => None) no_parsers no_safe_list key placed native_matches [line_filter] line_engine
    buffer_lines scans_succeed eq_refl) with (buffer := buffer) (config := config_new []).
  - intros patterns is_match l _ [= <-]. reflexivity.
  - exact calls_scan_ok.
  - rewrite calls_decided. unfold candidates. repeat apply Forall_cons_2; try apply Forall_nil_2; vm_compute; discriminate.
Defined.
