(* ===== verification/Components.v ===== *)
(** * Required components: [dependency_keep] of
      [kingfisher-scanner/src/components.rs]

    A finding whose rule requires components is kept only while a live match
    supports each of them; removing it may remove others. Every required component
    watches one supporting match, and only losing that one leads to another search.
    The index of live matches is an interface; the kept findings are the greatest
    set that supports itself, so findings that support each other stay. *)

From Stdlib Require Import ZArith Lia Bool.
From stdpp Require Import base list numbers option sets.
From S2P Require Import Prelude Control.

(** ** The index of the live matches *)

Class CandidateIndex (T : Type) := {
  find_candidate : T -> nat -> nat -> Ctl (option nat);
  remove : T -> nat -> T
}.

(** ** Propagation *)

Section keep.
Context {T : Type} {CI : CandidateIndex T} (control : ScanControl).

(** A watcher is a primary and the number of one of its dependencies. *)
Record Keep := {
  keep : list bool;
  watchers : list (list (nat * nat));
  removed : list nat;
  index : T
}.

Definition watch (candidate : nat) (w : nat * nat) (s : Keep) : Keep :=
  {| keep := keep s; watchers := alter (fun l => l ++ [w]) candidate (watchers s); removed := removed s; index := index s |}.

Definition drop_primary (primary : nat) (s : Keep) : Keep :=
  {| keep := <[primary := false]> (keep s); watchers := watchers s; removed := removed s ++ [primary]; index := remove (index s) primary |}.

Definition is_kept (s : Keep) (i : nat) : bool := nth i (keep s) false.

(** The dependencies of a primary that are left, until one has no candidate. *)
Fixpoint watch_dependencies (primary dependency rest : nat) (s : Keep) : Ctl Keep :=
  match rest with
  | 0 => ret s
  | S rest =>
    check control ;;!
    let! candidate := find_candidate (index s) primary dependency in
    match candidate with
    | Some candidate => watch_dependencies primary (S dependency) rest (watch candidate (primary, dependency) s)
    | None => ret (drop_primary primary s)
    end
  end.

Fixpoint watch_all (primary : nat) (dependency_counts : list nat) (s : Keep) : Ctl Keep :=
  match dependency_counts with
  | [] => ret s
  | count :: dependency_counts =>
    check control ;;!
    let! s := watch_dependencies primary 0 count s in
    watch_all (S primary) dependency_counts s
  end.

(** The watchers of a removed match look for another one. *)
Fixpoint rewatch (taken : list (nat * nat)) (s : Keep) : Ctl Keep :=
  match taken with
  | [] => ret s
  | (primary, dependency) :: taken =>
    check control ;;!
    if negb (is_kept s primary) then rewatch taken s
    else
      let! candidate := find_candidate (index s) primary dependency in
      match candidate with
      | Some replacement => rewatch taken (watch replacement (primary, dependency) s)
      | None => rewatch taken (drop_primary primary s)
      end
  end.

(** [while let Some(candidate) = removed.pop_front()]; a match is removed once. *)
Fixpoint propagate (fuel : nat) (s : Keep) : Ctl Keep :=
  match fuel, removed s with
  | S fuel, candidate :: queue =>
    check control ;;!
    let taken := nth candidate (watchers s) [] in
    let! s := rewatch taken {| keep := keep s; watchers := <[candidate := []]> (watchers s); removed := queue; index := index s |} in
    propagate fuel s
  | _, _ => ret s
  end.

Definition dependency_keep (dependency_counts : list nat) (ix : T) : Ctl (list bool * T) :=
  let n := length dependency_counts in
  let! s := watch_all 0 dependency_counts {| keep := replicate n true; watchers := replicate n []; removed := []; index := ix |} in
  let! s := propagate (S n) s in
  ret (keep s, index s).
End keep.
Arguments Keep : clear implicits.

(** ** What the index promises *)

(** [good ix]: the index is one the scan can reach; [live ix c]: the match is in it;
    [supports p d c]: it is a candidate for a dependency of a primary. *)
Class CandidateLaws {T} (CI : CandidateIndex T) (control : ScanControl) (dependency_counts : list nat) (good : T -> Prop)
    (live : T -> nat -> Prop) (supports : nat -> nat -> nat -> Prop) : Prop := {
  find_candidate_spec ix p d count : good ix -> dependency_counts !! p = Some count -> d < count -> csat control (find_candidate ix p d) (fun r =>
    match r with
    | Some c => c < length dependency_counts /\ live ix c /\ supports p d c
    | None => forall c, live ix c -> ~ supports p d c
    end);
  remove_good ix i : good ix -> i < length dependency_counts -> good (remove ix i);
  remove_live ix i c : good ix -> i < length dependency_counts -> live (remove ix i) c <-> live ix c /\ c <> i
}.

Section exact.
Context {T : Type} {CI : CandidateIndex T} (control : ScanControl) (dependency_counts : list nat).
Context (good : T -> Prop) (live : T -> nat -> Prop) (supports : nat -> nat -> nat -> Prop).
Abbreviation n := (length dependency_counts).
Context {CL : CandidateLaws CI control dependency_counts good live supports}.

(** Every dependency of every finding of the set has a candidate in the set. *)
Definition self_supporting (K : nat -> Prop) : Prop := forall p, K p -> p < n /\
  forall count d, dependency_counts !! p = Some count -> d < count -> exists c, K c /\ supports p d c.

Definition sustained (p : nat) : Prop := exists K, self_supporting K /\ K p.

Definition valid (w : nat * nat) : Prop := exists count, dependency_counts !! w.1 = Some count /\ w.2 < count.

(** [open] are watchers that are being looked at, [done] the dependencies that were
    searched; [m] bounds the removals to come. *)
Record ok (m : nat) (open : list (nat * nat)) (done : nat -> nat -> Prop) (s : Keep T) : Prop := {
  ok_keep : length (keep s) = n;
  ok_watchers : length (watchers s) = n;
  ok_good : good (index s);
  ok_live c : live (index s) c <-> is_kept s c = true;
  ok_sustained p : sustained p -> is_kept s p = true;
  ok_removed c : c ∈ removed s -> c < n /\ is_kept s c = false;
  ok_watched p d : done p d -> is_kept s p = true -> (p, d) ∈ open \/
    exists c, (p, d) ∈ nth c (watchers s) [] /\ supports p d c /\ (is_kept s c = true \/ c ∈ removed s);
  ok_valid w : w ∈ open \/ (exists c, w ∈ nth c (watchers s) []) -> valid w;
  ok_measure : length (removed s) + length (List.filter id (keep s)) <= m
}.

Lemma kept_lt (s : Keep T) c : is_kept s c = true -> c < length (keep s).
Proof. unfold is_kept. intros H. destruct (decide (c < length (keep s))); [done|]. rewrite nth_overflow in H by lia. done. Qed.

Lemma nth_alter_app (l : list (list (nat * nat))) c w i x : x ∈ nth i (alter (fun l => l ++ [w]) c l) [] <->
  x ∈ nth i l [] \/ (i = c /\ c < length l /\ x = w).
Proof.
  rewrite !nth_lookup. destruct (decide (i = c)) as [->|Hne].
  - rewrite list_lookup_alter_eq. destruct (l !! c) as [k|] eqn:E; cbn.
    + apply lookup_lt_Some in E. rewrite elem_of_app, list_elem_of_singleton. naive_solver.
    + apply lookup_ge_None in E. split; [by intros ?%not_elem_of_nil|]. intros [?%not_elem_of_nil|(_ & ? & _)]; [done|lia].
  - rewrite list_lookup_alter_ne by done. naive_solver.
Qed.

(** A watcher that found a candidate. *)
Lemma watch_ok m open open' done s p d c : ok m open' done s -> open' ⊆ (p, d) :: open -> open ⊆ open' ->
  valid (p, d) -> c < n -> live (index s) c -> supports p d c ->
  ok m open (fun q e => done q e \/ (q = p /\ e = d)) (watch c (p, d) s).
Proof.
  intros [Hk Hw Hg Hl Hs Hr Hd Hv Hm] Ho Ho' Hpd Hc Hlive Hsup. split; try done; cbn.
  - by rewrite length_alter.
  - assert ((p, d) ∈ nth c (alter (fun l => l ++ [(p, d)]) c (watchers s)) []) as Hnew.
    { apply nth_alter_app. right. by rewrite Hw. }
    intros q e Hqe Hq. destruct Hqe as [Hqe|[-> ->]]; [|right; exists c; rewrite Hl in Hlive; auto].
    destruct (Hd q e Hqe Hq) as [[[= -> ->]|?]%Ho%elem_of_cons|(c' & ? & ? & ?)]; [right; exists c; rewrite Hl in Hlive; auto|by left|right].
    exists c'. split; [|done]. apply nth_alter_app. by left.
  - intros w [Hw'|(c' & [Hw'|(_ & _ & ->)]%nth_alter_app)]; [apply Hv; auto|apply Hv; eauto|done].
Qed.

Lemma filter_insert_false (l : list bool) i : nth i l false = true -> S (length (List.filter id (<[i := false]> l))) = length (List.filter id l).
Proof. revert i. induction l as [|b l IH]; intros [|i]; cbn; try done; [by intros ->|]. intros H. destruct b; cbn; rewrite <-(IH i H); done. Qed.

Lemma kept_drop s p i : is_kept (drop_primary p s) i = is_kept s i && negb (i =? p).
Proof.
  unfold is_kept, drop_primary. cbn. rewrite !nth_lookup. destruct (Nat.eqb_spec i p) as [->|Hne]; cbn.
  - rewrite andb_false_r. destruct (decide (p < length (keep s))); [by rewrite list_lookup_insert_eq|].
    by rewrite list_insert_ge, lookup_ge_None_2 by lia.
  - by rewrite list_lookup_insert_ne, andb_true_r by done.
Qed.

(** A finding that lost its last candidate is not sustained. *)
Lemma drop_ok m open done s p d count : ok m open done s -> is_kept s p = true -> dependency_counts !! p = Some count -> d < count ->
  (forall c, live (index s) c -> ~ supports p d c) -> ok m open done (drop_primary p s).
Proof using CL.
  intros [Hk Hw Hg Hl Hs Hr Hd Hv Hm] Hp Hcount Hdc Hnone. split; cbn [drop_primary keep watchers removed index].
  - by rewrite length_insert.
  - done.
  - apply remove_good; [done|]. rewrite <-Hk. by apply kept_lt.
  - intros c. rewrite remove_live by (rewrite <-?Hk; by try apply kept_lt). rewrite Hl, kept_drop, andb_true_iff, negb_true_iff, Nat.eqb_neq. done.
  - intros q Hq. rewrite kept_drop, (Hs q Hq). cbn. destruct (Nat.eqb_spec q p) as [->|]; [exfalso|done].
    destruct Hq as (K & HK & Hq). destruct (HK p Hq) as [_ Hsup]. destruct (Hsup count d Hcount Hdc) as (c & Hc & Hsc).
    apply (Hnone c); [|done]. apply Hl, Hs. by exists K.
  - intros c. rewrite kept_drop, elem_of_app, list_elem_of_singleton. intros [[? ->]%Hr| ->]; [done|].
    split; [|by rewrite Nat.eqb_refl, andb_false_r]. rewrite <-Hk. by apply kept_lt.
  - intros q e Hqe Hq. rewrite kept_drop in Hq. apply andb_true_iff in Hq as [Hq Hqp].
    destruct (Hd q e Hqe Hq) as [?|(c & Hc & Hsup & Hlive)]; [by left|right]. exists c. split; [done|]. split; [done|].
    rewrite kept_drop, elem_of_app, list_elem_of_singleton. destruct (Nat.eqb_spec c p) as [->|]; [auto|].
    rewrite andb_true_r. naive_solver.
  - done.
  - rewrite length_app. cbn. unfold is_kept in Hp. pose proof (filter_insert_false (keep s) p Hp). lia.
Qed.

Lemma ok_done m open done done' s : ok m open done s -> (forall p d, done' p d -> is_kept s p = true -> done p d) -> ok m open done' s.
Proof. intros [Hk Hw Hg Hl Hs Hr Hd Hv Hm] H. split; auto. Qed.

(** The first pass: the findings from [p] on are still kept. *)
Definition later_kept (p : nat) (s : Keep T) : Prop := forall q, p <= q < n -> is_kept s q = true.

Lemma watch_dependencies_ok m done p count total : forall d s, dependency_counts !! p = Some total -> d + count = total ->
  ok m [] done s -> later_kept p s ->
  csat control (watch_dependencies control p d count s) (fun s' =>
    ok m [] (fun q e => done q e \/ (q = p /\ d <= e < total)) s' /\ later_kept (S p) s').
Proof using CL.
  revert done. induction count as [|count IH]; intros done d s Hp Hd Hok Hlater; cbn [watch_dependencies].
  { apply csat_ret. split; [|intros q ?; apply Hlater; lia]. eapply ok_done; [done|]. intros q e [?|[-> ?]] _; [done|lia]. }
  assert (p < n) as Hpn by by eapply lookup_lt_Some.
  eapply csat_bind; [by apply (csat_check _ (fun _ => True))|intros _ _]. eapply csat_bind; [apply (find_candidate_spec _ _ _ total); [apply Hok|done|lia]|]. intros [c|] Hc.
  - destruct Hc as (Hcn & Hlive & Hsup). eapply csat_weaken.
    + apply (IH (fun q e => done q e \/ (q = p /\ e = d)) (S d)); [done|lia| |done].
      eapply watch_ok; [exact Hok|set_solver|done| |done..]. exists total. split; [done|cbn; lia].
    + cbn. intros s' [Hs' Hl']. split; [|done]. eapply ok_done; [done|]. intros q e [?|[-> ?]] _; [auto|].
      destruct (decide (e = d)) as [->|]; [auto|right; lia].
  - apply csat_ret. split.
    + eapply ok_done; [eapply (drop_ok m [] done s p d total); [done|apply Hlater; lia|done|lia|done]|].
      intros q e [?|[-> _]]; [done|]. rewrite kept_drop, Nat.eqb_refl, andb_false_r. done.
    + intros q Hq. rewrite kept_drop, Hlater by lia. destruct (Nat.eqb_spec q p); [lia|done].
Qed.

Lemma watch_all_ok m counts : forall p done s, drop p dependency_counts = counts ->
  ok m [] done s -> later_kept p s ->
  csat control (watch_all control p counts s) (fun s' =>
    ok m [] (fun q e => done q e \/ (p <= q /\ exists count, dependency_counts !! q = Some count /\ e < count)) s').
Proof using CL.
  induction counts as [|count counts IH]; intros p done s Hdrop Hok Hlater; cbn [watch_all].
  { apply csat_ret. eapply ok_done; [done|]. intros q e [?|(Hq & k & Hk & _)] _; [done|].
    apply lookup_lt_Some in Hk. apply (f_equal length) in Hdrop. rewrite length_drop in Hdrop. cbn in Hdrop. lia. }
  assert (dependency_counts !! p = Some count) as Hp.
  { rewrite <-(Nat.add_0_r p), <-lookup_drop, Hdrop. done. }
  eapply csat_bind; [by apply (csat_check _ (fun _ => True))|intros _ _].
  eapply csat_bind; [by apply (watch_dependencies_ok m done p count count)|]. intros s' [Hs' Hl'].
  eapply csat_weaken; [apply IH; [|exact Hs'|done]|].
  - apply (f_equal (drop 1)) in Hdrop. rewrite drop_drop, Nat.add_1_r in Hdrop. exact Hdrop.
  - cbn. intros s'' Hs''. eapply ok_done; [done|]. intros q e [?|(Hq & k & Hk & He)] _; [auto|].
    destruct (decide (q = p)) as [->|]; [|right; split; [lia|eauto]]. assert (k = count) as -> by congruence. left. right. lia.
Qed.

(** The watchers that lost their candidate. *)
Lemma rewatch_ok m done taken : forall s, ok m taken done s -> csat control (rewatch control taken s) (ok m [] done).
Proof using CL.
  induction taken as [|[p d] taken IH]; intros s Hok; cbn [rewatch]; [by apply csat_ret|].
  assert (valid (p, d)) as Hv by (apply (ok_valid _ _ _ _ Hok); left; by left).
  eapply csat_bind; [by apply (csat_check _ (fun _ => True))|intros _ _]. destruct (is_kept s p) eqn:Ep; cbn [negb].
  - destruct Hv as (count & Hp & Hdc). cbn [fst snd] in *.
    eapply csat_bind; [apply (find_candidate_spec _ _ _ count); [apply Hok|done..]|]. intros [c|] Hc; apply IH.
    + destruct Hc as (Hcn & Hlive & Hsup). eapply ok_done; [eapply (watch_ok m taken ((p, d) :: taken)); [done|set_solver|set_solver|by exists count|done..]|by intros q e ?; left].
    + pose proof (drop_ok m _ _ s p d count Hok Ep Hp Hdc Hc) as [Hk Hw Hg Hl Hs Hr Hd Hv Hm].
      split; try done; [|set_solver]. intros q e Hqe Hq. destruct (Hd q e Hqe Hq) as [[[= -> ->]|?]%elem_of_cons|?]; [|by left|by right].
      rewrite kept_drop, Nat.eqb_refl, andb_false_r in Hq. done.
  - apply IH. destruct Hok as [Hk Hw Hg Hl Hs Hr Hd Hv' Hm]. split; try done; [|set_solver].
    intros q e Hqe Hq. destruct (Hd q e Hqe Hq) as [[[= -> ->]|?]%elem_of_cons|?]; [congruence|by left|by right].
Qed.

Lemma nth_insert_nil (l : list (list (nat * nat))) c i : nth i (<[c := []]> l) [] = if decide (i = c) then [] else nth i l [].
Proof.
  rewrite !nth_lookup. destruct (decide (i = c)) as [->|Hne].
  - destruct (decide (c < length l)); [by rewrite list_lookup_insert_eq|]. by rewrite list_insert_ge, lookup_ge_None_2 by lia.
  - by rewrite list_lookup_insert_ne.
Qed.

Lemma take_ok m done s c queue : ok (S m) [] done s -> removed s = c :: queue ->
  ok m (nth c (watchers s) []) done {| keep := keep s; watchers := <[c := []]> (watchers s); removed := queue; index := index s |}.
Proof.
  intros [Hk Hw Hg Hl Hs Hr Hd Hv Hm] Hq. split; cbn; try done.
  - by rewrite length_insert.
  - intros x Hx. apply Hr. rewrite Hq. by right.
  - intros p d Hpd Hp. destruct (Hd p d Hpd Hp) as [[]%not_elem_of_nil|(c' & Hin & Hsup & Hlive)].
    destruct (decide (c' = c)) as [->|Hne]; [by left|right]. exists c'. rewrite nth_insert_nil, decide_False by done.
    split; [done|]. split; [done|]. rewrite Hq, elem_of_cons in Hlive. naive_solver.
  - intros w [?|(c' & Hc')]; apply Hv; right; [eauto|]. rewrite nth_insert_nil in Hc'. destruct (decide (c' = c)); [by apply not_elem_of_nil in Hc'|eauto].
  - rewrite Hq in Hm. cbn in Hm. lia.
Qed.

Lemma propagate_ok done fuel : forall m s, ok m [] done s -> m <= fuel ->
  csat control (propagate control fuel s) (fun s' => ok m [] done s' /\ removed s' = []).
Proof using CL.
  induction fuel as [|fuel IH]; intros m s Hok Hm; cbn [propagate].
  - apply csat_ret. split; [done|]. pose proof (ok_measure _ _ _ _ Hok). destruct (removed s); [done|cbn in *; lia].
  - destruct (removed s) as [|c queue] eqn:Eq; [by apply csat_ret|].
    pose proof (ok_measure _ _ _ _ Hok) as Hlen. rewrite Eq in Hlen. cbn in Hlen. destruct m as [|m]; [lia|].
    eapply csat_bind; [by apply (csat_check _ (fun _ => True))|intros _ _].
    eapply csat_bind; [by apply (rewatch_ok m), (take_ok m)|]. intros s' Hs'.
    eapply csat_weaken; [apply (IH m); [exact Hs'|lia]|]. cbn. intros s'' [Hs'' ?]. split; [|done].
    destruct Hs'' as [Hk Hw Hg Hl Hs Hr Hd Hv Hm']. split; try done. lia.
Qed.

(** What is kept, and that the index is still a good one. *)
Lemma dependency_keep_sustained (ix : T) : good ix -> (forall c, live ix c <-> c < n) ->
  csat control (dependency_keep control dependency_counts ix) (fun '(kept, ix') =>
    good ix' /\ length kept = n /\ (forall p, nth p kept false = true <-> sustained p) /\ (forall c, live ix' c <-> sustained c)).
Proof using CL.
  intros Hgood Hix. unfold dependency_keep. eapply csat_bind.
  { apply (watch_all_ok n dependency_counts 0 (fun _ _ => False)); [done| |].
    - assert (forall c, nth c (replicate n true) false = true <-> c < n) as Hkept.
      { intros c. rewrite nth_lookup. destruct (decide (c < n)) as [Hc|Hc].
        - by rewrite (lookup_replicate_2 _ _ _ Hc).
        - rewrite lookup_ge_None_2 by (rewrite length_replicate; lia). split; [done|lia]. }
      split; unfold is_kept; cbn; rewrite ?length_replicate; try done.
      + intros c. by rewrite Hkept.
      + intros p (K & HK & Hp). apply Hkept. by apply (HK p).
      + intros c Hc. by apply not_elem_of_nil in Hc.
      + intros w [Hw|(c & Hc)]; [by apply not_elem_of_nil in Hw|]. rewrite nth_lookup in Hc.
        destruct (replicate n [] !! c) eqn:E; [apply lookup_replicate in E as [-> _]|]; by apply not_elem_of_nil in Hc.
      + assert (forall k, length (List.filter id (replicate k true)) = k) as -> by (induction k; cbn; congruence). done.
    - intros q Hq. unfold is_kept. cbn. rewrite nth_lookup. by rewrite lookup_replicate_2 by lia. }
  intros s Hs. eapply csat_bind; [apply (propagate_ok _ (S n) n s Hs); lia|]. intros s' [[Hk Hw Hg Hl Hsus Hr Hd Hv Hm] Hempty]. apply csat_ret.
  assert (forall p, is_kept s' p = true <-> sustained p) as Hkept.
  { intros p. split; [|apply Hsus]. intros Hp. exists (fun i => is_kept s' i = true). split; [|done].
    intros q Hq. split; [rewrite <-Hk; by apply kept_lt|]. intros count d Hcount Hdc.
    destruct (Hd q d) as [[]%not_elem_of_nil|(c & _ & Hsup & [?|Hc])]; [right; split; [lia|eauto]|done|by exists c|].
    rewrite Hempty in Hc. by apply not_elem_of_nil in Hc. }
  split; [done|]. split; [done|]. split; [exact Hkept|]. intros c. by rewrite Hl, Hkept.
Qed.

(** C7. The kept findings are the greatest set in which every required dependency
    has a candidate, and the index is left with exactly these: whatever the clock
    of the control does the answer is this one, or the scan is limited and
    aborted. Findings that support each other in a circle are kept; a finding
    falls with the last candidate of one of its dependencies. *)
Theorem dependency_keep_greatest (ix : T) : good ix -> (forall c, live ix c <-> c < n) ->
  csat control (dependency_keep control dependency_counts ix) (fun '(kept, ix') =>
    length kept = n /\ (forall p, nth p kept false = true <-> sustained p) /\ (forall c, live ix' c <-> sustained c)).
Proof using CL. intros Hgood Hix. eapply csat_weaken; [by apply dependency_keep_sustained|]. intros [kept ix']. tauto. Qed.
End exact.

(** Findings 0 and 1 support each other, 2 needs 3, which needs what is not there. *)
Definition edges : list (nat * nat * nat) := [(0, 0, 1); (1, 0, 0); (2, 0, 3)].
Definition supported_by (p d c : nat) : bool := bool_decide ((p, d, c) ∈ edges).
#[export] Instance live_list : CandidateIndex (list nat) := {|
  find_candidate ix p d := ret (List.find (supported_by p d) ix);
  remove ix i := List.filter (fun c => negb (c =? i)) ix
|}.

#[export] Instance live_list_laws control : CandidateLaws live_list control [1; 1; 1; 1] (fun _ => True) (fun ix c => c ∈ ix) (fun p d c => supported_by p d c = true).
Proof.
  split.
  - intros ix p d count _ _ _. apply csat_ret. destruct (List.find (supported_by p d) ix) as [c|] eqn:E.
    + apply find_some in E as [Hin Hc]. split; [|split; [by apply list_elem_of_In|done]].
      apply bool_decide_eq_true in Hc. unfold edges in Hc. rewrite !elem_of_cons in Hc.
      destruct Hc as [[= _ _ ->]|[[= _ _ ->]|[[= _ _ ->]|[]%not_elem_of_nil]]]; cbn; lia.
    + intros c Hc. by rewrite (find_none _ _ E c) by by apply list_elem_of_In.
  - done.
  - intros ix i c _ _. rewrite !list_elem_of_In. cbn [remove live_list]. rewrite filter_In, negb_true_iff, Nat.eqb_neq. done.
Qed.

Lemma dependency_keep_greatest_witness :
  let counts := [1; 1; 1; 1] in
  csat control_default (dependency_keep control_default counts [0; 1; 2; 3]) (fun '(kept, ix') =>
    length kept = 4 /\
    (forall p, nth p kept false = true <-> sustained counts (fun p d c => supported_by p d c = true) p) /\
    (forall c, c ∈ ix' <-> sustained counts (fun p d c => supported_by p d c = true) c)) /\
  fst (dependency_keep control_default counts [0; 1; 2; 3] (fun _ => {| is_cancelled := false; now := 0 |}) 0) =
    inl ([true; true; false; false], [0; 1]).
Proof.
  split; [|vm_compute; reflexivity].
  apply (dependency_keep_greatest control_default [1; 1; 1; 1] (fun _ => True) (fun ix c => c ∈ ix) (fun p d c => supported_by p d c = true) [0; 1; 2; 3] I). intros c. rewrite !elem_of_cons.
  split; [intros [->|[->|[->|[->|[]%not_elem_of_nil]]]]; cbn; lia|]. destruct c as [|[|[|[|c]]]]; cbn; [auto..|lia].
Defined.
