(* ===== verification/CandidateSearch.v ===== *)
(** * Ranked credential combinations: [search] of
      [kingfisher-scanner/src/validation/candidates.rs]

    A finding may have several candidates for each of its components, best first.
    The search tries combinations of them without building them all: a heap holds
    the combinations reached so far, and trying one adds those with one component
    replaced by its next candidate. It is shown to try the combinations in the order
    of their total rank, each once, up to the budget. The validator is a stateful
    parameter; time is a clock that is read once per attempt. *)

From Stdlib Require Import ZArith Lia Bool.
From stdpp Require Import base list numbers option sorting sets.
From S2P Require Import Prelude.

Definition MAX_COMBINATIONS : nat := 16.
Definition MAX_SEARCH_TIME : Z := 30 * 10 ^ 9.

Inductive CandidateCheck (T : Type) :=
  | Accepted (value : T)
  | Rejected
  | Unresolved (reason : string) (unavailable : bool).
Arguments Accepted {T}. Arguments Rejected {T}. Arguments Unresolved {T}.

Record SearchFailure := { attempted : nat; failure_reason : string; failure_unavailable : bool }.

(** ** The heap *)

(** [Ord for Vec<usize>] on vectors of one length. *)
Fixpoint lex_ltb (a b : list nat) : bool :=
  match a, b with
  | x :: a, y :: b => (x <? y) || ((x =? y) && lex_ltb a b)
  | [], _ :: _ => true
  | _, [] => false
  end.

(** [Reverse((score, indices))]: the least score first. *)
Definition heap_ltb (a b : nat * list nat) : bool := (a.1 <? b.1) || ((a.1 =? b.1) && lex_ltb a.2 b.2).

(** [BinaryHeap]: what it holds, in the order of the pops. *)
Fixpoint heap_push (x : nat * list nat) (queue : list (nat * list nat)) : list (nat * list nat) :=
  match queue with
  | [] => [x]
  | y :: queue' => if heap_ltb x y then x :: queue else y :: heap_push x queue'
  end.

Section search.
Context {T State : Type} (validate : list nat -> Z -> State -> CandidateCheck T * State).
(** [NetworkLimits::current().unlimited_results], the clock, and whether the wait
    for a permit ends in time. *)
Context (unlimited_results : bool) (now : nat -> Z) (acquired : bool).

(** The combinations next to [indices]. *)
Definition push_next (lengths : list nat) (score : nat) (indices : list nat)
    (st : list (list nat) * list (nat * list nat)) : list (list nat) * list (nat * list nat) :=
  fold_left (fun '(seen, queue) dimension =>
    let next := alter S dimension indices in
    if (nth dimension next 0 <? nth dimension lengths 0) && negb (bool_decide (next ∈ seen))
    then (next :: seen, heap_push (S score, next) queue)
    else (seen, queue)) (seq 0 (length lengths)) st.

(** [lengths.iter().fold(1, saturating_mul)] *)
Definition total_combinations (lengths : list nat) : Z :=
  fold_left (fun n len => Z.min (n * Z.of_nat len) USIZE_MAX) lengths 1%Z.

Definition exhausted (lengths : list nat) (tried : nat) : SearchFailure := {|
  attempted := tried;
  failure_reason := if (Z.of_nat tried <? total_combinations lengths)%Z then "combination budget exhausted" else "no candidate combination verified";
  failure_unavailable := false
|}.

(** The time left for an attempt, if any is. *)
Definition remaining_time (deadline : option Z) (tick : nat) : option Z :=
  match deadline with
  | Some d => let remaining := Z.max 0 (d - now tick) in if (remaining =? 0)%Z then None else Some remaining
  | None => Some 0%Z
  end.

(** One attempt: the end of the search, or that it goes on. *)
Definition attempt (lengths : list nat) (deadline : option Z) (tick tried : nat) (indices : list nat) (s : State)
    : option (T + SearchFailure) * State :=
  match remaining_time deadline tick with
  | None => (Some (inr {| attempted := tried; failure_reason := "time budget exhausted"; failure_unavailable := true |}), s)
  | Some remaining =>
    match validate indices remaining s with
    | (Accepted value, s) => (Some (inl value), s)
    | (Unresolved reason unavailable, s) =>
      (Some (inr {| attempted := S tried; failure_reason := reason; failure_unavailable := unavailable |}), s)
    | (Rejected, s) =>
      (if negb unlimited_results && (S tried =? MAX_COMBINATIONS) then Some (inr (exhausted lengths (S tried))) else None, s)
    end
  end.

(** A combination is popped once, so [fuel] above their number suffices. *)
Fixpoint search_loop (fuel : nat) (lengths : list nat) (deadline : option Z) (tick tried : nat)
    (seen : list (list nat)) (queue : list (nat * list nat)) (s : State) : (T + SearchFailure) * State :=
  match fuel, queue with
  | S fuel, (score, indices) :: queue =>
    match attempt lengths deadline tick tried indices s with
    | (Some result, s) => (result, s)
    | (None, s) =>
      let '(seen, queue) := push_next lengths score indices (seen, queue) in
      search_loop fuel lengths deadline (S tick) (S tried) seen queue s
    end
  | _, _ => (inr (exhausted lengths tried), s)
  end.

(** A zero timeout sets no deadline, and then the wait for a permit has no end. *)
Definition search (lengths : list nat) (timeout : Z) (s : State) : (T + SearchFailure) * State :=
  let deadline := if (timeout =? 0)%Z then None else Some (now 0 + Z.min timeout MAX_SEARCH_TIME)%Z in
  if negb acquired && negb (timeout =? 0)%Z then
    (inr {| attempted := 0; failure_reason := "time budget exhausted while waiting for a verification slot"; failure_unavailable := true |}, s)
  else
    let initial := map (fun _ => 0) lengths in
    search_loop (S (foldr Nat.mul 1 lengths)) lengths deadline 1 0 [initial] [(0, initial)] s.

(** ** The reference *)

(** Combinations tried in a given order. *)
Fixpoint try_in_order (combinations : list (list nat)) (lengths : list nat) (deadline : option Z) (tick tried : nat) (s : State)
    : (T + SearchFailure) * State :=
  match combinations with
  | [] => (inr (exhausted lengths tried), s)
  | indices :: combinations =>
    match attempt lengths deadline tick tried indices s with
    | (Some result, s) => (result, s)
    | (None, s) => try_in_order combinations lengths deadline (S tick) (S tried) s
    end
  end.
End search.

(** All combinations, and their order: the total rank first, then that of the
    first component, and so on. *)
Fixpoint box (lengths : list nat) : list (list nat) :=
  match lengths with [] => [[]] | n :: lengths => flat_map (fun i => map (cons i) (box lengths)) (seq 0 n) end.
Definition score (x : list nat) : nat := foldr Nat.add 0 x.
Definition scored (x : list nat) : nat * list nat := (score x, x).
Definition ranked_pairs (lengths : list nat) : list (nat * list nat) := foldr heap_push [] (map scored (box lengths)).
Definition ranked (lengths : list nat) : list (list nat) := map snd (ranked_pairs lengths).

Example ranked_example : ranked [2; 3] = [[0; 0]; [0; 1]; [1; 0]; [0; 2]; [1; 1]; [1; 2]].
Proof. reflexivity. Qed.

(** ** The order *)

Definition heap_lt (a b : nat * list nat) : Prop := heap_ltb a b = true.

Lemma lex_trans a : forall b c, lex_ltb a b = true -> lex_ltb b c = true -> lex_ltb a c = true.
Proof.
  induction a as [|x a IH]; intros [|y b] [|z c]; cbn [lex_ltb]; try done. rewrite !orb_true_iff, !andb_true_iff, !Nat.ltb_lt, !Nat.eqb_eq.
  intros [?|[-> Hab]] [?|[-> Hbc]]; [left; lia|by left|by left|right; eauto].
Qed.
Lemma lex_irrefl a : lex_ltb a a = false.
Proof. induction a as [|x a IH]; cbn [lex_ltb]; [done|]. by rewrite Nat.ltb_irrefl, Nat.eqb_refl. Qed.
Lemma lex_total a : forall b, length a = length b -> a = b \/ lex_ltb a b = true \/ lex_ltb b a = true.
Proof.
  induction a as [|x a IH]; intros [|y b]; cbn [lex_ltb length]; try done; [by left|]. intros [= H].
  rewrite !orb_true_iff, !andb_true_iff, !Nat.ltb_lt, !Nat.eqb_eq. destruct (IH b H) as [->|Hb], (Nat.lt_total x y) as [|[->|]]; naive_solver.
Qed.

#[export] Instance heap_lt_trans : Transitive heap_lt.
Proof.
  intros [n a] [m b] [k c]. unfold heap_lt, heap_ltb. cbn [fst snd]. rewrite !orb_true_iff, !andb_true_iff, !Nat.ltb_lt, !Nat.eqb_eq.
  intros [?|[-> ?]] [?|[-> ?]]; [left; lia|by left|by left|right; eauto using lex_trans].
Qed.
Lemma heap_irrefl a : ~ heap_lt a a.
Proof. unfold heap_lt, heap_ltb. by rewrite Nat.ltb_irrefl, Nat.eqb_refl, lex_irrefl. Qed.
Lemma heap_total a b : length a.2 = length b.2 -> a = b \/ heap_lt a b \/ heap_lt b a.
Proof.
  destruct a as [n a], b as [m b]. cbn [snd]. intros H. unfold heap_lt, heap_ltb. cbn [fst snd].
  rewrite !orb_true_iff, !andb_true_iff, !Nat.ltb_lt, !Nat.eqb_eq. destruct (lex_total a b H) as [->|Hab], (Nat.lt_total n m) as [|[->|]]; naive_solver.
Qed.

Lemma heap_push_elem x queue e : e ∈ heap_push x queue <-> e = x \/ e ∈ queue.
Proof.
  induction queue as [|y queue IH]; cbn; [by rewrite list_elem_of_singleton, elem_of_nil; naive_solver|].
  destruct (heap_ltb x y); rewrite !elem_of_cons, ?IH; naive_solver.
Qed.

Lemma heap_push_sorted k x queue : StronglySorted heap_lt queue -> (forall e, e ∈ x :: queue -> length e.2 = k) -> x ∉ queue ->
  StronglySorted heap_lt (heap_push x queue).
Proof.
  induction 1 as [|y queue Hs IH Hy]; intros Hk Hx; cbn; [by repeat constructor|].
  destruct (heap_ltb x y) eqn:E.
  - constructor; [by constructor|]. constructor; [done|]. eapply List.Forall_impl; [|exact Hy]. intros z Hz. by transitivity y.
  - assert (heap_lt y x) as Hyx.
    { destruct (heap_total x y) as [->|[H|H]]; [|by destruct Hx; left|by unfold heap_lt in H; congruence|done].
      rewrite (Hk x), (Hk y); [done|right; by left|by left]. }
    constructor.
    + apply IH; [intros e He; apply Hk; set_solver|set_solver].
    + apply Forall_forall. intros z [->|Hz]%heap_push_elem; [done|]. by eapply Forall_forall in Hy.
Qed.

(** The least element comes first. *)
Lemma sorted_head x l y k : StronglySorted heap_lt (x :: l) -> StronglySorted heap_lt (y :: k) -> y ∈ x :: l -> x ∈ y :: k -> x = y.
Proof.
  rewrite !elem_of_cons. intros H1 H2 [Hy|Hy] [Hx|Hx]; try done. inversion_clear H1 as [|? ? _ Hl]. inversion_clear H2 as [|? ? _ Hk].
  eapply Forall_forall in Hl, Hk; [|done..]. destruct (heap_irrefl x). by transitivity y.
Qed.

(** ** The combinations *)

Lemma elem_of_box lengths : forall x, x ∈ box lengths <-> Forall2 lt x lengths.
Proof.
  induction lengths as [|n lengths IH]; intros x; cbn [box].
  - rewrite list_elem_of_singleton. split; [by intros ->|by inversion 1].
  - rewrite list_elem_of_In, in_flat_map. split.
    + intros (i & Hi & Hx). apply in_map_iff in Hx as (y & <- & Hy). apply in_seq in Hi. apply list_elem_of_In, IH in Hy. constructor; [lia|done].
    + inversion 1 as [|i ? y ? Hi Hy]; subst. exists i. split; [apply in_seq; lia|]. apply in_map, list_elem_of_In, IH, Hy.
Qed.

Lemma box_length lengths x : Forall2 lt x lengths -> length x = length lengths.
Proof. apply Forall2_length. Qed.

Lemma length_box lengths : length (box lengths) = foldr Nat.mul 1 lengths.
Proof.
  induction lengths as [|n lengths IH]; [done|]. cbn [box foldr].
  assert (forall l, length (flat_map (fun i => map (cons i) (box lengths)) l) = length l * length (box lengths)) as ->.
  { induction l as [|i l Hl]; [done|]. cbn. by rewrite length_app, length_map, Hl. }
  by rewrite length_seq, IH.
Qed.

Lemma box_nodup lengths : NoDup (box lengths).
Proof.
  induction lengths as [|n lengths IH]; cbn [box]; [repeat constructor; set_solver|]. generalize 0. induction n as [|n IHn]; intros i; cbn [seq flat_map]; [constructor|].
  apply NoDup_app. split; [|split; [|apply IHn]].
  - rewrite NoDup_ListNoDup in *. apply Finite.Injective_map_NoDup; [by intros ? ? [= ->]|done].
  - intros x (y & <- & _)%list_elem_of_In%in_map_iff (j & Hj & Hx)%list_elem_of_In%in_flat_map. apply in_seq in Hj.
    apply in_map_iff in Hx as (z & [= <- _] & _). lia.
Qed.

Lemma sort_pairs k l : NoDup l -> (forall e, e ∈ l -> length e.2 = k) ->
  StronglySorted heap_lt (foldr heap_push [] l) /\ (forall e, e ∈ foldr heap_push [] l <-> e ∈ l) /\ length (foldr heap_push [] l) = length l.
Proof.
  induction 1 as [|x l Hx Hl IH]; intros Hk; cbn; [split; [constructor|done]|]. destruct IH as (Hs & He & Hn); [set_solver|]. split; [|split].
  - apply (heap_push_sorted k); [done| |by rewrite He]. intros e Hin. apply Hk. rewrite elem_of_cons, He in Hin. by apply elem_of_cons.
  - intros e. rewrite heap_push_elem, He, elem_of_cons. done.
  - rewrite <-Hn. clear. induction (foldr heap_push [] l) as [|y q IH]; cbn; [done|]. destruct (heap_ltb x y); cbn; lia.
Qed.

Lemma ranked_pairs_exact lengths : StronglySorted heap_lt (ranked_pairs lengths) /\
  (forall e, e ∈ ranked_pairs lengths <-> exists x, Forall2 lt x lengths /\ e = scored x) /\
  length (ranked_pairs lengths) = foldr Nat.mul 1 lengths.
Proof.
  destruct (sort_pairs (length lengths) (map scored (box lengths))) as (Hs & He & Hn).
  - rewrite NoDup_ListNoDup. apply Finite.Injective_map_NoDup; [by intros ? ? [= _ ->]|rewrite <-NoDup_ListNoDup; apply box_nodup].
  - intros e (x & <- & Hx%list_elem_of_In%elem_of_box)%list_elem_of_In%in_map_iff. by apply box_length.
  - split; [done|]. split; [|by rewrite <-length_box; unfold ranked_pairs; rewrite Hn, length_map].
    intros e. unfold ranked_pairs. rewrite He, list_elem_of_In, in_map_iff. split.
    + intros (x & <- & Hx%list_elem_of_In%elem_of_box). eauto.
    + intros (x & Hx%elem_of_box%list_elem_of_In & ->). eauto.
Qed.

(** ** One step of the heap *)

(** [y] is [x] with the candidate of one component replaced by the next. *)
Definition next_to (lengths : list nat) (dimensions : list nat) (x y : list nat) : Prop := exists d, d ∈ dimensions /\
  y = alter S d x /\ nth d y 0 < nth d lengths 0.

Lemma next_to_cons lengths d ds x y : next_to lengths (d :: ds) x y <->
  (y = alter S d x /\ nth d y 0 < nth d lengths 0) \/ next_to lengths ds x y.
Proof.
  unfold next_to. split.
  - intros (d' & [->|Hd]%elem_of_cons & ?); [by left|right; eauto].
  - intros [?|(d' & ? & ?)]; [exists d; split; [by left|done]|exists d'; split; [by right|done]].
Qed.

Record pushed (lengths dimensions x : list nat) (seen seen' : list (list nat)) (queue queue' : list (nat * list nat)) : Prop := {
  pushed_seen y : y ∈ seen' <-> y ∈ seen \/ next_to lengths dimensions x y;
  pushed_queue e : e ∈ queue' <-> e ∈ queue \/ (e.1 = S (score x) /\ next_to lengths dimensions x e.2 /\ e.2 ∉ seen);
  pushed_sorted : StronglySorted heap_lt queue'
}.

Lemma push_next_spec lengths x seen queue : length x = length lengths -> StronglySorted heap_lt queue ->
  (forall e, e ∈ queue -> length e.2 = length lengths /\ e.2 ∈ seen) ->
  let '(seen', queue') := push_next lengths (score x) x (seen, queue) in
  pushed lengths (seq 0 (length lengths)) x seen seen' queue queue'.
Proof.
  unfold push_next. generalize (seq 0 (length lengths)). intros ds Hx. revert seen queue.
  induction ds as [|d ds IH]; intros seen queue Hs Hq; cbn [fold_left].
  { split; [|intros e|done]; [intros y; split; [auto|]|split; [auto|]].
    - intros [?|(d & []%not_elem_of_nil & _)]; done.
    - intros [?|(_ & (d & []%not_elem_of_nil & _) & _)]; done. }
  set (next := alter S d x). destruct ((nth d next 0 <? nth d lengths 0) && negb (bool_decide (next ∈ seen))) eqn:E.
  - apply andb_true_iff in E as [Hlt%Nat.ltb_lt Hnew%negb_true_iff%bool_decide_eq_false].
    assert (forall e, e ∈ heap_push (S (score x), next) queue -> length e.2 = length lengths /\ e.2 ∈ next :: seen) as Hq'.
    { intros e [->|He]%heap_push_elem; [split; [cbn; unfold next; by rewrite length_alter|by left]|]. destruct (Hq e He). set_solver. }
    specialize (IH (next :: seen) (heap_push (S (score x), next) queue)). destruct (fold_left _ ds _) as [seen' queue'].
    destruct IH as [Hseen Hqueue Hsorted].
    + apply (heap_push_sorted (length lengths)); [done| |by intros [_ ?]%Hq]. intros e [->|He]%elem_of_cons; [cbn; unfold next; by rewrite length_alter|by apply Hq].
    + exact Hq'.
    + split; [| |done].
      * intros y. rewrite Hseen, elem_of_cons, next_to_cons. naive_solver.
      * intros e. rewrite Hqueue, heap_push_elem, next_to_cons, not_elem_of_cons. destruct e as [n y]. cbn [fst snd].
        destruct (decide (y = next)) as [->|Hne]; [|naive_solver]. split; [|naive_solver]. intros [[[= ->]|]|(_ & _ & ? & _)]; naive_solver.
  - specialize (IH seen queue Hs Hq). destruct (fold_left _ ds _) as [seen' queue']. destruct IH as [Hseen Hqueue Hsorted].
    assert (nth d next 0 < nth d lengths 0 -> next ∈ seen) as Hold.
    { intros Hlt%Nat.ltb_lt. rewrite Hlt in E. cbn in E. by apply negb_false_iff, bool_decide_eq_true in E. }
    split; [| |done].
    + intros y. rewrite Hseen, next_to_cons. split; [tauto|]. intros [?|[[-> ?]|?]]; auto.
    + intros e. rewrite Hqueue, next_to_cons. split; [tauto|]. intros [?|(? & [[He2 Hlt]|?] & Hni)]; [auto| |auto]. destruct Hni. rewrite He2 in *. by apply Hold.
Qed.

(** ** The heap tries them in order *)

(** [rest] are the combinations that were not popped. *)
Record heap_ok (lengths : list nat) (seen : list (list nat)) (queue rest : list (nat * list nat)) : Prop := {
  heap_sorted : StronglySorted heap_lt queue;
  rest_sorted : StronglySorted heap_lt rest;
  rest_box e : e ∈ rest -> exists x, Forall2 lt x lengths /\ e = scored x;
  queue_rest e : e ∈ queue -> e ∈ rest /\ e.2 ∈ seen;
  seen_rest x : scored x ∈ rest -> x ∈ seen -> scored x ∈ queue;
  unseen_rest x : Forall2 lt x lengths -> x ∉ seen -> scored x ∈ rest;
  start_seen : Forall (lt 0) lengths -> map (fun _ => 0) lengths ∈ seen;
  popped_next x y : x ∈ seen -> scored x ∉ queue -> Forall2 lt x lengths -> next_to lengths (seq 0 (length lengths)) x y -> y ∈ seen
}.

Lemma score_alter d x : d < length x -> score (alter S d x) = S (score x).
Proof.
  revert d. induction x as [|n x IH]; intros [|d] H; cbn [length] in H; [lia|lia|done|].
  change (n + score (alter S d x) = S (n + score x)). rewrite IH by lia. lia.
Qed.

Lemma next_to_box lengths x y : Forall2 lt x lengths -> next_to lengths (seq 0 (length lengths)) x y -> Forall2 lt y lengths /\ score y = S (score x).
Proof.
  intros Hx (d & Hd & -> & Hlt). apply elem_of_seq in Hd. pose proof (box_length _ _ Hx) as Hl. split; [|apply score_alter; lia].
  apply Forall2_same_length_lookup_2; [by rewrite length_alter|]. intros i a b Ha Hb. destruct (decide (i = d)) as [->|Hne].
  - by rewrite !nth_lookup, Ha, Hb in Hlt.
  - rewrite list_lookup_alter_ne in Ha by done. by eapply Forall2_lookup_lr.
Qed.

(** A combination other than the first has one before it. *)
Lemma before_it lengths x : Forall2 lt x lengths -> x <> map (fun _ => 0) lengths ->
  exists y, Forall2 lt y lengths /\ next_to lengths (seq 0 (length lengths)) y x.
Proof.
  intros Hx Hne. assert (exists d n, x !! d = Some (S n)) as (d & n & Hd).
  { induction Hx as [|a b x lengths Hab Hx IH]; [done|]. destruct a as [|a]; [|by exists 0, a].
    destruct IH as (d & n & Hd); [intros ->; by apply Hne|]. by exists (S d), n. }
  pose proof (lookup_lt_Some _ _ _ Hd) as Hlt. pose proof (box_length _ _ Hx) as Hl.
  exists (<[d := n]> x). split.
  - apply Forall2_same_length_lookup_2; [by rewrite length_insert|]. intros i a b Ha Hb. destruct (decide (i = d)) as [->|Hid].
    + rewrite list_lookup_insert_eq in Ha by done. injection Ha as <-. eapply Forall2_lookup_lr in Hx; [|done..]. lia.
    + rewrite list_lookup_insert_ne in Ha by done. by eapply Forall2_lookup_lr.
  - exists d. split; [apply elem_of_seq; lia|]. split.
    + apply list_eq. intros i. destruct (decide (i = d)) as [->|Hid].
      * by rewrite Hd, list_lookup_alter_eq, list_lookup_insert_eq by done.
      * by rewrite list_lookup_alter_ne, list_lookup_insert_ne by done.
    + rewrite !nth_lookup, Hd. destruct (lengths !! d) as [b|] eqn:Eb; [|apply lookup_ge_None in Eb; lia]. cbn. by eapply Forall2_lookup_lr in Hx.
Qed.

Lemma box_positive lengths x : Forall2 lt x lengths -> Forall (lt 0) lengths.
Proof. induction 1; constructor; [lia|done]. Qed.

(** What was not reached yet comes after something in the heap. *)
Lemma unreached lengths seen queue rest : heap_ok lengths seen queue rest -> forall n x, score x <= n ->
  Forall2 lt x lengths -> x ∉ seen -> exists e, e ∈ queue /\ heap_lt e (scored x).
Proof.
  intros Hok. induction n as [|n IH]; intros x Hn Hx Hseen.
  all: destruct (before_it lengths x Hx) as (y & Hy & Hnext);
    [intros ->; by apply Hseen, (start_seen _ _ _ _ Hok), (box_positive _ _ Hx)|].
  all: destruct (next_to_box _ _ _ Hy Hnext) as [_ Hsc].
  { lia. }
  assert (heap_lt (scored y) (scored x)) as Hlt.
  { unfold heap_lt, heap_ltb, scored. cbn [fst snd]. rewrite Hsc. apply orb_true_iff. left. apply Nat.ltb_lt. lia. }
  destruct (decide (y ∈ seen)) as [Hys|Hys].
  - destruct (decide (scored y ∈ queue)) as [Hq|Hq]; [eauto|]. destruct Hseen. by eapply (popped_next _ _ _ _ Hok).
  - destruct (IH y) as (e & He & Hey); [lia|done|done|]. exists e. split; [done|]. by transitivity (scored y).
Qed.

Lemma heap_head lengths seen queue e rest : heap_ok lengths seen queue (e :: rest) -> exists queue', queue = e :: queue'.
Proof.
  intros Hok. assert (e ∈ queue) as He.
  { destruct (rest_box _ _ _ _ Hok e) as (x & Hx & ->); [by left|]. destruct (decide (x ∈ seen)) as [Hs|Hs]; [apply (seen_rest _ _ _ _ Hok); [by left|done]|].
    destruct (unreached _ _ _ _ Hok (score x) x) as (e & He & Hlt); [done..|]. apply (queue_rest _ _ _ _ Hok) in He as [[->|He]%elem_of_cons _].
    - by apply heap_irrefl in Hlt.
    - pose proof (rest_sorted _ _ _ _ Hok) as Hr. inversion_clear Hr as [|? ? _ Hall]. eapply Forall_forall in Hall; [|done].
      destruct (heap_irrefl (scored x)). by transitivity e. }
  destruct queue as [|q queue]; [by apply not_elem_of_nil in He|]. exists queue. f_equal.
  apply (sorted_head q queue e rest); [apply Hok|apply Hok|done|]. apply (queue_rest _ _ _ _ Hok). by left.
Qed.

Lemma nodup_tail e rest : StronglySorted heap_lt (e :: rest) -> e ∉ rest.
Proof. inversion_clear 1 as [|? ? _ Hall]. intros He. eapply Forall_forall in Hall; [|done]. by apply heap_irrefl in Hall. Qed.

Lemma scored_inj x y : scored x = scored y -> x = y.
Proof. by intros [= _ ->]. Qed.

(** Popping the least combination and pushing those next to it. *)
Lemma heap_step lengths seen queue rest x : Forall2 lt x lengths -> heap_ok lengths seen (scored x :: queue) (scored x :: rest) ->
  let '(seen', queue') := push_next lengths (score x) x (seen, queue) in heap_ok lengths seen' queue' rest.
Proof.
  intros Hx Hok. pose proof Hok as [Hqs Hrs Hbox Hqr Hsr Hur Hstart Hpop].
  pose proof (push_next_spec lengths x seen queue (box_length _ _ Hx)) as Hp.
  destruct (push_next _ _ _ _) as [seen' queue']. destruct Hp as [Hseen Hqueue Hsorted].
  { by inversion_clear Hqs. }
  { intros e He. destruct (Hqr e) as [He' Hs]; [by right|]. split; [|done]. destruct (Hbox e He') as (y & Hy & ->). by apply box_length. }
  assert (forall y, scored y ∈ rest -> y <> x) as Hne by (intros y Hy ->; by apply (nodup_tail _ _ Hrs)).
  assert (forall e, e ∈ queue -> e ∈ rest) as Hsub.
  { intros e He. destruct (Hqr e) as [[->|?]%elem_of_cons _]; [by right| |done]. by apply nodup_tail in Hqs. }
  assert (forall y, y <> x -> scored y ∈ scored x :: rest -> scored y ∈ rest) as Htail.
  { intros y Hyx [[= _ ?]|?]%elem_of_cons; done. }
  split.
  - done.
  - by inversion_clear Hrs.
  - intros e He. apply Hbox. by right.
  - intros e He. apply Hqueue in He as [He|(He1 & Hnext & Hnew)].
    + split; [by apply Hsub|]. apply Hseen. left. apply Hqr. by right.
    + destruct (next_to_box _ _ _ Hx Hnext) as [Hb Hsc]. split; [|apply Hseen; by right].
      destruct e as [n y]. cbn [fst snd] in *. subst n. rewrite <-Hsc. apply Htail; [|by apply Hur]. intros ->. lia.
  - intros y Hy Hys. apply Hseen in Hys as [Hys|Hnext].
    + apply Hqueue. left. specialize (Hsr y ltac:(by right) Hys). apply elem_of_cons in Hsr as [Hsr%scored_inj|?]; [|done]. by destruct (Hne y Hy).
    + destruct (next_to_box _ _ _ Hx Hnext) as [_ Hsc]. apply Hqueue. destruct (decide (y ∈ seen)) as [Hin|Hin].
      * left. specialize (Hsr y ltac:(by right) Hin). apply elem_of_cons in Hsr as [Hsr%scored_inj|?]; [|done]. by destruct (Hne y Hy).
      * right. cbn. by rewrite Hsc.
  - intros y Hy Hys. apply Htail; [|apply Hur; [done|]; intros ?; apply Hys, Hseen; by left].
    intros ->. apply Hys, Hseen. left. apply (Hqr (scored x)). by left.
  - intros H. apply Hseen. left. by apply Hstart.
  - intros y z Hys Hyq Hy Hz. apply Hseen. destruct (decide (y = x)) as [->|Hyx]; [by right|]. left.
    apply Hseen in Hys as [Hys|Hnext].
    + apply (Hpop y); [done| |done|done]. intros [?%scored_inj|Hq]%elem_of_cons; [done|]. apply Hyq, Hqueue. by left.
    + destruct (decide (y ∈ seen)) as [Hin|Hin].
      * apply (Hpop y); [done| |done|done]. intros [?%scored_inj|Hq]%elem_of_cons; [done|]. apply Hyq, Hqueue. by left.
      * destruct Hyq. apply Hqueue. right. destruct (next_to_box _ _ _ Hx Hnext) as [_ Hsc]. cbn. by rewrite Hsc.
Qed.

Section exact.
Context {T State : Type} (validate : list nat -> Z -> State -> CandidateCheck T * State).
Context (unlimited_results : bool) (now : nat -> Z) (lengths : list nat) (deadline : option Z).

Lemma search_loop_exact : forall rest fuel tick tried seen queue s, length rest < fuel -> heap_ok lengths seen queue rest ->
  search_loop validate unlimited_results now fuel lengths deadline tick tried seen queue s =
  try_in_order validate unlimited_results now (map snd rest) lengths deadline tick tried s.
Proof.
  induction rest as [|e rest IH]; intros [|fuel] tick tried seen queue s Hf Hok; cbn [length] in Hf; try lia.
  - destruct queue as [|q queue]; [done|]. destruct (queue_rest _ _ _ _ Hok q) as [[]%not_elem_of_nil _]. by left.
  - destruct (heap_head _ _ _ _ _ Hok) as [queue' ->]. destruct (rest_box _ _ _ _ Hok e) as (x & Hx & ->); [by left|].
    cbn [search_loop scored map snd try_in_order]. destruct (attempt _ _ _ _ _ _ _ _ _) as [[result|] s']; [done|].
    pose proof (heap_step _ _ _ _ _ Hx Hok) as Hstep. destruct (push_next _ _ _ _) as [seen' queue'']. apply IH; [lia|done].
Qed.
End exact.

Lemma heap_ok_start lengths : Forall (lt 0) lengths ->
  heap_ok lengths [map (fun _ => 0) lengths] [(0, map (fun _ => 0) lengths)] (ranked_pairs lengths).
Proof.
  intros Hpos. destruct (ranked_pairs_exact lengths) as (Hs & He & _). set (zero := map (fun _ => 0) lengths).
  assert (Forall2 lt zero lengths) as Hzero by (unfold zero; clear -Hpos; induction Hpos; cbn; by constructor).
  assert ((0, zero) = scored zero) as Hscore by (unfold scored, score; f_equal; subst zero; clear; by induction lengths).
  split.
  - repeat constructor.
  - done.
  - intros e. by rewrite He.
  - intros e ->%list_elem_of_singleton. split; [rewrite He; eauto|]. by left.
  - intros x _ ->%list_elem_of_singleton. rewrite <-Hscore. by left.
  - intros x Hx _. apply He. eauto.
  - intros _. by left.
  - intros x y ->%list_elem_of_singleton Hq. destruct Hq. rewrite <-Hscore. by left.
Qed.

(** C21. The search tries the combinations in the order of their total rank, ties in
    lexicographic order, each at most once and none but the existing ones: its
    result, and what it does to the state of the validator, is that of trying the
    ranked list from its start until one is accepted or cannot be decided, the time
    is used up, or sixteen were rejected. The list holds every combination exactly
    once. *)
Theorem search_ranked {T State} (validate : list nat -> Z -> State -> CandidateCheck T * State) unlimited_results (now : nat -> Z) lengths timeout s :
  Forall (lt 0) lengths ->
  let deadline := if (timeout =? 0)%Z then None else Some (now 0%nat + Z.min timeout MAX_SEARCH_TIME)%Z in
  search validate unlimited_results now true lengths timeout s =
    try_in_order validate unlimited_results now (ranked lengths) lengths deadline 1 0 s /\
  StronglySorted heap_lt (map scored (ranked lengths)) /\
  (forall x, x ∈ ranked lengths <-> Forall2 lt x lengths).
Proof.
  intros Hpos. cbv zeta. destruct (ranked_pairs_exact lengths) as (Hs & He & Hn).
  assert (map scored (ranked lengths) = ranked_pairs lengths) as Hmap.
  { unfold ranked. rewrite map_map. rewrite <-(map_id (ranked_pairs lengths)) at 2. apply map_ext_in.
    intros e (x & _ & ->)%list_elem_of_In%He. done. }
  split; [|split].
  - unfold search. cbn [negb andb]. apply (search_loop_exact _ _ _ lengths _ (ranked_pairs lengths)); [lia|]. by apply heap_ok_start.
  - by rewrite Hmap.
  - intros x. unfold ranked. rewrite list_elem_of_In, in_map_iff. split.
    + intros (e & <- & (y & Hy & ->)%list_elem_of_In%He). done.
    + intros Hx. exists (scored x). split; [done|]. apply list_elem_of_In, He. eauto.
Qed.

(** A validator that accepts the second candidate of the first component with the
    first of the other; the state lists what was tried. *)
Lemma search_ranked_witness :
  let validate x (_ : Z) tried := (if bool_decide (x = [1; 0]) then Accepted x else Rejected, tried ++ [x]) in
  search validate false (fun _ => 0%Z) true [17; 17] 5 [] = try_in_order validate false (fun _ => 0%Z) (ranked [17; 17]) [17; 17] (Some 5%Z) 1 0 [] /\
  search validate false (fun _ => 0%Z) true [17; 17] 5 [] = (inl [1; 0], [[0; 0]; [0; 1]; [1; 0]]).
Proof.
  split; [|vm_compute; reflexivity].
  apply (search_ranked (fun x (_ : Z) tried => (if bool_decide (x = [1; 0]) then Accepted x else Rejected, tried ++ [x])) false (fun _ => 0%Z) [17; 17] 5 []).
  repeat constructor.
Defined.
