(* ===== verification/HttpFallbacks.v ===== *)
(** * HTTP environments of a rule: [HttpFallback], [check_http_fallbacks],
      [http_validations] and [selected_revocation] of
      [kingfisher-rules/src/rule.rs]

    A rule may name up to two other environments to validate a secret in, and what
    revokes it there. The checks a rule passes are shown to be what the resolution
    of its configurations relies on: it never panics, the primary comes first, and
    no configuration has more than one URL. *)

From Stdlib Require Import ZArith Lia Bool.
From stdpp Require Import base list numbers option sets.
From S2P Require Import Prelude Text Expr FilterValue FilterEngine.

(** ** Requests

    What the resolution only passes on is left open. *)

Class HttpData := {
  ResponseMatcher : Type;
  MultipartConfig : Type;
  HttpValidationAuth : Type;
  ResponseExtractor : Type
}.

Section fallbacks.
Context {HD : HttpData}.

Record HttpRequest := {
  method : bytes;
  url : bytes;
  fallback_urls : list bytes;
  headers : list (bytes * bytes);
  body : option bytes;
  response_matcher : option (list ResponseMatcher);
  request_multipart : option MultipartConfig;
  response_is_html : bool
}.

Record HttpValidation := { request : HttpRequest; multipart : option MultipartConfig; auth : option HttpValidationAuth }.

Record RevocationStep := {
  step_name : option bytes;
  step_request : HttpRequest;
  step_multipart : option MultipartConfig;
  extract : option (list (bytes * ResponseExtractor))
}.

Inductive Revocation :=
  | RevokeAWS
  | RevokeGCP
  | RevokeBetterleaks (expression : BetterleaksExpr)
  | RevokeHttp (http : HttpValidation)
  | RevokeHttpMultiStep (steps : list RevocationStep).

(** Validations other than HTTP and Betterleaks ones have nothing to resolve. *)
Inductive ValidationAction :=
  | ValidateAWS
  | ValidateHttp (http : HttpValidation)
  | ValidateBetterleaks (expression : BetterleaksExpr)
  | ValidateOther.

Record HttpFallback := {
  fallback_id : bytes;
  reuse_primary_validation_logic : bool;
  fallback_url : option bytes;
  fallback_validation : option ValidationAction;
  reuse_primary_revocation_logic : bool;
  revocation_url : option bytes;
  revocation_urls : list bytes;
  fallback_revocation : option Revocation
}.

(** The fields of [RuleSyntax] about its actions. *)
Record Actions := {
  validation_action : option ValidationAction;
  revocation : option Revocation;
  fallbacks : list HttpFallback;
  authoritative : bool
}.

Definition with_url (u : bytes) (r : HttpRequest) : HttpRequest := {|
  method := method r; url := u; fallback_urls := fallback_urls r; headers := headers r; body := body r;
  response_matcher := response_matcher r; request_multipart := request_multipart r; response_is_html := response_is_html r
|}.
Definition clear_fallback_urls (r : HttpRequest) : HttpRequest := {|
  method := method r; url := url r; fallback_urls := []; headers := headers r; body := body r;
  response_matcher := response_matcher r; request_multipart := request_multipart r; response_is_html := response_is_html r
|}.
Definition with_request (r : HttpRequest) (h : HttpValidation) : HttpValidation := {| request := r; multipart := multipart h; auth := auth h |}.
Definition with_step_url (s : RevocationStep) (u : bytes) : RevocationStep := {|
  step_name := step_name s; step_request := clear_fallback_urls (with_url u (step_request s)); step_multipart := step_multipart s; extract := extract s
|}.

(** [ensure!] *)
Definition ensure (b : bool) (message : string) : res unit := if b then Ok tt else bail message.

Definition nonblank (u : bytes) : bool := non_empty (trim u).
Definition is_none {A} (o : option A) : bool := match o with None => true | Some _ => false end.
Definition is_nil {A} (l : list A) : bool := match l with [] => true | _ => false end.
Definition has_matcher (r : HttpRequest) : bool := match response_matcher r with Some (_ :: _) => true | _ => false end.
Definition one_or_two {A} (l : list A) : bool := (1 <=? length l) && (length l <=? 2).

(** ** Revocations *)

Definition resolved_revocation (f : HttpFallback) (primary : option Revocation) : res (option Revocation) :=
  if negb (reuse_primary_revocation_logic f) then
    _ ← ensure (is_none (revocation_url f) && is_nil (revocation_urls f)) "Revocation URL overrides require reuse_primary_revocation_logic: true";
    Ok (fallback_revocation f)
  else
    _ ← ensure (is_none (fallback_revocation f)) "reuse_primary_revocation_logic: true cannot include revocation";
    action ← or_err (Failed "reuse_primary_revocation_logic: true requires primary revocation") primary;
    match action with
    | RevokeHttp http =>
      _ ← ensure (is_nil (revocation_urls f)) "Single-request revocation logic reuse requires revocation_url, not revocation_urls";
      u ← or_err (Failed "Single-request revocation logic reuse requires a nonblank revocation_url")
        (match revocation_url f with Some u => if nonblank u then Some u else None | None => None end);
      Ok (Some (RevokeHttp (with_request (clear_fallback_urls (with_url u (request http))) http)))
    | RevokeHttpMultiStep steps =>
      _ ← ensure (is_none (revocation_url f)) "Multi-step revocation logic reuse requires revocation_urls, not revocation_url";
      _ ← ensure (one_or_two steps && (length (revocation_urls f) =? length steps) && forallb nonblank (revocation_urls f))
        "Multi-step revocation logic reuse requires one nonblank revocation_urls entry per step (one or two steps)";
      Ok (Some (RevokeHttpMultiStep (zip_with with_step_url steps (revocation_urls f))))
    | _ => bail "Primary revocation logic reuse supports only HTTP and HTTP multi-step actions"
    end.

Definition revocation_requests (action : Revocation) : res (list HttpRequest) :=
  match action with
  | RevokeHttp http => Ok [request http]
  | RevokeHttpMultiStep steps => _ ← ensure (one_or_two steps) "Fallback revocation requires one or two steps"; Ok (map step_request steps)
  | _ => bail "Fallback revocation must be HTTP or HTTP multi-step"
  end.

(** ** The checks of a rule *)

Definition MAX_HTTP_FALLBACKS : nat := 2.

Definition id_byte (b : byte) : bool := is_ascii_alphanumeric b || (b ==? bc "_") || (b ==? bc ".") || (b ==? bc "-").

Definition check_fallback (r : Actions) (ids : list bytes) (f : HttpFallback) : res unit :=
  _ ← ensure (non_empty (fallback_id f) && negb (fallback_id f is "primary") && forallb id_byte (fallback_id f) &&
              negb (bool_decide (fallback_id f ∈ ids)))
    "Fallback IDs must be unique, nonempty identifiers other than primary";
  _ ← if reuse_primary_validation_logic f then
        _ ← ensure (is_none (fallback_validation f)) "reuse_primary_validation_logic: true cannot include validation";
        ensure (match fallback_url f with Some u => nonblank u | None => false end)
          "reuse_primary_validation_logic: true requires a nonblank url (only the logic is reused)"
      else
        _ ← ensure (is_none (fallback_url f)) "Fallback url requires reuse_primary_validation_logic: true";
        match fallback_validation f with
        | Some (ValidateHttp http) =>
          _ ← ensure (is_nil (fallback_urls (request http)) && nonblank (url (request http))) "Fallback validation must have one nonblank scalar URL";
          ensure (has_matcher (request http)) "Fallback HTTP validation requires response_matcher"
        | _ => bail "reuse_primary_validation_logic defaults to false and requires complete HTTP validation"
        end;
  action ← resolved_revocation f (revocation r);
  match action with
  | None => Ok tt
  | Some action =>
    requests ← revocation_requests action;
    _ ← ensure (forallb (fun r => is_nil (fallback_urls r)) requests) "Named fallback revocation must use scalar URLs";
    ensure (match last requests with Some r => has_matcher r | None => false end) "Fallback revocation requires a final response_matcher"
  end.

Fixpoint check_fallbacks (r : Actions) (ids : list bytes) (l : list HttpFallback) : res unit :=
  match l with
  | [] => Ok tt
  | f :: l => _ ← check_fallback r ids f; check_fallbacks r (fallback_id f :: ids) l
  end.

Definition check_http_fallbacks (r : Actions) : res unit :=
  match fallbacks r with
  | [] => Ok tt
  | _ =>
    _ ← ensure (length (fallbacks r) <=? MAX_HTTP_FALLBACKS) "At most two HTTP fallbacks are allowed";
    match validation_action r with
    | Some (ValidateHttp primary) =>
      _ ← ensure (is_nil (fallback_urls (request primary))) "Do not mix named fallbacks with legacy URL lists";
      check_fallbacks r [] (fallbacks r)
    | _ => bail "HTTP fallbacks require primary HTTP validation"
    end
  end.

(** ** The configurations *)

Definition fallback_configuration (primary : HttpValidation) (f : HttpFallback) : res (option bytes * HttpValidation) :=
  http ← if reuse_primary_validation_logic f then
           match fallback_url f with Some u => Ok (with_request (with_url u (request primary)) primary) | None => Panic end
         else match fallback_validation f with Some (ValidateHttp http) => Ok http | _ => Panic end;
  Ok (Some (fallback_id f), http).

Definition http_validations (r : Actions) (enabled : bool) : res (list (option bytes * HttpValidation)) :=
  _ ← check_http_fallbacks r;
  match validation_action r with
  | Some (ValidateHttp primary) =>
    let first := (None, with_request (clear_fallback_urls (request primary)) primary) in
    if negb enabled then Ok [first]
    else match fallbacks r with
    | [] => Ok (first :: map (fun u => (None, with_request (clear_fallback_urls (with_url u (request primary))) primary))
        (take MAX_HTTP_FALLBACKS (fallback_urls (request primary))))
    | l => configurations ← mapM (fallback_configuration primary) l; Ok (first :: configurations)
    end
  | _ => Ok []
  end.

Definition selected_revocation (r : Actions) (id : option bytes) : res (option Revocation) :=
  match id with
  | None => Ok (revocation r)
  | Some id =>
    f ← or_err (Failed "Unknown validated fallback ID") (List.find (fun f => bytes_eqb (fallback_id f) id) (fallbacks r));
    resolved_revocation f (revocation r)
  end.
End fallbacks.

(** ** What the checks ensure *)

Section safe.
Context {HD : HttpData}.

Lemma ensure_ok b message u : ensure b message = Ok u -> b = true.
Proof. by destruct b. Qed.

Lemma ensure_no_panic b message : ensure b message <> Panic.
Proof. by destruct b. Qed.

(** A fallback that passed its check. *)
Record fallback_ok (ids : list bytes) (f : HttpFallback) : Prop := {
  ok_id : fallback_id f ∉ ids;
  ok_nonempty : fallback_id f <> [];
  ok_primary : fallback_id f <> bs "primary";
  ok_target : match (if reuse_primary_validation_logic f then fallback_url f else
      match fallback_validation f with Some (ValidateHttp http) => if is_nil (fallback_urls (request http)) then Some (url (request http)) else None | _ => None end)
    with Some u => nonblank u = true | None => False end
}.

Lemma check_fallback_ok r ids f u : check_fallback r ids f = Ok u -> fallback_ok ids f.
Proof.
  unfold check_fallback. intros (a & Ha%ensure_ok & H)%bind_ok. apply bind_ok in H as (b & Hb & _).
  rewrite !andb_true_iff, !negb_true_iff, bool_decide_eq_false in Ha. destruct Ha as (((Hne & Hp) & _) & Hid).
  split; [done|by destruct (fallback_id f)|by destruct (bytes_eqb_spec (fallback_id f) (bs "primary"))|].
  destruct (reuse_primary_validation_logic f).
  - apply bind_ok in Hb as (c & _ & Hc%ensure_ok). by destruct (fallback_url f).
  - apply bind_ok in Hb as (c & _ & Hc). destruct (fallback_validation f) as [[| http| |]|]; try done.
    apply bind_ok in Hc as (d & Hd%ensure_ok & _). apply andb_true_iff in Hd as [-> Hd]. done.
Qed.

Lemma resolved_no_panic f p : resolved_revocation f p <> Panic.
Proof. unfold resolved_revocation, ensure, bail, or_err. repeat (case_match; cbn; try done). Qed.

Lemma check_fallback_no_panic r ids f : check_fallback r ids f <> Panic.
Proof.
  unfold check_fallback. pose proof (resolved_no_panic f (revocation r)) as Hp. unfold revocation_requests.
  destruct (resolved_revocation f (revocation r)) as [[action|]|e|]; try done;
    unfold ensure, bail; repeat (case_match; cbn; try done).
Qed.

Lemma check_fallbacks_ok r l : forall ids u, check_fallbacks r ids l = Ok u -> Forall (fallback_ok ids) l /\ NoDup (map fallback_id l).
Proof.
  induction l as [|f l IH]; intros ids u; cbn [check_fallbacks map]; [split; constructor|].
  intros (a & Hf%check_fallback_ok & H)%bind_ok. apply IH in H as [Hl Hnd]. rewrite Forall_forall in Hl. split.
  - constructor; [done|]. apply Forall_forall. intros x Hx. destruct (Hl x Hx) as [Hid ? ? ?]. split; try done. set_solver.
  - constructor; [|done]. intros (g & Hg & Hin%list_elem_of_In)%list_elem_of_In%in_map_iff. destruct (Hl g Hin) as [Hid _ _ _]. set_solver.
Qed.

Lemma check_fallbacks_no_panic r l : forall ids, check_fallbacks r ids l <> Panic.
Proof.
  induction l as [|f l IH]; intros ids; cbn [check_fallbacks]; [done|]. pose proof (check_fallback_no_panic r ids f).
  destruct (check_fallback r ids f); cbn; [apply IH|done..].
Qed.

Lemma check_http_no_panic r : check_http_fallbacks r <> Panic.
Proof.
  unfold check_http_fallbacks. destruct (fallbacks r) as [|f l]; [done|]. pose proof (check_fallbacks_no_panic r (f :: l) []).
  destruct (length _ <=? _); [|done]. cbn [ensure mbind res_bind]. destruct (validation_action r) as [[| primary| |]|]; try done.
  by destruct (is_nil _).
Qed.

(** The configurations of checked fallbacks. *)
Lemma configurations_ok primary fs : is_nil (fallback_urls (request primary)) = true -> Forall (fallback_ok []) fs ->
  exists cs, mapM (fallback_configuration primary) fs = Ok cs /\ map fst cs = map (fun f => Some (fallback_id f)) fs /\
    Forall (fun c => fallback_urls (request c.2) = [] /\ nonblank (url (request c.2)) = true) cs.
Proof.
  intros Hp. assert (fallback_urls (request primary) = []) as Hnil by (by destruct (fallback_urls (request primary))).
  induction 1 as [|f fs [_ _ _ Hf] _ IH]; [by exists []|]. destruct IH as (cs & Hcs & Hnames & Hall).
  assert (exists http, fallback_configuration primary f = Ok (Some (fallback_id f), http) /\
    fallback_urls (request http) = [] /\ nonblank (url (request http)) = true) as (http & Hc & Hh).
  { unfold fallback_configuration. destruct (reuse_primary_validation_logic f).
    - destruct (fallback_url f) as [u|]; [|done]. eexists. split; [reflexivity|done].
    - destruct (fallback_validation f) as [[| http| |]|]; try done. exists http. split; [done|].
      destruct (fallback_urls (request http)); done. }
  exists ((Some (fallback_id f), http) :: cs). rewrite mapM_cons, Hc. cbn. rewrite Hcs. cbn. rewrite Hnames. split; [done|]. split; [done|]. by constructor.
Qed.

(** C38. The check of a rule is all its configurations need: resolving them answers
    exactly when the check passes, and never panics. The primary comes first; there
    are at most three configurations, one if alternatives are disabled; each has
    one URL; and the named ones have different names, none of them that of the
    primary, and a URL that is not blank. *)
Theorem http_validations_safe (r : Actions) enabled :
  match http_validations r enabled with
  | Panic => False
  | Err e => check_http_fallbacks r = Err e
  | Ok configurations => check_http_fallbacks r = Ok tt /\
    match validation_action r with
    | Some (ValidateHttp primary) => exists alternatives,
      configurations = (None, with_request (clear_fallback_urls (request primary)) primary) :: alternatives /\
      length alternatives <= MAX_HTTP_FALLBACKS /\ (enabled = false -> alternatives = []) /\
      Forall (fun c => fallback_urls (request c.2) = []) alternatives /\
      NoDup (omap fst alternatives) /\ bs "primary" ∉ omap fst alternatives /\
      Forall (fun c => c.1 <> None -> nonblank (url (request c.2)) = true) alternatives
    | _ => configurations = []
    end
  end.
Proof.
  unfold http_validations. destruct (check_http_fallbacks r) as [[]|e|] eqn:Ec; cbn [mbind res_bind]; [|done|by apply check_http_no_panic in Ec].
  destruct (validation_action r) as [[| primary| |]|] eqn:Ev; try done.
  destruct enabled; cbn [negb]; [|split; [done|]; exists []; repeat split; (set_solver || (cbn; lia) || apply NoDup_nil_2 || apply Forall_nil_2)].
  unfold check_http_fallbacks in Ec. destruct (fallbacks r) as [|f l] eqn:Ef.
  - split; [done|]. eexists. split; [done|]. rewrite length_map, length_take. split; [lia|]. split; [done|].
    assert (forall us, omap fst (map (fun u => (None : option bytes, with_request (clear_fallback_urls (with_url u (request primary))) primary)) us) = []) as ->
      by (induction us; done).
    repeat split; [|apply NoDup_nil_2|set_solver|]; apply List.Forall_map, Forall_forall; done.
  - rewrite Ev in Ec. apply bind_ok in Ec as (a & Hlen%ensure_ok & Ec). apply bind_ok in Ec as (b & Hp%ensure_ok & Ec).
    apply check_fallbacks_ok in Ec as [Hall Hnd]. revert Hlen Hall Hnd. generalize (f :: l). clear Ef. intros fs Hlen Hall Hnd.
    destruct (configurations_ok primary fs Hp Hall) as (cs & -> & Hnames & Hurls). cbn [mbind res_bind]. split; [done|]. exists cs. split; [done|].
    assert (omap fst cs = map fallback_id fs) as ->.
    { clear -Hnames. revert fs Hnames. induction cs as [|[n h] cs IH]; intros [|g fs] Hnames; try done. injection Hnames as -> Hnames.
      cbn. by rewrite (IH fs). }
    apply Nat.leb_le in Hlen. apply (f_equal length) in Hnames. rewrite !length_map in Hnames.
    split; [lia|]. split; [done|]. split; [|split; [done|split]].
    + eapply List.Forall_impl; [|exact Hurls]. by intros c [].
    + intros (g & Hg & Hin%list_elem_of_In)%list_elem_of_In%in_map_iff. rewrite Forall_forall in Hall. by destruct (Hall g Hin) as [_ _ ? _].
    + eapply List.Forall_impl; [|exact Hurls]. by intros c [].
Qed.
End safe.
