(* ===== verification/CandidateContext.v ===== *)
(** * Where a candidate stands: [kingfisher-scanner/src/candidate_context.rs]

    The name a value is assigned to, without the suffix that says what it is, and
    the brackets or section around it. They only rank the candidates of a component
    in [Association]. *)

From Stdlib Require Import ZArith Lia Bool.
From stdpp Require Import base list numbers option gmap.
From S2P Require Import Prelude Text Location Spans Expr ExprParser.

(** ** Assigned names *)

Definition QUOTE : byte := 39.
Definition DOUBLE_QUOTE : byte := 34.
Definition is_quote (b : byte) : bool := (b ==? QUOTE) || (b ==? DOUBLE_QUOTE).
Definition is_blank (b : byte) : bool := (b ==? 32) || (b ==? 9).

(** What may stand before a name. *)
Definition starts_name (b : byte) : bool :=
  is_blank b || (b ==? 13) || (b ==? 10) || (b ==? bc "[") || (b ==? bc "{") || (b ==? bc "(") || (b ==? bc ",") || (b ==? bc ";") || is_quote b.

Definition NAME_SUFFIXES : list bytes := map bs
  ["_secret_access_key"; "_access_key_id"; "_client_secret"; "_client_id"; "_access_key"; "_secret_key"; "_key_id"; "_username";
   "_password"; "_secret"; "_token"; "_user"; "_key"; "_id"]%string.

(** The name is ASCII, so it is UTF-8. *)
Definition family_of (name : bytes) : option bytes :=
  let name := map to_ascii_lowercase name in
  family ← find_map (fun suffix => strip_suffix suffix name) NAME_SUFFIXES;
  if non_empty family then Some family else None.

(** The bytes before the value are read backwards. *)
Definition assignment_family (l : bytes) (span : OffsetSpan) : option bytes :=
  if length l <? span_start span then None
  else
    let prefix := rev (take (span_start span) l) in
    let prefix := match prefix with b :: r => if is_quote b then r else prefix | [] => [] end in
    match snd (span_while is_blank prefix) with
    | b :: prefix =>
      if b ==? bc "=" then
        let '(name, before) := span_while name_byte (snd (span_while is_blank prefix)) in
        if match before with b :: _ => starts_name b | [] => true end then family_of (rev name) else None
      else None
    | [] => None
    end.

Example assignment_family_example :
  assignment_family (bs "Env=[KMS_AWS_KEY=VALUE") (mkSpan 17 22) = Some (bs "kms_aws") /\
  assignment_family (bs "prod.kms_aws_key=VALUE") (mkSpan 17 22) = None /\
  assignment_family (bs "AWS_ACCESS_KEY_ID = 'VALUE'") (mkSpan 21 26) = Some (bs "aws").
Proof. vm_compute. auto. Qed.

(** ** Scopes *)

Record Scan := {
  scope_of : gmap nat nat;
  stack : list (byte * nat);
  quote : option byte;
  escaped : bool;
  section : nat;
  line_start : nat
}.

Definition trim_ascii (l : bytes) : bytes := trim_while is_ascii_whitespace l.

(** [[name]] without what an array would hold. *)
Definition is_section (line : bytes) : bool :=
  starts_with (bs "[") line && ends_with (bs "]") line &&
  negb (existsb (fun b => (b ==? bc "=") || (b ==? bc "{") || (b ==? DOUBLE_QUOTE) || (b ==? bc ",")) line).

Definition closes (open close : byte) : bool :=
  ((open ==? bc "{") && (close ==? bc "}")) || ((open ==? bc "[") && (close ==? bc "]")).

(** [bytes] are those from [index] on. *)
Definition section_at (index : nat) (l : bytes) (s : Scan) : nat :=
  if (index =? line_start s) && is_section (trim_ascii (fst (span_while (fun b => negb (b ==? 10)) l))) then S index else section s.

Definition scan_byte (index : nat) (l : bytes) (b : byte) (s : Scan) : Scan :=
  let section := section_at index l s in
  let scope_of := match scope_of s !! index with
                  | Some _ => <[index := match stack s with (_, id) :: _ => id | [] => section end]> (scope_of s)
                  | None => scope_of s
                  end in
  let newline := b ==? 10 in
  let line_start := if newline then S index else line_start s in
  let quote := if newline then None else quote s in
  let escaped := if newline then false else escaped s in
  match quote with
  | Some delimiter =>
    if escaped then {| scope_of := scope_of; stack := stack s; quote := quote; escaped := false; section := section; line_start := line_start |}
    else if b ==? bc "\" then {| scope_of := scope_of; stack := stack s; quote := quote; escaped := true; section := section; line_start := line_start |}
    else {| scope_of := scope_of; stack := stack s; quote := if b ==? delimiter then None else quote; escaped := escaped;
            section := section; line_start := line_start |}
  | None =>
    {| scope_of := scope_of;
       stack := if (b ==? bc "{") || (b ==? bc "[") then (b, S index) :: stack s
                else match stack s with
                     | (open, _) :: rest => if closes open b then rest else stack s
                     | [] => stack s
                     end;
       quote := if is_quote b then Some b else None; escaped := escaped; section := section; line_start := line_start |}
  end.

Fixpoint scan_bytes (index : nat) (l : bytes) (s : Scan) : Scan :=
  match l with [] => s | b :: r => scan_bytes (S index) r (scan_byte index l b s) end.

(** Every offset starts in no scope; one past the end stays there. *)
Definition scopes (l : bytes) (offsets : list nat) : gmap nat nat :=
  scope_of (scan_bytes 0 l {|
    scope_of := fold_left (fun m o => <[o := 0]> m) offsets ∅; stack := []; quote := None; escaped := false; section := 0; line_start := 0 |}).

Example scopes_example :
  let l := bs "[production]" ++ [10%Z] ++ bs "first" ++ [10%Z] ++ bs "[1,2]" ++ [10%Z] ++ bs "second" ++ [10%Z] ++ bs "[staging]" ++ [10%Z] ++ bs "third" in
  map (fun o => scopes l [13; 25; 42] !! o) [13; 25; 42] = [Some 1; Some 1; Some 33].
Proof. vm_compute. reflexivity. Qed.
