(* ===== verification/CandidateSupport.v ===== *)
(** * When candidates may be tried: [supported_with_fallbacks] and
      [eligible_dependency] of [kingfisher-scanner/src/validation/candidates.rs]

    Only validators with fixed destinations may be given candidates, and only
    dependencies that name no endpoint. Parsing a URL is a parameter. *)

From Stdlib Require Import ZArith Lia Bool.
From stdpp Require Import base list numbers option.
From S2P Require Import Prelude Text Location Spans Rule Expr ExprParser FilterValue HttpFallbacks.

(** What [reqwest::Url::parse] gives. *)
Record ParsedUrl := { scheme : bytes; host_str : option bytes; username : bytes; password : option bytes }.

Section support.
Context {HD : HttpData} (url_parse : bytes -> option ParsedUrl).

Definition http_scheme (u : ParsedUrl) : bool := (scheme u is "http") || (scheme u is "https").
Definition has_host (u : ParsedUrl) : bool := negb (is_none (host_str u)).

(** ** HTTP validations *)

Definition fixed_destination (http : HttpValidation) : bool :=
  let u := url (request http) in
  negb (existsb (fun b => (b ==? bc "{") || (b ==? bc "}")) u) &&
  match url_parse u with Some parsed => http_scheme parsed && has_host parsed | None => false end &&
  is_none (multipart http) && is_none (request_multipart (request http)) &&
  negb (existsb (fun h => eq_ignore_ascii_case (fst h) (bs "host")) (headers (request http))).

(** ** Betterleaks programs

    The code walks the program's JSON: a node has its fields under the names of
    [BetterleaksExpr]. *)

(** The text under [value]. *)
Definition value_text (e : BetterleaksExpr) : option bytes :=
  match e with Identifier v | String v | Float v => Some v | _ => None end.

Fixpoint function_name (e : BetterleaksExpr) : option bytes :=
  match e with
  | Identifier v => Some v
  | Member node property _ _ => n ← function_name node; p ← value_text property; Some (n ++ bs "." ++ p)
  | _ => None
  end.

(** The leftmost operand of a sum, and whether there is one. *)
Fixpoint leftmost (e : BetterleaksExpr) : BetterleaksExpr * bool :=
  match e with
  | Binary operator lhs _ => if operator is "+" then (fst (leftmost lhs), true) else (e, false)
  | _ => (e, false)
  end.

(** [char::is_control] *)
Definition is_control (c : bytes) : bool :=
  match c with [b] => (b <? 32)%Z || (b ==? 127) | [a; b] => (a ==? 194) && (b <? 160)%Z | _ => false end.

Definition fixed_origin (e : BetterleaksExpr) : bool :=
  let '(prefix, dynamic) := leftmost e in
  match prefix with
  | String raw =>
    if existsb (fun c => is_control c || bytes_eqb c (bs "\")) (chars raw) then false
    else match url_parse raw with
    | None => false
    | Some u =>
      if negb (http_scheme u) || negb (has_host u) || non_empty (username u) || negb (is_none (password u)) then false
      else negb dynamic || match find_text (bs "://") raw with Some i => contains_sub (bs "/") (drop (i + 3) raw) | None => false end
    end
  | _ => false
  end.

Definition safe_headers (e : option BetterleaksExpr) : bool :=
  match e with
  | None => true
  | Some (Map pairs) =>
    forallb (fun pair => match pair with Pair (String key) _ => negb (eq_ignore_ascii_case (trim key) (bs "host")) | _ => false end) pairs
  | Some _ => false
  end.

(** The calls a program may make; a network call is noted in [found]. *)
Definition allowed_call (callee : BetterleaksExpr) (arguments : list BetterleaksExpr) (found : bool) : bool * bool :=
  match function_name callee with
  | Some name =>
    if name is "aws.validate" then (true, true)
    else if (name is "http.get") || (name is "http.post") then
      if match arguments with url :: _ => fixed_origin url | [] => false end && safe_headers (arguments !! 1) then (true, true) else (false, found)
    else (one_of name ["validate.unknown"; "bytes"; "base64.encode"; "strings.urlQueryEscape"]%string, found)
  | None => (false, found)
  end.

(** [all(|v| inspect(v, found))] *)
Fixpoint inspect_all (l : list (bool -> bool * bool)) (found : bool) : bool * bool :=
  match l with
  | [] => (true, found)
  | inspect :: l => let '(ok, found) := inspect found in if ok then inspect_all l found else (false, found)
  end.

Fixpoint inspect (e : BetterleaksExpr) (found : bool) : bool * bool :=
  let '(ok, found) := match e with Call callee arguments => allowed_call callee arguments found | _ => (true, found) end in
  if negb ok then (false, found)
  else inspect_all
    match e with
    | Nil | Identifier _ | Integer _ | Float _ | Bool _ | String _ | Pointer _ => []
    | Unary _ node | Chain node | Predicate node => [inspect node]
    | Binary _ lhs rhs => [inspect lhs; inspect rhs]
    | Member node property _ _ => [inspect node; inspect property]
    | Slice node from to => [inspect from; inspect node; inspect to]
    | Call callee arguments => map inspect arguments ++ [inspect callee]
    | Builtin _ nodes | Sequence nodes | Array nodes | Map nodes => map inspect nodes
    | Conditional cond exp1 exp2 => [inspect cond; inspect exp1; inspect exp2]
    | VariableDeclarator _ value expr => [inspect expr; inspect value]
    | Pair key value => [inspect key; inspect value]
    end found.

(** ** Rules *)

Definition supported_with_fallbacks (r : Actions) (enabled : bool) : bool :=
  if negb (authoritative r) then false
  else match validation_action r with
  | Some ValidateAWS => true
  | Some (ValidateHttp _) =>
    match http_validations r enabled with Ok configurations => forallb (fun c => fixed_destination (snd c)) configurations | _ => false end
  | Some (ValidateBetterleaks expression) => let '(ok, found) := inspect expression false in ok && found
  | _ => false
  end.

Definition supported (r : Actions) : bool := supported_with_fallbacks r false.
End support.

(** ** Dependencies *)

Definition ENDPOINT_WORDS : list string :=
  ["url"; "uri"; "host"; "hostname"; "domain"; "endpoint"; "address"; "port"; "server"]%string.

(** The maximal runs of letters of an ASCII text; of another one, too, since a
    character that is not a letter separates. *)
Fixpoint words_of (l : bytes) : list bytes :=
  match l with
  | [] => [[]]
  | b :: r =>
    match words_of r with
    | word :: words => if is_ascii_alphabetic b then (b :: word) :: words else [] :: word :: words
    | [] => [[b]]
    end
  end.

Definition names_endpoint (name : bytes) : bool :=
  let name := map to_ascii_lowercase name in
  let endpoint_word := existsb (fun part => one_of part ENDPOINT_WORDS) (words_of name) in
  let name := trim_end_while (fun b => negb (is_ascii_alphabetic b)) name in
  endpoint_word || existsb (fun suffix => ends_with (bs suffix) name) ["url"; "uri"; "hostname"; "domain"; "endpoint"]%string.

Definition eligible_dependency (validation : option Validation) (dep : DependsOnRule) : bool :=
  verify_candidates dep && negb (names_endpoint (variable dep)) && negb (names_endpoint (dep_rule_id dep)) &&
  match validation with
  | Some AWS => eq_ignore_ascii_case (variable dep) (bs "AKID") || eq_ignore_ascii_case (variable dep) (bs "AWS_SECRET_ACCESS_KEY")
  | _ => true
  end.

Example endpoint_names : names_endpoint (bs "JIRADCDOMAIN") = true /\ names_endpoint (bs "BASEURL2") = true /\
  names_endpoint (bs "PORTAL_KEY") = false /\ names_endpoint (bs "DB_PORT") = true.
Proof. vm_compute. auto. Qed.
