(* ===== verification/Association.v ===== *)
(** * Components of a credential: [associate_betterleaks_components] of
      [src/matcher/mod.rs]

    A finding may need values of other rules: the findings near it, or anywhere in
    the buffer, that supply them are looked up in the index of findings; findings
    that lack a required component are dropped, and the others get the values, or
    learn how many there are, or which to try in which order. [Components] decides
    who stays, [Windows] who is near, [CandidateContext] who comes first.

    The code keeps the values it computed in tables, by finding, by rule and by
    global dependency; they hold what the functions of this file give. *)

From Stdlib Require Import ZArith Lia Bool.
From stdpp Require Import base list numbers option gmap sets.
From S2P Require Import Prelude Text Control Ordered Rule Overlap.
From S2P Require Import Location Spans Expr FilterValue Requirements MatchFilter Windows Components HttpFallbacks CandidateSupport CandidateContext CandidateSearch.
#[local] Open Scope nat_scope.

(** ** Values *)

Record ComponentValue := { value_secret : bytes; value_captures : list (bytes * bytes) }.

#[export] Instance ComponentValue_eq_dec : EqDecision ComponentValue.
Proof. solve_decision. Defined.

(** [Ord for ComponentValue]: the secret, then the captures in order. *)
Fixpoint captures_cmp (a b : list (bytes * bytes)) : comparison :=
  match a, b with
  | [], [] => Eq
  | [], _ => Lt
  | _, [] => Gt
  | (k, v) :: a, (k', v') :: b => then_with (bytes_cmp k k') (then_with (bytes_cmp v v') (captures_cmp a b))
  end.
Definition value_cmp (a b : ComponentValue) : comparison :=
  then_with (bytes_cmp (value_secret a) (value_secret b)) (captures_cmp (value_captures a) (value_captures b)).

(** The name differs, the scope differs, the distance: smaller is better. *)
Definition Rank : Type := bool * bool * nat.
Definition bool_cmp (a b : bool) : comparison := match a, b with false, true => Lt | true, false => Gt | _, _ => Eq end.
Definition rank_cmp (a b : Rank) : comparison :=
  then_with (then_with (bool_cmp a.1.1 b.1.1) (bool_cmp a.1.2 b.1.2)) (Nat.compare a.2 b.2).
Definition entry_cmp (a b : Rank * ComponentValue) : comparison := then_with (rank_cmp a.1 b.1) (value_cmp a.2 b.2).

(** [entry(value).and_modify(min).or_insert(rank)] *)
Fixpoint rank_entry (v : ComponentValue) (rank : Rank) (l : list (Rank * ComponentValue)) : list (Rank * ComponentValue) :=
  match l with
  | [] => [(rank, v)]
  | (old, w) :: l => if decide (v = w) then (match rank_cmp rank old with Lt => rank | _ => old end, w) :: l else (old, w) :: rank_entry v rank l
  end.

(** A [BTreeSet] of values of which only the number and a single one are read. *)
Definition value_add (v : ComponentValue) (l : list ComponentValue) : list ComponentValue := if decide (v ∈ l) then l else l ++ [v].

(** ** What a primary learns *)

Record Associated := {
  associated : gmap bytes bytes;
  associated_components : gmap bytes ComponentValue;
  component_candidates : gmap bytes (list (bytes * (bytes * ComponentValue)));
  variable_candidates : gmap bytes (list bytes);
  ambiguous : gmap bytes nat
}.
Definition nothing : Associated := {|
  associated := ∅; associated_components := ∅; component_candidates := ∅; variable_candidates := ∅; ambiguous := ∅
|}.

Definition line_starts_of (l : bytes) : list Z :=
  0%Z :: flat_map (fun '(i, b) => if b ==? 10 then [Z.of_nat (S i)] else []) (enumerate l).

Definition to_span (s : Location.OffsetSpan) : Windows.Span := {| s_start := Z.of_nat (span_start s); s_end := Z.of_nat (span_end s) |}.

Section associate.
Context {F : F32} {F6 : F64} {Lib : Library} {HD : HttpData} (url_parse : bytes -> option ParsedUrl).
(** The actions of a rule, and the names of the groups of a rule's regex. *)
Context (actions : ScanRule -> Actions) (rule_capture_names : bytes -> list bytes).
(** [serde_json::to_string] *)
Context (components_to_string : gmap bytes ComponentValue -> bytes).
Context (candidates_to_string : gmap bytes (list (bytes * (bytes * ComponentValue))) -> bytes).
Context (input : bytes) (resources : ResourceLimits) (found : list BlobMatch).

Definition rule_of (m : BlobMatch) : Rule := base (match_rule m).
Definition finding_id (m : BlobMatch) : bytes := id (rule_of m).
Definition match_deps (m : BlobMatch) : list DependsOnRule := dependencies (rule_of m).

Definition entry_of (im : nat * BlobMatch) : bytes * nat * nat := (finding_id im.2, span_start (association_offset_span im.2), im.1).
Definition finding_index : RuleMatchIndex := rmi_new (map entry_of (enumerate found)).

Definition byte_len : Z := Z.of_nat (length input).
Definition starts : list Z := line_starts_of input.

Definition near (primary candidate : BlobMatch) (w : ComponentWindow) : bool :=
  component_is_within_window byte_len starts (to_span (association_offset_span primary)) (to_span (association_offset_span candidate)) w.

(** The candidates in the range of a window, in the order of the index. The end of
    a range past the input is cut to the first offset past every finding. *)
Definition in_window (ix : RuleMatchIndex) (dependency : DependsOnRule) (primary : BlobMatch) (w : option ComponentWindow) : list (nat * nat) :=
  let '(from, to) := match w with
    | Some w => component_candidate_range_with_window byte_len starts (to_span (association_offset_span primary)) w
    | None => (0, 0)%Z
    end in
  default [] (Overlap.candidates ix (dep_rule_id dependency) (Z.to_nat (Z.min from (byte_len + 1))) (Z.to_nat (Z.min to (byte_len + 1)))).

(** Whether a candidate of the range is one of the dependency. *)
Definition supplies (dependency : DependsOnRule) (primary candidate : BlobMatch) (w : option ComponentWindow) : bool :=
  bytes_eqb (finding_id candidate) (dep_rule_id dependency) && match w with Some w => near primary candidate w | None => false end.

(** ** Required components *)

Definition is_required (d : DependsOnRule) : bool := negb (optional d) && negb (is_none (within d)).
Definition required (m : BlobMatch) : list DependsOnRule := List.filter is_required (match_deps m).
Definition dependency_counts : list nat := map (fun m => length (required m)) found.

(** The first finding in the window that supplies a required component. *)
Definition find_supplier (ix : RuleMatchIndex) (primary_index dependency_index : nat) : option nat :=
  primary ← found !! primary_index;
  dependency ← required primary !! dependency_index;
  let w := parse_component_window (default [] (within dependency)) in
  find_map (fun '(_, index) =>
    match found !! index with
    | Some candidate => if supplies dependency primary candidate w then Some index else None
    | None => None
    end) (in_window ix dependency primary w).

Definition remove_finding (ix : RuleMatchIndex) (index : nat) : RuleMatchIndex :=
  match found !! index with
  | Some finding => rmi_remove ix (finding_id finding) (span_start (association_offset_span finding)) index
  | None => ix
  end.

#[export] Instance finding_candidates : CandidateIndex RuleMatchIndex := {|
  find_candidate ix primary_index dependency_index := ret (find_supplier ix primary_index dependency_index); remove := remove_finding
|}.

(** ** The values of a finding *)

Definition component_value (structured : bool) (candidate : BlobMatch) : ComponentValue :=
  let secret := match match_captures candidate with
                | capture :: _ => cap_value capture
                | [] => from_utf8_lossy (matching_input candidate)
                end in
  let names := rule_capture_names (finding_id candidate) in
  {| value_secret := secret;
     value_captures := if structured then
       bt_collect (omap (fun capture =>
         match cap_name capture with
         | Some name => if existsb (bytes_eqb name) names then Some (name, cap_value capture) else None
         | None => None
         end) (match_captures candidate))
     else [] |}.

Definition value_of (structured : bool) (index : nat) : ComponentValue :=
  match found !! index with Some m => component_value structured m | None => {| value_secret := []; value_captures := [] |} end.

(** ** One dependency *)

Definition structured (primary : BlobMatch) : bool :=
  match validation (rule_of primary) with Some Betterleaks => true | _ => false end ||
  match revocation (actions (match_rule primary)) with Some (RevokeBetterleaks _) => true | _ => false end.

Definition supports_candidates (primary : BlobMatch) : bool :=
  existsb verify_candidates (match_deps primary) && supported url_parse (actions (match_rule primary)).

Definition match_scopes : gmap nat nat :=
  if existsb (fun m => existsb verify_candidates (match_deps m)) found
  then scopes input (map (fun m => span_start (matching_input_offset_span m)) found) else ∅.

Definition rank_of (primary candidate : BlobMatch) : Rank :=
  let family := assignment_family input (matching_input_offset_span primary) in
  let matching_name := match family with
    | Some name => bool_decide (assignment_family input (matching_input_offset_span candidate) = Some name)
    | None => false
    end in
  let scope := default 0 (match_scopes !! span_start (matching_input_offset_span primary)) in
  let same_scope := negb (scope =? 0) && bool_decide (match_scopes !! span_start (matching_input_offset_span candidate) = Some scope) in
  let a := span_start (matching_input_offset_span primary) in
  let b := span_start (matching_input_offset_span candidate) in
  (negb matching_name, negb same_scope, (a - b) + (b - a)).

Section dependency.
Context (ix : RuleMatchIndex) (keep : list bool) (primary : BlobMatch) (dependency : DependsOnRule).

Definition try_candidates : bool :=
  supports_candidates primary && eligible_dependency (validation (rule_of primary)) dependency.

(** A window that is left out, blank or zero. *)
Definition anywhere : bool :=
  match within dependency with None => true | Some w => bytes_eqb (trim w) [] || bytes_eqb (trim w) (bs "0") end.

(** The findings that supply the dependency, in the order of the index. *)
Definition suppliers : list nat :=
  if negb try_candidates && anywhere then
    map snd (List.filter (fun x => nth (snd x) keep false)
      (default [] (Overlap.candidates ix (dep_rule_id dependency) 0 (Z.to_nat (byte_len + 1)))))
  else
    let w := parse_component_window (default [] (within dependency)) in
    map snd (List.filter (fun x =>
      match found !! snd x with
      | Some candidate => nth (snd x) keep false && supplies dependency primary candidate w
      | None => false
      end) (in_window ix dependency primary w)).

Definition supplied : list ComponentValue :=
  fold_left (fun values index => value_add (value_of (structured primary) index) values) suppliers [].

(** The values to try, best first. *)
Definition ranked_values : list ComponentValue :=
  let ranked := fold_left (fun ranked index =>
    match found !! index with
    | Some candidate => rank_entry (value_of (structured primary) index) (rank_of primary candidate) ranked
    | None => ranked
    end) suppliers [] in
  let sorted := map snd (sort_by entry_cmp ranked) in
  if unlimited resources then sorted else take MAX_COMBINATIONS sorted.

Definition identified (values : list ComponentValue) : list (bytes * (bytes * ComponentValue)) :=
  map (fun '(i, v) => (show_usize (Z.of_nat i), (dep_rule_id dependency, v))) (enumerate values).

Definition learn (a : Associated) : Associated :=
  let variable := to_uppercase (variable dependency) in
  match supplied with
  | [] => a
  | [value] =>
    {| associated := <[variable := value_secret value]> (associated a);
       associated_components := if structured primary then <[dep_rule_id dependency := value]> (associated_components a) else associated_components a;
       component_candidates := component_candidates a; variable_candidates := variable_candidates a; ambiguous := ambiguous a |}
  | values =>
    {| associated := associated a; associated_components := associated_components a;
       component_candidates := if try_candidates && structured primary then <[variable := identified ranked_values]> (component_candidates a)
                               else component_candidates a;
       variable_candidates := if try_candidates then
           <[variable := if structured primary then map fst (identified ranked_values) else map value_secret ranked_values]> (variable_candidates a)
         else variable_candidates a;
       ambiguous := <[variable := length values]> (ambiguous a) |}
  end.
End dependency.

Definition learn_all (ix : RuleMatchIndex) (keep : list bool) (primary : BlobMatch) : Associated :=
  fold_left (fun a dependency => learn ix keep primary dependency a) (match_deps primary) nothing.

(** ** The findings *)

Definition with_associated (a : Associated) (m : BlobMatch) : BlobMatch :=
  let captures := associated a ∪ dependent_captures m in
  let captures := if decide (associated_components a = ∅) then captures
                  else <[bs "__BETTERLEAKS_COMPONENTS" := components_to_string (associated_components a)]> captures in
  let captures := if decide (component_candidates a = ∅) then captures
                  else <[bs "__BETTERLEAKS_COMPONENT_CANDIDATES" := candidates_to_string (component_candidates a)]> captures in
  {| match_rule := match_rule m; matching_input := matching_input m; matching_input_offset_span := matching_input_offset_span m;
     association_offset_span := association_offset_span m; match_captures := match_captures m; validation_outcome := validation_outcome m;
     calculated_entropy := calculated_entropy m; match_is_base64 := match_is_base64 m; dependent_captures := captures;
     ambiguous_dependencies := ambiguous a ∪ ambiguous_dependencies m;
     dependency_candidates := variable_candidates a ∪ dependency_candidates m |}.

(** [expect]: a control without limits does not abort. *)
Definition kept_findings : list bool * RuleMatchIndex :=
  expect ([], finding_index) (dependency_keep control_default dependency_counts finding_index) (fun _ => {| is_cancelled := false; now := 0 |}).

Definition associate : list BlobMatch :=
  if negb (existsb (fun m => negb (is_nil (depends_on_rule (rule_of m)))) found) then found
  else
    let '(keep, ix) := kept_findings in
    omap (fun '(i, m) => if nth i keep false then Some (with_associated (learn_all ix keep m) m) else None) (enumerate found).
End associate.
