(* ===== verification/AssociationExact.v ===== *)
(** * What the association of components computes

    The index the propagation leaves is one the scan can reach, and its windows
    lose no supplier, so the findings kept are the greatest set that supplies its
    own required components, and a primary learns of exactly the kept findings
    that supply each of its dependencies. *)

From Stdlib Require Import ZArith Lia Bool Sorted.
From stdpp Require Import base list numbers option gmap sets.
From S2P Require Import Prelude Text Control Ordered Rule Overlap.
From S2P Require Import Location Spans Expr FilterValue SpecF64 Requirements MatchFilter Windows Components HttpFallbacks CandidateSupport CandidateContext CandidateSearch Association.
Import PairSet.
#[local] Open Scope nat_scope.

(** ** Windows and lines *)

Lemma window_token_ok w token w' : window_ok w -> window_token w token = Some w' -> window_ok w'.
Proof.
  intros (H1 & H2 & H3 & H4). unfold window_token. destruct (match token with [] => _ | _ => _ end) as [direction rest].
  destruct (match last rest with None => _ | _ => _ end) as [amount is_lines].
  destruct (parse_usize amount) as [a|] eqn:E; [|done]. apply parse_usize_range in E.
  destruct is_lines; intros [= <-]; unfold window_ok, saturating_sub; cbn; repeat case_match; lia.
Qed.

Lemma window_tokens_ok tokens : forall w w', window_ok w -> window_tokens w tokens = Some w' -> window_ok w'.
Proof.
  induction tokens as [|t tokens IH]; intros w w' Hw; cbn [window_tokens]; [by intros [= <-]|].
  destruct (window_token w (trim t)) as [w1|] eqn:E; [|done]. apply IH. by eapply window_token_ok.
Qed.

Lemma parse_component_window_ok value w : parse_component_window value = Some w -> window_ok w.
Proof.
  unfold parse_component_window. destruct (_ || _); [intros [= <-]; unfold window_ok; cbn; lia|].
  apply window_tokens_ok. unfold window_ok. cbn. lia.
Qed.

Lemma line_starts_lookup l : forall k i x,
  flat_map (fun '(i, b) => if b ==? 10 then [Z.of_nat (S i)] else []) (enumerate_from k l) !! i = Some x ->
  (Z.of_nat k < x <= Z.of_nat (k + length l))%Z /\
  forall j y, i < j -> flat_map (fun '(i, b) => if b ==? 10 then [Z.of_nat (S i)] else []) (enumerate_from k l) !! j = Some y -> (x < y)%Z.
Proof.
  induction l as [|b l IH]; intros k i x; cbn [enumerate_from flat_map length]; [done|].
  destruct (b ==? 10)%kf; cbn [app].
  - destruct i as [|i]; cbn [lookup list_lookup].
    + intros [= <-]. split; [lia|]. intros [|j] y Hj; [lia|]. cbn [lookup list_lookup]. intros Hy.
      destruct (IH _ _ _ Hy) as [? _]. lia.
    + intros Hx. destruct (IH _ _ _ Hx) as [? Hs]. split; [lia|]. intros [|j] y Hj; [lia|]. apply Hs. lia.
  - intros Hx. destruct (IH _ _ _ Hx) as [? Hs]. split; [lia|]. exact Hs.
Qed.

Lemma line_starts_ok l : (Z.of_nat (length l) < USIZE_MAX)%Z -> starts_ok (Z.of_nat (length l)) (line_starts_of l).
Proof.
  intros Hl. unfold line_starts_of, enumerate. split; [done| | |done].
  - intros [|i] [|j] x y Hij; cbn [lookup list_lookup]; try lia.
    + intros [= <-] Hy. destruct (line_starts_lookup _ _ _ _ Hy). lia.
    + intros Hx Hy. destruct (line_starts_lookup _ _ _ _ Hx) as [_ Hs]. apply (Hs j); [lia|done].
  - intros x [<-|Hx]; [lia|]. apply list_elem_of_In, list_elem_of_lookup in Hx as [i Hi].
    destruct (line_starts_lookup _ _ _ _ Hi). lia.
Qed.

Lemma find_map_some {A B} (f : A -> option B) l y : find_map f l = Some y -> exists x, In x l /\ f x = Some y.
Proof.
  induction l as [|x l IH]; cbn; [done|]. destruct (f x) eqn:E; [intros [= ->]; eauto|]. intros H. destruct (IH H) as (x' & ? & ?). eauto.
Qed.
Lemma find_map_none {A B} (f : A -> option B) l : find_map f l = None -> forall x, In x l -> f x = None.
Proof. induction l as [|x l IH]; cbn; [done|]. destruct (f x) eqn:E; [done|]. intros H y [<-|Hy]; auto. Qed.

(** Pairs in order whose second components determine the first. *)
Lemma snd_nodup l : StronglySorted pair_lt l -> (forall p q i, In (p, i) l -> In (q, i) l -> p = q) -> NoDup (map snd l).
Proof.
  induction 1 as [|[p i] l Hs IH Hx]; intros Hfun; cbn; [constructor|]. constructor.
  - rewrite list_elem_of_In, in_map_iff. intros ([q j] & <- & Hin). cbn in *.
    rewrite (Hfun p q j) in Hx by first [by left | by right]. apply (proj1 (List.Forall_forall _ _) Hx) in Hin. by apply (pair_lt_irrefl (q, j)).
  - apply IH. intros q r j Hq Hr. by apply (Hfun q r j); right.
Qed.

Section exact.
Context {F : F32} (input : bytes) (found : list BlobMatch).

Definition spans_inside : Prop := (Z.of_nat (length input) < USIZE_MAX)%Z /\ forall m, m ∈ found ->
  span_start (association_offset_span m) <= span_end (association_offset_span m) <= length input.

Abbreviation start_of m := (span_start (association_offset_span m)).

(** ** The index *)

Definition entries_of (removed : list nat) : list (bytes * nat * nat) :=
  flat_map (fun i => match found !! i with Some m => [entry_of (i, m)] | None => [] end) removed.

(** An index of the findings without some of them. *)
Definition good (ix : RuleMatchIndex) : Prop := exists removed, ix = remove_all (finding_index found) (entries_of removed).
Definition live (ix : RuleMatchIndex) (i : nat) : Prop := exists m, found !! i = Some m /\
  In (start_of m, i) (default [] (positions ix !! finding_id m)).

Lemma in_entries removed r p i : In (r, p, i) (entries_of removed) <->
  In i removed /\ exists m, found !! i = Some m /\ finding_id m = r /\ start_of m = p.
Proof.
  unfold entries_of. rewrite in_flat_map. split.
  - intros (j & Hj & Hin). destruct (found !! j) as [m|] eqn:E; [|done]. destruct Hin as [[= <- <- <-]|[]]. eauto.
  - intros (Hi & m & Hm & <- & <-). exists i. rewrite Hm. split; [done|by left].
Qed.

Lemma in_found_entries r p i : In (r, p, i) (map entry_of (enumerate found)) <->
  exists m, found !! i = Some m /\ finding_id m = r /\ start_of m = p.
Proof.
  rewrite in_map_iff. split.
  - intros ([j m] & [= <- <- <-] & Hin%in_enumerate). eauto.
  - intros (m & Hm & <- & <-). exists (i, m). split; [done|by apply in_enumerate].
Qed.

Lemma live_removed removed i : live (remove_all (finding_index found) (entries_of removed)) i <-> i < length found /\ ~ In i removed.
Proof.
  assert (forall r l, positions {| positions := ∅ |} !! r = Some l -> Sorted.StronglySorted pair_lt l) as H0 by (intros r l; cbn; by rewrite lookup_empty).
  destruct (rmi_sorted_new (map entry_of (enumerate found)) _ H0) as [Hs Hin].
  destruct (rmi_sorted_remove (entries_of removed) _ Hs) as [_ Hin'].
  assert (forall m, found !! i = Some m -> In (start_of m, i) (default [] (positions (remove_all (finding_index found) (entries_of removed)) !! finding_id m)) <-> ~ In i removed) as H.
  { intros m Hm. unfold finding_index, rmi_new. rewrite Hin', Hin, in_found_entries, in_entries. cbn [fst snd positions].
    rewrite lookup_empty. cbn. split; [intros [_ Hn] Hi; apply Hn; eauto|]. intros Hn. split; [right; eauto|]. tauto. }
  split.
  - intros (m & Hm & Hl). split; [by eapply lookup_lt_Some|by apply (H m)].
  - intros [Hi Hn]. destruct (lookup_lt_is_Some_2 _ _ Hi) as [m Hm]. exists m. split; [done|]. by apply (H m).
Qed.

Lemma good_candidates ix rule from to : good ix -> exists l, Overlap.candidates ix rule from to = Some l /\
  StronglySorted pair_lt l /\ forall p i, In (p, i) l <-> live ix i /\ from <= p < to /\ exists m, found !! i = Some m /\ finding_id m = rule /\ start_of m = p.
Proof.
  intros [removed ->]. destruct (rmi_candidates_exact (map entry_of (enumerate found)) (entries_of removed) rule from to) as (l & Hl & Hsort & Hin).
  exists l. split; [exact Hl|]. split; [exact Hsort|]. intros p i. rewrite Hin, in_found_entries, in_entries, live_removed. split.
  - intros ((m & Hm & <- & <-) & Hn & Hp). apply lookup_lt_Some in Hm as Hi.
    split; [split; [done|]|split; [exact Hp|by exists m]]. intros Hr. apply Hn. split; [done|by exists m].
  - intros ((Hi & Hn) & Hp & Hm). repeat split; try done; try lia. intros [Hr _]. done.
Qed.

Lemma entries_snoc removed i : entries_of (removed ++ [i]) = entries_of removed ++ entries_of [i].
Proof. apply flat_map_app. Qed.

Lemma remove_snoc removed i : remove (CandidateIndex := finding_candidates input found) (remove_all (finding_index found) (entries_of removed)) i =
  remove_all (finding_index found) (entries_of (removed ++ [i])).
Proof.
  rewrite entries_snoc. unfold remove_all. rewrite fold_left_app. cbn [remove finding_candidates]. unfold remove_finding.
  set (ix := fold_left _ (entries_of removed) _). unfold entries_of. cbn [flat_map]. rewrite app_nil_r.
  by destruct (found !! i) as [m|].
Qed.

(** ** Required components *)

Definition window_of (dependency : DependsOnRule) : option ComponentWindow := parse_component_window (default [] (within dependency)).

Context (Hspans : spans_inside).

(** The range of a window holds every finding the window accepts. *)
Lemma in_window_exact ix dependency primary w : good ix -> primary ∈ found -> (forall v, w = Some v -> window_ok v) ->
  StronglySorted pair_lt (in_window input ix dependency primary w) /\
  (forall p i, In (p, i) (in_window input ix dependency primary w) -> live ix i /\ exists m, found !! i = Some m /\ finding_id m = dep_rule_id dependency /\ start_of m = p) /\
   forall i m, live ix i -> found !! i = Some m -> supplies input dependency primary m w = true -> In (start_of m, i) (in_window input ix dependency primary w).
Proof.
  intros Hix Hp Hw. unfold in_window.
  destruct (match w with None => _ | Some _ => _ end) as [from to] eqn:Er.
  destruct (good_candidates ix (dep_rule_id dependency) (Z.to_nat (Z.min from (byte_len input + 1))) (Z.to_nat (Z.min to (byte_len input + 1))) Hix) as (l & -> & Hs & Hin).
  cbn [default from_option id]. split; [done|]. split; [intros p i Hpi; destruct (proj1 (Hin p i) Hpi) as (? & _ & ?); done|].
  intros i m Hi Hm Hsup. unfold supplies in Hsup. apply andb_prop in Hsup as [Hid Hnear]. apply bool_decide_eq_true in Hid.
  destruct w as [w|]; [|done]. destruct Hspans as [Hlen Hall].
  assert (m ∈ found) as Hmf by by eapply list_elem_of_lookup_2. pose proof (Hall _ Hp). pose proof (Hall _ Hmf).
  destruct (range_complete (byte_len input) (starts input) (to_span (association_offset_span primary)) (to_span (association_offset_span m)) w) as [Hr _];
    [by apply line_starts_ok|by apply Hw|unfold byte_len, to_span; cbn; lia..|].
  specialize (Hr Hnear). rewrite Er in Hr. unfold in_range in Hr. cbn [fst snd to_span s_start] in Hr. tobool.
  apply Hin. split; [done|]. split; [unfold byte_len in *; lia|]. exists m. done.
Qed.

Definition supports (p d c : nat) : Prop := exists primary dependency candidate,
  found !! p = Some primary /\ required primary !! d = Some dependency /\ found !! c = Some candidate /\
  supplies input dependency primary candidate (window_of dependency) = true.

#[local] Instance finding_candidates_laws control : CandidateLaws (finding_candidates input found) control (dependency_counts found) good live supports.
Proof using Hspans.
  assert (length (dependency_counts found) = length found) as Hlen by apply length_map.
  split.
  - intros ix p d count Hix Hp Hd. unfold dependency_counts in Hp. change (((fun m => length (required m)) <$> found) !! p = Some count) in Hp. rewrite list_lookup_fmap in Hp.
    destruct (found !! p) as [primary|] eqn:Ep; [|done]. injection Hp as <-.
    destruct (lookup_lt_is_Some_2 _ _ Hd) as [dependency Ed]. apply csat_ret. unfold find_supplier. cbn [mbind option_bind]. rewrite Ep. cbn [mbind option_bind]. rewrite Ed. cbn [mbind option_bind].
    destruct (in_window_exact ix dependency primary (window_of dependency) Hix) as (_ & Hlive & Hall); [by eapply list_elem_of_lookup_2|by intros v; apply parse_component_window_ok|].
    fold (window_of dependency). destruct (find_map _ _) as [c|] eqn:E.
    + apply find_map_some in E as ([q j] & Hin & E). destruct (found !! j) as [candidate|] eqn:Ej; [|done].
      destruct (supplies _ _ _ _ _) eqn:Es; [|done]. injection E as ->. apply Hlive in Hin as [Hin _].
      split; [rewrite Hlen; by eapply lookup_lt_Some|]. split; [done|]. by exists primary, dependency, candidate.
    + intros c Hc (primary' & dependency' & candidate & Hp & Hr & Hcand & Hs). simplify_eq.
      pose proof (find_map_none _ _ E (start_of candidate, c) (Hall c candidate Hc Hcand Hs)) as Hn. cbn in Hn. by rewrite Hcand, Hs in Hn.
  - intros ix i [removed ->] _. exists (removed ++ [i]). apply remove_snoc.
  - intros ix i c [removed ->] _. rewrite remove_snoc, !live_removed, in_app_iff. cbn [In]. split.
    + intros [Hc Hn]. split; [split; [done|]|]; [intros Hr; apply Hn; by left|intros ->; apply Hn; by right; left].
    + intros [[Hc Hn] Hne]. split; [done|]. intros [Hr|[<-|[]]]; done.
Qed.

(** Whether the findings kept are exactly the ones the index has left. *)
Lemma kept_findings_sustained : let '(keep, ix) := kept_findings input found in
  good ix /\ length keep = length found /\ (forall i, live ix i <-> nth i keep false = true) /\
  forall i, nth i keep false = true <-> sustained (dependency_counts found) supports i.
Proof using Hspans.
  assert (length (dependency_counts found) = length found) as Hlen by apply length_map.
  assert (good (finding_index found)) as Hgood by by exists [].
  assert (forall c, live (finding_index found) c <-> c < length (dependency_counts found)) as Hlive.
  { intros c. rewrite Hlen. rewrite (live_removed [] c). cbn. tauto. }
  pose proof (dependency_keep_sustained (CI := finding_candidates input found) control_default (dependency_counts found) good live supports (finding_index found) Hgood Hlive) as H.
  unfold kept_findings, expect. specialize (H (fun _ => {| is_cancelled := false; now := 0%Z |}) 0).
  destruct (fst _) as [[keep ix]|e]; [|done]. destruct H as (Hg & Hl & Hk & Hi). split; [done|]. split; [congruence|].
  split; [|done]. intros i. by rewrite Hi, Hk.
Qed.

(** ** Who supplies a dependency *)

Context {F6 : F64} {Lib : Library} {HD : HttpData} (url_parse : bytes -> option ParsedUrl) (actions : ScanRule -> Actions).

(** Anywhere in the buffer, or in the window. *)
Definition in_reach (primary : BlobMatch) (dependency : DependsOnRule) (m : BlobMatch) : bool :=
  (negb (try_candidates url_parse actions primary dependency) && anywhere dependency) ||
  match window_of dependency with Some w => near input primary m w | None => false end.

Lemma suppliers_exact ix keep primary dependency : good ix -> (forall i, live ix i <-> nth i keep false = true) -> primary ∈ found ->
  let l := suppliers url_parse actions input found ix keep primary dependency in
  NoDup l /\ forall i, i ∈ l <-> nth i keep false = true /\ exists m, found !! i = Some m /\
    finding_id m = dep_rule_id dependency /\ in_reach primary dependency m = true.
Proof using Hspans.
  intros Hix Hlive Hp. unfold suppliers, in_reach.
  destruct (negb (try_candidates _ _ _ _) && anywhere dependency) eqn:Eany; cbn [orb].
  - destruct (good_candidates ix (dep_rule_id dependency) 0 (Z.to_nat (byte_len input + 1)) Hix) as (l & -> & Hs & Hin). cbn [default from_option id]. split.
    + apply snd_nodup; [by apply filter_sorted|]. intros p q i [Hpi _]%filter_In [Hqi _]%filter_In.
      apply Hin in Hpi as (_ & _ & m & Hm & _ & <-), Hqi as (_ & _ & m' & Hm' & _ & <-). congruence.
    + intros i. rewrite list_elem_of_In, in_map_iff. split.
      * intros ([p j] & <- & [Hpi Hk]%filter_In). apply Hin in Hpi as (_ & _ & m & Hm & Hid & _). cbn in *. eauto.
      * intros (Hk & m & Hm & Hid & _). exists (start_of m, i). split; [done|]. apply filter_In. split; [|done]. apply Hin.
        split; [by apply Hlive|]. split; [|by exists m]. destruct Hspans as [_ Hall].
        pose proof (Hall m ltac:(by eapply list_elem_of_lookup_2)). unfold byte_len. lia.
  - fold (window_of dependency).
    destruct (in_window_exact ix dependency primary (window_of dependency) Hix Hp) as (Hs & Hl & Hall); [by intros v; apply parse_component_window_ok|]. split.
    + apply snd_nodup; [by apply filter_sorted|]. intros p q i [Hpi _]%filter_In [Hqi _]%filter_In.
      apply Hl in Hpi as (_ & m & Hm & _ & <-), Hqi as (_ & m' & Hm' & _ & <-). congruence.
    + intros i. rewrite list_elem_of_In, in_map_iff. split.
      * intros ([p j] & <- & [Hpi Hk]%filter_In). cbn [snd] in *. destruct (found !! j) as [m|] eqn:Hm; [|done].
        apply andb_prop in Hk as [Hk Hsup]. split; [done|]. exists m. unfold supplies in Hsup. apply andb_prop in Hsup as [Hid Hn].
        by apply bool_decide_eq_true in Hid.
      * intros (Hk & m & Hm & Hid & Hn). assert (supplies input dependency primary m (window_of dependency) = true) as Hsup.
        { unfold supplies. rewrite Hn, andb_true_r, Hid. by apply bool_decide_eq_true. }
        exists (start_of m, i). split; [done|]. apply filter_In. split; [apply Hall; [by apply Hlive|done..]|]. cbn [snd]. by rewrite Hm, Hk, Hsup.
Qed.

Context (rule_capture_names : bytes -> list bytes) (resources : ResourceLimits).
Context (components_to_string : gmap bytes ComponentValue -> bytes).
Context (candidates_to_string : gmap bytes (list (bytes * (bytes * ComponentValue))) -> bytes).
Abbreviation learnt := (learn_all url_parse actions rule_capture_names input resources found).
Abbreviation receive := (with_associated components_to_string candidates_to_string).

Lemma with_nothing m : receive nothing m = m.
Proof. unfold with_associated, nothing. cbn. rewrite !decide_True by done. rewrite !(left_id_L ∅ (∪)). by destruct m. Qed.

Lemma none_required m : depends_on_rule (rule_of m) = [] -> match_deps m = [].
Proof. unfold match_deps, dependencies. by intros ->. Qed.

(** C5. For every buffer and every findings inside it: the findings that stay are
    the greatest set in which each required component of each finding has a
    finding of the set in its window; their order is kept, and each one receives
    what [learn_all] makes of its dependencies; and the findings that supply a
    dependency are, once each, exactly the findings that stay, are of the rule
    asked for, and are in reach: anywhere if the window is open and candidates are
    not tried, or in the window. *)
Theorem association_exact : exists keep ix,
  associate url_parse actions rule_capture_names components_to_string candidates_to_string input resources found =
    omap (fun '(i, m) => if nth i keep false then Some (receive (learnt ix keep m) m) else None) (enumerate found) /\
  (forall i, nth i keep false = true <-> sustained (dependency_counts found) supports i) /\
  forall primary dependency, primary ∈ found -> dependency ∈ match_deps primary ->
    let l := suppliers url_parse actions input found ix keep primary dependency in
    NoDup l /\ forall i, i ∈ l <-> nth i keep false = true /\ exists m, found !! i = Some m /\
      finding_id m = dep_rule_id dependency /\ in_reach primary dependency m = true.
Proof using Hspans.
  pose proof kept_findings_sustained as H. destruct (kept_findings input found) as [keep ix] eqn:Ek. destruct H as (Hix & Hlen & Hlive & Hkeep).
  exists keep, ix. split; [|split; [done|]].
  - unfold associate. rewrite Ek. destruct (existsb _ found) eqn:Ed; [done|]. cbn [negb].
    assert (forall m, m ∈ found -> match_deps m = []) as Hnone.
    { intros m Hm%list_elem_of_In. apply none_required. destruct (depends_on_rule (rule_of m)) eqn:E; [done|]. exfalso.
      rewrite (proj2 (existsb_exists _ _)) in Ed; [done|]. exists m. by rewrite E. }
    assert (forall i m, found !! i = Some m -> nth i keep false = true) as Hall.
    { intros i m Hm. apply Hkeep. exists (fun j => j < length found). split; [|by apply lookup_lt_Some in Hm].
      intros p Hp. split; [by unfold dependency_counts; rewrite length_map|]. intros count d Hc Hd. exfalso.
      change (((fun m => length (required m)) <$> found) !! p = Some count) in Hc. rewrite list_lookup_fmap in Hc.
      destruct (found !! p) as [q|] eqn:Eq; [|done]. injection Hc as <-. unfold required in Hd.
      rewrite (Hnone q) in Hd by (by eapply list_elem_of_lookup_2). cbn in Hd. lia. }
    assert (forall l k, (forall i m, l !! i = Some m -> found !! (k + i) = Some m) ->
      l = omap (fun '(i, m) => if nth i keep false then Some (receive (learnt ix keep m) m) else None) (enumerate_from k l)) as Heq.
    { induction l as [|m l IH]; intros k Hl; [done|]. cbn [enumerate_from omap list_omap].
      pose proof (Hl 0 m eq_refl) as Hm. rewrite Nat.add_0_r in Hm. rewrite (Hall k m Hm).
      unfold learn_all at 1. rewrite (Hnone m) by (by eapply list_elem_of_lookup_2). cbn [fold_left]. rewrite with_nothing. f_equal.
      apply IH. intros i m' Hi. rewrite Nat.add_succ_comm. by apply Hl. }
    by apply Heq.
  - intros primary dependency Hp _. by apply suppliers_exact.
Qed.
End exact.

(** ** Values and ranks *)

#[export] Instance bool_weak : WeakOrd bool_cmp.
Proof. split; [by intros [] []|by intros [] [] []]. Qed.
#[export] Instance nat_weak : WeakOrd Nat.compare.
Proof.
  split; [intros x y; apply Nat.compare_antisym|]. intros x y z.
  destruct (Nat.compare_spec x y), (Nat.compare_spec y z); try done; subst; try (by apply Nat.compare_refl); apply Nat.compare_lt_iff; lia.
Qed.
#[export] Instance captures_weak : WeakOrd captures_cmp.
Proof.
  split.
  - induction x as [|[k v] x IH]; intros [|[k' v'] y]; try done. cbn. rewrite (cmp_flip bytes_cmp k k'), (cmp_flip bytes_cmp v v'), IH.
    by destruct (bytes_cmp k k'), (bytes_cmp v v').
  - induction x as [|[k v] x IH]; intros [|[k' v'] y] [|[k'' v''] z]; cbn; try done; try (by destruct (then_with _ _)).
    pose proof (cmp_comp bytes_cmp k k' k'') as H. pose proof (cmp_comp bytes_cmp v v' v'') as H'. specialize (IH y z).
    destruct (bytes_cmp k k'), (bytes_cmp k' k''); cbn in *; try done; try (by destruct (then_with _ _)); rewrite H; cbn; try done;
      destruct (bytes_cmp v v'), (bytes_cmp v' v''); cbn in *; try done; try (by destruct (captures_cmp x y)); rewrite ?H'; cbn; try done; try (by destruct (captures_cmp x y)); by destruct (captures_cmp y z).
Qed.
#[export] Instance rank_weak : WeakOrd rank_cmp.
Proof. unfold rank_cmp. apply _. Qed.
#[export] Instance entry_weak : WeakOrd entry_cmp.
Proof. unfold entry_cmp, value_cmp. apply _. Qed.

Lemma values_spec (value : nat -> ComponentValue) l : forall acc, NoDup acc ->
  let r := fold_left (fun values i => value_add (value i) values) l acc in
  NoDup r /\ forall v, v ∈ r <-> v ∈ acc \/ exists i, i ∈ l /\ value i = v.
Proof.
  induction l as [|i l IH]; intros acc Hacc; cbn [fold_left].
  { split; [done|]. intros v. split; [by left|]. intros [?|(i & Hi%not_elem_of_nil & _)]; done. }
  assert (NoDup (value_add (value i) acc) /\ forall v, v ∈ value_add (value i) acc <-> v ∈ acc \/ value i = v) as [Hn Hin].
  { unfold value_add. destruct (decide (value i ∈ acc)) as [Hi|Hi].
    - split; [done|]. intros v. split; [by left|]. by intros [?|<-].
    - split; [|intros v; rewrite elem_of_app, list_elem_of_singleton; naive_solver].
      apply NoDup_app. split; [done|]. split; [|apply NoDup_singleton]. intros x Hx ->%list_elem_of_singleton. done. }
  destruct (IH _ Hn) as [Hr Hv]. split; [done|]. intros v. rewrite Hv, Hin. split.
  - intros [[?|<-]|(j & Hj & <-)]; [by left|right; exists i; split; [left|done]|right; exists j; split; [by right|done]].
  - intros [?|(j & [->|Hj]%elem_of_cons & <-)]; [by left; left|by left; right|by right; exists j].
Qed.

Lemma rank_entry_spec v rank l : NoDup (map snd l) ->
  let l' := rank_entry v rank l in
  map snd l' = (if decide (v ∈ map snd l) then map snd l else map snd l ++ [v]) /\
  forall r w, (r, w) ∈ l' <-> (w <> v /\ (r, w) ∈ l) \/ (w = v /\
    ((r = rank /\ ~ v ∈ map snd l) \/ exists old, (old, v) ∈ l /\ r = match rank_cmp rank old with Lt => rank | _ => old end)).
Proof.
  induction l as [|[old w] l IH]; cbn [map rank_entry snd].
  - intros _. rewrite decide_False by apply not_elem_of_nil. split; [done|]. intros r x. rewrite list_elem_of_singleton. split.
    + intros [= -> ->]. right. split; [done|]. left. split; [done|apply not_elem_of_nil].
    + intros [[_ []%not_elem_of_nil]|(-> & [[-> _]|(o & []%not_elem_of_nil & _)])]. done.
  - intros [Hw Hl]%NoDup_cons. destruct (decide (v = w)) as [->|Hne].
    + rewrite decide_True by left. split; [done|]. intros r x. rewrite !elem_of_cons. split.
      * intros [[= -> ->]|Hx]; [right; split; [done|]; right; exists old; split; [by left|done]|].
        left. split; [|by right]. intros ->. apply Hw. rewrite list_elem_of_In, in_map_iff. exists (r, w). by rewrite <-list_elem_of_In.
      * intros [[Hx [[= -> ->]|?]]|(-> & [[_ Hn]|(o & Ho & ->)])]; [done|by right|by destruct Hn; left|].
        apply elem_of_cons in Ho as [[= ->]|Ho]; [by left|]. exfalso. apply Hw. rewrite list_elem_of_In, in_map_iff. exists (o, w). by rewrite <-list_elem_of_In.
    + destruct (IH Hl) as [Hm Hin]. split.
      * cbn [map snd]. rewrite Hm. destruct (decide (v ∈ map snd l)) as [Hv|Hv]; [by rewrite decide_True by by right|].
        rewrite decide_False; [done|]. by intros [?|?]%elem_of_cons.
      * intros r x. rewrite !elem_of_cons, Hin. split.
        -- intros [[= -> ->]|[[? ?]|(-> & [[-> Hv]|(o & Ho & ->)])]]; [left; split; [congruence|by left]|left; split; [done|by right]| |].
           ++ right. split; [done|]. left. split; [done|]. by intros [?|?].
           ++ right. split; [done|]. right. exists o. split; [by right|done].
        -- intros [[Hx [[= -> ->]|?]]|(-> & [[-> Hv]|(o & Ho & ->)])]; [by left|right; by left| |].
           ++ right. right. split; [done|]. left. split; [done|]. intros ?. apply Hv. by right.
           ++ apply elem_of_cons in Ho as [[= _ ->]|Ho]; [done|]. right. right. split; [done|]. right. by exists o.
Qed.

Lemma ranks_spec (value : nat -> ComponentValue) (rank : nat -> Rank) l :
  let r := fold_left (fun ranked i => rank_entry (value i) (rank i) ranked) l [] in
  NoDup (map snd r) /\ (forall v, v ∈ map snd r <-> exists i, i ∈ l /\ value i = v) /\
  forall q v, (q, v) ∈ r -> (exists i, i ∈ l /\ value i = v /\ rank i = q) /\ forall i, i ∈ l -> value i = v -> cmp_le rank_cmp q (rank i).
Proof.
  induction l as [|i l IH] using rev_ind; cbn [fold_left].
  { split; [constructor|]. split; [|by intros q v ?%not_elem_of_nil]. intros v. split; [by intros ?%not_elem_of_nil|by intros (i & ?%not_elem_of_nil & _)]. }
  rewrite fold_left_app. cbn [fold_left]. set (r := fold_left _ l []) in *. destruct IH as (Hn & Hv & Hq).
  destruct (rank_entry_spec (value i) (rank i) r Hn) as [Hm Hin]. split; [|split].
  - rewrite Hm. destruct (decide (value i ∈ map snd r)); [done|]. apply NoDup_app. split; [done|]. split; [|apply NoDup_singleton].
    by intros x Hx ->%list_elem_of_singleton.
  - intros v. assert (v ∈ map snd (rank_entry (value i) (rank i) r) <-> v ∈ map snd r \/ value i = v) as ->.
    { rewrite Hm. destruct (decide (value i ∈ map snd r)) as [Hi|Hi]; [split; [by left|by intros [?|<-]]|].
      rewrite elem_of_app, list_elem_of_singleton. naive_solver. }
    rewrite Hv. setoid_rewrite elem_of_app. setoid_rewrite list_elem_of_singleton. naive_solver.
  - intros q v Hqv. apply Hin in Hqv as [[Hne Hqv]|(-> & [[-> Hno]|(o & Ho & ->)])].
    + destruct (Hq q v Hqv) as [(j & Hj & Hjv & Hjq) Hmin]. split; [exists j; rewrite elem_of_app; auto|].
      intros k [Hk| ->%list_elem_of_singleton]%elem_of_app Hkv; [by apply Hmin|congruence].
    + split; [exists i; rewrite elem_of_app, list_elem_of_singleton; auto|].
      intros k [Hk| ->%list_elem_of_singleton]%elem_of_app Hkv; [|unfold cmp_le; by rewrite (cmp_refl rank_cmp)].
      exfalso. apply Hno, Hv. by exists k.
    + destruct (Hq o _ Ho) as [(j & Hj & Hjv & Hjq) Hmin]. destruct (rank_cmp (rank i) o) eqn:E.
      1,3: split; [exists j; rewrite elem_of_app; auto|]; intros k [Hk| ->%list_elem_of_singleton]%elem_of_app Hkv; [by apply Hmin|].
      * unfold cmp_le. rewrite (cmp_flip rank_cmp (rank i) o), E. done.
      * by apply (cmp_gt_le rank_cmp).
      * split; [exists i; rewrite elem_of_app, list_elem_of_singleton; auto|].
        intros k [Hk| ->%list_elem_of_singleton]%elem_of_app Hkv; [|unfold cmp_le; by rewrite (cmp_refl rank_cmp)].
        transitivity o; [unfold cmp_le; by rewrite E|by apply Hmin].
Qed.

Section learnt.
Context {F : F32} {F6 : F64} {Lib : Library} {HD : HttpData} (url_parse : bytes -> option ParsedUrl).
Context (actions : ScanRule -> Actions) (rule_capture_names : bytes -> list bytes).
Context (input : bytes) (resources : ResourceLimits) (found : list BlobMatch).
Context (ix : RuleMatchIndex) (keep : list bool) (primary : BlobMatch).

Abbreviation supplying := (suppliers url_parse actions input found ix keep primary).
Abbreviation value := (value_of rule_capture_names found (structured actions primary)).
Abbreviation values_of := (supplied url_parse actions rule_capture_names input found ix keep primary).
Abbreviation tried := (try_candidates url_parse actions primary).
Abbreviation best := (ranked_values url_parse actions rule_capture_names input resources found ix keep primary).
Abbreviation learn_one := (learn url_parse actions rule_capture_names input resources found ix keep primary).

Definition name_of (d : DependsOnRule) : bytes := to_uppercase (variable d).

(** What a dependency says under its name: its one secret, how many values it has,
    the values to try, and, for a rule that takes components, the components
    behind them, numbered in that order. *)
Definition outcome (d : DependsOnRule) : option bytes * option nat * option (list bytes) * option (list (bytes * (bytes * ComponentValue))) :=
  match values_of d with
  | [] => (None, None, None, None)
  | [v] => (Some (value_secret v), None, None, None)
  | vs =>
    (None, Some (length vs),
     if tried d then Some (if structured actions primary then imap (fun i _ => show_usize (Z.of_nat i)) (best d) else map value_secret (best d)) else None,
     if tried d && structured actions primary then Some (imap (fun i v => (show_usize (Z.of_nat i), (dep_rule_id d, v))) (best d)) else None)
  end.

Definition facts (a : Associated) (name : bytes) : option bytes * option nat * option (list bytes) * option (list (bytes * (bytes * ComponentValue))) :=
  (associated a !! name, ambiguous a !! name, variable_candidates a !! name, component_candidates a !! name).

(** The component a rule supplies: the single value of the last dependency on it
    that has one. *)
Definition single (d : DependsOnRule) : option ComponentValue := match values_of d with [v] => Some v | _ => None end.
Definition component_of (ds : list DependsOnRule) (rule : bytes) : option ComponentValue :=
  if structured actions primary then last (omap (fun d => if decide (dep_rule_id d = rule) then single d else None) ds) else None.

Lemma identified_imap d values : identified d values = imap (fun i v => (show_usize (Z.of_nat i), (dep_rule_id d, v))) values.
Proof.
  unfold identified, enumerate.
  assert (forall k, map (fun '(i, v) => (show_usize (Z.of_nat i), (dep_rule_id d, v))) (enumerate_from k values) =
    imap (fun i v => (show_usize (Z.of_nat (k + i)), (dep_rule_id d, v))) values) as H; [|apply (H 0)].
  induction values as [|v values IH]; intros k; [done|]. cbn [enumerate_from map imap]. rewrite Nat.add_0_r, IH. f_equal.
  apply imap_ext. intros i x _. cbn [compose]. rewrite <-Nat.add_succ_comm. done.
Qed.

Lemma identifiers_imap d values : map fst (identified d values) = imap (fun i _ => show_usize (Z.of_nat i)) values.
Proof. rewrite identified_imap. change (map fst) with (fmap (M := list) (@fst bytes (bytes * ComponentValue))). by rewrite fmap_imap. Qed.

Lemma learn_facts d a : facts a (name_of d) = (None, None, None, None) -> facts (learn_one d a) (name_of d) = outcome d.
Proof.
  unfold facts, outcome, learn. fold (name_of d). intros [= H1 H2 H3 H4].
  destruct (values_of d) as [|v [|w vs]]; cbn [associated ambiguous variable_candidates component_candidates];
    rewrite ?lookup_insert_eq, ?H1, ?H2, ?H3, ?H4; [done..|].
  rewrite identifiers_imap, identified_imap. destruct (tried d), (structured actions primary); cbn [andb]; by rewrite ?lookup_insert_eq, ?H3, ?H4.
Qed.

Lemma learn_other d a name : name <> name_of d -> facts (learn_one d a) name = facts a name.
Proof.
  intros Hne. unfold facts, learn. fold (name_of d).
  destruct (values_of d) as [|v [|w vs]]; cbn [associated ambiguous variable_candidates component_candidates]; rewrite ?lookup_insert_ne by done; [done..|].
  destruct (tried d), (structured actions primary); cbn [andb]; by rewrite ?lookup_insert_ne by done.
Qed.

Lemma learn_component d a rule : associated_components (learn_one d a) !! rule =
  match component_of [d] rule with Some v => Some v | None => associated_components a !! rule end.
Proof.
  unfold learn, component_of, single. cbn [omap list_omap].
  destruct (values_of d) as [|v [|w vs]]; cbn [associated_components]; destruct (structured actions primary); try done;
    case_decide as E; subst; cbn; rewrite ?lookup_insert_eq, ?lookup_insert_ne by done; done.
Qed.

Lemma learn_components ds : forall a rule, associated_components (fold_left (fun a d => learn_one d a) ds a) !! rule =
  match component_of ds rule with Some v => Some v | None => associated_components a !! rule end.
Proof.
  induction ds as [|d ds IH] using rev_ind; intros a rule; cbn [fold_left].
  { unfold component_of. by destruct (structured _ _). }
  rewrite fold_left_app. cbn [fold_left]. rewrite learn_component, IH. unfold component_of.
  destruct (structured actions primary); [|done]. rewrite omap_app. cbn [omap list_omap].
  destruct (if decide _ then _ else _) as [v|]; [by rewrite last_snoc|by rewrite app_nil_r].
Qed.

Lemma learn_absent ds : forall a name, (forall d, d ∈ ds -> name <> name_of d) -> facts (fold_left (fun a d => learn_one d a) ds a) name = facts a name.
Proof.
  induction ds as [|d ds IH]; intros a name H; cbn [fold_left]; [done|].
  rewrite IH by (intros e He; apply H; by right). apply learn_other, H. left.
Qed.

Lemma learn_all_facts ds : forall a d, NoDup (map name_of ds) -> d ∈ ds -> facts a (name_of d) = (None, None, None, None) ->
  facts (fold_left (fun a d => learn_one d a) ds a) (name_of d) = outcome d.
Proof.
  induction ds as [|e ds IH]; intros a d Hn Hd Ha; [by apply not_elem_of_nil in Hd|]. cbn [map fold_left] in *.
  apply NoDup_cons in Hn as [He Hn]. assert (forall d, d ∈ ds -> name_of e <> name_of d) as Hother.
  { intros d' Hd' Heq. apply He. rewrite list_elem_of_In, in_map_iff. exists d'. by rewrite <-list_elem_of_In. }
  apply elem_of_cons in Hd as [->|Hd].
  - rewrite learn_absent by done. by apply learn_facts.
  - apply IH; [done|done|]. rewrite learn_other; [done|]. by apply not_eq_sym, Hother.
Qed.

Lemma ranks_of l : (forall i, i ∈ l -> exists m, found !! i = Some m) -> forall acc,
  fold_left (fun ranked i => match found !! i with Some m => rank_entry (value i) (rank_of input found primary m) ranked | None => ranked end) l acc =
  fold_left (fun ranked i => rank_entry (value i) (from_option (rank_of input found primary) (true, true, 0) (found !! i)) ranked) l acc.
Proof.
  induction l as [|i l IH]; intros H acc; cbn [fold_left]; [done|]. destruct (H i) as [m Hm]; [left|]. rewrite Hm.
  apply IH. intros j Hj. apply H. by right.
Qed.

(** C6. What a finding learns under the name of each dependency, when the names of
    its dependencies differ: with no value nothing; with one value, its secret;
    with several, how many, and, if candidates are tried, the values in the order
    of their ranks: the secrets themselves, or, for a rule that takes components,
    the numbers 0, 1, ... under which it learns the components, each with the rule
    it is of, in that order. Such a rule also learns under the rule of a dependency
    the component that is its one value. The values are, once each, those of the
    suppliers; a value ranks as its best supplier does, ties are broken by the
    value itself, and of the ranked values at most sixteen are tried unless limits
    are lifted. *)
Theorem association_learns d :
  NoDup (map name_of (match_deps primary)) -> d ∈ match_deps primary -> (forall i, i ∈ supplying d -> exists m, found !! i = Some m) ->
  let learnt := learn_all url_parse actions rule_capture_names input resources found ix keep primary in
  facts learnt (name_of d) = outcome d /\
  (forall rule, associated_components learnt !! rule = component_of (match_deps primary) rule) /\
  (NoDup (values_of d) /\ forall v, v ∈ values_of d <-> exists i, i ∈ supplying d /\ value i = v) /\
  exists ranked, best d = (if unlimited resources then map snd ranked else take 16 (map snd ranked)) /\
    map snd ranked ≡ₚ values_of d /\ StronglySorted (cmp_le entry_cmp) ranked /\
    forall q v, (q, v) ∈ ranked ->
      (exists i m, i ∈ supplying d /\ found !! i = Some m /\ value i = v /\ rank_of input found primary m = q) /\
      forall i m, i ∈ supplying d -> found !! i = Some m -> value i = v -> cmp_le rank_cmp q (rank_of input found primary m).
Proof.
  intros Hn Hd Hfound. split; [by apply learn_all_facts|].
  split; [intros rule; unfold learn_all; rewrite learn_components; by destruct (component_of _ _)|].
  destruct (values_spec value (supplying d) [] (NoDup_nil_2)) as [Hv1 Hv2]. fold (values_of d) in Hv1, Hv2.
  assert (forall v, v ∈ values_of d <-> exists i, i ∈ supplying d /\ value i = v) as Hv.
  { intros v. etransitivity; [apply Hv2|]. split; [by intros [?%not_elem_of_nil|?]|by right]. }
  split; [by split|].
  destruct (ranks_spec value (fun i => from_option (rank_of input found primary) (true, true, 0) (found !! i)) (supplying d)) as (Hr1 & Hr2 & Hr3).
  unfold ranked_values. rewrite (ranks_of _ Hfound). set (r := fold_left _ _ _) in *. exists (sort_by entry_cmp r).
  split; [done|]. split; [|split; [apply sort_by_sorted, _|]].
  - rewrite (Permutation_map snd (sort_by_perm entry_cmp r)). apply NoDup_Permutation; [done..|]. intros v. by rewrite Hr2, Hv.
  - intros q v Hqv%sort_by_elem. destruct (Hr3 q v Hqv) as [(i & Hi & Hiv & Hq) Hmin]. split.
    + destruct (Hfound i Hi) as [m Hm]. exists i, m. rewrite Hm in Hq. done.
    + intros j m Hj Hm Hjv. specialize (Hmin j Hj Hjv). by rewrite Hm in Hmin.
Qed.
End learnt.

(** ** An example *)

Module Pair.
#[local] Instance doubles : F64 := spec_f64 (fun x => x) (fun x _ => x).
#[local] Instance library : Library := {|
  to_lowercase := str_to_ascii_lowercase; to_uppercase := to_ascii_uppercase; sha256 l := l; tokens_of l := length l; words := [];
  base64_decode _ := None; json_to_string _ := []; json_from_str _ := None; is_malformed _ := false
|}.
#[local] Instance integers : F32 := {|
  f32 := Z; f32_zero := 0%Z; f32_of_int n := n; f32_div := Z.div; f32_mul := Z.mul; f32_sub := Z.sub; f32_log2 := Z.log2; f32_le := Z.leb
|}.
#[local] Instance http : HttpData := {| ResponseMatcher := unit; MultipartConfig := unit; HttpValidationAuth := unit; ResponseExtractor := unit |}.

(** An identifier needs a secret on its line. *)
Definition text : bytes := bs "id=A1;key=S2;key=S1" ++ [10%Z] ++ bs "id=B1".
Definition on_line : DependsOnRule :=
  {| verify_candidates := true; dep_rule_id := bs "secret"; variable := bs "akid"; optional := false; within := Some (bs "+1L") |}.
Definition rule_named (name : string) (deps : list (option DependsOnRule)) : ScanRule := {|
  base := {| id := bs name; visible := true; specificity := 0; validation := Some AWS; depends_on_rule := deps;
             runtime_minimum_confidence := Medium; runtime_dependency_helper := false |};
  name := bs name; path := None; keywords := []; min_entropy := 0%Z; confidence := Medium;
  pattern_requirements := None; betterleaks_filter := None; betterleaks_secret_group := None; betterleaks_path_only := false
|}.
Definition found_at (rule : ScanRule) (from to : nat) : BlobMatch := {|
  match_rule := rule; matching_input := slice text from to; matching_input_offset_span := mkSpan from to;
  association_offset_span := mkSpan from to; match_captures := []; validation_outcome := NotAttempted;
  calculated_entropy := 0%Z; match_is_base64 := false; dependent_captures := ∅; ambiguous_dependencies := ∅; dependency_candidates := ∅
|}.
Definition pair : list BlobMatch :=
  [found_at (rule_named "identifier" [Some on_line]) 3 5; found_at (rule_named "secret" []) 10 12;
   found_at (rule_named "secret" []) 17 19; found_at (rule_named "identifier" [Some on_line]) 23 25].
Definition aws (_ : ScanRule) : Actions := {| validation_action := Some ValidateAWS; revocation := None; fallbacks := []; authoritative := true |}.
Definition no_names (_ : bytes) : list bytes := [].
Definition no_url (_ : bytes) : option ParsedUrl := None.
Definition limits : ResourceLimits := {| unlimited := false |}.
Definition results : list BlobMatch := associate no_url aws no_names (fun _ => []) (fun _ => []) text limits pair.

(** The identifier of the second line falls; the first has two secrets to try. *)
Example pair_results : map (fun m => (matching_input m, map_to_list (dependency_candidates m), map_to_list (ambiguous_dependencies m))) results =
  [(bs "A1", [(bs "AKID", [bs "S2"; bs "S1"])], [(bs "AKID", 2)]); (bs "S2", [], []); (bs "S1", [], [])].
Proof. vm_compute. reflexivity. Qed.

Lemma association_exact_witness : exists keep ix,
  results = omap (fun '(i, m) => if nth i keep false then
    Some (with_associated (fun _ => []) (fun _ => []) (learn_all no_url aws no_names text limits pair ix keep m) m) else None) (enumerate pair) /\
  forall i, nth i keep false = true <-> sustained (dependency_counts pair) (supports text pair) i.
Proof.
  assert (spans_inside text pair) as H.
  { split; [vm_compute; reflexivity|]. intros m. unfold pair. rewrite !elem_of_cons.
    intros [->|[->|[->|[->|[]%not_elem_of_nil]]]]; vm_compute; lia. }
  destruct (association_exact text pair H no_url aws no_names limits (fun _ => []) (fun _ => [])) as (keep & ix & Heq & Hkeep & _).
  exists keep, ix. split; [exact Heq|exact Hkeep].
Defined.

Definition first : BlobMatch := found_at (rule_named "identifier" [Some on_line]) 3 5.
Definition left_index : RuleMatchIndex := (kept_findings text pair).2.
Definition left_keep : list bool := (kept_findings text pair).1.

(** A rule that takes components, and one whose window holds one secret only. *)
Definition revoked (_ : ScanRule) : Actions :=
  {| validation_action := Some ValidateAWS; revocation := Some (RevokeBetterleaks Expr.Nil); fallbacks := []; authoritative := true |}.
Definition any_secret : DependsOnRule :=
  {| verify_candidates := false; dep_rule_id := bs "identifier"; variable := bs "other"; optional := false; within := None |}.
Definition taking_components : BlobMatch := found_at (rule_named "taker" [Some on_line; Some any_secret]) 3 5.
Abbreviation component secret := {| value_secret := bs secret; value_captures := [] |}.

Lemma association_learns_witness :
  facts (learn_all no_url aws no_names text limits pair left_index left_keep first) (bs "AKID") = (None, Some 2, Some [bs "S2"; bs "S1"], None) /\
  let taker := learn_all no_url revoked no_names text limits pair left_index left_keep taking_components in
  facts taker (bs "AKID") = (None, Some 2, Some [bs "0"; bs "1"],
    Some [(bs "0", (bs "secret", component "S2")); (bs "1", (bs "secret", component "S1"))]) /\
  associated_components taker !! bs "identifier" = Some (component "A1").
Proof.
  assert (forall acts primary, suppliers no_url acts text pair left_index left_keep primary on_line = [1; 2] ->
    forall i, i ∈ suppliers no_url acts text pair left_index left_keep primary on_line -> exists m, pair !! i = Some m) as Hs.
  { intros acts primary -> i [->|[->|[]%not_elem_of_nil]%elem_of_cons]%elem_of_cons; eexists; reflexivity. }
  split; [|split].
  - change (bs "AKID") with (name_of on_line).
    rewrite (proj1 (association_learns no_url aws no_names text limits pair left_index left_keep first on_line
      (NoDup_singleton _) ltac:(left) (Hs aws first ltac:(vm_compute; reflexivity)))). vm_compute. reflexivity.
  - destruct (association_learns no_url revoked no_names text limits pair left_index left_keep taking_components on_line) as (H & _).
    + apply (bool_decide_unpack _). vm_compute. exact I.
    + left.
    + apply Hs. vm_compute. reflexivity.
    + etransitivity; [exact H|]. vm_compute. reflexivity.
  - destruct (association_learns no_url revoked no_names text limits pair left_index left_keep taking_components on_line) as (_ & H & _).
    + apply (bool_decide_unpack _). vm_compute. exact I.
    + left.
    + apply Hs. vm_compute. reflexivity.
    + rewrite H. vm_compute. reflexivity.
Defined.
End Pair.
