(* ===== verification/Markup.v ===== *)
(** * Context candidates of CSS and HTML: [css.rs], [html.rs] and the dispatch of
      [mod.rs] in [kingfisher-scanner/src/context/parser/]

    What the crates make of a text is a parameter: [cssparser] gives the rules,
    their declarations and the tokens of each value, a block with the tokens inside
    it; [tl] gives the nodes in order, each with its children. The code asks for
    them through callbacks; the callbacks, the reading of a value with its resets
    of the parser, and the order of what is emitted are modelled. *)

From Stdlib Require Import ZArith Lia Bool.
From stdpp Require Import base list numbers option.
From S2P Require Import Prelude Text Lexer Spans Context.
#[local] Open Scope nat_scope.

(** ** CSS *)

(** The tokens the code tells apart; comments are not among them. Those that it
    writes back carry their text, [to_css_string]. *)
Inductive Token :=
  | QuotedString (value : bytes)
  | UnquotedUrl (value : bytes)
  | Ident (value : bytes)
  | Hash (value : bytes)
  | IDHash (value : bytes)
  | Number (css : bytes)
  | Percentage (css : bytes)
  | Dimension (css : bytes)
  | Function (css : bytes) (block : list Token)
  | ParenthesisBlock (block : list Token)
  | SquareBracketBlock (block : list Token)
  | CurlyBracketBlock (block : list Token)
  | WhiteSpace
  | Delim (c : bytes)
  | OtherToken.

(** What the parser asks the collector for in a body or a sheet. *)
Inductive BodyItem :=
  | Declaration (name : bytes) (value : list Token)
  | QualifiedRule (body : list BodyItem)
  | Rejected.

Fixpoint token_values (token : Token) : list bytes :=
  match token with
  | QuotedString value | UnquotedUrl value | Ident value | Hash value | IDHash value => [value]
  | Number css | Percentage css | Dimension css => [css]
  | Function css block => css :: flat_map token_values block
  | ParenthesisBlock block | SquareBracketBlock block | CurlyBracketBlock block => flat_map token_values block
  | WhiteSpace | Delim _ | OtherToken => []
  end.
Definition collect_token_values (token : Token) (values : list bytes) : list bytes := values ++ token_values token.

Definition is_bang (token : Token) : bool := match token with Delim c => bytes_eqb c (bs "!") | _ => false end.
Definition is_white (token : Token) : bool := match token with WhiteSpace => true | _ => false end.

(** [input.next()], which passes over white space. *)
Fixpoint next_token (input : list Token) : option (Token * list Token) :=
  match input with
  | [] => None
  | token :: input => if is_white token then next_token input else Some (token, input)
  end.
Definition is_exhausted (input : list Token) : bool := match next_token input with None => true | Some _ => false end.

(** [parse_important]: a [!] and the identifier. *)
Definition parse_important (input : list Token) : option (list Token) :=
  '(bang, input) ← next_token input;
  if is_bang bang then
    '(word, input) ← next_token input;
    match word with Ident value => if eq_ignore_ascii_case value (bs "important") then Some input else None | _ => None end
  else None.

(** The loop over a value, for at most [fuel] turns. A [!] that is not a final
    [!important] is reset, not consumed. *)
Fixpoint value_loop (fuel : nat) (input : list Token) (values : list bytes) : option (list bytes * bool) :=
  match fuel with
  | 0 => None
  | S fuel =>
    match input with
    | [] => Some (values, false)
    | token :: rest =>
      if is_bang token then
        if match parse_important input with Some input => is_exhausted input | None => false end then Some (values, true)
        else value_loop fuel input (collect_token_values token values)
      else value_loop fuel rest (collect_token_values token values)
    end
  end.

Definition declaration_values (fuel : nat) (input : list Token) : option (list bytes) :=
  '(values, important) ← value_loop fuel input [];
  Some (match values with [] => if important : bool then [bs "important"] else [] | _ => values end).

Section stream.
Context {St : Type} (sink : bytes -> St -> bool * St).

(** [stopped] and the state of the callback. *)
Definition emit (name value : bytes) (s : bool * St) : bool * St :=
  if s.1 then s else let '(more, t) := sink (name ++ SEPARATOR ++ value) s.2 in (negb more, t).

Fixpoint emit_values (name : bytes) (values : list bytes) (s : bool * St) : bool * St :=
  match values with
  | [] => s
  | value :: values => let s := emit name value s in if s.1 then s else emit_values name values s
  end.

Definition parse_value (fuel : nat) (name : bytes) (input : list Token) (s : bool * St) : option (bool * St) :=
  values ← declaration_values fuel input;
  Some (emit_values name values s).

(** [while !stopped { if items.next().is_none() { break } }], where a rule runs such
    a loop over its body. *)
Fixpoint run_item (fuel : nat) (item : BodyItem) (s : bool * St) : option (bool * St) :=
  match item with
  | Declaration name value => parse_value fuel name value s
  | QualifiedRule body =>
    (fix run (items : list BodyItem) (s : bool * St) : option (bool * St) :=
      match items with
      | [] => Some s
      | item :: items => if s.1 : bool then Some s else s ← run_item fuel item s; run items s
      end) body s
  | Rejected => Some s
  end.
Fixpoint run_items (fuel : nat) (items : list BodyItem) (s : bool * St) : option (bool * St) :=
  match items with
  | [] => Some s
  | item :: items => if s.1 : bool then Some s else s ← run_item fuel item s; run_items fuel items s
  end.

(** The callback's state after the stream; [None] is a stream that did not end in
    the given number of turns of a loop. *)
Definition css_stream (css_parse : bytes -> list BodyItem) (fuel : nat) (source : bytes) (s : St) : option St :=
  let css := from_utf8_lossy source in
  if bytes_eqb (trim css) [] then Some s
  else snd <$> run_items fuel (css_parse css) (false, s).
End stream.

(** [a { color : red ! ie }] *)
Definition hack : list Token := [WhiteSpace; Ident (bs "red"); WhiteSpace; Delim (bs "!"); Ident (bs "ie")].
Definition important : list Token := [WhiteSpace; Delim (bs "!"); WhiteSpace; Ident (bs "IMPORTANT")].
Example css_values : declaration_values 10 important = Some [bs "important"] /\ declaration_values 100 hack = None.
Proof. vm_compute. auto. Qed.

(** ** HTML *)

(** The attributes of a tag, the text [inner_text] gives, and the children; a
    handle may lead nowhere. *)
Inductive Node :=
  | Raw (text : bytes)
  | HtmlComment
  | Tag (tag_name : bytes) (attributes : list (bytes * option bytes)) (inner_text : bytes) (children : list (option Node)).

Definition is_code (name : bytes) : bool := eq_ignore_ascii_case name (bs "script") || eq_ignore_ascii_case name (bs "style").

Fixpoint visible_text (node : Node) : bytes :=
  match node with
  | Raw text => text
  | HtmlComment => []
  | Tag name _ _ children =>
    if is_code name then []
    else flat_map (fun child => match child with Some child => visible_text child | None => [] end) children
  end.
Definition collect_visible_text (children : list (option Node)) : bytes :=
  flat_map (fun child => match child with Some child => visible_text child | None => [] end) children.
Definition text_without_embedded_code (children : list (option Node)) : bytes := trim (collect_visible_text children).

Section html.
Context {St : Type} (re : Context.Captures) (sink : bytes -> St -> bool * St) (css_parse : bytes -> list BodyItem) (fuel : nat).

(** A tag: its attributes, then its code or its text. Whether the stream goes on:
    what refuses a candidate of embedded code does not end it. *)
Fixpoint attributes_stream (attributes : list (bytes * option bytes)) (s : St) : bool * St :=
  match attributes with
  | [] => (true, s)
  | (_, None) :: attributes => attributes_stream attributes s
  | (key, Some value) :: attributes =>
    let '(more, s) := sink (key ++ SEPARATOR ++ value) s in if more then attributes_stream attributes s else (false, s)
  end.

Definition content_stream (tag_name inner_text : bytes) (children : list (option Node)) (s : St) : option (bool * St) :=
  let normalized_tag_name := str_to_ascii_lowercase tag_name in
  if bytes_eqb normalized_tag_name (bs "script") then
    let script_text := trim inner_text in
    if bytes_eqb script_text [] then Some (true, s)
    else '(_, s) ← stream_context_candidates re sink script_text JavaScript s; Some (true, s)
  else if bytes_eqb normalized_tag_name (bs "style") then
    let style_text := trim inner_text in
    if bytes_eqb style_text [] then Some (true, s)
    else s ← css_stream sink css_parse fuel style_text s; Some (true, s)
  else
    let inner_text := text_without_embedded_code children in
    if bytes_eqb inner_text [] then Some (true, s) else Some (sink (tag_name ++ SEPARATOR ++ inner_text) s).

Fixpoint nodes_stream (nodes : list Node) (s : St) : option St :=
  match nodes with
  | [] => Some s
  | Tag tag_name attributes inner_text children :: nodes =>
    let '(more, s) := attributes_stream attributes s in
    if negb more then Some s
    else
      '(more, s) ← content_stream tag_name inner_text children s;
      if more : bool then nodes_stream nodes s else Some s
  | _ :: nodes => nodes_stream nodes s
  end.

Definition html_stream (tl_parse : bytes -> option (list Node)) (source : bytes) (s : St) : option St :=
  let html := from_utf8_lossy source in
  if bytes_eqb (trim html) [] then Some s
  else match tl_parse html with
  | None => Some s
  | Some nodes => nodes_stream nodes s
  end.

(** [stream_context_candidates] of [mod.rs]: no extraction returns an error. *)
Definition stream_candidates (tl_parse : bytes -> option (list Node)) (source : bytes) (language : Language) (s : St) : option St :=
  match language with
  | Css => css_stream sink css_parse fuel source s
  | Html => html_stream tl_parse source s
  | _ => snd <$> stream_context_candidates re sink source language s
  end.
End html.

(** ** Values *)

Definition final_important (input : list Token) : bool := match parse_important input with Some rest => is_exhausted rest | None => false end.

(** No [!] comes before a final [!important]. *)
Fixpoint settled (input : list Token) : bool :=
  match input with
  | [] => true
  | token :: rest => if is_bang token then final_important input else settled rest
  end.
Fixpoint front (input : list Token) : list Token :=
  match input with [] => [] | token :: rest => if is_bang token then [] else token :: front rest end.

Lemma value_loop_exact input : forall fuel values, value_loop fuel input values =
  if settled input && (length (front input) <? fuel) then Some (values ++ flat_map token_values (front input), existsb is_bang input) else None.
Proof.
  induction input as [|token input IH]; intros fuel values.
  - destruct fuel; cbn; [done|]. by rewrite app_nil_r.
  - destruct (is_bang token) eqn:Eb.
    + assert (forall fuel values, value_loop fuel (token :: input) values =
        if final_important (token :: input) && (0 <? fuel) then Some (values, true) else None) as H.
      { clear fuel values. induction fuel as [|fuel IHf]; intros values; [by rewrite andb_false_r|].
        cbn [value_loop]. rewrite Eb. fold (final_important (token :: input)).
        destruct (final_important (token :: input)) eqn:E; [done|]. rewrite IHf. done. }
      rewrite H. cbn [settled front existsb flat_map length]. rewrite Eb. cbn. by rewrite app_nil_r.
    + destruct fuel as [|fuel]; [by rewrite andb_false_r|]. cbn [value_loop settled front existsb]. rewrite Eb, IH. cbn [orb length flat_map].
      change (S (length (front input)) <? S fuel) with (length (front input) <? fuel).
      unfold collect_token_values. by rewrite <-app_assoc.
Qed.

(** C23. Reading the value of a declaration ends exactly when no [!] comes before a
    final [!important], after as many turns as there are tokens before it; then the
    values are those of these tokens. On any other value, such as [red !ie], the
    parser is reset to the [!] on every turn and the loop never ends. *)
Theorem css_value_ends (fuel : nat) (input : list Token) : value_loop fuel input [] =
  if settled input && (length (front input) <? fuel) then Some (flat_map token_values (front input), existsb is_bang input) else None.
Proof. apply value_loop_exact. Qed.

(** ** The sequence of candidates *)

Definition values_of (input : list Token) : list bytes :=
  match flat_map token_values (front input) with [] => if existsb is_bang input then [bs "important"] else [] | values => values end.

(** A value that is read within so many turns. *)
Definition value_ok (fuel : nat) (value : list Token) : bool := settled value && (length (front value) <? fuel).

(** The values of the declarations of an item, and their candidates. *)
Fixpoint item_values (item : BodyItem) : list (list Token) :=
  match item with
  | Declaration _ value => [value]
  | QualifiedRule body => flat_map item_values body
  | Rejected => []
  end.
Fixpoint item_candidates (item : BodyItem) : list bytes :=
  match item with
  | Declaration name value => map (fun v => name ++ SEPARATOR ++ v) (values_of value)
  | QualifiedRule body => flat_map item_candidates body
  | Rejected => []
  end.

(** *** The candidates of a page *)

(** A callback that takes everything and notes it. *)
Definition collect (c : bytes) (s : list bytes) : bool * list bytes := (true, s ++ [c]).

Section page.
Context (re : Context.Captures) (css_parse : bytes -> list BodyItem) (tl_parse : bytes -> option (list Node)).

(** The rules of a sheet; a blank one is not parsed. *)
Definition sheet_of (source : bytes) : list BodyItem :=
  if bytes_eqb (trim (from_utf8_lossy source)) [] then [] else css_parse (from_utf8_lossy source).

(** What the extraction of a language read by lines notes. *)
Definition line_candidates (source : bytes) (language : Language) : list bytes :=
  match stream_context_candidates re collect source language [] with Some (_, cs) => cs | None => [] end.

Definition attribute_candidates (attributes : list (bytes * option bytes)) : list bytes :=
  flat_map (fun '(key, value) => match value with Some value => [key ++ SEPARATOR ++ value] | None => [] end) attributes.

(** A script's code, a style sheet, or the text of a tag. *)
Definition content_candidates (tag_name inner_text : bytes) (children : list (option Node)) : list bytes :=
  let name := str_to_ascii_lowercase tag_name in
  if bytes_eqb name (bs "script") then
    if bytes_eqb (trim inner_text) [] then [] else line_candidates (trim inner_text) JavaScript
  else if bytes_eqb name (bs "style") then flat_map item_candidates (sheet_of (trim inner_text))
  else
    let text := text_without_embedded_code children in
    if bytes_eqb text [] then [] else [tag_name ++ SEPARATOR ++ text].
Definition content_values (tag_name inner_text : bytes) : list (list Token) :=
  let name := str_to_ascii_lowercase tag_name in
  if negb (bytes_eqb name (bs "script")) && bytes_eqb name (bs "style") then flat_map item_values (sheet_of (trim inner_text))
  else [].

Definition node_candidates (node : Node) : list bytes :=
  match node with
  | Tag tag_name attributes inner_text children =>
    attribute_candidates attributes ++ content_candidates tag_name inner_text children
  | _ => []
  end.
Definition node_values (node : Node) : list (list Token) :=
  match node with Tag tag_name _ inner_text _ => content_values tag_name inner_text | _ => [] end.
Definition nodes_of (source : bytes) : list Node :=
  if bytes_eqb (trim (from_utf8_lossy source)) [] then [] else default [] (tl_parse (from_utf8_lossy source)).

(** The candidates of a text, in order, and the declared values that are read for
    them. *)
Definition page_candidates (source : bytes) (language : Language) : list bytes :=
  match language with
  | Css => flat_map item_candidates (sheet_of source)
  | Html => flat_map node_candidates (nodes_of source)
  | _ => line_candidates source language
  end.
Definition page_values (source : bytes) (language : Language) : list (list Token) :=
  match language with
  | Css => flat_map item_values (sheet_of source)
  | Html => flat_map node_values (nodes_of source)
  | _ => []
  end.
Definition page_ok (fuel : nat) (source : bytes) (language : Language) : bool :=
  forallb (value_ok fuel) (page_values source language).
End page.

Lemma body_item_rect (P : BodyItem -> Prop) (HD : forall name value, P (Declaration name value))
  (HQ : forall body, Forall P body -> P (QualifiedRule body)) (HR : P Rejected) : forall item, P item.
Proof.
  fix IH 1. intros [name value|body|]; [apply HD| |apply HR]. apply HQ.
  induction body as [|item body IHb]; constructor; [apply IH|exact IHb].
Qed.

Section feeds.
Context {St : Type} (sink : bytes -> St -> bool * St).

(** The collector's state after feeding a list. *)
Definition fed (cs : list bytes) (s : St) : bool * St :=
  let '(flow, s) := feed sink cs s in (match flow with Break => true | Continue => false end, s).

Lemma fed_app cs1 cs2 s : fed (cs1 ++ cs2) s = let '(stopped, s) := fed cs1 s in if stopped : bool then (true, s) else fed cs2 s.
Proof. unfold fed. rewrite feed_app. by destruct (feed sink cs1 s) as [[] s']. Qed.

Lemma emit_values_fed name values : forall s, emit_values sink name values (false, s) = fed (map (fun v => name ++ SEPARATOR ++ v) values) s.
Proof.
  induction values as [|v values IH]; intros s; [done|]. unfold fed. cbn [emit_values map feed emit fst snd].
  destruct (sink _ s) as [[] t]; cbn [negb fst]; [apply IH|done].
Qed.

Lemma run_item_rule fuel body : forall s, run_item sink fuel (QualifiedRule body) s = run_items sink fuel body s.
Proof.
  induction body as [|item body IH]; intros s; [done|]. cbn [run_items]. rewrite <-(option_bind_ext_fun (run_item sink fuel (QualifiedRule body)) _ _ IH).
  done.
Qed.

(** A callback that takes everything. *)
Definition taking : Prop := forall c s, (sink c s).1 = true.

Lemma taking_fed cs : taking -> forall s, (fed cs s).1 = false.
Proof.
  intros Ht. induction cs as [|c cs IH]; intros s; [done|]. unfold fed in *. cbn [feed].
  pose proof (Ht c s) as Hc. destruct (sink c s) as [more t]. cbn [fst] in Hc. subst more. apply IH.
Qed.

(** The outcome of a part: it feeds its candidates when its values are read in
    time; otherwise nothing is said, unless the callback takes everything. *)
Definition feeds_if (ok : bool) (m : option (bool * St)) (cs : list bytes) (s : St) : Prop :=
  ok = true \/ taking -> m = if ok then Some (fed cs s) else None.

(** A loop over items that each feed their candidates. *)
Lemma items_fed fuel items :
  Forall (fun item => forall s, feeds_if (forallb (value_ok fuel) (item_values item)) (run_item sink fuel item (false, s)) (item_candidates item) s) items ->
  forall s, feeds_if (forallb (value_ok fuel) (flat_map item_values items)) (run_items sink fuel items (false, s)) (flat_map item_candidates items) s.
Proof.
  unfold feeds_if. induction 1 as [|item items Hi _ IH]; intros s Hor; [done|]. cbn [run_items fst flat_map] in *.
  rewrite forallb_app in *. destruct (forallb _ (item_values item)) eqn:E; cbn [andb] in *.
  - rewrite Hi, fed_app by by left. cbn [mbind option_bind].
    destruct (fed (item_candidates item) s) as [[] t] eqn:Ef; [|by apply IH].
    destruct Hor as [->|Ht]; [by destruct items|]. pose proof (taking_fed (item_candidates item) Ht s) as H. by rewrite Ef in H.
  - destruct Hor as [|Ht]; [done|]. by rewrite Hi by by right.
Qed.

Lemma run_item_fed fuel item : forall s,
  feeds_if (forallb (value_ok fuel) (item_values item)) (run_item sink fuel item (false, s)) (item_candidates item) s.
Proof.
  induction item as [name value|body IH|] using body_item_rect; cbn [item_values item_candidates]; intros s; [| |by intros _].
  - intros _. cbn [run_item forallb]. unfold parse_value, declaration_values. rewrite value_loop_exact, andb_true_r. fold (value_ok fuel value).
    destruct (value_ok fuel value); [|done]. cbn. rewrite emit_values_fed. unfold values_of.
    by destruct (flat_map token_values (front value)).
  - rewrite run_item_rule. by apply items_fed.
Qed.

Lemma css_stream_fed css_parse fuel source s :
  let ok := forallb (value_ok fuel) (flat_map item_values (sheet_of css_parse source)) in
  ok = true \/ taking ->
  css_stream sink css_parse fuel source s = if ok then Some (fed (flat_map item_candidates (sheet_of css_parse source)) s).2 else None.
Proof.
  unfold css_stream, sheet_of. destruct (bytes_eqb _ []); [done|]. cbv zeta. intros Hor.
  rewrite (items_fed fuel (css_parse (from_utf8_lossy source))); [by destruct (forallb _ _)| |done].
  apply Forall_forall. intros item _. apply run_item_fed.
Qed.

(** A callback that, once it refused a candidate, refuses every one and stays as
    it is. *)
Definition sticky : Prop := forall t s s', sink t s = (false, s') -> forall t', sink t' s' = (false, s').

Lemma fed_refused cs : forall s, (forall t, sink t s = (false, s)) -> (fed cs s).2 = s.
Proof. destruct cs as [|c cs]; intros s H; [done|]. unfold fed. cbn [feed]. by rewrite H. Qed.

Lemma fed_sticky cs : sticky -> forall s s', fed cs s = (true, s') -> forall t, sink t s' = (false, s').
Proof.
  intros Hs. induction cs as [|c cs IH]; intros s s'; unfold fed; cbn [feed]; [done|].
  destruct (sink c s) as [[] s1] eqn:E; [apply IH|]. intros [= <-] t. by apply (Hs c s).
Qed.

Lemma attributes_fed attributes : forall s, attributes_stream sink attributes s =
  let '(stopped, s) := fed (flat_map (fun '(key, value) => match value with Some value => [key ++ SEPARATOR ++ value] | None => [] end) attributes) s in (negb stopped, s).
Proof.
  induction attributes as [|[key [value|]] attributes IH]; intros s; cbn [attributes_stream flat_map app]; [done| |apply IH].
  unfold fed. cbn [feed]. destruct (sink _ s) as [[] t]; [apply IH|done].
Qed.
End feeds.

(** The candidates of a list of nodes, whatever the callback. *)
Definition feeds_always (m : forall St, (bytes -> St -> bool * St) -> St -> option St) (cs : list bytes) : Prop :=
  forall St (sink : bytes -> St -> bool * St) s, sticky sink -> m St sink s = Some (fed sink cs s).2.

(** A part that may ignore that the callback refused. *)
Lemma fed_then {St} (sink : bytes -> St -> bool * St) cs1 cs2 s : sticky sink -> (fed sink (cs1 ++ cs2) s).2 = (fed sink cs2 (fed sink cs1 s).2).2.
Proof.
  intros Hs. rewrite fed_app. destruct (fed sink cs1 s) as [[] t] eqn:E; cbn [snd]; [|done].
  symmetry. apply fed_refused. by eapply fed_sticky.
Qed.

Lemma taking_sticky {St} (sink : bytes -> St -> bool * St) : taking sink -> sticky sink.
Proof. intros Ht c s s' H. pose proof (Ht c s) as Hc. by rewrite H in Hc. Qed.

(** What a collecting callback notes is what every callback is fed. *)
Lemma collect_fed cs : forall s, feed collect cs s = (Continue, s ++ cs).
Proof.
  induction cs as [|c cs IH]; intros s; cbn [feed]; [by rewrite app_nil_r|]. cbn [collect]. rewrite IH. by rewrite <-app_assoc.
Qed.

Lemma line_candidates_fed re source language : captures_ok re -> forall St (sink : bytes -> St -> bool * St) s,
  stream_context_candidates re sink source language s = Some (feed sink (line_candidates re source language) s).
Proof.
  intros Hre. destruct (stream_emits re source language ltac:(by right; right)) as (cs & _ & H). intros St sink s.
  unfold line_candidates. by rewrite !H, collect_fed.
Qed.

Section sequence.
Context (re : Context.Captures) (css_parse : bytes -> list BodyItem) (fuel : nat) (tl_parse : bytes -> option (list Node)).
Context (Hre : captures_ok re).

(** A step that says whether to go on: it does unless the callback refused. *)
Lemma content_fed {St} (sink : bytes -> St -> bool * St) tag_name inner_text children s : sticky sink ->
  let ok := forallb (value_ok fuel) (content_values css_parse tag_name inner_text) in
  let cs := content_candidates re css_parse tag_name inner_text children in
  ok = true \/ taking sink ->
  exists more, content_stream re sink css_parse fuel tag_name inner_text children s = (if ok then Some (more, (fed sink cs s).2) else None) /\
    (more = false -> forall t, sink t (fed sink cs s).2 = (false, (fed sink cs s).2)).
Proof using Hre.
  intros Hs. unfold content_stream, content_values, content_candidates. cbv zeta.
  destruct (bytes_eqb _ (bs "script")); cbn [negb andb]; [|destruct (bytes_eqb _ (bs "style"))]; intros Hor.
  - exists true. destruct (bytes_eqb (trim inner_text) []); [done|]. split; [|done].
    rewrite line_candidates_fed by done. cbn [mbind option_bind forallb]. unfold fed. by destruct (feed sink _ s).
  - exists true. destruct (bytes_eqb (trim inner_text) []) eqn:E.
    + apply bool_decide_eq_true in E. rewrite E. done.
    + split; [|done]. rewrite css_stream_fed by done. by destruct (forallb _ _).
  - cbn [forallb]. destruct (bytes_eqb _ []); [by exists true|]. unfold fed. cbn [feed].
    destruct (sink _ s) as [more t] eqn:E. exists more. destruct more; cbn [snd]; (split; [done|]); [done|]. intros _ t'. by apply (Hs _ _ _ E).
Qed.

Lemma nodes_fed {St} (sink : bytes -> St -> bool * St) : sticky sink -> forall nodes s,
  let ok := forallb (value_ok fuel) (flat_map (node_values css_parse) nodes) in
  ok = true \/ taking sink ->
  nodes_stream re sink css_parse fuel nodes s = if ok then Some (fed sink (flat_map (node_candidates re css_parse) nodes) s).2 else None.
Proof using Hre.
  intros Hs. cbv zeta. induction nodes as [|node nodes IH]; intros s Hor; [done|]. cbn [flat_map] in *.
  destruct node as [text| |tag_name attributes inner_text children]; cbn [nodes_stream node_candidates node_values app] in *;
    [by apply IH|by apply IH|].
  rewrite attributes_fed. fold (attribute_candidates attributes). rewrite forallb_app in *. rewrite <-app_assoc, fed_app.
  destruct (fed sink (attribute_candidates attributes) s) as [[] t] eqn:Ea; cbn [negb snd].
  - destruct Hor as [->|Ht]; [done|]. pose proof (taking_fed sink (attribute_candidates attributes) Ht s) as H. by rewrite Ea in H.
  - destruct (content_fed sink tag_name inner_text children t Hs) as (more & -> & Hmore).
    { destruct Hor as [[H _]%andb_prop|]; auto. }
    destruct (forallb _ (content_values _ _ _)); cbn [mbind option_bind andb] in *; [|done]. rewrite fed_then by done.
    destruct more; [by apply IH|]. set (rest := flat_map (node_candidates re css_parse) nodes). destruct Hor as [->|Ht]; [by rewrite (fed_refused sink rest) by by apply Hmore|].
    specialize (Hmore eq_refl []). pose proof (Ht [] (fed sink (content_candidates re css_parse tag_name inner_text children) t).2) as H.
    by rewrite Hmore in H.
Qed.

Lemma markup_feeds {St} (sink : bytes -> St -> bool * St) source language s : sticky sink ->
  page_ok css_parse tl_parse fuel source language = true \/ taking sink ->
  stream_candidates re sink css_parse fuel tl_parse source language s =
    if page_ok css_parse tl_parse fuel source language then Some (fed sink (page_candidates re css_parse tl_parse source language) s).2 else None.
Proof using Hre.
  intros Hs Hor. unfold page_ok in *.
  assert (language = Css \/ language = Html \/ language <> Css /\ language <> Html) as [->|[->|[Hc Hh]]].
  { destruct language; auto; right; right; done. }
  - cbn [stream_candidates page_values page_candidates] in *. by apply css_stream_fed.
  - cbn [stream_candidates page_values page_candidates] in *. unfold html_stream, nodes_of in *.
    destruct (bytes_eqb (trim (from_utf8_lossy source)) []); [done|].
    destruct (tl_parse (from_utf8_lossy source)) as [nodes|]; [|done]. by apply nodes_fed.
  - destruct language; try done; cbn [stream_candidates page_values page_candidates forallb];
      (rewrite line_candidates_fed by done; unfold fed; by destruct (feed sink _ s)).
Qed.

(** C24. What the context extraction of a source in any language passes to the
    callback. The candidates are those of the text: of a sheet, for each
    declaration the tokens before a [!], [important] when it is all there is; of
    a page, node by node the attributes with a value and then the code of a
    script, the sheet of a style or the text of a tag; of the other languages
    what the extraction by lines notes. When every declared value that is read
    for them ends in time ([page_ok], decided from the sheets of this text only),
    a callback that refuses for good once it refused has seen exactly the
    candidates up to there - also across scripts and sheets inside a page, whose
    refusal does not end the page. A callback that takes everything has seen all
    of them if every value ends in time and otherwise the stream does not end. *)
Theorem markup_candidates source language :
  (page_ok css_parse tl_parse fuel source language = true ->
   feeds_always (fun St sink => stream_candidates re sink css_parse fuel tl_parse source language)
     (page_candidates re css_parse tl_parse source language)) /\
  forall St (sink : bytes -> St -> bool * St) s, taking sink ->
    stream_candidates re sink css_parse fuel tl_parse source language s =
      if page_ok css_parse tl_parse fuel source language
      then Some (fed sink (page_candidates re css_parse tl_parse source language) s).2 else None.
Proof using Hre.
  split.
  - intros Hok St sink s Hs. rewrite markup_feeds by auto. by rewrite Hok.
  - intros St sink s Ht. apply markup_feeds; [by apply taking_sticky|by right].
Qed.
End sequence.

(** A page with an attribute, a sheet and a text. *)
Module Page.
Definition sheet (text : bytes) : list BodyItem :=
  [QualifiedRule [Declaration (bs "content") [WhiteSpace; QuotedString text]; Rejected;
                  QualifiedRule [Declaration (bs "margin") [Number (bs "0"); Delim (bs "!"); Ident (bs "important")]]]].
Definition nodes : list Node :=
  [Tag (bs "DIV") [(bs "data-key", Some (bs "k1")); (bs "hidden", None)] []
     [Some (Raw (bs " text ")); None; Some (Tag (bs "style") [] (bs "x") [])];
   Raw (bs " text "); Tag (bs "style") [] (bs "x") []; HtmlComment].

(** A callback that stops at the third candidate. *)
Definition first_three (c : bytes) (s : list bytes) : bool * list bytes :=
  if length s <? 3 then (true, s ++ [c]) else (false, s).

Lemma markup_candidates_witness :
  page_candidates split_captures sheet (fun _ => Some nodes) (bs "page") Html =
    [bs "data-key = k1"; bs "DIV = text"; bs "content = x"; bs "margin = 0"] /\
  stream_candidates split_captures first_three sheet 10 (fun _ => Some nodes) (bs "page") Html [] =
    Some [bs "data-key = k1"; bs "DIV = text"; bs "content = x"] /\
  forall fuel, stream_candidates split_captures collect (fun _ => [Declaration (bs "color") hack]) fuel (fun _ => None) (bs "a") Css [] = None.
Proof.
  split; [reflexivity|]. split.
  - refine (proj1 (markup_candidates split_captures sheet 10 (fun _ => Some nodes) split_captures_ok (bs "page") Html) eq_refl
      (list bytes) first_three [] _). intros t s s'. unfold first_three. destruct (length s <? 3) eqn:E; [done|]. intros [= <-]. by rewrite E.
  - intros fuel. rewrite (proj2 (markup_candidates split_captures _ fuel (fun _ => None) split_captures_ok (bs "a") Css) _ collect []
      ltac:(done)). reflexivity.
Defined.
End Page.
