(* ===== verification/RawScan.v ===== *)
(** * Scanning the bytes of a blob: [scan_and_process_raw_matches] and
      [process_raw_matches] of [src/matcher/mod.rs], and the decoding loop of
      [scan_blob]

    A blob is cut in overlapping segments, taken from the last to the first; the
    multi-pattern scanner reports ends of candidates in a segment, taken from the
    last to the first too, and each end is confirmed by searching windows before it
    that grow until one confirms. Decoded Base64 texts are scanned for the rules
    that occur in them.

    The windows are searched here; [Confirmation] shows that answering them from an
    index of the rule's matches gives the same captures. *)

From Stdlib Require Import ZArith Lia Bool.
From stdpp Require Import base list numbers option gmap.
From S2P Require Import InlineIgnore.
From S2P Require Import Prelude Text Control Rule Location Expr FilterValue FilterEngine Filter Spans Requirements MatchFilter.
#[local] Open Scope nat_scope.

(** ** Segments *)

Definition MAX_CHUNK_SIZE : nat := Z.to_nat (8 * 1024 * 1024).
Definition CHUNK_OVERLAP : nat := Z.to_nat (64 * 1024).
Definition RAW_MATCH_LOOKBACK : nat := Z.to_nat (4 * 1024).

(** [while offset < len], for at most [fuel] segments of [chunk] bytes. *)
Fixpoint segments (chunk overlap fuel offset len : nat) : list (nat * nat) :=
  match fuel with
  | 0 => []
  | S fuel =>
    if offset <? len then
      let stop := Nat.min (offset + chunk) len in
      (offset, stop) :: (if stop =? len then [] else segments chunk overlap fuel (stop - overlap) len)
    else []
  end.
Definition scan_ranges (len : nat) : list (nat * nat) := segments MAX_CHUNK_SIZE CHUNK_OVERLAP (S len) 0 len.

(** ** Rules and what is known of their expressions *)

(** The compiled expression of a rule: its captures in a text, the first match
    from a position on, and the certified length of a match. *)
Record RuleRegex := {
  captures_iter : bytes -> list Spans.Captures;
  find_at : bytes -> nat -> option (nat * nat);
  match_maximum_len : option Z
}.

Section raw.
Context {F : F32} {F6 : F64} {Lib : Library} {Bld : Build} {RL : RegexLib} {Hsh : Hasher} (engine : RegexEngine).
Context (path_regex_new : bytes -> option (bytes -> bool)) (keyword_regex_new : list bytes -> option (bytes -> bool)).
Context (render : bytes -> gmap bytes bytes -> option bytes) (parsers : UriParsers) (safe_list : SafeList).
Context (fx : list Hashed -> Z) (place : Texts -> Memory * BetterleaksFilterContext).

Record RulesDatabase := {
  rules : list ScanRule;
  anchored_regexes : list RuleRegex;
  self_identifying_flags : list bool;
  vectorscan_prefilter_flags : list bool;
  betterleaks_rule_flags : list bool
}.
Definition uses_vectorscan_prefilter (db : RulesDatabase) (i : nat) : bool := nth i (vectorscan_prefilter_flags db) false.
Definition is_betterleaks_rule (db : RulesDatabase) (i : nat) : bool := nth i (betterleaks_rule_flags db) false.
Definition is_rule_self_identifying (db : RulesDatabase) (i : nat) : bool := nth i (self_identifying_flags db) false.
Definition has_non_betterleaks_rules (db : RulesDatabase) : bool := existsb negb (betterleaks_rule_flags db).
Definition num_rules (db : RulesDatabase) : nat := length (rules db).

(** What a scan of a blob knows from the start. *)
Record Source := {
  source_blob : bytes;
  source_filename : bytes;
  source_attrs : list (bytes * bytes);
  betterleaks_path_prefiltered : bool;
  respects_ignore_if_contains : bool;
  ignore_config : InlineIgnoreConfig
}.

(** The scanner: the rule and the end of every occurrence, in the order of the
    callback, or an error of the library. *)
Context (vectorscan : bytes -> res (list (nat * nat))).
Context (db : RulesDatabase) (source : Source).

(** Findings are shared by all scans of a blob; the ends seen, the rules that are
    confirmed once, by the raw scan. *)
Record RawState := {
  found : MatchState;
  match_rule_indices : list nat;
  seen_raw_match_ends : gset (nat * nat);
  seen_prefilter_rules : gset nat
}.

(** [Panic] of [res] for [None], the result of a panic of [filter_match]. *)
Definition or_panic {A} (o : option A) : res A := match o with Some a => Ok a | None => Panic end.

Definition raw_call (rule : ScanRule) (rule_id from to : nat) : Call := {|
  MatchFilter.rule := rule; MatchFilter.rule_id := rule_id; path_cell := None; keyword_cell := None;
  blob := source_blob source; MatchFilter.start := from; MatchFilter.stop := to; ts_match := None; is_base64 := false;
  filename := source_filename source; source_attributes := Some (source_attrs source);
  respect_ignore_if_contains := respects_ignore_if_contains source; inline_ignore_config := ignore_config source;
  bounded_confirmation := negb (uses_vectorscan_prefilter db rule_id)
|}.

Abbreviation filter_matched := (filter_match engine path_regex_new keyword_regex_new render parsers safe_list fx place).

(** [loop]: windows that end at [to], each twice as long, until one confirms or
    cannot. *)
Fixpoint confirm_windows (fuel : nat) (rule : ScanRule) (regex : RuleRegex) (rule_id from to : nat) (endpoint_match : option bool)
    (s : MatchState) : res MatchState :=
  let haystack := slice (source_blob source) from to in
  '(confirmed, s) ← or_panic (filter_matched (raw_call rule rule_id from to) (captures_iter regex haystack) s);
  let '(endpoint_match, wider) :=
    confirmation_needs_wider_window (find_at regex haystack) (length haystack) (match_maximum_len regex) confirmed from endpoint_match in
  match fuel with
  | S fuel => if wider : bool then confirm_windows fuel rule regex rule_id (to - (to - from) * 2) to endpoint_match s else Ok s
  | 0 => Ok s
  end.

(** The findings of a candidate are noted with its rule. *)
Definition confirm_candidate (rule : ScanRule) (regex : RuleRegex) (rule_id from to : nat) (s : RawState) : res RawState :=
  if negb (fst (matches_path path_regex_new rule None (source_filename source))) then Ok s
  else
    let before_len := length (matches (found s)) in
    m ← confirm_windows from rule regex rule_id from to None (found s);
    Ok {| found := m; match_rule_indices := match_rule_indices s ++ replicate (length (matches m) - before_len) rule_id;
          seen_raw_match_ends := seen_raw_match_ends s; seen_prefilter_rules := seen_prefilter_rules s |}.

Definition spans_of (s : MatchState) (rule_id : nat) : MatchSpans :=
  default [] (full_matches s ≫= fun spans => spans !! rule_id).

Definition process_raw_match (raw : nat * nat) (s : RawState) : res RawState :=
  let '(rule_id, end_idx) := raw in
  if betterleaks_path_prefiltered source && is_betterleaks_rule db rule_id then Ok s
  else
    rule ← or_panic (rules db !! rule_id);
    regex ← or_panic (anchored_regexes db !! rule_id);
    if uses_vectorscan_prefilter db rule_id then
      if bool_decide (rule_id ∈ seen_prefilter_rules s) then Ok s
      else confirm_candidate rule regex rule_id 0 (length (source_blob source))
        {| found := found s; match_rule_indices := match_rule_indices s; seen_raw_match_ends := seen_raw_match_ends s;
           seen_prefilter_rules := {[ rule_id ]} ∪ seen_prefilter_rules s |}
    else if bool_decide ((rule_id, end_idx) ∈ seen_raw_match_ends s) then Ok s
    else
      let s := {| found := found s; match_rule_indices := match_rule_indices s;
                  seen_raw_match_ends := {[ (rule_id, end_idx) ]} ∪ seen_raw_match_ends s; seen_prefilter_rules := seen_prefilter_rules s |} in
      if contains_end (spans_of (found s) rule_id) end_idx then Ok s
      else confirm_candidate rule regex rule_id (end_idx - RAW_MATCH_LOOKBACK) end_idx s.

Fixpoint process_raw_matches (raws : list (nat * nat)) (s : RawState) : res RawState :=
  match raws with [] => Ok s | raw :: raws => s ← process_raw_match raw s; process_raw_matches raws s end.

(** The occurrences in a segment of the rules there are, at their ends in the blob. *)
Definition raw_matches (range : nat * nat) : res (list (nat * nat)) :=
  hits ← vectorscan (slice (source_blob source) range.1 range.2);
  Ok (map (fun '(rule_id, to) => (rule_id, to + range.1)) (List.filter (fun '(rule_id, _) => rule_id <? num_rules db) hits)).

Fixpoint scan_segments (ranges : list (nat * nat)) (s : RawState) : res RawState :=
  match ranges with
  | [] => Ok s
  | range :: ranges =>
    raws ← raw_matches range;
    s ← process_raw_matches (rev raws) s;
    scan_segments ranges s
  end.

(** What the scans of a blob share. *)
Record Findings := {
  all_matches : list BlobMatch;
  rule_indices : list nat;
  ignore_index : option InlineIgnoreIndex;
  reported_spans : gmap nat MatchSpans;
  reported_keys : gset Z
}.

Definition scan_and_process_raw_matches (s : Findings) : res Findings :=
  r ← scan_segments (rev (scan_ranges (length (source_blob source))))
    {| found := {| matches := all_matches s; full_matches := Some ∅; previous_matches := reported_spans s; seen_matches := reported_keys s;
                   filter_line_cache := ∅; inline_ignore_index := ignore_index s |};
       match_rule_indices := rule_indices s; seen_raw_match_ends := ∅; seen_prefilter_rules := ∅ |};
  Ok {| all_matches := matches (found r); rule_indices := match_rule_indices r; ignore_index := inline_ignore_index (found r);
        reported_spans := previous_matches (found r); reported_keys := seen_matches (found r) |}.

(** ** Decoded texts *)

Definition MAX_B64_DEPTH : Z := 2.

Definition decoded_call (rule : ScanRule) (rule_id : nat) (item : DecodedData) : Call := {|
  MatchFilter.rule := rule; MatchFilter.rule_id := rule_id; path_cell := None; keyword_cell := None;
  blob := source_blob source; MatchFilter.start := pos_start item; MatchFilter.stop := pos_end item;
  ts_match := Some (decoded item); is_base64 := true;
  filename := source_filename source; source_attributes := Some (source_attrs source);
  respect_ignore_if_contains := respects_ignore_if_contains source; inline_ignore_config := ignore_config source;
  bounded_confirmation := false
|}.

(** The rules that occur, in the order of their first occurrence. *)
Definition candidate_rules (hits : list (nat * nat)) : list nat :=
  fold_left (fun ids '(rule_id, _) =>
    if (rule_id <? num_rules db) && negb (bool_decide (rule_id ∈ ids)) then ids ++ [rule_id] else ids) hits [].

Fixpoint scan_rules (ids : list nat) (item : DecodedData) (m : MatchState) (indices : list nat) : res (MatchState * list nat) :=
  match ids with
  | [] => Ok (m, indices)
  | rule_id :: ids =>
    if betterleaks_path_prefiltered source && is_betterleaks_rule db rule_id then scan_rules ids item m indices
    else
      rule ← or_panic (rules db !! rule_id);
      regex ← or_panic (anchored_regexes db !! rule_id);
      '(_, m') ← or_panic (filter_matched (decoded_call rule rule_id item) (captures_iter regex (decoded item)) m);
      scan_rules ids item m' (indices ++ replicate (length (matches m') - length (matches m)) rule_id)
  end.

Definition scan_decoded (item : DecodedData) (s : Findings) : res Findings :=
  hits ← vectorscan (decoded item);
  '(m, indices) ← scan_rules (candidate_rules hits) item
    {| matches := all_matches s; full_matches := None; previous_matches := ∅; seen_matches := ∅; filter_line_cache := ∅;
       inline_ignore_index := ignore_index s |} (rule_indices s);
  Ok {| all_matches := matches m; rule_indices := indices; ignore_index := inline_ignore_index m;
        reported_spans := reported_spans s; reported_keys := reported_keys s |}.

Section decoding.
(** [get_b64_strings] *)
Context (get_b64_strings : bytes -> list DecodedData) (resources : ResourceLimits).

Definition nested_items (item : DecodedData) (depth : nat) : list (DecodedData * nat) :=
  if reached resources (Z.of_nat (depth + 1)) MAX_B64_DEPTH then []
  else map (fun nested => ({| decoded := decoded nested; pos_start := pos_start item; pos_end := pos_end item |}, depth + 1))
         (get_b64_strings (decoded item)).

(** [while let Some((item, depth)) = b64_stack.pop()]: the top of the stack first;
    [None] when [fuel] buffers are not all. *)
Fixpoint b64_loop (fuel : nat) (stack : list (DecodedData * nat)) (s : Findings) : option (res Findings) :=
  match stack with
  | [] => Some (Ok s)
  | (item, depth) :: stack =>
    match fuel with
    | 0 => None
    | S fuel =>
      match scan_decoded item s with
      | Ok s => b64_loop fuel (rev (nested_items item depth) ++ stack) s
      | Err e => Some (Err e)
      | Panic => Some Panic
      end
    end
  end.

Definition scan_base64 (fuel : nat) (items : list DecodedData) (s : Findings) : option (res Findings) :=
  b64_loop fuel (rev (map (fun d => (d, 0)) items)) s.
End decoding.
End raw.
