(* ===== verification/RawScanExact.v ===== *)
(** * What the raw scan guarantees

    The segments leave no short candidate out; every finding is noted with its
    rule; the widening of windows and the decoding of nested texts end. *)

From Stdlib Require Import ZArith Lia Bool Sorted.
From stdpp Require Import base list numbers option gmap.
From S2P Require Import InlineIgnore.
From S2P Require Import Prelude Text Control Rule Location Expr FilterValue FilterEngine Filter Spans Requirements MatchFilter RawScan FilterExact MatchExact.
#[local] Open Scope nat_scope.

(** ** Segments *)

Lemma segments_spec chunk overlap len : overlap < chunk -> forall fuel offset, len - offset < fuel -> offset < len ->
  let l := segments chunk overlap fuel offset len in
  (forall a b, offset <= a <= b -> b <= len -> b - a <= overlap -> exists s e, (s, e) ∈ l /\ s <= a /\ b <= e) /\
  (forall s e, (s, e) ∈ l -> offset <= s < e /\ Nat.min (offset + chunk) len <= e <= len /\ e - s <= chunk) /\
  StronglySorted (fun x y => x.1 < y.1 /\ x.2 < y.2) l.
Proof.
  intros Hov. induction fuel as [|fuel IH]; intros offset Hf Ho; [lia|]. cbn [segments].
  destruct (Nat.ltb_spec offset len) as [_|]; [|lia]. destruct (Nat.eqb_spec (Nat.min (offset + chunk) len) len) as [Hend|Hend].
  - rewrite Hend. split; [|split].
    + intros a b Ha Hb _. exists offset, len. split; [left|lia].
    + intros s e [[= -> ->]|[]%not_elem_of_nil]%elem_of_cons. lia.
    + constructor; constructor.
  - assert (offset + chunk < len) as Hlt by lia. rewrite Nat.min_l in * by lia.
    destruct (IH (offset + chunk - overlap)) as (Hcover & Hbound & Hsort); [lia|lia|]. split; [|split].
    + intros a b Ha Hb Hab. destruct (decide (b <= offset + chunk)).
      * exists offset, (offset + chunk). split; [left|lia].
      * destruct (Hcover a b) as (s & e & Hin & ?); [lia..|]. exists s, e. split; [by right|done].
    + intros s e [[= -> ->]|Hin]%elem_of_cons; [lia|]. apply Hbound in Hin. lia.
    + constructor; [done|]. apply Forall_forall. intros [s e] Hin. apply Hbound in Hin. cbn. lia.
Qed.

Lemma overlap_lt_chunk : CHUNK_OVERLAP < MAX_CHUNK_SIZE.
Proof. unfold CHUNK_OVERLAP, MAX_CHUNK_SIZE. lia. Qed.

(** C25. No place is left out: every range of at most [CHUNK_OVERLAP] bytes of a
    blob lies inside one of the segments the scanner is given; the segments are
    not empty, at most [MAX_CHUNK_SIZE] bytes long and inside the blob, and both
    their starts and their ends increase, so their reverse goes from the last
    byte to the first. *)
Theorem scan_ranges_cover (len : nat) : 0 < len ->
  (forall a b, a <= b -> b <= len -> b - a <= CHUNK_OVERLAP -> exists s e, (s, e) ∈ scan_ranges len /\ s <= a /\ b <= e) /\
  (forall s e, (s, e) ∈ scan_ranges len -> s < e <= len /\ e - s <= MAX_CHUNK_SIZE) /\
  StronglySorted (fun x y => x.1 < y.1 /\ x.2 < y.2) (scan_ranges len).
Proof.
  intros Hlen. destruct (segments_spec _ _ len overlap_lt_chunk (S len) 0 ltac:(lia) Hlen) as (H1 & H2 & H3).
  split; [|split; [|done]].
  - intros a b Ha Hb Hab. apply H1; lia.
  - intros s e Hin. apply H2 in Hin. lia.
Qed.

Lemma scan_ranges_cover_witness : exists s e, (s, e) ∈ scan_ranges 100 /\ s <= 40 /\ 60 <= e.
Proof. apply (proj1 (scan_ranges_cover 100 ltac:(lia))); unfold CHUNK_OVERLAP; lia. Defined.

(** ** The rule of each finding *)

Lemma effective_rule_id `{F32} call c : id (base (effective_rule call c)) = id (base (MatchFilter.rule call)).
Proof. unfold effective_rule. destruct (_ || _); [|done]. cbn. by destruct (_ && _). Qed.

Section aligned.
Context {F : F32} {F6 : F64} {Lib : Library} {Bld : Build} {RL : RegexLib} {Hsh : Hasher} (engine : RegexEngine).
Context (path_regex_new : bytes -> option (bytes -> bool)) (keyword_regex_new : list bytes -> option (bytes -> bool)).
Context (render : bytes -> gmap bytes bytes -> option bytes) (parsers : UriParsers) (safe_list : SafeList).
Context (fx : list Hashed -> Z) (place : Texts -> Memory * BetterleaksFilterContext).

(** A state with more findings, all of one rule. *)
Definition extends (rule_id : bytes) (s s' : MatchState) : Prop :=
  exists new, matches s' = matches s ++ new /\ Forall (fun m => id (base (match_rule m)) = rule_id) new.

Lemma extends_refl i s s' : matches s' = matches s -> extends i s s'.
Proof. intros E. exists []. by rewrite E, app_nil_r. Qed.
Lemma extends_trans i s1 s2 s3 : extends i s1 s2 -> extends i s2 s3 -> extends i s1 s3.
Proof. intros (n1 & E1 & H1) (n2 & E2 & H2). exists (n1 ++ n2). split; [by rewrite E2, E1, app_assoc|by apply Forall_app]. Qed.

Lemma report_extends call c entropy effective s s' : report fx call c entropy effective s = Some s' -> extends (id (base (MatchFilter.rule call))) s s'.
Proof.
  unfold report. destruct (bool_decide _); [intros [= <-]; by apply extends_refl|].
  destruct (record_match _ _ _) as [previous fresh]. destruct (_ && _); [done|]. intros [= <-]. eexists. split; [done|].
  destruct fresh; repeat constructor. cbn. apply effective_rule_id.
Qed.

Lemma judge_extends call c s s' : judge engine keyword_regex_new render parsers safe_list fx place call c s = Some s' ->
  extends (id (base (MatchFilter.rule call))) s s'.
Proof.
  unfold judge. destruct (check_content _ _ _ _ _) as [entropy|]; [|intros [= <-]; by apply extends_refl].
  destruct (filter_outcome _ _ _ _ _) as [[outcome cache]|]; [|done]. cbn [mbind option_bind].
  destruct (_ || _); [intros [= <-]; by apply extends_refl|].
  destruct (should_ignore_cached _ _ _ _) as [[ignore|] index]; [|done]. cbn [mbind option_bind].
  destruct ignore; [intros [= <-]; by apply extends_refl|]. destruct (negb _); [intros [= <-]; by apply extends_refl|].
  intros H%report_extends. exact H.
Qed.

Lemma step_extends call c s s' : step engine keyword_regex_new render parsers safe_list fx place call c s = Some s' ->
  extends (id (base (MatchFilter.rule call))) s s'.
Proof.
  unfold step. destruct (interior call c); [intros [= <-]; by apply extends_refl|].
  destruct (full_matches s) as [full|]; [|apply judge_extends]. destruct (record_match _ _ _) as [full' fresh].
  destruct fresh; [intros H%judge_extends; exact H|intros [= <-]; by apply extends_refl].
Qed.

Abbreviation filter_matched := (filter_match engine path_regex_new keyword_regex_new render parsers safe_list fx place).

Lemma filter_match_extends call captures s confirmed s' : filter_matched call captures s = Some (confirmed, s') ->
  extends (id (base (MatchFilter.rule call))) s s'.
Proof.
  unfold filter_match. destruct (_ || _); [intros [= _ <-]; by apply extends_refl|].
  destruct (steps _ _ _ _ _ _ _ _ captures s) as [t|] eqn:E; [|done]. intros [= _ <-]. revert s E.
  induction captures as [|c captures IH]; intros s; cbn [steps]; [intros [= <-]; by apply extends_refl|].
  destruct (step _ _ _ _ _ _ _ _ c s) as [s1|] eqn:E1; [|done]. cbn [mbind option_bind]. intros E.
  apply step_extends in E1. by eapply extends_trans; [|apply IH].
Qed.

Context (vectorscan : bytes -> res (list (nat * nat))) (db : RulesDatabase) (source : Source).

Abbreviation confirm := (confirm_windows engine path_regex_new keyword_regex_new render parsers safe_list fx place db source).

Lemma confirm_extends fuel rule regex rule_id : forall from to endpoint s s', confirm fuel rule regex rule_id from to endpoint s = Ok s' ->
  extends (id (base rule)) s s'.
Proof.
  induction fuel as [|fuel IH]; intros from to endpoint s s'; cbn [confirm_windows];
    destruct (filter_match _ _ _ _ _ _ _ _ _ _ s) as [[confirmed t]|] eqn:E; try done; cbn [or_panic mbind res_bind];
    apply filter_match_extends in E; cbn in E; destruct (confirmation_needs_wider_window _ _ _ _ _ _) as [e wider].
  - by intros [= <-].
  - destruct wider; [|by intros [= <-]]. intros H%IH. by eapply extends_trans.
Qed.

(** Each finding stands next to the number of a rule with its identifier. *)
Definition aligned (ms : list BlobMatch) (indices : list nat) : Prop :=
  Forall2 (fun m i => exists rule, rules db !! i = Some rule /\ id (base (match_rule m)) = id (base rule)) ms indices.

Lemma aligned_extends s s' indices rule rule_id : aligned (matches s) indices -> rules db !! rule_id = Some rule ->
  extends (id (base rule)) s s' -> aligned (matches s') (indices ++ replicate (length (matches s') - length (matches s)) rule_id).
Proof.
  intros Ha Hr (new & -> & Hnew). rewrite length_app, Nat.add_comm, Nat.add_sub. apply Forall2_app; [done|].
  induction Hnew as [|m new Hm _ IH]; cbn; [constructor|]. constructor; [by exists rule|exact IH].
Qed.

Abbreviation process_one := (process_raw_match engine path_regex_new keyword_regex_new render parsers safe_list fx place db source).
Definition state_aligned (s : RawState) : Prop := aligned (matches (found s)) (match_rule_indices s).

Lemma candidate_aligned rule regex rule_id from to s s' : state_aligned s -> rules db !! rule_id = Some rule ->
  confirm_candidate engine path_regex_new keyword_regex_new render parsers safe_list fx place db source rule regex rule_id from to s = Ok s' -> state_aligned s'.
Proof.
  intros Ha Hr. unfold confirm_candidate. destruct (negb _); [by intros [= <-]|].
  destruct (confirm_windows _ _ _ _ _ _ _ _ _ _ _ _ _ _ _ _ _ _) as [m| |] eqn:E; [|done|done]. cbn [mbind res_bind]. intros [= <-].
  apply confirm_extends in E. by apply (aligned_extends _ _ _ rule).
Qed.

Lemma raw_match_aligned raw s s' : state_aligned s -> process_one raw s = Ok s' -> state_aligned s'.
Proof.
  destruct raw as [rule_id end_idx]. intros Ha. unfold process_raw_match. destruct (_ && _); [by intros [= <-]|].
  destruct (rules db !! rule_id) as [rule|] eqn:Er; [|done]. destruct (anchored_regexes db !! rule_id) as [regex|]; [|done]. cbn [or_panic mbind res_bind].
  destruct (uses_vectorscan_prefilter db rule_id).
  - destruct (bool_decide _); [by intros [= <-]|]. intros H. by eapply candidate_aligned in H; [|exact Ha|exact Er].
  - destruct (bool_decide _); [by intros [= <-]|]. cbn zeta. destruct (contains_end _ _); [by intros [= <-]|].
    intros H. by eapply candidate_aligned in H; [|exact Ha|exact Er].
Qed.

Lemma raw_matches_aligned raws : forall s s', state_aligned s ->
  process_raw_matches engine path_regex_new keyword_regex_new render parsers safe_list fx place db source raws s = Ok s' -> state_aligned s'.
Proof.
  induction raws as [|raw raws IH]; intros s s' Ha; cbn [process_raw_matches]; [by intros [= <-]|].
  destruct (process_raw_match _ _ _ _ _ _ _ _ _ _ _ _) as [t| |] eqn:E; [|done|done]. cbn [mbind res_bind]. apply IH. by eapply raw_match_aligned.
Qed.

Lemma segments_aligned ranges : forall s s', state_aligned s ->
  scan_segments engine path_regex_new keyword_regex_new render parsers safe_list fx place vectorscan db source ranges s = Ok s' -> state_aligned s'.
Proof.
  induction ranges as [|range ranges IH]; intros s s' Ha; cbn [scan_segments]; [by intros [= <-]|].
  destruct (raw_matches _ _ _ _) as [raws| |]; [|done|done]. cbn [mbind res_bind].
  destruct (process_raw_matches _ _ _ _ _ _ _ _ _ _ _ _) as [t| |] eqn:E; [|done|done]. cbn [mbind res_bind]. apply IH. by eapply raw_matches_aligned.
Qed.

Lemma rules_aligned ids item : forall m indices m' indices', aligned (matches m) indices ->
  scan_rules engine path_regex_new keyword_regex_new render parsers safe_list fx place db source ids item m indices = Ok (m', indices') ->
  aligned (matches m') indices'.
Proof.
  induction ids as [|rule_id ids IH]; intros m indices m' indices' Ha; cbn [scan_rules]; [by intros [= <- <-]|].
  destruct (_ && _); [by apply IH|].
  destruct (rules db !! rule_id) as [rule|] eqn:Er; [|done]. destruct (anchored_regexes db !! rule_id) as [regex|]; [|done]. cbn [or_panic mbind res_bind].
  destruct (filter_match _ _ _ _ _ _ _ _ _ _ m) as [[confirmed t]|] eqn:E; [|done]. cbn [or_panic mbind res_bind]. apply filter_match_extends in E.
  apply IH. by apply (aligned_extends _ _ _ rule).
Qed.

(** ** Widening *)

Lemma confirm_fuel rule regex rule_id to fuel1 : forall fuel2 from endpoint s, from <= fuel1 -> from <= fuel2 -> from < to \/ from = 0 ->
  confirm fuel1 rule regex rule_id from to endpoint s = confirm fuel2 rule regex rule_id from to endpoint s.
Proof.
  induction fuel1 as [|fuel1 IH]; intros fuel2 from endpoint s H1 H2 Hto.
  - assert (from = 0) as -> by lia. destruct fuel2; [done|]. cbn [confirm_windows].
    destruct (or_panic _) as [[confirmed t]| |]; [|done|done]. cbn [mbind res_bind].
    unfold confirmation_needs_wider_window. cbn [Nat.eqb]. by rewrite orb_true_r.
  - destruct fuel2 as [|fuel2].
    + assert (from = 0) as -> by lia. cbn [confirm_windows].
      destruct (or_panic _) as [[confirmed t]| |]; [|done|done]. cbn [mbind res_bind].
      unfold confirmation_needs_wider_window. cbn [Nat.eqb]. by rewrite orb_true_r.
    + cbn [confirm_windows]. destruct (or_panic _) as [[confirmed t]| |]; [|done|done]. cbn [mbind res_bind].
      destruct (confirmation_needs_wider_window _ _ _ _ _ _) as [e wider] eqn:E. destruct wider; [|done].
      destruct Hto as [Hto| ->].
      * apply IH; [lia|lia|]. destruct (decide (to - (to - from) * 2 = 0)); [by right|left; lia].
      * unfold confirmation_needs_wider_window in E. cbn [Nat.eqb] in E. by rewrite orb_true_r in E.
Qed.
End aligned.

(** ** Decoded texts *)

Definition weight (items : list DecodedData) : nat := list_sum (map (fun d => S (length (decoded d))) items).

Section decode.
Context (standard url_safe url_safe_no_pad : bytes -> option bytes).

(** Four characters give at most three bytes. *)
Definition shrinks (decode : bytes -> option bytes) : Prop := forall l d, decode l = Some d -> length d * 4 <= length l * 3.
Context (H1 : shrinks standard) (H2 : shrinks url_safe) (H3 : shrinks url_safe_no_pad).

Abbreviation windows := (windows_from standard url_safe url_safe_no_pad).

Lemma window_weight input from to : to <= length input -> weight (window_result standard url_safe url_safe_no_pad input from to) <= to - from.
Proof using H1 H2 H3.
  intros Hto. unfold window_result, weight. destruct (_ && _) eqn:E; [|cbn; lia]. apply andb_prop in E as [E _]. apply Nat.leb_le in E.
  destruct (try_decode _ _ _ _) as [d|] eqn:Ed; [|cbn; lia]. destruct (is_ascii d); cbn; [|lia].
  assert (length d * 4 <= length (slice input from to) * 3) as Hd.
  { unfold try_decode in Ed. destruct (standard _) eqn:E1; [by simplify_eq; apply H1|].
    destruct (url_safe _) eqn:E2; [by simplify_eq; apply H2|by apply H3]. }
  assert (length (slice input from to) <= to - from) by (unfold slice; rewrite length_take; lia). lia.
Qed.

Lemma weight_app a b : weight (a ++ b) = weight a + weight b.
Proof. unfold weight. by rewrite map_app, list_sum_app. Qed.

Lemma windows_weight input k : forall i, length input - i <= k -> weight (windows input i) <= length input - i.
Proof using H1 H2 H3.
  induction k as [|k IH]; intros i Hk.
  { unfold windows_from. replace (length input - i) with 0 by lia. cbn. lia. }
  destruct (decide (i < length input)) as [Hi|Hi].
  2: { unfold windows_from. replace (length input - i) with 0 by lia. cbn. lia. }
  destruct (run_start input i) eqn:E.
  - pose proof (run_start_maximal input i E) as Hmax. pose proof Hmax as (Hlt & Hle & _).
    assert (run_end input i <= window_end input i) by (unfold window_end; lia).
    assert (window_end input i <= length input) as Hwin.
    { unfold window_end, count_eq. pose proof (length_drop input (run_end input i)) as Hl.
      destruct (drop (run_end input i) input) as [|x [|y r]]; cbn in *; repeat case_match; lia. }
    rewrite windows_take, weight_app by done. pose proof (window_weight input i (window_end input i) Hwin).
    assert (windows input (S i) = windows input (window_end input i)) as ->.
    { apply windows_skip; [lia|]. intros q Hq. unfold run_start. destruct (decide (q < run_end input i)) as [Hq'|Hq'].
      - rewrite (b64_run input i (q - 1)) by lia. destruct (Nat.eqb_spec q 0); [lia|]. cbn. by rewrite andb_false_r.
      - destruct (b64_eq input i q) as [-> _]; [lia|done]. }
    pose proof (IH (window_end input i) ltac:(lia)). lia.
  - rewrite (windows_skip _ _ _ input i (S i)); [|lia|intros q Hq; by replace q with i by lia].
    pose proof (IH (S i) ltac:(lia)). lia.
Qed.

Lemma strings_weight clock input : weight (get_base64_strings standard url_safe url_safe_no_pad input clock) <= length input.
Proof using H1 H2 H3.
  assert (get_base64_strings standard url_safe url_safe_no_pad input clock = windows input 0) as ->
    by (apply refines_expect, get_base64_strings_impl_refines).
  pose proof (windows_weight input (length input) 0 ltac:(lia)). lia.
Qed.
End decode.

Section results.
Context {F : F32} {F6 : F64} {Lib : Library} {Bld : Build} {RL : RegexLib} {Hsh : Hasher} (engine : RegexEngine).
Context (path_regex_new : bytes -> option (bytes -> bool)) (keyword_regex_new : list bytes -> option (bytes -> bool)).
Context (render : bytes -> gmap bytes bytes -> option bytes) (parsers : UriParsers) (safe_list : SafeList).
Context (fx : list Hashed -> Z) (place : Texts -> Memory * BetterleaksFilterContext).
Context (vectorscan : bytes -> res (list (nat * nat))) (db : RulesDatabase) (source : Source).

Abbreviation decode_one := (scan_decoded engine path_regex_new keyword_regex_new render parsers safe_list fx place vectorscan db source).
Abbreviation loop := (b64_loop engine path_regex_new keyword_regex_new render parsers safe_list fx place vectorscan db source).
Abbreviation scan_texts := (scan_base64 engine path_regex_new keyword_regex_new render parsers safe_list fx place vectorscan db source).
Abbreviation raw_scan := (scan_and_process_raw_matches engine path_regex_new keyword_regex_new render parsers safe_list fx place vectorscan db source).

Lemma decoded_aligned item s s' : aligned db (all_matches s) (rule_indices s) -> decode_one item s = Ok s' -> aligned db (all_matches s') (rule_indices s').
Proof.
  intros Ha. unfold scan_decoded. destruct (vectorscan _) as [hits| |]; [|done|done]. cbn [mbind res_bind].
  destruct (scan_rules _ _ _ _ _ _ _ _ _ _ _ _ _ _) as [[m indices]| |] eqn:E; [|done|done]. cbn [mbind res_bind]. intros [= <-].
  by eapply rules_aligned in E.
Qed.

Lemma loop_aligned get resources fuel : forall stack s s', aligned db (all_matches s) (rule_indices s) ->
  loop get resources fuel stack s = Some (Ok s') -> aligned db (all_matches s') (rule_indices s').
Proof.
  induction fuel as [|fuel IH]; intros [|[item depth] stack] s s' Ha; cbn [b64_loop]; try done; try (by intros [= <-]).
  destruct (scan_decoded _ _ _ _ _ _ _ _ _ _ _ item s) as [t| |] eqn:E; [|done|done]. apply IH. by eapply decoded_aligned.
Qed.

(** Findings and the numbers of their rules stay side by side: if every finding
    so far stands next to the number of a rule with its identifier, then so it is
    after the raw scan of the blob, and after the scan of the texts decoded from
    it; the scans add findings only of the rule they note. *)
Theorem rule_indices_aligned s : aligned db (all_matches s) (rule_indices s) ->
  (forall s', raw_scan s = Ok s' -> aligned db (all_matches s') (rule_indices s')) /\
  (forall get resources fuel items s', scan_texts get resources fuel items s = Some (Ok s') -> aligned db (all_matches s') (rule_indices s')).
Proof.
  intros Ha. split.
  - intros s'. unfold scan_and_process_raw_matches. destruct (scan_segments _ _ _ _ _ _ _ _ _ _ _ _ _) as [r| |] eqn:E; [|done|done].
    cbn [mbind res_bind]. intros [= <-]. eapply segments_aligned in E; [exact E|exact Ha].
  - intros get resources fuel items s'. by apply loop_aligned.
Qed.

Definition stack_weight (stack : list (DecodedData * nat)) : nat := list_sum (map (fun x => S (length (decoded x.1))) stack).

Lemma stack_weight_app a b : stack_weight (a ++ b) = stack_weight a + stack_weight b.
Proof. unfold stack_weight. by rewrite map_app, list_sum_app. Qed.
Lemma stack_weight_cons x a : stack_weight (x :: a) = S (length (decoded x.1)) + stack_weight a.
Proof. done. Qed.
Lemma stack_weight_rev a : stack_weight (rev a) = stack_weight a.
Proof. induction a as [|x a IH]; [done|]. cbn [rev]. rewrite stack_weight_app, !stack_weight_cons, IH. change (stack_weight []) with 0. lia. Qed.

(** A decoder whose texts weigh no more than what they are decoded from. *)
Context (get : bytes -> list DecodedData) (Hget : forall l, weight (get l) <= length l) (resources : ResourceLimits).

Lemma nested_weight item depth : stack_weight (rev (nested_items get resources item depth)) <= length (decoded item).
Proof using Hget.
  rewrite stack_weight_rev. unfold nested_items. destruct (reached _ _ _); [cbn; lia|].
  unfold stack_weight. rewrite map_map. apply (Hget (decoded item)).
Qed.

Lemma loop_fuel fuel1 : forall fuel2 stack s, stack_weight stack <= fuel1 -> stack_weight stack <= fuel2 ->
  loop get resources fuel1 stack s <> None /\ loop get resources fuel1 stack s = loop get resources fuel2 stack s.
Proof using Hget.
  induction fuel1 as [|fuel1 IH]; intros fuel2 [|[item depth] stack] s Hw1 Hw2; try (by destruct fuel2);
    rewrite stack_weight_cons in Hw1, Hw2; cbn [fst] in *; try lia.
  destruct fuel2 as [|fuel2]; [lia|]. cbn [b64_loop].
  destruct (scan_decoded _ _ _ _ _ _ _ _ _ _ _ item s) as [t| |]; [|done|done]. pose proof (nested_weight item depth).
  apply IH; rewrite stack_weight_app; lia.
Qed.

Lemma scan_texts_fuel items s k : loop get resources (weight items + k) (rev (map (fun d => (d, 0)) items)) s <> None /\
  loop get resources (weight items + k) (rev (map (fun d => (d, 0)) items)) s = loop get resources (weight items) (rev (map (fun d => (d, 0)) items)) s.
Proof using Hget.
  assert (stack_weight (rev (map (fun d => (d, 0)) items)) = weight items) as Hw.
  { rewrite stack_weight_rev. unfold stack_weight, weight. by rewrite map_map. }
  apply loop_fuel; lia.
Qed.
End results.

(** The decoding of nested texts ends, whatever the limits, after at most as
    many texts as the blob has bytes: four characters decode to at most three
    bytes and a run of them is decoded only from thirty-two on, so the texts found
    in a text are together shorter than it. More turns change nothing. *)
Theorem decoding_ends {F : F32} {F6 : F64} {Lib : Library} {Bld : Build} {RL : RegexLib} {Hsh : Hasher} (engine : RegexEngine)
    path_regex_new keyword_regex_new render parsers safe_list fx place vectorscan (db : RulesDatabase) (source : Source)
    standard url_safe url_safe_no_pad clock resources s k : shrinks standard -> shrinks url_safe -> shrinks url_safe_no_pad ->
  let get l := get_base64_strings standard url_safe url_safe_no_pad l clock in
  let run fuel := scan_base64 engine path_regex_new keyword_regex_new render parsers safe_list fx place vectorscan db source get resources fuel
    (get (source_blob source)) s in
  run (length (source_blob source) + k) <> None /\ run (length (source_blob source) + k) = run (length (source_blob source)).
Proof.
  intros H1 H2 H3 get run.
  assert (forall l, weight (get l) <= length l) as Hget by (intros l; by apply strings_weight).
  pose proof (Hget (source_blob source)) as Hle. unfold run, scan_base64.
  set (n := length (source_blob source)) in *. set (items := get (source_blob source)) in *.
  destruct (scan_texts_fuel engine path_regex_new keyword_regex_new render parsers safe_list fx place vectorscan db source get Hget resources items s (n - weight items + k)) as [Hn He].
  destruct (scan_texts_fuel engine path_regex_new keyword_regex_new render parsers safe_list fx place vectorscan db source get Hget resources items s (n - weight items)) as [_ He'].
  replace (weight items + (n - weight items + k)) with (n + k) in * by lia. replace (weight items + (n - weight items)) with n in * by lia.
  split; [exact Hn|]. by rewrite He, He'.
Qed.

(** ** An example *)

Module Toy.
Import FilterExact.Concrete MatchExact.Example.

Definition toy_regex : RuleRegex := {|
  captures_iter h := match find_text (bs "KEY0") h with Some i => [capture i (i + 4) i (i + 4)] | None => [] end;
  find_at h from := match find_text (bs "KEY0") (drop from h) with Some i => Some (from + i, from + i + 4) | None => None end;
  match_maximum_len := Some 4%Z
|}.
Definition toy_db : RulesDatabase := {|
  rules := [scan_rule "three" None]; anchored_regexes := [toy_regex]; self_identifying_flags := [false];
  vectorscan_prefilter_flags := [false]; betterleaks_rule_flags := [false]
|}.
Definition toy_source : Source := {|
  source_blob := bs "first = KEY0, then KEY0"; source_filename := bs "src/test.rs"; source_attrs := []; betterleaks_path_prefiltered := false;
  respects_ignore_if_contains := true; ignore_config := config_new []
|}.
Definition toy_vectorscan (l : bytes) : res (list (nat * nat)) := Ok (match find_text (bs "KEY0") l with Some i => [(0, i + 4); (7, i + 4)] | None => [] end).
Definition no_findings : Findings := {| all_matches := []; rule_indices := []; ignore_index := None; reported_spans := ∅; reported_keys := ∅ |}.
Definition toy_render (_ : bytes) (_ : gmap bytes bytes) : option bytes := None.
Definition decoded_at (l : bytes) : list DecodedData := match l with 61%Z :: _ => [] | _ => [mkDecoded (61%Z :: bs "KEY0") 8 12] end.
Definition toy_texts (fuel : nat) : option (res Findings) :=
  scan_base64 (filter_engine line_engine) (fun _ => None) keyword_search toy_render no_parsers no_safe_list key placed toy_vectorscan toy_db toy_source
    decoded_at limits_default fuel (decoded_at (source_blob toy_source)) no_findings.
Definition toy_findings : Findings := Eval vm_compute in match toy_texts 10 with Some (Ok s) => s | _ => no_findings end.

Example toy_findings_are : map (fun m => (id (base (match_rule m)), map cap_value (match_captures m))) (all_matches toy_findings) = [(bs "three", [bs "KEY0"])] /\
  rule_indices toy_findings = [0].
Proof. split; reflexivity. Qed.

Lemma rule_indices_aligned_witness : aligned toy_db (all_matches toy_findings) (rule_indices toy_findings).
Proof.
  refine (proj2 (rule_indices_aligned (filter_engine line_engine) (fun _ => None) keyword_search toy_render no_parsers no_safe_list key placed
    toy_vectorscan toy_db toy_source no_findings _) decoded_at limits_default 10 (decoded_at (source_blob toy_source)) toy_findings _).
  - constructor.
  - vm_compute. reflexivity.
Defined.

Definition three_quarters (l : bytes) : option bytes := Some (take (length l * 3 / 4) l).
Lemma three_quarters_shrinks : shrinks three_quarters.
Proof.
  intros l d H. assert (d = take (length l * 3 / 4) l) as -> by (unfold three_quarters in H; congruence). rewrite length_take. pose proof (Nat.Div0.mul_div_le (length l * 3) 4). lia.
Qed.

Lemma decoding_ends_witness :
  let get l := get_base64_strings three_quarters three_quarters three_quarters l (fun _ => {| is_cancelled := false; now := 0 |}) in
  scan_base64 (filter_engine line_engine) (fun _ => None) keyword_search toy_render no_parsers no_safe_list key placed toy_vectorscan toy_db toy_source
    get {| unlimited := true |} (length (source_blob toy_source) + 0) (get (source_blob toy_source)) no_findings <> None.
Proof.
  exact (proj1 (decoding_ends (filter_engine line_engine) (fun _ => None) keyword_search toy_render no_parsers no_safe_list key placed
    toy_vectorscan toy_db toy_source three_quarters three_quarters three_quarters _ {| unlimited := true |} no_findings 0
    three_quarters_shrinks three_quarters_shrinks three_quarters_shrinks)).
Defined.
End Toy.
