(* ===== verification/Matcher.v ===== *)
(** * Scanning a blob: the rest of [src/matcher/mod.rs]

    The expressions of a database are as many as its rules. The parser gate of HTML
    and CSS, the passes that reduce the findings of a blob
    in their order, the findings of rules about a path only
    ([path_only_rules_for_source] of [kingfisher-rules/src/rules_database.rs]),
    and [scan_blob], which puts them and [RawScan] together. *)

From Stdlib Require Import ZArith Lia Bool.
From stdpp Require Import base list numbers option gmap.
From S2P Require Import InlineIgnore Markup Context.
From S2P Require Import Prelude Text Control Rule Overlap Catalog Specificity Windows.
From S2P Require Import Location Expr FilterValue FilterEngine Filter Spans Requirements MatchFilter HttpFallbacks CandidateSupport Association RawScan.
#[local] Open Scope nat_scope.

(** ** The languages a hint names *)

Definition from_hint `{Library} (hint : bytes) : option Language :=
  let names l := existsb (fun n => bytes_eqb (to_lowercase hint) (bs n)) l in
  if names ["bash"; "shell"]%string then Some Bash
  else if names ["c"]%string then Some C
  else if names ["c#"; "csharp"]%string then Some CSharp
  else if names ["c++"; "cpp"]%string then Some Cpp
  else if names ["css"]%string then Some Css
  else if names ["go"]%string then Some Go
  else if names ["html"]%string then Some Html
  else if names ["java"]%string then Some Java
  else if names ["javascript"; "js"]%string then Some JavaScript
  else if names ["php"]%string then Some Php
  else if names ["python"; "py"; "starlark"]%string then Some Python
  else if names ["ruby"]%string then Some Ruby
  else if names ["rust"; "rs"]%string then Some Rust
  else if names ["toml"]%string then Some Toml
  else if names ["typescript"; "ts"]%string then Some TypeScript
  else if names ["yaml"; "yml"]%string then Some Yaml
  else None.

Definition CONTEXT_VERIFIER_MIN_LIMIT : Z := 0.
Definition CONTEXT_VERIFIER_MAX_LIMIT : Z := 2 * 1024 * 1024.
Definition should_attempt_context_verification (blob_len : nat) : bool :=
  ((CONTEXT_VERIFIER_MIN_LIMIT <=? Z.of_nat blob_len) && (Z.of_nat blob_len <=? CONTEXT_VERIFIER_MAX_LIMIT))%Z.

(** ** The gate *)

(** What is left to confirm: per rule, its secrets with the findings that hold them. *)
Abbreviation Remaining := (gmap nat (gmap bytes (list nat))).

Section gate.
Context {F : F32} (db : RulesDatabase) (found : list BlobMatch) (match_rule_indices : list nat).

Definition is_candidate (index : nat) (m : BlobMatch) : bool :=
  if match_is_base64 m || is_none (from_utf8 (matching_input m)) then false
  else match match_rule_indices !! index with
  | Some rule_index => negb (is_rule_self_identifying db rule_index)
  | None => false
  end.
Definition candidate_indices : list nat := map fst (List.filter (fun '(i, m) => is_candidate i m) (enumerate found)).

Definition remember (remaining : Remaining) (index : nat) : Remaining :=
  match match_rule_indices !! index, found !! index with
  | Some rule_index, Some m =>
    let secrets := default ∅ (remaining !! rule_index) in
    <[rule_index := <[matching_input m := default [] (secrets !! matching_input m) ++ [index]]> secrets]> remaining
  | _, _ => remaining
  end.
Definition to_confirm : Remaining := fold_left remember candidate_indices ∅.

(** The secrets of the captures of a text are confirmed, until none is left. *)
Fixpoint remove_secrets (text : bytes) (secret_group : option nat) (captures : list Spans.Captures) (secrets : gmap bytes (list nat))
    : gmap bytes (list nat) :=
  match captures with
  | [] => secrets
  | c :: captures =>
    let secrets := delete (span_bytes text (find_secret_capture_with_group c secret_group)) secrets in
    if decide (secrets = ∅) then secrets else remove_secrets text secret_group captures secrets
  end.

Definition confirm_rule (text : bytes) (rule_index : nat) (secrets : gmap bytes (list nat)) : option (gmap bytes (list nat)) :=
  rule ← rules db !! rule_index;
  regex ← anchored_regexes db !! rule_index;
  let secrets := remove_secrets text (betterleaks_secret_group rule) (captures_iter regex text) secrets in
  if decide (secrets = ∅) then None else Some secrets.

(** The callback: whether anything remains. *)
Definition confirm_text (text : bytes) (remaining : Remaining) : bool * Remaining :=
  let remaining := map_imap (confirm_rule text) remaining in (negb (bool_decide (remaining = ∅)), remaining).

Definition dropped (remaining : Remaining) (index : nat) : bool :=
  existsb (fun '(_, secrets) => existsb (fun '(_, indices) => existsb (Nat.eqb index) indices) (map_to_list secrets)) (map_to_list remaining).

Context {Lib64 : F64} {Lib : Library} (re : Context.Captures) (css_parse : bytes -> list BodyItem) (tl_parse : bytes -> option (list Node)).

(** [None]: the reading of the page does not end within [fuel] turns. *)
Definition apply_markup_context_gate (fuel : nat) (blob : bytes) (lang_hint : option bytes) : option (list BlobMatch) :=
  match found with
  | [] => Some found
  | _ =>
    if negb (should_attempt_context_verification (length blob)) then Some found
    else match lang_hint ≫= from_hint with
    | Some (Html as language) | Some (Css as language) =>
      match candidate_indices with
      | [] => Some found
      | _ =>
        remaining ← stream_candidates re confirm_text css_parse fuel tl_parse blob language to_confirm;
        Some (if decide (remaining = ∅) then found
              else omap (fun '(i, m) => if dropped remaining i then None else Some m) (enumerate found))
      end
    | _ => Some found
    end
  end.
End gate.

(** ** The passes over the findings of a blob *)

Definition overlap_span (s : Location.OffsetSpan) : Overlap.OffsetSpan := {| Overlap.start := span_start s; Overlap.end_ := span_end s |}.

(** A control without limits; its checks do not look at the clock. *)
Definition any_clock : Clock := fun _ => {| is_cancelled := false; now := 0 |}.

Section passes.
Context {F : F32}.

(** [retain] by flags. *)
Definition retain {A} (keep : list bool) (l : list A) : list A := omap (fun '(i, x) => if nth i keep true then Some x else None) (enumerate l).

Definition suppress_credential_uri_fallbacks (found : list BlobMatch) : list BlobMatch :=
  let secret m := if match_is_base64 m then match match_captures m with capture :: _ => cap_value capture | [] => matching_input m end else matching_input m in
  let entries := map (fun m => (rule_of m, overlap_span (association_offset_span m), secret m)) found in
  retain (expect [] (credential_uri_keep control_default entries) any_clock) found.

Definition suppressed (m : BlobMatch) : BlobMatch :=
  let r := match_rule m in
  {| match_rule := {| base := suppress_runtime_reporting (base r); name := name r; path := path r; keywords := keywords r;
       min_entropy := min_entropy r; confidence := confidence r; pattern_requirements := pattern_requirements r;
       betterleaks_filter := betterleaks_filter r; betterleaks_secret_group := betterleaks_secret_group r;
       betterleaks_path_only := betterleaks_path_only r |};
     matching_input := matching_input m; matching_input_offset_span := matching_input_offset_span m;
     association_offset_span := association_offset_span m; match_captures := match_captures m; validation_outcome := validation_outcome m;
     calculated_entropy := calculated_entropy m; match_is_base64 := match_is_base64 m; dependent_captures := dependent_captures m;
     ambiguous_dependencies := ambiguous_dependencies m; dependency_candidates := dependency_candidates m |}.

(** Whether a finding is in the component window of another. *)
Definition component_attached (blob : bytes) (found : list BlobMatch) (primary component : nat) (dependency : DependsOnRule) : bool :=
  match found !! primary, found !! component with
  | Some p, Some c =>
    component_is_within (Z.of_nat (length blob)) (line_starts_of blob) (to_span (association_offset_span p)) (to_span (association_offset_span c))
      (default (bs "0") (within dependency))
  | _, _ => false
  end.

Definition specificity_entries (blob : bytes) (found : list BlobMatch) : list Specificity.Entry :=
  let lines := line_index_new blob in
  map (fun m => (rule_of m,
    (bounds lines (span_start (matching_input_offset_span m)) (span_end (matching_input_offset_span m))).1,
    match match_captures m with capture :: _ => cap_value capture | [] => matching_input m end)) found.

(** [lines_order] and [groups_order] are the orders in which hash maps are gone
    through. *)
Context (lines_order : list (nat * list nat) -> list (nat * list nat)).
Context (groups_order : list (Overlap.OffsetSpan * Group) -> list (Overlap.OffsetSpan * Group)).

Definition apply_specificity (blob : bytes) (found : list BlobMatch) : list BlobMatch :=
  if existsb (fun m => negb (specificity (rule_of m) =? 0)%Z) found then
    let flags := expect {| Specificity.keep := []; suppress_reporting := [] |}
      (specificity_keep (specificity_entries blob found) (component_attached blob found) control_default lines_order) any_clock in
    omap (fun '(i, m) => if nth i (Specificity.keep flags) true then Some (if nth i (suppress_reporting flags) false then suppressed m else m) else None)
      (enumerate found)
  else found.

Definition deduplicate_imported_catalog_matches (found : list BlobMatch) : list BlobMatch :=
  retain (expect [] (catalog_keep groups_order control_default
    (map (fun m => (rule_of m, overlap_span (matching_input_offset_span m))) found)) any_clock) found.

Context {F6 : F64} {Lib : Library} {HD : HttpData} (url_parse : bytes -> option ParsedUrl).
Context (actions : ScanRule -> Actions) (rule_capture_names : bytes -> list bytes).
Context (components_to_string : gmap bytes ComponentValue -> bytes).
Context (candidates_to_string : gmap bytes (list (bytes * (bytes * ComponentValue))) -> bytes).

(** What is done after the gate. *)
Definition reduce (resources : ResourceLimits) (blob : bytes) (found : list BlobMatch) : list BlobMatch :=
  let found := associate url_parse actions rule_capture_names components_to_string candidates_to_string blob resources found in
  let found := suppress_credential_uri_fallbacks found in
  let found := apply_specificity blob found in
  deduplicate_imported_catalog_matches found.
End passes.

(** ** [scan_blob] *)

Definition BASE64_SCAN_LIMIT : Z := 64 * 1024 * 1024.

Inductive ScanResult `{F32} := SeenWithMatches | SeenSansMatches | New (found : list BlobMatch).

Record MatcherStats := { blobs_seen : Z; bytes_seen : Z; blobs_scanned : Z; bytes_scanned : Z }.

(** Statistics, and the blobs that had findings; [bool] is what is noted of one. *)
Record MatcherState := { local_stats : MatcherStats; seen_blobs : gmap bytes bool }.

Definition count_seen (n : nat) (s : MatcherState) : MatcherState :=
  let t := local_stats s in
  {| local_stats := {| blobs_seen := blobs_seen t + 1; bytes_seen := bytes_seen t + Z.of_nat n;
                       blobs_scanned := blobs_scanned t; bytes_scanned := bytes_scanned t |};
     seen_blobs := seen_blobs s |}.
Definition count_scanned (n : nat) (s : MatcherState) : MatcherState :=
  let t := local_stats s in
  {| local_stats := {| blobs_seen := blobs_seen t; bytes_seen := bytes_seen t;
                       blobs_scanned := blobs_scanned t + 1; bytes_scanned := bytes_scanned t + Z.of_nat n |};
     seen_blobs := seen_blobs s |}.

(** The prefilter of source paths: patterns of the scanner, or an expression. *)
Inductive PathPrefilter := ScannedPrefilter (scan : bytes -> res bool) | EvaluatedPrefilter (expression : BetterleaksExpr).

Section blob.
Context {F : F32} {F6 : F64} {Lib : Library} {Bld : Build} {RL : RegexLib} {Hsh : Hasher} {HD : HttpData} (engine : RegexEngine).
Context (path_regex_new : bytes -> option (bytes -> bool)) (keyword_regex_new : list bytes -> option (bytes -> bool)).
Context (render : bytes -> gmap bytes bytes -> option bytes) (parsers : UriParsers) (safe_list : SafeList).
Context (fx : list Hashed -> Z) (place : Texts -> Memory * BetterleaksFilterContext).
Context (vectorscan : bytes -> res (list (nat * nat))) (db : RulesDatabase).
Context (betterleaks_prefilter : option PathPrefilter) (prefilter_engine : RegexEngine).
Context (place_source : bytes -> option (list (bytes * bytes)) -> Memory * (str * str * option (list (bytes * str)))).

(** *** Paths *)

Definition is_match_with_attributes (p : PathPrefilter) (path : bytes) (attributes : option (list (bytes * bytes))) : res bool :=
  match p with
  | ScannedPrefilter scan => scan path
  | EvaluatedPrefilter expression =>
    let '(memory, (empty, path, attributes)) := place_source path attributes in
    evaluate_prefilter_with_attributes (Mem := memory) empty prefilter_engine expression path attributes
  end.
Definition is_source_prefiltered (path : bytes) (attributes : option (list (bytes * bytes))) : res bool :=
  match betterleaks_prefilter with None => Ok false | Some p => is_match_with_attributes p path attributes end.

(** The path and attributes a blob is scanned under: those of the first origin that
    the prefilter leaves, else of the first one; and whether all are excluded. *)
Fixpoint pick_source (first : option (bytes * list (bytes * bytes))) (paths : list (bytes * list (bytes * bytes)))
    : res (option (bytes * list (bytes * bytes)) * bool) :=
  match paths with
  | [] => Ok (first, true)
  | (candidate, attributes) :: paths =>
    prefiltered ← is_source_prefiltered candidate (Some attributes);
    if prefiltered : bool then pick_source (Some (default (candidate, attributes) first)) paths
    else Ok (Some (candidate, attributes), false)
  end.

(** [default_attributes]: those of the first origin without a path of its own. *)
Definition source_of (paths : list (bytes * list (bytes * bytes))) (default_attributes : bytes -> list (bytes * bytes))
    : res (bytes * list (bytes * bytes) * bool) :=
  '(picked, prefiltered) ← pick_source None paths;
  match picked with
  | Some (filename, attributes) => Ok (filename, attributes, prefiltered)
  | None =>
    let filename := bs "unknown_file" in
    prefiltered ← is_source_prefiltered filename (Some (default_attributes filename));
    Ok (filename, default_attributes filename, prefiltered)
  end.

(** *** Rules about a path only *)

Definition path_texts (path : bytes) (attributes : option (list (bytes * bytes))) (rule : ScanRule) : Texts := {|
  t_path := path; t_attributes := attributes; t_secret := []; t_full_match := bs "file detected: " ++ path; t_line := [];
  t_fragment_raw := []; t_match := (0, 0); t_match_line := (0, 0); t_rule_id := id (base rule); t_description := name rule; t_captures := []
|}.

(** [Rule::new] of the syntax with another confidence; the rule was visible. *)
Definition path_rule (rule : ScanRule) (c : Confidence) : ScanRule := {|
  base := {| id := id (base rule); visible := true; specificity := specificity (base rule); validation := validation (base rule);
             depends_on_rule := depends_on_rule (base rule); runtime_minimum_confidence := Low; runtime_dependency_helper := false |};
  name := name rule; path := path rule; keywords := keywords rule; min_entropy := min_entropy rule; confidence := c;
  pattern_requirements := pattern_requirements rule; betterleaks_filter := betterleaks_filter rule;
  betterleaks_secret_group := betterleaks_secret_group rule; betterleaks_path_only := betterleaks_path_only rule
|}.

Definition path_only_rule (path : bytes) (attributes : option (list (bytes * bytes))) (l : bytes) (prefiltered : bool) (index : nat) (rule : ScanRule)
    : res (option ScanRule) :=
  if negb (betterleaks_path_only rule) || negb (visible (base rule)) || negb (fst (matches_path path_regex_new rule None path)) ||
     negb (fst (matches_keywords keyword_regex_new rule None l)) || (prefiltered && is_betterleaks_rule db index) then Ok None
  else
    outcome ← match betterleaks_filter rule with
              | None => Ok None
              | Some expression =>
                let '(memory, context) := place (path_texts path attributes rule) in
                outcome ← evaluate_filter_with_engine (Mem := memory) engine expression context; Ok (Some outcome)
              end;
    let c := default (confidence rule) (outcome ≫= outcome_confidence) in
    Ok (if discards outcome || negb (accepts_effective_confidence (base rule) c) then None else Some (path_rule rule c)).

Fixpoint path_only_loop (path : bytes) (attributes : option (list (bytes * bytes))) (l : bytes) (prefiltered : bool) (indexed : list (nat * ScanRule))
    : res (list (nat * ScanRule)) :=
  match indexed with
  | [] => Ok []
  | (index, rule) :: indexed =>
    r ← path_only_rule path attributes l prefiltered index rule;
    rest ← path_only_loop path attributes l prefiltered indexed;
    Ok (match r with Some r => (index, r) :: rest | None => rest end)
  end.

Definition path_only_rules_for_source (path : bytes) (attributes : option (list (bytes * bytes))) (l : bytes) : res (list (nat * ScanRule)) :=
  if match attributes ≫= bt_get (bs "fs.first_fragment") with Some value => bytes_eqb value (bs "false") | None => false end then Ok []
  else
    prefiltered ← is_source_prefiltered path attributes;
    path_only_loop path attributes l prefiltered (enumerate (rules db)).

Definition path_finding (rule : ScanRule) : BlobMatch := {|
  match_rule := rule; matching_input := []; matching_input_offset_span := mkSpan 0 0; association_offset_span := mkSpan 0 0;
  match_captures := [{| cap_name := Some (bs "TOKEN"); match_number := 0; cap_start := 0; cap_end := 0; cap_value := [] |}];
  validation_outcome := NotAttempted; calculated_entropy := f32_zero; match_is_base64 := false;
  dependent_captures := ∅; ambiguous_dependencies := ∅; dependency_candidates := ∅
|}.

(** *** All of it *)

Context (get_b64_strings : bytes -> list DecodedData) (resources : ResourceLimits).
Context (re : Context.Captures) (css_parse : bytes -> list BodyItem) (tl_parse : bytes -> option (list Node)).
Context (lines_order : list (nat * list nat) -> list (nat * list nat)).
Context (groups_order : list (Overlap.OffsetSpan * Group) -> list (Overlap.OffsetSpan * Group)).
Context (url_parse : bytes -> option ParsedUrl) (actions : ScanRule -> Actions) (rule_capture_names : bytes -> list bytes).
Context (components_to_string : gmap bytes ComponentValue -> bytes).
Context (candidates_to_string : gmap bytes (list (bytes * (bytes * ComponentValue))) -> bytes).

Abbreviation reduced := (reduce lines_order groups_order url_parse actions rule_capture_names components_to_string candidates_to_string resources).
Abbreviation raw_scan := (scan_and_process_raw_matches engine path_regex_new keyword_regex_new render parsers safe_list fx place vectorscan db).
Abbreviation text_scan := (scan_base64 engine path_regex_new keyword_regex_new render parsers safe_list fx place vectorscan db).

(** The findings of a source before the passes, and the texts left to decode. *)
Definition find_all (source : Source) (no_base64 : bool) : res (Findings * list DecodedData) :=
  let l := source_blob source in
  let b64_items := if no_base64 || exceeds resources (Z.of_nat (length l)) BASE64_SCAN_LIMIT then [] else get_b64_strings l in
  path_only ← path_only_rules_for_source (source_filename source) (Some (source_attrs source)) l;
  s ← raw_scan source {| all_matches := map (fun x => path_finding (snd x)) path_only; rule_indices := map fst path_only;
                         ignore_index := None; reported_spans := ∅; reported_keys := ∅ |};
  Ok (s, b64_items).

(** The findings after the passes. *)
Definition finish (fuel : nat) (source : Source) (no_base64 : bool) (lang : option bytes) (s : Findings) (b64_items : list DecodedData)
    : option (res (list BlobMatch)) :=
  if bool_decide (all_matches s = []) && is_nil b64_items then Some (Ok [])
  else
    r ← if no_base64 then Some (Ok s) else text_scan source get_b64_strings resources fuel b64_items s;
    match r with
    | Ok s =>
      gated ← apply_markup_context_gate db (all_matches s) (rule_indices s) re css_parse tl_parse fuel (source_blob source) lang;
      Some (Ok (reduced (source_blob source) gated))
    | Err e => Some (Err e)
    | Panic => Some Panic
    end.

(** A blob with findings is reported once, unless [no_dedup]. *)
Definition report_blob (blob_id : bytes) (no_dedup : bool) (found : list BlobMatch) (st : MatcherState) : ScanResult * MatcherState :=
  match found with
  | [] => (New found, st)
  | _ =>
    if no_dedup then (New found, st)
    else
      let st' := {| local_stats := local_stats st; seen_blobs := <[blob_id := true]> (seen_blobs st) |} in
      (match seen_blobs st !! blob_id with
       | Some had_matches => if had_matches : bool then SeenWithMatches else SeenSansMatches
       | None => New found
       end, st')
  end.

Record ScanOptions := {
  no_dedup : bool; no_base64 : bool; respect_ignores : bool; inline_config : InlineIgnoreConfig; language_hint : option bytes
}.

(** [None]: a loop has more than [fuel] turns. Errors and panics leave the state of
    the matcher aside. *)
Definition scan_blob (fuel : nat) (options : ScanOptions) (blob_id blob : bytes) (paths : list (bytes * list (bytes * bytes)))
    (default_attributes : bytes -> list (bytes * bytes)) (st : MatcherState) : option (res (ScanResult * MatcherState)) :=
  let st := count_seen (length blob) st in
  match source_of paths default_attributes with
  | Ok (filename, attributes, prefiltered) =>
    if prefiltered && negb (has_non_betterleaks_rules db) then Some (Ok (New [], st))
    else
      let st := count_scanned (length blob) st in
      let source := {| source_blob := blob; source_filename := filename; source_attrs := attributes; betterleaks_path_prefiltered := prefiltered;
                       respects_ignore_if_contains := respect_ignores options; ignore_config := inline_config options |} in
      match find_all source (no_base64 options) with
      | Ok (s, b64_items) =>
        r ← finish fuel source (no_base64 options) (language_hint options) s b64_items;
        Some (found ← r; Ok (if bool_decide (all_matches s = []) && is_nil b64_items then (New [], st)
                             else report_blob blob_id (no_dedup options) found st))
      | Err e => Some (Err e)
      | Panic => Some Panic
      end
  | Err e => Some (Err e)
  | Panic => Some Panic
  end.
End blob.
