(* ===== verification/MatcherExact.v ===== *)
(** * What scanning a blob guarantees

    The gate drops exactly the candidates that no text of the page confirms; what
    is done after it is the composition of the specifications of its passes, in
    whatever order hash maps are gone through, and neither makes up nor reorders
    findings; the scan ends; a blob is reported once. *)

From Stdlib Require Import ZArith Lia Bool.
From stdpp Require Import base list numbers option gmap.
From S2P Require Import FilterExact MatchExact.
From S2P Require Import InlineIgnore Markup Context.
From S2P Require Import Prelude Text Control Rule Overlap Catalog Specificity Windows.
From S2P Require Import Location Expr FilterValue FilterEngine Filter Spans Requirements MatchFilter HttpFallbacks CandidateSupport Association RawScan RawScanExact Matcher.
#[local] Open Scope nat_scope.

(** ** The gate *)

Section gate.
Context {F : F32} (db : RulesDatabase) (found : list BlobMatch) (indices : list nat).

Abbreviation candidate := (is_candidate db indices).
Abbreviation confirm := (confirm_text db).

(** The secrets of a rule in a text. *)
Definition confirms (text : bytes) (rule_index : nat) (secret : bytes) : bool :=
  match rules db !! rule_index, anchored_regexes db !! rule_index with
  | Some rule, Some regex =>
    existsb (fun c => bytes_eqb (span_bytes text (find_secret_capture_with_group c (betterleaks_secret_group rule))) secret) (captures_iter regex text)
  | _, _ => true
  end.

(** A finding that is left to confirm. *)
Definition left_in (remaining : Remaining) (i : nat) (r : nat) (secret : bytes) : Prop :=
  exists secrets l, remaining !! r = Some secrets /\ secrets !! secret = Some l /\ i ∈ l.

Lemma left_in_empty i r secret : ~ left_in ∅ i r secret.
Proof. intros (s & l & H & _). by rewrite lookup_empty in H. Qed.

Lemma remember_left R j i r secret : left_in (remember found indices R j) i r secret <->
  left_in R i r secret \/ (i = j /\ indices !! j = Some r /\ exists m, found !! j = Some m /\ matching_input m = secret).
Proof.
  unfold remember. destruct (indices !! j) as [rj|] eqn:Er; [|split; [by left|intros [?|(_ & ? & _)]; done]].
  destruct (found !! j) as [m|] eqn:Em; [|split; [by left|intros [?|(_ & _ & ? & ? & _)]; done]].
  unfold left_in. destruct (decide (r = rj)) as [->|Hr].
  - rewrite lookup_insert_eq. destruct (decide (secret = matching_input m)) as [->|Hs].
    + split.
      * intros (s & l & [= <-] & Hl & Hi). rewrite lookup_insert_eq in Hl. injection Hl as <-.
        apply elem_of_app in Hi as [Hi| ->%list_elem_of_singleton]; [left|right; eauto].
        destruct (R !! rj) as [s|] eqn:Es; cbn in Hi; [|by rewrite lookup_empty in Hi; apply not_elem_of_nil in Hi].
        destruct (s !! matching_input m) as [l|] eqn:El; [by exists s, l|by apply not_elem_of_nil in Hi].
      * intros H. eexists _, _. split; [done|]. rewrite lookup_insert_eq. split; [done|]. rewrite elem_of_app, list_elem_of_singleton.
        destruct H as [(s & l & -> & Hl & Hi)|(-> & _)]; [left|by right]. cbn. by rewrite Hl.
    + split.
      * intros (s & l & [= <-] & Hl & Hi). rewrite lookup_insert_ne in Hl by done. left.
        destruct (R !! rj) as [s|] eqn:Es; cbn in Hl; [by exists s, l|by rewrite lookup_empty in Hl].
      * intros [(s & l & Es & Hl & Hi)|(-> & _ & m' & Hm & Hsec)]; [|congruence].
        eexists _, l. split; [done|]. rewrite lookup_insert_ne by done. by rewrite Es.
  - rewrite lookup_insert_ne by done. split; [by left|]. intros [?|(-> & ? & _)]; [done|congruence].
Qed.

Lemma to_confirm_left i r secret : left_in (to_confirm db found indices) i r secret <->
  indices !! i = Some r /\ exists m, found !! i = Some m /\ matching_input m = secret /\ candidate i m = true.
Proof.
  assert (forall l R, left_in (fold_left (remember found indices) l R) i r secret <->
    left_in R i r secret \/ (i ∈ l /\ indices !! i = Some r /\ exists m, found !! i = Some m /\ matching_input m = secret)) as H.
  { induction l as [|j l IH]; intros R; cbn [fold_left]; [split; [by left|intros [?|(?%not_elem_of_nil & _)]; done]|].
    rewrite IH, remember_left, elem_of_cons. split; [|naive_solver]. intros [[?|(-> & ?)]|(? & ?)]; auto. }
  unfold to_confirm. rewrite H. split.
  - intros [[]%left_in_empty|(Hi & Hr & m & Hm & Hs)]. split; [done|]. exists m. split; [done|]. split; [done|].
    unfold candidate_indices in Hi. apply list_elem_of_In, in_map_iff in Hi as ([j m'] & <- & [Hj Hc]%filter_In).
    apply in_enumerate in Hj. cbn in *. congruence.
  - intros (Hr & m & Hm & Hs & Hc). right. split; [|eauto]. unfold candidate_indices. apply list_elem_of_In, in_map_iff.
    exists (i, m). split; [done|]. apply filter_In. split; [by apply in_enumerate|done].
Qed.

Lemma remove_secrets_lookup text g captures : forall secrets secret,
  remove_secrets text g captures secrets !! secret =
  if existsb (fun c => bytes_eqb (span_bytes text (find_secret_capture_with_group c g)) secret) captures then None else secrets !! secret.
Proof.
  induction captures as [|c captures IH]; intros secrets secret; [done|]. cbn [remove_secrets existsb].
  set (s := span_bytes text _). unfold bytes_eqb at 1. destruct (decide (delete s secrets = ∅)) as [E|E].
  - rewrite E, lookup_empty. destruct (existsb _ captures); [by rewrite orb_true_r|]. rewrite orb_false_r.
    case_bool_decide as Hs; [done|]. rewrite <-(lookup_delete_ne secrets s secret) by done. by rewrite E, lookup_empty.
  - rewrite IH. case_bool_decide as Hs; cbn [orb].
    + subst secret. rewrite lookup_delete_eq. by destruct (existsb _ captures).
    + by rewrite lookup_delete_ne by done.
Qed.

Lemma confirm_left text R i r secret : left_in (confirm text R).2 i r secret <-> left_in R i r secret /\ confirms text r secret = false.
Proof.
  unfold confirm_text, left_in, confirms. cbn [snd]. setoid_rewrite map_lookup_imap. split.
  - intros (s & l & Hs & Hl & Hi). destruct (R !! r) as [s0|] eqn:E; [|done]. cbn in Hs. unfold confirm_rule in Hs.
    destruct (rules db !! r) as [rule|]; [|done]. destruct (anchored_regexes db !! r) as [regex|]; [|done]. cbn in Hs.
    destruct (decide _); [done|]. injection Hs as <-. rewrite remove_secrets_lookup in Hl. destruct (existsb _ _); [done|].
    split; [|done]. by exists s0, l.
  - intros ((s & l & Hs & Hl & Hi) & Hc). rewrite Hs. cbn. unfold confirm_rule.
    destruct (rules db !! r) as [rule|]; [|done]. destruct (anchored_regexes db !! r) as [regex|]; [|done]. cbn.
    pose proof (remove_secrets_lookup text (betterleaks_secret_group rule) (captures_iter regex text) s secret) as Hr. rewrite Hc in Hr.
    destruct (decide _) as [E|E].
    + rewrite E, lookup_empty, Hl in Hr. done.
    + eexists _, l. split; [done|]. by rewrite Hr.
Qed.

Lemma confirm_sticky : sticky confirm.
Proof.
  intros t R R' H t'. unfold confirm_text in *. injection H as Hm <-. rewrite negb_false_iff, bool_decide_eq_true in Hm. rewrite Hm.
  assert (map_imap (confirm_rule db t') (∅ : Remaining) = ∅) as -> by (apply map_eq; intros k; by rewrite map_lookup_imap, lookup_empty).
  by rewrite bool_decide_true.
Qed.

Lemma fed_left texts : forall R i r secret, left_in (fed confirm texts R).2 i r secret <->
  left_in R i r secret /\ existsb (fun text => confirms text r secret) texts = false.
Proof.
  induction texts as [|text texts IH]; intros R i r secret; [cbn; tauto|]. unfold fed. cbn [feed existsb].
  pose proof (confirm_left text R) as Hc. destruct (confirm text R) as [more R1] eqn:E. cbn [snd] in Hc. destruct more.
  - pose proof (IH R1 i r secret) as H. unfold fed in H. rewrite H, Hc, orb_false_iff. tauto.
  - cbn [snd]. assert (R1 = ∅) as ->.
    { unfold confirm_text in E. injection E as Hm <-. by rewrite negb_false_iff, bool_decide_eq_true in Hm. }
    split; [by intros []%left_in_empty|]. intros (HR & [Ht _]%orb_false_iff). apply (Hc i r secret). done.
Qed.

Lemma dropped_left R i : dropped R i = true <-> exists r secret, left_in R i r secret.
Proof.
  unfold dropped, left_in. rewrite existsb_exists. split.
  - intros ([r secrets] & Hr & H). apply existsb_exists in H as ([secret l] & Hs & H). apply existsb_exists in H as (j & Hj & ->%Nat.eqb_eq).
    exists r, secret, secrets, l. apply list_elem_of_In, elem_of_map_to_list in Hr, Hs. by rewrite list_elem_of_In.
  - intros (r & secret & secrets & l & Hr & Hs & Hi). exists (r, secrets). split; [by apply list_elem_of_In, elem_of_map_to_list|].
    apply existsb_exists. exists (secret, l). split; [by apply list_elem_of_In, elem_of_map_to_list|].
    apply existsb_exists. exists i. split; [by apply list_elem_of_In|apply Nat.eqb_refl].
Qed.
End gate.

Section gate_exact.
Context {F : F32} {F6 : F64} {Lib : Library} (db : RulesDatabase) (found : list BlobMatch) (indices : list nat).
Context (re : Context.Captures) (css_parse : bytes -> list BodyItem) (tl_parse : bytes -> option (list Node)) (fuel : nat).

(** Whether the gate looks at a blob. *)
Definition gated (blob : bytes) (hint : option bytes) : bool :=
  should_attempt_context_verification (length blob) &&
  match hint ≫= from_hint with Some Html | Some Css => true | _ => false end.

(** A candidate whose secret is in none of the texts. *)
Definition unconfirmed (texts : list bytes) (i : nat) (m : BlobMatch) : bool :=
  is_candidate db indices i m &&
  match indices !! i with Some r => negb (existsb (fun text => confirms db text r (matching_input m)) texts) | None => false end.

Lemma keep_all {A} (f : nat * A -> option A) l : (forall i x, (i, x) ∈ enumerate l -> f (i, x) = Some x) -> omap f (enumerate l) = l.
Proof.
  unfold enumerate. generalize 0. induction l as [|x l IH]; intros k H; [done|]. cbn [enumerate_from] in *. cbn.
  rewrite (H k x) by left. f_equal. apply IH. intros i y Hy. apply H. by right.
Qed.

Lemma no_candidates : candidate_indices db found indices = [] -> forall i m, (i, m) ∈ enumerate found -> is_candidate db indices i m = false.
Proof.
  intros H i m Hin. destruct (is_candidate db indices i m) eqn:E; [|done]. exfalso.
  assert (i ∈ candidate_indices db found indices) as Hi.
  { unfold candidate_indices. apply list_elem_of_In, in_map_iff. exists (i, m). split; [done|]. apply filter_In. split; [by apply list_elem_of_In|done]. }
  rewrite H in Hi. by apply not_elem_of_nil in Hi.
Qed.

Lemma dropped_unconfirmed texts i m : (i, m) ∈ enumerate found ->
  dropped (fed (confirm_text db) texts (to_confirm db found indices)).2 i = unconfirmed texts i m.
Proof.
  intros Hin%list_elem_of_In%in_enumerate. apply eq_true_iff_eq. rewrite dropped_left. unfold unconfirmed. rewrite andb_true_iff. split.
  - intros (r & secret & [Hl Ht]%fed_left). apply to_confirm_left in Hl as (Hr & m' & Hm & <- & Hc). assert (m' = m) as -> by congruence.
    split; [done|]. by rewrite Hr, Ht.
  - intros [Hc Ht]. destruct (indices !! i) as [r|] eqn:Er; [|done]. exists r, (matching_input m). apply fed_left. split.
    + apply to_confirm_left. split; [done|]. by exists m.
    + by apply negb_true_iff.
Qed.

(** The texts of the page a blob is, and whether the values of its own sheets are
    read in time. *)
Definition gate_texts (blob : bytes) (hint : option bytes) : list bytes :=
  match hint ≫= from_hint with Some language => page_candidates re css_parse tl_parse blob language | None => [] end.
Definition gate_ok (blob : bytes) (hint : option bytes) : bool :=
  match hint ≫= from_hint with Some language => page_ok css_parse tl_parse fuel blob language | None => true end.

Lemma gate_exact blob hint : captures_ok re -> (gated blob hint = true -> gate_ok blob hint = true) ->
  apply_markup_context_gate db found indices re css_parse tl_parse fuel blob hint =
    Some (omap (fun '(i, m) => if gated blob hint && unconfirmed (gate_texts blob hint) i m then None else Some m) (enumerate found)).
Proof.
  intros Hre Hok. unfold gated, gate_ok, gate_texts in *.
  assert (forall language, page_ok css_parse tl_parse fuel blob language = true ->
    match candidate_indices db found indices with
    | [] => Some found
    | _ => remaining ← stream_candidates re (confirm_text db) css_parse fuel tl_parse blob language (to_confirm db found indices);
           Some (if decide (remaining = ∅) then found else omap (fun '(i, m) => if dropped remaining i then None else Some m) (enumerate found))
    end = Some (omap (fun '(i, m) => if unconfirmed (page_candidates re css_parse tl_parse blob language) i m then None else Some m) (enumerate found))) as Hlang.
  { intros language Hp. set (texts := page_candidates _ _ _ _ _).
    destruct (candidate_indices db found indices) as [|c cs] eqn:Ec.
    - rewrite keep_all; [done|]. intros i m Hin. unfold unconfirmed. by rewrite (no_candidates Ec i m Hin).
    - rewrite (markup_feeds re css_parse fuel tl_parse Hre (confirm_text db) blob language) by auto using confirm_sticky.
      rewrite Hp. cbn [mbind option_bind]. f_equal. pose proof (dropped_unconfirmed texts) as Hd. fold texts.
      set (remaining := (fed _ _ _).2) in *. transitivity (omap (fun '(i, m) => if dropped remaining i then None else Some m) (enumerate found)).
      + destruct (decide (remaining = ∅)) as [E|E]; [|done]. symmetry. apply keep_all. intros i m _. rewrite E.
        destruct (dropped ∅ i) eqn:Ed; [|done]. by apply dropped_left in Ed as (r & s & []%left_in_empty).
      + apply list_omap_ext, Forall_Forall2_diag, Forall_forall. intros [i m] Hin. by rewrite (Hd i m Hin). }
  unfold apply_markup_context_gate. destruct found as [|m0 ms] eqn:Efound; [done|]. rewrite <-Efound in *.
  assert (forall texts, Some found = Some (omap (fun '(i, m) => if false && unconfirmed texts i m then None else Some m) (enumerate found))) as Hnone.
  { intros texts. by rewrite keep_all. }
  destruct (should_attempt_context_verification _); [|by apply Hnone]. cbn [negb andb] in *.
  destruct (hint ≫= from_hint) as [[]|]; try exact (Hnone []); apply Hlang; auto.
Qed.

End gate_exact.

(** ** The passes *)

Section passes.
Context {F : F32}.

Lemma sublist_omap {A B} (f : nat * A -> option A) (p : A -> B) l : (forall i x y, f (i, x) = Some y -> p y = p x) -> forall k,
  sublist (map p (omap f (enumerate_from k l))) (map p l).
Proof.
  intros Hf. induction l as [|x l IH]; intros k; [constructor|]. cbn [enumerate_from omap list_omap map].
  destruct (f (k, x)) as [y|] eqn:E; [|by apply sublist_cons]. cbn [map]. rewrite (Hf k x y E). by apply sublist_skip.
Qed.

(** What the passes never touch of a finding. *)
Definition essence (m : BlobMatch) : bytes * bytes * OffsetSpan * OffsetSpan * list SerializableCapture * bool :=
  (finding_id m, matching_input m, matching_input_offset_span m, association_offset_span m, match_captures m, match_is_base64 m).

Lemma retain_sublist keep (l : list BlobMatch) : sublist (map essence (retain keep l)) (map essence l).
Proof. apply sublist_omap. intros i x y. destruct (nth i keep true); [by intros [= ->]|done]. Qed.

Context (lines_order : list (nat * list nat) -> list (nat * list nat)).
Context (groups_order : list (Overlap.OffsetSpan * Group) -> list (Overlap.OffsetSpan * Group)).
Context {F6 : F64} {Lib : Library} {HD : HttpData} (url_parse : bytes -> option ParsedUrl).
Context (actions : ScanRule -> Actions) (rule_capture_names : bytes -> list bytes).
Context (components_to_string : gmap bytes ComponentValue -> bytes).
Context (candidates_to_string : gmap bytes (list (bytes * (bytes * ComponentValue))) -> bytes).

(** The passes after the gate make up, change and reorder nothing: what is left
    of the findings of a blob, by rule, bytes, places, captures and origin, is a
    subsequence of what there was. *)
Lemma reduce_essence resources blob found :
  sublist (map essence (reduce lines_order groups_order url_parse actions rule_capture_names components_to_string candidates_to_string resources blob found))
    (map essence found).
Proof.
  unfold reduce. set (kept := associate _ _ _ _ _ _ _ _). set (rest := suppress_credential_uri_fallbacks kept).
  transitivity (map essence (apply_specificity lines_order blob rest)); [apply retain_sublist|].
  transitivity (map essence rest); [|transitivity (map essence kept); [apply retain_sublist|]].
  - unfold apply_specificity. destruct (existsb _ _); [|done]. apply sublist_omap. intros i x y.
    destruct (nth i (Specificity.keep _) true); [|done]. destruct (nth i _ false); by intros [= <-].
  - unfold kept, associate. destruct (negb _); [done|]. destruct (kept_findings _ _) as [keep ix]. apply sublist_omap. intros i x y.
    destruct (nth i keep false); [by intros [= <-]|done].
Qed.

Definition uri_secret (m : BlobMatch) : bytes :=
  if match_is_base64 m then match match_captures m with capture :: _ => cap_value capture | [] => matching_input m end else matching_input m.
Definition uri_entry (m : BlobMatch) : Overlap.Entry := (rule_of m, overlap_span (association_offset_span m), uri_secret m).

Lemma retain_map (keep : BlobMatch -> bool) l : retain (map keep l) l = List.filter keep l.
Proof.
  unfold retain, enumerate.
  assert (forall l front, omap (fun '(i, x) => if nth i (front ++ map keep l) true then Some x else None) (enumerate_from (length front) l) = List.filter keep l) as H.
  { clear l. induction l as [|x l IH]; intros front; [done|]. cbn [enumerate_from omap list_omap map List.filter].
    rewrite app_nth2, Nat.sub_diag by lia. cbn [nth]. specialize (IH (front ++ [keep x])). rewrite <-app_assoc in IH. cbn [app] in IH.
    rewrite length_app, Nat.add_1_r in IH. destruct (keep x); cbn; by rewrite IH. }
  apply (H l []).
Qed.

Lemma uri_pass found : (Z.of_nat (length found) <= USIZE_MAX)%Z ->
  suppress_credential_uri_fallbacks found = List.filter (fun m => uri_kept (map uri_entry found) (uri_entry m)) found.
Proof.
  intros Hlen.
  change (suppress_credential_uri_fallbacks found) with (retain (expect [] (credential_uri_keep control_default (map uri_entry found)) any_clock) found).
  rewrite (refines_expect [] (map (uri_kept (map uri_entry found)) (map uri_entry found))) by (apply uri_keep_refines; by rewrite length_map).
  rewrite map_map. apply retain_map.
Qed.

(** The duels of two catalogs over equal spans, as an elimination of pairs. *)
Definition duels (found : list BlobMatch) : list bool :=
  all_pairs (replicate (length found) true) (items 0 (map (fun m => (rule_of m, overlap_span (matching_input_offset_span m))) found)).

Lemma catalog_pass order found : (forall groups, order groups ≡ₚ groups) ->
  deduplicate_imported_catalog_matches order found = retain (duels found) found.
Proof.
  intros H. unfold deduplicate_imported_catalog_matches, duels.
  rewrite (refines_expect _ _ _ _ (catalog_keep_refines order control_default _ H)). by rewrite length_map.
Qed.

(** What the labelling by specificity says of the findings of a blob. *)
Definition loses (blob : bytes) (found : list BlobMatch) (i : nat) : Prop :=
  label (specificity_entries blob found) (component_attached blob found) i false.
Definition owned (blob : bytes) (found : list BlobMatch) (i : nat) : Prop :=
  exists w, owns (specificity_entries blob found) (component_attached blob found) w i.
Definition labelled (blob : bytes) (found : list BlobMatch) (gone quiet : nat -> bool) : Prop := forall i, i < length found ->
  (gone i = true <-> loses blob found i /\ ~ owned blob found i) /\ (quiet i = true <-> loses blob found i /\ owned blob found i).
Definition relabel (gone quiet : nat -> bool) (found : list BlobMatch) : list BlobMatch :=
  omap (fun '(i, m) => if gone i then None else Some (if quiet i then suppressed m else m)) (enumerate found).

(** Without a finding that is more specific than another nothing is labelled; so
    that the pass is left out then is not visible. *)
Lemma unspecific_keeps blob found i : existsb (fun m => negb (specificity (rule_of m) =? 0)%Z) found = false -> ~ loses blob found i.
Proof.
  intros Hall Hl. inversion Hl as [|? c (_ & _ & h & _ & _ & Hlt & _) _]; subst.
  assert (forall k, specificity_at (specificity_entries blob found) k = 0%Z) as H0; [|by rewrite !H0 in Hlt].
  intros k. unfold specificity_at, rule_at, specificity_entries. rewrite list_lookup_fmap.
  destruct (found !! k) as [m|] eqn:Em; [|done]. cbn. apply not_true_iff_false in Hall.
  destruct (specificity (rule_of m) =? 0)%Z eqn:E; [by apply Z.eqb_eq|]. exfalso. apply Hall, existsb_exists. exists m.
  split; [by apply list_elem_of_In; eapply list_elem_of_lookup_2|by rewrite E].
Qed.

Lemma specificity_pass order blob found : (forall lines, order lines ≡ₚ lines) ->
  exists gone quiet, labelled blob found gone quiet /\ apply_specificity order blob found = relabel gone quiet found.
Proof.
  intros Hlines. destruct (specificity_keep_outcome (specificity_entries blob found) (component_attached blob found) control_default order Hlines)
    as (o & Ho & Hlk & Hls & Hspec). unfold apply_specificity. destruct (existsb _ found) eqn:E.
  - rewrite (refines_expect _ _ _ _ Ho). exists (fun i => negb (nth i (Specificity.keep o) true)), (fun i => nth i (suppress_reporting o) false). split.
    + intros i Hi. unfold specificity_entries in Hspec. rewrite length_map in Hspec. specialize (Hspec i Hi).
      rewrite negb_true_iff. exact Hspec.
    + apply list_omap_ext, Forall_Forall2_diag, Forall_forall. intros [i m] _. by destruct (nth i _ true).
  - exists (fun _ => false), (fun _ => false). split; [|symmetry; by apply keep_all].
    intros i _. pose proof (unspecific_keeps blob found i E). split; (split; [done|tauto]).
Qed.

Lemma labelled_unique blob found gone quiet gone' quiet' :
  labelled blob found gone quiet -> labelled blob found gone' quiet' -> relabel gone quiet found = relabel gone' quiet' found.
Proof.
  intros H H'. apply list_omap_ext, Forall_Forall2_diag, Forall_forall. intros [i m] Hin%list_elem_of_In%in_enumerate%lookup_lt_Some.
  destruct (H i Hin) as [Hg Hq], (H' i Hin) as [Hg' Hq'].
  assert (gone i = gone' i) as -> by (apply eq_true_iff_eq; tauto). assert (quiet i = quiet' i) as -> by (apply eq_true_iff_eq; tauto). done.
Qed.

Abbreviation associated := (associate url_parse actions rule_capture_names components_to_string candidates_to_string).
Abbreviation reduced lines groups := (reduce lines groups url_parse actions rule_capture_names components_to_string candidates_to_string).

Lemma associate_length resources blob found : length (associated blob resources found) <= length found.
Proof.
  unfold associate. destruct (negb _); [done|]. destruct (kept_findings _ _) as [keep ix]. unfold enumerate. generalize 0.
  assert (forall (f : nat * BlobMatch -> option BlobMatch) l k, length (omap f (enumerate_from k l)) <= length l) as H; [|intros k; apply H].
  intros f l. induction l as [|m l IH]; intros k; [done|]. cbn [enumerate_from omap list_omap length]. specialize (IH (S k)).
  destruct (f (k, m)); cbn [length]; cbn [omap list_omap] in IH; lia.
Qed.

(** C1. What is done with the findings of a blob after the gate, for all orders in
    which the hash maps of its passes are gone through: the findings that the
    association leaves (their components: C5 and C6) lose, first, each visible one
    of a Betterleaks rule for credential URIs with a secret that a visible
    Betterleaks finding of another rule overlaps and holds in its own; then, of
    what is left, those go that the labelling by specificity marks and no visible
    finding owns, and those lose their report that it marks and one does own - the
    shortcut for blobs without a specific finding is not visible; then, of what is
    left, those stay that win every duel of two catalogs over their span. The
    order does not matter, and nothing is made up, changed or reordered: by rule,
    bytes, places, captures and origin the result is a subsequence of what there
    was. *)
Theorem reduce_exact resources blob found : (forall lines, lines_order lines ≡ₚ lines) -> (forall groups, groups_order groups ≡ₚ groups) ->
  (Z.of_nat (length found) <= USIZE_MAX)%Z ->
  let complete := associated blob resources found in
  let uncovered := List.filter (fun m => uri_kept (map uri_entry complete) (uri_entry m)) complete in
  exists gone quiet, labelled blob uncovered gone quiet /\
    let specific := relabel gone quiet uncovered in
    reduced lines_order groups_order resources blob found = retain (duels specific) specific /\
    sublist (map essence (reduced lines_order groups_order resources blob found)) (map essence found) /\
    forall lines groups, (forall l, lines l ≡ₚ l) -> (forall g, groups g ≡ₚ g) ->
      reduced lines groups resources blob found = reduced lines_order groups_order resources blob found.
Proof.
  intros Hlines Hgroups Hlen complete uncovered.
  assert (suppress_credential_uri_fallbacks complete = uncovered) as Huri.
  { apply uri_pass. pose proof (associate_length resources blob found). unfold complete. lia. }
  assert (forall lines groups gone quiet, (forall l, lines l ≡ₚ l) -> (forall g, groups g ≡ₚ g) -> labelled blob uncovered gone quiet ->
    reduced lines groups resources blob found = retain (duels (relabel gone quiet uncovered)) (relabel gone quiet uncovered)) as Hall.
  { intros lines groups gone quiet Hl Hg Hlab. unfold reduce. fold complete. rewrite Huri, catalog_pass by done.
    destruct (specificity_pass lines blob uncovered Hl) as (gone' & quiet' & Hlab' & ->).
    by rewrite (labelled_unique blob uncovered gone' quiet' gone quiet). }
  destruct (specificity_pass lines_order blob uncovered Hlines) as (gone & quiet & Hlab & _).
  exists gone, quiet. split; [done|]. split; [by apply Hall|]. split; [apply reduce_essence|].
  intros lines groups Hl Hg. by rewrite !(Hall _ _ gone quiet).
Qed.
End passes.

(** ** The scan *)

Section scan.
Context {F : F32} {F6 : F64} {Lib : Library} {Bld : Build} {RL : RegexLib} {Hsh : Hasher} {HD : HttpData} (engine : RegexEngine).
Context (path_regex_new : bytes -> option (bytes -> bool)) (keyword_regex_new : list bytes -> option (bytes -> bool)).
Context (render : bytes -> gmap bytes bytes -> option bytes) (parsers : UriParsers) (safe_list : SafeList).
Context (fx : list Hashed -> Z) (place : Texts -> Memory * BetterleaksFilterContext).
Context (vectorscan : bytes -> res (list (nat * nat))) (db : RulesDatabase).
Context (betterleaks_prefilter : option PathPrefilter) (prefilter_engine : RegexEngine).
Context (place_source : bytes -> option (list (bytes * bytes)) -> Memory * (str * str * option (list (bytes * str)))).
Context (resources : ResourceLimits) (re : Context.Captures) (css_parse : bytes -> list BodyItem) (tl_parse : bytes -> option (list Node)).
Context (lines_order : list (nat * list nat) -> list (nat * list nat)).
Context (groups_order : list (Overlap.OffsetSpan * Group) -> list (Overlap.OffsetSpan * Group)).
Context (url_parse : bytes -> option ParsedUrl) (actions : ScanRule -> Actions) (rule_capture_names : bytes -> list bytes).
Context (components_to_string : gmap bytes ComponentValue -> bytes).
Context (candidates_to_string : gmap bytes (list (bytes * (bytes * ComponentValue))) -> bytes).

Abbreviation scan get := (scan_blob engine path_regex_new keyword_regex_new render parsers safe_list fx place vectorscan db betterleaks_prefilter
  prefilter_engine place_source get resources re css_parse tl_parse lines_order groups_order url_parse actions rule_capture_names
  components_to_string candidates_to_string).

(** C19. Every scan ends: with as many turns per loop as the blob has bytes and, for
    a blob that the gate reads as CSS or HTML, the declared values of its own
    sheets have tokens, whatever the matcher has seen, the options and the limits
    are. Left out are such pages with a value that holds a [!] before a final
    [!important], on which the reading of the value never ends ([css_value_ends]);
    four Base64 characters decode to at most three bytes. *)
Theorem scan_blob_ends standard url_safe url_safe_no_pad clock fuel options blob_id blob paths default_attributes st :
  captures_ok re -> (gated blob (language_hint options) = true -> gate_ok css_parse tl_parse fuel blob (language_hint options) = true) ->
  shrinks standard -> shrinks url_safe -> shrinks url_safe_no_pad -> length blob <= fuel ->
  scan (fun l => get_base64_strings standard url_safe url_safe_no_pad l clock) fuel options blob_id blob paths default_attributes st <> None.
Proof.
  intros Hre Hcss H1 H2 H3 Hfuel. set (get l := get_base64_strings standard url_safe url_safe_no_pad l clock).
  assert (forall l, weight (get l) <= length l) as Hget by (intros l; by apply strings_weight).
  unfold scan_blob. destruct (source_of _ _ _ _ _) as [[[filename attributes] prefiltered]| |]; [|done|done].
  destruct (_ && _); [done|]. cbv zeta. set (source := {| source_blob := blob |}).
  destruct (find_all _ _ _ _ _ _ _ _ _ _ _ _ _ _ _ source _) as [[s items]| |] eqn:Ef; [|done|done].
  assert (weight items <= fuel) as Hw.
  { unfold find_all in Ef. destruct (path_only_rules_for_source _ _ _ _ _ _ _ _ _ _ _) as [path_only| |]; [|done|done]. cbn [mbind res_bind] in Ef.
    destruct (scan_and_process_raw_matches _ _ _ _ _ _ _ _ _ _ _ _) as [s1| |]; [|done|done]. cbn [mbind res_bind] in Ef. injection Ef as _ <-.
    destruct (_ || _); [cbn; lia|]. specialize (Hget blob). cbn. lia. }
  unfold finish. destruct (bool_decide _ && is_nil items); [done|].
  assert (forall s, apply_markup_context_gate db (all_matches s) (rule_indices s) re css_parse tl_parse fuel (source_blob source) (language_hint options) <> None) as Hgate.
  { intros s1. by rewrite gate_exact. }
  destruct (no_base64 options).
  - cbn [mbind option_bind]. specialize (Hgate s). by destruct (apply_markup_context_gate _ _ _ _ _ _ _ _ _).
  - unfold scan_base64. pose proof (scan_texts_fuel engine path_regex_new keyword_regex_new render parsers safe_list fx place vectorscan db source get Hget
      resources items s (fuel - weight items)) as [Hn _]. replace (weight items + (fuel - weight items)) with fuel in Hn by lia.
    destruct (b64_loop _ _ _ _ _ _ _ _ _ _ _ _ _ fuel _ s) as [[s1| |]|]; [|done|done|done]. cbn [mbind option_bind].
    specialize (Hgate s1). by destruct (apply_markup_context_gate _ _ _ _ _ _ _ _ _).
Qed.

(** A blob is reported once: after a scan that gave findings of a blob, another
    scan of it only says that it had findings, and changes nothing of what is
    noted about blobs; and no scan gives findings of a blob that is noted. *)
Theorem blob_reported_once get fuel options blob_id blob paths default_attributes st found st' : no_dedup options = false -> found <> [] ->
  scan get fuel options blob_id blob paths default_attributes st = Some (Ok (New found, st')) ->
  seen_blobs st !! blob_id = None /\ seen_blobs st' = <[blob_id := true]> (seen_blobs st) /\
  exists st'', scan get fuel options blob_id blob paths default_attributes st' = Some (Ok (SeenWithMatches, st'')) /\ seen_blobs st'' = seen_blobs st'.
Proof.
  intros Hdedup Hfound. unfold scan_blob. rewrite Hdedup. destruct (source_of _ _ _ _ _) as [[[filename attributes] prefiltered]| |]; [|done|done].
  destruct (_ && _); [by intros [= <-]|]. cbv zeta. set (source := {| source_blob := blob |}).
  destruct (find_all _ _ _ _ _ _ _ _ _ _ _ _ _ _ _ source _) as [[s items]| |]; [|done|done].
  destruct (finish _ _ _ _ _ _ _ _ _ _ _ _ _ _ _ _ _ _ _ _ _ _ fuel source _ _ s items) as [[ms| |]|]; [|done|done|done]. cbn [mbind option_bind res_bind].
  destruct (bool_decide _ && is_nil items); [by intros [= <-]|].
  destruct ms as [|m ms]; [by intros [= <-]|]. cbn [report_blob]. unfold count_seen, count_scanned. cbn [seen_blobs local_stats].
  destruct (seen_blobs st !! blob_id) as [[]|] eqn:E; [done|done|]. intros [= _ <-]. cbn [seen_blobs]. split; [done|]. split; [done|].
  rewrite lookup_insert_eq. eexists. split; [done|]. cbn [seen_blobs]. by rewrite insert_insert_eq.
Qed.
End scan.

(** ** An example *)

Module Whole.
Import FilterExact.Concrete MatchExact.Example RawScanExact.Toy.

#[local] Instance no_http : HttpData := {| ResponseMatcher := unit; MultipartConfig := unit; HttpValidationAuth := unit; ResponseExtractor := unit |}.
Definition no_actions (_ : ScanRule) : Actions := {| validation_action := None; revocation := None; fallbacks := []; authoritative := false |}.
Definition nowhere (_ : bytes) (_ : option (list (bytes * bytes))) : Memory * (str * str * option (list (bytes * str))) :=
  ({| text_at _ _ := []; owned_at _ := 0%Z |}, ((0%Z, 0), (0%Z, 0), None)).
Definition toy_get (l : bytes) : list DecodedData :=
  get_base64_strings three_quarters three_quarters three_quarters l any_clock.

(** A page whose texts hold the secrets of two of three findings, one of them in
    its style sheet. *)
Definition key_regex : RuleRegex := {|
  captures_iter h := match find_text (bs "KEY") h with Some i => [capture i (i + 4) i (i + 4)] | None => [] end;
  find_at h from := match find_text (bs "KEY") (drop from h) with Some i => Some (from + i, from + i + 4) | None => None end;
  match_maximum_len := Some 4%Z
|}.
Definition page_db : RulesDatabase := {|
  rules := [scan_rule "one" None]; anchored_regexes := [key_regex]; self_identifying_flags := [false];
  vectorscan_prefilter_flags := [false]; betterleaks_rule_flags := [false]
|}.
Definition in_page (secret : string) : BlobMatch := {|
  match_rule := scan_rule "one" None; matching_input := bs secret; matching_input_offset_span := mkSpan 0 4;
  association_offset_span := mkSpan 0 4; match_captures := []; validation_outcome := NotAttempted; calculated_entropy := 0%Z;
  match_is_base64 := false; dependent_captures := ∅; ambiguous_dependencies := ∅; dependency_candidates := ∅
|}.
Definition page_sheet (text : bytes) : list BodyItem := [QualifiedRule [Declaration (bs "a") [WhiteSpace; QuotedString text; Delim (bs "!"); Ident (bs "important")]]].
Definition page_nodes : list Node :=
  [Tag (bs "p") [(bs "a", Some (bs "KEY0"))] [] [Some (Markup.Raw (bs "KEY9"))]; Tag (bs "style") [] (bs "KEY2") []].
Definition page_findings : list BlobMatch := [in_page "KEY0"; in_page "KEY1"; in_page "KEY2"].
Definition page_gate : option (list BlobMatch) :=
  apply_markup_context_gate page_db page_findings [0; 0; 0] split_captures page_sheet (fun _ => Some page_nodes) 5 (bs "<p>") (Some (bs "HTML")).
Example page_gate_keeps : option_map (map matching_input) page_gate = Some [bs "KEY0"; bs "KEY2"].
Proof. vm_compute. reflexivity. Qed.


(** Findings of which each pass takes one: a credential URI that a more specific
    rule covers, a generic value inside a specific one, and the loser of a duel of
    two catalogs; and one that its owner keeps from the report only. *)
Definition under (r : Rule) (start end_ : nat) (secret : string) : BlobMatch := {|
  match_rule := {| base := r; name := id r; path := None; keywords := []; min_entropy := 0%Z; confidence := Low; pattern_requirements := None;
    betterleaks_filter := None; betterleaks_secret_group := None; betterleaks_path_only := false |};
  matching_input := bs secret; matching_input_offset_span := mkSpan start end_; association_offset_span := mkSpan start end_;
  match_captures := []; validation_outcome := NotAttempted; calculated_entropy := 0%Z; match_is_base64 := false;
  dependent_captures := ∅; ambiguous_dependencies := ∅; dependency_candidates := ∅
|}.
Definition crowded : list BlobMatch :=
  [under (uri_rule (bs "betterleaks.uri") (Some CredentialUri)) 0 20 "pw";
   under (uri_rule (bs "betterleaks.postgres") None) 5 12 "x-pw-y";
   under (spec_rule (bs "special") true 5 []) 21 30 "abcdef";
   under (spec_rule (bs "generic") true 0 []) 23 26 "cde";
   under (cat_rule (bs "betterleaks.b") None) 30 34 "keys";
   under (cat_rule (bs "veles.c") (Some Http)) 30 34 "keys"].
Abbreviation reduce_crowded lines groups := (reduce lines groups (fun _ => None) no_actions (fun _ => []) (fun _ => []) (fun _ => [])
  limits_default (bs "0123456789012345678901234567890123456789") crowded).

Lemma reduce_exact_witness : map finding_id (reduce_crowded (@rev _) (@rev _)) = [bs "betterleaks.postgres"; bs "special"; bs "veles.c"].
Proof.
  destruct (reduce_exact (fun l => l) (fun l => l) (fun _ => None) no_actions (fun _ => []) (fun _ => []) (fun _ => [])
    limits_default (bs "0123456789012345678901234567890123456789") crowded) as (gone & quiet & _ & _ & _ & H); [done|done|vm_compute; discriminate|].
  rewrite H.
  - vm_compute. reflexivity.
  - intros lines. symmetry. apply Permutation_rev.
  - intros groups. symmetry. apply Permutation_rev.
Defined.

Definition toy_options : ScanOptions := {|
  no_dedup := false; no_base64 := false; respect_ignores := true; inline_config := config_new []; language_hint := Some (bs "css")
|}.
Definition toy_scan (st : MatcherState) : option (res (ScanResult * MatcherState)) :=
  scan_blob (filter_engine line_engine) (fun _ => None) keyword_search toy_render no_parsers no_safe_list key placed toy_vectorscan toy_db None
    (filter_engine line_engine) nowhere toy_get limits_default split_captures page_sheet (fun _ => None) (@rev _) (@rev _)
    (fun _ => None) no_actions (fun _ => []) (fun _ => []) (fun _ => []) 100 toy_options (bs "id") (bs "a = KEY0") [(bs "src/test.rs", [])] (fun _ => []) st.
Definition fresh : MatcherState := {| local_stats := {| blobs_seen := 0; bytes_seen := 0; blobs_scanned := 0; bytes_scanned := 0 |}; seen_blobs := ∅ |}.

Lemma scan_blob_ends_witness : toy_scan fresh <> None.
Proof.
  assert (length (bs "a = KEY0") <= 100) as Hlen by (vm_compute; lia).
  unfold toy_scan, toy_get.
  refine (scan_blob_ends (filter_engine line_engine) (fun _ => None) keyword_search toy_render no_parsers no_safe_list key placed toy_vectorscan toy_db None
    (filter_engine line_engine) nowhere limits_default split_captures page_sheet (fun _ => None) (@rev _) (@rev _)
    (fun _ => None) no_actions (fun _ => []) (fun _ => []) (fun _ => []) three_quarters three_quarters three_quarters any_clock 100 toy_options
    (bs "id") (bs "a = KEY0") [(bs "src/test.rs", [])] (fun _ => []) fresh split_captures_ok _
    three_quarters_shrinks three_quarters_shrinks three_quarters_shrinks Hlen). intros _. vm_compute. reflexivity.
Defined.

Definition toy_result : list BlobMatch * MatcherState := Eval vm_compute in
  match toy_scan fresh with Some (Ok (New found, st)) => (found, st) | _ => ([], fresh) end.

Lemma blob_reported_once_witness : map matching_input toy_result.1 = [bs "KEY0"] /\
  exists st, toy_scan toy_result.2 = Some (Ok (SeenWithMatches, st)) /\ seen_blobs st = seen_blobs toy_result.2.
Proof.
  split; [reflexivity|].
  assert (toy_scan fresh = Some (Ok (New toy_result.1, toy_result.2))) as H by (vm_compute; reflexivity).
  assert (toy_result.1 <> []) as Hne by (vm_compute; discriminate). unfold toy_scan in *.
  exact (proj2 (proj2 (blob_reported_once (filter_engine line_engine) (fun _ => None) keyword_search toy_render no_parsers no_safe_list key placed toy_vectorscan toy_db None
    (filter_engine line_engine) nowhere limits_default split_captures page_sheet (fun _ => None) (@rev _) (@rev _)
    (fun _ => None) no_actions (fun _ => []) (fun _ => []) (fun _ => []) toy_get 100 toy_options
    (bs "id") (bs "a = KEY0") [(bs "src/test.rs", [])] (fun _ => []) fresh toy_result.1 toy_result.2 eq_refl Hne H))).
Defined.
End Whole.
